(* ===== verification/_CoqProject ===== *)
-Q . S2P
Prelude.v
CrashSafe.v
Utf8.v
GitEol.v
Floats.v
ObservationKinds.v
ReplayModes.v
ApprovalReducer.v
TerminalStatus.v
CompletionTracker.v
CapacityState.v
PromptAuthority.v
ObservedStatus.v
PublicationAuthority.v
CanonicalJson.v
SessionDelta.v
WorkspaceUpdates.v
PlanData.v
PlanGraph.v
Coordinator.v
StrictJson.v
CompletionPacket.v
ProposedChange.v
Rollup.v
RecommendationGraph.v
RecordCodec.v
GraphTransaction.v
RecommendationStore.v
TerminalText.v
UsageLimit.v
Peon.v
SessionMeta.v
MetadataMutations.v
MetadataStore.v
AgentPatch.v
ObservationLog.v
Evaluation.v
RecommendationAudit.v
RecommendationRefresh.v
ObservationStore.v
ObservationRetry.v
ObservationDeletion.v
ObservationSample.v
SessionArchive.v
Retention.v
SessionActions.v
SessionSample.v
SpamCleanup.v
