(* ===== verification/Prelude.v ===== *)
(** * The decision logic of orkworksd

    [orkworksd] (crates/orkworksd) is the daemon behind the OrkWorks desktop
    application.  It runs coding-agent sessions in pseudo terminals, decides what a
    user is shown of them (needs attention, waits for a permission, hit a usage
    limit), and hosts the Taskmaster, which turns observations and plans into
    recommendations, approvals and bounded work.  Around that logic the daemon is
    I/O: axum handlers, SQLite, files, git, child processes.  This development models
    the components that decide, each from its Rust source under crates/orkworksd/src,
    and proves what their callers rely on.  The I/O is not modelled.

    ** How the parts interact

    A session's output goes through [ReplayBuffer] (session_runtime.rs), so that a
    terminal that attaches later can be brought up to date, as stripped and rejoined
    lines through the [RingBuffer] of the peon (peon.rs), whose lines and raw tail the
    usage-limit scanner reads for [CapacityState], and through the [Reader] of Codex
    status reports.  Hooks of a
    Codex session go to the [ApprovalReducer] or the completion [Tracker]; both grant
    effects that the application applies later under its own lock, and both must be
    able to revoke a grant in between.  A prompt wait is shown only for the native
    session that [PromptAuthority] trusts, and written under a token of
    [AttentionOwner] (observed_status.rs).  What is known of a session is its record
    (metadata.rs): hooks, agents, the peon and the user change it by mutations that
    respect each other's fields, the store commits them under revisions and owners, and
    every read normalises what is on disk.  The Taskmaster parses knowledge records
    strictly, groups recommendations into rollups (with proposed changes), validates
    completion packets, plans and approvals, and publishes evaluations under the
    [PublicationAuthority].  The observations it starts from are reports of agents and
    of the peon's scans, kept in the workflow-observation store, a segment per session.
    A session ends by actions of the user (close, archive, restore, delete) and by the
    cleanup pass, which share the ordered deletion of all that is kept of a session.
    From the observations the evaluation proposes recommendations, one per family.
    Recommendations are files; the store changes one in place or several at once by
    transactions that survive a stop, keeps the graph of roll-ups valid and deletes whole
    families with a session.  The session application refreshes the store from an
    evaluation, and an audit proposes to dismiss what does not deserve its place, as a card
    that the user may accept.  A connected desktop is told what changed by the loop of
    workspace_updates.rs.  The changes of a branch are shown against Git's blobs, for
    which files are cleaned of CRLF as Git would.

    ** Files

    - Prelude.v: machine integers, [result], the library functions of [Option] and
      [Vec], the classes [Machine] (a deterministic object with its calls, [run],
      [reachable], invariants) and [EffectGate] (grants with a stamp, of which a
      revoked one is never accepted again), tactics and the hint database [rust].
    - CrashSafe.v: programs of effects that may fail or stop, or, for an [exists], take
      the failure for absence, with a Hoare logic that has a crash condition, and one for
      runs without faults.
    - Utf8.v: texts as bytes, the UTF-8 validation loop, character classes, string
      methods, byte order of strings.
    - GitEol.v: git_changes_eol.rs and the comparison of large files in git_changes_fs.rs.
    - Floats.v: binary64 numbers.
    - ObservationKinds.v: the enumerations of workflow_observations.rs.
    - ReplayModes.v: runtime/terminal_replay_modes.rs and [ReplayBuffer] of
      runtime/session_runtime.rs.
    - ApprovalReducer.v: runtime/codex_approval.rs.
    - TerminalStatus.v: runtime/codex_terminal_status.rs.
    - CompletionTracker.v: runtime/codex_completion.rs.
    - CapacityState.v: capacity_state.rs.
    - PromptAuthority.v: runtime/prompt_authority.rs.
    - ObservedStatus.v: runtime/observed_status.rs and [canonical_attention] of
      metadata.rs.
    - PublicationAuthority.v: taskmaster/publication_authority.rs.
    - SessionDelta.v, WorkspaceUpdates.v: workspace_updates.rs (the delta of two answers,
      with the desktop's side of it in apps/desktop/src/workspaceUpdates.ts; the hub, the
      guards and the loop of a subscription as a machine over its awaits).
    - CanonicalJson.v, PlanData.v, PlanGraph.v, Coordinator.v: taskmaster/coordinator.rs
      (the canonical form, the validators of fields, the cycle check, and plans,
      approvals, status and capability requests).
    - StrictJson.v: taskmaster/knowledge/strict_json.rs.
    - CompletionPacket.v: taskmaster/completion.rs.
    - ProposedChange.v: taskmaster/proposed_change.rs before the file-system checks.
    - Rollup.v: taskmaster/rollup.rs.
    - RecommendationGraph.v, GraphTransaction.v: taskmaster/store.rs (ids, the graph and
      its validation, the deletion closure; commit, publication, rollback and recovery
      effect by effect).  RecommendationStore.v: the operations of the store over them,
      with [report_completion_packet] and [complete_recommendation_with_packet] of
      session_application.rs; RecordCodec.v is a text of records for its samples.
    - Evaluation.v: [evaluate_workflow_improvements] of taskmaster/mod.rs.
    - RecommendationAudit.v: taskmaster/audit.rs.  RecommendationRefresh.v: the refresh,
      the run of the audit and the acceptance of its card in session_application.rs.
    - TerminalText.v, UsageLimit.v, Peon.v: peon.rs (stripping and trimming of output,
      joining of rows; banners and hints, with capacity_analysis.rs; the ring buffer,
      labels and replies, with the input sensitivity of runtime/terminal_runtime.rs).
    - SessionMeta.v: the session record of metadata.rs, its clocks and sources,
      normalisation on reading, orphan recovery and the resume choices.
    - MetadataMutations.v: metadata/internal_mutations.rs, lifecycle_mutations.rs and the
      merges of metadata.rs.
    - MetadataStore.v: metadata/session_transactions.rs and the owned writes of
      metadata.rs, as a machine over the files of the records.
    - AgentPatch.v: metadata/agent_patch.rs.
    - ObservationLog.v, ObservationStore.v: workflow_observations.rs (its records,
      rules and segment text; the store, with workflow_observations/captured.rs and
      deletion.rs).  ObservationRetry.v and ObservationDeletion.v prove what the store
      promises, ObservationSample.v instantiates its arguments.  SpamCleanup.v: the
      background trim of runtime/retention.rs.
    - SessionArchive.v: session_archive.rs.  Retention.v: runtime/retention.rs with the
      deletions of metadata.rs it uses.  SessionActions.v: session_actions.rs, as a
      machine that interleaves the parts of actions.  SessionSample.v instantiates the
      arguments.

    A method that takes [&mut self] is a function from the state to the next state
    and what it returns; a [Result] is [result E A], an early return with [?] its bind;
    objects behind an [Arc] whose identity matters are cells of a heap
    (PublicationAuthority.v) or numbers that are never reused.  Definitions keep the
    names of the code.  A loop is a [Fixpoint] over the list it consumes.

    ** What the theorems show

    - Replay: a terminal that is fed a snapshot ends in the state of one that was fed
      the whole output, however much was evicted ([replay_snapshot_faithful]); the
      window kept, the meaning of mode sequences, inert string payloads, bounded
      parser storage.
    - Grants: every effect of the approval reducer is justified by the state and by
      fresh evidence, an overdue wait is offered, completion clears it, and a revoked
      effect is never accepted again; the tracker grants exactly on contiguous events
      of an active submission and nothing on a broken stream.
    - Status: the Codex report reader classifies exactly the framed reports; the
      usage-limit latch is cleared only by a clean scan of the armed window, and its
      revision is ABA-safe; a write token owns the status iff nothing was written.
    - Output: no escape sequence survives stripping, and a trimmed buffer reads as a
      suffix of the whole; every row is in one line; a usage limit is latched only by
      banner rows, plain ones are not missed, and neither the bounded search nor the
      cache of evidence changes a result.
    - Input: what a user types is kept only if no password prompt is in view, however
      output interleaves; a label keeps the pull requests of the input; a reply's JSON
      is the first balanced object.
    - Identity: a session's native id changes only by a first binding or by completing
      an acknowledged reset; revocation is final; the newest wait is queued.
    - Publication: one claim at a time with fresh numbers; retiring a binding, a scope
      or a workspace is final.
    - Session records: every mutation keeps the lifecycle typed, and reading gives a
      consistent record whatever is stored; attention of the user is changed by nothing
      but the end, an agent's signal stands against the peon for its window, the first
      accepted end is final; of two updates of one revision at most one commits, and a
      call that fails or declines leaves every file and owner as it was; an agent's patch
      writes only fields it may, all or nothing.
    - Observations: a retry within fifteen minutes is answered like the accepted report,
      and a session has at most sixty accepted in any minute, across evictions, trims and
      restarts; sequences only grow while every start can read the counter; a deletion
      revokes the writers captured before; a trim removes only repeated reports and is
      stable; a segment reads back, each record with its fields and the confidence that
      serde's parser of numbers gives, also after an append that stopped half-way, but not
      when a lone newline was lost.
    - Ends of sessions: an archived session stays so until somebody asks otherwise; no
      action or cleanup touches a live session; one action runs at a time and a stale
      one is refused; the parts of a session go in an order that leaves it retryable,
      and the cleanup takes the oldest unprotected ones; the check at startup protects
      what the store does not read as closed.
    - Recommendations: the validation of the graph accepts exactly the well-formed ones;
      deletion ends with the least closed family and keeps the graph valid; a
      transaction is atomic across faults, stops and repeated recoveries, and a recovery
      without faults succeeds, as long as no [exists] takes the failure of its call for
      absence; one that does tears a half-published transaction for good
      ([failed_exists_tears]), of which every file is still that of before or of after.
    - The store: whatever operations run, with any faults and stops under the same
      condition, the store stays readable and what is at its end stays; from files without
      a pending transaction and whatever fails, a delivery is reserved for one session, a
      completion is counted once, a transaction does exactly what it was asked.
    - Proposals: a proposal cites exactly its family's evidence, a dismissal is respected,
      the order of the map does not show; an ended family returns, and an update in place
      drops what the record superseded, so that an audit flags it.
    - Audit and refresh: a card lists exactly what deserves it, the walk along superseded
      records ends; a refresh, an audit and an acceptance are each stored at once or not at
      all, whatever fails, a refresh as exactly the proposals and the parents projected in
      their turn ([refreshed_to]); at most one card is open; a packet of a roll-up parent can
      block all refreshes.
    - Desktop: a delta is exactly the change; a desktop accepts all that one connection
      sends, has the current rows when the loop waits quietly, although changes may come
      between the capture of the revisions, the read of the query and the end of its await,
      and a refresh catches up.
    - Git: a large file is taken for unchanged exactly when Git would store the expected
      blob, never without having been read; automatic cleaning is stable.
    - Plans: an accepted plan is an acyclic graph of distinct valid nodes with a
      covered budget and its own digests; the cycle check terminates and is exact;
      activation needs exactly a current approval of this revision; a persisted
      revision round-trips; canonical bytes do not depend on the order of members.
    - Taskmaster input: the strict parser accepts exactly a grammar that is defined
      apart from it, and always ends; accepted clusters are disjoint and independent of
      the answer's order; a batch keeps groups whole and starves none; a proposed
      change stays inside the workspace; a packet reaches the user only on independent
      evidence, and an approval cannot be moved to other evidence.

    ** Bounds and fuel

    Integers are [Z] with the width written at the operation ([checked_add u64_max],
    [saturating_add], [wrapping_add]).  Some recursions are not structural.  The cycle
    check has fuel one above the number of nodes, enough because every nested visit
    adds a node to the set being visited ([check_cycles_spec]).  The JSON scanner has
    fuel twice the length of the source plus four: a value and an item of a list each
    take one unit and consume at least one byte ([scanner_enough]); a string takes the
    length of the source ([string_loop_fuel]).  A loop of
    peon.rs that consumes text has the length of the text ([strip_loop_fuel],
    [safe_drop_loop_spec], [explicit_pr_loop_spec]), the parser of a segment as many
    rounds as the file has bytes ([parse_loop_fuel]).  The deletion loop has one round
    more than there are ids in sight, and a round that changes anything adds one
    ([deletion_rounds_spec]).  The walk of the audit has two steps more than there are
    records, and visits each at most once ([chain_walk_start]).  The theorems say that the fuel does
    not run out, not only that the result is right if it does not.

    ** Arguments and abstractions

    A confidence is an [f64], here [spec_float] with the precision of binary64, whose
    comparisons are total on NaN as the code's.  A disk ([Disk]) answers whether staging
    and renaming succeed; the JSON form of a record is an argument with its round trip
    as a hypothesis where a theorem needs it.  Files, git and pinned documents that an
    agent's patch names are answered by the record [Places].
    Code of other crates is an argument of the definitions that use it: the SHA-256
    digest in hexadecimal, serde's derived JSON forms and decoders (of observations only
    the text of an object and the numbers it rounds) and chrono's date parser, the [stable_id] of the standard library's hasher and the order in which a
    [HashMap] is iterated; so are the Unicode tables of the standard library ([str::to_lowercase],
    [char::to_uppercase], [is_alphanumeric], [is_alphabetic]).  Instants are integers
    (nanoseconds, or microseconds where the code has them).  Concurrency is modelled by
    the sequence of critical sections: every modelled object is only touched under its
    owner's lock, so a run is an interleaving of whole calls.  Code under [cfg(test)] is
    left out.

    ** Not modelled

    The handlers and what else is behind them (the rest of session_application.rs, http,
    SQLite), the redaction of assessments, the validation of readiness references, the
    migration of legacy file names of roll-ups, PTY
    threads and channels, the native Codex server, git, providers, and the prompts and
    typed replies of the peon: they are I/O or glue around external programs.  Records
    are restricted to the fields the modelled functions read where the file says so.

    ** Next

    The quota and row codecs of hierarchy_storage, the record protocol of
    coordinator_store.rs, and the assessment model. *)
From stdpp Require Export base tactics numbers list strings gmap sorting.
From Stdlib Require Export ZArith Lia.
#[export] Set Default Goal Selector "!".
#[global] Open Scope Z_scope.

(** ** Machine integers *)

Definition u8_max : Z := 255.
Definition u16_max : Z := 65535.
Definition u64_max : Z := 18446744073709551615.

(** A value of an unsigned type whose largest value is [max]. *)
Definition in_width (max n : Z) : Prop := 0 <= n <= max.
Abbreviation is_u8 := (in_width u8_max).
Abbreviation is_u16 := (in_width u16_max).
Abbreviation is_u64 := (in_width u64_max).

(** [checked_add] and [checked_mul] of an unsigned type. *)
Definition checked_add (max a b : Z) : option Z :=
  if a + b <=? max then Some (a + b) else None.
Definition checked_mul (max a b : Z) : option Z :=
  if a * b <=? max then Some (a * b) else None.
(** [saturating_add], [saturating_sub] and the wrapping [+] of a release build. *)
Definition saturating_add (max a b : Z) : Z := Z.min max (a + b).
Definition saturating_sub (a b : Z) : Z := Z.max 0 (a - b).
Definition wrapping_add (max a b : Z) : Z := (a + b) mod (max + 1).

Lemma checked_add_Some max a b c :
  checked_add max a b = Some c ↔ c = a + b ∧ a + b <= max.
Proof.
  unfold checked_add. destruct (a + b <=? max) eqn:E.
  - apply Z.leb_le in E. naive_solver.
  - apply Z.leb_gt in E. split; [done|lia].
Qed.

Lemma checked_add_None max a b : checked_add max a b = None ↔ max < a + b.
Proof.
  unfold checked_add. destruct (a + b <=? max) eqn:E.
  - apply Z.leb_le in E. split; [done|lia].
  - apply Z.leb_gt in E. done.
Qed.

(** ** [Result]

    The error comes first, as in [Result<T, E>] with a fixed error type. *)
Inductive result (E A : Type) : Type :=
  | Ok (a : A)
  | Err (e : E).
#[global] Arguments Ok {E A} a.
#[global] Arguments Err {E A} e.

(** The [?] operator. *)
#[export] Instance result_bind E : MBind (result E) :=
  λ A B f m, match m with Ok a => f a | Err e => Err e end.
#[export] Instance result_eq_dec E A `{EqDecision E, EqDecision A} : EqDecision (result E A).
Proof. solve_decision. Defined.

Definition is_ok {E A} (m : result E A) : bool := match m with Ok _ => true | Err _ => false end.
(** [ok_or] and a guard that returns early. *)
Definition ok_or {E A} (e : E) (o : option A) : result E A :=
  match o with Some a => Ok a | None => Err e end.
Definition ensure {E} (b : bool) (e : E) : result E unit := if b then Ok tt else Err e.

Lemma result_bind_Ok {E A B} (m : result E A) (f : A → result E B) b :
  m ≫= f = Ok b ↔ ∃ a, m = Ok a ∧ f a = Ok b.
Proof.
  destruct m as [a|e]; simpl; [|split; [done|by intros (? & ? & _)]].
  split; [by exists a|by intros (? & [= ->] & ?)].
Qed.
Lemma ensure_Ok {E} b (e : E) u : ensure b e = Ok u ↔ b = true.
Proof. unfold ensure. destruct b, u; done. Qed.
Lemma ok_or_Ok {E A} (e : E) (o : option A) a : ok_or e o = Ok a ↔ o = Some a.
Proof. destruct o; simpl; split; congruence. Qed.

(** ** Instants

    [std::time::Instant] and [chrono::DateTime<Utc>] are integers; the unit of
    an [Instant] is the nanosecond. *)
Definition checked_duration_since (now earlier : Z) : option Z :=
  if earlier <=? now then Some (now - earlier) else None.

(** ** Options and lists of the Rust standard library *)

(** [Option::is_some_and] and [Option::is_none_or]. *)
Definition is_some_and {A} (o : option A) (p : A → bool) : bool :=
  match o with Some x => p x | None => false end.
Definition is_none_or {A} (o : option A) (p : A → bool) : bool :=
  match o with Some x => p x | None => true end.
Definition is_some {A} (o : option A) : bool :=
  match o with Some _ => true | None => false end.
Definition is_none {A} (o : option A) : bool :=
  match o with Some _ => false | None => true end.
(** [Option::filter]. *)
Definition opt_filter {A} (p : A → bool) (o : option A) : option A :=
  match o with Some x => if p x then Some x else None | None => None end.
(** [Option::or_else] for an alternative without effects. *)
Definition opt_or {A} (o o' : option A) : option A :=
  match o with Some x => Some x | None => o' end.

(** [==] on a type with decidable equality, as a boolean. *)
Definition eqb {A} `{EqDecision A} (x y : A) : bool := bool_decide (x = y).

(** [Iterator::position]. *)
Fixpoint position {A} (p : A → bool) (l : list A) : option nat :=
  match l with
  | [] => None
  | x :: l => if p x then Some O else S <$> position p l
  end.

Declare Scope rust_scope.
Delimit Scope rust_scope with rust.
Notation "x == y" := (eqb x y) (at level 70, no associativity) : rust_scope.
Notation "x != y" := (negb (eqb x y)) (at level 70, no associativity) : rust_scope.
#[global] Open Scope rust_scope.

Section options.
Context {A : Type}.
Implicit Types (o : option A) (p : A → bool).

Lemma is_some_and_true o p : is_some_and o p = true ↔ ∃ x, o = Some x ∧ p x = true.
Proof. destruct o; naive_solver. Qed.
Lemma is_some_and_false o p :
    is_some_and o p = false ↔ o = None ∨ ∃ x, o = Some x ∧ p x = false.
Proof. destruct o; naive_solver. Qed.
Lemma is_none_or_true o p : is_none_or o p = true ↔ ∀ x, o = Some x → p x = true.
Proof. destruct o; naive_solver. Qed.
Lemma is_some_true o : is_some o = true ↔ ∃ x, o = Some x.
Proof. destruct o; naive_solver. Qed.
Lemma is_some_false o : is_some o = false ↔ o = None.
Proof. destruct o; naive_solver. Qed.
Lemma is_none_true o : is_none o = true ↔ o = None.
Proof. destruct o; naive_solver. Qed.
Lemma is_none_false o : is_none o = false ↔ ∃ x, o = Some x.
Proof. destruct o; naive_solver. Qed.
Lemma opt_filter_Some o p x : opt_filter p o = Some x ↔ o = Some x ∧ p x = true.
Proof.
    destruct o as [y|]; simpl; [|split; [done|by intros [? _]]].
    destruct (p y) eqn:E.
    - split; [by intros [= ->]|by intros [? _]].
    - split; [done|]. intros [[= ->] ?]. congruence.
  Qed.
End options.

Lemma eqb_true {A} `{EqDecision A} (x y : A) : (x == y) = true ↔ x = y.
Proof. unfold eqb. apply bool_decide_eq_true. Qed.
Lemma eqb_false {A} `{EqDecision A} (x y : A) : (x == y) = false ↔ x ≠ y.
Proof. unfold eqb. apply bool_decide_eq_false. Qed.
Lemma eqb_refl {A} `{EqDecision A} (x : A) : (x == x) = true.
Proof. by apply eqb_true. Qed.

Lemma neqb_refl {A} `{EqDecision A} (x : A) : (x != x) = false.
Proof. by rewrite eqb_refl. Qed.

Lemma eqb_elim {A} `{EqDecision A} (x y : A) : (x == y) = true → x = y.
Proof. by rewrite eqb_true. Qed.
Lemma neqb_true {A} `{EqDecision A} (x y : A) : (x != y) = true ↔ x ≠ y.
Proof. by rewrite negb_true_iff, eqb_false. Qed.
Lemma neqb_false {A} `{EqDecision A} (x y : A) : (x != y) = false ↔ x = y.
Proof. by rewrite negb_false_iff, eqb_true. Qed.
Lemma neqb_elim {A} `{EqDecision A} (x y : A) : (x != y) = false → x = y.
Proof. by rewrite neqb_false. Qed.

Lemma existsb_false {A} (f : A → bool) l : existsb f l = false ↔ Forall (λ x, f x = false) l.
Proof.
  induction l as [|x l IH]; simpl; [by split|]. by rewrite orb_false_iff, Forall_cons, IH.
Qed.
Lemma existsb_eqb {A} `{EqDecision A} (x : A) l : existsb (eqb x) l = true ↔ x ∈ l.
Proof.
  rewrite existsb_exists. split.
  - intros (y & Hy & ->%eqb_elim). by apply list_elem_of_In.
  - intros Hx. exists x. split; [by apply list_elem_of_In|apply eqb_refl].
Qed.
Lemma forallb_true {A} (f : A → bool) l : forallb f l = true ↔ Forall (λ x, f x = true) l.
Proof.
  induction l as [|x l IH]; simpl; [by split|]. by rewrite andb_true_iff, Forall_cons, IH.
Qed.

Lemma filter_none {A} (P : A → Prop) `{∀ x, Decision (P x)} l :
  Forall (λ x, ¬ P x) l → filter P l = [].
Proof. induction 1; [done|]. by rewrite filter_cons_False. Qed.
Lemma filter_all {A} (P : A → Prop) `{∀ x, Decision (P x)} l : Forall P l → filter P l = l.
Proof. induction 1 as [|x l Hx _ IH]; [done|]. by rewrite filter_cons_True, IH. Qed.

Section position.
Context {A : Type} (p : A → bool).

Lemma position_Some l i :
    position p l = Some i ↔
    ∃ x, l !! i = Some x ∧ p x = true ∧ ∀ j y, (j < i)%nat → l !! j = Some y → p y = false.
Proof.
    revert i. induction l as [|x l IH]; intros i; simpl.
    { split; [done|]. intros (y & Hy & _). by destruct i. }
    destruct (p x) eqn:E.
    - split; [intros [= <-]; exists x; repeat split; auto; lia|].
      intros (y&Hy&Hp&Hmin). destruct i as [|i]; [done|].
      pose proof (Hmin O x ltac:(lia) eq_refl). congruence.
    - split.
      + intros H. destruct (position p l) as [k|] eqn:Ek; simpl in H; [|done].
        injection H as <-. destruct (proj1 (IH k) eq_refl) as (y&?&?&Hmin).
        exists y. repeat split; auto.
        intros [|j] z Hj Hz; simpl in Hz; [congruence|].
        apply (Hmin j); [lia|done].
      + intros (y&Hy&Hp&Hmin). destruct i as [|i]; simpl in Hy; [congruence|].
        rewrite (proj2 (IH i)); [done|]. exists y. repeat split; auto.
        intros j z Hj Hz. apply (Hmin (S j)); [lia|done].
  Qed.

Lemma position_None l : position p l = None ↔ ∀ i x, l !! i = Some x → p x = false.
Proof.
    induction l as [|x l IH]; simpl; [done|]. destruct (p x) eqn:E.
    - split; [done|]. intros H. specialize (H O x eq_refl). congruence.
    - destruct (position p l) eqn:Ek; simpl.
      + split; [done|]. intros H. discriminate (proj2 IH).
        intros i y Hy. by apply (H (S i)).
      + split; [|done]. intros _ [|i] y Hy; simpl in Hy; [congruence|].
        by apply (proj1 IH eq_refl i).
  Qed.

Lemma position_lt l i : position p l = Some i → (i < length l)%nat.
Proof. intros (x&?&_)%position_Some. by eapply lookup_lt_Some. Qed.
End position.

(** ** Decimal rendering, [format!("{n}")] of a [u16] *)

Fixpoint decimal_fuel (fuel : nat) (n : Z) (acc : list Z) : list Z :=
  match fuel with
  | O => acc
  | S fuel =>
      let acc := (48 + n mod 10) :: acc in
      if n <? 10 then acc else decimal_fuel fuel (n / 10) acc
  end.
(** Five digits are enough for a [u16]. *)
Definition decimal_u16 (n : Z) : list Z := decimal_fuel 5 n [].

(** ** Sorting

    [sort] and [sort_by] are stable: an item goes before the first one it is not
    greater than. *)
Fixpoint insert_by {A} (leb : A → A → bool) (x : A) (l : list A) : list A :=
  match l with
  | [] => [x]
  | y :: l => if leb x y then x :: y :: l else y :: insert_by leb x l
  end.
Definition sort_by {A} (leb : A → A → bool) (l : list A) : list A := foldr (insert_by leb) [] l.

Section sorting.
Context {A : Type} (leb : A → A → bool).
Definition le_by (x y : A) : Prop := leb x y = true.

Lemma insert_by_perm x l : insert_by leb x l ≡ₚ x :: l.
Proof.
  induction l as [|y l IH]; simpl; [done|]. destruct (leb x y); [done|]. rewrite IH. apply Permutation_swap.
Qed.
Lemma sort_by_perm l : sort_by leb l ≡ₚ l.
Proof. induction l as [|x l IH]; simpl; [done|]. by rewrite insert_by_perm, IH. Qed.

Context (Htotal : ∀ x y, le_by x y ∨ le_by y x) (Htrans : ∀ x y z, le_by x y → le_by y z → le_by x z).

Lemma insert_by_sorted x l : StronglySorted le_by l → StronglySorted le_by (insert_by leb x l).
Proof.
  induction 1 as [|y l Hl IH Hy]; simpl; [by repeat constructor|]. destruct (leb x y) eqn:E.
  - repeat constructor; try done. eapply Forall_impl; [exact Hy|]. intros z. by apply Htrans.
  - constructor; [done|]. rewrite insert_by_perm. constructor; [|done].
    destruct (Htotal x y) as [H|H]; [unfold le_by in H; congruence|done].
Qed.
Lemma sort_by_sorted l : StronglySorted le_by (sort_by leb l).
Proof. induction l as [|x l IH]; simpl; [constructor|by apply insert_by_sorted]. Qed.
End sorting.

(** ** State machines

    A component whose methods take [&mut self] is a deterministic machine:
    an input is one method call with its arguments, the output what it
    returns. *)
Class Machine (S I O : Type) := {
  initial : S → Prop;
  step : S → I → S * O;
}.

Section machine.
Context {S I O : Type} `{M : !Machine S I O}.
Implicit Types (s : S) (i : I).

Fixpoint run s (ins : list I) : S * list O :=
    match ins with
    | [] => (s, [])
    | i :: ins =>
        let '(s1, o) := step s i in
        let '(s2, os) := run s1 ins in (s2, o :: os)
    end.

Lemma run_cons s i ins :
    run s (i :: ins) = ((run (step s i).1 ins).1, (step s i).2 :: (run (step s i).1 ins).2).
Proof. simpl. destruct (step s i) as [s1 o]. simpl. by destruct (run s1 ins). Qed.

Inductive reachable : S → Prop :=
  | reachable_initial s : initial s → reachable s
  | reachable_step s i : reachable s → reachable (step s i).1.

  (** An invariant holds initially and is kept by every step. *)
Definition invariant (P : S → Prop) : Prop :=
    (∀ s, initial s → P s) ∧ (∀ s i, P s → P (step s i).1).

Lemma invariant_reachable P s : invariant P → reachable s → P s.
Proof. intros [Hi Hs]. induction 1; auto. Qed.

  (** A set of states closed under steps is closed under runs. *)
Lemma run_closed (P : S → Prop) s ins :
    (∀ s i, P s → P (step s i).1) → P s → P (run s ins).1.
Proof.
    intros Hs. revert s. induction ins as [|i ins IH]; intros s Hp; simpl; [done|].
    specialize (Hs s i Hp). destruct (step s i) as [s1 o]. simpl in Hs.
    specialize (IH s1 Hs). by destruct (run s1 ins).
  Qed.

Lemma run_reachable s ins : reachable s → reachable (run s ins).1.
Proof. apply run_closed. intros. by constructor. Qed.

  (** A step relation carried by every step is carried by every run. *)
Lemma run_relation (R : S → S → Prop) s ins :
    (∀ s, R s s) → (∀ a b c, R a b → R b c → R a c) →
    (∀ s i, R s (step s i).1) → R s (run s ins).1.
Proof.
    intros Hr Ht Hs. revert s. induction ins as [|i ins IH]; intros s; simpl; [done|].
    specialize (Hs s i). destruct (step s i) as [s1 o]. simpl in Hs.
    specialize (IH s1). destruct (run s1 ins). simpl in *. eauto.
  Qed.

Lemma run_app s ins ins' :
    run s (ins ++ ins') =
      let '(s1, os) := run s ins in
      let '(s2, os') := run s1 ins' in (s2, os ++ os').
Proof.
    revert s. induction ins as [|i ins IH]; intros s; simpl.
    - by destruct (run s ins').
    - destruct (step s i) as [s1 o]. rewrite IH.
      destruct (run s1 ins) as [s2 os]. by destruct (run s2 ins').
  Qed.
Lemma run_app_fst s ins ins' : (run s (ins ++ ins')).1 = (run (run s ins).1 ins').1.
Proof. rewrite run_app. destruct (run s ins) as [s1 os]. simpl. by destruct (run s1 ins'). Qed.
End machine.

(** ** Grants

    A component that grants effects to its caller and is asked later whether a
    grant still stands.  Each effect carries a [stamp]; a [floor] is a set of
    states in which, from now on, only effects with a larger stamp are accepted.
    The two laws make a revocation final, which is what lets the caller hold a
    grant across a suspension. *)
Class EffectGate (S I O E : Type) `{M : !Machine S I O} := {
  gate_accepts : S → E → bool;
  stamp : E → Z;
  floor : Z → S → Prop;
  floor_step b s i : floor b s → floor b (step s i).1;
  floor_accepts b s e : floor b s → gate_accepts s e = true → b < stamp e;
}.

Lemma revoked_forever {S I O E : Type} `{G : EffectGate S I O E} b (s : S) (ins : list I) (e : E) :
  floor b s → stamp e <= b → gate_accepts (run s ins).1 e = false.
Proof.
  intros Hf He. destruct (gate_accepts _ e) eqn:Ha; [|done].
  assert (b < stamp e); [|lia].
  eapply floor_accepts; [|exact Ha]. apply run_closed; [|done]. intros. by apply floor_step.
Qed.

(** ** Automation *)

Create Rewrite HintDb rust.
#[export] Hint Rewrite @result_bind_Ok @ensure_Ok @ok_or_Ok @is_some_and_true @is_none_or_true @is_some_true @is_some_false
  @is_none_true @is_none_false @opt_filter_Some @neqb_true @neqb_false @eqb_true @eqb_false
  Z.leb_le Z.leb_gt Z.ltb_lt Z.ltb_ge Z.eqb_eq Z.eqb_neq
  andb_true_iff orb_true_iff orb_false_iff negb_true_iff negb_false_iff : rust.

(** Turn boolean tests in the context and the goal into propositions. *)
Ltac to_prop := autorewrite with rust in *.
(** Case analysis on every [match] and [if] of the goal. *)
Ltac cases := repeat (case_match; simplify_eq/=).
(** Unfold a successful chain of [?]s in hypothesis [H]. *)
Ltac inv_ok H :=
  let a := fresh "v" in
  let Ha := fresh "Hv" in
  lazymatch type of H with
  | (_ ≫= _) = Ok _ =>
      apply result_bind_Ok in H as (a & Ha & H); cbv beta iota zeta in H; try inv_ok Ha; inv_ok H
  | ensure _ _ = Ok _ => apply ensure_Ok in H
  | ok_or _ _ = Ok _ => apply ok_or_Ok in H
  | Err _ = Ok _ => discriminate H
  | Ok _ = Ok _ => injection H as H; subst
  | (if ?b then _ else _) = Ok _ => let E := fresh "E" in destruct b eqn:E; inv_ok H
  | _ => idtac
  end.
