(* ===== verification/CrashSafe.v ===== *)
(** * Programs that may fail or stop at every effect

    A function that works on files is a sequence of effects.  Every effect may work,
    fail (then [?] ends the function with the error) or be the last that happens before
    the process stops; what an effect that did not work leaves behind is part of its
    outcome.  [M S E A] is such a function: a state, and for each effect an outcome.
    [Path::exists] has no error to return: if its call fails, it answers that there is
    no such path.  That is an outcome of its own, [Unseen].

    [spec g P m Q I]: from a state in [P], [m] ends in [Q], and if the process stops in
    it, the state is in [I]; if [g], for outcomes of which none is [Unseen].  The rules
    are those of a Hoare logic with a crash condition. *)
From S2P Require Export Prelude.

(** [partial] is what is left of an effect that did not work: parts of a file, or names
    of entries already removed. *)
Inductive Outcome : Type :=
  | Works
  | Fails (partial : option (list (list Z)))
  | Stops (partial : option (list (list Z)))
  | Unseen.
(** No [exists] takes a failure for absence. *)
Definition sighted (os : list Outcome) : Prop := Unseen ∉ os.
#[export] Instance Outcome_eq_dec : EqDecision Outcome.
Proof. solve_decision. Defined.
#[export] Instance sighted_dec os : Decision (sighted os).
Proof. unfold sighted. apply _. Defined.

Inductive Exit (R : Type) : Type := Returned (r : R) | Stopped.
#[global] Arguments Returned {R} r.
#[global] Arguments Stopped {R}.

Definition M (S E A : Type) : Type := S → list Outcome → Exit (result E A) * S * list Outcome.

Section programs.
Context {S E : Type}.
Implicit Types (s : S) (os : list Outcome).

Definition ret {A} (a : A) : M S E A := λ s os, (Returned (Ok a), s, os).
Definition fail {A} (e : E) : M S E A := λ s os, (Returned (Err e), s, os).
Definition of_result {A} (r : result E A) : M S E A := λ s os, (Returned r, s, os).
(** A function that returns a [Result] whatever [m] returned: no [?] after it. *)
Definition catch {A} (m : M S E A) : M S E (result E A) :=
  λ s os,
    match m s os with
    | (Returned r, s, os) => (Returned (Ok r), s, os)
    | (Stopped, s, os) => (Stopped, s, os)
    end.
Definition bind {A B} (m : M S E A) (f : A → M S E B) : M S E B :=
  λ s os,
    match m s os with
    | (Returned (Ok a), s, os) => f a s os
    | (Returned (Err e), s, os) => (Returned (Err e), s, os)
    | (Stopped, s, os) => (Stopped, s, os)
    end.

(** An effect: [go] if it works, [left] of what is partial if not. *)
Definition effect (io : E) (go : S → S) (left : list (list Z) → S → S) : M S E unit :=
  λ s os,
    match os with
    | [] => (Returned (Ok tt), go s, [])
    | Works :: os => (Returned (Ok tt), go s, os)
    | Fails p :: os => (Returned (Err io), from_option left (λ s, s) p s, os)
    | Stops p :: os => (Stopped, from_option left (λ s, s) p s, os)
    | Unseen :: os => (Returned (Err io), s, os)
    end.
(** An effect that happens as a whole or not at all. *)
Definition atomic (io : E) (go : S → S) : M S E unit := effect io go (λ _ s, s).
Definition sync (io : E) : M S E unit := atomic io (λ s, s).
(** A read; [None] when there is nothing to read. *)
Definition read {A} (io : E) (f : S → option A) : M S E A :=
  λ s os,
    let value := match f s with Some a => Ok a | None => Err io end in
    match os with
    | [] => (Returned value, s, [])
    | Works :: os => (Returned value, s, os)
    | (Fails _ | Unseen) :: os => (Returned (Err io), s, os)
    | Stops _ :: os => (Stopped, s, os)
    end.
(** [read(…).ok()]. *)
Definition read_ok {A} (f : S → option A) : M S E (option A) :=
  λ s os,
    match os with
    | [] => (Returned (Ok (f s)), s, [])
    | Works :: os => (Returned (Ok (f s)), s, os)
    | (Fails _ | Unseen) :: os => (Returned (Ok None), s, os)
    | Stops _ :: os => (Stopped, s, os)
    end.

(** [exists()].  It returns no error, so [Fails] is not an outcome of it and counts as
    [Works]. *)
Definition probe (f : S → bool) : M S E bool :=
  λ s os,
    match os with
    | [] => (Returned (Ok (f s)), s, [])
    | (Works | Fails _) :: os => (Returned (Ok (f s)), s, os)
    | Stops _ :: os => (Stopped, s, os)
    | Unseen :: os => (Returned (Ok false), s, os)
    end.

(** A [for] loop with [?] in its body. *)
Fixpoint for_each {A} (body : A → M S E unit) (items : list A) : M S E unit :=
  match items with
  | [] => ret tt
  | x :: items => bind (body x) (λ _, for_each body items)
  end.

(** ** Specifications *)

Definition admits (g : bool) os : Prop := g = true → sighted os.
Lemma admits_any os : admits false os.
Proof. done. Qed.
Lemma admits_nil g : admits g [].
Proof. intros _ ?%elem_of_nil. done. Qed.
Lemma admits_tail g o os : admits g (o :: os) → admits g os.
Proof. intros H Hg Hin. apply (H Hg). by right. Qed.
Definition spec (g : bool) {A} (P : S → Prop) (m : M S E A) (Q : result E A → S → Prop) (I : S → Prop) : Prop :=
  ∀ s os, admits g os → P s →
    match m s os with
    | (Returned r, s', os') => Q r s' ∧ admits g os'
    | (Stopped, s', _) => I s'
    end.

Section rules.
Context {g : bool}.
#[local] Abbreviation spec := (spec g).
Lemma spec_weaken {A} (P P' : S → Prop) (m : M S E A) (Q Q' : result E A → S → Prop) (I I' : S → Prop) :
  spec P m Q I → (∀ s, P' s → P s) → (∀ r s, Q r s → Q' r s) → (∀ s, I s → I' s) → spec P' m Q' I'.
Proof.
  intros H Hp Hq Hi s os Ho Hs. specialize (H s os Ho (Hp s Hs)).
  destruct (m s os) as [[[r|] s'] os']; naive_solver.
Qed.
Lemma spec_bind {A B} (P : S → Prop) (m : M S E A) (f : A → M S E B) (Q : result E A → S → Prop)
    (R : result E B → S → Prop) (I : S → Prop) :
  spec P m Q I → (∀ a, spec (Q (Ok a)) (f a) R I) → (∀ e s, Q (Err e) s → R (Err e) s) →
  spec P (bind m f) R I.
Proof.
  intros Hm Hf He s os Ho Hs. unfold bind. specialize (Hm s os Ho Hs).
  destruct (m s os) as [[[[a|e]|] s'] os']; [|destruct Hm; by split; [apply He|]|done].
  destruct Hm. by apply Hf.
Qed.
Lemma spec_ret {A} (P : S → Prop) (a : A) (Q : result E A → S → Prop) (I : S → Prop) :
  (∀ s, P s → Q (Ok a) s) → spec P (ret a) Q I.
Proof. intros H s os Ho Hs. by split; [apply H|]. Qed.
Lemma spec_fail {A} (P : S → Prop) (e : E) (Q : result E A → S → Prop) (I : S → Prop) :
  (∀ s, P s → Q (Err e) s) → spec P (fail e) Q I.
Proof. intros H s os Ho Hs. by split; [apply H|]. Qed.
Lemma spec_of_result {A} (P : S → Prop) (r : result E A) (Q : result E A → S → Prop) (I : S → Prop) :
  (∀ s, P s → Q r s) → spec P (of_result r) Q I.
Proof. intros H s os Ho Hs. by split; [apply H|]. Qed.
Lemma spec_catch {A} (P : S → Prop) (m : M S E A) (Q : result E A → S → Prop) (I : S → Prop) :
  spec P m Q I → spec P (catch m) (λ r s, ∃ r', r = Ok r' ∧ Q r' s) I.
Proof.
  intros H s os Ho Hs. unfold catch. specialize (H s os Ho Hs).
  destruct (m s os) as [[[r|] s'] os']; [destruct H; split; [by exists r|done]|done].
Qed.
(** What an effect leaves, whatever its outcome. *)
Lemma spec_effect (P : S → Prop) io go left (Q : result E unit → S → Prop) (I : S → Prop) :
  (∀ s, P s → Q (Ok tt) (go s)) →
  (∀ s p, P s → Q (Err io) (left p s) ∧ I (left p s)) →
  (∀ s, P s → Q (Err io) s ∧ I s) →
  spec P (effect io go left) Q I.
Proof.
  intros Hgo Hleft Hno s os Ho Hs. unfold effect.
  destruct os as [|[|[p|]|[p|]|] os]; cbn; try apply admits_tail in Ho;
    try (split; [|done]); first [by apply Hgo|by apply Hleft|by apply Hno].
Qed.
Lemma spec_atomic (P : S → Prop) io go (Q : result E unit → S → Prop) (I : S → Prop) :
  (∀ s, P s → Q (Ok tt) (go s)) → (∀ s, P s → Q (Err io) s ∧ I s) → spec P (atomic io go) Q I.
Proof. intros Hgo Hno. apply spec_effect; auto. Qed.
Lemma spec_read {A} (P : S → Prop) io (f : S → option A) (Q : result E A → S → Prop) (I : S → Prop) :
  (∀ s a, P s → f s = Some a → Q (Ok a) s) → (∀ s, P s → Q (Err io) s ∧ I s) → spec P (read io f) Q I.
Proof.
  intros Hok Hno s os Ho Hs. unfold read. destruct (f s) eqn:Hf;
    destruct os as [|[| | |] os]; cbn; try apply admits_tail in Ho;
    try (split; [|done]); first [by apply Hok|by apply Hno].
Qed.
End rules.

(** [keeps g I P m Q]: [m] may fail or stop, and then leaves a state in [I]. *)
Definition keeps_in (g : bool) {A} (I P : S → Prop) (m : M S E A) (Q : A → S → Prop) : Prop :=
  spec g P m (λ r s, match r with Ok a => Q a s | Err _ => I s end) I.

Section keeping.
Context {g : bool}.
#[local] Abbreviation keeps := (keeps_in g).
Lemma keeps_weaken {A} (I I' P P' : S → Prop) (m : M S E A) (Q Q' : A → S → Prop) :
  keeps I P m Q → (∀ s, I s → I' s) → (∀ s, P' s → P s) → (∀ a s, Q a s → Q' a s) → keeps I' P' m Q'.
Proof. intros H Hi Hp Hq. eapply spec_weaken; [exact H|done| |done]. intros [a|e] s; auto. Qed.
Lemma keeps_pre {A} (I P P' : S → Prop) (m : M S E A) (Q : A → S → Prop) :
  keeps I P m Q → (∀ s, P' s → P s) → keeps I P' m Q.
Proof. intros H Hp. by eapply keeps_weaken. Qed.
Lemma keeps_bind {A B} (I P : S → Prop) (m : M S E A) (f : A → M S E B) (Q : A → S → Prop) (R : B → S → Prop) :
  keeps I P m Q → (∀ a, keeps I (Q a) (f a) R) → keeps I P (bind m f) R.
Proof. intros Hm Hf. eapply spec_bind; [exact Hm|exact Hf|done]. Qed.
Lemma keeps_ret {A} (I P : S → Prop) (a : A) (Q : A → S → Prop) : (∀ s, P s → Q a s) → keeps I P (ret a) Q.
Proof. intros H. by apply spec_ret. Qed.
Lemma keeps_fail {A} (I P : S → Prop) (e : E) (Q : A → S → Prop) : (∀ s, P s → I s) → keeps I P (fail e) Q.
Proof. intros H. by apply spec_fail. Qed.
Lemma keeps_of_result {A} (I P : S → Prop) (r : result E A) (Q : A → S → Prop) :
  (∀ s, P s → I s) → (∀ a s, r = Ok a → P s → Q a s) → keeps I P (of_result r) Q.
Proof. intros Hi H. apply spec_of_result. intros s Hs. destruct r; auto. Qed.
(** What [?] would hand on is looked at: the error leaves a state in [I']. *)
Lemma keeps_catch {A} (I I' P : S → Prop) (m : M S E A) (Q : A → S → Prop) :
  keeps I' P m Q → (∀ s, I' s → I s) →
  keeps I P (catch m) (λ r s, match r with Ok a => Q a s | Err _ => I' s end).
Proof.
  intros H Hi. eapply spec_weaken; [by apply spec_catch|done| |done]. by intros r s (r' & -> & Hs).
Qed.
Lemma keeps_effect (I P : S → Prop) io go left (Q : unit → S → Prop) :
  (∀ s, P s → I s) → (∀ s p, P s → I (left p s)) → (∀ s, P s → Q tt (go s)) →
  keeps I P (effect io go left) Q.
Proof. intros Hi Hleft Hgo. apply spec_effect; auto. Qed.
Lemma keeps_atomic (I P : S → Prop) io go (Q : unit → S → Prop) :
  (∀ s, P s → I s) → (∀ s, P s → Q tt (go s)) → keeps I P (atomic io go) Q.
Proof. intros Hi Hgo. apply keeps_effect; auto. Qed.
Lemma keeps_sync (I P : S → Prop) io : (∀ s, P s → I s) → keeps I P (sync io) (λ _, P).
Proof. intros Hi. apply keeps_atomic; auto. Qed.
Lemma keeps_read {A} (I P : S → Prop) io (f : S → option A) :
  (∀ s, P s → I s) → keeps I P (read io f) (λ a s, P s ∧ f s = Some a).
Proof. intros Hi. apply spec_read; auto. Qed.
Lemma keeps_read_ok {A} (I P : S → Prop) (f : S → option A) :
  (∀ s, P s → I s) → keeps I P (read_ok f) (λ a s, P s ∧ (a = None ∨ a = f s)).
Proof.
  intros Hi s os Ho Hs. unfold read_ok.
  destruct os as [|[| | |] os]; cbn; try apply admits_tail in Ho; by auto.
Qed.
Lemma keeps_probe_any (I P : S → Prop) (f : S → bool) :
  (∀ s, P s → I s) → keeps I P (probe f) (λ b s, P s ∧ (b = false ∨ b = f s)).
Proof.
  intros Hi s os Ho Hs. unfold probe.
  destruct os as [|[| | |] os]; cbn; try apply admits_tail in Ho; by auto.
Qed.
(** A loop; [J done] holds after the items [done]. *)
Lemma keeps_for_each {A} (I : S → Prop) (J : list A → S → Prop) (body : A → M S E unit) items :
  (∀ front x, x ∈ items → keeps I (J front) (body x) (λ _, J (front ++ [x]))) →
  keeps I (J []) (for_each body items) (λ _, J items).
Proof.
  intros H. enough (Hg : ∀ back front, (∀ x, x ∈ back → x ∈ items) →
    keeps I (J front) (for_each body back) (λ _, J (front ++ back))) by by apply (Hg items []).
  intros back. induction back as [|x back IH]; intros front Hin.
  - apply keeps_ret. by rewrite app_nil_r.
  - cbn. eapply keeps_bind; [apply H, Hin; by left|]. intros u.
    replace (front ++ x :: back) with ((front ++ [x]) ++ back) by by rewrite <- app_assoc.
    apply IH. intros y Hy. apply Hin. by right.
Qed.
Lemma keeps_pure {A} (X : Prop) (I P : S → Prop) (m : M S E A) (Q : A → S → Prop) :
  (X → keeps I P m Q) → keeps I (λ s, P s ∧ X) m Q.
Proof. intros H s os Ho [Hs Hx]. by apply H. Qed.
Lemma keeps_exists {A X} (I : S → Prop) (P : X → S → Prop) (m : M S E A) (Q : A → S → Prop) :
  (∀ x, keeps I (P x) m Q) → keeps I (λ s, ∃ x, P x s) m Q.
Proof. intros H s os Ho [x Hs]. by apply (H x). Qed.
(** What is left of the outcomes does not matter at the end. *)
Lemma keeps_exit {A} (I P : S → Prop) (m : M S E A) (Q : A → S → Prop) s os :
  keeps I P m Q → admits g os → P s →
  match m s os with
  | (Returned (Ok a), s', _) => Q a s'
  | (_, s', _) => I s'
  end.
Proof.
  intros H Ho Hs. specialize (H s os Ho Hs). destruct (m s os) as [[[[a|e]|] s'] os']; [by destruct H..|done].
Qed.
End keeping.
(** Where nothing is [Unseen], an answer is the truth. *)
Lemma keeps_probe (I P : S → Prop) (f : S → bool) :
  (∀ s, P s → I s) → keeps_in true I P (probe f) (λ b s, P s ∧ b = f s).
Proof.
  intros Hi s os Ho Hs. unfold probe. pose proof (Ho eq_refl) as Hu.
  destruct os as [|[| | |] os]; cbn; try apply admits_tail in Ho; auto. destruct Hu. by left.
Qed.
(** ** Without faults *)

(** [runs m s r s']: when every effect works. *)
Definition runs {A} (m : M S E A) (s : S) (r : result E A) (s' : S) : Prop :=
  m s [] = (Returned r, s', []).
(** [succeeds P m Q]: without faults [m] returns a value. *)
Definition succeeds {A} (P : S → Prop) (m : M S E A) (Q : A → S → Prop) : Prop :=
  ∀ s, P s → ∃ a s', runs m s (Ok a) s' ∧ Q a s'.

Lemma succeeds_bind {A B} (P : S → Prop) (m : M S E A) (f : A → M S E B) (Q : A → S → Prop) (R : B → S → Prop) :
  succeeds P m Q → (∀ a, succeeds (Q a) (f a) R) → succeeds P (bind m f) R.
Proof.
  intros Hm Hf s Hs. destruct (Hm s Hs) as (a & s' & Hr & Hq). destruct (Hf a s' Hq) as (b & s'' & Hr' & Hq').
  exists b, s''. split; [|done]. unfold runs, bind in *. by rewrite Hr.
Qed.
Lemma succeeds_weaken {A} (P P' : S → Prop) (m : M S E A) (Q Q' : A → S → Prop) :
  succeeds P m Q → (∀ s, P' s → P s) → (∀ a s, Q a s → Q' a s) → succeeds P' m Q'.
Proof. intros H Hp Hq s Hs. destruct (H s (Hp s Hs)) as (a & s' & ? & ?). eauto. Qed.
Lemma succeeds_ret {A} (P : S → Prop) (a : A) (Q : A → S → Prop) : (∀ s, P s → Q a s) → succeeds P (ret a) Q.
Proof. intros H s Hs. exists a, s. split; [done|by apply H]. Qed.
Lemma succeeds_atomic (P : S → Prop) io go (Q : unit → S → Prop) :
  (∀ s, P s → Q tt (go s)) → succeeds P (atomic io go) Q.
Proof. intros H s Hs. exists tt, (go s). split; [done|by apply H]. Qed.
Lemma succeeds_effect (P : S → Prop) io go left (Q : unit → S → Prop) :
  (∀ s, P s → Q tt (go s)) → succeeds P (effect io go left) Q.
Proof. intros H s Hs. exists tt, (go s). split; [done|by apply H]. Qed.
Lemma succeeds_sync (P : S → Prop) io : succeeds P (sync io) (λ _, P).
Proof. by apply succeeds_atomic. Qed.
Lemma succeeds_read {A} (P : S → Prop) io (f : S → option A) :
  (∀ s, P s → is_Some (f s)) → succeeds P (read io f) (λ a s, P s ∧ f s = Some a).
Proof.
  intros H s Hs. destruct (H s Hs) as [a Ha]. exists a, s. split; [|done].
  unfold runs, read. by rewrite Ha.
Qed.
Lemma succeeds_probe (P : S → Prop) (f : S → bool) :
  succeeds P (probe f) (λ b s, P s ∧ b = f s).
Proof. intros s Hs. by exists (f s), s. Qed.
Lemma succeeds_for_each {A} (P : S → Prop) (body : A → M S E unit) items :
  (∀ x, x ∈ items → succeeds P (body x) (λ _, P)) → succeeds P (for_each body items) (λ _, P).
Proof.
  induction items as [|x items IH]; intros H; [by apply succeeds_ret|]. cbn.
  eapply succeeds_bind; [apply H; by left|]. intros u. apply IH. intros y Hy. apply H. by right.
Qed.

(** [quiet m]: without faults [m] returns, a value or an error. *)
Definition quiet {A} (m : M S E A) : Prop := ∀ s, ∃ r s', runs m s r s'.
Lemma quiet_bind {A B} (m : M S E A) (f : A → M S E B) : quiet m → (∀ a, quiet (f a)) → quiet (bind m f).
Proof.
  intros Hm Hf s. destruct (Hm s) as ([a|e] & s' & Hr).
  - destruct (Hf a s') as (r & s'' & Hr'). exists r, s''. unfold runs, bind in *. by rewrite Hr.
  - exists (Err e), s'. unfold runs, bind in *. by rewrite Hr.
Qed.
Lemma quiet_ret {A} (a : A) : quiet (ret a).
Proof. intros s. by exists (Ok a), s. Qed.
Lemma quiet_fail {A} (e : E) : quiet (fail (A := A) e).
Proof. intros s. by exists (Err e), s. Qed.
Lemma quiet_atomic io go : quiet (atomic io go).
Proof. intros s. by exists (Ok tt), (go s). Qed.
Lemma quiet_read {A} io (f : S → option A) : quiet (read io f).
Proof. intros s. unfold runs, read. by eexists _, s. Qed.
Lemma quiet_read_ok {A} (f : S → option A) : quiet (read_ok f).
Proof. intros s. by exists (Ok (f s)), s. Qed.
Lemma quiet_for_each {A} (body : A → M S E unit) items : (∀ x, quiet (body x)) → quiet (for_each body items).
Proof. intros H. induction items as [|x items IH]; [apply quiet_ret|]. cbn. by apply quiet_bind. Qed.
(** What is kept and returns succeeds when its error is looked at. *)
Lemma succeeds_catch {A} (I P : S → Prop) (m : M S E A) (Q : A → S → Prop) :
  quiet m → keeps_in true I P m Q → succeeds P (catch m) (λ r s, match r with Ok a => Q a s | Err _ => I s end).
Proof.
  intros Hq H s Hs. destruct (Hq s) as (r & s' & Hr). exists r, s'. pose proof (keeps_exit _ _ _ _ s [] H (admits_nil true) Hs) as H'.
  unfold runs, catch in *. rewrite Hr in H' |- *. by split; [|destruct r].
Qed.
Lemma succeeds_catch_Ok {A} (P : S → Prop) (m : M S E A) (Q : A → S → Prop) :
  succeeds P m Q → succeeds P (catch m) (λ r s, (∃ a, r = Ok a) ∧ ∃ a, Q a s).
Proof.
  intros H s Hs. destruct (H s Hs) as (a & s' & Hr & Hq). exists (Ok a), s'. split; [|by eauto].
  unfold runs, catch in *. by rewrite Hr.
Qed.
(** The two logics together. *)
Lemma succeeds_keeps {A} (I P : S → Prop) (m : M S E A) (Q : A → S → Prop) :
  succeeds P m (λ _ _, True) → keeps_in true I P m Q → succeeds P m Q.
Proof.
  intros H Hk s Hs. destruct (H s Hs) as (a & s' & Hr & _). exists a, s'. split; [done|].
  pose proof (keeps_exit _ _ _ _ s [] Hk (admits_nil true) Hs) as H'. unfold runs in Hr. by rewrite Hr in H'.
Qed.
Lemma succeeds_of_result {A} (P : S → Prop) (r : result E A) (Q : A → S → Prop) :
  (∀ s, P s → ∃ a, r = Ok a ∧ Q a s) → succeeds P (of_result r) Q.
Proof. intros H s Hs. destruct (H s Hs) as (a & -> & Hq). by exists a, s. Qed.
Lemma succeeds_pure {A} (X : Prop) (P : S → Prop) (m : M S E A) (Q : A → S → Prop) :
  (X → succeeds P m Q) → succeeds (λ s, P s ∧ X) m Q.
Proof. intros H s [Hs Hx]. by apply H. Qed.
Lemma succeeds_pre {A} (P P' : S → Prop) (m : M S E A) (Q : A → S → Prop) :
  succeeds P m Q → (∀ s, P' s → P s) → succeeds P' m Q.
Proof. intros H Hp. by eapply succeeds_weaken. Qed.
Lemma succeeds_exists {A X} (P : X → S → Prop) (m : M S E A) (Q : A → S → Prop) :
  (∀ x, succeeds (P x) m Q) → succeeds (λ s, ∃ x, P x s) m Q.
Proof. intros H s [x Hs]. by apply (H x). Qed.
Lemma quiet_of_result {A} (r : result E A) : quiet (of_result r).
Proof. intros s. by exists r, s. Qed.
End programs.

(** Outcomes of which none is [Unseen]. *)
Abbreviation keeps := (keeps_in true).

#[export] Instance M_bind S E : MBind (M S E) := λ A B f m, bind m f.
#[export] Instance M_ret S E : MRet (M S E) := λ A a, ret a.
