(* ===== verification/Utf8.v ===== *)
(** * UTF-8 strings

    A [&str] is the list of its bytes.  [from_utf8] is
    [core::str::from_utf8]: the validation loop with its table of sequence
    widths, which tells a complete text from one that ends inside a character
    ([Utf8Error::error_len] is [None]) and from an invalid one.  The components
    that decode bytes, bound names or reject control characters share it. *)
From S2P Require Export Prelude.

Inductive Utf8Result : Type :=
  | Utf8Ok (chars : list Z)
  | Utf8Incomplete
  | Utf8Invalid.

Definition between (lo hi b : Z) : bool := (lo <=? b) && (b <=? hi).

Definition is_cont (b : Z) : bool := between 0x80 0xbf b.

(** The second byte a three or four byte sequence may have after its first. *)
Definition second3 (b0 b1 : Z) : bool :=
  if b0 =? 0xe0 then between 0xa0 0xbf b1
  else if b0 =? 0xed then between 0x80 0x9f b1
  else is_cont b1.
Definition second4 (b0 b1 : Z) : bool :=
  if b0 =? 0xf0 then between 0x90 0xbf b1
  else if b0 =? 0xf4 then between 0x80 0x8f b1
  else is_cont b1.

Definition utf8_cons (c : Z) (r : Utf8Result) : Utf8Result :=
  match r with Utf8Ok cs => Utf8Ok (c :: cs) | r => r end.

Fixpoint from_utf8 (bytes : list Z) : Utf8Result :=
  match bytes with
  | [] => Utf8Ok []
  | b0 :: r0 =>
      if b0 <? 0x80 then utf8_cons b0 (from_utf8 r0)
      else if between 0xc2 0xdf b0 then
        match r0 with
        | [] => Utf8Incomplete
        | b1 :: r1 =>
            if is_cont b1
            then utf8_cons ((b0 - 0xc0) * 64 + (b1 - 0x80)) (from_utf8 r1)
            else Utf8Invalid
        end
      else if between 0xe0 0xef b0 then
        match r0 with
        | [] => Utf8Incomplete
        | b1 :: r1 =>
            if second3 b0 b1 then
              match r1 with
              | [] => Utf8Incomplete
              | b2 :: r2 =>
                  if is_cont b2
                  then utf8_cons ((b0 - 0xe0) * 4096 + (b1 - 0x80) * 64 + (b2 - 0x80))
                                 (from_utf8 r2)
                  else Utf8Invalid
              end
            else Utf8Invalid
        end
      else if between 0xf0 0xf4 b0 then
        match r0 with
        | [] => Utf8Incomplete
        | b1 :: r1 =>
            if second4 b0 b1 then
              match r1 with
              | [] => Utf8Incomplete
              | b2 :: r2 =>
                  if is_cont b2 then
                    match r2 with
                    | [] => Utf8Incomplete
                    | b3 :: r3 =>
                        if is_cont b3
                        then utf8_cons ((b0 - 0xf0) * 262144 + (b1 - 0x80) * 4096
                                        + (b2 - 0x80) * 64 + (b3 - 0x80))
                                       (from_utf8 r3)
                        else Utf8Invalid
                    end
                  else Utf8Invalid
              end
            else Utf8Invalid
        end
      else Utf8Invalid
  end.

(** A string literal's bytes, and the characters of a [&str]. *)
Definition bytes_of (s : string) : list Z :=
  (λ a, Z.of_N (Ascii.N_of_ascii a)) <$> String.list_ascii_of_string s.
Definition chars_of (s : list Z) : list Z :=
  match from_utf8 s with Utf8Ok cs => cs | _ => [] end.
(** [char::is_control]: the general category Cc. *)
Definition is_control (c : Z) : bool := (c <? 0x20) || between 0x7f 0x9f c.

(** [char::is_whitespace]: the property White_Space. *)
Definition is_whitespace (c : Z) : bool :=
  between 9 13 c || (c =? 0x20) || (c =? 0x85) || (c =? 0xa0) || (c =? 0x1680)
  || between 0x2000 0x200a c || (c =? 0x2028) || (c =? 0x2029) || (c =? 0x202f) || (c =? 0x205f)
  || (c =? 0x3000).
(** [trim_start], [trim_end], [trim]. *)
Fixpoint trim_start (s : list Z) : list Z :=
  match s with c :: s' => if is_whitespace c then trim_start s' else s | [] => [] end.
Definition trim_end (s : list Z) : list Z := rev (trim_start (rev s)).
Definition trim (s : list Z) : list Z := trim_end (trim_start s).

Lemma trim_start_nil s : trim_start s = [] ↔ Forall (λ c, is_whitespace c = true) s.
Proof.
  induction s as [|c s IH]; cbn [trim_start]; [done|]. destruct (is_whitespace c) eqn:E.
  - rewrite Forall_cons. tauto.
  - split; [done|]. rewrite Forall_cons. intros [? _]. congruence.
Qed.
Lemma trim_start_spaces s : ∃ p, s = p ++ trim_start s ∧ Forall (λ c, is_whitespace c = true) p.
Proof.
  induction s as [|c s (p & E & H)]; [by exists []|]. cbn [trim_start].
  destruct (is_whitespace c) eqn:Ec; [|by exists []].
  exists (c :: p). split; [by rewrite E at 1|]. by constructor.
Qed.
Lemma trim_nil s : trim s = [] ↔ Forall (λ c, is_whitespace c = true) s.
Proof.
  unfold trim, trim_end. split.
  - intros H. apply (f_equal (@rev Z)) in H. rewrite rev_involutive in H. cbn in H.
    apply trim_start_nil, Forall_rev in H. rewrite rev_involutive in H.
    destruct (trim_start_spaces s) as (p & -> & Hp). by apply Forall_app.
  - intros H. apply trim_start_nil in H. by rewrite H.
Qed.

(** [value.trim().is_empty()] and [value.chars().count()]. *)
Definition is_blank (value : list Z) : bool := forallb is_whitespace (chars_of value).
Definition char_count (value : list Z) : nat := length (chars_of value).

(** [str::get(start..)]: [None] inside a character. *)
Definition is_char_boundary (s : list Z) (i : nat) : bool :=
  match s !! i with Some b => negb (is_cont b) | None => (i =? length s)%nat end.
Definition get_from (s : list Z) (i : nat) : option (list Z) :=
  if is_char_boundary s i then Some (drop i s) else None.

Lemma between_true lo hi b : between lo hi b = true ↔ lo <= b <= hi.
Proof. unfold between. to_prop. lia. Qed.
Lemma between_false lo hi b : between lo hi b = false ↔ b < lo ∨ hi < b.
Proof. unfold between. rewrite andb_false_iff. to_prop. lia. Qed.
#[export] Hint Rewrite between_true between_false : rust.

(** ASCII text is its own decoding. *)
Lemma from_utf8_ascii bytes :
  Forall (λ b, b < 0x80) bytes → from_utf8 bytes = Utf8Ok bytes.
Proof.
  induction 1 as [|b bytes Hb _ IH]; simpl; [done|].
  rewrite (proj2 (Z.ltb_lt _ _) Hb), IH. done.
Qed.

Lemma utf8_cons_incomplete c r : utf8_cons c r = Utf8Incomplete ↔ r = Utf8Incomplete.
Proof. by destruct r. Qed.

(** A text of which every prefix is incomplete has at most three bytes. *)
Lemma from_utf8_incomplete_bound bytes :
  (∀ n, (0 < n <= length bytes)%nat → from_utf8 (take n bytes) = Utf8Incomplete) →
  (length bytes <= 3)%nat.
Proof.
  intros H. destruct bytes as [|b0 [|b1 [|b2 [|b3 bytes]]]]; simpl in *; try lia.
  assert (H1 := H 1%nat). assert (H2 := H 2%nat). assert (H3 := H 3%nat).
  assert (H4 := H 4%nat). simpl in *.
  specialize (H1 ltac:(lia)). specialize (H2 ltac:(lia)).
  specialize (H3 ltac:(lia)). specialize (H4 ltac:(lia)).
  repeat (case_match; simplify_eq/=).
Qed.

(** ** ASCII classes and digit strings *)

Definition is_ascii_digit (b : Z) : bool := between 0x30 0x39 b.
Definition is_ascii_uppercase (b : Z) : bool := between 65 90 b.
Definition is_ascii_alphanumeric (b : Z) : bool :=
  is_ascii_digit b || is_ascii_uppercase b || between 97 122 b.
Definition is_ascii_hexdigit (b : Z) : bool :=
  is_ascii_digit b || between 65 70 b || between 97 102 b.

(** [to_ascii_lowercase], [to_ascii_uppercase], [eq_ignore_ascii_case]. *)
Definition to_ascii_lowercase (s : list Z) : list Z :=
  (λ b, if is_ascii_uppercase b then b + 32 else b) <$> s.
Definition to_ascii_uppercase (s : list Z) : list Z :=
  (λ b, if between 97 122 b then b - 32 else b) <$> s.
Definition eq_ignore_ascii_case (a b : list Z) : bool :=
  to_ascii_lowercase a == to_ascii_lowercase b.

(** Decimal digits folded into an accumulator of an unsigned type with checked
    operations, [None] on overflow: [str::parse] on digits. *)
Fixpoint fold_digits (max n : Z) (digits : list Z) : option Z :=
  match digits with
  | [] => Some n
  | digit :: digits =>
      n10 ← checked_mul max n 10;
      n' ← checked_add max n10 (digit - 0x30);
      fold_digits max n' digits
  end.

(** The value of a digit string, without a bound. *)
Definition digits_value (n : Z) (digits : list Z) : Z :=
  fold_left (λ n digit, n * 10 + (digit - 0x30)) digits n.

Lemma digits_value_ge n digits :
  0 <= n → Forall (λ b, 0x30 <= b <= 0x39) digits → n <= digits_value n digits.
Proof.
  intros Hn Hp. revert n Hn. induction Hp as [|d digits Hd _ IH]; intros n Hn; simpl; [lia|].
  etrans; [|apply IH]; lia.
Qed.

Lemma Forall_digits digits :
  Forall (λ b, is_ascii_digit b = true) digits → Forall (λ b, 0x30 <= b <= 0x39) digits.
Proof. intros H. eapply Forall_impl; [exact H|]. intros b Hb. by apply between_true in Hb. Qed.

(** The checked accumulator computes what unbounded arithmetic does. *)
Lemma fold_digits_spec max n digits :
  0 <= n <= max → Forall (λ b, 0x30 <= b <= 0x39) digits →
  fold_digits max n digits =
    (if digits_value n digits <=? max then Some (digits_value n digits) else None).
Proof.
  intros Hn Hp. revert n Hn. induction Hp as [|d digits Hd Hp IH]; intros n Hn; simpl.
  { by rewrite (proj2 (Z.leb_le _ _)) by lia. }
  assert (Hge : n * 10 + (d - 0x30) <= digits_value (n * 10 + (d - 0x30)) digits)
    by (apply digits_value_ge; [lia|done]).
  assert (Hno : max < n * 10 + (d - 0x30) →
    (if digits_value (n * 10 + (d - 0x30)) digits <=? max
     then Some (digits_value (n * 10 + (d - 0x30)) digits) else None) = None).
  { intros. by rewrite (proj2 (Z.leb_gt _ _)) by lia. }
  unfold checked_mul. destruct (n * 10 <=? max) eqn:E1; simpl.
  - unfold checked_add. destruct (n * 10 + (d - 0x30) <=? max) eqn:E2; simpl.
    + apply Z.leb_le in E2. apply IH. lia.
    + apply Z.leb_gt in E2. by rewrite Hno by lia.
  - apply Z.leb_gt in E1. by rewrite Hno by lia.
Qed.

(** [u64::to_string] (twenty digits are enough) and [str::parse::<u64>], which allows a
    plus sign. *)
Definition decimal_u64 (n : Z) : list Z := decimal_fuel 20 n [].
Definition parse_u64 (s : list Z) : option Z :=
  let digits := match s with c :: s' => if c =? 0x2b then s' else s | [] => [] end in
  match digits with
  | [] => None
  | _ => if forallb is_ascii_digit digits then fold_digits u64_max 0 digits else None
  end.

Lemma decimal_fuel_spec fuel n acc :
  (0 < fuel)%nat → 0 <= n < 10 ^ Z.of_nat fuel →
  ∃ ds, decimal_fuel fuel n acc = ds ++ acc ∧ ds ≠ []
        ∧ Forall (λ b, is_ascii_digit b = true) ds ∧ digits_value 0 ds = n.
Proof.
  intros Hf. revert n acc. induction fuel as [|fuel IH]; intros n acc Hn; [lia|]. cbn [decimal_fuel].
  assert (Hd : is_ascii_digit (48 + n mod 10) = true)
    by (apply between_true; pose proof (Z.mod_pos_bound n 10); lia).
  destruct (Z.ltb_spec n 10) as [Hlt|Hge].
  - exists [48 + n mod 10]. repeat split; try done; [by repeat constructor|].
    unfold digits_value. cbn [fold_left]. rewrite Z.mod_small by lia. lia.
  - rewrite Nat2Z.inj_succ, Z.pow_succ_r in Hn by lia.
    assert (Hq : 0 <= n / 10 < 10 ^ Z.of_nat fuel) by (Z.to_euclidean_division_equations; lia).
    destruct fuel as [|fuel']; [cbn in Hq; Z.to_euclidean_division_equations; lia|].
    destruct (IH ltac:(lia) (n / 10) ((48 + n mod 10) :: acc) Hq) as (ds & -> & _ & Hds & Hv).
    exists (ds ++ [48 + n mod 10]). rewrite <-app_assoc. repeat split; [by destruct ds| |].
    + by rewrite Forall_app; repeat constructor.
    + unfold digits_value in *. rewrite fold_left_app. cbn [fold_left]. rewrite Hv.
      Z.to_euclidean_division_equations; lia.
Qed.

Lemma parse_decimal_u64 n : is_u64 n → parse_u64 (decimal_u64 n) = Some n.
Proof.
  intros Hn. assert (Hw : 0 <= n < 10 ^ Z.of_nat 20).
  { unfold is_u64, in_width, u64_max in Hn. change (10 ^ Z.of_nat 20) with 100000000000000000000. lia. }
  destruct (decimal_fuel_spec 20 n [] ltac:(lia) Hw) as (ds & E & Hne & Hds & Hv).
  unfold decimal_u64. rewrite E, app_nil_r. unfold parse_u64.
  destruct ds as [|d ds]; [done|]. assert (Hd : is_ascii_digit d = true) by by inversion Hds.
  apply between_true in Hd. rewrite (proj2 (Z.eqb_neq d 0x2b)) by lia.
  rewrite (proj2 (forallb_true _ _)) by done.
  rewrite fold_digits_spec; [|by unfold u64_max|by apply Forall_digits].
  rewrite Hv. unfold is_u64, in_width in Hn. by rewrite (proj2 (Z.leb_le _ _)) by lia.
Qed.

(** ** String methods, for a one-byte separator *)

(** [str::strip_prefix], [str::starts_with]. *)
Fixpoint strip_prefix (p s : list Z) : option (list Z) :=
  match p, s with
  | [], s => Some s
  | a :: p, b :: s => if a =? b then strip_prefix p s else None
  | _ :: _, [] => None
  end.
Definition starts_with (p s : list Z) : bool := is_some (strip_prefix p s).

(** [str::split_once]. *)
Fixpoint split_once (sep : Z) (s : list Z) : option (list Z * list Z) :=
  match s with
  | [] => None
  | b :: s =>
      if b =? sep then Some ([], s)
      else prod_map (cons b) id <$> split_once sep s
  end.

(** [str::split]: at least one piece. *)
Fixpoint split (sep : Z) (s : list Z) : list (list Z) :=
  match s with
  | [] => [[]]
  | b :: s =>
      if b =? sep then [] :: split sep s
      else match split sep s with
           | [] => [[b]]
           | piece :: pieces => (b :: piece) :: pieces
           end
  end.

(** [join] of the pieces. *)
Fixpoint join (sep : Z) (pieces : list (list Z)) : list Z :=
  match pieces with
  | [] => []
  | [piece] => piece
  | piece :: pieces => piece ++ sep :: join sep pieces
  end.

Lemma strip_prefix_app p s : strip_prefix p (p ++ s) = Some s.
Proof. induction p as [|a p IH]; simpl; [done|]. by rewrite Z.eqb_refl. Qed.

Lemma strip_prefix_Some p s t : strip_prefix p s = Some t ↔ s = p ++ t.
Proof.
  split; [|intros ->; apply strip_prefix_app]. revert s.
  induction p as [|a p IH]; intros s; simpl; [by intros [= ->]|]. destruct s as [|b s]; [done|].
  destruct (Z.eqb_spec a b) as [->|]; [|done]. by intros ->%IH.
Qed.

Lemma split_once_app sep k v : sep ∉ k → split_once sep (k ++ sep :: v) = Some (k, v).
Proof.
  induction k as [|b k IH]; intros Hk; simpl; [by rewrite Z.eqb_refl|].
  apply not_elem_of_cons in Hk as [Hb Hk].
  rewrite (proj2 (Z.eqb_neq b sep)) by done. by rewrite IH.
Qed.

Lemma split_single sep s : sep ∉ s → split sep s = [s].
Proof.
  induction s as [|b s IH]; intros Hs; simpl; [done|].
  apply not_elem_of_cons in Hs as [Hb Hs].
  rewrite (proj2 (Z.eqb_neq b sep)) by done. by rewrite IH.
Qed.

Lemma split_app sep s t : sep ∉ s → split sep (s ++ sep :: t) = s :: split sep t.
Proof.
  induction s as [|b s IH]; intros Hs; simpl; [by rewrite Z.eqb_refl|].
  apply not_elem_of_cons in Hs as [Hb Hs].
  rewrite (proj2 (Z.eqb_neq b sep)) by done. by rewrite IH.
Qed.

(** Splitting undoes joining. *)
Lemma split_join sep pieces :
  pieces ≠ [] → Forall (λ p, sep ∉ p) pieces → split sep (join sep pieces) = pieces.
Proof.
  induction pieces as [|p pieces IH]; [done|]. intros _ [Hp Hps]%Forall_cons.
  destruct pieces as [|q pieces]; [by apply split_single|].
  change (join sep (p :: q :: pieces)) with (p ++ sep :: join sep (q :: pieces)).
  by rewrite split_app, IH.
Qed.

(** [str::ends_with] and [str::contains] of a text; membership in a list of literals. *)
Definition ends_with (p s : list Z) : bool := starts_with (rev p) (rev s).
Fixpoint contains (p s : list Z) : bool :=
  starts_with p s || match s with [] => false | _ :: s => contains p s end.
Definition one_of (s : list Z) (literals : list (list Z)) : bool := existsb (eqb s) literals.

Lemma one_of_true s literals : one_of s literals = true ↔ s ∈ literals.
Proof. apply existsb_eqb. Qed.
Lemma starts_with_true p s : starts_with p s = true ↔ ∃ t, s = p ++ t.
Proof.
  unfold starts_with. rewrite is_some_true. split; intros [t H]; exists t; by apply strip_prefix_Some.
Qed.

(** ** [String]'s [Ord]: byte by byte *)

Fixpoint key_leb (a b : list Z) : bool :=
  match a, b with
  | [], _ => true
  | _ :: _, [] => false
  | x :: a, y :: b => (x <? y) || ((x =? y) && key_leb a b)
  end.
Definition key_le (a b : list Z) : Prop := key_leb a b = true.
#[export] Instance key_le_dec : RelDecision key_le.
Proof. intros a b. unfold key_le. apply _. Defined.

Lemma key_le_total a b : key_le a b ∨ key_le b a.
Proof.
  unfold key_le. revert b. induction a as [|x a IH]; intros [|y b]; simpl; auto.
  destruct (IH b) as [H|H]; rewrite H; destruct (Z.lt_trichotomy x y) as [?|[->|?]];
    rewrite ?orb_true_iff, ?andb_true_iff, ?Z.ltb_lt, ?Z.eqb_refl; auto.
Qed.
#[export] Instance key_le_Total : Total key_le.
Proof. exact key_le_total. Qed.
#[export] Instance key_le_refl : Reflexive key_le.
Proof. intros a. by destruct (key_le_total a a). Qed.
#[export] Instance key_le_trans : Transitive key_le.
Proof.
  unfold key_le. intros a. induction a as [|x a IH]; intros [|y b] [|z c]; simpl; try done.
  rewrite !orb_true_iff, !andb_true_iff, !Z.ltb_lt, !Z.eqb_eq.
  intros [?|[-> H1]] [?|[-> H2]]; auto; [left; lia|]. right. split; [done|]. by apply (IH b).
Qed.
#[export] Instance key_le_antisymm : AntiSymm (=) key_le.
Proof.
  unfold key_le. intros a. induction a as [|x a IH]; intros [|y b]; simpl; try done.
  rewrite !orb_true_iff, !andb_true_iff, !Z.ltb_lt, !Z.eqb_eq.
  intros [?|[-> H1]] [?|[? H2]]; try lia. f_equal. by apply IH.
Qed.

(** ** Encoding

    The bytes of a text that is given by its characters, [char::len_utf8], and
    positions: the length of the encoding of a prefix is a character boundary. *)

Definition encode_char (c : Z) : list Z :=
  if c <? 0x80 then [c]
  else if c <? 0x800 then [0xc0 + c / 64; 0x80 + c mod 64]
  else if c <? 0x10000 then [0xe0 + c / 4096; 0x80 + c / 64 mod 64; 0x80 + c mod 64]
  else [0xf0 + c / 262144; 0x80 + c / 4096 mod 64; 0x80 + c / 64 mod 64; 0x80 + c mod 64].
Definition len_utf8 (c : Z) : nat :=
  if c <? 0x80 then 1 else if c <? 0x800 then 2 else if c <? 0x10000 then 3 else 4.
Definition encode (cs : list Z) : list Z := concat (encode_char <$> cs).

(** A Unicode scalar value, the values of the type [char]. *)
Definition is_char (c : Z) : Prop := 0 <= c < 0xd800 ∨ 0xe000 <= c < 0x110000.

#[export] Instance is_char_dec c : Decision (is_char c).
Proof. unfold is_char. apply _. Defined.

Lemma encode_cons c cs : encode (c :: cs) = encode_char c ++ encode cs.
Proof. done. Qed.
Lemma encode_app cs ds : encode (cs ++ ds) = encode cs ++ encode ds.
Proof. unfold encode. by rewrite fmap_app, concat_app. Qed.
Lemma encode_char_length c : length (encode_char c) = len_utf8 c.
Proof. unfold encode_char, len_utf8. by cases. Qed.
Lemma len_utf8_pos c : (1 <= len_utf8 c <= 4)%nat.
Proof. unfold len_utf8. cases; lia. Qed.

(** The first byte of a character is not a continuation byte, the others are. *)
Lemma encode_char_shape c :
  is_char c → ∃ b bs, encode_char c = b :: bs ∧ is_cont b = false
    ∧ Forall (λ b, is_cont b = true) bs ∧ (c < 0x80 → b = c ∧ bs = []) ∧
    (0x80 <= c → 0x80 <= b).
Proof.
  intros Hc. unfold encode_char, is_char, is_cont in *.
  destruct (Z.ltb_spec c 0x80); [|destruct (Z.ltb_spec c 0x800); [|destruct (Z.ltb_spec c 0x10000)]];
    eexists _, _; (split; [reflexivity|]); rewrite ?Forall_cons, ?between_true, ?between_false;
    repeat split; try done; try lia; try (by constructor);
    Z.to_euclidean_division_equations; lia.
Qed.

(** Decoding undoes encoding. *)
Lemma from_utf8_encode_char c bytes :
  is_char c → from_utf8 (encode_char c ++ bytes) = utf8_cons c (from_utf8 bytes).
Proof.
  unfold is_char, encode_char. intros Hc.
  destruct (Z.ltb_spec c 0x80); [|destruct (Z.ltb_spec c 0x800); [|destruct (Z.ltb_spec c 0x10000)]];
    cbn [app from_utf8].
  - by rewrite (proj2 (Z.ltb_lt _ _)).
  - unfold is_cont.
    rewrite (proj2 (Z.ltb_ge _ _)), (proj2 (between_true _ _ _)), (proj2 (between_true 0x80 0xbf _))
      by (Z.to_euclidean_division_equations; lia).
    f_equal. Z.to_euclidean_division_equations; lia.
  - rewrite (proj2 (Z.ltb_ge _ _)), (proj2 (between_false _ _ _)), (proj2 (between_true 0xe0 0xef _))
      by (Z.to_euclidean_division_equations; lia).
    assert (second3 (0xe0 + c / 4096) (0x80 + c / 64 mod 64) = true) as ->.
    { unfold second3, is_cont. cases; to_prop; Z.to_euclidean_division_equations; lia. }
    unfold is_cont. rewrite (proj2 (between_true 0x80 0xbf _))
      by (Z.to_euclidean_division_equations; lia).
    f_equal. Z.to_euclidean_division_equations; lia.
  - rewrite (proj2 (Z.ltb_ge _ _)), (proj2 (between_false 0xc2 _ _)), (proj2 (between_false 0xe0 _ _)),
      (proj2 (between_true 0xf0 0xf4 _)) by (Z.to_euclidean_division_equations; lia).
    assert (second4 (0xf0 + c / 262144) (0x80 + c / 4096 mod 64) = true) as ->.
    { unfold second4, is_cont. cases; to_prop; Z.to_euclidean_division_equations; lia. }
    unfold is_cont. rewrite !(proj2 (between_true 0x80 0xbf _))
      by (Z.to_euclidean_division_equations; lia).
    f_equal. Z.to_euclidean_division_equations; lia.
Qed.

Lemma from_utf8_encode cs : Forall is_char cs → from_utf8 (encode cs) = Utf8Ok cs.
Proof.
  induction 1 as [|c cs Hc _ IH]; [done|]. by rewrite encode_cons, from_utf8_encode_char, IH.
Qed.
Lemma chars_of_encode cs : Forall is_char cs → chars_of (encode cs) = cs.
Proof. intros H. unfold chars_of. by rewrite from_utf8_encode. Qed.

(** The boundaries of an encoded text are the lengths of its encoded prefixes. *)
Lemma boundary_prefix pre suf :
  Forall is_char suf → is_char_boundary (encode (pre ++ suf)) (length (encode pre)) = true.
Proof.
  intros Hs. rewrite encode_app. unfold is_char_boundary.
  rewrite lookup_app_r, Nat.sub_diag by done. destruct Hs as [|c suf Hc _].
  { change (encode []) with (@nil Z). rewrite app_nil_r. simpl. by apply Nat.eqb_refl. }
  rewrite encode_cons. destruct (encode_char_shape c Hc) as (b & bs & -> & Hb & _).
  simpl. by rewrite Hb.
Qed.
Lemma boundary_inv cs i :
  Forall is_char cs → is_char_boundary (encode cs) i = true →
  ∃ pre suf, cs = pre ++ suf ∧ i = length (encode pre).
Proof.
  intros Hcs. revert i. induction Hcs as [|c cs Hc _ IH]; intros i.
  { exists [], []. split; [done|]. unfold is_char_boundary in *.
    change (encode []) with (@nil Z) in *. rewrite lookup_nil in *. by apply Nat.eqb_eq. }
  rewrite encode_cons. destruct (encode_char_shape c Hc) as (b & bs & E & Hb & Hbs & _).
  intros Hi. destruct i as [|i]; [by exists [], (c :: cs)|].
  destruct (decide (length (encode_char c) <= S i)%nat) as [Hle|Hlt].
  - destruct (IH (S i - length (encode_char c))%nat) as (pre & suf & -> & Hj).
    { revert Hi. unfold is_char_boundary. rewrite lookup_app_r by done.
      destruct (encode cs !! _); [done|]. rewrite !Nat.eqb_eq, length_app. lia. }
    exists (c :: pre), suf. split; [done|]. rewrite encode_cons, length_app. lia.
  - exfalso. revert Hi. unfold is_char_boundary. rewrite lookup_app_l by lia. rewrite E. simpl.
    destruct (lookup_lt_is_Some_2 bs i) as [x Hx]; [rewrite E in Hlt; simpl in Hlt; lia|].
    rewrite Hx. by rewrite (Forall_lookup_1 _ _ _ _ Hbs Hx).
Qed.
Lemma get_from_prefix pre suf :
  Forall is_char suf → get_from (encode (pre ++ suf)) (length (encode pre)) = Some (encode suf).
Proof.
  intros Hs. unfold get_from. rewrite boundary_prefix by done.
  by rewrite encode_app, drop_app_length.
Qed.
