(* ===== verification/GitEol.v ===== *)
(** * Line ends of Git content

    [git_changes_eol.rs], the cleaning of CRLF that Git would do before it stores a
    file, and its use in git_changes_fs.rs ([bounded]): a file is cleaned in place when
    it is small, and compared with a blob chunk by chunk when it is large.

    A hasher keeps what it was given: [sha1], the digest of the whole, is an argument.
    So are the attributes, the configuration and the object database of git2.  A pass
    over a file is the list of what its reads answer, until one answers nothing. *)
From S2P Require Export Utf8.

Definition CR : Z := 0x0d.
Definition LF : Z := 0x0a.

Inductive Eol : Type := Raw | Auto | AutoIndexSame | Text.
#[export] Instance Eol_eq_dec : EqDecision Eol.
Proof. solve_decision. Defined.

(** ** Statistics *)

Record Stats : Type := mkStats {
  crlf : Z;
  cr : Z;
  nul : bool;
  printable : Z;
  control : Z;
  last : option Z;
}.
Definition default_stats : Stats := mkStats 0 0 false 0 0 None.

(** One turn of the loop of [add]. *)
Definition add_byte (s : Stats) (b : Z) : Stats :=
  let crlf' := if (last s == Some CR) && (b =? LF) then crlf s + 1 else crlf s in
  if b =? CR then mkStats crlf' (cr s + 1) (nul s) (printable s) (control s) (Some b)
  else if b =? LF then mkStats crlf' (cr s) (nul s) (printable s) (control s) (Some b)
  else if b =? 0 then mkStats crlf' (cr s) true (printable s) (control s + 1) (Some b)
  else if (b =? 9) || (b =? 8) || (b =? 11) || (b =? 12) || (b =? 27)
  then mkStats crlf' (cr s) (nul s) (printable s + 1) (control s) (Some b)
  else if between 32 126 b || between 128 255 b
  then mkStats crlf' (cr s) (nul s) (printable s + 1) (control s) (Some b)
  else mkStats crlf' (cr s) (nul s) (printable s) (control s + 1) (Some b).
Definition add (s : Stats) (bytes : list Z) : Stats := fold_left add_byte bytes s.

Definition binary (s : Stats) : bool :=
  nul s || negb (cr s =? crlf s)
  || (saturating_sub (control s) (if last s == Some 26 then 1 else 0) >? Z.shiftr (printable s) 7).

(** ** Cleaning in place *)

(** The loop of [clean] from index [from] on, with [to] bytes written; a vector that is
    only overwritten keeps its length, so no index is out of range. *)
Fixpoint clean_loop (turns from to : nat) (bytes : list Z) : list Z * nat :=
  match turns with
  | O => (bytes, to)
  | S turns =>
      match bytes !! from with
      | Some b =>
          if (b =? CR) && (bytes !! S from == Some LF) then clean_loop turns (S from) to bytes
          else clean_loop turns (S from) (S to) (<[to := b]> bytes)
      | None => (bytes, to)
      end
  end.
Definition clean (eol : Eol) (bytes : list Z) : list Z :=
  if eol == Raw then bytes
  else if ((eol == Auto) || (eol == AutoIndexSame)) && binary (add default_stats bytes) then bytes
  else
    let '(bytes, to) := clean_loop (length bytes) 0 0 bytes in
    take to bytes.
Definition converts (eol : Eol) (s : Stats) : bool :=
  (eol == Text) || (((eol == Auto) || (eol == AutoIndexSame)) && negb (binary s)).

(** ** The policy for a path *)

Inductive AttrValue : Type := AttrTrue | AttrFalse | AttrString (s : list Z) | AttrUnspecified.
#[export] Instance AttrValue_eq_dec : EqDecision AttrValue.
Proof. solve_decision. Defined.

Definition INPUT_LIMIT : Z := 1048576.

Section policy.
Context {Oid : Type} `{EqDecision Oid}.
Context (attr : string → result (list Z) AttrValue).
(** [core.autocrlf] as a boolean and as a string; [None] when there is none. *)
Context (config : result (list Z) (option bool * option (list Z))).
Context (read_header : Oid → result (list Z) Z) (find_blob : Oid → result (list Z) (list Z)).

Definition auto_mode (index head : option Oid) : result (list Z) Eol :=
  match index with
  | None => Ok Auto
  | Some id =>
      size ← read_header id;
      if size <=? INPUT_LIMIT then
        content ← find_blob id;
        Ok (if existsb (Z.eqb CR) content then Raw else Auto)
      else if Some id != head
      then Err (bytes_of "Index content exceeds normalization budget; patch unavailable.")
      else Ok AutoIndexSame
  end.
Definition text_mode (text : AttrValue) : option Eol :=
  match text with
  | AttrTrue => Some Text
  | AttrString s => if s == bytes_of "auto" then Some Auto else None
  | _ => None
  end.
Definition crlf_mode (value : AttrValue) : option Eol :=
  match value with
  | AttrFalse => Some Raw
  | AttrTrue => Some Text
  | AttrString s =>
      if s == bytes_of "input" then Some Text else if s == bytes_of "auto" then Some Auto else None
  | AttrUnspecified => None
  end.
Definition eol_says (value : AttrValue) : bool :=
  match value with AttrString s => one_of s [bytes_of "lf"; bytes_of "crlf"] | _ => false end.

Definition policy (index head : option Oid) : result (list Z) Eol :=
  text ← attr "text";
  if text == AttrFalse then Ok Raw
  else
    mode ← match text_mode text with
           | Some mode => Ok (Some mode)
           | None => value ← attr "crlf"; Ok (crlf_mode value)
           end;
    if mode == Some Raw then Ok Raw
    else
      mode ← match mode with
             | Some mode => Ok (Some mode)
             | None => value ← attr "eol"; Ok (if eol_says value then Some Text else None)
             end;
      '(flag, name) ← config;
      let auto := default false flag
                  || is_some_and name (λ s, eq_ignore_ascii_case s (bytes_of "input")) in
      let mode := default (if auto then Auto else Raw) mode in
      if mode == Auto then auto_mode index head else Ok mode.
End policy.

(** ** Large files *)

(** Before a read: whether five seconds have passed, and what the read answers. *)
Record Read : Type := mkRead {
  expired : bool;
  answer : option (list Z);
}.
Definition HASH_LIMIT : Z := 67108864.
Definition budget_error : list Z := bytes_of "Capture budget exceeded; content unavailable.".
Definition changed_error : list Z := bytes_of "File changed or equality budget exceeded; refresh.".
Definition equality_error : list Z :=
  bytes_of "Large-file equality budget exceeded; content unavailable.".
Definition too_large : list Z := bytes_of "File exceeds 1 MiB; patch unavailable.".

(** [hash_bytes] is updated in place, so it comes back with an error too. *)
Abbreviation counted A := (result (list Z) A * Z)%type.

(** The loop of [raw_blob_digest]; [hash] is what the hasher was given. *)
Fixpoint raw_loop (size : Z) (reads : list Read) (read : Z) (stats : Stats) (hash : list Z)
    (hash_bytes : Z) : counted (Z * list Z * Stats) :=
  match reads with
  | [] => (Ok (read, hash, stats), hash_bytes)
  | r :: reads =>
      if expired r then (Err budget_error, hash_bytes)
      else
        match answer r with
        | None => (Err (bytes_of "Unreadable file."), hash_bytes)
        | Some [] => (Ok (read, hash, stats), hash_bytes)
        | Some bytes =>
            let n := Z.of_nat (length bytes) in
            let read := read + n in
            let hash_bytes := hash_bytes + n in
            if (read >? size) || (hash_bytes >? HASH_LIMIT) then (Err changed_error, hash_bytes)
            else raw_loop size reads read (add stats bytes) (hash ++ bytes) hash_bytes
        end
  end.
(** The header Git hashes before the content. *)
Definition blob_header (size : Z) : list Z := bytes_of "blob " ++ decimal_u64 size ++ [0].
Definition raw_blob_digest (size : Z) (reads : list Read) (hash_bytes : Z)
    : counted (Z * list Z * Stats) :=
  raw_loop size reads 0 default_stats (blob_header size) hash_bytes.

(** The loop of [crlf_normalized_chunk]. *)
Fixpoint crlf_normalized_chunk (buf : list Z) (pending_cr : bool) (clean : list Z) : bool * list Z :=
  match buf with
  | [] => (pending_cr, clean)
  | b :: buf =>
      let clean := if pending_cr && negb (b =? LF) then clean ++ [CR] else clean in
      if b =? CR then crlf_normalized_chunk buf true clean
      else crlf_normalized_chunk buf false (clean ++ [b])
  end.
Fixpoint normalized_loop (size : Z) (reads : list Read) (pending_cr : bool) (raw output : Z)
    (hash : list Z) (hash_bytes : Z) : counted (bool * Z * Z * list Z) :=
  match reads with
  | [] => (Ok (pending_cr, raw, output, hash), hash_bytes)
  | r :: reads =>
      if expired r then (Err budget_error, hash_bytes)
      else
        match answer r with
        | None => (Err (bytes_of "Unreadable file."), hash_bytes)
        | Some [] => (Ok (pending_cr, raw, output, hash), hash_bytes)
        | Some bytes =>
            let n := Z.of_nat (length bytes) in
            let raw := raw + n in
            let hash_bytes := hash_bytes + n in
            if (raw >? size) || (hash_bytes >? HASH_LIMIT) then (Err changed_error, hash_bytes)
            else
              let '(pending_cr, clean) := crlf_normalized_chunk bytes pending_cr [] in
              normalized_loop size reads pending_cr raw (output + Z.of_nat (length clean))
                (hash ++ clean) hash_bytes
        end
  end.

Section bounded.
Context (sha1 : list Z → list Z).

(** [size - crlf] is a subtraction of [u64]. *)
Definition normalized_blob_matches (seek : bool) (reads : list Read) (size crlf : Z)
    (expected : list Z) (hash_bytes : Z) : counted bool :=
  if hash_bytes + size >? HASH_LIMIT then (Err equality_error, hash_bytes)
  else if negb seek then (Err (bytes_of "File changed; refresh."), hash_bytes)
  else
    let normalized_size := (size - crlf) mod (u64_max + 1) in
    match normalized_loop size reads false 0 0 (blob_header normalized_size) hash_bytes with
    | (Ok (pending_cr, raw, output, hash), hash_bytes) =>
        let '(hash, output) := if pending_cr then (hash ++ [CR], output + 1) else (hash, output) in
        (Ok ((raw =? size) && (output =? normalized_size) && (sha1 hash == expected)), hash_bytes)
    | (Err e, hash_bytes) => (Err e, hash_bytes)
    end.

(** What the file answers: its size, the passes over it, the seek between them, and
    [read_to_end] limited to one byte above the limit. *)
Record OpenFile : Type := mkFile {
  metadata_len : option Z;
  first_pass : list Read;
  seek_start : bool;
  second_pass : list Read;
  read_to_end : option (list Z);
}.

Definition bounded (f : OpenFile) (expected : option (list Z)) (eol : Eol) (hash_bytes : Z)
    : counted (option (list Z)) :=
  match metadata_len f with
  | None => (Err (bytes_of "Unreadable file."), hash_bytes)
  | Some size =>
      if size >? INPUT_LIMIT then
        match expected with
        | None => (Err too_large, hash_bytes)
        | Some expected =>
            if (size >? HASH_LIMIT) || (hash_bytes + size >? HASH_LIMIT)
            then (Err equality_error, hash_bytes)
            else
              match raw_blob_digest size (first_pass f) hash_bytes with
              | (Err e, hash_bytes) => (Err e, hash_bytes)
              | (Ok (read, hash, stats), hash_bytes) =>
                  if (read =? size) && (sha1 hash == expected)
                     && (negb (converts eol stats) || (crlf stats =? 0) || (eol == AutoIndexSame))
                  then (Ok None, hash_bytes)
                  else if converts eol stats && (crlf stats >? 0) then
                    match normalized_blob_matches (seek_start f) (second_pass f) size (crlf stats)
                            expected hash_bytes with
                    | (Ok true, hash_bytes) => (Ok None, hash_bytes)
                    | (Ok false, hash_bytes) => (Err too_large, hash_bytes)
                    | (Err e, hash_bytes) => (Err e, hash_bytes)
                    end
                  else (Err too_large, hash_bytes)
              end
        end
      else
        match read_to_end f with
        | None => (Err (bytes_of "Unreadable file."), hash_bytes)
        | Some buf =>
            if Z.of_nat (length buf) >? INPUT_LIMIT then (Err too_large, hash_bytes)
            else (Ok (Some (clean eol buf)), hash_bytes)
        end
  end.
End bounded.

(** ** The reference: every CR before an LF dropped *)

Fixpoint drop_crlf (bytes : list Z) : list Z :=
  match bytes with
  | [] => []
  | b :: rest => if (b =? CR) && (head rest == Some LF) then drop_crlf rest else b :: drop_crlf rest
  end.

Lemma clean_loop_spec turns from to bytes :
  (to <= from)%nat → (length bytes <= from + turns)%nat →
  let '(bytes', to') := clean_loop turns from to bytes in
  take to' bytes' = take to bytes ++ drop_crlf (drop from bytes).
Proof.
  revert from to bytes. induction turns as [|turns IH]; intros from to bytes Hto Hlen.
  { cbn. rewrite (drop_ge bytes from) by lia. by rewrite app_nil_r. }
  cbn [clean_loop]. destruct (bytes !! from) as [b|] eqn:Hb.
  2: { apply lookup_ge_None in Hb. rewrite (drop_ge bytes from) by lia. by rewrite app_nil_r. }
  pose proof (lookup_lt_Some _ _ _ Hb) as Hlt.
  rewrite (drop_S bytes b from Hb). cbn [drop_crlf].
  assert (Hhead : head (drop (S from) bytes) = bytes !! S from).
  { rewrite head_lookup, lookup_drop. by rewrite Nat.add_0_r. }
  rewrite Hhead. destruct ((b =? CR) && (bytes !! S from == Some LF)).
  - apply IH; lia.
  - specialize (IH (S from) (S to) (<[to:=b]> bytes)). rewrite length_insert in IH.
    destruct (clean_loop turns (S from) (S to) (<[to:=b]> bytes)) as [bytes' to'].
    rewrite IH by lia. rewrite drop_insert_lt by lia.
    rewrite (take_S_r _ _ b) by (apply list_lookup_insert_eq; lia).
    by rewrite take_insert_ge, <- app_assoc by lia.
Qed.
Lemma clean_converts eol bytes :
  clean eol bytes = if converts eol (add default_stats bytes) then drop_crlf bytes else bytes.
Proof.
  unfold clean, converts. pose proof (clean_loop_spec (length bytes) 0 0 bytes) as Hl.
  destruct (clean_loop (length bytes) 0 0 bytes) as [bytes' to']. cbn in Hl. rewrite Hl by lia.
  destruct eol; cbn; [done|..|done]; by destruct (binary (add default_stats bytes)).
Qed.

(** ** Chunks *)

Definition pend (pending : bool) : list Z := if pending then [CR] else [].
Lemma drop_crlf_CR b rest : b ≠ LF → drop_crlf (CR :: b :: rest) = CR :: drop_crlf (b :: rest).
Proof.
  intros Hb. cbn [drop_crlf head]. rewrite (proj2 (eqb_false (Some b) (Some LF))) by congruence.
  by rewrite andb_false_r.
Qed.
Lemma drop_crlf_LF rest : drop_crlf (CR :: LF :: rest) = LF :: drop_crlf rest.
Proof. done. Qed.
Lemma drop_crlf_other b rest : b ≠ CR → drop_crlf (b :: rest) = b :: drop_crlf rest.
Proof. intros Hb. cbn. by rewrite (proj2 (Z.eqb_neq b CR) Hb). Qed.

(** What is cleaned and what is pending stand for what was read, whatever follows. *)
Lemma chunk_spec buf pending done_ rest :
  let '(pending', done') := crlf_normalized_chunk buf pending done_ in
  done' ++ drop_crlf (pend pending' ++ rest) = done_ ++ drop_crlf (pend pending ++ buf ++ rest).
Proof.
  revert pending done_. induction buf as [|b buf IH]; intros pending done_; [done|].
  cbn [crlf_normalized_chunk]. destruct (b =? CR) eqn:Hcr.
  - apply Z.eqb_eq in Hcr as ->. change (CR =? LF) with false. specialize (IH true (if pending && negb false then done_ ++ [CR] else done_)).
    destruct (crlf_normalized_chunk _ _ _) as [p' d']. rewrite IH. destruct pending; [|done].
    cbn [pend andb negb app]. rewrite drop_crlf_CR by done. by rewrite <- app_assoc.
  - apply Z.eqb_neq in Hcr. destruct (b =? LF) eqn:Hlf.
    + apply Z.eqb_eq in Hlf as ->. rewrite andb_false_r. specialize (IH false (done_ ++ [LF])).
      destruct (crlf_normalized_chunk _ _ _) as [p' d']. rewrite IH, <- app_assoc.
      by destruct pending.
    + apply Z.eqb_neq in Hlf. specialize (IH false ((if pending then done_ ++ [CR] else done_) ++ [b])).
      rewrite andb_true_r. destruct (crlf_normalized_chunk _ _ _) as [p' d']. rewrite IH.
      destruct pending; cbn [pend app]; rewrite ?drop_crlf_CR, drop_crlf_other by done;
        by rewrite <- ?app_assoc.
Qed.

(** The cleaning of a sequence of chunks, with what is pending at the end. *)
Definition clean_chunks (chunks : list (list Z)) : list Z :=
  let '(pending, cleaned) :=
    fold_left (λ st buf, crlf_normalized_chunk buf st.1 st.2) chunks (false, []) in
  cleaned ++ pend pending.

Lemma clean_chunks_spec chunks : clean_chunks chunks = drop_crlf (concat chunks).
Proof.
  unfold clean_chunks.
  assert (H : ∀ pending done_ rest,
    let '(pending', done') := fold_left (λ st buf, crlf_normalized_chunk buf st.1 st.2) chunks (pending, done_) in
    done' ++ drop_crlf (pend pending' ++ rest) = done_ ++ drop_crlf (pend pending ++ concat chunks ++ rest)).
  { induction chunks as [|buf chunks IH]; intros pending done_ rest; [done|]. cbn [fold_left fst snd concat].
    pose proof (chunk_spec buf pending done_ (concat chunks ++ rest)) as Hc.
    destruct (crlf_normalized_chunk buf pending done_) as [p d]. specialize (IH p d rest).
    destruct (fold_left _ chunks (p, d)) as [p' d']. by rewrite IH, Hc, <- app_assoc. }
  specialize (H false [] []). destruct (fold_left _ chunks (false, [])) as [p d].
  cbn [pend app] in H. rewrite !app_nil_r in H. rewrite <- H. by destruct p.
Qed.

(** ** Statistics of a text *)

Definition pending_of (s : Stats) : bool := last s == Some CR.
Lemma add_app s a b : add s (a ++ b) = add (add s a) b.
Proof. apply fold_left_app. Qed.
Lemma add_byte_last s b : last (add_byte s b) = Some b.
Proof. unfold add_byte. repeat case_match; done. Qed.
Lemma add_byte_crlf s b :
  crlf (add_byte s b) = crlf s + (if pending_of s && (b =? LF) then 1 else 0).
Proof. unfold add_byte, pending_of. repeat (case_match; cbn); lia. Qed.
Lemma pending_add_byte s b : pending_of (add_byte s b) = (b =? CR).
Proof.
  unfold pending_of. rewrite add_byte_last. destruct (b =? CR) eqn:E.
  - apply Z.eqb_eq in E as ->. apply eqb_refl.
  - apply Z.eqb_neq in E. apply eqb_false. congruence.
Qed.

(** The pairs that are counted are the bytes that cleaning drops. *)
Lemma add_crlf s bytes :
  crlf (add s bytes) - crlf s
  = Z.of_nat (length (pend (pending_of s) ++ bytes))
    - Z.of_nat (length (drop_crlf (pend (pending_of s) ++ bytes))).
Proof.
  revert s. induction bytes as [|b bytes IH]; intros s.
  { change (add s []) with s. rewrite app_nil_r. destruct (pending_of s); cbn [pend drop_crlf head andb length]; [|lia].
    rewrite (proj2 (eqb_false None (Some LF))) by done. rewrite andb_false_r. cbn [length]. lia. }
  change (add s (b :: bytes)) with (add (add_byte s b) bytes). specialize (IH (add_byte s b)).
  rewrite add_byte_crlf, pending_add_byte in IH. destruct (pending_of s); cbn [pend app andb] in *.
  - destruct (b =? LF) eqn:Hlf.
    + apply Z.eqb_eq in Hlf as ->. change (LF =? CR) with false in IH. cbn [pend app] in IH.
      rewrite drop_crlf_LF. cbn [length]. lia.
    + apply Z.eqb_neq in Hlf. rewrite drop_crlf_CR by done.
      destruct (b =? CR) eqn:Hcr; cbn [pend app] in IH; cbn [length].
      * apply Z.eqb_eq in Hcr as ->. cbn [length] in IH. lia.
      * apply Z.eqb_neq in Hcr. rewrite drop_crlf_other by done. cbn [length] in *. lia.
  - destruct (b =? CR) eqn:Hcr; cbn [pend app] in IH.
    + apply Z.eqb_eq in Hcr as ->. lia.
    + apply Z.eqb_neq in Hcr. rewrite drop_crlf_other by done. cbn [length]. lia.
Qed.
Lemma crlf_of bytes :
  crlf (add default_stats bytes) = Z.of_nat (length bytes) - Z.of_nat (length (drop_crlf bytes)).
Proof.
  pose proof (add_crlf default_stats bytes) as H. change (pending_of default_stats) with false in H.
  change (crlf default_stats) with 0 in H. cbn [pend app] in H. lia.
Qed.

(** ** Passes over a file *)

Fixpoint read_bytes (reads : list Read) : list Z :=
  match reads with
  | [] => []
  | r :: reads => match answer r with Some (b :: bytes) => (b :: bytes) ++ read_bytes reads | _ => [] end
  end.
(** Every read answers in time. *)
Definition steady (reads : list Read) : Prop := Forall (λ r, expired r = false ∧ answer r ≠ None) reads.
Abbreviation len bytes := (Z.of_nat (length bytes)).

Lemma raw_loop_Ok size reads read stats hash hb read' hash' stats' hb' :
  raw_loop size reads read stats hash hb = (Ok (read', hash', stats'), hb') →
  read' = read + len (read_bytes reads) ∧ hash' = hash ++ read_bytes reads
  ∧ stats' = add stats (read_bytes reads).
Proof.
  revert read stats hash hb. induction reads as [|r reads IH]; intros read stats hash hb H.
  { injection H as <- <- <- <-. cbn [read_bytes length]. rewrite app_nil_r. split_and!; [lia|done|done]. }
  cbn [raw_loop read_bytes] in *. destruct (expired r); [done|].
  destruct (answer r) as [[|b bytes]|]; [|case_match; [done|]|done].
  - injection H as <- <- <- <-. cbn [length]. rewrite app_nil_r. split_and!; [lia|done|done].
  - apply IH in H as (-> & -> & ->). rewrite length_app, add_app, app_assoc. split_and!; [lia|done|done].
Qed.
Lemma raw_loop_le size reads read stats hash hb read' hash' stats' hb' :
  read <= size → raw_loop size reads read stats hash hb = (Ok (read', hash', stats'), hb') → read' <= size.
Proof.
  revert read stats hash hb. induction reads as [|r reads IH]; intros read stats hash hb Hr H.
  { by injection H as <- <- <- <-. }
  cbn [raw_loop] in H. destruct (expired r); [done|].
  destruct (answer r) as [[|b bytes]|]; [by injection H as <- <- <- <-| |done].
  destruct (_ || _) eqn:Hc; [done|]. apply orb_false_iff in Hc as [Hc _].
  rewrite Z.gtb_ltb, Z.ltb_ge in Hc. by apply IH in H.
Qed.
Lemma raw_loop_steady size reads read stats hash hb :
  steady reads → read + len (read_bytes reads) <= size → hb + len (read_bytes reads) <= HASH_LIMIT →
  raw_loop size reads read stats hash hb
  = (Ok (read + len (read_bytes reads), hash ++ read_bytes reads, add stats (read_bytes reads)),
     hb + len (read_bytes reads)).
Proof.
  intros Hs. revert read stats hash hb. induction Hs as [|r reads [He Ha] Hs IH]; intros read stats hash hb Hr Hb.
  { cbn [raw_loop read_bytes length]. by rewrite app_nil_r, !Z.add_0_r. }
  cbn [raw_loop read_bytes] in *. rewrite He. destruct (answer r) as [[|b bytes]|]; [| |done].
  { cbn [length]. by rewrite app_nil_r, !Z.add_0_r. }
  rewrite length_app in *. rewrite (proj2 (orb_false_iff _ _)) by (rewrite !Z.gtb_ltb, !Z.ltb_ge; lia).
  rewrite IH by lia. rewrite add_app, app_assoc, Nat2Z.inj_add, !Z.add_assoc. done.
Qed.

Lemma normalized_loop_Ok size reads pending raw output hash hb pending' raw' output' hash' hb' :
  normalized_loop size reads pending raw output hash hb = (Ok (pending', raw', output', hash'), hb') →
  raw' = raw + len (read_bytes reads)
  ∧ hash' ++ pend pending' = hash ++ drop_crlf (pend pending ++ read_bytes reads)
  ∧ output' - len hash' = output - len hash.
Proof.
  revert pending raw output hash hb.
  induction reads as [|r reads IH]; intros pending raw output hash hb H.
  { injection H as <- <- <- <- <-. cbn [read_bytes length]. rewrite app_nil_r.
    split_and!; [lia| |done]. by destruct pending. }
  cbn [normalized_loop read_bytes] in *. destruct (expired r); [done|].
  destruct (answer r) as [[|b bytes]|]; [|case_match; [done|]|done].
  - injection H as <- <- <- <- <-. cbn [length]. rewrite app_nil_r. split_and!; [lia| |done].
    by destruct pending.
  - pose proof (chunk_spec (b :: bytes) pending [] (read_bytes reads)) as Hc.
    destruct (crlf_normalized_chunk (b :: bytes) pending []) as [p d].
    apply IH in H as (-> & -> & Ho). rewrite !length_app in *. split_and!; [lia| |lia].
    rewrite <- app_assoc, Hc. done.
Qed.
Lemma normalized_loop_steady size reads pending raw output hash hb :
  steady reads → raw + len (read_bytes reads) <= size → hb + len (read_bytes reads) <= HASH_LIMIT →
  ∃ r, normalized_loop size reads pending raw output hash hb = (Ok r, hb + len (read_bytes reads)).
Proof.
  intros Hs. revert pending raw output hash hb.
  induction Hs as [|r reads [He Ha] Hs IH]; intros pending raw output hash hb Hr Hb.
  { cbn [normalized_loop read_bytes length]. eexists. by rewrite Z.add_0_r. }
  cbn [normalized_loop read_bytes] in *. rewrite He. destruct (answer r) as [[|b bytes]|]; [| |done].
  { cbn [length]. eexists. by rewrite Z.add_0_r. }
  rewrite length_app in *. rewrite (proj2 (orb_false_iff _ _)) by (rewrite !Z.gtb_ltb, !Z.ltb_ge; lia).
  destruct (crlf_normalized_chunk (b :: bytes) pending []) as [p d].
  rewrite Nat2Z.inj_add, Z.add_assoc. apply IH; lia.
Qed.

(** ** Comparison with a blob *)

(** What Git hashes for a content. *)
Definition blob (content : list Z) : list Z := blob_header (len content) ++ content.
#[local] Arguments blob_header : simpl never.
#[local] Arguments decimal_u64 : simpl never.

Section comparison.
Context (sha1 : list Z → list Z).

Lemma normalized_size_exact size c : 0 <= c <= size → size <= HASH_LIMIT → (size - c) mod (u64_max + 1) = size - c.
Proof. intros Hc Hs. unfold HASH_LIMIT, u64_max in *. apply Z.mod_small. lia. Qed.

(** The answer of a pass that came to its end. *)
Definition normalized_same (size c : Z) (expected content : list Z) : bool :=
  (len content =? size) && (len (drop_crlf content) =? size - c)
  && (sha1 (blob_header (size - c) ++ drop_crlf content) == expected).
Lemma normalized_matches_Ok seek reads size c expected hb b hb' :
  0 <= c <= size → size <= HASH_LIMIT →
  normalized_blob_matches sha1 seek reads size c expected hb = (Ok b, hb') →
  b = normalized_same size c expected (read_bytes reads).
Proof.
  intros Hc Hs. unfold normalized_blob_matches, normalized_same. rewrite normalized_size_exact by done.
  case_match; [done|]. case_match; [done|].
  destruct (normalized_loop _ _ _ _ _ _ _) as [[[[[p raw] output] hash]|] hb1] eqn:Hl; [|done].
  apply normalized_loop_Ok in Hl as (-> & Hh & Ho). cbn [pend app] in Hh. rewrite Z.add_0_l in *.
  set (out := len (drop_crlf (read_bytes reads))).
  assert (Hlen : output + len (pend p) = out).
  { apply (f_equal length) in Hh. rewrite !length_app in Hh. subst out. lia. }
  intros Hr. destruct p; cbn [pend] in Hh, Hlen; injection Hr as <- _.
  - change (len [CR]) with 1 in Hlen. by rewrite Hlen, Hh.
  - rewrite app_nil_r in Hh. change (len []) with 0 in Hlen. rewrite Z.add_0_r in Hlen. by rewrite Hlen, Hh.
Qed.
Lemma normalized_matches_steady reads size c expected hb :
  0 <= c <= size → size <= HASH_LIMIT → steady reads → len (read_bytes reads) <= size →
  hb + size <= HASH_LIMIT →
  ∃ hb', normalized_blob_matches sha1 true reads size c expected hb
         = (Ok (normalized_same size c expected (read_bytes reads)), hb').
Proof.
  intros Hc Hs Hst Hlen Hb.
  assert (H : ∃ b hb', normalized_blob_matches sha1 true reads size c expected hb = (Ok b, hb')).
  { unfold normalized_blob_matches. rewrite Z.gtb_ltb, (proj2 (Z.ltb_ge _ _)) by lia.
    destruct (normalized_loop_steady size reads false 0 0 (blob_header ((size - c) mod (u64_max + 1))) hb)
      as ([[[p raw] output] hash] & ->); [done|lia..|]. destruct p; by do 2 eexists. }
  destruct H as (b & hb' & H). exists hb'. rewrite H. by rewrite (normalized_matches_Ok _ _ _ _ _ _ _ _ Hc Hs H).
Qed.

Lemma crlf_bounds bytes : 0 <= crlf (add default_stats bytes) <= len bytes.
Proof.
  rewrite crlf_of. assert (H : (length (drop_crlf bytes) <= length bytes)%nat); [|lia].
  induction bytes as [|b bytes IH]; [done|]. cbn [drop_crlf]. case_match; cbn [length]; lia.
Qed.
Lemma drop_crlf_same bytes : crlf (add default_stats bytes) = 0 → drop_crlf bytes = bytes.
Proof.
  rewrite crlf_of. intros H. assert (Hl : length (drop_crlf bytes) = length bytes) by lia. clear H.
  assert (Hle : ∀ l, (length (drop_crlf l) <= length l)%nat).
  { induction l as [|b l IH]; [done|]. cbn [drop_crlf]. case_match; cbn [length]; lia. }
  induction bytes as [|b bytes IH]; [done|]. cbn [drop_crlf] in *. specialize (Hle bytes).
  case_match; cbn [length] in Hl; [lia|]. f_equal. apply IH. lia.
Qed.

(** The raw and the normalized comparison, for what the first pass read. *)
Lemma normalized_same_blob size expected content :
  len content = size →
  normalized_same size (crlf (add default_stats content)) expected content
  = (sha1 (blob (drop_crlf content)) == expected).
Proof.
  intros <-. unfold normalized_same, blob. rewrite crlf_of, Z.eqb_refl.
  replace (len content - (len content - len (drop_crlf content))) with (len (drop_crlf content)) by lia.
  by rewrite Z.eqb_refl.
Qed.

(** C21: a large file is reported unchanged exactly when Git would store the expected
    blob.  If every read answers in time, both passes see the same content in whatever
    chunks, and the budget allows two passes, then the answer for a file above the
    limit is "unchanged" iff the blob of its cleaned content, the one the small-file
    path would compare, is the expected one; where the policy could not look into the
    index, also iff the blob of the raw content is. *)
Theorem large_file_exact f expected eol hash_bytes (content : list Z) :
  metadata_len f = Some (len content) → INPUT_LIMIT < len content →
  steady (first_pass f) → read_bytes (first_pass f) = content →
  seek_start f = true → steady (second_pass f) → read_bytes (second_pass f) = content →
  0 <= hash_bytes → hash_bytes + 2 * len content <= HASH_LIMIT →
  (bounded sha1 f (Some expected) eol hash_bytes).1
  = if (sha1 (blob (clean eol content)) == expected)
       || ((eol == AutoIndexSame) && (sha1 (blob content) == expected))
    then Ok None else Err too_large.
Proof.
  intros Hlen Hbig Hst1 Hr1 Hseek Hst2 Hr2 Hb0 Hb. unfold bounded. rewrite Hlen.
  rewrite (Z.gtb_ltb _ INPUT_LIMIT), (proj2 (Z.ltb_lt _ _) Hbig).
  rewrite (proj2 (orb_false_iff _ _)) by (rewrite !Z.gtb_ltb, !Z.ltb_ge; lia).
  unfold raw_blob_digest. rewrite raw_loop_steady by (done || rewrite Hr1; lia). rewrite Hr1, Z.add_0_l.
  change (blob_header (len content) ++ content) with (blob content). rewrite Z.eqb_refl, Hseek.
  pose proof (crlf_bounds content) as Hc. rewrite clean_converts.
  pose proof (drop_crlf_same content) as Hsame. pose proof (normalized_same_blob _ expected content eq_refl) as Hn.
  set (stats := add default_stats content) in *.
  destruct (normalized_matches_steady (second_pass f) (len content) (crlf stats) expected
    (hash_bytes + len content)) as (hb' & Hm); [lia|lia|done|rewrite Hr2; lia|lia|].
  rewrite Hm, Hr2, Hn. destruct (crlf stats =? 0) eqn:Hz.
  - apply Z.eqb_eq in Hz. rewrite (Hsame Hz), Hz, orb_true_r. cbn [orb].
    change (0 >? 0) with false. rewrite !andb_false_r, !andb_true_r. cbn [andb].
    destruct (converts eol stats); destruct (sha1 (blob content) == expected); cbn; try done;
      by rewrite andb_false_r.
  - apply Z.eqb_neq in Hz. rewrite (Z.gtb_ltb _ 0), (proj2 (Z.ltb_lt 0 _)), andb_true_r, orb_false_r by lia.
    destruct (converts eol stats) eqn:Hconv; cbn [negb orb andb];
      destruct (sha1 (blob content) == expected), (sha1 (blob (drop_crlf content)) == expected),
        (eol == AutoIndexSame); done.
Qed.

(** "unchanged" is never said without having read the content.  Whatever reads
    answer, however late, and even if the file changes between the passes, a file is
    reported unchanged only if one whole pass read as many bytes as the file had and
    these have the expected blob, raw where nothing is converted or the index could not
    be looked into, cleaned otherwise. *)
Theorem unchanged_is_read f expected eol hash_bytes hash_bytes' :
  bounded sha1 f expected eol hash_bytes = (Ok None, hash_bytes') →
  ∃ content e, expected = Some e ∧ metadata_len f = Some (len content) ∧ INPUT_LIMIT < len content
    ∧ (content = read_bytes (first_pass f) ∧ sha1 (blob content) = e
         ∧ (clean eol content = content ∨ eol = AutoIndexSame)
       ∨ content = read_bytes (second_pass f) ∧ sha1 (blob (drop_crlf content)) = e
         ∧ converts eol (add default_stats (read_bytes (first_pass f))) = true).
Proof.
  unfold bounded. destruct (metadata_len f) as [size|]; [|done].
  rewrite (Z.gtb_ltb size INPUT_LIMIT). destruct (INPUT_LIMIT <? size) eqn:Hbig.
  2: { destruct (read_to_end f); [|done]. by case_match. }
  apply Z.ltb_lt in Hbig. destruct expected as [e|]; [|done].
  rewrite (Z.gtb_ltb size HASH_LIMIT). destruct (HASH_LIMIT <? size) eqn:Hlimit; [done|].
  apply Z.ltb_ge in Hlimit. cbn [orb]. case_match; [done|].
  destruct (raw_blob_digest size (first_pass f) hash_bytes) as [[[[read hash] stats]|] hb] eqn:Hraw; [|done].
  assert (Hread : read <= size).
  { revert Hraw. unfold raw_blob_digest. apply raw_loop_le. unfold INPUT_LIMIT in *. lia. }
  apply raw_loop_Ok in Hraw as (-> & -> & ->). rewrite Z.add_0_l in *.
  set (content := read_bytes (first_pass f)) in *. case_match eqn:Hsame.
  - intros _. rewrite !andb_true_iff, !orb_true_iff in Hsame.
    destruct Hsame as [[Hlen%Z.eqb_eq Hd%eqb_elim] Hc]. exists content, e. rewrite Hlen.
    split_and!; [done..|]. left. split; [done|]. unfold blob. rewrite Hlen. split; [done|].
    rewrite clean_converts. destruct Hc as [[Hc|Hc%Z.eqb_eq]|Hc%eqb_elim]; [| |by right].
    + left. apply negb_true_iff in Hc. by rewrite Hc.
    + left. rewrite drop_crlf_same by done. by case_match.
  - case_match eqn:Hconv; [|done]. apply andb_true_iff in Hconv as [Hconv _].
    destruct (normalized_blob_matches _ _ _ _ _ _ _) as [[[]|] hb2] eqn:Hm; try done. intros _.
    pose proof (crlf_bounds content) as Hc.
    apply normalized_matches_Ok in Hm; [|lia..]. symmetry in Hm. unfold normalized_same in Hm.
    rewrite !andb_true_iff in Hm. destruct Hm as [[Hl%Z.eqb_eq Ho%Z.eqb_eq] Hd%eqb_elim].
    exists (read_bytes (second_pass f)), e. rewrite Hl. split_and!; [done..|]. right.
    split; [done|]. split; [|done]. unfold blob. by rewrite Ho.
Qed.
End comparison.

(** ** Cleaning twice *)

Definition crs (bytes : list Z) : Z := len (List.filter (Z.eqb CR) bytes).
Lemma crs_cons b bytes : crs (b :: bytes) = (if b =? CR then 1 else 0) + crs bytes.
Proof. unfold crs. cbn [List.filter]. rewrite (Z.eqb_sym CR b). destruct (b =? CR); cbn [length]; lia. Qed.
Lemma add_cr s bytes : cr (add s bytes) = cr s + crs bytes.
Proof.
  revert s. induction bytes as [|b bytes IH]; intros s; [change (crs []) with 0; rewrite Z.add_0_r; done|].
  change (add s (b :: bytes)) with (add (add_byte s b) bytes). rewrite IH, crs_cons.
  enough (cr (add_byte s b) = cr s + (if b =? CR then 1 else 0)) by lia.
  unfold add_byte. destruct (b =? CR); [cbn; lia|]. repeat case_match; cbn; lia.
Qed.
Lemma crs_dropped bytes : crs (drop_crlf bytes) + (len bytes - len (drop_crlf bytes)) = crs bytes.
Proof.
  induction bytes as [|b bytes IH]; [done|]. cbn [drop_crlf]. rewrite crs_cons.
  destruct ((b =? CR) && (head bytes == Some LF)) eqn:E.
  - apply andb_true_iff in E as [-> _]. cbn [length]. lia.
  - rewrite crs_cons. cbn [length]. lia.
Qed.
Lemma crs_none bytes : crs bytes = 0 → CR ∉ bytes.
Proof.
  induction bytes as [|b bytes IH]; [intros _; apply not_elem_of_nil|]. rewrite crs_cons. intros H.
  assert (0 <= crs bytes) by (unfold crs; lia). destruct (b =? CR) eqn:E; [lia|].
  apply Z.eqb_neq in E. apply not_elem_of_cons. split; [done|]. apply IH. lia.
Qed.
Lemma drop_crlf_none bytes : CR ∉ bytes → drop_crlf bytes = bytes.
Proof.
  induction bytes as [|b bytes IH]; [done|]. intros [Hb Hr]%not_elem_of_cons.
  rewrite drop_crlf_other by done. by rewrite IH.
Qed.

(** automatic cleaning is stable and complete.  For any policy but [Text] cleaning
    twice is cleaning once; what the automatic policies convert has no CR left and
    differs from the input only by CRs before an LF, and what they take for binary is
    not touched.  ([Text] leaves a CR of CR CR LF, as Git does.) *)
Theorem auto_clean_stable eol bytes :
  eol ≠ Text →
  clean eol (clean eol bytes) = clean eol bytes
  ∧ (converts eol (add default_stats bytes) = true → (CR ∉ clean eol bytes) ∧ clean eol bytes = drop_crlf bytes)
  ∧ (converts eol (add default_stats bytes) = false → clean eol bytes = bytes).
Proof.
  intros Hne. rewrite (clean_converts eol bytes).
  destruct (converts eol (add default_stats bytes)) eqn:Hc.
  - assert (Hno : CR ∉ drop_crlf bytes).
    { unfold converts in Hc. rewrite (proj2 (eqb_false _ _) Hne) in Hc. cbn [orb] in Hc.
      apply andb_true_iff in Hc as [_ Hb]. apply negb_true_iff in Hb. unfold binary in Hb.
      apply orb_false_iff in Hb as [[_ Hcr]%orb_false_iff _]. apply negb_false_iff, Z.eqb_eq in Hcr.
      rewrite add_cr, crlf_of in Hcr. pose proof (crs_dropped bytes) as Hd.
      apply crs_none. cbn [default_stats cr] in Hcr. lia. }
    split_and!; [|done..]. rewrite clean_converts. case_match; [by apply drop_crlf_none|done].
  - split_and!; [|done..]. by rewrite clean_converts, Hc.
Qed.

(** the chunks do not matter.  For every way to cut a content into chunks, the
    streaming normalization gives what cleaning in place gives, the statistics are
    those of the whole, and the CRLF they count are exactly the bytes that cleaning
    takes away, so the size announced to the hasher is right and does not underflow. *)
Theorem chunks_do_not_matter (chunks : list (list Z)) :
  let content := concat chunks in
  let stats := fold_left add chunks default_stats in
  clean_chunks chunks = clean Text content ∧ stats = add default_stats content
  ∧ 0 <= crlf stats <= len content ∧ len content - crlf stats = len (clean Text content).
Proof.
  cbv zeta. assert (Hs : fold_left add chunks default_stats = add default_stats (concat chunks)).
  { generalize default_stats. induction chunks as [|c chunks IH]; intros s; [done|].
    cbn [fold_left concat]. by rewrite IH, add_app. }
  rewrite Hs, clean_converts. change (converts Text _) with true. cbv match.
  split; [apply clean_chunks_spec|]. split; [done|]. split; [apply crlf_bounds|]. rewrite crlf_of. lia.
Qed.

(** ** Concrete files *)

Definition filler : list Z := repeat 97 (Z.to_nat 1048576).
Lemma filler_length : len filler = 1048576.
Proof. unfold filler. rewrite repeat_length. by apply Z2Nat.id. Defined.
#[global] Opaque filler.
Definition sample_content : list Z := CR :: LF :: filler.
Definition sample_file : OpenFile :=
  mkFile (Some (len sample_content)) [mkRead false (Some sample_content)] true
    [mkRead false (Some sample_content)] None.
Lemma sample_length : len sample_content = 1048578.
Proof. unfold sample_content. cbn [length]. by rewrite !Nat2Z.inj_succ, filler_length. Defined.
Lemma sample_steady : steady [mkRead false (Some sample_content)].
Proof. constructor; [done|constructor]. Defined.

Lemma large_file_exact_witness :
  let sha1 := λ bytes : list Z, bytes in
  (bounded sha1 sample_file (Some (blob (clean Auto sample_content))) Auto 0).1 = Ok None.
Proof.
  cbv zeta.
  rewrite (large_file_exact (λ b, b) sample_file (blob (clean Auto sample_content)) Auto 0 sample_content).
  - by rewrite eqb_refl.
  - done.
  - rewrite sample_length. unfold INPUT_LIMIT. lia.
  - apply sample_steady.
  - unfold sample_file. cbn [first_pass read_bytes answer sample_content]. by rewrite app_nil_r.
  - done.
  - apply sample_steady.
  - unfold sample_file. cbn [second_pass read_bytes answer sample_content]. by rewrite app_nil_r.
  - done.
  - rewrite sample_length. unfold HASH_LIMIT. lia.
Defined.
Lemma sample_read : read_bytes [mkRead false (Some sample_content)] = sample_content.
Proof. cbn [read_bytes answer sample_content]. by rewrite app_nil_r. Defined.
Lemma sample_unchanged :
  bounded (λ b, b) sample_file (Some (blob sample_content)) Raw 0 = (Ok None, len sample_content).
Proof.
  unfold bounded. cbn [metadata_len sample_file first_pass]. rewrite sample_length.
  change (1048578 >? INPUT_LIMIT) with true. change ((1048578 >? HASH_LIMIT) || (0 + 1048578 >? HASH_LIMIT)) with false.
  cbv match. unfold raw_blob_digest.
  rewrite raw_loop_steady, sample_read, sample_length; [..|apply sample_steady| |].
  - change (0 + 1048578 =? 1048578) with true. change (negb (converts Raw _)) with true.
    unfold blob. by rewrite sample_length, eqb_refl.
  - rewrite sample_read, sample_length. lia.
  - rewrite sample_read, sample_length. unfold HASH_LIMIT. lia.
Qed.
Lemma unchanged_is_read_witness :
  bounded (λ b, b) sample_file (Some (blob sample_content)) Raw 0 = (Ok None, len sample_content)
  ∧ ∃ content e, Some (blob sample_content) = Some e
      ∧ metadata_len sample_file = Some (len content) ∧ INPUT_LIMIT < len content
      ∧ (content = read_bytes (first_pass sample_file) ∧ blob content = e
           ∧ (clean Raw content = content ∨ Raw = AutoIndexSame)
         ∨ content = read_bytes (second_pass sample_file) ∧ blob (drop_crlf content) = e
           ∧ converts Raw (add default_stats (read_bytes (first_pass sample_file))) = true).
Proof.
  split; [apply sample_unchanged|].
  apply (unchanged_is_read (λ b, b) _ _ _ 0 (len sample_content)). apply sample_unchanged.
Defined.
Lemma auto_clean_stable_witness :
  let text := [97; CR; LF; 98; CR; LF] in
  clean Auto (clean Auto text) = clean Auto text
  ∧ (converts Auto (add default_stats text) = true → (CR ∉ clean Auto text) ∧ clean Auto text = drop_crlf text)
  ∧ (converts Auto (add default_stats text) = false → clean Auto text = text).
Proof. apply (auto_clean_stable Auto [97; CR; LF; 98; CR; LF]). discriminate. Defined.
