(* ===== verification/Floats.v ===== *)
(** * Binary64 numbers

    An [f64] is a [spec_float] of the precision of binary64, with the comparisons of
    IEEE 754: none of them holds of a NaN. *)
From S2P Require Export Prelude.
From Stdlib Require Export SpecFloat.

Abbreviation f64 := spec_float.

Definition is_finite (x : f64) : bool :=
  match x with S754_zero _ | S754_finite _ _ _ => true | _ => false end.
(** The numbers the code writes. *)
Definition f_zero : f64 := S754_zero false.
Definition f_one : f64 := S754_finite false 4503599627370496 (-52).
Definition f_minus_one : f64 := S754_finite true 4503599627370496 (-52).
Definition f_half : f64 := S754_finite false 4503599627370496 (-53).
(** [f64::min]: the other operand of a NaN. *)
Definition f_min (x y : f64) : f64 :=
  match SFcompare x y with
  | Some Gt => y
  | None => match x with S754_nan => y | _ => x end
  | _ => x
  end.
(** [==] of two [Option<f64>]. *)
Definition opt_feqb (x y : option f64) : bool :=
  match x, y with
  | Some x, Some y => SFeqb x y
  | None, None => true
  | _, _ => false
  end.

#[export] Instance f64_eq_dec : EqDecision f64.
Proof. solve_decision. Defined.
