(* ===== verification/ObservationKinds.v ===== *)
(** * Kinds of workflow observations

    The enumerations of [workflow_observations.rs] that the log and the rollups share. *)
From S2P Require Export Utf8.

Inductive ObservationKind : Type :=
  | Repetition | Obstacle | MissingContext | Assumption | Correction | Workaround | VerificationGap.
Inductive Impact : Type := Low | Medium | High.
Inductive ObservationSource : Type := Agent | Peon.
#[export] Instance ObservationKind_eq_dec : EqDecision ObservationKind.
Proof. solve_decision. Defined.
#[export] Instance Impact_eq_dec : EqDecision Impact.
Proof. solve_decision. Defined.
#[export] Instance ObservationSource_eq_dec : EqDecision ObservationSource.
Proof. solve_decision. Defined.

(** [ObservationKind::as_str], [Impact::as_str]. *)
Definition kind_str (k : ObservationKind) : list Z :=
  bytes_of match k with
           | Repetition => "repetition" | Obstacle => "obstacle"
           | MissingContext => "missing_context" | Assumption => "assumption"
           | Correction => "correction" | Workaround => "workaround"
           | VerificationGap => "verification_gap"
           end.
Definition impact_str (i : Impact) : list Z :=
  bytes_of match i with Low => "low" | Medium => "medium" | High => "high" end.
