(* ===== verification/ReplayModes.v ===== *)
(** * Terminal replay modes and the replay buffer

    [runtime/terminal_replay_modes.rs] keeps a checkpoint of the terminal's
    interaction modes at the start of the retained PTY output;
    [ReplayBuffer] of [runtime/session_runtime.rs] feeds it the chunks it
    evicts and puts [prefix] in front of the first retained chunk.

    The main result is that replaying is faithful: a terminal that starts from
    its defaults and is given a snapshot ends in the state of one that was given
    the whole output ([≈] below, a bisimulation coarser than equality because
    an over-long CSI sequence is re-entered as one that cannot match). *)
From S2P Require Export Prelude Utf8.

(** ** Data *)

Inductive ParserState : Type :=
  | Ground
  | Escape (intermediates : list Z)
  | Csi (params : list Z)
  | IgnoreCsi
  | ControlString (kind : Z).

Definition MODES : list Z := [1; 7; 25; 1004; 2004].
Definition DEFAULT_MODES : list bool := [false; true; true; false; false].
Definition MAX_SEQUENCE_BYTES : nat := 128.

Record TerminalReplayModes : Type := mkModes {
  parser : ParserState;
  utf8 : list Z;
  modes : list bool;
  alternate : bool;
  mouse : option Z;
  encoding : option Z;
  application_keypad : bool;
}.

Definition default_modes : TerminalReplayModes :=
  mkModes Ground [] DEFAULT_MODES false None None false.

Definition set_parser (p : ParserState) (s : TerminalReplayModes) : TerminalReplayModes :=
  mkModes p (utf8 s) (modes s) (alternate s) (mouse s) (encoding s) (application_keypad s).
Definition set_utf8 (u : list Z) (s : TerminalReplayModes) : TerminalReplayModes :=
  mkModes (parser s) u (modes s) (alternate s) (mouse s) (encoding s) (application_keypad s).
Definition set_modes (m : list bool) (s : TerminalReplayModes) : TerminalReplayModes :=
  mkModes (parser s) (utf8 s) m (alternate s) (mouse s) (encoding s) (application_keypad s).
Definition set_alternate (b : bool) (s : TerminalReplayModes) : TerminalReplayModes :=
  mkModes (parser s) (utf8 s) (modes s) b (mouse s) (encoding s) (application_keypad s).
Definition set_mouse (m : option Z) (s : TerminalReplayModes) : TerminalReplayModes :=
  mkModes (parser s) (utf8 s) (modes s) (alternate s) m (encoding s) (application_keypad s).
Definition set_encoding (e : option Z) (s : TerminalReplayModes) : TerminalReplayModes :=
  mkModes (parser s) (utf8 s) (modes s) (alternate s) (mouse s) e (application_keypad s).
Definition set_keypad (b : bool) (s : TerminalReplayModes) : TerminalReplayModes :=
  mkModes (parser s) (utf8 s) (modes s) (alternate s) (mouse s) (encoding s) b.

(** ** [csi] *)

(** [slice::split] on one byte: always at least one piece. *)
Fixpoint split_on (sep : Z) (l : list Z) : list (list Z) :=
  match l with
  | [] => [[]]
  | b :: l =>
      if b =? sep then [] :: split_on sep l
      else match split_on sep l with
           | piece :: pieces => (b :: piece) :: pieces
           | [] => [[b]]
           end
  end.

(** [param.iter().try_fold(0u16, |n, digit| n.checked_mul(10)?.checked_add(..))] *)
Definition try_fold_digits (n : Z) (param : list Z) : option Z := fold_digits u16_max n param.
Definition param_mode (param : list Z) : option Z := try_fold_digits 0 param.

(** The body of the loop over the modes of one private-mode sequence. *)
Definition apply_mode (enabled : bool) (s : TerminalReplayModes) (mode : Z)
    : TerminalReplayModes :=
  if (mode =? 47) || (mode =? 1047) || (mode =? 1049) then set_alternate enabled s
  else if (mode =? 9) || (mode =? 1000) || (mode =? 1002) || (mode =? 1003) then
    set_mouse (if enabled then Some mode else None) s
  else if (mode =? 1006) || (mode =? 1016) then
    set_encoding (if enabled then Some mode else None) s
  else if mode =? 66 then set_keypad enabled s
  else match position (λ candidate, candidate =? mode) MODES with
       | Some index => set_modes (<[index := enabled]> (modes s)) s
       | None => s
       end.

Definition apply_param (enabled : bool) (s : TerminalReplayModes) (param : list Z)
    : TerminalReplayModes :=
  match param_mode param with
  | Some mode => apply_mode enabled s mode
  | None => s
  end.

Definition csi (params : list Z) (final_byte : Z) (s : TerminalReplayModes)
    : TerminalReplayModes :=
  if (params == [0x21]) && (final_byte =? 0x70) then
    set_keypad false (set_modes DEFAULT_MODES s)
  else if negb ((final_byte =? 0x68) || (final_byte =? 0x6c)) then s
  else match params with
       | 0x3f :: rest =>
           if negb (forallb (λ b, is_ascii_digit b || (b =? 0x3b)) rest) then s
           else fold_left (apply_param (final_byte =? 0x68)) (split_on 0x3b rest) s
       | _ => s
       end.

(** ** [control]: one decoded byte *)

(** The kind of control string a C1 introducer opens. *)
Definition c1_string_kind (byte : Z) : Z :=
  if byte =? 0x90 then 0x50 else if byte =? 0x98 then 0x58
  else if byte =? 0x9d then 0x5d else if byte =? 0x9e then 0x5e else 0x5f.
Definition is_c1_string (byte : Z) : bool :=
  (byte =? 0x90) || (byte =? 0x98) || (byte =? 0x9d) || (byte =? 0x9e) || (byte =? 0x9f).
Definition is_string_kind (byte : Z) : bool :=
  (byte =? 0x5d) || (byte =? 0x50) || (byte =? 0x58) || (byte =? 0x5e) || (byte =? 0x5f).

(** The [ParserState::Escape] arm: what it does after the single-byte
    sequences, and the arm itself. *)
Definition escape_tail (intermediates : list Z) (byte : Z) (s : TerminalReplayModes)
    : TerminalReplayModes :=
  if between 0x20 0x2f byte && (length intermediates <? MAX_SEQUENCE_BYTES)%nat
  then set_parser (Escape (intermediates ++ [byte])) s
  else if byte <? 0x20 then set_parser (Escape intermediates) s
  else set_parser Ground s.
Definition control_escape (intermediates : list Z) (byte : Z) (s : TerminalReplayModes)
    : TerminalReplayModes :=
  match intermediates with
  | [] =>
      if byte =? 0x5b then set_parser (Csi []) s
      else if is_string_kind byte then set_parser (ControlString byte) s
      else if byte =? 0x63 then escape_tail intermediates byte default_modes
      else if byte =? 0x3d then escape_tail intermediates byte (set_keypad true s)
      else if byte =? 0x3e then escape_tail intermediates byte (set_keypad false s)
      else escape_tail intermediates byte s
  | _ => escape_tail intermediates byte s
  end.

(** The [ParserState::Csi] arm. *)
Definition control_csi (params : list Z) (byte : Z) (s : TerminalReplayModes)
    : TerminalReplayModes :=
  if between 0x40 0x7e byte then set_parser Ground (csi params byte s)
  else if byte <? 0x20 then set_parser (Csi params) s
  else if (length params <? MAX_SEQUENCE_BYTES)%nat then set_parser (Csi (params ++ [byte])) s
  else set_parser IgnoreCsi s.

Definition control (byte : Z) (s : TerminalReplayModes) : TerminalReplayModes :=
  if byte =? 0x9b then set_parser (Csi []) s
  else if is_c1_string byte then set_parser (ControlString (c1_string_kind byte)) s
  else if byte =? 0x9c then set_parser Ground s
  else if between 0x7f 0x9f byte then s
  else if (byte =? 0x18) || (byte =? 0x1a) then set_parser Ground s
  else if byte =? 0x1b then set_parser (Escape []) s
  else match parser s with
       | Ground => set_parser Ground s
       | Escape intermediates => control_escape intermediates byte (set_parser Ground s)
       | Csi params => control_csi params byte (set_parser Ground s)
       | IgnoreCsi =>
           if between 0x40 0x7e byte then set_parser Ground s else set_parser IgnoreCsi s
       | ControlString kind =>
           if (kind =? 0x5d) && (byte =? 0x07) then set_parser Ground s
           else set_parser (ControlString kind) s
       end.

(** ** [advance]: one PTY byte, and a chunk *)

Definition is_lead (byte : Z) : bool := between 0xc2 0xf4 byte.

(** What a completed character means to [control]: its C1 code or [0xff]. *)
Definition decoded (chars : list Z) : Z :=
  match opt_filter (between 0x80 0x9f) (head chars) with
  | Some ch => ch mod 256
  | None => 0xff
  end.

Definition advance_byte (s : TerminalReplayModes) (byte : Z) : TerminalReplayModes :=
  match utf8 s with
  | [] =>
      if byte <? 0x80 then control byte s
      else if is_lead byte then set_utf8 [byte] s
      else control 0xff s
  | partial =>
      match from_utf8 (partial ++ [byte]) with
      | Utf8Ok chars => control (decoded chars) (set_utf8 [] s)
      | Utf8Incomplete => set_utf8 (partial ++ [byte]) s
      | Utf8Invalid =>
          let s := control 0xff (set_utf8 [] s) in
          if byte <? 0x80 then control byte s
          else if is_lead byte then set_utf8 (utf8 s ++ [byte]) s
          else s
      end
  end.

Definition advance (s : TerminalReplayModes) (bytes : list Z) : TerminalReplayModes :=
  fold_left advance_byte bytes s.

(** ** [prefix] *)

Definition private_mode (mode : Z) (action : Z) : list Z :=
  [0x1b; 0x5b; 0x3f] ++ decimal_u16 mode ++ [action].

Definition mode_prefix (s : TerminalReplayModes) (index : nat) (mode : Z) : list Z :=
  if nth index (modes s) false != nth index DEFAULT_MODES false
  then private_mode mode (if nth index (modes s) false then 0x68 else 0x6c)
  else [].

Definition parser_prefix (p : ParserState) : list Z :=
  match p with
  | Ground => []
  | Escape intermediates => 0x1b :: intermediates
  | Csi params => [0x1b; 0x5b] ++ params
  | IgnoreCsi => [0x1b; 0x5b; 0x30; 0x3f]
  | ControlString kind => [0x1b; kind]
  end.

Definition option_prefix (mode : option Z) : list Z :=
  match mode with Some mode => private_mode mode 0x68 | None => [] end.

Definition prefix (s : TerminalReplayModes) : list Z :=
  (if alternate s then private_mode 1049 0x68 else [])
  ++ (if application_keypad s then [0x1b; 0x3d] else [])
  ++ option_prefix (mouse s) ++ option_prefix (encoding s)
  ++ concat (imap (mode_prefix s) MODES)
  ++ parser_prefix (parser s)
  ++ utf8 s.

(** ** [ReplayBuffer] *)

Record ReplayBuffer : Type := mkReplay {
  capacity : nat;
  next_cursor : Z;
  chunks : list (Z * list Z);
  replay_modes : TerminalReplayModes;
}.

Definition ReplayBuffer_new (capacity : nat) : ReplayBuffer :=
  mkReplay capacity 0 [] default_modes.

(** [while chunks.len() > capacity { pop_front; modes.advance }] *)
Fixpoint evict (capacity : nat) (chunks : list (Z * list Z)) (m : TerminalReplayModes)
    : list (Z * list Z) * TerminalReplayModes :=
  match chunks with
  | (_, bytes) :: rest =>
      if (capacity <? length chunks)%nat then evict capacity rest (advance m bytes)
      else (chunks, m)
  | [] => ([], m)
  end.

Definition push (chunk : list Z) (r : ReplayBuffer) : ReplayBuffer * Z :=
  let cursor := next_cursor r in
  let '(kept, m) := evict (capacity r) (chunks r ++ [(cursor, chunk)]) (replay_modes r) in
  (mkReplay (capacity r) (wrapping_add u64_max cursor 1) kept m, cursor).

Definition start_cursor (r : ReplayBuffer) : Z :=
  match head (chunks r) with Some (cursor, _) => cursor | None => next_cursor r end.

Definition snapshot (r : ReplayBuffer) : list (Z * list Z) :=
  match chunks r with
  | (cursor, first) :: rest => (cursor, prefix (replay_modes r) ++ first) :: rest
  | [] => []
  end.

#[export] Instance replay_machine (n : nat) : Machine ReplayBuffer (list Z) Z := {
  initial r := r = ReplayBuffer_new n;
  step r chunk := push chunk r;
}.

Example prefix_example :
  prefix (advance default_modes (bytes_of "x" ++ [0x1b; 0x5b] ++ bytes_of "?1049;25h"
                                 ++ [0x1b; 0x5b] ++ bytes_of "?25l" ++ [0x1b; 0x5b] ++ bytes_of "?20"))
  = [0x1b] ++ bytes_of "[?1049h" ++ [0x1b] ++ bytes_of "[?25l" ++ [0x1b] ++ bytes_of "[?20".
Proof. reflexivity. Qed.

(** ** Well-formed states *)

Definition escape_byte (b : Z) : Prop := 0x20 <= b <= 0x2f.
(** What a CSI sequence can hold: its parameter and intermediate range, and
    [0xff] for a character outside ASCII. *)
Definition param_byte (b : Z) : Prop := 0x20 <= b <= 0x3f ∨ b = 0xff.
(** The bytes [control] is called with. *)
Definition control_byte (b : Z) : Prop := 0 <= b <= 0x9f ∨ b = 0xff.

Definition wf_parser (p : ParserState) : Prop :=
  match p with
  | Ground | IgnoreCsi => True
  | Escape i => Forall escape_byte i ∧ (length i <= MAX_SEQUENCE_BYTES)%nat
  | Csi p => Forall param_byte p ∧ (length p <= MAX_SEQUENCE_BYTES)%nat
  | ControlString k => is_string_kind k = true
  end.

Definition wf_utf8 (u : list Z) : Prop :=
  ∀ n, (0 < n <= length u)%nat → from_utf8 (take n u) = Utf8Incomplete.

Definition mouse_modes : list Z := [9; 1000; 1002; 1003].
Definition encoding_modes : list Z := [1006; 1016].

Record wf (s : TerminalReplayModes) : Prop := {
  wf_parser_ok : wf_parser (parser s);
  wf_utf8_ok : wf_utf8 (utf8 s);
  wf_modes_ok : length (modes s) = 5%nat;
  wf_mouse_ok : ∀ m, mouse s = Some m → m ∈ mouse_modes;
  wf_encoding_ok : ∀ e, encoding s = Some e → e ∈ encoding_modes;
}.

(** The part of [wf] that does not look at the parser or at partial input. *)
Definition wf_modes (s : TerminalReplayModes) : Prop :=
  length (modes s) = 5%nat ∧ (∀ m, mouse s = Some m → m ∈ mouse_modes)
  ∧ (∀ e, encoding s = Some e → e ∈ encoding_modes).

Lemma wf_split s : wf s ↔ wf_parser (parser s) ∧ wf_utf8 (utf8 s) ∧ wf_modes s.
Proof. split; [intros []|intros (?&?&?&?&?)]; repeat split; auto. Qed.

Lemma wf_utf8_nil : wf_utf8 [].
Proof. intros n Hn. simpl in Hn. lia. Qed.

Lemma wf_default : wf default_modes.
Proof. split; simpl; auto using wf_utf8_nil; done. Qed.

Lemma wf_utf8_snoc u b :
  wf_utf8 u → from_utf8 (u ++ [b]) = Utf8Incomplete → wf_utf8 (u ++ [b]).
Proof.
  intros Hu Hb n Hn. rewrite length_app in Hn. simpl in Hn.
  destruct (decide (n = length u + 1)%nat) as [->|].
  - rewrite firstn_all2; [done|]. rewrite length_app. simpl. lia.
  - rewrite take_app_le; [|lia]. apply Hu. lia.
Qed.

Lemma from_utf8_lead b : from_utf8 [b] = Utf8Incomplete ↔ 0x80 <= b ∧ is_lead b = true.
Proof.
  unfold is_lead. simpl. repeat case_match; simpl; to_prop; split; intros; try done; lia.
Qed.

Lemma apply_mode_modes enabled s mode : wf_modes s → wf_modes (apply_mode enabled s mode).
Proof.
  intros (Hl & Hm & He). unfold apply_mode, wf_modes.
  repeat case_match; simpl; rewrite ?length_insert; repeat split; auto;
    to_prop; intros ? [= <-]; unfold mouse_modes, encoding_modes; set_solver by lia.
Qed.

(** [csi] and [apply_mode] touch neither the parser nor the partial input. *)
Lemma apply_mode_frame enabled s mode :
  parser (apply_mode enabled s mode) = parser s ∧ utf8 (apply_mode enabled s mode) = utf8 s.
Proof. unfold apply_mode. by repeat case_match. Qed.

Lemma csi_ind (P : TerminalReplayModes → Prop) params final s :
  P s → P (set_keypad false (set_modes DEFAULT_MODES s)) →
  (∀ enabled s mode, P s → P (apply_mode enabled s mode)) → P (csi params final s).
Proof.
  intros Hs Hr Ha. unfold csi. repeat case_match; auto.
  clear -Hs Ha. revert s Hs. generalize (split_on 0x3b l) as pieces.
  induction pieces as [|p pieces IH]; intros s Hs; simpl; [done|].
  apply IH. unfold apply_param. case_match; auto.
Qed.

Lemma csi_frame params final s :
  parser (csi params final s) = parser s ∧ utf8 (csi params final s) = utf8 s.
Proof.
  apply csi_ind; [done..|]. intros en s' m [<- <-]. apply apply_mode_frame.
Qed.

Lemma csi_modes params final s : wf_modes s → wf_modes (csi params final s).
Proof.
  intros H. apply csi_ind; [done| |by auto using apply_mode_modes].
  destruct H as (_&?&?). by repeat split.
Qed.

Lemma set_parser_modes p s : wf_modes (set_parser p s) ↔ wf_modes s.
Proof. done. Qed.

Lemma wf_modes_reset : wf_modes default_modes.
Proof. by repeat split. Qed.

Lemma set_keypad_modes b s : wf_modes (set_keypad b s) ↔ wf_modes s.
Proof. done. Qed.

Lemma escape_tail_frame i b s :
  utf8 (escape_tail i b s) = utf8 s ∧ (wf_modes (escape_tail i b s) ↔ wf_modes s).
Proof. unfold escape_tail. by repeat case_match. Qed.

Lemma escape_tail_parser i b s :
  wf_parser (Escape i) → wf_parser (parser (escape_tail i b s)).
Proof.
  intros [Hi Hl]. unfold escape_tail. destruct (between _ _ _ && _) eqn:E; [|by case_match].
  apply andb_true_iff in E as [Hb%between_true Hn%Nat.ltb_lt]. split.
  - apply Forall_app. auto using Forall_singleton.
  - rewrite length_app. simpl. lia.
Qed.

Lemma control_escape_parser i b s :
  wf_parser (Escape i) → wf_parser (parser (control_escape i b s)).
Proof.
  intros Hi. unfold control_escape.
  repeat case_match; auto using escape_tail_parser.
  split; [constructor|simpl; lia].
Qed.

Lemma control_csi_parser p b s :
  control_byte b → between 0x7f 0x9f b = false → wf_parser (Csi p) →
  wf_parser (parser (control_csi p b s)).
Proof.
  intros Hb Hc [Hp Hl]. unfold control_csi.
  destruct (between 0x40 0x7e b) eqn:E1; [done|]. destruct (b <? 0x20) eqn:E2; [done|].
  destruct (_ <? _)%nat eqn:E3; [|done]. apply Nat.ltb_lt in E3. split.
  - apply Forall_app. split; [done|]. apply Forall_singleton.
    unfold param_byte, control_byte in *. to_prop. lia.
  - rewrite length_app. simpl. lia.
Qed.

Lemma control_utf8 b s : utf8 s = [] → utf8 (control b s) = [].
Proof.
  intros H. unfold control, control_escape, control_csi.
  repeat case_match; simpl; auto;
    by rewrite ?(proj1 (escape_tail_frame _ _ _)), ?(proj2 (csi_frame _ _ _)).
Qed.

Lemma control_parser b s :
  control_byte b → wf_parser (parser s) → wf_parser (parser (control b s)).
Proof.
  intros Hb Hp. unfold control.
  destruct (b =? 0x9b); [split; [constructor|simpl; lia]|].
  destruct (is_c1_string b).
  { unfold c1_string_kind. simpl. by repeat case_match. }
  destruct (b =? 0x9c); [done|]. destruct (between 0x7f 0x9f b) eqn:E; [done|].
  destruct (_ || _); [done|]. destruct (b =? 0x1b); [split; [constructor|simpl; lia]|].
  destruct (parser s); simpl in *; auto using control_escape_parser, control_csi_parser;
    by case_match.
Qed.

Lemma control_modes b s : wf_modes s → wf_modes (control b s).
Proof.
  intros H. unfold control, control_escape, control_csi.
  repeat case_match; rewrite ?set_parser_modes; auto using csi_modes, wf_modes_reset;
    apply escape_tail_frame; auto using wf_modes_reset.
Qed.

Lemma control_wf b s : control_byte b → utf8 s = [] → wf s → wf (control b s).
Proof.
  rewrite !wf_split. intros Hb Hu (?&_&?).
  rewrite control_utf8; auto using control_parser, control_modes, wf_utf8_nil.
Qed.

Lemma decoded_control chars : control_byte (decoded chars).
Proof.
  unfold decoded, control_byte. destruct (opt_filter _ _) as [c|] eqn:E; [left|by right].
  apply opt_filter_Some in E as [_ [H1 H2]%between_true]. rewrite Z.mod_small; lia.
Qed.

Lemma wf_set_utf8 u s : wf_utf8 u → wf s → wf (set_utf8 u s).
Proof. rewrite !wf_split. naive_solver. Qed.

Lemma advance_byte_wf s b : 0 <= b → wf s → wf (advance_byte s b).
Proof.
  intros Hb Hs. assert (Hn : wf (set_utf8 [] s)) by auto using wf_set_utf8, wf_utf8_nil.
  assert (H7 : (b <? 0x80) = true → control_byte b).
  { left. to_prop. lia. }
  assert (Hlead : (b <? 0x80) = false → is_lead b = true → wf_utf8 [b]).
  { intros ? ?. apply (wf_utf8_snoc []); [apply wf_utf8_nil|].
    apply from_utf8_lead. to_prop. done. }
  assert (control_byte 0xff) by (by right).
  pose proof (wf_utf8_ok _ Hs) as Hu. unfold advance_byte.
  destruct (utf8 s) as [|u us] eqn:E.
  - destruct (b <? 0x80) eqn:E1; [auto using control_wf|].
    destruct (is_lead b) eqn:E2; auto using control_wf, wf_set_utf8.
  - destruct (from_utf8 _) eqn:E1.
    + apply control_wf; auto using decoded_control.
    + apply wf_set_utf8; auto using wf_utf8_snoc.
    + cbv zeta.
      assert (Hc : wf (control 0xff (set_utf8 [] s))) by auto using control_wf.
      pose proof (control_utf8 0xff (set_utf8 [] s) eq_refl) as Hcu.
      destruct (b <? 0x80) eqn:E2; [auto using control_wf|].
      destruct (is_lead b) eqn:E3; [|done]. rewrite Hcu. auto using wf_set_utf8.
Qed.

Lemma advance_wf s bytes : Forall is_u8 bytes → wf s → wf (advance s bytes).
Proof.
  intros Hb. revert s. induction Hb as [|b bytes [Hb _] _ IH]; intros s Hs; simpl; [done|].
  auto using advance_byte_wf.
Qed.

Lemma advance_app s a b : advance s (a ++ b) = advance (advance s a) b.
Proof. apply fold_left_app. Qed.

(** ** The equivalence of replay states

    A CSI sequence whose first byte is [0] matches nothing the checkpoint
    reacts to, exactly like one that overflowed. *)
Definition inert (p : ParserState) : Prop :=
  p = IgnoreCsi ∨ ∃ rest, p = Csi (0x30 :: rest).
Definition parser_equiv (p q : ParserState) : Prop := p = q ∨ inert p ∧ inert q.

#[export] Instance modes_equiv : Equiv TerminalReplayModes := λ s t,
  parser_equiv (parser s) (parser t) ∧ t = set_parser (parser t) s.

Lemma set_parser_id s : set_parser (parser s) s = s.
Proof. by destruct s. Qed.

#[export] Instance modes_equivalence : Equivalence (≡@{TerminalReplayModes}).
Proof.
  split.
  - intros s. split; [by left|by rewrite set_parser_id].
  - intros s t [Hp ->]. split; [|by destruct s].
    simpl in *. destruct Hp as [->|[]]; [by left|by right].
  - intros s t u [Hp ->] [Hq ->]. split; [|by destruct s]. simpl in *.
    destruct Hp as [->|[]], Hq as [<-|[]]; by (left + right).
Qed.

Lemma set_parser_twice p q s : set_parser p (set_parser q s) = set_parser p s.
Proof. done. Qed.

Lemma equiv_set_parser p q s : parser_equiv p q → set_parser p s ≡ set_parser q s.
Proof. intros H. by split. Qed.

Lemma equiv_fields s t : s ≡ t →
  utf8 t = utf8 s ∧ modes t = modes s ∧ alternate t = alternate s ∧ mouse t = mouse s
  ∧ encoding t = encoding s ∧ application_keypad t = application_keypad s.
Proof. intros [_ ->]. done. Qed.

Lemma equiv_ground s t : s ≡ t → parser s = Ground → t = s.
Proof.
  intros [[Hp|[[H|[? H]] _]] ->]; rewrite ?H; try done. rewrite <-Hp. by rewrite set_parser_id.
Qed.

(** A sequence that starts with [0] changes no mode. *)
Lemma csi_inert rest final s : csi (0x30 :: rest) final s = s.
Proof.
  unfold csi. replace (_ == _) with false by (symmetry; by apply eqb_false).
  simpl. by case_match.
Qed.

Lemma control_inert b s :
  inert (parser s) → control b s ≡ control b (set_parser IgnoreCsi s).
Proof.
  intros [H|[rest H]]; [by rewrite <-H, set_parser_id|].
  unfold control. rewrite H. simpl parser. unfold control_csi. rewrite csi_inert.
  repeat case_match; rewrite ?set_parser_twice; try reflexivity; try done.
  all: apply equiv_set_parser; right; split; unfold inert; eauto.
Qed.

#[export] Instance control_proper b : Proper ((≡) ==> (≡)) (control b).
Proof.
  intros s t [[Hp|[Hs Ht]] ->].
  - rewrite <-Hp, set_parser_id. reflexivity.
  - rewrite (control_inert b s) by done. symmetry. by apply (control_inert b (set_parser _ s)).
Qed.

#[export] Instance set_utf8_proper u : Proper ((≡) ==> (≡)) (set_utf8 u).
Proof. by intros s t [Hp ->]. Qed.

#[export] Instance advance_byte_proper : Proper ((≡) ==> (=) ==> (≡)) advance_byte.
Proof.
  intros s t Hst ? b ->. unfold advance_byte.
  rewrite (proj1 (equiv_fields _ _ Hst)). repeat case_match; try by rewrite Hst.
  cbv zeta. rewrite !control_utf8 by done.
  repeat case_match; by rewrite Hst.
Qed.

#[export] Instance advance_proper : Proper ((≡) ==> (=) ==> (≡)) advance.
Proof.
  intros s t Hst ? bytes ->. revert s t Hst.
  induction bytes as [|b bytes IH]; intros s t Hst; simpl; [done|].
  apply IH. by rewrite Hst.
Qed.

(** ** [prefix] re-creates the state *)

(** A state outside any sequence and any character. *)
Definition ground (m : list bool) (alt : bool) (mo en : option Z) (kp : bool)
  : TerminalReplayModes := mkModes Ground [] m alt mo en kp.

Lemma advance_alternate m mo en :
  advance (ground m false mo en false) (private_mode 1049 0x68) = ground m true mo en false.
Proof. reflexivity. Qed.

Lemma advance_mouse m alt en kp mode :
  mode ∈ mouse_modes →
  advance (ground m alt None en kp) (private_mode mode 0x68) = ground m alt (Some mode) en kp.
Proof. unfold mouse_modes. intros H. repeat (apply elem_of_cons in H as [->|H]; [reflexivity|]). by apply elem_of_nil in H. Qed.

Lemma advance_encoding m alt mo kp mode :
  mode ∈ encoding_modes →
  advance (ground m alt mo None kp) (private_mode mode 0x68) = ground m alt mo (Some mode) kp.
Proof. unfold encoding_modes. intros H. repeat (apply elem_of_cons in H as [->|H]; [reflexivity|]). by apply elem_of_nil in H. Qed.

Lemma advance_modes s alt mo en kp :
  length (modes s) = 5%nat →
  advance (ground DEFAULT_MODES alt mo en kp) (concat (imap (mode_prefix s) MODES))
  = ground (modes s) alt mo en kp.
Proof.
  destruct s as [? ? ms]; simpl.
  destruct ms as [|a [|b [|c [|d [|e [|]]]]]]; try done. intros _.
  unfold mode_prefix. simpl. destruct a, b, c, d, e; reflexivity.
Qed.

(** A pending escape sequence re-enters byte by byte. *)
Lemma advance_escape s acc i :
  utf8 s = [] → Forall escape_byte i → (length (acc ++ i) <= MAX_SEQUENCE_BYTES)%nat →
  advance (set_parser (Escape acc) s) i = set_parser (Escape (acc ++ i)) s.
Proof.
  intros Hu Hi. revert acc. induction Hi as [|b i Hb Hi IH]; intros acc Hl; simpl.
  - by rewrite app_nil_r.
  - rewrite length_app in Hl. simpl in Hl.
    replace (advance_byte (set_parser (Escape acc) s) b)
      with (set_parser (Escape (acc ++ [b])) s).
    { rewrite IH; rewrite <-!app_assoc; [done|]. rewrite length_app. simpl. lia. }
    unfold escape_byte in Hb. unfold advance_byte. simpl. rewrite Hu.
    rewrite (proj2 (Z.ltb_lt b 0x80)) by lia.
    assert (Htail : escape_tail acc b (set_parser Ground s) = set_parser (Escape (acc ++ [b])) s).
    { unfold escape_tail. rewrite (proj2 (between_true 0x20 0x2f b)) by lia.
      rewrite (proj2 (Nat.ltb_lt _ _)) by lia. done. }
    unfold control, is_c1_string, control_escape, is_string_kind. simpl.
    replace (between 0x7f 0x9f b) with false by (symmetry; apply between_false; lia).
    repeat rewrite (proj2 (Z.eqb_neq b _)) by lia. simpl. by destruct acc.
Qed.

Lemma advance_csi s acc p :
  utf8 s = [] → Forall param_byte p → (length (acc ++ p) <= MAX_SEQUENCE_BYTES)%nat →
  advance (set_parser (Csi acc) s) p = set_parser (Csi (acc ++ p)) s.
Proof.
  intros Hu Hp. revert acc. induction Hp as [|b p Hb Hp IH]; intros acc Hl; simpl.
  - by rewrite app_nil_r.
  - rewrite length_app in Hl. simpl in Hl.
    replace (advance_byte (set_parser (Csi acc) s) b) with (set_parser (Csi (acc ++ [b])) s).
    { rewrite IH; rewrite <-!app_assoc; [done|]. rewrite length_app. simpl. lia. }
    assert (Hctl : control b (set_parser (Csi acc) s) = set_parser (Csi (acc ++ [b])) s).
    { unfold control, is_c1_string, control_csi, param_byte in *. simpl.
      replace (between 0x7f 0x9f b) with false by (symmetry; apply between_false; lia).
      replace (between 0x40 0x7e b) with false by (symmetry; apply between_false; lia).
      repeat rewrite (proj2 (Z.eqb_neq b _)) by lia. simpl.
      rewrite (proj2 (Z.ltb_ge b 0x20)) by lia. by rewrite (proj2 (Nat.ltb_lt _ _)) by lia. }
    unfold advance_byte. simpl. rewrite Hu. destruct Hb as [Hb| ->]; [|by rewrite Hctl].
    by rewrite (proj2 (Z.ltb_lt b 0x80)) by lia.
Qed.

Lemma advance_utf8 s acc u :
  wf_utf8 (acc ++ u) → advance (set_utf8 acc s) u = set_utf8 (acc ++ u) s.
Proof.
  revert acc. induction u as [|b u IH]; intros acc Hw; simpl.
  { by rewrite app_nil_r. }
  replace (advance_byte (set_utf8 acc s) b) with (set_utf8 (acc ++ [b]) s).
  { rewrite IH; by rewrite <-app_assoc. }
  assert (Hb : from_utf8 (acc ++ [b]) = Utf8Incomplete).
  { specialize (Hw (length acc + 1)%nat). rewrite !length_app in Hw. simpl in Hw.
    replace (take (length acc + 1) (acc ++ b :: u)) with (acc ++ [b]) in Hw; [apply Hw; lia|].
    rewrite take_app_ge by lia. f_equal. replace (_ - _)%nat with 1%nat by lia. done. }
  unfold advance_byte. simpl. destruct acc as [|a acc]; simpl in *; [|by rewrite Hb].
  apply from_utf8_lead in Hb as [H1 ->]. by rewrite (proj2 (Z.ltb_ge b 0x80)) by lia.
Qed.

Lemma advance_byte_ascii s b :
  utf8 s = [] → b < 0x80 → advance_byte s b = control b s.
Proof. intros Hu Hb. unfold advance_byte. rewrite Hu. by rewrite (proj2 (Z.ltb_lt _ _) Hb). Qed.

Lemma advance_esc s rest :
  utf8 s = [] → advance s (0x1b :: rest) = advance (set_parser (Escape []) s) rest.
Proof. intros Hu. simpl. by rewrite advance_byte_ascii. Qed.

Lemma advance_csi_introducer s rest :
  utf8 s = [] → advance s (0x1b :: 0x5b :: rest) = advance (set_parser (Csi []) s) rest.
Proof. intros Hu. rewrite advance_esc by done. simpl. by rewrite advance_byte_ascii. Qed.

Lemma advance_parser s : utf8 s = [] → wf_parser (parser s) →
  advance (set_parser Ground s) (parser_prefix (parser s)) ≡ s.
Proof.
  intros Hu Hp. rewrite <-(set_parser_id s) at 3.
  destruct (parser s) as [|i|p| |k] eqn:E; simpl in Hp; unfold parser_prefix.
  - done.
  - rewrite advance_esc by done. destruct Hp. by rewrite advance_escape.
  - simpl app. rewrite advance_csi_introducer by done. destruct Hp. by rewrite advance_csi.
  - rewrite advance_csi_introducer by done.
    rewrite advance_csi; [|done| |unfold MAX_SEQUENCE_BYTES; simpl; lia].
    + rewrite set_parser_twice. apply equiv_set_parser. right. unfold inert; eauto.
    + repeat constructor; unfold param_byte; lia.
  - rewrite advance_esc by done. unfold is_string_kind in Hp.
    rewrite !orb_true_iff, !Z.eqb_eq in Hp.
    destruct Hp as [[[[->| ->]| ->]| ->]| ->]; simpl; by rewrite advance_byte_ascii.
Qed.

(** A fresh checkpoint given [prefix s] is in state [s]. *)
Lemma advance_prefix s : wf s → advance default_modes (prefix s) ≡ s.
Proof.
  intros [Hp Hu Hl Hm He]. unfold prefix. rewrite !advance_app.
  change default_modes with (ground DEFAULT_MODES false None None false).
  replace (advance _ (if alternate s then _ else _))
    with (ground DEFAULT_MODES (alternate s) None None false) by (by destruct (alternate s)).
  replace (advance _ (if application_keypad s then _ else _))
    with (ground DEFAULT_MODES (alternate s) None None (application_keypad s))
    by (by destruct (application_keypad s)).
  replace (advance _ (option_prefix (mouse s)))
    with (ground DEFAULT_MODES (alternate s) (mouse s) None (application_keypad s))
    by (destruct (mouse s) as [m|]; [by rewrite (advance_mouse _ _ _ _ m) by auto|done]).
  replace (advance _ (option_prefix (encoding s)))
    with (ground DEFAULT_MODES (alternate s) (mouse s) (encoding s) (application_keypad s))
    by (destruct (encoding s) as [e|]; [by rewrite (advance_encoding _ _ _ _ e) by auto|done]).
  rewrite advance_modes by done.
  change (ground _ _ _ _ _) with (set_parser Ground (set_utf8 [] s)).
  rewrite (advance_parser (set_utf8 [] s)) by done.
  rewrite advance_utf8 by done. by destruct s.
Qed.

(** ** The buffer *)

Definition output_after (n : nat) (cs : list (list Z)) : ReplayBuffer :=
  (run (M := replay_machine n) (ReplayBuffer_new n) cs).1.

Lemma output_after_snoc n cs c :
  output_after n (cs ++ [c]) = (push c (output_after n cs)).1.
Proof.
  unfold output_after. rewrite run_app.
  destruct (run _ cs) as [r os]. simpl. by destruct (push c r).
Qed.

(** [evict] drops the oldest chunks, and advances the modes over them. *)
Lemma evict_spec n l m :
  evict n l m = (drop (length l - n) l, advance m (concat (take (length l - n) l).*2)).
Proof.
  revert m. induction l as [|[c b] l IH]; intros m; simpl; [done|].
  destruct (n <? S (length l))%nat eqn:E.
  - apply Nat.ltb_lt in E. rewrite IH.
    replace (S (length l) - n)%nat with (S (length l - n)) by lia.
    simpl. by rewrite advance_app.
  - apply Nat.ltb_ge in E. by replace (S (length l) - n)%nat with 0%nat by lia.
Qed.

(** The chunks of a whole output, numbered from the first. *)
Definition numbered (cs : list (list Z)) : list (Z * list Z) :=
  zip (seqZ 0 (Z.of_nat (length cs))) cs.

Lemma numbered_snoc cs c :
  numbered (cs ++ [c]) = numbered cs ++ [(Z.of_nat (length cs), c)].
Proof.
  unfold numbered. rewrite length_app, Nat2Z.inj_add, seqZ_app by lia.
  rewrite zip_with_app; [done|]. rewrite length_seqZ. lia.
Qed.
Lemma numbered_length cs : length (numbered cs) = length cs.
Proof. unfold numbered. rewrite length_zip_with, length_seqZ. lia. Qed.
Lemma numbered_snd cs : (numbered cs).*2 = cs.
Proof. apply snd_zip. rewrite length_seqZ. lia. Qed.

(** The buffer after a whole output: the last [n] chunks, behind the modes of
    all the others. *)
Lemma output_after_spec n cs :
  Z.of_nat (length cs) <= u64_max →
  output_after n cs = mkReplay n (Z.of_nat (length cs))
    (drop (length cs - n) (numbered cs))
    (advance default_modes (concat (take (length cs - n) cs))).
Proof.
  induction cs as [|c cs IH] using rev_ind; intros Hlen; [done|].
  rewrite length_app in Hlen. simpl in Hlen. rewrite output_after_snoc, IH by lia.
  unfold push. cbn [next_cursor capacity chunks replay_modes].
  rewrite evict_spec. cbn [fst]. set (k := length cs).
  rewrite <-drop_app_le by (rewrite numbered_length; lia).
  rewrite <-numbered_snoc, length_drop, numbered_length, length_app. simpl length.
  fold k. rewrite drop_drop, fmap_take, fmap_drop, numbered_snd.
  rewrite <-advance_app, <-concat_app.
  rewrite <-(take_app_le cs [c]) by (unfold k; lia).
  rewrite take_take_drop.
  replace (k - n + (k + 1 - (k - n) - n))%nat with (k + 1 - n)%nat by lia.
  f_equal. unfold wrapping_add. rewrite Z.mod_small; lia.
Qed.

Lemma snapshot_bytes r :
  chunks r ≠ [] →
  concat (snapshot r).*2 = prefix (replay_modes r) ++ concat (chunks r).*2.
Proof.
  unfold snapshot. destruct (chunks r) as [|[c b] l]; [done|]. simpl.
  by rewrite app_assoc.
Qed.

(** C1: replaying is faithful.  Whatever the program wrote ([cs], in chunks)
    and however much of it was evicted, a terminal that starts from its
    defaults and is fed the snapshot of a buffer of non-zero capacity has
    every mode, the pending sequence and the partial character of a terminal
    that was fed the whole output. *)
Theorem replay_snapshot_faithful n cs :
  (0 < n)%nat → Forall (Forall is_u8) cs → Z.of_nat (length cs) <= u64_max →
  advance default_modes (concat (snapshot (output_after n cs)).*2)
  ≡ advance default_modes (concat cs).
Proof.
  intros Hn Hcs Hlen. destruct (decide (cs = [])) as [->|Hne]; [done|].
  assert (Hb : Forall is_u8 (concat cs)) by by apply Forall_concat.
  rewrite output_after_spec by done. rewrite snapshot_bytes; simpl.
  - rewrite fmap_drop, numbered_snd, advance_app, advance_prefix.
    + by rewrite <-advance_app, <-concat_app, take_drop.
    + apply advance_wf, wf_default. rewrite <-(take_drop (length cs - n) cs), concat_app in Hb.
      by apply Forall_app in Hb as [? _].
  - intros H%(f_equal length). rewrite length_drop, numbered_length in H.
    destruct cs; simpl in *; [done|lia].
Qed.

Lemma replay_snapshot_faithful_witness :
  let cs := [bytes_of "a"; [0x1b; 0x5b] ++ bytes_of "?1003h"; [0xe2; 0x82]; [0xac]] in
  advance default_modes (concat (snapshot (output_after 2 cs)).*2)
  ≡ advance default_modes (concat cs).
Proof.
  intros cs. apply replay_snapshot_faithful; [lia| |done].
  repeat constructor; done.
Defined.

(** the window.  After any output the buffer holds exactly the last
    [n] chunks in order, numbered consecutively, and its cursors bound them. *)
Theorem replay_window n cs :
  Z.of_nat (length cs) <= u64_max →
  let r := output_after n cs in
  (chunks r).*2 = drop (length cs - n) cs
  ∧ (chunks r).*1 = seqZ (start_cursor r) (next_cursor r - start_cursor r)
  ∧ start_cursor r = Z.of_nat (length cs - n) ∧ next_cursor r = Z.of_nat (length cs).
Proof.
  intros Hlen r. unfold r. rewrite output_after_spec by done.
  assert (Hs : start_cursor (mkReplay n (Z.of_nat (length cs))
    (drop (length cs - n) (numbered cs))
    (advance default_modes (concat (take (length cs - n) cs)))) = Z.of_nat (length cs - n)).
  { unfold start_cursor. simpl. rewrite head_lookup, lookup_drop, Nat.add_0_r.
    destruct (numbered cs !! _) as [[c b]|] eqn:E.
    - unfold numbered in E. apply lookup_zip_with_Some in E as (c' & b' & [= -> ->] & E & _).
      apply lookup_seqZ in E. lia.
    - apply lookup_ge_None in E. rewrite numbered_length in E. lia. }
  rewrite Hs. simpl. split; [by rewrite fmap_drop, numbered_snd|]. split; [|done].
  rewrite fmap_drop. unfold numbered. rewrite fst_zip by (rewrite length_seqZ; lia).
  apply list_eq. intros i. rewrite lookup_drop.
  destruct (decide (i < length cs - (length cs - n))%nat).
  - rewrite !lookup_seqZ_lt by lia. f_equal. lia.
  - rewrite !lookup_seqZ_ge by lia. done.
Qed.

Lemma replay_window_witness :
  let r := output_after 2 [[1]; [2]; [3]] in
  (chunks r).*2 = [[2]; [3]] ∧ start_cursor r = 1 ∧ next_cursor r = 3.
Proof.
  intros r. destruct (replay_window 2 [[1]; [2]; [3]] ltac:(done)) as (H1 & _ & H3 & H4).
  auto.
Defined.

(** ** Mode numbers *)

(** The mode number of a digit string is its decimal value, and a number
    that does not fit in 16 bits is no mode at all (it neither wraps nor
    truncates); the bounded accumulator computes what unbounded arithmetic
    does. *)
Theorem param_mode_value param :
  Forall (λ b, is_ascii_digit b = true) param →
  param_mode param =
    (if digits_value 0 param <=? u16_max then Some (digits_value 0 param) else None).
Proof.
  intros Hp. apply fold_digits_spec; [by compute|]. by apply Forall_digits.
Qed.

Lemma param_mode_value_witness :
  param_mode (bytes_of "65536") = None ∧ param_mode (bytes_of "02004") = Some 2004.
Proof.
  split; rewrite param_mode_value; (reflexivity || (repeat constructor)).
Defined.

Lemma decimal_fuel_value fuel n acc :
  0 <= n < 10 ^ Z.of_nat fuel → n <= u16_max →
  try_fold_digits 0 (decimal_fuel fuel n acc) = try_fold_digits n acc.
Proof.
  revert n acc. induction fuel as [|fuel IH]; intros n acc Hn Hm.
  { simpl in Hn. assert (n = 0) as -> by lia. done. }
  rewrite Nat2Z.inj_succ, Z.pow_succ_r in Hn by lia.
  pose proof (Z.mod_pos_bound n 10). pose proof (Z.div_mod n 10). unfold u16_max in *.
  assert (Hstep : ∀ k, 0 <= k → k * 10 + n mod 10 = n →
    try_fold_digits k ((48 + n mod 10) :: acc) = try_fold_digits n acc).
  { intros k Hk Hkn. unfold try_fold_digits. simpl. unfold checked_mul, checked_add, u16_max.
    rewrite (proj2 (Z.leb_le (k * 10) _)) by lia. simpl.
    rewrite (proj2 (Z.leb_le _ _)) by lia. simpl. f_equal. lia. }
  simpl. destruct (n <? 10) eqn:E; to_prop.
  - apply Hstep; [lia|]. rewrite Z.mod_small; lia.
  - rewrite IH; [apply Hstep; lia| |lia].
    split; [apply Z.div_pos; lia|apply Z.div_lt_upper_bound; lia].
Qed.

Lemma decimal_u16_value m : is_u16 m → param_mode (decimal_u16 m) = Some m.
Proof. intros [H1 H2]. unfold u16_max in H2. apply decimal_fuel_value; simpl; unfold u16_max; lia. Qed.

Lemma decimal_fuel_digits fuel n acc :
  0 <= n → Forall (λ b, is_ascii_digit b = true) acc →
  Forall (λ b, is_ascii_digit b = true) (decimal_fuel fuel n acc).
Proof.
  revert n acc. induction fuel as [|fuel IH]; intros n acc Hn Ha; simpl; [done|].
  assert (Forall (λ b, is_ascii_digit b = true) ((48 + n mod 10) :: acc)).
  { constructor; [|done]. apply between_true. pose proof (Z.mod_pos_bound n 10). lia. }
  case_match; [done|]. apply IH; [apply Z.div_pos; lia|done].
Qed.

Lemma decimal_u16_digits m : 0 <= m → Forall (λ b, is_ascii_digit b = true) (decimal_u16 m).
Proof. intros. by apply decimal_fuel_digits. Qed.

(** Pieces joined by a separator none of them holds. *)
Fixpoint join (sep : Z) (pieces : list (list Z)) : list Z :=
  match pieces with
  | [] => []
  | [piece] => piece
  | piece :: pieces => piece ++ sep :: join sep pieces
  end.

Lemma split_on_piece sep piece rest : sep ∉ piece →
  split_on sep (piece ++ sep :: rest) = piece :: split_on sep rest.
Proof.
  induction piece as [|b piece IH]; intros Hs; simpl; [by rewrite Z.eqb_refl|].
  apply not_elem_of_cons in Hs as [Hb Hs]. rewrite (proj2 (Z.eqb_neq b sep)) by done.
  by rewrite IH.
Qed.

Lemma split_on_last sep piece : sep ∉ piece → split_on sep piece = [piece].
Proof.
  induction piece as [|b piece IH]; intros Hs; simpl; [done|].
  apply not_elem_of_cons in Hs as [Hb Hs]. rewrite (proj2 (Z.eqb_neq b sep)) by done.
  by rewrite IH.
Qed.

Lemma split_on_join sep pieces :
  pieces ≠ [] → Forall (λ piece, sep ∉ piece) pieces → split_on sep (join sep pieces) = pieces.
Proof.
  intros Hne Hp. induction Hp as [|piece pieces Hs Hp IH]; [done|].
  destruct pieces as [|p' pieces]; [by apply split_on_last|].
  change (join sep (piece :: p' :: pieces)) with (piece ++ sep :: join sep (p' :: pieces)).
  rewrite split_on_piece by done. by rewrite IH.
Qed.

Lemma Forall_join (P : Z → Prop) sep pieces :
  P sep → Forall (Forall P) pieces → Forall P (join sep pieces).
Proof.
  intros Hs Hp. induction Hp as [|piece pieces H Hp IH]; simpl; [constructor|].
  destruct pieces; [done|]. apply Forall_app; auto.
Qed.

Lemma fold_apply_param enabled s ms :
  Forall is_u16 ms →
  fold_left (apply_param enabled) (decimal_u16 <$> ms) s = fold_left (apply_mode enabled) ms s.
Proof.
  intros Hm. revert s. induction Hm as [|m ms Hm _ IH]; intros s; simpl; [done|].
  rewrite IH. unfold apply_param. by rewrite decimal_u16_value.
Qed.

Lemma fold_apply_mode_parser enabled s ms :
  parser (fold_left (apply_mode enabled) ms s) = parser s.
Proof.
  revert s. induction ms as [|m ms IH]; intros s; simpl; [done|].
  rewrite IH. apply apply_mode_frame.
Qed.

(** [CSI ? m1 ; ... ; mk] [h] or [l]. *)
Definition private_sequence (ms : list Z) (final : Z) : list Z :=
  [0x1b; 0x5b; 0x3f] ++ join 0x3b (decimal_u16 <$> ms) ++ [final].

Lemma csi_private s ms final :
  ms ≠ [] → Forall is_u16 ms → final = 0x68 ∨ final = 0x6c →
  csi (0x3f :: join 0x3b (decimal_u16 <$> ms)) final s
  = fold_left (apply_mode (final =? 0x68)) ms s.
Proof.
  intros Hne Hm Hf. unfold csi. replace (_ == _) with false by (symmetry; by apply eqb_false).
  assert (Hd : Forall (Forall (λ b, is_ascii_digit b = true)) (decimal_u16 <$> ms)).
  { apply Forall_fmap. eapply Forall_impl; [done|]. intros m [? _]. by apply decimal_u16_digits. }
  replace (negb ((final =? 0x68) || (final =? 0x6c))) with false
    by (destruct Hf as [->| ->]; done).
  replace (forallb _ _) with true.
  { simpl. rewrite split_on_join; [by apply fold_apply_param|by destruct ms|].
    eapply Forall_impl; [done|]. intros piece Hp Hin.
    rewrite Forall_forall in Hp. by specialize (Hp _ Hin). }
  symmetry. apply forallb_forall. intros b Hb%list_elem_of_In. revert b Hb.
  apply Forall_forall, Forall_join; [done|]. eapply Forall_impl; [done|].
  intros piece Hp. eapply Forall_impl; [done|]. intros b ->. done.
Qed.

(** a private-mode sequence sets ([h]) or resets ([l]) exactly the modes
    it lists, in order, whatever sequence was pending before it; the bound is
    the parser's storage for one sequence. *)
Theorem private_sequence_applies s ms final :
  utf8 s = [] → ms ≠ [] → Forall is_u16 ms → final = 0x68 ∨ final = 0x6c →
  (length (join 0x3b (decimal_u16 <$> ms)) < MAX_SEQUENCE_BYTES)%nat →
  advance s (private_sequence ms final)
  = fold_left (apply_mode (final =? 0x68)) ms (set_parser Ground s).
Proof.
  intros Hu Hne Hm Hf Hlen. unfold private_sequence.
  etrans; [by apply (advance_csi_introducer s (0x3f :: join 0x3b (decimal_u16 <$> ms) ++ [final]))|].
  rewrite app_comm_cons, advance_app, advance_csi; [|done| |simpl; lia].
  - simpl. rewrite advance_byte_ascii by (simpl; by destruct Hf; subst).
    unfold control, control_csi. simpl parser.
    destruct Hf as [-> | ->]; cbn -[csi apply_mode]; rewrite csi_private by auto;
      simpl; set (t := fold_left _ _ _);
      (assert (Ht : parser t = Ground) by (unfold t; by rewrite fold_apply_mode_parser));
      by rewrite <-Ht, set_parser_id.
  - constructor; [left; lia|]. apply Forall_join; [left; lia|]. apply Forall_fmap.
    eapply Forall_impl; [done|]. intros m [? _]. simpl.
    eapply Forall_impl; [by apply decimal_u16_digits|].
    intros b [? ?]%between_true. left. lia.
Qed.

Lemma private_sequence_applies_witness :
  let s := advance default_modes ([0x1b] ++ bytes_of "]0;tit") in
  advance s (private_sequence [1000; 2004] 0x68)
  = set_modes [false; true; true; false; true] (set_mouse (Some 1000) default_modes).
Proof.
  intros s. rewrite private_sequence_applies; [reflexivity|reflexivity|done| |by left|].
  - repeat constructor; done.
  - vm_compute. lia.
Defined.

(** what a control string carries never becomes a mode.  Inside a string
    (window title, clipboard, device control), printable ASCII changes nothing
    at all in the checkpoint. *)
Theorem string_payload_inert s kind payload :
  utf8 s = [] → parser s = ControlString kind →
  Forall (λ b, 0x20 <= b <= 0x7e) payload → advance s payload = s.
Proof.
  intros Hu Hp Hb. induction Hb as [|b payload Hb _ IH]; simpl; [done|].
  replace (advance_byte s b) with s; [done|].
  rewrite advance_byte_ascii by (done || lia). unfold control, is_c1_string.
  replace (between 0x7f 0x9f b) with false by (symmetry; apply between_false; lia).
  rewrite Hp. repeat rewrite (proj2 (Z.eqb_neq b _)) by lia.
  rewrite andb_false_r. simpl. by rewrite <-Hp, set_parser_id.
Qed.

Lemma string_payload_inert_witness :
  let s := advance default_modes ([0x1b] ++ bytes_of "]0;") in
  advance s (bytes_of "[?1049h") = s.
Proof.
  intros s. apply (string_payload_inert s 0x5d); [done..|].
  repeat constructor; done.
Defined.

(** the checkpoint is bounded: after any PTY output it stores at most 128
    bytes of an unfinished sequence and three of an unfinished character, and
    so renders in a bounded prefix. *)
Theorem replay_storage_bounded bytes :
  Forall is_u8 bytes →
  let s := advance default_modes bytes in
  (length (utf8 s) <= 3)%nat ∧ (length (parser_prefix (parser s)) <= 2 + 128)%nat.
Proof.
  intros Hb s. destruct (advance_wf default_modes bytes Hb wf_default) as [Hp Hu _ _ _].
  fold s in Hp, Hu. split; [by apply from_utf8_incomplete_bound|].
  destruct (parser s); simpl in *; unfold MAX_SEQUENCE_BYTES in *; lia.
Qed.

Lemma replay_storage_bounded_witness :
  let s := advance default_modes ([0x1b; 0x5b] ++ replicate 300 0x31 ++ [0xf0; 0x9f]) in
  (length (utf8 s) <= 3)%nat ∧ (length (parser_prefix (parser s)) <= 2 + 128)%nat.
Proof.
  apply replay_storage_bounded. apply Forall_app; split; [repeat constructor; done|].
  apply Forall_app; split; [apply Forall_replicate; done|repeat constructor; done].
Defined.
