(* ===== verification/ApprovalReducer.v ===== *)
(** * The Codex approval reducer

    [runtime/codex_approval.rs] correlates validated Codex hooks with the native
    server's status.  It decides when a permission wait is shown and when it may
    be cleared; it grants the right to write, the caller applies the effect under
    its own lock and acknowledges it.

    The state is [ApprovalReducer], every [&mut self] method a function to the
    next state and the effects returned; [approval_machine] is the object the
    caller drives.  Instants are nanoseconds.  Items under [cfg(test)] are left
    out. *)
From S2P Require Export Prelude.

Definition GRACE : Z := 2000000000.
Definition FRESHNESS : Z := 300000000.
Definition MAX_RECORDS : nat := 64.

Record Fence : Type := mkFence {
  runtime_generation : Z;
  identity_revision : Z;
  turn_revision : Z;
  input_revision : Z;
}.
#[export] Instance Fence_eq_dec : EqDecision Fence.
Proof. solve_decision. Defined.

Inductive HookEvent : Type :=
  | PreToolUse | PermissionRequest | PostToolUse | Stop | UserPromptSubmit.

Inductive NativeStatus : Type :=
  | Active | ApprovalPending | UserInputPending | Unavailable.
#[export] Instance NativeStatus_eq_dec : EqDecision NativeStatus.
Proof. solve_decision. Defined.

Inductive Effect : Type :=
  | ShowWait (candidate : Z) (fence : Fence)
  | ClearWait (candidate : Z) (fence : Fence).
#[export] Instance Effect_eq_dec : EqDecision Effect.
Proof. solve_decision. Defined.

Record Observation : Type := mkObservation {
  status : NativeStatus;
  started_at : Z;
}.

Record Candidate : Type := mkCandidate {
  candidate_id : Z;
  eligible : bool;
  saw_pending_edge : bool;
  retired : bool;
}.

Record ToolRecord : Type := mkRecord {
  tool_id : option string;
  has_pre : bool;
  completed : bool;
  candidate : option Candidate;
}.

Record Wait : Type := mkWait {
  wait_candidate : Z;
  received_at : Z;
  shown : bool;
}.

Record ApprovalReducer : Type := mkReducer {
  fence : Fence;
  records : list ToolRecord;
  latest_pre : option nat;
  observation : option Observation;
  last_observation_start : option Z;
  clock : option Z;
  wait : option Wait;
  locked : bool;
  next_candidate : Z;
  exhausted : bool;
  issued : option Effect;
  pending_clear : option Effect;
}.

(** Field updates. *)
Definition set_fence (v : Fence) (r : ApprovalReducer) : ApprovalReducer :=
  mkReducer v (records r) (latest_pre r) (observation r) (last_observation_start r) (clock r)
    (wait r) (locked r) (next_candidate r) (exhausted r) (issued r) (pending_clear r).
Definition set_records (v : list ToolRecord) (r : ApprovalReducer) : ApprovalReducer :=
  mkReducer (fence r) v (latest_pre r) (observation r) (last_observation_start r) (clock r)
    (wait r) (locked r) (next_candidate r) (exhausted r) (issued r) (pending_clear r).
Definition set_latest_pre (v : option nat) (r : ApprovalReducer) : ApprovalReducer :=
  mkReducer (fence r) (records r) v (observation r) (last_observation_start r) (clock r) (wait
    r) (locked r) (next_candidate r) (exhausted r) (issued r) (pending_clear r).
Definition set_observation (v : option Observation) (r : ApprovalReducer) : ApprovalReducer :=
  mkReducer (fence r) (records r) (latest_pre r) v (last_observation_start r) (clock r) (wait r)
    (locked r) (next_candidate r) (exhausted r) (issued r) (pending_clear r).
Definition set_last_observation_start (v : option Z) (r : ApprovalReducer) : ApprovalReducer :=
  mkReducer (fence r) (records r) (latest_pre r) (observation r) v (clock r) (wait r) (locked r)
    (next_candidate r) (exhausted r) (issued r) (pending_clear r).
Definition set_clock (v : option Z) (r : ApprovalReducer) : ApprovalReducer :=
  mkReducer (fence r) (records r) (latest_pre r) (observation r) (last_observation_start r) v
    (wait r) (locked r) (next_candidate r) (exhausted r) (issued r) (pending_clear r).
Definition set_wait (v : option Wait) (r : ApprovalReducer) : ApprovalReducer :=
  mkReducer (fence r) (records r) (latest_pre r) (observation r) (last_observation_start r)
    (clock r) v (locked r) (next_candidate r) (exhausted r) (issued r) (pending_clear r).
Definition set_locked (v : bool) (r : ApprovalReducer) : ApprovalReducer :=
  mkReducer (fence r) (records r) (latest_pre r) (observation r) (last_observation_start r)
    (clock r) (wait r) v (next_candidate r) (exhausted r) (issued r) (pending_clear r).
Definition set_next_candidate (v : Z) (r : ApprovalReducer) : ApprovalReducer :=
  mkReducer (fence r) (records r) (latest_pre r) (observation r) (last_observation_start r)
    (clock r) (wait r) (locked r) v (exhausted r) (issued r) (pending_clear r).
Definition set_exhausted (v : bool) (r : ApprovalReducer) : ApprovalReducer :=
  mkReducer (fence r) (records r) (latest_pre r) (observation r) (last_observation_start r)
    (clock r) (wait r) (locked r) (next_candidate r) v (issued r) (pending_clear r).
Definition set_issued (v : option Effect) (r : ApprovalReducer) : ApprovalReducer :=
  mkReducer (fence r) (records r) (latest_pre r) (observation r) (last_observation_start r)
    (clock r) (wait r) (locked r) (next_candidate r) (exhausted r) v (pending_clear r).
Definition set_pending_clear (v : option Effect) (r : ApprovalReducer) : ApprovalReducer :=
  mkReducer (fence r) (records r) (latest_pre r) (observation r) (last_observation_start r)
    (clock r) (wait r) (locked r) (next_candidate r) (exhausted r) (issued r) v.
Definition set_eligible (v : bool) (c : Candidate) : Candidate :=
  mkCandidate (candidate_id c) v (saw_pending_edge c) (retired c).
Definition set_saw_pending_edge (v : bool) (c : Candidate) : Candidate :=
  mkCandidate (candidate_id c) (eligible c) v (retired c).
Definition set_retired (v : bool) (c : Candidate) : Candidate :=
  mkCandidate (candidate_id c) (eligible c) (saw_pending_edge c) v.
Definition set_completed (v : bool) (rec : ToolRecord) : ToolRecord :=
  mkRecord (tool_id rec) (has_pre rec) v (candidate rec).
Definition set_candidate (v : option Candidate) (rec : ToolRecord) : ToolRecord :=
  mkRecord (tool_id rec) (has_pre rec) (completed rec) v.

(** ** Construction and the private helpers *)

Definition new (f : Fence) : ApprovalReducer :=
  mkReducer f [] None None None None None false 0 false None None.

Definition observation_is_fresh (started now : Z) : bool :=
  is_some_and (checked_duration_since now started) (λ age, age <=? FRESHNESS).

(** Whether the current observation is fresh at [now]. *)
Definition fresh_now (r : ApprovalReducer) (now : Z) : bool :=
  is_some_and (observation r) (λ o, observation_is_fresh (started_at o) now).

Definition reset (r : ApprovalReducer) : ApprovalReducer :=
  mkReducer (fence r) [] None None None None None (exhausted r) (next_candidate r)
    (exhausted r) None None.

Definition lock (r : ApprovalReducer) : ApprovalReducer :=
  set_records ((λ rec, set_candidate (set_eligible false <$> candidate rec) rec) <$> records r)
    (set_pending_clear None (set_locked true r)).

Definition advance_clock (now : Z) (r : ApprovalReducer) : ApprovalReducer * bool :=
  if is_some_and (clock r) (λ last, now <? last)
  then (set_observation None (lock r), false)
  else (set_clock (Some now) r, true).

Definition find (id : string) (r : ApprovalReducer) : option nat :=
  position (λ rec, tool_id rec == Some id) (records r).

Definition add_record (id : option string) (pre done : bool) (r : ApprovalReducer)
    : ApprovalReducer * option nat :=
  if (MAX_RECORDS <=? length (records r))%nat then (lock r, None)
  else (set_records (records r ++ [mkRecord id pre done None]) r, Some (length (records r))).

Definition nonempty (id : string) : bool := id != "".

(** [pre]: the part after the lookup of a named invocation, and the method. *)
Definition push_pre (tool : option string) (r : ApprovalReducer) : ApprovalReducer :=
  let r := if existsb (λ rec, negb (completed rec)) (records r) then lock r else r in
  let '(r, index) := add_record tool true false r in set_latest_pre index r.
Definition pre (tool : option string) (r : ApprovalReducer) : ApprovalReducer :=
  match opt_filter nonempty tool with
  | Some id => if is_some (find id r) then r else push_pre (Some id) r
  | None => push_pre None (lock r)
  end.

(** The record at an index the source reads as [self.records[i]]; the bounds
    are the invariant [inv_latest] below. *)
Definition at_index (r : ApprovalReducer) (index : option nat) (p : ToolRecord → bool) : bool :=
  is_some_and index (λ i, is_some_and (records r !! i) p).

Definition anonymous_index (r : ApprovalReducer) : option nat :=
  opt_or
    (opt_filter (λ i, is_some_and (records r !! i)
       (λ rec, negb (completed rec) && negb (is_some_and (candidate rec) retired)))
       (latest_pre r))
    (position (λ rec, is_none (tool_id rec) && negb (completed rec)
       && is_some_and (candidate rec) (λ c, negb (retired c))) (records r)).

Definition permission_index (tool : option string) (r : ApprovalReducer)
    : ApprovalReducer * option nat :=
  match tool with
  | Some id =>
      if nonempty id then
        match find id r with
        | Some index => (r, Some index)
        | None => add_record (Some id) false false (lock r)
        end
      else add_record None false false (lock r)
  | None =>
      match anonymous_index r with
      | Some index => (r, Some index)
      | None => add_record None false false (lock r)
      end
  end.

(** The tail of [permission]: number the candidate and start the wait. *)
Definition start_candidate (index : option nat) (now : Z) (r : ApprovalReducer)
    : ApprovalReducer :=
  match checked_add u64_max (next_candidate r) 1 with
  | None => lock (set_exhausted true r)
  | Some next =>
      let r := set_next_candidate next r in
      let r := match index with
               | Some i =>
                   set_records (alter (set_candidate
                     (Some (mkCandidate next (negb (locked r)) false false))) i (records r)) r
               | None => r
               end in
      if is_none (wait r) then set_wait (Some (mkWait next now false)) r else r
  end.

Definition permission (tool : option string) (now : Z) (r : ApprovalReducer)
    : ApprovalReducer :=
  let '(r, index) := permission_index tool r in
  if at_index r index (λ rec, completed rec || is_some (candidate rec)) then
    if is_none tool then lock r else r
  else
    let active := length (List.filter (λ rec, negb (completed rec)) (records r)) in
    let baseline := is_some_and (observation r)
      (λ o, (status o == Active) && observation_is_fresh (started_at o) now) in
    let chain := at_index r index (λ rec, has_pre rec && is_some (tool_id rec)) in
    let r := if negb baseline || negb chain || negb (active =? 1)%nat || is_some (wait r)
             then lock r else r in
    start_candidate index now r.

Definition serial_candidate (r : ApprovalReducer) : option nat :=
  if locked r then None
  else position (λ rec, is_some_and (candidate rec) (λ c, eligible c && negb (retired c)))
         (records r).

Definition retire (index : nat) (r : ApprovalReducer) : ApprovalReducer * option Effect :=
  match records r !! index ≫= candidate with
  | None => (r, None)
  | Some c =>
      if retired c then (r, None) else
      let r := set_records
        (alter (λ rec, set_candidate (set_retired true <$> candidate rec) rec) index (records r)) r in
      if locked r || negb (eligible c) then (r, None) else
      match wait r with
      | None => (r, None)
      | Some w =>
          if wait_candidate w != candidate_id c then (r, None)
          else if negb (shown w) then (set_wait None r, None)
          else let effect := ClearWait (wait_candidate w) (fence r) in
               (set_pending_clear (Some effect) r, Some effect)
      end
  end.

Definition post (tool : option string) (r : ApprovalReducer) : ApprovalReducer * option Effect :=
  match opt_filter nonempty tool with
  | None => (lock r, None)
  | Some id =>
      match find id r with
      | None => ((add_record (Some id) false true (lock r)).1, None)
      | Some index =>
          if at_index r (Some index) completed then (r, None) else
          let r := set_records (alter (set_completed true) index (records r)) r in
          if at_index r (Some index) (λ rec, is_none (candidate rec)) then (r, None)
          else retire index r
      end
  end.

Definition issue (effect : Effect) (r : ApprovalReducer) : ApprovalReducer * list Effect :=
  (set_issued (Some effect) r, [effect]).

Definition display_due (now : Z) (r : ApprovalReducer) : ApprovalReducer * list Effect :=
  match wait r with
  | None => (r, [])
  | Some w =>
      if shown w || negb (is_some_and (checked_duration_since now (received_at w))
                            (λ age, GRACE <=? age))
      then (r, [])
      else
        let active_without_flags := negb (locked r)
          && is_some_and (observation r) (λ o,
               (status o == Active) && observation_is_fresh (started_at o) now) in
        if active_without_flags then (r, [])
        else issue (ShowWait (wait_candidate w) (fence r)) r
  end.

(** ** The public methods *)

Definition hook (event : HookEvent) (tool : option string) (now : Z) (r : ApprovalReducer)
    : ApprovalReducer * list Effect :=
  let r := set_issued None r in
  let r := if is_some (pending_clear r) then lock r else r in
  match event with
  | Stop | UserPromptSubmit => (reset r, [])
  | _ =>
      let '(r, _) := advance_clock now r in
      match event with
      | PreToolUse => display_due now (pre tool r)
      | PermissionRequest => display_due now (permission tool now r)
      | _ =>
          let r := if is_some (wait r) && negb (fresh_now r now) then lock r else r in
          match post tool r with
          | (r, Some effect) => issue effect r
          | (r, None) => display_due now r
          end
      end
  end.

(** The [ApprovalPending] arm of [observe]. *)
Definition observe_pending (previous : option NativeStatus) (started : Z)
    (r : ApprovalReducer) : ApprovalReducer :=
  if locked r then r else
  let can_attribute := is_some_and (wait r) (λ w, received_at w <=? started)
    && (previous == Some Active) in
  match serial_candidate r with
  | Some index =>
      if can_attribute then
        set_records (alter (λ rec, set_candidate (set_saw_pending_edge true <$> candidate rec) rec)
          index (records r)) r
      else if at_index r (Some index) (λ rec, is_some_and (candidate rec) saw_pending_edge) then r
      else lock r
  | None => lock r
  end.

(** The [Active] arm of [observe]. *)
Definition observe_active (previous : option NativeStatus) (r : ApprovalReducer)
    : ApprovalReducer * option Effect :=
  if negb (locked r) && (previous == Some ApprovalPending) then
    match serial_candidate r with
    | Some index =>
        if at_index r (Some index) (λ rec, is_some_and (candidate rec) saw_pending_edge)
        then retire index r else (r, None)
    | None => (r, None)
    end
  else (r, None).

(** The status [match] of [observe]. *)
Definition observe_status (status : NativeStatus) (previous : option NativeStatus)
    (started now : Z) (r : ApprovalReducer) : ApprovalReducer * list Effect :=
  match status with
  | ApprovalPending => display_due now (observe_pending previous started r)
  | Active =>
      match observe_active previous r with
      | (r, Some effect) => issue effect r
      | (r, None) => display_due now r
      end
  | UserInputPending => display_due now (lock r)
  | Unavailable =>
      let r := if is_some (wait r) then lock r else r in
      display_due now (set_observation None r)
  end.

Definition observe (st : NativeStatus) (complete_singleton_root : bool) (started now : Z)
    (r : ApprovalReducer) : ApprovalReducer * list Effect :=
  let r := set_issued None r in
  let '(r, ordered_now) := advance_clock now r in
  let ordered_start := is_none_or (last_observation_start r) (λ last,
    (last <? started)
    || ((started =? last) && is_some_and (observation r) (λ o, status o == st))) in
  let fresh := observation_is_fresh started now in
  if negb ordered_now || negb ordered_start || negb fresh || negb complete_singleton_root then
    display_due now (set_observation None (lock r))
  else
    let r := set_last_observation_start (Some started) r in
    let previous := status <$> observation r in
    let r := set_observation (Some (mkObservation st started)) r in
    match pending_clear r with
    | Some effect =>
        if (st == Active) && negb (locked r) then issue effect r
        else observe_status st previous started now (lock r)
    | None => observe_status st previous started now r
    end.

Definition tick (now : Z) (r : ApprovalReducer) : ApprovalReducer * list Effect :=
  let '(r, ordered) := advance_clock now r in
  let r := if ordered then r else set_issued None r in
  let r := if is_some (wait r) && negb (fresh_now r now)
           then lock (if locked r then r else set_issued None r)
           else r in
  match pending_clear r with
  | Some effect => issue effect r
  | None => display_due now r
  end.

Definition invalidate (f : Fence) (r : ApprovalReducer) : ApprovalReducer :=
  set_fence f (reset r).

Definition disconnected (r : ApprovalReducer) : ApprovalReducer :=
  let r := set_last_observation_start None (set_observation None (set_issued None r)) in
  if is_some (wait r) then lock r else r.

Definition assistance_available (r : ApprovalReducer) : bool := negb (exhausted r).

Definition accepts (r : ApprovalReducer) (effect : Effect) : bool := issued r == Some effect.

Definition acknowledge_show (effect : Effect) (r : ApprovalReducer) : ApprovalReducer * bool :=
  if negb (accepts r effect) then (r, false) else
  match effect with
  | ShowWait c f =>
      if f != fence r then (r, false) else
      match opt_filter (λ w, wait_candidate w =? c) (wait r) with
      | Some w => (set_wait (Some (mkWait (wait_candidate w) (received_at w) true)) r, true)
      | None => (r, false)
      end
  | ClearWait _ _ => (r, false)
  end.

Definition acknowledge_clear (effect : Effect) (r : ApprovalReducer) : ApprovalReducer * bool :=
  if negb (accepts r effect) || (pending_clear r != Some effect) then (r, false)
  else (set_issued None (set_wait None (set_pending_clear None r)), true).

Definition clear_observation_start (r : ApprovalReducer) : option Z :=
  started_at <$> observation r.

Definition clear_is_fresh (r : ApprovalReducer) (now : Z) : bool :=
  negb (locked r) && fresh_now r now.

(** ** The machine the caller drives *)

Inductive Call : Type :=
  | Hook (event : HookEvent) (tool : option string) (now : Z)
  | Observe (st : NativeStatus) (complete_singleton_root : bool) (started now : Z)
  | Tick (now : Z)
  | Invalidate (f : Fence)
  | Disconnected
  | AcknowledgeShow (effect : Effect)
  | AcknowledgeClear (effect : Effect).

Definition call (r : ApprovalReducer) (i : Call) : ApprovalReducer * list Effect :=
  match i with
  | Hook event tool now => hook event tool now r
  | Observe st complete started now => observe st complete started now r
  | Tick now => tick now r
  | Invalidate f => (invalidate f r, [])
  | Disconnected => (disconnected r, [])
  | AcknowledgeShow effect => ((acknowledge_show effect r).1, [])
  | AcknowledgeClear effect => ((acknowledge_clear effect r).1, [])
  end.

#[export] Instance approval_machine : Machine ApprovalReducer Call (list Effect) := {
  initial r := ∃ f, r = new f;
  step := call;
}.

Definition second : Z := 1000000000.
Definition no_fence : Fence := mkFence 0 0 0 0.

(** A serial approval: baseline, tool, permission, native pending, visible after
    the grace, cleared when the server is active again. *)
Definition serial_run : list Call :=
  [Observe Active true 0 0; Hook PreToolUse (Some "t") 0; Hook PermissionRequest None 0;
   Observe ApprovalPending true 1 1; Observe ApprovalPending true (2 * second) (2 * second);
   AcknowledgeShow (ShowWait 1 no_fence);
   Observe Active true (2 * second + 5) (2 * second + 5)].
Example serial_run_effects :
  (run (new no_fence) serial_run).2
  = [[]; []; []; []; [ShowWait 1 no_fence]; []; [ClearWait 1 no_fence]].
Proof. reflexivity. Qed.

(** ** The invariant

    [b] is a lower bound on the candidates the state may still mention: [0]
    for any reachable state, the number of the last candidate of a revoked
    epoch for the states after the revocation. *)
Definition cand_at (recs : list ToolRecord) (i : nat) : option Candidate :=
  recs !! i ≫= candidate.

Record Inv_fields (b : Z) (f : Fence) (recs : list ToolRecord) (latest : option nat)
    (w : option Wait) (lk : bool) (next : Z) (ex : bool) (pc : option Effect) : Prop := {
  inv_len : (length recs <= MAX_RECORDS)%nat;
  inv_latest : ∀ i, latest = Some i → (i < length recs)%nat;
  inv_locked : lk = true →
    pc = None ∧ ∀ i c, cand_at recs i = Some c → eligible c = false;
  inv_ids : ∀ i c, cand_at recs i = Some c → b < candidate_id c <= next;
  inv_uniq : ∀ i j c d, cand_at recs i = Some c → cand_at recs j = Some d →
    candidate_id c = candidate_id d → i = j;
  inv_wait : ∀ w0, w = Some w0 → b < wait_candidate w0 <= next;
  inv_elig : ∀ i c, cand_at recs i = Some c → eligible c = true → retired c = false →
    ∃ w0, w = Some w0 ∧ wait_candidate w0 = candidate_id c;
  inv_pc : ∀ e, pc = Some e →
    ∃ w0, w = Some w0 ∧ shown w0 = true ∧ e = ClearWait (wait_candidate w0) f;
  inv_cleared : pc ≠ None →
    ∀ i c, cand_at recs i = Some c → eligible c = true → retired c = true;
  inv_next : b <= next <= u64_max;
  inv_exhausted : ex = true → lk = true;
}.

Definition Inv (b : Z) (r : ApprovalReducer) : Prop :=
  Inv_fields b (fence r) (records r) (latest_pre r) (wait r) (locked r) (next_candidate r)
    (exhausted r) (pending_clear r).

Lemma cand_at_fmap g recs i :
  cand_at ((λ rec, set_candidate (g <$> candidate rec) rec) <$> recs) i = g <$> cand_at recs i.
Proof. unfold cand_at. rewrite list_lookup_fmap. by destruct (recs !! i). Qed.

Lemma cand_at_alter g i recs j :
  cand_at (alter g i recs) j =
    (if decide (i = j) then recs !! j ≫= λ rec, candidate (g rec) else cand_at recs j).
Proof.
  unfold cand_at. case_decide as Hij.
  - subst j. rewrite list_lookup_alter_eq. by destruct (recs !! i).
  - by rewrite list_lookup_alter_ne.
Qed.

Lemma cand_at_snoc recs rec i c :
  candidate rec = None → cand_at (recs ++ [rec]) i = Some c → cand_at recs i = Some c.
Proof.
  unfold cand_at. intros Hr. destruct (decide (i < length recs)%nat).
  - by rewrite lookup_app_l by lia.
  - rewrite lookup_app_r by lia. destruct (i - length recs)%nat as [|k]; simpl; [|done].
    by rewrite Hr.
Qed.

Lemma inv_new f : Inv 0 (new f).
Proof. split; simpl; try done; unfold u64_max, MAX_RECORDS; lia. Qed.

Lemma inv_reset b f r : b <= next_candidate r → Inv 0 r → Inv b (set_fence f (reset r)).
Proof. intros Hb [? ? ? ? ? ? ? ? ? ? ?]. split; simpl; try done; unfold MAX_RECORDS; lia. Qed.

Lemma inv_weaken b r : 0 <= b → Inv b r → Inv 0 r.
Proof.
  intros Hb [? ? ? Hids ? Hw ? ? ? ? ?]. split; auto; [|intros w0 Hw0|lia].
  - intros i c Hc. specialize (Hids i c Hc). lia.
  - specialize (Hw w0 Hw0). lia.
Qed.

Lemma cand_at_lock r i :
  cand_at (records (lock r)) i = set_eligible false <$> cand_at (records r) i.
Proof. apply (cand_at_fmap (set_eligible false)). Qed.

Lemma inv_lock b r : Inv b r → Inv b (lock r).
Proof.
  intros [Hlen Hlat Hlk Hids Huq Hw Hel Hpc Hpe Hn Hex].
  assert (Hcand : ∀ i c, cand_at (records (lock r)) i = Some c →
    eligible c = false ∧ ∃ c', cand_at (records r) i = Some c' ∧ candidate_id c' = candidate_id c).
  { intros i c. rewrite cand_at_lock. intros (c' & Hc' & ->)%fmap_Some. eauto. }
  assert (Hl : length (records (lock r)) = length (records r)) by apply length_fmap.
  split; auto.
  - by rewrite Hl.
  - by setoid_rewrite Hl.
  - intros _. split; [done|]. intros i c Hc. by apply Hcand in Hc as [? _].
  - intros i c (_ & c' & Hc' & <-)%Hcand. by eapply Hids.
  - intros i j c d (_ & c' & Hc' & <-)%Hcand (_ & d' & Hd' & <-)%Hcand. by eapply Huq.
  - intros i c (He & _)%Hcand. congruence.
  - done.
Qed.

Lemma inv_lock_if b (t : bool) r : Inv b r → Inv b (if t then lock r else r).
Proof. destruct t; auto using inv_lock. Qed.

Lemma inv_advance_clock b now r : Inv b r → Inv b (advance_clock now r).1.
Proof. unfold advance_clock. intros H. case_match; [by apply inv_lock|done]. Qed.

Lemma inv_add_record b id p d r : Inv b r →
  Inv b (add_record id p d r).1
  ∧ ∀ i, (add_record id p d r).2 = Some i →
      (i < length (records (add_record id p d r).1))%nat
      ∧ cand_at (records (add_record id p d r).1) i = None.
Proof.
  intros H. unfold add_record. destruct (MAX_RECORDS <=? _)%nat eqn:E; simpl.
  { split; [by apply inv_lock|done]. }
  apply Nat.leb_gt in E. destruct H as [Hlen Hlat Hlk Hids Huq Hw Hel Hpc Hpe Hn Hex].
  assert (Hc : ∀ i c, cand_at (records r ++ [mkRecord id p d None]) i = Some c →
    cand_at (records r) i = Some c) by (intros i c; by apply cand_at_snoc).
  split.
  - split; simpl; auto.
    + rewrite length_app. simpl. lia.
    + intros i Hi. rewrite length_app. specialize (Hlat i Hi). simpl. lia.
    + intros L. split; [by apply Hlk|]. intros i c Hi. by eapply Hlk; eauto.
    + intros i c Hi. by eapply Hids; eauto.
    + intros i j c d' Hi Hj. apply (Huq i j c d'); auto.
    + intros i c Hi. apply (Hel i); auto.
    + intros P i c Hi. apply (Hpe P i); auto.
  - intros i [= <-]. rewrite length_app. split; [simpl; lia|].
    unfold cand_at. by rewrite list_lookup_middle.
Qed.

Lemma inv_add_record_1 b id p d r : Inv b r → Inv b (add_record id p d r).1.
Proof. apply inv_add_record. Qed.

Create HintDb approval.
#[export] Hint Resolve inv_lock inv_lock_if inv_advance_clock inv_add_record_1 : approval.

Lemma inv_set_latest_pre b index r :
  Inv b r → (∀ i, index = Some i → (i < length (records r))%nat) →
  Inv b (set_latest_pre index r).
Proof. intros [] ?. split; auto. Qed.

Lemma inv_push_pre b tool r : Inv b r → Inv b (push_pre tool r).
Proof.
  intros H. unfold push_pre. set (r' := if existsb _ _ then lock r else r).
  assert (H' : Inv b r') by by apply inv_lock_if.
  destruct (inv_add_record b tool true false r' H') as [H1 H2].
  destruct (add_record _ _ _ _) as [r'' index]. apply inv_set_latest_pre; [done|].
  intros i Hi. by apply H2.
Qed.

Lemma inv_pre b tool r : Inv b r → Inv b (pre tool r).
Proof.
  intros H. unfold pre. destruct (opt_filter nonempty tool); [case_match|];
    auto using inv_push_pre, inv_lock.
Qed.

Lemma at_index_true r index p :
  at_index r index p = true ↔ ∃ i rec, index = Some i ∧ records r !! i = Some rec ∧ p rec = true.
Proof.
  unfold at_index. destruct index as [i|]; simpl; [|split; [done|by intros (?&?&?&?)]].
  rewrite is_some_and_true. split; [intros (rec & ? & ?); eauto|].
  intros (? & rec & [= <-] & ? & ?). eauto.
Qed.

(** Where a permission finds its record: an index in range. *)
Lemma inv_permission_index b tool r :
  Inv b r → Inv b (permission_index tool r).1
  ∧ ∀ i, (permission_index tool r).2 = Some i →
      (i < length (records (permission_index tool r).1))%nat.
Proof.
  intros H. assert (Hadd : ∀ id, Inv b (add_record id false false (lock r)).1
    ∧ ∀ i, (add_record id false false (lock r)).2 = Some i →
        (i < length (records (add_record id false false (lock r)).1))%nat).
  { intros id. destruct (inv_add_record b id false false (lock r)) as [? Hi];
      [by apply inv_lock|]. split; [done|]. intros i Hs. by apply Hi. }
  unfold permission_index. destruct tool as [id|].
  - destruct (nonempty id); [|apply Hadd]. destruct (find id r) eqn:E; [|apply Hadd].
    split; [done|]. intros i [= <-]. by apply position_lt in E.
  - destruct (anonymous_index r) as [k|] eqn:E; [|apply Hadd].
    split; [done|]. intros i [= <-]. simpl. unfold anonymous_index, opt_or in E.
    destruct (opt_filter _ _) as [j|] eqn:E1.
    + apply opt_filter_Some in E1 as [E1 _]. injection E as <-. by apply (inv_latest _ _ _ _ _ _ _ _ _ H).
    + by apply position_lt in E.
Qed.

Lemma inv_start_candidate b index now r :
  Inv b r → (locked r = false → wait r = None) →
  (∀ i, index = Some i → cand_at (records r) i = None) →
  Inv b (start_candidate index now r).
Proof.
  intros H Hlw Hi. unfold start_candidate.
  destruct (checked_add _ _ _) as [next|] eqn:E.
  2: { apply (inv_lock b r) in H as []. by split. }
  apply checked_add_Some in E as [-> Hmax].
  destruct H as [Hlen Hlat Hlk Hids Huq Hw Hel Hpc Hpe Hn Hex].
  set (next := next_candidate r + 1) in *.
  set (new := mkCandidate next (negb (locked r)) false false).
  (* the candidates after the step: the new one at [index], the others as before *)
  set (recs := match index with
               | Some i => alter (set_candidate (Some new)) i (records r) | None => records r end).
  assert (Hcand : ∀ j c, cand_at recs j = Some c →
    (index = Some j ∧ c = new) ∨ (index ≠ Some j ∧ cand_at (records r) j = Some c)).
  { intros j c. unfold recs. destruct index as [i|]; [|by right].
    rewrite cand_at_alter. case_decide as Hij; intros Hc; [left|right; split; congruence].
    subst j. destruct (records r !! i); simpl in Hc; [|done]. split; congruence. }
  assert (Hl : length recs = length (records r)).
  { unfold recs. destruct index; [apply length_alter|done]. }
  set (w := if is_none (wait r) then Some (mkWait next now false) else wait r).
  assert (HI : Inv_fields b (fence r) recs (latest_pre r) w (locked r) next (exhausted r)
    (pending_clear r)).
  { split; auto.
    - by rewrite Hl.
    - by setoid_rewrite Hl.
    - intros L. split; [by apply Hlk|]. intros j c [[_ ->]|[_ Hc]]%Hcand.
      + simpl. by rewrite L.
      + by eapply Hlk.
    - intros j c [[_ ->]|[_ Hc]]%Hcand; simpl; [lia|]. apply Hids in Hc. lia.
    - intros j k c d [[-> ->]|[? Hc]]%Hcand [[Hk ->]|[? Hd]]%Hcand; simpl.
      + congruence.
      + apply Hids in Hd. lia.
      + apply Hids in Hc. lia.
      + by apply (Huq j k c d).
    - unfold w. intros w0. destruct (wait r) as [w1|]; simpl.
      + intros [= ->]. specialize (Hw w0 eq_refl). lia.
      + intros [= <-]. simpl. lia.
    - intros j c [[_ ->]|[_ Hc]]%Hcand; simpl.
      + intros L%negb_true_iff _. unfold w. rewrite Hlw by done. simpl. eauto.
      + intros He Hr. destruct (Hel j c Hc He Hr) as (w0 & E & Hid). unfold w. rewrite E. simpl.
        eauto.
    - intros e He. destruct (Hpc e He) as (w0 & E & ?). unfold w. rewrite E. simpl. eauto.
    - intros P j c [[_ ->]|[_ Hc]]%Hcand; simpl; [|by eapply Hpe].
      intros L%negb_true_iff. destruct (pending_clear r) as [e|]; [|done].
      destruct (Hpc e eq_refl) as (w0 & E & _). rewrite (Hlw L) in E. done.
    - lia. }
  clear -HI. unfold Inv. subst recs w.
  destruct index; simpl in *; destruct (is_none (wait r)); exact HI.
Qed.

Lemma inv_permission b tool now r : Inv b r → Inv b (permission tool now r).
Proof.
  intros H. unfold permission.
  destruct (inv_permission_index b tool r H) as [H1 Hi].
  destruct (permission_index tool r) as [r1 index]. simpl in *.
  destruct (at_index r1 index _) eqn:Eat.
  { by apply (inv_lock_if b (is_none tool)). }
  set (cond := negb _ || _ || _ || _). apply inv_start_candidate.
  - by apply inv_lock_if.
  - destruct cond eqn:Ec; [done|]. intros _. unfold cond in Ec. to_prop.
    destruct Ec as [_ Ec]. by destruct (wait r1).
  - intros i ->. assert (Hnone : cand_at (records r1) i = None).
    { specialize (Hi i eq_refl). unfold cand_at.
      destruct (records r1 !! i) as [rec|] eqn:Er; [|done]. simpl.
      destruct (candidate rec) eqn:Ec; [|done].
      assert (at_index r1 (Some i) (λ rec, completed rec || is_some (candidate rec)) = true).
      { apply at_index_true. exists i, rec. rewrite Ec, orb_true_r. done. }
      congruence. }
    destruct cond; [|done]. by rewrite cand_at_lock, Hnone.
Qed.

(** [retire]: the effect, if any, is the clear that is now pending. *)
Lemma inv_retire b i r : Inv b r →
  Inv b (retire i r).1
  ∧ ∀ e, (retire i r).2 = Some e →
      pending_clear (retire i r).1 = Some e ∧ locked (retire i r).1 = false.
Proof.
  intros H. unfold retire. destruct (records r !! i ≫= candidate) as [c|] eqn:Ec; [|done].
  destruct (retired c) eqn:Er; [done|].
  set (recs := alter _ i (records r)).
  assert (Hcand : ∀ j d, cand_at recs j = Some d →
    ∃ d', cand_at (records r) j = Some d' ∧ candidate_id d' = candidate_id d
      ∧ eligible d' = eligible d ∧ (retired d = false → j ≠ i ∧ d = d')).
  { intros j d. unfold recs. rewrite cand_at_alter. case_decide as Hij; [|by eauto 8].
    subst j. unfold cand_at. destruct (records r !! i) as [rec|]; simpl in *; [|done].
    rewrite Ec. intros [= <-]. by exists c. }
  assert (Hl : length recs = length (records r)) by apply length_alter.
  assert (Hr : Inv b (set_records recs r)).
  { destruct H as [Hlen Hlat Hlk Hids Huq Hw Hel Hpc Hpe Hn Hex]. split; auto; simpl.
    - by rewrite Hl.
    - by rewrite Hl.
    - intros L. split; [by apply Hlk|]. intros j d (d' & Hd' & _ & <- & _)%Hcand.
      by eapply Hlk.
    - intros j d (d' & Hd' & <- & _)%Hcand. by eapply Hids.
    - intros j k d e (d' & Hd' & <- & _)%Hcand (e' & He' & <- & _)%Hcand. by eapply Huq.
    - intros j d (d' & Hd' & _ & Hel' & Hu)%Hcand He Hre. destruct (Hu Hre) as [_ ->].
      by eapply Hel.
    - intros P j d (d' & Hd' & _ & Hel' & Hu)%Hcand He. destruct (retired d) eqn:Hre; [done|].
      destruct (Hu eq_refl) as [_ ->]. rewrite (Hpe P j d' Hd' He) in Hre. done. }
  destruct (locked _ || negb (eligible c)) eqn:Elk; [done|].
  apply orb_false_iff in Elk as [Elk Eel]. apply negb_false_iff in Eel.
  change (wait (set_records recs r)) with (wait r).
  destruct (wait r) as [w|] eqn:Ew; [|done].
  destruct (wait_candidate w != candidate_id c) eqn:Eid; [done|].
  rewrite neqb_false in Eid.
  (* no other candidate is eligible: the wait is this one's *)
  assert (Hno : ∀ j d, cand_at recs j = Some d → eligible d = true → retired d = false → False).
  { intros j d Hd He Hre. destruct (Hcand j d Hd) as (d' & Hd' & _ & _ & Hu).
    destruct (Hu Hre) as [Hji ->]. apply Hji.
    destruct H as [_ _ _ _ Huq _ Hel _ _ _ _]. destruct (Hel j d' Hd' He Hre) as (w0 & E0 & Hid).
    apply (Huq j i d' c Hd' Ec). rewrite Ew in E0. congruence. }
  destruct (shown w) eqn:Es; simpl.
  - split; [|intros e [= <-]; done].
    destruct Hr as [Hlen Hlat Hlk Hids Huq Hw Hel Hpc Hpe Hn Hex]. split; auto; simpl in *.
    + intros L. congruence.
    + intros e [= <-]. eauto.
    + intros _ j d Hd He. destruct (retired d) eqn:Hre; [done|]. by destruct (Hno j d Hd He Hre).
  - split; [|done].
    destruct Hr as [Hlen Hlat Hlk Hids Huq Hw Hel Hpc Hpe Hn Hex]. split; auto; simpl in *.
    + done.
    + intros j d Hd He Hre. by destruct (Hno j d Hd He Hre).
    + intros e He. destruct (Hpc e He) as (w0 & E0 & Hs & _). rewrite Ew in E0. congruence.
Qed.

Lemma inv_set_completed b i r :
  Inv b r → Inv b (set_records (alter (set_completed true) i (records r)) r).
Proof.
  intros H. assert (Hc : ∀ j, cand_at (alter (set_completed true) i (records r)) j
    = cand_at (records r) j).
  { intros j. rewrite cand_at_alter. case_decide; [|done]. subst j.
    unfold cand_at. by destruct (records r !! i). }
  destruct H as [Hlen Hlat Hlk Hids Huq Hw Hel Hpc Hpe Hn Hex]. split; auto; simpl.
  all: try setoid_rewrite length_alter; try setoid_rewrite Hc; auto.
Qed.

(** What [post] and the [Active] arm guarantee, as for [inv_retire]. *)
Definition retire_post (b : Z) (o : ApprovalReducer * option Effect) : Prop :=
  Inv b o.1 ∧ ∀ e, o.2 = Some e → pending_clear o.1 = Some e ∧ locked o.1 = false.

Lemma retire_post_None b r : Inv b r → retire_post b (r, None).
Proof. by split. Qed.
Lemma retire_post_retire b i r : Inv b r → retire_post b (retire i r).
Proof. apply inv_retire. Qed.
#[export] Hint Resolve inv_set_completed retire_post_None retire_post_retire : approval.

Lemma inv_post b tool r : Inv b r → retire_post b (post tool r).
Proof.
  intros H. unfold post. repeat case_match; eauto with approval.
Qed.

Lemma inv_observe_active b previous r : Inv b r → retire_post b (observe_active previous r).
Proof. intros H. unfold observe_active. repeat case_match; eauto with approval. Qed.

Lemma inv_observe_pending b previous started r :
  Inv b r → Inv b (observe_pending previous started r).
Proof.
  intros H. unfold observe_pending. repeat case_match; eauto with approval.
  set (recs := alter _ _ _). match goal with H : serial_candidate r = Some ?n |- _ => rename n into k end.
  assert (Hc : ∀ j d, cand_at recs j = Some d → ∃ d', cand_at (records r) j = Some d'
    ∧ candidate_id d' = candidate_id d ∧ eligible d' = eligible d ∧ retired d' = retired d).
  { intros j d. unfold recs. rewrite cand_at_alter. case_decide; [|by eauto]. subst j.
    unfold cand_at. destruct (records r !! k) as [rec|]; simpl; [|done].
    destruct (candidate rec) as [d'|]; simpl; [|done]. intros [= <-]. by exists d'. }
  assert (Hl : length recs = length (records r)) by apply length_alter.
  destruct H as [Hlen Hlat Hlk Hids Huq Hw Hel Hpc Hpe Hn Hex]. split; auto; simpl.
  - by rewrite Hl.
  - by rewrite Hl.
  - intros L. congruence.
  - intros j d (d' & Hd' & <- & _)%Hc. by eapply Hids.
  - intros j l d e (d' & Hd' & <- & _)%Hc (e' & He' & <- & _)%Hc. by eapply Huq.
  - intros j d (d' & Hd' & <- & <- & <-)%Hc. by apply (Hel j).
  - intros P j d (d' & Hd' & _ & <- & <-)%Hc. by apply (Hpe P j).
Qed.
#[export] Hint Resolve inv_pre inv_permission inv_post inv_observe_active inv_observe_pending
  : approval.

(** ** The granted effect *)

(** The effect [issued] refers to the wait of the state: a show to the wait
    itself, a clear to the clear pending for it. *)
Definition issued_ok (r : ApprovalReducer) : Prop :=
  match issued r with
  | None => True
  | Some (ShowWait c f) => f = fence r ∧ ∃ w, wait r = Some w ∧ wait_candidate w = c
  | Some (ClearWait c f) => pending_clear r = Some (ClearWait c f)
  end.

Definition Good (b : Z) (r : ApprovalReducer) : Prop := Inv b r ∧ issued_ok r.

Lemma good_quiet b r : Inv b r → issued r = None → Good b r.
Proof. intros ? E. split; [done|]. unfold issued_ok. by rewrite E. Qed.

Lemma issued_lock r : issued (lock r) = issued r.
Proof. done. Qed.
Lemma issued_advance_clock now r : issued (advance_clock now r).1 = issued r.
Proof. unfold advance_clock. by case_match. Qed.
Lemma issued_add_record id p d r : issued (add_record id p d r).1 = issued r.
Proof. unfold add_record. by case_match. Qed.
Lemma issued_pre tool r : issued (pre tool r) = issued r.
Proof. unfold pre, push_pre, add_record. by repeat case_match; simplify_eq/=. Qed.
Lemma issued_permission tool now r : issued (permission tool now r) = issued r.
Proof.
  unfold permission. assert (Hi : issued (permission_index tool r).1 = issued r).
  { unfold permission_index. repeat case_match; try done; by rewrite issued_add_record. }
  destruct (permission_index tool r) as [r1 index]. simpl in Hi.
  destruct (at_index _ _ _); [by destruct (is_none tool)|].
  assert (Hs : ∀ r', issued (start_candidate index now r') = issued r').
  { intros r'. unfold start_candidate. destruct (checked_add _ _ _); [|done].
    by destruct index; simpl; destruct (is_none (wait r')). }
  rewrite Hs. by destruct (_ || is_some (wait r1)).
Qed.
Lemma issued_retire i r : issued (retire i r).1 = issued r.
Proof. unfold retire. by repeat case_match; simplify_eq/=. Qed.
Lemma issued_post tool r : issued (post tool r).1 = issued r.
Proof.
  unfold post, add_record. repeat (case_match; simplify_eq/=; try done). by rewrite issued_retire.
Qed.
Lemma issued_observe_active p r : issued (observe_active p r).1 = issued r.
Proof. unfold observe_active. repeat case_match; try done. apply issued_retire. Qed.
Lemma issued_observe_pending p st r : issued (observe_pending p st r) = issued r.
Proof. unfold observe_pending. by repeat case_match. Qed.

Create Rewrite HintDb issued.
#[export] Hint Rewrite issued_lock issued_advance_clock issued_add_record issued_pre
  issued_permission issued_retire issued_post issued_observe_active issued_observe_pending
  : issued.

Lemma good_issue b e r :
  Inv b r → pending_clear r = Some e → Good b (issue e r).1.
Proof.
  intros H He. split; [exact H|]. pose proof (inv_pc _ _ _ _ _ _ _ _ _ H e He) as (w&_&_&->).
  exact He.
Qed.

(** [display_due] keeps a permitted effect or grants the show of the wait. *)
Lemma good_display_due b now r : Good b r → Good b (display_due now r).1.
Proof.
  intros [H Hi]. unfold display_due. repeat case_match; try by split.
  split; [exact H|]. unfold issued_ok. simpl. split; [done|]. by eexists.
Qed.

Lemma good_retire_post b now (o : ApprovalReducer * option Effect) :
  retire_post b o → issued o.1 = None →
  Good b (match o with (r, Some e) => issue e r | (r, None) => display_due now r end).1.
Proof.
  destruct o as [r [e|]]; intros [H He] Hn; simpl in *.
  - apply good_issue; [done|]. by apply He.
  - apply good_display_due, good_quiet; done.
Qed.

Lemma good_lock_quiet b (t : bool) r : Inv b r → issued r = None →
  Inv b (if t then lock r else r) ∧ issued (if t then lock r else r) = None.
Proof. by destruct t; auto using inv_lock. Qed.

Lemma good_hook b event tool now r : 0 <= b → Good b r → Good b (hook event tool now r).1.
Proof.
  intros Hb [H _]. unfold hook.
  destruct (good_lock_quiet b (is_some (pending_clear (set_issued None r))) (set_issued None r))
    as [H1 I1]; [exact H|done|].
  set (r1 := if is_some _ then _ else _) in *.
  assert (Hreset : Good b (reset r1)).
  { apply good_quiet; [|done]. change (reset r1) with (set_fence (fence r1) (reset r1)).
    apply inv_reset; [apply (inv_next _ _ _ _ _ _ _ _ _ H1)|by eapply inv_weaken]. }
  pose proof (inv_advance_clock b now r1 H1) as H2. pose proof (issued_advance_clock now r1) as I2.
  rewrite I1 in I2. destruct event; simpl; try exact Hreset;
    destruct (advance_clock now r1) as [r2 ok]; simpl in *.
  - apply good_display_due, good_quiet; [eauto with approval|by autorewrite with issued].
  - apply good_display_due, good_quiet; [eauto with approval|by autorewrite with issued].
  - destruct (good_lock_quiet b (is_some (wait r2) && negb (fresh_now r2 now)) r2) as [H3 I3];
      [done..|]. apply good_retire_post; [eauto with approval|by autorewrite with issued].
Qed.

Lemma good_observe_status b st previous started now r :
  Inv b r → issued r = None → Good b (observe_status st previous started now r).1.
Proof.
  intros H I. unfold observe_status. destruct st.
  - apply good_retire_post; [eauto with approval|by autorewrite with issued].
  - apply good_display_due, good_quiet; [eauto with approval|by autorewrite with issued].
  - apply good_display_due, good_quiet; [eauto with approval|by autorewrite with issued].
  - destruct (good_lock_quiet b (is_some (wait r)) r) as [H1 I1]; [done..|].
    by apply good_display_due, good_quiet.
Qed.

Lemma good_observe b st complete started now r :
  Good b r → Good b (observe st complete started now r).1.
Proof.
  intros [H _]. unfold observe.
  pose proof (inv_advance_clock b now (set_issued None r) H) as H1.
  pose proof (issued_advance_clock now (set_issued None r)) as I1.
  destruct (advance_clock now (set_issued None r)) as [r1 ok]. simpl in *.
  destruct (_ || negb complete).
  { apply good_display_due, good_quiet; [|done]. by apply inv_lock in H1. }
  set (r2 := set_observation _ (set_last_observation_start _ r1)).
  assert (H2 : Inv b r2) by exact H1. change (pending_clear r2) with (pending_clear r1).
  destruct (pending_clear r1) as [e|] eqn:Ep.
  - destruct (_ && _).
    + by apply good_issue.
    + apply good_observe_status; [by apply inv_lock|done].
  - by apply good_observe_status.
Qed.

Lemma good_lock b r : Good b r → (locked r = true ∨ issued r = None) → Good b (lock r).
Proof.
  intros [H Hi] Hq. split; [by apply inv_lock|]. unfold issued_ok in *. rewrite issued_lock.
  destruct (issued r) as [[c f|c f]|] eqn:E; [done| |done].
  destruct Hq as [L|?]; [|done].
  apply (inv_locked _ _ _ _ _ _ _ _ _ H) in L as [L _]. congruence.
Qed.

Lemma good_tick b now r : Good b r → Good b (tick now r).1.
Proof.
  intros G. unfold tick.
  assert (G1 : Good b (let '(r, ordered) := advance_clock now r in
    if ordered then r else set_issued None r)).
  { unfold advance_clock. destruct (is_some_and _ _).
    - apply good_quiet; [|done]. destruct G as [G _]. exact (inv_lock b r G).
    - destruct G as [G Hi]. split; [exact G|exact Hi]. }
  destruct (advance_clock now r) as [r0 ordered]. revert G1.
  generalize (if ordered then r0 else set_issued None r0). intros r1 G1.
  set (r2 := if is_some (wait r1) && _ then _ else r1). cbv zeta.
  assert (G2 : Good b r2).
  { unfold r2. destruct (_ && _); [|done]. destruct (locked r1) eqn:L.
    - apply good_lock; auto.
    - apply good_lock; [|by right]. destruct G1 as [G1 _]. by apply good_quiet. }
  destruct (pending_clear r2) eqn:Ep; [|by apply good_display_due].
  destruct G2 as [G2 _]. by apply good_issue.
Qed.

Lemma good_invalidate b f r : b <= next_candidate r → Inv 0 r → Good b (invalidate f r).
Proof. intros Hb H. apply good_quiet; [|done]. by apply inv_reset. Qed.

Lemma good_acknowledge_show b e r : Good b r → Good b (acknowledge_show e r).1.
Proof.
  intros G. unfold acknowledge_show. destruct (accepts r e) eqn:Ea; simpl; [|done].
  destruct e as [c f|c f]; [|done]. destruct (f != fence r); [done|].
  destruct (opt_filter _ (wait r)) as [w|] eqn:Ew; [|done]. simpl.
  apply opt_filter_Some in Ew as [Ew Hc]. destruct G as [H Hi].
  destruct H as [Hlen Hlat Hlk Hids Huq Hw Hel Hpc Hpe Hn Hex]. split.
  - split; auto; simpl.
    + intros w0 [= <-]. by apply (Hw w).
    + intros i d Hd He Hr. destruct (Hel i d Hd He Hr) as (w0 & E & ?).
      assert (w0 = w) as -> by congruence. by eexists.
    + intros e He. destruct (Hpc e He) as (w0 & E & ? & ?).
      assert (w0 = w) as -> by congruence. by eexists.
  - unfold issued_ok in *. simpl. destruct (issued r) as [[c' f'|c' f']|]; [|done..].
    destruct Hi as (-> & w0 & E & <-). split; [done|].
    assert (w0 = w) as -> by congruence. by eexists.
Qed.

Lemma good_acknowledge_clear b e r : Good b r → Good b (acknowledge_clear e r).1.
Proof.
  intros G. unfold acknowledge_clear. destruct (_ || _) eqn:Ea; [done|].
  apply orb_false_iff in Ea as [_ Ea]. rewrite neqb_false in Ea. apply good_quiet; [|done].
  destruct G as [[Hlen Hlat Hlk Hids Huq Hw Hel Hpc Hpe Hn Hex] _]. split; auto; simpl; try done.
  - intros L. split; [done|]. by apply Hlk.
  - intros i c Hc He Hr. rewrite (Hpe ltac:(congruence) i c Hc He) in Hr. done.
Qed.

Lemma good_disconnected b r : Good b r → Good b (disconnected r).
Proof.
  intros [H _]. unfold disconnected. case_match; (apply good_quiet; [|done]).
  - exact (inv_lock b r H).
  - exact H.
Qed.

Lemma good_call b r i : 0 <= b → Good b r → Good b (call r i).1.
Proof.
  intros Hb G. destruct i; simpl.
  - by apply good_hook.
  - by apply good_observe.
  - by apply good_tick.
  - destruct G as [H _]. apply good_invalidate; [apply (inv_next _ _ _ _ _ _ _ _ _ H)|].
    by eapply inv_weaken.
  - by apply good_disconnected.
  - by apply good_acknowledge_show.
  - by apply good_acknowledge_clear.
Qed.

Lemma good_reachable r : reachable r → Good 0 r.
Proof.
  apply invariant_reachable. split.
  - intros s [f ->]. apply good_quiet; [apply inv_new|done].
  - intros s i. by apply good_call.
Qed.

Lemma good_accepts b r e : Good b r → accepts r e = true →
  match e with ShowWait c _ | ClearWait c _ => b < c <= next_candidate r end.
Proof.
  intros [H Hi] E%eqb_elim. unfold issued_ok in Hi. rewrite E in Hi.
  pose proof (inv_wait _ _ _ _ _ _ _ _ _ H) as Hw. destruct e as [c f|c f].
  - destruct Hi as (_ & w & Ew & <-). by apply Hw.
  - destruct (inv_pc _ _ _ _ _ _ _ _ _ H _ Hi) as (w & Ew & _ & [= -> _]). by apply Hw.
Qed.

Definition candidate_of (e : Effect) : Z :=
  match e with ShowWait c _ | ClearWait c _ => c end.

Lemma approval_floor_step b (r : ApprovalReducer) (i : Call) :
  0 <= b ∧ Good b r → 0 <= b ∧ Good b (step r i).1.
Proof. intros [Hb G]. split; [done|]. by apply good_call. Qed.
Lemma approval_floor_accepts b r e :
  0 <= b ∧ Good b r → accepts r e = true → b < candidate_of e.
Proof. intros [_ G] Ha. pose proof (good_accepts b r e G Ha). destruct e; simpl; lia. Qed.

(** Candidates are numbered, so a grant is stamped by its candidate. *)
#[export] Instance approval_gate : EffectGate ApprovalReducer Call (list Effect) Effect := {
  gate_accepts := accepts;
  stamp := candidate_of;
  floor b r := 0 <= b ∧ Good b r;
  floor_step := approval_floor_step;
  floor_accepts := approval_floor_accepts;
}.

(** ** What a call grants *)

(** The outputs of a call at [now]: nothing, or one effect that is now the
    issued one and is backed by the state. *)
Definition granted (now : Z) (o : ApprovalReducer * list Effect) : Prop :=
  o.2 = [] ∨
  ∃ e, o.2 = [e] ∧ issued o.1 = Some e ∧
    match e with
    | ClearWait _ _ => pending_clear o.1 = Some e ∧ clear_is_fresh o.1 now = true
    | ShowWait c f =>
        ∃ w, wait o.1 = Some w ∧ wait_candidate w = c ∧ f = fence o.1 ∧ shown w = false
          ∧ GRACE <= now - received_at w
    end.

Lemma granted_display_due now r : granted now (display_due now r).
Proof.
  unfold display_due. destruct (wait r) as [w|] eqn:Ew; [|by left].
  destruct (shown w || _) eqn:Es; [by left|]. destruct (negb (locked r) && _); [by left|].
  right. eexists. split; [done|]. split; [done|]. exists w. repeat split; [done| |].
  - by destruct (shown w).
  - to_prop. destruct Es as [_ (age & Ha & Hg)]. unfold checked_duration_since in Ha.
    destruct (_ <=? _); [|done]. injection Ha as <-. unfold GRACE in *. lia.
Qed.

Lemma granted_clear b now e r : Inv b r → pending_clear r = Some e → fresh_now r now = true →
  granted now (issue e r).
Proof.
  intros H He Hf. right. exists e. split; [done|]. split; [done|].
  destruct (inv_pc _ _ _ _ _ _ _ _ _ H e He) as (w&_&_&->). split; [done|].
  unfold clear_is_fresh. apply andb_true_intro. split; [|done].
  change (locked (issue (ClearWait (wait_candidate w) (fence r)) r).1) with (locked r).
  destruct (locked r) eqn:L; [|done].
  apply (inv_locked _ _ _ _ _ _ _ _ _ H) in L as [L _]. congruence.
Qed.

Lemma fresh_retire i r now : fresh_now (retire i r).1 now = fresh_now r now.
Proof. unfold retire. by repeat case_match; simplify_eq/=. Qed.
Lemma fresh_post tool r now e :
  (post tool r).2 = Some e → fresh_now (post tool r).1 now = fresh_now r now.
Proof. unfold post. repeat case_match; try done. by rewrite fresh_retire. Qed.
Lemma retire_requires i r e :
  (retire i r).2 = Some e → is_some (wait r) = true ∧ locked r = false.
Proof.
  unfold retire. destruct (_ ≫= candidate) as [c|]; [|done]. destruct (retired c); [done|].
  destruct (locked _ || _) eqn:L; [done|]. apply orb_false_iff in L as [L _]. simpl in *.
  by destruct (wait r).
Qed.
Lemma post_requires tool r e :
  (post tool r).2 = Some e → is_some (wait r) = true ∧ locked r = false.
Proof. unfold post. repeat case_match; try done. by intros ?%retire_requires. Qed.

Lemma granted_hook b event tool now r : Inv b r → granted now (hook event tool now r).
Proof.
  intros H. unfold hook. set (r1 := if is_some (pending_clear _) then _ else _).
  assert (H1 : Inv b r1) by by apply (inv_lock_if b).
  pose proof (inv_advance_clock b now r1 H1) as H2.
  destruct event; try (by left); destruct (advance_clock now r1) as [r2 ok]; simpl in *;
    try apply granted_display_due.
  set (r3 := if is_some (wait r2) && _ then lock r2 else r2).
  assert (H3 : Inv b r3) by by apply inv_lock_if.
  pose proof (inv_post b tool r3 H3) as [H4 He]. pose proof (fresh_post tool r3 now) as Hf.
  pose proof (post_requires tool r3) as Hw. destruct (post tool r3) as [r4 [e|]]; simpl in *;
    [|apply granted_display_due].
  destruct (He e eq_refl) as [Hp _]. apply (granted_clear b); [done..|].
  rewrite (Hf e eq_refl). destruct (Hw e eq_refl) as [Hs L]. unfold r3 in *.
  destruct (fresh_now r2 now) eqn:Ef; [by destruct (_ && _)|].
  destruct (is_some (wait r2)) eqn:E2; simpl in *; congruence.
Qed.

Lemma granted_observe_status b st previous started now r :
  Inv b r → (st = Active → fresh_now r now = true) →
  granted now (observe_status st previous started now r).
Proof.
  intros H Hf. unfold observe_status. destruct st; try apply granted_display_due.
  destruct (inv_observe_active b previous r H) as [H1 He].
  assert (Hg : ∀ e, (observe_active previous r).2 = Some e →
    fresh_now (observe_active previous r).1 now = true).
  { intros e. unfold observe_active. repeat case_match; try done. rewrite fresh_retire. auto. }
  destruct (observe_active previous r) as [r1 [e|]]; simpl in *; [|apply granted_display_due].
  apply (granted_clear b); [done|by apply He|by eapply Hg].
Qed.

Lemma granted_observe b st complete started now r :
  Inv b r → granted now (observe st complete started now r).
Proof.
  intros H. unfold observe.
  pose proof (inv_advance_clock b now (set_issued None r) H) as H1.
  destruct (advance_clock now (set_issued None r)) as [r1 ok]. simpl in *.
  destruct (_ || negb complete) eqn:Eok; [apply granted_display_due|].
  assert (Hfr : observation_is_fresh started now = true) by (to_prop; tauto).
  set (r2 := set_observation _ (set_last_observation_start _ r1)).
  assert (H2 : Inv b r2) by exact H1. change (pending_clear r2) with (pending_clear r1).
  destruct (pending_clear r1) as [e|] eqn:Ep.
  - destruct (_ && _).
    + by apply (granted_clear b).
    + apply (granted_observe_status b); [by apply inv_lock|done].
  - by apply (granted_observe_status b).
Qed.

Lemma granted_tick b now r : Inv b r → granted now (tick now r).
Proof.
  intros H. unfold tick. pose proof (inv_advance_clock b now r H) as H1.
  destruct (advance_clock now r) as [r0 ordered]. cbv zeta. simpl in H1.
  set (r1 := if ordered then r0 else _).
  assert (H2 : Inv b r1) by (unfold r1; by destruct ordered).
  set (r2 := if is_some (wait r1) && _ then _ else r1).
  assert (Hr2 : Inv b r2 ∧ (locked r2 = true ∨ is_some (wait r2) = false ∨ fresh_now r2 now = true)).
  { unfold r2. destruct (is_some (wait r1)) eqn:Ew; simpl; [|by auto].
    destruct (fresh_now r1 now) eqn:Ef; simpl; [by auto|].
    split; [|by left]. by destruct (locked r1); apply inv_lock in H2. }
  destruct Hr2 as [H3 Hc]. destruct (pending_clear r2) as [e|] eqn:Ep;
    [|apply granted_display_due].
  apply (granted_clear b); [done..|].
  destruct (inv_pc _ _ _ _ _ _ _ _ _ H3 e Ep) as (w & Ew & _). rewrite Ew in Hc.
  destruct Hc as [L|[?|?]]; [|done..]. apply (inv_locked _ _ _ _ _ _ _ _ _ H3) in L as [L _].
  congruence.
Qed.

(** The instant of a call that reads the clock. *)
Definition call_now (i : Call) : option Z :=
  match i with Hook _ _ now | Observe _ _ _ now | Tick now => Some now | _ => None end.

Lemma granted_call b r i : Inv b r →
  match call_now i with Some now => granted now (call r i) | None => (call r i).2 = [] end.
Proof.
  intros H. destruct i; simpl; try done.
  - by apply (granted_hook b).
  - by apply (granted_observe b).
  - by apply (granted_tick b).
Qed.

(** ** Properties *)

(** C33: every effect a call grants is justified.  A clear names the wait of
    the state under the current fence, that wait was shown, nothing has locked
    the epoch, and the native status behind it is fresh at the instant of the
    call.  A show names the wait of the state under the current fence, not yet
    shown, at least [GRACE] old.  In both cases the effect is the one the
    reducer now accepts. *)
Theorem grants_are_justified r i e :
  reachable r → e ∈ (call r i).2 →
  ∃ now w, call_now i = Some now ∧ (call r i).2 = [e] ∧ accepts (call r i).1 e = true
    ∧ wait (call r i).1 = Some w
    ∧ match e with
      | ClearWait c f => c = wait_candidate w ∧ f = fence (call r i).1 ∧ shown w = true
          ∧ clear_is_fresh (call r i).1 now = true
      | ShowWait c f => c = wait_candidate w ∧ f = fence (call r i).1 ∧ shown w = false
          ∧ GRACE <= now - received_at w
      end.
Proof.
  intros Hr He. destruct (good_reachable r Hr) as [H Hi].
  destruct (good_call 0 r i) as [H1 _]; [done|by split|].
  pose proof (granted_call 0 r i H) as Hg.
  destruct (call_now i) as [now|]; [|rewrite Hg in He; by apply not_elem_of_nil in He].
  destruct Hg as [Hg|(e' & Hl & Hiss & Hg)]; [rewrite Hg in He; by apply not_elem_of_nil in He|].
  rewrite Hl in He. apply list_elem_of_singleton in He as ->. exists now.
  assert (Ha : accepts (call r i).1 e' = true) by (unfold accepts; rewrite Hiss; apply eqb_refl).
  destruct e' as [c f|c f].
  - destruct Hg as (w & Ew & Hc & Hf & Hs & Hage). exists w. by repeat split.
  - destruct Hg as [Hp Hf]. destruct (inv_pc _ _ _ _ _ _ _ _ _ H1 _ Hp) as (w & Ew & Hs & [= -> ->]).
    exists w. by repeat split.
Qed.

(** The states before the last call of [serial_run]. *)
Definition shown_state : ApprovalReducer := (run (new no_fence) (removelast serial_run)).1.
Lemma reachable_run f ins : reachable (run (new f) ins).1.
Proof. apply run_reachable. constructor. by exists f. Qed.

Lemma grants_are_justified_witness :
  let i := Observe Active true (2 * second + 5) (2 * second + 5) in
  ∃ now w, call_now i = Some now ∧ (call shown_state i).2 = [ClearWait 1 no_fence]
    ∧ accepts (call shown_state i).1 (ClearWait 1 no_fence) = true
    ∧ wait (call shown_state i).1 = Some w
    ∧ 1 = wait_candidate w ∧ no_fence = fence (call shown_state i).1 ∧ shown w = true
    ∧ clear_is_fresh (call shown_state i).1 now = true.
Proof.
  apply (grants_are_justified shown_state (Observe Active true (2 * second + 5) (2 * second + 5))
           (ClearWait 1 no_fence)); [apply reachable_run|].
  apply list_elem_of_singleton. reflexivity.
Defined.

(** a revoked grant stays revoked.  Once the fence is replaced (or a
    [Stop] or a new prompt resets the epoch) no effect accepted before is ever
    accepted again, whatever calls follow; the caller may hold it across an
    await without risk of applying it to a later wait. *)
Theorem revoked_effect_never_accepted r e i ins :
  reachable r → accepts r e = true →
  (∃ f, i = Invalidate f)
  ∨ (∃ event tool now, i = Hook event tool now ∧ (event = Stop ∨ event = UserPromptSubmit)) →
  accepts (run r (i :: ins)).1 e = false.
Proof.
  intros Hr Ha Hrev. destruct (good_reachable r Hr) as [H Hi].
  pose proof (good_accepts 0 r e (conj H Hi) Ha) as Hc.
  set (b := next_candidate r) in *.
  assert (Hb : 0 <= b) by apply (inv_next _ _ _ _ _ _ _ _ _ H).
  assert (G : Good b (call r i).1).
  { destruct Hrev as [[f ->]|(event & tool & now & -> & He)]; simpl.
    - by apply good_invalidate.
    - assert (E : ∃ r1, (hook event tool now r).1 = reset r1 ∧ next_candidate r1 = b ∧ Inv 0 r1).
      { unfold hook. eexists. split; [by destruct He as [-> | ->]|].
        destruct (is_some _); split; try done. by apply inv_lock. }
      destruct E as (r1 & -> & Hb1 & H1). change (reset r1) with (invalidate (fence r1) r1).
      apply good_invalidate; [lia|done]. }
  rewrite run_cons. apply (revoked_forever (G:=approval_gate) b (call r i).1 ins e); [by split|].
  destruct e; simpl; lia.
Qed.

(** The reducer after the show of [serial_run] was granted. *)
Definition granted_state : ApprovalReducer := (run (new no_fence) (take 5 serial_run)).1.
Lemma revoked_effect_never_accepted_witness :
  accepts granted_state (ShowWait 1 no_fence) = true
  ∧ accepts (run granted_state (Hook UserPromptSubmit None 0 :: serial_run)).1 (ShowWait 1 no_fence)
    = false.
Proof.
  split; [reflexivity|].
  apply (revoked_effect_never_accepted granted_state (ShowWait 1 no_fence)
           (Hook UserPromptSubmit None 0) serial_run); [apply reachable_run|reflexivity|].
  right. exists UserPromptSubmit, None, 0. auto.
Defined.

Lemma advance_clock_eq now r :
  advance_clock now r =
    (if is_none_or (clock r) (λ last, last <=? now) then (set_clock (Some now) r, true)
     else (set_observation None (lock r), false)).
Proof.
  unfold advance_clock. destruct (clock r) as [last|]; simpl; [|done].
  rewrite Z.leb_antisym. by destruct (now <? last).
Qed.

(** An overdue wait that no fresh [Active] hides is granted, and the
    acknowledgement of the grant shows it. *)
Lemma overdue_display b w now r f :
  Inv b r → wait r = Some w → shown w = false → GRACE <= now - received_at w → fence r = f →
  negb (locked r) && is_some_and (observation r)
    (λ o, (status o == Active) && observation_is_fresh (started_at o) now) = false →
  ∃ r', match pending_clear r with
        | Some effect => issue effect r | None => display_due now r end
      = (r', [ShowWait (wait_candidate w) f])
    ∧ (acknowledge_show (ShowWait (wait_candidate w) f) r').2 = true
    ∧ wait (acknowledge_show (ShowWait (wait_candidate w) f) r').1
      = Some (mkWait (wait_candidate w) (received_at w) true).
Proof.
  intros H Ew Es Hage <- Hact. destruct (pending_clear r) as [e|] eqn:Ep.
  { destruct (inv_pc _ _ _ _ _ _ _ _ _ H e Ep) as (w0 & E & ? & _). congruence. }
  unfold display_due. rewrite Ew, Es, Hact. simpl. unfold checked_duration_since.
  unfold GRACE in *. rewrite (proj2 (Z.leb_le (received_at w) now)) by lia. simpl.
  rewrite (proj2 (Z.leb_le _ _)) by lia. simpl. eexists. split; [done|].
  unfold acknowledge_show, accepts. simpl. rewrite !eqb_refl. simpl.
  change (wait (set_issued _ r)) with (wait r). rewrite Ew. simpl. by rewrite Z.eqb_refl.
Qed.

(** no permission wait is hidden for ever.  When a wait is [GRACE] old and
    has not been shown, a [tick] grants exactly its show, and acknowledging
    that show marks the wait shown; the one exception is an unlocked epoch
    whose current observation is a fresh [Active]. *)
Theorem overdue_wait_is_offered r w now :
  reachable r → wait r = Some w → shown w = false → GRACE <= now - received_at w →
  (locked r = false ∧ is_none_or (clock r) (λ last, last <=? now) = true
   ∧ is_some_and (observation r)
       (λ o, (status o == Active) && observation_is_fresh (started_at o) now) = true)
  ∨ ∃ r', tick now r = (r', [ShowWait (wait_candidate w) (fence r)])
      ∧ (acknowledge_show (ShowWait (wait_candidate w) (fence r)) r').2 = true
      ∧ wait (acknowledge_show (ShowWait (wait_candidate w) (fence r)) r').1
        = Some (mkWait (wait_candidate w) (received_at w) true).
Proof.
  intros Hr Ew Es Hage. destruct (good_reachable r Hr) as [H _].
  unfold tick. rewrite advance_clock_eq. destruct (is_none_or _ _) eqn:Eord; cbv beta iota zeta.
  - destruct (is_some (wait (set_clock (Some now) r)) && _).
    + right. destruct (locked _); by apply (overdue_display 0 w); [apply inv_lock in H|..].
    + destruct (locked r) eqn:L, (is_some_and (observation r) _) eqn:E; try (by auto); right;
        apply (overdue_display 0 w); simpl; rewrite ?L, ?E; auto.
  - right. change (is_some (wait (set_issued None (set_observation None (lock r)))))
      with (is_some (wait r)). rewrite Ew. simpl.
    apply inv_lock, inv_lock in H.
    by apply (overdue_display 0 w now (lock (set_issued None (set_observation None (lock r))))).
Qed.

(** The reducer with a wait that is pending and not yet granted. *)
Definition waiting_state : ApprovalReducer := (run (new no_fence) (take 4 serial_run)).1.
Lemma overdue_wait_is_offered_witness :
  ∃ r', tick (3 * second) waiting_state = (r', [ShowWait 1 no_fence])
    ∧ (acknowledge_show (ShowWait 1 no_fence) r').2 = true
    ∧ wait (acknowledge_show (ShowWait 1 no_fence) r').1 = Some (mkWait 1 0 true).
Proof.
  destruct (overdue_wait_is_offered waiting_state (mkWait 1 0 false) (3 * second))
    as [(Hl & _ & Ho)|Hr]; [apply reachable_run|reflexivity..|vm_compute; discriminate| |].
  - vm_compute in Ho. discriminate.
  - exact Hr.
Defined.

(** completion clears the wait.  In an unlocked epoch whose wait was shown
    and whose native observation is fresh, the [PostToolUse] of the one live
    candidate's tool grants exactly the clear of that wait, and acknowledging it
    removes the wait. *)
Theorem completion_clears_wait r id i rec c w now :
  reachable r → locked r = false → pending_clear r = None → wait r = Some w → shown w = true →
  is_none_or (clock r) (λ last, last <=? now) = true → fresh_now r now = true →
  id ≠ "" → find id r = Some i → records r !! i = Some rec → completed rec = false →
  candidate rec = Some c → eligible c = true → retired c = false →
  let e := ClearWait (candidate_id c) (fence r) in
  ∃ r', hook PostToolUse (Some id) now r = (r', [e])
    ∧ (acknowledge_clear e r').2 = true ∧ wait (acknowledge_clear e r').1 = None.
Proof.
  intros Hr L Hp Ew Es Hord Hf Hid Hfind Hrec Hc Hcand He Hre e.
  destruct (good_reachable r Hr) as [H _].
  assert (Ei : wait_candidate w = candidate_id c).
  { assert (Hat : cand_at (records r) i = Some c) by (unfold cand_at; by rewrite Hrec).
    destruct (inv_elig _ _ _ _ _ _ _ _ _ H i c Hat He Hre) as (w0 & E0 & ?). congruence. }
  unfold hook. simpl. rewrite Hp. simpl. rewrite advance_clock_eq. simpl. rewrite Hord.
  set (r1 := set_clock (Some now) (set_issued None r)). cbv zeta iota.
  change (fresh_now r1 now) with (fresh_now r now). rewrite Hf, andb_false_r.
  unfold post. assert (Hn : nonempty id = true) by (unfold nonempty; by rewrite neqb_true).
  unfold opt_filter. rewrite Hn. change (find id r1) with (find id r). rewrite Hfind.
  unfold at_index, is_some_and. change (records r1) with (records r). rewrite Hrec, Hc. simpl.
  rewrite list_lookup_alter_eq, Hrec. simpl. rewrite Hcand. simpl.
  unfold retire. simpl. rewrite list_lookup_alter_eq, Hrec. simpl. rewrite Hcand. simpl.
  rewrite Hre, L, He. simpl. rewrite Ew. simpl.
  rewrite (proj2 (neqb_false _ _) Ei), Es. simpl. rewrite Ei.
  eexists. split; [done|]. unfold acknowledge_clear, accepts. simpl. by rewrite !eqb_refl.
Qed.

Definition shown_record : ToolRecord :=
  mkRecord (Some "t") true false (Some (mkCandidate 1 true true false)).
Lemma completion_clears_wait_witness :
  ∃ r', hook PostToolUse (Some "t") (2 * second + 7) shown_state = (r', [ClearWait 1 no_fence])
    ∧ (acknowledge_clear (ClearWait 1 no_fence) r').2 = true
    ∧ wait (acknowledge_clear (ClearWait 1 no_fence) r').1 = None.
Proof.
  apply (completion_clears_wait shown_state "t" 0 shown_record (mkCandidate 1 true true false)
           (mkWait 1 0 true)); [apply reachable_run| |..]; try reflexivity. discriminate.
Defined.

(** bounds and serial attribution.  In every reachable state at most 64
    tool records are held, the candidate counter fits a [u64] and bounds every
    candidate, candidates are pairwise distinct, and at most one candidate is
    live (eligible and not retired): the one [serial_candidate] finds, and the
    wait is its wait. *)
Theorem reducer_bounded_and_serial r :
  reachable r →
  (length (records r) <= MAX_RECORDS)%nat ∧ is_u64 (next_candidate r)
  ∧ (∀ i c, cand_at (records r) i = Some c → 0 < candidate_id c <= next_candidate r)
  ∧ (∀ i j c d, cand_at (records r) i = Some c → cand_at (records r) j = Some d →
       candidate_id c = candidate_id d → i = j)
  ∧ (∀ i c, cand_at (records r) i = Some c → eligible c = true → retired c = false →
       serial_candidate r = Some i
       ∧ ∃ w, wait r = Some w ∧ wait_candidate w = candidate_id c).
Proof.
  intros Hr. destruct (good_reachable r Hr) as [[Hlen Hlat Hlk Hids Huq Hw Hel Hpc Hpe Hn Hex] _].
  split; [done|]. split; [unfold in_width; lia|]. split; [done|]. split; [done|].
  intros i c Hi He Hre. split; [|by apply (Hel i)].
  unfold serial_candidate. destruct (locked r) eqn:L.
  { destruct (Hlk eq_refl) as [_ Hl]. rewrite (Hl i c) in *; done. }
  assert (Hlive : ∀ j rec, records r !! j = Some rec →
    is_some_and (candidate rec) (λ c, eligible c && negb (retired c)) = true → j = i).
  { intros j rec Hj (d & Hd & [He' Hre'%negb_true_iff]%andb_true_iff)%is_some_and_true.
    assert (Hat : cand_at (records r) j = Some d) by (unfold cand_at; by rewrite Hj).
    destruct (Hel j d Hat He' Hre') as (w1 & E1 & I1), (Hel i c) as (w2 & E2 & I2); [done..|].
    apply (Huq j i d c); [done..|congruence]. }
  apply position_Some. unfold cand_at in *. destruct (records r !! i) as [rec|] eqn:Erec; [|done].
  simpl in *. exists rec. split; [done|]. split.
  - rewrite Hi. simpl. by rewrite He, Hre.
  - intros j rec' Hj Hrec'. destruct (is_some_and _ _) eqn:E; [|done].
    specialize (Hlive j rec' Hrec' E). lia.
Qed.

Lemma reducer_bounded_and_serial_witness :
  serial_candidate waiting_state = Some O
  ∧ ∃ w, wait waiting_state = Some w ∧ wait_candidate w = 1.
Proof.
  destruct (reducer_bounded_and_serial waiting_state) as (_ & _ & _ & _ & H).
  - apply reachable_run.
  - apply (H O (mkCandidate 1 true true false)); reflexivity.
Defined.
