(* ===== verification/TerminalStatus.v ===== *)
(** * Codex status from terminal output

    [runtime/codex_terminal_status.rs]: [Reader] finds the [OSC 7501] reports in
    the terminal output, however it is chunked; [classify] reads one report's
    fields. *)
From S2P Require Export Utf8.

Inductive Status : Type := Working | Blocked | Idle | Failed | Unknown.
#[export] Instance Status_eq_dec : EqDecision Status.
Proof. solve_decision. Defined.

Inductive Mode : Type := Text | Escape | Osc | Skip.
#[export] Instance Mode_eq_dec : EqDecision Mode.
Proof. solve_decision. Defined.

Record Reader : Type := mkReader {
  mode : Mode;
  payload : list Z;
  escaped : bool;
}.
Definition default_reader : Reader := mkReader Text [] false.

(** ** Reading one report *)

Definition key_state : list Z := Eval compute in bytes_of "state".
Definition key_app : list Z := Eval compute in bytes_of "app".
Definition key_kind : list Z := Eval compute in bytes_of "kind".
Definition osc_code : list Z := Eval compute in bytes_of "7501;".
Definition state_clear : list Z := Eval compute in bytes_of "state=clear".
Definition colon : Z := 58.
Definition equals : Z := 61.

(** The three slots of [classify]. *)
Record Slots : Type := mkSlots {
  slot_state : option (list Z);
  slot_app : option (list Z);
  slot_kind : option (list Z);
}.

(** One turn of the loop over the fields: [None] is [return None]. *)
Definition classify_field (slots : Slots) (field : list Z) : option Slots :=
  '(key, value) ← split_once equals field;
  let '(mkSlots state app kind) := slots in
  if key == key_state then
    if is_some state then None else Some (mkSlots (Some value) app kind)
  else if key == key_app then
    if is_some app then None else Some (mkSlots state (Some value) kind)
  else if key == key_kind then
    if is_some kind then None else Some (mkSlots state app (Some value))
  else None.

Fixpoint classify_fields (slots : Slots) (fields : list (list Z)) : option Slots :=
  match fields with
  | [] => Some slots
  | field :: fields => slots ← classify_field slots field; classify_fields slots fields
  end.

Definition is_blocked_kind (kind : option (list Z)) : bool :=
  is_some_and kind (λ k, (k == bytes_of "permission") || (k == bytes_of "question")
    || (k == bytes_of "auth")).

(** The decision after the loop. *)
Definition decide_status (slots : Slots) : option Status :=
  let '(mkSlots state app kind) := slots in
  if app != Some (bytes_of "codex") then None
  else if state == Some (bytes_of "blocked") then
    Some (if is_blocked_kind kind then Blocked else Unknown)
  else if is_some kind then None
  else
    state ← state;
    Some (if state == bytes_of "working" then Working
          else if (state == bytes_of "idle") || (state == bytes_of "done") then Idle
          else if state == bytes_of "error" then Failed
          else Unknown).

Definition classify (payload : list Z) : option Status :=
  match from_utf8 payload with
  | Utf8Ok _ =>
      payload ← strip_prefix osc_code payload;
      if payload == state_clear then Some Unknown
      else
        slots ← classify_fields (mkSlots None None None) (split colon payload);
        decide_status slots
  | _ => None
  end.

(** ** The reader *)

(** The arm for [Osc] and [Skip]. *)
Definition feed_string (r : Reader) (byte : Z) : Reader * list Status :=
  let '(mkReader mode payload escaped) := r in
  if (byte =? 7) || (escaped && (byte =? 92)) then
    (mkReader Text payload false, if mode == Osc then option_list (classify payload) else [])
  else
    let mode := if escaped then Skip else mode in
    if byte =? 0x1b then (mkReader mode payload true, [])
    else if mode == Osc then
      if (length payload =? 256)%nat then (mkReader Skip [] false, [])
      else (mkReader Osc (payload ++ [byte]) false, [])
    else (mkReader mode payload false, []).

Definition feed_byte (r : Reader) (byte : Z) : Reader * list Status :=
  match mode r with
  | Text => (mkReader (if byte =? 0x1b then Escape else Text) (payload r) (escaped r), [])
  | Escape =>
      if byte =? 93 then (mkReader Osc [] false, [])
      else if (byte =? 80) || (byte =? 88) || (byte =? 94) || (byte =? 95)
      then (mkReader Skip (payload r) false, [])
      else (mkReader (if byte =? 0x1b then Escape else Text) (payload r) (escaped r), [])
  | Osc | Skip => feed_string r byte
  end.

Fixpoint feed (r : Reader) (bytes : list Z) : Reader * list Status :=
  match bytes with
  | [] => (r, [])
  | byte :: bytes =>
      let '(r, out) := feed_byte r byte in
      let '(r, outs) := feed r bytes in (r, out ++ outs)
  end.

(** The reader fed chunk by chunk, as the terminal reader thread does. *)
#[export] Instance reader_machine : Machine Reader (list Z) (list Status) := {
  initial r := r = default_reader;
  step := feed;
}.

Example manual_report :
  (feed default_reader ([27] ++ bytes_of "]7501;state=idle:app=codex" ++ [27; 92]
    ++ bytes_of "x" ++ [27] ++ bytes_of "]7501;state=blocked:app=codex:kind=permission" ++ [7])).2
  = [Idle; Blocked].
Proof. vm_compute. reflexivity. Qed.

(** ** Lemmas *)

Lemma feed_app r a b :
  feed r (a ++ b) =
    let '(r1, oa) := feed r a in let '(r2, ob) := feed r1 b in (r2, oa ++ ob).
Proof.
  revert r. induction a as [|x a IH]; intros r; simpl; [by destruct (feed r b)|].
  destruct (feed_byte r x) as [r1 o]. rewrite IH. destruct (feed r1 a) as [r2 oa].
  destruct (feed r2 b) as [r3 ob]. by rewrite app_assoc.
Qed.

(** Inside an [OSC], ordinary bytes accumulate until there are 256. *)
Lemma feed_osc p bytes :
  Forall (λ b, b ≠ 7 ∧ b ≠ 27) bytes → (length p <= 256)%nat →
  feed (mkReader Osc p false) bytes =
    (if (length p + length bytes <=? 256)%nat then mkReader Osc (p ++ bytes) false
     else mkReader Skip [] false, []).
Proof.
  intros Hb. revert p. induction Hb as [|b bytes [H7 H27] Hb IH]; intros p Hp; simpl.
  { rewrite Nat.add_0_r, (proj2 (Nat.leb_le _ _) Hp), app_nil_r. done. }
  assert (Hskip : feed (mkReader Skip [] false) bytes = (mkReader Skip [] false, [])).
  { clear -Hb. induction Hb as [|b bytes [H7 H27] Hb IH]; simpl; [done|].
    unfold feed_byte, feed_string. simpl. rewrite (proj2 (Z.eqb_neq b 7)) by done.
    rewrite (proj2 (Z.eqb_neq b 27)) by done. simpl. by rewrite IH. }
  unfold feed_byte, feed_string. simpl. rewrite (proj2 (Z.eqb_neq b 7)) by done.
  rewrite (proj2 (Z.eqb_neq b 27)) by done. simpl.
  destruct (length p =? 256)%nat eqn:E.
  - apply Nat.eqb_eq in E. rewrite Hskip. rewrite (proj2 (Nat.leb_gt _ _)) by lia. done.
  - apply Nat.eqb_neq in E. rewrite IH by (rewrite length_app; simpl; lia).
    rewrite length_app, <- app_assoc. simpl.
    by replace (length p + 1 + length bytes)%nat with (length p + S (length bytes))%nat by lia.
Qed.

Lemma payload_bound_byte r b :
  (length (payload r) <= 256)%nat → (length (payload (feed_byte r b).1) <= 256)%nat.
Proof.
  intros H. unfold feed_byte, feed_string. destruct r as [m p e]. simpl in *.
  repeat case_match; simplify_eq/=; try lia.
  all: rewrite length_app; simpl; to_prop.
  all: match goal with H : (_ =? _)%nat = false |- _ => apply Nat.eqb_neq in H end; lia.
Qed.

(** ** The fields as a map *)

Abbreviation field_map := (gmap (list Z) (list Z)).
Definition known_keys : list (list Z) := [key_state; key_app; key_kind].
Definition render_field (f : list Z * list Z) : list Z := f.1 ++ equals :: f.2.
Definition field_ok (f : list Z * list Z) : Prop := (equals ∉ f.1) ∧ (colon ∉ f.1) ∧ (colon ∉ f.2).
#[export] Instance field_ok_dec f : Decision (field_ok f).
Proof. unfold field_ok. apply _. Defined.
Definition slots_of (m : field_map) : Slots :=
  mkSlots (m !! key_state) (m !! key_app) (m !! key_kind).

Lemma classify_field_spec (m : field_map) f : field_ok f →
  classify_field (slots_of m) (render_field f) =
    if decide (f.1 ∈ known_keys ∧ m !! f.1 = None) then Some (slots_of (<[f.1 := f.2]> m)) else None.
Proof.
  intros (He & _). destruct f as [k v]. unfold classify_field, render_field, slots_of. simpl in *.
  rewrite split_once_app by done. simpl.
  destruct (k == key_state) eqn:E1; [apply eqb_elim in E1 as ->|].
  { destruct (m !! key_state) eqn:E; cbn [is_some].
    - rewrite decide_False; [done|]. intros [_ ?]. congruence.
    - rewrite decide_True; [|split; [set_solver|done]].
      by rewrite lookup_insert_eq, !lookup_insert_ne. }
  destruct (k == key_app) eqn:E2; [apply eqb_elim in E2 as ->|].
  { destruct (m !! key_app) eqn:E; cbn [is_some].
    - rewrite decide_False; [done|]. intros [_ ?]. congruence.
    - rewrite decide_True; [|split; [set_solver|done]].
      by rewrite lookup_insert_eq, !lookup_insert_ne. }
  destruct (k == key_kind) eqn:E3; [apply eqb_elim in E3 as ->|].
  { destruct (m !! key_kind) eqn:E; cbn [is_some].
    - rewrite decide_False; [done|]. intros [_ ?]. congruence.
    - rewrite decide_True; [|split; [set_solver|done]].
      by rewrite lookup_insert_eq, !lookup_insert_ne. }
  rewrite eqb_false in E1, E2, E3. rewrite decide_False; [done|]. unfold known_keys.
  set_solver.
Qed.

(** The loop accepts the fields exactly when their keys are known and distinct,
    and then holds the map of the fields. *)
Lemma classify_fields_spec (m : field_map) fs : Forall field_ok fs →
  classify_fields (slots_of m) (render_field <$> fs) =
    if decide (NoDup fs.*1 ∧ Forall (λ k, k ∈ known_keys ∧ m !! k = None) fs.*1)
    then Some (slots_of (list_to_map fs ∪ m)) else None.
Proof.
  intros Hfs. revert m. induction Hfs as [|[k v] fs Hf Hfs IH]; intros m.
  { rewrite decide_True by (split; constructor). simpl. by rewrite (left_id_L ∅ (∪)). }
  rewrite !fmap_cons. cbn [classify_fields fst]. rewrite classify_field_spec by done.
  cbn [fst snd]. case_decide as Hk; cbn [mbind option_bind].
  2: { rewrite decide_False; [done|]. intros [_ [? _]%Forall_cons]. done. }
  rewrite IH. clear IH. destruct Hk as [Hk Hm].
  assert (Hiff : (NoDup fs.*1 ∧ Forall (λ k', k' ∈ known_keys ∧ <[k:=v]> m !! k' = None) fs.*1)
    ↔ NoDup (k :: fs.*1) ∧ Forall (λ k', k' ∈ known_keys ∧ m !! k' = None) (k :: fs.*1)).
  { rewrite NoDup_cons, Forall_cons, !Forall_forall. split.
    - intros [Hnd Hall]. split; [split; [|done]|split; [done|]].
      + intros Hin. destruct (Hall k Hin) as [_ Hn]. by rewrite lookup_insert_eq in Hn.
      + intros k' Hin. destruct (Hall k' Hin) as [? Hn].
        by apply lookup_insert_None in Hn as [? _].
    - intros [[Hin Hnd] [_ Hall]]. split; [done|]. intros k' Hk'. destruct (Hall k' Hk').
      split; [done|]. rewrite lookup_insert_ne; [done|]. by intros ->. }
  destruct (decide (NoDup fs.*1 ∧ _)) as [H1|H1]; symmetry;
    [rewrite decide_True by by apply Hiff | by rewrite decide_False by by intros ?%Hiff].
  f_equal. f_equal. apply map_eq. intros i. simpl. rewrite <- insert_union_l.
  destruct (decide (i = k)) as [->|Hi].
  - apply Hiff in H1 as [[Hin _]%NoDup_cons _].
    by rewrite lookup_union, !lookup_insert_eq, not_elem_of_list_to_map_1.
  - by rewrite lookup_union, !lookup_insert_ne, lookup_union.
Qed.

(** ** Properties *)

(** reports are framed by the terminal's rules.  From any state outside a
    sequence, an [OSC] whose body holds neither [BEL] nor [ESC], ended by [BEL]
    or by [ESC \\], yields exactly the classification of the body (nothing when
    the body is longer than 256 bytes) and leaves the reader outside a sequence,
    ready for the next report; text around it yields nothing. *)
Theorem osc_report_framed r text body terminator :
  mode r = Text → Forall (λ b, b ≠ 27) text → Forall (λ b, b ≠ 7 ∧ b ≠ 27) body →
  terminator = [7] ∨ terminator = [27; 92] →
  (feed r (text ++ [27; 93] ++ body ++ terminator)).2
    = (if (length body <=? 256)%nat then option_list (classify body) else [])
  ∧ mode (feed r (text ++ [27; 93] ++ body ++ terminator)).1 = Text.
Proof.
  intros Hm Ht Hb Hterm.
  assert (Htext : feed r text = (r, [])).
  { clear -Hm Ht. destruct r as [m p e]. simpl in Hm. subst m.
    induction Ht as [|b text Hb Ht IH]; simpl; [done|]. unfold feed_byte. simpl.
    rewrite (proj2 (Z.eqb_neq b 27)) by done. simpl. by rewrite IH. }
  rewrite feed_app, Htext, feed_app. simpl. unfold feed_byte. rewrite Hm. simpl.
  rewrite feed_app, feed_osc by (simpl; auto; lia).
  change (length (@nil Z) + length body)%nat with (length body). simpl.
  destruct (length body <=? 256)%nat.
  - destruct Hterm as [-> | ->]; simpl; unfold feed_byte, feed_string; simpl;
      by rewrite app_nil_r.
  - by destruct Hterm as [-> | ->].
Qed.

Lemma osc_report_framed_witness :
  (feed default_reader (bytes_of "hi" ++ [27; 93] ++ bytes_of "7501;state=error:app=codex" ++ [7])).2
    = [Failed]
  ∧ mode (feed default_reader
      (bytes_of "hi" ++ [27; 93] ++ bytes_of "7501;state=error:app=codex" ++ [7])).1 = Text.
Proof.
  apply (osc_report_framed default_reader (bytes_of "hi") (bytes_of "7501;state=error:app=codex") [7]).
  - reflexivity.
  - repeat constructor; discriminate.
  - repeat constructor; discriminate.
  - by left.
Defined.

(** Chunking is invisible.  However the output is cut into chunks, the
    reader ends in the same state and reports the same statuses in the same
    order as for the output in one piece, and it never holds more than 256
    payload bytes. *)
Theorem chunking_invisible chunks :
  (run default_reader chunks).1 = (feed default_reader (mjoin chunks)).1
  ∧ mjoin (run default_reader chunks).2 = (feed default_reader (mjoin chunks)).2
  ∧ (length (payload (run default_reader chunks).1) <= 256)%nat.
Proof.
  assert (H : ∀ r, (run r chunks).1 = (feed r (mjoin chunks)).1
    ∧ mjoin (run r chunks).2 = (feed r (mjoin chunks)).2).
  { induction chunks as [|c chunks IH]; intros r; simpl; [done|].
    rewrite feed_app. destruct (feed r c) as [r1 o]. destruct (IH r1) as [IH1 IH2].
    destruct (run r1 chunks), (feed r1 (mjoin chunks)). simpl in *. split; [done|congruence]. }
  destruct (H default_reader) as [H1 H2]. split; [done|]. split; [done|]. rewrite H1.
  generalize (mjoin chunks). intros bytes.
  enough (Hg : ∀ r, (length (payload r) <= 256)%nat → (length (payload (feed r bytes).1) <= 256)%nat)
    by (apply Hg; simpl; lia).
  induction bytes as [|b bytes IH]; intros r Hr; simpl; [done|].
  pose proof (payload_bound_byte r b Hr) as Hb. destruct (feed_byte r b) as [r1 o].
  specialize (IH r1 Hb). by destruct (feed r1 bytes).
Qed.

(** a report is read as an unordered record.  For a valid UTF-8 report of
    [key=value] fields other than the clear report, the keys must be known and
    pairwise distinct, and the status then depends only on the map from keys to
    values (so not on the order of the fields); otherwise the report is ignored. *)
Theorem classify_reads_map fs :
  fs ≠ [] → Forall field_ok fs → fs ≠ [(key_state, bytes_of "clear")] →
  (∃ cs, from_utf8 (osc_code ++ join colon (render_field <$> fs)) = Utf8Ok cs) →
  classify (osc_code ++ join colon (render_field <$> fs)) =
    if decide (NoDup fs.*1 ∧ Forall (λ k, k ∈ known_keys) fs.*1)
    then decide_status (slots_of (list_to_map fs)) else None.
Proof.
  intros Hne Hok Hclear [cs Hu]. unfold classify. rewrite Hu, strip_prefix_app. simpl.
  assert (Hsplit : split colon (join colon (render_field <$> fs)) = render_field <$> fs).
  { apply split_join; [by destruct fs|]. apply Forall_fmap. eapply Forall_impl; [exact Hok|].
    intros [k v] (_ & Hk & Hv). unfold render_field. simpl in *. rewrite elem_of_app.
    intros [?|[[=]|?]%elem_of_cons]; done. }
  destruct (_ == state_clear) eqn:E.
  - exfalso. apply eqb_elim in E. rewrite E in Hsplit.
    change (split colon state_clear) with [state_clear] in Hsplit.
    destruct fs as [|[k v] [|f fs]]; [done| |discriminate Hsplit].
    rewrite Forall_cons in Hok. destruct Hok as [[He _] _]. injection Hsplit as Hs. assert (Hso : split_once equals state_clear = split_once equals (render_field (k, v)))
      by by f_equal.
    unfold render_field in Hso. rewrite split_once_app in Hso by done. simpl in Hso.
    injection Hso as <- <-. by apply Hclear.
  - rewrite Hsplit. change (mkSlots None None None) with (slots_of ∅).
    rewrite classify_fields_spec by done. rewrite (right_id_L ∅ (∪)).
    assert (Hiff : Forall (λ k, k ∈ known_keys ∧ (∅ : field_map) !! k = None) fs.*1
      ↔ Forall (λ k, k ∈ known_keys) fs.*1) by (rewrite !Forall_forall; set_solver).
    repeat case_decide; simpl; tauto.
Qed.

Definition question_fields : list (list Z * list Z) :=
  [(key_kind, bytes_of "question"); (key_state, bytes_of "blocked"); (key_app, bytes_of "codex")].
Lemma classify_reads_map_witness :
  classify (osc_code ++ join colon (render_field <$> question_fields)) = Some Blocked.
Proof.
  etrans; [apply (classify_reads_map question_fields)|vm_compute; reflexivity].
  - discriminate.
  - apply (bool_decide_unpack (Forall field_ok question_fields)). vm_compute. exact I.
  - discriminate.
  - eexists. vm_compute. reflexivity.
Defined.
