(* ===== verification/CompletionTracker.v ===== *)
(** * Serial completion tracking

    [runtime/codex_completion.rs]: [Tracker] follows one complete ordered hook
    stream and grants a permission wait ([BindWait]) and, when the same
    invocation completes, its clear ([ClearWait]).

    The identity of the [Arc<()>] a tracker is built with is a number; two
    trackers differ in it. *)
From S2P Require Export Utf8.

Inductive Hook : Type := Submitted | Pre | Permission | Post | Stop.
#[export] Instance Hook_eq_dec : EqDecision Hook.
Proof. solve_decision. Defined.

Record Event : Type := mkEvent {
  ev_generation : Z;
  ev_root : list Z;
  ev_turn : list Z;
  sequence : Z;
  observed_micros : Z;
  hook : Hook;
  ev_tool : option (list Z);
  ev_invocation : option (list Z);
}.

Record Candidate : Type := mkCandidate {
  owner : Z;
  cand_epoch : Z;
  cand_invocation : nat;
}.
#[export] Instance Candidate_eq_dec : EqDecision Candidate.
Proof. solve_decision. Defined.

Inductive Effect : Type :=
  | BindWait (c : Candidate)
  | ClearWait (c : Candidate).
#[export] Instance Effect_eq_dec : EqDecision Effect.
Proof. solve_decision. Defined.

Record Invocation : Type := mkInvocation {
  inv_id : list Z;
  inv_tool : list Z;
  inv_completed : bool;
}.

Record Tracker : Type := mkTracker {
  generation : Z;
  identity : Z;
  epoch : option Z;
  root : list Z;
  turn : list Z;
  cursor : option (Z * Z);
  active : bool;
  records : list Invocation;
  pending : option Candidate;
  bound : bool;
  issued : option Effect;
}.

Definition new (generation identity : Z) : Tracker :=
  mkTracker generation identity (Some 0) [] [] None false [] None false None.

Definition bounded (value : list Z) : bool :=
  negb (length value =? 0)%nat && (length value <=? 128)%nat
  && negb (existsb is_control (chars_of value)).

Definition invalidate (t : Tracker) : Tracker :=
  mkTracker (generation t) (identity t) (epoch t ≫= λ epoch, checked_add u64_max epoch 1)
    (root t) (turn t) (cursor t) false (records t) None false None.

Definition set_cursor (c : option (Z * Z)) (t : Tracker) : Tracker :=
  mkTracker (generation t) (identity t) (epoch t) (root t) (turn t) c (active t) (records t)
    (pending t) (bound t) (issued t).
Definition set_records (rs : list Invocation) (t : Tracker) : Tracker :=
  mkTracker (generation t) (identity t) (epoch t) (root t) (turn t) (cursor t) (active t) rs
    (pending t) (bound t) (issued t).
Definition set_wait (p : option Candidate) (b : bool) (i : option Effect) (t : Tracker)
    : Tracker :=
  mkTracker (generation t) (identity t) (epoch t) (root t) (turn t) (cursor t) (active t)
    (records t) p b i.
Definition set_completed (r : Invocation) : Invocation :=
  mkInvocation (inv_id r) (inv_tool r) true.

(** The bound on the invocations of a submission. *)
Definition max_records : nat := 64.

(** [None] for a return with [invalidate]. *)
Definition or_invalidate (t : Tracker) (o : option (Tracker * option Effect))
    : Tracker * option Effect :=
  match o with Some o => o | None => (invalidate t, None) end.

(** The [Pre] arm. *)
Definition event_pre (invocation : option (list Z)) (tool : list Z) (t : Tracker)
    : option (Tracker * option Effect) :=
  id ← invocation;
  if (max_records <=? length (records t))%nat || is_some (pending t)
     || existsb (λ r, negb (inv_completed r) || (inv_id r == id)) (records t)
  then None
  else let t := set_records (records t ++ [mkInvocation id tool false]) t in Some (t, issued t).

(** The [Permission] arm; [given] is whether the event named an invocation. *)
Definition event_permission (given : bool) (invocation : option (list Z)) (tool : list Z)
    (t : Tracker) : option (Tracker * option Effect) :=
  index ← position (λ r, negb (inv_completed r)) (records t);
  record ← records t !! index;
  if is_some (pending t) || (inv_tool record != tool)
     || (given && (invocation != Some (inv_id record)))
  then None
  else
    Some match epoch t with
         | None => (t, None)
         | Some epoch =>
             let candidate := mkCandidate (identity t) epoch index in
             (set_wait (Some candidate) false (Some (BindWait candidate)) t,
              Some (BindWait candidate))
         end.

(** The [Post] arm.  The record is marked before the pending wait is examined,
    as in the source; [invalidate] keeps the records. *)
Definition event_post (invocation : option (list Z)) (tool : list Z) (t : Tracker)
    : Tracker * option Effect :=
  match
    (id ← invocation;
     index ← position (λ r, inv_id r == id) (records t);
     record ← records t !! index;
     if inv_completed record || (inv_tool record != tool) then None else Some index)
  with
  | None => (invalidate t, None)
  | Some index =>
      let t := set_records (alter set_completed index (records t)) t in
      match pending t with
      | None => (t, issued t)
      | Some candidate =>
          if negb (cand_invocation candidate =? index)%nat || negb (bound t)
          then (invalidate t, None)
          else (set_wait (pending t) (bound t) (Some (ClearWait candidate)) t,
                Some (ClearWait candidate))
      end
  end.

(** The body once the stream position is known to be contiguous. *)
Definition event_hook (e : Event) (t : Tracker) : Tracker * option Effect :=
  if negb (active t) then (t, None) else
  match opt_filter bounded (ev_tool e) with
  | None => (invalidate t, None)
  | Some tool =>
      let invocation := opt_filter bounded (ev_invocation e) in
      match hook e with
      | Pre => or_invalidate t (event_pre invocation tool t)
      | Permission => or_invalidate t (event_permission (is_some (ev_invocation e)) invocation tool t)
      | Post => event_post invocation tool t
      | Submitted | Stop => (t, None) (* unreachable: returned before *)
      end
  end.

(** The [Submitted] arm. *)
Definition event_submitted (e : Event) (clean_submission : bool) (t : Tracker) : Tracker :=
  let t := invalidate t in
  if clean_submission && is_some (epoch t) then
    mkTracker (generation t) (identity t) (epoch t) (ev_root e) (ev_turn e) (cursor t) true []
      (pending t) (bound t) (issued t)
  else t.

Definition ordered_after (e : Event) (cursor : option (Z * Z)) : bool :=
  is_none_or cursor (λ '(seq, time), (seq <? sequence e) && (time <? observed_micros e)).
Definition contiguous_after (e : Event) (cursor : option (Z * Z)) : bool :=
  is_some_and cursor (λ '(seq, _), checked_add u64_max seq 1 == Some (sequence e)).

Definition event (e : Event) (clean_submission : bool) (t : Tracker) : Tracker * option Effect :=
  let t := if is_some (issued t) then invalidate t else t in
  if negb (ev_generation e =? generation t) || negb (bounded (ev_root e))
     || negb (bounded (ev_turn e)) then (invalidate t, None)
  else if negb (ordered_after e (cursor t)) then (invalidate t, None)
  else
    let contiguous := contiguous_after e (cursor t) in
    let t := set_cursor (Some (sequence e, observed_micros e)) t in
    if hook e == Submitted then (event_submitted e clean_submission t, None)
    else if (hook e == Stop) || negb contiguous || (ev_root e != root t) || (ev_turn e != turn t)
    then (invalidate t, None)
    else event_hook e t.

Definition accepts (t : Tracker) (effect : Effect) : bool :=
  active t && (issued t == Some effect).

Definition acknowledge_wait (effect : Effect) (t : Tracker) : Tracker * bool :=
  match effect with
  | BindWait _ => if accepts t effect then (set_wait (pending t) true None t, true) else (t, false)
  | ClearWait _ => (t, false)
  end.
Definition acknowledge_clear (effect : Effect) (t : Tracker) : Tracker * bool :=
  match effect with
  | ClearWait _ => if accepts t effect then (set_wait None false None t, true) else (t, false)
  | BindWait _ => (t, false)
  end.

Definition has_baseline (t : Tracker) : bool := active t.

(** ** The machine *)

Inductive Call : Type :=
  | OnEvent (e : Event) (clean_submission : bool)
  | AcknowledgeWait (effect : Effect)
  | AcknowledgeClear (effect : Effect)
  | Invalidate.

Definition call (t : Tracker) (i : Call) : Tracker * option Effect :=
  match i with
  | OnEvent e clean => event e clean t
  | AcknowledgeWait effect => ((acknowledge_wait effect t).1, None)
  | AcknowledgeClear effect => ((acknowledge_clear effect t).1, None)
  | Invalidate => (invalidate t, None)
  end.

#[export] Instance tracker_machine : Machine Tracker Call (option Effect) := {
  initial t := ∃ generation identity, t = new generation identity;
  step := call;
}.

(** ** The invariant *)

Record Inv (t : Tracker) : Prop := {
  inv_len : (length (records t) <= max_records)%nat;
  inv_epoch : ∀ n, epoch t = Some n → 0 <= n <= u64_max;
  inv_active : active t = true → is_some (epoch t) = true;
  inv_inactive : active t = false → pending t = None ∧ bound t = false ∧ issued t = None;
  inv_open : ∀ i r, records t !! i = Some r → inv_completed r = false → S i = length (records t);
  inv_uniq : ∀ i j r s, records t !! i = Some r → records t !! j = Some s → inv_id r = inv_id s →
    i = j;
  inv_pending : ∀ c, pending t = Some c →
    owner c = identity t ∧ epoch t = Some (cand_epoch c)
    ∧ (cand_invocation c < length (records t))%nat;
  inv_issued : ∀ e, issued t = Some e →
    match e with
    | BindWait c => pending t = Some c ∧ bound t = false
    | ClearWait c => pending t = Some c ∧ bound t = true
    end;
}.

Lemma tracker_inv_new g id : Inv (new g id).
Proof. split; simpl; try done; unfold u64_max; lia || (intros n [= <-]; lia). Qed.

Lemma inv_invalidate t : Inv t → Inv (invalidate t).
Proof.
  intros [Hl He Ha Hi Ho Hu Hp Hs]. split; simpl; try done.
  intros n. destruct (epoch t) as [m|]; simpl; [|done]. intros [-> ?]%checked_add_Some.
  specialize (He m eq_refl). lia.
Qed.

Lemma inv_settle t : Inv t →
  Inv (if is_some (issued t) then invalidate t else t)
  ∧ issued (if is_some (issued t) then invalidate t else t) = None.
Proof.
  intros H. destruct (issued t) eqn:E; simpl; [by split; [apply inv_invalidate|]|done].
Qed.

(** The states of a settled event: [issued] is empty. *)
Lemma inv_set_cursor c t : Inv t → Inv (set_cursor c t).
Proof. intros []. by split. Qed.

Lemma inv_or_invalidate t o : Inv t → (∀ o', o = Some o' → Inv o'.1) → Inv (or_invalidate t o).1.
Proof. intros H Ho. destruct o; simpl; [by apply Ho|by apply inv_invalidate]. Qed.

Lemma inv_submitted e clean t : Inv t → Inv (event_submitted e clean t).
Proof.
  intros H%inv_invalidate. unfold event_submitted. destruct (clean && _) eqn:E; [|done].
  apply andb_true_iff in E as [_ E]. destruct H as [Hl He Ha Hi Ho Hu Hp Hs]. split; simpl; try done; lia.
Qed.

Lemma inv_event_pre inv tool t o : Inv t → active t = true →
  event_pre inv tool t = Some o → Inv o.1.
Proof.
  intros H Hact. unfold event_pre. destruct inv as [id|]; cbn [mbind option_bind]; [|done].
  destruct (_ || existsb _ _) eqn:E; [done|]. intros [= <-]. simpl.
  apply orb_false_iff in E as [E Hx]. apply orb_false_iff in E as [Hlen Hpend].
  apply Nat.leb_gt in Hlen. destruct (pending t) eqn:Ep; [done|].
  assert (Hall : ∀ i r, records t !! i = Some r → inv_completed r = true ∧ inv_id r ≠ id).
  { intros i r Hr. apply list_elem_of_lookup_2, list_elem_of_In in Hr.
    destruct (negb (inv_completed r) || (inv_id r == id)) eqn:E1.
    - assert (existsb (λ r, negb (inv_completed r) || (inv_id r == id)) (records t) = true)
        by (apply existsb_exists; eauto). congruence.
    - to_prop. naive_solver. }
  destruct H as [Hl He Ha Hi Ho Hu Hp Hs]. split; simpl; auto.
  - rewrite length_app. simpl. lia.
  - intros i r Hr Hc. rewrite length_app. simpl. apply lookup_app_Some in Hr as [Hr|[Hge Hr]].
    + destruct (Hall i r Hr). congruence.
    + apply list_lookup_singleton_Some in Hr as [? _]. lia.
  - intros i j r s Hr Hj Hid. apply lookup_app_Some in Hr as [Hr|[Hge Hr]];
      apply lookup_app_Some in Hj as [Hj|[Hge' Hj]].
    + by eapply Hu.
    + apply list_lookup_singleton_Some in Hj as [? <-]. destruct (Hall i r Hr). done.
    + apply list_lookup_singleton_Some in Hr as [? <-]. destruct (Hall j s Hj).
      simpl in Hid. congruence.
    + apply list_lookup_singleton_Some in Hr as [? _].
      apply list_lookup_singleton_Some in Hj as [? _]. lia.
  - rewrite Ep. done.
Qed.

Lemma inv_event_permission given inv tool t o : Inv t → active t = true → issued t = None →
  event_permission given inv tool t = Some o → Inv o.1.
Proof.
  intros H Hact Hiss. unfold event_permission. destruct (position _ _) as [i|] eqn:Ei; simpl; [|done].
  apply position_lt in Ei. destruct (records t !! i) as [r|]; simpl; [|done].
  destruct (_ || _) eqn:E; [done|]. apply orb_false_iff in E as [E _].
  apply orb_false_iff in E as [Hpend _]. intros [= <-].
  destruct (epoch t) as [n|] eqn:En; simpl; [|done].
  destruct H as [Hl He Ha Hi Ho Hu Hp Hs]. split; simpl; auto.
  - intros L. congruence.
  - intros c [= <-]. by repeat split.
  - by intros e [= <-].
Qed.

Lemma inv_event_post inv tool t : Inv t → active t = true → issued t = None →
  Inv (event_post inv tool t).1.
Proof.
  intros H Hact Hiss. unfold event_post. destruct (inv ≫= _) as [i|] eqn:E;
    [|by apply inv_invalidate].
  assert (H1 : Inv (set_records (alter set_completed i (records t)) t)).
  { assert (Hlk : ∀ j r, alter set_completed i (records t) !! j = Some r →
      ∃ s, records t !! j = Some s ∧ inv_id s = inv_id r ∧ (inv_completed r = false → inv_completed s = false)).
    { intros j r. destruct (decide (i = j)) as [<-|Hij].
      - rewrite list_lookup_alter_eq. destruct (records t !! i) as [s|]; simpl; [|done].
        intros [= <-]. by exists s.
      - rewrite list_lookup_alter_ne by done. eauto. }
    destruct H as [Hl He Ha Hi Ho Hu Hp Hs]. split; simpl; rewrite ?length_alter; auto.
    - intros j r (s & Hs' & _ & Hc)%Hlk Hr. eauto.
    - intros j k r s (r' & Hr' & <- & _)%Hlk (s' & Hs' & <- & _)%Hlk. by eapply Hu. }
  simpl. destruct (pending t) as [c|] eqn:Ep; [|done].
  destruct (_ || negb (bound t)) eqn:Eb; [by apply inv_invalidate in H1|].
  apply orb_false_iff in Eb as [_ Eb%negb_false_iff].
  destruct H1 as [Hl He Ha Hi Ho Hu Hp Hs]. simpl in *. split; simpl; auto.
  - intros L. congruence.
  - intros d [= <-]. by apply Hp.
  - by intros e [= <-].
Qed.

Lemma inv_event_hook e t : Inv t → issued t = None → Inv (event_hook e t).1.
Proof.
  intros H Hi. unfold event_hook. destruct (active t) eqn:Ha; simpl; [|done].
  destruct (opt_filter bounded (ev_tool e)); [|by apply inv_invalidate].
  destruct (hook e); try done.
  - apply inv_or_invalidate; [done|]. intros o. by apply inv_event_pre.
  - apply inv_or_invalidate; [done|]. intros o. by apply inv_event_permission.
  - by apply inv_event_post.
Qed.

Lemma inv_event e clean t : Inv t → Inv (event e clean t).1.
Proof.
  intros [H Hi]%inv_settle. unfold event. revert H Hi.
  generalize (if is_some (issued t) then invalidate t else t). clear t. intros t H Hi.
  destruct (_ || negb (bounded (ev_turn e))); [by apply inv_invalidate|].
  destruct (negb _); [by apply inv_invalidate|].
  apply (inv_set_cursor (Some (sequence e, observed_micros e))) in H.
  destruct (hook e == Submitted); [by apply inv_submitted|].
  destruct (_ || _); [by apply inv_invalidate|]. by apply inv_event_hook.
Qed.

Lemma inv_acknowledge_wait e t : Inv t → Inv (acknowledge_wait e t).1.
Proof.
  intros H. unfold acknowledge_wait. destruct e; [|done]. destruct (accepts t _) eqn:E; [|done].
  apply andb_true_iff in E as [Ha _]. destruct H as [Hl He Hac Hi Ho Hu Hp Hs].
  split; simpl; auto; [congruence|done].
Qed.
Lemma inv_acknowledge_clear e t : Inv t → Inv (acknowledge_clear e t).1.
Proof.
  intros H. unfold acknowledge_clear. destruct e; [done|]. destruct (accepts t _) eqn:E; [|done].
  destruct H as [Hl He Hac Hi Ho Hu Hp Hs]. by split; simpl; auto.
Qed.

Lemma inv_call t i : Inv t → Inv (call t i).1.
Proof.
  destruct i; simpl; auto using inv_event, inv_acknowledge_wait, inv_acknowledge_clear, inv_invalidate.
Qed.

Lemma inv_reachable t : reachable t → Inv t.
Proof.
  apply invariant_reachable. split; [|apply inv_call]. intros s (g & id & ->). apply tracker_inv_new.
Qed.

(** ** Epochs *)

Definition candidate_of (e : Effect) : Candidate :=
  match e with BindWait c | ClearWait c => c end.

(** A call keeps the identity, and the epoch never decreases; an exhausted
    counter stays exhausted. *)
Definition later (t t' : Tracker) : Prop :=
  identity t' = identity t ∧
  ∀ m, epoch t' = Some m → ∃ n, epoch t = Some n ∧ n <= m.

Lemma later_refl t t' : identity t' = identity t → epoch t' = epoch t → later t t'.
Proof. intros Hi He. split; [done|]. intros m Hm. exists m. split; [congruence|lia]. Qed.
Lemma later_trans a b c : later a b → later b c → later a c.
Proof.
  intros [Hi H] [Hi' H']. split; [congruence|]. intros m Hm.
  destruct (H' m Hm) as (n & Hn & ?), (H n Hn) as (k & Hk & ?). exists k. split; [done|lia].
Qed.
Lemma later_invalidate t : later t (invalidate t).
Proof.
  split; [done|]. simpl. intros m. destruct (epoch t) as [n|]; simpl; [|done].
  intros [-> _]%checked_add_Some. exists n. split; [done|lia].
Qed.
Create HintDb tracker.
#[export] Hint Resolve later_refl later_invalidate : tracker.

Lemma later_event_hook e t : later t (event_hook e t).1.
Proof.
  unfold event_hook. destruct (negb (active t)); [by apply later_refl|].
  destruct (opt_filter bounded (ev_tool e)) as [tool|]; [|apply later_invalidate].
  assert (Hor : ∀ o, (∀ o', o = Some o' → later t o'.1) → later t (or_invalidate t o).1).
  { intros [o|] H; simpl; [by apply H|apply later_invalidate]. }
  destruct (hook e); try by apply later_refl.
  - apply Hor. unfold event_pre. intros o. destruct (opt_filter _ _); cbn [mbind option_bind]; [|done].
    case_match; [done|]. intros [= <-]. by apply later_refl.
  - apply Hor. unfold event_permission. intros o. destruct (position _ _); simpl; [|done].
    destruct (records t !! n); simpl; [|done]. case_match; [done|]. intros [= <-].
    destruct (epoch t) eqn:E; by apply later_refl.
  - unfold event_post. destruct (_ ≫= _); [|apply later_invalidate]. simpl.
    destruct (pending t); [|by apply later_refl]. case_match; [|by apply later_refl].
    change (invalidate (set_records ?r t)) with (set_records r (invalidate t)).
    apply (later_invalidate t).
Qed.

Lemma later_call t i : later t (call t i).1.
Proof.
  destruct i as [e clean|e|e|]; simpl.
  - unfold event. eapply later_trans with (b := if is_some (issued t) then invalidate t else t).
    { case_match; eauto with tracker. }
    generalize (if is_some (issued t) then invalidate t else t). clear t. intros t.
    case_match; [apply later_invalidate|]. case_match; [apply later_invalidate|].
    eapply later_trans with (b := set_cursor (Some (sequence e, observed_micros e)) t);
      [by apply later_refl|].
    case_match; [|case_match; [apply later_invalidate|apply later_event_hook]].
    simpl. unfold event_submitted. case_match; [|apply later_invalidate].
    eapply later_trans; [apply later_invalidate|by apply later_refl].
  - unfold acknowledge_wait. repeat case_match; by apply later_refl.
  - unfold acknowledge_clear. repeat case_match; by apply later_refl.
  - apply later_invalidate.
Qed.

Definition epoch_above (b : Z) (t : Tracker) : Prop :=
  Inv t ∧ ∀ n, epoch t = Some n → b < n.

Lemma epoch_above_step b (t : Tracker) (i : Call) :
  epoch_above b t → epoch_above b (step t i).1.
Proof.
  intros [H Hb]. split; [by apply inv_call|]. intros m Hm.
  destruct (later_call t i) as [_ Hl]. destruct (Hl m Hm) as (n & Hn & ?).
  specialize (Hb n Hn). lia.
Qed.

Lemma accepts_pending t e : Inv t → accepts t e = true →
  pending t = Some (candidate_of e) ∧ owner (candidate_of e) = identity t
  ∧ epoch t = Some (cand_epoch (candidate_of e)).
Proof.
  intros H [_ E%eqb_elim]%andb_true_iff. pose proof (inv_issued _ H e E) as Hs.
  assert (Hp : pending t = Some (candidate_of e)) by by destruct e, Hs.
  split; [done|]. destruct (inv_pending _ H _ Hp) as (? & ? & _). done.
Qed.

Lemma epoch_above_accepts b t e :
  epoch_above b t → accepts t e = true → b < cand_epoch (candidate_of e).
Proof. intros [H Hb] (_ & _ & He)%accepts_pending; [|done]. by apply Hb. Qed.

(** A grant is stamped by its epoch. *)
#[export] Instance tracker_gate : EffectGate Tracker Call (option Effect) Effect := {
  gate_accepts := accepts;
  stamp e := cand_epoch (candidate_of e);
  floor := epoch_above;
  floor_step := epoch_above_step;
  floor_accepts := epoch_above_accepts;
}.

(** ** Properties *)

(** What a tracker holds between two approvals of a submission. *)
Definition settled (t : Tracker) : Prop :=
  active t = true ∧ issued t = None ∧ pending t = None ∧ bound t = false
  ∧ Forall (λ r, inv_completed r = true) (records t).


Definition txt (s : string) : list Z := bytes_of s.
Definition demo_event (h : Hook) (seq : Z) (invocation : option (list Z)) : Event :=
  mkEvent 7 (txt "root") (txt "turn") seq seq h (Some (txt "Bash")) invocation.
Definition demo_candidate : Candidate := mkCandidate 1 1 0.
(** A clean submission, one invocation, its permission. *)
Definition demo_calls : list Call :=
  [OnEvent (demo_event Submitted 1 None) true;
   OnEvent (demo_event Pre 2 (Some (txt "a"))) false;
   OnEvent (demo_event Permission 3 None) false;
   AcknowledgeWait (BindWait demo_candidate)].
Definition demo (n : nat) : Tracker := (run (new 7 1) (take n demo_calls)).1.
Lemma demo_reachable n : reachable (demo n).
Proof. apply run_reachable. constructor. by exists 7, 1. Qed.

(** The stream is where [e] continues it: an acknowledged, active submission of
    the same generation, root and turn, and the next sequence number. *)
Definition continues (t : Tracker) (e : Event) : Prop :=
  issued t = None ∧ active t = true ∧ ev_generation e = generation t
  ∧ ev_root e = root t ∧ ev_turn e = turn t
  ∧ bounded (ev_root e) = true ∧ bounded (ev_turn e) = true
  ∧ ∃ seq time, cursor t = Some (seq, time) ∧ sequence e = seq + 1 ∧ seq + 1 <= u64_max
      ∧ time < observed_micros e.

(** The two cases in which an effect is granted. *)
Inductive Grants (t : Tracker) (e : Event) : Effect → Prop :=
  | grant_bind i r n :
      hook e = Permission → pending t = None → epoch t = Some n →
      records t !! i = Some r → inv_completed r = false → ev_tool e = Some (inv_tool r) →
      bounded (inv_tool r) = true →
      (ev_invocation e = None ∨ ev_invocation e = Some (inv_id r) ∧ bounded (inv_id r) = true) →
      Grants t e (BindWait (mkCandidate (identity t) n i))
  | grant_clear i r c :
      hook e = Post → pending t = Some c → bound t = true → cand_invocation c = i →
      records t !! i = Some r → inv_completed r = false → ev_tool e = Some (inv_tool r) →
      bounded (inv_tool r) = true → ev_invocation e = Some (inv_id r) →
      bounded (inv_id r) = true → Grants t e (ClearWait c).

Lemma position_open t i r : Inv t → records t !! i = Some r → inv_completed r = false →
  position (λ r, negb (inv_completed r)) (records t) = Some i.
Proof.
  intros H Hr Hc. apply position_Some. exists r. split; [done|]. rewrite Hc. split; [done|].
  intros j s Hj Hs. destruct (inv_completed s) eqn:E; [done|].
  pose proof (inv_open _ H i r Hr Hc). pose proof (inv_open _ H j s Hs E). lia.
Qed.
Lemma position_id t i r : Inv t → records t !! i = Some r →
  position (λ s, inv_id s == inv_id r) (records t) = Some i.
Proof.
  intros H Hr. apply position_Some. exists r. split; [done|]. rewrite eqb_refl. split; [done|].
  intros j s Hj Hs. apply eqb_false. intros E. pose proof (inv_uniq _ H j i s r Hs Hr E). lia.
Qed.

Lemma event_permission_grants t e tool eff : Inv t → active t = true → issued t = None →
  hook e = Permission → opt_filter bounded (ev_tool e) = Some tool →
  (or_invalidate t (event_permission (is_some (ev_invocation e))
     (opt_filter bounded (ev_invocation e)) tool t)).2 = Some eff ↔ Grants t e eff.
Proof.
  intros H Ha Hi Hh [Htool Hb]%opt_filter_Some. split.
  - unfold event_permission. destruct (position _ _) as [i|] eqn:Ei; simpl; [|done].
    apply position_Some in Ei as (r & Hr & Hc%negb_true_iff & _). rewrite Hr. simpl.
    destruct (_ || _) eqn:E; [done|]. apply orb_false_iff in E as [[Hp Ht%neqb_elim]%orb_false_iff Hv].
    apply is_some_false in Hp. destruct (epoch t) as [n|] eqn:En; simpl; [|done].
    intros [= <-]. subst tool. eapply grant_bind; try done.
    destruct (ev_invocation e) as [v|]; simpl in *; [right|by left].
    apply neqb_elim in Hv. destruct (bounded v) eqn:Ev; [|done]. by injection Hv as ->.
  - intros G. inversion G as [i r n ? Hp En Hr Hc Ht Hbt Hv|]; [|congruence]. subst eff.
    unfold event_permission. rewrite (position_open t i r) by done. simpl. rewrite Hr. simpl.
    rewrite Hp. simpl. assert (inv_tool r = tool) as -> by congruence. rewrite eqb_refl. simpl.
    rewrite En. destruct Hv as [-> | [-> Hbi]]; simpl; [done|].
    by rewrite Hbi, eqb_refl.
Qed.

Lemma event_post_grants t e tool eff : Inv t → active t = true → issued t = None →
  hook e = Post → opt_filter bounded (ev_tool e) = Some tool →
  (event_post (opt_filter bounded (ev_invocation e)) tool t).2 = Some eff ↔ Grants t e eff.
Proof.
  intros H Ha Hi Hh [Htool Hb]%opt_filter_Some. split.
  - unfold event_post. destruct (opt_filter bounded (ev_invocation e)) as [id|] eqn:Eid; simpl; [|done].
    apply opt_filter_Some in Eid as [Eid Hbi].
    destruct (position _ _) as [i|] eqn:Ei; simpl; [|done].
    apply position_Some in Ei as (r & Hr & Hid%eqb_elim & _). rewrite Hr. simpl.
    destruct (_ || _) eqn:E; [done|]. apply orb_false_iff in E as [Hc Ht%neqb_elim]. simpl.
    destruct (pending t) as [c|] eqn:Hp; [|simpl; congruence].
    destruct (_ || _) eqn:E; [done|].
    apply orb_false_iff in E as [Hci%negb_false_iff%Nat.eqb_eq Hbd%negb_false_iff].
    intros [= <-]. subst. by eapply grant_clear.
  - intros G. inversion G as [|i r c ? Hp Hbd Hci Hr Hc Ht Hbt Hv Hbi]; [congruence|]. subst eff.
    unfold event_post. rewrite Hv. simpl. rewrite Hbi. simpl.
    rewrite (position_id t i r) by done. simpl. rewrite Hr. simpl.
    assert (inv_tool r = tool) as -> by congruence. rewrite Hc, eqb_refl. simpl.
    rewrite Hp, Hci, Nat.eqb_refl, Hbd. done.
Qed.

Lemma event_hook_grants t e eff : Inv t → issued t = None →
  (event_hook e t).2 = Some eff ↔ active t = true ∧ Grants t e eff.
Proof.
  intros H Hi. unfold event_hook. destruct (active t) eqn:Ha; simpl; [|split; [done|by intros [? _]]].
  destruct (opt_filter bounded (ev_tool e)) as [tool|] eqn:Et.
  2: { split; [done|]. intros [_ G]. assert (Hno : ∀ tl, ev_tool e = Some tl → bounded tl = true → False).
       { intros tl Htl Hbt. rewrite Htl in Et. simpl in Et. by rewrite Hbt in Et. }
       destruct G; exfalso; by eapply Hno. }
  destruct (hook e) eqn:Hh.
  - split; [done|]. intros [_ G]. destruct G; congruence.
  - split.
    + unfold event_pre. destruct (opt_filter bounded (ev_invocation e)); [|done].
      cbn [mbind option_bind]. case_match; [done|]. cbn [or_invalidate snd].
      change (issued (set_records ?r t)) with (issued t). congruence.
    + intros [_ G]. destruct G; congruence.
  - rewrite event_permission_grants by done. tauto.
  - rewrite event_post_grants by done. tauto.
  - split; [done|]. intros [_ G]. destruct G; congruence.
Qed.

(** what [event] grants, exactly.  In every reachable state an event yields
    an effect if and only if it continues the stream of an active submission and
    either requests permission for the one open invocation while no wait is
    pending (the effect binds a candidate of this tracker, epoch and invocation),
    or completes the very invocation whose wait was bound and acknowledged (the
    effect clears that candidate).  A gap, a foreign root or turn, an
    unacknowledged effect, or a mismatched tool or invocation grants nothing. *)
Theorem event_grants_exactly t e clean eff :
  reachable t → (event e clean t).2 = Some eff ↔ continues t e ∧ Grants t e eff.
Proof.
  intros Hr%inv_reachable. unfold event. destruct (issued t) as [i|] eqn:Hi; cbn [is_some].
  { split; [|by intros [[? _] _]; congruence].
    repeat (case_match; [done|]). unfold event_hook. done. }
  destruct (_ || negb (bounded (ev_turn e))) eqn:E1.
  { split; [done|]. intros [(_ & _ & Hg & _ & _ & Hb1 & Hb2 & _) _].
    by rewrite Hg, Z.eqb_refl, Hb1, Hb2 in E1. }
  apply orb_false_iff in E1 as [[Hg%negb_false_iff%Z.eqb_eq Hb1%negb_false_iff]%orb_false_iff Hb2%negb_false_iff].
  destruct (ordered_after e (cursor t)) eqn:Eo; simpl.
  2: { split; [done|]. intros [(_&_&_&_&_&_&_&seq&time&Hc&Hs&_&Ht) _].
       unfold ordered_after in Eo. rewrite Hc in Eo. simpl in Eo. apply andb_false_iff in Eo. to_prop. lia. }
  destruct (hook e == Submitted) eqn:Eh.
  { apply eqb_elim in Eh. split; [done|]. intros [_ G]. destruct G; congruence. }
  destruct (_ || (ev_turn e != turn t)) eqn:E2.
  - split; [done|]. intros [(_&_&_&Hroot&Hturn&_&_&seq&time&Hc&Hs&Hmax&_) G]. exfalso.
    unfold contiguous_after in E2. rewrite Hc, Hroot, Hturn, !eqb_refl in E2. simpl in E2.
    rewrite (proj2 (checked_add_Some u64_max seq 1 (seq + 1))), Hs, eqb_refl in E2 by done. simpl in E2.
    assert (hook e ≠ Stop) as Hstop%eqb_false by (destruct G; congruence). by rewrite Hstop in E2.
  - apply orb_false_iff in E2 as [[[Hstop Hc%negb_false_iff]%orb_false_iff Hroot%neqb_elim]%orb_false_iff
      Hturn%neqb_elim].
    rewrite event_hook_grants by (try done; by apply inv_set_cursor). simpl.
    assert (Hcur : ∃ seq time, cursor t = Some (seq, time) ∧ sequence e = seq + 1
      ∧ seq + 1 <= u64_max ∧ time < observed_micros e).
    { unfold contiguous_after, ordered_after in *. destruct (cursor t) as [[seq time]|]; [|done].
      simpl in *. apply eqb_elim, checked_add_Some in Hc as [Hs Hm]. exists seq, time.
      split; [done|]. to_prop. lia. }
    assert (HG : Grants (set_cursor (Some (sequence e, observed_micros e)) t) e eff ↔ Grants t e eff).
    { split; intros [i r n|i r c]; intros.
      - by apply (grant_bind t e i r n).
      - by apply (grant_clear t e i r).
      - by apply (grant_bind (set_cursor _ t) e i r n).
      - by apply (grant_clear (set_cursor _ t) e i r). }
    rewrite HG. unfold continues. tauto.
Qed.

Lemma event_grants_exactly_witness :
  (event (demo_event Post 4 (Some (txt "a"))) false (demo 4)).2 = Some (ClearWait demo_candidate).
Proof.
  apply (event_grants_exactly (demo 4) (demo_event Post 4 (Some (txt "a"))) false
           (ClearWait demo_candidate) (demo_reachable 4)). split.
  - repeat split; try reflexivity. exists 3, 3. repeat split; vm_compute; congruence.
  - by apply (grant_clear _ _ 0 (mkInvocation (txt "a") (txt "Bash") false)).
Defined.

(** The event of a continuing stream reaches the hook. *)
Lemma event_continues t e clean : continues t e → hook e ≠ Submitted → hook e ≠ Stop →
  event e clean t = event_hook e (set_cursor (Some (sequence e, observed_micros e)) t).
Proof.
  intros (Hi&Ha&Hg&Hroot&Hturn&Hb1&Hb2&seq&time&Hc&Hs&Hmax&Ht) H1%eqb_false H2%eqb_false.
  unfold event. rewrite Hi. simpl. rewrite Hg, Z.eqb_refl, Hb1, Hb2. simpl.
  unfold ordered_after, contiguous_after. rewrite Hc. simpl.
  rewrite (proj2 (Z.ltb_lt _ _)), (proj2 (Z.ltb_lt _ _)) by lia. simpl.
  rewrite (proj2 (checked_add_Some u64_max seq 1 (seq + 1))) by lia.
  by rewrite H1, H2, Hs, Hroot, Hturn, !eqb_refl.
Qed.

(** A stream that does not continue loses its baseline. *)
Lemma event_breaks t e clean : ¬ continues t e → (hook e = Submitted → clean = false) →
  active (event e clean t).1 = false ∧ (event e clean t).2 = None.
Proof.
  intros Hn Hcl. unfold event. destruct (issued t) as [i|] eqn:Hi; cbn [is_some].
  { case_match; [done|]. case_match; [done|]. case_match.
    - split; [|done]. unfold event_submitted. by rewrite Hcl by by apply eqb_elim.
    - by case_match. }
  destruct (_ || negb (bounded (ev_turn e))) eqn:E1; [done|].
  apply orb_false_iff in E1 as [[Hg%negb_false_iff%Z.eqb_eq Hb1%negb_false_iff]%orb_false_iff Hb2%negb_false_iff].
  destruct (ordered_after e (cursor t)) eqn:Eo; simpl; [|done].
  destruct (hook e == Submitted) eqn:Eh.
  { split; [|done]. unfold event_submitted. by rewrite Hcl by by apply eqb_elim. }
  destruct (_ || (ev_turn e != turn t)) eqn:E2; [done|].
  apply orb_false_iff in E2 as [[[Hstop Hc%negb_false_iff]%orb_false_iff Hroot%neqb_elim]%orb_false_iff
    Hturn%neqb_elim].
  unfold event_hook. simpl. destruct (active t) eqn:Ha; [|done]. exfalso. apply Hn.
  repeat split; try done. unfold contiguous_after, ordered_after in *.
  destruct (cursor t) as [[seq time]|]; [|done]. simpl in *.
  apply eqb_elim, checked_add_Some in Hc as [Hs Hm]. exists seq, time. split; [done|].
  to_prop. lia.
Qed.

(** a revoked grant stays revoked, and no tracker honours another's.  After
    [invalidate] (or any event that answers an unacknowledged effect) an effect
    accepted before is refused in every later state, although invocation numbers
    start again; and an effect a tracker accepts is refused by every tracker with
    another identity. *)
Theorem revoked_grant_never_accepted t e i ins t' :
  reachable t → accepts t e = true → (i = Invalidate ∨ ∃ ev clean, i = OnEvent ev clean) →
  reachable t' → identity t' ≠ identity t →
  accepts (run t (i :: ins)).1 e = false ∧ accepts t' e = false.
Proof.
  intros H%inv_reachable Ha Hrev H'%inv_reachable Hid.
  destruct (accepts_pending t e H Ha) as (Hp & Ho & He). split.
  2: { destruct (accepts t' e) eqn:Ha'; [|done].
       destruct (accepts_pending t' e H' Ha') as (_ & Ho' & _). congruence. }
  assert (Hf : epoch_above (cand_epoch (candidate_of e)) (call t i).1).
  { split; [by apply inv_call|]. intros m Hm.
    assert (Hl : later (invalidate t) (call t i).1).
    { destruct Hrev as [->|(ev & clean & ->)]; [by apply later_refl|]. simpl.
      assert (Hi : is_some (issued t) = true)
        by (apply andb_true_iff in Ha as [_ ->%eqb_elim]; done).
      assert (Hev : event ev clean t = event ev clean (invalidate t))
        by (unfold event; by rewrite Hi).
      rewrite Hev. apply (later_call (invalidate t) (OnEvent ev clean)). }
    destruct Hl as [_ Hl]. destruct (Hl m Hm) as (n & Hn & ?). simpl in Hn.
    rewrite He in Hn. simpl in Hn. apply checked_add_Some in Hn. lia. }
  rewrite run_cons. apply (revoked_forever (G:=tracker_gate) _ (call t i).1 ins e Hf). simpl. lia.
Qed.

Lemma revoked_grant_never_accepted_witness :
  accepts (demo 3) (BindWait demo_candidate) = true
  ∧ accepts (run (demo 3) (Invalidate :: demo_calls)).1 (BindWait demo_candidate) = false
  ∧ accepts (new 7 2) (BindWait demo_candidate) = false.
Proof.
  split; [reflexivity|].
  apply (revoked_grant_never_accepted (demo 3) (BindWait demo_candidate) Invalidate demo_calls (new 7 2)).
  - apply demo_reachable.
  - reflexivity.
  - by left.
  - constructor. by exists 7, 2.
  - vm_compute. discriminate.
Defined.

(** a broken stream grants nothing until a clean submission.  An event that
    does not continue the stream (a gap, a regression, another root or turn, an
    outstanding effect) takes the baseline away, and from then on no call yields
    an effect and the tracker has no baseline, for as long as no clean submission
    arrives. *)
Theorem broken_stream_grants_nothing t e clean ins :
  let dirty i := match i with OnEvent e clean => hook e = Submitted → clean = false | _ => True end in
  ¬ continues t e → dirty (OnEvent e clean) → Forall dirty ins →
  Forall (λ o, o = None) (run t (OnEvent e clean :: ins)).2
  ∧ has_baseline (run t (OnEvent e clean :: ins)).1 = false.
Proof.
  intros dirty Hn Hd Hds.
  assert (Hrun : ∀ s, active s = false →
    Forall (λ o, o = None) (run s ins).2 ∧ active (run s ins).1 = false).
  { induction Hds as [|i ins Hi _ IH]; intros s Hs; [done|].
    assert (H1 : active (call s i).1 = false ∧ (call s i).2 = None).
    { destruct i as [e' c|e'|e'|]; simpl.
      - apply event_breaks; [|done]. intros (_ & ? & _). congruence.
      - unfold acknowledge_wait. by repeat case_match.
      - unfold acknowledge_clear. by repeat case_match.
      - done. }
    rewrite run_cons. destruct H1 as [H1 H2], (IH _ H1). split; [by constructor|done]. }
  destruct (event_breaks t e clean Hn Hd) as [H1 H2].
  rewrite run_cons. destruct (Hrun _ H1). split; [by constructor|done].
Qed.

Lemma broken_stream_grants_nothing_witness :
  Forall (λ o, o = None) (run (demo 2) [OnEvent (demo_event Permission 4 None) false;
    OnEvent (demo_event Permission 5 None) false]).2
  ∧ has_baseline (run (demo 2) [OnEvent (demo_event Permission 4 None) false;
    OnEvent (demo_event Permission 5 None) false]).1 = false.
Proof.
  apply (broken_stream_grants_nothing (demo 2) (demo_event Permission 4 None) false
    [OnEvent (demo_event Permission 5 None) false]).
  - intros (_&_&_&_&_&_&_&seq&time&Hc&Hs&_). vm_compute in Hc. injection Hc as <- <-. discriminate Hs.
  - discriminate.
  - repeat constructor.
Defined.

Lemma position_snoc {A} (p : A → bool) l x :
  Forall (λ y, p y = false) l → p x = true → position p (l ++ [x]) = Some (length l).
Proof. induction 1 as [|y l Hy _ IH]; intros Hx; simpl; [by rewrite Hx|]. by rewrite Hy, IH. Qed.

Lemma continues_intro t e seq time :
  issued t = None → active t = true →
  ev_generation e = generation t ∧ ev_root e = root t ∧ ev_turn e = turn t →
  bounded (root t) = true → bounded (turn t) = true → cursor t = Some (seq, time) →
  sequence e = seq + 1 → seq + 1 <= u64_max → time < observed_micros e → continues t e.
Proof.
  intros ?? (?&Hr&Hu) ??????. repeat split; rewrite ?Hr, ?Hu; try done. by exists seq, time.
Qed.

(** One lemma per step of the approval. *)
Lemma event_pre_step t e id tool : continues t e → hook e = Pre → ev_tool e = Some tool →
  ev_invocation e = Some id → bounded tool = true → bounded id = true →
  (length (records t) < max_records)%nat → pending t = None →
  Forall (λ r, inv_completed r = true) (records t) → Forall (λ r, inv_id r ≠ id) (records t) →
  event e false t = (set_records (records t ++ [mkInvocation id tool false])
    (set_cursor (Some (sequence e, observed_micros e)) t), None).
Proof.
  intros Hc Hk Ht Hv Hbt Hbi Hlen Hp Hall Hnew. rewrite event_continues by (done || congruence).
  destruct Hc as (Hi & Ha & _).
  unfold event_hook. cbn [active set_cursor]. rewrite Ha, Ht, Hk, Hv. cbn [negb opt_filter].
  rewrite Hbt, Hbi. unfold event_pre. cbn [mbind option_bind records pending set_cursor].
  rewrite (proj2 (Nat.leb_gt _ _)) by done. rewrite Hp. cbn [is_some orb].
  assert (Hx : existsb (λ r, negb (inv_completed r) || (inv_id r == id)) (records t) = false).
  { clear -Hall Hnew. induction (records t) as [|r l IH]; [done|].
    apply Forall_cons in Hall as [Hc Hall]. apply Forall_cons in Hnew as [Hd Hnew].
    apply eqb_false in Hd. simpl. by rewrite Hc, Hd, IH. }
  rewrite Hx. cbn [or_invalidate]. change (issued (set_records ?r ?t)) with (issued t).
  change (issued (set_cursor ?r ?t)) with (issued t). by rewrite Hi.
Qed.

Lemma event_permission_step t e id tool rs n : continues t e → hook e = Permission →
  ev_tool e = Some tool → ev_invocation e = None ∨ ev_invocation e = Some id →
  bounded tool = true → bounded id = true → pending t = None → epoch t = Some n →
  records t = rs ++ [mkInvocation id tool false] → Forall (λ r, inv_completed r = true) rs →
  let c := mkCandidate (identity t) n (length rs) in
  event e false t = (set_wait (Some c) false (Some (BindWait c))
    (set_cursor (Some (sequence e, observed_micros e)) t), Some (BindWait c)).
Proof.
  intros Hc Hk Ht Hv Hbt Hbi Hp Hn Hrs Hall c. rewrite event_continues by (done || congruence).
  destruct Hc as (Hi & Ha & _).
  unfold event_hook. simpl. rewrite Ha, Ht, Hk. simpl. rewrite Hbt. simpl.
  unfold event_permission. cbn [records set_cursor]. rewrite Hrs.
  assert (Hpos : position (λ r, negb (inv_completed r)) (rs ++ [mkInvocation id tool false])
    = Some (length rs)).
  { apply position_snoc; [|done]. eapply Forall_impl; [exact Hall|]. simpl. by intros r ->. }
  rewrite Hpos. cbn [mbind option_bind]. rewrite list_lookup_middle by done.
  cbn [mbind option_bind]. simpl. rewrite Hp, eqb_refl. simpl.
  assert (Hg : is_some (ev_invocation e)
    && (opt_filter bounded (ev_invocation e) != Some id) = false).
  { destruct Hv as [-> | ->]; [done|]. simpl. by rewrite Hbi, eqb_refl. }
  by rewrite Hg, Hn.
Qed.

Lemma event_post_step t e id tool rs c : continues t e → hook e = Post →
  ev_tool e = Some tool → ev_invocation e = Some id →
  bounded tool = true → bounded id = true → pending t = Some c → bound t = true →
  cand_invocation c = length rs →
  records t = rs ++ [mkInvocation id tool false] → Forall (λ r, inv_id r ≠ id) rs →
  event e false t = (set_wait (Some c) true (Some (ClearWait c))
    (set_records (rs ++ [mkInvocation id tool true])
      (set_cursor (Some (sequence e, observed_micros e)) t)), Some (ClearWait c)).
Proof.
  intros Hc Hk Ht Hv Hbt Hbi Hp Hb Hci Hrs Hnew. rewrite event_continues by (done || congruence).
  destruct Hc as (Hi & Ha & _).
  unfold event_hook. simpl. rewrite Ha, Ht, Hk, Hv. simpl. rewrite Hbt, Hbi. simpl.
  unfold event_post. cbn [records set_cursor]. rewrite Hrs.
  assert (Hpos : position (λ r, inv_id r == id) (rs ++ [mkInvocation id tool false])
    = Some (length rs)).
  { apply position_snoc; [|by apply eqb_refl]. eapply Forall_impl; [exact Hnew|]. simpl.
    intros r. by rewrite eqb_false. }
  cbn [mbind option_bind]. rewrite Hpos. cbn [mbind option_bind].
  rewrite list_lookup_middle by done. simpl. rewrite eqb_refl. simpl.
  rewrite Hp, Hci, Nat.eqb_refl, Hb. simpl. rewrite alter_app_r_alt by lia.
  by rewrite Nat.sub_diag.
Qed.

(** a serial approval is carried through.  From a settled state with room
    for an invocation, the contiguous events [Pre], [Permission] and [Post] of a
    new invocation, each effect acknowledged, bind a wait for that invocation and
    clear that same wait, and end settled again with the invocation recorded as
    completed: the next approval can follow. *)
Theorem serial_approval_cycle t e1 e2 e3 id tool n seq time :
  reachable t → settled t → (length (records t) < max_records)%nat →
  Forall (λ r, inv_id r ≠ id) (records t) → epoch t = Some n →
  cursor t = Some (seq, time) → seq + 3 <= u64_max →
  hook e1 = Pre → hook e2 = Permission → hook e3 = Post →
  Forall (λ e, ev_generation e = generation t ∧ ev_root e = root t ∧ ev_turn e = turn t
    ∧ ev_tool e = Some tool) [e1; e2; e3] →
  Forall (λ s, bounded s = true) [root t; turn t; tool; id] →
  ev_invocation e1 = Some id → ev_invocation e2 = None ∨ ev_invocation e2 = Some id →
  ev_invocation e3 = Some id →
  sequence e1 = seq + 1 → sequence e2 = seq + 2 → sequence e3 = seq + 3 →
  time < observed_micros e1 < observed_micros e2 → observed_micros e2 < observed_micros e3 →
  let c := mkCandidate (identity t) n (length (records t)) in
  let r := run t [OnEvent e1 false; OnEvent e2 false; AcknowledgeWait (BindWait c);
                  OnEvent e3 false; AcknowledgeClear (ClearWait c)] in
  r.2 = [None; Some (BindWait c); None; Some (ClearWait c); None]
  ∧ settled r.1 ∧ records r.1 = records t ++ [mkInvocation id tool true].
Proof.
  intros Hr (Ha&Hi&Hp&Hb&Hall) Hlen Hnew Hn Hcur Hmax Hk1 Hk2 Hk3 He Hbd Hv1 Hv2 Hv3 Hs1 Hs2 Hs3
    Ht1 Ht2 c.
  repeat setoid_rewrite Forall_cons in He. destruct He as ((?&?&?&?)&(?&?&?&?)&(?&?&?&?)&_).
  repeat setoid_rewrite Forall_cons in Hbd. destruct Hbd as (Hbr&Hbt&Hbtool&Hbid&_).
  set (t1 := set_records (records t ++ [mkInvocation id tool false])
    (set_cursor (Some (sequence e1, observed_micros e1)) t)).
  assert (S1 : event e1 false t = (t1, None)).
  { apply (event_pre_step t e1 id tool); try done.
    by apply (continues_intro t e1 seq time); auto; lia. }
  set (t2 := set_wait (Some c) false (Some (BindWait c))
    (set_cursor (Some (sequence e2, observed_micros e2)) t1)).
  assert (S2 : event e2 false t1 = (t2, Some (BindWait c))).
  { apply (event_permission_step t1 e2 id tool (records t) n); try done.
    by apply (continues_intro t1 e2 (sequence e1) (observed_micros e1)); auto; lia. }
  set (t3 := set_wait (Some c) true None t2).
  assert (S3 : acknowledge_wait (BindWait c) t2 = (t3, true)).
  { unfold acknowledge_wait, accepts. simpl. by rewrite Ha, eqb_refl. }
  set (t4 := set_wait (Some c) true (Some (ClearWait c))
    (set_records (records t ++ [mkInvocation id tool true])
      (set_cursor (Some (sequence e3, observed_micros e3)) t3))).
  assert (S4 : event e3 false t3 = (t4, Some (ClearWait c))).
  { apply (event_post_step t3 e3 id tool (records t) c); try done.
    by apply (continues_intro t3 e3 (sequence e2) (observed_micros e2)); auto; lia. }
  set (t5 := set_wait None false None t4).
  assert (S5 : acknowledge_clear (ClearWait c) t4 = (t5, true)).
  { unfold acknowledge_clear, accepts. simpl. by rewrite Ha, eqb_refl. }
  cbn [run step tracker_machine call]. rewrite S1. cbn beta iota. rewrite S2. cbn beta iota.
  rewrite S3. cbn beta iota delta [fst]. rewrite S4. cbn beta iota delta [fst]. rewrite S5.
  split; [done|]. split; [|done].
  repeat split; try done. apply Forall_app. split; [done|by repeat constructor].
Qed.

Lemma serial_approval_cycle_witness :
  let r := run (demo 1) [OnEvent (demo_event Pre 2 (Some (txt "a"))) false;
    OnEvent (demo_event Permission 3 None) false; AcknowledgeWait (BindWait demo_candidate);
    OnEvent (demo_event Post 4 (Some (txt "a"))) false;
    AcknowledgeClear (ClearWait demo_candidate)] in
  r.2 = [None; Some (BindWait demo_candidate); None; Some (ClearWait demo_candidate); None]
  ∧ settled r.1 ∧ records r.1 = [mkInvocation (txt "a") (txt "Bash") true].
Proof.
  apply (serial_approval_cycle (demo 1) (demo_event Pre 2 (Some (txt "a")))
    (demo_event Permission 3 None) (demo_event Post 4 (Some (txt "a"))) (txt "a") (txt "Bash") 1 1 1
    (demo_reachable 1)); try reflexivity.
  - repeat split; repeat constructor.
  - apply Nat.ltb_lt. reflexivity.
  - constructor.
  - vm_compute. discriminate.
  - repeat constructor.
  - repeat constructor.
  - by left.
  - split; reflexivity.
Defined.
