(* ===== verification/CapacityState.v ===== *)
(** * The usage-limit state of a session

    [capacity_state.rs]: the latch, the recheck window and the one-shot pending
    check.  The scanner of [observe_with] is an argument, as in the source; the
    retained output is a number of lines and the bytes of the scan buffer. *)
From S2P Require Export Utf8.

Record CapacityState : Type := mkCapacity {
  at_usage_limit_latched : bool;
  analysis_revision : Z;
  analysis_exhausted : bool;
  capacity_check_pending : bool;
  output_lines_seen : Z;
  scan_bytes_seen : Z;
  resume_scan_origin : option (Z * Z);
  pending_capacity_visible_once : bool;
}.

Record CapacityObservation : Type := mkObservation {
  at_usage_limit : bool;
  reset_hint : option (list Z);
  origin_update : option (Z * Z);
  clear_latch : bool;
}.

(** What a scan of a range of lines and of raw bytes finds. *)
Definition Scan : Type := nat * nat → list Z → bool * option (list Z).

Definition default_capacity : CapacityState := mkCapacity false 0 false false 0 0 None false.

Definition set_latched (v : bool) (s : CapacityState) : CapacityState :=
  mkCapacity v (analysis_revision s) (analysis_exhausted s) (capacity_check_pending s)
    (output_lines_seen s) (scan_bytes_seen s) (resume_scan_origin s) (pending_capacity_visible_once s).
Definition set_origin (v : option (Z * Z)) (s : CapacityState) : CapacityState :=
  mkCapacity (at_usage_limit_latched s) (analysis_revision s) (analysis_exhausted s)
    (capacity_check_pending s) (output_lines_seen s) (scan_bytes_seen s) v
    (pending_capacity_visible_once s).
Definition set_check (pending visible : bool) (s : CapacityState) : CapacityState :=
  mkCapacity (at_usage_limit_latched s) (analysis_revision s) (analysis_exhausted s) pending
    (output_lines_seen s) (scan_bytes_seen s) (resume_scan_origin s) visible.

Definition control_revision (s : CapacityState) : option Z :=
  if analysis_exhausted s then None else Some (analysis_revision s).

Definition invalidate_analysis (s : CapacityState) : CapacityState :=
  let '(revision, exhausted) :=
    match checked_add u64_max (analysis_revision s) 1 with
    | Some revision => (revision, analysis_exhausted s)
    | None => (analysis_revision s, true)
    end in
  mkCapacity (at_usage_limit_latched s) revision exhausted (capacity_check_pending s)
    (output_lines_seen s) (scan_bytes_seen s) (resume_scan_origin s) (pending_capacity_visible_once s).

Definition pending (capacity_check_pending : bool) : CapacityState :=
  mkCapacity false 0 false capacity_check_pending 0 0
    (if capacity_check_pending then Some (0, 0) else None) false.

Definition record_output (lines bytes : Z) (s : CapacityState) : CapacityState :=
  mkCapacity (at_usage_limit_latched s) (analysis_revision s) (analysis_exhausted s)
    (capacity_check_pending s) (wrapping_add u64_max (output_lines_seen s) lines)
    (wrapping_add u64_max (scan_bytes_seen s) bytes) (resume_scan_origin s)
    (pending_capacity_visible_once s).

Definition position_now (s : CapacityState) : Z * Z := (output_lines_seen s, scan_bytes_seen s).

Definition arm_recheck (s : CapacityState) : CapacityState * bool :=
  if negb (at_usage_limit_latched s) || capacity_check_pending s || is_some (resume_scan_origin s)
  then (s, false)
  else (invalidate_analysis (set_origin (Some (position_now s)) s), true).

Definition accepted_input (s : CapacityState) : CapacityState :=
  (arm_recheck (invalidate_analysis s)).1.

Definition clear_latch_and_rearm (s : CapacityState) : CapacityState :=
  let s := invalidate_analysis s in
  set_origin (Some (position_now s)) (set_latched false s).

Definition fresh_output_since_origin (s : CapacityState) : bool :=
  match resume_scan_origin s with
  | Some (line_count, scan_len) =>
      (line_count <? output_lines_seen s) || (scan_len <? scan_bytes_seen s)
  | None => false
  end.

Definition stale_recheck (s : CapacityState) : bool :=
  at_usage_limit_latched s && negb (capacity_check_pending s) && is_some (resume_scan_origin s)
  && fresh_output_since_origin s.
Definition baseline (s : CapacityState) : bool :=
  negb (at_usage_limit_latched s) && negb (capacity_check_pending s) && is_some (resume_scan_origin s).

(** The index in a retained suffix of length [len] that stands for position
    [origin] of a stream of length [seen]. *)
Definition window_start (origin seen : Z) (len : nat) : nat :=
  Z.to_nat (saturating_sub origin (saturating_sub seen (Z.of_nat len))) `min` len.

(** The lines and bytes the scan is given. *)
Definition window (s : CapacityState) (line_count : nat) (scan_buf : list Z)
    : (nat * nat) * list Z :=
  match resume_scan_origin s with
  | Some (lines, bytes) =>
      if stale_recheck s || baseline s then
        ((window_start lines (output_lines_seen s) line_count, line_count),
         default [] (get_from scan_buf
           (window_start bytes (scan_bytes_seen s) (length scan_buf))))
      else ((0%nat, line_count), scan_buf)
  | None => ((0%nat, line_count), scan_buf)
  end.

Definition observe_with (line_count : nat) (scan_buf : list Z) (scan : Scan) (s : CapacityState)
    : CapacityObservation :=
  let '(range, raw) := window s line_count scan_buf in
  let '(detected, reset_hint) := scan range raw in
  mkObservation
    (if stale_recheck s || baseline s then detected else at_usage_limit_latched s || detected)
    reset_hint
    (if stale_recheck s || (baseline s && detected) then Some (position_now s) else None)
    (stale_recheck s && negb detected).

Definition apply_observation (o : CapacityObservation) (s : CapacityState)
    : CapacityState * bool :=
  let previous := (at_usage_limit_latched s, resume_scan_origin s) in
  let newly_latched := at_usage_limit o && negb (at_usage_limit_latched s) in
  let s := if at_usage_limit o then set_latched true s else s in
  let s := match origin_update o with
           | Some origin =>
               let s := set_origin (Some origin) s in
               if clear_latch o then set_latched false s else s
           | None => s
           end in
  let s := if previous != (at_usage_limit_latched s, resume_scan_origin s)
           then invalidate_analysis s else s in
  (s, newly_latched).

Definition advance_pending_visibility (has_fresh_resume_output : bool) (s : CapacityState)
    : CapacityState * option (option bool) :=
  if negb (capacity_check_pending s) then (s, None)
  else if pending_capacity_visible_once s then
    (set_check false false (set_origin None (invalidate_analysis s)), Some None)
  else if has_fresh_resume_output then
    (set_check true true (set_origin None (invalidate_analysis s)), Some (Some true))
  else (s, Some (Some true)).

Definition rendered_check_pending (s : CapacityState) : option bool :=
  if capacity_check_pending s && negb (pending_capacity_visible_once s) then Some true else None.

(** ** The machine

    [Project] observes and writes back at once; [WriteBack] applies an
    observation computed from an earlier snapshot. *)
Inductive Call : Type :=
  | AcceptedInput
  | RecordOutput (lines bytes : Z)
  | ArmRecheck
  | ClearLatchAndRearm
  | Project (line_count : nat) (scan_buf : list Z) (scan : Scan)
  | WriteBack (o : CapacityObservation)
  | AdvancePendingVisibility (fresh : bool).

Definition call (s : CapacityState) (i : Call) : CapacityState * unit :=
  (match i with
   | AcceptedInput => accepted_input s
   | RecordOutput lines bytes => record_output lines bytes s
   | ArmRecheck => (arm_recheck s).1
   | ClearLatchAndRearm => clear_latch_and_rearm s
   | Project line_count scan_buf scan =>
       (apply_observation (observe_with line_count scan_buf scan s) s).1
   | WriteBack o => (apply_observation o s).1
   | AdvancePendingVisibility fresh => (advance_pending_visibility fresh s).1
   end, tt).

#[export] Instance capacity_machine : Machine CapacityState Call unit := {
  initial s := ∃ b, s = pending b;
  step := call;
}.

(** ** The control state and its revision *)

(** What [control_revision] stands for: everything but the output counters. *)
Definition control (s : CapacityState) : bool * option (Z * Z) * bool * bool :=
  (at_usage_limit_latched s, resume_scan_origin s, capacity_check_pending s,
   pending_capacity_visible_once s).

(** The revision never goes back, exhaustion is final, and a step that keeps an
    available revision keeps the control state. *)
Definition advances (s s' : CapacityState) : Prop :=
  analysis_revision s <= analysis_revision s' ∧
  (analysis_exhausted s = true → analysis_exhausted s' = true) ∧
  (analysis_exhausted s' = false → analysis_revision s = analysis_revision s' →
     control s = control s').

Lemma advances_refl s : advances s s.
Proof. split; [lia|done]. Qed.
Lemma advances_trans a b c : advances a b → advances b c → advances a c.
Proof.
  intros (H1&H2&H3) (H1'&H2'&H3'). split; [lia|]. split; [auto|]. intros Hx Hr.
  assert (Hb : analysis_exhausted b = false)
    by (destruct (analysis_exhausted b); [by rewrite H2' in Hx|done]).
  rewrite H3 by (done || lia). apply H3'; [done|lia].
Qed.

(** A step that invalidates may change the control state at will. *)
Lemma advances_invalidated s s' :
  analysis_revision s' = analysis_revision (invalidate_analysis s) →
  analysis_exhausted s' = analysis_exhausted (invalidate_analysis s) → advances s s'.
Proof.
  unfold invalidate_analysis. intros Hr He. destruct (checked_add _ _ _) eqn:E; simpl in *.
  - apply checked_add_Some in E as [-> _]. split; [lia|]. split; [congruence|]. lia.
  - split; [lia|]. split; congruence.
Qed.
Lemma advances_same s s' :
  analysis_revision s' = analysis_revision s → analysis_exhausted s' = analysis_exhausted s →
  control s' = control s → advances s s'.
Proof. intros Hr He Hc. split; [lia|]. split; congruence. Qed.
Create HintDb capacity.
#[export] Hint Resolve advances_refl advances_invalidated advances_same : capacity.

(** An update that ends in, or starts from, [invalidate_analysis]. *)
Ltac invalidates :=
  apply advances_invalidated; unfold invalidate_analysis; simpl; by destruct (checked_add _ _ _).

Lemma advances_call s i : advances s (call s i).1.
Proof.
  assert (Harm : ∀ s, advances s (arm_recheck s).1).
  { clear. intros s. unfold arm_recheck. destruct (_ || is_some _); [apply advances_refl|].
    simpl. invalidates. }
  assert (Happly : ∀ o s, advances s (apply_observation o s).1).
  { clear. intros o s. unfold apply_observation. cbv zeta. cbn [fst].
    set (s1 := match origin_update o with Some _ => _ | None => _ end).
    assert (H1 : analysis_revision s1 = analysis_revision s
      ∧ analysis_exhausted s1 = analysis_exhausted s
      ∧ capacity_check_pending s1 = capacity_check_pending s
      ∧ pending_capacity_visible_once s1 = pending_capacity_visible_once s).
    { unfold s1. by destruct (at_usage_limit o), (origin_update o), (clear_latch o). }
    destruct H1 as (Hr & He & Hp & Hv). destruct (_ != _) eqn:E.
    - apply advances_invalidated; unfold invalidate_analysis; rewrite Hr, He;
        by destruct (checked_add _ _ _).
    - apply neqb_elim in E. injection E as El Eo. apply advances_same; [done|done|].
      unfold control. congruence. }
  destruct i; cbn [call fst]; auto using advances_refl.
  - eapply advances_trans; [|apply Harm]. by apply advances_invalidated.
  - by apply advances_same.
  - unfold clear_latch_and_rearm. invalidates.
  - unfold advance_pending_visibility. repeat case_match; simpl; try apply advances_refl; invalidates.
Qed.

(** ** Properties *)

Definition detects (b : bool) : Scan := λ _ _, (b, None).
(** A latched session that received input and then output. *)
Definition latched_calls : list Call :=
  [RecordOutput 2 20; Project 2 (bytes_of "usage limit reached.") (detects true);
   AcceptedInput; RecordOutput 1 6].
Definition latched : CapacityState := (run (pending false) latched_calls).1.

(** the revision is ABA-safe.  When [control_revision] is available and the
    same before and after any sequence of calls, the latch, the recheck origin
    and the pending check are the same too; so an observation computed from a
    snapshot and written back under an unchanged revision has the effect on the
    latch and on the window it would have had at once, whatever output arrived
    in between. *)
Theorem control_revision_aba_safe s ins r o :
  control_revision s = Some r → control_revision (run s ins).1 = Some r →
  control (run s ins).1 = control s
  ∧ control (apply_observation o (run s ins).1).1 = control (apply_observation o s).1
  ∧ (apply_observation o (run s ins).1).2 = (apply_observation o s).2.
Proof.
  intros Hs Hs'. pose proof (run_relation advances s ins advances_refl advances_trans advances_call)
    as (_ & _ & H). revert H Hs Hs'. generalize (run s ins).1. intros s' H.
  unfold control_revision. destruct (analysis_exhausted s), (analysis_exhausted s'); try done.
  intros [= Hr] [= Hr']. assert (Hc : control s' = control s) by (symmetry; apply H; congruence).
  split; [done|]. unfold control in *. injection Hc as Hl Ho Hp Hv.
  unfold apply_observation. rewrite Hl, Ho. cbv zeta. split; [|done]. cbn [fst].
  destruct (at_usage_limit o), (origin_update o), (clear_latch o); simpl; rewrite ?Hl, ?Ho;
    destruct (_ != _); simpl; unfold invalidate_analysis;
    repeat destruct (checked_add _ _ _); simpl; congruence.
Qed.

Lemma control_revision_aba_safe_witness :
  control (run latched [RecordOutput 5 50]).1 = control latched
  ∧ control (apply_observation (observe_with 3 [] (detects false) latched)
      (run latched [RecordOutput 5 50]).1).1
    = control (apply_observation (observe_with 3 [] (detects false) latched) latched).1
  ∧ (apply_observation (observe_with 3 [] (detects false) latched)
      (run latched [RecordOutput 5 50]).1).2
    = (apply_observation (observe_with 3 [] (detects false) latched) latched).2.
Proof. apply (control_revision_aba_safe latched [RecordOutput 5 50] 3); reflexivity. Defined.

(** the latch is cleared only by evidence.  A projection that finds a
    session latched leaves it latched unless a recheck window was armed, output
    arrived after it, and the scan of exactly the window found no limit; in that
    case the latch is dropped and the window moves to the present.  Apart from
    projections only the harness hook ([clear_latch_and_rearm]) and the write-back
    of an observation that asks for it unlatch. *)
Theorem latch_cleared_by_evidence s i :
  at_usage_limit_latched s = true → at_usage_limit_latched (call s i).1 = false →
  match i with
  | ClearLatchAndRearm => True
  | WriteBack o => clear_latch o = true ∧ is_some (origin_update o) = true
  | Project line_count buf scan =>
      ∃ lines bytes, resume_scan_origin s = Some (lines, bytes)
        ∧ (lines < output_lines_seen s ∨ bytes < scan_bytes_seen s)
        ∧ capacity_check_pending s = false
        ∧ (scan (window s line_count buf).1 (window s line_count buf).2).1 = false
        ∧ resume_scan_origin (call s i).1 = Some (position_now s)
  | _ => False
  end.
Proof.
  intros Hl. assert (Hinv : ∀ s, at_usage_limit_latched (invalidate_analysis s) = at_usage_limit_latched s).
  { intros s0. unfold invalidate_analysis. by destruct (checked_add _ _ _). }
  assert (Hio : ∀ s, resume_scan_origin (invalidate_analysis s) = resume_scan_origin s).
  { intros s0. unfold invalidate_analysis. by destruct (checked_add _ _ _). }
  assert (Harm : ∀ s, at_usage_limit_latched (arm_recheck s).1 = at_usage_limit_latched s).
  { intros s0. unfold arm_recheck. destruct (_ || is_some _); [done|]. simpl. by rewrite Hinv. }
  assert (Happ : ∀ o, at_usage_limit_latched (apply_observation o s).1 = false →
    clear_latch o = true ∧ ∃ p, origin_update o = Some p
      ∧ resume_scan_origin (apply_observation o s).1 = Some p).
  { intros o. unfold apply_observation. cbv zeta. cbn [fst].
    destruct (origin_update o) as [p|], (clear_latch o), (at_usage_limit o); simpl;
      destruct (_ != _); rewrite ?Hinv, ?Hio; simpl; rewrite ?Hl; eauto; done. }
  destruct i; cbn [call fst]; try (unfold accepted_input; rewrite ?Harm, ?Hinv; simpl; congruence).
  - done.
  - intros H%Happ. destruct H as (Hc & p & Ho & Hp). revert Hc Ho Hp. unfold observe_with.
    destruct (window s line_count scan_buf) as [range raw]. simpl.
    destruct (scan range raw) as [d h]. simpl. intros [Hst Hd]%andb_true_iff Ho Hp.
    rewrite Hst in Ho, Hp |- *. simpl in Ho. injection Ho as <-. apply negb_true_iff in Hd. subst d.
    cbn [negb andb orb] in Hp |- *.
    unfold stale_recheck in Hst. rewrite Hl in Hst. simpl in Hst.
    apply andb_true_iff in Hst as [[Hpend%negb_true_iff Hor]%andb_true_iff Hf].
    unfold fresh_output_since_origin in Hf.
    destruct (resume_scan_origin s) as [[lines bytes]|]; [|done]. exists lines, bytes.
    split; [done|]. apply orb_true_iff in Hf. rewrite !Z.ltb_lt in Hf.
    repeat split; done.
  - intros H%Happ. destruct H as (Hc & p & Ho & _). by rewrite Ho.
  - unfold advance_pending_visibility. repeat case_match; simpl; rewrite ?Hinv; congruence.
Qed.

Lemma latch_cleared_by_evidence_witness :
  ∃ lines bytes, resume_scan_origin latched = Some (lines, bytes)
    ∧ (lines < output_lines_seen latched ∨ bytes < scan_bytes_seen latched)
    ∧ capacity_check_pending latched = false
    ∧ (detects false (window latched 3 []).1 (window latched 3 []).2).1 = false
    ∧ resume_scan_origin (call latched (Project 3 [] (detects false))).1
      = Some (position_now latched).
Proof. apply (latch_cleared_by_evidence latched (Project 3 [] (detects false))); reflexivity. Defined.

Lemma window_start_drop {A} (hist : list A) (origin : Z) (len : nat) :
  0 <= origin → (len <= length hist)%nat →
  drop (window_start origin (Z.of_nat (length hist)) len) (drop (length hist - len) hist)
  = drop (Z.to_nat origin `max` (length hist - len)) hist.
Proof.
  intros Ho Hlen. rewrite drop_drop. unfold window_start, saturating_sub.
  destruct (decide (Z.to_nat origin <= length hist)%nat).
  - f_equal. lia.
  - rewrite !drop_ge; [done|lia..].
Qed.

(** the recheck window is exact.  Let the retained lines and the scan buffer
    be the last parts of all the lines and bytes the session has output.  When a
    recheck runs (armed at [(lines, bytes)]), the range selects exactly the
    retained lines that came after the first [lines] lines of the whole output,
    and the raw text is exactly the retained bytes after the first [bytes] bytes
    (nothing when the cut falls inside a character); no line from before the
    window was armed can set or keep the limit. *)
Theorem recheck_window_exact {L} s lines bytes (hist : list L) (bhist : list Z) line_count k :
  resume_scan_origin s = Some (lines, bytes) → stale_recheck s || baseline s = true →
  0 <= lines → 0 <= bytes →
  output_lines_seen s = Z.of_nat (length hist) → scan_bytes_seen s = Z.of_nat (length bhist) →
  (line_count <= length hist)%nat → (k <= length bhist)%nat →
  let '((from, to), raw) := window s line_count (drop (length bhist - k) bhist) in
  to = line_count
  ∧ drop from (drop (length hist - line_count) hist)
    = drop (Z.to_nat lines `max` (length hist - line_count)) hist
  ∧ (raw = [] ∨ raw = drop (Z.to_nat bytes `max` (length bhist - k)) bhist)
  ∧ (is_char_boundary (drop (length bhist - k) bhist)
       (window_start bytes (scan_bytes_seen s) k) = true →
     raw = drop (Z.to_nat bytes `max` (length bhist - k)) bhist).
Proof.
  intros Ho Hst Hl Hb Hol Hsb Hlc Hk. unfold window. rewrite Ho, Hst. split; [done|].
  rewrite Hol. split; [by apply window_start_drop|].
  replace (length (drop (length bhist - k) bhist)) with k by (rewrite length_drop; lia).
  unfold get_from. rewrite Hsb. destruct (is_char_boundary _ _); simpl.
  - rewrite window_start_drop by done. split; [by right|done].
  - split; [by left|done].
Qed.

Lemma recheck_window_exact_witness :
  let s := latched in
  let '((from, to), raw) := window s 2 (drop (26 - 10) (replicate 20 97 ++ bytes_of "fresh.")) in
  to = 2%nat
  ∧ drop from (drop (3 - 2) ["a"; "b"; "c"]) = drop (Z.to_nat 2 `max` (3 - 2)) ["a"; "b"; "c"]
  ∧ (raw = [] ∨ raw = drop (Z.to_nat 20 `max` (26 - 10)) (replicate 20 97 ++ bytes_of "fresh."))
  ∧ (is_char_boundary (drop (26 - 10) (replicate 20 97 ++ bytes_of "fresh."))
       (window_start 20 (scan_bytes_seen s) 10) = true →
     raw = drop (Z.to_nat 20 `max` (26 - 10)) (replicate 20 97 ++ bytes_of "fresh.")).
Proof.
  apply (recheck_window_exact latched 2 20 ["a"; "b"; "c"] (replicate 20 97 ++ bytes_of "fresh.") 2 10);
    try reflexivity; try (vm_compute; lia); by vm_compute.
Defined.
