(* ===== verification/PromptAuthority.v ===== *)
(** * Prompt authority

    [runtime/prompt_authority.rs]: which native session of a harness a session
    trusts, and the reset protocol ([/clear], [/new]) that replaces it.  The
    registry is a map from session ids to [SessionAuthority]; every method looks
    one entry up under the lock.  [AuthorityInstance] is an allocated [Arc]: a
    number the registry never reuses. *)
From S2P Require Export Prelude.
#[local] Set Warnings "-register-all".

Inductive BindResult : Type := Bound | Unchanged | Held | Rejected.
#[export] Instance BindResult_eq_dec : EqDecision BindResult.
Proof. solve_decision. Defined.

Record QueuedPromptWait : Type := mkQueued {
  notification_type : string;
  observed_at : option Z;
  receipt_sequence : Z;
  committed_input_sequence : Z;
  cwd : option string;
}.

Inductive ResetReservation : Type := mkReset {
  acknowledged : bool;
  epoch_committed : bool;
  prompt_tuple_clear_applied : bool;
  candidate_native_session_id : option string;
  retired_native_session_id : option string;
  reset_submission_input_sequence : option Z;
  superseded : option ResetReservation;
  created_at : Z;
  queued_prompt_wait : option QueuedPromptWait;
}.

Record ResetCommit : Type := mkCommit {
  commit_native_session_id : option string;
  commit_queued_prompt_wait : option QueuedPromptWait;
  commit_reset_submission_input_sequence : option Z;
}.

Record SessionAuthority : Type := mkAuthority {
  instance : Z;
  harness_id : string;
  generation : string;
  native_session_id : option string;
  revoked : bool;
  active : bool;
  epoch : Z;
  reset : option ResetReservation;
  reset_retry_scheduled : bool;
  reset_retry_requested : bool;
}.

Record AuthoritySnapshot : Type := mkSnapshot {
  snap_instance : Z;
  snap_epoch : Z;
  snap_native_session_id : option string;
  snap_revoked : bool;
  snap_active : bool;
  snap_reset_pending : bool;
}.

Record PromptAuthorityRegistry : Type := mkRegistry {
  sessions : gmap string SessionAuthority;
  next_instance : Z;
}.

(** Field updates. *)
Definition set_acknowledged (v : bool) (r : ResetReservation) : ResetReservation :=
  mkReset v (epoch_committed r) (prompt_tuple_clear_applied r) (candidate_native_session_id
    r) (retired_native_session_id r) (reset_submission_input_sequence r) (superseded r)
    (created_at r) (queued_prompt_wait r).
Definition set_epoch_committed (v : bool) (r : ResetReservation) : ResetReservation :=
  mkReset (acknowledged r) v (prompt_tuple_clear_applied r) (candidate_native_session_id r)
    (retired_native_session_id r) (reset_submission_input_sequence r) (superseded r)
    (created_at r) (queued_prompt_wait r).
Definition set_prompt_tuple_clear_applied (v : bool) (r : ResetReservation) :
    ResetReservation :=
  mkReset (acknowledged r) (epoch_committed r) v (candidate_native_session_id r)
    (retired_native_session_id r) (reset_submission_input_sequence r) (superseded r)
    (created_at r) (queued_prompt_wait r).
Definition set_candidate_native_session_id (v : option string) (r : ResetReservation) :
    ResetReservation :=
  mkReset (acknowledged r) (epoch_committed r) (prompt_tuple_clear_applied r) v
    (retired_native_session_id r) (reset_submission_input_sequence r) (superseded r)
    (created_at r) (queued_prompt_wait r).
Definition set_reset_submission_input_sequence (v : option Z) (r : ResetReservation) :
    ResetReservation :=
  mkReset (acknowledged r) (epoch_committed r) (prompt_tuple_clear_applied r)
    (candidate_native_session_id r) (retired_native_session_id r) v (superseded r)
    (created_at r) (queued_prompt_wait r).
Definition set_superseded (v : option ResetReservation) (r : ResetReservation) :
    ResetReservation :=
  mkReset (acknowledged r) (epoch_committed r) (prompt_tuple_clear_applied r)
    (candidate_native_session_id r) (retired_native_session_id r)
    (reset_submission_input_sequence r) v (created_at r) (queued_prompt_wait r).
Definition set_queued_prompt_wait (v : option QueuedPromptWait) (r : ResetReservation) :
    ResetReservation :=
  mkReset (acknowledged r) (epoch_committed r) (prompt_tuple_clear_applied r)
    (candidate_native_session_id r) (retired_native_session_id r)
    (reset_submission_input_sequence r) (superseded r) (created_at r) v.
Definition set_native_session_id (v : option string) (e : SessionAuthority) :
    SessionAuthority :=
  mkAuthority (instance e) (harness_id e) (generation e) v (revoked e) (active e) (epoch e)
    (reset e) (reset_retry_scheduled e) (reset_retry_requested e).
Definition set_revoked (v : bool) (e : SessionAuthority) : SessionAuthority :=
  mkAuthority (instance e) (harness_id e) (generation e) (native_session_id e) v (active e)
    (epoch e) (reset e) (reset_retry_scheduled e) (reset_retry_requested e).
Definition set_active (v : bool) (e : SessionAuthority) : SessionAuthority :=
  mkAuthority (instance e) (harness_id e) (generation e) (native_session_id e) (revoked e) v
    (epoch e) (reset e) (reset_retry_scheduled e) (reset_retry_requested e).
Definition set_epoch (v : Z) (e : SessionAuthority) : SessionAuthority :=
  mkAuthority (instance e) (harness_id e) (generation e) (native_session_id e) (revoked e)
    (active e) v (reset e) (reset_retry_scheduled e) (reset_retry_requested e).
Definition set_reset (v : option ResetReservation) (e : SessionAuthority) : SessionAuthority :=
  mkAuthority (instance e) (harness_id e) (generation e) (native_session_id e) (revoked e)
    (active e) (epoch e) v (reset_retry_scheduled e) (reset_retry_requested e).
Definition set_reset_retry_scheduled (v : bool) (e : SessionAuthority) : SessionAuthority :=
  mkAuthority (instance e) (harness_id e) (generation e) (native_session_id e) (revoked e)
    (active e) (epoch e) (reset e) v (reset_retry_requested e).
Definition set_reset_retry_requested (v : bool) (e : SessionAuthority) : SessionAuthority :=
  mkAuthority (instance e) (harness_id e) (generation e) (native_session_id e) (revoked e)
    (active e) (epoch e) (reset e) (reset_retry_scheduled e) v.

Definition superseded_by_committed_input (q : QueuedPromptWait) (current_sequence : Z)
    (reset_submission : option Z) : bool :=
  if current_sequence =? committed_input_sequence q then false
  else negb (is_some_and reset_submission (λ reset_sequence,
    (reset_sequence =? current_sequence)
    && (checked_add u64_max (committed_input_sequence q) 1 == Some reset_sequence))).

(** [reset_commit_pending], the function. *)
Definition commit_pending (entry : SessionAuthority) (r : ResetReservation) : bool :=
  acknowledged r
  && (negb (epoch_committed r) || is_some (queued_prompt_wait r)
      || is_some_and (candidate_native_session_id r)
           (λ candidate, native_session_id entry != Some candidate)).
Definition entry_commit_pending (entry : SessionAuthority) : bool :=
  is_some_and (reset entry) (commit_pending entry).

(** The entry belongs to this harness and generation, and is not revoked. *)
Definition owned (entry : SessionAuthority) (harness gen : string) : bool :=
  negb (revoked entry) && (harness_id entry == harness) && (generation entry == gen).

(** ** Operations on one entry *)

(** A Copilot lifecycle event must be later than the reservation. *)
Definition stale_lifecycle (entry : SessionAuthority) (r : ResetReservation)
    (observed : option Z) : bool :=
  (harness_id entry == "copilot") && is_none_or observed (λ timestamp, timestamp <=? created_at r).

Definition hold_candidate (entry : SessionAuthority) (r : ResetReservation) (native : string)
    : SessionAuthority * BindResult :=
  (set_reset (Some (set_candidate_native_session_id (Some native) r)) entry, Held).

Definition register_entry (harness gen native : string) (lifecycle_reset : bool)
    (observed : option Z) (entry : SessionAuthority) : SessionAuthority * BindResult :=
  if negb (owned entry harness gen) || (native == "") then (entry, Rejected)
  else
    match native_session_id entry with
    | None =>
        match reset entry with
        | None => (set_native_session_id (Some native) entry, Bound)
        | Some r =>
            if retired_native_session_id r == Some native then (entry, Rejected)
            else if candidate_native_session_id r == Some native then (entry, Held)
            else if negb lifecycle_reset || stale_lifecycle entry r observed then (entry, Rejected)
            else match candidate_native_session_id r with
                 | Some candidate =>
                     if candidate != native then (entry, Rejected)
                     else hold_candidate entry r native
                 | None => hold_candidate entry r native
                 end
        end
    | Some current =>
        if current == native then
          match reset entry with
          | None => (entry, Unchanged)
          | Some r =>
              if epoch_committed r && (candidate_native_session_id r == Some native)
              then (entry, Unchanged)
              else if negb (acknowledged r) && (candidate_native_session_id r == Some native)
              then (entry, Held) else (entry, Rejected)
          end
        else if is_some_and (reset entry) (λ r, candidate_native_session_id r == Some native)
        then (entry, Held)
        else if lifecycle_reset then
          match reset entry with
          | None => (entry, Rejected)
          | Some r =>
              if stale_lifecycle entry r observed then (entry, Rejected)
              else match candidate_native_session_id r with
                   | Some candidate =>
                       if candidate != native then (entry, Rejected) else (entry, Held)
                   | None => hold_candidate entry r native
                   end
          end
        else (entry, Rejected)
    end.

Definition accepted_command (harness command : string) : bool :=
  if harness == "claude-code" then command == "/clear"
  else if harness == "copilot" then (command == "/clear") || (command == "/new")
  else false.

(** A reservation a new one may supersede: committed without a candidate. *)
Definition candidate_free (r : ResetReservation) : bool :=
  acknowledged r && epoch_committed r && is_none (candidate_native_session_id r).

Definition reserve_entry (harness command : string) (now : Z) (entry : SessionAuthority)
    : SessionAuthority * bool :=
  let old := opt_filter candidate_free (reset entry) in
  if revoked entry || (harness_id entry != harness)
     || (is_none (native_session_id entry) && is_none old)
     || negb (accepted_command harness command)
     || is_some_and (reset entry) (λ r, negb (candidate_free r))
  then (entry, false)
  else
    let retired := opt_or (native_session_id entry) (old ≫= retired_native_session_id) in
    let previous := set_superseded None <$> old in
    (set_reset (Some (mkReset false false false None retired None previous now None)) entry, true).

Definition acknowledge_entry (entry : SessionAuthority)
    : SessionAuthority * option (option string) :=
  if revoked entry then (entry, None)
  else match reset entry with
       | None => (entry, None)
       | Some r =>
           (set_reset (Some (set_acknowledged true r)) entry, Some (candidate_native_session_id r))
       end.

Definition complete_entry (entry : SessionAuthority) : SessionAuthority * option ResetCommit :=
  match reset entry with
  | None => (entry, None)
  | Some r =>
      if negb (acknowledged r) then (entry, None)
      else
        let sequence := reset_submission_input_sequence r in
        match candidate_native_session_id r with
        | None =>
            let commit := mkCommit None None sequence in
            if epoch_committed r then (entry, Some commit)
            else
              (set_active false (set_native_session_id None
                 (set_epoch (saturating_add u64_max (epoch entry) 1)
                    (set_reset (Some (set_epoch_committed true r)) entry))), Some commit)
        | Some candidate =>
            let queued := queued_prompt_wait r in
            let entry := set_native_session_id (Some candidate) entry in
            let entry := if negb (epoch_committed r)
                         then set_epoch (saturating_add u64_max (epoch entry) 1) entry else entry in
            let entry := set_reset (Some (set_epoch_committed true r)) entry in
            let entry := if is_none queued then set_reset None entry else entry in
            (set_active false entry, Some (mkCommit (Some candidate) queued sequence))
        end
  end.

Definition mark_clear_applied_entry (entry : SessionAuthority) : SessionAuthority * bool :=
  match reset entry with
  | Some r =>
      if negb (acknowledged r) then (entry, false)
      else (set_reset (Some (set_prompt_tuple_clear_applied true r)) entry, true)
  | None => (entry, false)
  end.

Definition note_sequence_entry (input_sequence : Z) (entry : SessionAuthority) : SessionAuthority :=
  set_reset (set_reset_submission_input_sequence (Some input_sequence) <$> reset entry) entry.

Definition deactivate_entry (entry : SessionAuthority) : SessionAuthority :=
  if negb (revoked entry) && is_some (reset entry) then set_active false entry else entry.

Definition finish_queued_entry (receipt : Z) (entry : SessionAuthority) : SessionAuthority * bool :=
  match reset entry with
  | Some r =>
      if negb (epoch_committed r)
         || negb (is_some_and (queued_prompt_wait r) (λ q, receipt_sequence q =? receipt))
      then (entry, false) else (set_reset None entry, true)
  | None => (entry, false)
  end.

(** Whether a wait may replace the queued one. *)
Definition supersedes (previous : QueuedPromptWait) (observed : option Z) (receipt : Z) : bool :=
  match observed_at previous, observed with
  | Some p, Some c => (p <? c) || ((c =? p) && (receipt_sequence previous <? receipt))
  | None, None => receipt_sequence previous <? receipt
  | _, _ => false
  end.

Definition queue_entry (harness gen native : string) (w : QueuedPromptWait)
    (entry : SessionAuthority) : SessionAuthority * bool :=
  if negb (owned entry harness gen) then (entry, false)
  else match reset entry with
       | None => (entry, false)
       | Some r =>
           if candidate_native_session_id r != Some native then (entry, false)
           else if is_some_and (queued_prompt_wait r)
                     (λ q, negb (supersedes q (observed_at w) (receipt_sequence w)))
           then (entry, false)
           else
             let w := mkQueued (notification_type w) (observed_at w) (receipt_sequence w)
               (committed_input_sequence w) (opt_filter (λ cwd, cwd != "") (cwd w)) in
             (set_reset (Some (set_queued_prompt_wait (Some w) r)) entry, true)
       end.

Definition cancel_entry (entry : SessionAuthority) : SessionAuthority :=
  set_reset (reset entry ≫= superseded) entry.

Definition activate_entry (harness gen native : string) (entry : SessionAuthority)
    : SessionAuthority * bool :=
  if negb (owned entry harness gen) || (native_session_id entry != Some native)
  then (entry, false) else (set_active true entry, true).

Definition schedule_retry_entry (entry : SessionAuthority) : SessionAuthority * bool :=
  if negb (entry_commit_pending entry) then (entry, false)
  else if reset_retry_scheduled entry then (set_reset_retry_requested true entry, false)
  else (set_reset_retry_scheduled true entry, true).

Definition finish_retry_entry (entry : SessionAuthority) : SessionAuthority * bool :=
  if entry_commit_pending entry && reset_retry_requested entry
  then (set_reset_retry_requested false entry, true)
  else (set_reset_retry_requested false (set_reset_retry_scheduled false entry), false).

Definition revoke_entry (gen : string) (entry : SessionAuthority) : SessionAuthority :=
  if generation entry == gen
  then set_reset None (set_active false (set_revoked true entry)) else entry.

(** ** The registry *)

Definition new_registry : PromptAuthorityRegistry := mkRegistry ∅ 0.

(** [get_mut] and an update of the entry found; [absent] is the answer without
    an entry. *)
Definition on_entry {A} (id : string) (absent : A) (f : SessionAuthority → SessionAuthority * A)
    (reg : PromptAuthorityRegistry) : PromptAuthorityRegistry * A :=
  match sessions reg !! id with
  | None => (reg, absent)
  | Some entry =>
      let '(entry, a) := f entry in (mkRegistry (<[id := entry]> (sessions reg)) (next_instance reg), a)
  end.
Definition update_entry (id : string) (f : SessionAuthority → SessionAuthority)
    (reg : PromptAuthorityRegistry) : PromptAuthorityRegistry :=
  (on_entry id tt (λ entry, (f entry, tt)) reg).1.
Definition query {A} (id : string) (absent : A) (f : SessionAuthority → A)
    (reg : PromptAuthorityRegistry) : A :=
  match sessions reg !! id with Some entry => f entry | None => absent end.

Definition issue_with_native_id (id harness gen : string) (native : option string)
    (reg : PromptAuthorityRegistry) : PromptAuthorityRegistry :=
  mkRegistry
    (<[id := mkAuthority (next_instance reg) harness gen native false false 0 None false false]>
       (sessions reg)) (next_instance reg + 1).

Definition register_native_id (id harness gen native : string) (lifecycle_reset : bool)
    (observed : option Z) : PromptAuthorityRegistry → PromptAuthorityRegistry * BindResult :=
  on_entry id Rejected (register_entry harness gen native lifecycle_reset observed).
Definition reserve_reset (id harness command : string) (now : Z)
    : PromptAuthorityRegistry → PromptAuthorityRegistry * bool :=
  on_entry id false (reserve_entry harness command now).
Definition acknowledge_reset (id : string)
    : PromptAuthorityRegistry → PromptAuthorityRegistry * option (option string) :=
  on_entry id None acknowledge_entry.
Definition complete_reset (id : string)
    : PromptAuthorityRegistry → PromptAuthorityRegistry * option ResetCommit :=
  on_entry id None complete_entry.
Definition mark_reset_prompt_tuple_clear_applied (id : string)
    : PromptAuthorityRegistry → PromptAuthorityRegistry * bool :=
  on_entry id false mark_clear_applied_entry.
Definition note_reset_submission_input_sequence (id : string) (sequence : Z)
    : PromptAuthorityRegistry → PromptAuthorityRegistry :=
  update_entry id (note_sequence_entry sequence).
Definition deactivate_for_reset (id : string) : PromptAuthorityRegistry → PromptAuthorityRegistry :=
  update_entry id deactivate_entry.
Definition finish_queued_prompt_wait (id : string) (receipt : Z)
    : PromptAuthorityRegistry → PromptAuthorityRegistry * bool :=
  on_entry id false (finish_queued_entry receipt).
Definition queue_prompt_wait (id harness gen native : string) (w : QueuedPromptWait)
    : PromptAuthorityRegistry → PromptAuthorityRegistry * bool :=
  on_entry id false (queue_entry harness gen native w).
Definition cancel_reset (id : string) : PromptAuthorityRegistry → PromptAuthorityRegistry :=
  update_entry id cancel_entry.
Definition activate (id harness gen native : string)
    : PromptAuthorityRegistry → PromptAuthorityRegistry * bool :=
  on_entry id false (activate_entry harness gen native).
Definition schedule_reset_retry (id : string)
    : PromptAuthorityRegistry → PromptAuthorityRegistry * bool :=
  on_entry id false schedule_retry_entry.
Definition finish_reset_retry (id : string)
    : PromptAuthorityRegistry → PromptAuthorityRegistry * bool :=
  on_entry id false finish_retry_entry.
Definition revoke (id gen : string) : PromptAuthorityRegistry → PromptAuthorityRegistry :=
  update_entry id (revoke_entry gen).
Definition remove (id : string) (reg : PromptAuthorityRegistry) : PromptAuthorityRegistry :=
  mkRegistry (delete id (sessions reg)) (next_instance reg).
Definition remove_if_generation (id gen : string) (reg : PromptAuthorityRegistry)
    : PromptAuthorityRegistry :=
  if query id false (λ entry, generation entry == gen) reg then remove id reg else reg.

(** Queries. *)
Definition generation_matches (id harness gen : string) : PromptAuthorityRegistry → bool :=
  query id false (λ entry, owned entry harness gen).
Definition generation_for_launch (id : string) (reg : PromptAuthorityRegistry)
    : option (string * string) :=
  query id None (λ entry, if revoked entry then None else Some (harness_id entry, generation entry)) reg.
Definition reset_prompt_tuple_clear_applied (id : string) : PromptAuthorityRegistry → bool :=
  query id false (λ entry, is_some_and (reset entry) prompt_tuple_clear_applied).
Definition reset_acknowledged (id : string) : PromptAuthorityRegistry → bool :=
  query id false (λ entry, is_some_and (reset entry) acknowledged).
Definition acknowledged_candidate_matches (id harness gen native : string)
    : PromptAuthorityRegistry → bool :=
  query id false (λ entry, owned entry harness gen && is_some_and (reset entry)
    (λ r, acknowledged r && (candidate_native_session_id r == Some native))).
Definition native_id_matches (id harness gen native : string) : PromptAuthorityRegistry → bool :=
  query id false (λ entry, owned entry harness gen
    && (is_none (reset entry) || is_some_and (reset entry)
          (λ r, epoch_committed r && (candidate_native_session_id r == Some native)))
    && (native_session_id entry == Some native)).
Definition snapshot (id : string) : PromptAuthorityRegistry → option AuthoritySnapshot :=
  query id None (λ entry, Some (mkSnapshot (instance entry) (epoch entry) (native_session_id entry)
    (revoked entry) (active entry) (is_some (reset entry)))).
Definition is_active (id : string) : PromptAuthorityRegistry → bool :=
  query id false (λ entry, active entry && negb (revoked entry)).
Definition identity_reset_pending (id : string) : PromptAuthorityRegistry → bool :=
  query id false (λ entry, is_some (reset entry)).
Definition reset_commit_pending (id : string) : PromptAuthorityRegistry → bool :=
  query id false entry_commit_pending.

(** ** The machine *)

(** The calls on one session's entry. *)
Inductive EntryCall : Type :=
  | RegisterNativeId (harness gen native : string) (lifecycle_reset : bool) (observed : option Z)
  | ReserveReset (harness command : string) (now : Z)
  | AcknowledgeReset | CompleteReset | MarkClearApplied
  | NoteSubmissionSequence (sequence : Z)
  | DeactivateForReset
  | FinishQueued (receipt : Z)
  | QueuePromptWait (harness gen native : string) (w : QueuedPromptWait)
  | CancelReset
  | Activate (harness gen native : string)
  | ScheduleRetry | FinishRetry
  | Revoke (gen : string).

Definition entry_call (i : EntryCall) (entry : SessionAuthority) : SessionAuthority :=
  match i with
  | RegisterNativeId harness gen native life obs => (register_entry harness gen native life obs entry).1
  | ReserveReset harness command now => (reserve_entry harness command now entry).1
  | AcknowledgeReset => (acknowledge_entry entry).1
  | CompleteReset => (complete_entry entry).1
  | MarkClearApplied => (mark_clear_applied_entry entry).1
  | NoteSubmissionSequence sequence => note_sequence_entry sequence entry
  | DeactivateForReset => deactivate_entry entry
  | FinishQueued receipt => (finish_queued_entry receipt entry).1
  | QueuePromptWait harness gen native w => (queue_entry harness gen native w entry).1
  | CancelReset => cancel_entry entry
  | Activate harness gen native => (activate_entry harness gen native entry).1
  | ScheduleRetry => (schedule_retry_entry entry).1
  | FinishRetry => (finish_retry_entry entry).1
  | Revoke gen => revoke_entry gen entry
  end.

Inductive Call : Type :=
  | Issue (id harness gen : string) (native : option string)
  | OnEntry (id : string) (i : EntryCall)
  | Remove (id : string)
  | RemoveIfGeneration (id gen : string).

Definition call (reg : PromptAuthorityRegistry) (i : Call) : PromptAuthorityRegistry * unit :=
  (match i with
   | Issue id harness gen native => issue_with_native_id id harness gen native reg
   | OnEntry id i => update_entry id (entry_call i) reg
   | Remove id => remove id reg
   | RemoveIfGeneration id gen => remove_if_generation id gen reg
   end, tt).

#[export] Instance registry_machine : Machine PromptAuthorityRegistry Call unit := {
  initial reg := reg = new_registry;
  step := call;
}.

(** ** Entries under calls *)

Lemma on_entry_lookup {A} id (a : A) f reg :
  sessions (on_entry id a f reg).1 = alter (λ e, (f e).1) id (sessions reg).
Proof.
  unfold on_entry. destruct (sessions reg !! id) as [e|] eqn:E; simpl.
  - apply map_eq. intros j. destruct (f e) as [e' a'] eqn:Ef. simpl.
    destruct (decide (j = id)) as [->|Hj].
    + rewrite lookup_insert_eq, lookup_alter_eq, E. simpl. by rewrite Ef.
    + by rewrite lookup_insert_ne, lookup_alter_ne.
  - apply map_eq. intros j. destruct (decide (j = id)) as [->|Hj].
    + by rewrite lookup_alter_eq, E.
    + by rewrite lookup_alter_ne.
Qed.

(** A predicate on the entry of [id] that every call on the entry keeps is kept
    by every call that does not issue the entry anew. *)
Definition issues (id : string) (i : Call) : Prop :=
  match i with Issue id' _ _ _ => id' = id | _ => False end.
Definition entry_holds (id : string) (P : SessionAuthority → Prop) (reg : PromptAuthorityRegistry)
    : Prop := ∀ e, sessions reg !! id = Some e → P e.

Lemma entry_holds_call id P reg i :
  (∀ j e, P e → P (entry_call j e)) → ¬ issues id i → entry_holds id P reg →
  entry_holds id P (call reg i).1.
Proof.
  intros Hstep Hi H e. destruct i as [id' h g n|id' j|id'|id' g]; simpl in *.
  - rewrite lookup_insert_ne by done. apply H.
  - unfold update_entry. rewrite on_entry_lookup. destruct (decide (id' = id)) as [->|Hid].
    + rewrite lookup_alter_eq. destruct (sessions reg !! id) as [e0|] eqn:E; simpl; [|done].
      intros [= <-]. apply Hstep, H, E.
    + rewrite lookup_alter_ne by done. apply H.
  - intros Hd. apply lookup_delete_Some in Hd as [_ Hd]. by apply H.
  - unfold remove_if_generation. case_match; [|by apply H]. simpl. intros Hd.
    apply lookup_delete_Some in Hd as [_ Hd]. by apply H.
Qed.

Lemma entry_holds_run id P reg ins :
  (∀ j e, P e → P (entry_call j e)) → Forall (λ i, ¬ issues id i) ins → entry_holds id P reg →
  entry_holds id P (run reg ins).1.
Proof.
  intros Hstep Hins. revert reg. induction Hins as [|i ins Hi _ IH]; intros reg H; [done|].
  rewrite run_cons. apply IH. by apply entry_holds_call.
Qed.

(** ** Revocation *)

Definition dead (e : SessionAuthority) : Prop :=
  revoked e = true ∧ active e = false ∧ reset e = None.

Lemma owned_dead e h g : dead e → owned e h g = false.
Proof. intros (Hr & _). unfold owned. by rewrite Hr. Qed.

Lemma dead_entry_call j e : dead e → dead (entry_call j e).
Proof.
  intros H. pose proof (owned_dead e) as Ho. destruct H as (Hr & Ha & Hn).
  assert (H : dead e) by by split.
  destruct j; simpl; unfold register_entry, reserve_entry, acknowledge_entry, complete_entry,
    mark_clear_applied_entry, note_sequence_entry, deactivate_entry, finish_queued_entry,
    queue_entry, cancel_entry, activate_entry, schedule_retry_entry, finish_retry_entry,
    revoke_entry, entry_commit_pending; rewrite ?Ho, ?Hr, ?Hn by done; simpl; try done.
  - destruct (generation e == gen); done.
Qed.

(** ** The reset protocol *)

(** A reservation that replaces the identity of its entry. *)
Record reset_ok (e : SessionAuthority) (r : ResetReservation) : Prop := {
  ok_candidate : ∀ c, candidate_native_session_id r = Some c → retired_native_session_id r ≠ Some c;
  ok_uncommitted : epoch_committed r = false →
    native_session_id e = None ∨ native_session_id e = retired_native_session_id r;
  ok_committed : epoch_committed r = true →
    native_session_id e = None ∨ native_session_id e = candidate_native_session_id r;
  ok_ack : acknowledged r = false → epoch_committed r = false;
  ok_superseded : ∀ r', superseded r = Some r' →
    candidate_native_session_id r' = None ∧ epoch_committed r' = true ∧ acknowledged r' = true
    ∧ superseded r' = None ∧ (acknowledged r = false → native_session_id e = None);
}.
Definition entry_ok (e : SessionAuthority) : Prop := ∀ r, reset e = Some r → reset_ok e r.

(** The terminal writer cancels a reservation only when the write of its command
    failed, and acknowledges it only when the write succeeded. *)
Definition disciplined (j : EntryCall) (e : SessionAuthority) : Prop :=
  match j with CancelReset => is_some_and (reset e) acknowledged = false | _ => True end.

Lemma entry_ok_same e e' :
  reset e' = reset e → native_session_id e' = native_session_id e → entry_ok e → entry_ok e'.
Proof.
  intros Hr Hn H r Er. rewrite Hr in Er. destruct (H r Er). split; rewrite ?Hn; auto.
Qed.
Lemma entry_ok_none e : reset e = None → entry_ok e.
Proof. intros H r. congruence. Qed.
Create HintDb authority.
#[export] Hint Resolve entry_ok_same entry_ok_none : authority.

(** Holding a candidate that is not the retired identity. *)
Lemma entry_ok_hold e r n :
  entry_ok e → reset e = Some r → retired_native_session_id r ≠ Some n →
  (epoch_committed r = true → native_session_id e = None) →
  entry_ok (hold_candidate e r n).1.
Proof.
  intros H Er Hn Hc r' [= <-]. destruct (H r Er) as [H1 H2 H3 H4 H5].
  split; simpl; auto. congruence.
Qed.

Lemma entry_ok_register h g n life obs e :
  entry_ok e → entry_ok (register_entry h g n life obs e).1.
Proof.
  intros H. unfold register_entry. destruct (_ || _); [done|].
  destruct (native_session_id e) as [current|] eqn:En.
  - destruct (current == n) eqn:Ecur; [repeat case_match; done|]. rewrite eqb_false in Ecur.
    destruct (is_some_and _ _); [done|]. destruct life; [|done].
    destruct (reset e) as [r|] eqn:Er; [|done]. destruct (stale_lifecycle e r obs); [done|].
    destruct (candidate_native_session_id r) as [c|] eqn:Ec; [by destruct (c != n)|].
    destruct (H r Er) as [H1 H2 H3 H4 H5].
    assert (Hu : epoch_committed r = false).
    { destruct (epoch_committed r); [|done]. destruct (H3 eq_refl); congruence. }
    apply entry_ok_hold; [done|done| |congruence].
    destruct (H2 Hu) as [?|<-]; [congruence|]. rewrite En. congruence.
  - destruct (reset e) as [r|] eqn:Er; [|by apply entry_ok_none].
    destruct (retired_native_session_id r == Some n) eqn:Eret; [done|]. rewrite eqb_false in Eret.
    repeat case_match; try done; by apply entry_ok_hold.
Qed.

Lemma entry_ok_reserve h c now e : entry_ok e → entry_ok (reserve_entry h c now e).1.
Proof.
  intros H. unfold reserve_entry. destruct (_ || is_some_and _ _) eqn:E; [done|].
  apply orb_false_iff in E as [_ Efree]. intros r' [= <-].
  destruct (reset e) as [r|] eqn:Er; simpl in *.
  - apply negb_false_iff in Efree. rewrite Efree. simpl. unfold candidate_free in Efree.
    apply andb_true_iff in Efree as [[Ea Ec]%andb_true_iff Ecand%is_none_true].
    destruct (H r Er) as [H1 H2 H3 H4 H5].
    assert (Hnone : native_session_id e = None) by (destruct (H3 Ec); congruence).
    split; simpl; try done; [by left|]. intros r' [= <-]. by repeat split.
  - split; simpl; try done. intros _. destruct (native_session_id e); simpl; auto.
Qed.

Lemma entry_ok_complete e : entry_ok e → entry_ok (complete_entry e).1.
Proof.
  intros H. unfold complete_entry. destruct (reset e) as [r|] eqn:Er; [|done].
  destruct (acknowledged r) eqn:Ea; simpl; [|done]. destruct (H r Er) as [H1 H2 H3 H4 H5].
  assert (Hs : ∀ r', superseded r = Some r' → candidate_native_session_id r' = None
    ∧ epoch_committed r' = true ∧ acknowledged r' = true ∧ superseded r' = None).
  { intros r' Hr'. destruct (H5 r' Hr') as (?&?&?&?&_). done. }
  destruct (candidate_native_session_id r) as [c|] eqn:Ec.
  - destruct (queued_prompt_wait r); simpl; [|by apply entry_ok_none].
    intros r' Hr'. assert (r' = set_epoch_committed true r) as ->
      by (destruct (epoch_committed r); simpl in Hr'; congruence).
    split; simpl; rewrite ?Ec; auto; try congruence.
    + intros _. right. by destruct (epoch_committed r).
    + intros r' Hr''. destruct (Hs r' Hr'') as (?&?&?&?). repeat split; auto. congruence.
  - destruct (epoch_committed r); [done|]. intros r' [= <-].
    split; simpl; rewrite ?Ec; auto; try congruence.
    intros r' Hr''. destruct (Hs r' Hr'') as (?&?&?&?). repeat split; auto.
Qed.

(** A change of the reservation that keeps what the protocol reads. *)
Lemma entry_ok_set e r r' :
  entry_ok e → reset e = Some r →
  candidate_native_session_id r' = candidate_native_session_id r →
  retired_native_session_id r' = retired_native_session_id r →
  epoch_committed r' = epoch_committed r → superseded r' = superseded r →
  (acknowledged r' = acknowledged r ∨ acknowledged r' = true) →
  entry_ok (set_reset (Some r') e).
Proof.
  intros H Er Hc Hret Hep Hs Ha r0 [= <-]. destruct (H r Er) as [H1 H2 H3 H4 H5].
  split; simpl; rewrite ?Hc, ?Hret, ?Hep; auto.
  - intros Hn. destruct Ha as [Ha|Ha]; [|congruence]. apply H4. congruence.
  - intros r0 Hr0. rewrite Hs in Hr0. destruct (H5 r0 Hr0) as (?&?&?&?&Hl).
    repeat split; auto. intros Hn. apply Hl. destruct Ha; congruence.
Qed.

Lemma entry_ok_call j e : entry_ok e → disciplined j e → entry_ok (entry_call j e).
Proof.
  intros H Hd. destruct j; simpl.
  - by apply entry_ok_register.
  - by apply entry_ok_reserve.
  - unfold acknowledge_entry. destruct (revoked e); [done|]. destruct (reset e) as [r|] eqn:Er; [|done].
    apply (entry_ok_set e r); auto.
  - by apply entry_ok_complete.
  - unfold mark_clear_applied_entry. destruct (reset e) as [r|] eqn:Er; [|done].
    destruct (negb _); [done|]. apply (entry_ok_set e r); auto.
  - unfold note_sequence_entry. destruct (reset e) as [r|] eqn:Er; [|by apply entry_ok_none].
    apply (entry_ok_set e r); auto.
  - unfold deactivate_entry. case_match; [by apply (entry_ok_same e)|done].
  - unfold finish_queued_entry. repeat case_match; try done; by apply entry_ok_none.
  - unfold queue_entry. destruct (negb _); [done|]. destruct (reset e) as [r|] eqn:Er; [|done].
    repeat case_match; try done; apply (entry_ok_set e r); auto.
  - unfold cancel_entry. destruct (reset e) as [r|] eqn:Er; [|by apply entry_ok_none].
    simpl in *. rewrite Er in Hd. simpl in Hd. destruct (superseded r) as [r'|] eqn:Es;
      [|by apply entry_ok_none].
    destruct (ok_superseded _ _ (H r Er) r' Es) as (Hc & He & Ha & Hs & Hn).
    intros r0 [= <-]. split; simpl; rewrite ?Hc, ?He, ?Hs; try done; [by left; apply Hn|congruence].
  - unfold activate_entry. case_match; [done|by apply (entry_ok_same e)].
  - unfold schedule_retry_entry. repeat case_match; try done; by apply (entry_ok_same e).
  - unfold finish_retry_entry. case_match; by apply (entry_ok_same e).
  - unfold revoke_entry. case_match; [by apply entry_ok_none|done].
Qed.

(** ** Properties *)

Lemma query_none {A} id (a : A) f reg : sessions reg !! id = None → query id a f reg = a.
Proof. unfold query. by intros ->. Qed.

(** revocation is final.  Once the generation of a session is revoked, then
    whatever calls follow, short of issuing the session anew, the session is not
    active, has no reset pending, offers no generation for a launch, matches no
    generation and no native id, and every attempt to register a native id or to
    activate one is rejected without changing the registry. *)
Theorem revoked_is_final reg id gen e ins :
  sessions reg !! id = Some e → generation e = gen → Forall (λ i, ¬ issues id i) ins →
  let reg' := (run reg (OnEntry id (Revoke gen) :: ins)).1 in
  is_active id reg' = false ∧ identity_reset_pending id reg' = false
  ∧ generation_for_launch id reg' = None
  ∧ (∀ h g, generation_matches id h g reg' = false)
  ∧ (∀ h g n, native_id_matches id h g n reg' = false)
  ∧ (∀ h g n life obs, register_native_id id h g n life obs reg' = (reg', Rejected))
  ∧ (∀ h g n, activate id h g n reg' = (reg', false)).
Proof.
  intros He Hg Hins reg'. assert (Hdead : entry_holds id dead reg').
  { unfold reg'. rewrite run_cons. apply entry_holds_run; [apply dead_entry_call|done|].
    intros e'. simpl. unfold update_entry. rewrite on_entry_lookup, lookup_alter_eq, He. simpl.
    intros [= <-]. unfold revoke_entry. by rewrite Hg, eqb_refl. }
  clearbody reg'. unfold is_active, identity_reset_pending, generation_for_launch,
    generation_matches, native_id_matches, register_native_id, activate, on_entry, query.
  destruct (sessions reg' !! id) as [e'|] eqn:E; [|done].
  pose proof (Hdead e' E) as Hd. pose proof (owned_dead e') as Ho.
  destruct Hd as (Hr & Ha & Hn). rewrite Hr, Ha, Hn.
  assert (Hd : dead e') by by split. split; [done|]. split; [done|]. split; [done|].
  assert (Hreg : mkRegistry (<[id := e']> (sessions reg')) (next_instance reg') = reg')
    by (rewrite insert_id by done; by destruct reg').
  repeat split; intros; unfold register_entry, activate_entry; rewrite Ho by done; simpl; congruence.
Qed.

(** A session bound to ["n1"], with a reset reserved, acknowledged and held. *)
Definition demo_calls : list Call :=
  [Issue "s" "claude-code" "g" None;
   OnEntry "s" (RegisterNativeId "claude-code" "g" "n1" false None);
   OnEntry "s" (ReserveReset "claude-code" "/clear" 5);
   OnEntry "s" (RegisterNativeId "claude-code" "g" "n2" true None);
   OnEntry "s" AcknowledgeReset].
Definition demo : PromptAuthorityRegistry := (run new_registry demo_calls).1.
Definition demo_entry : SessionAuthority :=
  mkAuthority 0 "claude-code" "g" (Some "n1") false false 0
    (Some (mkReset true false false (Some "n2") (Some "n1") None None 5 None)) false false.
Example demo_entry_ok : sessions demo !! "s" = Some demo_entry.
Proof. vm_compute. reflexivity. Qed.

Lemma revoked_is_final_witness :
  let reg' := (run demo [OnEntry "s" (Revoke "g"); OnEntry "s" CompleteReset]).1 in
  is_active "s" reg' = false ∧ identity_reset_pending "s" reg' = false
  ∧ generation_for_launch "s" reg' = None
  ∧ (∀ h g, generation_matches "s" h g reg' = false)
  ∧ (∀ h g n, native_id_matches "s" h g n reg' = false)
  ∧ (∀ h g n life obs, register_native_id "s" h g n life obs reg' = (reg', Rejected))
  ∧ (∀ h g n, activate "s" h g n reg' = (reg', false)).
Proof.
  apply (revoked_is_final demo "s" "g" demo_entry [OnEntry "s" CompleteReset]).
  - vm_compute. reflexivity.
  - reflexivity.
  - repeat constructor. intros [].
Defined.

(** Registries reached by calls that follow the protocol. *)
Inductive follows : PromptAuthorityRegistry → Prop :=
  | follows_new : follows new_registry
  | follows_call reg i :
      follows reg →
      (∀ id j e, i = OnEntry id j → sessions reg !! id = Some e → disciplined j e) →
      follows (call reg i).1.

Lemma follows_ok reg id e : follows reg → sessions reg !! id = Some e → entry_ok e.
Proof.
  intros H. revert id e. induction H as [|reg i H IH Hd]; intros id e; [done|].
  destruct i as [id' h g n|id' j|id'|id' g]; simpl.
  - destruct (decide (id = id')) as [->|Hid].
    + rewrite lookup_insert_eq. intros [= <-]. by apply entry_ok_none.
    + rewrite lookup_insert_ne by done. apply IH.
  - unfold update_entry. rewrite on_entry_lookup. destruct (decide (id = id')) as [->|Hid].
    + rewrite lookup_alter_eq. destruct (sessions reg !! id') as [e0|] eqn:E; simpl; [|done].
      intros [= <-]. apply entry_ok_call; [by eapply IH|by eapply Hd].
    + rewrite lookup_alter_ne by done. apply IH.
  - unfold remove. simpl. intros [_ Hl]%lookup_delete_Some. by eapply IH.
  - unfold remove_if_generation, remove. case_match; [|apply IH]. simpl.
    intros [_ Hl]%lookup_delete_Some. by eapply IH.
Qed.

(** a session's identity is replaced only by its reset protocol.  In every
    registry reached by calls that follow the protocol, a call on an entry changes
    its native id in two ways only: a registration binds the first id of an entry
    that has none and no reset pending; or [complete_reset], after the reset was
    acknowledged, puts the held candidate (or none) in its place.  The candidate
    is never the identity the reset retires, and a completion moves the epoch
    unless the same reset already did. *)
Theorem identity_replaced_by_reset reg id e j :
  follows reg → sessions reg !! id = Some e → disciplined j e →
  native_session_id (entry_call j e) ≠ native_session_id e →
  (∃ h g n life obs, j = RegisterNativeId h g n life obs ∧ native_session_id e = None
     ∧ reset e = None ∧ native_session_id (entry_call j e) = Some n
     ∧ (register_native_id id h g n life obs reg).2 = Bound)
  ∨ (∃ r, j = CompleteReset ∧ reset e = Some r ∧ acknowledged r = true
     ∧ native_session_id (entry_call j e) = candidate_native_session_id r
     ∧ (∀ c, candidate_native_session_id r = Some c → retired_native_session_id r ≠ Some c)
     ∧ epoch (entry_call j e)
       = if epoch_committed r then epoch e else saturating_add u64_max (epoch e) 1).
Proof.
  intros Hf He Hd. pose proof (follows_ok reg id e Hf He) as Hok. destruct j; simpl.
  - intros Hn. left. exists harness, gen, native, lifecycle_reset, observed. revert Hn.
    unfold register_native_id, on_entry. rewrite He. unfold register_entry, hold_candidate.
    destruct (_ || _); [done|].
    destruct (native_session_id e) as [current|] eqn:En.
    + repeat case_match; intros Hn; exfalso; apply Hn; exact En.
    + destruct (reset e) as [r|]; [repeat case_match; intros Hn; exfalso; apply Hn; exact En|].
      intros _. by repeat split.
  - unfold reserve_entry. by case_match.
  - unfold acknowledge_entry. by repeat case_match.
  - intros Hn. right. revert Hn. unfold complete_entry.
    destruct (reset e) as [r|] eqn:Er; [|done]. destruct (acknowledged r) eqn:Ea; simpl; [|done].
    pose proof (ok_candidate _ _ (Hok r Er)) as Hc. intros Hn. exists r.
    split; [done|]. split; [done|]. split; [done|].
    destruct (candidate_native_session_id r) as [c|] eqn:Ec.
    + destruct (queued_prompt_wait r), (epoch_committed r); done.
    + destruct (epoch_committed r); done.
  - unfold mark_clear_applied_entry. by repeat case_match.
  - done.
  - unfold deactivate_entry. by repeat case_match.
  - unfold finish_queued_entry. by repeat case_match.
  - unfold queue_entry. by repeat case_match.
  - done.
  - unfold activate_entry. by repeat case_match.
  - unfold schedule_retry_entry. by repeat case_match.
  - unfold finish_retry_entry. by repeat case_match.
  - unfold revoke_entry. by repeat case_match.
Qed.

Lemma demo_follows : follows demo.
Proof.
  assert (H : ∀ ins reg, follows reg →
    Forall (λ i, match i with OnEntry _ CancelReset => False | _ => True end) ins →
    follows (run reg ins).1).
  { induction ins as [|i ins IH]; intros reg Hreg Hi; [done|]. apply Forall_cons in Hi as [Hi Hins].
    rewrite run_cons. apply IH; [|done]. constructor; [done|].
    intros id j e -> _. by destruct j. }
  apply (H demo_calls); [constructor|]. by repeat constructor.
Qed.

Lemma identity_replaced_by_reset_witness :
  (∃ h g n life obs, CompleteReset = RegisterNativeId h g n life obs
     ∧ native_session_id demo_entry = None
     ∧ reset demo_entry = None ∧ native_session_id (entry_call CompleteReset demo_entry) = Some n
     ∧ (register_native_id "s" h g n life obs demo).2 = Bound)
  ∨ (∃ r, CompleteReset = CompleteReset ∧ reset demo_entry = Some r ∧ acknowledged r = true
     ∧ native_session_id (entry_call CompleteReset demo_entry) = candidate_native_session_id r
     ∧ (∀ c, candidate_native_session_id r = Some c → retired_native_session_id r ≠ Some c)
     ∧ epoch (entry_call CompleteReset demo_entry)
       = if epoch_committed r then epoch demo_entry
         else saturating_add u64_max (epoch demo_entry) 1).
Proof.
  apply (identity_replaced_by_reset demo "s" demo_entry CompleteReset demo_follows).
  - vm_compute. reflexivity.
  - exact I.
  - discriminate.
Defined.

(** Completing a reset is idempotent.  A second [complete_reset] changes
    nothing: it repeats the same commit while the reset is still in place, and
    yields nothing once the reset is finished, which happens exactly when a
    candidate was committed with no prompt wait left to deliver.  So a retried
    completion neither advances the epoch again nor loses the queued wait. *)
Theorem complete_reset_idempotent reg id reg1 c :
  complete_reset id reg = (reg1, Some c) →
  complete_reset id reg1 =
    (reg1, if is_some (commit_native_session_id c) && is_none (commit_queued_prompt_wait c)
           then None else Some c).
Proof.
  unfold complete_reset, on_entry. destruct (sessions reg !! id) as [e|] eqn:E; [|done].
  destruct (complete_entry e) as [e1 c'] eqn:Ee. intros [= <- ->]. simpl.
  rewrite lookup_insert_eq.
  assert (H : complete_entry e1 = (e1, if is_some (commit_native_session_id c)
    && is_none (commit_queued_prompt_wait c) then None else Some c)).
  { revert Ee. unfold complete_entry at 1. destruct (reset e) as [r|] eqn:Er; [|done].
    destruct (acknowledged r) eqn:Ea; simpl; [|done].
    destruct (candidate_native_session_id r) as [n|] eqn:En.
    - destruct (queued_prompt_wait r) as [q|] eqn:Eq, (epoch_committed r) eqn:Ec; simpl;
        intros [= <- <-]; unfold complete_entry; simpl; rewrite ?Ea, ?En; simpl; rewrite ?Eq;
        unfold set_active, set_reset, set_native_session_id, set_epoch_committed; simpl;
        rewrite ?En, ?Ea, ?Eq; done.
    - destruct (epoch_committed r) eqn:Ec; simpl; intros [= <- <-]; unfold complete_entry; simpl.
      + by rewrite Er, Ea, En, Ec.
      + by rewrite Ea, En. }
  rewrite H. f_equal. f_equal. by rewrite insert_insert_eq.
Qed.

Lemma complete_reset_idempotent_witness :
  complete_reset "s" (complete_reset "s" demo).1 = ((complete_reset "s" demo).1, None).
Proof.
  apply (complete_reset_idempotent demo "s" _ (mkCommit (Some "n2") None None)).
  vm_compute. reflexivity.
Defined.

(** Delivering the waits of one held candidate. *)
Fixpoint queue_all (h g n : string) (ws : list QueuedPromptWait) (e : SessionAuthority)
    : SessionAuthority :=
  match ws with
  | [] => e
  | w :: ws => queue_all h g n ws (queue_entry h g n w e).1
  end.
Definition same_wait (w q : QueuedPromptWait) : Prop :=
  notification_type q = notification_type w ∧ observed_at q = observed_at w
  ∧ receipt_sequence q = receipt_sequence w
  ∧ committed_input_sequence q = committed_input_sequence w.
Definition not_newer (q w : QueuedPromptWait) : Prop :=
  supersedes q (observed_at w) (receipt_sequence w) = false.

Definition timed (b : bool) (q : QueuedPromptWait) : Prop := is_some (observed_at q) = b.

(** Among waits of one kind [not_newer] is a total preorder. *)
Lemma not_newer_refl q : not_newer q q.
Proof.
  unfold not_newer, supersedes. destruct (observed_at q) as [x|]; [|apply Z.ltb_irrefl].
  by rewrite !Z.ltb_irrefl, andb_false_r.
Qed.
Lemma not_newer_trans b p q w :
  timed b p → timed b q → timed b w → not_newer p q → not_newer q w → not_newer p w.
Proof.
  unfold timed, not_newer, supersedes. intros Hp Hq Hw.
  destruct (observed_at p), (observed_at q), (observed_at w); simpl in *; try congruence;
    rewrite ?orb_false_iff, ?andb_false_iff, ?Z.ltb_ge, ?Z.eqb_neq; lia.
Qed.
Lemma not_newer_supersedes b p q :
  timed b p → timed b q → supersedes p (observed_at q) (receipt_sequence q) = true → not_newer q p.
Proof.
  unfold timed, not_newer, supersedes. intros Hp Hq.
  destruct (observed_at p), (observed_at q); simpl in *; try congruence;
    rewrite ?orb_true_iff, ?orb_false_iff, ?andb_true_iff, ?andb_false_iff, ?Z.ltb_lt, ?Z.ltb_ge,
      ?Z.eqb_eq, ?Z.eqb_neq; lia.
Qed.
Lemma not_newer_same q w w' : same_wait w w' → not_newer q w ↔ not_newer q w'.
Proof. intros (_ & Ho & Hr & _). unfold not_newer. by rewrite Ho, Hr. Qed.

(** The entry after some deliveries, with [q] queued. *)
Definition holds_wait (n : string) (q : option QueuedPromptWait) (e : SessionAuthority) : Prop :=
  ∃ r, reset e = Some r ∧ candidate_native_session_id r = Some n ∧ queued_prompt_wait r = q.

Lemma queue_entry_step b h g n w q e :
  owned e h g = true → holds_wait n (Some q) e → timed b q → timed b w →
  owned (queue_entry h g n w e).1 h g = true
  ∧ ∃ q', holds_wait n (Some q') (queue_entry h g n w e).1 ∧ timed b q'
      ∧ not_newer q' q ∧ not_newer q' w ∧ (q' = q ∨ same_wait w q').
Proof.
  intros Ho (r & Er & Ec & Eq) Hq Hw. unfold queue_entry.
  rewrite Ho, Er. simpl. rewrite Ec, eqb_refl. simpl. rewrite Eq. simpl.
  destruct (supersedes q _ _) eqn:Es; simpl; split; try done.
  - eexists. split; [by eexists|]. split; [done|]. split; [by apply (not_newer_supersedes b)|].
    split; [|by right]. set (w0 := mkQueued _ _ _ _ _).
    apply (not_newer_same w0 w w0); [done|apply not_newer_refl].
  - exists q. split; [by exists r|]. split; [done|]. split; [apply not_newer_refl|].
    split; [done|by left].
Qed.

Lemma queue_all_newest b h g n ws e q :
  Forall (timed b) ws → owned e h g = true → holds_wait n (Some q) e → timed b q →
  ∃ q', holds_wait n (Some q') (queue_all h g n ws e) ∧ timed b q' ∧ not_newer q' q
    ∧ Forall (not_newer q') ws ∧ (q' = q ∨ ∃ w, w ∈ ws ∧ same_wait w q').
Proof.
  intros Hws. revert e q. induction Hws as [|w ws Hw Hws IH]; intros e q Ho He Hq; simpl.
  { exists q. repeat split; auto. apply not_newer_refl. }
  destruct (queue_entry_step b h g n w q e Ho He Hq Hw) as (Ho1 & q1 & He1 & Hq1 & Hn1 & Hw1 & Hor).
  destruct (IH _ q1 Ho1 He1 Hq1) as (q' & He' & Hq' & Hn' & Hall & Hor').
  exists q'. split; [done|]. split; [done|]. split; [by apply (not_newer_trans b q' q1 q)|].
  split; [constructor; [by apply (not_newer_trans b q' q1 w)|done]|].
  destruct Hor' as [->|(w' & Hin & Hs)]; [|right; exists w'; split; [by right|done]].
  destruct Hor as [->|Hs]; [by left|]. right. exists w. split; [left|done].
Qed.

(** the newest prompt wait is the one delivered.  While a candidate is held,
    prompt waits for it arrive in any order and any number; if all carry an
    observation time, or none does, the wait left in the queue is one of them and
    no other is newer (by observation time, then receipt sequence), so a delayed
    or duplicated delivery never replaces a later prompt. *)
Theorem newest_wait_queued b h g n w ws e :
  owned e h g = true → holds_wait n None e → Forall (timed b) (w :: ws) →
  ∃ q, holds_wait n (Some q) (queue_all h g n (w :: ws) e)
    ∧ (∃ w', w' ∈ w :: ws ∧ same_wait w' q) ∧ Forall (not_newer q) (w :: ws).
Proof.
  intros Ho (r & Er & Ec & Eq) [Hw Hws]%Forall_cons. simpl.
  set (w0 := mkQueued (notification_type w) (observed_at w) (receipt_sequence w)
    (committed_input_sequence w) (opt_filter (λ cwd, cwd != "") (cwd w))).
  assert (H1 : (queue_entry h g n w e).1 = set_reset (Some (set_queued_prompt_wait (Some w0) r)) e).
  { unfold queue_entry. rewrite Ho, Er. simpl. by rewrite Ec, eqb_refl, Eq. }
  rewrite H1. assert (Hs : same_wait w w0) by done.
  destruct (queue_all_newest b h g n ws (set_reset (Some (set_queued_prompt_wait (Some w0) r)) e) w0)
    as (q & He & Hq & Hn & Hall & Hor); [done|done|by eexists|done|].
  exists q. split; [done|]. split.
  - destruct Hor as [->|(w' & Hin & ?)]; [exists w; split; [left|done]|].
    exists w'. split; [by right|done].
  - constructor; [|done]. by apply (not_newer_same q w w0).
Qed.

Definition wait_at (t seq : Z) : QueuedPromptWait := mkQueued "permission" (Some t) seq 0 None.
Lemma newest_wait_queued_witness :
  ∃ q, holds_wait "n2" (Some q)
      (queue_all "claude-code" "g" "n2" [wait_at 5 1; wait_at 9 2; wait_at 7 3] demo_entry)
    ∧ (∃ w', w' ∈ [wait_at 5 1; wait_at 9 2; wait_at 7 3] ∧ same_wait w' q)
    ∧ Forall (not_newer q) [wait_at 5 1; wait_at 9 2; wait_at 7 3].
Proof.
  apply (newest_wait_queued true "claude-code" "g" "n2" (wait_at 5 1) [wait_at 9 2; wait_at 7 3]
    demo_entry).
  - reflexivity.
  - eexists. split; [reflexivity|]. split; reflexivity.
  - repeat constructor.
Defined.

(** No retry is lost.  While a retry worker is scheduled, a request made
    because a commit is still pending is remembered through any calls but the
    worker's own [finish_reset_retry]; that call then keeps the worker going if
    and only if a commit is still pending, and otherwise releases the schedule,
    so that the next request starts a worker. *)
Theorem retry_not_lost e js :
  reset_retry_scheduled e = true → entry_commit_pending e = true → Forall (λ j, j ≠ FinishRetry) js →
  let e' := fold_left (λ e j, entry_call j e) (ScheduleRetry :: js) e in
  (finish_retry_entry e').2 = entry_commit_pending e'
  ∧ reset_retry_scheduled (finish_retry_entry e').1 = entry_commit_pending e'.
Proof.
  intros Hs Hp Hjs. simpl. unfold schedule_retry_entry. rewrite Hp, Hs. simpl.
  assert (H : ∀ e, reset_retry_scheduled e = true → reset_retry_requested e = true →
    reset_retry_scheduled (fold_left (λ e j, entry_call j e) js e) = true
    ∧ reset_retry_requested (fold_left (λ e j, entry_call j e) js e) = true).
  { clear -Hjs. induction Hjs as [|j js Hj _ IH]; intros e He Hr; simpl; [done|].
    assert (Hstep : reset_retry_scheduled (entry_call j e) = reset_retry_scheduled e
      ∧ (reset_retry_requested e = true → reset_retry_requested (entry_call j e) = true)).
    { destruct j; simpl; unfold register_entry, hold_candidate, reserve_entry, acknowledge_entry,
        complete_entry, mark_clear_applied_entry, deactivate_entry, finish_queued_entry, queue_entry,
        activate_entry, schedule_retry_entry, revoke_entry; rewrite ?He; repeat case_match; done. }
    destruct Hstep as [H1 H2]. apply IH; [congruence|auto]. }
  destruct (H (set_reset_retry_requested true e)) as [H1 H2]; [done..|].
  unfold finish_retry_entry. rewrite H2, andb_true_r.
  clear Hp. destruct (entry_commit_pending _); [|done]. split; [done|exact H1].
Qed.

Lemma retry_not_lost_witness :
  let e := set_reset_retry_scheduled true demo_entry in
  let e' := fold_left (λ e j, entry_call j e) [ScheduleRetry; CompleteReset] e in
  (finish_retry_entry e').2 = entry_commit_pending e'
  ∧ reset_retry_scheduled (finish_retry_entry e').1 = entry_commit_pending e'.
Proof.
  apply (retry_not_lost (set_reset_retry_scheduled true demo_entry) [CompleteReset]);
    [reflexivity..|]. by repeat constructor.
Defined.
