(* ===== verification/ObservedStatus.v ===== *)
(** * Writes of the observed status

    [runtime/observed_status.rs] and [canonical_attention] of [metadata.rs]: the
    write token that proves that no write was accepted since it was issued, and
    the two kinds of write, a reported observation and a transition the sidecar
    observes itself.

    Of [SessionInfo] and [SessionMetadata] only the fields these functions read or
    write are modelled; [iso_now] is the argument [now].  A confidence is an
    integer number of hundredths.  The [Arc] identity of an owner is a number. *)
From S2P Require Export Prelude.

Record AttentionOwner : Type := mkOwner {
  identity : Z;
  revision : option Z;
}.
Record AttentionWriteToken : Type := mkToken {
  token_identity : Z;
  token_revision : Z;
}.

(** [AttentionOwner::default], with a fresh identity. *)
Definition default_owner (fresh : Z) : AttentionOwner := mkOwner fresh (Some 0).

Definition snapshot (o : AttentionOwner) : option AttentionWriteToken :=
  mkToken (identity o) <$> revision o.

Definition accepted_write (o : AttentionOwner) : AttentionOwner * option AttentionWriteToken :=
  let o := mkOwner (identity o) (revision o ≫= λ revision, checked_add u64_max revision 1) in
  (o, snapshot o).

Definition owns (o : AttentionOwner) (t : AttentionWriteToken) : bool :=
  (identity o =? token_identity t) && (revision o == Some (token_revision t)).

Definition canonical_attention (raw : option string) : option string :=
  match raw with
  | Some raw =>
      if raw == "waiting_for_input" then Some "needs_you"
      else if (raw == "stale") || (raw == "done") then Some "idle"
      else if (raw == "working") || (raw == "idle") || (raw == "blocked") || (raw == "failed")
              || (raw == "capped") then Some raw
      else None
  | None => None
  end.

(** The fields of a session's live record, and of its persisted metadata. *)
Record SessionInfo : Type := mkInfo {
  observed_status : option string;
  attention : option string;
  lifecycle : string;
  summary : option string;
  metadata_source : option string;
  needs_user_input : option bool;
  detected_question : option string;
  suggested_options : option (list string);
  attention_source : option string;
  attention_confidence : option Z;
  attention_origin : option string;
  attention_updated_at : option string;
}.

(** The fields every accepted write of the status sets. *)
Definition set_status (status attention : option string) (source origin : string)
    (confidence : Z) (updated : option string) (i : SessionInfo) : SessionInfo :=
  mkInfo status attention (lifecycle i) (summary i) (metadata_source i) (needs_user_input i)
    (detected_question i) (suggested_options i) (Some source) (Some confidence) (Some origin) updated.
Definition set_summary (v : option string) (i : SessionInfo) : SessionInfo :=
  mkInfo (observed_status i) (attention i) (lifecycle i) v (metadata_source i) (needs_user_input i)
    (detected_question i) (suggested_options i) (attention_source i) (attention_confidence i)
    (attention_origin i) (attention_updated_at i).
Definition clear_question (i : SessionInfo) : SessionInfo :=
  mkInfo (observed_status i) (attention i) (lifecycle i) (summary i) (metadata_source i) None None
    None (attention_source i) (attention_confidence i) (attention_origin i) (attention_updated_at i).

Definition origin_of (source : string) : string :=
  if source == "codex_hook" then "harness_hook"
  else if source == "agent" then "direct_agent"
  else if source == "user" then "user"
  else if source == "peon" then "peon"
  else if source == "process" then "process"
  else if source == "debug" then "debug"
  else "backend_inference".

Definition apply_live_attention_fields (status : string) (message : option string)
    (source : string) (confidence : Z) (now : string) (x : SessionInfo * AttentionOwner)
    : SessionInfo * AttentionOwner :=
  let '(info, owner) := x in
  let owner := (accepted_write owner).1 in
  let att := if lifecycle info == "alive" then canonical_attention (Some status) else attention info in
  let info := if is_some message then set_summary message info else info in
  (set_status (Some status) att (if source == "codex_hook" then "agent" else source)
     (origin_of source) confidence (Some now) info, owner).

Inductive ProcessTransition : Type := CommittedWorking | IdleTimeout.

Record ProcessTransitionFields : Type := mkFields {
  fields_status : string;
  clear_question_fields : bool;
}.

Definition process_transition_fields (kind : ProcessTransition) : ProcessTransitionFields :=
  match kind with
  | CommittedWorking => mkFields "working" true
  | IdleTimeout => mkFields "idle" false
  end.

(** The source a session's attention is attributed to. *)
Definition attributed_source (i : SessionInfo) : option string :=
  opt_or (attention_source i) (metadata_source i).

Definition apply_process_transition_to_handle (f : ProcessTransitionFields) (now : string)
    (x : SessionInfo * AttentionOwner) : SessionInfo * AttentionOwner :=
  let '(info, owner) := x in
  if attributed_source info == Some "user" then (info, owner)
  else
    let owner := (accepted_write owner).1 in
    let info := set_status (Some (fields_status f)) (Some (fields_status f)) "process" "process" 100
                  (Some now) info in
    (if clear_question_fields f then clear_question info else info, owner).

Definition apply_process_transition_to_meta (f : ProcessTransitionFields) (meta : SessionInfo)
    : SessionInfo :=
  let meta := set_status (Some (fields_status f)) (Some (fields_status f)) "process" "process" 100
                (attention_updated_at meta) meta in
  if clear_question_fields f then clear_question meta else meta.

(** ** The machine of a live session *)

Inductive Call : Type :=
  | Report (status : string) (message : option string) (source : string) (confidence : Z)
      (now : string)
  | Transition (kind : ProcessTransition) (now : string)
  | AcceptedWrite.

Definition call (x : SessionInfo * AttentionOwner) (i : Call)
    : (SessionInfo * AttentionOwner) * option AttentionWriteToken :=
  match i with
  | Report status message source confidence now =>
      let x := apply_live_attention_fields status message source confidence now x in
      (x, snapshot x.2)
  | Transition kind now =>
      let x := apply_process_transition_to_handle (process_transition_fields kind) now x in
      (x, snapshot x.2)
  | AcceptedWrite =>
      let '(owner, token) := accepted_write x.2 in ((x.1, owner), token)
  end.

#[export] Instance status_machine :
  Machine (SessionInfo * AttentionOwner) Call (option AttentionWriteToken) := {
  initial x := ∃ fresh, x.2 = default_owner fresh;
  step := call;
}.

(** A call writes unless it is a transition of a session the user marked. *)
Definition writes (x : SessionInfo * AttentionOwner) (i : Call) : bool :=
  match i with Transition _ _ => attributed_source x.1 != Some "user" | _ => true end.

Fixpoint any_writes (x : SessionInfo * AttentionOwner) (ins : list Call) : bool :=
  match ins with
  | [] => false
  | i :: ins => writes x i || any_writes (call x i).1 ins
  end.

Lemma call_owner x i :
  (call x i).1.2 = if writes x i then (accepted_write x.2).1 else x.2.
Proof.
  destruct x as [info owner], i; simpl; try done.
  unfold apply_process_transition_to_handle. by destruct (attributed_source info == Some "user").
Qed.

Lemma call_unwritten x i : writes x i = false → (call x i).1 = x.
Proof.
  destruct x as [info owner], i; simpl; try done. intros H.
  unfold apply_process_transition_to_handle. apply negb_false_iff in H. by rewrite H.
Qed.

(** The revision counts the accepted writes, until it is exhausted for good. *)
Lemma run_revision x ins :
  identity (run x ins).1.2 = identity x.2
  ∧ ∀ m, revision (run x ins).1.2 = Some m →
      ∃ n, revision x.2 = Some n ∧ if any_writes x ins then n < m else n = m ∧ (run x ins).1 = x.
Proof.
  revert x. induction ins as [|i ins IH]; intros x; [split; [done|]; intros m Hm; by exists m|].
  rewrite run_cons. destruct (IH (step x i).1) as [Hid Hrev]. cbn [fst any_writes].
  change (step x i) with (call x i) in *. pose proof (call_owner x i) as Ho.
  destruct (writes x i) eqn:Hw; simpl.
  - split; [by rewrite Hid, Ho|]. intros m Hm. destruct (Hrev m Hm) as (k & Hk & Hkm).
    rewrite Ho in Hk. simpl in Hk. destruct (revision x.2) as [n|]; simpl in *; [|done].
    apply checked_add_Some in Hk as [-> _]. exists n. split; [done|].
    destruct (any_writes (call x i).1 ins); lia.
  - pose proof (call_unwritten x i Hw) as Hx. rewrite Hx in *. done.
Qed.

(** ** Properties *)

(** a write token is a proof of no write.  A token issued for a session is
    honoured after any sequence of calls if and only if none of them wrote, and
    then the session's record is unchanged too; a token of another owner is never
    honoured.  An identical write revokes it as well, and exhaustion of the
    counter can only revoke. *)
Theorem token_owns_iff_unwritten x ins t :
  snapshot x.2 = Some t →
  (owns (run x ins).1.2 t = true ↔ any_writes x ins = false)
  ∧ (any_writes x ins = false → (run x ins).1 = x)
  ∧ ∀ y, identity y.2 ≠ identity x.2 → owns (run y ins).1.2 t = false.
Proof.
  unfold snapshot. intros (n & Hn & ->)%fmap_Some.
  destruct (run_revision x ins) as [Hid Hrev].
  assert (Hun : any_writes x ins = false → (run x ins).1 = x).
  { clear. revert x. induction ins as [|i ins IH]; intros x; [done|]. simpl any_writes.
    intros [Hw Ha]%orb_false_iff. rewrite run_cons. change (step x i) with (call x i).
    rewrite (call_unwritten x i Hw) in *. by apply IH. }
  split; [|split; [done|]].
  - unfold owns. simpl. rewrite Hid, Z.eqb_refl. simpl. split.
    + intros Hm%eqb_elim. destruct (Hrev n Hm) as (k & Hk & H).
      destruct (any_writes x ins); [|done]. assert (k = n) by congruence. lia.
    + intros Ha. rewrite (Hun Ha), Hn. apply eqb_refl.
  - intros y Hy. destruct (run_revision y ins) as [Hid' _]. unfold owns. simpl. rewrite Hid'.
    by rewrite (proj2 (Z.eqb_neq _ _)).
Qed.

Definition demo_info (source : option string) : SessionInfo :=
  mkInfo (Some "working") (Some "working") "alive" None None (Some true) (Some "ok?") None source
    None None None.
Lemma token_owns_iff_unwritten_witness :
  let x := (demo_info (Some "user"), default_owner 1) in
  (owns (run x [Transition IdleTimeout "t"]).1.2 (mkToken 1 0) = true
     ↔ any_writes x [Transition IdleTimeout "t"] = false)
  ∧ (any_writes x [Transition IdleTimeout "t"] = false → (run x [Transition IdleTimeout "t"]).1 = x)
  ∧ ∀ y, identity y.2 ≠ identity x.2 →
      owns (run y [Transition IdleTimeout "t"]).1.2 (mkToken 1 0) = false.
Proof.
  apply (token_owns_iff_unwritten (demo_info (Some "user"), default_owner 1)
           [Transition IdleTimeout "t"] (mkToken 1 0)).
  reflexivity.
Defined.

(** The user's mark wins, and the two copies agree.  A process transition
    leaves a session attributed to the user untouched, and otherwise the live
    record and the persisted metadata receive the same fields (the live record
    also its time): the status and attention of the transition, the process as
    source and origin, and no question fields when input was committed.  A report
    on a session that is not alive changes no attention, and on a live one it sets
    the canonical attention of the reported status. *)
Theorem transition_respects_user info owner kind now :
  let f := process_transition_fields kind in
  let x := apply_process_transition_to_handle f now (info, owner) in
  (attributed_source info = Some "user" → x = (info, owner))
  ∧ (attributed_source info ≠ Some "user" →
       x.1 = set_status (Some (fields_status f)) (Some (fields_status f)) "process" "process" 100
               (Some now) (apply_process_transition_to_meta f info)
       ∧ attributed_source x.1 = Some "process"
       ∧ canonical_attention (attention x.1) = attention x.1
       ∧ (kind = CommittedWorking → needs_user_input x.1 = None ∧ detected_question x.1 = None
            ∧ suggested_options x.1 = None)
       ∧ ∀ t, snapshot owner = Some t → owns x.2 t = false)
  ∧ ∀ status message source confidence now',
      attention (apply_live_attention_fields status message source confidence now' (info, owner)).1
      = if lifecycle info == "alive" then canonical_attention (Some status) else attention info.
Proof.
  intros f x. split; [|split].
  - intros Hu. unfold x, apply_process_transition_to_handle. by rewrite Hu, eqb_refl.
  - intros Hu%eqb_false. unfold x, apply_process_transition_to_handle. rewrite Hu.
    split; [by destruct kind|]. split; [by destruct kind|]. split; [by destruct kind|].
    split; [by intros ->|]. intros t Ht. unfold snapshot in Ht.
    apply fmap_Some in Ht as (n & Hn & ->). unfold owns, accepted_write. simpl. rewrite Hn. simpl.
    destruct (checked_add u64_max n 1) as [m|] eqn:E; [|by rewrite andb_false_r].
    apply checked_add_Some in E as [-> _]. rewrite andb_false_iff. right. apply eqb_false.
    intros [= H]. lia.
  - intros. simpl. by destruct (is_some message).
Qed.

Lemma transition_respects_user_witness :
  apply_process_transition_to_handle (process_transition_fields IdleTimeout) "t"
    (demo_info (Some "user"), default_owner 1) = (demo_info (Some "user"), default_owner 1).
Proof.
  destruct (transition_respects_user (demo_info (Some "user")) (default_owner 1) IdleTimeout "t")
    as [H _].
  apply H. reflexivity.
Defined.
