(* ===== verification/PublicationAuthority.v ===== *)
(** * Publication authority

    [taskmaster/publication_authority.rs]: the in-memory latch that lets one
    evaluation at a time be claimed, settled and answered, under a hierarchy of
    scopes that can be closed for good.

    The objects behind [Arc]s are cells of a heap: an authority ([Inner] with its
    mutex), a scope node, a binding.  A cell's address is a number, [Arc::ptr_eq]
    is equality of addresses, and cells are never reused while referenced.  The
    flags are only accessed under the owner's mutex, so one method is one step and
    concurrent callers are interleavings of steps. *)
From S2P Require Export Prelude.

Inductive Error : Type :=
  | Closed | Unissued | Foreign | Busy | Conflict | Unavailable | Exhausted.
#[export] Instance Error_eq_dec : EqDecision Error.
Proof. solve_decision. Defined.

Record ClaimIdentity : Type := mkIdentity {
  sidecar_generation : list Z;
  sequence : Z;
}.
#[export] Instance ClaimIdentity_eq_dec : EqDecision ClaimIdentity.
Proof. solve_decision. Defined.

(** A shared buffer: its address and its bytes. *)
Record Buffer : Type := mkBuffer { buffer_addr : Z; buffer_bytes : list Z }.

Record Scope : Type := mkScope {
  node : Z;
  workspace : Z;
  parents : option Z * option Z;
}.

(** The addresses of the parents, in order. *)
Definition parent_list (s : Scope) : list Z :=
  let '(p, q) := parents s in option_list p ++ option_list q.

(** [Scope::namespace]. *)
Definition namespace (s : Scope) : option Z :=
  match parents s with
  | (Some namespace, Some _) => Some namespace
  | (Some _, None) => Some (node s)
  | _ => None
  end.

Record ScopeState : Type := mkScopeState {
  owner : Z;
  scope_closed : bool;
}.

Record BindingData : Type := mkBinding {
  scope : Scope;
  phase : Z;
  source : list Z;
}.
Definition UNISSUED : Z := 0.
Definition OPEN : Z := 1.
Definition CLOSED : Z := 2.

Record Pending : Type := mkPending {
  pending_identity : ClaimIdentity;
  pending_binding : Z;
  pending_intent : Buffer;
  uncertain : bool;
}.

Record State : Type := mkState {
  closed : bool;
  last_sequence : Z;
  selected : option Z;
  pending : option Pending;
}.

(** An authority: its generation, its mutex and the state inside. *)
Record Inner : Type := mkInner {
  generation : list Z;
  poisoned : bool;
  state : State;
}.

Record Heap : Type := mkHeap {
  authorities : Z → Inner;
  nodes : Z → ScopeState;
  bindings : Z → BindingData;
}.

Record ReadyEvaluation : Type := mkReady { ready_binding : Z; ready_intent : Buffer }.
Record ClaimedEvaluation : Type := mkClaimed {
  claim_owner : Z;
  claim_identity : ClaimIdentity;
  claim_binding : Z;
  claim_intent : Buffer;
}.
Inductive Disposition : Type := Committed | RolledBack | Unknown.
#[export] Instance Disposition_eq_dec : EqDecision Disposition.
Proof. solve_decision. Defined.
Record ReadyResponse : Type := mkResponse { response_binding : Z; response_bytes : list Z }.

(** Updates of one cell. *)
Definition upd {A} (k : Z) (v : A) (f : Z → A) : Z → A := λ j, if j =? k then v else f j.
Definition set_state (a : Z) (s : State) (h : Heap) : Heap :=
  mkHeap (upd a (mkInner (generation (authorities h a)) (poisoned (authorities h a)) s)
            (authorities h)) (nodes h) (bindings h).
Definition close_node (n : Z) (h : Heap) : Heap :=
  mkHeap (authorities h) (upd n (mkScopeState (owner (nodes h n)) true) (nodes h)) (bindings h).
Definition set_phase (b v : Z) (h : Heap) : Heap :=
  mkHeap (authorities h) (nodes h)
    (upd b (mkBinding (scope (bindings h b)) v (source (bindings h b))) (bindings h)).

(** [Authority::from_entropy] at a fresh address; [None] is a failed entropy
    source. *)
Definition from_generation (gen : list Z) : Inner :=
  mkInner gen false (mkState false 0 None None).
Definition from_entropy (entropy : option (list Z)) : result Error Inner :=
  ok_or Unavailable (from_generation <$> entropy).

(** ** Guards *)

Definition lock (h : Heap) (a : Z) : result Error State :=
  if poisoned (authorities h a) then Err Unavailable else Ok (state (authorities h a)).

Definition owns (a owner : Z) : bool := owner =? a.
Definition owns_scope (h : Heap) (a : Z) (s : Scope) : result Error unit :=
  ensure (owns a (owner (nodes h (node s))) && owns a (owner (nodes h (workspace s)))
    && forallb (λ p, owns a (owner (nodes h p))) (parent_list s)) Foreign.

(** The second test of [check_scope]. *)
Definition scope_open (h : Heap) (st : State) (s : Scope) : bool :=
  negb (closed st) && negb (scope_closed (nodes h (node s)))
  && negb (scope_closed (nodes h (workspace s)))
  && forallb (λ p, negb (scope_closed (nodes h p))) (parent_list s)
  && (selected st == Some (workspace s)).
Definition check_scope (h : Heap) (a : Z) (st : State) (s : Scope) : result Error unit :=
  owns_scope h a s ≫= λ _, ensure (scope_open h st s) Closed.

Definition check_phase (phase : Z) : result Error unit :=
  if phase =? OPEN then Ok tt
  else if phase =? UNISSUED then Err Unissued
  else if phase =? CLOSED then Err Closed
  else Err Unavailable.
Definition check_binding (h : Heap) (a : Z) (st : State) (b : Z) : result Error unit :=
  check_scope h a st (scope (bindings h b)) ≫= λ _, check_phase (phase (bindings h b)).

(** ** Methods

    A method returns the heap and its result; the heap is unchanged on an
    error. *)
Definition returns {A} (h : Heap) (m : result Error (Heap * A)) : Heap * result Error A :=
  match m with Ok (h, a) => (h, Ok a) | Err e => (h, Err e) end.

Definition register_source_binding (a b : Z) (h : Heap) : Heap * result Error unit :=
  returns h (
    st ← lock h a;
    _ ← check_scope h a st (scope (bindings h b));
    let phase := phase (bindings h b) in
    if phase =? UNISSUED then Ok (set_phase b OPEN h, tt)
    else if phase =? OPEN then Err Conflict
    else if phase =? CLOSED then Err Closed
    else Err Unavailable).

Definition close_binding (a b : Z) (h : Heap) : Heap * result Error unit :=
  returns h (
    _ ← lock h a;
    _ ← owns_scope h a (scope (bindings h b));
    let phase := phase (bindings h b) in
    if (phase =? UNISSUED) || (phase =? OPEN) || (phase =? CLOSED)
    then Ok (set_phase b CLOSED h, tt) else Err Unavailable).

Definition close_scope (a : Z) (s : Scope) (h : Heap) : Heap * result Error unit :=
  returns h (
    _ ← lock h a;
    _ ← owns_scope h a s;
    Ok (close_node (node s) h, tt)).

Definition close (a : Z) (h : Heap) : Heap * result Error unit :=
  returns h (
    st ← lock h a;
    Ok (set_state a (mkState true (last_sequence st) (selected st) (pending st)) h, tt)).

Definition select_workspace (a : Z) (s : Scope) (h : Heap) : Heap * result Error unit :=
  returns h (
    st ← lock h a;
    _ ← owns_scope h a s;
    if (node s != workspace s) || negb (length (parent_list s) =? 0)%nat then Err Conflict
    else if closed st || scope_closed (nodes h (node s)) then Err Closed
    else if selected st == Some (node s) then Ok (h, tt)
    else
      let h' := set_state a (mkState (closed st) (last_sequence st) (Some (node s)) (pending st)) h in
      Ok (match selected st with Some old => close_node old h' | None => h' end, tt)).

Definition try_claim (a : Z) (ready : ReadyEvaluation) (h : Heap)
    : Heap * result Error ClaimedEvaluation :=
  returns h (
    st ← lock h a;
    _ ← check_binding h a st (ready_binding ready);
    if is_some (pending st) then Err Busy
    else
      sequence ← ok_or Exhausted (checked_add u64_max (last_sequence st) 1);
      let identity := mkIdentity (generation (authorities h a)) sequence in
      let p := mkPending identity (ready_binding ready) (ready_intent ready) false in
      Ok (set_state a (mkState (closed st) sequence (selected st) (Some p)) h,
          mkClaimed a identity (ready_binding ready) (ready_intent ready))).

(** The pending claim is exactly the one settled. *)
Definition claims (p : Pending) (c : ClaimedEvaluation) : bool :=
  (pending_identity p == claim_identity c) && (pending_binding p =? claim_binding c)
  && (buffer_addr (pending_intent p) =? buffer_addr (claim_intent c)).

Definition settle (a : Z) (c : ClaimedEvaluation) (outcome : Disposition) (h : Heap)
    : Heap * result Error unit :=
  returns h (
    st ← lock h a;
    _ ← ensure (a =? claim_owner c) Foreign;
    p ← ok_or Conflict (pending st);
    _ ← ensure (claims p c) Conflict;
    let pending := match outcome with
                   | Unknown => Some (mkPending (pending_identity p) (pending_binding p)
                                        (pending_intent p) true)
                   | Committed | RolledBack => None
                   end in
    Ok (set_state a (mkState (closed st) (last_sequence st) (selected st) pending) h, tt)).

(** A pending claim that forbids a response of another scope, or any response. *)
Definition blocks (h : Heap) (b : Z) (p : Pending) : bool :=
  let ps := scope (bindings h (pending_binding p)) in
  let bs := scope (bindings h b) in
  uncertain p || (workspace ps != workspace bs) || (namespace ps != namespace bs).

Definition commit_response (a : Z) (r : ReadyResponse) (h : Heap)
    : Heap * result Error ReadyResponse :=
  returns h (
    st ← lock h a;
    _ ← check_binding h a st (response_binding r);
    if is_some_and (pending st) (blocks h (response_binding r)) then Err Unavailable
    else Ok (h, r)).

(** ** The machine *)

Inductive Call : Type :=
  | RegisterSourceBinding (a b : Z)
  | CloseBinding (a b : Z)
  | CloseScope (a : Z) (s : Scope)
  | Close (a : Z)
  | SelectWorkspace (a : Z) (s : Scope)
  | TryClaim (a : Z) (ready : ReadyEvaluation)
  | Settle (a : Z) (c : ClaimedEvaluation) (outcome : Disposition)
  | CommitResponse (a : Z) (r : ReadyResponse).

Inductive Output : Type :=
  | Done (r : result Error unit)
  | Claimed (r : result Error ClaimedEvaluation)
  | Responded (r : result Error ReadyResponse).

Definition call (h : Heap) (i : Call) : Heap * Output :=
  match i with
  | RegisterSourceBinding a b => prod_map id Done (register_source_binding a b h)
  | CloseBinding a b => prod_map id Done (close_binding a b h)
  | CloseScope a s => prod_map id Done (close_scope a s h)
  | Close a => prod_map id Done (close a h)
  | SelectWorkspace a s => prod_map id Done (select_workspace a s h)
  | TryClaim a ready => prod_map id Claimed (try_claim a ready h)
  | Settle a c outcome => prod_map id Done (settle a c outcome h)
  | CommitResponse a r => prod_map id Responded (commit_response a r h)
  end.

(** Authorities start fresh; the nodes and bindings around them are arbitrary. *)
#[export] Instance authority_machine : Machine Heap Call Output := {
  initial h := ∀ a, ∃ gen, authorities h a = from_generation gen;
  step := call;
}.

(** ** What a call can change *)

Lemma upd_eq {A} k (v : A) f : upd k v f k = v.
Proof. unfold upd. by rewrite Z.eqb_refl. Qed.
Lemma upd_ne {A} k j (v : A) f : j ≠ k → upd k v f j = f j.
Proof. intros H. unfold upd. by rewrite (proj2 (Z.eqb_neq j k)). Qed.

(** One cell's evolution: closing is final, numbers grow, identities stay. *)
Record inner_le (i j : Inner) : Prop := {
  le_generation : generation j = generation i;
  le_poisoned : poisoned j = poisoned i;
  le_closed : closed (state i) = true → closed (state j) = true;
  le_sequence : last_sequence (state i) <= last_sequence (state j);
}.
Record heap_le (h h' : Heap) : Prop := {
  le_inner : ∀ a, inner_le (authorities h a) (authorities h' a);
  le_node : ∀ n, owner (nodes h' n) = owner (nodes h n)
    ∧ (scope_closed (nodes h n) = true → scope_closed (nodes h' n) = true);
  le_binding : ∀ b, scope (bindings h' b) = scope (bindings h b)
    ∧ (phase (bindings h b) = CLOSED → phase (bindings h' b) = CLOSED);
}.

Lemma inner_le_refl i : inner_le i i.
Proof. by split. Qed.
Lemma heap_le_refl h : heap_le h h.
Proof. split; [intros; apply inner_le_refl|done..]. Qed.
Lemma heap_le_trans a b c : heap_le a b → heap_le b c → heap_le a c.
Proof.
  intros [H1 H2 H3] [H1' H2' H3']. split.
  - intros x. destruct (H1 x), (H1' x). split; [congruence|congruence|auto|lia].
  - intros n. destruct (H2 n), (H2' n). split; [congruence|auto].
  - intros n. destruct (H3 n), (H3' n). split; [congruence|auto].
Qed.

Lemma heap_le_set_state a st h :
  (closed (state (authorities h a)) = true → closed st = true) →
  last_sequence (state (authorities h a)) <= last_sequence st → heap_le h (set_state a st h).
Proof.
  intros Hc Hs. split; [|done..]. intros x. simpl. destruct (decide (x = a)) as [->|Hx].
  - rewrite upd_eq. by split.
  - rewrite upd_ne by done. apply inner_le_refl.
Qed.
Lemma heap_le_close_node n h : heap_le h (close_node n h).
Proof.
  split; [intros; apply inner_le_refl| |done]. intros m. simpl.
  destruct (decide (m = n)) as [->|Hm]; [by rewrite upd_eq|by rewrite upd_ne].
Qed.
Lemma heap_le_set_phase b v h :
  (phase (bindings h b) = CLOSED → v = CLOSED) → heap_le h (set_phase b v h).
Proof.
  intros Hv. split; [intros; apply inner_le_refl|done|]. intros c. simpl.
  destruct (decide (c = b)) as [->|Hc]; [by rewrite upd_eq|by rewrite upd_ne].
Qed.
Create HintDb authority.
#[export] Hint Resolve heap_le_refl heap_le_set_state heap_le_close_node heap_le_set_phase : authority.

(** A method that fails changes nothing; what holds of its successes holds. *)
Lemma returns_holds {A} (P : Heap → result Error A → Prop) h m :
  (∀ e, P h (Err e)) → (∀ h' a, m = Ok (h', a) → P h' (Ok a)) →
  P (returns h m).1 (returns h m).2.
Proof. intros He Ho. destruct m as [[h' a]|e]; simpl; auto. Qed.

Lemma lock_Ok h a st : lock h a = Ok st ↔ poisoned (authorities h a) = false
  ∧ st = state (authorities h a).
Proof.
  unfold lock. destruct (poisoned _).
  - split; [done|by intros [? _]].
  - split; [by intros [= <-]|by intros [_ ->]].
Qed.

(** Unfold a successful method. *)
Ltac inv_method H :=
  inv_ok H;
  repeat match goal with
  | H : lock _ _ = Ok _ |- _ => apply lock_Ok in H as [? ?]; subst
  | H : (_, _) = (_, _) |- _ => injection H as H; subst
  end.

Lemma heap_le_returns {A} h (m : result Error (Heap * A)) :
  (∀ h' a, m = Ok (h', a) → heap_le h h') → heap_le h (returns h m).1.
Proof. intros H. destruct m as [[h' a]|e]; simpl; [by eapply H|apply heap_le_refl]. Qed.

Lemma heap_le_call h i : heap_le h (call h i).1.
Proof.
  destruct i as [a b|a b|a s|a|a s|a r|a c o|a r]; simpl; apply heap_le_returns; intros h' u H;
    inv_method H; auto with authority.
  - apply heap_le_set_phase. apply Z.eqb_eq in E. by rewrite E.
  - by apply heap_le_set_state.
  - destruct (selected _); [eapply heap_le_trans; [|apply heap_le_close_node]|];
      by apply heap_le_set_state.
  - match goal with Hn : checked_add _ _ _ = Some _ |- _ => apply checked_add_Some in Hn as [-> _] end.
    apply heap_le_set_state; simpl; [done|lia].
  - by apply heap_le_set_state.
Qed.

Lemma heap_le_run h ins : heap_le h (run h ins).1.
Proof. apply run_relation; [apply heap_le_refl|apply heap_le_trans|apply heap_le_call]. Qed.

(** ** Properties *)

(** A scope of which a node is closed, a closed binding, a closed authority. *)
Definition retired (h : Heap) (a b : Z) : Prop :=
  let s := scope (bindings h b) in
  closed (state (authorities h a)) = true
  ∨ scope_closed (nodes h (node s)) = true ∨ scope_closed (nodes h (workspace s)) = true
  ∨ (∃ p, p ∈ parent_list s ∧ scope_closed (nodes h p) = true)
  ∨ phase (bindings h b) = CLOSED.

Lemma retired_le h h' a b : heap_le h h' → retired h a b → retired h' a b.
Proof.
  intros [H1 H2 H3]. unfold retired. destruct (H3 b) as [-> Hp].
  intros [H|[H|[H|[(p & Hp' & H)|H]]]].
  - left. by apply (H1 a).
  - right; left. by apply H2.
  - do 2 right; left. by apply H2.
  - do 3 right; left. exists p. split; [done|by apply H2].
  - do 4 right. auto.
Qed.

Lemma retired_check h a b st :
  retired h a b → st = state (authorities h a) →
  is_ok (check_scope h a st (scope (bindings h b))) = false ∨ phase (bindings h b) = CLOSED.
Proof.
  intros Hr ->. destruct Hr as [H|[H|[H|[(p & Hp & H)|H]]]]; [left..|by right];
    unfold check_scope; destruct (owns_scope _ _ _); simpl; try done; unfold scope_open;
    rewrite ?H; simpl; rewrite ?andb_false_r; try done.
  destruct (forallb _ (parent_list _)) eqn:E; [|by rewrite ?andb_false_r].
  rewrite forallb_forall in E. specialize (E p). rewrite H in E.
  discriminate E. by apply list_elem_of_In.
Qed.

(** The calls that retire a binding: closing it, its authority or a node of its
    scope, or selecting another workspace than the one it belongs to. *)
Definition retires (h : Heap) (a b : Z) (i : Call) : Prop :=
  let s := scope (bindings h b) in
  i = CloseBinding a b ∨ i = Close a
  ∨ (∃ s', i = CloseScope a s' ∧ node s' ∈ node s :: workspace s :: parent_list s)
  ∨ (∃ s', i = SelectWorkspace a s' ∧ selected (state (authorities h a)) = Some (workspace s)
       ∧ node s' ≠ workspace s).

Lemma retires_retired h a b i :
  retires h a b i → (call h i).2 = Done (Ok tt) → retired (call h i).1 a b.
Proof.
  intros Hr Hok. assert (Hret : ∀ (m : result Error (Heap * unit)) (P : Heap → Prop),
    (∀ h' u, m = Ok (h', u) → P h') → Done (returns h m).2 = Done (Ok tt) → P (returns h m).1).
  { intros m P HP. destruct m as [[h' u]|e]; simpl; [|done]. intros _. by eapply HP. }
  destruct Hr as [->|[->|[(s' & -> & Hin)|(s' & -> & Hsel & Hne)]]]; simpl in *;
    (apply (Hret _ (λ h', retired h' a b)); [|exact Hok]); intros h' u H; inv_method H; unfold retired; simpl.
  - do 4 right. by rewrite upd_eq.
  - left. by rewrite upd_eq.
  - apply elem_of_cons in Hin as [->|[->|Hin]%elem_of_cons].
    + right; left. by rewrite upd_eq.
    + do 2 right; left. by rewrite upd_eq.
    + do 3 right; left. exists (node s'). split; [done|by rewrite upd_eq].
  - rewrite Hsel in *. match goal with E : (Some _ == Some _) = true |- _ => apply eqb_elim in E end.
    congruence.
  - rewrite Hsel in *. do 2 right; left. simpl. by rewrite upd_eq.
Qed.

(** retirement is final.  Once a binding is closed, or its authority or any
    scope above it is closed, or its authority moves to another workspace, then
    after any further calls of any caller no claim, no response and no
    registration of that binding succeeds, not even if the old workspace is
    selected again. *)
Theorem retirement_is_final h a b i ins :
  retires h a b i → (call h i).2 = Done (Ok tt) →
  let h' := (run h (i :: ins)).1 in
  (∀ intent, is_ok (try_claim a (mkReady b intent) h').2 = false)
  ∧ (∀ bytes, is_ok (commit_response a (mkResponse b bytes) h').2 = false)
  ∧ is_ok (register_source_binding a b h').2 = false.
Proof.
  intros Hr Hok h'. assert (Hret : retired h' a b).
  { unfold h'. rewrite run_cons. eapply retired_le; [apply heap_le_run|]. by apply retires_retired. }
  clearbody h'. pose proof (retired_check h' a b _ Hret eq_refl) as Hc.
  assert (Hb : is_ok (check_binding h' a (state (authorities h' a)) b) = false).
  { unfold check_binding. destruct Hc as [Hc|Hc]; destruct (check_scope _ _ _ _); try done.
    simpl. by rewrite Hc. }
  unfold try_claim, commit_response, register_source_binding, lock.
  destruct (poisoned (authorities h' a)); [done|]. simpl. split; [|split].
  - intros intent. by destruct (check_binding _ _ _ b).
  - intros bytes. by destruct (check_binding _ _ _ b).
  - destruct (check_scope _ _ _ _); [|done]. destruct Hc as [Hc|Hc]; [done|]. simpl. by rewrite Hc.
Qed.

(** One authority (address 1) over two workspaces (10 and 20), with a run of the
    first; the binding 7 belongs to it. *)
Definition demo_scope : Scope := mkScope 12 10 (Some 11, None).
Definition workspace_scope (w : Z) : Scope := mkScope w w (None, None).
Definition demo_heap : Heap :=
  mkHeap (λ _, from_generation [1]) (λ _, mkScopeState 1 false)
    (λ _, mkBinding demo_scope UNISSUED []).
Definition opened : Heap :=
  (run demo_heap [SelectWorkspace 1 (workspace_scope 10); RegisterSourceBinding 1 7]).1.

Lemma retirement_is_final_witness :
  let h' := (run opened [SelectWorkspace 1 (workspace_scope 20); SelectWorkspace 1 (workspace_scope 10)]).1 in
  (∀ intent, is_ok (try_claim 1 (mkReady 7 intent) h').2 = false)
  ∧ (∀ bytes, is_ok (commit_response 1 (mkResponse 7 bytes) h').2 = false)
  ∧ is_ok (register_source_binding 1 7 h').2 = false.
Proof.
  apply (retirement_is_final opened 1 7 (SelectWorkspace 1 (workspace_scope 20))
           [SelectWorkspace 1 (workspace_scope 10)]).
  - do 3 right. exists (workspace_scope 20). split; [reflexivity|]. split; [reflexivity|discriminate].
  - reflexivity.
Defined.

(** The binding is usable under its authority. *)
Definition usable (h : Heap) (a b : Z) : Prop :=
  let s := scope (bindings h b) in
  poisoned (authorities h a) = false
  ∧ Forall (λ n, owner (nodes h n) = a ∧ scope_closed (nodes h n) = false)
      (node s :: workspace s :: parent_list s)
  ∧ closed (state (authorities h a)) = false
  ∧ selected (state (authorities h a)) = Some (workspace s)
  ∧ phase (bindings h b) = OPEN.

Lemma usable_check h a b :
  usable h a b ↔ poisoned (authorities h a) = false
    ∧ is_ok (check_binding h a (state (authorities h a)) b) = true.
Proof.
  unfold usable, check_binding, check_scope, owns_scope, scope_open, check_phase, owns.
  set (s := scope (bindings h b)). rewrite !Forall_cons.
  assert (Hall : ∀ l, Forall (λ n, owner (nodes h n) = a ∧ scope_closed (nodes h n) = false) l ↔
    forallb (λ p, owner (nodes h p) =? a) l = true
    ∧ forallb (λ p, negb (scope_closed (nodes h p))) l = true).
  { induction l as [|n l IH]; simpl; [by split|].
    rewrite Forall_cons, IH, !andb_true_iff, Z.eqb_eq, negb_true_iff. tauto. }
  rewrite Hall. clear Hall. split.
  - intros (Hp & ((Ho & Hc) & (Ho' & Hc') & Hf & Hf') & Hcl & Hsel & Hph). split; [done|].
    rewrite Ho, Ho', !Z.eqb_refl, Hf. simpl. rewrite Hcl, Hc, Hc', Hf', Hsel, eqb_refl. simpl.
    by rewrite Hph.
  - intros [Hp H]. split; [done|].
    destruct ((owner (nodes h (node s)) =? a) && (owner (nodes h (workspace s)) =? a) && _) eqn:E1;
      [|done]. simpl in H.
    destruct (negb (closed _) && _ && _ && _ && _) eqn:E2; [|done]. simpl in H.
    rewrite !andb_true_iff, !Z.eqb_eq in E1. rewrite !andb_true_iff, !negb_true_iff in E2.
    destruct E1 as ((?&?)&?), E2 as ((((?&?)&?)&?)&Hs%eqb_elim). repeat split; auto.
    destruct (Z.eqb_spec (phase (bindings h b)) OPEN); [done|].
    by repeat case_match.
Qed.

(** A response is committed exactly when nothing forbids it.  The call
    succeeds if and only if the authority is healthy and open, every node of the
    binding's scope belongs to it and is open, the binding is registered under the
    selected workspace, and the pending claim, if there is one, is not uncertain
    and shares the workspace and the namespace.  It never changes the heap and
    hands the response back as given. *)
Theorem commit_response_exact h a r :
  (commit_response a r h).1 = h ∧
  ((commit_response a r h).2 = Ok r ↔
   usable h a (response_binding r)
   ∧ ∀ p, pending (state (authorities h a)) = Some p →
       uncertain p = false
       ∧ workspace (scope (bindings h (pending_binding p)))
         = workspace (scope (bindings h (response_binding r)))
       ∧ namespace (scope (bindings h (pending_binding p)))
         = namespace (scope (bindings h (response_binding r)))).
Proof.
  rewrite usable_check. unfold commit_response, lock.
  destruct (poisoned (authorities h a)); simpl.
  { split; [done|]. split; [done|by intros [[? _] _]]. }
  destruct (check_binding h a (state (authorities h a)) (response_binding r)) as [u|e]; simpl.
  2: { split; [done|]. split; [done|by intros [[_ ?] _]]. }
  assert (Hb : ∀ p, blocks h (response_binding r) p = false ↔ uncertain p = false
    ∧ workspace (scope (bindings h (pending_binding p)))
      = workspace (scope (bindings h (response_binding r)))
    ∧ namespace (scope (bindings h (pending_binding p)))
      = namespace (scope (bindings h (response_binding r)))).
  { intros p. unfold blocks. rewrite !orb_false_iff, !neqb_false. tauto. }
  destruct (pending (state (authorities h a))) as [p|]; simpl.
  - destruct (blocks h (response_binding r) p) eqn:E; simpl; (split; [done|]).
    + split; [done|]. intros [_ H]. specialize (H p eq_refl). apply Hb in H. congruence.
    + split; [|done]. intros _. split; [done|]. intros ? [= <-]. by apply Hb.
  - split; [done|]. by split.
Qed.

(** A settlement retires exactly its own claim.  It succeeds if and only if
    the authority is healthy, the claim is its own, and the pending claim has the
    identity, the binding and the very intent buffer of the claim; then an unknown
    outcome keeps the claim pending and marks it uncertain for good, a definitive
    one leaves nothing pending, and nothing else changes.  Otherwise it reports an
    error and the heap is unchanged. *)
Theorem settle_exact h a c outcome :
  let st := state (authorities h a) in
  let accepted := poisoned (authorities h a) = false ∧ claim_owner c = a
    ∧ ∃ p, pending st = Some p ∧ pending_identity p = claim_identity c
        ∧ pending_binding p = claim_binding c
        ∧ buffer_addr (pending_intent p) = buffer_addr (claim_intent c) in
  ((settle a c outcome h).2 = Ok tt ↔ accepted)
  ∧ (¬ accepted → (settle a c outcome h).1 = h)
  ∧ (accepted → (settle a c outcome h).1 = set_state a (mkState (closed st) (last_sequence st)
       (selected st)
       (match outcome with
        | Unknown => (λ p, mkPending (pending_identity p) (pending_binding p) (pending_intent p) true)
                       <$> pending st
        | _ => None
        end)) h).
Proof.
  intros st accepted.
  assert (Hc : ∀ p, claims p c = true ↔ pending_identity p = claim_identity c
    ∧ pending_binding p = claim_binding c
    ∧ buffer_addr (pending_intent p) = buffer_addr (claim_intent c)).
  { intros p. unfold claims. rewrite !andb_true_iff, !Z.eqb_eq, eqb_true. tauto. }
  assert (Hacc : accepted ↔ poisoned (authorities h a) = false ∧ (a =? claim_owner c) = true
    ∧ ∃ p, pending st = Some p ∧ claims p c = true).
  { unfold accepted. rewrite Z.eqb_eq. setoid_rewrite Hc. split; intros (?&?&?); by repeat split. }
  rewrite Hacc. clear Hacc Hc accepted. unfold settle, lock. fold st.
  destruct (poisoned (authorities h a)); simpl.
  { split; [split; [done|by intros [? _]]|]. split; [done|by intros [? _]]. }
  destruct (a =? claim_owner c); simpl.
  2: { split; [split; [done|by intros (_ & ? & _)]|]. split; [done|by intros (_ & ? & _)]. }
  destruct (pending st) as [p|]; simpl.
  2: { split; [split; [done|by intros (_ & _ & ? & ? & _)]|]. split; [done|by intros (_ & _ & ? & ? & _)]. }
  destruct (claims p c) eqn:E; simpl.
  - split; [split; [intros _; eauto|done]|]. split; [|by destruct outcome].
    intros Hn. exfalso. apply Hn. eauto.
  - assert (Hn : ∀ P : Prop, (false = false ∧ true = true ∧ ∃ p0, Some p = Some p0 ∧ claims p0 c = true) → P)
      by (intros P (_ & _ & ? & [= <-] & ?); congruence).
    split; [split; [done|by apply Hn]|]. split; [done|by apply Hn].
Qed.

Definition demo_intent : Buffer := mkBuffer 5 [1; 2].
Definition demo_claim : ClaimedEvaluation := mkClaimed 1 (mkIdentity [1] 1) 7 demo_intent.
Definition claimed : Heap := (try_claim 1 (mkReady 7 demo_intent) opened).1.
Example demo_claimed : (try_claim 1 (mkReady 7 demo_intent) opened).2 = Ok demo_claim.
Proof. reflexivity. Qed.

(** A step keeps the pending claim unless it settles it definitively. *)
Definition settles (h : Heap) (a : Z) (c : ClaimedEvaluation) (i : Call) : Prop :=
  ∃ c' outcome, i = Settle a c' outcome ∧ outcome ≠ Unknown
    ∧ (settle a c' outcome h).2 = Ok tt
    ∧ claim_identity c' = claim_identity c ∧ claim_binding c' = claim_binding c
    ∧ buffer_addr (claim_intent c') = buffer_addr (claim_intent c).
Definition holds_claim (h : Heap) (a : Z) (c : ClaimedEvaluation) : Prop :=
  ∃ p, pending (state (authorities h a)) = Some p ∧ claims p c = true.

Lemma returns_unit h (m : result Error (Heap * unit)) :
  (returns h m).2 ≠ Ok tt → (returns h m).1 = h.
Proof. by destruct m as [[h' []]|e]. Qed.

Lemma settle_inv a c o h :
  (settle a c o h).2 = Ok tt → ∃ p, pending (state (authorities h a)) = Some p ∧ claims p c = true.
Proof.
  unfold settle, lock. destruct (poisoned _); [done|]. simpl.
  destruct (a =? claim_owner c); [|done]. simpl. destruct (pending _) as [p|]; [|done]. simpl.
  destruct (claims p c) eqn:E; [|done]. eauto.
Qed.

Lemma holds_claim_set_state h a a' c st :
  (a' = a → ∃ p, pending st = Some p ∧ claims p c = true) → holds_claim h a c →
  holds_claim (set_state a' st h) a c.
Proof.
  intros H Hh. unfold holds_claim. simpl. destruct (decide (a = a')) as [->|Ha].
  - rewrite upd_eq. by apply H.
  - by rewrite upd_ne.
Qed.

Lemma holds_claim_returns {A} h a c (m : result Error (Heap * A)) :
  holds_claim h a c → (∀ h' x, m = Ok (h', x) → holds_claim h' a c) →
  holds_claim (returns h m).1 a c.
Proof. intros H Hm. destruct m as [[h' x]|e]; simpl; [by eapply Hm|done]. Qed.

Lemma claims_same p q c :
  claims p c = true → pending_identity q = pending_identity p →
  pending_binding q = pending_binding p → pending_intent q = pending_intent p → claims q c = true.
Proof. unfold claims. by intros H -> -> ->. Qed.

Lemma holds_claim_call h a c i :
  holds_claim h a c → holds_claim (call h i).1 a c ∨ settles h a c i.
Proof.
  intros H. pose proof H as (p & Hp & Hc).
  destruct i as [a' b|a' b|a' s|a'|a' s|a' r|a' c' o|a' r]; simpl.
  1-5: left; apply holds_claim_returns; [done|]; intros h' u Hm; inv_method Hm; try done;
    try (apply holds_claim_set_state; [intros ->; by exists p|done]).
  - destruct (selected _); try (apply holds_claim_set_state; [intros ->; by exists p|done]).
  - left; apply holds_claim_returns; [done|]; intros h' u Hm; inv_method Hm.
    apply holds_claim_set_state; [|done]. intros ->. by rewrite Hp in *.
  - destruct (decide (o = Unknown ∨ a' ≠ a ∨ (settle a' c' o h).2 ≠ Ok tt)) as [Ho|Ho].
    + left. destruct Ho as [->|[Ha|Ho]]; [| |unfold settle in *; by rewrite (returns_unit h _ Ho)].
      * apply holds_claim_returns; [done|]; intros h' u Hm; inv_method Hm.
        apply holds_claim_set_state; [|done]. intros ->. eexists. split; [done|].
        rewrite Hp in *. simplify_eq. eapply claims_same; [exact Hc|done..].
      * apply holds_claim_returns; [done|]; intros h' u Hm; inv_method Hm.
        by apply holds_claim_set_state.
    + right. assert (o ≠ Unknown ∧ a' = a ∧ (settle a' c' o h).2 = Ok tt) as (Hu & -> & Hok).
      { destruct (decide (o = Unknown)), (decide (a' = a)),
          (decide ((settle a' c' o h).2 = Ok tt)); tauto. }
      exists c', o. split; [done|]. split; [done|]. split; [done|].
      apply settle_inv in Hok as (p' & Hp' & Hc'). rewrite Hp in Hp'. injection Hp' as <-.
      unfold claims in *. to_prop. intuition congruence.
  - left; apply holds_claim_returns; [done|]; intros h' u Hm; inv_method Hm; done.
Qed.

(** A run that ends without the claim pending contains its settlement. *)
Lemma holds_claim_run h a c ins :
  holds_claim h a c → holds_claim (run h ins).1 a c
  ∨ ∃ before i after, ins = before ++ i :: after ∧ settles (run h before).1 a c i.
Proof.
  revert h. induction ins as [|i ins IH]; intros h H; [by left|]. rewrite run_cons.
  destruct (holds_claim_call h a c i H) as [H1|Hs].
  - destruct (IH (call h i).1 H1) as [H2|(before & j & after & -> & Hs)]; [by left|].
    right. exists (i :: before), j, after. split; [done|]. by rewrite run_cons.
  - right. by exists [], i, ins.
Qed.

Lemma try_claim_inv a r h h' c : try_claim a r h = (h', Ok c) →
  pending (state (authorities h a)) = None
  ∧ claim_identity c = mkIdentity (generation (authorities h a))
      (last_sequence (state (authorities h a)) + 1)
  ∧ last_sequence (state (authorities h a)) + 1 <= u64_max
  ∧ last_sequence (state (authorities h' a)) = last_sequence (state (authorities h a)) + 1
  ∧ generation (authorities h' a) = generation (authorities h a) ∧ holds_claim h' a c.
Proof.
  unfold try_claim, returns. destruct (lock h a ≫= _) as [[h1 c1]|e] eqn:E; [|done].
  intros [= <- <-]. inv_method E.
  match goal with Hn : checked_add _ _ _ = Some _ |- _ => apply checked_add_Some in Hn as [-> ?] end.
  destruct (pending (state (authorities h a))); [done|]. repeat split; auto.
  - simpl. by rewrite upd_eq.
  - simpl. by rewrite upd_eq.
  - eexists. simpl. rewrite upd_eq. split; [done|]. unfold claims. simpl.
    by rewrite eqb_refl, !Z.eqb_refl.
Qed.

(** C35: claims are exclusive and numbered.  After a claim was granted, whatever
    calls follow from whatever callers, another claim of the same authority is
    granted only after a definitive settlement of exactly the first claim (its
    identity, binding and intent) succeeded, and it has a larger sequence number,
    within [u64], under the same generation: no identity is ever issued twice. *)
Theorem claims_exclusive a r1 r2 h h1 c1 ins h3 c2 :
  try_claim a r1 h = (h1, Ok c1) → try_claim a r2 (run h1 ins).1 = (h3, Ok c2) →
  sequence (claim_identity c1) < sequence (claim_identity c2) <= u64_max
  ∧ sidecar_generation (claim_identity c2) = sidecar_generation (claim_identity c1)
  ∧ ∃ before i after, ins = before ++ i :: after ∧ settles (run h1 before).1 a c1 i.
Proof.
  intros (_ & Hi1 & _ & Hs1 & Hg & Hh)%try_claim_inv (Hn & Hi2 & Hm2 & _)%try_claim_inv.
  rewrite Hi1, Hi2. simpl. destruct (heap_le_run h1 ins) as [Hle _ _].
  pose proof (le_sequence _ _ (Hle a)). pose proof (le_generation _ _ (Hle a)).
  split; [lia|]. split; [congruence|].
  destruct (holds_claim_run h1 a c1 ins Hh) as [(p & Hp & _)|Hs]; [congruence|done].
Qed.

Lemma claims_exclusive_witness :
  1 < 2 <= u64_max ∧ [1] = [1]
  ∧ ∃ before i after, [Settle 1 demo_claim Unknown; Settle 1 demo_claim Committed] = before ++ i :: after
      ∧ settles (run claimed before).1 1 demo_claim i.
Proof.
  apply (claims_exclusive 1 (mkReady 7 demo_intent) (mkReady 7 demo_intent) opened claimed demo_claim
    [Settle 1 demo_claim Unknown; Settle 1 demo_claim Committed]
    (try_claim 1 (mkReady 7 demo_intent)
      (run claimed [Settle 1 demo_claim Unknown; Settle 1 demo_claim Committed]).1).1
    (mkClaimed 1 (mkIdentity [1] 2) 7 demo_intent)); reflexivity.
Defined.
