(* ===== verification/CanonicalJson.v ===== *)
(** * Canonical JSON

    [canonical_value] and [canonical_json_bytes] of [taskmaster/coordinator.rs]:
    the byte string that digests are computed over, objects with their keys in
    byte order.  How [serde_json] writes a key or a scalar is an argument. *)
From S2P Require Export Utf8.
#[local] Set Warnings "-register-all".

Inductive Value : Type :=
  | Null
  | Bool (b : bool)
  | Number (n : Z)
  | Str (s : list Z)
  | Array (items : list Value)
  | Object (members : list (list Z * Value)).

Section canonical.
Context {E : Type} (to_vec_key : list Z → result E (list Z)) (to_vec_scalar : Value → result E (list Z)).

(** The separator before every piece but the first. *)
Definition comma (index : nat) : list Z := if (index =? 0)%nat then [] else [44].

(** The loop over the sorted keys; [map[key]] is a lookup that cannot fail for
    a key of the map. *)
Fixpoint object_pieces (pieces : gmap (list Z) (result E (list Z))) (index : nat)
    (keys : list (list Z)) : result E (list Z) :=
  match keys with
  | [] => Ok []
  | key :: keys =>
      name ← to_vec_key key;
      value ← default (Ok []) (pieces !! key);
      rest ← object_pieces pieces (S index) keys;
      Ok (comma index ++ name ++ [58] ++ value ++ rest)
  end.
Fixpoint array_pieces (index : nat) (pieces : list (result E (list Z))) : result E (list Z) :=
  match pieces with
  | [] => Ok []
  | piece :: pieces =>
      value ← piece;
      rest ← array_pieces (S index) pieces;
      Ok (comma index ++ value ++ rest)
  end.

Fixpoint canonical_value (value : Value) : result E (list Z) :=
  match value with
  | Object members =>
      let keys := merge_sort key_le members.*1 in
      out ← object_pieces
        (list_to_map (map (λ member, (member.1, canonical_value member.2)) members)) 0 keys;
      Ok ([123] ++ out ++ [125])
  | Array items =>
      out ← array_pieces 0 (map canonical_value items);
      Ok ([91] ++ out ++ [93])
  | _ => to_vec_scalar value
  end.

(** [canonical_json_bytes], for a type whose fields hold no floating-point number
    ([FiniteProbe] then accepts every value); [to_value] is [serde_json::to_value]
    for that type. *)
Definition canonical_json_bytes {T} (to_value : T → result E Value) (value : T)
    : result E (list Z) := to_value value ≫= canonical_value.

Lemma object_pieces_ext p q index keys :
  (∀ k, k ∈ keys → p !! k = q !! k) → object_pieces p index keys = object_pieces q index keys.
Proof.
  revert index. induction keys as [|k keys IH]; intros index H; simpl; [done|].
  rewrite (H k) by by left. destruct (to_vec_key k) as [name|e]; simpl; [|done].
  destruct (default (Ok []) (q !! k)) as [v|e]; simpl; [|done].
  rewrite (IH (S index)); [done|]. intros k' Hk'. apply H. by right.
Qed.

(** Two sorted enumerations of the same keys are the same. *)
Lemma sorted_keys_perm (k1 k2 : list (list Z)) :
  k1 ≡ₚ k2 → merge_sort key_le k1 = merge_sort key_le k2.
Proof.
  intros H. apply (StronglySorted_unique key_le).
  - apply (StronglySorted_merge_sort key_le).
  - apply (StronglySorted_merge_sort key_le).
  - by rewrite !merge_sort_Permutation.
Qed.

End canonical.

(** Values that denote the same JSON value: the members of an object may come in
    any order. *)
Inductive json_equiv : Value → Value → Prop :=
  | equiv_refl v : json_equiv v v
  | equiv_array vs ws : Forall2 json_equiv vs ws → json_equiv (Array vs) (Array ws)
  | equiv_object ms ns ns' :
      Forall2 (λ m n, m.1 = n.1 ∧ json_equiv m.2 n.2) ms ns → NoDup ns.*1 → ns ≡ₚ ns' →
      json_equiv (Object ms) (Object ns').

(** Induction through the lists of members. *)
Fixpoint json_equiv_nested_ind (P : Value → Value → Prop)
    (Hrefl : ∀ v, P v v)
    (Harray : ∀ vs ws, Forall2 P vs ws → P (Array vs) (Array ws))
    (Hobject : ∀ ms ns ns', Forall2 (λ m n, m.1 = n.1 ∧ P m.2 n.2) ms ns → NoDup ns.*1 →
       ns ≡ₚ ns' → P (Object ms) (Object ns'))
    v w (H : json_equiv v w) {struct H} : P v w.
Proof.
  destruct H as [v|vs ws H|ms ns ns' H Hnd Hp].
  - apply Hrefl.
  - apply Harray. induction H as [|x y vs ws Hxy H IH]; constructor; [|done].
    by apply json_equiv_nested_ind.
  - apply (Hobject ms ns ns'); [|done..]. clear Hnd Hp.
    induction H as [|x y ms ns [Hk Hxy] H IH]; constructor; [|done].
    split; [done|]. by apply json_equiv_nested_ind.
Qed.

(** the canonical form is canonical.  Two JSON values that differ only in the
    order of the members of their objects, at any depth, have the same canonical
    bytes (or fail alike), whatever the encoders of keys and scalars; so a digest
    does not depend on the order in which a client wrote the fields. *)
Theorem canonical_value_order_independent {E} (key : list Z → result E (list Z))
    (scalar : Value → result E (list Z)) v w :
  json_equiv v w → canonical_value key scalar v = canonical_value key scalar w.
Proof.
  revert v w. apply json_equiv_nested_ind.
  - done.
  - intros vs ws H. simpl. f_equal. f_equal. by induction H; simpl; congruence.
  - intros ms ns ns' H Hnd Hp. simpl.
    assert (Hm : map (λ m, (m.1, canonical_value key scalar m.2)) ms
      = map (λ m, (m.1, canonical_value key scalar m.2)) ns).
    { clear Hnd Hp. induction H as [|x y ms ns [Hk Hxy] H IH]; simpl; [done|].
      by rewrite Hk, Hxy, IH. }
    assert (Hk : ms.*1 = ns.*1).
    { clear -H. induction H as [|x y ms ns [Hk _] _ IH]; [done|].
      rewrite !fmap_cons. by f_equal. }
    rewrite Hm, Hk. assert (Hperm : ns.*1 ≡ₚ ns'.*1) by by rewrite Hp.
    rewrite (sorted_keys_perm ns.*1 ns'.*1 Hperm). f_equal. f_equal.
    apply list_to_map_proper.
    + assert (Hf : (map (λ m, (m.1, canonical_value key scalar m.2)) ns).*1 = ns.*1).
      { clear. induction ns as [|n ns IH]; [done|]. cbn [map]. rewrite !fmap_cons. by f_equal. }
      by rewrite Hf.
    + by apply Permutation_map.
Qed.

Definition demo_key : list Z → result unit (list Z) := λ k, Ok ([34] ++ k ++ [34]).
Definition demo_scalar : Value → result unit (list Z) := λ v,
  match v with Number n => Ok [48 + n] | _ => Ok [] end.
Lemma canonical_value_order_independent_witness :
  canonical_value demo_key demo_scalar (Object [([98], Number 1); ([97], Number 2)])
  = canonical_value demo_key demo_scalar (Object [([97], Number 2); ([98], Number 1)]).
Proof.
  apply (canonical_value_order_independent demo_key demo_scalar).
  apply (equiv_object _ [([98], Number 1); ([97], Number 2)]).
  - repeat constructor.
  - apply (bool_decide_unpack (NoDup _)). vm_compute. exact I.
  - apply Permutation_swap.
Defined.
Example canonical_bytes :
  canonical_value demo_key demo_scalar (Object [([98], Number 1); ([97], Array [Number 2; Number 3])])
  = Ok (bytes_of "{'a':[2,3],'b':1}" ≫= λ c, [if c =? 39 then 34 else c]).
Proof. vm_compute. reflexivity. Qed.
