(* ===== verification/SessionDelta.v ===== *)
(** * Deltas of the session list

    [session_delta] of workspace_updates.rs, which tells a connected desktop what
    changed between two answers of the session query, and the desktop's side of it,
    [createStreamState] of workspaceUpdates.ts, which validates a whole message before
    it commits anything.

    A JSON value is the [Value] of CanonicalJson.v.  serde_json keeps an object as a
    [BTreeMap], so its members are in the order of their keys and two values are equal
    iff they are the same.  A number that is not an integer, of which a row may hold
    one, is only compared and stands for itself under a numbering outside the integers
    of the protocol.  [JSON.parse] gives back the value that was sent.  A JavaScript
    [Map] is a list of entries in insertion order. *)
From S2P Require Export CanonicalJson.

(** ** JSON values *)

Fixpoint value_eqb (v w : Value) : bool :=
  match v, w with
  | Null, Null => true
  | Bool a, Bool b => a == b
  | Number a, Number b => a == b
  | Str a, Str b => a == b
  | Array vs, Array ws =>
      (fix go (vs ws : list Value) : bool :=
         match vs, ws with
         | [], [] => true
         | v :: vs, w :: ws => value_eqb v w && go vs ws
         | _, _ => false
         end) vs ws
  | Object ms, Object ns =>
      (fix go (ms ns : list (list Z * Value)) : bool :=
         match ms, ns with
         | [], [] => true
         | (k, v) :: ms, (l, w) :: ns => (k == l) && (value_eqb v w && go ms ns)
         | _, _ => false
         end) ms ns
  | _, _ => false
  end.

Lemma value_eqb_sound v w : value_eqb v w = true → v = w.
Proof.
  revert v w. fix IH 1. intros [| | | |vs|ms] [| | | |ws|ns] H; cbn in H; try discriminate H.
  - done.
  - by apply eqb_true in H as ->.
  - by apply eqb_true in H as ->.
  - by apply eqb_true in H as ->.
  - f_equal. revert ws H. induction vs as [|v vs IHv]; intros [|w ws] H; try discriminate H; [done|].
    apply andb_true_iff in H as [H1 H2]. f_equal; [by apply IH|by apply IHv].
  - f_equal. revert ns H.
    induction ms as [|[k v] ms IHm]; intros [|[l w] ns] H; try discriminate H; [done|].
    apply andb_true_iff in H as [->%eqb_true [H1 H2]%andb_true_iff].
    f_equal; [|by apply IHm]. f_equal. by apply IH.
Qed.
Lemma value_eqb_refl v : value_eqb v v = true.
Proof.
  revert v. fix IH 1. intros [| | | |vs|ms]; cbn; try apply eqb_refl; [done| |].
  - induction vs as [|v vs IHv]; [done|]. by rewrite IH.
  - induction ms as [|[k v] ms IHm]; [done|]. by rewrite eqb_refl, IH.
Qed.
#[export] Instance Value_eq_dec : EqDecision Value.
Proof.
  refine (λ v w, cast_if (decide (value_eqb v w = true))).
  - by apply value_eqb_sound.
  - intros ->. by rewrite value_eqb_refl in n.
Defined.

(** The member of an object: [undefined] is [None]. *)
Fixpoint get (key : list Z) (members : list (list Z * Value)) : option Value :=
  match members with
  | [] => None
  | (k, v) :: members => if k == key then Some v else get key members
  end.
(** [message[key] = value]: a [BTreeMap] keeps its keys in order. *)
Fixpoint put (key : list Z) (value : Value) (members : list (list Z * Value))
    : list (list Z * Value) :=
  match members with
  | [] => [(key, value)]
  | (k, v) :: members' =>
      if k == key then (key, value) :: members'
      else if key_leb key k then (key, value) :: members
      else (k, v) :: put key value members'
  end.

Lemma get_put_same key v ms : get key (put key v ms) = Some v.
Proof.
  induction ms as [|[k w] ms IH]; cbn; [by rewrite eqb_refl|].
  destruct (k == key) eqn:E; cbn; [by rewrite eqb_refl|].
  destruct (key_leb key k); cbn; [by rewrite eqb_refl|]. by rewrite E.
Qed.
Lemma get_put_other key key' v ms : key ≠ key' → get key (put key' v ms) = get key ms.
Proof.
  intros Hk. assert (Hn : (key' == key) = false) by (apply eqb_false; congruence).
  induction ms as [|[k w] ms IH]; cbn; [by rewrite Hn|].
  destruct (k == key') eqn:E; cbn.
  - apply eqb_true in E as ->. by rewrite Hn.
  - destruct (key_leb key' k); cbn; [by rewrite Hn|]. by rewrite IH.
Qed.

(** [Value::as_str] and [row["id"]], which is null where there is no such member. *)
Definition as_str (v : Value) : option (list Z) := match v with Str s => Some s | _ => None end.
Definition index (key : list Z) (v : Value) : Value :=
  match v with Object members => default Null (get key members) | _ => Null end.
Definition row_id (row : Value) : Value := index (bytes_of "id") row.

(** ** The delta *)

(** The map of rows by id, collected: of equal ids the last wins. *)
Definition by_id (rows : list Value) : gmap (list Z) Value :=
  list_to_map (reverse (omap (λ row, (λ id, (id, row)) <$> as_str (row_id row)) rows)).
Definition key_of (row : Value) : list Z := default [] (as_str (row_id row)).

Definition session_delta (old next : list Value) : option (list (list Z * Value)) :=
  let previous := by_id old in
  let current := by_id next in
  let changed := List.filter (λ row, (previous !! key_of row) != Some row) next in
  let removed := row_id <$> List.filter (λ row, is_none (current !! key_of row)) old in
  let order := row_id <$> next in
  let reordered := (row_id <$> old) != order in
  if (length changed =? 0)%nat && (length removed =? 0)%nat && negb reordered then None
  else
    let delta := put (bytes_of "removed") (Array removed) (put (bytes_of "changed") (Array changed) []) in
    Some (if reordered then put (bytes_of "order") (Array order) delta else delta).

(** ** The desktop's state of a stream *)

Definition MAX_SAFE_INTEGER : Z := 9007199254740991.
(** [Number.isSafeInteger] and not negative. *)
Definition safe_natural (v : option Value) : option Z :=
  match v with
  | Some (Number n) => if (0 <=? n) && (n <=? MAX_SAFE_INTEGER) then Some n else None
  | _ => None
  end.
Definition record (v : Value) : option (list (list Z * Value)) :=
  match v with Object members => Some members | _ => None end.
Definition is_string (v : option Value) : bool := match v with Some (Str _) => true | _ => false end.

Definition string_fields : list (list Z) :=
  bytes_of <$> ["id"; "label"; "cwd"; "created_at"; "status"; "lifecycle"; "memoryState";
                "resumeStrategy"].
Definition lifecycles : list (list Z) := bytes_of <$> ["creating"; "alive"; "stopping"; "dead"].

(** The body of the loop of [rows]: the id of an acceptable row. *)
Definition accept_row (ids : list (list Z)) (row : Value) : option (list Z) :=
  members ← record row;
  if forallb (λ field, is_string (get field members)) string_fields then
    id ← get (bytes_of "id") members ≫= as_str;
    lifecycle ← get (bytes_of "lifecycle") members ≫= as_str;
    if (id == []) || one_of id ids || negb (one_of lifecycle lifecycles) then None else Some id
  else None.
Fixpoint rows_loop (ids : list (list Z)) (rows : list Value) : option unit :=
  match rows with
  | [] => Some tt
  | row :: rows => id ← accept_row ids row; rows_loop (id :: ids) rows
  end.
Definition rows (v : option Value) : option (list Value) :=
  match v with Some (Array items) => _ ← rows_loop [] items; Some items | _ => None end.
(** A [Set] is as large as the array iff no id comes twice. *)
Definition ids (v : option Value) : option (list (list Z)) :=
  match v with
  | Some (Array items) =>
      let strings := omap as_str items in
      if forallb (λ item, is_some_and (as_str item) (λ s, s != [])) items && bool_decide (NoDup strings)
      then Some strings else None
  | _ => None
  end.

Abbreviation js_map := (list (list Z * Value)).
(** [Map.set]: an entry that is there keeps its place, a new one comes last. *)
Fixpoint map_set (key : list Z) (value : Value) (m : js_map) : js_map :=
  match m with
  | [] => [(key, value)]
  | (k, v) :: m => if k == key then (k, value) :: m else (k, v) :: map_set key value m
  end.
(** [Map.delete]: false ([None]) when there is no such entry. *)
Definition map_delete (key : list Z) (m : js_map) : option js_map :=
  if is_some (get key m) then Some (List.filter (λ e, e.1 != key) m) else None.
Fixpoint delete_all (removed : list (list Z)) (m : js_map) : option js_map :=
  match removed with
  | [] => Some m
  | id :: removed => m ← map_delete id m; delete_all removed m
  end.
Fixpoint set_all (removed : list (list Z)) (changed : list Value) (m : js_map) : option js_map :=
  match changed with
  | [] => Some m
  | row :: changed =>
      if one_of (key_of row) removed then None
      else set_all removed changed (map_set (key_of row) row m)
  end.

(** The rows after a delta. *)
Definition apply_delta (baseline : list Value) (message : list (list Z * Value)) : option (list Value) :=
  changed ← rows (get (bytes_of "changed") message);
  removed ← ids (get (bytes_of "removed") message);
  next ← delete_all removed ((λ row, (key_of row, row)) <$> baseline);
  next ← set_all removed changed next;
  order ← match get (bytes_of "order") message with None => Some next.*1 | order => ids order end;
  if (length order =? length next)%nat && forallb (λ id, is_some (get id next)) order
  then Some (omap (λ id, get id next) order) else None.

Record StreamState : Type := mkStream {
  identity : option (list Z * Z);
  cursor : Z;
  baseline : list Value;
}.
Definition createStreamState : StreamState := mkStream None (-1) [].

(** [apply]; [None] when it throws. *)
Definition apply (workspacePath : list Z) (s : StreamState) (input : Value) : option StreamState :=
  message ← record input;
  let has field v := get (bytes_of field) message == Some v in
  if negb (has "version" (Number 1) && has "workspace" (Str workspacePath)) then None
  else
    instance ← get (bytes_of "instance") message ≫= as_str;
    generation ← safe_natural (get (bytes_of "generation") message);
    sequence ← safe_natural (get (bytes_of "sequence") message);
    if has "type" (Str (bytes_of "snapshot")) then
      match identity s with
      | Some _ => None
      | None =>
          next ← rows (get (bytes_of "sessions") message);
          Some (mkStream (Some (instance, generation)) sequence next)
      end
    else if negb ((identity s == Some (instance, generation)) && has "base" (Number (cursor s))
                  && (sequence =? cursor s + 1)) then None
    else if has "type" (Str (bytes_of "recommendations-invalidated"))
    then Some (mkStream (identity s) (cursor s + 1) (baseline s))
    else if negb (has "type" (Str (bytes_of "sessions-delta"))) then None
    else
      result ← apply_delta (baseline s) message;
      Some (mkStream (identity s) (cursor s + 1) result).

(** ** Entries of a JavaScript map *)

Lemma one_of_false s literals : s ∉ literals → one_of s literals = false.
Proof. intros H. destruct (one_of s literals) eqn:E; [by apply one_of_true in E|done]. Qed.

Lemma get_Some_fst key (m : js_map) v : get key m = Some v → key ∈ m.*1.
Proof.
  induction m as [|[k w] m IH]; cbn; [done|]. destruct (k == key) eqn:E.
  - apply eqb_true in E as ->. intros _. by left.
  - intros H. right. by apply IH.
Qed.
Lemma get_None key (m : js_map) : get key m = None ↔ key ∉ m.*1.
Proof.
  split.
  - induction m as [|[k w] m IH]; cbn; [intros _; apply not_elem_of_nil|].
    destruct (k == key) eqn:E; [done|]. apply eqb_false in E.
    intros H. apply not_elem_of_cons. split; [congruence|by apply IH].
  - intros H. destruct (get key m) as [v|] eqn:E; [|done]. by apply get_Some_fst in E.
Qed.
Lemma get_is_some key (m : js_map) : is_some (get key m) = true ↔ key ∈ m.*1.
Proof.
  destruct (get key m) as [v|] eqn:E; cbn.
  - apply get_Some_fst in E. done.
  - apply get_None in E. done.
Qed.
Lemma map_set_keys key v m : (map_set key v m).*1 = if decide (key ∈ m.*1) then m.*1 else m.*1 ++ [key].
Proof.
  induction m as [|[k w] m IH]; cbn [map_set]; [done|]. destruct (k == key) eqn:E.
  - apply eqb_true in E as ->. rewrite decide_True by by left. done.
  - apply eqb_false in E. rewrite !fmap_cons, IH. cbn. case_decide as H.
    + rewrite decide_True by by right. done.
    + rewrite decide_False; [done|]. apply not_elem_of_cons. split; [congruence|done].
Qed.
Lemma map_set_get key v m k : get k (map_set key v m) = if decide (k = key) then Some v else get k m.
Proof.
  induction m as [|[l w] m IH]; cbn.
  - case_decide as H; [by rewrite H, eqb_refl|]. by rewrite (proj2 (eqb_false _ _)).
  - destruct (l == key) eqn:E; cbn.
    + apply eqb_true in E as ->. case_decide as H; [by rewrite H, eqb_refl|].
      by rewrite (proj2 (eqb_false _ _)).
    + rewrite IH. case_decide as H; [|done]. subst. by rewrite E.
Qed.
Lemma filter_keys key (m : js_map) :
  (List.filter (λ e, e.1 != key) m).*1 = List.filter (λ k, k != key) m.*1.
Proof.
  induction m as [|[k w] m IH]; cbn; [done|]. destruct (k != key); cbn; by rewrite IH.
Qed.
Lemma filter_get key (m : js_map) k :
  k ≠ key → get k (List.filter (λ e, e.1 != key) m) = get k m.
Proof.
  intros Hk. induction m as [|[l w] m IH]; cbn; [done|].
  destruct (l != key) eqn:E; cbn; [by rewrite IH|].
  apply neqb_false in E as ->. rewrite IH. by rewrite (proj2 (eqb_false _ _)).
Qed.

Lemma delete_all_spec removed m :
  NoDup removed → (∀ id, id ∈ removed → id ∈ m.*1) →
  ∃ m', delete_all removed m = Some m' ∧ m'.*1 = List.filter (λ k, negb (one_of k removed)) m.*1
    ∧ ∀ k, k ∉ removed → get k m' = get k m.
Proof.
  revert m. induction removed as [|id removed IH]; intros m Hnd Hin; cbn [delete_all].
  { exists m. split; [done|]. split; [|done]. symmetry. apply forallb_filter_id. by apply forallb_forall. }
  apply NoDup_cons in Hnd as [Hid Hnd]. unfold map_delete.
  rewrite (proj2 (get_is_some id m)) by (apply Hin; by left). cbn [mbind option_bind].
  destruct (IH (List.filter (λ e, e.1 != id) m) Hnd) as (m' & -> & Hk & Hg).
  { intros id' Hid'. rewrite filter_keys. apply list_elem_of_In, filter_In.
    rewrite <- list_elem_of_In, neqb_true. split; [apply Hin; by right|congruence]. }
  exists m'. split; [done|]. split.
  - rewrite Hk, filter_keys. clear. induction m.*1 as [|k l IHl]; cbn; [done|].
    unfold one_of in *. cbn. rewrite negb_orb.
    replace (k == id) with (eqb k id) by done. destruct (k != id); cbn; [|done].
    destruct (negb (existsb (eqb k) removed)); cbn; by rewrite IHl.
  - intros k [Hk' Hk'']%not_elem_of_cons. rewrite Hg by done. by apply filter_get.
Qed.

Lemma set_all_spec removed changed m :
  NoDup (key_of <$> changed) → Forall (λ row, key_of row ∉ removed) changed →
  ∃ m', set_all removed changed m = Some m'
    ∧ (∀ k, k ∈ m'.*1 ↔ k ∈ m.*1 ∨ k ∈ key_of <$> changed)
    ∧ (NoDup m.*1 → NoDup m'.*1)
    ∧ (key_of <$> changed ⊆ m.*1 → m'.*1 = m.*1)
    ∧ (∀ row, row ∈ changed → get (key_of row) m' = Some row)
    ∧ (∀ k, k ∉ key_of <$> changed → get k m' = get k m).
Proof.
  revert m. induction changed as [|row changed IH]; intros m Hnd Hr; cbn [set_all].
  { exists m. split_and!; try done; [|by intros row ?%elem_of_nil].
    intros k. split; [by left|]. by intros [?|?%elem_of_nil]. }
  rewrite fmap_cons in Hnd. apply NoDup_cons in Hnd as [Hrow Hnd].
  apply Forall_cons in Hr as [Hr0 Hr].
  rewrite one_of_false by done.
  destruct (IH (map_set (key_of row) row m) Hnd Hr) as (m' & -> & Hk & Hn & Hs & Hc & Hg).
  pose proof (map_set_keys (key_of row) row m) as Hset. exists m'. split_and!; [done|..].
  - intros k. rewrite Hk, Hset, fmap_cons, elem_of_cons. case_decide; set_solver.
  - intros Hm. apply Hn. rewrite Hset. case_decide; [done|]. apply NoDup_app. split_and!; [done| |].
    + by intros k Hkm ->%list_elem_of_singleton.
    + apply NoDup_singleton.
  - rewrite fmap_cons. intros Hsub. rewrite decide_True in Hset by (apply Hsub; by left).
    rewrite Hs, Hset; [done|]. rewrite Hset. intros k Hk'. apply Hsub. by right.
  - intros r [->|Hin]%elem_of_cons; [|by apply Hc].
    rewrite Hg by done. rewrite map_set_get. by rewrite decide_True.
  - intros k. rewrite fmap_cons. intros [Hk1 Hk2]%not_elem_of_cons.
    rewrite Hg by done. rewrite map_set_get. by rewrite decide_False.
Qed.

(** ** Acceptable rows *)

Lemma accept_row_id ids row id :
  accept_row ids row = Some id → row_id row = Str id ∧ key_of row = id ∧ id ≠ [] ∧ id ∉ ids.
Proof.
  unfold accept_row, key_of, row_id. intros H.
  apply bind_Some in H as (ms & Hms & H). destruct row as [| | | | |ms']; try discriminate Hms.
  injection Hms as ->. case_match; [|done].
  apply bind_Some in H as (i & Hi & H). apply bind_Some in Hi as (v & Hv & Hi).
  apply bind_Some in H as (l & _ & H). case_match eqn:Ht; [done|]. injection H as ->.
  destruct v as [| | |s| |]; try discriminate Hi. injection Hi as ->.
  rewrite !orb_false_iff in Ht. destruct Ht as [[H1%eqb_false H2] _].
  cbn [index]. rewrite Hv. split_and!; [done..|]. intros Hin. apply one_of_true in Hin. congruence.
Qed.
Lemma accept_row_ids ids row :
  accept_row ids row = (id ← accept_row [] row; if one_of id ids then None else Some id).
Proof.
  unfold accept_row. destruct (record row) as [ms|]; [|done]. cbn [mbind option_bind].
  case_match; [|done]. destruct (get (bytes_of "id") ms ≫= as_str) as [id|]; [|done].
  cbn [mbind option_bind]. destruct (get (bytes_of "lifecycle") ms ≫= as_str) as [l|]; [|done].
  cbn [mbind option_bind]. destruct (id == []), (negb (one_of l lifecycles)), (one_of id ids) eqn:E;
    cbn; rewrite ?E; done.
Qed.

(** A row that is accepted on its own, under its id. *)
Definition acceptable (row : Value) : Prop := accept_row [] row = Some (key_of row).

Lemma rows_loop_spec ids items :
  rows_loop ids items = Some tt
  ↔ Forall acceptable items ∧ NoDup (key_of <$> items) ∧ Forall (λ row, key_of row ∉ ids) items.
Proof.
  revert ids. induction items as [|row items IH]; intros ids; cbn [rows_loop].
  { split; [|done]. intros _. split_and!; constructor. }
  rewrite accept_row_ids, fmap_cons, NoDup_cons, !Forall_cons. split.
  - intros H. apply bind_Some in H as (id & Hid & H). apply bind_Some in Hid as (id' & Ha & Hid).
    case_match eqn:Ho; [done|]. injection Hid as ->.
    pose proof (accept_row_id _ _ _ Ha) as (_ & Hkey & _). apply IH in H as (H1 & H2 & H3).
    subst id. assert (Hn : key_of row ∉ ids) by (intros Hi; apply one_of_true in Hi; congruence).
    split_and!; try done.
    + intros Hin. apply list_elem_of_fmap in Hin as (r & Hr & Hin).
      rewrite Forall_forall in H3. specialize (H3 r Hin). set_solver.
    + eapply Forall_impl; [exact H3|]. set_solver.
  - intros ((Ha & H1) & (Hin & H2) & Hn & H3). rewrite Ha. cbn [mbind option_bind].
    rewrite one_of_false by done.
    apply IH. split_and!; [done..|]. apply Forall_forall. intros r Hr.
    rewrite Forall_forall in H3. apply not_elem_of_cons. split; [|by apply H3].
    intros Heq. apply Hin. rewrite <- Heq. by apply list_elem_of_fmap_2.
Qed.
Lemma rows_spec items items' :
  rows (Some (Array items)) = Some items'
  ↔ items' = items ∧ Forall acceptable items ∧ NoDup (key_of <$> items).
Proof.
  cbn. pose proof (rows_loop_spec [] items) as H. split.
  - intros Hr. apply bind_Some in Hr as ([] & Hl & [= ->]). apply H in Hl as (? & ? & _). done.
  - intros (-> & Ha & Hn). rewrite (proj2 H); [done|]. split_and!; [done..|].
    apply Forall_true. intros. apply not_elem_of_nil.
Qed.

Lemma acceptable_id row : acceptable row → row_id row = Str (key_of row) ∧ key_of row ≠ [].
Proof. intros H. pose proof (accept_row_id _ _ _ H) as (? & _ & ? & _). done. Qed.

Lemma acceptable_ids items :
  Forall acceptable items → NoDup (key_of <$> items) →
  ids (Some (Array (row_id <$> items))) = Some (key_of <$> items).
Proof.
  intros Ha Hn. cbn. assert (Hs : omap as_str (row_id <$> items) = key_of <$> items).
  { clear Hn. induction Ha as [|row items Hr Ha IH]; [done|].
    rewrite !fmap_cons. cbn. apply acceptable_id in Hr as [-> _]. cbn. by rewrite IH. }
  rewrite Hs, bool_decide_true by done. rewrite (proj2 (forallb_true _ _)); [done|].
  apply Forall_fmap. eapply Forall_impl; [exact Ha|]. intros row Hr. cbn.
  apply acceptable_id in Hr as [-> Hne]. cbn. by apply neqb_true.
Qed.

(** ** The delta describes the change *)

Definition rows_ok (items : list Value) : Prop :=
  Forall acceptable items ∧ NoDup (key_of <$> items).

Lemma row_lookup items k row :
  rows_ok items → by_id items !! k = Some row ↔ row ∈ items ∧ key_of row = k.
Proof.
  intros [Ha Hn]. unfold by_id.
  assert (Hs : omap (λ row, (λ id, (id, row)) <$> as_str (row_id row)) items
               = (λ row, (key_of row, row)) <$> items).
  { clear Hn. induction Ha as [|r items Hr Ha IH]; [done|].
    cbn. apply acceptable_id in Hr as [-> _]. cbn. by rewrite IH. }
  rewrite Hs, <- elem_of_list_to_map.
  - rewrite elem_of_reverse, list_elem_of_fmap. naive_solver.
  - rewrite fmap_reverse, reverse_Permutation, <- list_fmap_compose. done.
Qed.
Lemma by_id_None items k :
  rows_ok items → is_none (by_id items !! k) = true ↔ k ∉ key_of <$> items.
Proof.
  intros H. rewrite is_none_true. split.
  - intros Hk (row & -> & Hin)%list_elem_of_fmap.
    rewrite (proj2 (row_lookup items _ row H)) in Hk; done.
  - intros Hk. destruct (by_id items !! k) as [row|] eqn:E; [|done].
    apply row_lookup in E as [Hin <-]; [|done]. destruct Hk. by apply list_elem_of_fmap_2.
Qed.
Lemma key_of_inj items r r' :
  rows_ok items → r ∈ items → r' ∈ items → key_of r = key_of r' → r = r'.
Proof.
  intros H Hr Hr' Hk.
  assert (H1 : by_id items !! key_of r = Some r) by by apply row_lookup.
  assert (H2 : by_id items !! key_of r = Some r') by by apply row_lookup. congruence.
Qed.
Lemma rows_ok_filter (p : Value → bool) items : rows_ok items → rows_ok (List.filter p items).
Proof.
  intros [Ha Hn]. split.
  - apply Forall_forall. intros r. rewrite list_elem_of_In, filter_In, <- list_elem_of_In.
    intros [Hr _]. rewrite Forall_forall in Ha. by apply Ha.
  - induction items as [|r items IH]; cbn; [constructor|].
    rewrite fmap_cons, NoDup_cons in Hn. apply Forall_cons in Ha as [_ Ha].
    destruct Hn as [Hr Hn]. destruct (p r); [|by apply IH].
    rewrite fmap_cons. apply NoDup_cons. split; [|by apply IH].
    intros (r' & Hk & Hin)%list_elem_of_fmap. apply Hr. rewrite Hk. apply list_elem_of_fmap_2.
    apply list_elem_of_In, filter_In in Hin as [Hin _]. by apply list_elem_of_In.
Qed.
Lemma row_ids items : Forall acceptable items → row_id <$> items = (Str ∘ key_of) <$> items.
Proof.
  intros Ha. apply list_fmap_ext. intros i r Hr.
  apply (Forall_lookup_1 _ _ _ _ Ha) in Hr. by apply acceptable_id in Hr as [-> _].
Qed.
Lemma row_ids_inj xs ys :
  Forall acceptable xs → Forall acceptable ys → row_id <$> xs = row_id <$> ys ↔ key_of <$> xs = key_of <$> ys.
Proof.
  intros Hx Hy. rewrite !row_ids, !list_fmap_compose by done. split; [|congruence].
  apply list_fmap_eq_inj. congruence.
Qed.

Lemma elem_of_bfilter {A} (p : A → bool) l x : x ∈ List.filter p l ↔ x ∈ l ∧ p x = true.
Proof. by rewrite !list_elem_of_In, filter_In. Qed.

Lemma filter_none_bool {A} (p : A → bool) l : (∀ x, x ∈ l → p x = false) → List.filter p l = [].
Proof.
  intros H. destruct (List.filter p l) as [|x xs] eqn:E; [done|].
  assert (Hx : x ∈ List.filter p l) by (rewrite E; by left).
  apply elem_of_bfilter in Hx as [Hx Hp]. by rewrite H in Hp.
Qed.

Lemma NoDup_filter_bool {A} (p : A → bool) l : NoDup l → NoDup (List.filter p l).
Proof. rewrite !NoDup_ListNoDup. apply List.NoDup_filter. Qed.

Definition changed_rows (old next : list Value) : list Value :=
  List.filter (λ row, (by_id old !! key_of row) != Some row) next.
Definition removed_rows (old next : list Value) : list Value :=
  List.filter (λ row, is_none (by_id next !! key_of row)) old.

Lemma session_delta_Some old next d :
  session_delta old next = Some d →
  get (bytes_of "changed") d = Some (Array (changed_rows old next))
  ∧ get (bytes_of "removed") d = Some (Array (row_id <$> removed_rows old next))
  ∧ get (bytes_of "order") d
    = if (row_id <$> old) != (row_id <$> next) then Some (Array (row_id <$> next)) else None.
Proof.
  unfold session_delta. case_match eqn:E; [done|]. intros Hd. apply (inj Some) in Hd as <-.
  destruct ((row_id <$> old) != (row_id <$> next)).
  - split_and!; [| |apply get_put_same].
    + rewrite get_put_other by done. rewrite get_put_other by done. apply get_put_same.
    + rewrite get_put_other by done. apply get_put_same.
  - split_and!; [| |done].
    + rewrite get_put_other by done. apply get_put_same.
    + apply get_put_same.
Qed.

Lemma session_delta_None old next :
  rows_ok old → rows_ok next → session_delta old next = None ↔ old = next.
Proof.
  intros Ho Hn. unfold session_delta. fold (changed_rows old next) (removed_rows old next).
  case_match eqn:E.
  - split; [intros _|done]. rewrite !andb_true_iff, negb_true_iff in E.
    destruct E as [[Hc _] Hr]. apply neqb_elim in Hr.
    apply Nat.eqb_eq, nil_length_inv in Hc.
    apply row_ids_inj in Hr; [|apply Ho|apply Hn].
    apply list_eq_same_length with (n := length next); [done| |].
    { rewrite <- (length_fmap key_of old), Hr. apply length_fmap. }
    intros i x y _ Hx Hy. apply (key_of_inj old); [done|by eapply list_elem_of_lookup_2| |].
    + assert (Hy' : y ∉ changed_rows old next) by (rewrite Hc; apply not_elem_of_nil).
      unfold changed_rows in Hy'. rewrite elem_of_bfilter in Hy'.
      destruct ((by_id old !! key_of y) != Some y) eqn:Hk.
      * destruct Hy'. split; [by eapply list_elem_of_lookup_2|done].
      * apply neqb_elim in Hk. by apply row_lookup in Hk as [? _].
    + assert (Hk : (key_of <$> old) !! i = (key_of <$> next) !! i) by by rewrite Hr.
      rewrite !list_lookup_fmap, Hx, Hy in Hk. by injection Hk.
  - split; [done|]. intros <-. rewrite neqb_refl in E. cbn in E.
    assert (Hc : changed_rows old old = []).
    { apply filter_none_bool. intros r Hr. apply neqb_false. by apply row_lookup. }
    assert (Hd : removed_rows old old = []).
    { apply filter_none_bool. intros r Hr. apply not_true_iff_false.
      rewrite by_id_None by done. intros Hk. destruct Hk. by apply list_elem_of_fmap_2. }
    by rewrite Hc, Hd in E.
Qed.

Definition entries (items : list Value) : js_map := (λ row, (key_of row, row)) <$> items.
Lemma entries_keys items : (entries items).*1 = key_of <$> items.
Proof. unfold entries. by rewrite <- list_fmap_compose. Qed.
Lemma entries_get items row : rows_ok items → row ∈ items → get (key_of row) (entries items) = Some row.
Proof.
  intros [_ Hn] Hin. induction items as [|r items IH]; [by apply elem_of_nil in Hin|].
  rewrite fmap_cons in Hn. apply NoDup_cons in Hn as [Hr Hn]. cbn.
  apply elem_of_cons in Hin as [->|Hin]; [by rewrite eqb_refl|].
  rewrite (proj2 (eqb_false _ _)); [by apply IH|]. intros Heq. apply Hr. rewrite Heq.
  by apply list_elem_of_fmap_2.
Qed.

(** Membership in the parts of a delta. *)
Lemma elem_of_removed old next k :
  rows_ok next → k ∈ key_of <$> removed_rows old next ↔ k ∈ key_of <$> old ∧ k ∉ key_of <$> next.
Proof.
  intros Hn. unfold removed_rows. rewrite !list_elem_of_fmap. split.
  - intros (r & -> & [Hr Hk]%elem_of_bfilter). rewrite by_id_None in Hk by done.
    split; [by exists r|]. by rewrite <- list_elem_of_fmap.
  - intros [(r & -> & Hr) Hk]. exists r. split; [done|]. apply elem_of_bfilter.
    rewrite by_id_None, list_elem_of_fmap by done. done.
Qed.
Lemma elem_of_changed old next row :
  rows_ok old → row ∈ changed_rows old next ↔ row ∈ next ∧ row ∉ old.
Proof.
  intros Ho. unfold changed_rows. rewrite elem_of_bfilter, neqb_true, row_lookup by done.
  naive_solver.
Qed.
Lemma changed_key_next old next k :
  k ∈ key_of <$> changed_rows old next → k ∈ key_of <$> next.
Proof.
  rewrite !list_elem_of_fmap. intros (r & -> & [Hr _]%elem_of_bfilter). by exists r.
Qed.

Lemma delta_map old next :
  rows_ok old → rows_ok next →
  ∃ m m', delete_all (key_of <$> removed_rows old next) (entries old) = Some m
    ∧ set_all (key_of <$> removed_rows old next) (changed_rows old next) m = Some m'
    ∧ NoDup m'.*1 ∧ (∀ k, k ∈ m'.*1 ↔ k ∈ key_of <$> next)
    ∧ (∀ row, row ∈ next → get (key_of row) m' = Some row)
    ∧ (key_of <$> old = key_of <$> next → m'.*1 = key_of <$> next).
Proof.
  intros Ho Hn.
  destruct (delete_all_spec (key_of <$> removed_rows old next) (entries old)) as (m & Hm & Hk & Hg).
  { by apply rows_ok_filter. }
  { intros k. rewrite elem_of_removed, entries_keys by done. by intros [? _]. }
  destruct (set_all_spec (key_of <$> removed_rows old next) (changed_rows old next) m)
    as (m' & Hm' & Hk' & Hnd & Hsame & Hc & Hg').
  { by apply rows_ok_filter. }
  { apply Forall_forall. intros r Hr%(list_elem_of_fmap_2 key_of)%changed_key_next.
    rewrite elem_of_removed by done. naive_solver. }
  rewrite entries_keys in Hk. exists m, m'. split; [done|]. split; [done|]. split_and!.
  - apply Hnd. rewrite Hk. apply NoDup_filter_bool, Ho.
  - intros k. rewrite Hk', Hk, elem_of_bfilter, negb_true_iff. split.
    + intros [[Hko Hr]|Hch]; [|by apply changed_key_next in Hch].
      destruct (decide (k ∈ key_of <$> next)); [done|].
      rewrite (proj2 (one_of_true _ _)) in Hr; [done|]. by apply elem_of_removed.
    + intros Hkn. apply list_elem_of_fmap in Hkn as (r & -> & Hr).
      destruct (decide (r ∈ old)) as [Hro|Hro].
      * left. split; [by apply list_elem_of_fmap_2|]. apply one_of_false.
        rewrite elem_of_removed by done. intros [_ Hx]. destruct Hx. by apply list_elem_of_fmap_2.
      * right. apply list_elem_of_fmap_2. by apply elem_of_changed.
  - intros r Hr. destruct (decide (r ∈ old)) as [Hro|Hro]; [|by apply Hc, elem_of_changed].
    rewrite Hg', Hg; [by apply entries_get|..].
    + rewrite elem_of_removed by done. intros [_ Hx]. destruct Hx. by apply list_elem_of_fmap_2.
    + intros (r' & Heq & Hr')%list_elem_of_fmap. apply elem_of_changed in Hr' as [Hr' Hno]; [|done].
      destruct Hno. by rewrite <- (key_of_inj next r r').
  - intros Heq. assert (Hall : removed_rows old next = []).
    { apply filter_none_bool. intros r Hr. apply not_true_iff_false. rewrite by_id_None, <- Heq by done.
      intros Hx. destruct Hx. by apply list_elem_of_fmap_2. }
    rewrite Hall in Hm. injection Hm as <-. rewrite Hsame, entries_keys; [done|].
    intros k Hkc%changed_key_next. by rewrite entries_keys, Heq.
Qed.

Lemma omap_get (m : js_map) (items : list Value) :
  (∀ row, row ∈ items → get (key_of row) m = Some row) → omap (λ id, get id m) (key_of <$> items) = items.
Proof.
  induction items as [|r items IH]; intros H; [done|]. rewrite fmap_cons. cbn.
  rewrite (H r) by by left. by rewrite IH by (intros; apply H; by right).
Qed.

Lemma delta_applies old next d message :
  rows_ok old → rows_ok next → session_delta old next = Some d →
  (∀ field, field ∈ ["changed"; "removed"; "order"] →
     get (bytes_of field) message = get (bytes_of field) d) →
  apply_delta old message = Some next.
Proof.
  intros Ho Hn Hd Hm. apply session_delta_Some in Hd as (Hc & Hr & Hord). unfold apply_delta.
  rewrite !Hm, Hc, Hr, Hord by set_solver.
  rewrite (proj2 (rows_spec _ _)) by (split; [done|by apply rows_ok_filter]).
  rewrite acceptable_ids by by apply rows_ok_filter. cbn [mbind option_bind].
  destruct (delta_map old next Ho Hn) as (m & m' & Hdel & Hset & Hnd & Hk & Hg & Hsame).
  fold (entries old). rewrite Hdel. cbn [mbind option_bind]. rewrite Hset. cbn [mbind option_bind].
  set (order := match _ with Some _ => _ | None => _ end).
  assert (Horder : order = Some (key_of <$> next)).
  { subst order. destruct (_ != _) eqn:E; [by apply acceptable_ids; apply Hn|].
    apply neqb_elim in E. apply row_ids_inj in E; [|apply Ho|apply Hn]. by rewrite Hsame. }
  rewrite Horder. cbn [mbind option_bind]. rewrite omap_get by done.
  assert (Hlen : length (key_of <$> next) = length m').
  { rewrite <- (length_fmap fst m'). apply Permutation_length, NoDup_Permutation; [apply Hn|done|].
    intros k. by rewrite Hk. }
  rewrite (proj2 (Nat.eqb_eq _ _) Hlen), (proj2 (forallb_true _ _)); [done|].
  apply Forall_forall. intros k Hkn. apply get_is_some. by apply Hk.
Qed.

(** ** Properties *)

(** C20: a delta is exactly the change.  For lists of rows that the desktop accepts,
    there is no delta iff nothing changed; otherwise it carries only rows that are new
    or different, and the desktop that applies it to the old list has the new one, in
    its order. *)
Theorem session_delta_round_trip old next :
  rows (Some (Array old)) = Some old → rows (Some (Array next)) = Some next →
  match session_delta old next with
  | None => old = next
  | Some delta =>
      old ≠ next ∧ apply_delta old delta = Some next
      ∧ ∃ changed, get (bytes_of "changed") delta = Some (Array changed)
          ∧ ∀ row, row ∈ changed ↔ row ∈ next ∧ row ∉ old
  end.
Proof.
  intros [_ Ho]%rows_spec [_ Hn]%rows_spec. destruct (session_delta old next) as [d|] eqn:Hd.
  - split_and!.
    + intros Heq. apply session_delta_None in Heq; [congruence|done..].
    + by apply (delta_applies old next d).
    + apply session_delta_Some in Hd as (Hc & _). exists (changed_rows old next).
      split; [done|]. intros row. by apply elem_of_changed.
  - by apply (session_delta_None old next).
Qed.

(** A row of a live session, for the concrete runs. *)
Definition sample_row (id label : string) : Value :=
  Object (map (λ m, (bytes_of m.1, Str (bytes_of m.2)))
    [("created_at", "t"); ("cwd", "/w"); ("id", id); ("label", label); ("lifecycle", "alive");
     ("memoryState", "none"); ("resumeStrategy", "fresh"); ("status", "working")]).

Lemma session_delta_round_trip_witness :
  let old := [sample_row "a" "old"; sample_row "b" ""] in
  let next := [sample_row "a" "new"; sample_row "c" ""] in
  ∃ delta, session_delta old next = Some delta
    ∧ get (bytes_of "removed") delta = Some (Array [Str (bytes_of "b")])
    ∧ apply_delta old delta = Some next.
Proof.
  cbv zeta. eexists. split; [vm_compute; reflexivity|]. split; [vm_compute; reflexivity|].
  apply (session_delta_round_trip [sample_row "a" "old"; sample_row "b" ""]
           [sample_row "a" "new"; sample_row "c" ""]); vm_compute; reflexivity.
Defined.
