(* ===== verification/WorkspaceUpdates.v ===== *)
(** * Updates of a connected desktop

    [workspace_updates.rs]: the hub of revisions that producers bump, the guards of a
    subscription, and the loop [run] that serves one, as a machine.  Between two awaits
    of the loop anything else may happen: a change of what the session query would
    answer, its signal, a switch of the workspace.  Every await resumes with an answer
    that the event carries.

    The session query runs on a blocking thread while the loop waits for it.  Three
    instants are apart: the turn reads the revisions ([Turn]), the query reads the
    sessions ([Queried], one instant), the loop goes on with what was read
    ([QueryDone]); changes and signals may come before, between and after them.

    The world ([world]) is what [query_sessions] would answer.  A change of it and its
    signal are two events; [outstanding] counts the changes whose signal is still to
    come and is not a field of the program.  Of [tokio::sync::watch] the receiver's mark
    is kept ([unseen]).  An [Origin] is parsed by the url crate. *)
From S2P Require Export SessionDelta.

(** ** The hub *)

Record Revisions : Type := mkRevisions {
  sessions : Z;
  recommendations : Z;
  workspace : Z;
  watcher : Z;
}.
#[export] Instance Revisions_eq_dec : EqDecision Revisions.
Proof. solve_decision. Defined.
Definition default_revisions : Revisions := mkRevisions 0 0 0 0.

(** One [send_modify]. *)
Inductive Bump : Type := Sessions | Recommendations | Workspace | Watcher.
#[export] Instance Bump_eq_dec : EqDecision Bump.
Proof. solve_decision. Defined.
Definition send_modify (b : Bump) (r : Revisions) : Revisions :=
  let next := wrapping_add u64_max in
  match b with
  | Sessions => mkRevisions (next (sessions r) 1) (recommendations r) (workspace r) (watcher r)
  | Recommendations => mkRevisions (sessions r) (next (recommendations r) 1) (workspace r) (watcher r)
  | Workspace => mkRevisions (sessions r) (recommendations r) (next (workspace r) 1) (watcher r)
  | Watcher => mkRevisions (sessions r) (recommendations r) (workspace r) (next (watcher r) 1)
  end.

(** The methods of [UpdateHub], as the bumps they make one after the other. *)
Definition sessions_changed : list Bump := [Sessions].
Definition recommendations_changed : list Bump := [Recommendations].
Definition all_changed : list Bump := sessions_changed ++ recommendations_changed.
Definition rearm : list Bump := Watcher :: all_changed.

Inductive Method : Type := GET | HEAD | OPTIONS | OtherMethod.
(** After the response: [success] of its status. *)
Definition invalidate_mutations (method : Method) (path : list Z) (success : bool) : list Bump :=
  match method with
  | GET | HEAD | OPTIONS => []
  | OtherMethod =>
      (if (path == bytes_of "/workspace") && success then [Workspace] else []) ++ all_changed
  end.

(** An event of the watcher; a path is its components. *)
Record NotifyEvent : Type := mkNotify {
  access : bool;
  need_rescan : bool;
  paths : list (list (list Z));
}.
Definition session_dirs : list (list Z) :=
  bytes_of <$> ["sessions"; "session-state"; "capacity"; "workflow-observations"].
Definition watched_dirs : list (list Z) :=
  session_dirs ++ (bytes_of <$> ["recommendations"; "taskmaster"]).
Fixpoint strip_path (base path : list (list Z)) : option (list (list Z)) :=
  match base, path with
  | [], _ => Some path
  | b :: base, p :: path => if b == p then strip_path base path else None
  | _ :: _, [] => None
  end.
Definition parent (path : list (list Z)) : option (list (list Z)) :=
  if (length path =? 0)%nat then None else Some (removelast path).
Definition path_bumps (watched_root watched_global path : list (list Z)) : list Bump :=
  let first := strip_path watched_root path ≫= head in
  (if (parent path == Some watched_root) && is_some_and first (λ c, one_of c watched_dirs)
   then rearm else [])
  ++ if is_some_and first (λ c, one_of c session_dirs) then sessions_changed
     else if is_some_and first (λ c, one_of c
               (bytes_of <$> ["recommendations"; "taskmaster"; "assessment.json"]))
     then recommendations_changed
     else if is_some (strip_path watched_global path) then recommendations_changed else [].
Definition watch_callback (watched_root watched_global : list (list Z))
    (event : option NotifyEvent) : list Bump :=
  match event with
  | Some event =>
      if access event then []
      else if need_rescan event then rearm
      else concat (path_bumps watched_root watched_global <$> paths event)
  | None => rearm
  end.

(** ** The guards of a subscription *)

Record Url : Type := mkUrl {
  scheme : list Z;
  username : list Z;
  has_password : bool;
  host_str : option (list Z);
  url_path : list Z;
  has_query : bool;
  has_fragment : bool;
}.
Definition origin_allowed (parse : list Z → option Url) (origin : option (list Z)) : bool :=
  match origin with
  | None => true
  | Some origin =>
      (origin == bytes_of "null")
      || is_some_and (parse origin) (λ url,
           (scheme url == bytes_of "http") && (username url == []) && negb (has_password url)
           && is_some_and (host_str url) (λ h, one_of h (bytes_of <$> ["localhost"; "127.0.0.1"; "[::1]"]))
           && (url_path url == bytes_of "/") && negb (has_query url) && negb (has_fragment url))
  end.

Inductive Subscribed : Type := Forbidden | Conflict | Upgraded (workspace root : list Z).
(** [header]: absent, not text, or a text; [identity] is [workspace_identity]. *)
Definition subscribe (parse : list Z → option Url) (header : option (option (list Z)))
    (identity : option (list Z * list Z)) (query : list Z) : Subscribed :=
  if is_some_and header (λ h,
       match h with Some value => negb (origin_allowed parse (Some value)) | None => true end)
  then Forbidden
  else
    match opt_filter (λ i, i.1 == query) identity with
    | Some (workspace, root) => Upgraded workspace root
    | None => Conflict
    end.

(** ** The loop of a subscription *)

(** Where the loop is: before its next turn or at an await. *)
Inductive Phase : Type :=
  | Top
  | AwaitQuery (captured : Revisions) (recommendations_dirty : bool) (read : option (list Value))
  | AwaitUnavailable
  | AwaitSessions (captured : Revisions) (recommendations_dirty : bool) (rows : list Value)
      (message : Value)
  | AwaitRecommendations (captured : Revisions) (message : Value)
  | Select
  | AwaitHeartbeat
  | Done.

(** The variables of [run]. *)
Record Conn : Type := mkConn {
  path : list Z;
  root : list Z;
  generation : Z;
  conn_baseline : option (list Value);
  sequence : Z;
  consumed : Revisions;
  full : bool;
  unseen : bool;
  phase : Phase;
}.
(** The daemon, as far as one connection depends on it. *)
Record Daemon : Type := mkDaemon {
  revisions : Revisions;
  instance : list Z;
  workspace_identity : option (list Z * list Z);
  world : list Value;
  outstanding : nat;
  conn : Conn;
}.

(** Entering [run]: the receiver is registered before the first query. *)
Definition run_entry (path root : list Z) (r : Revisions) : Conn :=
  mkConn path root (workspace r) None 0 default_revisions true false Top.

Inductive Query : Type := Rows | QueryFailed | NotSerialized.
(** A send that succeeds, or fails after or before the message arrived. *)
Inductive Sent : Type := Delivered | FailedLate | Lost.
Inductive Incoming : Type := Refresh | PingPong | Other.
Inductive Event : Type :=
  | Mutate (rows : list Value)
  | Signal (b : Bump) (settles : bool)
  | Reidentify (identity : option (list Z * list Z))
  | Turn
  | Queried
  | QueryDone (answer : Query)
  | SendDone (sent : Sent)
  | Changed
  | Reconcile
  | HeartbeatTick
  | Received (m : Incoming).

Definition with_conn (c : Conn) (d : Daemon) : Daemon :=
  mkDaemon (revisions d) (instance d) (workspace_identity d) (world d) (outstanding d) c.
Definition with_phase (p : Phase) (c : Conn) : Conn :=
  mkConn (path c) (root c) (generation c) (conn_baseline c) (sequence c) (consumed c) (full c)
    (unseen c) p.
Definition with_full (c : Conn) : Conn :=
  mkConn (path c) (root c) (generation c) (conn_baseline c) (sequence c) (consumed c) true
    (unseen c) (phase c).
Definition with_unseen (b : bool) (c : Conn) : Conn :=
  mkConn (path c) (root c) (generation c) (conn_baseline c) (sequence c) (consumed c) (full c)
    b (phase c).
Definition with_baseline (rows : list Value) (c : Conn) : Conn :=
  mkConn (path c) (root c) (generation c) (Some rows) (sequence c) (consumed c) (full c)
    (unseen c) (phase c).
Definition with_sequence (n : Z) (c : Conn) : Conn :=
  mkConn (path c) (root c) (generation c) (conn_baseline c) n (consumed c) (full c)
    (unseen c) (phase c).
Definition with_consumed (r : Revisions) (c : Conn) : Conn :=
  mkConn (path c) (root c) (generation c) (conn_baseline c) (sequence c) r false (unseen c) (phase c).

(** The workspace is no longer the one that was subscribed to. *)
Definition moved (d : Daemon) (current : Revisions) : bool :=
  let c := conn d in
  (workspace current != generation c) || (workspace_identity d != Some (path c, root c)).

(** The members that the loop adds to a message. *)
Definition header (d : Daemon) (message : list (list Z * Value)) : list (list Z * Value) :=
  put (bytes_of "generation") (Number (generation (conn d)))
    (put (bytes_of "workspace") (Str (path (conn d)))
      (put (bytes_of "instance") (Str (instance d))
        (put (bytes_of "version") (Number 1) message))).
Definition typed (type : string) (message : list (list Z * Value)) : list (list Z * Value) :=
  put (bytes_of "type") (Str (bytes_of type)) message.
Definition with_base (base : Z) (message : list (list Z * Value)) : list (list Z * Value) :=
  put (bytes_of "base") (Number base) message.
Definition with_number (n : Z) (message : list (list Z * Value)) : list (list Z * Value) :=
  put (bytes_of "sequence") (Number n) message.
#[global] Arguments header : simpl never.
#[global] Arguments typed : simpl never.
#[global] Arguments with_base : simpl never.
#[global] Arguments with_number : simpl never.
Definition plain (type : string) : Value := Object (typed type []).

(** The end of a turn. *)
Definition finish_turn (captured : Revisions) (c : Conn) : Conn :=
  with_phase Select (with_consumed captured c).
(** From [if recommendations_dirty] on. *)
Definition recommendations_part (d : Daemon) (captured : Revisions) (dirty : bool) (c : Conn) : Conn :=
  if dirty then
    let base := sequence c in
    let next := wrapping_add u64_max base 1 in
    with_phase (AwaitRecommendations captured (Object (with_number next (with_base base
      (header d (typed "recommendations-invalidated" []))))))
      (with_sequence next c)
  else finish_turn captured c.

(** The message about the rows of a query, and the sequence number it takes. *)
Definition sessions_message (d : Daemon) (rows : list Value) : option Value * Z :=
  let c := conn d in
  match conn_baseline c with
  | Some old =>
      match session_delta old rows with
      | Some delta =>
          let next := wrapping_add u64_max (sequence c) 1 in
          (Some (Object (with_number next (with_base (sequence c) (header d (typed "sessions-delta" delta))))),
           next)
      | None => (None, sequence c)
      end
  | None =>
      (Some (Object (with_number (sequence c) (header d
         (put (bytes_of "sessions") (Array rows) (typed "snapshot" []))))), sequence c)
  end.

Definition turn (d : Daemon) : Conn :=
  let c := with_unseen false (conn d) in
  let captured := revisions d in
  if moved d captured then with_phase Done c
  else
    let sessions_dirty := is_none (conn_baseline c) || full c || (sessions captured != sessions (consumed c)) in
    let recommendations_dirty :=
      is_none (conn_baseline c) || full c || (recommendations captured != recommendations (consumed c)) in
    if sessions_dirty then with_phase (AwaitQuery captured recommendations_dirty None) c
    else recommendations_part d captured recommendations_dirty c.

(** After the await of the query, which had read [rows]. *)
Definition query_done (d : Daemon) (captured : Revisions) (dirty : bool) (rows : list Value) (answer : Query)
    : Conn :=
  let c := conn d in
  if moved d (revisions d) then with_phase Done c
  else
    match answer with
    | QueryFailed => with_phase AwaitUnavailable c
    | NotSerialized => with_phase Done c
    | Rows =>
        match sessions_message d rows with
        | (Some message, next) => with_phase (AwaitSessions captured dirty rows message) (with_sequence next c)
        | (None, _) => recommendations_part d captured dirty (with_baseline rows c)
        end
    end.

(** What arrives of a message, and whether the loop goes on. *)
Definition arrives (sent : Sent) (message : Value) : list Value :=
  match sent with Lost => [] | _ => [message] end.
Definition goes_on (sent : Sent) : bool := match sent with Delivered => true | _ => false end.
Definition send_done (d : Daemon) (sent : Sent) : Conn * list Value :=
  let c := conn d in
  let on next := if goes_on sent then next else with_phase Done c in
  match phase c with
  | AwaitSessions captured dirty rows message =>
      (on (recommendations_part d captured dirty (with_baseline rows c)), arrives sent message)
  | AwaitRecommendations captured message => (on (finish_turn captured c), arrives sent message)
  | AwaitUnavailable => (with_phase Done c, arrives sent (plain "unavailable"))
  | AwaitHeartbeat => (on (with_phase Top c), arrives sent (plain "heartbeat"))
  | _ => (c, [])
  end.

Definition daemon_call (d : Daemon) (e : Event) : Daemon * list Value :=
  let c := conn d in
  match e with
  | Mutate rows =>
      (mkDaemon (revisions d) (instance d) (workspace_identity d) rows (S (outstanding d)) c, [])
  | Signal b settles =>
      (mkDaemon (send_modify b (revisions d)) (instance d) (workspace_identity d) (world d)
         (if settles && (b == Sessions) then pred (outstanding d) else outstanding d)
         (with_unseen true c), [])
  | Reidentify identity =>
      (mkDaemon (revisions d) (instance d) identity (world d) (outstanding d) c, [])
  | SendDone sent => let '(c, out) := send_done d sent in (with_conn c d, out)
  | _ =>
      (match phase c, e with
       | Top, Turn => with_conn (turn d) d
       | AwaitQuery captured dirty None, Queried =>
           with_conn (with_phase (AwaitQuery captured dirty (Some (world d))) c) d
       | AwaitQuery captured dirty (Some rows), QueryDone answer =>
           with_conn (query_done d captured dirty rows answer) d
       | Select, Changed =>
           if unseen c then with_conn (with_phase Top (with_unseen false c)) d else d
       | Select, Reconcile => with_conn (with_phase Top (with_full c)) d
       | Select, HeartbeatTick => with_conn (with_phase AwaitHeartbeat c) d
       | Select, Received Refresh => with_conn (with_phase Top (with_full c)) d
       | Select, Received PingPong => with_conn (with_phase Top c) d
       | Select, Received Other => with_conn (with_phase Done c) d
       | _, _ => d
       end, [])
  end.
#[export] Instance daemon_machine : Machine Daemon Event (list Value) := {
  initial d := ∃ p r, conn d = run_entry p r (revisions d);
  step := daemon_call;
}.

(** ** The desktop's end of the socket *)

(** [onmessage]: a heartbeat is not applied; [None] is [fail], a new connection. *)
Definition onmessage (workspacePath : list Z) (s : StreamState) (message : Value) : option StreamState :=
  members ← record message;
  if get (bytes_of "type") members == Some (Str (bytes_of "heartbeat")) then Some s
  else apply workspacePath s message.
#[global] Arguments onmessage : simpl never.
Fixpoint receive (workspacePath : list Z) (s : StreamState) (messages : list Value) : option StreamState :=
  match messages with
  | [] => Some s
  | m :: messages => s ← onmessage workspacePath s m; receive workspacePath s messages
  end.

(** ** The desktop accepts each message *)

Ltac gets := repeat first [rewrite get_put_same | rewrite get_put_other by done].

Definition safe (n : Z) : Prop := 0 <= n <= MAX_SAFE_INTEGER.
Lemma safe_natural_Number n : safe n → safe_natural (Some (Number n)) = Some n.
Proof. intros [H1 H2]. cbn. by rewrite (proj2 (Z.leb_le _ _) H1), (proj2 (Z.leb_le _ _) H2). Qed.

(** A message with the five members every message has. *)
Record headed (ws inst : list Z) (gen n : Z) (m : list (list Z * Value)) : Prop := {
  headed_version : get (bytes_of "version") m = Some (Number 1);
  headed_workspace : get (bytes_of "workspace") m = Some (Str ws);
  headed_instance : get (bytes_of "instance") m = Some (Str inst);
  headed_generation : get (bytes_of "generation") m = Some (Number gen);
  headed_sequence : get (bytes_of "sequence") m = Some (Number n);
}.

Lemma header_headed d n m :
  headed (path (conn d)) (instance d) (generation (conn d)) n (with_number n (header d m)).
Proof. unfold with_number, header. split; by gets. Qed.
Lemma header_headed_base d n b m :
  headed (path (conn d)) (instance d) (generation (conn d)) n (with_number n (with_base b (header d m))).
Proof. unfold with_number, with_base, header. split; by gets. Qed.

Section accept.
Context (ws inst : list Z) (gen n : Z) (m : list (list Z * Value)).
Context (Hh : headed ws inst gen n m) (Hgen : safe gen) (Hn : safe n).

Lemma onmessage_typed s type :
  get (bytes_of "type") m = Some (Str (bytes_of type)) → bytes_of type ≠ bytes_of "heartbeat" →
  onmessage ws s (Object m) = apply ws s (Object m).
Proof.
  intros Ht Hne. unfold onmessage. cbn [record mbind option_bind]. rewrite Ht.
  rewrite (proj2 (eqb_false _ _)); [done|]. congruence.
Qed.

Lemma apply_snapshot items :
  get (bytes_of "type") m = Some (Str (bytes_of "snapshot")) →
  get (bytes_of "sessions") m = Some (Array items) → rows_ok items →
  apply ws createStreamState (Object m) = Some (mkStream (Some (inst, gen)) n items).
Proof.
  intros Ht Hs Hok. destruct Hh as [H1 H2 H3 H4 H5]. unfold apply. cbn [record mbind option_bind].
  rewrite H1, H2, H3, H4, H5, Ht, Hs, !eqb_refl, !safe_natural_Number by done.
  cbn [andb negb as_str mbind option_bind identity createStreamState].
  by rewrite (proj2 (rows_spec items items)).
Qed.

Lemma apply_next s type rest :
  identity s = Some (inst, gen) → n = cursor s + 1 →
  get (bytes_of "base") m = Some (Number (cursor s)) →
  get (bytes_of "type") m = Some (Str (bytes_of type)) → bytes_of type ≠ bytes_of "snapshot" →
  (if bytes_of type == bytes_of "recommendations-invalidated"
   then Some (mkStream (identity s) (cursor s + 1) (baseline s))
   else if bytes_of type != bytes_of "sessions-delta" then None
   else result ← apply_delta (baseline s) m; Some (mkStream (identity s) (cursor s + 1) result)) = rest →
  apply ws s (Object m) = rest.
Proof.
  intros Hi Hs Hb Ht Hne <-. destruct Hh as [H1 H2 H3 H4 H5].
  assert (Hstr : ∀ a b : list Z, (Some (Str a) == Some (Str b)) = (a == b)).
  { intros a b. unfold eqb. apply bool_decide_ext. split; [by intros [= ->]|by intros ->]. }
  unfold apply. cbn [record mbind option_bind].
  rewrite H1, H2, H3, H4, H5, Ht, Hb, Hi, !Hstr, !eqb_refl, !safe_natural_Number by done.
  cbn [andb negb as_str mbind option_bind].
  rewrite (proj2 (eqb_false _ _) Hne), !eqb_refl, (proj2 (Z.eqb_eq _ _) Hs). done.
Qed.
End accept.

(** ** The connection and the desktop in step *)

(** The members of a message of the loop. *)
Ltac members := unfold with_number, with_base, header, typed; gets; try reflexivity.


(** The desktop has what the connection has sent. *)
Definition holds (d : Daemon) (n : Z) (items : list Value) : StreamState :=
  mkStream (Some (instance d, generation (conn d))) n items.
Definition agrees (d : Daemon) (s : StreamState) : Prop :=
  match conn_baseline (conn d) with
  | None => s = createStreamState ∧ sequence (conn d) = 0
  | Some items => s = holds d (sequence (conn d)) items
  end.

Lemma wrapping_small n : safe n → wrapping_add u64_max n 1 = n + 1.
Proof.
  intros [H1 H2]. unfold wrapping_add, MAX_SAFE_INTEGER, u64_max in *. apply Z.mod_small. lia.
Qed.

Lemma sessions_message_accepted d items message next s :
  agrees d s → sessions_message d items = (Some message, next) → rows_ok items →
  (∀ old, conn_baseline (conn d) = Some old → rows_ok old) →
  safe (generation (conn d)) → safe (sequence (conn d)) → safe (sequence (conn d) + 1) →
  onmessage (path (conn d)) s message = Some (holds d next items)
  ∧ sequence (conn d) <= next <= sequence (conn d) + 1.
Proof.
  unfold agrees, sessions_message. intros Ha Hm Hok Hold Hg Hn Hn1.
  destruct (conn_baseline (conn d)) as [old|].
  - destruct (session_delta old items) as [delta|] eqn:Hd; [|discriminate Hm].
    rewrite wrapping_small in Hm by done. injection Hm as <- <-. split; [|lia]. subst s.
    rewrite (onmessage_typed _ _ _ "sessions-delta") by (done || members).
    apply (apply_next _ _ _ _ _ (header_headed_base d _ _ _) Hg Hn1 _ "sessions-delta"); try done.
    + members.
    + members.
    + rewrite neqb_refl. rewrite (proj2 (eqb_false _ _)) by done. cbn [baseline].
      rewrite (delta_applies old items delta); try done; [by apply Hold|].
      intros field Hf. unfold with_number, with_base, header, typed.
      apply list_elem_of_In in Hf as [<-|[<-|[<-|[]]]]; by gets.
  - injection Hm as <- <-. destruct Ha as [-> Hz]. split; [|lia].
    rewrite (onmessage_typed _ _ _ "snapshot") by (done || members).
    apply (apply_snapshot _ _ _ _ _ (header_headed d _ _) Hg Hn); [..|done];
      members.
Qed.

Lemma sessions_message_None d items n :
  sessions_message d items = (None, n) → rows_ok items →
  (∀ old, conn_baseline (conn d) = Some old → rows_ok old) → conn_baseline (conn d) = Some items.
Proof.
  unfold sessions_message. intros Hm Hok Hold. destruct (conn_baseline (conn d)) as [old|]; [|done].
  destruct (session_delta old items) eqn:Hd; [discriminate Hm|].
  apply session_delta_None in Hd; [congruence|by apply Hold|done].
Qed.

Lemma recommendations_accepted d items n :
  safe (generation (conn d)) → safe n → safe (n + 1) →
  onmessage (path (conn d)) (holds d n items)
    (Object (with_number (n + 1) (with_base n (header d (typed "recommendations-invalidated" [])))))
  = Some (holds d (n + 1) items).
Proof.
  intros Hg Hn Hn1.
  rewrite (onmessage_typed _ _ _ "recommendations-invalidated")
    by (done || members).
  apply (apply_next _ _ _ _ _ (header_headed_base d _ _ _) Hg Hn1 _ "recommendations-invalidated");
    try done; members.
Qed.

Definition in_step (d : Daemon) (s : StreamState) : Prop :=
  let c := conn d in
  match phase c with
  | Done => True
  | AwaitQuery _ _ read => agrees d s ∧ ∀ items, read = Some items → rows_ok items
  | AwaitSessions _ _ items message =>
      rows_ok items ∧ onmessage (path c) s message = Some (holds d (sequence c) items)
  | AwaitRecommendations _ message =>
      ∃ items, conn_baseline c = Some items
        ∧ onmessage (path c) s message = Some (holds d (sequence c) items)
  | _ => agrees d s
  end.
Record Sync (n : Z) (d : Daemon) (s : StreamState) : Prop := {
  sync_world : rows_ok (world d);
  sync_baseline : ∀ old, conn_baseline (conn d) = Some old → rows_ok old;
  sync_generation : safe (generation (conn d));
  sync_sequence : 0 <= sequence (conn d) <= n;
  sync_step : in_step d s;
}.

(** A change of the connection alone. *)
Definition same_conn (c c' : Conn) : Prop := path c' = path c ∧ generation c' = generation c.
Lemma Sync_conn n d c s :
  Sync n d s → same_conn (conn d) c → (∀ old, conn_baseline c = Some old → rows_ok old) →
  0 <= sequence c <= n + 1 → in_step (with_conn c d) s → Sync (n + 1) (with_conn c d) s.
Proof.
  intros [H1 H2 H3 H4 H5] [_ Hg] Hb Hs Hi. split; [done|done| |done|done]. cbn. by rewrite Hg.
Qed.
Lemma Sync_mono n d s : Sync n d s → Sync (n + 1) d s.
Proof. intros [H1 H2 H3 H4 H5]. split; [done|done|done|lia|done]. Qed.

Lemma recommendations_part_same d captured dirty c :
  same_conn c (recommendations_part d captured dirty c).
Proof. unfold recommendations_part. by destruct dirty. Qed.
Lemma recommendations_part_baseline d captured dirty c :
  conn_baseline (recommendations_part d captured dirty c) = conn_baseline c.
Proof. unfold recommendations_part. by destruct dirty. Qed.
Lemma recommendations_part_sync n d captured dirty c s items :
  Sync n d s → n + 1 <= MAX_SAFE_INTEGER → same_conn (conn d) c → conn_baseline c = Some items →
  rows_ok items → 0 <= sequence c <= n →
  Sync (n + 1) (with_conn (recommendations_part d captured dirty c) d) (holds d (sequence c) items).
Proof.
  intros [H1 H2 H3 H4 H5] Hn [Hp Hg] Hb Hok Hs. split; cbn.
  - done.
  - rewrite recommendations_part_baseline, Hb. by intros old [= <-].
  - destruct (recommendations_part_same d captured dirty c) as [_ ->]. by rewrite Hg.
  - unfold recommendations_part. destruct dirty; cbn; [|lia].
    rewrite wrapping_small by (split; lia). lia.
  - unfold in_step, recommendations_part. destruct dirty; cbn.
    + exists items. split; [done|]. rewrite !wrapping_small, Hp by (split; lia).
      rewrite recommendations_accepted by (done || split; lia).
      unfold holds. cbn. by rewrite Hg.
    + unfold agrees. cbn. rewrite Hb. unfold holds. cbn. by rewrite Hg.
Qed.

(** One event: what arrives is accepted, or it is the end of the connection. *)
Definition progress (n : Z) (d : Daemon) (s : StreamState) (r : Daemon * list Value) : Prop :=
  same_conn (conn d) (conn r.1)
  ∧ ((∃ s', receive (path (conn d)) s r.2 = Some s' ∧ Sync (n + 1) r.1 s')
     ∨ (r.2 = [plain "unavailable"] ∧ phase (conn r.1) = Done)).

Lemma progress_quiet n d s c :
  Sync n d s → same_conn (conn d) c → (∀ old, conn_baseline c = Some old → rows_ok old) →
  0 <= sequence c <= n + 1 → in_step (with_conn c d) s → progress n d s (with_conn c d, []).
Proof. intros. split; [done|]. left. exists s. split; [done|]. by apply Sync_conn. Qed.
Lemma progress_phase n d s p :
  Sync n d s → in_step (with_conn (with_phase p (conn d)) d) s →
  progress n d s (with_conn (with_phase p (conn d)) d, []).
Proof.
  intros H Hi. apply progress_quiet; try done; [apply H|]. pose proof (sync_sequence _ _ _ H). cbn. lia.
Qed.

Lemma turn_progress n d s :
  Sync n d s → n + 1 <= MAX_SAFE_INTEGER → phase (conn d) = Top →
  progress n d s (with_conn (turn d) d, []).
Proof.
  intros H Hn Hp. pose proof (sync_step _ _ _ H) as Ha. unfold in_step in Ha. rewrite Hp in Ha.
  pose proof (sync_sequence _ _ _ H) as Hs. pose proof (sync_baseline _ _ _ H) as Hb.
  unfold turn. destruct (moved d (revisions d)).
  { apply progress_quiet; try done. cbn. lia. }
  case_match eqn:Hd.
  { apply progress_quiet; try done. cbn. lia. }
  unfold agrees in Ha. cbn [conn_baseline with_unseen] in *.
  destruct (conn_baseline (conn d)) as [items|] eqn:Hi; [|discriminate Hd]. subst s.
  split; [exact (recommendations_part_same d _ _ (with_unseen false (conn d)))|]. left.
  eexists. split; [done|]. by apply (recommendations_part_sync n d _ _ (with_unseen false (conn d)) _ items H);
    try apply Hb.
Qed.

Lemma queried_progress n d s captured dirty :
  Sync n d s → phase (conn d) = AwaitQuery captured dirty None →
  progress n d s (with_conn (with_phase (AwaitQuery captured dirty (Some (world d))) (conn d)) d, []).
Proof.
  intros H Hp. pose proof (sync_step _ _ _ H) as Ha. unfold in_step in Ha. rewrite Hp in Ha.
  apply progress_phase; [done|]. split; [apply Ha|]. intros items [= <-]. apply H.
Qed.
Lemma query_progress n d s captured dirty rows answer :
  Sync n d s → n + 1 <= MAX_SAFE_INTEGER → phase (conn d) = AwaitQuery captured dirty (Some rows) →
  progress n d s (with_conn (query_done d captured dirty rows answer) d, []).
Proof.
  intros H Hn Hp. pose proof (sync_step _ _ _ H) as Ha. unfold in_step in Ha. rewrite Hp in Ha.
  destruct Ha as [Ha Hw]. specialize (Hw rows eq_refl).
  pose proof (sync_sequence _ _ _ H) as Hs. pose proof (sync_baseline _ _ _ H) as Hb.
  pose proof (sync_generation _ _ _ H) as Hg.
  unfold query_done. destruct (moved d (revisions d)); [by apply progress_phase|].
  destruct answer; [|by apply progress_phase..].
  destruct (sessions_message d rows) as [[message|] next] eqn:Hm.
  - destruct (sessions_message_accepted _ _ _ _ _ Ha Hm Hw Hb Hg) as [Hacc Hnext]; [split; lia..|].
    apply progress_quiet; try done. cbn. lia.
  - pose proof (sessions_message_None _ _ _ Hm Hw Hb) as Hsame. unfold agrees in Ha.
    rewrite Hsame in Ha. subst s.
    split; [exact (recommendations_part_same d _ _ (with_baseline rows (conn d)))|]. left.
    eexists. split; [done|].
    by apply (recommendations_part_sync n d _ _ (with_baseline rows (conn d)) _ rows H).
Qed.

Lemma heartbeat_ignored ws s : onmessage ws s (plain "heartbeat") = Some s.
Proof.
  unfold onmessage, plain, typed. cbn [record mbind option_bind]. by rewrite get_put_same, eqb_refl.
Qed.
Lemma receive_one ws s m s' : onmessage ws s m = Some s' → receive ws s [m] = Some s'.
Proof. cbn. by intros ->. Qed.
Lemma receive_app ws s ms ms' : receive ws s (ms ++ ms') = receive ws s ms ≫= λ s', receive ws s' ms'.
Proof.
  revert s. induction ms as [|m ms IH]; intros s; cbn; [done|].
  destruct (onmessage ws s m); cbn; [apply IH|done].
Qed.

(** A send that the desktop takes from [s] to [s'], after which the loop goes on at
    [next] if the send succeeded. *)
Lemma sent_progress n d s s' next sent message :
  Sync n d s → onmessage (path (conn d)) s message = Some s' → same_conn (conn d) next →
  Sync (n + 1) (with_conn next d) s' →
  progress n d s
    (with_conn (if goes_on sent then next else with_phase Done (conn d)) d, arrives sent message).
Proof.
  intros H Hm Hc Hnext. pose proof (sync_sequence _ _ _ H) as Hs.
  pose proof (sync_baseline _ _ _ H) as Hb.
  assert (Hdone : ∀ s', Sync (n + 1) (with_conn (with_phase Done (conn d)) d) s').
  { intros s1. split; try apply H; [cbn; lia|done]. }
  split; [by destruct sent|]. left. destruct sent; cbn [arrives goes_on].
  - exists s'. split; [by apply receive_one|done].
  - exists s'. split; [by apply receive_one|apply Hdone].
  - exists s. split; [done|apply Hdone].
Qed.

Lemma send_progress n d s sent :
  Sync n d s → n + 1 <= MAX_SAFE_INTEGER →
  progress n d s (with_conn (send_done d sent).1 d, (send_done d sent).2).
Proof.
  intros H Hn. pose proof (sync_step _ _ _ H) as Hi. pose proof (sync_sequence _ _ _ H) as Hs.
  pose proof (sync_baseline _ _ _ H) as Hb. unfold send_done, in_step in *.
  destruct (phase (conn d)) as [|captured dirty read| |captured dirty items message|captured message| | |] eqn:Hp;
    cbn [fst snd].
  - apply progress_quiet; try done; [lia|]. unfold in_step. cbn. by rewrite Hp.
  - apply progress_quiet; try done; [lia|]. unfold in_step. cbn. by rewrite Hp.
  - split; [done|]. destruct sent; [by right..|]. left. exists s. split; [done|].
    split; try apply H; [cbn; lia|done].
  - destruct Hi as [Hok Hm]. eapply sent_progress; [done|exact Hm|apply (recommendations_part_same d _ _ (with_baseline items (conn d)))|].
    by apply (recommendations_part_sync n d captured dirty (with_baseline items (conn d)) s items H).
  - destruct Hi as (items & Hbase & Hm). eapply sent_progress; [done|exact Hm|done|].
    split; try apply H; [cbn; lia|]. unfold in_step, agrees. cbn. by rewrite Hbase.
  - apply progress_quiet; try done; [lia|]. unfold in_step. cbn. by rewrite Hp.
  - eapply sent_progress; [done|apply heartbeat_ignored|done|].
    split; try apply H; [cbn; lia|]. unfold in_step, agrees. done.
  - apply progress_quiet; try done; [lia|]. unfold in_step. cbn. by rewrite Hp.
Qed.

(** Another part of the daemon moves. *)
Lemma Sync_frame n d s r i w o b :
  Sync n d s → rows_ok w →
  progress n d s (mkDaemon r (instance d) i w o (with_unseen b (conn d)), []).
Proof.
  intros H Hw. split; [done|]. left. exists s. split; [done|].
  split; [done|apply H|apply H| |exact (sync_step _ _ _ H)].
  pose proof (sync_sequence _ _ _ H). cbn. lia.
Qed.
Lemma with_unseen_same c : with_unseen (unseen c) c = c.
Proof. by destruct c. Qed.
Lemma with_conn_same d : with_conn (conn d) d = d.
Proof. by destruct d. Qed.

Lemma stay_progress n d s : Sync n d s → progress n d s (d, []).
Proof. intros H. split; [done|]. left. exists s. split; [done|]. by apply Sync_mono. Qed.

(** Waking up leaves the loop at the top with nothing lost. *)
Lemma wake_progress n d s c :
  Sync n d s → phase (conn d) = Select → same_conn (conn d) c →
  conn_baseline c = conn_baseline (conn d) → sequence c = sequence (conn d) →
  (phase c = Top ∨ phase c = AwaitHeartbeat ∨ phase c = Done) →
  progress n d s (with_conn c d, []).
Proof.
  intros H Hp Hc Hb Hs Hphase. pose proof (sync_step _ _ _ H) as Ha. unfold in_step in Ha.
  rewrite Hp in Ha. apply progress_quiet; try done.
  - rewrite Hb. apply H.
  - pose proof (sync_sequence _ _ _ H). lia.
  - destruct Hc as [_ Hg]. unfold in_step, agrees, holds in *. cbn.
    destruct Hphase as [-> |[-> | ->]]; rewrite ?Hb, ?Hs, ?Hg; done.
Qed.

Lemma event_progress n d s e :
  Sync n d s → n + 1 <= MAX_SAFE_INTEGER → (∀ items, e = Mutate items → rows_ok items) →
  progress n d s (daemon_call d e).
Proof.
  intros H Hn Hm.
  assert (Hw : phase (conn d) = Select → ∀ p, (p = Top ∨ p = AwaitHeartbeat ∨ p = Done) →
    progress n d s (with_conn (with_phase p (conn d)) d, [])).
  { intros Hp p Hor. by apply wake_progress. }
  destruct e as [items|b settles|i| | |answer|sent| | | |m]; cbn [daemon_call].
  - rewrite <- (with_unseen_same (conn d)). apply Sync_frame; [done|by apply Hm].
  - apply Sync_frame; [done|apply H].
  - rewrite <- (with_unseen_same (conn d)). apply Sync_frame; [done|apply H].
  - destruct (phase (conn d)) as [|? ? [?|]| | | | | |] eqn:Hp; try by apply stay_progress. by apply turn_progress.
  - destruct (phase (conn d)) as [|? ? [?|]| | | | | |] eqn:Hp; try by apply stay_progress.
    by apply queried_progress.
  - destruct (phase (conn d)) as [|? ? [?|]| | | | | |] eqn:Hp; try by apply stay_progress. by apply query_progress.
  - pose proof (send_progress n d s sent H Hn) as Hs. by destruct (send_done d sent).
  - destruct (phase (conn d)) as [|? ? [?|]| | | | | |] eqn:Hp; try by apply stay_progress.
    destruct (unseen (conn d)); [|by apply stay_progress].
    apply wake_progress; try done. by left.
  - destruct (phase (conn d)) as [|? ? [?|]| | | | | |] eqn:Hp; try by apply stay_progress.
    apply wake_progress; try done. by left.
  - destruct (phase (conn d)) as [|? ? [?|]| | | | | |] eqn:Hp; try by apply stay_progress. apply Hw; tauto.
  - destruct (phase (conn d)) as [|? ? [?|]| | | | | |] eqn:Hp; try (by apply stay_progress).
    destruct m; [apply wake_progress; try done; by left|apply Hw; tauto..].
Qed.

(** ** No change is missed *)

(** Rows that a query answered after the revisions [r] were captured. *)
Definition current (d : Daemon) (r : Revisions) (items : list Value) : Prop :=
  outstanding d = 0%nat → sessions (revisions d) = sessions r → items = world d.
Definition captured_at (d : Daemon) (r : Revisions) : Prop :=
  sessions r <= sessions (revisions d) ∧ (unseen (conn d) = false → revisions d = r).
Definition shows (d : Daemon) (r : Revisions) : Prop :=
  ∃ items, conn_baseline (conn d) = Some items ∧ current d r items.

Definition fresh (d : Daemon) : Prop :=
  let c := conn d in
  match phase c with
  | Done | AwaitUnavailable => True
  | Top | AwaitHeartbeat => conn_baseline c = None ∨ shows d (consumed c)
  | Select => captured_at d (consumed c) ∧ shows d (consumed c)
  | AwaitQuery r _ read => captured_at d r ∧ ∀ items, read = Some items → current d r items
  | AwaitSessions r _ items _ => captured_at d r ∧ current d r items
  | AwaitRecommendations r _ => captured_at d r ∧ shows d r
  end.
Record Fresh (n : Z) (d : Daemon) : Prop := {
  fresh_bound : 0 <= sessions (revisions d) <= n;
  fresh_consumed : sessions (consumed (conn d)) <= sessions (revisions d);
  fresh_phase : fresh d;
}.

Lemma recommendations_part_fresh n d r dirty c items :
  0 <= sessions (revisions d) <= n → conn_baseline c = Some items → current d r items →
  sessions r <= sessions (revisions d) → (unseen c = false → revisions d = r) →
  sessions (consumed c) <= sessions (revisions d) →
  Fresh n (with_conn (recommendations_part d r dirty c) d).
Proof.
  intros Hn Hb Hc Hr Hu Hcons.
  assert (Hs : ∀ c', conn_baseline c' = Some items → shows (with_conn c' d) r) by by exists items.
  unfold recommendations_part. destruct dirty; split; cbn; try done.
  - split; [done|by apply Hs].
  - split; [done|by apply Hs].
Qed.

Lemma turn_fresh n d : Fresh n d → phase (conn d) = Top → Fresh n (with_conn (turn d) d).
Proof.
  intros [Hn Hc Hf] Hp. unfold fresh in Hf. rewrite Hp in Hf. unfold turn.
  destruct (moved d (revisions d)); [by split|].
  case_match eqn:Hd; [split; [done|done|]; unfold fresh, captured_at; cbn; split; [split; [lia|done]|done]|].
  apply orb_false_iff in Hd as [[Hnone _]%orb_false_iff Hsame%neqb_elim].
  destruct Hf as [Hb|(items & Hb & Hcur)].
  { cbn in Hnone. by rewrite Hb in Hnone. }
  apply (recommendations_part_fresh n d _ _ _ items); try done.
  - intros Ho _. by apply Hcur.
Qed.

Lemma queried_fresh n d r dirty :
  Fresh n d → phase (conn d) = AwaitQuery r dirty None →
  Fresh n (with_conn (with_phase (AwaitQuery r dirty (Some (world d))) (conn d)) d).
Proof.
  intros [Hn Hc Hf] Hp. unfold fresh in Hf. rewrite Hp in Hf. split; [done|done|].
  split; [apply Hf|]. by intros items [= <-].
Qed.
Lemma query_fresh n d r dirty rows answer :
  Fresh n d → phase (conn d) = AwaitQuery r dirty (Some rows) →
  Fresh n (with_conn (query_done d r dirty rows answer) d).
Proof.
  intros [Hn Hc Hf] Hp. unfold fresh in Hf. rewrite Hp in Hf. destruct Hf as [[Hle Hu] Hcur].
  specialize (Hcur rows eq_refl).
  unfold query_done. destruct (moved d (revisions d)); [by split|]. destruct answer; [|by split..].
  destruct (sessions_message d rows) as [[message|] next].
  - by split.
  - by apply (recommendations_part_fresh n d _ _ _ rows).
Qed.

Lemma send_fresh n d sent : Fresh n d → Fresh n (with_conn (send_done d sent).1 d).
Proof.
  intros [Hn Hc Hf]. unfold fresh, send_done in *.
  destruct (phase (conn d)) as [|r dirty read| |r dirty items message|r message| | |] eqn:Hp; cbn [fst].
  - split; [done|done|]. unfold fresh. cbn. by rewrite Hp.
  - split; [done|done|]. unfold fresh. cbn. by rewrite Hp.
  - by split.
  - destruct Hf as [[Hle Hu] Hcur]. destruct (goes_on sent); [|by split].
    by apply (recommendations_part_fresh n d _ _ _ items).
  - destruct Hf as [[Hle Hu] Hs]. destruct (goes_on sent); [|by split]. by split.
  - split; [done|done|]. unfold fresh. cbn. by rewrite Hp.
  - destruct (goes_on sent); [|by split]. by split.
  - split; [done|done|]. unfold fresh. cbn. by rewrite Hp.
Qed.

(** What is not of the connection moves: rows stay current unless a change is
    outstanding or the revision of the sessions went on. *)
Lemma fresh_frame d r i w o b :
  fresh d → sessions (revisions d) <= sessions r → (b = false → r = revisions d ∧ unseen (conn d) = false) →
  (o = 0%nat → sessions r = sessions (revisions d) → outstanding d = 0%nat ∧ w = world d) →
  sessions (consumed (conn d)) <= sessions (revisions d) →
  fresh (mkDaemon r (instance d) i w o (with_unseen b (conn d))).
Proof.
  intros Hf Hr Hb Ho Hc. set (d' := mkDaemon _ _ _ _ _ _).
  assert (Hcur : ∀ r' items, sessions r' <= sessions (revisions d) → current d r' items → current d' r' items).
  { intros r' items Hle Hcur Hz Heq. cbn in Hz, Heq. destruct (Ho Hz) as [Hz' Hw]; [lia|].
    cbn. rewrite Hw. apply Hcur; [done|lia]. }
  assert (Hcap : ∀ r', captured_at d r' → captured_at d' r').
  { intros r' [Hle Hu]. split; [cbn; lia|]. cbn. intros Hb'. destruct (Hb Hb') as [-> Hu']. by apply Hu. }
  assert (Hshow : ∀ r', sessions r' <= sessions (revisions d) → shows d r' → shows d' r').
  { intros r' Hle (items & Hbase & Hcur'). exists items. split; [done|by apply Hcur]. }
  unfold fresh in *. subst d'. cbn [conn with_unseen phase conn_baseline consumed] in *.
  destruct (phase (conn d)); try done.
  - destruct Hf as [Hf|Hf]; [by left|]. right. by apply Hshow.
  - destruct Hf as [Hf Hs]. split; [by apply Hcap|]. intros items Hi. apply Hcur; [apply Hf|by apply Hs].
  - destruct Hf as [Hf Hs]. split; [by apply Hcap|]. apply Hcur; [apply Hf|done].
  - destruct Hf as [Hf Hs]. split; [by apply Hcap|]. apply Hshow; [apply Hf|done].
  - destruct Hf as [Hf Hs]. split; [by apply Hcap|]. by apply Hshow.
  - destruct Hf as [Hf|Hf]; [by left|]. right. by apply Hshow.
Qed.

Lemma send_modify_sessions b r :
  0 <= sessions r < u64_max →
  sessions (send_modify b r) = (if b == Sessions then sessions r + 1 else sessions r).
Proof.
  intros Hr. destruct b; try done. rewrite eqb_refl. cbn [send_modify sessions].
  unfold wrapping_add. apply Z.mod_small. lia.
Qed.
Lemma event_fresh n d e :
  Fresh n d → n < u64_max → Fresh (n + 1) (daemon_call d e).1.
Proof.
  intros H Hn. assert (Hup : ∀ d', Fresh n d' → Fresh (n + 1) d').
  { intros d' [H1 H2 H3]. split; [lia|done|done]. }
  assert (Hstep : ∀ c, phase (conn d) = Select → consumed c = consumed (conn d) →
    conn_baseline c = conn_baseline (conn d) → phase c ∈ [Top; AwaitHeartbeat; Done] →
    Fresh (n + 1) (with_conn c d)).
  { intros c Hp Hc Hb Hin. destruct H as [H1 H2 H3]. unfold fresh in H3. rewrite Hp in H3.
    destruct H3 as [_ Hs]. assert (Hs' : shows (with_conn c d) (consumed c)).
    { rewrite Hc. destruct Hs as (items & Hi & Hcur). exists items. cbn. by rewrite Hb. }
    split; [cbn; lia|cbn; by rewrite Hc|]. unfold fresh. cbn.
    repeat (apply elem_of_cons in Hin as [-> |Hin]; [by (right + exact I)|]).
    by apply elem_of_nil in Hin. }
  destruct e as [items|b settles|i| | |answer|sent| | | |m]; cbn [daemon_call fst].
  - destruct H as [H1 H2 H3]. split; [cbn; lia|done|].
    rewrite <- (with_unseen_same (conn d)). apply fresh_frame; try done.
  - destruct H as [H1 H2 H3]. pose proof (send_modify_sessions b (revisions d)) as Hs.
    split; cbn [revisions conn with_unseen consumed]; [rewrite Hs by lia; case_match; lia..|].
    apply fresh_frame; try done; rewrite Hs by lia.
    + case_match; lia.
    + intros Ho Heq. destruct (b == Sessions) eqn:Hb; [lia|]. by rewrite andb_false_r in Ho.
  - destruct H as [H1 H2 H3]. split; [cbn; lia|done|].
    rewrite <- (with_unseen_same (conn d)). apply fresh_frame; try done.
  - destruct (phase (conn d)) as [|? ? [?|]| | | | | |] eqn:Hp; try by apply Hup. by apply Hup, turn_fresh.
  - destruct (phase (conn d)) as [|? ? [?|]| | | | | |] eqn:Hp; try by apply Hup.
    by apply Hup, queried_fresh.
  - destruct (phase (conn d)) as [|? ? [?|]| | | | | |] eqn:Hp; try by apply Hup. by apply Hup, query_fresh.
  - pose proof (send_fresh n d sent H) as Hs. destruct (send_done d sent). by apply Hup.
  - destruct (phase (conn d)) as [|? ? [?|]| | | | | |] eqn:Hp; try by apply Hup.
    destruct (unseen (conn d)); [|by apply Hup]. apply Hstep; try done. by left.
  - destruct (phase (conn d)) as [|? ? [?|]| | | | | |] eqn:Hp; try by apply Hup. apply Hstep; try done. by left.
  - destruct (phase (conn d)) as [|? ? [?|]| | | | | |] eqn:Hp; try by apply Hup. apply Hstep; try done. by right; left.
  - destruct (phase (conn d)) as [|? ? [?|]| | | | | |] eqn:Hp; try by apply Hup.
    destruct m; apply Hstep; try done; set_solver.
Qed.

Lemma run_fresh n d evs :
  Fresh n d → n + Z.of_nat (length evs) <= u64_max →
  Fresh (n + Z.of_nat (length evs)) (run d evs).1.
Proof.
  revert n d. induction evs as [|e evs IH]; intros n d H Hn.
  { cbn. by rewrite Z.add_0_r. }
  rewrite run_cons. cbn [fst]. change (step d e) with (daemon_call d e).
  cbn [length] in *. replace (n + Z.of_nat (S (length evs))) with (n + 1 + Z.of_nat (length evs)) by lia.
  apply IH; [apply event_fresh; [done|lia]|lia].
Qed.

(** ** Runs of a connection *)

Lemma done_stays d e :
  phase (conn d) = Done →
  (daemon_call d e).2 = [] ∧ phase (conn (daemon_call d e).1) = Done
  ∧ same_conn (conn d) (conn (daemon_call d e).1).
Proof.
  intros Hp. destruct e; cbn [daemon_call]; unfold send_done; rewrite ?Hp; cbn; rewrite ?Hp; done.
Qed.
Lemma done_run d evs : phase (conn d) = Done → concat (run d evs).2 = [] ∧ phase (conn (run d evs).1) = Done.
Proof.
  revert d. induction evs as [|e evs IH]; intros d Hp; [done|].
  rewrite run_cons. cbn [fst snd concat]. change (step d e) with (daemon_call d e).
  destruct (done_stays d e Hp) as (-> & Hd & _). by apply IH.
Qed.

(** The desktop accepted everything, or everything up to the report that the query
    failed, which ends the connection. *)
Definition followed (d : Daemon) (s : StreamState) (d' : Daemon) (messages : list Value) (n : Z) : Prop :=
  (∃ s', receive (path (conn d)) s messages = Some s' ∧ Sync n d' s')
  ∨ phase (conn d') = Done ∧ ∃ ms s', messages = ms ++ [plain "unavailable"]
      ∧ receive (path (conn d)) s ms = Some s'.

Lemma run_followed n d s evs :
  Sync n d s → n + Z.of_nat (length evs) <= MAX_SAFE_INTEGER →
  (∀ items, Mutate items ∈ evs → rows_ok items) →
  followed d s (run d evs).1 (concat (run d evs).2) (n + Z.of_nat (length evs)).
Proof.
  revert n d s. induction evs as [|e evs IH]; intros n d s H Hn Hm.
  { left. exists s. split; [done|]. cbn. by rewrite Z.add_0_r. }
  rewrite run_cons. cbn [fst snd concat length] in *. change (step d e) with (daemon_call d e).
  destruct (event_progress n d s e H) as [[Hpath _] [(s' & Hs & H')|(Hout & Hd)]]; [lia| |..].
  { intros items ->. apply Hm. by left. }
  - replace (n + Z.of_nat (S (length evs))) with (n + 1 + Z.of_nat (length evs)) by lia.
    destruct (IH (n + 1) _ s' H') as [(s'' & Hr & Hsync)|(Hdone & ms & s'' & Hms & Hr)]; [lia| |..].
    { intros items Hi. apply Hm. by right. }
    + left. exists s''. split; [|done]. rewrite receive_app, Hs. cbn. by rewrite <- Hpath.
    + right. split; [done|]. exists ((daemon_call d e).2 ++ ms), s''.
      rewrite Hms, app_assoc. split; [done|]. rewrite receive_app, Hs. cbn. by rewrite <- Hpath.
  - right. destruct (done_run _ evs Hd) as [Hc Hdone]. split; [done|].
    exists [], s. by rewrite Hout, Hc.
Qed.

Definition acceptable_rows (items : list Value) : Prop := rows (Some (Array items)) = Some items.
Lemma acceptable_rows_ok items : acceptable_rows items ↔ rows_ok items.
Proof. unfold acceptable_rows. rewrite rows_spec. unfold rows_ok. naive_solver. Qed.

Lemma initial_sync d :
  initial d → acceptable_rows (world d) → safe (workspace (revisions d)) → Sync 0 d createStreamState.
Proof.
  intros (p & r & Hc) Hw Hg. split.
  - by apply acceptable_rows_ok.
  - by rewrite Hc.
  - by rewrite Hc.
  - rewrite Hc. cbn. lia.
  - unfold in_step, agrees. by rewrite Hc.
Qed.
Lemma initial_fresh d :
  initial d → 0 <= sessions (revisions d) → Fresh (sessions (revisions d)) d.
Proof.
  intros (p & r & Hc) Hs. split; [lia|by rewrite Hc|]. unfold fresh. rewrite Hc. by left.
Qed.

(** ** Properties *)

(** C3: the desktop follows the connection.  However producers, the workspace, the
    queries and the loop interleave, whichever sends fail, the desktop accepts every
    message that arrives, in particular every delta applies to the rows it holds; and
    when the loop waits, the desktop's list and cursor are the connection's.  Only the
    report that the query failed, after which the connection ends, is refused. *)
Theorem desktop_follows (d : Daemon) (evs : list Event) :
  initial d → acceptable_rows (world d) → (∀ items, Mutate items ∈ evs → acceptable_rows items) →
  safe (workspace (revisions d)) → Z.of_nat (length evs) <= MAX_SAFE_INTEGER →
  let d' := (run d evs).1 in
  let messages := concat (run d evs).2 in
  (∃ s, receive (path (conn d)) createStreamState messages = Some s
     ∧ (phase (conn d') = Select → ∀ items, conn_baseline (conn d') = Some items →
          baseline s = items ∧ cursor s = sequence (conn d')))
  ∨ phase (conn d') = Done ∧ ∃ ms s, messages = ms ++ [plain "unavailable"]
      ∧ receive (path (conn d)) createStreamState ms = Some s.
Proof.
  intros Hi Hw Hm Hg Hn d' messages.
  destruct (run_followed 0 d createStreamState evs) as [(s & Hs & Hsync)|?]; [by apply initial_sync|lia| | |].
  - intros items Hin. by apply acceptable_rows_ok, Hm.
  - left. exists s. split; [done|]. intros Hp items Hb. pose proof (sync_step _ _ _ Hsync) as Ha.
    unfold in_step, agrees in Ha. subst d'. by rewrite Hp, Hb in Ha; subst s.
  - by right.
Qed.

(** C17: no change is missed.  When the loop waits without a pending wake-up and the
    signal of every change has been given, the desktop shows exactly what the session
    query would answer now, whatever happened while queries and sends were under way: a
    change may come, and be signalled, after the turn has read the revisions, after the
    query has read the sessions, and before the loop goes on. *)
Theorem quiet_desktop_is_current (d : Daemon) (evs : list Event) :
  initial d → acceptable_rows (world d) → (∀ items, Mutate items ∈ evs → acceptable_rows items) →
  safe (workspace (revisions d)) → Z.of_nat (length evs) <= MAX_SAFE_INTEGER →
  0 <= sessions (revisions d) → sessions (revisions d) + Z.of_nat (length evs) <= u64_max →
  let d' := (run d evs).1 in
  phase (conn d') = Select → unseen (conn d') = false → outstanding d' = 0%nat →
  ∃ s, receive (path (conn d)) createStreamState (concat (run d evs).2) = Some s
    ∧ baseline s = world d'.
Proof.
  intros Hi Hw Hm Hg Hn H0 Hu d' Hp Hun Ho.
  pose proof (fresh_phase _ _ (run_fresh _ d evs (initial_fresh d Hi H0) Hu)) as Hf.
  unfold fresh in Hf. fold d' in Hf. rewrite Hp in Hf.
  destruct Hf as [[_ Hrev] (items & Hb & Hcur)].
  destruct (run_followed 0 d createStreamState evs) as [(s & Hs & Hsync)|[Hd _]];
    [by apply initial_sync|lia| | |].
  - intros items' Hin. by apply acceptable_rows_ok, Hm.
  - exists s. split; [done|]. pose proof (sync_step _ _ _ Hsync) as Ha.
    unfold in_step, agrees in Ha. fold d' in Ha. rewrite Hp, Hb in Ha. subst s.
    apply Hcur; [done|]. by rewrite Hrev.
  - fold d' in Hd. congruence.
Qed.




(** ** A concrete run *)

Definition sample_daemon : Daemon :=
  mkDaemon default_revisions (bytes_of "i") (Some (bytes_of "/w", bytes_of "/w")) [sample_row "a" "old"] 0
    (run_entry (bytes_of "/w") (bytes_of "/w") default_revisions).
Definition sample_change : list Value := [sample_row "b" ""; sample_row "a" "new"].
(** A change, with its signal, after the first query has read and before the loop goes on;
    and the turn it causes. *)
Definition sample_events : list Event :=
  [Turn; Queried; Mutate sample_change; Signal Sessions true; QueryDone Rows; SendDone Delivered;
   SendDone Delivered; Changed; Turn; Queried; QueryDone Rows; SendDone Delivered].

Lemma sample_initial : initial sample_daemon.
Proof. by exists (bytes_of "/w"), (bytes_of "/w"). Defined.
Lemma sample_mutations items : Mutate items ∈ sample_events → acceptable_rows items.
Proof.
  intros H. repeat (apply elem_of_cons in H as [H|H]; [try discriminate H|]).
  - injection H as ->. vm_compute. reflexivity.
  - by apply elem_of_nil in H.
Defined.

Lemma desktop_follows_witness :
  (∃ s, receive (bytes_of "/w") createStreamState (concat (run sample_daemon sample_events).2) = Some s
    ∧ (phase (conn (run sample_daemon sample_events).1) = Select → ∀ items,
         conn_baseline (conn (run sample_daemon sample_events).1) = Some items →
         baseline s = items ∧ cursor s = sequence (conn (run sample_daemon sample_events).1)))
  ∨ phase (conn (run sample_daemon sample_events).1) = Done
    ∧ ∃ ms s, concat (run sample_daemon sample_events).2 = ms ++ [plain "unavailable"]
      ∧ receive (bytes_of "/w") createStreamState ms = Some s.
Proof.
  apply (desktop_follows sample_daemon sample_events sample_initial);
    [vm_compute; reflexivity|exact sample_mutations|split; vm_compute; congruence|vm_compute; congruence].
Defined.
Lemma quiet_desktop_is_current_witness :
  world (run sample_daemon sample_events).1 = sample_change
  ∧ ∃ s, receive (bytes_of "/w") createStreamState (concat (run sample_daemon sample_events).2) = Some s
    ∧ baseline s = world (run sample_daemon sample_events).1.
Proof.
  split; [vm_compute; reflexivity|].
  apply (quiet_desktop_is_current sample_daemon sample_events sample_initial);
    [vm_compute; reflexivity|exact sample_mutations|split; vm_compute; congruence
    |vm_compute; congruence|vm_compute; congruence|vm_compute; congruence|vm_compute; reflexivity..].
Defined.
