(* ===== verification/PlanData.v ===== *)
(** * Coordinator records and field validators

    The first part of [taskmaster/coordinator.rs]: the error type, the bounds, the
    validators of single fields and the [PlanNode] with its [validate].  A [String]
    is the list of its bytes; [sha256_hex] (of the [sha2] and [hex] crates) is an
    argument. *)
From S2P Require Export CanonicalJson.

Definition MAX_ID : nat := 128.
Definition MAX_TEXT : nat := Z.to_nat 16384.
Definition MAX_ITEMS : nat := 256.
Definition MAX_NODES : nat := 128.
Definition MAX_PERSISTED_REVISION_BYTES : Z := 2097152.
#[global] Arguments MAX_TEXT : simpl never.

Inductive CapabilityKind : Type :=
  | ReadFile | WriteFile | RunBoundedCommand | GitRead | GitMutation | Credentials
  | PermissionChange | DestructiveCommand | MergeApproval | ProviderSubstitution
  | ScopeExpansion | BudgetExpansion | RetryExpansion | ConcurrencyExpansion.
#[export] Instance CapabilityKind_eq_dec : EqDecision CapabilityKind.
Proof. solve_decision. Defined.

Inductive CoordinatorError : Type :=
  | Invalid (field : string)
  | HardDenied (kind : CapabilityKind)
  | Serialization (message : string).

Abbreviation checked := (result CoordinatorError).

(** Early return of [Err(Invalid(field))] when a test holds. *)
Definition reject (b : bool) (field : string) : checked unit :=
  if b then Err (Invalid field) else Ok tt.

(** [for value in values { f(value)?; }] *)
Fixpoint for_each {A} (f : A → checked unit) (values : list A) : checked unit :=
  match values with
  | [] => Ok tt
  | value :: values => f value ≫= λ _, for_each f values
  end.

Definition is_empty {A} (l : list A) : bool := match l with [] => true | _ => false end.
Definition ne (a b : list Z) : bool := a != b.

Definition bounded (value : list Z) (max : nat) (field : string) : checked unit :=
  reject (is_empty value || (max <? length value)%nat || existsb is_control (chars_of value)) field.

Definition prose (value : list Z) (max : nat) (field : string) : checked unit :=
  reject (is_empty value || (max <? length value)%nat
    || existsb (λ c, is_control c && negb ((c =? 10) || (c =? 13) || (c =? 9))) (chars_of value)) field.

Definition prose_list (values : list (list Z)) (field : string) : checked unit :=
  _ ← reject (MAX_ITEMS <? length values)%nat field;
  for_each (λ value, prose value MAX_TEXT field) values.

(** Alphanumeric or one of [b"._-"]. *)
Definition is_id_byte (b : Z) : bool :=
  is_ascii_alphanumeric b || (b =? 46) || (b =? 95) || (b =? 45).
Definition id (value : list Z) (field : string) : checked unit :=
  _ ← bounded value MAX_ID field;
  reject (negb (forallb is_id_byte value)) field.

Definition strings (values : list (list Z)) (max : nat) (field : string) : checked unit :=
  _ ← reject (MAX_ITEMS <? length values)%nat field;
  for_each (λ value, bounded value max field) values.

Definition digest (value : list Z) (field : string) : checked unit :=
  reject (negb (length value =? 64)%nat || negb (forallb is_ascii_hexdigit value)) field.

Definition slash : Z := 47.
Definition dot : list Z := [46].
Definition dot_dot : list Z := [46; 46].
(** The test of one scope path. *)
Definition noncanonical (path : list Z) : bool :=
  starts_with [slash] path || (path !! 1%nat == Some 58) || existsb (Z.eqb 92) path
  || existsb (λ part, is_empty part || (part == dot) || (part == dot_dot)) (split slash path).
Definition scopes (values : list (list Z)) : checked unit :=
  _ ← strings values MAX_TEXT "scope";
  for_each (λ path, reject (noncanonical path) "noncanonical scope") values.

(** ** Tools and capabilities *)

Definition read_file : list Z := Eval compute in bytes_of "read_file".
Definition write_file : list Z := Eval compute in bytes_of "write_file".
Definition run_bounded_command : list Z := Eval compute in bytes_of "run_bounded_command".
Definition git_read : list Z := Eval compute in bytes_of "git_read".

Definition known_tool (tool : list Z) : checked unit :=
  _ ← id tool "tool id";
  reject (negb ((tool == read_file) || (tool == write_file) || (tool == run_bounded_command)
                || (tool == git_read))) "unknown tool".

Definition is_hard_denied (kind : CapabilityKind) : bool :=
  match kind with
  | ReadFile | WriteFile | RunBoundedCommand | GitRead => false
  | _ => true
  end.

(** ** Records *)

Inductive Attribution : Type := Conclusive | Inconclusive.
#[export] Instance Attribution_eq_dec : EqDecision Attribution.
Proof. solve_decision. Defined.

Record WorkspaceChangeSubject : Type := mkSubject {
  subject_workspace_id : list Z;
  repository_revision : list Z;
  dirty_paths : list (list Z);
  attribution : Attribution;
}.

Record PlanEvidence : Type := mkEvidence {
  evidence_version : Z;
  evidence_subject : list Z;
  references : list (list Z);
}.

Inductive Role : Type :=
  | Implementation | Verification | Review | Remediation | Custom (name : list Z).

Record PlanNode : Type := mkNode {
  node_id : list Z;
  parent_id : option (list Z);
  task : list Z;
  success_criteria : list (list Z);
  prompt_context : list Z;
  prompt_context_digest : list Z;
  output_contract : list Z;
  node_scope : list (list Z);
  role : Role;
  allowed_tools : list (list Z);
  provider_allowlist : list (list Z);
  dependencies : list (list Z);
  budget_units : Z;
  retry_limit : Z;
  concurrency_class : list Z;
}.

(** [PlanNode::validate]. *)
Definition validate_node (sha256_hex : list Z → list Z) (n : PlanNode) : checked unit :=
  _ ← id (node_id n) "node id";
  _ ← match parent_id n with Some parent => id parent "parent id" | None => Ok tt end;
  _ ← prose (task n) MAX_TEXT "task";
  _ ← reject (is_empty (success_criteria n)) "success criteria";
  _ ← prose_list (success_criteria n) "success criteria";
  _ ← prose (prompt_context n) MAX_TEXT "prompt context";
  _ ← digest (prompt_context_digest n) "prompt digest";
  _ ← reject (ne (prompt_context_digest n) (sha256_hex (prompt_context n))) "prompt digest";
  _ ← prose (output_contract n) MAX_TEXT "output contract";
  _ ← reject (is_empty (node_scope n)) "scope";
  _ ← scopes (node_scope n);
  _ ← reject (is_empty (allowed_tools n)) "allowed tools";
  _ ← strings (allowed_tools n) MAX_ID "allowed tools";
  _ ← for_each known_tool (allowed_tools n);
  _ ← reject (is_empty (provider_allowlist n)) "provider allowlist";
  _ ← strings (provider_allowlist n) MAX_ID "provider allowlist";
  _ ← for_each (λ provider, id provider "provider") (provider_allowlist n);
  _ ← strings (dependencies n) MAX_ID "dependencies";
  _ ← for_each (λ dep, id dep "dependency") (dependencies n);
  _ ← bounded (concurrency_class n) MAX_ID "concurrency class";
  _ ← reject (budget_units n =? 0) "budget units";
  match role n with Custom name => id name "role" | _ => Ok tt end.

(** ** Lemmas *)

Lemma reject_Ok b field u : reject b field = Ok u ↔ b = false.
Proof. unfold reject. by destruct b, u. Qed.
Lemma for_each_Ok {A} (f : A → checked unit) values u :
  for_each f values = Ok u ↔ Forall (λ value, f value = Ok tt) values.
Proof.
  induction values as [|v values IH]; simpl; [destruct u; by split|].
  rewrite result_bind_Ok, Forall_cons, <- IH. split.
  - by intros ([] & ? & ?).
  - intros [? ?]. by exists tt.
Qed.
#[export] Hint Rewrite @reject_Ok @for_each_Ok : rust.
