(* ===== verification/PlanGraph.v ===== *)
(** * The cycle check of a plan

    The nested [visit] of [PlanRevision::validate] in
    [taskmaster/coordinator.rs]: a depth-first search over parent and dependency
    edges with a set of nodes being visited and a set of finished ones.  The
    recursion is bounded by [fuel]; [None] is a search that ran out of it, or the
    panic of indexing an unknown node.  Both are excluded by [visit_spec] for a
    graph with resolved references and fuel above its number of nodes. *)
From S2P Require Export PlanData.

Abbreviation name_set := (gset (list Z)).
Abbreviation node_map := (gmap (list Z) PlanNode).
Definition Sets : Type := name_set * name_set.

(** [node.parent_id.iter().chain(node.dependencies.iter())] *)
Definition successors (n : PlanNode) : list (list Z) :=
  option_list (parent_id n) ++ dependencies n.

(** The loop over the successors, for a given [visit]. *)
Fixpoint visit_all (visit : list Z → Sets → option (checked Sets)) (names : list (list Z))
    (s : Sets) : option (checked Sets) :=
  match names with
  | [] => Some (Ok s)
  | name :: names =>
      r ← visit name s;
      match r with
      | Ok s => visit_all visit names s
      | Err e => Some (Err e)
      end
  end.

Fixpoint visit (by_id : node_map) (fuel : nat) (name : list Z) (s : Sets)
    : option (checked Sets) :=
  match fuel with
  | O => None
  | S fuel =>
      let '(visiting, visited) := s in
      if bool_decide (name ∈ visited) then Some (Ok s)
      else if bool_decide (name ∈ visiting) then Some (Err (Invalid "graph cycle"))
      else
        node ← by_id !! name;
        r ← visit_all (visit by_id fuel) (successors node) ({[name]} ∪ visiting, visited);
        match r with
        | Ok (visiting, visited) => Some (Ok (visiting ∖ {[name]}, {[name]} ∪ visited))
        | Err e => Some (Err e)
        end
  end.

(** The loop over the nodes of the plan. *)
Definition check_cycles (by_id : node_map) (fuel : nat) (names : list (list Z))
    : option (checked Sets) := visit_all (visit by_id fuel) names (∅, ∅).

(** ** The graph *)

(** [edge g x y]: the node named [x] has [y] as its parent or a dependency. *)
Definition edge (g : node_map) (x y : list Z) : Prop :=
  ∃ n, g !! x = Some n ∧ y ∈ successors n.
Definition acyclic (g : node_map) : Prop := ∀ x, ¬ tc (edge g) x x.
Definition resolved (g : node_map) : Prop :=
  ∀ x n y, g !! x = Some n → y ∈ successors n → is_Some (g !! y).

Section search.
Context (g : node_map) (Hg : resolved g).

(** Nodes below which every path ends. *)
Definition grounded (x : list Z) : Prop := Acc (λ y x, edge g x y) x.

Lemma grounded_no_cycle x : grounded x → ¬ tc (edge g) x x.
Proof.
  induction 1 as [x _ IH]. intros Hc.
  inversion Hc as [? ? He|? y ? He Hy]; subst.
  - by apply (IH x He), tc_once.
  - apply (IH y He). eapply tc_r; [exact Hy|done].
Qed.

(** What a search starting from [s] may end with. *)
Definition search_ok (names : list (list Z)) (s : Sets) (r : option (checked Sets)) : Prop :=
  (∃ visited, r = Some (Ok (s.1, visited)) ∧ s.2 ⊆ visited
     ∧ (∀ x, x ∈ names → x ∈ visited) ∧ (∀ x, x ∈ visited → grounded x))
  ∨ (r = Some (Err (Invalid "graph cycle")) ∧ ∃ x, tc (edge g) x x).

(** The precondition of a visit of [name]. *)
Record visit_pre (fuel : nat) (name : list Z) (s : Sets) : Prop := {
  pre_name : is_Some (g !! name);
  pre_visiting : s.1 ⊆ dom g;
  pre_fuel : (size (dom g ∖ s.1) < fuel)%nat;
  pre_path : ∀ x, x ∈ s.1 → tc (edge g) x name;
  pre_visited : ∀ x, x ∈ s.2 → grounded x;
}.

Lemma visit_all_spec v names s :
  (∀ name visited, name ∈ names → s.2 ⊆ visited → (∀ x, x ∈ visited → grounded x) →
     search_ok [name] (s.1, visited) (v name (s.1, visited))) →
  (∀ x, x ∈ s.2 → grounded x) → search_ok names s (visit_all v names s).
Proof.
  destruct s as [visiting visited]. simpl. revert visited.
  induction names as [|name names IH]; intros visited Hv Hgr; simpl.
  { left. exists visited. split; [done|]. split; [done|]. split; [set_solver|done]. }
  destruct (Hv name visited) as [(visited1 & E & Hsub & Hin & Hgr1)|[E Hc]]; [by left|done|done| |].
  - simpl in *. rewrite E. simpl.
    destruct (IH visited1) as [(visited2 & E2 & Hsub2 & Hin2 & Hgr2)|[E2 Hc]]; [|done| |].
    + intros name' visited' Hn' Hs'. apply Hv; [by right|set_solver].
    + left. exists visited2. split; [done|]. split; [set_solver|]. split; [|done].
      intros x [->|Hx]%elem_of_cons; [|by apply Hin2]. apply Hsub2, Hin. set_solver.
    + right. by split.
  - right. rewrite E. by split.
Qed.

Lemma visit_spec fuel name s : visit_pre fuel name s → search_ok [name] s (visit g fuel name s).
Proof.
  revert name s. induction fuel as [|fuel IH]; intros name [visiting visited] [Hn Hv Hf Hp Hgr];
    simpl in *; [lia|].
  case_bool_decide as Hvd.
  { left. exists visited. split; [done|]. split; [done|]. split; [set_solver|done]. }
  case_bool_decide as Hvi.
  { right. split; [done|]. exists name. by apply Hp. }
  destruct Hn as [n Hn]. rewrite Hn. simpl.
  assert (Hsucc : search_ok (successors n) ({[name]} ∪ visiting, visited)
    (visit_all (visit g fuel) (successors n) ({[name]} ∪ visiting, visited))).
  { apply visit_all_spec; [|done]. simpl. intros next visited' Hnext Hsub Hgr'.
    assert (He : edge g name next) by by exists n.
    apply IH. split; simpl.
    - by apply (Hg name n).
    - apply union_subseteq. split; [|done]. apply singleton_subseteq_l, elem_of_dom. eauto.
    - apply Nat.lt_le_trans with (size (dom g ∖ visiting)); [|lia].
      apply subset_size. split; [set_solver|]. intros Hsz.
      assert (Hin : name ∈ dom g ∖ visiting)
        by (apply elem_of_difference; split; [|done]; apply elem_of_dom; eauto).
      apply Hsz in Hin. set_solver.
    - intros x [->%elem_of_singleton|Hx]%elem_of_union; [by apply tc_once|].
      eapply tc_r; [by apply Hp|done].
    - done. }
  destruct Hsucc as [(visited1 & E & Hsub & Hin & Hgr1)|[E Hc]]; rewrite E; simpl.
  - left. simpl in *. exists ({[name]} ∪ visited1).
    replace (({[name]} ∪ visiting) ∖ {[name]}) with visiting by set_solver.
    split; [done|]. split; [set_solver|]. split; [set_solver|].
    intros x [->%elem_of_singleton|Hx]%elem_of_union; [|by apply Hgr1].
    constructor. intros y (n' & Hn' & Hy). rewrite Hn in Hn'. injection Hn' as <-.
    by apply Hgr1, Hin.
  - right. by split.
Qed.
End search.

(** The check accepts exactly the acyclic graphs; fuel above the number of nodes
    is enough. *)
Lemma check_cycles_spec g fuel names :
  resolved g → (∀ x, x ∈ names ↔ is_Some (g !! x)) → (size g < fuel)%nat →
  (acyclic g ∧ ∃ s, check_cycles g fuel names = Some (Ok s))
  ∨ (¬ acyclic g ∧ check_cycles g fuel names = Some (Err (Invalid "graph cycle"))).
Proof.
  intros Hg Hnames Hf.
  assert (Hs : search_ok g names (∅, ∅) (check_cycles g fuel names)).
  { apply visit_all_spec; simpl; [done| |by intros x ?%not_elem_of_empty]. intros name visited Hn _ Hgr. apply visit_spec; [done|].
    split; simpl; [by apply Hnames|apply empty_subseteq| |by intros x ?%not_elem_of_empty|done].
    rewrite difference_empty_L, size_dom. done. }
  destruct Hs as [(visited & E & _ & Hin & Hgr)|[E (x & Hx)]]; [left|right].
  - split; [|by eexists]. intros x Hx.
    assert (Hdom : is_Some (g !! x)) by (inversion Hx as [? ? (n&?&?)|? ? ? (n&?&?)]; eauto).
    by apply (grounded_no_cycle g x); [apply Hgr, Hin, Hnames|].
  - split; [|done]. intros Ha. by apply (Ha x).
Qed.
