(* ===== verification/Coordinator.v ===== *)
(** * Coordinator plans

    [taskmaster/coordinator.rs] above the single fields: plan revisions with their
    digests and their validation, approvals and activation, the status machine and
    capability requests.

    Arguments that stand for other crates: [sha256_hex], the JSON forms that serde
    derives ([plan_to_value], [evidence_to_value], the length of the serialized
    revision) and chrono's [parse]. *)
From S2P Require Export PlanGraph.

Record PlanRevision : Type := mkPlan {
  version : Z;
  instance_id : list Z;
  workspace_id : list Z;
  plan_id : list Z;
  revision : Z;
  revocation_generation : Z;
  supersedes : option (list Z);
  subject : WorkspaceChangeSubject;
  evidence : PlanEvidence;
  nodes : list PlanNode;
  total_budget_units : Z;
  max_concurrency : Z;
  plan_digest : list Z;
  evidence_digest : list Z;
}.

(** The fields of a plan without its digests: [PlanProposalInput], and the
    [PlanDigestMaterial] the digest is computed over. *)
Record PlanProposalInput : Type := mkProposal {
  in_version : Z;
  in_instance_id : list Z;
  in_workspace_id : list Z;
  in_plan_id : list Z;
  in_revision : Z;
  in_revocation_generation : Z;
  in_supersedes : option (list Z);
  in_subject : WorkspaceChangeSubject;
  in_evidence : PlanEvidence;
  in_nodes : list PlanNode;
  in_total_budget_units : Z;
  in_max_concurrency : Z;
}.
Definition PlanDigestMaterial : Type := PlanProposalInput.

(** [PersistedPlanRevision]: the input and the stored digests. *)
Record PersistedPlanRevision : Type := mkPersisted {
  stored_input : PlanProposalInput;
  stored_plan_digest : list Z;
  stored_evidence_digest : list Z;
}.

Definition material (p : PlanRevision) : PlanDigestMaterial :=
  mkProposal (version p) (instance_id p) (workspace_id p) (plan_id p) (revision p)
    (revocation_generation p) (supersedes p) (subject p) (evidence p) (nodes p)
    (total_budget_units p) (max_concurrency p).

(** The plan of an input, with given digests. *)
Definition plan_of (i : PlanProposalInput) (digest evidence_digest : list Z) : PlanRevision :=
  mkPlan (in_version i) (in_instance_id i) (in_workspace_id i) (in_plan_id i) (in_revision i)
    (in_revocation_generation i) (in_supersedes i) (in_subject i) (in_evidence i) (in_nodes i)
    (in_total_budget_units i) (in_max_concurrency i) digest evidence_digest.

(** The persisted form of a plan: [serde]'s image of the struct. *)
Definition persist (p : PlanRevision) : PersistedPlanRevision :=
  mkPersisted (material p) (plan_digest p) (evidence_digest p).

(** ** Validation of a plan *)

(** [self.nodes.iter().map(|node| (id, node)).collect()]: the last node of a name
    would win. *)
Definition by_id (ns : list PlanNode) : node_map :=
  list_to_map (reverse ((λ n, (node_id n, n)) <$> ns)).

(** The loop over the nodes that fills [ids]. *)
Fixpoint collect_ids (validate : PlanNode → checked unit) (ids : name_set) (ns : list PlanNode)
    : checked name_set :=
  match ns with
  | [] => Ok ids
  | n :: ns =>
      _ ← validate n;
      _ ← reject (bool_decide (node_id n ∈ ids)) "duplicate node";
      collect_ids validate ({[node_id n]} ∪ ids) ns
  end.

Definition unresolved (ids : name_set) (n : PlanNode) : bool :=
  is_some_and (parent_id n) (λ p, negb (bool_decide (p ∈ ids)))
  || existsb (λ d, negb (bool_decide (d ∈ ids))) (dependencies n).

(** The cycle check with fuel above the number of nodes; [check_cycles_spec] shows
    that it never runs out, so the last case is never taken. *)
Definition cycle_check (ns : list PlanNode) : checked unit :=
  match check_cycles (by_id ns) (S (length ns)) (node_id <$> ns) with
  | Some (Ok _) => Ok tt
  | Some (Err e) => Err e
  | None => Err (Invalid "unreachable")
  end.

Fixpoint try_fold_budget (sum : Z) (ns : list PlanNode) : option Z :=
  match ns with
  | [] => Some sum
  | n :: ns => sum ← checked_add u64_max sum (budget_units n); try_fold_budget sum ns
  end.

Definition validate_header (p : PlanRevision) : checked unit :=
  _ ← reject (negb (version p =? 1) || negb (evidence_version (evidence p) =? 1)) "version";
  _ ← id (instance_id p) "instance id";
  _ ← id (workspace_id p) "workspace id";
  _ ← id (plan_id p) "plan id";
  _ ← reject (existsb is_ascii_uppercase (plan_id p)) "plan id";
  _ ← reject (revision p =? 0) "revision";
  _ ← match supersedes p with Some previous => id previous "supersedes" | None => Ok tt end;
  _ ← reject (ne (subject_workspace_id (subject p)) (workspace_id p)
              || (attribution (subject p) != Conclusive)) "workspace change subject";
  _ ← bounded (repository_revision (subject p)) MAX_ID "repository revision";
  _ ← strings (dirty_paths (subject p)) MAX_TEXT "dirty paths";
  _ ← prose (evidence_subject (evidence p)) MAX_TEXT "evidence subject";
  prose_list (references (evidence p)) "evidence references".

Section plans.
Context (sha256_hex : list Z → list Z).
Context (to_vec_key : list Z → checked (list Z)) (to_vec_scalar : Value → checked (list Z)).
Context (plan_to_value : PlanDigestMaterial → checked Value).
Context (evidence_to_value : Z * WorkspaceChangeSubject * PlanEvidence → checked Value).
Context (serialized_len : PlanRevision → checked Z).
Context (parse_time : list Z → option Z).

Definition validate_nodes (p : PlanRevision) : checked unit :=
  _ ← reject (is_empty (nodes p) || (MAX_NODES <? length (nodes p))%nat) "nodes";
  ids ← collect_ids (validate_node sha256_hex) ∅ (nodes p);
  for_each (λ n, reject (unresolved ids n) "graph reference") (nodes p).

Definition validate_limits (p : PlanRevision) : checked unit :=
  _ ← reject ((total_budget_units p =? 0) || (max_concurrency p =? 0)) "limits";
  reserved ← ok_or (Invalid "budget overflow") (try_fold_budget 0 (nodes p));
  reject (total_budget_units p <? reserved) "budget".

Definition compute_plan_digest (p : PlanRevision) : checked (list Z) :=
  bytes ← canonical_json_bytes to_vec_key to_vec_scalar plan_to_value (material p);
  Ok (sha256_hex bytes).

Definition compute_evidence_digest (p : PlanRevision) : checked (list Z) :=
  bytes ← canonical_json_bytes to_vec_key to_vec_scalar evidence_to_value
            (evidence_version (evidence p), subject p, evidence p);
  Ok (sha256_hex bytes).

Definition validate_digests (p : PlanRevision) : checked unit :=
  d ← compute_plan_digest p;
  _ ← reject (ne (plan_digest p) d) "plan digest";
  e ← compute_evidence_digest p;
  reject (ne (evidence_digest p) e) "evidence digest".

(** [PlanRevision::validate]. *)
Definition validate (p : PlanRevision) : checked unit :=
  _ ← validate_header p;
  _ ← validate_nodes p;
  _ ← cycle_check (nodes p);
  _ ← validate_limits p;
  validate_digests p.

Definition from_proposal (input : PlanProposalInput) : checked PlanRevision :=
  let plan := plan_of input [] [] in
  d ← compute_plan_digest plan;
  let plan := plan_of input d [] in
  e ← compute_evidence_digest plan;
  let plan := plan_of input d e in
  _ ← validate plan;
  len ← serialized_len plan;
  _ ← reject (MAX_PERSISTED_REVISION_BYTES <? len) "persisted revision size";
  Ok plan.

Definition from_persisted (stored : PersistedPlanRevision) : checked PlanRevision :=
  plan ← from_proposal (stored_input stored);
  _ ← reject (ne (stored_plan_digest stored) (plan_digest plan)
              || ne (stored_evidence_digest stored) (evidence_digest plan)) "persisted digest";
  Ok plan.

(** [from_persisted_bytes]; [decode] is serde's derived decoder of the disk shape
    and [describe] the text of an error. *)
Definition from_persisted_bytes (decode : list Z → checked PersistedPlanRevision)
    (describe : CoordinatorError → string) (bytes : list Z) : checked PlanRevision :=
  _ ← reject (MAX_PERSISTED_REVISION_BYTES <? Z.of_nat (length bytes)) "persisted revision size";
  stored ← decode bytes;
  match from_persisted stored with
  | Ok plan => Ok plan
  | Err e => Err (Serialization (describe e))
  end.

(** ** Approvals *)

Record PlanApproval : Type := mkApproval {
  approval_version : Z;
  approval_id : list Z;
  user_id : list Z;
  approval_instance_id : list Z;
  approval_workspace_id : list Z;
  approval_plan_id : list Z;
  approval_revision : Z;
  approval_plan_digest : list Z;
  approval_evidence_digest : list Z;
  approved_at : list Z;
  expires_at : list Z;
  approval_revocation_generation : Z;
  approval_supersedes : option (list Z);
}.

(** The last test of [validate_against_at]; the digests are computed only when the
    fields before them agree, and their failure is an error of its own. *)
Definition validate_binding (a : PlanApproval) (p : PlanRevision) : checked unit :=
  _ ← reject (ne (approval_instance_id a) (instance_id p)
              || ne (approval_workspace_id a) (workspace_id p)
              || ne (approval_plan_id a) (plan_id p)
              || negb (approval_revision a =? revision p)) "approval binding";
  d ← compute_plan_digest p;
  _ ← reject (ne (approval_plan_digest a) d) "approval binding";
  e ← compute_evidence_digest p;
  reject (ne (approval_evidence_digest a) e
          || negb (approval_revocation_generation a =? revocation_generation p)
          || (approval_supersedes a != supersedes p)) "approval binding".

Definition validate_against_at (a : PlanApproval) (p : PlanRevision) (now : Z) : checked unit :=
  _ ← validate p;
  _ ← reject (negb (approval_version a =? 1)) "approval version";
  _ ← id (approval_id a) "approval id";
  _ ← id (user_id a) "user id";
  approved ← ok_or (Invalid "approved at") (parse_time (approved_at a));
  expires ← ok_or (Invalid "expires at") (parse_time (expires_at a));
  _ ← reject ((now <? approved) || (expires <=? approved) || (expires <=? now)) "approval expired";
  validate_binding a p.

(** [validate_historical_against] with the clock reading [now]. *)
Definition validate_historical_against (a : PlanApproval) (p : PlanRevision) (now : Z)
    : checked unit :=
  approved ← ok_or (Invalid "approved at") (parse_time (approved_at a));
  _ ← reject (now <? approved) "approved at";
  validate_against_at a p approved.

Inductive PlanStatus : Type :=
  | Draft | Proposed | Active | ReadyForUserReview | Paused | RecoveryRequired | Completed
  | Failed | Cancelled | Expired | Revoked.
#[export] Instance PlanStatus_eq_dec : EqDecision PlanStatus.
Proof. solve_decision. Defined.

Definition can_activate_at (s : PlanStatus) (a : PlanApproval) (p : PlanRevision)
    (current_generation now : Z) : checked unit :=
  _ ← reject ((s != Proposed) || negb (approval_revocation_generation a =? current_generation))
        "activation state";
  validate_against_at a p now.
Definition can_resume_at (s : PlanStatus) (a : PlanApproval) (p : PlanRevision)
    (current_generation now : Z) : checked unit :=
  _ ← reject ((s != Paused) || negb (approval_revocation_generation a =? current_generation))
        "resume state";
  validate_against_at a p now.

Record ApprovedPlanRevision : Type := mkApproved {
  approved_plan : PlanRevision;
  approved_approval : PlanApproval;
  approved_digest : list Z;
}.

Definition activate (p : PlanRevision) (a : PlanApproval) (current_generation now : Z)
    : checked ApprovedPlanRevision :=
  _ ← can_activate_at Proposed a p current_generation now;
  d ← compute_plan_digest p;
  Ok (mkApproved p a d).

Definition propose_revision (x : ApprovedPlanRevision) : checked PlanProposalInput :=
  let p := approved_plan x in
  next ← ok_or (Invalid "revision overflow") (checked_add u64_max (revision p) 1);
  Ok (mkProposal (version p) (instance_id p) (workspace_id p) (plan_id p) next
        (revocation_generation p) (Some (approval_id (approved_approval x))) (subject p)
        (evidence p) (nodes p) (total_budget_units p) (max_concurrency p)).
End plans.

(** ** Status *)

Definition allows_transition (s next : PlanStatus) : bool :=
  match s, next with
  | Draft, Proposed => true
  | Proposed, (Paused | RecoveryRequired) => true
  | Active, (ReadyForUserReview | Paused | RecoveryRequired | Completed | Failed | Cancelled
             | Expired | Revoked) => true
  | ReadyForUserReview, (Failed | Cancelled | Expired | Revoked) => true
  | Paused, (Cancelled | Expired | Revoked) => true
  | _, _ => false
  end.
Definition can_launch (s : PlanStatus) : bool := s == Active.
Definition is_terminal_success (s : PlanStatus) : bool := s == Completed.

(** ** Capability requests *)

Record CapabilityRequest : Type := mkRequest {
  request_version : Z;
  request_node_id : list Z;
  contract_reference : list Z;
  current_capability_digest : list Z;
  kind : CapabilityKind;
  request_scope : list (list Z);
  tool_id : list Z;
  expected_cost : Z;
  reason : list Z;
  request_evidence : list (list Z);
}.

Definition tool_matches (k : CapabilityKind) (tool : list Z) : bool :=
  match k with
  | ReadFile => tool == read_file
  | WriteFile => tool == write_file
  | RunBoundedCommand => tool == run_bounded_command
  | GitRead => tool == git_read
  | _ => false
  end.

Definition validate_request (r : CapabilityRequest) : checked unit :=
  _ ← reject (negb (request_version r =? 1)) "request version";
  _ ← id (request_node_id r) "node id";
  _ ← id (contract_reference r) "contract reference";
  _ ← digest (current_capability_digest r) "capability digest";
  _ ← reject (is_empty (request_scope r)) "scope";
  _ ← scopes (request_scope r);
  _ ← known_tool (tool_id r);
  _ ← reject (expected_cost r =? 0) "expected cost";
  _ ← prose (reason r) MAX_TEXT "reason";
  _ ← prose_list (request_evidence r) "evidence";
  if is_hard_denied (kind r) then Err (HardDenied (kind r))
  else reject (negb (tool_matches (kind r) (tool_id r))) "capability tool mismatch".

Inductive CapabilityDecision : Type := RequiresParentReview.

Definition direct (k : CapabilityKind) (r : Role) : checked CapabilityDecision :=
  if is_hard_denied k then Err (HardDenied k) else Ok RequiresParentReview.
Definition from_request (r : CapabilityRequest) : checked CapabilityDecision :=
  _ ← validate_request r; Ok RequiresParentReview.

(** ** Lemmas *)

(** Unfold a successful chain of checks. *)
Ltac inv_checked H :=
  inv_ok H;
  repeat match goal with
  | H : reject _ _ = Ok _ |- _ => apply reject_Ok in H
  | H : for_each _ _ = Ok _ |- _ => apply for_each_Ok in H
  end.

Lemma collect_ids_Ok v ids ns out : collect_ids v ids ns = Ok out →
  Forall (λ n, v n = Ok tt) ns ∧ NoDup (node_id <$> ns)
  ∧ Forall (λ n, node_id n ∉ ids) ns ∧ out = ids ∪ list_to_set (node_id <$> ns).
Proof.
  revert ids. induction ns as [|n ns IH]; intros ids; simpl.
  { intros [= <-]. split; [done|]. split; [constructor|]. split; [done|].
    by rewrite (right_id_L ∅ (∪)). }
  intros H. inv_checked H. rewrite bool_decide_eq_false in *.
  apply IH in H as (Hall & Hnd & Hni & ->).
  assert (Hn : node_id n ∉ node_id <$> ns).
  { intros (m & Hm & Hin)%list_elem_of_fmap. rewrite Forall_forall in Hni.
    apply (Hni m Hin). set_solver. }
  split; [|split; [|split]].
  - constructor; [by repeat match goal with u : unit |- _ => destruct u end|done].
  - by constructor.
  - constructor; [done|]. eapply Forall_impl; [exact Hni|]. set_solver.
  - set_solver.
Qed.

Lemma by_id_lookup ns x n : NoDup (node_id <$> ns) →
  by_id ns !! x = Some n ↔ n ∈ ns ∧ node_id n = x.
Proof.
  intros Hnd. unfold by_id.
  assert (Hf : (reverse ((λ n, (node_id n, n)) <$> ns)).*1 ≡ₚ node_id <$> ns).
  { rewrite reverse_Permutation, <- list_fmap_compose. done. }
  rewrite <- elem_of_list_to_map by by rewrite Hf. rewrite elem_of_reverse, list_elem_of_fmap.
  split.
  - intros (m & [= -> ->] & Hm). done.
  - intros [Hn <-]. by exists n.
Qed.

Lemma by_id_names ns x : NoDup (node_id <$> ns) →
  x ∈ node_id <$> ns ↔ is_Some (by_id ns !! x).
Proof.
  intros Hnd. rewrite list_elem_of_fmap. split.
  - intros (n & -> & Hn). exists n. by apply by_id_lookup.
  - intros [n Hn]. apply by_id_lookup in Hn as [Hn <-]; [|done]. by exists n.
Qed.

Lemma by_id_size ns : NoDup (node_id <$> ns) → size (by_id ns) = length ns.
Proof.
  intros Hnd. unfold by_id. rewrite map_size_list_to_map.
  - by rewrite length_reverse, length_fmap.
  - by rewrite reverse_Permutation, <- list_fmap_compose.
Qed.

Lemma unresolved_false ids n : unresolved ids n = false ↔ ∀ y, y ∈ successors n → y ∈ ids.
Proof.
  unfold unresolved, successors. rewrite orb_false_iff. split.
  - intros [Hp Hd] y. rewrite elem_of_app. intros [Hy|Hy].
    + destruct (parent_id n) as [p|]; simpl in *; [|by apply elem_of_nil in Hy].
      apply list_elem_of_singleton in Hy as ->. apply negb_false_iff in Hp. by case_bool_decide.
    + destruct (decide (y ∈ ids)) as [?|Hn]; [done|].
      assert (Hx : existsb (λ d, negb (bool_decide (d ∈ ids))) (dependencies n) = true).
      { apply existsb_exists. exists y. split; [by apply list_elem_of_In|].
        by rewrite bool_decide_eq_false_2. }
      congruence.
  - intros H. split.
    + destruct (parent_id n) as [p|] eqn:E; [|done]. simpl. apply negb_false_iff, bool_decide_eq_true.
      apply H. simpl. set_solver.
    + destruct (existsb _ _) eqn:E; [|done]. apply existsb_exists in E as (d & Hd & Hn).
      apply negb_true_iff, bool_decide_eq_false in Hn. exfalso. apply Hn, H, elem_of_app. right.
      by apply list_elem_of_In.
Qed.

(** The graph of the nodes has resolved references. *)
Lemma by_id_resolved ns :
  NoDup (node_id <$> ns) →
  Forall (λ n, ∀ y, y ∈ successors n → y ∈ node_id <$> ns) ns → resolved (by_id ns).
Proof.
  intros Hnd Hr x n y Hn Hy. apply by_id_lookup in Hn as [Hn _]; [|done].
  apply by_id_names; [done|]. rewrite Forall_forall in Hr. by apply (Hr n).
Qed.

Lemma cycle_check_spec ns :
  NoDup (node_id <$> ns) → Forall (λ n, ∀ y, y ∈ successors n → y ∈ node_id <$> ns) ns →
  (acyclic (by_id ns) ∧ cycle_check ns = Ok tt)
  ∨ (¬ acyclic (by_id ns) ∧ cycle_check ns = Err (Invalid "graph cycle")).
Proof.
  intros Hnd Hr. pose proof (by_id_size ns Hnd) as Hs. unfold cycle_check.
  destruct (check_cycles_spec (by_id ns) (S (length ns)) (node_id <$> ns)) as [[Ha [s E]]|[Ha E]].
  - by apply by_id_resolved.
  - intros x. by apply by_id_names.
  - lia.
  - left. by rewrite E.
  - right. by rewrite E.
Qed.

Definition sum_budget (ns : list PlanNode) : Z := foldr (λ n s, budget_units n + s) 0 ns.
Lemma try_fold_budget_Some sum ns r :
  try_fold_budget sum ns = Some r → r = sum + sum_budget ns.
Proof.
  revert sum. induction ns as [|n ns IH]; intros sum; simpl; [intros [= <-]; lia|].
  destruct (checked_add _ _ _) as [s|] eqn:E; simpl; [|done]. intros H%IH.
  apply checked_add_Some in E as [-> _]. lia.
Qed.

Section plan_lemmas.
Context (sha : list Z → list Z).
Context (key : list Z → checked (list Z)) (scalar : Value → checked (list Z)).
Context (ptv : PlanDigestMaterial → checked Value).
Context (etv : Z * WorkspaceChangeSubject * PlanEvidence → checked Value).
Context (len : PlanRevision → checked Z).
Context (parse : list Z → option Z).
Abbreviation validate' := (validate sha key scalar ptv etv).
Abbreviation from_proposal' := (from_proposal sha key scalar ptv etv len).
Abbreviation from_persisted' := (from_persisted sha key scalar ptv etv len).

(** The plan's nodes form a resolved graph of distinct names. *)
Definition well_named (ns : list PlanNode) : Prop :=
  NoDup (node_id <$> ns) ∧ Forall (λ n, ∀ y, y ∈ successors n → y ∈ node_id <$> ns) ns.

Lemma validate_nodes_Ok p : validate_nodes sha p = Ok tt →
  (0 < length (nodes p) <= MAX_NODES)%nat ∧ Forall (λ n, validate_node sha n = Ok tt) (nodes p)
  ∧ well_named (nodes p).
Proof.
  unfold validate_nodes. intros H. apply result_bind_Ok in H as (u & H1 & H).
  apply result_bind_Ok in H as (ids & Hids & H). apply reject_Ok in H1. apply for_each_Ok in H.
  apply orb_false_iff in H1 as [He Hm%Nat.ltb_ge]. apply collect_ids_Ok in Hids as (Hv & Hnd & _ & ->).
  split; [destruct (nodes p); simpl in *; [done|lia]|]. split; [done|]. split; [done|].
  eapply Forall_impl; [exact H|]. intros n Hn%reject_Ok y Hy.
  rewrite unresolved_false in Hn. specialize (Hn y Hy).
  rewrite (left_id_L ∅ (∪)) in Hn. by apply elem_of_list_to_set in Hn.
Qed.

Lemma validate_Ok p : validate' p = Ok tt →
  validate_nodes sha p = Ok tt ∧ cycle_check (nodes p) = Ok tt ∧ validate_limits p = Ok tt
  ∧ compute_plan_digest sha key scalar ptv p = Ok (plan_digest p)
  ∧ compute_evidence_digest sha key scalar etv p = Ok (evidence_digest p).
Proof.
  unfold validate. intros H. apply result_bind_Ok in H as (u1 & _ & H).
  apply result_bind_Ok in H as ([] & H2 & H). apply result_bind_Ok in H as ([] & H3 & H).
  apply result_bind_Ok in H as ([] & H4 & H). split; [done|]. split; [done|]. split; [done|].
  unfold validate_digests in H. apply result_bind_Ok in H as (d & Hd & H).
  apply result_bind_Ok in H as (u & Hu%reject_Ok%neqb_elim & H).
  apply result_bind_Ok in H as (e & He & Hw%reject_Ok%neqb_elim). by rewrite Hu, Hw.
Qed.

(** The digests do not read the digest fields. *)
Lemma compute_plan_digest_material p q :
  material p = material q →
  compute_plan_digest sha key scalar ptv p = compute_plan_digest sha key scalar ptv q.
Proof. unfold compute_plan_digest. by intros ->. Qed.
Lemma compute_evidence_digest_material p q :
  material p = material q →
  compute_evidence_digest sha key scalar etv p = compute_evidence_digest sha key scalar etv q.
Proof. unfold compute_evidence_digest. intros H. injection H as ?????????. congruence. Qed.
Lemma material_plan_of i d e : material (plan_of i d e) = i.
Proof. by destruct i. Qed.

Lemma from_proposal_Ok input p : from_proposal' input = Ok p →
  material p = input ∧ validate' p = Ok tt
  ∧ ∃ n, len p = Ok n ∧ n <= MAX_PERSISTED_REVISION_BYTES.
Proof.
  unfold from_proposal. intros H. apply result_bind_Ok in H as (d & Hd & H).
  apply result_bind_Ok in H as (e & He & H). apply result_bind_Ok in H as ([] & Hv & H).
  apply result_bind_Ok in H as (n & Hn & H).
  apply result_bind_Ok in H as (u & Hu%reject_Ok%Z.ltb_ge & [= <-]).
  rewrite material_plan_of. split; [done|]. split; [done|]. by exists n.
Qed.

(** A valid plan is what its own proposal yields. *)
Lemma from_proposal_valid p n :
  validate' p = Ok tt → len p = Ok n → n <= MAX_PERSISTED_REVISION_BYTES →
  from_proposal' (material p) = Ok p.
Proof.
  intros Hv Hl Hn. destruct (validate_Ok p Hv) as (_ & _ & _ & Hd & He).
  unfold from_proposal.
  rewrite (compute_plan_digest_material _ p) by by rewrite material_plan_of. rewrite Hd. simpl.
  rewrite (compute_evidence_digest_material _ p) by by rewrite material_plan_of. rewrite He. simpl.
  assert (Hp : plan_of (material p) (plan_digest p) (evidence_digest p) = p) by by destruct p.
  rewrite Hp, Hv. simpl. rewrite Hl. simpl. unfold reject. by rewrite (proj2 (Z.ltb_ge _ _)).
Qed.
End plan_lemmas.

(** ** Properties *)

(** A concrete instance of the other crates' functions. *)
Definition demo_sha (b : list Z) : list Z := replicate 64 (48 + Z.of_nat (length b) mod 10).
Definition demo_to_vec (s : list Z) : checked (list Z) := Ok s.
Definition demo_to_vec_scalar (v : Value) : checked (list Z) :=
  match v with Number n => Ok [n] | _ => Ok [] end.
Definition demo_plan_value (m : PlanDigestMaterial) : checked Value := Ok (Number (in_revision m)).
Definition demo_evidence_value (m : Z * WorkspaceChangeSubject * PlanEvidence) : checked Value :=
  Ok (Number m.1.1).
Definition demo_len (p : PlanRevision) : checked Z := Ok 1000.
Definition demo_parse (s : list Z) : option Z := head s.
Definition txt (s : string) : list Z := bytes_of s.
Definition demo_node (name : string) (deps : list string) (budget : Z) : PlanNode :=
  mkNode (txt name) None (txt "task") [txt "done"] (txt "context") (demo_sha (txt "context"))
    (txt "contract") [txt "src/lib.rs"] Implementation [read_file] [txt "codex"] (txt <$> deps)
    budget 1 (txt "default").
Definition demo_input (ns : list PlanNode) : PlanProposalInput :=
  mkProposal 1 (txt "instance") (txt "workspace") (txt "plan-1") 1 0 None
    (mkSubject (txt "workspace") (txt "abc") [] Conclusive) (mkEvidence 1 (txt "subject") []) ns 10 2.
Definition demo_nodes : list PlanNode := [demo_node "a" [] 3; demo_node "b" ["a"] 4].
Definition demo_plan : PlanRevision :=
  plan_of (demo_input demo_nodes) (demo_sha [1]) (demo_sha [1]).

(** C34: an accepted plan is a bounded acyclic graph with a covered budget.  If
    [from_proposal] accepts an input, then the plan has the fields of the input,
    between 1 and 128 valid nodes with distinct names, every parent and dependency
    names a node, no chain of parents and dependencies returns to its start, the
    budgets of the nodes add up (without overflow) to at most the total, and both
    digests are those of the plan's own fields. *)
Theorem accepted_plan_valid sha key scalar ptv etv len input p :
  from_proposal sha key scalar ptv etv len input = Ok p →
  material p = input
  ∧ (0 < length (nodes p) <= MAX_NODES)%nat
  ∧ Forall (λ n, validate_node sha n = Ok tt) (nodes p)
  ∧ NoDup (node_id <$> nodes p)
  ∧ resolved (by_id (nodes p)) ∧ acyclic (by_id (nodes p))
  ∧ sum_budget (nodes p) <= total_budget_units p
  ∧ compute_plan_digest sha key scalar ptv p = Ok (plan_digest p)
  ∧ compute_evidence_digest sha key scalar etv p = Ok (evidence_digest p).
Proof.
  intros (Hm & Hv & _)%from_proposal_Ok.
  destruct (validate_Ok _ _ _ _ _ _ Hv) as (Hn & Hc & Hl & Hd & He).
  apply validate_nodes_Ok in Hn as (Hlen & Hall & Hnd & Hr).
  repeat split; auto; try lia.
  - by apply by_id_resolved.
  - destruct (cycle_check_spec (nodes p) Hnd Hr) as [[Ha _]|[_ E]]; [done|congruence].
  - unfold validate_limits in Hl. apply result_bind_Ok in Hl as (u & _ & Hl).
    apply result_bind_Ok in Hl as (r & Hr'%ok_or_Ok & Hb%reject_Ok%Z.ltb_ge).
    apply try_fold_budget_Some in Hr'. lia.
Qed.

Lemma accepted_plan_valid_witness :
  material demo_plan = demo_input demo_nodes
  ∧ (0 < length (nodes demo_plan) <= MAX_NODES)%nat
  ∧ Forall (λ n, validate_node demo_sha n = Ok tt) (nodes demo_plan)
  ∧ NoDup (node_id <$> nodes demo_plan)
  ∧ resolved (by_id (nodes demo_plan)) ∧ acyclic (by_id (nodes demo_plan))
  ∧ sum_budget (nodes demo_plan) <= total_budget_units demo_plan
  ∧ compute_plan_digest demo_sha demo_to_vec demo_to_vec_scalar demo_plan_value demo_plan
    = Ok (plan_digest demo_plan)
  ∧ compute_evidence_digest demo_sha demo_to_vec demo_to_vec_scalar demo_evidence_value demo_plan
    = Ok (evidence_digest demo_plan).
Proof.
  apply (accepted_plan_valid demo_sha demo_to_vec demo_to_vec_scalar demo_plan_value
    demo_evidence_value demo_len). vm_compute. reflexivity.
Defined.

(** C36: the cycle check is exact and terminates.  For nodes with distinct names
    and resolved references the depth-first search never runs out of fuel (nor
    indexes an unknown node): it accepts if the graph of parents and dependencies
    has no cycle and otherwise reports exactly the cycle error. *)
Theorem cycle_check_exact ns :
  NoDup (node_id <$> ns) → Forall (λ n, ∀ y, y ∈ successors n → y ∈ node_id <$> ns) ns →
  is_Some (check_cycles (by_id ns) (S (length ns)) (node_id <$> ns))
  ∧ (cycle_check ns = Ok tt ↔ acyclic (by_id ns))
  ∧ (cycle_check ns = Err (Invalid "graph cycle") ↔ ¬ acyclic (by_id ns)).
Proof.
  intros Hnd Hr. destruct (check_cycles_spec (by_id ns) (S (length ns)) (node_id <$> ns))
    as [[Ha [s E]]|[Ha E]]; [by apply by_id_resolved|intros; by apply by_id_names|
                             by rewrite by_id_size by done; lia| |];
    unfold cycle_check; rewrite E; (split; [by eexists|]).
  - split; [done|]. split; [done|]. by intros ?.
  - split; [split; [done|by intros ?]|done].
Qed.

Definition cyclic_nodes : list PlanNode := [demo_node "a" ["b"] 3; demo_node "b" ["a"] 4].
Lemma cycle_check_exact_witness :
  is_Some (check_cycles (by_id cyclic_nodes) 3 (node_id <$> cyclic_nodes))
  ∧ (cycle_check cyclic_nodes = Ok tt ↔ acyclic (by_id cyclic_nodes))
  ∧ (cycle_check cyclic_nodes = Err (Invalid "graph cycle") ↔ ¬ acyclic (by_id cyclic_nodes)).
Proof.
  apply (cycle_check_exact cyclic_nodes).
  - apply (bool_decide_unpack (NoDup _)). vm_compute. exact I.
  - apply Forall_forall. intros n Hn y Hy.
    apply elem_of_cons in Hn as [->|Hn%list_elem_of_singleton]; [|subst n];
      apply list_elem_of_singleton in Hy as ->; apply (bool_decide_unpack (_ ∈ _)); vm_compute; exact I.
Defined.
Example cyclic_rejected : cycle_check cyclic_nodes = Err (Invalid "graph cycle").
Proof. vm_compute. reflexivity. Qed.

(** a persisted revision round-trips and cannot be altered.  A plan that
    [from_proposal] accepted, once persisted, is reloaded as the same plan; and
    whatever stored record is reloaded without an error is exactly the persisted
    form of the plan it yields, so no stored field or digest can differ from what
    was issued without being rejected. *)
Theorem persisted_round_trip sha key scalar ptv etv len :
  (∀ input p, from_proposal sha key scalar ptv etv len input = Ok p →
     from_persisted sha key scalar ptv etv len (persist p) = Ok p)
  ∧ (∀ stored p, from_persisted sha key scalar ptv etv len stored = Ok p → stored = persist p).
Proof.
  split.
  - intros input p (_ & Hv & n & Hl & Hn)%from_proposal_Ok. unfold from_persisted, persist.
    simpl. rewrite (from_proposal_valid _ _ _ _ _ _ p n) by done. simpl.
    unfold ne. by rewrite !eqb_refl.
  - intros [input d e] p. unfold from_persisted, persist. simpl. intros H.
    apply result_bind_Ok in H as (q & Hq & H). apply result_bind_Ok in H as (u & Hu%reject_Ok & [= ->]).
    apply from_proposal_Ok in Hq as (Hm & _). unfold ne in Hu.
    apply orb_false_iff in Hu as [Hd%neqb_elim He%neqb_elim]. by rewrite Hm, Hd, He.
Qed.

Lemma persisted_round_trip_witness :
  from_persisted demo_sha demo_to_vec demo_to_vec_scalar demo_plan_value demo_evidence_value demo_len
    (persist demo_plan) = Ok demo_plan.
Proof.
  destruct (persisted_round_trip demo_sha demo_to_vec demo_to_vec_scalar demo_plan_value
    demo_evidence_value demo_len) as [H _].
  apply (H (demo_input demo_nodes)). vm_compute. reflexivity.
Defined.

(** The approval names exactly this revision. *)
Definition binds (a : PlanApproval) (p : PlanRevision) : Prop :=
  approval_instance_id a = instance_id p ∧ approval_workspace_id a = workspace_id p
  ∧ approval_plan_id a = plan_id p ∧ approval_revision a = revision p
  ∧ approval_plan_digest a = plan_digest p ∧ approval_evidence_digest a = evidence_digest p
  ∧ approval_revocation_generation a = revocation_generation p
  ∧ approval_supersedes a = supersedes p.

Lemma validate_binding_Ok sha key scalar ptv etv a p :
  compute_plan_digest sha key scalar ptv p = Ok (plan_digest p) →
  compute_evidence_digest sha key scalar etv p = Ok (evidence_digest p) →
  validate_binding sha key scalar ptv etv a p = Ok tt ↔ binds a p.
Proof.
  intros Hd He. unfold validate_binding, binds. rewrite Hd, He. simpl.
  split.
  - intros H. apply result_bind_Ok in H as (u1 & H1%reject_Ok & H).
    apply result_bind_Ok in H as (u2 & H2%reject_Ok%neqb_elim & H3%reject_Ok).
    unfold ne in *. rewrite !orb_false_iff, !neqb_false, !negb_false_iff, !Z.eqb_eq in *. tauto.
  - intros (E1&E2&E3&E4&E5&E6&E7&E8). unfold ne, reject.
    by rewrite E1, E2, E3, E4, E5, E6, E7, E8, !eqb_refl, !Z.eqb_refl.
Qed.

(** activation needs exactly a current approval of this very revision.
    [activate] succeeds if and only if the plan is valid, the approval is well
    formed, its window contains the present ([approved <= now < expires]), its
    revocation generation is the current one, and it names the instance,
    workspace, plan, revision, both digests, generation and predecessor of this
    plan; the activated revision then carries this plan, this approval and the
    plan's digest. *)
Theorem activation_exact sha key scalar ptv etv parse p a generation now x :
  activate sha key scalar ptv etv parse p a generation now = Ok x ↔
  x = mkApproved p a (plan_digest p)
  ∧ validate sha key scalar ptv etv p = Ok tt
  ∧ approval_version a = 1 ∧ id (approval_id a) "approval id" = Ok tt
  ∧ id (user_id a) "user id" = Ok tt
  ∧ (∃ approved expires, parse (approved_at a) = Some approved ∧ parse (expires_at a) = Some expires
       ∧ approved <= now < expires)
  ∧ approval_revocation_generation a = generation ∧ binds a p.
Proof.
  unfold activate, can_activate_at, validate_against_at. rewrite !eqb_refl. simpl. split.
  - intros H. apply result_bind_Ok in H as (u & H & Hx).
    apply result_bind_Ok in H as (u0 & Hg%reject_Ok & H).
    apply result_bind_Ok in H as ([] & Hv & H).
    destruct (validate_Ok _ _ _ _ _ _ Hv) as (_ & _ & _ & Hd & He).
    apply result_bind_Ok in H as (u1 & H1%reject_Ok & H).
    apply result_bind_Ok in H as ([] & H2 & H). apply result_bind_Ok in H as ([] & H3 & H).
    apply result_bind_Ok in H as (ap & Hap%ok_or_Ok & H).
    apply result_bind_Ok in H as (ex & Hex%ok_or_Ok & H).
    apply result_bind_Ok in H as (u2 & Hw%reject_Ok & H). destruct u.
    apply validate_binding_Ok in H; [|done..]. rewrite Hd in Hx. simpl in Hx. injection Hx as <-.
    apply orb_false_iff in Hw as [[Hw1%Z.ltb_ge Hw2%Z.leb_gt]%orb_false_iff Hw3%Z.leb_gt].
    apply negb_false_iff, Z.eqb_eq in Hg. apply negb_false_iff, Z.eqb_eq in H1.
    split_and!; try done. exists ap, ex. repeat split; (done || lia).
  - intros (-> & Hv & H1 & H2 & H3 & (ap & ex & Hap & Hex & Hw) & Hg & Hb).
    destruct (validate_Ok _ _ _ _ _ _ Hv) as (_ & _ & _ & Hd & He).
    rewrite Hg, Z.eqb_refl. simpl. rewrite Hv. simpl. rewrite H1. simpl. rewrite H2. simpl.
    rewrite H3. simpl. rewrite Hap. simpl. rewrite Hex. simpl.
    rewrite (proj2 (Z.ltb_ge now ap)), (proj2 (Z.leb_gt ex ap)), (proj2 (Z.leb_gt ex now)) by lia.
    simpl. rewrite (proj2 (validate_binding_Ok _ _ _ _ _ a p Hd He)) by done. simpl. by rewrite Hd.
Qed.

(** Chains of allowed transitions. *)
Definition transition (s next : PlanStatus) : Prop := allows_transition s next = true.
Definition rank (s : PlanStatus) : nat :=
  match s with
  | Draft => 4 | Proposed => 3 | Active => 3 | ReadyForUserReview => 1 | Paused => 1 | _ => 0
  end.

(** Status only moves towards an end.  Along any chain of allowed transitions
    a plan never becomes able to launch (activation and resumption are not
    transitions: they need an approval), a chain has at most three steps, a plan
    that left [Active] never succeeds unless it was completed from [Active]
    directly, and the final states have no way out. *)
Theorem status_moves_to_an_end s n t :
  nsteps transition n s t →
  (can_launch t = true → n = 0%nat ∧ s = Active) ∧ (n <= 3)%nat
  ∧ (is_terminal_success t = true → n = 0%nat ∨ s = Active ∧ n = 1%nat)
  ∧ (rank t = 0%nat → ∀ u, allows_transition t u = false).
Proof.
  intros H. assert (Hrank : (rank t + n <= rank s)%nat ∧ (n = 0%nat → s = t)
    ∧ (n ≠ 0%nat → t ≠ Active) ∧ (t = Completed → n = 0%nat ∨ s = Active ∧ n = 1%nat)).
  { induction H as [s|n s u t Hs H (IH1 & IH2 & IH3 & IH4)]; [by repeat split; auto; lia|].
    assert (Hd : (rank u < rank s)%nat ∧ u ≠ Active).
    { unfold transition in Hs. destruct s, u; try discriminate Hs; (split; [simpl; lia|discriminate]). }
    destruct Hd as [Hd Hu]. split; [lia|]. split; [done|]. split.
    - intros _ ->. destruct n; [by apply Hu, IH2|by apply IH3].
    - intros ->. destruct (IH4 eq_refl) as [->|[-> _]]; [|done]. rewrite (IH2 eq_refl) in Hs.
      right. by destruct s. }
  destruct Hrank as (Hr & H0 & Ha & Hc). unfold can_launch, is_terminal_success.
  split; [|split; [|split]].
  - intros ->%eqb_elim. destruct n; [by rewrite H0|]. by destruct Ha.
  - destruct (decide (n = 4)%nat) as [->|]; [|destruct s; simpl in *; lia].
    inversion H as [|? ? u ? Hs H1]; subst. destruct s; simpl in *; try lia.
    destruct u; try done. inversion H1 as [|? ? v ? Hv H2]; subst.
    destruct v; try done; inversion H2 as [|? ? w ? Hw H3]; subst; destruct w; try done;
      inversion H3 as [|? ? x ? Hx H4]; subst; by destruct x.
  - intros H1%eqb_elim. by apply Hc.
  - intros Hz u. by destruct t, u.
Qed.

Lemma status_moves_to_an_end_witness :
  (can_launch Cancelled = true → 3%nat = 0%nat ∧ Draft = Active) ∧ (3 <= 3)%nat
  ∧ (is_terminal_success Cancelled = true → 3%nat = 0%nat ∨ Draft = Active ∧ 3%nat = 1%nat)
  ∧ (rank Cancelled = 0%nat → ∀ u, allows_transition Cancelled u = false).
Proof.
  apply (status_moves_to_an_end Draft 3 Cancelled).
  apply (nsteps_l transition 2 Draft Proposed); [reflexivity|].
  apply (nsteps_l transition 1 Proposed Paused); [reflexivity|].
  apply (nsteps_l transition 0 Paused Cancelled); [reflexivity|]. constructor.
Defined.

(** How a file system walks a relative path from a directory: [None] when it
    leaves the directory. *)
Fixpoint walk (stack : list (list Z)) (parts : list (list Z)) : option (list (list Z)) :=
  match parts with
  | [] => Some stack
  | part :: parts =>
      if is_empty part || (part == dot) then walk stack parts
      else if part == dot_dot then
        match stack with [] => None | _ :: stack => walk stack parts end
      else walk (part :: stack) parts
  end.

Lemma walk_canonical stack parts :
  existsb (λ part, is_empty part || (part == dot) || (part == dot_dot)) parts = false →
  walk stack parts = Some (reverse parts ++ stack).
Proof.
  revert stack. induction parts as [|part parts IH]; intros stack; simpl; [done|].
  intros [Hp Hps]%orb_false_iff. apply orb_false_iff in Hp as [H1 H2]. rewrite H1, H2, IH by done.
  by rewrite reverse_cons, <- app_assoc.
Qed.

(** A capability request that passes is harmless by form.  [from_request]
    yields a decision (always a parent review) only for one of the four kinds that
    are not hard-denied, naming the tool of that kind, with a positive cost and a
    nonempty scope of which every path is relative and, walked from the workspace,
    stays inside it, visiting exactly its own components; a hard-denied kind is
    refused by [direct] and by [from_request] alike. *)
Theorem capability_request_contained r :
  (∀ d, from_request r = Ok d →
     is_hard_denied (kind r) = false ∧ tool_matches (kind r) (tool_id r) = true
     ∧ expected_cost r ≠ 0 ∧ request_scope r ≠ []
     ∧ ∀ path, path ∈ request_scope r →
         starts_with [slash] path = false
         ∧ walk [] (split slash path) = Some (reverse (split slash path)))
  ∧ (is_hard_denied (kind r) = true →
     is_ok (from_request r) = false ∧ ∀ role, direct (kind r) role = Err (HardDenied (kind r))).
Proof.
  assert (Hd : ∀ d, from_request r = Ok d → is_hard_denied (kind r) = false
    ∧ tool_matches (kind r) (tool_id r) = true ∧ expected_cost r ≠ 0 ∧ request_scope r ≠ []
    ∧ scopes (request_scope r) = Ok tt).
  { intros d H. unfold from_request in H. apply result_bind_Ok in H as ([] & H & _).
    unfold validate_request in H. do 4 apply result_bind_Ok in H as (? & _ & H).
    apply result_bind_Ok in H as (? & H1%reject_Ok & H). apply result_bind_Ok in H as ([] & H2 & H).
    apply result_bind_Ok in H as (? & _ & H). apply result_bind_Ok in H as (? & H3%reject_Ok%Z.eqb_neq & H).
    do 2 apply result_bind_Ok in H as (? & _ & H).
    destruct (is_hard_denied (kind r)); [done|]. apply reject_Ok, negb_false_iff in H.
    split_and!; try done. intros Hs. by rewrite Hs in H1. }
  split.
  - intros d (H1 & H2 & H3 & H4 & H5)%Hd. split_and!; try done. intros path Hp.
    unfold scopes in H5. apply result_bind_Ok in H5 as (? & _ & H5%for_each_Ok).
    rewrite Forall_forall in H5. specialize (H5 path Hp). apply reject_Ok in H5.
    unfold noncanonical in H5. rewrite !orb_false_iff in H5. destruct H5 as (((H5 & _) & _) & H6).
    split; [done|]. by rewrite walk_canonical, app_nil_r.
  - intros Hh. split; [|intros role; unfold direct; by rewrite Hh].
    destruct (from_request r) as [d|e] eqn:E; [|done]. destruct (Hd d eq_refl) as [? _]. congruence.
Qed.

Definition demo_request (path : string) : CapabilityRequest :=
  mkRequest 1 (txt "node") (txt "contract") (demo_sha []) ReadFile [txt path] read_file 1
    (txt "why") [].
Example escaping_path_refused : is_ok (from_request (demo_request "src/../../etc")) = false.
Proof. vm_compute. reflexivity. Qed.
Lemma capability_request_contained_witness :
  walk [] (split slash (txt "src/lib.rs")) = Some (reverse (split slash (txt "src/lib.rs"))).
Proof.
  destruct (capability_request_contained (demo_request "src/lib.rs")) as [H _].
  destruct (H RequiresParentReview) as (_ & _ & _ & _ & Hp); [vm_compute; reflexivity|].
  apply (Hp (txt "src/lib.rs")). left.
Defined.
