(* ===== verification/StrictJson.v ===== *)
(** * The strict JSON scanner

    [taskmaster/knowledge/strict_json.rs]: the scan a knowledge record must pass
    before it is decoded.  The scanner walks over the bytes of the source with an
    index; its mutual recursion is bounded by fuel, and [scan_never_stuck] shows
    that the fuel of [parse] is always enough.

    The second part is a grammar of strict JSON, independent of the scanner, and
    the third the proof that the scanner accepts exactly that grammar.

    Arguments that stand for serde: [decode], which decodes one string token, and
    [typed], which decodes the whole text. *)
From S2P Require Export Utf8.

Definition MAX_DEPTH : nat := 32.
Definition max_safe : Z := 9007199254740991.
#[global] Arguments MAX_DEPTH : simpl never.

(** The message of an error; a duplicate key is formatted into it. *)
Inductive Message : Type :=
  | Text (message : string)
  | DuplicateKey (key : list Z).

(** [Scanner::error], with the index; [OutOfFuel] is no error of the code. *)
Inductive Failure : Type :=
  | At (index : nat) (message : Message)
  | OutOfFuel.
Abbreviation scanned := (result Failure).
Definition error {A} (index : nat) (message : string) : scanned A := Err (At index (Text message)).

Definition is_space (c : Z) : bool := (c =? 9) || (c =? 10) || (c =? 13) || (c =? 32).
(** The bytes that may follow a number. *)
Definition delimits (c : Z) : bool := is_space c || (c =? 0x2c) || (c =? 0x5d) || (c =? 0x7d).
(** The escapes of one byte: a quote, a backslash, [/ b f n r t]. *)
Definition simple_escape (c : Z) : bool :=
  (c =? 0x22) || (c =? 0x5c) || (c =? 0x2f) || (c =? 0x62) || (c =? 0x66) || (c =? 0x6e)
  || (c =? 0x72) || (c =? 0x74).
Definition lit_true : list Z := Eval compute in bytes_of "true".
Definition lit_false : list Z := Eval compute in bytes_of "false".
Definition lit_null : list Z := Eval compute in bytes_of "null".

Definition hex_digit (c : Z) : Z :=
  if is_ascii_digit c then c - 0x30 else if between 0x61 0x66 c then c - 87 else c - 55.
(** [u16::from_str_radix(text, 16)] of four hexadecimal digits. *)
Definition hex_value (text : list Z) : Z := fold_left (λ n c, n * 16 + hex_digit c) text 0.
Definition is_high (unit : Z) : bool := between 0xd800 0xdbff unit.
Definition is_low (unit : Z) : bool := between 0xdc00 0xdfff unit.

(** How often a [while] that skips bytes of a class runs. *)
Fixpoint count_while (p : Z → bool) (l : list Z) : nat :=
  match l with
  | c :: l => if p c then S (count_while p l) else O
  | [] => O
  end.

Section scanner.
Context (source : list Z) (decode : list Z → option (list Z)).

Definition byte (index : nat) : option Z := source !! index.
Definition slice (start index : nat) : list Z := take (index - start) (drop start source).
Definition scan_while (p : Z → bool) (index : nat) : nat :=
  (index + count_while p (drop index source))%nat.
Definition whitespace (index : nat) : nat := scan_while is_space index.

Definition check_depth (depth index : nat) : scanned unit :=
  if (MAX_DEPTH <? depth)%nat then error index "JSON nesting exceeds 32 levels" else Ok tt.

Definition literal (value : list Z) (index : nat) : scanned nat :=
  if slice index (index + length value) == value then Ok (index + length value)%nat
  else error index "invalid literal".

Definition number (start : nat) : scanned nat :=
  let index := if byte start == Some 0x30 then S start else scan_while is_ascii_digit start in
  if is_some_and (byte index) (λ c, negb (delimits c))
  then error index "numbers must use canonical nonnegative integer syntax"
  else
    let token := slice start index in
    if (1 <? length token)%nat && starts_with [0x30] token
    then error index "numbers must use canonical nonnegative integer syntax"
    else match fold_digits u64_max 0 token with
         | Some value =>
             if max_safe <? value then error index "integer exceeds safe range" else Ok index
         | None => error index "integer exceeds safe range"
         end.

(** The code unit and the index after it; [index] is that of the [u]. *)
Definition code_unit (index : nat) : scanned (Z * nat) :=
  let index := S index in
  let hex := slice index (index + 4) in
  if negb (length hex =? 4)%nat || negb (forallb is_ascii_hexdigit hex)
  then error index "invalid Unicode escape"
  else Ok (hex_value hex, (index + 4)%nat).

(** The escape whose [u] is at [index], with its second half if it is a high surrogate. *)
Definition unicode_escape (index : nat) : scanned nat :=
  '(high, index) ← code_unit index;
  if is_high high then
    if slice index (index + 2) != [0x5c; 0x75] then error index "unpaired high surrogate"
    else
      '(low, index) ← code_unit (S index);
      if negb (is_low low) then error index "unpaired high surrogate" else Ok index
  else if is_low high then error index "unpaired low surrogate"
  else Ok index.

(** The loop of [string]; the token starts at [start]. *)
Fixpoint string_loop (fuel start index : nat) : scanned (list Z * nat) :=
  match fuel with
  | O => Err OutOfFuel
  | S fuel =>
      match byte index with
      | None => error index "unterminated string"
      | Some b =>
          if b =? 0x22 then
            match decode (slice start (S index)) with
            | Some key => Ok (key, S index)
            | None => error (S index) "invalid JSON string"
            end
          else if b <? 0x20 then error index "unescaped control character in string"
          else if negb (b =? 0x5c) then string_loop fuel start (S index)
          else
            let index := S index in
            match byte index with
            | Some c =>
                if simple_escape c then string_loop fuel start (S index)
                else if c =? 0x75 then
                  index ← unicode_escape index;
                  string_loop fuel start index
                else error index "invalid string escape"
            | None => error index "invalid string escape"
            end
      end
  end.

Definition string (index : nat) : scanned (list Z * nat) :=
  string_loop (S (length source)) index (S index).

(** [value], and the loops of [object] and [array] after their first bracket. *)
Fixpoint value (fuel depth index : nat) : scanned nat :=
  match fuel with
  | O => Err OutOfFuel
  | S fuel =>
      let index := whitespace index in
      match byte index with
      | Some c =>
          if c =? 0x7b then
            _ ← check_depth (S depth) index;
            let index := whitespace (S index) in
            if byte index == Some 0x7d then Ok (S index) else members fuel (S depth) ∅ index
          else if c =? 0x5b then
            _ ← check_depth (S depth) index;
            let index := whitespace (S index) in
            if byte index == Some 0x5d then Ok (S index) else elements fuel (S depth) index
          else if c =? 0x22 then
            '(_, index) ← string index; Ok index
          else if c =? 0x74 then literal lit_true index
          else if c =? 0x66 then literal lit_false index
          else if c =? 0x6e then literal lit_null index
          else if is_ascii_digit c then number index
          else error index "invalid value"
      | None => error index "invalid value"
      end
  end
with members (fuel depth : nat) (keys : gset (list Z)) (index : nat) : scanned nat :=
  match fuel with
  | O => Err OutOfFuel
  | S fuel =>
      let index := whitespace index in
      if byte index != Some 0x22 then error index "object key must be a string"
      else
        '(key, index) ← string index;
        if bool_decide (key ∈ keys) then Err (At index (DuplicateKey key))
        else
          let index := whitespace index in
          if byte index != Some 0x3a then error index "expected colon after object key"
          else
            index ← value fuel depth (S index);
            let index := whitespace index in
            if byte index == Some 0x7d then Ok (S index)
            else if byte index != Some 0x2c then error index "expected comma between object fields"
            else members fuel depth ({[key]} ∪ keys) (S index)
  end
with elements (fuel depth index : nat) : scanned nat :=
  match fuel with
  | O => Err OutOfFuel
  | S fuel =>
      index ← value fuel depth index;
      let index := whitespace index in
      if byte index == Some 0x5d then Ok (S index)
      else if byte index != Some 0x2c then error index "expected comma between array items"
      else elements fuel depth (S index)
  end.

(** Twice the length of the source and a little more is enough fuel. *)
Definition scan_fuel : nat := (2 * length source + 4)%nat.

(** The scan of [parse]: the index after the text and the whitespace around it. *)
Definition scan : scanned nat :=
  index ← value scan_fuel 0 (whitespace 0);
  Ok (whitespace index).
End scanner.

Inductive ParseError : Type :=
  | TooLarge (max_bytes : nat) | Bom | NotUtf8 | Scan (failure : Failure) | TrailingData
  | InvalidTyped (message : String.string).

Definition parse {A} (decode : list Z → option (list Z)) (typed : list Z → result String.string A)
    (bytes : list Z) (max_bytes : nat) : result ParseError A :=
  if (max_bytes <? length bytes)%nat then Err (TooLarge max_bytes)
  else if starts_with [0xef; 0xbb; 0xbf] bytes then Err Bom
  else match from_utf8 bytes with
       | Utf8Ok _ =>
           match scan bytes decode with
           | Err failure => Err (Scan failure)
           | Ok index =>
               if negb (index =? length bytes)%nat then Err TrailingData
               else match typed bytes with Ok a => Ok a | Err e => Err (InvalidTyped e) end
           end
       | _ => Err NotUtf8
       end.

(** ** The grammar *)

Definition spaces (w : list Z) : Prop := Forall (λ c, is_space c = true) w.

(** A [\u] escape of four hexadecimal digits with this value. *)
Definition unit_escape (u : Z) (t : list Z) : Prop :=
  ∃ hex, t = 0x5c :: 0x75 :: hex ∧ length hex = 4%nat
    ∧ Forall (λ c, is_ascii_hexdigit c = true) hex ∧ u = hex_value hex.

(** The characters between the quotes of a string. *)
Inductive Chars : list Z → Prop :=
  | chars_nil : Chars []
  | chars_plain c l : 0x20 <= c → c ≠ 0x22 → c ≠ 0x5c → Chars l → Chars (c :: l)
  | chars_escape c l : simple_escape c = true → Chars l → Chars (0x5c :: c :: l)
  | chars_unit u t l :
      unit_escape u t → is_high u = false → is_low u = false → Chars l → Chars (t ++ l)
  | chars_pair u t u' t' l :
      unit_escape u t → is_high u = true → unit_escape u' t' → is_low u' = true →
      Chars l → Chars (t ++ t' ++ l).

(** A string token with its decoded text. *)
Definition StringToken (decode : list Z → option (list Z)) (key t : list Z) : Prop :=
  ∃ body, t = 0x22 :: body ++ [0x22] ∧ Chars body ∧ decode t = Some key.

(** A number: digits without a leading zero, within the safe range. *)
Definition NumberToken (t : list Z) : Prop :=
  Forall (λ c, is_ascii_digit c = true) t ∧ (t = [0x30] ∨ ∃ c l, t = c :: l ∧ c ≠ 0x30)
  ∧ digits_value 0 t <= max_safe.

(** Values at a nesting depth, the items of an array and the fields of an object
    (with their keys, in order) up to the closing bracket. *)
Inductive Value (decode : list Z → option (list Z)) : nat → list Z → Prop :=
  | value_literal d t : t ∈ [lit_true; lit_false; lit_null] → Value decode d t
  | value_number d t : NumberToken t → Value decode d t
  | value_string d key t : StringToken decode key t → Value decode d t
  | value_array_nil d w : (d < MAX_DEPTH)%nat → spaces w → Value decode d (0x5b :: w ++ [0x5d])
  | value_array d l :
      (d < MAX_DEPTH)%nat → Elements decode (S d) l → Value decode d (0x5b :: l ++ [0x5d])
  | value_object_nil d w : (d < MAX_DEPTH)%nat → spaces w → Value decode d (0x7b :: w ++ [0x7d])
  | value_object d keys l :
      (d < MAX_DEPTH)%nat → NoDup keys → Members decode (S d) keys l →
      Value decode d (0x7b :: l ++ [0x7d])
with Elements (decode : list Z → option (list Z)) : nat → list Z → Prop :=
  | elements_last d w t w' : spaces w → Value decode d t → spaces w' → Elements decode d (w ++ t ++ w')
  | elements_more d w t w' l :
      spaces w → Value decode d t → spaces w' → Elements decode d l →
      Elements decode d (w ++ t ++ w' ++ 0x2c :: l)
with Members (decode : list Z → option (list Z)) : nat → list (list Z) → list Z → Prop :=
  | members_last d key w k w1 w2 t w3 :
      spaces w → StringToken decode key k → spaces w1 → spaces w2 → Value decode d t → spaces w3 →
      Members decode d [key] (w ++ k ++ w1 ++ 0x3a :: w2 ++ t ++ w3)
  | members_more d key keys w k w1 w2 t w3 l :
      spaces w → StringToken decode key k → spaces w1 → spaces w2 → Value decode d t → spaces w3 →
      Members decode d keys l →
      Members decode d (key :: keys) (w ++ k ++ w1 ++ 0x3a :: w2 ++ t ++ w3 ++ 0x2c :: l).

(** A text: one value with white space around it. *)
Definition Document (decode : list Z → option (list Z)) (s : list Z) : Prop :=
  ∃ w t w', s = w ++ t ++ w' ∧ spaces w ∧ Value decode 0 t ∧ spaces w'.

Scheme Value_mut := Minimality for Value Sort Prop
  with Elements_mut := Minimality for Elements Sort Prop
  with Members_mut := Minimality for Members Sort Prop.
Combined Scheme json_ind from Value_mut, Elements_mut, Members_mut.

(** ** Positions *)

Section positions.
Context (source : list Z) (decode : list Z → option (list Z)).
#[local] Abbreviation byte := (byte source).
#[local] Abbreviation slice := (slice source).

(** The text [t] lies in the source from index [i] to index [j]. *)
Definition spans (i : nat) (t : list Z) (j : nat) : Prop :=
  drop i source = t ++ drop j source ∧ j = (i + length t)%nat.

Lemma spans_nil i : spans i [] i.
Proof. split; simpl; [done|lia]. Qed.
Lemma spans_app i t j t' k : spans i t j → spans j t' k → spans i (t ++ t') k.
Proof.
  intros [H1 ->] [H2 ->]. split; [by rewrite H1, H2, <- app_assoc|]. rewrite length_app. lia.
Qed.
Lemma spans_app_inv i t t' k : spans i (t ++ t') k → ∃ j, spans i t j ∧ spans j t' k.
Proof.
  intros [H ->]. rewrite <- app_assoc in H. exists (i + length t)%nat.
  assert (Hd : drop (i + length t) source = t' ++ drop (i + length (t ++ t')) source).
  { by rewrite <- drop_drop, H, drop_app_length. }
  split; (split; [|rewrite ?length_app; lia]); [by rewrite H, Hd|done].
Qed.
Lemma spans_byte i c : byte i = Some c → spans i [c] (S i).
Proof. intros H. split; [by apply drop_S|simpl; lia]. Qed.
Lemma byte_spans i c t j : spans i (c :: t) j → byte i = Some c ∧ spans (S i) t j.
Proof.
  intros [H ->]. unfold StrictJson.byte. pose proof (f_equal (λ l, l !! 0%nat) H) as Hb.
  simpl in Hb. rewrite lookup_drop, Nat.add_0_r in Hb. split; [done|].
  apply drop_S in Hb. rewrite Hb in H. split; [by injection H|simpl; lia].
Qed.
Lemma spans_slice i t j : spans i t j → slice i j = t.
Proof.
  intros [H ->]. unfold StrictJson.slice. rewrite H.
  replace (i + length t - i)%nat with (length t) by lia. apply take_app_length.
Qed.
Lemma slice_spans i t n : length t = n → slice i (i + n) = t → spans i t (i + n).
Proof.
  unfold StrictJson.slice. intros <- H. replace (i + length t - i)%nat with (length t) in H by lia.
  split; [|done]. rewrite <- (take_drop (length t) (drop i source)) at 1. by rewrite H, drop_drop.
Qed.
Lemma spans_length i t j : spans i t j → t ≠ [] → (i < j <= length source)%nat.
Proof.
  intros [H ->] Ht. apply (f_equal length) in H. rewrite length_app, !length_drop in H.
  destruct t; [done|]. simpl in *. lia.
Qed.

Lemma count_while_spec p l : ∃ w r, l = w ++ r ∧ Forall (λ c, p c = true) w
  ∧ count_while p l = length w ∧ is_some_and (head r) p = false.
Proof.
  induction l as [|c l (w & r & -> & Hw & Hc & Hr)]; simpl; [by exists [], []|].
  destruct (p c) eqn:E; [|by exists [], (c :: w ++ r)].
  exists (c :: w), r. rewrite Hc. split; [done|]. split; [by constructor|done].
Qed.
Lemma head_drop i : head (drop i source) = byte i.
Proof.
  unfold StrictJson.byte. rewrite <- (Nat.add_0_r i) at 2. rewrite <- lookup_drop.
  by destruct (drop i source).
Qed.
Lemma scan_while_spans p i : ∃ w, spans i w (scan_while source p i)
  ∧ Forall (λ c, p c = true) w ∧ is_some_and (byte (scan_while source p i)) p = false.
Proof.
  unfold scan_while. destruct (count_while_spec p (drop i source)) as (w & r & Hd & Hw & -> & Hr).
  exists w. assert (Hj : drop (i + length w) source = r) by by rewrite <- drop_drop, Hd, drop_app_length.
  split; [split; [by rewrite Hj|done]|]. split; [done|]. by rewrite <- head_drop, Hj.
Qed.
(** The skipped text is the longest of its class. *)
Lemma spans_scan_while p i w j :
  spans i w j → Forall (λ c, p c = true) w → is_some_and (byte j) p = false →
  scan_while source p i = j.
Proof.
  unfold scan_while. intros [H ->] Hw. rewrite <- head_drop, H.
  generalize (drop (i + length w) source). intros r Hr. f_equal. clear H.
  induction Hw as [|c w Hc _ IH]; simpl; [|by rewrite Hc, IH].
  destruct r as [|c r]; simpl in *; [done|by rewrite Hr].
Qed.
Lemma whitespace_spans i : ∃ w, spans i w (whitespace source i) ∧ spaces w.
Proof. destruct (scan_while_spans is_space i) as (w & H & Hw & _). by exists w. Qed.
Lemma spans_whitespace i w j c :
  spans i w j → spaces w → byte j = Some c → is_space c = false → whitespace source i = j.
Proof. intros H Hw Hc Hs. eapply spans_scan_while; [done..|]. by rewrite Hc. Qed.
End positions.

(** ** Tokens *)

Section tokens.
Context (source : list Z) (decode : list Z → option (list Z)).
#[local] Abbreviation byte := (byte source).
#[local] Abbreviation spans := (spans source).

Lemma literal_spans t i j : literal source t i = Ok j ↔ spans i t j.
Proof.
  unfold literal. split.
  - intros H. destruct (_ == t) eqn:E; [|done]. apply eqb_elim in E. injection H as <-.
    by apply slice_spans.
  - intros H. pose proof (spans_slice _ _ _ _ H) as Hs. destruct H as [_ ->].
    by rewrite Hs, eqb_refl.
Qed.

Lemma code_unit_spans i u j :
  byte i = Some 0x75 → code_unit source i = Ok (u, j) ↔
  ∃ hex, spans (S i) hex j ∧ length hex = 4%nat ∧ u = hex_value hex
    ∧ Forall (λ c, is_ascii_hexdigit c = true) hex.
Proof.
  intros Hi. unfold code_unit. set (hex := slice source (S i) (S i + 4)).
  destruct (_ || _) eqn:E; split.
  - done.
  - intros (h & Hs & Hl & _ & Hh). exfalso. pose proof (spans_slice _ _ _ _ Hs) as Hx.
    destruct Hs as [_ ->]. rewrite Hl in Hx. fold hex in Hx. rewrite Hx, Hl in E. simpl in E.
    rewrite (proj2 (forallb_forall _ _)) in E; [done|]. by apply List.Forall_forall.
  - intros [= <- <-]. apply orb_false_iff in E as [El%negb_false_iff%Nat.eqb_eq Eh%negb_false_iff].
    exists hex. split; [by apply (slice_spans source (S i) hex 4)|]. repeat split; [done|].
    by apply List.Forall_forall, forallb_forall.
  - intros (h & Hs & Hl & -> & _). pose proof (spans_slice _ _ _ _ Hs) as Hx.
    destruct Hs as [_ ->]. rewrite Hl in *. fold hex in Hx. by rewrite Hx.
Qed.

Lemma code_unit_escape i u j :
  byte i = Some 0x5c → byte (S i) = Some 0x75 → code_unit source (S i) = Ok (u, j) ↔
  ∃ t, unit_escape u t ∧ spans i t j.
Proof.
  intros H1 H2. rewrite code_unit_spans by done. split.
  - intros (hex & Hs & Hl & -> & Hh). exists (0x5c :: 0x75 :: hex). split; [by exists hex|].
    by eapply (spans_app _ i [_] _ (_ :: _)), (spans_app _ _ [_]); [apply spans_byte..|].
  - intros (t & (hex & -> & Hl & Hh & ->) & Hs). exists hex.
    apply byte_spans in Hs as [_ Hs]. by apply byte_spans in Hs as [_ Hs].
Qed.

(** What [unicode_escape] consumes, with the backslash before it. *)
Lemma unicode_escape_spans i j :
  byte i = Some 0x5c → byte (S i) = Some 0x75 → unicode_escape source (S i) = Ok j ↔
  ∃ u t, unit_escape u t ∧
    ((is_high u = false ∧ is_low u = false ∧ spans i t j)
     ∨ ∃ u' t', is_high u = true ∧ unit_escape u' t' ∧ is_low u' = true ∧ spans i (t ++ t') j).
Proof.
  intros H1 H2. unfold unicode_escape. split.
  - intros ([u k] & Hu & H)%result_bind_Ok.
    apply code_unit_escape in Hu as (t & Ht & Hs); [|done..]. exists u, t. split; [done|].
    destruct (is_high u) eqn:Eh.
    + right. destruct (_ != _) eqn:E; [done|]. apply neqb_elim, slice_spans in E; [|done].
      apply byte_spans in E as [Hb1 E]. apply byte_spans in E as [Hb2 _].
      apply result_bind_Ok in H as ([u' k'] & Hu' & H).
      apply code_unit_escape in Hu' as (t' & Ht' & Hs'); [|done..].
      destruct (is_low u') eqn:El; [|done]. injection H as <-. exists u', t'.
      repeat split; try done; by eapply spans_app.
    + left. destruct (is_low u) eqn:El; [done|]. by injection H as <-.
  - intros (u & t & Ht & [(Eh & El & Hs)|(u' & t' & Eh & Ht' & El & Hs)]).
    + rewrite (proj2 (code_unit_escape i u j H1 H2)) by eauto. simpl. by rewrite Eh, El.
    + apply spans_app_inv in Hs as (k & Hs & Hs').
      rewrite (proj2 (code_unit_escape i u k H1 H2)) by eauto. simpl. rewrite Eh.
      assert (Hp : spans k [0x5c; 0x75] (k + 2) ∧ byte k = Some 0x5c ∧ byte (S k) = Some 0x75).
      { destruct Ht' as (hex & -> & _). apply (spans_app_inv _ _ [_; _]) in Hs' as (m & Hm & _).
        assert (m = k + 2)%nat as -> by apply Hm. split; [done|].
        apply byte_spans in Hm as [? Hm]. by apply byte_spans in Hm as [? _]. }
      destruct Hp as (Hp & Hk1 & Hk2).
      rewrite (spans_slice _ _ _ _ Hp), eqb_refl. cbn [negb].
      rewrite (proj2 (code_unit_escape k u' j Hk1 Hk2)) by eauto. simpl. by rewrite El.
Qed.
End tokens.

(** ** Strings and numbers *)

Section strings.
Context (source : list Z) (decode : list Z → option (list Z)).
#[local] Abbreviation byte := (byte source).
#[local] Abbreviation spans := (spans source).
#[local] Abbreviation string_loop := (string_loop source decode).

Lemma string_loop_sound fuel start i key j :
  string_loop fuel start i = Ok (key, j) →
  ∃ body, Chars body ∧ spans i (body ++ [0x22]) j ∧ decode (slice source start j) = Some key.
Proof.
  revert i. induction fuel as [|fuel IH]; intros i; simpl; [done|].
  destruct (byte i) as [b|] eqn:Hb; [|done]. pose proof (spans_byte _ _ _ Hb) as Hs.
  destruct (b =? 0x22) eqn:Eq.
  { apply Z.eqb_eq in Eq as ->. destruct (decode (slice source start (S i))) as [k|] eqn:Hk; [|done].
    intros [= <- <-]. exists []. split; [constructor|]. split; [done|exact Hk]. }
  destruct (b <? 0x20) eqn:Ec; [done|]. destruct (b =? 0x5c) eqn:Ee; simpl.
  2: { intros (body & Hc & Hbody & Hd)%IH. exists (b :: body). to_prop.
       split; [by constructor|]. split; [by eapply (spans_app _ _ [b])|done]. }
  apply Z.eqb_eq in Ee as ->. destruct (byte (S i)) as [c|] eqn:Hc; [|done].
  pose proof (spans_byte _ _ _ Hc) as Hs'. destruct (simple_escape c) eqn:Es.
  { intros (body & Hch & Hbody & Hd)%IH. exists (0x5c :: c :: body). split; [by constructor|].
    split; [|done]. by eapply (spans_app _ _ [_] _ (_ :: _)), (spans_app _ _ [_]). }
  destruct (c =? 0x75) eqn:Eu; [|done]. apply Z.eqb_eq in Eu as ->.
  intros (k & Hu & (body & Hch & Hbody & Hd)%IH)%result_bind_Ok.
  apply unicode_escape_spans in Hu as (u & t & Ht & [(?&?&Ho)|(u'&t'&?&?&?&Ho)]); [..|done|done].
  - exists (t ++ body). split; [by eapply chars_unit|]. rewrite <- app_assoc.
    split; [by eapply spans_app|done].
  - exists (t ++ t' ++ body). split; [by eapply chars_pair|].
    rewrite !app_assoc, <- (app_assoc _ body). split; [by eapply spans_app|done].
Qed.

Lemma unit_escape_length u t : unit_escape u t → length t = 6%nat.
Proof. by intros (hex & -> & Hl & _); simpl; rewrite Hl. Qed.
Lemma unit_escape_bytes u t r i j :
  unit_escape u t → spans i (t ++ r) j → byte i = Some 0x5c ∧ byte (S i) = Some 0x75.
Proof.
  intros (hex & -> & _) Hs. apply byte_spans in Hs as [? Hs]. by apply byte_spans in Hs as [? _].
Qed.

Lemma string_loop_complete body fuel start i key j :
  Chars body → (length body < fuel)%nat → spans i (body ++ [0x22]) j →
  decode (slice source start j) = Some key → string_loop fuel start i = Ok (key, j).
Proof.
  intros H. revert fuel i.
  induction H as [|c l H1 H2 H3 _ IH|c l Hc _ IH|u t l Hu Eh El _ IH|u t u' t' l Hu Eh Hu' El _ IH];
    intros [|fuel] i Hf Hs Hd; simpl in Hf; try lia; simpl.
  - apply byte_spans in Hs as [-> Hs]. assert (j = S i) as -> by (destruct Hs; simpl in *; lia).
    simpl. by rewrite Hd.
  - apply byte_spans in Hs as [-> Hs]. rewrite (proj2 (Z.eqb_neq _ _) H2),
      (proj2 (Z.ltb_ge _ _) H1), (proj2 (Z.eqb_neq _ _) H3). simpl. apply IH; [lia|done..].
  - apply byte_spans in Hs as [-> Hs]. simpl. apply byte_spans in Hs as [-> Hs]. rewrite Hc.
    apply IH; [lia|done..].
  - pose proof (unit_escape_length _ _ Hu). rewrite <- app_assoc in Hs.
    destruct (unit_escape_bytes _ _ _ _ _ Hu Hs) as [H1 H2]. rewrite H1. simpl. rewrite H2. simpl.
    apply spans_app_inv in Hs as (k & Hk & Hs).
    rewrite (proj2 (unicode_escape_spans _ i k H1 H2)) by (exists u, t; split; [done|by left]). simpl.
    rewrite length_app in Hf. apply IH; [lia|done..].
  - pose proof (unit_escape_length _ _ Hu). rewrite <- !app_assoc in Hs.
    destruct (unit_escape_bytes _ _ _ _ _ Hu Hs) as [H1 H2]. rewrite H1. simpl. rewrite H2. simpl.
    rewrite app_assoc in Hs. apply spans_app_inv in Hs as (k & Hk & Hs).
    rewrite (proj2 (unicode_escape_spans _ i k H1 H2)) by (exists u, t; split; [done|right; by exists u', t']). simpl.
    rewrite length_app in Hf. apply IH; [rewrite length_app in Hf; lia|done..].
Qed.

Lemma code_unit_fuel i : code_unit source i ≠ Err OutOfFuel.
Proof. unfold code_unit. by destruct (_ || _). Qed.
Lemma unicode_escape_fuel i : unicode_escape source i ≠ Err OutOfFuel.
Proof.
  unfold unicode_escape. pose proof (code_unit_fuel i).
  destruct (code_unit source i) as [[u k]|]; simpl; [|congruence].
  destruct (is_high u); [|by destruct (is_low u)]. destruct (_ != _); [done|].
  pose proof (code_unit_fuel (S k)). destruct (code_unit source (S k)) as [[u' k']|]; simpl; [|congruence].
  by destruct (negb _).
Qed.
Lemma byte_lt i b : byte i = Some b → (i < length source)%nat.
Proof. apply lookup_lt_Some. Qed.

Lemma string_loop_fuel fuel start i :
  (length source - i < fuel)%nat → string_loop fuel start i ≠ Err OutOfFuel.
Proof.
  revert i. induction fuel as [|fuel IH]; intros i Hf; [lia|]. simpl.
  destruct (byte i) as [b|] eqn:Hb; [|done]. apply byte_lt in Hb as Hi.
  destruct (b =? 0x22); [by destruct (decode _)|]. destruct (b <? 0x20); [done|].
  destruct (b =? 0x5c) eqn:Ee; simpl; [|apply IH; lia]. apply Z.eqb_eq in Ee as ->.
  destruct (byte (S i)) as [c|] eqn:Hc; [|done]. destruct (simple_escape c); [apply IH; lia|].
  destruct (c =? 0x75) eqn:Eu; [|done]. apply Z.eqb_eq in Eu as ->.
  pose proof (unicode_escape_fuel (S i)). destruct (unicode_escape source (S i)) as [k|] eqn:Ek; simpl;
    [|congruence].
  apply IH. assert (i < k)%nat; [|lia].
  apply unicode_escape_spans in Ek as (u & t & Ht%unit_escape_length & [(?&?&[_ ->])|(u'&t'&?&?&?&[_ ->])]);
    [..|done|done]; rewrite ?length_app; lia.
Qed.

Lemma string_spans i key j :
  byte i = Some 0x22 →
  string source decode i = Ok (key, j) ↔ ∃ t, StringToken decode key t ∧ spans i t j.
Proof.
  intros Hi. pose proof (spans_byte _ _ _ Hi) as H1. unfold string. split.
  - intros (body & Hc & Hs & Hd)%string_loop_sound.
    assert (Ht : spans i (0x22 :: body ++ [0x22]) j) by by eapply (spans_app _ _ [_]).
    exists (0x22 :: body ++ [0x22]). split; [|done]. exists body. rewrite (spans_slice _ _ _ _ Ht) in Hd.
    done.
  - intros (t & (body & -> & Hc & Hd) & Hs). pose proof (spans_slice _ _ _ _ Hs) as Hsl.
    rewrite <- Hsl in Hd. apply spans_length in Hs as Hl; [|done]. apply byte_spans in Hs as [_ Hs].
    eapply string_loop_complete; [done| |done|done]. destruct Hs as [_ ->].
    rewrite length_app in Hl. lia.
Qed.

Lemma delimits_not_digit c : delimits c = true → is_ascii_digit c = false.
Proof. unfold delimits, is_space, is_ascii_digit. to_prop. lia. Qed.

Lemma number_spans i c j :
  byte i = Some c → is_ascii_digit c = true →
  number source i = Ok j ↔
  ∃ t, NumberToken t ∧ spans i t j ∧ is_none_or (byte j) delimits = true.
Proof.
  intros Hi Hc. unfold number, NumberToken. rewrite Hi.
  set (k := if Some c == Some 0x30 then S i else scan_while source is_ascii_digit i).
  assert (Hk : ∃ t, spans i t k ∧ Forall (λ c, is_ascii_digit c = true) t ∧
    (t = [0x30] ∨ ∃ c l, t = c :: l ∧ c ≠ 0x30)).
  { unfold k. destruct (_ == _) eqn:E.
    - apply eqb_elim in E as [= ->]. exists [0x30]. split; [by apply spans_byte|]. split; [by constructor|by left].
    - destruct (scan_while_spans source is_ascii_digit i) as (w & Hw & Hd & Hend).
      exists w. split; [done|]. split; [done|]. right. destruct w as [|c' w].
      + destruct Hw as [_ Hw]. simpl in Hw. rewrite Nat.add_0_r in Hw. rewrite Hw, Hi in Hend. simpl in Hend.
        congruence.
      + exists c', w. split; [done|]. apply byte_spans in Hw as [Hb _]. rewrite Hi in Hb.
        injection Hb as <-. intros ->. by rewrite eqb_refl in E. }
  destruct Hk as (t & Ht & Hd & Hz). rewrite (spans_slice _ _ _ _ Ht).
  assert (Hlead : (1 <? length t)%nat && starts_with [0x30] t = false).
  { destruct Hz as [->|(c' & l & -> & Hc')]; [done|]. unfold starts_with, strip_prefix.
    rewrite (proj2 (Z.eqb_neq 0x30 c')) by done. apply andb_false_r. }
  rewrite Hlead, fold_digits_spec; [|by compute|by apply Forall_digits].
  split.
  - destruct (is_some_and (byte k) _) eqn:E; [done|].
    destruct (digits_value 0 t <=? u64_max); [|done].
    destruct (max_safe <? _) eqn:Em; [done|]. intros [= <-]. exists t.
    apply Z.ltb_ge in Em. split; [done|]. split; [done|]. destruct (byte k); [|done]. simpl in *.
    by apply negb_false_iff.
  - intros (t' & (Hd' & Hz' & Hm) & Ht' & Hend).
    assert (j = k) as ->.
    { unfold k. destruct (_ == _) eqn:E.
      - apply eqb_elim in E as [= ->]. destruct Hz' as [->|(c' & l & -> & Hc')].
        + destruct Ht' as [_ ->]. simpl. lia.
        + apply byte_spans in Ht' as [Hb _]. congruence.
      - symmetry. eapply spans_scan_while; [done..|]. destruct (byte j) as [b|]; [|done]. 
        by apply delimits_not_digit. }
    assert (t' = t) as -> by by rewrite <- (spans_slice _ _ _ _ Ht), (spans_slice _ _ _ _ Ht').
    assert (Hn : is_some_and (byte k) (λ c, negb (delimits c)) = false).
    { destruct (byte k); [|done]. simpl in *. by rewrite Hend. }
    rewrite Hn. unfold max_safe, u64_max in *. rewrite (proj2 (Z.leb_le _ _)) by lia.
    by rewrite (proj2 (Z.ltb_ge _ _)) by lia.
Qed.
End strings.

(** ** The scanner and the grammar *)

(** Equality of two concatenations up to their brackets. *)
Ltac reassoc := repeat progress (rewrite <- ?app_assoc; cbn [app]); reflexivity.

Section grammar.
Context (source : list Z) (decode : list Z → option (list Z)).
#[local] Abbreviation byte := (byte source).
#[local] Abbreviation spans := (spans source).
#[local] Abbreviation whitespace := (whitespace source).
#[local] Abbreviation value := (value source decode).
#[local] Abbreviation members := (members source decode).
#[local] Abbreviation elements := (elements source decode).

Lemma elements_eq fuel d i : elements (S fuel) d i =
  index ← value fuel d i;
  let index := whitespace index in
  if byte index == Some 0x5d then Ok (S index)
  else if byte index != Some 0x2c then error index "expected comma between array items"
  else elements fuel d (S index).
Proof. done. Qed.
Lemma members_eq fuel d keys i : members (S fuel) d keys i =
  let index := whitespace i in
  if byte index != Some 0x22 then error index "object key must be a string"
  else
    '(key, index) ← string source decode index;
    if bool_decide (key ∈ keys) then Err (At index (DuplicateKey key))
    else
      let index := whitespace index in
      if byte index != Some 0x3a then error index "expected colon after object key"
      else
        index ← value fuel d (S index);
        let index := whitespace index in
        if byte index == Some 0x7d then Ok (S index)
        else if byte index != Some 0x2c then error index "expected comma between object fields"
        else members fuel d ({[key]} ∪ keys) (S index).
Proof. done. Qed.

Lemma spaces_app w w' : spaces w → spaces w' → spaces (w ++ w').
Proof. apply Forall_app_2. Qed.
Lemma Elements_spaces d w l : spaces w → Elements decode d l → Elements decode d (w ++ l).
Proof. intros Hw. destruct 1; rewrite app_assoc; [apply elements_last|apply elements_more]; auto using spaces_app. Qed.
Lemma Members_spaces d keys w l :
  spaces w → Members decode d keys l → Members decode d keys (w ++ l).
Proof. intros Hw. destruct 1; rewrite app_assoc; [apply members_last|apply members_more]; auto using spaces_app. Qed.

Lemma check_depth_Ok d i u : check_depth (S d) i = Ok u ↔ (d < MAX_DEPTH)%nat.
Proof.
  unfold check_depth. destruct u, (MAX_DEPTH <? S d)%nat eqn:E.
  - apply Nat.ltb_lt in E. split; [done|lia].
  - apply Nat.ltb_ge in E. split; [lia|done].
Qed.
Lemma eqb_byte i c : (byte i == Some c) = true → spans i [c] (S i).
Proof. intros H%eqb_elim. by apply spans_byte. Qed.
Lemma neqb_byte i c : (byte i != Some c) = false → spans i [c] (S i).
Proof. intros H%neqb_elim. by apply spans_byte. Qed.

(** The white space and the separator or bracket after an item. *)
Lemma spans_tail i t j w c :
  spans i t j → spans j w (whitespace j) → spans (whitespace j) [c] (S (whitespace j)) →
  spans i (t ++ w ++ [c]) (S (whitespace j)).
Proof. intros. by eapply spans_app; [|eapply spans_app]. Qed.

Definition sound (fuel : nat) : Prop :=
  (∀ d i j, value fuel d i = Ok j → ∃ w t, spaces w ∧ Value decode d t ∧ spans i (w ++ t) j)
  ∧ (∀ d keys i j, members fuel d keys i = Ok j → ∃ ks l,
      Members decode d ks l ∧ NoDup ks ∧ (∀ k, k ∈ ks → k ∉ keys) ∧ spans i (l ++ [0x7d]) j)
  ∧ (∀ d i j, elements fuel d i = Ok j → ∃ l, Elements decode d l ∧ spans i (l ++ [0x5d]) j).

Lemma elements_sound fuel d i j : sound fuel → elements (S fuel) d i = Ok j →
  ∃ l, Elements decode d l ∧ spans i (l ++ [0x5d]) j.
Proof.
  intros (IHv & _ & IHe). rewrite elements_eq; cbv zeta. intros (k & Hk & H)%result_bind_Ok.
  apply IHv in Hk as (w & t & Hw & Ht & Hs). destruct (whitespace_spans source k) as (w' & Hs' & Hw').
  destruct (_ == Some 0x5d) eqn:E1.
  - injection H as <-. exists (w ++ t ++ w'). split; [by apply elements_last|].
    rewrite (app_assoc w), <- app_assoc. apply spans_tail; [done..|by apply eqb_byte].
  - destruct (_ != Some 0x2c) eqn:E2; [done|]. apply IHe in H as (l & Hl & H).
    exists (w ++ t ++ w' ++ 0x2c :: l). split; [by apply elements_more|].
    replace ((w ++ t ++ w' ++ 0x2c :: l) ++ [0x5d]) with (((w ++ t) ++ w' ++ [0x2c]) ++ l ++ [0x5d])
      by reassoc.
    eapply spans_app; [|exact H]. apply spans_tail; [done..|by apply neqb_byte].
Qed.

Lemma members_sound fuel d keys i j : sound fuel → members (S fuel) d keys i = Ok j →
  ∃ ks l, Members decode d ks l ∧ NoDup ks ∧ (∀ k, k ∈ ks → k ∉ keys) ∧ spans i (l ++ [0x7d]) j.
Proof.
  intros (IHv & IHm & _). rewrite members_eq; cbv zeta. destruct (whitespace_spans source i) as (w & Hs & Hw).
  destruct (_ != Some 0x22) eqn:Eq; [done|]. apply neqb_elim in Eq.
  intros ([key n] & Hn & H)%result_bind_Ok. apply string_spans in Hn as (tk & Htk & Hn); [|done].
  destruct (bool_decide _) eqn:Ek; [done|]. apply bool_decide_eq_false in Ek.
  destruct (whitespace_spans source n) as (w1 & Hs1 & Hw1).
  destruct (_ != Some 0x3a) eqn:Ec; [done|]. apply neqb_byte in Ec.
  apply result_bind_Ok in H as (m & (w2 & t & Hw2 & Ht & Hm)%IHv & H).
  destruct (whitespace_spans source m) as (w3 & Hs3 & Hw3).
  assert (Hall : spans i (w ++ tk ++ w1 ++ [0x3a] ++ w2 ++ t) m).
  { eapply spans_app; [done|]. eapply spans_app; [done|]. eapply spans_app; [done|].
    by eapply spans_app. }
  destruct (_ == Some 0x7d) eqn:E1.
  - injection H as <-. exists [key], (w ++ tk ++ w1 ++ 0x3a :: w2 ++ t ++ w3).
    split; [by apply members_last|]. split; [apply NoDup_singleton|].
    split; [intros k Hk%list_elem_of_singleton; by subst|].
    replace ((w ++ tk ++ w1 ++ 0x3a :: w2 ++ t ++ w3) ++ [0x7d])
      with ((w ++ tk ++ w1 ++ [0x3a] ++ w2 ++ t) ++ w3 ++ [0x7d]) by reassoc.
    apply spans_tail; [done..|by apply eqb_byte].
  - destruct (_ != Some 0x2c) eqn:E2; [done|]. apply IHm in H as (ks & l & Hl & Hnd & Hks & H).
    exists (key :: ks), (w ++ tk ++ w1 ++ 0x3a :: w2 ++ t ++ w3 ++ 0x2c :: l).
    split; [by apply members_more|].
    split; [apply NoDup_cons; split; [intros Hin; apply (Hks key Hin); set_solver|done]|].
    split; [intros k [->|Hk]%elem_of_cons; [done|]; specialize (Hks k Hk); set_solver|].
    replace ((w ++ tk ++ w1 ++ 0x3a :: w2 ++ t ++ w3 ++ 0x2c :: l) ++ [0x7d])
      with (((w ++ tk ++ w1 ++ [0x3a] ++ w2 ++ t) ++ w3 ++ [0x2c]) ++ l ++ [0x7d])
      by reassoc.
    eapply spans_app; [|exact H]. apply spans_tail; [done..|by apply neqb_byte].
Qed.

Lemma value_sound fuel d i j : sound fuel → value (S fuel) d i = Ok j →
  ∃ w t, spaces w ∧ Value decode d t ∧ spans i (w ++ t) j.
Proof.
  intros (_ & IHm & IHe) H. destruct (whitespace_spans source i) as (w & Hs & Hw). exists w.
  cut (∃ t, Value decode d t ∧ spans (whitespace i) t j).
  { intros (t & Ht & Hj). exists t. split; [done|]. split; [done|]. by eapply spans_app. }
  revert H. cbn [StrictJson.value]. generalize (whitespace i). clear i w Hs Hw. intros i.
  destruct (byte i) as [c|] eqn:Hc; [|done]. pose proof (spans_byte _ _ _ Hc) as Hb.
  destruct (whitespace_spans source (S i)) as (w & Hs & Hw).
  destruct (c =? 0x7b) eqn:E1; [apply Z.eqb_eq in E1 as ->|].
  { intros (u & Hd%check_depth_Ok & H)%result_bind_Ok. destruct (_ == _) eqn:E.
    - injection H as <-. exists (0x7b :: w ++ [0x7d]). split; [by apply value_object_nil|].
      eapply (spans_app _ _ [_]); [done|]. eapply spans_app; [done|]. by apply eqb_byte.
    - apply IHm in H as (ks & l & Hl & Hnd & _ & H). exists (0x7b :: (w ++ l) ++ [0x7d]).
      split; [by eapply value_object; [..|apply Members_spaces]|].
      eapply (spans_app _ _ [_]); [done|]. rewrite <- app_assoc. by eapply spans_app. }
  destruct (c =? 0x5b) eqn:E2; [apply Z.eqb_eq in E2 as ->|].
  { intros (u & Hd%check_depth_Ok & H)%result_bind_Ok. destruct (_ == _) eqn:E.
    - injection H as <-. exists (0x5b :: w ++ [0x5d]). split; [by apply value_array_nil|].
      eapply (spans_app _ _ [_]); [done|]. eapply spans_app; [done|]. by apply eqb_byte.
    - apply IHe in H as (l & Hl & H). exists (0x5b :: (w ++ l) ++ [0x5d]).
      split; [by eapply value_array; [|apply Elements_spaces]|].
      eapply (spans_app _ _ [_]); [done|]. rewrite <- app_assoc. by eapply spans_app. }
  destruct (c =? 0x22) eqn:E3; [apply Z.eqb_eq in E3 as ->|].
  { intros ([key k] & Hk & [= <-])%result_bind_Ok. apply string_spans in Hk as (t & Ht & Hk); [|done].
    exists t. split; [by eapply value_string|done]. }
  assert (Hlit : ∀ t, t ∈ [lit_true; lit_false; lit_null] → literal source t i = Ok j →
    ∃ t, Value decode d t ∧ spans i t j).
  { intros t Ht H%literal_spans. exists t. split; [by apply value_literal|done]. }
  destruct (c =? 0x74); [apply Hlit; set_solver|]. destruct (c =? 0x66); [apply Hlit; set_solver|].
  destruct (c =? 0x6e); [apply Hlit; set_solver|]. destruct (is_ascii_digit c) eqn:Ed; [|done].
  intros (t & Ht & H & _)%(number_spans _ _ _ _ Hc Ed). exists t. split; [by apply value_number|done].
Qed.

Lemma scanner_sound fuel : sound fuel.
Proof.
  induction fuel as [|fuel IH]; [done|].
  split; [|split]; intros; [by apply (value_sound fuel)|by apply (members_sound fuel)|by apply (elements_sound fuel)].
Qed.

(** *** Completeness *)

Lemma whitespace_idem i : whitespace (whitespace i) = whitespace i.
Proof.
  unfold StrictJson.whitespace. destruct (scan_while_spans source is_space i) as (w & _ & _ & H).
  by eapply spans_scan_while; [apply spans_nil|constructor|].
Qed.
Lemma value_whitespace fuel d i : value fuel d (whitespace i) = value fuel d i.
Proof. destruct fuel; [done|]. cbn [StrictJson.value]. by rewrite whitespace_idem. Qed.
Lemma elements_whitespace fuel d i : elements fuel d (whitespace i) = elements fuel d i.
Proof. destruct fuel; [done|]. by rewrite !elements_eq, value_whitespace. Qed.
Lemma members_whitespace fuel d keys i : members fuel d keys (whitespace i) = members fuel d keys i.
Proof. destruct fuel; [done|]. by rewrite !members_eq, whitespace_idem. Qed.

(** No token starts with white space or a closing bracket. *)
Lemma Value_head d t :
  Value decode d t → ∃ c l, t = c :: l ∧ is_space c = false ∧ c ≠ 0x5d ∧ c ≠ 0x7d ∧ c < 0x80.
Proof.
  destruct 1 as [d t Ht|d t (Hd & Hz & _)|d key t (body & -> & _)| | | |]; try by do 2 eexists.
  - repeat (apply elem_of_cons in Ht as [->|Ht]; [by do 2 eexists|]). by apply not_elem_of_nil in Ht.
  - destruct Hz as [->|(c & l & -> & _)]; [by do 2 eexists|]. exists c, l. split; [done|].
    apply Forall_digits in Hd. rewrite Forall_cons in Hd. destruct Hd as [Hc _].
    unfold is_space. repeat split; [|lia..]. to_prop. lia.
Qed.
Lemma spans_whitespace_value d i w t r j :
  Value decode d t → spaces w → spans i (w ++ t ++ r) j →
  ∃ k, whitespace i = k ∧ spans i w k ∧ spans k (t ++ r) j ∧ byte k ≠ Some 0x5d ∧ byte k ≠ Some 0x7d.
Proof.
  intros (c & l & -> & Hc & H1 & H2 & _)%Value_head Hw Hs. apply spans_app_inv in Hs as (k & Hk & Hs).
  exists k. pose proof (byte_spans _ _ _ _ _ Hs) as [Hb _]. rewrite Hb.
  split; [by eapply spans_whitespace|]. repeat split; try apply Hk; try apply Hs; congruence.
Qed.
(** What follows an item delimits a number. *)
Lemma spans_follow j w c r k :
  spaces w → delimits c = true → spans j (w ++ c :: r) k → is_none_or (byte j) delimits = true.
Proof.
  intros Hw Hc Hs. destruct w as [|s w]; apply byte_spans in Hs as [-> _]; simpl; [done|].
  apply Forall_cons_1 in Hw as [Hw _]. unfold delimits. by rewrite Hw.
Qed.

Definition value_complete (d : nat) (t : list Z) : Prop := ∀ fuel i j w,
  (2 * length t <= fuel)%nat → spaces w → spans i (w ++ t) j →
  is_none_or (byte j) delimits = true → value fuel d i = Ok j.
Definition elements_complete (d : nat) (l : list Z) : Prop := ∀ fuel i j,
  (2 * length l < fuel)%nat → spans i (l ++ [0x5d]) j → elements fuel d i = Ok j.
Definition members_complete (d : nat) (ks : list (list Z)) (l : list Z) : Prop :=
  ∀ fuel keys i j, (2 * length l < fuel)%nat → NoDup ks → (∀ k, k ∈ ks → k ∉ keys) →
  spans i (l ++ [0x7d]) j → members fuel d keys i = Ok j.

Lemma spans_start i w c t j :
  spaces w → is_space c = false → spans i (w ++ c :: t) j →
  ∃ k, whitespace i = k ∧ spans i w k ∧ byte k = Some c ∧ spans k (c :: t) j ∧ spans (S k) t j.
Proof.
  intros Hw Hc Hs. apply spans_app_inv in Hs as (k & Hk & Hs). exists k.
  pose proof (byte_spans _ _ _ _ _ Hs) as [Hb Ht]. split; [by eapply spans_whitespace|]. done.
Qed.
Lemma Elements_head d l : Elements decode d l → ∃ w t r, l = w ++ t ++ r ∧ spaces w ∧ Value decode d t.
Proof. destruct 1; by do 3 eexists. Qed.
Lemma Members_head d ks l : Members decode d ks l → ∃ w r, l = w ++ 0x22 :: r ∧ spaces w.
Proof.
  destruct 1 as [d key w k w1 w2 t w3 Hw (body & -> & _)|d key ks w k w1 w2 t w3 l Hw (body & -> & _)];
    by do 2 eexists.
Qed.

Lemma value_complete_array d l :
  (d < MAX_DEPTH)%nat → Elements decode (S d) l → elements_complete (S d) l →
  value_complete d (0x5b :: l ++ [0x5d]).
Proof.
  intros Hd Hl IH [|fuel] i j w Hf Hw Hs _; [simpl in Hf; lia|].
  apply spans_start in Hs as (k & Hk & _ & Hb & _ & Hs); [|done..].
  cbn [StrictJson.value]. rewrite Hk, Hb. cbn -[StrictJson.whitespace].
  rewrite (proj2 (check_depth_Ok d k tt)) by done. simpl.
  destruct (_ == _) eqn:E.
  - exfalso. apply Elements_head in Hl as (w' & t & r & -> & Hw' & Ht).
    rewrite <- !app_assoc in Hs. apply (spans_whitespace_value (S d)) in Hs as (k' & E' & _ & _ & Hn & _); [|done..].
    apply eqb_elim in E. congruence.
  - rewrite elements_whitespace. apply IH; [|done]. simpl in Hf. rewrite length_app in Hf. simpl in Hf. lia.
Qed.

Lemma value_complete_object d ks l :
  (d < MAX_DEPTH)%nat → NoDup ks → Members decode (S d) ks l → members_complete (S d) ks l →
  value_complete d (0x7b :: l ++ [0x7d]).
Proof.
  intros Hd Hks Hl IH [|fuel] i j w Hf Hw Hs _; [simpl in Hf; lia|].
  apply spans_start in Hs as (k & Hk & _ & Hb & _ & Hs); [|done..].
  cbn [StrictJson.value]. rewrite Hk, Hb. cbn -[StrictJson.whitespace].
  rewrite (proj2 (check_depth_Ok d k tt)) by done. simpl.
  destruct (_ == _) eqn:E.
  - exfalso. apply Members_head in Hl as (w' & r & -> & Hw').
    rewrite <- app_assoc in Hs. apply spans_start in Hs as (k' & <- & _ & Hb' & _); [|done..].
    apply eqb_elim in E. congruence.
  - rewrite members_whitespace. apply IH; [|done| |done].
    + simpl in Hf. rewrite length_app in Hf. simpl in Hf. lia.
    + intros key _. apply not_elem_of_empty.
Qed.

(** An empty array or object. *)
Lemma value_complete_nil d w0 c c' :
  (c = 0x5b ∧ c' = 0x5d ∨ c = 0x7b ∧ c' = 0x7d) → (d < MAX_DEPTH)%nat → spaces w0 →
  value_complete d (c :: w0 ++ [c']).
Proof.
  intros Hc Hd Hw0 [|fuel] i j w Hf Hw Hs _; [simpl in Hf; lia|].
  destruct Hc as [[-> ->]|[-> ->]]; apply spans_start in Hs as (k & Hk & _ & Hb & _ & Hs); try done;
    apply spans_start in Hs as (k' & Hk' & _ & Hb' & _ & Hs); try done;
    cbn [StrictJson.value]; rewrite Hk, Hb; cbn -[StrictJson.whitespace];
    rewrite (proj2 (check_depth_Ok d k tt)) by done; simpl; rewrite Hk', Hb', eqb_refl;
    destruct Hs as [_ ->]; simpl; f_equal; lia.
Qed.

Lemma value_complete_literal d t : t ∈ [lit_true; lit_false; lit_null] → value_complete d t.
Proof.
  intros Ht [|fuel] i j w Hf Hw Hs _.
  { repeat (apply elem_of_cons in Ht as [->|Ht]; [simpl in Hf; lia|]). by apply not_elem_of_nil in Ht. }
  repeat (apply elem_of_cons in Ht as [->|Ht];
    [apply spans_start in Hs as (k & Hk & _ & Hb & Hs & _); [|done..];
     cbn [StrictJson.value]; rewrite Hk, Hb; cbn -[StrictJson.whitespace literal]; by apply literal_spans|]).
  by apply not_elem_of_nil in Ht.
Qed.

Lemma value_complete_string d key t : StringToken decode key t → value_complete d t.
Proof.
  intros Ht [|fuel] i j w Hf Hw Hs _.
  { destruct Ht as (body & -> & _). simpl in Hf. lia. }
  pose proof Ht as (body & E & _). rewrite E in Hs.
  apply spans_start in Hs as (k & Hk & _ & Hb & Hs & _); [|done..]. rewrite <- E in Hs.
  cbn [StrictJson.value]. rewrite Hk, Hb. cbn -[StrictJson.whitespace StrictJson.string].
  by rewrite (proj2 (string_spans _ decode k key j Hb)) by eauto.
Qed.

Lemma value_complete_number d t : NumberToken t → value_complete d t.
Proof.
  intros Ht [|fuel] i j w Hf Hw Hs Hend.
  { destruct Ht as (_ & [->|(c & l & -> & _)] & _); simpl in Hf; lia. }
  assert (Hd : ∃ c l, t = c :: l ∧ is_ascii_digit c = true).
  { destruct Ht as (Hd & Hz & _). destruct t as [|c l]; [by destruct Hz as [?|(?&?&?&_)]|].
    exists c, l. split; [done|]. by rewrite Forall_cons in Hd; destruct Hd. }
  destruct Hd as (c & l & E & Hc). rewrite E in Hs. pose proof Hc as Hc'. apply between_true in Hc'.
  apply spans_start in Hs as (k & Hk & _ & Hb & Hs & _); [|done|by unfold is_space; to_prop; lia].
  rewrite <- E in Hs. cbn [StrictJson.value]. rewrite Hk, Hb.
  repeat (rewrite (proj2 (Z.eqb_neq c _)) by lia). rewrite Hc.
  apply (number_spans _ k c j Hb Hc). eauto.
Qed.

Lemma elements_complete_last d w t w' :
  spaces w → Value decode d t → value_complete d t → spaces w' →
  elements_complete d (w ++ t ++ w').
Proof.
  intros Hw Ht IH Hw' [|fuel] i j Hf Hs; [lia|]. rewrite !length_app in Hf.
  rewrite <- !app_assoc, app_assoc in Hs. apply spans_app_inv in Hs as (k & Hk & Hs).
  rewrite elements_eq; cbv zeta.
  rewrite (IH fuel i k w) by first [done|lia|by eapply (spans_follow _ w' 0x5d [])]. simpl.
  apply spans_start in Hs as (m & -> & _ & Hb & _ & Hs); [|done..].
  rewrite Hb, eqb_refl. destruct Hs as [_ ->]. simpl. f_equal. lia.
Qed.

Lemma elements_complete_more d w t w' l :
  spaces w → Value decode d t → value_complete d t → spaces w' → elements_complete d l →
  elements_complete d (w ++ t ++ w' ++ 0x2c :: l).
Proof.
  intros Hw Ht IH Hw' IHl [|fuel] i j Hf Hs; [lia|]. rewrite !length_app in Hf. simpl in Hf.
  replace ((w ++ t ++ w' ++ 0x2c :: l) ++ [0x5d]) with ((w ++ t) ++ w' ++ 0x2c :: l ++ [0x5d]) in Hs
    by reassoc.
  apply spans_app_inv in Hs as (k & Hk & Hs). rewrite elements_eq; cbv zeta.
  rewrite (IH fuel i k w) by first [done|lia|by eapply (spans_follow _ w' 0x2c)]. simpl.
  apply spans_start in Hs as (m & -> & _ & Hb & _ & Hs); [|done..].
  rewrite Hb. simpl. apply IHl; [lia|done].
Qed.

(** The field up to its value, common to the two cases of an object's loop. *)
Lemma members_field d fuel keys i k w key tk w1 w2 t r :
  spaces w → StringToken decode key tk → spaces w1 → spaces w2 → value_complete d t →
  (2 * length t <= fuel)%nat → key ∉ keys →
  (∃ c r' w3, r = w3 ++ c :: r' ∧ spaces w3 ∧ delimits c = true) →
  spans i (w ++ tk ++ w1 ++ 0x3a :: w2 ++ t ++ r) k → ∃ m, spans m r k ∧
  members (S fuel) d keys i =
    let index := whitespace m in
    if byte index == Some 0x7d then Ok (S index)
    else if byte index != Some 0x2c then error index "expected comma between object fields"
    else members fuel d ({[key]} ∪ keys) (S index).
Proof.
  intros Hw Htk Hw1 Hw2 IH Hf Hkey (c & r' & w3 & -> & Hw3 & Hc) Hs.
  pose proof Htk as (body & E & _). pose proof Hs as Hs'. rewrite E in Hs'.
  apply (spans_start i w 0x22) in Hs' as (a & Ha & Hwa & Hb & _ & _); [|done..].
  apply spans_app_inv in Hs as (a' & [_ Ea'] & Hs). assert (a' = a) as -> by (destruct Hwa; congruence).
  apply spans_app_inv in Hs as (b & Hab & Hs).
  apply spans_start in Hs as (n & Hn & _ & Hbn & _ & Hs); [|done..].
  rewrite app_assoc in Hs. apply spans_app_inv in Hs as (m & Hm & Hs). exists m. split; [done|].
  rewrite members_eq; cbv zeta. rewrite Ha, Hb. cbn -[StrictJson.whitespace StrictJson.string].
  rewrite (proj2 (string_spans _ decode a key b Hb)) by eauto. cbn -[StrictJson.whitespace].
  rewrite bool_decide_eq_false_2 by done. rewrite Hn, Hbn. cbn -[StrictJson.whitespace].
  rewrite (IH fuel (S n) m w2) by first [done|by eapply (spans_follow _ w3 c)]. done.
Qed.

Lemma members_complete_last d key w k w1 w2 t w3 :
  spaces w → StringToken decode key k → spaces w1 → spaces w2 → value_complete d t → spaces w3 →
  members_complete d [key] (w ++ k ++ w1 ++ 0x3a :: w2 ++ t ++ w3).
Proof.
  intros Hw Hk Hw1 Hw2 IH Hw3 [|fuel] keys i j Hf _ Hkeys Hs; [lia|].
  replace ((w ++ k ++ w1 ++ 0x3a :: w2 ++ t ++ w3) ++ [0x7d])
    with (w ++ k ++ w1 ++ 0x3a :: w2 ++ t ++ (w3 ++ [0x7d])) in Hs by reassoc.
  repeat (rewrite ?length_app in Hf; simpl in Hf).
  destruct (members_field d fuel keys i j w key k w1 w2 t (w3 ++ [0x7d])) as (m & Hm & ->);
    [done..|lia|apply Hkeys, list_elem_of_singleton; done|by exists 0x7d, [], w3|done|].
  apply spans_start in Hm as (n & -> & _ & Hb & _ & Hs'); [|done..].
  cbv zeta. rewrite Hb, eqb_refl. destruct Hs' as [_ ->]. simpl. f_equal. lia.
Qed.

Lemma members_complete_more d key ks w k w1 w2 t w3 l :
  spaces w → StringToken decode key k → spaces w1 → spaces w2 → value_complete d t → spaces w3 →
  members_complete d ks l →
  members_complete d (key :: ks) (w ++ k ++ w1 ++ 0x3a :: w2 ++ t ++ w3 ++ 0x2c :: l).
Proof.
  intros Hw Hk Hw1 Hw2 IH Hw3 IHl [|fuel] keys i j Hf [Hn Hnd]%NoDup_cons Hkeys Hs; [lia|].
  replace ((w ++ k ++ w1 ++ 0x3a :: w2 ++ t ++ w3 ++ 0x2c :: l) ++ [0x7d])
    with (w ++ k ++ w1 ++ 0x3a :: w2 ++ t ++ (w3 ++ 0x2c :: l ++ [0x7d])) in Hs by reassoc.
  repeat (rewrite ?length_app in Hf; simpl in Hf).
  destruct (members_field d fuel keys i j w key k w1 w2 t (w3 ++ 0x2c :: l ++ [0x7d])) as (m & Hm & ->);
    [done..|lia|apply Hkeys; by left|by exists 0x2c, (l ++ [0x7d]), w3|done|].
  apply spans_start in Hm as (n & -> & _ & Hb & _ & Hs'); [|done..].
  cbv zeta. rewrite Hb. simpl. apply IHl; [lia|done| |done].
  intros key' Hin. apply not_elem_of_union. split.
  - intros ->%elem_of_singleton. done.
  - apply Hkeys. by right.
Qed.

Lemma scanner_complete :
  (∀ d t, Value decode d t → value_complete d t)
  ∧ (∀ d l, Elements decode d l → elements_complete d l)
  ∧ (∀ d ks l, Members decode d ks l → members_complete d ks l).
Proof.
  apply (json_ind decode value_complete elements_complete members_complete).
  - apply value_complete_literal.
  - apply value_complete_number.
  - apply value_complete_string.
  - intros. apply value_complete_nil; auto.
  - apply value_complete_array.
  - intros. apply value_complete_nil; auto.
  - apply value_complete_object.
  - intros. by apply elements_complete_last.
  - intros. by apply elements_complete_more.
  - intros. by apply members_complete_last.
  - intros. by apply members_complete_more.
Qed.

(** *** Fuel *)

Lemma whitespace_ge i : (i <= whitespace i)%nat.
Proof. unfold StrictJson.whitespace, scan_while. lia. Qed.
Lemma string_fuel i : string source decode i ≠ Err OutOfFuel.
Proof. apply string_loop_fuel. lia. Qed.
Lemma value_advances fuel d i j : value fuel d i = Ok j → (i < j <= length source)%nat.
Proof.
  intros (w & t & _ & (c & l & -> & _)%Value_head & Hs)%(proj1 (scanner_sound fuel)).
  apply spans_length in Hs; [done|]. by destruct w.
Qed.

Definition enough (fuel : nat) : Prop :=
  (∀ d i, (2 * (length source - i) + 2 <= fuel)%nat → value fuel d i ≠ Err OutOfFuel)
  ∧ (∀ d keys i, (2 * (length source - i) + 3 <= fuel)%nat → members fuel d keys i ≠ Err OutOfFuel)
  ∧ (∀ d i, (2 * (length source - i) + 3 <= fuel)%nat → elements fuel d i ≠ Err OutOfFuel).

Lemma elements_enough fuel d i : enough fuel →
  (2 * (length source - i) + 3 <= S fuel)%nat → elements (S fuel) d i ≠ Err OutOfFuel.
Proof.
  intros (IHv & _ & IHe) Hf. rewrite elements_eq.
  destruct (value fuel d i) as [k|e] eqn:Ek; simpl; [|rewrite <- Ek; apply IHv; lia].
  apply value_advances in Ek. pose proof (whitespace_ge k).
  destruct (_ == _); [done|]. destruct (_ != _); [done|]. apply IHe. lia.
Qed.

Lemma members_enough fuel d keys i : enough fuel →
  (2 * (length source - i) + 3 <= S fuel)%nat → members (S fuel) d keys i ≠ Err OutOfFuel.
Proof.
  intros (IHv & IHm & _) Hf. rewrite members_eq. cbv zeta. pose proof (whitespace_ge i).
  destruct (_ != _) eqn:Eq; [done|]. apply neqb_elim in Eq.
  pose proof (string_fuel (whitespace i)) as Hs.
  destruct (string source decode (whitespace i)) as [[key n]|e] eqn:En; simpl; [|intros [= ->]; by apply Hs].
  clear Hs.
  apply string_spans in En as (t & (body & -> & _) & Hn); [|done]. apply spans_length in Hn; [|done].
  destruct (bool_decide _); [done|]. pose proof (whitespace_ge n).
  destruct (_ != _); [done|].
  destruct (value fuel d _) as [k|e] eqn:Ek; simpl; [|rewrite <- Ek; apply IHv; lia].
  apply value_advances in Ek. pose proof (whitespace_ge k).
  destruct (_ == _); [done|]. destruct (_ != _); [done|]. apply IHm. lia.
Qed.

Lemma value_enough fuel d i : enough fuel →
  (2 * (length source - i) + 2 <= S fuel)%nat → value (S fuel) d i ≠ Err OutOfFuel.
Proof.
  intros (_ & IHm & IHe) Hf. cbn [StrictJson.value]. pose proof (whitespace_ge i).
  destruct (byte (whitespace i)) as [c|] eqn:Hc; [|done]. apply byte_lt in Hc as Hlt.
  pose proof (whitespace_ge (S (whitespace i))).
  assert (Hlit : ∀ t k, literal source t k ≠ Err OutOfFuel).
  { intros t k. unfold literal. by destruct (_ == t). }
  destruct (c =? 0x7b).
  { unfold check_depth. destruct (_ <? _)%nat; simpl; [done|]. destruct (_ == _); [done|].
    apply IHm. lia. }
  destruct (c =? 0x5b).
  { unfold check_depth. destruct (_ <? _)%nat; simpl; [done|]. destruct (_ == _); [done|].
    apply IHe. lia. }
  destruct (c =? 0x22).
  { pose proof (string_fuel (whitespace i)) as Hs.
    destruct (string _ _ _) as [[key k]|e]; simpl; [done|intros [= ->]; by apply Hs]. }
  destruct (c =? 0x74); [apply Hlit|]. destruct (c =? 0x66); [apply Hlit|].
  destruct (c =? 0x6e); [apply Hlit|]. destruct (is_ascii_digit c); [|done].
  unfold number. by repeat (destruct (is_some_and _ _) || destruct (_ && _) || case_match).
Qed.

Lemma scanner_enough fuel : enough fuel.
Proof.
  induction fuel as [|fuel IH]; [split; [|split]; intros; lia|].
  split; [|split]; intros; [by apply value_enough|by apply members_enough|by apply elements_enough].
Qed.

(** The scan reaches the end exactly on a document. *)
Lemma scan_document : scan source decode = Ok (length source) ↔ Document decode source.
Proof.
  unfold scan. rewrite value_whitespace. split.
  - intros (k & (w & t & Hw & Ht & Hs)%(proj1 (scanner_sound _)) & [= Hk])%result_bind_Ok.
    destruct (whitespace_spans source k) as (w' & Hs' & Hw'). rewrite Hk in Hs'.
    exists w, t, w'. split; [|done]. rewrite app_assoc.
    destruct (spans_app _ _ _ _ _ _ Hs Hs') as [E _]. by rewrite drop_all, app_nil_r in E.
  - intros (w & t & w' & E & Hw & Ht & Hw').
    assert (Hs : spans 0 ((w ++ t) ++ w') (length source)).
    { split; [by rewrite drop_all, app_nil_r, <- app_assoc|]. simpl. by rewrite <- app_assoc, <- E. }
    apply spans_app_inv in Hs as (k & Hk & Hs).
    assert (Hend : byte (length source) = None) by by apply lookup_ge_None.
    rewrite (proj1 scanner_complete _ _ Ht _ 0%nat k w); [|..|done|done|].
    + simpl. f_equal. eapply spans_scan_while; [done..|by rewrite Hend].
    + unfold scan_fuel. apply (f_equal length) in E. rewrite !length_app in E. lia.
    + destruct w' as [|c w']; [destruct Hs as [_ Hl]|].
      * simpl in Hl. rewrite Nat.add_0_r in Hl. by rewrite <- Hl, Hend.
      * apply byte_spans in Hs as [-> _]. apply Forall_cons_1 in Hw' as [Hc _]. simpl. unfold delimits. by rewrite Hc.
Qed.
End grammar.

Lemma Document_no_bom decode s : Document decode s → starts_with [0xef; 0xbb; 0xbf] s = false.
Proof.
  intros (w & t & w' & -> & Hw & (c & l & -> & _ & _ & _ & Hc)%Value_head & _).
  destruct (starts_with _ _) eqn:E; [|done].
  unfold starts_with in E. apply is_some_true in E as [r E]. apply strip_prefix_Some in E.
  destruct w as [|s w]; simpl in E; injection E as E _; [lia|].
  apply Forall_cons_1 in Hw as [Hs _]. by subst.
Qed.

(** ** Properties *)

(** C30: the strict parser accepts exactly strict JSON.  [parse] succeeds if and
    only if the bytes are within the limit, are UTF-8, form one value of the
    grammar (nesting at most 32, no object with two equal decoded keys, no
    unpaired surrogate, numbers only as canonical integers up to 2^53-1), and the
    typed decoder accepts them; its result is then the decoder's.  A byte order
    mark is never part of such a text. *)
Theorem parse_exact {A} decode (typed : list Z → result String.string A) bytes max_bytes a :
  parse decode typed bytes max_bytes = Ok a ↔
  (length bytes <= max_bytes)%nat ∧ (∃ cs, from_utf8 bytes = Utf8Ok cs)
  ∧ Document decode bytes ∧ typed bytes = Ok a.
Proof.
  unfold parse. destruct (max_bytes <? length bytes)%nat eqn:El.
  { apply Nat.ltb_lt in El. split; [done|lia]. }
  apply Nat.ltb_ge in El. destruct (starts_with _ bytes) eqn:Eb.
  { split; [done|]. intros (_ & _ & Hd%Document_no_bom & _). congruence. }
  destruct (from_utf8 bytes) as [cs| |]; [|split; [done|by intros (_ & [? ?] & _)]..].
  destruct (scan bytes decode) as [k|e] eqn:Es.
  - destruct (k =? length bytes)%nat eqn:Ek; simpl.
    + apply Nat.eqb_eq in Ek as ->. apply scan_document in Es.
      destruct (typed bytes); split; [intros [= ->]; by eauto|by intros (_ & _ & _ & [= ->])|done|by intros (_ & _ & _ & ?)].
    + apply Nat.eqb_neq in Ek. split; [done|]. intros (_ & _ & Hd%scan_document & _). congruence.
  - split; [done|]. intros (_ & _ & Hd%scan_document & _). congruence.
Qed.

(** the scan always ends with an answer of the code.  The fuel is enough for
    every source, so [parse] never reports that it ran out. *)
Theorem parse_total {A} decode (typed : list Z → result String.string A) bytes max_bytes :
  parse decode typed bytes max_bytes ≠ Err (Scan OutOfFuel).
Proof.
  unfold parse. destruct (_ <? _)%nat; [done|]. destruct (starts_with _ _); [done|].
  destruct (from_utf8 _); try done. unfold scan.
  pose proof (proj1 (scanner_enough bytes decode (scan_fuel bytes)) 0%nat (whitespace bytes 0)) as H.
  destruct (value _ _ _ _ _) as [k|e]; simpl; [|unfold scan_fuel in H; intros [= ->]; apply H; [lia|done]].
  destruct (negb _); [done|]. by destruct (typed bytes).
Qed.

(** ** Runs on concrete texts

    A quote is written as an apostrophe; the decoder drops the quotes of a token. *)

Definition json (s : String.string) : list Z := (λ c, if c =? 39 then 34 else c) <$> bytes_of s.
Definition unquote (token : list Z) : option (list Z) := Some (removelast (tail token)).
Definition run_parse (s : String.string) : result ParseError (list Z) :=
  parse unquote Ok (json s) 64.

Example accepts_nested : is_ok (run_parse " {'a': [1, true, 'x\\u00e9'], 'b' : {'a': null}} ") = true.
Proof. vm_compute. reflexivity. Qed.
Example rejects_duplicate :
  run_parse "{'a':1,'b':2,'a':3}" = Err (Scan (At 16 (DuplicateKey (bytes_of "a")))).
Proof. vm_compute. reflexivity. Qed.
Example rejects_unsafe_integer : is_ok (run_parse "9007199254740991") = true
  ∧ run_parse "9007199254740992" = Err (Scan (At 16 (Text "integer exceeds safe range"))).
Proof. vm_compute. split; reflexivity. Qed.
Example rejects_lone_surrogate :
  run_parse "'\uD83D'" = Err (Scan (At 7 (Text "unpaired high surrogate")))
  ∧ is_ok (run_parse "'\uD83D\uDE00'") = true.
Proof. vm_compute. split; reflexivity. Qed.
Example rejects_deep :
  is_ok (parse unquote Ok (repeat 0x5b 32 ++ repeat 0x5d 32) 100) = true
  ∧ parse unquote (Ok (A := list Z)) (repeat 0x5b 33 ++ repeat 0x5d 33) 100
    = Err (Scan (At 32 (Text "JSON nesting exceeds 32 levels"))).
Proof. vm_compute. split; reflexivity. Qed.
