(* ===== verification/CompletionPacket.v ===== *)
(** * Completion packets

    [taskmaster/completion.rs]: the packet with which a session reports finished
    work, the readiness derived from its evidence, and its validation.

    Arguments that stand for other crates: [evidence_json] and [action_json],
    serde's JSON of the fingerprinted parts, and [sha256_hex]. *)
From S2P Require Export Utf8.

Definition COMPLETION_PACKET_SCHEMA_VERSION : Z := 1.
Definition COMPLETION_EVIDENCE_VERSION : Z := 1.
Definition MAX_PACKET_ID_CHARS : nat := 128.
Definition MAX_SCOPE_CHARS : nat := 512.
Definition MAX_PATHS : nat := 512.
Definition MAX_LINEAGE : nat := 16.
#[global] Arguments MAX_SCOPE_CHARS : simpl never.
#[global] Arguments MAX_PATHS : simpl never.

Definition valid_text (value : list Z) (max : nat) : bool :=
  negb (length value =? 0)%nat && (char_count value <=? max)%nat
  && forallb (λ ch, negb (is_control ch)) (chars_of value).
Definition valid_fingerprint (value : list Z) : bool :=
  (length value =? 64)%nat && forallb is_ascii_hexdigit value.

Inductive PacketAttribution : Type := Unambiguous | Inconclusive.
Inductive PacketReadiness : Type :=
  | VerificationNeeded | ReviewReady | FindingsNeedFix | ReadyForUserReview.
Inductive CompletionVerificationResult : Type := Passed | Failed | NotRun.
Inductive CompletionReviewOutcome : Type := NoFindings | Findings.
Inductive CompletionActionRole : Type := Review | Verification | Fix | UserReview.
Inductive CompletionEvidenceIssueKind : Type := Missing | Conflict.
#[export] Instance PacketAttribution_eq_dec : EqDecision PacketAttribution.
Proof. solve_decision. Defined.
#[export] Instance PacketReadiness_eq_dec : EqDecision PacketReadiness.
Proof. solve_decision. Defined.
#[export] Instance CompletionVerificationResult_eq_dec : EqDecision CompletionVerificationResult.
Proof. solve_decision. Defined.
#[export] Instance CompletionReviewOutcome_eq_dec : EqDecision CompletionReviewOutcome.
Proof. solve_decision. Defined.

Record CompletionEvidenceProvenance : Type := mkProvenance {
  prov_source_session_id : list Z;
  prov_workspace_id : list Z;
  workspace_snapshot_id : list Z;
  prov_observed_at : list Z;
}.
Record CompletionChangeSubject : Type := mkSubject {
  subject_workspace_id : list Z;
  subject_scope : list Z;
  snapshot_id : list Z;
  attribution : PacketAttribution;
  changed_paths : list (list Z);
}.
Record CompletionVerification : Type := mkVerification {
  command : list Z;
  verification_result : CompletionVerificationResult;
  verification_revision : list Z;
  verification_observed_at : list Z;
}.
Record CompletionReview : Type := mkReview {
  reviewer_session_id : list Z;
  reviewer_identity : list Z;
  independent : bool;
  outcome : CompletionReviewOutcome;
  review_revision : list Z;
  review_observed_at : list Z;
}.
Record CompletionEvidenceIssue : Type := mkIssue {
  issue_kind : CompletionEvidenceIssueKind;
  detail : list Z;
}.
Record CompletionAction : Type := mkAction {
  prompt : list Z;
  model : option (list Z);
  action_scope : list Z;
  role : CompletionActionRole;
}.
Record CompletionApproval : Type := mkApproval {
  approved_at : list Z;
  approver : list Z;
  approval_revision : Z;
  approval_evidence_fingerprint : list Z;
  approval_action_fingerprint : list Z;
  approval_idempotency_key : list Z;
}.
Record CompletionPacketLineage : Type := mkLineage {
  lineage_packet_id : list Z;
  lineage_revision : Z;
  lineage_fingerprint : list Z;
  superseded_at : list Z;
}.
Record CompletionPacket : Type := mkPacket {
  schema_version : Z;
  evidence_version : Z;
  packet_id : list Z;
  source_session_id : list Z;
  observed_at : list Z;
  provenance : CompletionEvidenceProvenance;
  subject : CompletionChangeSubject;
  verification : option CompletionVerification;
  review : option CompletionReview;
  missing_evidence : list CompletionEvidenceIssue;
  conflicting_evidence : list CompletionEvidenceIssue;
  action : CompletionAction;
  readiness : PacketReadiness;
  revision : Z;
  evidence_fingerprint : list Z;
  approval : option CompletionApproval;
  supersedes_packet_id : option (list Z);
  lineage : list CompletionPacketLineage;
  completion_idempotency_key : option (list Z);
}.

(** The borrowed struct [Evidence] whose JSON is fingerprinted. *)
Record Evidence : Type := mkEvidence {
  ev_version : Z;
  ev_source_session_id : list Z;
  ev_observed_at : list Z;
  ev_provenance : CompletionEvidenceProvenance;
  ev_subject : CompletionChangeSubject;
  ev_verification : option CompletionVerification;
  ev_review : option CompletionReview;
  ev_missing : list CompletionEvidenceIssue;
  ev_conflicting : list CompletionEvidenceIssue;
}.
Definition evidence_of (p : CompletionPacket) : Evidence :=
  mkEvidence (evidence_version p) (source_session_id p) (observed_at p) (provenance p) (subject p)
    (verification p) (review p) (missing_evidence p) (conflicting_evidence p).

Definition derived_readiness (p : CompletionPacket) : PacketReadiness :=
  if (attribution (subject p) == Inconclusive)
     || negb (length (missing_evidence p) =? 0)%nat
     || negb (length (conflicting_evidence p) =? 0)%nat
     || negb (is_some_and (verification p) (λ v,
          (verification_result v == Passed) && (verification_revision v == snapshot_id (subject p))))
  then VerificationNeeded
  else match review p with
       | None => ReviewReady
       | Some r =>
           if (outcome r == Findings) && (review_revision r == snapshot_id (subject p))
           then FindingsNeedFix
           else if (outcome r == NoFindings) && independent r
                   && (reviewer_session_id r != source_session_id p)
                   && (review_revision r == snapshot_id (subject p))
           then ReadyForUserReview
           else VerificationNeeded
       end.

(** The texts that are checked first, with their bounds. *)
Definition text_fields (p : CompletionPacket) : list (string * list Z * nat) :=
  [("packet_id", packet_id p, MAX_PACKET_ID_CHARS);
   ("source_session_id", source_session_id p, 256%nat);
   ("observed_at", observed_at p, 128%nat);
   ("provenance.source_session_id", prov_source_session_id (provenance p), 256%nat);
   ("provenance.workspace_id", prov_workspace_id (provenance p), 256%nat);
   ("provenance.workspace_snapshot_id", workspace_snapshot_id (provenance p), 256%nat);
   ("provenance.observed_at", prov_observed_at (provenance p), 128%nat);
   ("subject.workspace_id", subject_workspace_id (subject p), 256%nat);
   ("subject.scope", subject_scope (subject p), MAX_SCOPE_CHARS);
   ("subject.snapshot_id", snapshot_id (subject p), 256%nat);
   ("action.prompt", prompt (action p), Z.to_nat 8192);
   ("action.scope", action_scope (action p), MAX_SCOPE_CHARS)].

Abbreviation checked := (result string unit).
Definition reject (b : bool) (message : string) : checked := if b then Err message else Ok tt.

Fixpoint check_fields (fields : list (string * list Z * nat)) : checked :=
  match fields with
  | [] => Ok tt
  | (name, value, max) :: fields =>
      _ ← reject (negb (valid_text value max))
            (String.append (String.append "completion packet field " name) " is invalid");
      check_fields fields
  end.

Definition has_whitespace (value : list Z) : bool := existsb is_whitespace (chars_of value).

Definition check_verification (p : CompletionPacket) : checked :=
  match verification p with
  | Some v => reject (negb (valid_text (command v) (Z.to_nat 4096))
      || (verification_revision v != snapshot_id (subject p))
      || negb (valid_text (verification_observed_at v) 128))
      "completion packet verification evidence is invalid"
  | None => Ok tt
  end.
Definition check_review (p : CompletionPacket) : checked :=
  match review p with
  | Some r => reject (negb (valid_text (reviewer_session_id r) 256)
      || negb (valid_text (reviewer_identity r) 256)
      || (review_revision r != snapshot_id (subject p))
      || negb (valid_text (review_observed_at r) 128))
      "completion packet review evidence is invalid"
  | None => Ok tt
  end.

(** The loop over the lineage. *)
Fixpoint check_lineage (previous_revision : Z) (entries : list CompletionPacketLineage) : checked :=
  match entries with
  | [] => Ok tt
  | e :: entries =>
      _ ← reject (negb (valid_text (lineage_packet_id e) MAX_PACKET_ID_CHARS)
                  || (lineage_revision e =? 0) || (lineage_revision e <=? previous_revision)
                  || negb (valid_fingerprint (lineage_fingerprint e))
                  || negb (valid_text (superseded_at e) 128)) "completion packet lineage is invalid";
      check_lineage (lineage_revision e) entries
  end.

Section packet.
Context (evidence_json : Evidence → list Z) (action_json : CompletionAction → list Z).
Context (sha256_hex : list Z → list Z).

Definition computed_evidence_fingerprint (p : CompletionPacket) : list Z :=
  sha256_hex (evidence_json (evidence_of p)).
Definition action_fingerprint (p : CompletionPacket) : list Z := sha256_hex (action_json (action p)).

Definition check_approval (p : CompletionPacket) : checked :=
  match approval p with
  | Some a => reject (negb (approval_revision a =? revision p)
      || (approval_evidence_fingerprint a != evidence_fingerprint p)
      || (approval_action_fingerprint a != action_fingerprint p)
      || (length (approved_at a) =? 0)%nat
      || negb (valid_text (approved_at a) 128) || negb (valid_text (approver a) 256)
      || negb (valid_text (approval_idempotency_key a) 128)
      || has_whitespace (approval_idempotency_key a))
      "completion packet approval is stale or malformed"
  | None => Ok tt
  end.

Definition validate (p : CompletionPacket) (workspace_id : list Z) : checked :=
  _ ← reject (negb (schema_version p =? COMPLETION_PACKET_SCHEMA_VERSION))
        "unsupported completion packet schema version";
  _ ← reject (negb (evidence_version p =? COMPLETION_EVIDENCE_VERSION))
        "unsupported completion evidence version";
  _ ← check_fields (text_fields p);
  _ ← reject (is_some_and (model (action p)) (λ model, negb (valid_text model 256)))
        "completion packet action model is invalid";
  _ ← reject (source_session_id p != prov_source_session_id (provenance p))
        "completion packet provenance source session does not match";
  _ ← reject ((prov_workspace_id (provenance p) != workspace_id)
              || (subject_workspace_id (subject p) != workspace_id)
              || (workspace_snapshot_id (provenance p) != snapshot_id (subject p)))
        "completion packet is not scoped to this workspace snapshot";
  _ ← reject ((MAX_PATHS <? length (changed_paths (subject p)))%nat
              || existsb (λ path, negb (valid_text path (Z.to_nat 1024))) (changed_paths (subject p)))
        "completion packet changed paths are invalid";
  _ ← reject ((revision p =? 0) || (evidence_fingerprint p != computed_evidence_fingerprint p))
        "completion packet evidence fingerprint is invalid";
  _ ← reject (readiness p != derived_readiness p)
        "completion packet readiness is not derived from its evidence";
  _ ← check_verification p;
  _ ← check_review p;
  _ ← reject (is_some_and (supersedes_packet_id p)
                (λ id, negb (valid_text id MAX_PACKET_ID_CHARS) || (id == packet_id p)))
        "completion packet supersession identity is invalid";
  _ ← reject (MAX_LINEAGE <? length (lineage p))%nat "completion packet lineage is too long";
  _ ← check_lineage 0 (lineage p);
  _ ← reject (is_some_and (last (lineage p)) (λ e, revision p <=? lineage_revision e)
              || negb (Bool.eqb (is_some (supersedes_packet_id p)) (negb (length (lineage p) =? 0)%nat)))
        "completion packet supersession lineage is invalid";
  _ ← check_approval p;
  reject (is_some_and (completion_idempotency_key p)
            (λ key, negb (valid_text key 128) || has_whitespace key))
    "completion packet idempotency key is invalid".
End packet.

Record CompletionMutationRequest : Type := mkMutation {
  packet_revision : Z;
  mutation_fingerprint : list Z;
  mutation_idempotency_key : list Z;
}.
Definition validate_mutation (r : CompletionMutationRequest) : checked :=
  reject ((packet_revision r =? 0) || negb (valid_fingerprint (mutation_fingerprint r))
          || negb (valid_text (mutation_idempotency_key r) 128)
          || has_whitespace (mutation_idempotency_key r)) "completion mutation request is invalid".

(** ** Lemmas *)

Lemma packet_reject_Ok b message u : reject b message = Ok u ↔ b = false.
Proof. unfold reject. by destruct b, u. Qed.

(** The conditions of [validate] that the properties use. *)
Record valid (evidence_json : Evidence → list Z) (action_json : CompletionAction → list Z)
    (sha256_hex : list Z → list Z) (p : CompletionPacket) (workspace_id : list Z) : Prop := {
  valid_workspace : prov_workspace_id (provenance p) = workspace_id
    ∧ subject_workspace_id (subject p) = workspace_id;
  valid_snapshot : workspace_snapshot_id (provenance p) = snapshot_id (subject p);
  valid_source : source_session_id p = prov_source_session_id (provenance p);
  valid_evidence : evidence_fingerprint p = computed_evidence_fingerprint evidence_json sha256_hex p;
  valid_readiness : readiness p = derived_readiness p;
  valid_review : check_review p = Ok tt;
  valid_supersedes : ∀ id, supersedes_packet_id p = Some id → id ≠ packet_id p;
  valid_lineage_length : (length (lineage p) <= MAX_LINEAGE)%nat;
  valid_lineage : check_lineage 0 (lineage p) = Ok tt;
  valid_last : ∀ e, last (lineage p) = Some e → lineage_revision e < revision p;
  valid_chain : is_some (supersedes_packet_id p) = negb (length (lineage p) =? 0)%nat;
  valid_approval : check_approval action_json sha256_hex p = Ok tt;
}.

Lemma is_some_and_not {A} (o : option A) f x : is_some_and o f = false → o = Some x → f x = false.
Proof. by intros H ->. Qed.

Lemma packet_valid ej aj sha p ws : validate ej aj sha p ws = Ok tt → valid ej aj sha p ws.
Proof.
  unfold validate.
  intros (u1 & _ & (u2 & _ & (u3 & _ & (u4 & _ & (u5 & Hsrc & H)%result_bind_Ok)%result_bind_Ok)%result_bind_Ok)%result_bind_Ok)%result_bind_Ok.
  apply packet_reject_Ok, neqb_elim in Hsrc.
  apply result_bind_Ok in H as (u6 & [[H1%neqb_elim H2%neqb_elim]%orb_false_iff H3%neqb_elim]%packet_reject_Ok%orb_false_iff & H).
  apply result_bind_Ok in H as (u7 & _ & H).
  apply result_bind_Ok in H as (u8 & [_ Hev%neqb_elim]%packet_reject_Ok%orb_false_iff & H).
  apply result_bind_Ok in H as (u9 & Hr%packet_reject_Ok%neqb_elim & H).
  apply result_bind_Ok in H as (u10 & _ & H). apply result_bind_Ok in H as ([] & Hrev & H).
  apply result_bind_Ok in H as (u12 & Hsup%packet_reject_Ok & H).
  apply result_bind_Ok in H as (u13 & Hlen%packet_reject_Ok%Nat.ltb_ge & H).
  apply result_bind_Ok in H as ([] & Hlin & H).
  apply result_bind_Ok in H as (u15 & [Hlast Hchain%negb_false_iff%Bool.eqb_prop]%packet_reject_Ok%orb_false_iff & H).
  apply result_bind_Ok in H as ([] & Happ & _).
  constructor; try done.
  - intros id Hid. pose proof (is_some_and_not _ _ _ Hsup Hid) as [_ Hn]%orb_false_iff.
    by apply eqb_false in Hn.
  - intros e He. pose proof (is_some_and_not _ _ _ Hlast He) as Hl. by apply Z.leb_gt in Hl.
Qed.

(** The evidence establishes a verified, conclusive change. *)
Definition verified (p : CompletionPacket) : Prop :=
  attribution (subject p) = Unambiguous ∧ missing_evidence p = [] ∧ conflicting_evidence p = []
  ∧ ∃ v, verification p = Some v ∧ verification_result v = Passed
      ∧ verification_revision v = snapshot_id (subject p).

Lemma derived_readiness_spec p :
  (verified p ∧ derived_readiness p =
     match review p with
     | None => ReviewReady
     | Some r =>
         if (outcome r == Findings) && (review_revision r == snapshot_id (subject p))
         then FindingsNeedFix
         else if (outcome r == NoFindings) && independent r
                 && (reviewer_session_id r != source_session_id p)
                 && (review_revision r == snapshot_id (subject p))
         then ReadyForUserReview
         else VerificationNeeded
     end)
  ∨ ¬ verified p ∧ derived_readiness p = VerificationNeeded.
Proof.
  unfold derived_readiness, verified. destruct (_ || _) eqn:E; [right|left]; (split; [|done]).
  - intros (Ha & Hm & Hc & v & Hv & Hr & Hs). rewrite Ha, Hm, Hc, Hv in E. simpl in E.
    by rewrite Hr, Hs, !eqb_refl in E.
  - apply orb_false_iff in E as [[[Ha%eqb_false Hm]%orb_false_iff Hc]%orb_false_iff Hv%negb_false_iff].
    apply negb_false_iff, Nat.eqb_eq, nil_length_inv in Hm, Hc.
    apply is_some_and_true in Hv as (v & Hv & [Hr%eqb_elim Hs%eqb_elim]%andb_true_iff).
    split; [by destruct (attribution _)|]. split; [done|]. split; [done|]. by exists v.
Qed.

Lemma check_lineage_Ok previous entries : check_lineage previous entries = Ok tt →
  Forall (λ e, previous < lineage_revision e) entries
  ∧ StronglySorted Z.lt (lineage_revision <$> entries).
Proof.
  revert previous. induction entries as [|e entries IH]; intros previous; simpl; [repeat constructor|].
  intros (u & Hb%packet_reject_Ok & (Hall & Hs)%IH)%result_bind_Ok.
  apply orb_false_iff in Hb as [[[_ Hlt%Z.leb_gt]%orb_false_iff _]%orb_false_iff _].
  split; constructor; try done.
  - eapply Forall_impl; [exact Hall|]. simpl. lia.
  - by apply Forall_fmap.
Qed.

(** ** Properties *)

(** a packet reaches the user only on independent evidence.  A valid packet is
    ready for user review if and only if its change is conclusively attributed,
    nothing is missing or in conflict, a verification passed and an independent
    reviewer, from another session than the source, found nothing, both on exactly
    the snapshot and workspace the packet reports; and it never asks the user for a
    review while findings or a failed verification stand. *)
Theorem user_review_needs_independent_evidence ej aj sha p ws :
  validate ej aj sha p ws = Ok tt →
  (readiness p = ReadyForUserReview ↔
     verified p ∧ ∃ r, review p = Some r ∧ outcome r = NoFindings ∧ independent r = true
       ∧ reviewer_session_id r ≠ prov_source_session_id (provenance p)
       ∧ review_revision r = workspace_snapshot_id (provenance p))
  ∧ (readiness p = FindingsNeedFix ↔ verified p ∧ ∃ r, review p = Some r ∧ outcome r = Findings)
  ∧ (readiness p = ReviewReady ↔ verified p ∧ review p = None)
  ∧ subject_workspace_id (subject p) = ws.
Proof.
  intros Hv%packet_valid. destruct (valid_workspace _ _ _ _ _ Hv) as [_ Hws].
  rewrite (valid_readiness _ _ _ _ _ Hv), (valid_snapshot _ _ _ _ _ Hv), <- (valid_source _ _ _ _ _ Hv).
  assert (Hrev : ∀ r, review p = Some r → review_revision r = snapshot_id (subject p)).
  { intros r Hr. pose proof (valid_review _ _ _ _ _ Hv) as H. unfold check_review in H. rewrite Hr in H.
    apply packet_reject_Ok in H. by apply orb_false_iff in H as [[_ H%neqb_elim]%orb_false_iff _]. }
  destruct (derived_readiness_spec p) as [[Hver ->]|[Hver ->]].
  - destruct (review p) as [r|]; [specialize (Hrev r eq_refl); rewrite Hrev, eqb_refl, !andb_true_r|naive_solver].
    destruct (outcome r) eqn:Eo; simpl; [destruct (independent r) eqn:Ei; simpl|naive_solver congruence].
    + destruct (_ == source_session_id p) eqn:Es; simpl.
      * apply eqb_elim in Es. naive_solver congruence.
      * apply eqb_false in Es. naive_solver congruence.
    + naive_solver congruence.
  - naive_solver.
Qed.

(** an approval cannot be moved to other evidence.  The approval of a valid
    packet names its revision and the fingerprints of its own evidence and action;
    two valid packets that carry the same approval have the same revision, evidence
    and action, unless the digest collides on them. *)
Theorem approval_binds_evidence ej aj sha p q ws ws' a :
  validate ej aj sha p ws = Ok tt → validate ej aj sha q ws' = Ok tt →
  approval p = Some a → approval q = Some a →
  (sha (ej (evidence_of p)) = sha (ej (evidence_of q)) → evidence_of p = evidence_of q) →
  (sha (aj (action p)) = sha (aj (action q)) → action p = action q) →
  approval_evidence_fingerprint a = sha (ej (evidence_of p))
  ∧ approval_action_fingerprint a = sha (aj (action p))
  ∧ revision p = revision q ∧ evidence_of p = evidence_of q ∧ action p = action q
  ∧ derived_readiness p = derived_readiness q.
Proof.
  intros Hp%packet_valid Hq%packet_valid Ha Hb Hce Hca.
  assert (Hbind : ∀ x w, valid ej aj sha x w → approval x = Some a →
    approval_revision a = revision x ∧ approval_evidence_fingerprint a = sha (ej (evidence_of x))
    ∧ approval_action_fingerprint a = sha (aj (action x))).
  { intros x w Hx Hax. pose proof (valid_approval _ _ _ _ _ Hx) as H. unfold check_approval in H.
    rewrite Hax in H. apply packet_reject_Ok in H. rewrite !orb_false_iff in H.
    destruct H as [[[[[[[H1%negb_false_iff%Z.eqb_eq H2%neqb_elim] H3%neqb_elim] _] _] _] _] _].
    rewrite H2, (valid_evidence _ _ _ _ _ Hx). done. }
  destruct (Hbind p ws Hp Ha) as (R1 & E1 & A1), (Hbind q ws' Hq Hb) as (R2 & E2 & A2).
  assert (He : evidence_of p = evidence_of q) by (apply Hce; congruence).
  repeat split; try done; try congruence; [apply Hca; congruence|].
  injection He as _ H1 _ _ H2 H3 H4 H5 H6. unfold derived_readiness. by rewrite H1, H2, H3, H4, H5, H6.
Qed.

(** the history of a packet is a bounded strictly increasing chain.  The
    revisions in the lineage of a valid packet are positive and strictly increase up
    to the packet's own revision, at most sixteen of them; there is a lineage exactly
    if the packet supersedes another one, which is never itself. *)
Theorem lineage_increases ej aj sha p ws :
  validate ej aj sha p ws = Ok tt →
  StronglySorted Z.lt ((lineage_revision <$> lineage p) ++ (if lineage p is [] then [] else [revision p]))
  ∧ Forall (λ e, 0 < lineage_revision e < revision p) (lineage p)
  ∧ (length (lineage p) <= MAX_LINEAGE)%nat
  ∧ (lineage p = [] ↔ supersedes_packet_id p = None)
  ∧ supersedes_packet_id p ≠ Some (packet_id p).
Proof.
  intros Hv%packet_valid. pose proof (valid_lineage _ _ _ _ _ Hv) as (Hpos & Hs)%check_lineage_Ok.
  pose proof (valid_last _ _ _ _ _ Hv) as Hlast. pose proof (valid_chain _ _ _ _ _ Hv) as Hchain.
  assert (Hall : Forall (λ e, lineage_revision e < revision p) (lineage p)).
  { destruct (lineage p) as [|e l _] using rev_ind; [constructor|].
    rewrite last_snoc in Hlast. specialize (Hlast e eq_refl). apply Forall_app. split; [|by constructor].
    rewrite fmap_app in Hs. apply Forall_forall. intros e' He'.
    assert (lineage_revision e' < lineage_revision e); [|lia].
    eapply StronglySorted_app_1_elem_of; [exact Hs|by apply list_elem_of_fmap_2|by left]. }
  split; [|split; [|split; [by eapply valid_lineage_length|split]]].
  - destruct (lineage p) as [|e l]; [constructor|]. apply StronglySorted_app_2; [|done|repeat constructor].
    intros x y Hx ->%list_elem_of_singleton. apply list_elem_of_fmap in Hx as (e' & -> & He').
    rewrite Forall_forall in Hall. by apply Hall.
  - rewrite Forall_forall in *. auto.
  - destruct (lineage p), (supersedes_packet_id p); simpl in Hchain; done.
  - intros H. by eapply valid_supersedes in H.
Qed.

(** ** A concrete packet *)

Definition demo_evidence_json (e : Evidence) : list Z := ev_source_session_id e ++ snapshot_id (ev_subject e).
Definition demo_action_json (a : CompletionAction) : list Z := prompt a.
Definition demo_sha (bytes : list Z) : list Z := bytes.
Definition demo_packet (packet : string) (reviewed_by : option string) (ready : PacketReadiness)
    : CompletionPacket :=
  mkPacket 1 1 (bytes_of packet) (bytes_of "s1") (bytes_of "t1")
    (mkProvenance (bytes_of "s1") (bytes_of "w") (bytes_of "c1") (bytes_of "t1"))
    (mkSubject (bytes_of "w") (bytes_of "src") (bytes_of "c1") Unambiguous [bytes_of "a.rs"])
    (Some (mkVerification (bytes_of "make") Passed (bytes_of "c1") (bytes_of "t2")))
    ((λ reviewer, mkReview (bytes_of reviewer) (bytes_of "r") true NoFindings (bytes_of "c1") (bytes_of "t3"))
       <$> reviewed_by) [] []
    (mkAction (bytes_of "merge") None (bytes_of "src") UserReview) ready 3 (bytes_of "s1c1")
    (Some (mkApproval (bytes_of "t4") (bytes_of "u") 3 (bytes_of "s1c1") (bytes_of "merge") (bytes_of "k")))
    (Some (bytes_of "p0")) [mkLineage (bytes_of "p0") 1 (repeat 48 64) (bytes_of "t0")] None.
Definition demo_valid (p : CompletionPacket) : checked :=
  validate demo_evidence_json demo_action_json demo_sha p (bytes_of "w").

Lemma user_review_needs_independent_evidence_witness :
  demo_valid (demo_packet "p1" (Some "s2") ReadyForUserReview) = Ok tt
  ∧ verified (demo_packet "p1" (Some "s2") ReadyForUserReview)
  ∧ demo_valid (demo_packet "p1" (Some "s1") ReadyForUserReview)
    = Err "completion packet readiness is not derived from its evidence".
Proof.
  split; [vm_compute; reflexivity|]. split; [|vm_compute; reflexivity].
  destruct (user_review_needs_independent_evidence demo_evidence_json demo_action_json demo_sha
    (demo_packet "p1" (Some "s2") ReadyForUserReview) (bytes_of "w")) as ([H _] & _).
  - vm_compute. reflexivity.
  - apply H. reflexivity.
Defined.

Lemma approval_binds_evidence_witness :
  demo_valid (demo_packet "p1" None ReviewReady) = Ok tt
  ∧ demo_valid (demo_packet "p2" None ReviewReady) = Ok tt
  ∧ evidence_of (demo_packet "p1" None ReviewReady) = evidence_of (demo_packet "p2" None ReviewReady).
Proof.
  split; [vm_compute; reflexivity|]. split; [vm_compute; reflexivity|].
  apply (approval_binds_evidence demo_evidence_json demo_action_json demo_sha
    (demo_packet "p1" None ReviewReady) (demo_packet "p2" None ReviewReady) (bytes_of "w") (bytes_of "w")
    (mkApproval (bytes_of "t4") (bytes_of "u") 3 (bytes_of "s1c1") (bytes_of "merge") (bytes_of "k"))).
  - vm_compute. reflexivity.
  - vm_compute. reflexivity.
  - reflexivity.
  - reflexivity.
  - intros _. reflexivity.
  - intros _. reflexivity.
Defined.

Lemma lineage_increases_witness :
  demo_valid (demo_packet "p1" None ReviewReady) = Ok tt
  ∧ supersedes_packet_id (demo_packet "p1" None ReviewReady) ≠ Some (bytes_of "p1").
Proof.
  split; [vm_compute; reflexivity|].
  apply (lineage_increases demo_evidence_json demo_action_json demo_sha
    (demo_packet "p1" None ReviewReady) (bytes_of "w")).
  vm_compute. reflexivity.
Defined.
