(* ===== verification/ProposedChange.v ===== *)
(** * Proposed changes

    [taskmaster/proposed_change.rs], up to the checks on the file system: what a
    model-written change proposal must satisfy before it is stored.

    Arguments: [to_lowercase], [str::to_lowercase] with its Unicode tables, and
    [serialized_len], the length of serde's JSON form ([usize::MAX] on failure). *)
From S2P Require Export Utf8.

Definition MAX_SUMMARY_CHARS : nat := 200.
Definition MAX_INSTRUCTION_CHARS : nat := 160.
Definition MAX_VERIFICATION_CHARS : nat := 200.
Definition MAX_TARGETS : nat := 3.
Definition MAX_PATH_BYTES : nat := 260.
Definition MAX_SERIALIZED_BYTES : Z := 1536.

Inductive TargetAction : Type := Edit | Create.

Record ModelChangeTarget : Type := mkModelTarget {
  model_path : list Z;
  model_action : TargetAction;
  model_instruction : list Z;
}.
Record ModelProposedChange : Type := mkModelChange {
  model_summary : list Z;
  model_targets : list ModelChangeTarget;
  model_verification : list Z;
}.
Record ChangeTarget : Type := mkTarget {
  path : list Z;
  action : TargetAction;
  instruction : list Z;
  sensitive : bool;
}.
Record ProposedChange : Type := mkChange {
  change_summary : list Z;
  targets : list ChangeTarget;
  verification : list Z;
}.

Inductive ChangeValidationError : Type :=
  | TextOutOfBounds | TargetCountOutOfBounds | PathInvalid | PathOutOfScope | DuplicatePath
  | SerializedTooLarge | WorkspaceUnavailable | EditTargetMissing | EditTargetNotRegularFile
  | EditTargetHardLinked | EscapesWorkspace | CreateTargetExists | CreateParentInvalid
  | CanonicalDestinationRejected.

Definition FILESYSTEM_CODE : string := "proposed_change_filesystem".
Definition code (e : ChangeValidationError) : string :=
  match e with
  | TextOutOfBounds => "proposed_change_text"
  | TargetCountOutOfBounds => "proposed_change_targets"
  | PathInvalid | DuplicatePath => "proposed_change_path"
  | PathOutOfScope => "proposed_change_scope"
  | SerializedTooLarge => "proposed_change_size"
  | WorkspaceUnavailable | EditTargetMissing | EditTargetNotRegularFile | EditTargetHardLinked
  | EscapesWorkspace | CreateTargetExists | CreateParentInvalid | CanonicalDestinationRejected =>
      FILESYSTEM_CODE
  end.

Definition SENSITIVE_PREFIXES : list (list Z) := Eval compute in bytes_of <$>
  [".claude/"; ".codex/"; ".opencode/"; ".agents/"; ".cursor/"; ".vscode/"; ".devcontainer/";
   ".husky/"; ".githooks/"; ".github/"; ".cargo/"; "scripts/"].
Definition SENSITIVE_FILE_NAMES : list (list Z) := Eval compute in bytes_of <$>
  [".mcp.json"; ".gitattributes"; ".gitmodules"; "opencode.json"; "apm.yml"; "package.json";
   "cargo.toml"; "build.rs"; "makefile"; "justfile"; "dockerfile"].
Definition TOOLING_PREFIXES : list (list Z) := Eval compute in bytes_of <$>
  ["scripts/"; ".github/"; ".husky/"; ".githooks/"; ".devcontainer/"; ".vscode/"; ".cargo/";
   ".claude/"; ".codex/"; ".opencode/"; ".agents/"; ".cursor/"].
(** The literals that occur inside the functions. *)
Definition SKILL_PREFIXES : list (list Z) := Eval compute in bytes_of <$>
  ["skills/"; ".claude/skills/"; ".agents/skills/"; ".codex/skills/"].
Definition INSTRUCTION_FILES : list (list Z) := Eval compute in bytes_of <$>
  ["agents.md"; "claude.md"; "gemini.md"; ".cursorrules"].
Definition DOCUMENT_EXTENSIONS : list (list Z) := Eval compute in bytes_of <$>
  [".md"; ".mdx"; ".rst"; ".txt"].
Definition TEST_DIRS : list (list Z) := Eval compute in bytes_of <$>
  ["tests"; "test"; "__tests__"; "spec"].
Definition TEST_MARKERS : list (list Z) := Eval compute in bytes_of <$>
  ["_test."; "_tests."; ".test."; ".spec."].
Definition BUILD_FILES : list (list Z) := Eval compute in bytes_of <$>
  ["makefile"; "justfile"; "dockerfile"].
Definition CONFIG_EXTENSIONS : list (list Z) := Eval compute in bytes_of <$>
  [".json"; ".yml"; ".yaml"; ".toml"].
Definition git_dir : list Z := Eval compute in bytes_of ".git".
Definition copilot_instructions : list Z := Eval compute in bytes_of ".github/copilot-instructions.md".

Definition slash : Z := 47.
Definition any_prefix (prefixes : list (list Z)) (s : list Z) : bool :=
  existsb (λ prefix, starts_with prefix s) prefixes.
Definition any_suffix (suffixes : list (list Z)) (s : list Z) : bool :=
  existsb (λ suffix, ends_with suffix s) suffixes.
Definition file_name (p : list Z) : list Z := List.last (split slash p) [].

Definition is_sensitive_path (p : list Z) : bool :=
  let lower := to_ascii_lowercase p in
  let in_skills := any_prefix SKILL_PREFIXES lower in
  if in_skills && ends_with (bytes_of ".md") lower then false
  else any_prefix SENSITIVE_PREFIXES lower || one_of (file_name lower) SENSITIVE_FILE_NAMES.

Definition is_test_file_name (file : list Z) : bool :=
  starts_with (bytes_of "test_") file || existsb (λ marker, contains marker file) TEST_MARKERS.

Definition is_in_scope (p : list Z) : bool :=
  let lower := to_ascii_lowercase p in
  let segments := split slash lower in
  let file := List.last segments [] in
  let dirs := removelast segments in
  one_of file INSTRUCTION_FILES || (lower == copilot_instructions)
  || any_prefix SKILL_PREFIXES lower
  || (starts_with (bytes_of "docs/") lower || starts_with (bytes_of "specs/") lower
      || any_suffix DOCUMENT_EXTENSIONS file)
  || (existsb (λ dir, one_of dir TEST_DIRS) dirs || is_test_file_name file)
  || (any_prefix TOOLING_PREFIXES lower || one_of file BUILD_FILES || one_of file SENSITIVE_FILE_NAMES)
  || ((length dirs =? 0)%nat && any_suffix CONFIG_EXTENSIONS file).

Definition validate_text (value : list Z) (limit : nat) : result ChangeValidationError unit :=
  if is_blank value || (limit <? char_count value)%nat
     || existsb (λ c, is_control c || (c =? 60) || (c =? 62)) (chars_of value)
  then Err TextOutOfBounds else Ok tt.

Definition is_reserved_device_name (segment : list Z) : bool :=
  let stem := to_ascii_uppercase (hd [] (split 46 segment)) in
  if one_of stem (bytes_of <$> ["CON"; "PRN"; "AUX"; "NUL"]) then true
  else (length stem =? 4)%nat && (starts_with (bytes_of "COM") stem || starts_with (bytes_of "LPT") stem)
       && between 49 57 (nth 3 stem 0).

Definition bad_segment (segment : list Z) : bool :=
  (length segment =? 0)%nat || (segment == [46]) || (segment == [46; 46]) || ends_with [46] segment
  || ends_with [32] segment || eq_ignore_ascii_case segment git_dir || is_reserved_device_name segment.
Definition validate_path_syntax (p : list Z) : result ChangeValidationError unit :=
  if (length p =? 0)%nat || (MAX_PATH_BYTES <? length p)%nat || starts_with [slash] p
  then Err PathInvalid
  else if existsb (λ c, is_control c || (c =? 92) || (c =? 58) || (c =? 60) || (c =? 62)) (chars_of p)
  then Err PathInvalid
  else if existsb bad_segment (split slash p) then Err PathInvalid
  else Ok tt.

Section validation.
Context (to_lowercase : list Z → list Z) (serialized_len : ProposedChange → Z).

(** The loop over the targets, with the set of the lower-case paths seen. *)
Fixpoint validate_targets (seen : gset (list Z)) (ts : list ModelChangeTarget)
    : result ChangeValidationError (list ChangeTarget) :=
  match ts with
  | [] => Ok []
  | t :: ts =>
      _ ← validate_text (model_instruction t) MAX_INSTRUCTION_CHARS;
      _ ← validate_path_syntax (model_path t);
      _ ← ensure (is_in_scope (model_path t)) PathOutOfScope;
      _ ← ensure (bool_decide (to_lowercase (model_path t) ∉ seen)) DuplicatePath;
      rest ← validate_targets ({[to_lowercase (model_path t)]} ∪ seen) ts;
      Ok (mkTarget (model_path t) (model_action t) (model_instruction t)
            (is_sensitive_path (model_path t)) :: rest)
  end.

Definition validate_proposed_change (model : ModelProposedChange)
    : result ChangeValidationError ProposedChange :=
  _ ← validate_text (model_summary model) MAX_SUMMARY_CHARS;
  _ ← validate_text (model_verification model) MAX_VERIFICATION_CHARS;
  _ ← ensure (negb (length (model_targets model) =? 0)%nat
              && (length (model_targets model) <=? MAX_TARGETS)%nat) TargetCountOutOfBounds;
  targets ← validate_targets ∅ (model_targets model);
  let change := mkChange (model_summary model) targets (model_verification model) in
  _ ← ensure (serialized_len change <=? MAX_SERIALIZED_BYTES) SerializedTooLarge;
  Ok change.
End validation.

(** [classify_canonical] re-applies the rules to a resolved destination. *)
Definition classify_canonical (relative : list Z) : result ChangeValidationError bool :=
  if existsb (λ segment, eq_ignore_ascii_case segment git_dir) (split slash relative)
  then Err CanonicalDestinationRejected
  else if negb (is_in_scope relative) then Err CanonicalDestinationRejected
  else Ok (is_sensitive_path relative).

(** ** Lemmas *)

(** What one accepted target satisfies. *)
Definition target_ok (t : ChangeTarget) : Prop :=
  validate_path_syntax (path t) = Ok tt ∧ is_in_scope (path t) = true
  ∧ sensitive t = is_sensitive_path (path t)
  ∧ validate_text (instruction t) MAX_INSTRUCTION_CHARS = Ok tt.

Definition to_model (t : ChangeTarget) : ModelChangeTarget :=
  mkModelTarget (path t) (action t) (instruction t).

Lemma validate_targets_Ok to_lowercase seen ts out :
  validate_targets to_lowercase seen ts = Ok out →
  to_model <$> out = ts ∧ Forall target_ok out
  ∧ NoDup (to_lowercase ∘ path <$> out) ∧ (∀ t, t ∈ out → to_lowercase (path t) ∉ seen).
Proof.
  revert seen out. induction ts as [|t ts IH]; intros seen out; simpl.
  { intros [= <-]. repeat split; [constructor..|]. by intros t ?%not_elem_of_nil. }
  intros ([] & Ht & ([] & Hp & (u & Hs%ensure_Ok & (v & Hn%ensure_Ok & H)%result_bind_Ok)%result_bind_Ok)%result_bind_Ok)%result_bind_Ok.
  apply bool_decide_eq_true in Hn. apply result_bind_Ok in H as (rest & (<- & Hall & Hnd & Hseen)%IH & [= <-]).
  split; [by destruct t|]. split; [by constructor|]. simpl. split.
  - apply NoDup_cons. split; [|done]. intros (t' & E & Ht')%list_elem_of_fmap.
    apply (Hseen t' Ht'). simpl in E. set_solver.
  - intros t' [->|Ht']%elem_of_cons; [done|]. specialize (Hseen t' Ht'). set_solver.
Qed.

Lemma validate_path_syntax_Ok p : validate_path_syntax p = Ok tt →
  p ≠ [] ∧ (length p <= MAX_PATH_BYTES)%nat ∧ starts_with [slash] p = false
  ∧ Forall (λ c, is_control c = false ∧ c ≠ 92 ∧ c ≠ 58) (chars_of p)
  ∧ Forall (λ s, bad_segment s = false) (split slash p).
Proof.
  unfold validate_path_syntax. destruct (_ || starts_with _ _) eqn:E1; [done|].
  destruct (existsb _ (chars_of p)) eqn:E2; [done|]. destruct (existsb bad_segment _) eqn:E3; [done|].
  intros _. rewrite existsb_false in E2. rewrite existsb_false in E3.
  apply orb_false_iff in E1 as [[E0%Nat.eqb_neq El%Nat.ltb_ge]%orb_false_iff Es].
  split; [by intros ->|]. repeat split; try done.
  eapply Forall_impl; [exact E2|]. intros c Hc. to_prop. intuition lia.
Qed.

Lemma bad_segment_false s : bad_segment s = false →
  s ≠ [] ∧ s ≠ [46] ∧ s ≠ [46; 46] ∧ to_ascii_lowercase s ≠ git_dir ∧ is_reserved_device_name s = false.
Proof.
  unfold bad_segment, eq_ignore_ascii_case. rewrite !orb_false_iff, !eqb_false, Nat.eqb_neq.
  intros [[[[[[H0 H1] H2] _] _] Hg] Hr]. repeat split; try done. by intros ->.
Qed.

(** *** Path resolution

    Walking the components of a path from a directory: [.] and the empty name
    stay, [..] goes up. *)
Fixpoint walk (dir : list (list Z)) (segments : list (list Z)) : list (list Z) :=
  match segments with
  | [] => dir
  | s :: segments =>
      if (length s =? 0)%nat || (s == [46]) then walk dir segments
      else if s == [46; 46] then walk (removelast dir) segments
      else walk (dir ++ [s]) segments
  end.

Lemma walk_plain dir segments :
  Forall (λ s, s ≠ [] ∧ s ≠ [46] ∧ s ≠ [46; 46]) segments → walk dir segments = dir ++ segments.
Proof.
  intros H. revert dir. induction H as [|s segments (H0 & H1 & H2) _ IH]; intros dir; simpl.
  { by rewrite app_nil_r. }
  rewrite (proj2 (eqb_false _ _) H1), (proj2 (eqb_false _ _) H2).
  destruct s; [done|]. simpl. by rewrite IH, <- app_assoc.
Qed.

(** What an accepted change consists of. *)
Lemma validate_proposed_change_Ok to_lowercase serialized_len m c :
  validate_proposed_change to_lowercase serialized_len m = Ok c →
  to_model <$> targets c = model_targets m ∧ (0 < length (targets c) <= MAX_TARGETS)%nat
  ∧ NoDup (to_lowercase ∘ path <$> targets c) ∧ serialized_len c <= MAX_SERIALIZED_BYTES
  ∧ Forall target_ok (targets c).
Proof.
  unfold validate_proposed_change.
  intros (u1 & _ & (u2 & _ & (u3 & Hlen%ensure_Ok & (ts & Hts & H)%result_bind_Ok)%result_bind_Ok)%result_bind_Ok)%result_bind_Ok.
  apply result_bind_Ok in H as (u4 & Hsize%ensure_Ok & [= <-]). cbn [targets].
  apply validate_targets_Ok in Hts as (Hm & Hall & Hnd & _).
  apply andb_true_iff in Hlen as [H0%negb_true_iff%Nat.eqb_neq H3%Nat.leb_le].
  rewrite <- Hm, length_fmap in H0, H3. apply Z.leb_le in Hsize. repeat split; try done; lia.
Qed.

(** ** Properties *)

(** an accepted change stays inside the workspace.  If [validate_proposed_change]
    accepts a proposal, then its targets are those of the proposal (one to three,
    pairwise different under lower-casing), every path, resolved from any root
    directory, ends exactly below that root, has no component that names [.git] in
    any letter case and no device name, contains no backslash, colon or control
    character and is in scope; and the serialized change is within its limit. *)
Theorem accepted_change_contained to_lowercase serialized_len m c :
  validate_proposed_change to_lowercase serialized_len m = Ok c →
  to_model <$> targets c = model_targets m ∧ (0 < length (targets c) <= MAX_TARGETS)%nat
  ∧ NoDup (to_lowercase ∘ path <$> targets c) ∧ serialized_len c <= MAX_SERIALIZED_BYTES
  ∧ Forall (λ t,
      (∀ root, walk root (split slash (path t)) = root ++ split slash (path t))
      ∧ Forall (λ s, to_ascii_lowercase s ≠ git_dir ∧ is_reserved_device_name s = false)
          (split slash (path t))
      ∧ Forall (λ ch, is_control ch = false ∧ ch ≠ 92 ∧ ch ≠ 58) (chars_of (path t))
      ∧ is_in_scope (path t) = true) (targets c).
Proof.
  intros (Hm & Hlen & Hnd & Hsize & Hall)%validate_proposed_change_Ok.
  repeat (split; [done|]). eapply Forall_impl; [exact Hall|].
  intros t (Hp & Hscope & _). apply validate_path_syntax_Ok in Hp as (_ & _ & _ & Hc & Hseg).
  split; [|split; [|done]].
  - intros root. apply walk_plain. eapply Forall_impl; [exact Hseg|].
    intros s (? & ? & ? & _)%bad_segment_false. done.
  - eapply Forall_impl; [exact Hseg|]. intros s (_ & _ & _ & ? & ?)%bad_segment_false. done.
Qed.

Definition demo_change (p : string) : ModelProposedChange :=
  mkModelChange (bytes_of "Note the flag") [mkModelTarget (bytes_of p) Edit (bytes_of "Add a line")]
    (bytes_of "Read it").
Definition demo_target : ChangeTarget :=
  mkTarget (bytes_of "docs/guide.md") Edit (bytes_of "Add a line") false.
Definition demo_accepted : ProposedChange :=
  mkChange (bytes_of "Note the flag") [demo_target] (bytes_of "Read it").

Lemma accepted_change_contained_witness :
  validate_proposed_change to_ascii_lowercase (λ _, 100) (demo_change "docs/guide.md") = Ok demo_accepted
  ∧ walk [bytes_of "home"] (split slash (path demo_target))
      = [bytes_of "home"; bytes_of "docs"; bytes_of "guide.md"].
Proof.
  split; [vm_compute; reflexivity|].
  destruct (accepted_change_contained to_ascii_lowercase (λ _, 100) (demo_change "docs/guide.md")
    demo_accepted eq_refl) as (_ & _ & _ & _ & H).
  apply Forall_cons_1 in H as [(Hw & _) _]. rewrite Hw. vm_compute. reflexivity.
Defined.

Example escaping_paths_rejected :
  (λ p, is_ok (validate_path_syntax (bytes_of p))) <$>
    ["../x.md"; "docs/../../x.md"; "/etc/x.md"; "docs//x.md"; ".GIT/config"; "docs\x.md"; "c:x.md";
     "docs/con.md"; "docs/lpt1"; "docs/a."; "docs/ok.md"]
  = [false; false; false; false; false; false; false; false; false; false; true].
Proof. vm_compute. reflexivity. Qed.

Lemma forallb_one_of (l l' : list (list Z)) x :
  forallb (λ q, one_of q l') l = true → x ∈ l → x ∈ l'.
Proof. rewrite forallb_true, Forall_forall. intros H Hx. by apply one_of_true, H. Qed.

(** Tooling is always flagged.  Of an accepted change every target that is
    under a tooling directory, or is a file that can run code, is marked sensitive
    whatever the letter case of its path, except a Markdown file of a skill. *)
Theorem tooling_targets_flagged to_lowercase serialized_len m c t :
  validate_proposed_change to_lowercase serialized_len m = Ok c → t ∈ targets c →
  sensitive t = false →
  (any_prefix SKILL_PREFIXES (to_ascii_lowercase (path t)) = true
    ∧ ends_with (bytes_of ".md") (to_ascii_lowercase (path t)) = true)
  ∨ (∀ prefix rest, prefix ∈ TOOLING_PREFIXES → to_ascii_lowercase (path t) ≠ prefix ++ rest)
    ∧ file_name (to_ascii_lowercase (path t)) ∉ SENSITIVE_FILE_NAMES ++ BUILD_FILES.
Proof.
  intros (_ & _ & _ & _ & Hall)%validate_proposed_change_Ok Ht Hs.
  rewrite Forall_forall in Hall. destruct (Hall t Ht) as (_ & _ & Hsens & _). rewrite Hsens in Hs.
  unfold is_sensitive_path in Hs. destruct (any_prefix SKILL_PREFIXES _ && _) eqn:Ek.
  { left. by apply andb_true_iff in Ek. }
  right. apply orb_false_iff in Hs as [Hp Hf]. split.
  - intros prefix rest Hin E. unfold any_prefix in Hp. rewrite existsb_false, Forall_forall in Hp.
    specialize (Hp prefix (forallb_one_of TOOLING_PREFIXES SENSITIVE_PREFIXES _ eq_refl Hin)). rewrite E in Hp.
    assert (Hst : starts_with prefix (prefix ++ rest) = true) by (apply starts_with_true; eauto).
    cbv beta in Hp. congruence.
  - intros Hin. apply not_true_iff_false in Hf. apply Hf, one_of_true.
    apply elem_of_app in Hin as [?|Hb]; [done|]. by apply (forallb_one_of BUILD_FILES).
Qed.

Lemma tooling_targets_flagged_witness :
  sensitive demo_target = false
  ∧ (file_name (bytes_of "docs/guide.md") ∉ SENSITIVE_FILE_NAMES ++ BUILD_FILES)
  ∧ is_sensitive_path (bytes_of ".GitHub/workflows/ci.yml") = true.
Proof.
  split; [reflexivity|]. split; [|reflexivity].
  destruct (tooling_targets_flagged to_ascii_lowercase (λ _, 100) (demo_change "docs/guide.md")
    demo_accepted demo_target eq_refl) as [[H _]|[_ H]].
  - by left.
  - reflexivity.
  - vm_compute in H. discriminate H.
  - exact H.
Defined.
