(* ===== verification/Rollup.v ===== *)
(** * Rollups

    [taskmaster/rollup.rs]: the bounded batch of recommendation families offered
    to a model, the validation of the clusters it answers with, and the evidence
    a rollup parent shows.

    Of a [Recommendation] only the fields read here are kept.  Arguments: the
    lengths of serde's JSON forms ([usize::MAX] on failure), the digest of a
    snapshot's JSON form, and those of [ProposedChange].  A confidence is only
    copied. *)
From S2P Require Export ProposedChange ObservationKinds Floats.

Definition MAX_ROLLUP_FAMILIES : nat := 32.
Definition MAX_ROLLUP_OBSERVATIONS : nat := 96.
Definition MAX_ROLLUP_SOURCE_SESSIONS : nat := 8.
Definition MAX_ROLLUP_INPUT_BYTES : Z := 131072.
Definition MAX_ROLLUP_RESPONSE_BYTES : Z := 65536.
Definition MAX_ROLLUP_CLUSTERS : nat := 8.
Definition MIN_ROLLUP_MEMBERS : nat := 2.
Definition MAX_ROLLUP_MEMBERS : nat := 8.
Definition MAX_ROLLUP_TITLE_CHARS : nat := 240.
Definition MAX_ROLLUP_SUMMARY_CHARS : nat := Z.to_nat 1000.
Definition MAX_PARENT_EVIDENCE_ENTRIES : nat := 64.
Definition MAX_PARENT_EVIDENCE_BYTES : Z := 131072.
Definition MAX_SNAPSHOT_PROBLEM_AREA_CHARS : nat := 120.
Definition MAX_EVIDENCE_ID_CHARS : nat := 256.
Definition MAX_EVIDENCE_SESSION_ID_CHARS : nat := 256.
Definition MAX_EVIDENCE_DESCRIPTION_CHARS : nat := 500.
Definition MAX_EVIDENCE_TEXT_CHARS : nat := Z.to_nat 2000.
Definition MAX_EVIDENCE_TIMESTAMP_CHARS : nat := 64.
#[global] Arguments MAX_ROLLUP_SUMMARY_CHARS : simpl never.
#[global] Arguments MAX_EVIDENCE_TEXT_CHARS : simpl never.

(** ** Data *)

Inductive TargetSurface : Type := Instructions | Skill | Test | Tooling | Documentation.
#[export] Instance TargetSurface_eq_dec : EqDecision TargetSurface.
Proof. solve_decision. Defined.
Inductive RecommendationStatus : Type :=
  | Proposed | Accepted | Executing | Completed | Dismissed | RolledUp | Superseded | Expired | Failed.
#[export] Instance RecommendationStatus_eq_dec : EqDecision RecommendationStatus.
Proof. solve_decision. Defined.

Record WorkflowObservationEvidence : Type := mkObserved {
  observation_id : list Z;
  sequence : Z;
  session_id : list Z;
  kind : ObservationKind;
  description : list Z;
  evidence_text : list Z;
  problem_area : option (list Z);
  reported_impact : Impact;
  source : ObservationSource;
  confidence : f64;
  observed_at : list Z;
}.

Record Recommendation : Type := mkRecommendation {
  id : list Z;
  status : RecommendationStatus;
  title : list Z;
  summary : list Z;
  evidence : list WorkflowObservationEvidence;
  source_session_ids : list (list Z);
  dedupe_key : list Z;
  target_surface : TargetSurface;
  observation_ids : list (list Z);
  rollup_member_ids : list (list Z);
  rolled_up_by : option (list Z);
}.

Record RollupFamilySnapshot : Type := mkSnapshot {
  recommendation_id : list Z;
  snapshot_dedupe_key : list Z;
  snapshot_surface : TargetSurface;
  snapshot_problem_area : option (list Z);
  snapshot_title : list Z;
  snapshot_summary : list Z;
  snapshot_evidence : list WorkflowObservationEvidence;
  snapshot_sessions : list (list Z);
  active_parent_id : option (list Z);
  active_parent_member_ids : list (list Z);
  evidence_snapshot_hash : list Z;
}.

Record ModelRollupCluster : Type := mkModelCluster {
  model_members : list (list Z);
  model_surface : TargetSurface;
  model_title : list Z;
  model_cluster_summary : list Z;
  model_change : ModelProposedChange;
}.
Record RollupCluster : Type := mkCluster {
  member_recommendation_ids : list (list Z);
  cluster_surface : TargetSurface;
  cluster_title : list Z;
  cluster_summary : list Z;
  proposed_change : ProposedChange;
}.

Inductive RollupValidationError : Type :=
  | TooManyFamilies | TooManyObservations | InputTooLarge | ResponseTooLarge
  | UnknownMemberId (id : list Z)
  | EmptyCluster | DuplicateCluster
  | DuplicateMemberId (id : list Z)
  | TooFewMembers | TooManyMembers | TooManyClusters
  | OverlappingMember (id : list Z)
  | MismatchedTargetSurface
  | NotProposed (id : list Z)
  | GeneratedTextOutOfBounds (field : string) (limit : nat)
  | InvalidProposedChange (e : ChangeValidationError).

Definition code (e : RollupValidationError) : string :=
  match e with
  | TooManyFamilies | TooManyObservations | InputTooLarge => "rollup_input_out_of_bounds"
  | ResponseTooLarge | TooManyClusters => "rollup_response_out_of_bounds"
  | InvalidProposedChange e => ProposedChange.code e
  | _ => "rollup_cluster_invalid"
  end.

(** [Vec::dedup]: of equal neighbours the first is kept. *)
Fixpoint dedup (l : list (list Z)) : list (list Z) :=
  match l with
  | [] => []
  | x :: l => if head l == Some x then dedup l else x :: dedup l
  end.

(** [Ordering] chained with [then]: the first that is not [Eq]. *)
Definition then_ (c c' : comparison) : comparison := match c with Eq => c' | _ => c end.
Definition str_cmp (a b : list Z) : comparison :=
  if a == b then Eq else if key_leb a b then Lt else Gt.
Definition impact_rank (i : Impact) : Z := match i with Low => 0 | Medium => 1 | High => 2 end.
Definition impact_cmp (a b : Impact) : comparison := impact_rank a ?= impact_rank b.
Definition not_gt (c : comparison) : bool := match c with Gt => false | _ => true end.

(** ** Evidence *)

(** [chars().take(limit).collect()], as bytes. *)
Definition encode_char (c : Z) : list Z :=
  if c <? 0x80 then [c]
  else if c <? 0x800 then [Z.lor 0xc0 (Z.shiftr c 6); Z.lor 0x80 (Z.land c 0x3f)]
  else if c <? 0x10000 then
    [Z.lor 0xe0 (Z.shiftr c 12); Z.lor 0x80 (Z.land (Z.shiftr c 6) 0x3f); Z.lor 0x80 (Z.land c 0x3f)]
  else [Z.lor 0xf0 (Z.shiftr c 18); Z.lor 0x80 (Z.land (Z.shiftr c 12) 0x3f);
        Z.lor 0x80 (Z.land (Z.shiftr c 6) 0x3f); Z.lor 0x80 (Z.land c 0x3f)].
Definition truncate_chars (value : list Z) (limit : nat) : list Z :=
  concat (encode_char <$> take limit (chars_of value)).

Definition bounded_evidence (item : WorkflowObservationEvidence) : WorkflowObservationEvidence :=
  mkObserved (truncate_chars (observation_id item) MAX_EVIDENCE_ID_CHARS) (sequence item)
    (truncate_chars (session_id item) MAX_EVIDENCE_SESSION_ID_CHARS) (kind item)
    (truncate_chars (description item) MAX_EVIDENCE_DESCRIPTION_CHARS)
    (truncate_chars (evidence_text item) MAX_EVIDENCE_TEXT_CHARS)
    ((λ value, truncate_chars value MAX_SNAPSHOT_PROBLEM_AREA_CHARS) <$> problem_area item)
    (reported_impact item) (source item) (confidence item)
    (truncate_chars (observed_at item) MAX_EVIDENCE_TIMESTAMP_CHARS).

Definition evidence_order (left right : WorkflowObservationEvidence) : comparison :=
  then_ (impact_cmp (reported_impact right) (reported_impact left))
    (then_ (sequence right ?= sequence left) (str_cmp (observation_id left) (observation_id right))).

(** [Iterator::max_by]: of equal maxima the last. *)
Definition max_by {A} (cmp : A → A → comparison) (x : A) (l : list A) : A :=
  fold_left (λ best y, match cmp best y with Gt => best | _ => y end) l x.

Definition representative_evidence (items : list WorkflowObservationEvidence)
    : list WorkflowObservationEvidence :=
  let ordered := sort_by (λ l r, not_gt (then_ (sequence l ?= sequence r)
                                   (str_cmp (observation_id l) (observation_id r))))
                   (bounded_evidence <$> items) in
  match ordered with
  | [] => []
  | earliest :: rest =>
      let latest := List.last rest earliest in
      let highest_impact := max_by (λ l r, then_ (impact_cmp (reported_impact l) (reported_impact r))
        (then_ (sequence l ?= sequence r) (str_cmp (observation_id r) (observation_id l)))) earliest rest in
      fold_left (λ selected candidate,
          if existsb (λ item, observation_id item == observation_id candidate) selected then selected
          else selected ++ [candidate])
        [latest; highest_impact] [earliest]
  end.

(** ** The families offered to the model *)

Definition is_exact_family (r : Recommendation) : bool :=
  negb (length (evidence r) =? 0)%nat && negb (length (observation_ids r) =? 0)%nat.

Abbreviation candidate := (prod Recommendation (option Recommendation)).
Abbreviation group := (prod (list Z) (list candidate)).

(** The map of active parents by id; of equal ids the last wins. *)
Definition is_active_parent (r : Recommendation) : bool :=
  (status r == Proposed) && negb (length (rollup_member_ids r) =? 0)%nat && is_none (rolled_up_by r).
Definition active_parents (rs : list Recommendation) : gmap (list Z) Recommendation :=
  list_to_map (reverse ((λ r, (id r, r)) <$> List.filter is_active_parent rs)).

(** [comparable]: the member as it was before it was rolled up. *)
Definition comparable (r : Recommendation) : Recommendation :=
  mkRecommendation (id r) Proposed (title r) (summary r) (evidence r) (source_session_ids r)
    (dedupe_key r) (target_surface r) (observation_ids r) (rollup_member_ids r) None.

(** The body of the [filter_map]. *)
Definition to_candidate (parents : gmap (list Z) Recommendation) (r : Recommendation)
    : option candidate :=
  if (status r == Proposed) && (length (rollup_member_ids r) =? 0)%nat && is_none (rolled_up_by r)
     && is_exact_family r
  then Some (r, None)
  else
    parent_id ← rolled_up_by r;
    parent ← parents !! parent_id;
    if bool_decide (id r ∈ rollup_member_ids parent) && is_exact_family r
    then Some (comparable r, Some parent) else None.

Definition candidates (rs : list Recommendation) : list candidate :=
  sort_by (λ l r, key_leb (id l.1) (id r.1)) (omap (to_candidate (active_parents rs)) rs).

Definition group_key (c : candidate) : list Z :=
  match c.2 with Some parent => id parent | None => id c.1 end.
(** One turn of the grouping loop. *)
Fixpoint add_to_groups (groups : list group) (c : candidate) : list group :=
  match groups with
  | [] => [(group_key c, [c])]
  | (key, members) :: groups =>
      if key == group_key c then (key, members ++ [c]) :: groups
      else (key, members) :: add_to_groups groups c
  end.
Definition groups_of (rs : list Recommendation) : list group :=
  sort_by (λ l r, key_leb l.1 r.1) (fold_left add_to_groups (candidates rs) []).

Section rollup.
Context (snapshot_json_hash : RollupFamilySnapshot → list Z).
Context (snapshots_size : list RollupFamilySnapshot → Z).

Definition snapshot_hash (s : RollupFamilySnapshot) : list Z :=
  snapshot_json_hash (mkSnapshot (recommendation_id s) (snapshot_dedupe_key s) (snapshot_surface s)
    (snapshot_problem_area s) (snapshot_title s) (snapshot_summary s) (snapshot_evidence s)
    (snapshot_sessions s) (active_parent_id s) (active_parent_member_ids s) []).

Definition from_recommendation_with_active_parent (r : Recommendation)
    (active_parent : option Recommendation) : result RollupValidationError RollupFamilySnapshot :=
  if status r != Proposed then Err (NotProposed (id r))
  else
    let representative := representative_evidence (evidence r) in
    let snapshot hash :=
      mkSnapshot (id r) (dedupe_key r) (target_surface r)
        ((λ value, truncate_chars value MAX_SNAPSHOT_PROBLEM_AREA_CHARS)
           <$> head (omap problem_area representative))
        (truncate_chars (title r) MAX_ROLLUP_TITLE_CHARS)
        (truncate_chars (summary r) MAX_ROLLUP_SUMMARY_CHARS)
        representative
        (take MAX_ROLLUP_SOURCE_SESSIONS (dedup (sort_by key_leb (source_session_ids r))))
        (id <$> active_parent)
        (dedup (sort_by key_leb (default [] (rollup_member_ids <$> active_parent))))
        hash in
    Ok (snapshot (snapshot_hash (snapshot []))).

(** [collect::<Result<Vec<_>, _>>]. *)
Fixpoint group_snapshots (members : list candidate)
    : result RollupValidationError (list RollupFamilySnapshot) :=
  match members with
  | [] => Ok []
  | (r, parent) :: members =>
      s ← from_recommendation_with_active_parent r parent;
      rest ← group_snapshots members;
      Ok (s :: rest)
  end.

(** The loop over the rotated groups. *)
Fixpoint fill_batch (snapshots : list RollupFamilySnapshot) (groups : list group)
    : result RollupValidationError (list RollupFamilySnapshot) :=
  match groups with
  | [] => Ok snapshots
  | (_, members) :: groups =>
      if (MAX_ROLLUP_FAMILIES <? length snapshots + length members)%nat then fill_batch snapshots groups
      else
        added ← group_snapshots members;
        if snapshots_size (snapshots ++ added) <=? MAX_ROLLUP_INPUT_BYTES
        then fill_batch (snapshots ++ added) groups else fill_batch snapshots groups
  end.

(** The groups from index [offset % len] on, and around. *)
Definition rotate (offset : nat) (groups : list group) : list group :=
  let start := (offset mod length groups)%nat in drop start groups ++ take start groups.

Definition build_rollup_family_snapshots_with_offset (rs : list Recommendation) (batch_offset : nat)
    : result RollupValidationError (list RollupFamilySnapshot) :=
  let groups := groups_of rs in
  if (length groups =? 0)%nat then Ok [] else fill_batch [] (rotate batch_offset groups).
End rollup.

(** ** Clusters *)

Definition validate_generated_text (field : string) (value : list Z) (limit : nat)
    : result RollupValidationError unit :=
  if is_blank value || (limit <? char_count value)%nat || existsb is_control (chars_of value)
  then Err (GeneratedTextOutOfBounds field limit) else Ok tt.

(** The loop over the windows of two sorted ids. *)
Fixpoint check_adjacent (ids : list (list Z)) : result RollupValidationError unit :=
  match ids with
  | a :: (b :: _) as rest => if a == b then Err (DuplicateMemberId a) else check_adjacent rest
  | _ => Ok tt
  end.

(** The loop over the members of one cluster. *)
Fixpoint check_members (by_id : gmap (list Z) RollupFamilySnapshot) (surface : TargetSurface)
    (seen : gset (list Z)) (ids : list (list Z)) : result RollupValidationError (gset (list Z)) :=
  match ids with
  | [] => Ok seen
  | member :: ids =>
      snapshot ← ok_or (UnknownMemberId member) (by_id !! member);
      _ ← ensure (snapshot_surface snapshot == surface) MismatchedTargetSurface;
      _ ← ensure (bool_decide (member ∉ seen)) (OverlappingMember member);
      check_members by_id surface ({[member]} ∪ seen) ids
  end.

(** The order of the answer: the derived order of lists of strings. *)
Fixpoint ids_leb (a b : list (list Z)) : bool :=
  match a, b with
  | [], _ => true
  | _ :: _, [] => false
  | x :: a, y :: b => if x == y then ids_leb a b else key_leb x y
  end.

Section clusters.
Context (to_lowercase : list Z → list Z) (serialized_len : ProposedChange → Z).
Context (snapshots_size : list RollupFamilySnapshot → Z) (clusters_size : list ModelRollupCluster → Z).

(** The body of the loop over the clusters: the members seen, the sets of members
    seen, and the normalized cluster. *)
Definition validate_cluster (by_id : gmap (list Z) RollupFamilySnapshot)
    (seen_members : gset (list Z)) (seen_clusters : gset (gset (list Z))) (c : ModelRollupCluster)
    : result RollupValidationError (gset (list Z) * gset (gset (list Z)) * RollupCluster) :=
  _ ← validate_generated_text "title" (model_title c) MAX_ROLLUP_TITLE_CHARS;
  _ ← validate_generated_text "summary" (model_cluster_summary c) MAX_ROLLUP_SUMMARY_CHARS;
  change ← match validate_proposed_change to_lowercase serialized_len (model_change c) with
           | Ok change => Ok change
           | Err e => Err (InvalidProposedChange e)
           end;
  _ ← ensure (negb (length (model_members c) =? 0)%nat) EmptyCluster;
  _ ← ensure (MIN_ROLLUP_MEMBERS <=? length (model_members c))%nat TooFewMembers;
  _ ← ensure (length (model_members c) <=? MAX_ROLLUP_MEMBERS)%nat TooManyMembers;
  let member_ids := sort_by key_leb (model_members c) in
  _ ← check_adjacent member_ids;
  _ ← ensure (bool_decide (list_to_set member_ids ∉ seen_clusters)) DuplicateCluster;
  seen ← check_members by_id (model_surface c) seen_members member_ids;
  Ok (seen, {[list_to_set member_ids]} ∪ seen_clusters,
      mkCluster member_ids (model_surface c) (model_title c) (model_cluster_summary c) change).

Fixpoint validate_loop (by_id : gmap (list Z) RollupFamilySnapshot) (seen_members : gset (list Z))
    (seen_clusters : gset (gset (list Z))) (cs : list ModelRollupCluster)
    : result RollupValidationError (list RollupCluster) :=
  match cs with
  | [] => Ok []
  | c :: cs =>
      '(seen_members, seen_clusters, normalized) ← validate_cluster by_id seen_members seen_clusters c;
      rest ← validate_loop by_id seen_members seen_clusters cs;
      Ok (normalized :: rest)
  end.

(** [by_id]; of equal ids the last wins. *)
Definition snapshots_by_id (supplied : list RollupFamilySnapshot) : gmap (list Z) RollupFamilySnapshot :=
  list_to_map (reverse ((λ s, (recommendation_id s, s)) <$> supplied)).

Definition validate_rollup_clusters (supplied : list RollupFamilySnapshot)
    (model_clusters : list ModelRollupCluster) : result RollupValidationError (list RollupCluster) :=
  _ ← ensure (length supplied <=? MAX_ROLLUP_FAMILIES)%nat TooManyFamilies;
  _ ← ensure (sum_list (length ∘ snapshot_evidence <$> supplied) <=? MAX_ROLLUP_OBSERVATIONS)%nat
        TooManyObservations;
  _ ← ensure (snapshots_size supplied <=? MAX_ROLLUP_INPUT_BYTES) InputTooLarge;
  _ ← ensure (length model_clusters <=? MAX_ROLLUP_CLUSTERS)%nat TooManyClusters;
  _ ← ensure (clusters_size model_clusters <=? MAX_ROLLUP_RESPONSE_BYTES) ResponseTooLarge;
  normalized ← validate_loop (snapshots_by_id supplied) ∅ ∅ model_clusters;
  Ok (sort_by (λ l r, ids_leb (member_recommendation_ids l) (member_recommendation_ids r)) normalized).
End clusters.

(** [stable_rollup_id], for a digest of the concatenated updates. *)
Definition stable_rollup_id (sha256_hex : list Z → list Z) (members : list (list Z)) : list Z :=
  bytes_of "rollup:" ++ sha256_hex (concat ((λ m, m ++ [0]) <$> sort_by key_leb members)).

(** ** The evidence of a parent *)

(** The map from ids to the first item of the evidence order; [is_lt] keeps the
    earlier of two equal ones. *)
Definition keep_best (unique : gmap (list Z) WorkflowObservationEvidence)
    (item : WorkflowObservationEvidence) : gmap (list Z) WorkflowObservationEvidence :=
  let bounded := bounded_evidence item in
  match unique !! observation_id bounded with
  | Some existing =>
      match evidence_order bounded existing with
      | Lt => <[observation_id bounded := bounded]> unique
      | _ => unique
      end
  | None => <[observation_id bounded := bounded]> unique
  end.
Definition unique_evidence (items : list WorkflowObservationEvidence)
    : gmap (list Z) WorkflowObservationEvidence := fold_left keep_best items ∅.
(** [BTreeMap::into_values]: in the order of the keys. *)
Definition into_values (unique : gmap (list Z) WorkflowObservationEvidence)
    : list WorkflowObservationEvidence :=
  (sort_by (λ l r, key_leb l.1 r.1) (map_to_list unique)).*2.

Section parent.
Context (evidence_size : list WorkflowObservationEvidence → Z).

(** The loop over the candidates. *)
Fixpoint project (projection candidates : list WorkflowObservationEvidence)
    : list WorkflowObservationEvidence :=
  match candidates with
  | [] => projection
  | c :: candidates =>
      if (length projection =? MAX_PARENT_EVIDENCE_ENTRIES)%nat then projection
      else if MAX_PARENT_EVIDENCE_BYTES <? evidence_size (projection ++ [c])
      then project projection candidates
      else project (projection ++ [c]) candidates
  end.

Definition project_parent_evidence (items : list WorkflowObservationEvidence)
    : list WorkflowObservationEvidence :=
  project [] (sort_by (λ l r, not_gt (evidence_order l r)) (into_values (unique_evidence items))).
End parent.

Lemma key_sorted l : StronglySorted key_le (sort_by key_leb l).
Proof. apply (sort_by_sorted key_leb); [apply key_le_total|apply key_le_trans]. Qed.

(** ** Lemmas on clusters *)

Lemma check_adjacent_Ok ids u :
  StronglySorted key_le ids → check_adjacent ids = Ok u → NoDup ids.
Proof.
  induction 1 as [|a ids Hs IH Ha]; [constructor|]. destruct ids as [|b ids].
  { intros _. apply NoDup_singleton. }
  cbn [check_adjacent]. destruct (a == b) eqn:E; [done|]. intros H%IH. apply eqb_false in E.
  constructor; [|done]. intros [->|Hin]%elem_of_cons; [done|].
  apply StronglySorted_inv in Hs as [_ Hb]. rewrite Forall_forall in Hb. apply E.
  apply (anti_symm key_le); [|by apply Hb]. by apply Forall_cons_1 in Ha as [? _].
Qed.

Lemma check_members_Ok by_id surface seen ids seen' :
  check_members by_id surface seen ids = Ok seen' →
  seen' = list_to_set ids ∪ seen ∧ (∀ m, m ∈ ids → m ∉ seen)
  ∧ Forall (λ m, ∃ s, by_id !! m = Some s ∧ snapshot_surface s = surface) ids.
Proof.
  revert seen. induction ids as [|m ids IH]; intros seen; simpl.
  { intros [= <-]. split; [set_solver|]. split; [by intros m ?%not_elem_of_nil|done]. }
  intros (s & Hs%ok_or_Ok & (u & Hsurf%ensure_Ok%eqb_elim & (v & Hn%ensure_Ok%bool_decide_eq_true & H)%result_bind_Ok)%result_bind_Ok)%result_bind_Ok.
  apply IH in H as (-> & Hseen & Hall). split; [set_solver|]. split.
  - intros m' [->|Hm']%elem_of_cons; [done|]. specialize (Hseen m' Hm'). set_solver.
  - constructor; [by exists s|done].
Qed.

(** The normal form of a cluster: its members sorted, its change validated. *)
Definition normal_form (to_lowercase : list Z → list Z) (serialized_len : ProposedChange → Z)
    (c : ModelRollupCluster) : option RollupCluster :=
  match validate_proposed_change to_lowercase serialized_len (model_change c) with
  | Ok change => Some (mkCluster (sort_by key_leb (model_members c)) (model_surface c) (model_title c)
                        (model_cluster_summary c) change)
  | Err _ => None
  end.

(** What one normalized cluster satisfies. *)
Definition cluster_ok (by_id : gmap (list Z) RollupFamilySnapshot) (n : RollupCluster) : Prop :=
  (MIN_ROLLUP_MEMBERS <= length (member_recommendation_ids n) <= MAX_ROLLUP_MEMBERS)%nat
  ∧ StronglySorted key_le (member_recommendation_ids n)
  ∧ Forall (λ m, ∃ s, by_id !! m = Some s ∧ snapshot_surface s = cluster_surface n)
      (member_recommendation_ids n).

Lemma validate_cluster_Ok lc len by_id seen seen_c c seen' seen_c' n :
  validate_cluster lc len by_id seen seen_c c = Ok (seen', seen_c', n) →
  normal_form lc len c = Some n ∧ cluster_ok by_id n ∧ NoDup (member_recommendation_ids n)
  ∧ seen' = list_to_set (member_recommendation_ids n) ∪ seen
  ∧ (∀ m, m ∈ member_recommendation_ids n → m ∉ seen).
Proof.
  unfold validate_cluster.
  intros (u1 & _ & (u2 & _ & (change & Hc & H)%result_bind_Ok)%result_bind_Ok)%result_bind_Ok.
  destruct (validate_proposed_change _ _ _) as [change'|] eqn:Ec; [|done]. injection Hc as ->.
  apply result_bind_Ok in H as (u3 & _ & H). apply result_bind_Ok in H as (u4 & H2%ensure_Ok%Nat.leb_le & H).
  apply result_bind_Ok in H as (u5 & H8%ensure_Ok%Nat.leb_le & H). cbv zeta in H.
  apply result_bind_Ok in H as (u6 & Hadj & H). apply result_bind_Ok in H as (u7 & _ & H).
  apply result_bind_Ok in H as (s & (-> & Hseen & Hall)%check_members_Ok & [= <- <- <-]). simpl.
  pose proof (sort_by_perm key_leb (model_members c)) as Hp.
  pose proof (key_sorted (model_members c)) as Hs.
  split; [unfold normal_form; by rewrite Ec|]. split; [|split; [by eapply check_adjacent_Ok|done]].
  split; [|done]. simpl. by rewrite (Permutation_length Hp).
Qed.

Lemma validate_loop_Ok lc len by_id seen seen_c cs out :
  validate_loop lc len by_id seen seen_c cs = Ok out →
  out = omap (normal_form lc len) cs ∧ length out = length cs ∧ Forall (cluster_ok by_id) out
  ∧ NoDup (concat (member_recommendation_ids <$> out))
  ∧ (∀ m, m ∈ concat (member_recommendation_ids <$> out) → m ∉ seen).
Proof.
  revert seen seen_c out. induction cs as [|c cs IH]; intros seen seen_c out; simpl.
  { intros [= <-]. split; [done|]. split; [done|]. split; [done|]. split; [constructor|].
    by intros m ?%not_elem_of_nil. }
  intros ([[seen' seen_c'] n] & (Hn & Hok & Hnd & -> & Hseen)%validate_cluster_Ok & H)%result_bind_Ok.
  apply result_bind_Ok in H as (rest & (-> & Hl & Hall & Hnd' & Hseen')%IH & [= <-]).
  rewrite Hn. split; [done|]. split; [simpl; by rewrite Hl|]. split; [by constructor|]. simpl. split.
  - apply NoDup_app. split; [done|]. split; [|done]. intros m Hm Hr. apply (Hseen' m Hr). set_solver.
  - intros m [Hm|Hm]%elem_of_app; [by apply Hseen|]. specialize (Hseen' m Hm). set_solver.
Qed.

Lemma ids_leb_refl a : ids_leb a a = true.
Proof. induction a as [|x a IH]; simpl; [done|]. by rewrite eqb_refl. Qed.
Lemma ids_leb_total a b : ids_leb a b = true ∨ ids_leb b a = true.
Proof.
  revert b. induction a as [|x a IH]; intros [|y b]; simpl; auto.
  destruct (x == y) eqn:E.
  - apply eqb_elim in E as ->. rewrite eqb_refl. apply IH.
  - destruct (y == x) eqn:E'; [apply eqb_elim in E' as ->; by rewrite eqb_refl in E|]. apply key_le_total.
Qed.
Lemma ids_leb_trans a b c : ids_leb a b = true → ids_leb b c = true → ids_leb a c = true.
Proof.
  revert b c. induction a as [|x a IH]; intros [|y b] [|z c]; simpl; try done.
  destruct (x == y) eqn:E1; [apply eqb_elim in E1 as ->|].
  - destruct (y == z); [apply IH|done].
  - destruct (y == z) eqn:E2; [apply eqb_elim in E2 as <-; by rewrite E1|]. intros H1 H2.
    destruct (x == z) eqn:E3; [|by apply (key_le_trans x y z)].
    apply eqb_elim in E3 as ->. exfalso. apply eqb_false in E2. apply E2.
    by apply (anti_symm key_le).
Qed.

(** ** Lemmas on families *)

Lemma add_to_groups_keys groups c :
  (add_to_groups groups c).*1 = groups.*1 ∧ group_key c ∈ groups.*1
  ∨ (add_to_groups groups c).*1 = groups.*1 ++ [group_key c] ∧ group_key c ∉ groups.*1.
Proof.
  induction groups as [|[key members] groups IH]; csimpl.
  { right. split; [done|]. apply not_elem_of_nil. }
  destruct (key == group_key c) eqn:E; csimpl.
  - apply eqb_elim in E as ->. left. split; [done|]. by left.
  - apply eqb_false in E. destruct IH as [[-> H]|[-> H]]; [left|right]; split; try done; [by right|].
    intros [?|?]%elem_of_cons; [congruence|done].
Qed.

Definition group_ok (g : group) : Prop := g.2 ≠ [] ∧ Forall (λ c, group_key c = g.1) g.2.

Lemma add_to_groups_ok groups c : Forall group_ok groups → Forall group_ok (add_to_groups groups c).
Proof.
  induction 1 as [|[key members] groups [Hn Hk] Hall IH]; csimpl in *.
  { repeat constructor. done. }
  destruct (key == group_key c) eqn:E; constructor; try done. apply eqb_elim in E as ->.
  split; [by destruct members|]. simpl. apply Forall_app. split; [done|by constructor].
Qed.
Lemma add_to_groups_members groups c : concat (add_to_groups groups c).*2 ≡ₚ c :: concat groups.*2.
Proof.
  induction groups as [|[key members] groups IH]; simpl; [done|]. destruct (key == group_key c); csimpl.
  - by rewrite <- app_assoc, (Permutation_app_comm members), <- app_assoc, (Permutation_app_comm _ members).
  - by rewrite IH, Permutation_middle.
Qed.

Lemma fold_groups cs groups :
  NoDup groups.*1 → Forall group_ok groups →
  let groups' := fold_left add_to_groups cs groups in
  NoDup groups'.*1 ∧ Forall group_ok groups' ∧ concat groups'.*2 ≡ₚ cs ++ concat groups.*2.
Proof.
  revert groups. induction cs as [|c cs IH]; intros groups Hnd Hok; simpl; [done|].
  destruct (IH (add_to_groups groups c)) as (H1 & H2 & H3); [|by apply add_to_groups_ok|].
  - destruct (add_to_groups_keys groups c) as [[-> _]|[-> Hn]]; [done|].
    apply NoDup_app. split; [done|]. split; [|apply NoDup_singleton].
    by intros x Hx ->%list_elem_of_singleton.
  - split; [done|]. split; [done|]. rewrite H3, add_to_groups_members.
    by rewrite <- Permutation_middle.
Qed.

Lemma concat_perm {A} (l l' : list (list A)) : l ≡ₚ l' → concat l ≡ₚ concat l'.
Proof.
  induction 1 as [|x l l' _ IH|x y l|l1 l2 l3 _ IH1 _ IH2]; simpl; [done|by rewrite IH| |by etrans].
  by rewrite !app_assoc, (Permutation_app_comm y).
Qed.

(** The groups partition the candidates, one group for a key. *)
Lemma groups_of_spec rs :
  NoDup (groups_of rs).*1 ∧ Forall group_ok (groups_of rs)
  ∧ concat (groups_of rs).*2 ≡ₚ candidates rs.
Proof.
  destruct (fold_groups (candidates rs) []) as (H1 & H2 & H3); [constructor..|].
  pose proof (sort_by_perm (λ l r : group, key_leb l.1 r.1) (fold_left add_to_groups (candidates rs) []))
    as Hp. fold (groups_of rs) in Hp. simpl in H3. rewrite app_nil_r in H3.
  split; [by rewrite Hp|]. split; [by rewrite Hp|].
  rewrite <- H3. apply concat_perm. by rewrite Hp.
Qed.

Lemma to_candidate_proposed parents r c : to_candidate parents r = Some c → status c.1 = Proposed.
Proof.
  unfold to_candidate. destruct (_ && is_exact_family r) eqn:E.
  - intros [= <-]. apply andb_true_iff in E as [[[E%eqb_elim _]%andb_true_iff _]%andb_true_iff _]. done.
  - clear E. destruct (rolled_up_by r) as [p|]; simpl; [|done]. destruct (parents !! p) as [parent|]; simpl; [|done].
    destruct (_ && _); [|done]. by intros [= <-].
Qed.
Lemma groups_of_proposed rs g c : g ∈ groups_of rs → c ∈ g.2 → status c.1 = Proposed.
Proof.
  intros Hg Hc. destruct (groups_of_spec rs) as (_ & _ & Hp).
  assert (Hin : c ∈ candidates rs).
  { rewrite <- Hp. apply list_elem_of_In, in_concat. exists g.2.
    split; apply list_elem_of_In; [|done]. apply list_elem_of_fmap. by exists g. }
  unfold candidates in Hin. rewrite sort_by_perm in Hin.
  apply list_elem_of_omap in Hin as (r & _ & Hr). by eapply to_candidate_proposed.
Qed.

Section batch.
Context (hash : RollupFamilySnapshot → list Z) (size : list RollupFamilySnapshot → Z).

Lemma group_snapshots_Ok members :
  Forall (λ c : candidate, status c.1 = Proposed) members →
  ∃ out, group_snapshots hash members = Ok out ∧ recommendation_id <$> out = (λ c, id c.1) <$> members.
Proof.
  induction 1 as [|[r parent] members Hr _ (out & IH & Hids)]; simpl; [by exists []|].
  simpl in Hr. unfold from_recommendation_with_active_parent at 1. rewrite Hr, eqb_refl. simpl. rewrite IH. simpl.
  eexists. split; [done|]. csimpl. by rewrite Hids.
Qed.

(** What the loop adds to the batch: whole groups, in their order. *)
Lemma fill_batch_Ok groups : ∀ snapshots,
  (∀ g, g ∈ groups → Forall (λ c : candidate, status c.1 = Proposed) g.2) →
  ∃ added chosen, fill_batch hash size snapshots groups = Ok (snapshots ++ added)
    ∧ sublist chosen groups ∧ recommendation_id <$> added = (λ c, id c.1) <$> concat chosen.*2
    ∧ ((length snapshots <= MAX_ROLLUP_FAMILIES)%nat → (length (snapshots ++ added) <= MAX_ROLLUP_FAMILIES)%nat)
    ∧ (added = [] ∨ size (snapshots ++ added) <= MAX_ROLLUP_INPUT_BYTES).
Proof.
  induction groups as [|[key members] groups IH]; intros snapshots Hp; simpl.
  { exists [], []. rewrite app_nil_r. repeat split; [constructor|done|by left]. }
  assert (Hp' : ∀ g, g ∈ groups → Forall (λ c : candidate, status c.1 = Proposed) g.2)
    by (intros g ?; apply Hp; by right).
  assert (Hskip : ∃ added chosen, fill_batch hash size snapshots groups = Ok (snapshots ++ added)
    ∧ sublist chosen ((key, members) :: groups)
    ∧ recommendation_id <$> added = (λ c, id c.1) <$> concat chosen.*2
    ∧ ((length snapshots <= MAX_ROLLUP_FAMILIES)%nat → (length (snapshots ++ added) <= MAX_ROLLUP_FAMILIES)%nat)
    ∧ (added = [] ∨ size (snapshots ++ added) <= MAX_ROLLUP_INPUT_BYTES)).
  { destruct (IH snapshots Hp') as (added & chosen & H1 & H2 & H3). exists added, chosen.
    split; [done|]. split; [by constructor|done]. }
  destruct (_ <? _)%nat eqn:El; [done|]. apply Nat.ltb_ge in El.
  destruct (group_snapshots_Ok members) as (gs & Hgs & Hids); [apply (Hp (key, members)); by left|].
  rewrite Hgs. simpl. destruct (_ <=? _) eqn:Es; [|done]. apply Z.leb_le in Es.
  destruct (IH (snapshots ++ gs) Hp') as (added & chosen & H1 & H2 & H3 & H4 & H5).
  exists (gs ++ added), ((key, members) :: chosen). rewrite app_assoc. split; [done|].
  split; [by constructor|]. csimpl. rewrite !fmap_app, Hids, H3. split; [done|]. split.
  - intros _. apply H4. apply (f_equal length) in Hids. rewrite !length_fmap in Hids.
    rewrite length_app. lia.
  - right. destruct H5 as [->|?]; [by rewrite app_nil_r|done].
Qed.

Lemma fill_batch_prefix groups snapshots out :
  fill_batch hash size snapshots groups = Ok out → ∃ added, out = snapshots ++ added.
Proof.
  revert snapshots. induction groups as [|[key members] groups IH]; intros snapshots; simpl.
  { intros [= <-]. exists []. by rewrite app_nil_r. }
  destruct (_ <? _)%nat; [apply IH|]. intros (gs & _ & H)%result_bind_Ok.
  destruct (_ <=? _); [|by apply IH]. apply IH in H as [added ->]. exists (gs ++ added). by rewrite app_assoc.
Qed.
End batch.

Lemma rotate_perm offset gs : rotate offset gs ≡ₚ gs.
Proof. unfold rotate. rewrite Permutation_app_comm. by rewrite take_drop. Qed.

(** ** Lemmas on the evidence of a parent *)

Definition evidence_le (l r : WorkflowObservationEvidence) : Prop := not_gt (evidence_order l r) = true.

Lemma evidence_le_iff l r : evidence_le l r ↔
  impact_rank (reported_impact r) < impact_rank (reported_impact l)
  ∨ impact_rank (reported_impact l) = impact_rank (reported_impact r)
    ∧ (sequence r < sequence l
       ∨ sequence l = sequence r ∧ key_le (observation_id l) (observation_id r)).
Proof.
  unfold evidence_le, evidence_order, impact_cmp, then_, str_cmp, key_le.
  destruct (Z.compare_spec (impact_rank (reported_impact r)) (impact_rank (reported_impact l)));
    simpl; [|intuition lia..].
  destruct (Z.compare_spec (sequence r) (sequence l)); simpl; [|intuition lia..].
  destruct (_ == _) eqn:E.
  - apply eqb_elim in E as ->. split; [intros _; right; repeat split; try done; right; split; [done|]|done].
    apply key_le_refl.
  - destruct (key_leb _ _); simpl; intuition lia.
Qed.
Lemma evidence_le_total l r : evidence_le l r ∨ evidence_le r l.
Proof.
  rewrite !evidence_le_iff. destruct (key_le_total (observation_id l) (observation_id r)); 
    destruct (Z.lt_trichotomy (impact_rank (reported_impact l)) (impact_rank (reported_impact r))) as [?|[?|?]];
    destruct (Z.lt_trichotomy (sequence l) (sequence r)) as [?|[?|?]]; intuition lia.
Qed.
Lemma evidence_le_trans a b c : evidence_le a b → evidence_le b c → evidence_le a c.
Proof.
  rewrite !evidence_le_iff. intros [?|[? [?|[? H1]]]] [?|[? [?|[? H2]]]];
    try (left; lia); right; (split; [lia|]); try (left; lia). right. split; [lia|]. by etrans.
Qed.

Lemma evidence_le_refl e : evidence_le e e.
Proof. by destruct (evidence_le_total e e). Qed.
Lemma evidence_order_antisym l r : evidence_order r l = CompOpp (evidence_order l r).
Proof.
  unfold evidence_order, impact_cmp, then_, str_cmp.
  rewrite (Z.compare_antisym (impact_rank (reported_impact r))), (Z.compare_antisym (sequence r)).
  destruct (impact_rank _ ?= _); try done. destruct (sequence _ ?= _); try done. simpl.
  destruct (observation_id l == observation_id r) eqn:E.
  { apply eqb_elim in E as ->. by rewrite eqb_refl. }
  destruct (_ == observation_id l) eqn:E'; [apply eqb_elim in E' as E'; by rewrite E', eqb_refl in E|].
  apply eqb_false in E. destruct (key_leb (observation_id l) _) eqn:E1, (key_leb (observation_id r) _) eqn:E2;
    try done.
  - exfalso. by apply E, (anti_symm key_le).
  - destruct (key_le_total (observation_id l) (observation_id r)) as [H|H]; unfold key_le in H; congruence.
Qed.

(** Of two items of one id the map keeps the first of the order. *)
Definition prefer (b existing : WorkflowObservationEvidence) : WorkflowObservationEvidence :=
  match evidence_order b existing with Lt => b | _ => existing end.
Lemma prefer_spec b e : (prefer b e = b ∨ prefer b e = e)
  ∧ evidence_le (prefer b e) b ∧ evidence_le (prefer b e) e.
Proof.
  unfold prefer, evidence_le. pose proof (evidence_order_antisym b e) as H.
  pose proof (evidence_le_refl b). pose proof (evidence_le_refl e). unfold evidence_le in *.
  destruct (evidence_order b e) eqn:E; rewrite ?E, ?H; simpl; auto.
Qed.

(** [e] is the first item of its id among [items]. *)
Definition best (items : list WorkflowObservationEvidence) (e : WorkflowObservationEvidence) : Prop :=
  (∃ item, item ∈ items ∧ e = bounded_evidence item)
  ∧ ∀ item, item ∈ items → observation_id (bounded_evidence item) = observation_id e →
      evidence_le e (bounded_evidence item).

Lemma keep_best_lookup m item k : keep_best m item !! k =
  let b := bounded_evidence item in
  if decide (observation_id b = k)
  then Some (match m !! k with Some existing => prefer b existing | None => b end) else m !! k.
Proof.
  unfold keep_best, prefer. cbv zeta. case_decide as Hk.
  - subst k. destruct (m !! _) eqn:E; [|by rewrite lookup_insert_eq].
    destruct (evidence_order _ _); rewrite ?lookup_insert_eq; done.
  - destruct (m !! observation_id _); [destruct (evidence_order _ _)|]; rewrite ?lookup_insert_ne by done; done.
Qed.

Lemma best_snoc_old items item e :
  best items e → evidence_le e (bounded_evidence item)
    ∨ observation_id (bounded_evidence item) ≠ observation_id e → best (items ++ [item]) e.
Proof.
  intros [(y & Hy & ->) Hmin] Hitem. split; [exists y; split; [apply elem_of_app; auto|done]|].
  intros z [Hz| ->%list_elem_of_singleton]%elem_of_app Hid; [by apply Hmin|]. by destruct Hitem.
Qed.
Lemma best_snoc_new items item :
  let b := bounded_evidence item in
  (∀ y, y ∈ items → observation_id (bounded_evidence y) = observation_id b →
     evidence_le b (bounded_evidence y)) → best (items ++ [item]) b.
Proof.
  intros b Hmin. split.
  - exists item. split; [|done]. apply elem_of_app. right. by apply list_elem_of_singleton.
  - intros z [Hz| ->%list_elem_of_singleton]%elem_of_app Hid; [by apply Hmin|apply evidence_le_refl].
Qed.

Lemma unique_evidence_spec items k :
  match unique_evidence items !! k with
  | Some e => observation_id e = k ∧ best items e
  | None => ∀ item, item ∈ items → observation_id (bounded_evidence item) ≠ k
  end.
Proof.
  unfold unique_evidence. induction items as [|item items IH] using rev_ind.
  { simpl. rewrite lookup_empty. by intros ? ?%not_elem_of_nil. }
  rewrite fold_left_app. simpl. rewrite keep_best_lookup. cbv zeta.
  set (b := bounded_evidence item). destruct (fold_left _ _ _ !! k) as [e|] eqn:E; case_decide as Hk.
  - destruct IH as [Hid Hbest]. destruct (prefer_spec b e) as ([->| ->] & Hb & He).
    + split; [done|]. apply best_snoc_new. intros y Hy Hyid. eapply evidence_le_trans; [exact He|].
      apply Hbest; [done|]. fold b in Hyid. congruence.
    + split; [done|]. apply best_snoc_old; auto.
  - destruct IH as [Hid Hbest]. split; [done|]. apply best_snoc_old; [done|]. right. fold b. congruence.
  - split; [done|]. apply best_snoc_new. intros y Hy Hyid. exfalso. apply (IH y Hy). fold b in Hyid. congruence.
  - intros y [Hy| ->%list_elem_of_singleton]%elem_of_app; [by apply IH|done].
Qed.

Lemma StronglySorted_sublist {A} (R : A → A → Prop) l k :
  sublist l k → StronglySorted R k → StronglySorted R l.
Proof.
  induction 1 as [|x l k Hs IH|x l k Hs IH]; [done| |]; intros [Hk Hx]%StronglySorted_inv; [|by apply IH].
  constructor; [by apply IH|]. rewrite Forall_forall in *. intros y Hy. apply Hx.
  by eapply elem_of_sublist.
Qed.

Section project.
Context (size : list WorkflowObservationEvidence → Z).

Lemma project_spec candidates projection :
  ∃ added, project size projection candidates = projection ++ added ∧ sublist added candidates
    ∧ (added = [] ∨ size (projection ++ added) <= MAX_PARENT_EVIDENCE_BYTES)
    ∧ ((length projection <= MAX_PARENT_EVIDENCE_ENTRIES)%nat →
       (length (projection ++ added) <= MAX_PARENT_EVIDENCE_ENTRIES)%nat)
    ∧ ((length projection <= MAX_PARENT_EVIDENCE_ENTRIES)%nat →
       (∀ l, size l <= MAX_PARENT_EVIDENCE_BYTES) →
       added = take (MAX_PARENT_EVIDENCE_ENTRIES - length projection) candidates).
Proof.
  revert projection. induction candidates as [|c candidates IH]; intros projection; simpl.
  { exists []. rewrite app_nil_r, take_nil. repeat split; auto. }
  destruct (_ =? _)%nat eqn:E.
  { apply Nat.eqb_eq in E. exists []. rewrite app_nil_r.
    split; [done|]. split; [apply sublist_nil_l|]. split; [by left|]. split; [done|].
    intros _ _. by rewrite E, Nat.sub_diag. }
  apply Nat.eqb_neq in E. destruct (_ <? _) eqn:Es.
  - apply Z.ltb_lt in Es. destruct (IH projection) as (added & H1 & H2 & H3 & H4 & H5).
    exists added. split; [done|]. split; [by constructor|]. split; [done|]. split; [done|].
    intros _ Hall. specialize (Hall (projection ++ [c])). lia.
  - apply Z.ltb_ge in Es. destruct (IH (projection ++ [c])) as (added & H1 & H2 & H3 & H4 & H5).
    exists (c :: added). replace (projection ++ c :: added) with ((projection ++ [c]) ++ added)
      by by rewrite <- app_assoc.
    rewrite (length_app projection [c]) in H4, H5. simpl in H4, H5.
    split; [done|]. split; [by constructor|].
    split; [right; destruct H3 as [->|?]; [by rewrite app_nil_r|done]|].
    split; [intros ?; apply H4; lia|]. intros ? Hall. rewrite H5 by (try done; lia).
    replace (MAX_PARENT_EVIDENCE_ENTRIES - length projection)%nat
      with (S (MAX_PARENT_EVIDENCE_ENTRIES - (length projection + 1))) by lia. done.
Qed.
End project.

(** The candidates of the projection: the best item of every id, in order. *)
Definition ranked (items : list WorkflowObservationEvidence) : list WorkflowObservationEvidence :=
  sort_by (λ l r, not_gt (evidence_order l r)) (into_values (unique_evidence items)).

Lemma elem_of_ranked items e : e ∈ ranked items ↔ unique_evidence items !! observation_id e = Some e.
Proof.
  unfold ranked, into_values. rewrite sort_by_perm, list_elem_of_fmap. split.
  - intros ([k v] & -> & Hin). rewrite sort_by_perm in Hin. apply elem_of_map_to_list in Hin. simpl.
    pose proof (unique_evidence_spec items k) as H. rewrite Hin in H. destruct H as [-> _]. done.
  - intros H. exists (observation_id e, e). split; [done|]. rewrite sort_by_perm. by apply elem_of_map_to_list.
Qed.
Lemma ranked_ids items : NoDup (observation_id <$> ranked items).
Proof.
  unfold ranked. rewrite sort_by_perm. unfold into_values. rewrite sort_by_perm.
  rewrite <- list_fmap_compose.
  assert (E : observation_id ∘ snd <$> map_to_list (unique_evidence items)
              = (map_to_list (unique_evidence items)).*1).
  { apply list_fmap_ext. intros i [k v] Hi. apply list_elem_of_lookup_2, elem_of_map_to_list in Hi. simpl.
    pose proof (unique_evidence_spec items k) as H. rewrite Hi in H. by destruct H. }
  rewrite E. apply NoDup_fst_map_to_list.
Qed.
Lemma ranked_sorted items : StronglySorted evidence_le (ranked items).
Proof. apply sort_by_sorted; [apply evidence_le_total|apply evidence_le_trans]. Qed.

Lemma validate_rollup_clusters_Ok lc len snapshots_size clusters_size supplied cs out :
  validate_rollup_clusters lc len snapshots_size clusters_size supplied cs = Ok out →
  out ≡ₚ omap (normal_form lc len) cs ∧ length out = length cs
  ∧ (length out <= MAX_ROLLUP_CLUSTERS)%nat
  ∧ StronglySorted (λ l r, ids_leb (member_recommendation_ids l) (member_recommendation_ids r) = true) out
  ∧ Forall (cluster_ok (snapshots_by_id supplied)) out
  ∧ NoDup (concat (member_recommendation_ids <$> out)).
Proof.
  unfold validate_rollup_clusters.
  intros (u1 & _ & (u2 & _ & (u3 & _ & (u4 & Hlen%ensure_Ok%Nat.leb_le & H)%result_bind_Ok)%result_bind_Ok)%result_bind_Ok)%result_bind_Ok.
  apply result_bind_Ok in H as (u5 & _ & H).
  apply result_bind_Ok in H as (normalized & (Hf & Hl & Hok & Hnd & _)%validate_loop_Ok & [= <-]).
  set (leb := λ l r : RollupCluster, ids_leb _ _). pose proof (sort_by_perm leb normalized) as Hp.
  rewrite <- Hf, (Permutation_length Hp). split; [done|]. split; [done|]. split; [by rewrite Hl|].
  split; [apply (sort_by_sorted leb);
    unfold le_by, leb; eauto using ids_leb_total, ids_leb_trans|].
  split; [by rewrite Hp|].
  rewrite (concat_perm _ (member_recommendation_ids <$> normalized)); [done|by rewrite Hp].
Qed.

Lemma ids_leb_antisymm a b : ids_leb a b = true → ids_leb b a = true → a = b.
Proof.
  revert b. induction a as [|x a IH]; intros [|y b]; simpl; try done. destruct (x == y) eqn:E.
  - apply eqb_elim in E as ->. rewrite eqb_refl. intros. f_equal. by apply IH.
  - destruct (y == x) eqn:E'; [apply eqb_elim in E' as ->; by rewrite eqb_refl in E|].
    intros H1 H2. exfalso. apply eqb_false in E. by apply E, (anti_symm key_le).
Qed.

(** Disjoint clusters with members are told apart by their members. *)
Lemma members_determine by_id out x1 x2 :
  Forall (cluster_ok by_id) out → NoDup (concat (member_recommendation_ids <$> out)) →
  x1 ∈ out → x2 ∈ out → member_recommendation_ids x1 = member_recommendation_ids x2 → x1 = x2.
Proof.
  intros Hok. induction Hok as [|x out Hx Hok IH]; simpl; [by intros _ ?%not_elem_of_nil|].
  intros (_ & Hdis & Hnd)%NoDup_app H1 H2 E.
  assert (Hne : ∃ m, m ∈ member_recommendation_ids x).
  { destruct Hx as [[Hx _] _]. destruct (member_recommendation_ids x) as [|m l]; [unfold MIN_ROLLUP_MEMBERS in Hx; simpl in Hx; lia|].
    exists m. by left. }
  destruct Hne as [m Hm].
  assert (Hno : ∀ y, y ∈ out → member_recommendation_ids y ≠ member_recommendation_ids x).
  { intros y Hy Ey. apply (Hdis m Hm). apply list_elem_of_In, in_concat. exists (member_recommendation_ids y).
    split; apply list_elem_of_In; [by apply list_elem_of_fmap_2|by rewrite Ey]. }
  apply elem_of_cons in H1 as [->|H1], H2 as [->|H2]; [done| | |by apply IH].
  - by destruct (Hno x2 H2).
  - by destruct (Hno x1 H1).
Qed.

Lemma batch_total hash size rs offset :
  ∃ out, build_rollup_family_snapshots_with_offset hash size rs offset = Ok out.
Proof.
  unfold build_rollup_family_snapshots_with_offset. destruct (_ =? 0)%nat; [by eexists|].
  destruct (fill_batch_Ok hash size (rotate offset (groups_of rs)) []) as (added & chosen & H & _); [|by eexists].
  intros g Hg. rewrite rotate_perm in Hg. rewrite Forall_forall. intros c. by apply (groups_of_proposed rs).
Qed.

(** ** Properties *)

(** the clusters of an accepted answer are disjoint sets of supplied
    families, in one order.  If [validate_rollup_clusters] accepts, its result is
    the given clusters in normal form (members sorted, the proposed change
    validated), at most eight of them and in the order of their members; each has
    two to eight members, all of them supplied families of the cluster's own
    surface, and no family occurs twice, neither in one cluster nor in two.  An
    answer with the clusters in another order is accepted with the same result or
    not at all. *)
Theorem accepted_clusters_disjoint lc len snapshots_size clusters_size supplied cs out :
  validate_rollup_clusters lc len snapshots_size clusters_size supplied cs = Ok out →
  out ≡ₚ omap (normal_form lc len) cs ∧ length out = length cs
  ∧ (length out <= MAX_ROLLUP_CLUSTERS)%nat
  ∧ StronglySorted (λ l r, ids_leb (member_recommendation_ids l) (member_recommendation_ids r) = true) out
  ∧ Forall (cluster_ok (snapshots_by_id supplied)) out
  ∧ NoDup (concat (member_recommendation_ids <$> out))
  ∧ ∀ cs' out', cs' ≡ₚ cs →
      validate_rollup_clusters lc len snapshots_size clusters_size supplied cs' = Ok out' → out' = out.
Proof.
  intros H. destruct (validate_rollup_clusters_Ok _ _ _ _ _ _ _ H) as (Hp & Hl & Hmax & Hs & Hok & Hnd).
  do 6 (split; [done|]). intros cs' out' Hcs H'.
  destruct (validate_rollup_clusters_Ok _ _ _ _ _ _ _ H') as (Hp' & _ & _ & Hs' & Hok' & _).
  apply (StronglySorted_unique_strong
    (λ l r, ids_leb (member_recommendation_ids l) (member_recommendation_ids r) = true)); [|done|done|].
  - assert (Hpo : out' ≡ₚ out) by by rewrite Hp, Hp', Hcs.
    intros x1 x2 Hx1 Hx2 H1 H2. rewrite Hpo in Hx1. apply (members_determine (snapshots_by_id supplied) out); [done..|].
    by apply ids_leb_antisymm.
  - by rewrite Hp, Hp', Hcs.
Qed.

(** a batch never splits a family group and never fails.  For every list of
    recommendations and every offset [build_rollup_family_snapshots_with_offset]
    succeeds; its snapshots are those of whole groups (all members of an active
    parent, or one family of its own) in the rotated order, at most 32 of them,
    and, unless empty, within the input limit.  The groups partition the
    candidates by their key. *)
Theorem batch_keeps_groups_whole hash size rs offset :
  (∃ out chosen, build_rollup_family_snapshots_with_offset hash size rs offset = Ok out
     ∧ sublist chosen (rotate offset (groups_of rs))
     ∧ recommendation_id <$> out = (λ c, id c.1) <$> concat chosen.*2
     ∧ (length out <= MAX_ROLLUP_FAMILIES)%nat
     ∧ (out = [] ∨ size out <= MAX_ROLLUP_INPUT_BYTES))
  ∧ NoDup (groups_of rs).*1 ∧ concat (groups_of rs).*2 ≡ₚ candidates rs
  ∧ Forall (λ g, g.2 ≠ [] ∧ Forall (λ c, group_key c = g.1) g.2) (groups_of rs).
Proof.
  destruct (groups_of_spec rs) as (Hnd & Hok & Hp). split; [|done].
  unfold build_rollup_family_snapshots_with_offset. destruct (_ =? 0)%nat.
  { exists [], []. repeat split; [apply sublist_nil_l|simpl; unfold MAX_ROLLUP_FAMILIES; lia|by left]. }
  destruct (fill_batch_Ok hash size (rotate offset (groups_of rs)) []) as (added & chosen & H1 & H2 & H3 & H4 & H5).
  - intros g Hg. rewrite rotate_perm in Hg. rewrite Forall_forall. intros c. by apply (groups_of_proposed rs).
  - exists added, chosen. split; [done|]. split; [done|]. split; [done|]. split; [|done].
    apply H4. simpl. unfold MAX_ROLLUP_FAMILIES. lia.
Qed.

(** no group starves.  A group that fits a batch on its own heads the batch
    of its turn: with the group's index as the offset (modulo the number of
    groups) the batch begins with exactly its snapshots. *)
Theorem group_heads_its_batch hash size rs i g offset :
  groups_of rs !! i = Some g → (offset mod length (groups_of rs) = i)%nat →
  (length g.2 <= MAX_ROLLUP_FAMILIES)%nat →
  (∀ gs, group_snapshots hash g.2 = Ok gs → size gs <= MAX_ROLLUP_INPUT_BYTES) →
  ∃ gs rest, group_snapshots hash g.2 = Ok gs ∧ recommendation_id <$> gs = (λ c, id c.1) <$> g.2
    ∧ build_rollup_family_snapshots_with_offset hash size rs offset = Ok (gs ++ rest).
Proof.
  intros Hg Hi Hlen Hsize. destruct (group_snapshots_Ok hash g.2) as (gs & Hgs & Hids).
  { rewrite Forall_forall. intros c. eapply groups_of_proposed. by eapply list_elem_of_lookup_2. }
  assert (Hrot : ∃ tl, rotate offset (groups_of rs) = g :: tl).
  { unfold rotate. rewrite Hi. eexists. by rewrite (drop_S _ _ _ Hg). }
  destruct Hrot as [tl Hrot]. destruct (batch_total hash size rs offset) as (out & Hout).
  pose proof Hout as Hpre. unfold build_rollup_family_snapshots_with_offset in Hpre.
  rewrite Hrot in Hpre. destruct (_ =? 0)%nat eqn:E0.
  { apply Nat.eqb_eq, nil_length_inv in E0. by rewrite E0 in Hg. }
  destruct g as [key members]. simpl in *. destruct (MAX_ROLLUP_FAMILIES <? length members)%nat eqn:El.
  { apply Nat.ltb_lt in El. lia. }
  rewrite Hgs in Hpre. simpl in Hpre. rewrite (proj2 (Z.leb_le _ _)) in Hpre by by apply Hsize.
  apply fill_batch_prefix in Hpre as [rest ->]. by exists gs, rest.
Qed.

(** a parent shows the best evidence.  [project_parent_evidence] returns at
    most 64 items of distinct ids in the evidence order (impact, then recency),
    unless empty within the byte limit; each is the bounded form of an item that
    no other item of its id precedes.  If no list exceeds the byte limit it leaves
    an id out only when 64 items that precede all evidence of that id are shown. *)
Theorem parent_evidence_best size items :
  let out := project_parent_evidence size items in
  (length out <= MAX_PARENT_EVIDENCE_ENTRIES)%nat
  ∧ (out = [] ∨ size out <= MAX_PARENT_EVIDENCE_BYTES)
  ∧ NoDup (observation_id <$> out) ∧ StronglySorted evidence_le out ∧ Forall (best items) out
  ∧ ((∀ l, size l <= MAX_PARENT_EVIDENCE_BYTES) → ∀ item, item ∈ items →
       (∃ e, e ∈ out ∧ observation_id e = observation_id (bounded_evidence item))
       ∨ length out = MAX_PARENT_EVIDENCE_ENTRIES
         ∧ Forall (λ e, evidence_le e (bounded_evidence item)) out).
Proof.
  intros out. unfold out, project_parent_evidence. fold (ranked items).
  destruct (project_spec size (ranked items) []) as (added & E & Hsub & Hsize & Hlen & Hfull).
  rewrite E. simpl. clear out E. split; [apply Hlen; simpl; lia|]. split; [done|].
  split; [eapply sublist_NoDup; [apply ranked_ids|by apply fmap_sublist]|].
  split; [by eapply StronglySorted_sublist, ranked_sorted|]. split.
  - apply Forall_forall. intros e He. eapply elem_of_sublist in He; [|exact Hsub].
    apply elem_of_ranked in He. pose proof (unique_evidence_spec items (observation_id e)) as H.
    rewrite He in H. by destruct H.
  - intros Hall item Hitem. rewrite Hfull by (try done; simpl; lia).
    change (length []) with 0%nat. rewrite Nat.sub_0_r.
    pose proof (unique_evidence_spec items (observation_id (bounded_evidence item))) as H.
    destruct (unique_evidence items !! _) as [e|] eqn:Ee; [|exfalso; by apply (H item)].
    destruct H as [Hid [Hin Hmin]]. assert (He : e ∈ ranked items) by (apply elem_of_ranked; congruence).
    rewrite <- (take_drop MAX_PARENT_EVIDENCE_ENTRIES (ranked items)) in He.
    apply elem_of_app in He as [He|He]; [left; by exists e|right].
    assert (Hl : (MAX_PARENT_EVIDENCE_ENTRIES < length (ranked items))%nat).
    { apply list_elem_of_lookup_1 in He as [i Hi]. apply lookup_lt_Some in Hi. rewrite length_drop in Hi. lia. }
    split; [rewrite length_take; lia|]. apply Forall_forall. intros e' He'.
    eapply evidence_le_trans; [|by apply Hmin].
    pose proof (ranked_sorted items) as Hs.
    rewrite <- (take_drop MAX_PARENT_EVIDENCE_ENTRIES (ranked items)) in Hs.
    by eapply StronglySorted_app_1_elem_of.
Qed.

(** ** Concrete runs *)

Definition demo_evidence (id : string) (seq : Z) (impact : Impact) : WorkflowObservationEvidence :=
  mkObserved (bytes_of id) seq (bytes_of "s") Obstacle (bytes_of "d") (bytes_of "e") None impact Agent
    f_half (bytes_of "t").
Definition demo_family (name : string) (parent : option string) : Recommendation :=
  mkRecommendation (bytes_of name) (if parent is Some _ then RolledUp else Proposed) (bytes_of "T") (bytes_of "S")
    [demo_evidence "o1" 1 Low; demo_evidence "o2" 2 High] [bytes_of "s"] (bytes_of "k") Documentation
    [bytes_of "o1"] [] (bytes_of <$> parent).
Definition demo_parent : Recommendation :=
  mkRecommendation (bytes_of "p") Proposed (bytes_of "T") (bytes_of "S") [] [] (bytes_of "k")
    Documentation [] [bytes_of "a"; bytes_of "c"] None.
(** A parent with its members [a] and [c], and a family [b] of its own. *)
Definition demo_recommendations : list Recommendation :=
  [demo_family "c" (Some "p"); demo_family "b" None; demo_parent; demo_family "a" (Some "p")].
Definition demo_cluster (ids : list string) : ModelRollupCluster :=
  mkModelCluster (bytes_of <$> ids) Documentation (bytes_of "Title") (bytes_of "Summary")
    (demo_change "docs/guide.md").
Definition demo_snapshots : list RollupFamilySnapshot :=
  match build_rollup_family_snapshots_with_offset (λ _, []) (λ l, Z.of_nat (length l)) demo_recommendations 0
  with Ok out => out | Err _ => [] end.

Example demo_batches :
  (λ s, recommendation_id s) <$> demo_snapshots = [bytes_of "b"; bytes_of "a"; bytes_of "c"]
  ∧ (groups_of demo_recommendations).*1 = [bytes_of "b"; bytes_of "p"].
Proof. vm_compute. split; reflexivity. Qed.

Lemma accepted_clusters_disjoint_witness :
  ∃ out, validate_rollup_clusters to_ascii_lowercase (λ _, 100) (λ _, 100) (λ _, 100) demo_snapshots
    [demo_cluster ["c"; "a"]] = Ok out ∧ NoDup (concat (member_recommendation_ids <$> out)).
Proof.
  eexists. split; [vm_compute; reflexivity|].
  apply (accepted_clusters_disjoint to_ascii_lowercase (λ _, 100) (λ _, 100) (λ _, 100) demo_snapshots
    [demo_cluster ["c"; "a"]]).
  vm_compute. reflexivity.
Defined.

Example overlapping_clusters_rejected :
  validate_rollup_clusters to_ascii_lowercase (λ _, 100) (λ _, 100) (λ _, 100) demo_snapshots
    [demo_cluster ["c"; "a"]; demo_cluster ["b"; "c"]] = Err (OverlappingMember (bytes_of "c")).
Proof. vm_compute. reflexivity. Qed.

Lemma group_heads_its_batch_witness :
  ∃ gs rest, recommendation_id <$> gs = [bytes_of "a"; bytes_of "c"]
    ∧ build_rollup_family_snapshots_with_offset (λ _, []) (λ l, Z.of_nat (length l)) demo_recommendations 3
      = Ok (gs ++ rest).
Proof.
  destruct (group_heads_its_batch (λ _, []) (λ l, Z.of_nat (length l)) demo_recommendations 1
    (bytes_of "p", [(comparable (demo_family "a" (Some "p")), Some demo_parent);
                    (comparable (demo_family "c" (Some "p")), Some demo_parent)]) 3)
    as (gs & rest & _ & Hids & H).
  - vm_compute. reflexivity.
  - vm_compute. reflexivity.
  - vm_compute. lia.
  - intros gs H. vm_compute in H. injection H as <-. vm_compute. discriminate.
  - exists gs, rest. split; [exact Hids|exact H].
Defined.

Example parent_evidence_run :
  observation_id <$> project_parent_evidence (λ l, Z.of_nat (length l) * 50000)
    [demo_evidence "x" 1 Low; demo_evidence "y" 2 High; demo_evidence "x" 5 Low; demo_evidence "z" 3 Medium]
  = [bytes_of "y"; bytes_of "z"].
Proof. vm_compute. reflexivity. Qed.
