(* ===== verification/RecommendationGraph.v ===== *)
(** * The graph of recommendations

    The records of taskmaster/store.rs and what holds between them: ids and the file
    names made of them, the validation of a whole graph of roll-up parents and members,
    and the closure that is deleted with a session.

    Of a [Recommendation] all fields are kept but those that are never set by the modelled
    code (the suggested launch, the expiry, the proposed change) and, of its assessment,
    only whether access to it was redacted; [workflow_improvement] is flattened.  The
    digest [sha256_hex] is an argument. *)
From S2P Require Export Rollup CompletionPacket.

(** ** Data *)

Inductive RecommendationType : Type := ImproveWorkflow | Cleanup.
#[export] Instance RecommendationType_eq_dec : EqDecision RecommendationType.
Proof. solve_decision. Defined.
Inductive AuditCriterion : Type := UnderEligible | Noise | Duplicate | Stale.
#[export] Instance AuditCriterion_eq_dec : EqDecision AuditCriterion.
Proof. solve_decision. Defined.

Inductive RecommendationConfidence : Type := LowConfidence | MediumConfidence | HighConfidence.
#[export] Instance RecommendationConfidence_eq_dec : EqDecision RecommendationConfidence.
Proof. solve_decision. Defined.

Record RepositoryEvidence : Type := mkRepository {
  repository_path : list Z;
  repository_sha256 : list Z;
  repository_excerpt : list Z;
  repository_observed_at : list Z;
}.
Record KnowledgeEvidence : Type := mkKnowledge {
  page_id : list Z;
  page_title : list Z;
  page_status : list Z;
  bundle_version : list Z;
  page_sha256 : list Z;
  page_excerpt : list Z;
}.
Record AuditCleanupEntry : Type := mkEntry {
  entry_id : list Z;
  entry_title : list Z;
  criteria : list AuditCriterion;
}.
Record AuditCleanup : Type := mkAudit {
  entries : list AuditCleanupEntry;
  scanned : nat;
  healthy : nat;
  stale_after_days : Z;
}.
Record DismissalWatermark : Type := mkWatermark {
  dismissed_at : list Z;
  dismissed_through_sequence : Z;
  watermark_observation_ids : list (list Z);
  qualifying_count : Z;
  highest_impact : Impact;
  watermark_session_ids : list (list Z);
  reason : option (list Z);
}.
Record Recommendation : Type := mkRecommendation {
  access_redacted : bool;
  id : list Z;
  workspace_id : list Z;
  chain_id : list Z;
  chain_depth : Z;
  recommendation_type : RecommendationType;
  status : RecommendationStatus;
  priority : Impact;
  title : list Z;
  summary : list Z;
  reasons : list (list Z);
  evidence : list WorkflowObservationEvidence;
  repository_evidence : list RepositoryEvidence;
  knowledge_evidence : list KnowledgeEvidence;
  source_session_ids : list (list Z);
  target_session_id : option (list Z);
  confidence_level : RecommendationConfidence;
  requires_approval : bool;
  dedupe_key : list Z;
  created_at : list Z;
  updated_at : list Z;
  proposed_improvement : list Z;
  improvement_surface : TargetSurface;
  improvement_observation_ids : list (list Z);
  recurrence_count : Z;
  affected_session_ids : list (list Z);
  improvement_impact : Impact;
  expected_benefit : list Z;
  supersedes_recommendation_id : option (list Z);
  dismissal_watermark : option DismissalWatermark;
  completion_packet : option CompletionPacket;
  audit : option AuditCleanup;
  rollup_member_ids : list (list Z);
  rollup_member_dedupe_keys : list (list Z);
  rollup_generation : option Z;
  rolled_up_by : option (list Z);
}.

(** ** Ids and file names *)

Definition id_byte (b : Z) : bool := is_ascii_alphanumeric b || (b =? 0x2d) || (b =? 0x5f).
Definition valid_id (id : list Z) : bool :=
  (negb (id == []) && forallb id_byte id)
  || is_some_and (strip_prefix (bytes_of "rollup:") id) (λ digest,
       (length digest =? 64)%nat && forallb is_ascii_hexdigit digest).

Definition upper_hex (n : Z) : Z := if n <? 10 then 0x30 + n else 55 + n.
Fixpoint filename_component (id : list Z) : list Z :=
  match id with
  | [] => []
  | b :: id =>
      (if id_byte b then [b] else [0x25; upper_hex (b / 16); upper_hex (b mod 16)])
      ++ filename_component id
  end.
Definition recommendation_filename (id : list Z) : list Z := filename_component id ++ bytes_of ".json".
Definition transaction_staged_path (id : list Z) : list Z :=
  bytes_of "staged/" ++ filename_component id ++ bytes_of ".json".
Definition transaction_backup_path (id : list Z) : list Z :=
  bytes_of "backups/" ++ filename_component id ++ bytes_of ".json".
Definition transaction_restore_path (id : list Z) : list Z :=
  bytes_of "restore-" ++ filename_component id ++ bytes_of ".json".

(** ** Validation *)

Definition graph_error : Type := string.
Definition is_active (r : Recommendation) : bool :=
  (status r == Proposed) || (status r == Executing).

Section graph.
Context (sha256_hex : list Z → list Z).
Implicit Types (by_id : gmap (list Z) Recommendation) (records : list Recommendation).

Definition by_id_of records : gmap (list Z) Recommendation :=
  list_to_map (reverse ((λ r, (id r, r)) <$> records)).

Fixpoint check_members by_id (member_ids : gset (list Z)) (members : list (list Z))
    : result graph_error unit :=
  match members with
  | [] => Ok tt
  | member :: members =>
      _ ← ensure (bool_decide (member ∉ member_ids)) "lists member more than once";
      _ ← ensure (is_some (by_id !! member)) "references missing member";
      check_members by_id ({[member]} ∪ member_ids) members
  end.
(** The inner loop over the members of an active parent. *)
Fixpoint own_members by_id (parent : list Z) (active_members : gmap (list Z) (list Z))
    (members : list (list Z)) : result graph_error (gmap (list Z) (list Z)) :=
  match members with
  | [] => Ok active_members
  | member :: members =>
      _ ← ensure (is_some_and (by_id !! member) (λ m,
            (status m == RolledUp) && (rolled_up_by m == Some parent))) "active parent does not own member";
      _ ← ensure (is_none (active_members !! member)) "member belongs to two active parents";
      own_members by_id parent (<[member := parent]> active_members) members
  end.
Definition sort_keys (keys : list (list Z)) : list (list Z) := sort_by key_leb keys.
Definition check_record by_id (r : Recommendation) : result graph_error unit :=
  _ ← ensure (length (rollup_member_ids r) =? length (rollup_member_dedupe_keys r))%nat
        "mismatched member and dedupe-key lists";
  _ ← check_members by_id ∅ (rollup_member_ids r);
  _ ← ensure ((rollup_member_ids r == []) || (id r == stable_rollup_id sha256_hex (rollup_member_ids r)))
        "does not match its stable member identity";
  _ ← ensure (sort_keys (rollup_member_dedupe_keys r)
              == sort_keys (omap (λ m, dedupe_key <$> by_id !! m) (rollup_member_ids r)))
        "member dedupe keys that do not match its members";
  _ ← ensure (is_none (rolled_up_by r) || (status r == RolledUp)) "non-rolled-up recommendation has a current parent";
  ensure (negb (status r == RolledUp) || is_some (rolled_up_by r)) "rolled-up recommendation has no current parent".
Fixpoint first_loop by_id (active_members : gmap (list Z) (list Z)) records : result graph_error unit :=
  match records with
  | [] => Ok tt
  | r :: records =>
      _ ← check_record by_id r;
      active_members ← (if is_active r then own_members by_id (id r) active_members (rollup_member_ids r)
                        else Ok active_members);
      first_loop by_id active_members records
  end.
Definition check_parent by_id (r : Recommendation) : result graph_error unit :=
  match status r, rolled_up_by r with
  | RolledUp, Some parent_id =>
      match by_id !! parent_id with
      | None => Err "member points to missing parent"
      | Some parent =>
          ensure (length (List.filter (λ m, m == id r) (rollup_member_ids parent)) =? 1)%nat
            "parent does not list member exactly once"
      end
  | _, _ => Ok tt
  end.
Fixpoint second_loop by_id records : result graph_error unit :=
  match records with
  | [] => Ok tt
  | r :: records => _ ← check_parent by_id r; second_loop by_id records
  end.
Definition validate_graph_records records : result graph_error unit :=
  let by_id := by_id_of records in
  _ ← ensure (size by_id =? length records)%nat "duplicate recommendation IDs";
  _ ← first_loop by_id ∅ records;
  second_loop by_id records.
End graph.

(** ** Deletion *)

Definition mentions (r : Recommendation) : gset (list Z) :=
  list_to_set (option_list (rolled_up_by r) ++ rollup_member_ids r).
(** The first loop of a round: parents and members of what is there. *)
Definition add_mentioned (records : list Recommendation) (ids : gset (list Z)) : gset (list Z) :=
  foldr (λ i ids, match by_id_of records !! i with Some r => mentions r ∪ ids | None => ids end)
    ids (elements ids).
(** The second: parents of what is there by now. *)
Definition add_parents (records : list Recommendation) (ids : gset (list Z)) : gset (list Z) :=
  fold_left (λ ids r, if existsb (λ m, bool_decide (m ∈ ids)) (rollup_member_ids r) then {[id r]} ∪ ids else ids)
    records ids.
Fixpoint deletion_rounds (rounds : nat) (records : list Recommendation) (ids : gset (list Z))
    : option (gset (list Z)) :=
  match rounds with
  | O => None
  | S rounds =>
      let next := add_parents records (add_mentioned records ids) in
      if next == ids then Some ids else deletion_rounds rounds records next
  end.
(** Every id that can come in. *)
Definition mentioned_ids (records : list Recommendation) (ids : gset (list Z)) : gset (list Z) :=
  ids ∪ list_to_set (id <$> records) ∪ ⋃ (mentions <$> records).
Definition deletion_graph_ids (records : list Recommendation) (ids : gset (list Z)) : gset (list Z) :=
  default ids (deletion_rounds (S (size (mentioned_ids records ids))) records ids).

(** ** File names keep ids apart *)

Lemma upper_hex_inj a b : 0 <= a < 16 → 0 <= b < 16 → upper_hex a = upper_hex b → a = b.
Proof. unfold upper_hex. intros. repeat case_match; to_prop; lia. Qed.
Lemma id_byte_percent : id_byte 0x25 = false.
Proof. done. Qed.

Lemma filename_component_inj a b :
  Forall is_u8 a → Forall is_u8 b → filename_component a = filename_component b → a = b.
Proof.
  assert (Hdiv : ∀ x, is_u8 x → 0 <= x / 16 < 16 ∧ 0 <= x mod 16 < 16).
  { intros x [Hx1 Hx2]. unfold u8_max in Hx2. split; [|apply Z.mod_pos_bound; lia].
    split; [apply Z.div_pos; lia|apply Z.div_lt_upper_bound; lia]. }
  intros Ha. revert b. induction Ha as [|x a Hx Ha IH]; intros b Hb H.
  - destruct b as [|y b]; [done|]. cbn in H. destruct (id_byte y); discriminate H.
  - destruct Hb as [|y b Hy Hb]; [cbn in H; destruct (id_byte x); discriminate H|].
    cbn [filename_component] in H. destruct (id_byte x) eqn:Ex, (id_byte y) eqn:Ey; cbn [app] in H.
    + injection H as -> H. f_equal. by apply IH.
    + injection H as Hxy _. by rewrite Hxy, id_byte_percent in Ex.
    + injection H as Hxy _. by rewrite <- Hxy, id_byte_percent in Ey.
    + injection H as H1 H2 H. destruct (Hdiv x Hx), (Hdiv y Hy).
      apply upper_hex_inj in H1; [|done..]. apply upper_hex_inj in H2; [|done..].
      f_equal; [|by apply IH]. rewrite (Z.div_mod x 16), (Z.div_mod y 16) by lia. lia.
Qed.

Lemma id_byte_u8 b : id_byte b = true → is_u8 b.
Proof.
  unfold id_byte, is_ascii_alphanumeric, is_ascii_digit, is_ascii_uppercase, in_width, u8_max. intros H.
  to_prop. lia.
Qed.
Lemma valid_id_u8 i : valid_id i = true → Forall is_u8 i.
Proof.
  intros [H|H]%orb_true_iff.
  - apply andb_true_iff in H as [_ H]. apply forallb_true in H. eapply Forall_impl; [exact H|].
    intros b. apply id_byte_u8.
  - apply is_some_and_true in H as (digest & Hd & H). apply strip_prefix_Some in Hd as ->.
    apply andb_true_iff in H as [_ H]. apply forallb_true in H. apply Forall_app. split.
    + cbn. repeat (apply Forall_cons; split; [unfold in_width, u8_max; lia|]). apply Forall_nil_2.
    + eapply Forall_impl; [exact H|]. intros b Hb. unfold is_ascii_hexdigit, is_ascii_digit in Hb.
      unfold in_width, u8_max. to_prop. lia.
Qed.
Lemma filename_inj a b :
  valid_id a = true → valid_id b = true → recommendation_filename a = recommendation_filename b → a = b.
Proof.
  intros Ha Hb H. unfold recommendation_filename in H. apply app_inv_tail in H.
  by apply filename_component_inj; [apply valid_id_u8..|].
Qed.

(** ** What validation means *)

Section lookups.
Implicit Types (records : list Recommendation).

Lemma filter_single (l : list (list Z)) x : NoDup l → x ∈ l → length (List.filter (λ m, m == x) l) = 1%nat.
Proof.
  induction 1 as [|y l Hy Hn IH]; intros Hx; [by apply elem_of_nil in Hx|]. cbn.
  apply elem_of_cons in Hx as [->|Hx].
  - rewrite eqb_refl. cbn. f_equal. clear IH Hn. induction l as [|z l IH]; [done|].
    apply not_elem_of_cons in Hy as [Hz Hy]. cbn. rewrite (proj2 (eqb_false z y)) by congruence. by apply IH.
  - rewrite (proj2 (eqb_false y x)) by set_solver. by apply IH.
Qed.

Definition owned_by (p m : Recommendation) : Prop := status m = RolledUp ∧ rolled_up_by m = Some (id p).
Definition member_of (records : list Recommendation) (m : list Z) (x : Recommendation) : Prop := x ∈ records ∧ id x = m.

Lemma record_lookup records m x :
  NoDup (id <$> records) → by_id_of records !! m = Some x ↔ member_of records m x.
Proof.
  intros Hn. unfold by_id_of, member_of. rewrite <- elem_of_list_to_map.
  - rewrite elem_of_reverse, list_elem_of_fmap. naive_solver.
  - by rewrite fmap_reverse, reverse_Permutation, <- list_fmap_compose.
Qed.
Lemma by_id_present records m : is_some (by_id_of records !! m) = true ↔ m ∈ id <$> records.
Proof.
  unfold by_id_of. rewrite is_some_true. split.
  - intros [x Hx]. apply elem_of_list_to_map_2 in Hx. rewrite elem_of_reverse in Hx.
    apply list_elem_of_fmap in Hx as (y & [= -> ->] & Hy). by apply list_elem_of_fmap_2.
  - intros Hm. destruct (list_to_map _ !! m) as [x|] eqn:E; [by exists x|].
    apply not_elem_of_list_to_map in E. destruct E.
    by rewrite fmap_reverse, reverse_Permutation, <- list_fmap_compose.
Qed.
Lemma list_to_set_size (l : list (list Z)) : (size (list_to_set l : gset (list Z)) <= length l)%nat.
Proof.
  induction l as [|x l IH]; [done|]. cbn [list_to_set length].
  rewrite size_union_alt, size_singleton.
  pose proof (subseteq_size ((list_to_set l : gset (list Z)) ∖ {[x]}) (list_to_set l)) as H.
  specialize (H ltac:(set_solver)). lia.
Qed.
Lemma records_size records : size (by_id_of records) = length records ↔ NoDup (id <$> records).
Proof.
  assert (Hd : dom (by_id_of records) = list_to_set (id <$> records)).
  { apply set_eq. intros m. rewrite elem_of_dom, elem_of_list_to_set, <- by_id_present, is_some_true.
    split; intros [x ?]; by exists x. }
  rewrite <- size_dom, Hd, <- (length_fmap id records). split.
  - intros H. clear Hd. induction (id <$> records) as [|x l IH]; [constructor|].
    cbn [list_to_set length] in H. destruct (decide (x ∈ l)) as [Hin|Hin].
    + rewrite subseteq_union_1_L in H by set_solver. pose proof (list_to_set_size l). lia.
    + rewrite size_union, size_singleton in H by set_solver. apply NoDup_cons. split; [done|]. apply IH. lia.
  - intros H. by apply size_list_to_set.
Qed.
End lookups.

Section valid.
Context (sha256_hex : list Z → list Z).
Implicit Types (records : list Recommendation).

Record record_ok records (r : Recommendation) : Prop := {
  ok_lengths : length (rollup_member_ids r) = length (rollup_member_dedupe_keys r);
  ok_distinct : NoDup (rollup_member_ids r);
  ok_present : ∀ m, m ∈ rollup_member_ids r → m ∈ id <$> records;
  ok_identity : rollup_member_ids r ≠ [] → id r = stable_rollup_id sha256_hex (rollup_member_ids r);
  ok_keys : ∀ members, Forall2 (member_of records) (rollup_member_ids r) members →
    sort_keys (rollup_member_dedupe_keys r) = sort_keys (dedupe_key <$> members);
  ok_current : rolled_up_by r ≠ None ↔ status r = RolledUp;
  ok_owns : is_active r = true →
    ∀ m x, m ∈ rollup_member_ids r → member_of records m x → owned_by r x;
  ok_parent : ∀ p, rolled_up_by r = Some p → ∃ x, member_of records p x ∧ id r ∈ rollup_member_ids x;
}.
Record valid_graph records : Prop := {
  valid_ids : NoDup (id <$> records);
  valid_records : ∀ r, r ∈ records → record_ok records r;
}.

Lemma ensure_bind_Ok {E B} b (e : E) (m : result E B) v :
  (_ ← ensure b e; m) = Ok v ↔ b = true ∧ m = Ok v.
Proof. destruct b; cbn; naive_solver. Qed.
Lemma members_check_Ok by_id seen members :
  check_members by_id seen members = Ok tt
  ↔ NoDup members ∧ ∀ m, m ∈ members → (m ∉ seen) ∧ is_some (by_id !! m) = true.
Proof.
  revert seen. induction members as [|m members IH]; intros seen; cbn [check_members].
  { split; [|done]. intros _. split; [constructor|]. by intros m ?%elem_of_nil. }
  rewrite !ensure_bind_Ok, IH, bool_decide_eq_true, NoDup_cons. split.
  - intros (Hm & Hp & Hn & Hall). split.
    + split; [|done]. intros Hin. destruct (Hall m Hin) as [Hx _]. set_solver.
    + intros m' [->|Hin]%elem_of_cons; [done|]. destruct (Hall m' Hin). set_solver.
  - intros ([Hm Hn] & Hall). split; [apply Hall; by left|].
    split; [apply Hall; by left|]. split; [done|]. intros m' Hin.
    destruct (Hall m'); [by right|]. split; [|done]. set_solver.
Qed.

Definition owns_cond (by_id : gmap (list Z) Recommendation) (p m : list Z) : bool :=
  is_some_and (by_id !! m) (λ x, (status x == RolledUp) && (rolled_up_by x == Some p)).
Lemma own_members_Ok by_id p act members act' :
  NoDup members →
  own_members by_id p act members = Ok act'
  ↔ (∀ m, m ∈ members → owns_cond by_id p m = true ∧ act !! m = None)
    ∧ act' = foldl (λ act m, <[m := p]> act) act members.
Proof.
  intros Hn. revert act. induction Hn as [|m members Hm Hn IH]; intros act; cbn [own_members foldl].
  { split; [intros [= ->]|by intros [_ ->]]. split; [by intros m ?%elem_of_nil|done]. }
  rewrite !ensure_bind_Ok, IH, is_none_true. split.
  - intros (Ho & Ha & Hall & ->). split; [|done].
    intros m' [->|Hin]%elem_of_cons; [done|]. destruct (Hall m' Hin) as [? Hl]. split; [done|].
    rewrite lookup_insert_ne in Hl by set_solver. done.
  - intros [Hall ->]. split; [apply Hall; by left|].
    split; [apply Hall; by left|]. split; [|done]. intros m' Hin. destruct (Hall m'); [by right|].
    split; [done|]. rewrite lookup_insert_ne by set_solver. done.
Qed.
Lemma foldl_owner (act : gmap (list Z) (list Z)) (p : list Z) members m q :
  foldl (λ act m, <[m := p]> act) act members !! m = Some q → (m ∈ members ∧ q = p) ∨ act !! m = Some q.
Proof.
  revert act. induction members as [|x members IH]; intros act H; cbn in H; [by right|].
  apply IH in H as [[Hin ->]|H]; [left; split; [by right|done]|].
  apply lookup_insert_Some in H as [[-> ->]|[_ H]]; [left; split; [by left|done]|by right].
Qed.

Definition owners_sound (by_id : gmap (list Z) Recommendation) (act : gmap (list Z) (list Z)) records : Prop :=
  ∀ m p, act !! m = Some p → owns_cond by_id p m = true ∧ (p ∉ id <$> records).
Lemma owns_unique by_id p q m : owns_cond by_id p m = true → owns_cond by_id q m = true → p = q.
Proof.
  unfold owns_cond. rewrite !is_some_and_true. intros (x & Hx & Hp) (y & Hy & Hq).
  rewrite Hx in Hy. injection Hy as <-. rewrite !andb_true_iff, !eqb_true in *. destruct Hp, Hq. congruence.
Qed.
Definition active_owns (by_id : gmap (list Z) Recommendation) (r : Recommendation) : Prop :=
  is_active r = true → ∀ m, m ∈ rollup_member_ids r → owns_cond by_id (id r) m = true.
Lemma check_record_distinct by_id r : check_record sha256_hex by_id r = Ok tt → NoDup (rollup_member_ids r).
Proof.
  unfold check_record. intros H. apply result_bind_Ok in H as (_ & _ & H).
  apply result_bind_Ok in H as ([] & H & _). by apply members_check_Ok in H as [? _].
Qed.
Lemma first_loop_Ok by_id act records :
  NoDup (id <$> records) → owners_sound by_id act records →
  first_loop sha256_hex by_id act records = Ok tt
  ↔ ∀ r, r ∈ records → check_record sha256_hex by_id r = Ok tt ∧ active_owns by_id r.
Proof.
  intros Hn. revert act. induction records as [|r records IH]; intros act Hs; cbn [first_loop].
  { split; [|done]. by intros _ r ?%elem_of_nil. }
  rewrite fmap_cons in Hn. apply NoDup_cons in Hn as [Hr Hn]. specialize (IH Hn).
  assert (Hact : check_record sha256_hex by_id r = Ok tt → active_owns by_id r →
    ∃ act', (if is_active r then own_members by_id (id r) act (rollup_member_ids r) else Ok act) = Ok act').
  { intros Hc Ho. unfold active_owns in Ho. destruct (is_active r); [|by exists act]. eexists.
    apply own_members_Ok; [by apply check_record_distinct with by_id|]. split; [|done].
    intros m Hm. split; [by apply Ho|]. destruct (act !! m) as [p|] eqn:Hp; [|done].
    apply Hs in Hp as [Hp Hnot]. rewrite (owns_unique by_id p (id r) m) in Hnot by auto.
    destruct Hnot. by left. }
  rewrite result_bind_Ok. split.
  - intros ([] & Hc & H). apply result_bind_Ok in H as (act' & Ha & H).
    assert (Ho : active_owns by_id r ∧ owners_sound by_id act' records).
    { unfold active_owns. destruct (is_active r).
      - apply own_members_Ok in Ha as [Hall ->]; [|by apply check_record_distinct with by_id].
        split; [intros _ m Hm; by apply Hall|]. intros m p [[Hm ->]|Hp]%foldl_owner.
        + split; [by apply Hall|done].
        + apply Hs in Hp as [Hp Hnot]. split; [done|]. set_solver.
      - injection Ha as <-. split; [done|]. intros m p Hp. apply Hs in Hp as [Hp Hnot].
        split; [done|]. set_solver. }
    destruct Ho as [Ho Hs']. rewrite (IH act' Hs') in H.
    intros r' [->|Hin]%elem_of_cons; [done|by apply H].
  - intros H. destruct (H r) as [Hc Ho]; [by left|]. destruct (Hact Hc Ho) as [act' Ha].
    exists tt. split; [done|]. apply result_bind_Ok. exists act'. split; [done|]. apply IH.
    + destruct (is_active r) eqn:Eact.
      * apply own_members_Ok in Ha as [Hall ->]; [|by apply check_record_distinct with by_id].
        intros m p [[Hm ->]|Hp]%foldl_owner; [split; [by apply Ho|done]|].
        apply Hs in Hp as [Hp Hnot]. split; [done|]. set_solver.
      * injection Ha as <-. intros m p Hp. apply Hs in Hp as [Hp Hnot]. split; [done|]. set_solver.
    + intros r' Hin. apply H. by right.
Qed.
Lemma second_loop_Ok by_id records :
  second_loop by_id records = Ok tt ↔ ∀ r, r ∈ records → check_parent by_id r = Ok tt.
Proof.
  induction records as [|r records IH]; cbn [second_loop].
  { split; [|done]. by intros _ r ?%elem_of_nil. }
  rewrite result_bind_Ok. split.
  - intros ([] & Hr & H). rewrite IH in H. intros r' [->|Hin]%elem_of_cons; auto.
  - intros H. exists tt. split; [apply H; by left|]. apply IH. intros r' Hin. apply H. by right.
Qed.
(** The members of a record, when all are there. *)
Lemma members_exist records members :
  (∀ m, m ∈ members → m ∈ id <$> records) → ∃ xs, Forall2 (member_of records) members xs.
Proof.
  induction members as [|m members IH]; intros H; [by exists []|].
  destruct IH as [xs Hxs]; [intros; apply H; by right|].
  destruct (proj1 (list_elem_of_fmap _ _ _) (H m ltac:(by left))) as (x & -> & Hx).
  exists (x :: xs). by constructor.
Qed.
Lemma members_keys records members xs :
  NoDup (id <$> records) → Forall2 (member_of records) members xs →
  omap (λ m, dedupe_key <$> by_id_of records !! m) members = dedupe_key <$> xs.
Proof.
  intros Hn H. induction H as [|m x members xs Hm H IH]; [done|]. cbn.
  rewrite (proj2 (record_lookup records m x Hn) Hm). cbn. by rewrite IH.
Qed.
Lemma owns_cond_spec records p m :
  NoDup (id <$> records) → m ∈ id <$> records →
  owns_cond (by_id_of records) p m = true
  ↔ ∀ x, member_of records m x → status x = RolledUp ∧ rolled_up_by x = Some p.
Proof.
  intros Hn (x & -> & Hx)%list_elem_of_fmap. unfold owns_cond. rewrite is_some_and_true. split.
  - intros (y & Hy & H) z Hz. apply (record_lookup records _ z Hn) in Hz.
    rewrite Hy in Hz. injection Hz as <-. by rewrite andb_true_iff, !eqb_true in H.
  - intros H. exists x. split; [by apply record_lookup|]. rewrite andb_true_iff, !eqb_true. by apply H.
Qed.
Lemma check_parent_Ok records r :
  NoDup (id <$> records) → (∀ x, x ∈ records → NoDup (rollup_member_ids x)) →
  (rolled_up_by r ≠ None ↔ status r = RolledUp) →
  check_parent (by_id_of records) r = Ok tt
  ↔ ∀ p, rolled_up_by r = Some p → ∃ x, member_of records p x ∧ id r ∈ rollup_member_ids x.
Proof.
  intros Hn Hd Hcur. unfold check_parent. destruct (rolled_up_by r) as [p|] eqn:Hp.
  2: { split; [done|]. intros _. by destruct (status r). }
  rewrite (proj1 Hcur ltac:(done)). destruct (by_id_of records !! p) as [x|] eqn:Hx.
  - apply record_lookup in Hx; [|done]. destruct (decide (id r ∈ rollup_member_ids x)) as [Hin|Hin].
    + split; [|intros _].
      * intros _ q [= <-]. by exists x.
      * apply ensure_Ok, Nat.eqb_eq. apply filter_single; [by apply Hd, Hx|done].
    + split.
      * intros H%ensure_Ok%Nat.eqb_eq. destruct Hin.
        destruct (List.filter (λ m, m == id r) (rollup_member_ids x)) as [|m l] eqn:Ef; [done|].
        assert (Hm : In m (m :: l)) by by left. rewrite <- Ef in Hm.
        apply filter_In in Hm as [Hm ->%eqb_true]. by apply list_elem_of_In.
      * intros H. destruct (H p eq_refl) as (y & Hy & Hm). destruct Hin.
        apply (record_lookup records p y Hn) in Hy. apply (record_lookup records p x Hn) in Hx. congruence.
  - split; [done|]. intros H. destruct (H p eq_refl) as (y & Hy & _).
    apply (record_lookup records p y Hn) in Hy. congruence.
Qed.

Lemma check_record_Ok records r :
  NoDup (id <$> records) → check_record sha256_hex (by_id_of records) r = Ok tt
  ↔ length (rollup_member_ids r) = length (rollup_member_dedupe_keys r)
    ∧ NoDup (rollup_member_ids r) ∧ (∀ m, m ∈ rollup_member_ids r → m ∈ id <$> records)
    ∧ (rollup_member_ids r ≠ [] → id r = stable_rollup_id sha256_hex (rollup_member_ids r))
    ∧ (∀ xs, Forall2 (member_of records) (rollup_member_ids r) xs →
         sort_keys (rollup_member_dedupe_keys r) = sort_keys (dedupe_key <$> xs))
    ∧ (rolled_up_by r ≠ None ↔ status r = RolledUp).
Proof.
  intros Hn. unfold check_record. rewrite ensure_bind_Ok, Nat.eqb_eq.
  assert (Hpresent : ∀ m, is_some (by_id_of records !! m) = true ↔ m ∈ id <$> records)
    by apply by_id_present.
  assert (Hkeys : (∀ m, m ∈ rollup_member_ids r → m ∈ id <$> records) →
    (sort_keys (rollup_member_dedupe_keys r)
       == sort_keys (omap (λ m, dedupe_key <$> by_id_of records !! m) (rollup_member_ids r))) = true
    ↔ ∀ xs, Forall2 (member_of records) (rollup_member_ids r) xs →
        sort_keys (rollup_member_dedupe_keys r) = sort_keys (dedupe_key <$> xs)).
  { intros Hall. rewrite eqb_true. destruct (members_exist records _ Hall) as [xs Hxs]. split.
    - intros -> ys Hys. by rewrite (members_keys records _ ys Hn Hys).
    - intros H. rewrite (members_keys records _ xs Hn Hxs). by apply H. }
  assert (Hcur : (is_none (rolled_up_by r) || (status r == RolledUp)) = true
      ∧ (negb (status r == RolledUp) || is_some (rolled_up_by r)) = true
    ↔ (rolled_up_by r ≠ None ↔ status r = RolledUp)).
  { destruct (rolled_up_by r), (decide (status r = RolledUp)) as [->|Hs]; cbn;
      rewrite ?eqb_refl, ?(proj2 (eqb_false _ _) Hs); cbn; naive_solver. }
  rewrite <- Hcur. split.
  - intros [Hl H]. apply result_bind_Ok in H as ([] & Hm & H). apply members_check_Ok in Hm as [Hd Hm].
    rewrite !ensure_bind_Ok, ensure_Ok in H. destruct H as (Hi & Hk & Hc1 & Hc2).
    assert (Hall : ∀ m, m ∈ rollup_member_ids r → m ∈ id <$> records) by (intros m ?; by apply Hpresent, Hm).
    split_and!; try done; [|by apply Hkeys].
    intros Hne. apply orb_true_iff in Hi as [Hi|Hi]; [by apply eqb_elim in Hi|by apply eqb_elim in Hi].
  - intros (Hl & Hd & Hall & Hi & Hk & Hc1 & Hc2). split; [done|]. apply result_bind_Ok. exists tt. split.
    + apply members_check_Ok. split; [done|]. intros m Hm. split; [set_solver|]. by apply Hpresent, Hall.
    + rewrite !ensure_bind_Ok, ensure_Ok. split_and!; [|by apply Hkeys|done..].
      destruct (decide (rollup_member_ids r = [])) as [->|Hne]; [done|].
      rewrite (proj2 (eqb_true _ _) (Hi Hne)). apply orb_true_r.
Qed.

Lemma validate_exact records : validate_graph_records sha256_hex records = Ok tt ↔ valid_graph records.
Proof.
  unfold validate_graph_records. rewrite ensure_bind_Ok, Nat.eqb_eq, records_size.
  split.
  - intros [Hn H]. apply result_bind_Ok in H as ([] & H1 & H2). split; [done|].
    rewrite first_loop_Ok in H1 by done || (intros m p; by rewrite lookup_empty).
    rewrite second_loop_Ok in H2.
    assert (Hd : ∀ x, x ∈ records → NoDup (rollup_member_ids x)).
    { intros x Hx. destruct (H1 x Hx) as [Hc _]. by apply check_record_distinct in Hc. }
    intros r Hr. destruct (H1 r Hr) as [Hc Ho]. apply check_record_Ok in Hc as (Hl & Hdr & Hp & Hi & Hk & Hcur); [|done].
    pose proof (proj1 (check_parent_Ok records r Hn Hd Hcur) (H2 r Hr)) as Hparent.
    split; try done. intros Hact m x Hm Hx. by apply (proj1 (owns_cond_spec records (id r) m Hn (Hp m Hm)) (Ho Hact m Hm)).
  - intros [Hn H]. split; [done|]. apply result_bind_Ok. exists tt. split.
    + apply first_loop_Ok; [done|intros m p; by rewrite lookup_empty|]. intros r Hr.
      destruct (H r Hr) as [Hl Hd Hp Hi Hk Hcur Ho _]. split; [by apply check_record_Ok|].
      intros Hact m Hm. apply owns_cond_spec; [done|by apply Hp|]. intros x Hx. by apply (Ho Hact m x).
    + apply second_loop_Ok. intros r Hr. apply (proj2 (check_parent_Ok records r Hn (λ x Hx, ok_distinct _ _ (H x Hx)) (ok_current _ _ (H r Hr)))).
      apply (H r Hr).
Qed.
End valid.

(** ** The closure *)

Section closure.
Context (records : list Recommendation).
Implicit Types (C D ids : gset (list Z)).

(** Closed under parents, members, and parents of members. *)
Record closed C : Prop := {
  closed_mentions : ∀ r, r ∈ records → id r ∈ C → mentions r ⊆ C;
  closed_parents : ∀ r m, r ∈ records → m ∈ rollup_member_ids r → m ∈ C → id r ∈ C;
}.

Lemma add_mentioned_grows ids : ids ⊆ add_mentioned records ids.
Proof.
  unfold add_mentioned. induction (elements ids) as [|i l IH]; cbn; [done|]. case_match; set_solver.
Qed.
Lemma add_mentioned_mentions ids i r :
  i ∈ ids → by_id_of records !! i = Some r → mentions r ⊆ add_mentioned records ids.
Proof.
  intros Hi Hr. apply elem_of_elements in Hi. unfold add_mentioned. revert Hi. generalize (elements ids) as l.
  induction l as [|j l IH]; intros Hi; [by apply elem_of_nil in Hi|]. cbn.
  apply elem_of_cons in Hi as [->|Hi]; [rewrite Hr; set_solver|].
  specialize (IH Hi). case_match; set_solver.
Qed.
Lemma add_mentioned_least ids D :
  NoDup (id <$> records) → closed D → ids ⊆ D → add_mentioned records ids ⊆ D.
Proof.
  intros Hn Hc Hi. unfold add_mentioned. assert (Hl : ∀ i, i ∈ elements ids → i ∈ D) by set_solver.
  revert Hl. generalize (elements ids) as l. induction l as [|i l IH]; intros Hl; cbn; [done|].
  destruct (by_id_of records !! i) as [r|] eqn:Hr; [|apply IH; set_solver].
  apply (record_lookup records i r Hn) in Hr as [Hr <-].
  assert (mentions r ⊆ D) by (apply Hc; [done|apply Hl; by left]). set_solver.
Qed.
Lemma add_parents_grows l ids : ids ⊆ add_parents l ids.
Proof.
  revert ids. induction l as [|r l IH]; intros ids; cbn; [done|].
  etrans; [|apply IH]. case_match; set_solver.
Qed.
Lemma add_parents_parents l ids r m :
  r ∈ l → m ∈ rollup_member_ids r → m ∈ ids → id r ∈ add_parents l ids.
Proof.
  revert ids. induction l as [|x l IH]; intros ids Hr Hm Hi; [by apply elem_of_nil in Hr|].
  cbn. apply elem_of_cons in Hr as [->|Hr].
  - assert (He : existsb (λ m, bool_decide (m ∈ ids)) (rollup_member_ids x) = true).
    { apply existsb_exists. exists m. rewrite <- list_elem_of_In, bool_decide_eq_true. done. }
    rewrite He. apply add_parents_grows. set_solver.
  - apply IH; [done..|]. case_match; set_solver.
Qed.
Lemma add_parents_least l ids D :
  (∀ r, r ∈ l → r ∈ records) → closed D → ids ⊆ D → add_parents l ids ⊆ D.
Proof.
  revert ids. induction l as [|r l IH]; intros ids Hl Hc Hi; cbn; [done|].
  apply IH; [intros; apply Hl; by right|done|]. case_match eqn:He; [|done].
  apply existsb_exists in He as (m & Hm & Hd). apply list_elem_of_In in Hm.
  apply bool_decide_eq_true in Hd. assert (id r ∈ D); [|set_solver].
  apply (closed_parents _ Hc r m); [apply Hl; by left|done|set_solver].
Qed.

Lemma round_fixed_closed ids :
  NoDup (id <$> records) → add_parents records (add_mentioned records ids) = ids → closed ids.
Proof.
  intros Hn Heq. assert (Hm : add_mentioned records ids ⊆ ids) by (rewrite <- Heq at 2; apply add_parents_grows).
  split.
  - intros r Hr Hi. etrans; [|exact Hm]. apply (add_mentioned_mentions ids (id r)); [done|].
    by apply record_lookup.
  - intros r m Hr Hmem Hi. rewrite <- Heq. apply (add_parents_parents _ _ r m); [done..|].
    by apply add_mentioned_grows.
Qed.
Lemma mentioned_ids_closed ids : closed (mentioned_ids records ids).
Proof.
  unfold mentioned_ids. split.
  - intros r Hr _. assert (mentions r ⊆ ⋃ (mentions <$> records)); [|set_solver].
    intros i Hi. apply elem_of_union_list. exists (mentions r). split; [by apply list_elem_of_fmap_2|done].
  - intros r m Hr _ _. apply elem_of_union_l, elem_of_union_r, elem_of_list_to_set. by apply list_elem_of_fmap_2.
Qed.

(** The loop ends: a round that changes anything adds an id that is mentioned. *)
Lemma deletion_rounds_spec rounds ids :
  NoDup (id <$> records) → ∀ D0, closed D0 → ids ⊆ D0 → (size D0 < rounds + size ids)%nat →
  ∃ C, deletion_rounds rounds records ids = Some C ∧ ids ⊆ C ∧ closed C
    ∧ ∀ D, closed D → ids ⊆ D → C ⊆ D.
Proof.
  intros Hn D0 HD0. revert ids. induction rounds as [|rounds IH]; intros ids Hi Hsize.
  { apply subseteq_size in Hi. lia. }
  cbn [deletion_rounds]. set (next := add_parents records (add_mentioned records ids)).
  assert (Hgrow : ids ⊆ next).
  { etrans; [apply add_mentioned_grows|apply add_parents_grows]. }
  assert (Hleast : ∀ D, closed D → ids ⊆ D → next ⊆ D).
  { intros D Hc HD. apply add_parents_least; [done..|]. by apply add_mentioned_least. }
  destruct (next == ids) eqn:E.
  - apply eqb_elim in E. exists ids. split; [done|]. split; [done|]. split; [by apply round_fixed_closed|done].
  - assert (Hne : next ≠ ids) by (intros Heq; by rewrite Heq, eqb_refl in E).
    destruct (IH next) as (C & HC & Hsub & Hc & Hl); [by apply Hleast| |].
    + assert (size ids < size next)%nat; [|lia]. apply subset_size. set_solver.
    + exists C. split; [done|]. split; [by etrans|]. split; [done|]. intros D Hd HD. apply Hl; [done|by apply Hleast].
Qed.
Lemma deletion_graph_ids_spec ids :
  NoDup (id <$> records) →
  ids ⊆ deletion_graph_ids records ids ∧ closed (deletion_graph_ids records ids)
  ∧ ∀ D, closed D → ids ⊆ D → deletion_graph_ids records ids ⊆ D.
Proof.
  intros Hn. unfold deletion_graph_ids.
  destruct (deletion_rounds_spec (S (size (mentioned_ids records ids))) ids Hn (mentioned_ids records ids))
    as (C & -> & H); [apply mentioned_ids_closed| |lia|done].
  intros i Hi. unfold mentioned_ids. rewrite !elem_of_union. by left; left.
Qed.
End closure.

Definition kept (records : list Recommendation) (gone : gset (list Z)) : list Recommendation :=
  List.filter (λ r, bool_decide (id r ∉ gone)) records.
Lemma elem_of_kept records gone r : r ∈ kept records gone ↔ r ∈ records ∧ id r ∉ gone.
Proof. unfold kept. by rewrite !list_elem_of_In, filter_In, bool_decide_eq_true. Qed.
Lemma kept_distinct records gone : NoDup (id <$> records) → NoDup (id <$> kept records gone).
Proof.
  induction records as [|r records IH]; cbn; [done|]. rewrite NoDup_cons. intros [Hr Hn].
  case_match; [|by apply IH]. cbn. apply NoDup_cons. split; [|by apply IH].
  intros (x & Hx & Hin)%list_elem_of_fmap. apply Hr. rewrite Hx.
  apply elem_of_kept in Hin as [Hin _]. by apply list_elem_of_fmap_2.
Qed.

(** What is left when a closed set goes is as valid as before. *)
Lemma kept_valid sha256_hex records gone :
  valid_graph sha256_hex records → closed records gone → valid_graph sha256_hex (kept records gone).
Proof.
  intros [Hn H] Hc. split; [by apply kept_distinct|]. intros r [Hr Hk]%elem_of_kept.
  assert (Hsub : ∀ m x, member_of (kept records gone) m x → member_of records m x).
  { intros m x [[Hx _]%elem_of_kept Hm]. done. }
  destruct (H r Hr) as [Hl Hd Hp Hi Hkeys Hcur Ho Hpar]. split; try done.
  - intros m Hm. destruct (proj1 (list_elem_of_fmap _ _ _) (Hp m Hm)) as (x & -> & Hx).
    apply list_elem_of_fmap_2, elem_of_kept. split; [done|]. intros Hgone. apply Hk.
    by apply (closed_parents _ _ Hc r (id x)).
  - intros xs Hxs. apply Hkeys. eapply Forall2_impl; [exact Hxs|]. done.
  - intros Hact m x Hm Hx. by apply (Ho Hact m x); [|apply Hsub].
  - intros p Hrp. destruct (Hpar p Hrp) as (x & [Hx Hp'] & Hm). exists x. split; [|done].
    split; [|done]. apply elem_of_kept. split; [done|]. intros Hgone. apply Hk.
    apply (closed_mentions _ _ Hc x Hx Hgone). unfold mentions. apply elem_of_list_to_set, elem_of_app. by right.
Qed.

(** ** Properties *)

(** C22: the validation of a graph is exact.  [validate_graph_records] accepts a list of
    records iff their ids are distinct and every record has distinct members that are
    there, under its stable identity and with their dedupe keys; is rolled up iff it
    has a current parent, which lists it; and, while it is active, owns its members.
    (That no member has two active parents follows.) *)
Theorem validate_graph_exact sha256_hex records :
  validate_graph_records sha256_hex records = Ok tt ↔ valid_graph sha256_hex records.
Proof. apply validate_exact. Qed.

(** C19: deletion takes a whole family.  The loop that collects what goes with a session
    always ends, with the least set that contains the given ids and is closed under
    parents, members and other parents of members; and removing it from a valid graph
    leaves a valid graph. *)
Theorem deletion_keeps_graph_valid sha256_hex records ids :
  validate_graph_records sha256_hex records = Ok tt →
  let gone := deletion_graph_ids records ids in
  deletion_rounds (S (size (mentioned_ids records ids))) records ids = Some gone
  ∧ ids ⊆ gone ∧ closed records gone ∧ (∀ D, closed records D → ids ⊆ D → gone ⊆ D)
  ∧ validate_graph_records sha256_hex (kept records gone) = Ok tt.
Proof.
  intros Hv gone. apply validate_exact in Hv.
  destruct (deletion_graph_ids_spec records ids (valid_ids _ _ Hv)) as (Hsub & Hc & Hl).
  split; [|split; [done|split; [done|split; [done|]]]].
  - subst gone. unfold deletion_graph_ids.
    destruct (deletion_rounds_spec records (S (size (mentioned_ids records ids))) ids (valid_ids _ _ Hv)
      (mentioned_ids records ids)) as (C & -> & _); [apply mentioned_ids_closed| |lia|done].
    intros i Hi. unfold mentioned_ids. rewrite !elem_of_union. by left; left.
  - apply validate_exact. by apply kept_valid.
Qed.

(** ** A concrete graph *)

Definition sample_recommendation (i : string) (status : RecommendationStatus) (members keys : list string)
    (parent : option string) : Recommendation :=
  mkRecommendation false (bytes_of i) (bytes_of "w") (bytes_of i) 0 ImproveWorkflow status Medium (bytes_of i)
    [] [] [] [] [] [] None MediumConfidence false (bytes_of i) (bytes_of "2026-01-01") (bytes_of "2026-01-01") []
    Tooling [] 0 [] Medium [] None None None None (bytes_of <$> members) (bytes_of <$> keys) None
    (bytes_of <$> parent).
(** A digest for the example. *)
Definition sample_digest (bytes : list Z) : list Z := bytes_of "d".
Definition sample_records : list Recommendation :=
  [sample_recommendation "a" RolledUp [] [] (Some "rollup:d"); sample_recommendation "b" RolledUp [] [] (Some "rollup:d");
   sample_recommendation "rollup:d" Proposed ["a"; "b"] ["a"; "b"] None; sample_recommendation "c" Proposed [] [] None].

Lemma deletion_keeps_graph_valid_witness :
  let gone := deletion_graph_ids sample_records {[bytes_of "a"]} in
  validate_graph_records sample_digest sample_records = Ok tt
  ∧ id <$> kept sample_records gone = [bytes_of "c"]
  ∧ validate_graph_records sample_digest (kept sample_records gone) = Ok tt.
Proof.
  split; [vm_compute; reflexivity|]. split; [vm_compute; reflexivity|].
  apply (deletion_keeps_graph_valid sample_digest sample_records {[bytes_of "a"]}).
  vm_compute. reflexivity.
Defined.
