(* ===== verification/RecordCodec.v ===== *)
(** * A codec for records

    A text for every record of the store and back, to show that what the store asks of
    serde can be met: [enc] writes a value as a list of numbers and [dec] reads it off the
    front of one.  It is not the JSON of the program. *)
From S2P Require Export RecommendationGraph.

Class Codec (A : Type) : Type := {
  enc : A → list Z;
  dec : list Z → option (A * list Z);
  dec_enc : ∀ x rest, dec (enc x ++ rest) = Some (x, rest);
}.
#[global] Hint Mode Codec ! : typeclass_instances.

#[export, program] Instance Z_codec : Codec Z := {
  enc z := [z];
  dec l := match l with z :: l => Some (z, l) | [] => None end;
}.
Next Obligation. done. Qed.
Definition iso_codec {A B : Type} `{!Codec A} (f : B → A) (g : A → option B) (H : ∀ x, g (f x) = Some x) : Codec B.
Proof.
  refine {| enc x := enc (f x); dec l := '(a, l) ← dec l; x ← g a; Some (x, l) |}.
  intros x rest. rewrite dec_enc. cbn. by rewrite H.
Defined.
#[export, program] Instance prod_codec {A B : Type} `{!Codec A, !Codec B} : Codec (A * B) := {
  enc x := enc x.1 ++ enc x.2;
  dec l := '(a, l) ← dec l; '(b, l) ← dec l; Some ((a, b), l);
}.
Next Obligation. intros A B ?? [a b] rest. cbn. rewrite <- app_assoc, dec_enc. cbn. by rewrite dec_enc. Qed.

Section lists.
Context {A : Type} `{!Codec A}.
Fixpoint dec_items (n : nat) (l : list Z) : option (list A * list Z) :=
  match n with
  | O => Some ([], l)
  | S n => '(x, l) ← dec l; '(xs, l) ← dec_items n l; Some (x :: xs, l)
  end.
Lemma dec_items_enc xs rest : dec_items (length xs) (concat (enc <$> xs) ++ rest) = Some (xs, rest).
Proof.
  induction xs as [|x xs IH]; [done|]. cbn. rewrite <- app_assoc, dec_enc. cbn. by rewrite IH.
Qed.
End lists.
#[export, program] Instance list_codec {A : Type} `{!Codec A} : Codec (list A) := {
  enc xs := Z.of_nat (length xs) :: concat (enc <$> xs);
  dec l := match l with n :: l => dec_items (Z.to_nat n) l | [] => None end;
}.
Next Obligation. intros A ? xs rest. cbn. by rewrite Nat2Z.id, dec_items_enc. Qed.

#[export] Instance option_codec {A : Type} `{!Codec A} : Codec (option A) :=
  iso_codec option_list (λ l, match l with [] => Some None | [x] => Some (Some x) | _ => None end)
    (λ x, match x with Some _ => eq_refl | None => eq_refl end).
#[export] Instance bool_codec : Codec bool :=
  iso_codec (λ b : bool, if b then 1 else 0) (λ z, Some (z =? 1)) (λ b, match b with true | false => eq_refl end).
#[export] Instance nat_codec : Codec nat := iso_codec Z.of_nat (λ z, Some (Z.to_nat z)) (λ n, f_equal Some (Nat2Z.id n)).
#[export] Instance positive_codec : Codec positive :=
  iso_codec Zpos (λ z, match z with Zpos p => Some p | _ => None end) (λ p, eq_refl).
#[export] Instance f64_codec : Codec f64 :=
  iso_codec (λ x : f64, match x with
                        | S754_zero s => (0, s, xH, 0) | S754_infinity s => (1, s, xH, 0)
                        | S754_nan => (2, false, xH, 0) | S754_finite s m e => (3, s, m, e)
                        end)
    (λ '(tag, s, m, e), Some (if tag =? 0 then S754_zero s else if tag =? 1 then S754_infinity s
                              else if tag =? 2 then S754_nan else S754_finite s m e))
    (λ x, match x with S754_zero _ | S754_infinity _ | S754_nan | S754_finite _ _ _ => eq_refl end).

#[export] Instance ObservationKind_codec : Codec ObservationKinds.ObservationKind :=
  iso_codec (λ x : ObservationKinds.ObservationKind, match x with ObservationKinds.Repetition => 0 | ObservationKinds.Obstacle => 1 | ObservationKinds.MissingContext => 2 | ObservationKinds.Assumption => 3 | ObservationKinds.Correction => 4 | ObservationKinds.Workaround => 5 | ObservationKinds.VerificationGap => 6 end)
    (λ z, Some (if z =? 0 then ObservationKinds.Repetition else if z =? 1 then ObservationKinds.Obstacle else if z =? 2 then ObservationKinds.MissingContext else if z =? 3 then ObservationKinds.Assumption else if z =? 4 then ObservationKinds.Correction else if z =? 5 then ObservationKinds.Workaround else ObservationKinds.VerificationGap)) (λ x, match x with ObservationKinds.Repetition | ObservationKinds.Obstacle | ObservationKinds.MissingContext | ObservationKinds.Assumption | ObservationKinds.Correction | ObservationKinds.Workaround | ObservationKinds.VerificationGap => eq_refl end).
#[export] Instance Impact_codec : Codec ObservationKinds.Impact :=
  iso_codec (λ x : ObservationKinds.Impact, match x with ObservationKinds.Low => 0 | ObservationKinds.Medium => 1 | ObservationKinds.High => 2 end)
    (λ z, Some (if z =? 0 then ObservationKinds.Low else if z =? 1 then ObservationKinds.Medium else ObservationKinds.High)) (λ x, match x with ObservationKinds.Low | ObservationKinds.Medium | ObservationKinds.High => eq_refl end).
#[export] Instance ObservationSource_codec : Codec ObservationKinds.ObservationSource :=
  iso_codec (λ x : ObservationKinds.ObservationSource, match x with ObservationKinds.Agent => 0 | ObservationKinds.Peon => 1 end)
    (λ z, Some (if z =? 0 then ObservationKinds.Agent else ObservationKinds.Peon)) (λ x, match x with ObservationKinds.Agent | ObservationKinds.Peon => eq_refl end).
#[export] Instance TargetSurface_codec : Codec Rollup.TargetSurface :=
  iso_codec (λ x : Rollup.TargetSurface, match x with Rollup.Instructions => 0 | Rollup.Skill => 1 | Rollup.Test => 2 | Rollup.Tooling => 3 | Rollup.Documentation => 4 end)
    (λ z, Some (if z =? 0 then Rollup.Instructions else if z =? 1 then Rollup.Skill else if z =? 2 then Rollup.Test else if z =? 3 then Rollup.Tooling else Rollup.Documentation)) (λ x, match x with Rollup.Instructions | Rollup.Skill | Rollup.Test | Rollup.Tooling | Rollup.Documentation => eq_refl end).
#[export] Instance RecommendationStatus_codec : Codec Rollup.RecommendationStatus :=
  iso_codec (λ x : Rollup.RecommendationStatus, match x with Rollup.Proposed => 0 | Rollup.Accepted => 1 | Rollup.Executing => 2 | Rollup.Completed => 3 | Rollup.Dismissed => 4 | Rollup.RolledUp => 5 | Rollup.Superseded => 6 | Rollup.Expired => 7 | Rollup.Failed => 8 end)
    (λ z, Some (if z =? 0 then Rollup.Proposed else if z =? 1 then Rollup.Accepted else if z =? 2 then Rollup.Executing else if z =? 3 then Rollup.Completed else if z =? 4 then Rollup.Dismissed else if z =? 5 then Rollup.RolledUp else if z =? 6 then Rollup.Superseded else if z =? 7 then Rollup.Expired else Rollup.Failed)) (λ x, match x with Rollup.Proposed | Rollup.Accepted | Rollup.Executing | Rollup.Completed | Rollup.Dismissed | Rollup.RolledUp | Rollup.Superseded | Rollup.Expired | Rollup.Failed => eq_refl end).
#[export] Instance RecommendationType_codec : Codec RecommendationGraph.RecommendationType :=
  iso_codec (λ x : RecommendationGraph.RecommendationType, match x with RecommendationGraph.ImproveWorkflow => 0 | RecommendationGraph.Cleanup => 1 end)
    (λ z, Some (if z =? 0 then RecommendationGraph.ImproveWorkflow else RecommendationGraph.Cleanup)) (λ x, match x with RecommendationGraph.ImproveWorkflow | RecommendationGraph.Cleanup => eq_refl end).
#[export] Instance AuditCriterion_codec : Codec RecommendationGraph.AuditCriterion :=
  iso_codec (λ x : RecommendationGraph.AuditCriterion, match x with RecommendationGraph.UnderEligible => 0 | RecommendationGraph.Noise => 1 | RecommendationGraph.Duplicate => 2 | RecommendationGraph.Stale => 3 end)
    (λ z, Some (if z =? 0 then RecommendationGraph.UnderEligible else if z =? 1 then RecommendationGraph.Noise else if z =? 2 then RecommendationGraph.Duplicate else RecommendationGraph.Stale)) (λ x, match x with RecommendationGraph.UnderEligible | RecommendationGraph.Noise | RecommendationGraph.Duplicate | RecommendationGraph.Stale => eq_refl end).
#[export] Instance RecommendationConfidence_codec : Codec RecommendationGraph.RecommendationConfidence :=
  iso_codec (λ x : RecommendationGraph.RecommendationConfidence, match x with RecommendationGraph.LowConfidence => 0 | RecommendationGraph.MediumConfidence => 1 | RecommendationGraph.HighConfidence => 2 end)
    (λ z, Some (if z =? 0 then RecommendationGraph.LowConfidence else if z =? 1 then RecommendationGraph.MediumConfidence else RecommendationGraph.HighConfidence)) (λ x, match x with RecommendationGraph.LowConfidence | RecommendationGraph.MediumConfidence | RecommendationGraph.HighConfidence => eq_refl end).
#[export] Instance PacketAttribution_codec : Codec CompletionPacket.PacketAttribution :=
  iso_codec (λ x : CompletionPacket.PacketAttribution, match x with CompletionPacket.Unambiguous => 0 | CompletionPacket.Inconclusive => 1 end)
    (λ z, Some (if z =? 0 then CompletionPacket.Unambiguous else CompletionPacket.Inconclusive)) (λ x, match x with CompletionPacket.Unambiguous | CompletionPacket.Inconclusive => eq_refl end).
#[export] Instance PacketReadiness_codec : Codec CompletionPacket.PacketReadiness :=
  iso_codec (λ x : CompletionPacket.PacketReadiness, match x with CompletionPacket.VerificationNeeded => 0 | CompletionPacket.ReviewReady => 1 | CompletionPacket.FindingsNeedFix => 2 | CompletionPacket.ReadyForUserReview => 3 end)
    (λ z, Some (if z =? 0 then CompletionPacket.VerificationNeeded else if z =? 1 then CompletionPacket.ReviewReady else if z =? 2 then CompletionPacket.FindingsNeedFix else CompletionPacket.ReadyForUserReview)) (λ x, match x with CompletionPacket.VerificationNeeded | CompletionPacket.ReviewReady | CompletionPacket.FindingsNeedFix | CompletionPacket.ReadyForUserReview => eq_refl end).
#[export] Instance CompletionVerificationResult_codec : Codec CompletionPacket.CompletionVerificationResult :=
  iso_codec (λ x : CompletionPacket.CompletionVerificationResult, match x with CompletionPacket.Passed => 0 | CompletionPacket.Failed => 1 | CompletionPacket.NotRun => 2 end)
    (λ z, Some (if z =? 0 then CompletionPacket.Passed else if z =? 1 then CompletionPacket.Failed else CompletionPacket.NotRun)) (λ x, match x with CompletionPacket.Passed | CompletionPacket.Failed | CompletionPacket.NotRun => eq_refl end).
#[export] Instance CompletionReviewOutcome_codec : Codec CompletionPacket.CompletionReviewOutcome :=
  iso_codec (λ x : CompletionPacket.CompletionReviewOutcome, match x with CompletionPacket.NoFindings => 0 | CompletionPacket.Findings => 1 end)
    (λ z, Some (if z =? 0 then CompletionPacket.NoFindings else CompletionPacket.Findings)) (λ x, match x with CompletionPacket.NoFindings | CompletionPacket.Findings => eq_refl end).
#[export] Instance CompletionActionRole_codec : Codec CompletionPacket.CompletionActionRole :=
  iso_codec (λ x : CompletionPacket.CompletionActionRole, match x with CompletionPacket.Review => 0 | CompletionPacket.Verification => 1 | CompletionPacket.Fix => 2 | CompletionPacket.UserReview => 3 end)
    (λ z, Some (if z =? 0 then CompletionPacket.Review else if z =? 1 then CompletionPacket.Verification else if z =? 2 then CompletionPacket.Fix else CompletionPacket.UserReview)) (λ x, match x with CompletionPacket.Review | CompletionPacket.Verification | CompletionPacket.Fix | CompletionPacket.UserReview => eq_refl end).
#[export] Instance CompletionEvidenceIssueKind_codec : Codec CompletionPacket.CompletionEvidenceIssueKind :=
  iso_codec (λ x : CompletionPacket.CompletionEvidenceIssueKind, match x with CompletionPacket.Missing => 0 | CompletionPacket.Conflict => 1 end)
    (λ z, Some (if z =? 0 then CompletionPacket.Missing else CompletionPacket.Conflict)) (λ x, match x with CompletionPacket.Missing | CompletionPacket.Conflict => eq_refl end).
#[export] Instance WorkflowObservationEvidence_codec : Codec Rollup.WorkflowObservationEvidence :=
  iso_codec (λ x : Rollup.WorkflowObservationEvidence, (
     Rollup.observation_id x, Rollup.sequence x, Rollup.session_id x, Rollup.kind x, Rollup.description x,
     Rollup.evidence_text x, Rollup.problem_area x, Rollup.reported_impact x, Rollup.source x,
     Rollup.confidence x, Rollup.observed_at x))
    (λ '(
     a0, a1, a2, a3, a4, a5, a6, a7, a8, a9, a10),
     Some (Rollup.mkObserved
     a0 a1 a2 a3 a4 a5 a6 a7 a8 a9 a10))
    (λ x, match x with Rollup.mkObserved _ _ _ _ _ _ _ _ _ _ _ => eq_refl end).
#[export] Instance RepositoryEvidence_codec : Codec RecommendationGraph.RepositoryEvidence :=
  iso_codec (λ x : RecommendationGraph.RepositoryEvidence, (
     RecommendationGraph.repository_path x, RecommendationGraph.repository_sha256 x,
     RecommendationGraph.repository_excerpt x, RecommendationGraph.repository_observed_at x))
    (λ '(
     a0, a1, a2, a3),
     Some (RecommendationGraph.mkRepository
     a0 a1 a2 a3))
    (λ x, match x with RecommendationGraph.mkRepository _ _ _ _ => eq_refl end).
#[export] Instance KnowledgeEvidence_codec : Codec RecommendationGraph.KnowledgeEvidence :=
  iso_codec (λ x : RecommendationGraph.KnowledgeEvidence, (
     RecommendationGraph.page_id x, RecommendationGraph.page_title x, RecommendationGraph.page_status x,
     RecommendationGraph.bundle_version x, RecommendationGraph.page_sha256 x,
     RecommendationGraph.page_excerpt x))
    (λ '(
     a0, a1, a2, a3, a4, a5),
     Some (RecommendationGraph.mkKnowledge
     a0 a1 a2 a3 a4 a5))
    (λ x, match x with RecommendationGraph.mkKnowledge _ _ _ _ _ _ => eq_refl end).
#[export] Instance AuditCleanupEntry_codec : Codec RecommendationGraph.AuditCleanupEntry :=
  iso_codec (λ x : RecommendationGraph.AuditCleanupEntry, (
     RecommendationGraph.entry_id x, RecommendationGraph.entry_title x, RecommendationGraph.criteria x))
    (λ '(
     a0, a1, a2),
     Some (RecommendationGraph.mkEntry
     a0 a1 a2))
    (λ x, match x with RecommendationGraph.mkEntry _ _ _ => eq_refl end).
#[export] Instance AuditCleanup_codec : Codec RecommendationGraph.AuditCleanup :=
  iso_codec (λ x : RecommendationGraph.AuditCleanup, (
     RecommendationGraph.entries x, RecommendationGraph.scanned x, RecommendationGraph.healthy x,
     RecommendationGraph.stale_after_days x))
    (λ '(
     a0, a1, a2, a3),
     Some (RecommendationGraph.mkAudit
     a0 a1 a2 a3))
    (λ x, match x with RecommendationGraph.mkAudit _ _ _ _ => eq_refl end).
#[export] Instance DismissalWatermark_codec : Codec RecommendationGraph.DismissalWatermark :=
  iso_codec (λ x : RecommendationGraph.DismissalWatermark, (
     RecommendationGraph.dismissed_at x, RecommendationGraph.dismissed_through_sequence x,
     RecommendationGraph.watermark_observation_ids x, RecommendationGraph.qualifying_count x,
     RecommendationGraph.highest_impact x, RecommendationGraph.watermark_session_ids x,
     RecommendationGraph.reason x))
    (λ '(
     a0, a1, a2, a3, a4, a5, a6),
     Some (RecommendationGraph.mkWatermark
     a0 a1 a2 a3 a4 a5 a6))
    (λ x, match x with RecommendationGraph.mkWatermark _ _ _ _ _ _ _ => eq_refl end).
#[export] Instance CompletionEvidenceProvenance_codec : Codec CompletionPacket.CompletionEvidenceProvenance :=
  iso_codec (λ x : CompletionPacket.CompletionEvidenceProvenance, (
     CompletionPacket.prov_source_session_id x, CompletionPacket.prov_workspace_id x,
     CompletionPacket.workspace_snapshot_id x, CompletionPacket.prov_observed_at x))
    (λ '(
     a0, a1, a2, a3),
     Some (CompletionPacket.mkProvenance
     a0 a1 a2 a3))
    (λ x, match x with CompletionPacket.mkProvenance _ _ _ _ => eq_refl end).
#[export] Instance CompletionChangeSubject_codec : Codec CompletionPacket.CompletionChangeSubject :=
  iso_codec (λ x : CompletionPacket.CompletionChangeSubject, (
     CompletionPacket.subject_workspace_id x, CompletionPacket.subject_scope x,
     CompletionPacket.snapshot_id x, CompletionPacket.attribution x, CompletionPacket.changed_paths x))
    (λ '(
     a0, a1, a2, a3, a4),
     Some (CompletionPacket.mkSubject
     a0 a1 a2 a3 a4))
    (λ x, match x with CompletionPacket.mkSubject _ _ _ _ _ => eq_refl end).
#[export] Instance CompletionVerification_codec : Codec CompletionPacket.CompletionVerification :=
  iso_codec (λ x : CompletionPacket.CompletionVerification, (
     CompletionPacket.command x, CompletionPacket.verification_result x,
     CompletionPacket.verification_revision x, CompletionPacket.verification_observed_at x))
    (λ '(
     a0, a1, a2, a3),
     Some (CompletionPacket.mkVerification
     a0 a1 a2 a3))
    (λ x, match x with CompletionPacket.mkVerification _ _ _ _ => eq_refl end).
#[export] Instance CompletionReview_codec : Codec CompletionPacket.CompletionReview :=
  iso_codec (λ x : CompletionPacket.CompletionReview, (
     CompletionPacket.reviewer_session_id x, CompletionPacket.reviewer_identity x,
     CompletionPacket.independent x, CompletionPacket.outcome x, CompletionPacket.review_revision x,
     CompletionPacket.review_observed_at x))
    (λ '(
     a0, a1, a2, a3, a4, a5),
     Some (CompletionPacket.mkReview
     a0 a1 a2 a3 a4 a5))
    (λ x, match x with CompletionPacket.mkReview _ _ _ _ _ _ => eq_refl end).
#[export] Instance CompletionEvidenceIssue_codec : Codec CompletionPacket.CompletionEvidenceIssue :=
  iso_codec (λ x : CompletionPacket.CompletionEvidenceIssue, (
     CompletionPacket.issue_kind x, CompletionPacket.detail x))
    (λ '(
     a0, a1),
     Some (CompletionPacket.mkIssue
     a0 a1))
    (λ x, match x with CompletionPacket.mkIssue _ _ => eq_refl end).
#[export] Instance CompletionAction_codec : Codec CompletionPacket.CompletionAction :=
  iso_codec (λ x : CompletionPacket.CompletionAction, (
     CompletionPacket.prompt x, CompletionPacket.model x, CompletionPacket.action_scope x,
     CompletionPacket.role x))
    (λ '(
     a0, a1, a2, a3),
     Some (CompletionPacket.mkAction
     a0 a1 a2 a3))
    (λ x, match x with CompletionPacket.mkAction _ _ _ _ => eq_refl end).
#[export] Instance CompletionApproval_codec : Codec CompletionPacket.CompletionApproval :=
  iso_codec (λ x : CompletionPacket.CompletionApproval, (
     CompletionPacket.approved_at x, CompletionPacket.approver x, CompletionPacket.approval_revision x,
     CompletionPacket.approval_evidence_fingerprint x, CompletionPacket.approval_action_fingerprint x,
     CompletionPacket.approval_idempotency_key x))
    (λ '(
     a0, a1, a2, a3, a4, a5),
     Some (CompletionPacket.mkApproval
     a0 a1 a2 a3 a4 a5))
    (λ x, match x with CompletionPacket.mkApproval _ _ _ _ _ _ => eq_refl end).
#[export] Instance CompletionPacketLineage_codec : Codec CompletionPacket.CompletionPacketLineage :=
  iso_codec (λ x : CompletionPacket.CompletionPacketLineage, (
     CompletionPacket.lineage_packet_id x, CompletionPacket.lineage_revision x,
     CompletionPacket.lineage_fingerprint x, CompletionPacket.superseded_at x))
    (λ '(
     a0, a1, a2, a3),
     Some (CompletionPacket.mkLineage
     a0 a1 a2 a3))
    (λ x, match x with CompletionPacket.mkLineage _ _ _ _ => eq_refl end).
#[export] Instance CompletionPacket_codec : Codec CompletionPacket.CompletionPacket :=
  iso_codec (λ x : CompletionPacket.CompletionPacket, (
     CompletionPacket.schema_version x, CompletionPacket.evidence_version x, CompletionPacket.packet_id x,
     CompletionPacket.source_session_id x, CompletionPacket.observed_at x, CompletionPacket.provenance x,
     CompletionPacket.subject x, CompletionPacket.verification x, CompletionPacket.review x,
     CompletionPacket.missing_evidence x, CompletionPacket.conflicting_evidence x, CompletionPacket.action x,
     CompletionPacket.readiness x, CompletionPacket.revision x, CompletionPacket.evidence_fingerprint x,
     CompletionPacket.approval x, CompletionPacket.supersedes_packet_id x, CompletionPacket.lineage x,
     CompletionPacket.completion_idempotency_key x))
    (λ '(
     a0, a1, a2, a3, a4, a5, a6, a7, a8, a9, a10, a11, a12, a13, a14, a15, a16, a17, a18),
     Some (CompletionPacket.mkPacket
     a0 a1 a2 a3 a4 a5 a6 a7 a8 a9 a10 a11 a12 a13 a14 a15 a16 a17 a18))
    (λ x, match x with CompletionPacket.mkPacket _ _ _ _ _ _ _ _ _ _ _ _ _ _ _ _ _ _ _ => eq_refl end).
#[export] Instance Recommendation_codec : Codec RecommendationGraph.Recommendation :=
  iso_codec (λ x : RecommendationGraph.Recommendation, (
     RecommendationGraph.access_redacted x, RecommendationGraph.id x, RecommendationGraph.workspace_id x,
     RecommendationGraph.chain_id x, RecommendationGraph.chain_depth x,
     RecommendationGraph.recommendation_type x, RecommendationGraph.status x, RecommendationGraph.priority x,
     RecommendationGraph.title x, RecommendationGraph.summary x, RecommendationGraph.reasons x,
     RecommendationGraph.evidence x, RecommendationGraph.repository_evidence x,
     RecommendationGraph.knowledge_evidence x, RecommendationGraph.source_session_ids x,
     RecommendationGraph.target_session_id x, RecommendationGraph.confidence_level x,
     RecommendationGraph.requires_approval x, RecommendationGraph.dedupe_key x,
     RecommendationGraph.created_at x, RecommendationGraph.updated_at x,
     RecommendationGraph.proposed_improvement x, RecommendationGraph.improvement_surface x,
     RecommendationGraph.improvement_observation_ids x, RecommendationGraph.recurrence_count x,
     RecommendationGraph.affected_session_ids x, RecommendationGraph.improvement_impact x,
     RecommendationGraph.expected_benefit x, RecommendationGraph.supersedes_recommendation_id x,
     RecommendationGraph.dismissal_watermark x, RecommendationGraph.completion_packet x,
     RecommendationGraph.audit x, RecommendationGraph.rollup_member_ids x,
     RecommendationGraph.rollup_member_dedupe_keys x, RecommendationGraph.rollup_generation x,
     RecommendationGraph.rolled_up_by x))
    (λ '(
     a0, a1, a2, a3, a4, a5, a6, a7, a8, a9, a10, a11, a12, a13, a14, a15, a16, a17, a18, a19, a20, a21, a22,
     a23, a24, a25, a26, a27, a28, a29, a30, a31, a32, a33, a34, a35),
     Some (RecommendationGraph.mkRecommendation
     a0 a1 a2 a3 a4 a5 a6 a7 a8 a9 a10 a11 a12 a13 a14 a15 a16 a17 a18 a19 a20 a21 a22 a23 a24 a25 a26 a27
     a28 a29 a30 a31 a32 a33 a34 a35))
    (λ x, match x with RecommendationGraph.mkRecommendation _ _ _ _ _ _ _ _ _ _ _ _ _ _ _ _ _ _ _ _ _ _ _ _ _ _ _ _ _ _ _ _ _ _ _ _ => eq_refl end).

Definition parse_record (l : list Z) : option Recommendation :=
  match dec l with Some (r, []) => Some r | _ => None end.
Definition render_record (r : Recommendation) : list Z := enc r.
Lemma parse_render_record r : parse_record (render_record r) = Some r.
Proof. unfold parse_record, render_record. rewrite <- (app_nil_r (enc r)). by rewrite dec_enc. Qed.
