(* ===== verification/GraphTransaction.v ===== *)
(** * Transactions on the files of recommendations

    [commit_replacements] of taskmaster/store.rs and the recovery that every operation of
    the store runs first: a set of replacements is staged next to backups of what it
    replaces, committed by a manifest, published file by file, and rolled forward or back
    after a stop.

    A directory is the map of its files and at most one transaction below it: every
    caller of [commit_replacements] holds the store's claim and has recovered before.
    The manifest is written under another name and renamed, so it is there as a whole
    or not at all, and its JSON is not modelled.  Everything that reached a file is kept
    when the process stops (a loss of power is not modelled).  Arguments: the digest of
    bytes, and the validation of the files' graph, in which they are read and parsed.
    [Path::exists] may answer that a path is not there when its call fails ([Unseen] of
    CrashSafe.v). *)
From S2P Require Export CrashSafe RecommendationGraph.

Inductive StoreError : Type :=
  | Busy | Io | Json | InvalidTransition
  | StaleExpectedHash (id : list Z)
  | StalePacket (id : list Z)
  | GraphInvariant (message : string)
  | Recovery (message : string).

Definition ROLLUP_TRANSACTION_VERSION : Z := 2.
Definition LEGACY_ROLLUP_TRANSACTION_VERSION : Z := 1.

Record RollupTransactionEntry : Type := mkTxEntry {
  tx_id : list Z;
  target : list Z;
  staged : option (list Z);
  backup : option (list Z);
  old_sha256 : option (list Z);
  old_exists : bool;
  new_sha256 : option (list Z);
  new_exists : bool;
}.
Record RollupTransactionManifest : Type := mkManifest {
  version : Z;
  committed : bool;
  tx_entries : list RollupTransactionEntry;
}.
Record Replacement : Type := mkReplacement { old : option (list Z); new : option (list Z) }.

(** A transaction's directory: its manifest and the files below it by relative path. *)
Record Tx : Type := mkTx {
  manifest : option RollupTransactionManifest;
  parts : gmap (list Z) (list Z);
}.
Record Dir : Type := mkDir {
  files : gmap (list Z) (list Z);
  tx_root : bool;
  tx : option Tx;
}.
Abbreviation IO := (M Dir StoreError).

(** ** Effects *)

Definition set_files (f : gmap (list Z) (list Z)) (d : Dir) : Dir := mkDir f (tx_root d) (tx d).
Definition set_tx (t : option Tx) (d : Dir) : Dir := mkDir (files d) (tx_root d) t.
Definition on_parts (f : gmap (list Z) (list Z) → gmap (list Z) (list Z)) (d : Dir) : Dir :=
  set_tx ((λ t, mkTx (manifest t) (f (parts t))) <$> tx d) d.
Definition set_manifest (m : option RollupTransactionManifest) (d : Dir) : Dir :=
  set_tx ((λ t, mkTx m (parts t)) <$> tx d) d.
Definition part (path : list Z) (d : Dir) : option (list Z) := t ← tx d; parts t !! path.

Definition read_file (name : list Z) : IO (option (list Z)) := read_ok (λ d, files d !! name).
Definition read_part (path : list Z) : IO (list Z) := read Io (part path).
(** [write_sync] below the transaction; a file that is not finished holds anything. *)
Definition write_part (path bytes : list Z) : IO unit :=
  effect Io (on_parts <[path := bytes]>) (λ junk, on_parts <[path := concat junk]>).
(** [atomic_replace] of a file by one of the transaction's. *)
Definition replace_by_part (path name : list Z) : IO unit :=
  bytes ← read_part path;
  atomic Io (λ d, set_files (<[name := bytes]> (files d)) (on_parts (delete path) d)).
(** [remove_file], where it is no error that there is no such file. *)
Definition remove_target (name : list Z) : IO unit := atomic Io (λ d, set_files (delete name (files d)) d).
Definition remove_dir_all : IO unit :=
  effect Io (set_tx None) (λ names, on_parts (λ parts, foldr delete parts names)).
Definition write_manifest_atomic (m : RollupTransactionManifest) : IO unit :=
  _ ← sync Io;
  _ ← atomic Io (set_manifest (Some m));
  _ ← sync Io;
  sync Io.

Section transaction.
Context (hash_bytes : list Z → list Z).
(** [read_all] with [validate_graph_records], and the ids of [read_all_by_id]. *)
Context (validate : gmap (list Z) (list Z) → result StoreError unit).
Context (read_ids : gmap (list Z) (list Z) → result StoreError (list (list Z))).

Definition validate_graph : IO unit :=
  fs ← read Io (λ d, Some (files d));
  of_result (validate fs).

(** ** Publication and rollback *)

Definition publish_entry (e : RollupTransactionEntry) : IO unit :=
  if negb (new_exists e) then remove_target (target e)
  else
    current ← read_file (target e);
    if is_some_and current (λ bytes, Some (hash_bytes bytes) == new_sha256 e) then ret tt
    else
      match staged e with
      | None => fail (Recovery "transaction entry has no staged replacement")
      | Some path =>
          bytes ← read_part path;
          if Some (hash_bytes bytes) == new_sha256 e then replace_by_part path (target e)
          else fail (Recovery "staged replacement hash mismatch")
      end.

Definition rollback_entry (e : RollupTransactionEntry) : IO unit :=
  if old_exists e then
    match backup e with
    | None => fail (Recovery "transaction entry has no old-content backup")
    | Some path =>
        bytes ← read_part path;
        if Some (hash_bytes bytes) == old_sha256 e then
          _ ← write_part (transaction_restore_path (tx_id e)) bytes;
          replace_by_part (transaction_restore_path (tx_id e)) (target e)
        else fail (Recovery "old-content backup hash mismatch")
    end
  else remove_target (target e).
Definition rollback_transaction (es : list RollupTransactionEntry) : IO unit :=
  _ ← for_each rollback_entry es;
  sync Io.
Definition finish_transaction_cleanup : IO unit :=
  _ ← atomic Io (set_manifest None);
  _ ← sync Io;
  _ ← remove_dir_all;
  sync Io.

(** ** Recovery *)

Definition escapes (path : list Z) : bool :=
  (head path == Some 0x2f) || existsb (eqb (bytes_of "..")) (split 0x2f path).
Fixpoint validate_manifest_entries (ids : gset (list Z)) (es : list RollupTransactionEntry)
    : result StoreError unit :=
  match es with
  | [] => Ok tt
  | e :: es =>
      _ ← ensure (valid_id (tx_id e) && (target e == recommendation_filename (tx_id e))
                  && bool_decide (tx_id e ∉ ids)
                  && eqb (old_exists e) (is_some (old_sha256 e)) && eqb (old_exists e) (is_some (backup e))
                  && eqb (new_exists e) (is_some (new_sha256 e)) && eqb (new_exists e) (is_some (staged e)))
            (Recovery "invalid transaction entry");
      _ ← ensure ((staged e == if new_exists e then Some (transaction_staged_path (tx_id e)) else None)
                  && (backup e == if old_exists e then Some (transaction_backup_path (tx_id e)) else None))
            (Recovery "invalid transaction paths");
      _ ← ensure (negb (existsb escapes (option_list (staged e) ++ option_list (backup e))))
            (Recovery "transaction entry escapes its directory");
      validate_manifest_entries ({[tx_id e]} ∪ ids) es
  end.

(** Paths of the first version. *)
Definition legacy_name (prefix : string) (id : list Z) : list Z := bytes_of prefix ++ id ++ bytes_of ".json".
Definition migrate_file (source destination : list Z) : IO unit :=
  there ← (if source == destination then ret false else probe (λ d, is_some (files d !! source)));
  if negb there then ret tt
  else
    taken ← probe (λ d, is_some (files d !! destination));
    if taken : bool then fail (Recovery "both legacy and encoded transaction paths exist")
    else atomic Io (λ d, match files d !! source with
                         | Some bytes => set_files (<[destination := bytes]> (delete source (files d))) d
                         | None => d
                         end).
Definition migrate_part (source destination : list Z) : IO unit :=
  there ← (if source == destination then ret false else probe (λ d, is_some (part source d)));
  if negb there then ret tt
  else
    taken ← probe (λ d, is_some (part destination d));
    if taken : bool then fail (Recovery "both legacy and encoded transaction paths exist")
    else atomic Io (λ d, match part source d with
                         | Some bytes => on_parts (λ parts, <[destination := bytes]> (delete source parts)) d
                         | None => d
                         end).
Definition migrate_optional_transaction_path (path : option (list Z)) (legacy current : list Z)
    : IO (option (list Z) * bool) :=
  if path != Some legacy then ret (path, false)
  else _ ← migrate_part legacy current; ret (Some current, true).
Definition migrate_entry (e : RollupTransactionEntry) : IO (RollupTransactionEntry * bool) :=
  let i := tx_id e in
  if negb (valid_id i) then ret (e, false)
  else
    let current_target := recommendation_filename i in
    '(tgt, m1) ← (if target e == legacy_name "" i
                  then _ ← migrate_file (legacy_name "" i) current_target; ret (current_target, true)
                  else ret (target e, false));
    '(stg, m2) ← migrate_optional_transaction_path (staged e) (legacy_name "staged/" i) (transaction_staged_path i);
    '(bak, m3) ← migrate_optional_transaction_path (backup e) (legacy_name "backups/" i) (transaction_backup_path i);
    ret (mkTxEntry i tgt stg bak (old_sha256 e) (old_exists e) (new_sha256 e) (new_exists e), m1 || m2 || m3).
Fixpoint migrate_entries (es : list RollupTransactionEntry) : IO (list RollupTransactionEntry * bool) :=
  match es with
  | [] => ret ([], false)
  | e :: es =>
      '(e, m) ← migrate_entry e;
      '(es, ms) ← migrate_entries es;
      ret (e :: es, m || ms)
  end.
Definition migrate_legacy_transaction_paths (es : list RollupTransactionEntry)
    : IO (list RollupTransactionEntry) :=
  '(es, migrated) ← migrate_entries es;
  _ ← (if migrated : bool then (_ ← sync Io; sync Io) else ret tt);
  ret es.

(** The end of [recover_transaction] when it does not, or cannot, publish. *)
Definition roll_back (es : list RollupTransactionEntry) : IO unit :=
  _ ← rollback_transaction es;
  valid ← catch validate_graph;
  match valid with
  | Err _ => fail (Recovery "neither old nor new recommendation graph is valid")
  | Ok _ => finish_transaction_cleanup
  end.
Definition recover_transaction : IO unit :=
  m ← read Io (λ d, tx d ≫= manifest);
  if negb ((version m =? LEGACY_ROLLUP_TRANSACTION_VERSION) || (version m =? ROLLUP_TRANSACTION_VERSION))
  then fail (Recovery "unsupported rollup transaction version")
  else
    es ← (if version m =? LEGACY_ROLLUP_TRANSACTION_VERSION
          then migrate_legacy_transaction_paths (tx_entries m) else ret (tx_entries m));
    _ ← of_result (validate_manifest_entries ∅ es);
    if committed m then
      published ← catch (for_each publish_entry es);
      match published with
      | Ok _ =>
          _ ← sync Io;
          valid ← catch validate_graph;
          match valid with Ok _ => finish_transaction_cleanup | Err _ => roll_back es end
      | Err _ => roll_back es
      end
    else roll_back es.
Definition recover_transactions : IO unit :=
  there ← probe tx_root;
  if negb there then ret tt
  else
    listed ← read Io (λ d, Some (tx d));
    _ ← (if is_none listed then ret tt
         else
           dir ← probe (λ d, is_some (tx d));
           if negb dir then ret tt
           else
             has_manifest ← probe (λ d, is_some (tx d ≫= manifest));
             if negb has_manifest then remove_dir_all else recover_transaction);
    left ← read Io (λ d, Some (tx d));
    if is_none left then
      _ ← atomic Io (λ d, mkDir (files d) false (tx d));
      sync Io
    else ret tt.

(** ** Commit *)

Fixpoint verify_hashes (expected : list (list Z * option (list Z))) : IO unit :=
  match expected with
  | [] => ret tt
  | (i, expected_hash) :: expected =>
      if negb (valid_id i) then fail (StaleExpectedHash i)
      else
        actual ← read_file (recommendation_filename i);
        if (hash_bytes <$> actual) == expected_hash then verify_hashes expected
        else fail (StaleExpectedHash i)
  end.
Definition verify_expected (expected : list (list Z * option (list Z))) (current : list (list Z)) : IO unit :=
  _ ← verify_hashes expected;
  if forallb valid_id current then ret tt else fail (GraphInvariant "recommendation ID is not a safe file name").
Fixpoint verify_old (replacements : list (list Z * Replacement)) : IO unit :=
  match replacements with
  | [] => ret tt
  | (i, r) :: replacements =>
      actual ← read_file (recommendation_filename i);
      if actual == old r then verify_old replacements else fail (StaleExpectedHash i)
  end.

Definition stage_entry (i : list Z) (r : Replacement) : IO RollupTransactionEntry :=
  bak ← match old r with
        | Some bytes => _ ← write_part (transaction_backup_path i) bytes; ret (Some (transaction_backup_path i))
        | None => ret None
        end;
  stg ← match new r with
        | Some bytes => _ ← write_part (transaction_staged_path i) bytes; ret (Some (transaction_staged_path i))
        | None => ret None
        end;
  ret (mkTxEntry i (recommendation_filename i) stg bak (hash_bytes <$> old r) (is_some (old r))
         (hash_bytes <$> new r) (is_some (new r))).
Fixpoint stage_all (replacements : list (list Z * Replacement)) : IO (list RollupTransactionEntry) :=
  match replacements with
  | [] => ret []
  | (i, r) :: replacements =>
      e ← stage_entry i r;
      es ← stage_all replacements;
      ret (e :: es)
  end.

(** From the publication on. *)
Definition publish (es : list RollupTransactionEntry) : IO unit :=
  _ ← for_each publish_entry es;
  _ ← sync Io;
  valid ← catch validate_graph;
  match valid with
  | Ok _ => finish_transaction_cleanup
  | Err error =>
      rollback ← catch (rollback_transaction es);
      match rollback with
      | Err _ => fail (Recovery "published graph invalid; rollback failed")
      | Ok _ =>
          again ← catch validate_graph;
          match again with
          | Err _ => fail (Recovery "published graph invalid; old graph invalid after rollback")
          | Ok _ => fail error
          end
      end
  end.
Definition commit_replacements (expected : list (list Z * option (list Z)))
    (replacements : list (list Z * Replacement)) : IO unit :=
  fs ← read Io (λ d, Some (files d));
  current ← of_result (read_ids fs);
  _ ← verify_expected expected current;
  _ ← verify_old replacements;
  if (length replacements =? 0)%nat then ret tt
  else
    _ ← atomic Io (λ d, mkDir (files d) true (Some (mkTx None ∅)));
    _ ← sync Io;
    es ← stage_all replacements;
    _ ← write_manifest_atomic (mkManifest ROLLUP_TRANSACTION_VERSION false es);
    _ ← sync Io;
    _ ← write_manifest_atomic (mkManifest ROLLUP_TRANSACTION_VERSION true es);
    _ ← sync Io;
    _ ← sync Io;
    publish es.
End transaction.

(** ** What a transaction is about *)

#[local] Arguments recommendation_filename : simpl never.
#[local] Arguments transaction_staged_path : simpl never.
#[local] Arguments transaction_backup_path : simpl never.
#[local] Arguments transaction_restore_path : simpl never.

Section graph_transaction.
Context (hash_bytes : list Z → list Z).
Context (validate : gmap (list Z) (list Z) → result StoreError unit).
Context (F0 : gmap (list Z) (list Z)) (replacements : list (list Z * Replacement)).

(** The files after the transaction. *)
Definition replaced (F : gmap (list Z) (list Z)) (replacements : list (list Z * Replacement))
    : gmap (list Z) (list Z) :=
  fold_left (λ F ir, partial_alter (λ _, new ir.2) (recommendation_filename ir.1) F) replacements F.
Definition entry_of (ir : list Z * Replacement) : RollupTransactionEntry :=
  mkTxEntry ir.1 (recommendation_filename ir.1)
    (if is_some (new ir.2) then Some (transaction_staged_path ir.1) else None)
    (if is_some (old ir.2) then Some (transaction_backup_path ir.1) else None)
    (hash_bytes <$> old ir.2) (is_some (old ir.2)) (hash_bytes <$> new ir.2) (is_some (new ir.2)).

(** The callers' side: replacements are a map over safe ids, made from the files. *)
Record proper_replacements : Prop := {
  proper_distinct : NoDup replacements.*1;
  proper_ids : ∀ ir, ir ∈ replacements → valid_id ir.1 = true;
  proper_old : ∀ ir, ir ∈ replacements → old ir.2 = F0 !! recommendation_filename ir.1;
}.

Abbreviation F1 := (replaced F0 replacements).
Abbreviation es := (entry_of <$> replacements).

(** A file is as it was, or as it will be. *)
Definition mixed (F : gmap (list Z) (list Z)) : Prop := ∀ n, F !! n = F0 !! n ∨ F !! n = F1 !! n.
Definition backed_for (l : list (list Z * Replacement)) (P : gmap (list Z) (list Z)) : Prop :=
  ∀ ir bytes, ir ∈ l → old ir.2 = Some bytes → P !! transaction_backup_path ir.1 = Some bytes.
Abbreviation backed := (backed_for replacements).
Definition settled (F : gmap (list Z) (list Z)) : Prop := F = F0 ∨ (F = F1 ∧ validate F1 = Ok tt).

(** A transaction with a manifest; before the commit nothing is published. *)
Record pending (c : bool) (d : Dir) : Prop := {
  pending_tx : ∃ P, tx d = Some (mkTx (Some (mkManifest ROLLUP_TRANSACTION_VERSION c es)) P) ∧ backed P;
  pending_root : tx_root d = true;
  pending_mixed : mixed (files d);
  pending_unpublished : c = false → files d = F0;
}.
(** Nothing to recover but remains. *)
Record idle (d : Dir) : Prop := {
  idle_tx : tx d ≫= manifest = None;
  idle_root : tx_root d = false → tx d = None;
  idle_files : settled (files d);
}.
Definition consistent (d : Dir) : Prop := idle d ∨ ∃ c, pending c d.

Lemma bytes_head_ne (a b : Z) (x y : list Z) : a ≠ b → a :: x ≠ b :: y.
Proof. congruence. Qed.
Lemma restore_not_backup i j : transaction_restore_path i ≠ transaction_backup_path j.
Proof. unfold transaction_restore_path, transaction_backup_path. cbn. by apply bytes_head_ne. Qed.
Lemma staged_not_backup i j : transaction_staged_path i ≠ transaction_backup_path j.
Proof. unfold transaction_staged_path, transaction_backup_path. cbn. by apply bytes_head_ne. Qed.

Context (Hproper : proper_replacements).

Lemma target_inj ir ir' :
  ir ∈ replacements → ir' ∈ replacements →
  recommendation_filename ir.1 = recommendation_filename ir'.1 → ir = ir'.
Proof.
  intros Hi Hi' Heq. apply filename_inj in Heq; [|by apply Hproper..].
  pose proof (proper_distinct Hproper) as Hn. apply list_elem_of_lookup in Hi as [k Hk], Hi' as [k' Hk'].
  assert (k = k') as ->; [|congruence].
  apply (NoDup_lookup replacements.*1 k k' ir.1); [done|by rewrite list_lookup_fmap, Hk|].
  by rewrite list_lookup_fmap, Hk', Heq.
Qed.

Lemma replaced_other l F n :
  (∀ ir, ir ∈ l → recommendation_filename ir.1 ≠ n) → replaced F l !! n = F !! n.
Proof.
  revert F. induction l as [|ir l IH]; intros F Hn; [done|]. cbn.
  unfold replaced in IH. rewrite IH by (intros; apply Hn; by right).
  apply lookup_partial_alter_ne, Hn. by left.
Qed.
Lemma replaced_target l F ir :
  ir ∈ l → (∀ ir', ir' ∈ l → recommendation_filename ir.1 = recommendation_filename ir'.1 → ir = ir') →
  NoDup l.*1 → replaced F l !! recommendation_filename ir.1 = new ir.2.
Proof.
  revert F. induction l as [|x l IH]; intros F Hi Hinj Hn; [by apply elem_of_nil in Hi|].
  cbn in Hn |- *. apply NoDup_cons in Hn as [Hx Hn]. apply elem_of_cons in Hi as [->|Hi].
  - change (replaced (partial_alter (λ _, new x.2) (recommendation_filename x.1) F) l
              !! recommendation_filename x.1 = new x.2).
    rewrite replaced_other; [apply lookup_partial_alter_eq|].
    intros y Hy Heq. apply Hx. rewrite (Hinj y); [by apply list_elem_of_fmap_2|by right|done].
  - apply IH; [done| |done]. intros y Hy. apply Hinj. by right.
Qed.
Lemma F1_target ir : ir ∈ replacements → F1 !! recommendation_filename ir.1 = new ir.2.
Proof.
  intros Hi. apply replaced_target; [done| |apply Hproper]. intros ir' Hi'. by apply target_inj.
Qed.
Lemma F1_other n :
  (∀ ir, ir ∈ replacements → recommendation_filename ir.1 ≠ n) → F1 !! n = F0 !! n.
Proof. apply replaced_other. Qed.

(** The entries are those recovery accepts. *)
Lemma es_elem e : e ∈ es → ∃ ir, e = entry_of ir ∧ ir ∈ replacements.
Proof. intros (ir & -> & Hi)%list_elem_of_fmap. by exists ir. Qed.

Definition agrees (F G : gmap (list Z) (list Z)) (front : list RollupTransactionEntry) : Prop :=
  ∀ e, e ∈ front → F !! target e = G !! target e.
Lemma agrees_nil F G : agrees F G [].
Proof. intros e H. by apply elem_of_nil in H. Qed.
Lemma agrees_all F G : mixed F → G = F0 ∨ G = F1 → agrees F G es → F = G.
Proof.
  intros Hm HG Ha. apply map_eq. intros n.
  destruct (decide (Exists (λ ir, recommendation_filename ir.1 = n) replacements)) as [He|He].
  - apply Exists_exists in He as (ir & Hi & <-). apply (Ha (entry_of ir)). by apply list_elem_of_fmap_2.
  - assert (F1 !! n = F0 !! n) as Hn.
    { apply F1_other. intros ir Hi Heq. apply He, Exists_exists. by exists ir. }
    destruct (Hm n) as [->| ->], HG as [->| ->]; congruence.
Qed.
(** One file more is as in [G]. *)
Lemma agrees_step F G front e :
  e ∈ es → agrees F G front →
  agrees (partial_alter (λ _, G !! target e) (target e) F) G (front ++ [e]).
Proof.
  intros He Ha e' [He'| ->%list_elem_of_singleton]%elem_of_app; [|apply lookup_partial_alter_eq].
  destruct (decide (target e = target e')) as [<-|Hne]; [apply lookup_partial_alter_eq|].
  rewrite lookup_partial_alter_ne by done. by apply Ha.
Qed.
Lemma mixed_step F G n :
  mixed F → G = F0 ∨ G = F1 → mixed (partial_alter (λ _, G !! n) n F).
Proof.
  intros Hm HG m. destruct (decide (n = m)) as [<-|Hne].
  - rewrite lookup_partial_alter_eq. destruct HG as [->| ->]; auto.
  - rewrite lookup_partial_alter_ne by done. apply Hm.
Qed.
(** ** Steps *)

Context {Hinj : Inj (=) (=) hash_bytes}.
Abbreviation IO := (M Dir StoreError).
Definition ended (F : gmap (list Z) (list Z)) (d : Dir) : Prop := tx d = None ∧ files d = F.
Definition published (c : bool) (G : gmap (list Z) (list Z)) (front : list RollupTransactionEntry) (d : Dir) : Prop :=
  pending c d ∧ agrees (files d) G front.
(** A state of the files that may be published under the manifest. *)
Definition allowed (c : bool) (G : gmap (list Z) (list Z)) : Prop := G = F0 ∨ (c = true ∧ G = F1).

Lemma pending_consistent c d : pending c d → consistent d.
Proof. right. by exists c. Qed.
Lemma published_pending c G front d : published c G front d → pending c d.
Proof. by intros [? _]. Qed.
Hint Resolve pending_consistent published_pending : core.

Lemma pending_on_parts c d f :
  pending c d → (∀ P, backed P → backed (f P)) → pending c (on_parts f d).
Proof.
  intros [(P & Ht & Hb) Hr Hm Hu] Hf. split; [|done..]. exists (f P). split; [|by apply Hf].
  unfold on_parts, set_tx. cbn. by rewrite Ht.
Qed.
Lemma backed_other l P path (o : option (list Z)) :
  (∀ i, path ≠ transaction_backup_path i) → backed_for l P → backed_for l (partial_alter (λ _, o) path P).
Proof. intros Hp Hb ir bytes Hi Ho. rewrite lookup_partial_alter_ne by apply Hp. by apply Hb. Qed.

Lemma published_step c G front d e :
  e ∈ es → allowed c G → published c G front d →
  published c G (front ++ [e]) (set_files (partial_alter (λ _, G !! target e) (target e) (files d)) d).
Proof.
  intros He HG [[Ht Hr Hm Hu] Ha]. split; [split|].
  - done.
  - done.
  - cbn. apply mixed_step; [done|]. destruct HG as [|[_ ?]]; auto.
  - intros ->. cbn. destruct HG as [->|[? _]]; [|done]. rewrite Hu by done. apply map_eq. intros n.
    destruct (decide (target e = n)) as [<-|?]; [by rewrite lookup_partial_alter_eq|].
    by rewrite lookup_partial_alter_ne.
  - by apply agrees_step.
Qed.

Section any_outcome.
Context {g : bool}.
#[local] Abbreviation keeps := (keeps_in g).

Lemma keeps_remove_target c G front e :
  e ∈ es → allowed c G → G !! target e = None →
  keeps (pending c) (published c G front) (remove_target (target e)) (λ _, published c G (front ++ [e])).
Proof.
  intros He HG Hn. apply keeps_atomic; [by eauto|]. intros d Hd.
  pose proof (published_step c G front d e He HG Hd) as H. by rewrite Hn in H.
Qed.
Lemma keeps_replace_by_part c G front e path bytes :
  e ∈ es → allowed c G → G !! target e = Some bytes → (∀ i, path ≠ transaction_backup_path i) →
  keeps (pending c) (λ d, published c G front d ∧ part path d = Some bytes)
    (replace_by_part path (target e)) (λ _, published c G (front ++ [e])).
Proof.
  intros He HG Hn Hp. eapply keeps_bind; [apply keeps_read; naive_solver|]. intros bytes'.
  apply keeps_atomic; [naive_solver|]. intros d [[Hd Hb] Hb']. assert (bytes' = bytes) as -> by congruence.
  destruct (published_step c G front d e He HG Hd) as [H Ha]. rewrite Hn in H, Ha. split; [|done].
  change (pending c (on_parts (delete path) (set_files (<[target e := bytes]> (files d)) d))).
  apply pending_on_parts; [done|]. intros P. by apply backed_other.
Qed.

Lemma keeps_read_part (I P : Dir → Prop) path :
  (∀ d, P d → I d) → keeps I P (read_part path) (λ bytes d, P d ∧ part path d = Some bytes).
Proof. apply keeps_read. Qed.

Lemma hash_of_Some bytes o : (Some (hash_bytes bytes) == (hash_bytes <$> o)) = true → o = Some bytes.
Proof. intros H%eqb_elim. destruct o as [b|]; [|done]. cbn in H. f_equal. by apply (inj hash_bytes), (inj Some). Qed.

Lemma keeps_publish_entry front e :
  e ∈ es →
  keeps (pending true) (published true F1 front) (publish_entry hash_bytes e)
    (λ _, published true F1 (front ++ [e])).
Proof.
  intros He. destruct (es_elem e He) as (ir & -> & Hi). pose proof (F1_target ir Hi) as HF.
  assert (HG : allowed true F1) by by right.
  unfold publish_entry. cbn [new_exists target staged new_sha256 entry_of].
  destruct (new ir.2) as [b|] eqn:En; cbn [is_some negb];
    [|by apply (keeps_remove_target true F1 front (entry_of ir))].
  eapply keeps_bind; [apply keeps_read_ok; by eauto|]. intros current.
  destruct (is_some_and current _) eqn:Ec.
  - apply is_some_and_true in Ec as (b' & -> & [= ->]%hash_of_Some). apply keeps_ret.
    intros d [[Hp Ha] [?|Hb]]; [done|]. split; [done|].
    intros e' [He'| ->%list_elem_of_singleton]%elem_of_app; [by apply Ha|]. cbn. by rewrite <- Hb, HF.
  - eapply keeps_bind; [apply keeps_read_part; naive_solver|]. intros b'.
    destruct (Some (hash_bytes b') == _) eqn:Eh; [|apply keeps_fail; naive_solver].
    apply hash_of_Some in Eh as [= ->].
    eapply keeps_pre; [apply (keeps_replace_by_part true F1 front (entry_of ir) _ b'); try done|naive_solver].
Qed.

Lemma keeps_rollback_entry c front e :
  e ∈ es →
  keeps (pending c) (published c F0 front) (rollback_entry hash_bytes e)
    (λ _, published c F0 (front ++ [e])).
Proof.
  intros He. destruct (es_elem e He) as (ir & -> & Hi). pose proof (proper_old Hproper ir Hi) as HF.
  assert (HG : allowed c F0) by by left.
  unfold rollback_entry. cbn [old_exists backup old_sha256 tx_id entry_of].
  destruct (old ir.2) as [b|] eqn:Eo; cbn [is_some].
  - eapply keeps_bind; [apply keeps_read_part; by eauto|]. intros b'.
    destruct (Some (hash_bytes b') == _) eqn:Eh; [|apply keeps_fail; naive_solver].
    apply hash_of_Some in Eh as [= ->]. eapply keeps_bind.
    + apply (keeps_effect _ _ _ _ _ (λ _ d, published c F0 front d
               ∧ part (transaction_restore_path ir.1) d = Some b')); [naive_solver| |].
      * intros d junk [[Hp _] _]. apply pending_on_parts; [done|]. intros P. apply backed_other.
        intros j. apply restore_not_backup.
      * intros d [[Hp Ha] _]. split; [split|].
        -- apply pending_on_parts; [done|]. intros P. apply backed_other. intros j. apply restore_not_backup.
        -- done.
        -- destruct (pending_tx _ _ Hp) as (P & Ht & _). unfold part, on_parts, set_tx. rewrite Ht. cbn.
           apply lookup_insert_eq.
    + intros u. apply (keeps_replace_by_part c F0 front (entry_of ir)); try done.
  - by apply (keeps_remove_target c F0 front (entry_of ir)).
Qed.

Lemma keeps_publish_all :
  keeps (pending true) (pending true) (for_each (publish_entry hash_bytes) es)
    (λ _ d, pending true d ∧ files d = F1).
Proof.
  eapply keeps_weaken; [apply (keeps_for_each _ (published true F1)); intros; by apply keeps_publish_entry|done| |].
  - intros d Hd. split; [done|apply agrees_nil].
  - intros _ d [Hd Ha]. split; [done|]. apply agrees_all; [apply Hd|by right|done].
Qed.
Lemma keeps_rollback c :
  keeps (pending c) (pending c) (rollback_transaction hash_bytes es)
    (λ _ d, pending c d ∧ files d = F0).
Proof.
  eapply keeps_bind.
  - eapply keeps_weaken; [apply (keeps_for_each _ (published c F0)); intros; by apply keeps_rollback_entry|done| |].
    + intros d Hd. split; [done|apply agrees_nil].
    + intros u d [Hd Ha]. instantiate (1 := λ _ d, pending c d ∧ files d = F0).
      split; [done|]. apply agrees_all; [apply Hd|by left|done].
  - intros u. apply keeps_sync. naive_solver.
Qed.
Lemma keeps_validate (I P : Dir → Prop) :
  (∀ d, P d → I d) → keeps I P (validate_graph validate) (λ _ d, P d ∧ validate (files d) = Ok tt).
Proof.
  intros Hi. eapply keeps_bind; [by apply keeps_read|]. intros fs.
  apply keeps_of_result; [naive_solver|]. intros [] d Hv [Hd [= ->]]. done.
Qed.

Lemma cleanup_idle c d : pending c d → settled (files d) → idle (set_manifest None d).
Proof.
  intros [(P & Ht & _) Hr _ _] Hs. split; [|cbn; congruence|done].
  unfold set_manifest, set_tx. cbn. by rewrite Ht.
Qed.
Lemma idle_remains d f : idle d → idle (on_parts f d).
Proof.
  intros [Ht Hr Hf]. split; [|cbn|done].
  - unfold on_parts, set_tx. cbn. by destruct (tx d).
  - intros H. by rewrite Hr.
Qed.
Lemma idle_consistent d : idle d → consistent d.
Proof. by left. Qed.
Lemma ended_idle F d : settled F → ended F d → idle d.
Proof. intros Hs [Ht <-]. split; [by rewrite Ht|done|done]. Qed.
Hint Resolve idle_consistent ended_idle : core.

Lemma keeps_remove_dir_all F :
  keeps consistent (λ d, idle d ∧ files d = F) remove_dir_all (λ _, ended F).
Proof.
  apply keeps_effect; [naive_solver| |].
  - intros d p [Hd _]. left. by apply idle_remains.
  - by intros d [_ Hf].
Qed.
Lemma keeps_cleanup c F :
  settled F → keeps consistent (λ d, pending c d ∧ files d = F) finish_transaction_cleanup (λ _, ended F).
Proof.
  intros Hs. eapply keeps_bind.
  { apply (keeps_atomic _ _ _ _ (λ _ d, idle d ∧ files d = F)); [naive_solver|].
    intros d [Hd <-]. split; [by eapply cleanup_idle|done]. }
  intros u. eapply keeps_bind; [apply keeps_sync; naive_solver|]. intros u'.
  eapply keeps_bind; [apply keeps_remove_dir_all|]. intros u''. apply keeps_sync. naive_solver.
Qed.

(** ** Recovery *)

Definition recovered (d : Dir) : Prop := ∃ F, ended F d ∧ settled F.

Lemma keeps_roll_back c : keeps consistent (pending c) (roll_back hash_bytes validate es) (λ _, recovered).
Proof.
  eapply keeps_bind; [eapply keeps_weaken; [apply keeps_rollback|by eauto..]|]. intros u.
  eapply keeps_bind.
  { apply (keeps_catch _ (λ d, pending c d ∧ files d = F0)); [by apply keeps_validate|naive_solver]. }
  intros [v|e]; [|apply keeps_fail; naive_solver].
  eapply keeps_weaken; [apply (keeps_cleanup c F0); by left|done|naive_solver|].
  intros u' d Hd. exists F0. split; [done|by left].
Qed.

Lemma keeps_recover_transaction c :
  keeps consistent (pending c) (recover_transaction hash_bytes validate) (λ _, recovered).
Proof.
  eapply keeps_bind; [apply keeps_read; by eauto|]. intros m.
  apply (keeps_pre _ (λ d, pending c d ∧ m = mkManifest ROLLUP_TRANSACTION_VERSION c es)).
  2: { intros d [Hp Hm]. split; [done|]. destruct (pending_tx _ _ Hp) as (P & Ht & _).
       rewrite Ht in Hm. by injection Hm as <-. }
  apply keeps_pure. intros ->. cbn [version committed tx_entries].
  change (ROLLUP_TRANSACTION_VERSION =? LEGACY_ROLLUP_TRANSACTION_VERSION) with false.
  change (ROLLUP_TRANSACTION_VERSION =? ROLLUP_TRANSACTION_VERSION) with true. cbn [orb negb].
  eapply keeps_bind; [apply (keeps_ret _ _ _ (λ es' d, pending c d ∧ es' = es)); by eauto|]. intros es'.
  apply keeps_pure. intros ->.
  eapply keeps_bind; [apply (keeps_of_result _ _ _ (λ _, pending c)); by eauto|]. intros u.
  destruct c; [|apply keeps_roll_back].
  eapply keeps_bind; [apply keeps_catch; [apply keeps_publish_all|by eauto]|].
  intros [u'|e]; [|apply keeps_roll_back].
  eapply keeps_bind; [apply keeps_sync; naive_solver|]. intros u''.
  eapply keeps_bind.
  { apply (keeps_catch _ (λ d, pending true d ∧ files d = F1)); [by apply keeps_validate|naive_solver]. }
  intros [v|e]; [|eapply keeps_pre; [apply keeps_roll_back|naive_solver]].
  apply (keeps_pre _ (λ d, (pending true d ∧ files d = F1) ∧ validate F1 = Ok tt)).
  2: { intros d [[Hp Hf] Hv]. by rewrite Hf in Hv. }
  apply keeps_pure. intros Hv.
  eapply keeps_weaken; [apply (keeps_cleanup true F1); by right|done|done|].
  intros x d Hd. exists F1. split; [done|by right].
Qed.

Lemma recovered_consistent d : recovered d → consistent d.
Proof. intros (F & He & Hs). eauto. Qed.
Lemma idle_recovered d : idle d → tx d = None → recovered d.
Proof. intros [_ _ Hf] Ht. by exists (files d). Qed.
Lemma pending_manifest c d : pending c d → is_some (tx d ≫= manifest) = true ∧ tx d ≠ None ∧ tx_root d = true.
Proof. intros [(P & Ht & _) Hr _ _]. by rewrite Ht. Qed.
Hint Resolve recovered_consistent idle_recovered : core.

End any_outcome.
Hint Resolve idle_consistent ended_idle recovered_consistent idle_recovered : core.

Lemma keeps_recover_one :
  keeps consistent consistent
    (dir ← probe (λ d, is_some (tx d));
     if negb dir then ret tt
     else
       has_manifest ← probe (λ d, is_some (tx d ≫= manifest));
       if negb has_manifest then remove_dir_all else recover_transaction hash_bytes validate)
    (λ _, recovered).
Proof.
  eapply keeps_bind; [by apply keeps_probe|]. intros [|]; cbn [negb].
  2: { apply keeps_ret. intros d [[Hd|[c Hp]] Ht]; [apply idle_recovered; [done|by apply is_some_false]|].
       apply pending_manifest in Hp as (_ & Hn & _). symmetry in Ht. by apply is_some_false in Ht. }
  eapply keeps_bind; [apply keeps_probe; naive_solver|]. intros [|]; cbn [negb].
  - apply (keeps_pre _ (λ d, ∃ c, pending c d)); [apply keeps_exists, keeps_recover_transaction|].
    intros d [[[Hd|Hp] _] Hm]; [|done]. by rewrite (idle_tx d Hd) in Hm.
  - apply (keeps_pre _ (λ d, ∃ F, (idle d ∧ files d = F) ∧ settled F)).
    + apply keeps_exists. intros F. apply keeps_pure. intros Hs.
      eapply keeps_weaken; [apply keeps_remove_dir_all|done|exact (λ s H, H)|]. intros u d Hd. by exists F.
    + intros d [[[Hd|[c Hp]] _] Hm]; [exists (files d); split; [done|apply Hd]|].
      apply pending_manifest in Hp as (Hp & _ & _). congruence.
Qed.

Lemma keeps_recover_transactions :
  keeps consistent consistent (recover_transactions hash_bytes validate) (λ _, recovered).
Proof.
  eapply keeps_bind; [by apply keeps_probe|]. intros [|]; cbn [negb].
  2: { apply keeps_ret. intros d [[Hd|[c Hp]] Hr]; [apply idle_recovered; [done|by apply Hd]|].
       apply pending_manifest in Hp as (_ & _ & Hp). congruence. }
  eapply keeps_bind; [apply keeps_read; naive_solver|]. intros listed.
  eapply keeps_bind with (Q := λ _, recovered).
  - destruct (is_none listed) eqn:El; [|eapply keeps_pre; [apply keeps_recover_one|naive_solver]].
    apply is_none_true in El as ->. apply keeps_ret. intros d [[[Hd|[c Hp]] _] [= Ht]]; [by apply idle_recovered|].
    by apply pending_manifest in Hp as (_ & Hn & _).
  - intros u. eapply keeps_bind; [apply keeps_read, recovered_consistent|]. intros left.
    destruct (is_none left) eqn:El; [|apply keeps_ret; naive_solver].
    eapply keeps_bind with (Q := λ _, recovered); [|intros u'; apply keeps_sync, recovered_consistent].
    apply keeps_atomic; [naive_solver|]. intros d [(F & [Ht Hf] & Hs) _]. by exists F.
Qed.

(** ** The steps of a commit *)

Section any_commit_outcome.
Context {g : bool}.
#[local] Abbreviation keeps := (keeps_in g).

Record staging (front : list (list Z * Replacement)) (d : Dir) : Prop := {
  staging_root : tx_root d = true;
  staging_files : files d = F0;
  staging_tx : ∃ P, tx d = Some (mkTx None P) ∧ backed_for front P;
}.
Lemma staging_idle front d : staging front d → idle d.
Proof.
  intros [Hr Hf (P & Ht & _)]. split; [by rewrite Ht|congruence|by left].
Qed.
Lemma staging_consistent front d : staging front d → consistent d.
Proof. by left; eapply staging_idle. Qed.
Lemma ended_consistent d : ended F0 d → consistent d.
Proof. intros H. left. apply (ended_idle F0); [by left|done]. Qed.
Hint Resolve staging_consistent ended_consistent : core.

Lemma backup_inj ir ir' :
  ir ∈ replacements → ir' ∈ replacements →
  transaction_backup_path ir.1 = transaction_backup_path ir'.1 → ir = ir'.
Proof.
  intros Hi Hi' H. apply target_inj; [done..|]. unfold transaction_backup_path in H.
  by apply app_inv_head in H.
Qed.
(** A file below the transaction that is no backup of [front]. *)
Lemma keeps_write_part front path bytes :
  (∀ ir, ir ∈ front → path ≠ transaction_backup_path ir.1) →
  keeps consistent (staging front) (write_part path bytes) (λ _ d, staging front d ∧ part path d = Some bytes).
Proof.
  intros Hp. apply keeps_effect; [by eauto|..].
  - intros d junk Hd. left. apply idle_remains. by eapply staging_idle.
  - intros d [Hr Hf (P & Ht & Hb)]. unfold part, on_parts, set_tx. rewrite Ht. cbn.
    split; [|apply lookup_insert_eq]. split; [done..|]. exists (<[path := bytes]> P). split; [done|].
    intros ir b Hi Ho. rewrite lookup_insert_ne by by apply Hp. by apply Hb.
Qed.
Lemma keeps_stage_entry front ir :
  (∀ x, x ∈ front → x ∈ replacements) → ir ∈ replacements → ir ∉ front →
  keeps consistent (staging front) (stage_entry hash_bytes ir.1 ir.2)
    (λ e d, staging (front ++ [ir]) d ∧ e = entry_of ir).
Proof.
  intros Hfront Hi Hn. unfold stage_entry. eapply keeps_bind with
    (Q := λ bak d, staging (front ++ [ir]) d ∧ bak = backup (entry_of ir)).
  - cbn. destruct (old ir.2) as [b|] eqn:Eo; cbn.
    + eapply keeps_bind; [apply keeps_write_part|].
      { intros x Hx H. apply backup_inj in H as ->; auto. }
      intros u. apply keeps_ret. intros d [[Hr Hf (P & Ht & Hb)] Hp]. split; [|done]. split; [done..|].
      exists P. split; [done|]. unfold part in Hp. rewrite Ht in Hp. cbn in Hp.
      intros x b' [Hx| ->%list_elem_of_singleton]%elem_of_app Ho; [by apply Hb|]. congruence.
    + apply keeps_ret. intros d [Hr Hf (P & Ht & Hb)]. split; [|done]. split; [done..|]. exists P. split; [done|].
      intros x b' [Hx| ->%list_elem_of_singleton]%elem_of_app Ho; [by apply Hb|congruence].
  - intros bak. apply keeps_pure. intros ->. eapply keeps_bind with
      (Q := λ stg d, staging (front ++ [ir]) d ∧ stg = staged (entry_of ir)).
    + cbn. destruct (new ir.2) as [b|]; cbn; [|by apply keeps_ret].
      eapply keeps_bind; [apply keeps_write_part; intros; apply staged_not_backup|].
      intros u. apply keeps_ret. by intros d [Hd _].
    + intros stg. apply keeps_pure. intros ->. by apply keeps_ret.
Qed.
Lemma keeps_stage_all back front :
  front ++ back = replacements →
  keeps consistent (staging front) (stage_all hash_bytes back)
    (λ es' d, staging replacements d ∧ es' = entry_of <$> back).
Proof.
  revert front. induction back as [|[i r] back IH]; intros front Heq.
  - apply keeps_ret. intros d Hd. by rewrite <- Heq, app_nil_r.
  - assert (Hn : (i, r) ∉ front).
    { intros Hin. pose proof (proper_distinct Hproper) as Hd. rewrite <- Heq, fmap_app in Hd.
      apply NoDup_app in Hd as (_ & Hd & _). apply (Hd i); [by apply (list_elem_of_fmap_2 fst _ (i, r))|by left]. }
    cbn. eapply keeps_bind.
    { apply (keeps_stage_entry front (i, r)); [|rewrite <- Heq; apply elem_of_app; by right; left|done].
      intros x Hx. rewrite <- Heq. apply elem_of_app. by left. }
    intros e. apply keeps_pure. intros ->. eapply keeps_bind; [apply IH; by rewrite <- app_assoc|].
    intros es'. apply keeps_pure. intros ->. by apply keeps_ret.
Qed.

Lemma keeps_manifest c (P : Dir → Prop) :
  (∀ d, P d → consistent d) → (∀ d, P d → pending c (set_manifest (Some (mkManifest ROLLUP_TRANSACTION_VERSION c es)) d)) →
  keeps consistent P (write_manifest_atomic (mkManifest ROLLUP_TRANSACTION_VERSION c es)) (λ _, pending c).
Proof.
  intros Hi Hp. eapply keeps_bind; [by apply keeps_sync|]. intros u.
  eapply keeps_bind; [by apply (keeps_atomic _ _ _ _ (λ _, pending c))|]. intros u'.
  eapply keeps_bind; [apply keeps_sync; by eauto|]. intros u''. apply keeps_sync. by eauto.
Qed.
Lemma mixed_F0 : mixed F0.
Proof. intros n. by left. Qed.
Lemma staging_pending d :
  staging replacements d → pending false (set_manifest (Some (mkManifest ROLLUP_TRANSACTION_VERSION false es)) d).
Proof.
  intros [Hr Hf (P & Ht & Hb)]. split; [|done|cbn; rewrite Hf; apply mixed_F0|by cbn].
  exists P. unfold set_manifest, set_tx. cbn. by rewrite Ht.
Qed.
Lemma pending_commit d :
  pending false d → pending true (set_manifest (Some (mkManifest ROLLUP_TRANSACTION_VERSION true es)) d).
Proof.
  intros [(P & Ht & Hb) Hr Hm _]. split; [|done..].
  exists P. unfold set_manifest, set_tx. cbn. by rewrite Ht.
Qed.

Lemma keeps_publish :
  keeps consistent (pending true) (publish hash_bytes validate es) (λ _ d, ended F1 d ∧ settled F1).
Proof.
  eapply keeps_bind; [eapply keeps_weaken; [apply keeps_publish_all|by eauto..]|]. intros u.
  eapply keeps_bind; [apply keeps_sync; naive_solver|]. intros u'.
  eapply keeps_bind.
  { apply (keeps_catch _ (λ d, pending true d ∧ files d = F1)); [by apply keeps_validate|naive_solver]. }
  intros [v|e].
  - apply (keeps_pre _ (λ d, (pending true d ∧ files d = F1) ∧ validate F1 = Ok tt)).
    2: { intros d [[Hp Hf] Hv]. by rewrite Hf in Hv. }
    apply keeps_pure. intros Hv. assert (Hs : settled F1) by by right.
    eapply keeps_weaken; [by apply (keeps_cleanup true F1)|done|done|]. by intros x d Hd.
  - eapply keeps_bind.
    { apply (keeps_catch _ (pending true)); [|by eauto].
      eapply keeps_pre; [apply keeps_rollback|naive_solver]. }
    intros [w|e']; [|apply keeps_fail; by eauto].
    eapply keeps_bind.
    { apply (keeps_catch _ (pending true)); [apply keeps_validate|]; naive_solver. }
    intros [x|e']; apply keeps_fail; naive_solver.
Qed.

Lemma keeps_verify_hashes (P : Dir → Prop) expected :
  (∀ d, P d → consistent d) → keeps consistent P (verify_hashes hash_bytes expected) (λ _, P).
Proof.
  intros Hi. induction expected as [|[i h] expected IH]; [by apply keeps_ret|]. cbn.
  destruct (valid_id i); cbn [negb]; [|by apply keeps_fail].
  eapply keeps_bind; [by apply keeps_read_ok|]. intros actual.
  case_match; [|apply keeps_fail; naive_solver]. eapply keeps_pre; [done|naive_solver].
Qed.
Lemma keeps_verify_old (P : Dir → Prop) l :
  (∀ d, P d → consistent d) → keeps consistent P (verify_old l) (λ _, P).
Proof.
  intros Hi. induction l as [|[i r] l IH]; [by apply keeps_ret|]. cbn.
  eapply keeps_bind; [by apply keeps_read_ok|]. intros actual.
  case_match; [|apply keeps_fail; naive_solver]. eapply keeps_pre; [done|naive_solver].
Qed.
Lemma keeps_commit read_ids expected :
  keeps consistent (ended F0) (commit_replacements hash_bytes validate read_ids expected replacements)
    (λ _ d, ended F1 d ∧ settled F1).
Proof.
  eapply keeps_bind; [apply keeps_read, ended_consistent|]. intros fs.
  eapply keeps_bind; [apply (keeps_of_result _ _ _ (λ _, ended F0)); naive_solver|]. intros current.
  eapply keeps_bind with (Q := λ _, ended F0).
  { eapply keeps_bind; [apply keeps_verify_hashes, ended_consistent|]. intros u.
    case_match; [by apply keeps_ret|apply keeps_fail, ended_consistent]. }
  intros u. eapply keeps_bind; [apply keeps_verify_old, ended_consistent|]. intros u'.
  destruct (length replacements =? 0)%nat eqn:El.
  { apply keeps_ret. intros d Hd. apply Nat.eqb_eq, nil_length_inv in El.
    unfold settled. rewrite El. split; [done|by left]. }
  eapply keeps_bind.
  { apply (keeps_atomic _ _ _ _ (λ _, staging [])); [by eauto|]. intros d [_ Hf]. split; [done..|].
    exists ∅. split; [done|]. intros ir b Hi. by apply elem_of_nil in Hi. }
  intros u2. eapply keeps_bind; [apply keeps_sync; by eauto|]. intros u3.
  eapply keeps_bind; [by apply (keeps_stage_all replacements [])|]. intros es'. apply keeps_pure. intros ->.
  eapply keeps_bind; [apply keeps_manifest; [by eauto|apply staging_pending]|]. intros u4.
  eapply keeps_bind; [apply keeps_sync; by eauto|]. intros u5.
  eapply keeps_bind; [apply keeps_manifest; [by eauto|apply pending_commit]|]. intros u6.
  eapply keeps_bind; [apply keeps_sync; by eauto|]. intros u7.
  eapply keeps_bind; [apply keeps_sync; by eauto|]. intros u8. apply keeps_publish.
Qed.

End any_commit_outcome.

(** ** Recovery without faults *)

Lemma component_no_slash i : Forall is_u8 i → 0x2f ∉ filename_component i.
Proof.
  induction 1 as [|b i [Hb1 Hb2] _ IH]; [apply not_elem_of_nil|]. cbn. rewrite not_elem_of_app. split; [|done].
  assert (Hh : ∀ n, 0 <= n → upper_hex n ≠ 0x2f) by (intros n Hn; unfold upper_hex; case_match; to_prop; lia).
  destruct (id_byte b) eqn:E.
  - intros Hin%list_elem_of_singleton. by subst b.
  - rewrite !not_elem_of_cons. split; [done|]. split; [apply not_eq_sym, Hh, Z.div_pos; lia|].
    split; [apply not_eq_sym, Hh, Z.mod_pos_bound; lia|apply not_elem_of_nil].
Qed.
Lemma json_name_safe prefix i :
  valid_id i = true → 0x2f ∉ prefix → prefix ≠ [] → prefix ≠ bytes_of ".." → hd 0 prefix ≠ 0x2f →
  escapes (prefix ++ 0x2f :: filename_component i ++ bytes_of ".json") = false.
Proof.
  intros Hi Hp Hne Hd Hh. unfold escapes. apply orb_false_iff. split.
  - destruct prefix as [|b prefix]; [done|]. cbn in Hh |- *. apply eqb_false. congruence.
  - assert (Hs : split 0x2f (prefix ++ 0x2f :: filename_component i ++ bytes_of ".json")
                 = [prefix; filename_component i ++ bytes_of ".json"]).
    { clear Hne Hd Hh. induction prefix as [|b prefix IH].
      - cbn [app split]. rewrite Z.eqb_refl, split_single; [done|].
        rewrite not_elem_of_app. split; [by apply component_no_slash, valid_id_u8|].
        intros H. by repeat apply elem_of_cons in H as [H|H].
      - apply not_elem_of_cons in Hp as [Hb Hp]. cbn [app split]. rewrite IH by done.
        by rewrite (proj2 (Z.eqb_neq b 0x2f)) by congruence. }
    rewrite Hs. cbn [existsb]. rewrite !orb_false_iff. split; [by apply eqb_false|].
    split; [|done]. apply eqb_false. intros H. apply (f_equal length) in H. rewrite length_app in H.
    cbn in H. lia.
Qed.
Lemma entry_paths_safe ir :
  valid_id ir.1 = true →
  existsb escapes (option_list (staged (entry_of ir)) ++ option_list (backup (entry_of ir))) = false.
Proof.
  intros Hi.
  assert (Hs : escapes (transaction_staged_path ir.1) = false).
  { apply (json_name_safe (bytes_of "staged")); [done| |done..].
    apply (bool_decide_eq_true_1 _). vm_compute. reflexivity. }
  assert (Hb : escapes (transaction_backup_path ir.1) = false).
  { apply (json_name_safe (bytes_of "backups")); [done| |done..].
    apply (bool_decide_eq_true_1 _). vm_compute. reflexivity. }
  cbn. destruct (is_some (new ir.2)), (is_some (old ir.2)); cbn; by rewrite ?Hs, ?Hb.
Qed.
Lemma manifest_entries_accepted l ids :
  (∀ ir, ir ∈ l → valid_id ir.1 = true) → NoDup l.*1 → (∀ ir, ir ∈ l → ir.1 ∉ ids) →
  validate_manifest_entries ids (entry_of <$> l) = Ok tt.
Proof.
  revert ids. induction l as [|ir l IH]; intros ids Hv Hn Hi; [done|].
  cbn [fmap list_fmap] in Hn |- *. apply NoDup_cons in Hn as [Hx Hn]. cbn [validate_manifest_entries].
  rewrite ensure_bind_Ok. split.
  { cbn [tx_id target old_exists new_exists old_sha256 new_sha256 backup staged entry_of].
    rewrite Hv by by left. rewrite eqb_refl, bool_decide_eq_true_2 by (apply Hi; by left).
    by destruct (old ir.2), (new ir.2). }
  rewrite ensure_bind_Ok. split; [cbn; by rewrite !eqb_refl|].
  rewrite ensure_bind_Ok. split; [rewrite entry_paths_safe; [done|apply Hv; by left]|].
  apply IH; [intros; apply Hv; by right|done|].
  intros x Hin. cbn. apply not_elem_of_union. split; [|apply Hi; by right].
  intros Heq%elem_of_singleton. apply Hx. rewrite <- Heq. by apply list_elem_of_fmap_2.
Qed.

Lemma quiet_publish_entry e : quiet (publish_entry hash_bytes e).
Proof.
  unfold publish_entry. case_match; [apply quiet_atomic|].
  apply quiet_bind; [apply quiet_read_ok|]. intros current. case_match; [apply quiet_ret|].
  case_match; [|apply quiet_fail]. apply quiet_bind; [apply quiet_read|]. intros b.
  case_match; [|apply quiet_fail]. apply quiet_bind; [apply quiet_read|]. intros b'. apply quiet_atomic.
Qed.
Lemma quiet_validate : quiet (validate_graph validate).
Proof. apply quiet_bind; [apply quiet_read|]. intros fs. apply quiet_of_result. Qed.

Lemma succeeds_rollback_entry c e :
  e ∈ es → succeeds (pending c) (rollback_entry hash_bytes e) (λ _, pending c).
Proof.
  intros He. apply (succeeds_keeps (pending c)).
  2: { eapply keeps_weaken; [by apply (keeps_rollback_entry c [])|done| |by intros u d [? _]].
       intros d Hd. split; [done|apply agrees_nil]. }
  destruct (es_elem e He) as (ir & -> & Hi). unfold rollback_entry.
  cbn [old_exists backup old_sha256 tx_id entry_of target].
  destruct (old ir.2) as [b|] eqn:Eo; cbn [is_some]; [|by apply succeeds_atomic].
  eapply succeeds_bind.
  { eapply succeeds_weaken; [apply (succeeds_read (pending c))| |].
    - intros d [(P & Ht & Hb) _ _ _]. exists b. unfold part. rewrite Ht. cbn. by apply Hb.
    - done.
    - intros a d [Hd Ha]. instantiate (1 := λ a d, pending c d ∧ a = b). split; [done|].
      destruct (pending_tx _ _ Hd) as (P & Ht & Hb). unfold part in Ha. rewrite Ht in Ha. cbn in Ha.
      rewrite (Hb ir b Hi Eo) in Ha. congruence. }
  intros b'. apply succeeds_pure. intros ->. cbn [fmap option_fmap option_map]. rewrite eqb_refl.
  eapply succeeds_bind.
  { apply (succeeds_effect _ _ _ _ (λ _ d, is_Some (part (transaction_restore_path ir.1) d))).
    intros d Hd. destruct (pending_tx _ _ Hd) as (P & Ht & _). unfold part, on_parts, set_tx. rewrite Ht. cbn.
    exists b. apply lookup_insert_eq. }
  intros u. eapply succeeds_bind; [by apply succeeds_read|]. intros b''. by apply succeeds_atomic.
Qed.
Lemma succeeds_rollback c :
  succeeds (pending c) (rollback_transaction hash_bytes es) (λ _ d, pending c d ∧ files d = F0).
Proof.
  apply (succeeds_keeps (pending c)); [|apply keeps_rollback].
  eapply succeeds_bind; [apply succeeds_for_each; intros e He; by apply succeeds_rollback_entry|].
  intros u. by apply succeeds_atomic.
Qed.
Lemma succeeds_cleanup P : succeeds P finish_transaction_cleanup (λ _ _, True).
Proof.
  eapply succeeds_bind; [by apply (succeeds_atomic _ _ _ (λ _ _, True))|]. intros u.
  eapply succeeds_bind; [apply succeeds_sync|]. intros u'.
  eapply succeeds_bind; [by apply (succeeds_effect _ _ _ _ (λ _ _, True))|]. intros u''.
  apply succeeds_sync.
Qed.

Lemma succeeds_roll_back c :
  validate F0 = Ok tt → succeeds (pending c) (roll_back hash_bytes validate es) (λ _ _, True).
Proof.
  intros Hv. eapply succeeds_bind; [apply succeeds_rollback|]. intros u.
  eapply succeeds_bind.
  { apply (succeeds_catch_Ok _ _ (λ _ _, True)).
    eapply succeeds_bind; [by apply succeeds_read|]. intros fs.
    apply succeeds_of_result. intros d [[_ Hf] [= <-]]. exists tt. by rewrite Hf. }
  intros valid. apply (succeeds_pre (λ d, True ∧ ∃ a : unit, valid = Ok a)).
  2: { by intros d [[a ->] _]; split; [|exists a]. }
  apply succeeds_pure. intros [a ->]. apply succeeds_cleanup.
Qed.

Lemma succeeds_recover_transaction c :
  validate F0 = Ok tt →
  succeeds (pending c) (recover_transaction hash_bytes validate) (λ _ _, True).
Proof.
  intros Hv. eapply succeeds_bind.
  { apply succeeds_read. intros d Hd. destruct (pending_tx _ _ Hd) as (P & Ht & _). by rewrite Ht. }
  intros m. apply (succeeds_pre (λ d, pending c d ∧ m = mkManifest ROLLUP_TRANSACTION_VERSION c es)).
  2: { intros d [Hp Hm]. split; [done|]. destruct (pending_tx _ _ Hp) as (P & Ht & _).
       rewrite Ht in Hm. by injection Hm as <-. }
  apply succeeds_pure. intros ->. cbn [version committed tx_entries].
  change (ROLLUP_TRANSACTION_VERSION =? LEGACY_ROLLUP_TRANSACTION_VERSION) with false.
  change (ROLLUP_TRANSACTION_VERSION =? ROLLUP_TRANSACTION_VERSION) with true. cbn [orb negb].
  eapply succeeds_bind; [apply (succeeds_ret _ _ (λ es' d, pending c d ∧ es' = es)); by eauto|]. intros es'.
  apply succeeds_pure. intros ->.
  eapply succeeds_bind with (Q := λ _, pending c).
  { apply succeeds_of_result. intros d Hd. exists tt. split; [|done].
    apply manifest_entries_accepted; [apply Hproper..|]. intros ir _. apply not_elem_of_empty. }
  intros u. destruct c; [|by apply succeeds_roll_back].
  eapply succeeds_bind.
  { apply (succeeds_catch (pending true)); [|apply keeps_publish_all].
    apply quiet_for_each, quiet_publish_entry. }
  intros [u'|e]; [|by apply succeeds_roll_back].
  eapply succeeds_bind; [apply succeeds_sync|]. intros u''.
  eapply succeeds_bind.
  { apply (succeeds_catch (pending true)); [apply quiet_validate|]. apply keeps_validate. naive_solver. }
  intros [v|e]; [|by apply succeeds_roll_back]. apply succeeds_cleanup.
Qed.
Lemma succeeds_recover_transactions :
  validate F0 = Ok tt →
  succeeds consistent (recover_transactions hash_bytes validate) (λ _, recovered).
Proof.
  intros Hv. apply (succeeds_keeps consistent); [|apply keeps_recover_transactions].
  eapply succeeds_bind; [apply succeeds_probe|]. intros [|]; cbn [negb]; [|by apply succeeds_ret].
  eapply succeeds_bind; [by apply succeeds_read|]. intros listed.
  eapply succeeds_bind with (Q := λ _ _, True).
  - case_match; [by apply succeeds_ret|].
    eapply succeeds_bind; [apply succeeds_probe|]. intros [|]; cbn [negb]; [|by apply succeeds_ret].
    eapply succeeds_bind; [apply succeeds_probe|]. intros [|]; cbn [negb]; [|by apply succeeds_effect].
    apply (succeeds_pre (λ d, ∃ c, pending c d)); [|].
    + apply succeeds_exists. intros c. by apply succeeds_recover_transaction.
    + intros d [[[[[Hd|Hp] _] _] _] Hm]; [|done]. by rewrite (idle_tx d Hd) in Hm.
  - intros u. eapply succeeds_bind; [by apply succeeds_read|]. intros left.
    case_match; [|by apply succeeds_ret].
    eapply succeeds_bind; [by apply (succeeds_atomic _ _ _ (λ _ _, True))|]. intros u'.
    by apply succeeds_atomic.
Qed.

(** Files stay as they are when there is nothing to recover. *)
Lemma recover_ended {g} F :
  keeps_in g (ended F) (ended F) (recover_transactions hash_bytes validate) (λ _, ended F).
Proof.
  eapply keeps_bind; [by apply keeps_probe_any|]. intros there.
  destruct there; cbn [negb]; [|apply keeps_ret; naive_solver].
  eapply keeps_bind; [apply keeps_read; naive_solver|]. intros listed.
  eapply keeps_bind with (Q := λ _, ended F).
  - apply (keeps_pre _ (λ d, ended F d ∧ listed = None)).
    2: { intros d [[[Ht Hf] _] [= <-]]. done. }
    apply keeps_pure. intros ->. by apply keeps_ret.
  - intros u. eapply keeps_bind; [by apply keeps_read|]. intros left.
    case_match; [|apply keeps_ret; naive_solver].
    eapply keeps_bind with (Q := λ _, ended F); [|intros u'; by apply keeps_sync].
    apply keeps_atomic; [naive_solver|]. by intros d [[Ht Hf] _].
Qed.

(** ** Whatever happens *)

Section whatever.
#[local] Abbreviation keeps := (keeps_in false).

(** Every file is one of the two, and a manifest is of this transaction. *)
Record whole (d : Dir) : Prop := {
  whole_files : mixed (files d);
  whole_manifest : ∀ m, tx d ≫= manifest = Some m → ∃ c, m = mkManifest ROLLUP_TRANSACTION_VERSION c es;
}.
Lemma whole_on_parts f d : whole d → whole (on_parts f d).
Proof.
  intros [Hm Ht]. split; [done|]. intros m Hs. apply Ht. unfold on_parts, set_tx in Hs. cbn in Hs. by destruct (tx d).
Qed.
Lemma whole_step G n d : G = F0 ∨ G = F1 → whole d → whole (set_files (partial_alter (λ _, G !! n) n (files d)) d).
Proof. intros HG [Hm Ht]. split; [by apply mixed_step|done]. Qed.
Lemma whole_set_manifest c d : whole d → whole (set_manifest (Some (mkManifest ROLLUP_TRANSACTION_VERSION c es)) d).
Proof.
  intros [Hm Ht]. split; [done|]. intros m Hs. unfold set_manifest, set_tx in Hs. cbn in Hs.
  destruct (tx d); [|done]. injection Hs as <-. by exists c.
Qed.
Lemma whole_no_manifest d t : whole d → (∀ x, t = Some x → manifest x = None) → whole (set_tx t d).
Proof.
  intros [Hm Ht] Hn. split; [done|]. intros m Hs. cbn in Hs. destruct t as [x|]; [|done]. cbn in Hs. by rewrite (Hn x) in Hs.
Qed.
Lemma whole_sync : keeps whole whole (sync Io) (λ _, whole).
Proof. by apply keeps_sync. Qed.
Lemma whole_remove e G :
  G = F0 ∨ G = F1 → G !! target e = None → keeps whole whole (remove_target (target e)) (λ _, whole).
Proof. intros HG Hn. apply keeps_atomic; [done|]. intros d Hd. pose proof (whole_step G (target e) d HG Hd) as H. by rewrite Hn in H. Qed.
Lemma whole_replace e G path bytes :
  G = F0 ∨ G = F1 → G !! target e = Some bytes →
  keeps whole (λ d, whole d ∧ part path d = Some bytes) (replace_by_part path (target e)) (λ _, whole).
Proof.
  intros HG Hn. eapply keeps_bind; [apply keeps_read; naive_solver|]. intros bytes'.
  apply keeps_atomic; [naive_solver|]. intros d [[Hd Hb] Hb']. assert (bytes' = bytes) as -> by congruence.
  pose proof (whole_step G (target e) d HG Hd) as H. rewrite Hn in H. by apply (whole_on_parts (delete path)) in H.
Qed.
Lemma whole_publish_entry e : e ∈ es → keeps whole whole (publish_entry hash_bytes e) (λ _, whole).
Proof.
  intros He. destruct (es_elem e He) as (ir & -> & Hi). pose proof (F1_target ir Hi) as HF.
  unfold publish_entry. cbn [new_exists target staged new_sha256 entry_of].
  destruct (new ir.2) as [b|] eqn:En; cbn [is_some negb]; [|by apply (whole_remove (entry_of ir) F1); [right|]].
  eapply keeps_bind; [by apply keeps_read_ok|]. intros current.
  destruct (is_some_and current _); [apply keeps_ret; naive_solver|].
  eapply keeps_bind; [apply keeps_read_part; naive_solver|]. intros b'.
  destruct (Some (hash_bytes b') == _) eqn:Eh; [|apply keeps_fail; naive_solver]. apply hash_of_Some in Eh as [= ->].
  eapply keeps_pre; [apply (whole_replace (entry_of ir) F1 _ b'); [by right|done]|naive_solver].
Qed.
Lemma whole_rollback_entry e : e ∈ es → keeps whole whole (rollback_entry hash_bytes e) (λ _, whole).
Proof.
  intros He. destruct (es_elem e He) as (ir & -> & Hi). pose proof (proper_old Hproper ir Hi) as HF.
  unfold rollback_entry. cbn [old_exists backup old_sha256 tx_id entry_of target].
  destruct (old ir.2) as [b|] eqn:Eo; cbn [is_some]; [|by apply (whole_remove (entry_of ir) F0); [left|]].
  eapply keeps_bind; [by apply keeps_read_part|]. intros b'.
  destruct (Some (hash_bytes b') == _) eqn:Eh; [|apply keeps_fail; naive_solver]. apply hash_of_Some in Eh as [= ->].
  eapply keeps_bind with (Q := λ _ d, whole d ∧ part (transaction_restore_path ir.1) d = Some b').
  - apply keeps_effect; [naive_solver|intros d p [Hd _]; by apply whole_on_parts|]. intros d [Hd Hb].
    split; [by apply whole_on_parts|]. unfold part, on_parts, set_tx in *. cbn. destruct (tx d); [|done]. cbn. apply lookup_insert_eq.
  - intros u. apply (whole_replace (entry_of ir) F0); [by left|done].
Qed.
Lemma whole_rollback : keeps whole whole (rollback_transaction hash_bytes es) (λ _, whole).
Proof.
  eapply keeps_bind; [|intros u; apply whole_sync].
  apply (keeps_for_each whole (λ _, whole)). intros front e He. by apply whole_rollback_entry.
Qed.
Lemma whole_publish_all : keeps whole whole (for_each (publish_entry hash_bytes) es) (λ _, whole).
Proof. apply (keeps_for_each whole (λ _, whole)). intros front e He. by apply whole_publish_entry. Qed.
Lemma whole_validate : keeps whole whole (validate_graph validate) (λ _, whole).
Proof. eapply keeps_weaken; [by apply (keeps_validate whole whole)|done|done|naive_solver]. Qed.
Lemma whole_catch {A : Type} (m : IO A) : keeps whole whole m (λ _, whole) → keeps whole whole (catch m) (λ _, whole).
Proof. intros H. eapply keeps_weaken; [by apply (keeps_catch whole whole)|done|done|]. by intros [a|e] d Hd. Qed.
Lemma whole_remove_dir_all : keeps whole whole remove_dir_all (λ _, whole).
Proof.
  apply keeps_effect; [done|intros d p Hd; by apply whole_on_parts|]. intros d Hd. by apply whole_no_manifest.
Qed.
Lemma whole_cleanup : keeps whole whole finish_transaction_cleanup (λ _, whole).
Proof.
  eapply keeps_bind with (Q := λ _, whole).
  { apply keeps_atomic; [done|]. intros d Hd. apply whole_no_manifest; [done|]. intros x. by destruct (tx d); intros [= <-]. }
  intros u. eapply keeps_bind; [apply whole_sync|]. intros u'.
  eapply keeps_bind; [apply whole_remove_dir_all|]. intros u''. apply whole_sync.
Qed.
Lemma whole_roll_back : keeps whole whole (roll_back hash_bytes validate es) (λ _, whole).
Proof.
  eapply keeps_bind; [apply whole_rollback|]. intros u. eapply keeps_bind; [apply whole_catch, whole_validate|].
  intros [v|e]; [apply whole_cleanup|by apply keeps_fail].
Qed.
Lemma whole_recover_transaction : keeps whole whole (recover_transaction hash_bytes validate) (λ _, whole).
Proof.
  eapply keeps_bind; [by apply keeps_read|]. intros m.
  apply (keeps_pre _ (λ d, whole d ∧ ∃ c, m = mkManifest ROLLUP_TRANSACTION_VERSION c es)).
  2: { intros d [Hd Hm]. split; [done|]. by apply (whole_manifest d). }
  apply keeps_pure. intros [c ->]. cbn [version committed tx_entries].
  change (ROLLUP_TRANSACTION_VERSION =? LEGACY_ROLLUP_TRANSACTION_VERSION) with false.
  change (ROLLUP_TRANSACTION_VERSION =? ROLLUP_TRANSACTION_VERSION) with true. cbn [orb negb].
  eapply keeps_bind; [apply (keeps_ret _ _ _ (λ es' d, whole d ∧ es' = es)); by eauto|]. intros es'.
  apply keeps_pure. intros ->.
  eapply keeps_bind; [by apply (keeps_of_result _ _ _ (λ _, whole))|]. intros u.
  destruct c; [|apply whole_roll_back]. eapply keeps_bind; [apply whole_catch, whole_publish_all|].
  intros [u'|e]; [|apply whole_roll_back]. eapply keeps_bind; [apply whole_sync|]. intros u''.
  eapply keeps_bind; [apply whole_catch, whole_validate|]. intros [v|e]; [apply whole_cleanup|apply whole_roll_back].
Qed.
Lemma whole_recover : keeps whole whole (recover_transactions hash_bytes validate) (λ _, whole).
Proof.
  assert (Hp : ∀ f, keeps whole whole (probe f : IO bool) (λ _, whole)).
  { intros f. eapply keeps_weaken; [by apply keeps_probe_any|done|done|naive_solver]. }
  eapply keeps_bind; [apply Hp|]. intros there. destruct (negb there); [by apply keeps_ret|].
  eapply keeps_bind with (Q := λ _, whole); [eapply keeps_weaken; [by apply keeps_read|done|done|naive_solver]|]. intros listed.
  eapply keeps_bind with (Q := λ _, whole).
  - destruct (is_none listed); [by apply keeps_ret|]. eapply keeps_bind; [apply Hp|]. intros dir.
    destruct (negb dir); [by apply keeps_ret|]. eapply keeps_bind; [apply Hp|]. intros m.
    destruct (negb m); [apply whole_remove_dir_all|apply whole_recover_transaction].
  - intros u. eapply keeps_bind with (Q := λ _, whole); [eapply keeps_weaken; [by apply keeps_read|done|done|naive_solver]|].
    intros left. destruct (is_none left); [|by apply keeps_ret].
    eapply keeps_bind; [apply (keeps_atomic _ _ _ _ (λ _, whole)); [done|by intros d [Hm Ht]]|]. intros u'. apply whole_sync.
Qed.
End whatever.
End graph_transaction.

(** ** Properties *)

Section recoveries.
Context (hash_bytes : list Z → list Z).
Context (validate : gmap (list Z) (list Z) → result StoreError unit).

(** One recovery after the other, each with its faults. *)
Definition recover_again (d : Dir) (faults : list (list Outcome)) : Dir :=
  fold_left (λ d os, (recover_transactions hash_bytes validate d os).1.2) faults d.
End recoveries.

Section after_commit.
Context (hash_bytes : list Z → list Z) {Hinj : Inj (=) (=) hash_bytes}.
Context (validate : gmap (list Z) (list Z) → result StoreError unit).
Context (F0 : gmap (list Z) (list Z)) (replacements : list (list Z * Replacement)).
Context (Hproper : proper_replacements F0 replacements).
Abbreviation consistent := (consistent hash_bytes validate F0 replacements).

Lemma recover_again_keeps {g} (I : Dir → Prop) Q d faults :
  keeps_in g I I (recover_transactions hash_bytes validate) Q → (∀ u d, Q u d → I d) →
  Forall (admits g) faults → I d → I (recover_again hash_bytes validate d faults).
Proof.
  intros Hk HQ Hf. revert d. induction Hf as [|os faults Ho _ IH]; intros d Hd; [done|]. cbn. apply IH.
  pose proof (keeps_exit _ _ _ _ d os Hk Ho Hd) as H.
  destruct (recover_transactions _ _ d os) as [[[[u|e]|] d'] os']; cbn in *; by eauto.
Qed.
Lemma commit_consistent read_ids expected root os exit d os' :
  commit_replacements hash_bytes validate read_ids expected replacements (mkDir F0 root None) os
    = (exit, d, os') →
  consistent d ∧ (exit = Returned (Ok tt) → ended (replaced F0 replacements) d).
Proof.
  intros Hc. pose proof (keeps_exit (g := false) _ _ _ _ (mkDir F0 root None) os
    (keeps_commit hash_bytes validate F0 replacements Hproper read_ids expected) (admits_any os) (conj eq_refl eq_refl)) as H.
  rewrite Hc in H. destruct exit as [[[]|e]|]; [|by split..]. destruct H as [He Hs]. split; [|done].
  left. by apply (ended_idle validate F0 replacements (replaced F0 replacements)).
Qed.
Lemma consistent_whole d : consistent d → whole hash_bytes F0 replacements d.
Proof.
  intros [[Ht _ Hf]|[c [(P & Ht & _) _ Hm _]]].
  - split; [|by rewrite Ht]. intros n. destruct Hf as [->|[-> _]]; auto.
  - split; [done|]. rewrite Ht. intros m [= <-]. by exists c.
Qed.
End after_commit.

(** C2: a transaction is atomic.  Whatever effect of [commit_replacements] fails or is the
    last before the process stops, and whatever fails or stops in any number of
    recoveries after it, every file is always exactly as before or exactly as after.  And
    if no [exists] of the recoveries takes a failure of its call for absence, the first
    [recover_transactions] that returns [Ok] leaves no transaction and either all of the
    files of before, or all of those of after, and then their graph is valid; those of
    after if the commit had returned [Ok].  (Digests do not collide, and replacements were
    made from the files under distinct safe ids.) *)
Theorem transaction_atomic hash_bytes {Hinj : Inj (=) (=) hash_bytes} validate read_ids F0 replacements
    expected root faults exit d faults_left recoveries last last_exit d' last_left :
  proper_replacements F0 replacements →
  commit_replacements hash_bytes validate read_ids expected replacements (mkDir F0 root None) faults
    = (exit, d, faults_left) →
  recover_transactions hash_bytes validate (recover_again hash_bytes validate d recoveries) last
    = (last_exit, d', last_left) →
  mixed F0 replacements (files d')
  ∧ (Forall sighted recoveries → sighted last → last_exit = Returned (Ok tt) →
     tx d' = None
     ∧ (files d' = F0
        ∨ (files d' = replaced F0 replacements ∧ validate (replaced F0 replacements) = Ok tt))
     ∧ (exit = Returned (Ok tt) → files d' = replaced F0 replacements)).
Proof.
  intros Hp Hc Hr. apply commit_consistent in Hc as [Hcons Hok]; [|done..]. split.
  - pose proof (whole_recover hash_bytes validate F0 replacements Hp) as Hk.
    assert (Ha : whole hash_bytes F0 replacements (recover_again hash_bytes validate d recoveries)).
    { eapply (recover_again_keeps hash_bytes validate (g := false)); [exact Hk|done| |by apply (consistent_whole hash_bytes validate)].
      apply Forall_forall. by intros. }
    pose proof (keeps_exit _ _ _ _ _ last Hk (admits_any last) Ha) as H. rewrite Hr in H.
    by destruct last_exit as [[u|e]|]; apply H.
  - intros Hrec Hlast ->. pose proof (keeps_recover_transactions hash_bytes validate F0 replacements Hp) as Hk.
    assert (Hf : Forall (admits true) recoveries) by (eapply Forall_impl; [exact Hrec|by intros os Hos _]).
    assert (Ha : consistent hash_bytes validate F0 replacements (recover_again hash_bytes validate d recoveries)).
    { eapply recover_again_keeps; [exact Hk| |done|done]. intros u x. apply recovered_consistent. }
    pose proof (keeps_exit _ _ _ _ _ last Hk (λ _, Hlast) Ha) as H. rewrite Hr in H.
    destruct H as (F & [Ht Hf'] & Hs). split; [done|]. split; [by rewrite Hf'|]. intros He. specialize (Hok He).
    pose proof (recover_ended hash_bytes validate (g := false) (replaced F0 replacements)) as Hk'.
    assert (He' : ended (replaced F0 replacements) (recover_again hash_bytes validate d recoveries)).
    { eapply (recover_again_keeps hash_bytes validate (g := false)); [exact Hk'|done| |done]. apply Forall_forall. by intros. }
    pose proof (keeps_exit _ _ _ _ _ last Hk' (admits_any last) He') as H'. rewrite Hr in H'. apply H'.
Qed.

(** C18: recovery succeeds.  If the graph of before was valid, then after any such commit
    and any recoveries, of which none takes the failure of an [exists] for absence, one
    recovery without faults returns [Ok]: the store never gets stuck in a transaction of
    its own. *)
Theorem recovery_succeeds hash_bytes {Hinj : Inj (=) (=) hash_bytes} validate read_ids F0 replacements
    expected root faults exit d faults_left recoveries :
  proper_replacements F0 replacements → validate F0 = Ok tt →
  commit_replacements hash_bytes validate read_ids expected replacements (mkDir F0 root None) faults
    = (exit, d, faults_left) →
  Forall sighted recoveries →
  ∃ d', recover_transactions hash_bytes validate (recover_again hash_bytes validate d recoveries) []
          = (Returned (Ok tt), d', [])
    ∧ tx d' = None ∧ settled validate F0 replacements (files d').
Proof.
  intros Hp Hv Hc Hrec. apply commit_consistent in Hc as [Hcons _]; [|done..].
  assert (Hf : Forall (admits true) recoveries) by (eapply Forall_impl; [exact Hrec|by intros os Hos _]).
  assert (Ha : consistent hash_bytes validate F0 replacements (recover_again hash_bytes validate d recoveries)).
  { eapply recover_again_keeps; [by apply keeps_recover_transactions| |done|done].
    intros u x. apply recovered_consistent. }
  destruct (succeeds_recover_transactions hash_bytes validate F0 replacements Hp Hv _ Ha)
    as ([] & d' & Hr & F & [Ht Hf'] & Hs).
  exists d'. split; [exact Hr|]. by rewrite Hf'.
Qed.

(** C40: an [exists] that fails tears a transaction.  A commit has stopped or failed between
    its first and its last file.  If now the test of a recovery for the manifest fails,
    which [Path::exists] takes for absence, the recovery removes the transaction and
    returns [Ok], the files stay torn, and no later recovery, whatever happens in it,
    changes them. *)
Theorem failed_exists_tears hash_bytes {Hinj : Inj (=) (=) hash_bytes} validate read_ids F0 replacements
    expected root faults exit d faults_left :
  proper_replacements F0 replacements →
  commit_replacements hash_bytes validate read_ids expected replacements (mkDir F0 root None) faults
    = (exit, d, faults_left) →
  files d ≠ F0 → files d ≠ replaced F0 replacements →
  recover_transactions hash_bytes validate d [Works; Works; Works; Unseen]
    = (Returned (Ok tt), mkDir (files d) false None, [])
  ∧ ∀ recoveries, files (recover_again hash_bytes validate (mkDir (files d) false None) recoveries) = files d.
Proof.
  intros Hp Hc H0 H1. apply commit_consistent in Hc as [[[_ _ [?|[? _]]]|[c [(P & Ht & _) Hr _ _]]] _]; [done..| |done|done].
  split.
  - destruct d as [F r t]. cbn in Hr, Ht. by subst r t.
  - intros recoveries. assert (He : ended (files d) (recover_again hash_bytes validate (mkDir (files d) false None) recoveries)).
    { eapply (recover_again_keeps hash_bytes validate (g := false)); [apply recover_ended|done| |done]. apply Forall_forall. by intros. }
    apply He.
Qed.

(** ** A concrete transaction *)

(** A digest without collisions. *)
Definition sample_hash (bytes : list Z) : list Z := bytes.
Definition sample_replacement (i : string) (before after : Z) : list Z * Replacement :=
  (bytes_of i, mkReplacement (Some [before]) (Some [after])).
Definition sample_replacements : list (list Z * Replacement) :=
  [sample_replacement "a" 1 3; sample_replacement "b" 2 4].
Definition sample_files : gmap (list Z) (list Z) :=
  {[bytes_of "a.json" := [1]; bytes_of "b.json" := [2]]}.
(** A graph whose two records belong together. *)
Definition sample_validate (F : gmap (list Z) (list Z)) : result StoreError unit :=
  if bool_decide ((omap (M := list) (λ n, F !! bytes_of n) ["a.json"; "b.json"]) ∈ [[[1]; [2]]; [[3]; [4]]])
  then Ok tt else Err (GraphInvariant "torn").
Definition sample_ids (F : gmap (list Z) (list Z)) : result StoreError (list (list Z)) :=
  Ok [bytes_of "a"; bytes_of "b"].
Definition sample_commit (faults : list Outcome) :=
  commit_replacements sample_hash sample_validate sample_ids [] sample_replacements
    (mkDir sample_files false None) faults.
(** The process stops after the first file was published. *)
Definition sample_stop (n : nat) : list Outcome := repeat Works n ++ [Stops None].
Definition sample_torn : Dir := (sample_commit (sample_stop 24)).1.2.
(** A recovery that fails after it rolled one file back. *)
Definition sample_broken : list Outcome := repeat Works 7 ++ [Fails None].
Definition sample_again : Dir := recover_again sample_hash sample_validate sample_torn [sample_broken].

Lemma sample_broken_sighted : Forall sighted [sample_broken].
Proof. apply (bool_decide_unpack _). vm_compute. exact I. Qed.
Lemma sample_proper : proper_replacements sample_files sample_replacements.
Proof.
  split.
  - apply (bool_decide_eq_true_1 _). vm_compute. reflexivity.
  - apply Forall_forall. repeat (apply Forall_cons; split; [vm_compute; reflexivity|]). apply Forall_nil_2.
  - apply Forall_forall. repeat (apply Forall_cons; split; [vm_compute; reflexivity|]). apply Forall_nil_2.
Qed.

Lemma transaction_atomic_witness :
  (files sample_torn !! bytes_of "a.json" = Some [3] ∧ files sample_torn !! bytes_of "b.json" = Some [2])
  ∧ let d' := (recover_transactions sample_hash sample_validate sample_again []).1.2 in
    tx d' = None
    ∧ (files d' = sample_files
       ∨ (files d' = replaced sample_files sample_replacements
          ∧ sample_validate (replaced sample_files sample_replacements) = Ok tt)).
Proof.
  split; [split; vm_compute; reflexivity|].
  destruct (transaction_atomic sample_hash (Hinj := λ x y H, H) sample_validate sample_ids sample_files
    sample_replacements [] false (sample_stop 24) Stopped sample_torn [] [sample_broken] []
    (Returned (Ok tt)) (recover_transactions sample_hash sample_validate sample_again []).1.2 []) as (_ & Hs).
  - apply sample_proper.
  - vm_compute. reflexivity.
  - vm_compute. reflexivity.
  - destruct Hs as (Ht & Hf & _); [apply sample_broken_sighted|apply not_elem_of_nil|reflexivity|]. by split.
Defined.
Lemma recovery_succeeds_witness :
  ∃ d', recover_transactions sample_hash sample_validate sample_again [] = (Returned (Ok tt), d', [])
    ∧ tx d' = None ∧ settled sample_validate sample_files sample_replacements (files d').
Proof.
  apply (recovery_succeeds sample_hash (Hinj := λ x y H, H) sample_validate sample_ids sample_files
    sample_replacements [] false (sample_stop 24) Stopped sample_torn [] [sample_broken]).
  - apply sample_proper.
  - vm_compute. reflexivity.
  - vm_compute. reflexivity.
  - apply sample_broken_sighted.
Defined.
Lemma failed_exists_tears_witness :
  sample_validate (files sample_torn) = Err (GraphInvariant "torn")
  ∧ recover_transactions sample_hash sample_validate sample_torn [Works; Works; Works; Unseen]
    = (Returned (Ok tt), mkDir (files sample_torn) false None, [])
  ∧ ∀ recoveries,
      files (recover_again sample_hash sample_validate (mkDir (files sample_torn) false None) recoveries) = files sample_torn.
Proof.
  split; [vm_compute; reflexivity|].
  apply (failed_exists_tears sample_hash (Hinj := λ x y H, H) sample_validate sample_ids sample_files
    sample_replacements [] false (sample_stop 24) Stopped sample_torn []).
  - apply sample_proper.
  - vm_compute. reflexivity.
  - intros H. apply (f_equal (lookup (bytes_of "a.json"))) in H. by vm_compute in H.
  - intros H. apply (f_equal (lookup (bytes_of "b.json"))) in H. by vm_compute in H.
Defined.
