(* ===== verification/RecommendationStore.v ===== *)
(** * The store of recommendations

    The operations of taskmaster/store.rs on the files of a workspace: each claims the
    store, recovers what a stopped process left (GraphTransaction), reads and validates
    the records, and writes one record in place or several in a transaction; and, of
    session_application.rs, the two that report to the store for a session.

    A directory holds the [.json] files only: the temporary file of [put] is never read.
    serde is a pair of arguments, [parse] and [render]; so are the JSON texts that are
    fingerprinted, and the digest.  Time stamps are arguments of the operations.  The
    reference of an assessment to a readiness report, which [validate_recommendation] also
    checks, is not kept. *)
From S2P Require Export GraphTransaction.
From S2P Require Import RecordCodec.

#[local] Open Scope Z_scope.

(** ** Changes to a record *)

(** All that the store ever changes in a packet. *)
Definition packet_marks (fingerprint : list Z) (new_approval : option CompletionApproval)
    (supersedes : option (list Z)) (new_lineage : list CompletionPacketLineage) (key : option (list Z))
    (p : CompletionPacket) : CompletionPacket :=
  mkPacket (schema_version p) (evidence_version p) (packet_id p) (source_session_id p) (observed_at p)
    (provenance p) (subject p) (verification p) (review p) (missing_evidence p) (conflicting_evidence p)
    (action p) (readiness p) (revision p) fingerprint new_approval supersedes new_lineage key.
Definition approve (a : option CompletionApproval) (key : option (list Z)) (p : CompletionPacket)
    : CompletionPacket :=
  packet_marks (evidence_fingerprint p) a (supersedes_packet_id p) (lineage p) key p.
Definition clear_approval (p : CompletionPacket) : CompletionPacket := approve None None p.

(** And in a record. *)
Definition move (new_status : RecommendationStatus) (target_session : option (list Z)) (now : list Z)
    (mark : option DismissalWatermark) (packet : option CompletionPacket) (r : Recommendation)
    : Recommendation :=
  mkRecommendation (access_redacted r) (id r) (workspace_id r) (chain_id r) (chain_depth r)
    (recommendation_type r) new_status (priority r) (title r) (summary r) (reasons r) (evidence r)
    (repository_evidence r) (knowledge_evidence r) (source_session_ids r) target_session (confidence_level r)
    (requires_approval r) (dedupe_key r) (created_at r) now (proposed_improvement r) (improvement_surface r)
    (improvement_observation_ids r) (recurrence_count r) (affected_session_ids r) (improvement_impact r)
    (expected_benefit r) (supersedes_recommendation_id r) mark packet (audit r) (rollup_member_ids r)
    (rollup_member_dedupe_keys r) (rollup_generation r) (rolled_up_by r).

Definition max_sequence (items : list WorkflowObservationEvidence) : Z :=
  fold_left Z.max (sequence <$> items) 0.
Definition dismissed_record (r : Recommendation) (at_time : list Z) (why : option (list Z)) : Recommendation :=
  move Dismissed (target_session_id r) at_time
    (Some (mkWatermark at_time (max_sequence (evidence r)) (observation_id <$> evidence r) (recurrence_count r)
             (priority r) (affected_session_ids r) why))
    (clear_approval <$> completion_packet r) r.

(** [==] of two records: 0 and -0 are one confidence, and what is no number is not equal
    to itself. *)
Definition canonical_evidence (e : WorkflowObservationEvidence) : WorkflowObservationEvidence :=
  mkObserved (observation_id e) (sequence e) (session_id e) (kind e) (description e) (evidence_text e)
    (problem_area e) (reported_impact e) (source e)
    (match confidence e with S754_zero _ => S754_zero false | c => c end) (Rollup.observed_at e).
Definition canonical (r : Recommendation) : Recommendation :=
  mkRecommendation (access_redacted r) (id r) (workspace_id r) (chain_id r) (chain_depth r)
    (recommendation_type r) (status r) (priority r) (title r) (summary r) (reasons r)
    (canonical_evidence <$> evidence r) (repository_evidence r) (knowledge_evidence r) (source_session_ids r)
    (target_session_id r) (confidence_level r) (requires_approval r) (dedupe_key r) (created_at r)
    (updated_at r) (proposed_improvement r) (improvement_surface r) (improvement_observation_ids r)
    (recurrence_count r) (affected_session_ids r) (improvement_impact r) (expected_benefit r)
    (supersedes_recommendation_id r) (dismissal_watermark r) (completion_packet r) (audit r)
    (rollup_member_ids r) (rollup_member_dedupe_keys r) (rollup_generation r) (rolled_up_by r).
Definition is_nan (f : f64) : bool := match f with S754_nan => true | _ => false end.

#[export] Instance Observed_eq_dec : EqDecision WorkflowObservationEvidence.
Proof. solve_decision. Defined.
#[export] Instance Repository_eq_dec : EqDecision RepositoryEvidence.
Proof. solve_decision. Defined.
#[export] Instance Knowledge_eq_dec : EqDecision KnowledgeEvidence.
Proof. solve_decision. Defined.
#[export] Instance Watermark_eq_dec : EqDecision DismissalWatermark.
Proof. solve_decision. Defined.
#[export] Instance Audit_eq_dec : EqDecision AuditCleanup.
Proof. assert (EqDecision AuditCleanupEntry) by solve_decision. solve_decision. Defined.
#[export] Instance Packet_eq_dec : EqDecision CompletionPacket.
Proof.
  assert (EqDecision CompletionEvidenceProvenance) by solve_decision.
  assert (EqDecision CompletionChangeSubject) by solve_decision.
  assert (EqDecision CompletionVerificationResult) by solve_decision.
  assert (EqDecision CompletionVerification) by solve_decision.
  assert (EqDecision CompletionReview) by solve_decision.
  assert (EqDecision CompletionEvidenceIssueKind) by solve_decision.
  assert (EqDecision CompletionEvidenceIssue) by solve_decision.
  assert (EqDecision CompletionActionRole) by solve_decision.
  assert (EqDecision CompletionAction) by solve_decision.
  assert (EqDecision CompletionApproval) by solve_decision.
  assert (EqDecision CompletionPacketLineage) by solve_decision.
  solve_decision.
Defined.
#[export] Instance Recommendation_eq_dec : EqDecision Recommendation.
Proof. solve_decision. Defined.

#[export] Instance Mutation_eq_dec : EqDecision CompletionMutationRequest.
Proof. solve_decision. Defined.

Definition same_record (a b : Recommendation) : bool :=
  (canonical a == canonical b) && forallb (λ e, negb (is_nan (confidence e))) (evidence a).

(** ** Checks *)

Definition REDACTED_SUMMARY : list Z :=
  bytes_of "Assessment evidence was redacted after context access changed.".

Definition ensure_mutable (r : Recommendation) : result StoreError unit :=
  ensure (negb (access_redacted r)) InvalidTransition.
Definition references_session (r : Recommendation) (session : list Z) : bool :=
  one_of session (source_session_ids r) || one_of session (session_id <$> evidence r)
  || one_of session (affected_session_ids r)
  || is_some_and (dismissal_watermark r) (λ m, one_of session (watermark_session_ids m)).
(** All that [scrub_orphans] looks at. *)
Definition referenced_sessions (r : Recommendation) : list (list Z) :=
  source_session_ids r ++ affected_session_ids r
  ++ default [] (watermark_session_ids <$> dismissal_watermark r) ++ (session_id <$> evidence r).

Section validation.
Context (evidence_json : Evidence → list Z) (action_json : CompletionAction → list Z).
Context (sha256_hex : list Z → list Z).

Definition redacted (p : CompletionPacket) : bool :=
  (prompt (action p) == REDACTED_SUMMARY) && (action_scope (action p) == REDACTED_SUMMARY)
  && (subject_scope (subject p) == REDACTED_SUMMARY)
  && is_none_or (verification p) (λ v, command v == REDACTED_SUMMARY)
  && forallb (λ issue, detail issue == REDACTED_SUMMARY) (missing_evidence p ++ conflicting_evidence p)
  && valid_fingerprint (evidence_fingerprint p)
  && is_none_or (approval p) (λ a, (approval_evidence_fingerprint a == evidence_fingerprint p)
       && valid_fingerprint (approval_action_fingerprint a)).
(** The clone with its fingerprints computed anew. *)
Definition structural (p : CompletionPacket) : CompletionPacket :=
  let fingerprint := computed_evidence_fingerprint evidence_json sha256_hex p in
  packet_marks fingerprint
    ((λ a, mkApproval (approved_at a) (approver a) (approval_revision a) fingerprint
             (action_fingerprint action_json sha256_hex p) (approval_idempotency_key a)) <$> approval p)
    (supersedes_packet_id p) (lineage p) (completion_idempotency_key p) p.
Definition validate_redacted_packet (p : CompletionPacket) (workspace : list Z) : checked :=
  _ ← ensure (redacted p) "Redacted assessment packet history is invalid";
  validate evidence_json action_json sha256_hex (structural p) workspace.

Definition graph_invariant {A} (r : result string A) : result StoreError A :=
  match r with Ok a => Ok a | Err message => Err (GraphInvariant message) end.

Definition validate_recommendation (r : Recommendation) : result StoreError unit :=
  match completion_packet r with
  | None => Ok tt
  | Some packet =>
      _ ← graph_invariant (if access_redacted r then validate_redacted_packet packet (workspace_id r)
                           else validate evidence_json action_json sha256_hex packet (workspace_id r));
      _ ← ensure (source_session_ids r == [source_session_id packet])
            (GraphInvariant "completion packet must have one matching source session");
      let approval_required :=
        (status r == Executing) || (status r == Accepted) || (status r == Completed) in
      ensure (Bool.eqb (is_some (approval packet)) approval_required
              && Bool.eqb (is_some (completion_idempotency_key packet)) (status r == Completed))
        (GraphInvariant "completion packet approval does not match recommendation lifecycle")
  end.
End validation.

(** ** Reading *)

Record StoredRecommendation : Type := mkStored { recommendation : Recommendation; stored_bytes : list Z }.
Definition Replacements : Type := gmap (list Z) Replacement.
(** A [BTreeMap] in its order. *)
Definition in_order {A} (m : gmap (list Z) A) : list (list Z * A) :=
  sort_by (λ a b, key_leb a.1 b.1) (map_to_list m).
Definition records_of (l : list StoredRecommendation) : list Recommendation := recommendation <$> l.
Definition by_record_id (l : list StoredRecommendation) : gmap (list Z) StoredRecommendation :=
  list_to_map (reverse ((λ s, (id (recommendation s), s)) <$> l)).

Definition values {A} (m : gmap (list Z) A) : list A := (in_order m).*2.

Section store.
Context (evidence_json : Evidence → list Z) (action_json : CompletionAction → list Z).
Context (sha256_hex : list Z → list Z).
Context (parse : list Z → option Recommendation) (render : Recommendation → list Z).

Abbreviation validate_recommendation := (validate_recommendation evidence_json action_json sha256_hex).

Definition read_bytes (bytes : list Z) : result StoreError Recommendation :=
  match parse bytes with
  | None => Err Json
  | Some r => _ ← validate_recommendation r; Ok r
  end.
Fixpoint read_entries (entries : list (list Z * list Z)) : result StoreError (list StoredRecommendation) :=
  match entries with
  | [] => Ok []
  | (_, bytes) :: entries =>
      r ← read_bytes bytes;
      rest ← read_entries entries;
      Ok (mkStored r bytes :: rest)
  end.
Definition stored_of (F : gmap (list Z) (list Z)) : result StoreError (list StoredRecommendation) :=
  read_entries (map_to_list F).
Definition stored_hash (s : StoredRecommendation) : list Z := sha256_hex (stored_bytes s).
Definition check_graph (records : list Recommendation) : result StoreError unit :=
  graph_invariant (validate_graph_records sha256_hex records).

Definition validate_files (F : gmap (list Z) (list Z)) : result StoreError unit :=
  stored ← stored_of F; check_graph (records_of stored).
Definition read_ids (F : gmap (list Z) (list Z)) : result StoreError (list (list Z)) :=
  stored ← stored_of F; Ok (List.map id (records_of stored)).

Definition read_all_stored : IO (list StoredRecommendation) :=
  F ← read Io (λ d, Some (files d)); of_result (stored_of F).
Definition recover : IO unit := recover_transactions sha256_hex validate_files.
Definition check_files : IO unit := validate_graph validate_files.
Definition commit (expected : list (list Z * option (list Z))) (replacements : Replacements) : IO unit :=
  commit_replacements sha256_hex validate_files read_ids expected (in_order replacements).
(** [try_operation]: whoever runs an operation holds the claim until it returns. *)
Definition claim : IO unit := sync Busy.

(** [open], but for the names of an older version. *)
Definition open_store : IO unit := _ ← claim; _ ← recover; check_files.

Definition list_leb (a b : StoredRecommendation) : bool :=
  Rollup.not_gt (then_ (str_cmp (created_at (recommendation a)) (created_at (recommendation b)))
                (str_cmp (id (recommendation a)) (id (recommendation b)))).
Definition list_with_hashes : IO (list Recommendation * gmap (list Z) (list Z)) :=
  _ ← claim;
  _ ← recover;
  stored ← read_all_stored;
  _ ← of_result (check_graph (records_of stored));
  let sorted := sort_by list_leb stored in
  ret (records_of sorted, stored_hash <$> by_record_id sorted).

Definition get_current (i : list Z) : IO (option Recommendation) :=
  _ ← recover;
  _ ← check_files;
  if negb (valid_id i) then ret None
  else
    found ← read Io (λ d, Some (files d !! recommendation_filename i));
    match found with
    | None => ret None
    | Some bytes => r ← of_result (read_bytes bytes); ret (Some r)
    end.
Definition get (i : list Z) : IO (option Recommendation) := _ ← claim; get_current i.

(** The temporary file is created, written and synced; what [exists] answers only chooses
    how the file is replaced. *)
Definition put_current (r : Recommendation) : IO unit :=
  _ ← recover;
  _ ← of_result (validate_recommendation r);
  _ ← sync Io; _ ← sync Io; _ ← sync Io;
  _ ← probe (λ d, is_some (files d !! recommendation_filename (id r)));
  _ ← atomic Io (λ d, set_files (<[recommendation_filename (id r) := render r]> (files d)) d);
  opened ← catch (sync Io);
  match opened with
  | Ok _ => _ ← catch (sync Io); ret tt
  | Err _ => ret tt
  end.
Definition put (r : Recommendation) : IO unit := _ ← claim; put_current r.

(** ** One record *)

Definition dismiss (i dismissed_at : list Z) (why : option (list Z)) : IO (option Recommendation) :=
  _ ← claim;
  current ← get_current i;
  match current with
  | None => ret None
  | Some r =>
      _ ← of_result (ensure_mutable r);
      if negb (is_active r) then fail InvalidTransition
      else
        let r' := dismissed_record r dismissed_at why in
        _ ← put_current r'; ret (Some r')
  end.

Definition improves (r : Recommendation) : bool := recommendation_type r == ImproveWorkflow.
Definition begin_execution (i target_session started_at : list Z) : IO (option Recommendation) :=
  _ ← claim;
  current ← get_current i;
  match current with
  | None => ret None
  | Some r =>
      _ ← of_result (ensure_mutable r);
      if negb (improves r && (status r == Proposed)) then fail InvalidTransition
      else
        let r' := move Executing (Some target_session) started_at (dismissal_watermark r) (completion_packet r) r in
        _ ← put_current r'; ret (Some r')
  end.

Definition same_packet (p : CompletionPacket) (m : CompletionMutationRequest) : bool :=
  (revision p =? packet_revision m) && (evidence_fingerprint p == mutation_fingerprint m).
Definition approval_for (p : CompletionPacket) (started_at who : list Z) (m : CompletionMutationRequest)
    : CompletionApproval :=
  mkApproval started_at who (revision p) (evidence_fingerprint p)
    (action_fingerprint action_json sha256_hex p) (mutation_idempotency_key m).
Definition begin_execution_checked (i target_session started_at : list Z) (m : CompletionMutationRequest)
    (who : list Z) : IO (option Recommendation) :=
  _ ← claim;
  _ ← of_result (graph_invariant (validate_mutation m));
  current ← get_current i;
  match current with
  | None => ret None
  | Some r =>
      _ ← of_result (ensure_mutable r);
      if negb (improves r && (status r == Proposed)) then fail InvalidTransition
      else match completion_packet r with
           | None => fail InvalidTransition
           | Some p =>
               if negb (same_packet p m) then fail (StalePacket i)
               else
                 let r' := move Executing (Some target_session) started_at (dismissal_watermark r)
                             (Some (approve (Some (approval_for p started_at who m)) None p)) r in
                 _ ← put_current r'; ret (Some r')
           end
  end.

Definition complete_execution (i completed_at : list Z) : IO (option Recommendation) :=
  _ ← claim;
  current ← get_current i;
  match current with
  | None => ret None
  | Some r =>
      if negb (improves r && (status r == Executing)) then fail InvalidTransition
      else
        let r' := move Accepted (target_session_id r) completed_at (dismissal_watermark r) (completion_packet r) r in
        _ ← put_current r'; ret (Some r')
  end.
Definition complete_accepted (i completed_at : list Z) : IO (option Recommendation) :=
  _ ← claim;
  current ← get_current i;
  match current with
  | None => ret None
  | Some r =>
      let redacted_delivered :=
        access_redacted r && (status r == Accepted) && is_some (target_session_id r) in
      _ ← of_result (if redacted_delivered then Ok tt else ensure_mutable r);
      if negb (improves r && (status r == Accepted)) then fail InvalidTransition
      else
        let r' := move Completed (target_session_id r) completed_at (dismissal_watermark r) (completion_packet r) r in
        _ ← put_current r'; ret (Some r')
  end.
Definition complete_accepted_checked (i completed_at : list Z) (m : CompletionMutationRequest)
    : IO (option Recommendation) :=
  _ ← claim;
  _ ← of_result (graph_invariant (validate_mutation m));
  current ← get_current i;
  match current with
  | None => ret None
  | Some r =>
      let redacted_delivered :=
        access_redacted r && ((status r == Accepted) || (status r == Completed)) && is_some (target_session_id r) in
      _ ← of_result (if redacted_delivered then Ok tt else ensure_mutable r);
      match completion_packet r with
      | None => fail InvalidTransition
      | Some p =>
          if negb (same_packet p m) then fail (StalePacket i)
          else if status r == Completed then
            if completion_idempotency_key p == Some (mutation_idempotency_key m) then ret (Some r)
            else fail (StalePacket i)
          else if is_none_or (approval p) (λ a, approval_idempotency_key a != mutation_idempotency_key m)
          then fail (StalePacket i)
          else if negb (improves r && (status r == Accepted) && is_some (approval p)) then fail InvalidTransition
          else
            let r' := move Completed (target_session_id r) completed_at (dismissal_watermark r)
                        (Some (approve (approval p) (Some (mutation_idempotency_key m)) p)) r in
            _ ← put_current r'; ret (Some r')
      end
  end.
Definition cancel_execution (i cancelled_at : list Z) : IO (option Recommendation) :=
  _ ← claim;
  current ← get_current i;
  match current with
  | None => ret None
  | Some r =>
      if negb (improves r && (status r == Executing)) then fail InvalidTransition
      else
        let r' := move Proposed None cancelled_at (dismissal_watermark r) (clear_approval <$> completion_packet r) r in
        _ ← put_current r';
        if access_redacted r then
          let r'' := move Superseded None cancelled_at (dismissal_watermark r') (completion_packet r') r' in
          _ ← put_current r''; ret (Some r'')
        else ret (Some r')
  end.

(** ** Transactions *)

Definition write_of (before : option (list Z)) (r : Recommendation) : Replacement :=
  mkReplacement before (Some (render r)).
(** The new packet of [replace_completion_packet]: its lineage is that of the old one. *)
Definition succeed_packet (updated_at : list Z) (old_packet p : CompletionPacket) : CompletionPacket :=
  packet_marks (evidence_fingerprint p) None (Some (packet_id old_packet))
    (lineage old_packet
     ++ [mkLineage (packet_id old_packet) (revision old_packet) (evidence_fingerprint old_packet) updated_at])
    None p.
Definition replace_completion_packet (i : list Z) (expected_revision : Z) (replacement : CompletionPacket)
    (updated_at : list Z) : IO (option Recommendation) :=
  _ ← claim;
  _ ← recover;
  listed ← read_all_stored;
  let stored := by_record_id listed in
  match stored !! i with
  | None => ret None
  | Some s =>
      let r := recommendation s in
      _ ← of_result (ensure_mutable r);
      if negb (improves r && ((status r == Proposed) || (status r == Executing) || (status r == Accepted)))
      then fail InvalidTransition
      else match completion_packet r with
           | None => fail InvalidTransition
           | Some old_packet =>
               if negb (revision old_packet =? expected_revision)
                  || negb (revision replacement =? saturating_add u64_max (revision old_packet) 1)
                  || (packet_id replacement == packet_id old_packet)
               then fail (StalePacket i)
               else
                 let next := move Proposed None updated_at (dismissal_watermark r)
                               (Some (succeed_packet updated_at old_packet replacement)) r in
                 _ ← of_result (validate_recommendation next);
                 _ ← of_result (check_graph (values (<[i := next]> (recommendation <$> stored))));
                 _ ← commit [(i, Some (stored_hash s))] {[i := write_of (Some (stored_bytes s)) next]};
                 ret (Some next)
           end
  end.

Definition orphaned (live protected : gset (list Z)) (i : list Z) (r : Recommendation) : bool :=
  is_some_and (target_session_id r) (λ session,
    ((status r == Executing) || (status r == Accepted))
    && bool_decide (session ∉ live) && bool_decide (i ∉ protected)).
Definition orphan_reset (recovered_at : list Z) (r : Recommendation) : Recommendation :=
  move Proposed None recovered_at (dismissal_watermark r) (clear_approval <$> completion_packet r) r.
(** The loop: the records to write, each with what it replaces. *)
Fixpoint reset_orphans (live protected : gset (list Z)) (recovered_at : list Z)
    (entries : list (list Z * StoredRecommendation))
    : result StoreError (list (list Z * (StoredRecommendation * Recommendation))) :=
  match entries with
  | [] => Ok []
  | (i, s) :: entries =>
      if orphaned live protected i (recommendation s) then
        let next := orphan_reset recovered_at (recommendation s) in
        _ ← validate_recommendation next;
        rest ← reset_orphans live protected recovered_at entries;
        Ok ((i, (s, next)) :: rest)
      else reset_orphans live protected recovered_at entries
  end.
Definition recover_orphaned_executions (live protected : gset (list Z)) (recovered_at : list Z)
    : IO (list (list Z)) :=
  _ ← claim;
  _ ← recover;
  listed ← read_all_stored;
  let stored := by_record_id listed in
  resets ← of_result (reset_orphans live protected recovered_at (in_order stored));
  if (length resets =? 0)%nat then ret []
  else
    let preview := fold_left (λ m x, <[x.1 := x.2.2]> m) resets (recommendation <$> stored) in
    _ ← of_result (check_graph (values preview));
    _ ← commit ((λ x, (x.1, Some (stored_hash x.2.1))) <$> resets)
          (list_to_map ((λ x, (x.1, write_of (Some (stored_bytes x.2.1)) x.2.2)) <$> resets));
    ret resets.*1.

Definition delete_graph_records (records : list Recommendation) (ids : gset (list Z)) : IO unit :=
  let gone := deletion_graph_ids records ids in
  listed ← read_all_stored;
  let doomed := filter (λ x, x.1 ∈ gone) (by_record_id listed) in
  commit ((λ x, (x.1, Some (stored_hash x.2))) <$> in_order doomed)
    ((λ s, mkReplacement (Some (stored_bytes s)) None) <$> doomed).
Definition delete_records (doomed : Recommendation → bool) : IO unit :=
  _ ← claim;
  _ ← recover;
  listed ← read_all_stored;
  _ ← of_result (check_graph (records_of listed));
  delete_graph_records (records_of listed) (list_to_set (id <$> List.filter doomed (records_of listed))).
Definition delete_referencing_session (session : list Z) : IO unit :=
  delete_records (λ r, references_session r session).
Definition scrub_orphans (retained : gset (list Z)) : IO unit :=
  delete_records (λ r, existsb (λ session, bool_decide (session ∉ retained)) (referenced_sessions r)).

(** What a transaction of the evaluator must leave as it is. *)
Definition settled_status (s : RecommendationStatus) : bool :=
  match s with
  | Accepted | Completed | Dismissed | Superseded | Expired | Rollup.Failed => true
  | _ => false
  end.
Fixpoint check_kept (next : gmap (list Z) Recommendation) (current : list (list Z * Recommendation))
    : result StoreError unit :=
  match current with
  | [] => Ok tt
  | (i, before) :: current =>
      match next !! i with
      | None => Err (GraphInvariant "rollup graph transaction cannot remove an existing record")
      | Some after =>
          if settled_status (status before) && negb (same_record after before) then Err InvalidTransition
          else check_kept next current
      end
  end.
Definition replacement_of (stored : gmap (list Z) StoredRecommendation) (i : list Z) (r : Recommendation)
    : option Replacement :=
  let before := stored_bytes <$> stored !! i in
  if before == Some (render r) then None else Some (write_of before r).
Definition apply_recommendation_graph_transaction (expected : gmap (list Z) (option (list Z)))
    (records : list Recommendation) : IO unit :=
  _ ← claim;
  _ ← recover;
  _ ← check_files;
  listed ← read_all_stored;
  let stored := by_record_id listed in
  _ ← verify_expected sha256_hex (in_order expected) (List.map id (records_of listed));
  let next := by_id_of records in
  _ ← of_result (ensure (size next =? length records)%nat
                   (GraphInvariant "recommendation graph contains duplicate IDs"));
  _ ← of_result (check_graph (values next));
  _ ← of_result (check_kept next (in_order (recommendation <$> stored)));
  commit (in_order expected) (map_imap (replacement_of stored) next).

(** ** For a session *)

Inductive Reply : Type := Conflict | Absent | Reported (r : Recommendation).
Definition reply (o : option Recommendation) : Reply :=
  match o with Some r => Reported r | None => Absent end.

Definition report_completion_packet (i source_session : list Z) (p : CompletionPacket) (now : list Z) : IO Reply :=
  current ← get i;
  match current with
  | None => ret Absent
  | Some r =>
      _ ← of_result (ensure_mutable r);
      if negb (improves r) || (source_session_ids r != [source_session]) || (source_session_id p != source_session)
         || (prov_source_session_id (provenance p) != source_session)
      then ret Conflict
      else match completion_packet r with
           | Some current_packet =>
               replaced ← replace_completion_packet i (revision current_packet) p now;
               ret (reply replaced)
           | None =>
               if (status r != Proposed) || negb (revision p =? 1) || is_some (supersedes_packet_id p)
                  || negb (length (lineage p) =? 0)%nat
               then ret Conflict
               else
                 let updated := move (status r) (target_session_id r) now (dismissal_watermark r) (Some p) r in
                 _ ← put updated; ret (Reported updated)
           end
  end.

(** [try_append_event], on the session's own files. *)
Definition append_event : IO unit := sync Io.
(** The end of [complete_recommendation_with_packet]: without its event a completion is
    taken back. *)
Definition log_completion (existing completed : Recommendation) : IO Reply :=
  logged ← catch append_event;
  match logged with
  | Ok _ => ret (Reported completed)
  | Err e => _ ← catch (put existing); fail e
  end.
Definition complete_recommendation_with_packet (i session now : list Z) (m : option CompletionMutationRequest)
    : IO Reply :=
  current ← get i;
  match current with
  | None => ret Absent
  | Some existing =>
      if negb (improves existing) || (target_session_id existing != Some session) then ret Conflict
      else if is_some (completion_packet existing) then
        match m with
        | None => ret Conflict
        | Some m =>
            completed ← complete_accepted_checked i now m;
            match completed with
            | None => ret Conflict
            | Some completed =>
                if status existing == Completed then ret (Reported completed)
                else log_completion existing completed
            end
        end
      else if status existing == Completed then ret (Reported existing)
      else if status existing != Accepted then ret Conflict
      else
        completed ← complete_accepted i now;
        match completed with
        | None => ret Conflict
        | Some completed => log_completion existing completed
        end
  end.

(** ** Histories *)

Inductive Operation : Type :=
  | Open
  | List_
  | Get (i : list Z)
  | Dismiss (i dismissed_at : list Z) (why : option (list Z))
  | Begin (i target_session started_at : list Z)
  | BeginChecked (i target_session started_at : list Z) (m : CompletionMutationRequest) (who : list Z)
  | CompleteExecution (i completed_at : list Z)
  | Cancel (i cancelled_at : list Z)
  | ReplacePacket (i : list Z) (expected_revision : Z) (p : CompletionPacket) (updated_at : list Z)
  | RecoverOrphans (live protected : gset (list Z)) (recovered_at : list Z)
  | DeleteSession (session : list Z)
  | ScrubOrphans (retained : gset (list Z))
  | Apply (expected : gmap (list Z) (option (list Z))) (records : list Recommendation)
  | ReportPacket (i source_session : list Z) (p : CompletionPacket) (now : list Z)
  | CompleteReported (i session now : list Z) (m : option CompletionMutationRequest).

Definition drop {A} (m : IO A) : IO unit := _ ← m; ret tt.
Definition run (o : Operation) : IO unit :=
  match o with
  | Open => open_store
  | List_ => drop list_with_hashes
  | Get i => drop (get i)
  | Dismiss i at_time why => drop (dismiss i at_time why)
  | Begin i target at_time => drop (begin_execution i target at_time)
  | BeginChecked i target at_time m who => drop (begin_execution_checked i target at_time m who)
  | CompleteExecution i at_time => drop (complete_execution i at_time)
  | Cancel i at_time => drop (cancel_execution i at_time)
  | ReplacePacket i revision p at_time => drop (replace_completion_packet i revision p at_time)
  | RecoverOrphans live protected at_time => drop (recover_orphaned_executions live protected at_time)
  | DeleteSession session => delete_referencing_session session
  | ScrubOrphans retained => scrub_orphans retained
  | Apply expected records => apply_recommendation_graph_transaction expected records
  | ReportPacket i source p now => drop (report_completion_packet i source p now)
  | CompleteReported i session now m => drop (complete_recommendation_with_packet i session now m)
  end.
(** Operations one after the other, each with the outcomes of its effects; after a stop a
    new process goes on. *)
Definition history (d : Dir) (steps : list (Operation * list Outcome)) : Dir :=
  fold_left (λ d step, (run step.1 d step.2).1.2) steps d.
End store.

(** ** Changes that keep a graph valid *)

(** [r'] can take the place of [r]. *)
Record touched (r r' : Recommendation) : Prop := {
  touched_id : id r' = id r;
  touched_members : rollup_member_ids r' = rollup_member_ids r;
  touched_keys : rollup_member_dedupe_keys r' = rollup_member_dedupe_keys r;
  touched_dedupe : dedupe_key r' = dedupe_key r;
  touched_parent : rolled_up_by r' = rolled_up_by r;
  touched_rolled : status r ≠ RolledUp ∧ status r' ≠ RolledUp;
  touched_active : is_active r' = true → is_active r = true;
}.
Lemma touched_move r new_status target now mark packet :
  status r ≠ RolledUp → new_status ≠ RolledUp →
  ((new_status == Proposed) || (new_status == Executing) = true → is_active r = true) →
  touched r (move new_status target now mark packet r).
Proof. by split. Qed.

Lemma valid_graph_ext sha l l' :
  NoDup (id <$> l') → (∀ r, r ∈ l ↔ r ∈ l') → valid_graph sha l → valid_graph sha l'.
Proof.
  intros Hn Hext [_ H]. assert (Hm : ∀ m x, member_of l' m x ↔ member_of l m x).
  { intros m x. unfold member_of. by rewrite Hext. }
  split; [done|]. intros r Hr. destruct (H r) as [? ? Hp ? Hk ? Ho Hpar]; [by apply Hext|]. split; try done.
  - intros m Hin. destruct (proj1 (list_elem_of_fmap _ _ _) (Hp m Hin)) as (x & -> & Hx).
    by apply list_elem_of_fmap_2, Hext.
  - intros xs Hxs. apply Hk. eapply Forall2_impl; [exact Hxs|]. intros m x. by apply Hm.
  - intros Hact m x Hin Hx. apply (Ho Hact m x); [done|by apply Hm].
  - intros p Hrp. destruct (Hpar p Hrp) as (x & Hx & Hin). exists x. split; [by apply Hm|done].
Qed.

Section touching.
Context (sha : list Z → list Z) (l l' : list Recommendation) (r r' : Recommendation).
Context (Hvalid : valid_graph sha l) (Hr : r ∈ l) (Ht : touched r r').
Context (Hl' : ∀ x, x ∈ l' ↔ x = r' ∨ (x ∈ l ∧ id x ≠ id r)).

Definition alike (x x' : Recommendation) : Prop := x = x' ∨ (x = r ∧ x' = r').
Lemma alike_fields x x' :
  alike x x' → id x' = id x ∧ rollup_member_ids x' = rollup_member_ids x
    ∧ rollup_member_dedupe_keys x' = rollup_member_dedupe_keys x ∧ dedupe_key x' = dedupe_key x
    ∧ rolled_up_by x' = rolled_up_by x ∧ (status x' = RolledUp ↔ status x = RolledUp)
    ∧ (is_active x' = true → is_active x = true).
Proof. destruct Ht as [? ? ? ? ? [? ?] ?]. intros [->|[-> ->]]; [done|]. naive_solver. Qed.
Lemma before x' : x' ∈ l' → ∃ x, x ∈ l ∧ alike x x'.
Proof. intros [->|[Hx _]]%Hl'; [by exists r; split; [|right]|by exists x'; split; [|left]]. Qed.
Lemma after x : x ∈ l → ∃ x', x' ∈ l' ∧ alike x x'.
Proof.
  intros Hx. destruct (decide (id x = id r)) as [He|Hne].
  - exists r'. split; [by apply Hl'; left|right]. split; [|done].
    destruct Hvalid as [Hn _]. apply list_elem_of_lookup in Hx as [k Hk]. apply list_elem_of_lookup in Hr as [k' Hk'].
    assert (k = k') as ->; [|congruence].
    apply (NoDup_lookup (id <$> l) k k' (id x)); [done|by rewrite list_lookup_fmap, Hk|].
    by rewrite list_lookup_fmap, Hk', He.
  - exists x. split; [apply Hl'; by right|by left].
Qed.
Lemma member_before m x' : member_of l' m x' → ∃ x, member_of l m x ∧ alike x x'.
Proof.
  intros [Hx Hm]. destruct (before x' Hx) as (x & Hin & Ha). exists x. split; [split; [done|]|done].
  destruct (alike_fields x x' Ha). congruence.
Qed.
Lemma members_before ids xs' :
  Forall2 (member_of l') ids xs' → ∃ xs, Forall2 (member_of l) ids xs ∧ dedupe_key <$> xs = dedupe_key <$> xs'.
Proof.
  induction 1 as [|m x' ids xs' Hm _ (xs & Hxs & Hk)]; [by exists []|].
  destruct (member_before m x' Hm) as (x & Hx & Ha). exists (x :: xs). split; [by constructor|].
  cbn. rewrite Hk. f_equal. by destruct (alike_fields x x' Ha) as (_ & _ & _ & -> & _).
Qed.
Lemma touched_graph : NoDup (id <$> l') → valid_graph sha l'.
Proof.
  intros Hn. split; [done|]. intros x' Hx'. destruct (before x' Hx') as (x & Hx & Ha).
  destruct (alike_fields x x' Ha) as (Hid & Hmem & Hkeys & _ & Hpar & Hrol & Hact).
  destruct (valid_records _ _ Hvalid x Hx) as [Hl Hd Hp Hi Hk Hc Ho Hparent].
  split; rewrite ?Hid, ?Hmem, ?Hkeys, ?Hpar, ?Hrol; try done.
  - intros m Hin. destruct (proj1 (list_elem_of_fmap _ _ _) (Hp m Hin)) as (y & -> & Hy).
    destruct (after y Hy) as (y' & Hy' & Hay). destruct (alike_fields y y' Hay) as [<- _]. by apply list_elem_of_fmap_2.
  - intros xs' Hxs'. destruct (members_before _ _ Hxs') as (xs & Hxs & <-). by apply Hk.
  - intros Hact' m y' Hin Hy'. destruct (member_before m y' Hy') as (y & Hy & Hay).
    destruct (Ho (Hact Hact') m y Hin Hy) as [Hs Hp']. destruct (alike_fields y y' Hay) as (_ & _ & _ & _ & Hq & Hro & _).
    unfold owned_by. rewrite Hro, Hq, Hid. done.
  - intros p Hp'. destruct (Hparent p Hp') as (y & [Hy Hyid] & Hin). destruct (after y Hy) as (y' & Hy' & Hay).
    destruct (alike_fields y y' Hay) as (Hyi & Hym & _). exists y'. rewrite Hym.
    split; [split; [done|congruence]|done].
Qed.
End touching.

(** The branches of an operation in a proof, and the edit of a record of known status. *)
Ltac branch H := match goal with |- keeps_in _ _ _ (if ?c then _ else _) _ => destruct c eqn:H end.
Ltac touch Hc := apply touched_move; [by rewrite Hc|done|by unfold is_active; rewrite Hc].

(** ** What the files hold *)

Definition final_status (s : RecommendationStatus) : bool :=
  match s with
  | Completed | Dismissed | Superseded | Expired | Rollup.Failed => true
  | _ => false
  end.

Section invariant.
Context (evidence_json : Evidence → list Z) (action_json : CompletionAction → list Z).
Context (sha256_hex : list Z → list Z) {Hinj : Inj (=) (=) sha256_hex}.
Context (parse : list Z → option Recommendation) (render : Recommendation → list Z).
Context (Hparse : ∀ r, parse (render r) = Some r).
Implicit Types (F : gmap (list Z) (list Z)) (r : Recommendation) (d : Dir).

Abbreviation valid_record := (validate_recommendation evidence_json action_json sha256_hex).
Abbreviation stored_of := (stored_of evidence_json action_json sha256_hex parse).
Abbreviation validate_files := (validate_files evidence_json action_json sha256_hex parse).

(** Every file is named after the record in it. *)
Definition named F : Prop :=
  ∀ n b, F !! n = Some b → ∃ r, parse b = Some r ∧ valid_id (id r) = true ∧ n = recommendation_filename (id r).
Definition holds F r : Prop :=
  valid_id (id r) = true ∧ ∃ b, F !! recommendation_filename (id r) = Some b ∧ parse b = Some r.
Record sound F : Prop := {
  sound_named : named F;
  sound_valid : validate_files F = Ok tt;
}.

Lemma read_entries_Ok l stored :
  read_entries evidence_json action_json sha256_hex parse l = Ok stored →
  Forall2 (λ e s, stored_bytes s = e.2 ∧ parse e.2 = Some (recommendation s)
                  ∧ valid_record (recommendation s) = Ok tt) l stored.
Proof.
  revert stored. induction l as [|[n b] l IH]; intros stored H; cbn in H; [injection H as <-; constructor|].
  apply result_bind_Ok in H as (r & Hr & H). apply result_bind_Ok in H as (rest & Hrest & [= <-]).
  unfold read_bytes in Hr. destruct (parse b) as [r'|] eqn:Hp; [|done].
  apply result_bind_Ok in Hr as ([] & Hv & [= <-]). constructor; [done|by apply IH].
Qed.
Lemma read_entries_total l :
  (∀ e, e ∈ l → ∃ r, parse e.2 = Some r ∧ valid_record r = Ok tt) →
  ∃ stored, read_entries evidence_json action_json sha256_hex parse l = Ok stored.
Proof.
  induction l as [|[n b] l IH]; intros H; [by exists []|]. cbn.
  destruct (H (n, b)) as (r & Hp & Hv); [by left|]. cbn in Hp. unfold read_bytes. rewrite Hp, Hv. cbn.
  destruct IH as [stored ->]; [intros e He; apply H; by right|]. by eexists.
Qed.
Lemma holds_same F r r' : holds F r → holds F r' → id r = id r' → r = r'.
Proof. intros (_ & b & Hb & Hp) (_ & b' & Hb' & Hp') He. rewrite He in Hb. congruence. Qed.
Lemma named_holds F n b r : named F → F !! n = Some b → parse b = Some r → holds F r ∧ n = recommendation_filename (id r).
Proof.
  intros Hn Hb Hp. destruct (Hn n b Hb) as (r' & Hp' & Hv & ->). assert (r' = r) as -> by congruence.
  split; [|done]. split; [done|]. by exists b.
Qed.

(** The records that are read are those that the files hold. *)
Lemma stored_elem F stored s :
  named F → stored_of F = Ok stored →
  s ∈ stored ↔ holds F (recommendation s) ∧ F !! recommendation_filename (id (recommendation s)) = Some (stored_bytes s).
Proof.
  intros Hn Hs. apply read_entries_Ok in Hs. split.
  - intros Hin. apply list_elem_of_lookup in Hin as [k Hk].
    destruct (Forall2_lookup_r _ _ _ _ _ Hs Hk) as ([n b] & Hl & Hb & Hp & _). cbn in Hb, Hp. subst b.
    apply list_elem_of_lookup_2, elem_of_map_to_list in Hl.
    destruct (named_holds F n _ _ Hn Hl Hp) as [Hh ->]. done.
  - intros ((_ & b & Hb & Hp) & Hf). assert (b = stored_bytes s) as -> by congruence.
    apply elem_of_map_to_list, list_elem_of_lookup in Hb as [k Hk].
    destruct (Forall2_lookup_l _ _ _ _ _ Hs Hk) as (s' & Hl & Hb & Hp' & _). cbn in Hb, Hp'.
    assert (s' = s) as <-; [|by apply list_elem_of_lookup_2 in Hl].
    destruct s, s'. cbn in *. congruence.
Qed.
Lemma stored_record F stored r : named F → stored_of F = Ok stored → r ∈ records_of stored ↔ holds F r.
Proof.
  intros Hn Hs. unfold records_of. rewrite list_elem_of_fmap. split.
  - intros (s & -> & Hin). by apply (stored_elem F stored s Hn Hs) in Hin as [? _].
  - intros Hh. pose proof Hh as (_ & b & Hb & _). exists (mkStored r b). split; [done|].
    by apply (stored_elem F stored _ Hn Hs).
Qed.
Lemma stored_valid F stored r : named F → stored_of F = Ok stored → holds F r → valid_record r = Ok tt.
Proof.
  intros Hn Hs Hh. apply (stored_record F stored r Hn Hs) in Hh. apply list_elem_of_fmap in Hh as (s & -> & Hin).
  apply read_entries_Ok in Hs. apply list_elem_of_lookup in Hin as [k Hk].
  by destruct (Forall2_lookup_r _ _ _ _ _ Hs Hk) as (e & _ & _ & _ & Hv).
Qed.
Lemma stored_ids F stored : named F → stored_of F = Ok stored → NoDup (id <$> records_of stored).
Proof.
  intros Hn Hs. apply read_entries_Ok in Hs.
  assert (Hnames : (map_to_list F).*1 = recommendation_filename <$> (id <$> records_of stored)).
  { assert (Hin : ∀ e, e ∈ map_to_list F → F !! e.1 = Some e.2) by (intros []; by rewrite elem_of_map_to_list).
    unfold records_of. revert Hin. induction Hs as [|[n b] s l stored (Hb & Hp & _) _ IH]; intros Hin; [done|].
    cbn. f_equal; [|apply IH; intros e He; apply Hin; by right].
    by destruct (named_holds F n b (recommendation s) Hn (Hin (n, b) ltac:(by left)) Hp) as [_ ->]. }
  pose proof (NoDup_fst_map_to_list F) as Hd. rewrite Hnames in Hd. by apply NoDup_fmap_1 in Hd.
Qed.
Lemma sound_stored F : sound F → ∃ stored, stored_of F = Ok stored ∧ valid_graph sha256_hex (records_of stored).
Proof.
  intros [Hn Hv]. unfold RecommendationStore.validate_files in Hv. apply result_bind_Ok in Hv as (stored & Hs & Hv).
  exists stored. split; [done|]. unfold check_graph, graph_invariant in Hv.
  destruct (validate_graph_records _ _) as [[]|e] eqn:E; [|done]. by apply validate_exact.
Qed.
Lemma sound_intro F stored :
  named F → stored_of F = Ok stored → valid_graph sha256_hex (records_of stored) → sound F.
Proof.
  intros Hn Hs Hg. split; [done|]. unfold RecommendationStore.validate_files. rewrite Hs. cbn.
  unfold check_graph. apply validate_exact in Hg. by rewrite Hg.
Qed.
Lemma sound_record F r : sound F → holds F r → valid_record r = Ok tt.
Proof. intros Hs Hh. destruct (sound_stored F Hs) as (stored & Hst & _). by eapply stored_valid; [apply Hs| |]. Qed.

(** ** Files that change *)

(** No record at its end is touched. *)
Definition kept_final F F' : Prop :=
  ∀ r, holds F r → final_status (status r) = true → ∃ r', holds F' r' ∧ id r' = id r ∧ canonical r' = canonical r.
Lemma kept_final_refl F : kept_final F F.
Proof. intros r Hh _. by exists r. Qed.
Lemma canonical_status r r' : canonical r' = canonical r → status r' = status r.
Proof. by injection 1. Qed.
Lemma kept_final_trans F F' F'' : kept_final F F' → kept_final F' F'' → kept_final F F''.
Proof.
  intros H H' r Hh Hf. destruct (H r Hh Hf) as (r' & Hh' & Hi & Hc).
  destruct (H' r' Hh') as (r'' & Hh'' & Hi' & Hc'); [by rewrite (canonical_status r r')|].
  exists r''. split; [done|]. split; congruence.
Qed.

Abbreviation placed r F := (<[recommendation_filename (id r) := render r]> F).
Lemma holds_placed F r x : named F → valid_id (id r) = true →
  holds (placed r F) x ↔ x = r ∨ (holds F x ∧ id x ≠ id r).
Proof.
  intros Hn Hv. split.
  - intros (Hx & b & Hb & Hp). apply lookup_insert_Some in Hb as [[Hname <-]|[Hname Hb]].
    + left. rewrite Hparse in Hp. congruence.
    + right. split; [split; [done|by exists b]|]. intros He. by rewrite He in Hname.
  - intros [->|[(Hx & b & Hb & Hp) Hne]].
    + split; [done|]. exists (render r). by rewrite lookup_insert_eq, Hparse.
    + split; [done|]. exists b. rewrite lookup_insert_ne; [done|]. intros He. by apply filename_inj in He.
Qed.
Lemma named_placed F r : named F → valid_id (id r) = true → named (placed r F).
Proof.
  intros Hn Hv n b [[<- <-]|[_ Hb]]%lookup_insert_Some; [|by apply Hn].
  exists r. by rewrite Hparse.
Qed.
Lemma named_readable F :
  named F → (∀ r, holds F r → valid_record r = Ok tt) → ∃ stored, stored_of F = Ok stored.
Proof.
  intros Hn Hv. apply read_entries_total. intros [n b] He. apply elem_of_map_to_list in He.
  destruct (Hn n b He) as (r & Hp & Hid & ->). exists r. split; [done|]. apply Hv. split; [done|]. by exists b.
Qed.
Lemma sound_placed F r r' :
  sound F → holds F r → touched r r' → valid_record r' = Ok tt → sound (placed r' F).
Proof.
  intros Hs Hh Ht Hv. pose proof (sound_named _ Hs) as Hn. destruct (sound_stored F Hs) as (stored & Hst & Hg).
  assert (Hid : valid_id (id r') = true) by (rewrite (touched_id _ _ Ht); apply Hh).
  assert (Hn' := named_placed F r' Hn Hid). destruct (named_readable _ Hn') as [stored' Hst'].
  { intros x [->|[Hx _]]%holds_placed; [done| |done..]. by apply (sound_record F). }
  apply (sound_intro _ stored' Hn' Hst'). apply (touched_graph _ (records_of stored) _ r r'); try done.
  - by apply (stored_record F stored).
  - intros x. rewrite (stored_record _ _ x Hn' Hst'), (stored_record _ _ x Hn Hst), holds_placed by done.
    by rewrite (touched_id _ _ Ht).
  - by apply (stored_ids _ _ Hn').
Qed.
Lemma kept_placed F r r' :
  named F → holds F r → id r' = id r → final_status (status r) = false → kept_final F (placed r' F).
Proof.
  intros Hn Hh Hid Hf x Hx Hfx. exists x. split; [|done]. apply holds_placed; [done|rewrite Hid; apply Hh|].
  right. split; [done|]. rewrite Hid. intros He. by rewrite (holds_same F x r), Hf in Hfx.
Qed.

(** A transaction that writes records under their names. *)
Record record_writes F (rs : list (list Z * Replacement)) : Prop := {
  writes_proper : proper_replacements F rs;
  writes_records : ∀ ir b, ir ∈ rs → new ir.2 = Some b → ∃ r, b = render r ∧ id r = ir.1;
}.
Lemma named_replaced F rs : named F → record_writes F rs → named (replaced F rs).
Proof.
  intros Hn [Hp Hw] n b Hb.
  destruct (decide (Exists (λ ir, recommendation_filename ir.1 = n) rs)) as [He|He].
  - apply Exists_exists in He as (ir & Hin & <-). rewrite (F1_target F rs Hp ir Hin) in Hb.
    destruct (Hw ir b Hin Hb) as (r & -> & Hid). exists r. rewrite Hparse, Hid.
    split; [done|]. split; [by apply Hp|done].
  - rewrite F1_other in Hb; [by apply Hn|]. intros ir Hin Heq. apply He, Exists_exists. by exists ir.
Qed.
Lemma kept_replaced F rs :
  named F → record_writes F rs →
  (∀ ir r, ir ∈ rs → holds F r → id r = ir.1 → final_status (status r) = true →
     ∃ r', new ir.2 = Some (render r') ∧ id r' = id r ∧ canonical r' = canonical r) →
  kept_final F (replaced F rs).
Proof.
  intros Hn [Hp Hw] H r Hh Hf. pose proof Hh as (Hv & b & Hb & Hpb).
  destruct (decide (Exists (λ ir, ir.1 = id r) rs)) as [He|He].
  - apply Exists_exists in He as (ir & Hin & Hid). destruct (H ir r Hin Hh (eq_sym Hid) Hf) as (r' & Hnew & Hi & Hc).
    exists r'. split; [|done]. rewrite <- Hi in Hv. split; [done|]. exists (render r').
    split; [|by apply Hparse]. rewrite Hi, <- Hid. by rewrite (F1_target F rs Hp ir Hin).
  - exists r. split; [|done]. split; [done|]. exists b. split; [|done]. rewrite F1_other; [done|].
    intros ir Hin Heq. apply filename_inj in Heq; [|by apply Hp|done]. apply He, Exists_exists. by exists ir.
Qed.

(** *** What transactions write *)

Lemma in_order_elem {A} (m : gmap (list Z) A) x : x ∈ in_order m ↔ m !! x.1 = Some x.2.
Proof. destruct x as [i a]. unfold in_order. by rewrite sort_by_perm, elem_of_map_to_list. Qed.
Lemma in_order_distinct {A} (m : gmap (list Z) A) : NoDup (in_order m).*1.
Proof. unfold in_order. rewrite sort_by_perm. apply NoDup_fst_map_to_list. Qed.
Lemma writes_intro F (reps : Replacements) :
  (∀ i rep, reps !! i = Some rep → valid_id i = true ∧ old rep = F !! recommendation_filename i
     ∧ ∀ b, new rep = Some b → ∃ r, b = render r ∧ id r = i) →
  record_writes F (in_order reps).
Proof.
  intros H. split; [split; [apply in_order_distinct|..]|]; intros [i rep]; [| |intros b];
    rewrite in_order_elem; intros Hl; destruct (H i rep Hl) as (? & ? & Hn); [done|done|by apply Hn].
Qed.
Lemma by_record_id_perm l l' : NoDup (id <$> records_of l') → l ≡ₚ l' → by_record_id l = by_record_id l'.
Proof.
  intros Hn Hp. unfold by_record_id. apply list_to_map_proper.
  - rewrite fmap_reverse, reverse_Permutation, <- list_fmap_compose, Hp.
    unfold records_of in Hn. by rewrite <- list_fmap_compose in Hn.
  - by rewrite !reverse_Permutation, Hp.
Qed.
Lemma stored_lookup F stored i s :
  named F → stored_of F = Ok stored →
  by_record_id stored !! i = Some s ↔
  id (recommendation s) = i ∧ holds F (recommendation s) ∧ F !! recommendation_filename i = Some (stored_bytes s).
Proof.
  intros Hn Hs. pose proof (stored_ids F stored Hn Hs) as Hd. unfold by_record_id.
  rewrite <- elem_of_list_to_map.
  - rewrite elem_of_reverse, list_elem_of_fmap. split.
    + intros (s' & [= -> ->] & Hin). by apply (stored_elem F stored) in Hin.
    + intros (<- & Hh). exists s. split; [done|]. by apply (stored_elem F stored).
  - rewrite fmap_reverse, reverse_Permutation, <- list_fmap_compose. unfold records_of in Hd.
    by rewrite <- list_fmap_compose in Hd.
Qed.
Lemma stored_file F stored i :
  named F → stored_of F = Ok stored → valid_id i = true →
  stored_bytes <$> by_record_id stored !! i = F !! recommendation_filename i.
Proof.
  intros Hn Hs Hi. destruct (by_record_id stored !! i) as [s|] eqn:Hl.
  - by apply (stored_lookup F) in Hl as (_ & _ & ->).
  - destruct (F !! recommendation_filename i) as [b|] eqn:Hb; [|done].
    destruct (Hn _ b Hb) as (r & Hp & Hv & Heq). apply filename_inj in Heq as ->; [|done..].
    assert (Hl' : by_record_id stored !! id r = Some (mkStored r b)); [|congruence].
    apply (stored_lookup F); [done..|]. split; [done|]. split; [|done]. split; [done|]. by exists b.
Qed.
Lemma orphans_elem live protected at_time entries resets x :
  reset_orphans evidence_json action_json sha256_hex live protected at_time entries = Ok resets → x ∈ resets →
  (x.1, x.2.1) ∈ entries ∧ orphaned live protected x.1 (recommendation x.2.1) = true
  ∧ x.2.2 = orphan_reset at_time (recommendation x.2.1).
Proof.
  revert resets. induction entries as [|[i s] entries IH]; intros resets H Hx; cbn in H.
  { injection H as <-. by apply elem_of_nil in Hx. }
  destruct (orphaned live protected i (recommendation s)) eqn:Ho.
  - apply result_bind_Ok in H as (u & _ & H). apply result_bind_Ok in H as (rest & Hrest & [= <-]).
    apply elem_of_cons in Hx as [->|Hx]; [by split; [left|]|].
    destruct (IH rest Hrest Hx) as [Hin ?]. by split; [right|].
  - destruct (IH resets H Hx) as [Hin ?]. by split; [right|].
Qed.
Lemma check_kept_Ok next current :
  check_kept next current = Ok tt →
  ∀ x, x ∈ current → ∃ y, next !! x.1 = Some y
    ∧ (settled_status (status x.2) = true → same_record y x.2 = true).
Proof.
  induction current as [|[i b] current IH]; intros H x Hx; [by apply elem_of_nil in Hx|]. cbn in H.
  destruct (next !! i) as [y|] eqn:Hy; [|done].
  destruct (settled_status (status b) && negb (same_record y b)) eqn:Hc; [done|].
  apply elem_of_cons in Hx as [->|Hx]; [|by apply IH].
  exists y. split; [done|]. cbn. intros Hs. rewrite Hs in Hc. by apply negb_false_iff in Hc.
Qed.
Lemma same_record_canonical y x : same_record y x = true → canonical y = canonical x.
Proof. unfold same_record. intros [H _]%andb_true_iff. by apply eqb_elim in H. Qed.
Lemma by_id_of_id records i r : by_id_of records !! i = Some r → r ∈ records ∧ id r = i.
Proof.
  unfold by_id_of. intros H%elem_of_list_to_map_2. rewrite elem_of_reverse in H.
  by apply list_elem_of_fmap in H as (x & [= -> ->] & Hx).
Qed.
Lemma replacement_lookup stored next i rep :
  map_imap (replacement_of render stored) next !! i = Some rep ↔
  ∃ r, next !! i = Some r ∧ replacement_of render stored i r = Some rep.
Proof.
  rewrite map_lookup_imap. destruct (next !! i) as [r|]; cbn; [|naive_solver].
  split; [intros H; by exists r|by intros (r' & [= ->] & H)].
Qed.
Lemma apply_writes F stored records :
  named F → stored_of F = Ok stored → (∀ r, r ∈ records → valid_id (id r) = true) →
  record_writes F (in_order (map_imap (replacement_of render (by_record_id stored)) (by_id_of records))).
Proof.
  intros Hn Hst Hids. apply writes_intro. intros i rep (r & Hr & Hrep)%replacement_lookup.
  apply by_id_of_id in Hr as [Hin Hi]. unfold replacement_of in Hrep. case_match; [done|]. injection Hrep as <-.
  rewrite <- Hi. split; [by apply Hids|]. split; [by apply (stored_file F); [| |apply Hids]|].
  intros b [= <-]. by exists r.
Qed.

(** What a transaction returns [Ok] for: [F] before, [F'] after. *)
Record transacted F (expected : gmap (list Z) (option (list Z))) (records : list Recommendation) F' : Prop := {
  transacted_records : ∀ r, holds F' r ↔ r ∈ records;
  transacted_expected : ∀ i h, expected !! i = Some (Some h) →
    ∃ b, F !! recommendation_filename i = Some b ∧ sha256_hex b = h;
  transacted_present : ∀ r, holds F r → id r ∈ id <$> records;
  transacted_settled : ∀ r, holds F r → settled_status (status r) = true →
    ∃ r', r' ∈ records ∧ id r' = id r ∧ canonical r' = canonical r;
}.
Lemma replaced_records F listed records :
  sound F → stored_of F = Ok listed → NoDup (id <$> records) → (∀ r, r ∈ records → valid_id (id r) = true) →
  (∀ r, holds F r → id r ∈ id <$> records) →
  let rs := in_order (map_imap (replacement_of render (by_record_id listed)) (by_id_of records)) in
  record_writes F rs → ∀ r, holds (replaced F rs) r ↔ r ∈ records.
Proof.
  intros Hs Hst Hn Hids Hall rs Hw. pose proof (sound_named _ Hs) as Hnamed.
  assert (Hname : ∀ r, r ∈ records → holds (replaced F rs) r).
  { intros r Hr. split; [by apply Hids|]. exists (render r). split; [|done].
    assert (Hl : by_id_of records !! id r = Some r) by by apply record_lookup.
    pose proof (stored_file F listed (id r) Hnamed Hst (Hids r Hr)) as Hfile.
    destruct (replacement_of render (by_record_id listed) (id r) r) as [rep|] eqn:Hrep.
    - assert (Hin : (id r, rep) ∈ rs) by (apply in_order_elem, replacement_lookup; by exists r).
      pose proof (F1_target F rs (writes_proper _ _ Hw) (id r, rep) Hin) as Ht. cbn [fst snd] in Ht. rewrite Ht.
      unfold replacement_of in Hrep. case_match; [done|]. by injection Hrep as <-.
    - unfold replacement_of in Hrep. case_match eqn:Hb; [|done]. apply eqb_elim in Hb. rewrite Hfile in Hb.
      rewrite F1_other; [done|]. intros ir Hin Heq. apply filename_inj in Heq; [|by apply (writes_proper _ _ Hw)|by apply Hids].
      apply in_order_elem, replacement_lookup in Hin as (y & Hy & Hrep'). rewrite Heq in Hy, Hrep'.
      assert (y = r) as -> by congruence. unfold replacement_of in Hrep'. by rewrite Hfile, Hb, eqb_refl in Hrep'. }
  intros r. split; [|by apply Hname]. intros Hh.
  assert (Hin : id r ∈ id <$> records).
  { pose proof Hh as (Hv & b & Hb & Hp).
    destruct (decide (Exists (λ ir, recommendation_filename ir.1 = recommendation_filename (id r)) rs)) as [He|He].
    - apply Exists_exists in He as (ir & Hir & Heq). apply filename_inj in Heq; [|by apply (writes_proper _ _ Hw)|done].
      apply in_order_elem, replacement_lookup in Hir as (y & Hy & _). apply by_id_of_id in Hy as [Hy Hyi].
      rewrite <- Heq, <- Hyi. by apply list_elem_of_fmap_2.
    - apply Hall. split; [done|]. exists b. rewrite F1_other in Hb; [done|].
      intros ir Hir Heq. apply He, Exists_exists. by exists ir. }
  apply list_elem_of_fmap in Hin as (r' & Hid & Hr'). assert (r = r') as ->; [|done].
  by apply (holds_same (replaced F rs)); [|apply Hname|].
Qed.

(** ** What every operation keeps *)

Section keeping.
Context (R : gmap (list Z) (list Z) → Prop).

(** Nothing is under way, and the files are sound. *)
Definition at_rest d : Prop := ∃ F, ended F d ∧ sound F ∧ R F.
(** A transaction may be under way, between sound files and sound files. *)
Definition good d : Prop :=
  ∃ F rs, proper_replacements F rs ∧ consistent sha256_hex validate_files F rs d ∧ sound F ∧ R F
    ∧ (validate_files (replaced F rs) = Ok tt → sound (replaced F rs) ∧ R (replaced F rs)).

Lemma proper_nil F : proper_replacements F [].
Proof. split; [constructor|by intros ? ?%elem_of_nil..]. Qed.
Lemma ended_good F d : sound F → R F → ended F d → good d.
Proof.
  intros Hs HR Hd. exists F, []. split; [apply proper_nil|]. split; [|done].
  left. apply (ended_idle validate_files F [] F); [by left|done].
Qed.
Lemma at_rest_good d : at_rest d → good d.
Proof. intros (F & ? & ? & ?). by apply (ended_good F). Qed.

Abbreviation recover := (recover evidence_json action_json sha256_hex parse).
Lemma keeps_recover : keeps good good recover (λ _, at_rest).
Proof.
  apply keeps_exists. intros F. apply keeps_exists. intros rs.
  apply keeps_pre with (P := λ d, consistent sha256_hex validate_files F rs d
    ∧ (proper_replacements F rs ∧ sound F ∧ R F
       ∧ (validate_files (replaced F rs) = Ok tt → sound (replaced F rs) ∧ R (replaced F rs)))); [|naive_solver].
  apply keeps_pure. intros (Hp & Hs & HR & Hn).
  eapply keeps_weaken; [apply (keeps_recover_transactions sha256_hex validate_files F rs Hp)| |done|].
  - intros d Hd. by exists F, rs.
  - intros u d (F' & He & [->|[-> Hv]]); [by exists F|]. destruct (Hn Hv) as [Hs' HR']. by exists (replaced F rs).
Qed.

Section at_files.
Context {g : bool}.
#[local] Abbreviation keeps := (keeps_in g).
Context (F : gmap (list Z) (list Z)) (Hsound : sound F) (HRF : R F).

Lemma keeps_recover_at : keeps good (ended F) recover (λ _, ended F).
Proof. eapply keeps_weaken; [apply recover_ended|by intros; apply (ended_good F)|done|done]. Qed.
Lemma keeps_check_files :
  keeps good (ended F) (check_files evidence_json action_json sha256_hex parse) (λ _, ended F).
Proof.
  eapply keeps_bind; [apply keeps_read; by intros; apply (ended_good F)|]. intros F'.
  apply keeps_of_result; [|by intros u d _ [? _]]. intros d [Hd _]. by apply (ended_good F).
Qed.
Lemma keeps_read_stored :
  keeps good (ended F) (read_all_stored evidence_json action_json sha256_hex parse)
    (λ stored d, ended F d ∧ stored_of F = Ok stored).
Proof.
  eapply keeps_bind; [apply keeps_read; by intros; apply (ended_good F)|]. intros F'.
  apply keeps_of_result; [intros d [Hd _]; by apply (ended_good F)|].
  intros stored d Hs [[Hd Hf] [= <-]]. by rewrite Hf in Hs.
Qed.
Lemma keeps_get_rest i :
  keeps good (ended F)
    (_ ← check_files evidence_json action_json sha256_hex parse;
     if negb (valid_id i) then ret None
     else
       found ← read Io (λ d, Some (files d !! recommendation_filename i));
       match found with
       | None => ret None
       | Some bytes => r ← of_result (read_bytes evidence_json action_json sha256_hex parse bytes); ret (Some r)
       end)
    (λ o d, ended F d ∧ (∀ r, o = Some r ↔ holds F r ∧ id r = i)).
Proof.
  eapply keeps_bind; [apply keeps_check_files|]. intros u'.
  assert (Hnone : (∀ r, holds F r → id r ≠ i) →
    keeps good (ended F) (ret None : IO (option Recommendation)) (λ o d, ended F d ∧ (∀ r, o = Some r ↔ holds F r ∧ id r = i))).
  { intros Hno. apply keeps_ret. intros d Hd. split; [done|]. intros r. split; [done|]. intros [Hh Hid].
    by destruct (Hno r Hh). }
  destruct (valid_id i) eqn:Hi; cbn [negb]; [|apply Hnone; intros r [Hv _] Hid; congruence].
  eapply keeps_bind; [apply keeps_read; by intros; apply (ended_good F)|]. intros found.
  apply keeps_pre with (P := λ d, ended F d ∧ F !! recommendation_filename i = found).
  2: { intros d [[Ht Hf] [= <-]]. by rewrite Hf. }
  apply keeps_pure. intros Hb. destruct found as [b|].
  2: { apply Hnone. intros r (_ & b & Hb' & _) Hid. rewrite Hid in Hb'. congruence. }
  eapply keeps_bind with (Q := λ r d, ended F d ∧ holds F r ∧ id r = i).
  { apply keeps_of_result; [by intros; apply (ended_good F)|]. intros r d Hr Hd. split; [done|].
    unfold read_bytes in Hr. destruct (parse b) as [r'|] eqn:Hp; [|done].
    apply result_bind_Ok in Hr as (u2 & _ & [= ->]).
    destruct (named_holds F _ b r (sound_named _ Hsound) Hb Hp) as [Hh Hn]. split; [done|].
    symmetry. by apply filename_inj; [|apply Hh|]. }
  intros r. apply keeps_ret. intros d (Hd & Hh & Hid). split; [done|]. intros r'. split; [by intros [= <-]|].
  intros [Hh' Hid']. f_equal. apply (holds_same F); [done..|congruence].
Qed.
Lemma keeps_get i :
  keeps good (ended F) (get_current evidence_json action_json sha256_hex parse i)
    (λ o d, ended F d ∧ (∀ r, o = Some r ↔ holds F r ∧ id r = i)).
Proof. eapply keeps_bind; [apply keeps_recover_at|]. intros u. apply keeps_get_rest. Qed.
Lemma keeps_put r :
  (valid_record r = Ok tt → sound (placed r F) ∧ R (placed r F)) →
  keeps good (ended F) (put_current evidence_json action_json sha256_hex parse render r)
    (λ _ d, ended (placed r F) d ∧ valid_record r = Ok tt).
Proof.
  intros H. eapply keeps_bind; [apply keeps_recover_at|]. intros u.
  eapply keeps_bind with (Q := λ _ d, ended F d ∧ valid_record r = Ok tt).
  { apply keeps_of_result; [by intros; apply (ended_good F)|by intros []]. }
  intros u1. apply keeps_pure. intros Hv. destruct (H Hv) as [Hs HR].
  assert (Hg : ∀ d, ended F d → good d) by by intros; apply (ended_good F).
  assert (Hg' : ∀ d, ended (placed r F) d → good d) by by intros; apply (ended_good (placed r F)).
  eapply keeps_bind; [by apply keeps_sync|]. intros u2.
  eapply keeps_bind; [by apply keeps_sync|]. intros u3.
  eapply keeps_bind; [by apply keeps_sync|]. intros u4.
  eapply keeps_bind; [by apply keeps_probe_any|]. intros there.
  eapply keeps_bind with (Q := λ _, ended (placed r F)).
  { apply keeps_atomic; [by intros d [Hd _]; apply Hg|]. intros d [[Ht Hf] _]. split; [done|]. cbn. by rewrite Hf. }
  intros u5. eapply keeps_bind.
  { by apply (keeps_catch good (ended (placed r F))); [apply keeps_sync|]. }
  intros opened. apply keeps_pre with (P := ended (placed r F)); [|by destruct opened].
  destruct opened; [|by apply keeps_ret].
  eapply keeps_bind; [by apply (keeps_catch good (ended (placed r F))); [apply keeps_sync|]|].
  intros synced. apply keeps_ret. by destruct synced.
Qed.
Lemma keeps_commit_at expected rs :
  record_writes F (in_order rs) ∨ proper_replacements F (in_order rs) ∧ named (replaced F (in_order rs)) → 
  R (replaced F (in_order rs)) →
  keeps good (ended F) (commit evidence_json action_json sha256_hex parse expected rs)
    (λ _ d, ended (replaced F (in_order rs)) d ∧ sound (replaced F (in_order rs))).
Proof.
  intros Hw HR.
  assert (Hp : proper_replacements F (in_order rs) ∧ named (replaced F (in_order rs))).
  { destruct Hw as [Hw|Hw]; [|done]. split; [apply Hw|]. by apply named_replaced; [apply Hsound|]. }
  destruct Hp as [Hp Hn]. eapply keeps_weaken.
  - by apply (keeps_commit sha256_hex validate_files F (in_order rs)).
  - intros d Hd. by exists F, (in_order rs).
  - done.
  - intros u d [He [Heq|[_ Hv]]]; (split; [done|]); [by rewrite Heq|by split].
Qed.
End at_files.

Lemma keeps_rest {g : bool} {A : Type} (X : gmap (list Z) (list Z) → Prop) (m : IO A) Q :
  (∀ F, sound F → R F → X F → keeps_in g good (ended F) m Q) →
  keeps_in g good (λ d, ∃ F, ended F d ∧ sound F ∧ R F ∧ X F) m Q.
Proof. intros H d os Ho (F & Hd & Hs & HR & HX). by apply (H F Hs HR HX). Qed.
Lemma keeps_at_rest {g : bool} {A : Type} (m : IO A) Q :
  (∀ F, sound F → R F → keeps_in g good (ended F) m Q) → keeps_in g good at_rest m Q.
Proof. intros H d os Ho (F & Hd & Hs & HR). by apply (H F Hs HR). Qed.
Lemma keeps_get_good i :
  keeps good good (get_current evidence_json action_json sha256_hex parse i)
    (λ o d, ∃ F, ended F d ∧ sound F ∧ R F ∧ ∀ r, o = Some r ↔ holds F r ∧ id r = i).
Proof.
  eapply keeps_bind; [apply keeps_recover|]. intros u. apply keeps_at_rest. intros F Hs HRF.
  eapply keeps_weaken; [by apply (keeps_get_rest F)|done|done|]. intros o d [Hd Ho]. by exists F.
Qed.
Lemma keeps_result {g : bool} {A : Type} F (x : result StoreError A) :
  sound F → R F → keeps_in g good (ended F) (of_result x) (λ a d, ended F d ∧ x = Ok a).
Proof. intros Hs HR. apply keeps_of_result; [intros; by apply (ended_good F)|done]. Qed.

(** Operations on one record. *)
Section editing.
Context (HR : ∀ F F', R F → kept_final F F' → R F').
Abbreviation put_current := (put_current evidence_json action_json sha256_hex parse render).

(** What an edit of [r] leaves. *)
Definition edited F r' d : Prop := ended (placed r' F) d ∧ sound (placed r' F) ∧ R (placed r' F).
Lemma edited_good F r' d : edited F r' d → good d.
Proof. intros (? & ? & ?). by apply (ended_good (placed r' F)). Qed.
Lemma keeps_put_edit {g : bool} F r r' :
  sound F → R F → holds F r → final_status (status r) = false → touched r r' →
  keeps_in g good (ended F) (put_current r') (λ _, edited F r').
Proof.
  intros Hs HRF Hh Hf Ht.
  assert (Hk : R (placed r' F)).
  { apply (HR F); [done|]. apply (kept_placed F r); [apply Hs|done|apply Ht|done]. }
  assert (Hp : valid_record r' = Ok tt → sound (placed r' F)) by by apply (sound_placed F r).
  eapply keeps_weaken; [apply (keeps_put F); [done..|]; by split; [apply Hp|]|done|done|].
  intros u d [Hd Hv]. split; [done|]. by split; [apply Hp|].
Qed.
Lemma keeps_edit {g : bool} F r r' {A : Type} (a : A) :
  sound F → R F → holds F r → final_status (status r) = false → touched r r' →
  keeps_in g good (ended F) (_ ← put_current r'; ret a) (λ o d, o = a ∧ edited F r' d).
Proof. intros. eapply keeps_bind; [by apply (keeps_put_edit F r)|]. intros u. by apply keeps_ret. Qed.
Lemma keeps_edit_good {g : bool} F r r' {A : Type} (a : A) :
  sound F → R F → holds F r → final_status (status r) = false → touched r r' →
  keeps_in g good (ended F) (_ ← put_current r'; ret a) (λ _, good).
Proof.
  intros. eapply keeps_weaken; [by apply (keeps_edit F r)|done|done|]. intros o d [_ Hd]. by eapply edited_good.
Qed.
Ltac at_files F := by intros; apply (ended_good F).
(** Claim and read: the record is there or the answer is [None]. *)
Ltac start_edit F r :=
  eapply keeps_bind; [apply keeps_get_good|]; intros [r|]; apply keeps_rest; intros F Hs HRF Hr;
  [destruct (proj1 (Hr r) eq_refl) as [Hh Hi]; clear Hr|apply keeps_ret; at_files F].
Ltac claim_first := eapply keeps_bind; [by apply keeps_sync|]; intros ?.
Ltac result_step F :=
  eapply keeps_bind; [by apply (keeps_result F)|]; intros ?; apply keeps_pure; let H := fresh in intros H; clear H.
Ltac check_step F H := branch H; [apply keeps_fail; at_files F|]; apply negb_false_iff in H.

Lemma improving r s : improves r && (status r == s) = true → status r = s.
Proof. intros [_ H]%andb_true_iff. by apply eqb_true. Qed.

Lemma keeps_dismiss i at_time why :
  keeps good good (dismiss evidence_json action_json sha256_hex parse render i at_time why) (λ _, good).
Proof.
  claim_first. start_edit F r. result_step F. check_step F Hc.
  assert (Hst : status r = Proposed ∨ status r = Executing).
  { apply orb_true_iff in Hc as [Hc|Hc]; [left|right]; by apply eqb_true. }
  apply (keeps_edit_good F r); [done..|by destruct Hst as [-> | ->]|].
  apply touched_move; [by destruct Hst as [-> | ->]|done|by rewrite Hc].
Qed.
Lemma keeps_begin i target at_time :
  keeps good good (begin_execution evidence_json action_json sha256_hex parse render i target at_time)
    (λ _, good).
Proof.
  claim_first. start_edit F r. result_step F. check_step F Hc. apply improving in Hc.
  apply (keeps_edit_good F r); [done..|by rewrite Hc|]. touch Hc.
Qed.
Lemma keeps_begin_checked i target at_time m who :
  keeps good good
    (begin_execution_checked evidence_json action_json sha256_hex parse render i target at_time m who)
    (λ _, good).
Proof.
  claim_first. eapply keeps_bind; [by apply (keeps_of_result _ _ _ (λ _, good))|]. intros u'.
  start_edit F r. result_step F. check_step F Hc. apply improving in Hc.
  case_match; [|apply keeps_fail; at_files F]. check_step F Hp.
  apply (keeps_edit_good F r); [done..|by rewrite Hc|]. touch Hc.
Qed.
Lemma keeps_complete_execution i at_time :
  keeps good good (complete_execution evidence_json action_json sha256_hex parse render i at_time)
    (λ _, good).
Proof.
  claim_first. start_edit F r. check_step F Hc. apply improving in Hc.
  apply (keeps_edit_good F r); [done..|by rewrite Hc|]. touch Hc.
Qed.
Lemma keeps_cancel i at_time :
  keeps good good (cancel_execution evidence_json action_json sha256_hex parse render i at_time)
    (λ _, good).
Proof.
  claim_first. start_edit F r. check_step F Hc. apply improving in Hc.
  set (r' := move Proposed _ _ _ _ _).
  assert (Ht : touched r r') by touch Hc.
  assert (Hf : final_status (status r) = false) by by rewrite Hc.
  eapply keeps_bind; [by apply (keeps_put_edit F r)|]. intros u'.
  destruct (access_redacted r); [|apply keeps_ret; intros d; apply edited_good].
  assert (Hh' : holds (placed r' F) r').
  { apply holds_placed; [apply Hs|apply Hh|by left]. }
  apply keeps_pre with (P := λ d, ∃ F', ended F' d ∧ sound F' ∧ R F' ∧ holds F' r').
  2: { intros d (? & ? & ?). by exists (placed r' F). }
  apply keeps_rest. intros F' Hs' HRF' Hr'. apply (keeps_edit_good F' r'); [done..|].
  by apply touched_move.
Qed.

(** What completing record [i] leaves, and answers. *)
Definition completed_from F i (o : option Recommendation) d : Prop :=
  match o with
  | None => ended F d
  | Some c =>
      (ended F d ∧ holds F c ∧ id c = i ∧ status c = Completed)
      ∨ ∃ r, holds F r ∧ id r = i ∧ status r = Accepted ∧ touched r c ∧ edited F c d
  end.
Lemma completed_from_good F i o d : sound F → R F → completed_from F i o d → good d.
Proof.
  intros Hs HRF. destruct o as [c|]; [|by apply ended_good]. intros [[Hd _]|(r & _ & _ & _ & _ & Hd)].
  - by apply (ended_good F).
  - by apply (edited_good F c).
Qed.
Lemma keeps_completing {g : bool} F i r r' :
  sound F → R F → holds F r → id r = i → status r = Accepted → touched r r' →
  keeps_in g good (ended F) (_ ← put_current r'; ret (Some r')) (completed_from F i).
Proof.
  intros Hs HRF Hh Hi Hst Ht. eapply keeps_weaken; [apply (keeps_edit F r r'); try done; by rewrite Hst|done|done|].
  intros o d [-> Hd]. right. by exists r.
Qed.
Lemma keeps_complete_accepted {g : bool} F i at_time :
  sound F → R F →
  keeps_in g good (ended F) (complete_accepted evidence_json action_json sha256_hex parse render i at_time)
    (completed_from F i).
Proof.
  intros Hs HRF. eapply keeps_bind; [apply keeps_sync; at_files F|]. intros u.
  eapply keeps_bind; [by apply keeps_get|]. intros [r|]; apply keeps_pure; intros Hr; [|by apply keeps_ret].
  destruct (proj1 (Hr r) eq_refl) as [Hh Hi]. result_step F. check_step F Hc. apply improving in Hc.
  apply (keeps_completing F i r); [done..|]. touch Hc.
Qed.
Lemma keeps_complete_accepted_checked {g : bool} F i at_time m :
  sound F → R F →
  keeps_in g good (ended F)
    (complete_accepted_checked evidence_json action_json sha256_hex parse render i at_time m)
    (completed_from F i).
Proof.
  intros Hs HRF. eapply keeps_bind; [apply keeps_sync; at_files F|]. intros u.
  result_step F. eapply keeps_bind; [by apply keeps_get|].
  intros [r|]; apply keeps_pure; intros Hr; [|by apply keeps_ret].
  destruct (proj1 (Hr r) eq_refl) as [Hh Hi]. result_step F.
  destruct (completion_packet r) as [p|]; [|apply keeps_fail; at_files F]. check_step F Hp.
  destruct (status r == Completed) eqn:Hst; [apply eqb_elim in Hst|].
  { case_match; [|apply keeps_fail; at_files F]. apply keeps_ret. intros d Hd. by left. }
  case_match; [apply keeps_fail; at_files F|]. check_step F Hc.
  apply andb_true_iff in Hc as [Hc _]. apply improving in Hc.
  apply (keeps_completing F i r); [done..|]. touch Hc.
Qed.
Lemma touched_back r c : touched r c → is_active r = false → touched c r.
Proof. intros [? ? ? ? ? [? ?] ?] Ha. split; (by rewrite Ha) || done || congruence. Qed.

(** A completion without its event is taken back, or stays. *)
Lemma keeps_log_completion {g : bool} F existing c :
  sound F → R F → holds F existing → status existing = Accepted → touched existing c →
  keeps_in g good (edited F c)
    (log_completion evidence_json action_json sha256_hex parse render existing c) (λ _, good).
Proof.
  intros Hs HRF Hh Hst Ht.
  apply keeps_pre with (P := λ d, ended (placed c F) d ∧ sound (placed c F) ∧ R (placed c F)); [|done].
  apply keeps_pure. intros [Hs' HR']. set (F' := placed c F) in *.
  assert (Hg : ∀ d, ended F' d → good d) by by intros; apply (ended_good F').
  eapply keeps_bind; [by apply (keeps_catch good (ended F')); [apply keeps_sync|]|].
  intros logged. apply keeps_pre with (P := ended F'); [|by destruct logged].
  destruct logged as [u|e]; [by apply keeps_ret|].
  assert (Hput : keeps_in g good (ended F') (RecommendationStore.put evidence_json action_json sha256_hex parse render existing)
                   (λ _, good)).
  { eapply keeps_bind; [by apply keeps_sync|]. intros u.
    assert (Hk : R (placed existing F')).
    { apply (HR F); [done|]. unfold F'. rewrite (touched_id _ _ Ht), insert_insert_eq.
      apply (kept_placed F existing); [apply Hs|done|done|by rewrite Hst]. }
    assert (Hp : valid_record existing = Ok tt → sound (placed existing F')).
    { apply (sound_placed F' c); [done| |].
      - apply holds_placed; [apply Hs| |by left]. rewrite (touched_id _ _ Ht). apply Hh.
      - apply touched_back; [done|]. unfold is_active. by rewrite Hst. }
    eapply keeps_weaken; [apply (keeps_put F'); [done..|]; by split; [apply Hp|]|done|done|].
    intros u' d [Hd Hv]. by apply (ended_good (placed existing F')); [apply Hp| |]. }
  eapply keeps_bind; [by apply (keeps_catch good good)|]. intros put_back. apply keeps_fail.
  by destruct put_back.
Qed.
Lemma keeps_complete_reported i session now m :
  keeps good good
    (complete_recommendation_with_packet evidence_json action_json sha256_hex parse render i session now m)
    (λ _, good).
Proof.
  unfold complete_recommendation_with_packet, get.
  eapply keeps_bind; [claim_first; apply keeps_get_good|]. intros [existing|]; apply keeps_rest; intros F Hs HRF Hr;
    [destruct (proj1 (Hr existing) eq_refl) as [Hh Hi]|apply keeps_ret; at_files F].
  assert (Hend : ∀ answer : Reply, keeps good (ended F) (ret answer : IO Reply) (λ _, good)) by (intros; apply keeps_ret; at_files F).
  assert (Hlog : ∀ c, keeps good (λ d, completed_from F i (Some c) d ∧ (status existing == Completed) = false)
    (log_completion evidence_json action_json sha256_hex parse render existing c) (λ _, good)).
  { intros c. apply keeps_pure. intros Hne%eqb_false.
    apply keeps_pre with (P := λ d, edited F c d ∧ (status existing = Accepted ∧ touched existing c)).
    - apply keeps_pure. intros [Hst Ht]. by apply (keeps_log_completion F).
    - intros d [(_ & Hc & Hci & Hcs)|(r & Hr' & Hri & Hst & Ht & Hd)].
      + assert (c = existing) as -> by (apply (holds_same F); [done..|congruence]). done.
      + assert (r = existing) as -> by (apply (holds_same F); [done..|congruence]). done. }
  case_match; [done|]. case_match.
  - destruct m as [m|]; [|done]. eapply keeps_bind; [by apply keeps_complete_accepted_checked|].
    intros [c|]; [|apply keeps_ret; at_files F].
    destruct (status existing == Completed) eqn:Hst.
    + apply keeps_ret. intros d. by apply completed_from_good.
    + eapply keeps_pre; [apply Hlog|]. by intros d Hd.
  - destruct (status existing == Completed) eqn:Hst; [done|]. case_match; [done|].
    eapply keeps_bind; [by apply keeps_complete_accepted|].
    intros [c|]; [|apply keeps_ret; at_files F]. eapply keeps_pre; [apply Hlog|]. by intros d Hd.
Qed.

(** *** Transactions *)

Lemma keeps_written {g : bool} F expected (reps : Replacements) {A : Type} (a : A) :
  sound F → R F → record_writes F (in_order reps) →
  (∀ i rep, reps !! i = Some rep → ∀ r, holds F r → id r = i → final_status (status r) = true →
     ∃ r', new rep = Some (render r') ∧ id r' = id r ∧ canonical r' = canonical r) →
  keeps_in g good (ended F)
    (_ ← commit evidence_json action_json sha256_hex parse expected reps; ret a) (λ _, good).
Proof.
  intros Hs HRF Hw Hk.
  assert (HR' : R (replaced F (in_order reps))).
  { apply (HR F); [done|]. apply kept_replaced; [apply Hs|done|].
    intros [i rep] r Hin. apply in_order_elem in Hin. by apply (Hk i). }
  eapply keeps_bind; [apply (keeps_commit_at F); [done|done|by left|done]|].
  intros u. apply keeps_ret. intros d [Hd Hs']. by apply (ended_good (replaced F (in_order reps))).
Qed.
Lemma keeps_replace_packet i revision p at_time :
  keeps good good
    (replace_completion_packet evidence_json action_json sha256_hex parse render i revision p at_time)
    (λ _, good).
Proof.
  claim_first. eapply keeps_bind; [apply keeps_recover|]. intros u'. apply keeps_at_rest. intros F Hs HRF.
  eapply keeps_bind; [by apply keeps_read_stored|]. intros listed. apply keeps_pure. intros Hst. cbv zeta.
  destruct (by_record_id listed !! i) as [s|] eqn:Hl; [|apply keeps_ret; at_files F].
  apply (stored_lookup F) in Hl as (Hi & Hh & Hb); [|apply Hs|done]. result_step F.
  check_step F Hc.
  destruct (completion_packet _) as [q|]; [|apply keeps_fail; at_files F].
  branch Hq; [apply keeps_fail; at_files F|]. do 2 result_step F.
  apply keeps_written; [done..|apply writes_intro|]; intros j rep Hj; apply lookup_singleton_Some in Hj as [<- <-].
  - split; [rewrite <- Hi; apply Hh|]. split; [done|]. intros b [= <-]. by eexists.
  - intros r Hr Hri Hf. assert (r = recommendation s) as -> by (apply (holds_same F); [done..|congruence]).
    apply andb_true_iff in Hc as [_ Hc]. by destruct (status (recommendation s)).
Qed.
Lemma keeps_recover_orphans live protected at_time :
  keeps good good
    (recover_orphaned_executions evidence_json action_json sha256_hex parse render live protected at_time)
    (λ _, good).
Proof.
  claim_first. eapply keeps_bind; [apply keeps_recover|]. intros u'. apply keeps_at_rest. intros F Hs HRF.
  eapply keeps_bind; [by apply keeps_read_stored|]. intros listed. apply keeps_pure. intros Hst.
  eapply keeps_bind; [by apply (keeps_result F)|]. intros resets. apply keeps_pure. intros Hr.
  destruct (length resets =? 0)%nat eqn:H0; [apply keeps_ret; at_files F|]. result_step F.
  assert (Hreset : ∀ j rep,
    (list_to_map ((λ x, (x.1, write_of render (Some (stored_bytes x.2.1)) x.2.2)) <$> resets) : Replacements) !! j
      = Some rep →
    ∃ s, id (recommendation s) = j ∧ holds F (recommendation s)
      ∧ F !! recommendation_filename j = Some (stored_bytes s)
      ∧ orphaned live protected j (recommendation s) = true
      ∧ rep = write_of render (Some (stored_bytes s)) (orphan_reset at_time (recommendation s))).
  { intros j rep Hj. apply elem_of_list_to_map_2, list_elem_of_fmap in Hj as ([k [s next]] & [= -> ->] & Hx).
    destruct (orphans_elem _ _ _ _ _ _ Hr Hx) as (Hin & Ho & Hn). cbn in Hin, Ho, Hn.
    apply in_order_elem in Hin. apply (stored_lookup F) in Hin as (Hj & Hh & Hb); [|apply Hs|done].
    exists s. cbn. by rewrite Hn. }
  apply keeps_written; [done..|apply writes_intro|]; intros j rep Hj;
    destruct (Hreset j rep Hj) as (s & Hid & Hh & Hb & Ho & ->).
  - split; [rewrite <- Hid; apply Hh|]. split; [done|]. intros b [= <-]. by eexists.
  - intros r Hr' Hri Hf. assert (r = recommendation s) as -> by (apply (holds_same F); [done..|congruence]).
    apply is_some_and_true in Ho as (session & _ & Ho). apply andb_true_iff in Ho as [Ho _].
    apply andb_true_iff in Ho as [Ho _]. by destruct (status (recommendation s)).
Qed.
Lemma keeps_verify {g : bool} F expected current :
  sound F → R F → keeps_in g good (ended F) (verify_expected sha256_hex expected current) (λ _, ended F).
Proof.
  intros Hs HRF. eapply keeps_bind with (Q := λ _, ended F).
  - eapply keeps_weaken; [apply (keeps_verify_hashes sha256_hex validate_files F [] (ended F))|..]; try done.
    + intros d Hd. left. by apply (ended_idle validate_files F [] F); [left|].
    + intros d Hd. exists F, []. split; [apply proper_nil|]. by split.
  - intros u. case_match; [by apply keeps_ret|apply keeps_fail; at_files F].
Qed.
Lemma keeps_apply expected records :
  (∀ r, r ∈ records → valid_id (id r) = true) →
  keeps good good
    (apply_recommendation_graph_transaction evidence_json action_json sha256_hex parse render expected records)
    (λ _, good).
Proof.
  intros Hids. claim_first. eapply keeps_bind; [apply keeps_recover|]. intros u'. apply keeps_at_rest. intros F Hs HRF.
  eapply keeps_bind; [by apply keeps_check_files|]. intros u2.
  eapply keeps_bind; [by apply keeps_read_stored|]. intros listed. apply keeps_pure. intros Hst.
  eapply keeps_bind; [by apply keeps_verify|]. intros u3. do 2 result_step F.
  eapply keeps_bind; [by apply (keeps_result F)|]. intros []. apply keeps_pure. intros Hk.
  pose proof (sound_named _ Hs) as Hn.
  set (next := by_id_of records) in *. set (stored := by_record_id listed) in *.
  assert (Hw : record_writes F (in_order (map_imap (replacement_of render stored) next))).
  { by apply apply_writes. }
  assert (HR' : R (replaced F (in_order (map_imap (replacement_of render stored) next)))).
  { apply (HR F); [done|]. apply kept_replaced; [done..|].
    intros [i rep] r Hin Hh Hid Hf. apply in_order_elem, replacement_lookup in Hin as (y & Hy & Hrep). cbn in Hy, Hrep, Hid |- *.
    pose proof Hh as (Hv & b & Hb & _).
    destruct (check_kept_Ok _ _ Hk (id r, r)) as (y' & Hy' & Hsame).
    - pose proof (proj2 (stored_lookup F listed (id r) (mkStored r b) Hn Hst) (conj eq_refl (conj Hh Hb))) as Hl.
      fold stored in Hl. apply in_order_elem. cbn. by rewrite lookup_fmap, Hl.
    - cbn in Hy', Hsame. assert (y' = y) as -> by congruence. exists y.
      unfold replacement_of in Hrep. case_match; [done|]. injection Hrep as <-. split; [done|].
      split; [apply by_id_of_id in Hy as [_ ->]; congruence|]. apply same_record_canonical, Hsame.
      by destruct (status r). }
  eapply keeps_weaken; [apply (keeps_commit_at F); [done|done|by left|done]|done|done|].
  intros u5 d [Hd Hs']. by eapply ended_good.
Qed.
Lemma keeps_report i source p now :
  keeps good good
    (report_completion_packet evidence_json action_json sha256_hex parse render i source p now) (λ _, good).
Proof.
  unfold report_completion_packet, get.
  eapply keeps_bind; [claim_first; apply keeps_get_good|]. intros [r|]; apply keeps_rest; intros F Hs HRF Hr;
    [destruct (proj1 (Hr r) eq_refl) as [Hh Hi]|apply keeps_ret; at_files F].
  result_step F. branch Hc; [apply keeps_ret; at_files F|].
  destruct (completion_packet r) as [q|].
  - eapply keeps_bind with (Q := λ _, good); [|intros o; by apply keeps_ret].
    eapply keeps_pre; [apply keeps_replace_packet|]. at_files F.
  - branch Hc'; [apply keeps_ret; at_files F|].
    assert (Hst : status r = Proposed).
    { rewrite !orb_false_iff in Hc'. destruct Hc' as [[[Hst _] _] _]. by apply negb_false_iff, eqb_elim in Hst. }
    unfold RecommendationStore.put. cbv zeta.
    assert (Hp : ∀ r', touched r r' → keeps good (ended F)
      (_ ← (_ ← claim; put_current r'); ret (Reported r') : IO Reply) (λ _, good)).
    { intros r' Ht. eapply keeps_bind with (Q := λ _, good); [|intros u; by apply keeps_ret].
      eapply keeps_bind; [apply keeps_sync; at_files F|]. intros u.
      eapply keeps_weaken; [apply (keeps_put_edit F r); try done; by rewrite Hst|done|done|].
      intros u' d. apply edited_good. }
    apply Hp. rewrite Hst. touch Hst.
Qed.
End editing.

Ltac at_files F := by intros; apply (ended_good F).
Lemma keeps_hashes {g : bool} F expected :
  sound F → R F →
  keeps_in g good (ended F) (verify_hashes sha256_hex expected)
    (λ _ d, ended F d ∧ ∀ i h, (i, Some h) ∈ expected →
       ∃ b, F !! recommendation_filename i = Some b ∧ sha256_hex b = h).
Proof.
  intros Hs HRF. induction expected as [|[i h] expected IH]; cbn [verify_hashes].
  { apply keeps_ret. intros d Hd. split; [done|]. by intros i h ?%elem_of_nil. }
  branch Hi; [apply keeps_fail; at_files F|].
  eapply keeps_bind; [apply keeps_read_ok; at_files F|]. intros actual.
  branch Heq; [|apply keeps_fail; intros d [Hd _]; by apply (ended_good F)].
  apply eqb_elim in Heq.
  apply keeps_pre with (P := λ d, ended F d ∧ (actual = None ∨ actual = F !! recommendation_filename i)).
  2: { intros d [[Ht Hf] Ha]. by rewrite Hf in Ha. }
  apply keeps_pure. intros Ha. eapply keeps_weaken; [exact IH|done|done|].
  intros u d [Hd Hall]. split; [done|]. intros j k [[= -> <-]|Hin]%elem_of_cons; [|by apply Hall].
  destruct Ha as [->| ->]; [done|]. destruct (F !! _) as [b|]; [|done]. injection Heq as Heq. by exists b.
Qed.
Lemma keeps_apply_exact {g : bool} F expected records :
  sound F → R F → (∀ r, r ∈ records → valid_id (id r) = true) →
  (∀ F', transacted F expected records F' → R F') →
  keeps_in g good (ended F)
    (apply_recommendation_graph_transaction evidence_json action_json sha256_hex parse render expected records)
    (λ _ d, ∃ F', ended F' d ∧ sound F' ∧ transacted F expected records F').
Proof.
  intros Hs HRF Hids HR. pose proof (sound_named _ Hs) as Hn.
  eapply keeps_bind; [apply keeps_sync; at_files F|]. intros u.
  eapply keeps_bind; [by apply keeps_recover_at|]. intros u1.
  eapply keeps_bind; [by apply keeps_check_files|]. intros u2.
  eapply keeps_bind; [by apply keeps_read_stored|]. intros listed. apply keeps_pure. intros Hst. cbv zeta.
  eapply keeps_bind with (Q := λ _ d, ended F d ∧ ∀ i h, (i, Some h) ∈ in_order expected →
       ∃ b, F !! recommendation_filename i = Some b ∧ sha256_hex b = h).
  { eapply keeps_bind; [by apply keeps_hashes|]. intros u3.
    branch Hv; [by apply keeps_ret|]. apply keeps_fail. intros d [Hd _]. by apply (ended_good F). }
  intros u3. apply keeps_pure. intros Hexp.
  eapply keeps_bind; [by apply (keeps_result F)|]. intros []. apply keeps_pure. intros Hsize%ensure_Ok.
  eapply keeps_bind; [by apply (keeps_result F)|]. intros u4. apply keeps_pure. intros _.
  eapply keeps_bind; [by apply (keeps_result F)|]. intros []. apply keeps_pure. intros Hk.
  apply Nat.eqb_eq, records_size in Hsize.
  assert (Hkept : ∀ r, holds F r → ∃ r', r' ∈ records ∧ id r' = id r
    ∧ (settled_status (status r) = true → canonical r' = canonical r)).
  { intros r Hh. pose proof Hh as (Hv & b & Hb & _).
    pose proof (proj2 (stored_lookup F listed (id r) (mkStored r b) Hn Hst) (conj eq_refl (conj Hh Hb))) as Hl.
    destruct (check_kept_Ok _ _ Hk (id r, r)) as (y & Hy & Hsame); [apply in_order_elem; cbn; by rewrite lookup_fmap, Hl|].
    apply by_id_of_id in Hy as [Hy Hyi]. exists y. split; [done|]. split; [done|].
    intros Hset. by apply same_record_canonical, Hsame. }
  set (reps := map_imap (replacement_of render (by_record_id listed)) (by_id_of records)).
  assert (Hw : record_writes F (in_order reps)).
  { by apply apply_writes. }
  assert (Htx : transacted F expected records (replaced F (in_order reps))).
  { split.
    - apply (replaced_records F listed); try done. intros r Hh. destruct (Hkept r Hh) as (r' & Hr' & <- & _).
      by apply list_elem_of_fmap_2.
    - intros i h Hi. apply Hexp. by apply in_order_elem.
    - intros r Hh. destruct (Hkept r Hh) as (r' & Hr' & <- & _). by apply list_elem_of_fmap_2.
    - intros r Hh Hset. destruct (Hkept r Hh) as (r' & Hr' & Hi & Hc). exists r'. by rewrite Hc. }
  eapply keeps_weaken; [apply (keeps_commit_at F); [done|done|by left|by apply HR]|done|done|].
  intros u5 d [Hd Hs']. by exists (replaced F (in_order reps)).
Qed.

(** Operations that delete. *)
Lemma keeps_delete (HR : ∀ F F', R F → R F') doomed :
  keeps good good (delete_records evidence_json action_json sha256_hex parse doomed) (λ _, good).
Proof.
  eapply keeps_bind; [by apply keeps_sync|]. intros u.
  eapply keeps_bind; [apply keeps_recover|]. intros u'. apply keeps_at_rest. intros F Hs HRF.
  eapply keeps_bind; [by apply keeps_read_stored|]. intros listed. apply keeps_pure. intros Hst.
  eapply keeps_bind; [by apply (keeps_result F)|]. intros u2. apply keeps_pure. intros _.
  unfold delete_graph_records. set (gone := deletion_graph_ids _ _).
  eapply keeps_bind; [by apply keeps_read_stored|]. intros listed'. apply keeps_pure. intros Hst'. cbv zeta.
  eapply keeps_weaken; [apply (keeps_commit_at F); [done|done|left|by apply (HR F)]|done|done|].
  - apply writes_intro. intros i rep Hl. apply lookup_fmap_Some in Hl as (s & <- & Hf).
    apply map_lookup_filter_Some in Hf as [Hf _].
    apply (stored_lookup F) in Hf as (<- & Hh & Hb); [|apply Hs|done]. by split; [apply Hh|].
  - intros u3 d [Hd Hs']. eapply ended_good; [exact Hs'| |exact Hd]. by apply (HR F).
Qed.

(** *** Any operation *)

Lemma keeps_drop {A : Type} (m : IO A) : keeps good good m (λ _, good) → keeps good good (drop m) (λ _, good).
Proof. intros H. eapply keeps_bind; [exact H|]. intros a. by apply keeps_ret. Qed.
(** What [list_with_hashes] answers. *)
Definition answer (F : gmap (list Z) (list Z)) : option (list Recommendation * gmap (list Z) (list Z)) :=
  match stored_of F with
  | Ok stored =>
      let sorted := sort_by list_leb stored in
      Some (records_of sorted, stored_hash sha256_hex <$> by_record_id sorted)
  | Err _ => None
  end.
Definition listed (l : list Recommendation * gmap (list Z) (list Z)) d : Prop :=
  ∃ F, ended F d ∧ sound F ∧ R F ∧ answer F = Some l ∧ NoDup (id <$> l.1) ∧ (∀ r, r ∈ l.1 ↔ holds F r)
    ∧ (∀ i h, l.2 !! i = Some h ↔
         ∃ r b, holds F r ∧ id r = i ∧ F !! recommendation_filename i = Some b ∧ h = sha256_hex b).
(** What is left to do once the store is recovered. *)
Lemma keeps_list_rest {g : bool} F :
  sound F → R F →
  keeps_in g good (ended F)
    (stored ← read_all_stored evidence_json action_json sha256_hex parse;
     _ ← of_result (check_graph sha256_hex (records_of stored));
     let sorted := sort_by list_leb stored in
     ret (records_of sorted, stored_hash sha256_hex <$> by_record_id sorted))
    (λ l d, ended F d ∧ listed l d).
Proof.
  intros Hs HRF.
  eapply keeps_bind; [by apply keeps_read_stored|]. intros stored. apply keeps_pure. intros Hst.
  eapply keeps_bind; [by apply (keeps_result F)|]. intros u2. apply keeps_pure. intros _. cbv zeta.
  apply keeps_ret. intros d Hd. split; [done|]. exists F. pose proof (sound_named _ Hs) as Hn.
  assert (Hp : records_of (sort_by list_leb stored) ≡ₚ records_of stored).
  { unfold records_of. by rewrite sort_by_perm. }
  split; [done|]. split; [done|]. split; [done|]. cbn [fst snd]. split; [|split; [|split]].
  - unfold answer. by rewrite Hst.
  - rewrite Hp. by apply (stored_ids F).
  - intros r. rewrite Hp. by apply stored_record.
  - intros i h. rewrite (by_record_id_perm _ stored); [|by apply (stored_ids F)|by rewrite sort_by_perm].
    rewrite lookup_fmap_Some. split.
    + intros (s & <- & Hl). apply (stored_lookup F) in Hl as (Hi & Hh & Hb); [|done..]. by eexists _, _.
    + intros (r & b & Hh & Hi & Hb & ->). exists (mkStored r b). split; [done|]. by apply (stored_lookup F).
Qed.
Lemma keeps_list :
  keeps good good (list_with_hashes evidence_json action_json sha256_hex parse) listed.
Proof.
  eapply keeps_bind; [by apply keeps_sync|]. intros u.
  eapply keeps_bind; [apply keeps_recover|]. intros u'. apply keeps_at_rest. intros F Hs HRF.
  eapply keeps_weaken; [by apply keeps_list_rest|done|done|by intros l d [_ ?]].
Qed.
Lemma keeps_list_ended {g : bool} F :
  sound F → R F →
  keeps_in g good (ended F) (list_with_hashes evidence_json action_json sha256_hex parse)
    (λ l d, ended F d ∧ listed l d).
Proof.
  intros Hs HRF. eapply keeps_bind; [apply keeps_sync; intros d; by apply ended_good|]. intros u.
  eapply keeps_bind; [by apply keeps_recover_at|]. intros u'. by apply keeps_list_rest.
Qed.
Lemma succeeds_recover :
  succeeds good recover (λ _, at_rest).
Proof.
  apply (succeeds_keeps good); [|apply keeps_recover].
  intros d (F & rs & Hp & Hc & Hs & _).
  destruct (succeeds_recover_transactions sha256_hex validate_files F rs Hp (sound_valid _ Hs) d Hc) as (u & d' & Hr & _).
  by exists u, d'.
Qed.
Lemma succeeds_list :
  succeeds good (list_with_hashes evidence_json action_json sha256_hex parse) listed.
Proof.
  apply (succeeds_keeps good); [|apply keeps_list].
  eapply succeeds_bind; [apply succeeds_sync|]. intros u.
  eapply succeeds_bind; [apply succeeds_recover|]. intros u'. apply succeeds_exists. intros F.
  intros d (Hd & Hs & HRF). destruct (sound_stored F Hs) as (stored & Hst & Hg).
  destruct Hd as [Ht <-]. exists (records_of (sort_by list_leb stored),
    stored_hash sha256_hex <$> by_record_id (sort_by list_leb stored)), d.
  split; [|done]. unfold runs, read_all_stored, mbind, M_bind, bind, read, of_result, ret. cbn.
  rewrite Hst. cbn. unfold check_graph. apply validate_exact in Hg. by rewrite Hg.
Qed.

(** The records of a transaction have names that are safe; other operations have no
    demands. *)
Definition wanted (o : Operation) : Prop :=
  match o with Apply _ records => ∀ r, r ∈ records → valid_id (id r) = true | _ => True end.
Definition deletes (o : Operation) : bool :=
  match o with DeleteSession _ | ScrubOrphans _ => true | _ => false end.
Abbreviation run := (run evidence_json action_json sha256_hex parse render).
Abbreviation history := (history evidence_json action_json sha256_hex parse render).

Lemma keeps_open : keeps good good (open_store evidence_json action_json sha256_hex parse) (λ _, good).
Proof.
  eapply keeps_bind; [by apply keeps_sync|]. intros u.
  eapply keeps_bind; [apply keeps_recover|]. intros u'. apply keeps_at_rest. intros F Hs HRF.
  eapply keeps_weaken; [by apply (keeps_check_files F)|done|done|]. intros u2 d Hd. by apply (ended_good F).
Qed.
Lemma keeps_get_op i : keeps good good (get evidence_json action_json sha256_hex parse i) (λ _, good).
Proof.
  eapply keeps_bind; [by apply keeps_sync|]. intros u.
  eapply keeps_weaken; [apply keeps_get_good|done|done|]. intros o d (F & Hd & Hs & HRF & _). by apply (ended_good F).
Qed.
Lemma listed_good l d : listed l d → good d.
Proof. intros (F & Hd & Hs & HRF & _). by apply (ended_good F). Qed.
Lemma keeps_run o :
  (∀ F F', R F → kept_final F F' → R F') → wanted o → deletes o = false → keeps good good (run o) (λ _, good).
Proof.
  intros HR Hw Hd. destruct o; try done; cbn.
  1: apply keeps_open.
  all: try (apply keeps_drop).
  - eapply keeps_weaken; [apply keeps_list|done|done|]. apply listed_good.
  - apply keeps_get_op.
  - by apply keeps_dismiss.
  - by apply keeps_begin.
  - by apply keeps_begin_checked.
  - by apply keeps_complete_execution.
  - by apply keeps_cancel.
  - by apply keeps_replace_packet.
  - by apply keeps_recover_orphans.
  - by apply keeps_apply.
  - by apply keeps_report.
  - by apply keeps_complete_reported.
Qed.
Lemma keeps_run_any o : (∀ F F', R F → R F') → wanted o → keeps good good (run o) (λ _, good).
Proof.
  intros HR Hw. destruct (deletes o) eqn:Hd; [|apply keeps_run; [naive_solver|done..]].
  destruct o; try done; by apply keeps_delete.
Qed.
Lemma history_good steps d :
  (∀ step, step ∈ steps → sighted step.2 ∧ keeps good good (run step.1) (λ _, good)) → good d → good (history d steps).
Proof.
  revert d. induction steps as [|[o os] steps IH]; intros d H Hd; [done|]. cbn.
  apply IH; [intros; apply H; by right|].
  destruct (H (o, os) ltac:(by left)) as [Ho Hk]. pose proof (keeps_exit _ _ _ _ d os Hk (λ _, Ho) Hd) as Hr. cbn in Hr.
  by destruct (run o d os) as [[[[a|e]|] d'] os'].
Qed.
End keeping.
Lemma good_mono (R R' : gmap (list Z) (list Z) → Prop) d : (∀ F, R F → R' F) → good R d → good R' d.
Proof.
  intros H (F & rs & Hp & Hc & Hs & HR & Hn). exists F, rs. repeat (split; [by auto|]).
  intros Hv. by destruct (Hn Hv); auto.
Qed.

(** ** Reading again *)

Section again.
Ltac at_files F := by intros; apply (ended_good (λ _, True) F).
Ltac check_step F H := branch H; [apply keeps_fail; at_files F|]; apply negb_false_iff in H.
Abbreviation good := (good (λ _, True)).
Abbreviation get_current := (get_current evidence_json action_json sha256_hex parse).

Lemma runs_bind {A B : Type} (m : IO A) (f : A → IO B) d a d' (x : result StoreError B) d'' :
  runs m d (Ok a) d' → runs (f a) d' x d'' → runs (m ≫= f) d x d''.
Proof. unfold runs. intros H H'. unfold mbind, M_bind, bind. by rewrite H. Qed.
Lemma runs_recover F d :
  sound F → ended F d →
  ∃ d', runs (recover evidence_json action_json sha256_hex parse) d (Ok tt) d' ∧ ended F d'.
Proof.
  intros Hs Hd.
  destruct (succeeds_recover (λ _, True) d) as ([] & d' & Hr & _); [by apply (ended_good (λ _, True) F)|].
  exists d'. split; [done|]. pose proof (keeps_exit _ _ _ _ d [] (recover_ended sha256_hex validate_files F) (admits_nil true) Hd) as Hk.
  unfold runs, recover in Hr. by rewrite Hr in Hk.
Qed.
Lemma runs_get F d r :
  sound F → ended F d → holds F r → ∃ d', runs (get_current (id r)) d (Ok (Some r)) d' ∧ ended F d'.
Proof.
  intros Hs Hd Hh. destruct (runs_recover F d Hs Hd) as (d' & Hr & Hd'). exists d'. split; [|done].
  pose proof Hh as (Hv & b & Hb & Hp). pose proof (sound_record F r Hs Hh) as Hok. destruct Hd' as [_ Hf].
  eapply runs_bind; [exact Hr|].
  eapply (runs_bind _ _ d' tt d').
  { unfold runs, check_files, validate_graph, mbind, M_bind, bind, read, of_result. cbn.
    by rewrite Hf, (sound_valid _ Hs). }
  rewrite Hv. cbn [negb]. unfold runs, mbind, M_bind, bind, read, of_result, ret. cbn.
  rewrite Hf, Hb. unfold read_bytes. rewrite Hp. cbn. by rewrite Hok.
Qed.

Definition completed_with F (m : CompletionMutationRequest) (c : Recommendation) : Prop :=
  sound F ∧ holds F c ∧ status c = Completed ∧ validate_mutation m = Ok tt
  ∧ (access_redacted c = true → is_some (target_session_id c) = true)
  ∧ ∃ p, completion_packet c = Some p ∧ same_packet p m = true
      ∧ completion_idempotency_key p = Some (mutation_idempotency_key m).
Lemma keeps_completed_checked {g : bool} F i at_time m :
  sound F →
  keeps_in g good (ended F)
    (complete_accepted_checked evidence_json action_json sha256_hex parse render i at_time m)
    (λ o d, ∀ c, o = Some c → id c = i ∧ ∃ F', ended F' d ∧ completed_with F' m c).
Proof.
  intros Hs. assert (HRF : (λ _ : gmap (list Z) (list Z), True) F) by done.
  eapply keeps_bind; [apply keeps_sync; at_files F|]. intros u.
  eapply keeps_bind; [by apply (keeps_result (λ _, True) F)|]. intros []. apply keeps_pure. intros Hm.
  assert (Hm' : validate_mutation m = Ok tt) by (unfold graph_invariant in Hm; by destruct (validate_mutation m) as [[]|]).
  clear Hm. eapply keeps_bind; [by apply keeps_get|].
  intros [r|]; apply keeps_pure; intros Hr; [|by apply keeps_ret].
  destruct (proj1 (Hr r) eq_refl) as [Hh Hi]. clear Hr.
  eapply keeps_bind; [by apply (keeps_result (λ _, True) F)|]. intros []. apply keeps_pure. intros Hmut.
  assert (Htarget : access_redacted r = true → is_some (target_session_id r) = true).
  { intros Ha. unfold ensure_mutable in Hmut. rewrite Ha in Hmut. cbn in Hmut.
    destruct (is_some (target_session_id r)); [done|]. by rewrite andb_false_r in Hmut. }
  clear Hmut. destruct (completion_packet r) as [p|] eqn:Hp; [|apply keeps_fail; at_files F]. check_step F Hsame.
  destruct (status r == Completed) eqn:Hst; [apply eqb_elim in Hst|].
  { branch Hk; [|apply keeps_fail; at_files F]. apply eqb_elim in Hk. apply keeps_ret. intros d Hd c [= <-].
    split; [done|]. exists F. split; [done|]. repeat (split; [done|]). by exists p. }
  branch Ha; [apply keeps_fail; at_files F|]. check_step F Hc.
  apply andb_true_iff in Hc as [Hc _]. apply improving in Hc.
  set (r' := move Completed _ _ _ _ _). eapply keeps_weaken; [apply (keeps_edit (λ _, True)) with (r := r); try done|done|done|].
  - by rewrite Hc.
  - touch Hc.
  - intros o d [-> (Hd & Hs' & _)] c [= <-]. split; [done|]. exists (placed r' F). split; [done|]. split; [done|].
    split; [apply holds_placed; [apply Hs|apply Hh|by left]|]. repeat (split; [done|]). by eexists.
Qed.
(** What the operation answers when the record is completed. *)
Lemma runs_completed F d i at_time m m' c :
  completed_with F m c → id c = i → ended F d → validate_mutation m' = Ok tt →
  ∃ d', runs (complete_accepted_checked evidence_json action_json sha256_hex parse render i at_time m') d
          (if bool_decide (m' = m) then Ok (Some c) else Err (StalePacket i)) d'
    ∧ files d' = files d.
Proof.
  intros (Hs & Hh & Hst & _ & Ht & p & Hp & Hsame & Hk) <- Hd Hm.
  destruct (runs_get F d c Hs Hd Hh) as (d' & Hr & Hd'). exists d'.
  split; [|by rewrite (proj2 Hd), (proj2 Hd')].
  eapply (runs_bind _ _ d tt d); [done|].
  eapply (runs_bind _ _ d tt d); [by rewrite Hm|].
  eapply runs_bind; [exact Hr|]. cbn beta iota zeta.
  eapply (runs_bind _ _ d' tt d').
  { unfold ensure_mutable. destruct (access_redacted c); [|done]. by rewrite Ht, Hst. }
  rewrite Hp, Hst. rewrite eqb_refl. unfold same_packet in *.
  apply andb_true_iff in Hsame as [Hrev%Z.eqb_eq Hfp%eqb_elim]. rewrite Hk.
  destruct (decide (m' = m)) as [->|Hne].
  - rewrite bool_decide_eq_true_2 by done. rewrite Hrev, Hfp, Z.eqb_refl, eqb_refl. cbn [andb negb].
    by rewrite eqb_refl.
  - rewrite bool_decide_eq_false_2 by done. case_match eqn:Hq; [done|].
    apply negb_false_iff, andb_true_iff in Hq as [Hrev'%Z.eqb_eq Hfp'%eqb_elim].
    rewrite (proj2 (eqb_false _ _)); [done|]. intros [= Hkey]. apply Hne. destruct m, m'; cbn in *. congruence.
Qed.

(** Either way of reserving a record for a session. *)
Definition reserve (i target started_at : list Z) (by_packet : option (CompletionMutationRequest * list Z))
    : IO (option Recommendation) :=
  match by_packet with
  | None => begin_execution evidence_json action_json sha256_hex parse render i target started_at
  | Some (m, who) =>
      begin_execution_checked evidence_json action_json sha256_hex parse render i target started_at m who
  end.
Definition reserved F i target (r : Recommendation) : Prop :=
  sound F ∧ holds F r ∧ id r = i ∧ status r = Executing ∧ target_session_id r = Some target.
Lemma keeps_reserve {g : bool} F i target at_time by_packet :
  sound F →
  keeps_in g good (ended F) (reserve i target at_time by_packet)
    (λ o d, ∀ r, o = Some r → (∃ r0, holds F r0 ∧ id r0 = i ∧ status r0 = Proposed)
       ∧ ∃ F', ended F' d ∧ reserved F' i target r).
Proof.
  intros Hs. assert (HRF : (λ _ : gmap (list Z) (list Z), True) F) by done.
  assert (Hedit : ∀ r packet, holds F r → id r = i → status r = Proposed →
    keeps_in g good (ended F)
      (let r' := move Executing (Some target) at_time (dismissal_watermark r) packet r in
       _ ← put_current evidence_json action_json sha256_hex parse render r'; ret (Some r'))
      (λ o d, ∀ r, o = Some r → (∃ r0, holds F r0 ∧ id r0 = i ∧ status r0 = Proposed)
       ∧ ∃ F', ended F' d ∧ reserved F' i target r)).
  { intros r packet Hh Hi Hst. cbv zeta. set (r' := move _ _ _ _ _ _).
    eapply keeps_weaken; [apply (keeps_edit (λ _, True)) with (r := r); try done|done|done|].
    - by rewrite Hst.
    - touch Hst.
    - intros o d [-> (Hd & Hs' & _)] x [= <-]. split; [by exists r|]. exists (placed r' F). split; [done|].
      split; [done|]. split; [apply holds_placed; [apply Hs|apply Hh|by left]|done]. }
  assert (Hno : keeps_in g good (λ d, ended F d) (ret None : IO (option Recommendation))
    (λ o d, ∀ r, o = Some r → (∃ r0, holds F r0 ∧ id r0 = i ∧ status r0 = Proposed)
       ∧ ∃ F', ended F' d ∧ reserved F' i target r)) by by apply keeps_ret.
  destruct by_packet as [[m who]|]; cbn [reserve]; (eapply keeps_bind; [apply keeps_sync; at_files F|]; intros u).
  - eapply keeps_bind; [by apply (keeps_result (λ _, True) F)|]. intros u1. apply keeps_pure. intros _.
    eapply keeps_bind; [by apply keeps_get|]. intros [r|]; apply keeps_pure; intros Hr; [|done].
    destruct (proj1 (Hr r) eq_refl) as [Hh Hi].
    eapply keeps_bind; [by apply (keeps_result (λ _, True) F)|]. intros u2. apply keeps_pure. intros _.
    check_step F Hc. apply improving in Hc. destruct (completion_packet r) as [p|]; [|apply keeps_fail; at_files F].
    check_step F Hp. by apply Hedit.
  - eapply keeps_bind; [by apply keeps_get|]. intros [r|]; apply keeps_pure; intros Hr; [|done].
    destruct (proj1 (Hr r) eq_refl) as [Hh Hi].
    eapply keeps_bind; [by apply (keeps_result (λ _, True) F)|]. intros u2. apply keeps_pure. intros _.
    check_step F Hc. apply improving in Hc. by apply Hedit.
Qed.
End again.
End invariant.

(** ** Properties *)

(** C4: the store stays readable.  From sound files, whatever operations follow one
    another, and whatever effect of each fails or is the last before its process stops, if
    no [exists] takes the failure of its call for absence and the ids of the records that
    transactions of the evaluator store are safe names: one [list_with_hashes] without
    faults returns [Ok], and its answer is a valid graph of valid records.  So no dismissal,
    reservation, completion, retraction, report, reset, deletion or transaction of the
    evaluator ever leaves what the store would refuse to read, although an edit of one
    record does not look at the graph. *)
Theorem store_stays_readable evidence_json action_json sha256_hex {Hinj : Inj (=) (=) sha256_hex} parse render
    F d steps :
  (∀ r, parse (render r) = Some r) →
  sound evidence_json action_json sha256_hex parse F → ended F d →
  (∀ step, step ∈ steps → wanted step.1 ∧ sighted step.2) →
  ∃ records hashes d',
    runs (list_with_hashes evidence_json action_json sha256_hex parse)
      (history evidence_json action_json sha256_hex parse render d steps) (Ok (records, hashes)) d'
    ∧ validate_graph_records sha256_hex records = Ok tt
    ∧ ∀ r, r ∈ records → validate_recommendation evidence_json action_json sha256_hex r = Ok tt.
Proof.
  intros Hparse Hs Hd Hw. set (R := λ _ : gmap (list Z) (list Z), True).
  assert (Hg : good evidence_json action_json sha256_hex parse R
                 (history evidence_json action_json sha256_hex parse render d steps)).
  { apply history_good; [|by apply (ended_good _ _ _ _ R F)].
    intros step Hin. destruct (Hw step Hin) as [Hw1 Hw2]. split; [done|].
    apply keeps_run_any; [done|done|by intros; exact I|done]. }
  destruct (succeeds_list evidence_json action_json sha256_hex parse R _ Hg)
    as ([records hashes] & d' & Hr & F' & _ & Hs' & _ & _ & Hn & Hl & _).
  exists records, hashes, d'. split; [exact Hr|]. cbn in Hn, Hl. split.
  - destruct (sound_stored _ _ _ _ F' Hs') as (stored & Hst & Hv). apply validate_exact.
    apply (valid_graph_ext _ (records_of stored)); [done| |done].
    intros r. rewrite Hl. by apply (stored_record evidence_json action_json sha256_hex parse); [apply Hs'|].
  - intros r Hin. apply Hl in Hin. by apply (sound_record evidence_json action_json sha256_hex parse F').
Qed.

(** C24: what is at its end stays.  From sound files, a record that is completed, dismissed,
    superseded, expired or failed is answered unchanged by every later list, after any
    operations with any faults and stops, if none of them deletes the records of a session,
    no [exists] takes the failure of its call for absence, and the ids of the records that
    transactions of the evaluator store are safe names. *)
Theorem final_records_stay evidence_json action_json sha256_hex {Hinj : Inj (=) (=) sha256_hex} parse render
    F d steps r :
  (∀ r, parse (render r) = Some r) →
  sound evidence_json action_json sha256_hex parse F → ended F d →
  (∀ step, step ∈ steps → wanted step.1 ∧ deletes step.1 = false ∧ sighted step.2) →
  holds parse F r → final_status (status r) = true →
  ∃ records hashes d' r',
    runs (list_with_hashes evidence_json action_json sha256_hex parse)
      (history evidence_json action_json sha256_hex parse render d steps) (Ok (records, hashes)) d'
    ∧ r' ∈ records ∧ id r' = id r ∧ canonical r' = canonical r.
Proof.
  intros Hparse Hs Hd Hw Hh Hf. set (R := kept_final parse F).
  assert (Hg : good evidence_json action_json sha256_hex parse R
                 (history evidence_json action_json sha256_hex parse render d steps)).
  { apply history_good; [|by apply (ended_good _ _ _ _ R F); [|apply kept_final_refl|]].
    intros step Hin. destruct (Hw step Hin) as (Hw1 & Hw2 & Hw3). split; [done|]. apply keeps_run; [done|done| |done|done].
    intros F1 F2. apply kept_final_trans. }
  destruct (succeeds_list evidence_json action_json sha256_hex parse R _ Hg)
    as ([records hashes] & d' & Hr & F' & _ & Hs' & HR & _ & _ & Hl & _).
  destruct (HR r Hh Hf) as (r' & Hh' & Hi & Hc). exists records, hashes, d', r'.
  split; [exact Hr|]. split; [by apply Hl|done].
Qed.

(** C13: a completion is counted once.  When a checked completion has returned a record,
    however its effects went, the same request is answered with that very record, and any
    other request as stale; neither changes a file. *)
Theorem completion_idempotent evidence_json action_json sha256_hex {Hinj : Inj (=) (=) sha256_hex} parse render
    F d i completed_at m faults c d1 left_over :
  (∀ r, parse (render r) = Some r) →
  sound evidence_json action_json sha256_hex parse F → ended F d →
  complete_accepted_checked evidence_json action_json sha256_hex parse render i completed_at m d faults
    = (Returned (Ok (Some c)), d1, left_over) →
  ∀ later m', validate_mutation m' = Ok tt →
  ∃ d2,
    runs (complete_accepted_checked evidence_json action_json sha256_hex parse render i later m') d1
      (if bool_decide (m' = m) then Ok (Some c) else Err (StalePacket i)) d2
    ∧ files d2 = files d1.
Proof.
  intros Hparse Hs Hd Hc later m' Hm.
  pose proof (keeps_exit _ _ _ _ d faults (keeps_completed_checked evidence_json action_json sha256_hex parse render Hparse
    F i completed_at m Hs) (admits_any faults) Hd) as Hk.
  rewrite Hc in Hk. destruct (Hk c eq_refl) as (Hi & F' & Hd' & Hw).
  by apply (runs_completed evidence_json action_json sha256_hex parse render F' d1 i later m m' c).
Qed.

(** C14: a transaction of the evaluator does what it was asked and nothing else.  If it
    returns [Ok], whatever failed on the way, the files hold exactly the given records;
    every expected hash was that of the file; no record that was there is left out; and
    what had been accepted, or was at an end, is given unchanged. *)
Theorem graph_transaction_exact evidence_json action_json sha256_hex {Hinj : Inj (=) (=) sha256_hex} parse render
    F d expected records faults d' left_over :
  (∀ r, parse (render r) = Some r) →
  sound evidence_json action_json sha256_hex parse F → ended F d →
  (∀ r, r ∈ records → valid_id (id r) = true) →
  apply_recommendation_graph_transaction evidence_json action_json sha256_hex parse render expected records
    d faults = (Returned (Ok tt), d', left_over) →
  tx d' = None ∧ transacted sha256_hex parse F expected records (files d').
Proof.
  intros Hparse Hs Hd Hids Ha.
  pose proof (keeps_exit _ _ _ _ d faults (keeps_apply_exact evidence_json action_json sha256_hex parse render Hparse
    (λ _, True) F expected records Hs I Hids (λ _ _, I)) (admits_any faults) Hd) as Hk.
  rewrite Ha in Hk. by destruct Hk as (F' & [Ht <-] & _ & Htx).
Qed.

(** C12: a recommendation is delivered to one session.  When an acceptance has reserved a
    record, for a session and with or without a packet, the record is executing for that
    session, and no other acceptance gets it, whatever fails: the second does not answer
    with a record. *)
Theorem delivery_reserved evidence_json action_json sha256_hex {Hinj : Inj (=) (=) sha256_hex} parse render
    F d i target started_at by_packet faults r d1 left_over :
  let reserve := reserve evidence_json action_json sha256_hex parse render in
  (∀ r, parse (render r) = Some r) →
  sound evidence_json action_json sha256_hex parse F → ended F d →
  reserve i target started_at by_packet d faults = (Returned (Ok (Some r)), d1, left_over) →
  (status r = Executing ∧ target_session_id r = Some target ∧ holds parse (files d1) r)
  ∧ ∀ target' later by_packet' faults' r',
      (reserve i target' later by_packet' d1 faults').1.1 ≠ Returned (Ok (Some r')).
Proof.
  intros reserve Hparse Hs Hd Hr.
  pose proof (keeps_reserve evidence_json action_json sha256_hex parse render Hparse (g := false)) as Hk.
  pose proof (keeps_exit _ _ _ _ d faults (Hk F i target started_at by_packet Hs) (admits_any faults) Hd) as H1. unfold reserve in Hr. rewrite Hr in H1.
  destruct (H1 r eq_refl) as (_ & F' & Hd1 & Hs' & Hh & Hi & Hst & Ht).
  split; [by rewrite (proj2 Hd1)|]. intros target' later by_packet' faults' r' H2.
  pose proof (keeps_exit _ _ _ _ d1 faults' (Hk F' i target' later by_packet' Hs') (admits_any faults') Hd1) as H3. unfold reserve in H2.
  destruct (RecommendationStore.reserve _ _ _ _ _ i target' later by_packet' d1 faults') as [[[[o|e]|] d2] os2]; try done.
  cbn in H2. injection H2 as ->. destruct (H3 r' eq_refl) as ((r0 & Hh0 & Hi0 & Hst0) & _).
  assert (r0 = r) as -> by (apply (holds_same parse F'); [done..|congruence]). congruence.
Qed.

(** ** A concrete store *)

(** The texts that are fingerprinted are not told apart, and a digest is its text. *)
Definition sample_evidence_json (e : Evidence) : list Z := repeat 48 64.
Definition sample_action_json (a : CompletionAction) : list Z := prompt a.
Definition sample_sha (bytes : list Z) : list Z := bytes.
Definition sample_packet : CompletionPacket :=
  mkPacket 1 1 (bytes_of "p1") (bytes_of "s1") (bytes_of "t1")
    (mkProvenance (bytes_of "s1") (bytes_of "w") (bytes_of "c1") (bytes_of "t1"))
    (mkSubject (bytes_of "w") (bytes_of "src") (bytes_of "c1") Unambiguous [bytes_of "a.rs"])
    (Some (mkVerification (bytes_of "make") Passed (bytes_of "c1") (bytes_of "t2"))) None [] []
    (mkAction (bytes_of "merge") None (bytes_of "src") UserReview) ReviewReady 1 (repeat 48 64)
    (Some (mkApproval (bytes_of "t4") (bytes_of "user") 1 (repeat 48 64) (bytes_of "merge") (bytes_of "k")))
    None [] None.
Definition sample_record (i : string) (s : RecommendationStatus) (session : option string)
    (packet : option CompletionPacket) : Recommendation :=
  mkRecommendation false (bytes_of i) (bytes_of "w") (bytes_of i) 0 ImproveWorkflow s Medium (bytes_of i)
    [] [] [] [] [] [bytes_of "s1"] (bytes_of <$> session) MediumConfidence false (bytes_of i) (bytes_of "t0")
    (bytes_of "t0") [] Tooling [] 0 [] Medium [] None None packet None [] [] None None.
Definition sample_open : Recommendation := sample_record "a" Proposed None None.
Definition sample_accepted : Recommendation := sample_record "b" Accepted (Some "s9") (Some sample_packet).
Definition sample_final : Recommendation := sample_record "c" Dismissed None None.
Definition sample_place (F : gmap (list Z) (list Z)) (r : Recommendation) : gmap (list Z) (list Z) :=
  <[recommendation_filename (id r) := render_record r]> F.
Definition sample_store : gmap (list Z) (list Z) :=
  fold_left sample_place [sample_open; sample_accepted; sample_final] ∅.
Definition sample_dir : Dir := mkDir sample_store false None.
Definition sample_request (key : string) : CompletionMutationRequest :=
  mkMutation 1 (repeat 48 64) (bytes_of key).
(** A dismissal whose write fails, a reset that stops in its transaction, and a completion
    whose event fails and that stops while it is taken back. *)
Definition sample_steps : list (Operation * list Outcome) :=
  [(Dismiss (bytes_of "a") (bytes_of "t5") None, repeat Works 9 ++ [Fails None]);
   (RecoverOrphans ∅ ∅ (bytes_of "t6"), repeat Works 14 ++ [Stops None]);
   (CompleteReported (bytes_of "b") (bytes_of "s9") (bytes_of "t7") (Some (sample_request "k")),
    repeat Works 33 ++ [Fails None; Works; Works; Works; Stops None])].

Lemma sample_sound : sound sample_evidence_json sample_action_json sample_sha parse_record sample_store.
Proof.
  split; [|vm_compute; reflexivity]. unfold sample_store. cbn [fold_left]. unfold sample_place.
  repeat (apply named_placed; [exact parse_render_record| |vm_compute; reflexivity]).
  intros n b H. by rewrite lookup_empty in H.
Qed.
Lemma sample_inj : Inj (=) (=) sample_sha.
Proof. by intros x y. Qed.

Lemma sample_sighted : Forall (λ step : Operation * list Outcome, sighted step.2) sample_steps.
Proof. apply (bool_decide_unpack _). vm_compute. exact I. Qed.

Lemma store_stays_readable_witness :
  ∃ records hashes d',
    runs (list_with_hashes sample_evidence_json sample_action_json sample_sha parse_record)
      (history sample_evidence_json sample_action_json sample_sha parse_record render_record sample_dir
         sample_steps) (Ok (records, hashes)) d'
    ∧ validate_graph_records sample_sha records = Ok tt
    ∧ ∀ r, r ∈ records → validate_recommendation sample_evidence_json sample_action_json sample_sha r = Ok tt.
Proof.
  apply (store_stays_readable sample_evidence_json sample_action_json sample_sha (Hinj := sample_inj) parse_record
    render_record sample_store sample_dir sample_steps).
  - exact parse_render_record.
  - exact sample_sound.
  - split; reflexivity.
  - intros step H. split; [|by apply (proj1 (Forall_forall _ _) sample_sighted)].
    repeat (apply elem_of_cons in H as [->|H]; [exact I|]). by apply elem_of_nil in H.
Defined.
Lemma final_records_stay_witness :
  ∃ records hashes d' r',
    runs (list_with_hashes sample_evidence_json sample_action_json sample_sha parse_record)
      (history sample_evidence_json sample_action_json sample_sha parse_record render_record sample_dir
         sample_steps) (Ok (records, hashes)) d'
    ∧ r' ∈ records ∧ id r' = id sample_final ∧ canonical r' = canonical sample_final.
Proof.
  apply (final_records_stay sample_evidence_json sample_action_json sample_sha (Hinj := sample_inj) parse_record
    render_record sample_store sample_dir sample_steps sample_final).
  - exact parse_render_record.
  - exact sample_sound.
  - split; reflexivity.
  - intros step H. assert (Hs : sighted step.2) by by apply (proj1 (Forall_forall _ _) sample_sighted).
    repeat (apply elem_of_cons in H as [->|H]; [split; [exact I|split; [reflexivity|exact Hs]]|]). by apply elem_of_nil in H.
  - split; [reflexivity|]. exists (render_record sample_final). split; [vm_compute; reflexivity|apply parse_render_record].
  - reflexivity.
Defined.

Definition sample_completion :=
  complete_accepted_checked sample_evidence_json sample_action_json sample_sha parse_record render_record
    (bytes_of "b") (bytes_of "t6") (sample_request "k") sample_dir [].
Definition sample_completed : Recommendation :=
  move Completed (Some (bytes_of "s9")) (bytes_of "t6") None
    (Some (approve (approval sample_packet) (Some (bytes_of "k")) sample_packet)) sample_accepted.
Lemma completion_idempotent_witness :
  ∃ d2,
    runs (complete_accepted_checked sample_evidence_json sample_action_json sample_sha parse_record render_record (bytes_of "b") (bytes_of "t7") (sample_request "other")) sample_completion.1.2
      (Err (StalePacket (bytes_of "b"))) d2
    ∧ files d2 = files sample_completion.1.2.
Proof.
  apply (completion_idempotent sample_evidence_json sample_action_json sample_sha (Hinj := sample_inj) parse_record
    render_record sample_store sample_dir (bytes_of "b") (bytes_of "t6") (sample_request "k") [] sample_completed
    sample_completion.1.2 [] parse_render_record sample_sound) with (m' := sample_request "other").
  - split; reflexivity.
  - vm_compute. reflexivity.
  - vm_compute. reflexivity.
Defined.

Definition sample_reservation :=
  reserve sample_evidence_json sample_action_json sample_sha parse_record render_record (bytes_of "a")
    (bytes_of "s7") (bytes_of "t5") None sample_dir [].
Lemma delivery_reserved_witness :
  (reserve sample_evidence_json sample_action_json sample_sha parse_record render_record (bytes_of "a")
     (bytes_of "s8") (bytes_of "t6") None sample_reservation.1.2 []).1.1
  ≠ Returned (Ok (Some (move Executing (Some (bytes_of "s8")) (bytes_of "t6") None None sample_open))).
Proof.
  apply (delivery_reserved sample_evidence_json sample_action_json sample_sha (Hinj := sample_inj) parse_record
    render_record sample_store sample_dir (bytes_of "a") (bytes_of "s7") (bytes_of "t5") None []
    (move Executing (Some (bytes_of "s7")) (bytes_of "t5") None None sample_open) sample_reservation.1.2 []).
  - exact parse_render_record.
  - exact sample_sound.
  - split; reflexivity.
  - vm_compute. reflexivity.
Defined.

(** The evaluator updates the open record. *)
Definition sample_next : list Recommendation :=
  [move Proposed None (bytes_of "t8") None None sample_open; sample_accepted; sample_final].
Definition sample_expected : gmap (list Z) (option (list Z)) :=
  {[bytes_of "a" := Some (sample_sha (render_record sample_open))]}.
Definition sample_applied :=
  apply_recommendation_graph_transaction sample_evidence_json sample_action_json sample_sha parse_record
    render_record sample_expected sample_next sample_dir [].
Lemma graph_transaction_exact_witness :
  tx sample_applied.1.2 = None
  ∧ transacted sample_sha parse_record sample_store sample_expected sample_next (files sample_applied.1.2).
Proof.
  apply (graph_transaction_exact sample_evidence_json sample_action_json sample_sha (Hinj := sample_inj) parse_record
    render_record sample_store sample_dir sample_expected sample_next [] sample_applied.1.2 []).
  - exact parse_render_record.
  - exact sample_sound.
  - split; reflexivity.
  - intros r H. repeat (apply elem_of_cons in H as [->|H]; [reflexivity|]). by apply elem_of_nil in H.
  - vm_compute. reflexivity.
Defined.
