(* ===== verification/TerminalText.v ===== *)
(** * Terminal output as text

    The text half of [peon.rs]: ANSI sequences are stripped from output, the raw
    buffer of the capacity scan is trimmed without cutting a character or an escape
    sequence, and rows that the terminal wrapped are joined to logical lines.  The
    stripping works on characters, the trimming on the bytes of the same text
    ([encode]).  The main theorems: no control sequence survives stripping; what a
    trimmed buffer reads is a suffix of what the whole one reads; a stream of rows
    may be cut into chunks anywhere. *)
From S2P Require Export Utf8.

Definition ESC : Z := 0x1b.
Definition BEL : Z := 0x07.
Definition LF : Z := 0x0a.
Definition SP : Z := 0x20.

(** ** Stripping

    The iterator over the characters is the list of those that are left; a
    function that consumes some returns what it pushed and the rest. *)

Definition ascii (s : string) : list Z := bytes_of s.
#[global] Arguments ascii : simpl never.

(** The loop of a control sequence: its final character, NUL at the end of the text. *)
Fixpoint csi_final (cs : list Z) : Z * list Z :=
  match cs with
  | [] => (0, [])
  | c2 :: cs => if between 0x40 0x7e c2 then (c2, cs) else csi_final cs
  end.

Definition csi_out (cursor_row_boundaries : bool) (final : Z) : list Z :=
  if cursor_row_boundaries && existsb (eqb final) (ascii "ABEFHdf") then [LF]
  else if existsb (eqb final) (ascii "ABCDEFGHdfsu") then [SP]
  else [].

Definition string_kinds : list Z := ascii "PX^_".

Fixpoint strip_ansi_escape (rows : bool) (cs : list Z) : list Z * list Z :=
  match cs with
  | [] => ([], [])
  | c :: cs =>
      if c =? 0x5b then let '(final, rest) := csi_final cs in (csi_out rows final, rest)
      else if c =? 0x5d then osc_loop rows cs
      else if existsb (eqb c) string_kinds then dcs_loop rows cs
      else if existsb (eqb c) (ascii "O()%") then ([], tail cs)
      else ([], cs)
  end
with osc_loop (rows : bool) (cs : list Z) : list Z * list Z :=
  match cs with
  | [] => ([], [])
  | c :: cs =>
      if c =? BEL then ([], cs)
      else if c =? ESC then
        match cs with
        | c' :: cs' => if c' =? 0x5c then ([], cs') else strip_ansi_escape rows cs
        | [] => strip_ansi_escape rows cs
        end
      else osc_loop rows cs
  end
with dcs_loop (rows : bool) (cs : list Z) : list Z * list Z :=
  match cs with
  | [] => ([], [])
  | c :: cs =>
      if c =? ESC then
        match cs with
        | c' :: cs' => if c' =? 0x5c then ([], cs') else strip_ansi_escape rows cs
        | [] => strip_ansi_escape rows cs
        end
      else dcs_loop rows cs
  end.

(** The loop of [strip_ansi_with_cursor_mode]; every round takes a character. *)
Fixpoint strip_loop (rows : bool) (fuel : nat) (cs : list Z) : list Z :=
  match fuel, cs with
  | S fuel, c :: cs =>
      if negb (c =? ESC) then c :: strip_loop rows fuel cs
      else let '(out, rest) := strip_ansi_escape rows cs in out ++ strip_loop rows fuel rest
  | _, _ => []
  end.
Definition strip_ansi_with_cursor_mode (s : list Z) (cursor_row_boundaries : bool) : list Z :=
  strip_loop cursor_row_boundaries (length s) s.
Definition strip_ansi (s : list Z) : list Z := strip_ansi_with_cursor_mode s false.
Definition strip_ansi_for_usage_limit (s : list Z) : list Z := strip_ansi_with_cursor_mode s true.

(** ** Trimming the scan buffer *)

Definition MAX_INCOMPLETE_ANSI_BYTES : nat := 1024.

Definition ansi_char_end (input : list Z) (start : nat) : option nat :=
  rest ← get_from input start;
  character ← head (chars_of rest);
  Some (start + len_utf8 character)%nat.

Fixpoint csi_end (bytes : list Z) (offset : nat) : option nat :=
  match bytes with
  | [] => None
  | byte :: bytes =>
      if between 0x40 0x7e byte then Some (offset + 1)%nat else csi_end bytes (offset + 1)
  end.
Fixpoint string_end (bytes : list Z) (offset : nat) : option nat :=
  match bytes with
  | [] => None
  | byte :: bytes =>
      if byte =? BEL then Some (offset + 1)%nat
      else if byte =? ESC then
        match bytes with
        | next :: _ => if next =? 0x5c then Some (offset + 2)%nat else Some offset
        | [] => None
        end
      else string_end bytes (offset + 1)
  end.

Definition ansi_sequence_end (input : list Z) (start : nat) : option nat :=
  if input !! start != Some ESC then Some (start + 1)%nat
  else
    kind ← input !! (start + 1)%nat;
    if kind =? 0x5b then csi_end (drop (start + 2) input) (start + 2)
    else if (kind =? 0x5d) || existsb (eqb kind) string_kinds
      then string_end (drop (start + 2) input) (start + 2)
    else if existsb (eqb kind) (ascii "O()%") then ansi_char_end input (start + 2)
    else ansi_char_end input (start + 1).

(** The step over a character that does not begin an escape sequence. *)
Definition char_step (input : list Z) (offset : nat) : nat :=
  default 1%nat (len_utf8 <$> (get_from input offset ≫= λ rest, head (chars_of rest))).

Fixpoint safe_drop_loop (fuel : nat) (input : list Z) (requested_drop offset : nat) : nat :=
  match fuel with
  | O => requested_drop
  | S fuel =>
      if (offset <? requested_drop)%nat then
        if input !! offset == Some ESC then
          match ansi_sequence_end input offset with
          | Some e =>
              if (e <=? requested_drop)%nat then safe_drop_loop fuel input requested_drop e else e
          | None =>
              if (MAX_INCOMPLETE_ANSI_BYTES <? length input - offset)%nat
              then requested_drop else offset
          end
        else safe_drop_loop fuel input requested_drop (offset + char_step input offset)
      else requested_drop
  end.
Definition safe_ansi_drop_offset (input : list Z) (requested_drop : nat) : nat :=
  safe_drop_loop (S requested_drop) input requested_drop 0.

(** The loop that moves the requested offset to the next character boundary. *)
Fixpoint boundary_from (fuel : nat) (s : list Z) (i : nat) : nat :=
  match fuel with
  | O => i
  | S fuel =>
      if (i <? length s)%nat && negb (is_char_boundary s i) then boundary_from fuel s (i + 1) else i
  end.

Definition truncate_usage_scan_buffer (scan_buf : list Z) (max_bytes : nat) : list Z :=
  if (length scan_buf <=? max_bytes)%nat then scan_buf
  else if (max_bytes =? 0)%nat then []
  else
    let requested_drop := boundary_from (length scan_buf) scan_buf (length scan_buf - max_bytes) in
    drop (safe_ansi_drop_offset scan_buf requested_drop) scan_buf.

(** ** Joining wrapped rows *)

(** The loop over the rows: the accumulated line and whether its last row was full. *)
Fixpoint rejoin_loop (cols : nat) (rows : list (list Z)) (current : option (list Z))
    (last_row_full_width : bool) : list (list Z) * (option (list Z) * bool) :=
  match rows with
  | [] => ([], (current, last_row_full_width))
  | row :: rows =>
      match row with
      | [] => rejoin_loop cols rows current last_row_full_width
      | _ :: _ =>
          let full := (cols <=? length row)%nat in
          match current with
          | Some previous =>
              if last_row_full_width then rejoin_loop cols rows (Some (previous ++ row)) full
              else let '(result, st) := rejoin_loop cols rows (Some row) full in
                   (previous :: result, st)
          | None => rejoin_loop cols rows (Some row) full
          end
      end
  end.

(** What is still open stays pending if its last row was full, else it is a line. *)
Definition rejoin_finish (r : list (list Z) * (option (list Z) * bool))
    : option (list Z) * list (list Z) :=
  let '(result, (current, full)) := r in
  match current with
  | Some previous => if full : bool then (Some previous, result) else (None, result ++ [previous])
  | None => (None, result)
  end.

Definition rejoin_hard_wrapped_rows_streaming (pending : option (list Z)) (rows : list (list Z))
    (cols : nat) : option (list Z) * list (list Z) :=
  if (cols =? 0)%nat then (pending, rows)
  else rejoin_finish (rejoin_loop cols rows pending (is_some pending)).

Definition rejoin_hard_wrapped_lines (lines : list (list Z)) (cols : nat) : list (list Z) :=
  let '(pending, result) := rejoin_hard_wrapped_rows_streaming None lines cols in
  result ++ option_list pending.

(** ** What stripping leaves *)

(** Both modes consume the same characters of [cs]; what they push is nothing, or
    one separator for at least one consumed character. *)
Definition sep_out (o1 o2 : list Z) : Prop :=
  (o1 = [] ∧ o2 = []) ∨ (o2 = [SP] ∧ (o1 = [LF] ∨ o1 = [SP])).
Definition consumes (cs : list Z) (r1 r2 : list Z * list Z) : Prop :=
  ∃ skipped, cs = skipped ++ r1.2 ∧ r2.2 = r1.2 ∧ sep_out r1.1 r2.1
    ∧ (r1.1 ≠ [] → skipped ≠ []).

Lemma consumes_nothing cs skipped rest : cs = skipped ++ rest → consumes cs ([], rest) ([], rest).
Proof. intros ->. exists skipped. repeat split; auto. by left. Qed.
Lemma consumes_cons c cs r1 r2 : consumes cs r1 r2 → consumes (c :: cs) r1 r2.
Proof. intros (sk & -> & ? & ? & ?). exists (c :: sk). by repeat split. Qed.

Lemma csi_final_suffix cs : ∃ skipped, cs = skipped ++ (csi_final cs).2.
Proof.
  induction cs as [|c cs [sk IH]]; simpl; [by exists []|].
  case_match; [by exists [c]|]. exists (c :: sk). by rewrite IH at 1.
Qed.

Lemma csi_out_sep final : sep_out (csi_out true final) (csi_out false final).
Proof.
  unfold csi_out, sep_out. rewrite andb_true_l, andb_false_l. cbv iota.
  destruct (existsb (eqb final) (ascii "ABEFHdf")) eqn:E; [|by destruct (existsb _ (ascii "ABCDEFGHdfsu")); auto].
  right. split; [|by left]. apply existsb_exists in E as (x & Hx & ->%eqb_elim).
  vm_compute in Hx. by repeat destruct Hx as [<-|Hx].
Qed.

Lemma strip_consumes n cs :
  (length cs <= n)%nat →
  consumes cs (strip_ansi_escape true cs) (strip_ansi_escape false cs)
  ∧ consumes cs (osc_loop true cs) (osc_loop false cs)
  ∧ consumes cs (dcs_loop true cs) (dcs_loop false cs).
Proof.
  revert cs. induction n as [|n IH]; intros [|c cs] Hn; simpl in Hn;
    try lia; try (split_and!; by apply (consumes_nothing [] [])).
  destruct (IH cs ltac:(lia)) as (He & Ho & Hd). cbn [strip_ansi_escape osc_loop dcs_loop].
  assert (Hst : consumes (c :: cs)
    match cs with
    | c' :: cs' => if c' =? 0x5c then ([], cs') else strip_ansi_escape true cs
    | [] => strip_ansi_escape true cs end
    match cs with
    | c' :: cs' => if c' =? 0x5c then ([], cs') else strip_ansi_escape false cs
    | [] => strip_ansi_escape false cs end).
  { destruct cs as [|c' cs']; [by apply consumes_cons|].
    case_match; [by apply (consumes_nothing _ [c; c'])|by apply consumes_cons]. }
  split_and!.
  - destruct (c =? 0x5b).
    { destruct (csi_final_suffix cs) as [sk Hsk]. destruct (csi_final cs) as [final rest].
      exists (c :: sk). simpl in *. split_and!; try done; [by rewrite Hsk at 1|apply csi_out_sep]. }
    destruct (c =? 0x5d); [by apply consumes_cons|].
    destruct (existsb (eqb c) string_kinds); [by apply consumes_cons|].
    destruct (existsb (eqb c) (ascii "O()%")).
    + destruct cs as [|c' cs]; [by apply (consumes_nothing _ [c])|].
      by apply (consumes_nothing _ [c; c']).
    + by apply (consumes_nothing _ [c]).
  - destruct (c =? BEL); [by apply (consumes_nothing _ [c])|].
    destruct (c =? ESC); [done|by apply consumes_cons].
  - destruct (c =? ESC); [done|by apply consumes_cons].
Qed.

Lemma escape_consumes cs :
  consumes cs (strip_ansi_escape true cs) (strip_ansi_escape false cs).
Proof. apply (strip_consumes (length cs)). done. Qed.

Lemma consumes_facts cs r1 r2 r :
  consumes cs r1 r2 → r = r1 ∨ r = r2 →
  (length r.1 + length r.2 <= length cs)%nat ∧ Forall (λ c, c = SP ∨ c = LF) r.1.
Proof.
  intros (sk & -> & H2 & Hs & Hne) Hr. rewrite length_app.
  assert (Hr2 : r.2 = r1.2) by (destruct Hr; congruence). rewrite Hr2.
  destruct Hs as [[Ha Hb]|[Hb Ha]].
  { assert (r.1 = []) as -> by (destruct Hr; congruence). simpl. split; [lia|constructor]. }
  assert (Hx : ∃ x, r.1 = [x] ∧ (x = SP ∨ x = LF)) by (destruct Hr as [->| ->], Ha; eauto).
  assert (sk ≠ []) by (apply Hne; destruct Ha; congruence).
  destruct Hx as (x & -> & Hx), sk; [done|]. simpl. split; [lia|by constructor].
Qed.
Lemma escape_facts rows cs out rest :
  strip_ansi_escape rows cs = (out, rest) →
  (length out + length rest <= length cs)%nat ∧ Forall (λ c, c = SP ∨ c = LF) out.
Proof.
  intros E. apply (consumes_facts cs _ _ (out, rest) (escape_consumes cs)).
  destruct rows; rewrite E; auto.
Qed.

(** The fuel of the loop never runs out. *)
Lemma strip_loop_fuel rows fuel cs :
  (length cs <= fuel)%nat → strip_loop rows fuel cs = strip_ansi_with_cursor_mode cs rows.
Proof.
  unfold strip_ansi_with_cursor_mode. revert cs.
  assert (H : ∀ a b cs, (length cs <= a)%nat → (length cs <= b)%nat →
    strip_loop rows a cs = strip_loop rows b cs).
  { induction a as [|a IH]; intros b [|c cs] Ha Hb; simpl in Ha; try lia; [by destruct b..|].
    destruct b as [|b]; simpl in Hb; [lia|]. simpl. destruct (negb _).
    - f_equal. apply IH; lia.
    - destruct (strip_ansi_escape rows cs) as [out rest] eqn:E.
      apply escape_facts in E as [? _]. f_equal. apply IH; lia. }
  intros cs Hf. by apply H.
Qed.

Lemma strip_nil rows : strip_ansi_with_cursor_mode [] rows = [].
Proof. done. Qed.
Lemma strip_char rows c cs :
  c ≠ ESC → strip_ansi_with_cursor_mode (c :: cs) rows = c :: strip_ansi_with_cursor_mode cs rows.
Proof.
  intros Hc. unfold strip_ansi_with_cursor_mode. simpl.
  by rewrite (proj2 (Z.eqb_neq c ESC)).
Qed.
(** What is left after a step: its output, then the rest stripped. *)
Definition finish (rows : bool) (r : list Z * list Z) : list Z :=
  r.1 ++ strip_ansi_with_cursor_mode r.2 rows.
Lemma strip_escape rows cs :
  strip_ansi_with_cursor_mode (ESC :: cs) rows = finish rows (strip_ansi_escape rows cs).
Proof.
  unfold strip_ansi_with_cursor_mode at 1. simpl.
  destruct (strip_ansi_escape rows cs) as [out rest] eqn:E. unfold finish. simpl.
  f_equal. apply strip_loop_fuel. apply escape_facts in E as [? _]. lia.
Qed.

(** Induction on the rounds of the loop. *)
Lemma strip_ind (P : list Z → Prop) :
  P [] → (∀ c cs, c ≠ ESC → P cs → P (c :: cs)) →
  (∀ cs, (∀ rest, (length rest <= length cs)%nat → P rest) → P (ESC :: cs)) → ∀ cs, P cs.
Proof.
  intros Hn Hc He cs. remember (length cs) as n. assert (Hl : (length cs <= n)%nat) by lia.
  clear Heqn. revert cs Hl. induction n as [|n IH]; intros [|c cs] Hl; simpl in Hl; try done; [lia|].
  destruct (decide (c = ESC)) as [->|Hce]; [|apply Hc; [done|apply IH; lia]].
  apply He. intros rest ?. apply IH. lia.
Qed.

Lemma strip_no_escape rows s : ESC ∉ strip_ansi_with_cursor_mode s rows.
Proof.
  induction s as [|c cs Hc IH|cs IH] using strip_ind; [by apply not_elem_of_nil|..].
  - rewrite strip_char by done. by apply not_elem_of_cons.
  - rewrite strip_escape. unfold finish.
    destruct (strip_ansi_escape rows cs) as [out rest] eqn:E. apply escape_facts in E as [Hl Ho].
    simpl. rewrite elem_of_app. intros [He|He]; [|by apply (IH rest ltac:(lia))].
    rewrite Forall_forall in Ho. by destruct (Ho _ He).
Qed.

Lemma strip_length rows s : (length (strip_ansi_with_cursor_mode s rows) <= length s)%nat.
Proof.
  induction s as [|c cs Hc IH|cs IH] using strip_ind; [done|..].
  - rewrite strip_char by done. simpl. lia.
  - rewrite strip_escape. unfold finish.
    destruct (strip_ansi_escape rows cs) as [out rest] eqn:E. apply escape_facts in E as [Hl _].
    simpl. rewrite length_app. specialize (IH rest ltac:(lia)). lia.
Qed.

Lemma strip_modes s :
  Forall2 (λ a b, a = b ∨ (a = LF ∧ b = SP)) (strip_ansi_for_usage_limit s) (strip_ansi s).
Proof.
  unfold strip_ansi_for_usage_limit, strip_ansi.
  induction s as [|c cs Hc IH|cs IH] using strip_ind; [constructor|..].
  - rewrite !strip_char by done. constructor; auto.
  - rewrite !strip_escape. unfold finish.
    destruct (escape_consumes cs) as (sk & Hcs & Hr & Hs & _). rewrite Hr.
    apply Forall2_app.
    + destruct Hs as [[-> ->]|[-> [->| ->]]]; rewrite ?Forall2_cons; auto.
    + apply IH. apply (f_equal length) in Hcs. rewrite length_app in Hcs. lia.
Qed.

Lemma strip_plain rows s : ESC ∉ s → strip_ansi_with_cursor_mode s rows = s.
Proof.
  induction s as [|c s IH]; [done|]. intros [Hc Hs]%not_elem_of_cons.
  rewrite strip_char by done. by rewrite IH.
Qed.

(** ** The two parsers of escape sequences *)

Lemma encode_char_high c :
  is_char c → 0x80 <= c → Forall (λ b, 0x80 <= b) (encode_char c).
Proof.
  intros Hc Hh. destruct (encode_char_shape c Hc) as (b & bs & -> & _ & Hbs & _ & Hb).
  constructor; [by apply Hb|]. eapply Forall_impl; [exact Hbs|]. intros x Hx.
  apply between_true in Hx. lia.
Qed.
Lemma encode_char_ascii c : c < 0x80 → encode_char c = [c].
Proof. intros H. unfold encode_char. by rewrite (proj2 (Z.ltb_lt _ _)). Qed.

Lemma csi_end_skip bs l offset :
  Forall (λ b, 0x80 <= b) bs → csi_end (bs ++ l) offset = csi_end l (offset + length bs).
Proof.
  intros H. revert offset. induction H as [|b bs Hb _ IH]; intros offset; simpl.
  { f_equal. lia. }
  rewrite (proj2 (between_false _ _ _)) by lia. rewrite IH. f_equal. lia.
Qed.
Lemma string_end_skip bs l offset :
  Forall (λ b, 0x80 <= b) bs → string_end (bs ++ l) offset = string_end l (offset + length bs).
Proof.
  intros H. revert offset. induction H as [|b bs Hb _ IH]; intros offset; simpl.
  { f_equal. lia. }
  unfold BEL, ESC. rewrite !(proj2 (Z.eqb_neq _ _)) by lia. rewrite IH. f_equal. lia.
Qed.

Lemma csi_end_encode cs offset e :
  Forall is_char cs → csi_end (encode cs) offset = Some e →
  ∃ a, cs = a ++ (csi_final cs).2 ∧ e = (offset + length (encode a))%nat.
Proof.
  intros Hcs. revert offset. induction Hcs as [|c cs Hc _ IH]; intros offset; [done|].
  rewrite encode_cons. destruct (Z.lt_ge_cases c 0x80) as [Hlt|Hge].
  - rewrite encode_char_ascii by done. simpl. destruct (between 0x40 0x7e c).
    + intros [= <-]. exists [c]. by rewrite encode_cons, encode_char_ascii.
    + intros (a & Ha & ->)%IH. exists (c :: a). rewrite encode_cons, encode_char_ascii by done.
      split; [by rewrite Ha at 1|]. simpl. lia.
  - rewrite csi_end_skip by by apply encode_char_high.
    intros (a & Ha & ->)%IH. exists (c :: a). simpl csi_final.
    rewrite (proj2 (between_false _ _ _)) by lia. rewrite encode_cons, length_app.
    split; [by rewrite Ha at 1|lia].
Qed.

(** What a string sequence is skipped to: the text after [a] is read as if the
    string had ended there. *)
Lemma string_end_encode cs offset e :
  Forall is_char cs → string_end (encode cs) offset = Some e →
  ∃ a b, cs = a ++ b ∧ e = (offset + length (encode a))%nat ∧
    ∀ rows, finish rows (osc_loop rows cs) = strip_ansi_with_cursor_mode b rows
      ∧ (BEL ∉ cs → finish rows (dcs_loop rows cs) = strip_ansi_with_cursor_mode b rows).
Proof.
  intros Hcs. revert offset. induction Hcs as [|c cs Hc Hcs IH]; intros offset; [done|].
  rewrite encode_cons. destruct (Z.lt_ge_cases c 0x80) as [Hlt|Hge].
  - rewrite encode_char_ascii by done. cbn [app string_end osc_loop dcs_loop].
    destruct (Z.eqb_spec c BEL) as [->|Hb].
    { intros [= <-]. exists [BEL], cs. repeat split. intros []. by left. }
    destruct (Z.eqb_spec c ESC) as [->|He].
    + destruct Hcs as [|c' cs' Hc' Hcs']; [done|]. rewrite encode_cons.
      destruct (encode_char_shape c' Hc') as (b & bs & E & _ & _ & Hl & Hh). rewrite E. cbn [app].
      destruct (Z.eqb_spec b 0x5c) as [->|Hb'].
      * assert (c' = 0x5c) as -> by (destruct (Z.lt_ge_cases c' 0x80); [by destruct Hl|lia]).
        intros [= <-]. exists [ESC; 0x5c], cs'. by repeat split.
      * intros [= <-]. exists [], (ESC :: c' :: cs'). split; [done|]. split; [simpl; lia|].
        intros rows. rewrite strip_escape.
        rewrite (proj2 (Z.eqb_neq c' 0x5c)); [done|]. intros ->. destruct Hl; [lia|done].
    + intros (a & b & -> & -> & H)%IH. exists (c :: a), b.
      rewrite encode_cons, encode_char_ascii by done. split; [done|]. split; [simpl; lia|].
      intros rows. destruct (H rows) as [H1 H2]. split; [done|]. intros Hn. apply H2.
      by apply not_elem_of_cons in Hn as [_ ?].
  - rewrite string_end_skip by by apply encode_char_high.
    intros (a & b & -> & -> & H)%IH. exists (c :: a), b. rewrite encode_cons, length_app.
    split; [done|]. split; [lia|]. intros rows. destruct (H rows) as [H1 H2].
    cbn [osc_loop dcs_loop]. unfold BEL, ESC in *. rewrite !(proj2 (Z.eqb_neq _ _)) by lia.
    split; [done|]. intros Hn. apply H2. by apply not_elem_of_cons in Hn as [_ ?].
Qed.

Lemma ansi_char_end_encode pre suf :
  Forall is_char suf →
  ansi_char_end (encode (pre ++ suf)) (length (encode pre)) =
    (λ c, length (encode (pre ++ [c]))) <$> head suf.
Proof.
  intros Hs. unfold ansi_char_end. rewrite get_from_prefix by done. simpl.
  rewrite chars_of_encode by done. destruct suf as [|c suf]; [done|]. simpl.
  rewrite encode_app, length_app. change (encode [c]) with (encode_char c ++ []).
  by rewrite app_nil_r, encode_char_length.
Qed.

(** No string of kind P, X, [^] or _ has a BEL after its introducer: the trimming
    takes a BEL for its end, stripping does not. *)
Definition bell_free_strings (cs : list Z) : Prop :=
  ∀ pre k rest, cs = pre ++ ESC :: k :: rest → k ∈ string_kinds → BEL ∉ rest.

Lemma bell_free_app pre cs : bell_free_strings (pre ++ cs) → bell_free_strings cs.
Proof.
  intros H pre' k rest -> Hk. apply (H (pre ++ pre') k rest); [by rewrite <-app_assoc|done].
Qed.

Lemma existsb_high x l :
  Forall (λ y, y < 0x80) l → 0x80 <= x → existsb (eqb x) l = false.
Proof.
  intros Hl Hx. apply existsb_false. eapply Forall_impl; [exact Hl|].
  intros y Hy. apply eqb_false. cbn beta in Hy. lia.
Qed.
Lemma kinds_ascii : Forall (λ y, y < 0x80) string_kinds ∧ Forall (λ y, y < 0x80) (ascii "O()%").
Proof. by split; vm_compute; repeat constructor. Qed.

(** The kind of a sequence, as both parsers tell it from the character after ESC. *)
Lemma sequence_kind input start k rest :
  drop start input = ESC :: encode_char k ++ rest → is_char k →
  ansi_sequence_end input start =
    if k =? 0x5b then csi_end rest (start + 2)
    else if (k =? 0x5d) || existsb (eqb k) string_kinds then string_end rest (start + 2)
    else if existsb (eqb k) (ascii "O()%") then ansi_char_end input (start + 2)
    else ansi_char_end input (start + 1).
Proof.
  intros Hd Hk.
  assert (H0 : input !! start = Some ESC) by (by rewrite <-(Nat.add_0_r start), <-lookup_drop, Hd).
  assert (Hrest : drop (start + 2) input = tail (encode_char k ++ rest)).
  { rewrite <-drop_drop, Hd. by destruct (encode_char k ++ rest). }
  assert (H1 : input !! (start + 1)%nat = head (encode_char k ++ rest)).
  { rewrite <-lookup_drop, Hd. by destruct (encode_char k ++ rest). }
  unfold ansi_sequence_end. rewrite H0, H1, Hrest, neqb_refl. 
  destruct (Z.lt_ge_cases k 0x80) as [Hlt|Hge]; [by rewrite encode_char_ascii|].
  destruct (encode_char_shape k Hk) as (b & bs & E & _ & _ & _ & Hh). rewrite E. cbn [app head mbind option_bind].
  specialize (Hh Hge). destruct kinds_ascii as [Hs Ho].
  rewrite !existsb_high by done. rewrite !(proj2 (Z.eqb_neq _ _)) by lia. done.
Qed.

(** Both parsers agree on where a complete sequence ends. *)
Lemma sequence_end_encode pre rest e :
  Forall is_char (pre ++ ESC :: rest) →
  ansi_sequence_end (encode (pre ++ ESC :: rest)) (length (encode pre)) = Some e →
  ∃ a b, rest = a ++ b ∧ e = length (encode (pre ++ ESC :: a)) ∧
    (bell_free_strings (ESC :: rest) → ∀ rows, ∃ x,
      strip_ansi_with_cursor_mode (ESC :: rest) rows = x ++ strip_ansi_with_cursor_mode b rows).
Proof.
  intros Hcs. apply Forall_app in Hcs as [_ Hcs]. apply Forall_cons in Hcs as [_ Hcs].
  assert (Hlen : ∀ a, length (encode (pre ++ ESC :: a)) = (length (encode pre) + 1 + length (encode a))%nat).
  { intros a. rewrite encode_app, encode_cons, !length_app. simpl. lia. }
  destruct Hcs as [|k rest Hk Hr].
  { unfold ansi_sequence_end. rewrite encode_app, lookup_app_r, Nat.sub_diag by done. simpl.
    rewrite lookup_app_r by lia. replace (_ + 1 - _)%nat with 1%nat by lia. done. }
  rewrite (sequence_kind _ _ k (encode rest)) by (by rewrite ?encode_app, ?drop_app_length).
  setoid_rewrite strip_escape. cbn [strip_ansi_escape].
  destruct (Z.eqb_spec k 0x5b) as [->|_].
  { intros (a & Ha & ->)%csi_end_encode; [|done]. exists (0x5b :: a), (csi_final rest).2.
    rewrite Hlen, encode_cons. split; [by rewrite Ha at 1|]. split; [simpl; lia|].
    intros _ rows. destruct (csi_final rest) as [final b]. by exists (csi_out rows final). }
  destruct (Z.eqb_spec k 0x5d) as [->|_]; [|destruct (existsb (eqb k) string_kinds) eqn:Ek].
  1,2: intros (a & b & -> & -> & H)%string_end_encode; [|done].
  1: exists (0x5d :: a), b. 2: exists (k :: a), b.
  1,2: rewrite Hlen, encode_cons; split; [done|].
  - split; [simpl; lia|]. intros _ rows. exists []. apply H.
  - apply existsb_eqb in Ek as Ek'. assert (k < 0x80).
    { pose proof (proj1 kinds_ascii) as Hs. rewrite Forall_forall in Hs. by apply Hs. }
    rewrite encode_char_ascii by done. split; [simpl; lia|].
    intros Hb rows. exists []. apply H. by apply (Hb [] k).
  - simpl orb. destruct (existsb (eqb k) (ascii "O()%")) eqn:Eo.
    + apply existsb_eqb in Eo. assert (k < 0x80).
      { pose proof (proj2 kinds_ascii) as Hs. rewrite Forall_forall in Hs. by apply Hs. }
      replace (length (encode pre) + 2)%nat with (length (encode (pre ++ [ESC; k])))
        by (rewrite Hlen, encode_cons, encode_char_ascii by done; simpl; lia).
      replace (pre ++ ESC :: k :: rest) with ((pre ++ [ESC; k]) ++ rest) by (by rewrite <-app_assoc).
      rewrite ansi_char_end_encode by done. destruct rest as [|c rest]; [done|].
      intros [= <-]. exists [k; c], rest. rewrite <-app_assoc. split_and!; [done..|].
      intros _ rows. by exists [].
    + replace (length (encode pre) + 1)%nat with (length (encode (pre ++ [ESC])))
        by (rewrite Hlen; simpl; lia).
      replace (pre ++ ESC :: k :: rest) with ((pre ++ [ESC]) ++ k :: rest) by (by rewrite <-app_assoc).
      rewrite ansi_char_end_encode by by constructor.
      intros [= <-]. exists [k], rest. rewrite <-app_assoc. split_and!; [done..|].
      intros _ rows. by exists [].
Qed.

(** ** Trimming *)

(** No escape sequence stays open for longer than the allowance. *)
Definition short_open (cs : list Z) : Prop :=
  ∀ i, ansi_sequence_end (encode cs) i = None →
    (length (encode cs) - i <= MAX_INCOMPLETE_ANSI_BYTES)%nat.

(** [kept] is read as it is read in [cs]. *)
Definition reads_suffix (cs kept : list Z) : Prop :=
  ∀ rows, ∃ x, strip_ansi_with_cursor_mode cs rows = x ++ strip_ansi_with_cursor_mode kept rows.

Lemma reads_suffix_refl cs : reads_suffix cs cs.
Proof. intros rows. by exists []. Qed.
Lemma reads_suffix_trans cs ds es : reads_suffix cs ds → reads_suffix ds es → reads_suffix cs es.
Proof.
  intros H1 H2 rows. destruct (H1 rows) as [x ->], (H2 rows) as [y ->].
  exists (x ++ y). by rewrite <-app_assoc.
Qed.
Lemma reads_suffix_char c cs : c ≠ ESC → reads_suffix (c :: cs) cs.
Proof. intros Hc rows. exists [c]. by rewrite strip_char. Qed.

Lemma encode_nil_inv cs : length (encode cs) = 0%nat → cs = [].
Proof.
  destruct cs as [|c cs]; [done|]. rewrite encode_cons, length_app, encode_char_length.
  pose proof (len_utf8_pos c). lia.
Qed.

(** Of two cuts of a text, the one after fewer bytes is after fewer characters. *)
Lemma cut_before a b t rs :
  a ++ b = t ++ rs → (length (encode a) <= length (encode t))%nat →
  ∃ t', t = a ++ t' ∧ b = t' ++ rs.
Proof.
  intros H Hl. apply app_eq_inv in H as [(k & -> & ->)|(k & -> & ->)].
  - rewrite encode_app, length_app in Hl. assert (k = []) as -> by (apply encode_nil_inv; lia).
    exists []. by rewrite !app_nil_r.
  - by exists k.
Qed.

Lemma encode_lookup pre c suf :
  is_char c → (encode (pre ++ c :: suf) !! length (encode pre) == Some ESC) = (c =? ESC).
Proof.
  intros Hc. rewrite encode_app, lookup_app_r, Nat.sub_diag, encode_cons by done.
  destruct (encode_char_shape c Hc) as (b & bs & -> & _ & _ & Hl & Hh). simpl.
  destruct (Z.eqb_spec c ESC) as [->|Hne].
  - destruct Hl as [-> _]; [reflexivity|]. apply eqb_refl.
  - apply eqb_false. intros [= ->]. destruct (Z.lt_ge_cases c 0x80) as [Hlt|Hge].
    + by destruct (Hl Hlt).
    + specialize (Hh Hge). unfold ESC in Hh. lia.
Qed.

(** What a cut that is made at a request keeps. *)
Definition good_cut (cs suf : list Z) (requested d : nat) : Prop :=
  ∃ dropped kept, cs = dropped ++ kept ∧ d = length (encode dropped)
    ∧ (length (encode kept) <= Nat.max (length (encode cs) - requested) MAX_INCOMPLETE_ANSI_BYTES)%nat
    ∧ (bell_free_strings suf → short_open cs → reads_suffix suf kept).

Lemma encode_split_length cs pre suf :
  cs = pre ++ suf → length (encode cs) = (length (encode pre) + length (encode suf))%nat.
Proof. intros ->. by rewrite encode_app, length_app. Qed.

Lemma good_cut_step cs suf suf' requested d :
  (bell_free_strings suf → bell_free_strings suf') → (bell_free_strings suf → reads_suffix suf suf') →
  good_cut cs suf' requested d → good_cut cs suf requested d.
Proof.
  intros Hb Hr (dr & kept & ? & ? & ? & H). exists dr, kept. split_and!; try done.
  intros Hf Ho. eapply reads_suffix_trans; [by apply Hr|]. by apply H; [apply Hb|].
Qed.
Lemma good_cut_now cs pre suf requested :
  cs = pre ++ suf →
  (length (encode suf) <= Nat.max (length (encode cs) - requested) MAX_INCOMPLETE_ANSI_BYTES)%nat →
  good_cut cs suf requested (length (encode pre)).
Proof. intros H ?. exists pre, suf. split_and!; try done. intros _ _. apply reads_suffix_refl. Qed.

Lemma safe_drop_loop_spec fuel cs pre t rs :
  Forall is_char cs → cs = pre ++ t ++ rs → (length (encode t) <= fuel)%nat →
  let requested := length (encode (pre ++ t)) in
  good_cut cs (t ++ rs) requested (safe_drop_loop fuel (encode cs) requested (length (encode pre))).
Proof.
  intros Hcs. revert pre t. induction fuel as [|fuel IH]; intros pre t Heq Hf requested.
  { assert (t = []) as -> by (apply encode_nil_inv; lia). simpl.
    apply good_cut_now; [by rewrite app_nil_r|].
    apply encode_split_length in Heq. unfold requested. rewrite app_nil_r. simpl in *. lia. }
  assert (Hreq : requested = (length (encode pre) + length (encode t))%nat)
    by by apply encode_split_length.
  cbn [safe_drop_loop]. destruct t as [|c t].
  { rewrite (proj2 (Nat.ltb_ge _ _)) by (simpl in Hreq; lia).
    apply good_cut_now; [by rewrite app_nil_r|].
    apply encode_split_length in Heq. rewrite Hreq. simpl in *. lia. }
  assert (Hc : is_char c ∧ Forall is_char (t ++ rs)).
  { rewrite Heq in Hcs. apply Forall_app in Hcs as [_ Hcs]. simpl in Hcs. by apply Forall_cons in Hcs. }
  destruct Hc as [Hc Htr].
  assert (Hpos := len_utf8_pos c). rewrite encode_cons, length_app, encode_char_length in Hf, Hreq.
  rewrite (proj2 (Nat.ltb_lt _ _)) by lia.
  assert ((encode cs !! length (encode pre) == Some ESC) = (c =? ESC)) as ->.
  { rewrite Heq. by apply encode_lookup. }
  destruct (Z.eqb_spec c ESC) as [->|Hne].
  - destruct (ansi_sequence_end _ _) as [e|] eqn:Ee.
    + rewrite Heq in Ee. simpl in Ee. apply sequence_end_encode in Ee; [|by rewrite Heq in Hcs].
      destruct Ee as (a & b & Hab & -> & Hread).
      assert (Heq' : cs = (pre ++ ESC :: a) ++ b) by (rewrite <-app_assoc; simpl; by rewrite <-Hab).
      assert (Hrs : bell_free_strings (ESC :: t ++ rs) → reads_suffix (ESC :: t ++ rs) b) by exact Hread.
      assert (Hbf : bell_free_strings (ESC :: t ++ rs) → bell_free_strings b).
      { rewrite Hab. apply (bell_free_app (ESC :: a)). }
      eapply (good_cut_step _ _ b); [done..|].
      destruct (Nat.leb_spec (length (encode (pre ++ ESC :: a))) requested) as [Hle|Hgt].
      * destruct (cut_before (pre ++ ESC :: a) b (pre ++ ESC :: t) rs) as (t' & Ht' & Hb);
          [by rewrite <-Heq', <-app_assoc|done|]. rewrite Hb. unfold requested. rewrite Ht'.
        apply IH; [by rewrite Heq', Hb|].
        assert (Ha : t = a ++ t') by (rewrite <-app_assoc in Ht'; by simplify_list_eq).
        apply encode_split_length in Ha. simpl in *. lia.
      * apply good_cut_now; [done|]. apply encode_split_length in Heq'. lia.
    + destruct (Nat.ltb_spec MAX_INCOMPLETE_ANSI_BYTES (length (encode cs) - length (encode pre))) as [Hlt|Hge].
      * exists (pre ++ ESC :: t), rs. split_and!; [by rewrite <-app_assoc|done| |].
        { assert (H : cs = (pre ++ ESC :: t) ++ rs) by (by rewrite <-app_assoc).
          apply encode_split_length in H. unfold requested. lia. }
        intros _ Ho. specialize (Ho _ Ee). lia.
      * apply good_cut_now; [done|]. apply encode_split_length in Heq. lia.
  - eapply (good_cut_step _ _ (t ++ rs)).
    { intros H. by apply (bell_free_app [c]). } { intros _. by apply reads_suffix_char. }
    replace (length (encode pre) + char_step _ _)%nat with (length (encode (pre ++ [c]))).
    + unfold requested. replace (pre ++ c :: t) with ((pre ++ [c]) ++ t) by by rewrite <-app_assoc.
      apply IH; [by rewrite <-app_assoc|lia].
    + unfold char_step. rewrite Heq. rewrite get_from_prefix by by apply Forall_cons.
      simpl. change (c :: t ++ rs) with ((c :: t) ++ rs). rewrite chars_of_encode by by apply Forall_cons.
      simpl. rewrite (encode_split_length _ pre [c]), encode_cons, length_app by done.
      rewrite encode_char_length. simpl. lia.
Qed.

Lemma boundary_from_spec fuel s i :
  (i <= length s)%nat → (length s - i <= fuel)%nat →
  (i <= boundary_from fuel s i <= length s)%nat ∧ is_char_boundary s (boundary_from fuel s i) = true.
Proof.
  assert (Hend : is_char_boundary s (length s) = true).
  { unfold is_char_boundary. by rewrite lookup_ge_None_2, Nat.eqb_refl. }
  revert i. induction fuel as [|fuel IH]; intros i Hi Hf; simpl.
  { by replace i with (length s) by lia. }
  destruct (Nat.ltb_spec i (length s)); simpl.
  - destruct (is_char_boundary s i) eqn:E; simpl; [done|]. destruct (IH (i + 1)%nat); [lia..|].
    split; [lia|done].
  - by replace i with (length s) by lia.
Qed.

(** Stripping terminates on every text and leaves no escape character, in
    neither mode; the result is no longer than the text, a text without escape
    characters is unchanged, and the two modes differ only in that a cursor
    movement is a line feed where the other writes a space. *)
Theorem strip_leaves_text s :
  (ESC ∉ strip_ansi s) ∧ (ESC ∉ strip_ansi_for_usage_limit s)
  ∧ (length (strip_ansi s) <= length s)%nat
  ∧ Forall2 (λ a b, a = b ∨ (a = LF ∧ b = SP)) (strip_ansi_for_usage_limit s) (strip_ansi s)
  ∧ (ESC ∉ s → strip_ansi s = s ∧ strip_ansi_for_usage_limit s = s).
Proof.
  split_and!; [apply strip_no_escape..|apply strip_length|apply strip_modes|].
  intros Hs. split; by apply strip_plain.
Qed.

(** Trimming the scan buffer drops whole characters from its front, keeps at
    most the requested bytes or the allowance for an open sequence, and leaves a
    short buffer alone; and what the rest reads once stripped is a suffix of what
    the whole buffer reads, so that no tail of a cut sequence becomes text.  The
    last part needs that no string sequence but an OSC has a BEL in it. *)
Theorem scan_buffer_trimmed cs max_bytes :
  Forall is_char cs →
  ∃ dropped kept, cs = dropped ++ kept
    ∧ truncate_usage_scan_buffer (encode cs) max_bytes = encode kept
    ∧ ((length (encode cs) <= max_bytes)%nat → dropped = [])
    ∧ (length (encode kept) <= Nat.max max_bytes MAX_INCOMPLETE_ANSI_BYTES)%nat
    ∧ (bell_free_strings cs → short_open cs → reads_suffix cs kept).
Proof.
  intros Hcs. unfold truncate_usage_scan_buffer.
  destruct (Nat.leb_spec (length (encode cs)) max_bytes) as [Hle|Hgt].
  { exists [], cs. split_and!; try done; [lia|]. intros _ _. apply reads_suffix_refl. }
  destruct (Nat.eqb_spec max_bytes 0) as [->|Hm].
  { exists cs, []. rewrite app_nil_r. split_and!; try done; [lia|simpl; lia|].
    intros _ _ rows. eexists. by rewrite strip_nil, app_nil_r. }
  destruct (boundary_from_spec (length (encode cs)) (encode cs) (length (encode cs) - max_bytes))
    as [Hb1 Hb2]; [lia..|].
  set (requested := boundary_from _ _ _) in *. clearbody requested.
  destruct (boundary_inv cs requested Hcs Hb2) as (t & rs & -> & ->).
  destruct (safe_drop_loop_spec (S (length (encode t))) (t ++ rs) [] t rs)
    as (dropped & kept & Hk & Hd & Hlen & Hread); [done..|lia|].
  simpl app in *. exists dropped, kept. split_and!; [done| |lia|lia|done].
  unfold safe_ansi_drop_offset. simpl length in Hd. rewrite Hd, Hk.
  by rewrite encode_app, drop_app_length.
Qed.

(** ** Joining rows *)

Definition is_full (cols : nat) (row : list Z) : bool := (cols <=? length row)%nat.

(** A line that was closed: full rows and then one that is not. *)
Inductive closed_line (cols : nat) : list (list Z) → Prop :=
  | closed_last row : row ≠ [] → is_full cols row = false → closed_line cols [row]
  | closed_full row rows :
      row ≠ [] → is_full cols row = true → closed_line cols rows → closed_line cols (row :: rows).

Lemma rejoin_skip cols rows current full :
  rejoin_loop cols ([] :: rows) current full = rejoin_loop cols rows current full.
Proof. done. Qed.

Lemma rejoin_app cols r1 r2 current full :
  rejoin_loop cols (r1 ++ r2) current full =
    let '(o1, (current', full')) := rejoin_loop cols r1 current full in
    let '(o2, st) := rejoin_loop cols r2 current' full' in (o1 ++ o2, st).
Proof.
  revert current full. induction r1 as [|row r1 IH]; intros current full.
  { simpl. by destruct (rejoin_loop cols r2 current full). }
  simpl app. cbn [rejoin_loop]. destruct row as [|c row]; [apply IH|].
  destruct current as [previous|]; [|apply IH]. destruct full; [apply IH|].
  rewrite IH. destruct (rejoin_loop cols r1 _ _) as [o1 [current' full']].
  by destruct (rejoin_loop cols r2 current' full').
Qed.

(** A short line may as well be closed at once. *)
Lemma rejoin_close cols rows previous :
  rejoin_finish (rejoin_loop cols rows (Some previous) false) =
    prod_map id (cons previous) (rejoin_finish (rejoin_loop cols rows None false)).
Proof.
  induction rows as [|[|c row] rows IH]; [done|done|]. cbn [rejoin_loop].
  destruct (rejoin_loop cols rows (Some (c :: row)) _) as [o [[cur|] []]]; done.
Qed.

Lemma rejoin_none cols rows current full o full' :
  rejoin_loop cols rows current full = (o, (None, full')) → current = None ∧ full' = full.
Proof.
  revert current full o. induction rows as [|[|c row] rows IH]; intros current full o; simpl;
    [by intros [= _ -> ->]|apply IH|].
  destruct current as [previous|]; [destruct full|].
  1,3: by intros [? _]%IH.
  destruct (rejoin_loop cols rows _ _) as [o' [cur f]] eqn:E.
  intros [= _ -> ->]. by apply IH in E as [? _].
Qed.

(** The rows of a session may arrive in any chunks: processing two chunks one
    after the other, with the pending row carried over, gives the lines and the
    pending row of processing them at once. *)
Theorem rejoin_chunks pending rows rows' cols :
  (0 < cols)%nat →
  rejoin_hard_wrapped_rows_streaming pending (rows ++ rows') cols =
    let '(pending1, lines1) := rejoin_hard_wrapped_rows_streaming pending rows cols in
    let '(pending2, lines2) := rejoin_hard_wrapped_rows_streaming pending1 rows' cols in
    (pending2, lines1 ++ lines2).
Proof.
  intros Hc. unfold rejoin_hard_wrapped_rows_streaming.
  rewrite (proj2 (Nat.eqb_neq cols 0)) by lia. rewrite rejoin_app.
  destruct (rejoin_loop cols rows pending (is_some pending)) as [o1 [[previous|] full]] eqn:E; simpl.
  - destruct full; simpl.
    + by destruct (rejoin_loop cols rows' _ _) as [o2 [[cur|] []]]; simpl; rewrite ?app_assoc.
    + pose proof (rejoin_close cols rows' previous) as H.
      destruct (rejoin_loop cols rows' (Some previous) false) as [o2 [[cur|] []]],
        (rejoin_loop cols rows' None false) as [o3 [[cur'|] []]];
        simpl in *; simplify_eq; by rewrite <-?app_assoc; simpl; rewrite <-?H.
  - apply rejoin_none in E as [-> ->]. simpl.
    by destruct (rejoin_loop cols rows' _ _) as [o2 [[cur|] []]]; simpl; rewrite ?app_assoc.
Qed.

(** The state of the loop when the open line consists of the full rows [acc]. *)
Definition open_rows (acc : list (list Z)) : option (list Z) :=
  match acc with [] => None | _ => Some (concat acc) end.

Lemma open_rows_snoc acc row : open_rows (acc ++ [row]) = Some (concat acc ++ row).
Proof. destruct acc; simpl; rewrite ?concat_app; simpl; by rewrite ?app_nil_r, ?app_assoc. Qed.

Lemma closed_line_snoc cols acc row :
  Forall (λ r, r ≠ [] ∧ is_full cols r = true) acc → row ≠ [] → is_full cols row = false →
  closed_line cols (acc ++ [row]).
Proof. intros Ha Hr Hf. induction Ha as [|a acc [] _ IH]; simpl; by constructor. Qed.

Lemma rejoin_groups cols rows acc :
  Forall (λ r, r ≠ [] ∧ is_full cols r = true) acc →
  ∃ groups tail, acc ++ filter (λ r, r ≠ []) rows = concat groups ++ tail
    ∧ Forall (closed_line cols) groups ∧ Forall (λ r, r ≠ [] ∧ is_full cols r = true) tail
    ∧ rejoin_finish (rejoin_loop cols rows (open_rows acc) (is_some (open_rows acc)))
      = (open_rows tail, concat (A:=Z) <$> groups).
Proof.
  revert acc. induction rows as [|row rows IH]; intros acc Hacc.
  { exists [], acc. rewrite app_nil_r. split_and!; [done|constructor|done|by destruct acc]. }
  destruct row as [|c row]; [by apply IH|].
  rewrite filter_cons_True by done. rewrite (cons_middle (c :: row)), app_assoc.
  assert (Hstep : rejoin_loop cols ((c :: row) :: rows) (open_rows acc) (is_some (open_rows acc))
    = rejoin_loop cols rows (open_rows (acc ++ [c :: row])) (is_full cols (c :: row))).
  { rewrite open_rows_snoc. cbn [rejoin_loop]. by destruct acc. }
  rewrite Hstep. destruct (is_full cols (c :: row)) eqn:Ef.
  - destruct (IH (acc ++ [c :: row])) as (groups & tail & H1 & H2 & H3 & H4).
    { by rewrite Forall_app, Forall_singleton. }
    exists groups, tail. split_and!; try done. rewrite <-H4. f_equal.
    by rewrite open_rows_snoc.
  - rewrite open_rows_snoc, rejoin_close.
    destruct (IH []) as (groups & tail & H1 & H2 & H3 & H4); [constructor|]. simpl in H4. rewrite H4.
    exists ((acc ++ [c :: row]) :: groups), tail. split_and!; [| |done|].
    + simpl concat. by rewrite <-(app_assoc _ (concat groups)), <-H1.
    + constructor; [by apply closed_line_snoc|done].
    + simpl. rewrite concat_app. simpl. by rewrite app_nil_r.
Qed.

(** The lines are the rows, grouped: every nonempty row, after the pending one,
    is in exactly one line, in order; a line consists of rows that fill the width
    and a last one that does not; what is pending consists of rows that do. *)
Theorem rejoin_lines pending rows cols :
  (0 < cols)%nat → is_none_or pending (is_full cols) = true →
  ∃ groups tail,
    option_list pending ++ filter (λ r, r ≠ []) rows = concat groups ++ tail
    ∧ Forall (closed_line cols) groups ∧ Forall (λ r, is_full cols r = true) tail
    ∧ rejoin_hard_wrapped_rows_streaming pending rows cols = (open_rows tail, concat (A:=Z) <$> groups).
Proof.
  intros Hc Hp. unfold rejoin_hard_wrapped_rows_streaming.
  rewrite (proj2 (Nat.eqb_neq cols 0)) by lia.
  assert (Ho : open_rows (option_list pending) = pending).
  { destruct pending; simpl; by rewrite ?app_nil_r. }
  destruct (rejoin_groups cols rows (option_list pending)) as (groups & tail & H1 & H2 & H3 & H4).
  - destruct pending as [p|]; [|constructor]. apply Forall_singleton. split; [|done].
    intros ->. unfold is_full in Hp. simpl in Hp. by apply Nat.leb_le in Hp; lia.
  - rewrite Ho in H4. exists groups, tail. split_and!; try done.
    eapply Forall_impl; [exact H3|]. by intros r [_ ?].
Qed.

(** ** Concrete runs *)

Definition demo_output : list Z := ascii "old " ++ ESC :: ascii "[31musage limit".

Lemma demo_chars : Forall is_char demo_output.
Proof. apply (bool_decide_unpack _). by vm_compute. Qed.

(** The request falls into the colour sequence, which is dropped as a whole. *)
Lemma scan_buffer_trimmed_witness :
  (∃ dropped kept, demo_output = dropped ++ kept
    ∧ truncate_usage_scan_buffer (encode demo_output) 12 = encode kept
    ∧ ((length (encode demo_output) <= 12)%nat → dropped = [])
    ∧ (length (encode kept) <= Nat.max 12 MAX_INCOMPLETE_ANSI_BYTES)%nat
    ∧ (bell_free_strings demo_output → short_open demo_output → reads_suffix demo_output kept))
  ∧ truncate_usage_scan_buffer (encode demo_output) 12 = ascii "usage limit"
  ∧ bell_free_strings demo_output ∧ short_open demo_output.
Proof.
  split; [exact (scan_buffer_trimmed demo_output 12 demo_chars)|].
  split; [by vm_compute|]. split.
  - intros pre k rest E _ Hb. assert (H : BEL ∈ demo_output).
    { rewrite E. apply elem_of_app. right. by do 2 apply elem_of_cons, or_intror. }
    apply existsb_eqb in H. by vm_compute in H.
  - intros i _. vm_compute (length (encode demo_output)). unfold MAX_INCOMPLETE_ANSI_BYTES. lia.
Defined.

(** The last part of [scan_buffer_trimmed] needs its premise: a BEL inside a device
    control string ends it for the trimming but not for stripping, so that the rest
    of the string's payload reads as output. *)
Lemma bell_in_string_leaks :
  let cs := ESC :: 0x50 :: BEL :: ascii "usage limit reached" in
  strip_ansi_for_usage_limit cs = []
  ∧ truncate_usage_scan_buffer (encode cs) 19 = ascii "usage limit reached".
Proof. by vm_compute. Qed.

Lemma rejoin_chunks_witness :
  rejoin_hard_wrapped_rows_streaming None ([ascii "abcd"; ascii "ef"] ++ [ascii "ghij"]) 4 =
    (let '(pending1, lines1) := rejoin_hard_wrapped_rows_streaming None [ascii "abcd"; ascii "ef"] 4 in
     let '(pending2, lines2) := rejoin_hard_wrapped_rows_streaming pending1 [ascii "ghij"] 4 in
     (pending2, lines1 ++ lines2))
  ∧ rejoin_hard_wrapped_rows_streaming None [ascii "abcd"; ascii "ef"; ascii "ghij"] 4
    = (Some (ascii "ghij"), [ascii "abcdef"]).
Proof.
  split; [exact (rejoin_chunks None [ascii "abcd"; ascii "ef"] [ascii "ghij"] 4 ltac:(lia))|].
  by vm_compute.
Defined.

Lemma rejoin_lines_witness :
  (∃ groups tail,
    option_list (Some (ascii "abcd")) ++ filter (λ r, r ≠ []) [ascii "ef"; []; ascii "ghij"]
      = concat groups ++ tail
    ∧ Forall (closed_line 4) groups ∧ Forall (λ r, is_full 4 r = true) tail
    ∧ rejoin_hard_wrapped_rows_streaming (Some (ascii "abcd")) [ascii "ef"; []; ascii "ghij"] 4
      = (open_rows tail, concat (A:=Z) <$> groups))
  ∧ is_none_or (Some (ascii "abcd")) (is_full 4) = true.
Proof.
  split; [exact (rejoin_lines (Some (ascii "abcd")) [ascii "ef"; []; ascii "ghij"] 4 ltac:(lia) eq_refl)|].
  by vm_compute.
Defined.
