(* ===== verification/UsageLimit.v ===== *)
(** * Usage-limit banners

    The capacity half of [peon.rs] and [capacity_analysis.rs].  A harness tells its
    user that a usage limit is reached in a row of its own; the same words in shown
    code or prose must not latch the session.  Texts are lists of characters and
    positions count characters; the raw scan buffer keeps its bytes.  The main
    theorems: what a matched row looks like and that such rows are matched; the
    bounded search finds what an unbounded one would; and the cache of line evidence
    never changes an observation. *)
From S2P Require Export TerminalText CapacityState.

Definition LIMIT_CONTEXT_MAX_CHARS : nat := 48.
Definition LIMIT_PREFIX_MAX_CHARS : nat := 24.
Definition LIMIT_TAIL_MAX_CHARS : nat := 72.
Definition LIMIT_HINT_ANCHOR_MAX_PREFIX : nat := 12.
Definition HINT_MAX_CHARS : nat := 80.

Definition BANNER_QUOTE_CHARS : list Z := [0x22; 0x60; 0x201c; 0x201d; 0x2018; 0x2019].
Definition BANNER_PREFIX_GLYPHS : list Z :=
  [0xb7; 0x2022; 0x2733; 0x273b; 0x273d; 0x2736; 0x25cf; 0x25cb; 0x25d0; 0x25a0; 0x25a1; 0x25aa;
   0x25ab; 0x2588; 0x2593; 0x2592; 0x2591; 0x2502; 0x2503; 0x256d; 0x2570; 0x256e; 0x256f; 0x2500;
   0x2501; 0x2550; 0x2014; 0x2026].
Definition HINT_STOP_GLYPHS : list Z :=
  [0x2733; 0x273b; 0x273d; 0x2736; 0x25cf; 0x25cb; 0x25d0; 0xb7; 0x2502; 0x256d; 0x2570; 0x2500;
   0x2014].

(** ** Searching *)

(** [str::find] of a text and of a set of characters. *)
Fixpoint find (p s : list Z) : option nat :=
  if starts_with p s then Some 0%nat
  else match s with [] => None | _ :: s => S <$> find p s end.
Definition find_char (set s : list Z) : option nat := position (λ c, existsb (eqb c) set) s.

(** [str::match_indices]: the starts of the matches that do not overlap, from the
    left; [skip] characters still belong to the last match. *)
Fixpoint match_indices (p s : list Z) (i skip : nat) : list nat :=
  match skip with
  | S skip => match s with [] => [] | _ :: s => match_indices p s (S i) skip end
  | O =>
      if starts_with p s then
        i :: match s with [] => [] | _ :: s => match_indices p s (S i) (length p - 1) end
      else match s with [] => [] | _ :: s => match_indices p s (S i) 0 end
  end.

(** [str::split] at a set of characters. *)
Fixpoint split_any (set s : list Z) : list (list Z) :=
  match s with
  | [] => [[]]
  | c :: s =>
      if existsb (eqb c) set then [] :: split_any set s
      else match split_any set s with
           | [] => [[c]]
           | piece :: pieces => (c :: piece) :: pieces
           end
  end.

(** [Iterator::find_map] on a list. *)
Fixpoint find_map {A B} (f : A → option B) (l : list A) : option B :=
  match l with [] => None | x :: l => match f x with Some y => Some y | None => find_map f l end end.

(** ** The shape of a banner row *)

Definition is_banner_prefix_char (c : Z) : bool :=
  is_whitespace c || existsb (eqb c) BANNER_PREFIX_GLYPHS.
Definition is_banner_chrome_char (c : Z) : bool :=
  is_whitespace c || existsb (eqb c) BANNER_PREFIX_GLYPHS.

Definition hint_start (lower : list Z) : option nat :=
  match find (ascii "resets in") lower with
  | Some i => Some i
  | None =>
      match find (ascii "reset in") lower with
      | Some i => Some i
      | None =>
          match find (ascii "resets ") lower with
          | Some i => Some i
          | None => find (ascii "try again at") lower
          end
      end
  end.
Definition suffix_anchor_chars (suffix_lower : list Z) : option nat := hint_start suffix_lower.

Definition extract_reset_hint (plain lower : list Z) : option (list Z) :=
  idx ← hint_start lower;
  let fragment := drop idx plain in
  let fragment := take (default (length fragment) (find_char (ascii "." ++ [LF]) fragment)) fragment in
  let stop := default (length fragment) (find_char HINT_STOP_GLYPHS fragment) in
  let hint := take HINT_MAX_CHARS (trim (take stop fragment)) in
  Some (trim_end hint).

Section usage_limit.
(** [char::is_alphanumeric], from the Unicode tables of the standard library. *)
Context (is_alphanumeric : Z → bool).

Definition is_clean_hint_char (c : Z) : bool :=
  is_alphanumeric c || is_whitespace c || existsb (eqb c) (ascii ":()./-" ++ [0xb7]).

Definition validated_reset_hint (suffix_plain suffix_lower : list Z) : option (list Z) :=
  anchor_rel ← suffix_anchor_chars suffix_lower;
  if (LIMIT_HINT_ANCHOR_MAX_PREFIX <? anchor_rel)%nat then None
  else
    hint ← extract_reset_hint suffix_plain suffix_lower;
    if (length hint =? 0)%nat || negb (forallb is_clean_hint_char hint)
       || (LIMIT_TAIL_MAX_CHARS <? length suffix_lower - length hint)%nat
    then None
    else Some hint.

(** The loop of [banner_match] over the matches. *)
Fixpoint banner_loop (plain : list Z) (matched : nat) (starts : list nat)
    : option (nat * option (list Z)) :=
  match starts with
  | [] => None
  | start :: starts =>
      let prefix := take start plain in
      if (LIMIT_PREFIX_MAX_CHARS <? length prefix)%nat || negb (forallb is_banner_prefix_char prefix)
      then banner_loop plain matched starts
      else if existsb (λ c, existsb (eqb c) BANNER_QUOTE_CHARS) plain then None
      else
        let stop := (start + matched)%nat in
        let suffix_plain := drop stop plain in
        let suffix_lower := to_ascii_lowercase suffix_plain in
        if forallb is_banner_chrome_char suffix_lower then Some (stop, None)
        else if (length suffix_lower <=? LIMIT_CONTEXT_MAX_CHARS)%nat then
          match validated_reset_hint suffix_plain suffix_lower with
          | Some hint => Some (stop, Some hint)
          | None => banner_loop plain matched starts
          end
        else
          match validated_reset_hint suffix_plain suffix_lower with
          | Some hint => Some (stop, Some hint)
          | None => banner_loop plain matched starts
          end
  end.

Definition banner_match (plain pattern_lower : list Z) : option (nat * option (list Z)) :=
  let candidate := take (LIMIT_PREFIX_MAX_CHARS + length pattern_lower) plain in
  let lower := to_ascii_lowercase candidate in
  banner_loop plain (length pattern_lower) (match_indices pattern_lower lower 0 0).

Definition banner_match_end (plain pattern_lower : list Z) : option nat :=
  fst <$> banner_match plain pattern_lower.
Definition bounded_limit_match (plain pattern_lower : list Z) : bool :=
  is_some (banner_match_end plain pattern_lower).
Definition colocated_banner_hint (plain pattern_lower : list Z) : option (list Z) :=
  banner_match plain pattern_lower ≫= snd.

(** ** Detection in lines and in raw output *)

Definition rows_of (plain : list Z) : list (list Z) := split_any [0x0d; LF] plain.
Definition Evidence : Type := (bool * option (list Z))%type.

Definition any_segment (patterns : list (list Z)) (plain : list Z) : bool :=
  existsb (λ segment, existsb (λ p, bounded_limit_match segment (to_ascii_lowercase p)) patterns)
    (rows_of plain).
Definition first_hint (patterns : list (list Z)) (plain : list Z) : option (list Z) :=
  find_map (λ segment, find_map (λ p, colocated_banner_hint segment (to_ascii_lowercase p)) patterns)
    (rows_of plain).

Definition capacity_line_evidence (patterns : list (list Z)) (text : list Z) : Evidence :=
  match patterns, text with
  | [], _ | _, [] => (false, None)
  | _, _ =>
      let plain := strip_ansi_for_usage_limit text in
      (any_segment patterns plain, first_hint patterns plain)
  end.

Definition detect_usage_limit (patterns : list (list Z)) (lines : list (list Z)) : bool :=
  match patterns with
  | [] => false
  | _ => existsb (λ line, any_segment patterns (strip_ansi_for_usage_limit line)) lines
  end.
Definition detect_usage_limit_raw (patterns : list (list Z)) (text : list Z) : bool :=
  match patterns with
  | [] => false
  | _ => any_segment patterns (strip_ansi_for_usage_limit text)
  end.
Definition detect_usage_limit_hint_raw (patterns : list (list Z)) (text : list Z) : option (list Z) :=
  match patterns with
  | [] => None
  | _ => first_hint patterns (strip_ansi_for_usage_limit text)
  end.
Definition detect_usage_limit_hint (patterns : list (list Z)) (lines : list (list Z))
    : option (list Z) :=
  match patterns with
  | [] => None
  | _ => find_map (λ line, first_hint patterns (strip_ansi_for_usage_limit line)) (rev lines)
  end.
End usage_limit.

(** ** The cache of line evidence, [capacity_analysis.rs]

    The inputs of a projection; the channel and the output time are only carried. *)
Record CapacityInput : Type := mkCapacityInput {
  input_id : list Z;
  run_generation : Z;
  input_fingerprint : option (list Z);
  patterns : option (list (list Z));
  state : CapacityState;
  lines : list (Z * list Z);
  raw : list Z;
}.
Record LineCache : Type := mkLineCache {
  generation : Z;
  fingerprint : option (list Z);
  cached_lines : gmap Z Evidence;
  cached_raw : option (list Z * Evidence);
}.
Definition default_cache : LineCache := mkLineCache 0 None ∅ None.

Abbreviation Sessions := (gmap (list Z) LineCache).
Abbreviation Prepared := (gmap (list Z) (CapacityInput * option CapacityObservation)).

Section cache.
Context (scan : list (list Z) → list Z → Evidence).

(** The loop over the lines: the evidence of a revision is scanned once. *)
Fixpoint scan_lines (pats : list (list Z)) (range : list (Z * list Z)) (memo : gmap Z Evidence)
    (detected : bool) (hint : option (list Z)) : gmap Z Evidence * Evidence :=
  match range with
  | [] => (memo, (detected, hint))
  | (revision, text) :: range =>
      let evidence := default (scan pats text) (memo !! revision) in
      scan_lines pats range (<[revision := evidence]> memo) (detected || evidence.1)
        (opt_or evidence.2 hint)
  end.

(** The closure given to [observe_with]. *)
Definition cached_scan (pats : list (list Z)) (all : list (Z * list Z)) (range : nat * nat)
    (raw : list Z) (cache : LineCache) : LineCache * Evidence :=
  match pats with
  | [] => (cache, (false, None))
  | _ =>
      let '(memo, (detected, hint)) :=
        scan_lines pats (take (range.2 - range.1) (drop range.1 all)) (cached_lines cache) false None in
      let cache := mkLineCache (generation cache) (fingerprint cache) memo (cached_raw cache) in
      match raw with
      | [] => (cache, (detected, hint))
      | _ =>
          let entry :=
            match cached_raw cache with
            | Some (text, evidence) =>
                if text == raw then (text, evidence) else (raw, scan pats (chars_of raw))
            | None => (raw, scan pats (chars_of raw))
            end in
          (mkLineCache (generation cache) (fingerprint cache) (cached_lines cache) (Some entry),
           (detected || entry.2.1, opt_or hint entry.2.2))
      end
  end.

(** A cache of another run or of other capabilities starts over; lines that are no
    longer retained are forgotten. *)
Definition refresh (input : CapacityInput) (cache : LineCache) : LineCache :=
  let cache :=
    if (generation cache != run_generation input) || (fingerprint cache != input_fingerprint input)
    then mkLineCache (run_generation input) (input_fingerprint input) ∅ None
    else cache in
  mkLineCache (generation cache) (fingerprint cache)
    (filter (λ '(revision, _), revision ∈ (lines input).*1) (cached_lines cache)) (cached_raw cache).

Definition analyze_one (input : CapacityInput) (cache : LineCache)
    : LineCache * option CapacityObservation :=
  let cache := refresh input cache in
  match patterns input with
  | None => (cache, None)
  | Some pats =>
      let count := length (lines input) in
      let '(range, window_raw) := window (state input) count (raw input) in
      let '(cache, evidence) := cached_scan pats (lines input) range window_raw cache in
      (cache, Some (observe_with count (raw input) (λ _ _, evidence) (state input)))
  end.


Fixpoint analyze_inputs (inputs : list CapacityInput) (sessions : Sessions) (prepared : Prepared)
    : Sessions * Prepared :=
  match inputs with
  | [] => (sessions, prepared)
  | input :: inputs =>
      let '(cache, observation) :=
        analyze_one input (default default_cache (sessions !! input_id input)) in
      analyze_inputs inputs (<[input_id input := cache]> sessions)
        (<[input_id input := (input, observation)]> prepared)
  end.
Definition analyze_with (sessions : Sessions) (inputs : list CapacityInput) : Sessions * Prepared :=
  analyze_inputs inputs (filter (λ '(id, _), id ∈ input_id <$> inputs) sessions) ∅.
End cache.
#[global] Arguments scan_lines scan pats !range memo detected hint /.

Definition analyze (is_alphanumeric : Z → bool) : Sessions → list CapacityInput → Sessions * Prepared :=
  analyze_with (capacity_line_evidence is_alphanumeric).

(** The observation without a cache: every line and the raw output is scanned. *)
Definition observe (is_alphanumeric : Z → bool) (pats : list (list Z)) (snapshot : list (list Z))
    (scan_buf : list Z) (s : CapacityState) : CapacityObservation :=
  observe_with (length snapshot) scan_buf
    (λ range raw,
      let part := take (range.2 - range.1) (drop range.1 snapshot) in
      let text := chars_of raw in
      (detect_usage_limit is_alphanumeric pats part || detect_usage_limit_raw is_alphanumeric pats text,
       opt_or (detect_usage_limit_hint is_alphanumeric pats part)
         (detect_usage_limit_hint_raw is_alphanumeric pats text))) s.

(** ** Searching: lemmas *)

(** [h] is a contiguous part of [s]. *)
Definition infix (h s : list Z) : Prop := ∃ a b, s = a ++ h ++ b.
#[export] Instance infix_refl : Reflexive infix.
Proof. intros s. exists [], []. by rewrite app_nil_r. Qed.
#[export] Instance infix_trans : Transitive infix.
Proof.
  intros x y z (a & b & ->) (c & d & ->). exists (c ++ a), (b ++ d). by rewrite <-!app_assoc.
Qed.
Lemma infix_take n s : infix (take n s) s.
Proof. exists [], (drop n s). by rewrite app_nil_l, take_drop. Qed.
Lemma infix_drop n s : infix (drop n s) s.
Proof. exists (take n s), []. by rewrite app_nil_r, take_drop. Qed.
Lemma trim_start_suffix s : ∃ a, s = a ++ trim_start s.
Proof.
  induction s as [|c s [a IH]]; simpl; [by exists []|]. destruct (is_whitespace c).
  - exists (c :: a). by rewrite IH at 1.
  - by exists [].
Qed.
Lemma infix_trim_start s : infix (trim_start s) s.
Proof. destruct (trim_start_suffix s) as [a Ha]. exists a, []. by rewrite app_nil_r. Qed.
Lemma infix_trim_end s : infix (trim_end s) s.
Proof.
  destruct (trim_start_suffix (rev s)) as [a Ha]. exists [], (rev a).
  apply (f_equal (@rev Z)) in Ha. by rewrite rev_involutive, rev_app_distr in Ha.
Qed.
Lemma infix_trim s : infix (trim s) s.
Proof. etrans; [apply infix_trim_end|apply infix_trim_start]. Qed.
Lemma trim_end_length s : (length (trim_end s) <= length s)%nat.
Proof. destruct (infix_trim_end s) as (a & b & E). rewrite E at 2. rewrite !length_app. lia. Qed.

Lemma find_map_Some {A B} (f : A → option B) l y :
  find_map f l = Some y → ∃ x, x ∈ l ∧ f x = Some y.
Proof.
  induction l as [|x l IH]; simpl; [done|]. destruct (f x) as [z|] eqn:E.
  - intros [= ->]. exists x. split; [by left|done].
  - intros (z & ? & ?)%IH. exists z. split; [by right|done].
Qed.
Lemma elem_of_rev {A} (x : A) l : x ∈ rev l ↔ x ∈ l.
Proof. by rewrite !list_elem_of_In, <-in_rev. Qed.
Lemma find_map_ext {A B} (f g : A → option B) l : (∀ x, f x = g x) → find_map f l = find_map g l.
Proof. intros H. induction l as [|x l IH]; simpl; [done|]. by rewrite H, IH. Qed.
Lemma existsb_ext {A} (f g : A → bool) l : (∀ x, f x = g x) → existsb f l = existsb g l.
Proof. intros H. induction l as [|x l IH]; simpl; [done|]. by rewrite H, IH. Qed.
Lemma find_map_app {A B} (f : A → option B) l l' :
  find_map f (l ++ l') = match find_map f l with Some y => Some y | None => find_map f l' end.
Proof. induction l as [|x l IH]; simpl; [done|]. by destruct (f x). Qed.

Lemma starts_with_take p s n :
  starts_with p (take n s) = starts_with p s && (length p <=? n)%nat.
Proof.
  apply eq_iff_eq_true. rewrite andb_true_iff, !starts_with_true, Nat.leb_le. split.
  - intros [t H]. assert (Hl := f_equal length H). rewrite length_app in Hl.
    rewrite length_take in Hl. split; [|lia].
    exists (t ++ drop n s). by rewrite app_assoc, <-H, take_drop.
  - intros [[t ->] Hn]. exists (take (n - length p) t). by rewrite take_app, take_ge by lia.
Qed.

Definition match_at (p s : list Z) (i j : nat) : Prop :=
  (i <= j <= i + length s)%nat ∧ starts_with p (drop (j - i) s) = true.
Lemma match_at_here p s i : starts_with p s = true → match_at p s i i.
Proof. intros H. split; [lia|]. by rewrite Nat.sub_diag. Qed.
Lemma match_at_next p c s i j : match_at p s (S i) j → match_at p (c :: s) i j.
Proof.
  intros [H1 H2]. split; [simpl; lia|]. by replace (j - i)%nat with (S (j - S i)) by lia.
Qed.

Lemma match_indices_sound p s i skip j : j ∈ match_indices p s i skip → match_at p s i j.
Proof.
  revert i skip. induction s as [|c s IH]; intros i [|skip]; cbn [match_indices]; try set_solver.
  - case_match; [|set_solver]. intros ->%list_elem_of_singleton. by apply match_at_here.
  - case_match; [rewrite elem_of_cons; intros [->|Hj%IH]|intros Hj%IH];
      [by apply match_at_here|by apply match_at_next..].
  - intros Hj%IH. by apply match_at_next.
Qed.

Lemma match_indices_past p s n k skip :
  (n < k + length p)%nat → filter (λ j, (j + length p <= n)%nat) (match_indices p s k skip) = [].
Proof.
  intros Hi. apply filter_none, Forall_forall. intros j [Hj _]%match_indices_sound. lia.
Qed.

(** Searching a prefix of the text finds the matches that end inside it. *)
Lemma match_indices_take p s n i skip :
  match_indices p (take n s) i skip =
    filter (λ j, (j + length p <= i + n)%nat) (match_indices p s i skip).
Proof.
  revert n i skip. induction s as [|c s IH]; intros n i skip.
  { rewrite take_nil. destruct skip as [|skip]; [|done]. cbn [match_indices].
    destruct (starts_with p []) eqn:E; [|done].
    apply starts_with_true in E as [t Ht]. destruct p; [|done].
    rewrite filter_cons_True by (simpl; lia). done. }
  destruct n as [|n]; destruct skip as [|skip]; cbn [take match_indices].
  - rewrite <-(take_0 (c :: s)), starts_with_take. destruct p as [|a p]; simpl.
    + rewrite filter_cons_True by lia. f_equal. symmetry. apply (match_indices_past []). simpl. lia.
    + rewrite andb_false_r. symmetry. case_match.
      * rewrite filter_cons_False by lia. apply (match_indices_past (a :: p)). simpl. lia.
      * apply (match_indices_past (a :: p)). simpl. lia.
  - symmetry. apply match_indices_past. lia.
  - change (c :: take n s) with (take (S n) (c :: s)). rewrite starts_with_take.
    assert (Hs : ∀ k, filter (λ j, (j + length p <= i + S n)%nat) (match_indices p s (S i) k)
      = match_indices p (take n s) (S i) k).
    { intros k. rewrite IH. apply list_filter_iff. intros j. lia. }
    destruct (starts_with p (c :: s)); simpl; [|by rewrite Hs].
    destruct (Nat.leb_spec (length p) (S n)).
    + rewrite filter_cons_True by lia. by rewrite Hs.
    + rewrite filter_cons_False by lia. rewrite Hs, !IH, !match_indices_past by lia. done.
  - rewrite IH. apply list_filter_iff. intros j. lia.
Qed.

(** The first match, if nothing before it matches. *)
Lemma match_indices_first p pre s i :
  starts_with p s = true → (∀ a b, pre = a ++ b → b ≠ [] → starts_with p (b ++ s) = false) →
  ∃ l, match_indices p (pre ++ s) i 0 = (i + length pre)%nat :: l.
Proof.
  intros Hs. revert i. induction pre as [|c pre IH]; intros i Hno.
  - simpl. rewrite Nat.add_0_r. destruct s; simpl in *; rewrite Hs; eauto.
  - simpl app. cbn [match_indices].
    assert (starts_with p (c :: pre ++ s) = false) as -> by by apply (Hno [] (c :: pre)).
    destruct (IH (S i)) as [l ->]; [|exists l; f_equal; simpl; lia].
    intros a b -> Hb. by apply (Hno (c :: a) b).
Qed.

(** ** Rows that match *)

Lemma lower_length s : length (to_ascii_lowercase s) = length s.
Proof. apply length_fmap. Qed.

Lemma lower_take n s : to_ascii_lowercase (take n s) = take n (to_ascii_lowercase s).
Proof. apply fmap_take. Qed.
Lemma lower_drop n s : to_ascii_lowercase (drop n s) = drop n (to_ascii_lowercase s).
Proof. apply fmap_drop. Qed.
Lemma lower_app s t : to_ascii_lowercase (s ++ t) = to_ascii_lowercase s ++ to_ascii_lowercase t.
Proof. apply fmap_app. Qed.

Definition is_quote (c : Z) : bool := existsb (eqb c) BANNER_QUOTE_CHARS.

Lemma existsb_below x l b : Forall (λ y, b <= y) l → x < b → existsb (eqb x) l = false.
Proof.
  intros Hl Hx. apply existsb_false. eapply Forall_impl; [exact Hl|]. intros y Hy.
  apply eqb_false. cbn beta in Hy. lia.
Qed.
Lemma glyphs_above : Forall (λ y, 0xb7 <= y) BANNER_PREFIX_GLYPHS.
Proof. apply (bool_decide_unpack _). by vm_compute. Qed.
Lemma ascii_not_chrome c : 33 <= c <= 126 → is_banner_chrome_char c = false.
Proof.
  intros Hc. unfold is_banner_chrome_char. rewrite (existsb_below _ _ 0xb7); [|apply glyphs_above|lia].
  unfold is_whitespace. rewrite !(proj2 (between_false _ _ _)) by lia.
  rewrite !(proj2 (Z.eqb_neq _ _)) by lia. done.
Qed.
(** Decoration is not affected by case. *)
Lemma chrome_lower s :
  forallb is_banner_chrome_char (to_ascii_lowercase s) = forallb is_banner_chrome_char s.
Proof.
  induction s as [|c s IH]; [done|].
  change (to_ascii_lowercase (c :: s))
    with ((if is_ascii_uppercase c then c + 32 else c) :: to_ascii_lowercase s).
  cbn [forallb]. rewrite IH. f_equal. unfold is_ascii_uppercase. destruct (between 65 90 c) eqn:E; [|done].
  apply between_true in E. by rewrite !ascii_not_chrome by lia.
Qed.

Section banners.
Context (is_alphanumeric : Z → bool).
Abbreviation banner_match := (banner_match is_alphanumeric).
Abbreviation banner_loop := (banner_loop is_alphanumeric).

(** The search of the whole row, without the bound on where a match may start. *)
Definition banner_match_full (plain pattern_lower : list Z) : option (nat * option (list Z)) :=
  banner_loop plain (length pattern_lower)
    (match_indices pattern_lower (to_ascii_lowercase plain) 0 0).

Lemma banner_loop_near plain m starts :
  Forall (λ j, (j <= length plain)%nat) starts →
  banner_loop plain m (filter (λ j, (j <= LIMIT_PREFIX_MAX_CHARS)%nat) starts)
  = banner_loop plain m starts.
Proof.
  induction 1 as [|j starts Hj _ IH]; [done|]. rewrite filter_cons. case_decide as Hn.
  - cbn [UsageLimit.banner_loop]. by rewrite IH.
  - rewrite IH. cbn [UsageLimit.banner_loop]. rewrite length_take_le by done.
    by rewrite (proj2 (Nat.ltb_lt _ _)) by lia.
Qed.

Lemma banner_window plain pattern_lower :
  banner_match plain pattern_lower = banner_match_full plain pattern_lower.
Proof.
  unfold UsageLimit.banner_match, banner_match_full. rewrite lower_take, match_indices_take.
  rewrite <-(banner_loop_near plain _ (match_indices _ _ _ _)).
  - f_equal. apply list_filter_iff. intros j. lia.
  - apply Forall_forall. intros j [Hj _]%match_indices_sound. rewrite lower_length in Hj. lia.
Qed.

(** What a validated hint is. *)
Definition is_hint (suffix hint : list Z) : Prop :=
  infix hint suffix ∧ (0 < length hint <= HINT_MAX_CHARS)%nat
  ∧ Forall (λ c, is_clean_hint_char is_alphanumeric c = true) hint
  ∧ (length suffix <= length hint + LIMIT_TAIL_MAX_CHARS)%nat
  ∧ ∃ i, suffix_anchor_chars (to_ascii_lowercase suffix) = Some i
       ∧ (i <= LIMIT_HINT_ANCHOR_MAX_PREFIX)%nat.

Lemma extract_reset_hint_infix plain lower hint :
  extract_reset_hint plain lower = Some hint →
  infix hint plain ∧ (length hint <= HINT_MAX_CHARS)%nat.
Proof.
  unfold extract_reset_hint. destruct (hint_start lower) as [idx|]; [|done].
  cbn [mbind option_bind]. cbv zeta. intros [= <-]. split.
  - do 2 (etrans; [apply infix_trim_end || apply infix_take|]).
    etrans; [apply infix_trim|]. do 2 (etrans; [apply infix_take|]). apply infix_drop.
  - etrans; [apply trim_end_length|]. rewrite length_take. lia.
Qed.

Lemma validated_hint suffix hint :
  validated_reset_hint is_alphanumeric suffix (to_ascii_lowercase suffix) = Some hint →
  is_hint suffix hint.
Proof.
  unfold validated_reset_hint. destruct (suffix_anchor_chars _) as [i|] eqn:Ei; [|done]. simpl.
  destruct (Nat.ltb_spec LIMIT_HINT_ANCHOR_MAX_PREFIX i); [done|].
  destruct (extract_reset_hint _ _) as [h|] eqn:Eh; [|done]. simpl.
  destruct (_ || _) eqn:Eg; [done|]. intros [= <-].
  apply extract_reset_hint_infix in Eh as [Hinf Hlen].
  rewrite !orb_false_iff, negb_false_iff, Nat.eqb_neq, Nat.ltb_ge, forallb_true, lower_length in Eg.
  destruct Eg as [[H1 H2] H3]. split_and!; try done; [lia|lia|]. by exists i.
Qed.

(** A row that carries a banner. *)
Definition banner_row (pattern_lower plain : list Z) (stop : nat) (hint : option (list Z)) : Prop :=
  ∃ prefix matched suffix, plain = prefix ++ matched ++ suffix
    ∧ stop = length (prefix ++ matched) ∧ to_ascii_lowercase matched = pattern_lower
    ∧ (length prefix <= LIMIT_PREFIX_MAX_CHARS)%nat
    ∧ Forall (λ c, is_banner_prefix_char c = true) prefix
    ∧ Forall (λ c, is_quote c = false) plain
    ∧ match hint with
      | None => Forall (λ c, is_banner_chrome_char c = true) suffix
      | Some hint => is_hint suffix hint
      end.

Lemma banner_loop_sound plain p starts stop hint :
  Forall (match_at p (to_ascii_lowercase plain) 0) starts →
  banner_loop plain (length p) starts = Some (stop, hint) → banner_row p plain stop hint.
Proof.
  induction 1 as [|j starts [Hj Hm] _ IH]; [done|]. cbn [UsageLimit.banner_loop].
  rewrite lower_length in Hj. rewrite length_take_le by lia.
  destruct (_ || negb _) eqn:Eg; [apply IH|].
  rewrite orb_false_iff, negb_false_iff, Nat.ltb_ge, forallb_true in Eg. destruct Eg as [Hp1 Hp2].
  destruct (existsb _ plain) eqn:Eq; [done|]. apply existsb_false in Eq.
  assert (Hrow : ∀ h, match h with
      | None => Forall (λ c, is_banner_chrome_char c = true) (drop (j + length p) plain)
      | Some hint => is_hint (drop (j + length p) plain) hint end →
    banner_row p plain (j + length p) h).
  { intros h Hh. rewrite Nat.sub_0_r in Hm. apply starts_with_true in Hm as [t Ht].
    rewrite <-lower_drop in Ht.
    assert (Hlen := f_equal length Ht). rewrite lower_length, length_app, length_drop in Hlen.
    exists (take j plain), (take (length p) (drop j plain)), (drop (j + length p) plain).
    rewrite <-drop_drop, !take_drop. split_and!; try done.
    - rewrite length_app, !length_take, length_drop. lia.
    - by rewrite lower_take, Ht, take_app_length.
    - rewrite length_take. lia.
    - by rewrite drop_drop. }
  rewrite chrome_lower. destruct (forallb _ _) eqn:Ec.
  { intros [= <- <-]. apply Hrow. by apply forallb_true. }
  destruct (validated_reset_hint _ _ _) as [h|] eqn:Eh.
  - destruct (_ <=? _)%nat; intros [= <- <-]; apply Hrow; by apply validated_hint.
  - destruct (_ <=? _)%nat; apply IH.
Qed.

Lemma banner_match_sound plain p stop hint :
  banner_match plain p = Some (stop, hint) → banner_row p plain stop hint.
Proof.
  rewrite banner_window. apply banner_loop_sound, Forall_forall. intros j. apply match_indices_sound.
Qed.

(** A plain banner is the first match of its row. *)
Lemma banner_match_plain prefix c matched suffix :
  is_banner_prefix_char c = false → (length prefix <= LIMIT_PREFIX_MAX_CHARS)%nat →
  forallb is_banner_prefix_char prefix = true → forallb is_banner_chrome_char suffix = true →
  existsb is_quote (prefix ++ (c :: matched) ++ suffix) = false →
  banner_match_full (prefix ++ (c :: matched) ++ suffix) (to_ascii_lowercase (c :: matched)) =
    Some (length prefix + length (c :: matched), None)%nat.
Proof.
  intros Hc Hlen Hpre Hsuf Hq. unfold banner_match_full. rewrite !lower_app, lower_length.
  set (p := to_ascii_lowercase (c :: matched)).
  destruct (match_indices_first p (to_ascii_lowercase prefix) (p ++ to_ascii_lowercase suffix) 0)
    as [l ->].
  { apply starts_with_true. by eexists. }
  { intros a b Hab Hb. destruct b as [|d b]; [done|].
    destruct (starts_with p ((d :: b) ++ _)) eqn:E; [|done]. exfalso.
    apply starts_with_true in E as [t Et]. unfold p in Et.
    assert (Hd : is_banner_chrome_char d = true).
    { rewrite <-chrome_lower, Hab, forallb_app in Hpre. by apply andb_true_iff in Hpre as [_ [? _]%andb_true_iff]. }
    assert (Hcl := chrome_lower [c]). cbn [forallb] in Hcl. rewrite !andb_true_r in Hcl.
    injection Et as Ed _. change (is_banner_chrome_char c) with (is_banner_prefix_char c) in Hcl.
    rewrite Hc in Hcl.
    change (forallb is_banner_chrome_char [if is_ascii_uppercase c then c + 32 else c] = false) in Hcl.
    rewrite <-Ed in Hcl. cbn [forallb] in Hcl. by rewrite Hd in Hcl. }
  cbn [UsageLimit.banner_loop]. rewrite lower_length, Nat.add_0_l, take_app_length, Hpre.
  rewrite (proj2 (Nat.ltb_ge _ _)) by done. simpl orb. unfold is_quote in Hq. rewrite Hq.
  rewrite app_assoc, <-length_app, drop_app_length, chrome_lower, Hsuf. by rewrite length_app.
Qed.
End banners.

(** ** The cache is exact *)

Section exact.
Context (scan : list (list Z) → list Z → Evidence).
(** What the inputs are drawn from: the text of a line revision of a run of a
    session, and the patterns of a capability fingerprint. *)
Context (text_of : list Z → Z → Z → list Z) (patterns_of : option (list Z) → option (list (list Z))).

Definition consistent (input : CapacityInput) : Prop :=
  patterns input = patterns_of (input_fingerprint input)
  ∧ Forall (λ '(revision, text), text = text_of (input_id input) (run_generation input) revision)
      (lines input).

Definition memo_exact (id : list Z) (gen : Z) (pats : list (list Z)) (memo : gmap Z Evidence) : Prop :=
  map_Forall (λ revision e, e = scan pats (text_of id gen revision)) memo.
Definition cache_exact (id : list Z) (c : LineCache) : Prop :=
  ∀ pats, patterns_of (fingerprint c) = Some pats →
    memo_exact id (generation c) pats (cached_lines c)
    ∧ ∀ text e, cached_raw c = Some (text, e) → e = scan pats (chars_of text).

(** The evidence of lines without a cache: any match, and the newest hint. *)
Definition line_evidence (pats : list (list Z)) (texts : list (list Z)) : Evidence :=
  (existsb (λ text, (scan pats text).1) texts, find_map (λ text, (scan pats text).2) (rev texts)).

Lemma scan_lines_exact id gen pats range memo detected hint :
  memo_exact id gen pats memo →
  Forall (λ '(revision, text), text = text_of id gen revision) range →
  ∃ memo', memo_exact id gen pats memo' ∧ dom memo' ⊆ dom memo ∪ list_to_set range.*1
    ∧ scan_lines scan pats range memo detected hint =
      (memo', (detected || (line_evidence pats range.*2).1, opt_or (line_evidence pats range.*2).2 hint)).
Proof.
  intros Hm Hr. revert memo detected hint Hm.
  induction Hr as [|[revision text] range -> _ IH]; intros memo detected hint Hm.
  { exists memo. rewrite orb_false_r. split_and!; [done|set_solver|done]. }
  cbn [scan_lines]. set (e := scan pats (text_of id gen revision)).
  assert (default e (memo !! revision) = e) as ->.
  { destruct (memo !! revision) as [x|] eqn:E; [|done]. by apply (Hm revision x) in E as ->. }
  destruct (IH (<[revision:=e]> memo) (detected || e.1) (opt_or e.2 hint)) as (memo' & H1 & H2 & H3).
  { by apply map_Forall_insert_2. }
  exists memo'. split; [done|]. split; [set_solver|]. rewrite H3. unfold line_evidence. csimpl.
  rewrite find_map_app. simpl. fold e. f_equal. f_equal.
  - by rewrite orb_assoc.
  - destruct (find_map _ _); [done|]. simpl. by destruct (e.2).
Qed.

(** A filled cache is exact, mentions no other revision, and yields what scanning does. *)
Lemma cached_scan_exact id pats all range raw c :
  patterns_of (fingerprint c) = Some pats → cache_exact id c →
  Forall (λ '(revision, text), text = text_of id (generation c) revision) all →
  ∃ c', cache_exact id c' ∧ dom (cached_lines c') ⊆ dom (cached_lines c) ∪ list_to_set all.*1
    ∧ cached_scan scan pats all range raw c =
      (c', match pats with
           | [] => (false, None)
           | _ =>
               let found := line_evidence pats (take (range.2 - range.1) (drop range.1 all.*2)) in
               let raw_found := match raw with [] => (false, None) | _ => scan pats (chars_of raw) end in
               (found.1 || raw_found.1, opt_or found.2 raw_found.2)
           end).
Proof.
  intros Hp Hc Hall. destruct (Hc pats Hp) as [Hm Hraw]. unfold cached_scan.
  assert (Hcut : ∀ a b, list_to_set (take a (drop b all)).*1 ⊆@{gset Z} list_to_set all.*1).
  { intros a b x. rewrite !elem_of_list_to_set, fmap_take, fmap_drop.
    intros H. by eapply subseteq_drop, subseteq_take. }
  destruct pats as [|p pats]; [by exists c; split_and!; [|set_solver|]|].
  destruct (scan_lines_exact id (generation c) (p :: pats) (take (range.2 - range.1) (drop range.1 all))
    (cached_lines c) false None) as (memo & H1 & H2 & ->); [done|by apply Forall_take, Forall_drop|].
  rewrite <-fmap_drop, <-fmap_take. set (found := line_evidence _ _). simpl orb.
  assert (opt_or found.2 None = found.2) as -> by by destruct found.2.
  assert (Hex : ∀ r, (∀ text e, r = Some (text, e) → e = scan (p :: pats) (chars_of text)) →
    cache_exact id (mkLineCache (generation c) (fingerprint c) memo r)).
  { intros r Hr pats' Hp'. simpl in Hp'. rewrite Hp in Hp'. injection Hp' as <-. by split. }
  assert (Hdom : dom memo ⊆ dom (cached_lines c) ∪ list_to_set all.*1).
  { etrans; [exact H2|]. specialize (Hcut (range.2 - range.1)%nat range.1). set_solver. }
  destruct raw as [|b raw].
  { eexists. split; [by apply Hex|]. split; [exact Hdom|].
    clearbody found. destruct found as [? []]; simpl; by rewrite orb_false_r. }
  set (fresh := scan (p :: pats) (chars_of (b :: raw))). cbn [cached_raw].
  set (entry := match cached_raw c with
    | Some (text, e) => if text == b :: raw then (text, e) else (b :: raw, fresh)
    | None => (b :: raw, fresh) end).
  assert (He : entry.2 = scan (p :: pats) (chars_of entry.1) ∧ entry.2 = fresh).
  { unfold entry. destruct (cached_raw c) as [[text e]|]; [|done].
    destruct (text == b :: raw) eqn:Et; [|done]. apply eqb_elim in Et as ->.
    simpl. by rewrite (Hraw _ _ eq_refl). }
  destruct He as [He Hfresh]. exists (mkLineCache (generation c) (fingerprint c) memo (Some entry)).
  split; [apply Hex; by intros text e [= E]; rewrite E in He|]. split; [exact Hdom|].
  by rewrite <-Hfresh.
Qed.

Lemma refresh_exact input c :
  consistent input → cache_exact (input_id input) c →
  cache_exact (input_id input) (refresh input c)
  ∧ generation (refresh input c) = run_generation input
  ∧ fingerprint (refresh input c) = input_fingerprint input
  ∧ dom (cached_lines (refresh input c)) ⊆ list_to_set (lines input).*1.
Proof.
  intros Hi Hc.
  assert (Hf : ∀ m : gmap Z Evidence, dom (filter (λ '(revision, _), revision ∈ (lines input).*1) m)
    ⊆ list_to_set (lines input).*1).
  { intros m x [e [_ Hx]%map_lookup_filter_Some]%elem_of_dom. by apply elem_of_list_to_set. }
  unfold refresh. destruct (_ || _) eqn:E; simpl; split_and!; try apply Hf; try done.
  - intros pats Hp. destruct (Hc pats Hp) as [Hm Hr]. split; [|done].
    intros r e [H _]%map_lookup_filter_Some. by apply Hm.
  - apply orb_false_iff in E as [E _]. by apply neqb_elim.
  - apply orb_false_iff in E as [_ E]. by apply neqb_elim.
Qed.

(** An analysis leaves exact caches, of the sessions it saw and the lines they
    retain, and observes what scanning everything would. *)
Definition direct (input : CapacityInput) : option CapacityObservation :=
  (λ pats,
    observe_with (length (lines input)) (raw input)
      (λ range raw,
        match pats with
        | [] => (false, None)
        | _ =>
            let found := line_evidence pats (take (range.2 - range.1) (drop range.1 (lines input).*2)) in
            let raw_found := match raw with [] => (false, None) | _ => scan pats (chars_of raw) end in
            (found.1 || raw_found.1, opt_or found.2 raw_found.2)
        end) (state input)) <$> patterns input.

Lemma analyze_one_exact input c :
  consistent input → cache_exact (input_id input) c →
  ∃ c', analyze_one scan input c = (c', direct input) ∧ cache_exact (input_id input) c'
    ∧ dom (cached_lines c') ⊆ list_to_set (lines input).*1.
Proof.
  intros Hi Hc. unfold analyze_one, direct.
  destruct (refresh_exact input c Hi Hc) as (Hr & Hg & Hf & Hd).
  destruct Hi as [Hp Hl]. destruct (patterns input) as [pats|]; [|eexists; by split_and!].
  destruct (window (state input) (length (lines input)) (raw input)) as [range wraw] eqn:Ew.
  destruct (cached_scan_exact (input_id input) pats (lines input) range wraw (refresh input c))
    as (c' & H1 & H2 & ->); [by rewrite Hf|done|by rewrite Hg|].
  exists c'. split_and!; [|done|set_solver]. f_equal. simpl. f_equal.
  unfold observe_with. by rewrite Ew.
Qed.

Definition sessions_exact (s : Sessions) : Prop := map_Forall cache_exact s.

(** The entry that the results have for a session: of the last input with its id. *)
Definition last_input (id : list Z) (inputs : list CapacityInput)
    : option (CapacityInput * option CapacityObservation) :=
  find_map (λ input, if input_id input == id then Some (input, direct input) else None) (rev inputs).

Definition retains_only (inputs : list CapacityInput) (id : list Z) (c : LineCache) : Prop :=
  ∃ input, input ∈ inputs ∧ input_id input = id
    ∧ dom (cached_lines c) ⊆ list_to_set (lines input).*1.

Lemma analyze_inputs_exact inputs s prepared :
  Forall consistent inputs → sessions_exact s →
  let r := analyze_inputs scan inputs s prepared in
  sessions_exact r.1
  ∧ (∀ id, r.2 !! id = match last_input id inputs with Some x => Some x | None => prepared !! id end)
  ∧ (∀ id c, r.1 !! id = Some c → retains_only inputs id c ∨ (s !! id = Some c ∧ id ∉ input_id <$> inputs)).
Proof.
  intros Hi. revert s prepared. induction Hi as [|input inputs Hi _ IH]; intros s prepared Hs.
  { split_and!; [done..|]. intros id c Hc. right. split; [done|apply not_elem_of_nil]. }
  cbn [analyze_inputs].
  assert (Hc : cache_exact (input_id input) (default default_cache (s !! input_id input))).
  { destruct (s !! input_id input) as [c|] eqn:E; [by apply Hs|]. intros pats _. by split. }
  destruct (analyze_one_exact input _ Hi Hc) as (c' & -> & Hc' & Hd).
  destruct (IH (<[input_id input:=c']> s) (<[input_id input:=(input, direct input)]> prepared))
    as (H1 & H2 & H3); [by apply map_Forall_insert_2|]. split; [exact H1|]. split.
  - intros id. rewrite H2. unfold last_input. simpl rev. rewrite find_map_app.
    destruct (find_map _ (rev inputs)); [done|]. simpl.
    destruct (input_id input == id) eqn:E.
    + apply eqb_elim in E as <-. by rewrite lookup_insert_eq.
    + apply eqb_false in E. by rewrite lookup_insert_ne.
  - intros id c [(input' & ? & ? & ?)|[H Hid]]%H3.
    + left. exists input'. split_and!; try done. by right.
    + destruct (decide (id = input_id input)) as [->|Hne].
      * rewrite lookup_insert_eq in H. injection H as <-. left. exists input. split_and!; try done. by left.
      * rewrite lookup_insert_ne in H by done. right. split; [done|]. csimpl. by apply not_elem_of_cons.
Qed.

Lemma analyze_with_exact s inputs :
  Forall consistent inputs → sessions_exact s →
  sessions_exact (analyze_with scan s inputs).1
  ∧ (∀ id, (analyze_with scan s inputs).2 !! id = last_input id inputs)
  ∧ map_Forall (retains_only inputs) (analyze_with scan s inputs).1.
Proof.
  intros Hi Hs. unfold analyze_with.
  destruct (analyze_inputs_exact inputs (filter (λ '(id, _), id ∈ input_id <$> inputs) s) ∅ Hi)
    as (H1 & H2 & H3).
  { intros id c [Hc _]%map_lookup_filter_Some. by apply Hs. }
  split; [exact H1|]. split.
  - intros id. rewrite H2, lookup_empty. by destruct (last_input id inputs).
  - intros id c [H|[[_ H]%map_lookup_filter_Some Hn]]%H3; [exact H|done].
Qed.
End exact.

(** A text without characters is no banner, unless a pattern is empty. *)
Lemma banner_match_nil is_alphanumeric p : p ≠ [] → banner_match is_alphanumeric [] p = None.
Proof. intros Hp. unfold banner_match. rewrite take_nil. by destruct p. Qed.

Lemma evidence_detect is_alphanumeric pats text :
  [] ∉ pats →
  capacity_line_evidence is_alphanumeric pats text =
    (detect_usage_limit_raw is_alphanumeric pats text,
     detect_usage_limit_hint_raw is_alphanumeric pats text).
Proof.
  intros Hp. destruct pats as [|p pats]; [done|]. destruct text as [|c text]; [|done].
  unfold capacity_line_evidence, detect_usage_limit_raw, detect_usage_limit_hint_raw.
  change (strip_ansi_for_usage_limit []) with (@nil Z).
  set (l := p :: pats) in *. clearbody l.
  assert (Hno : Forall (λ p, banner_match is_alphanumeric [] (to_ascii_lowercase p) = None) l).
  { apply Forall_forall. intros q Hq. apply banner_match_nil. by destruct q. }
  assert (Ha : any_segment is_alphanumeric l [] = false).
  { unfold any_segment. cbn [rows_of split_any existsb]. rewrite orb_false_r. apply existsb_false.
    eapply Forall_impl; [exact Hno|]. intros q Hq. unfold bounded_limit_match, banner_match_end.
    by rewrite Hq. }
  assert (Hh : first_hint is_alphanumeric l [] = None).
  { unfold first_hint. cbn [rows_of split_any find_map].
    destruct (find_map _ l) as [h|] eqn:E; [|done]. exfalso.
    apply find_map_Some in E as (q & Hq & E). rewrite Forall_forall in Hno.
    unfold colocated_banner_hint in E. by rewrite (Hno q Hq) in E. }
  by rewrite Ha, Hh.
Qed.

Lemma direct_observe is_alphanumeric input :
  is_none_or (patterns input) (λ pats, negb (existsb (eqb []) pats)) = true →
  direct (capacity_line_evidence is_alphanumeric) input =
    (λ pats, observe is_alphanumeric pats (lines input).*2 (raw input) (state input)) <$> patterns input.
Proof.
  unfold direct, observe. destruct (patterns input) as [pats|]; [|done].
  cbn [is_none_or fmap option_fmap option_map]. intros Hp%negb_true_iff. assert (Hn : [] ∉ pats).
  { intros H%existsb_eqb. by rewrite H in Hp. }
  rewrite length_fmap. f_equal. unfold observe_with.
  destruct (window (state input) (length (lines input)) (raw input)) as [range wraw].
  set (texts := take _ (drop _ _)).
  assert (Hraw : match wraw with [] => (false, None) | _ => capacity_line_evidence is_alphanumeric pats (chars_of wraw) end
    = (detect_usage_limit_raw is_alphanumeric pats (chars_of wraw),
       detect_usage_limit_hint_raw is_alphanumeric pats (chars_of wraw))).
  { destruct wraw; rewrite <-evidence_detect by done; [|done]. by destruct pats. }
  rewrite Hraw.
  assert (Hlines : line_evidence (capacity_line_evidence is_alphanumeric) pats texts
    = (detect_usage_limit is_alphanumeric pats texts, detect_usage_limit_hint is_alphanumeric pats texts)).
  { unfold line_evidence, detect_usage_limit, detect_usage_limit_hint.
    assert (He := λ text, evidence_detect is_alphanumeric pats text Hn).
    destruct pats as [|p pats].
    - f_equal; [by induction texts|]. by induction (rev texts).
    - f_equal.
      + apply existsb_ext. intros text. by rewrite He.
      + apply find_map_ext. intros text. by rewrite He. }
  rewrite Hlines. cbn [fst snd]. by destruct pats.
Qed.

#[export] Instance analysis_machine (is_alphanumeric : Z → bool) :
  Machine Sessions (list CapacityInput) Prepared := {
    initial s := s = ∅; step := analyze is_alphanumeric }.

Section analysis.
Context (is_alphanumeric : Z → bool).
Context (text_of : list Z → Z → Z → list Z) (patterns_of : option (list Z) → option (list (list Z))).
Let scan := capacity_line_evidence is_alphanumeric.
Let run := run (M := analysis_machine is_alphanumeric).

(** What a result is for its inputs. *)
Definition exact_result (inputs : list CapacityInput) (prepared : Prepared) : Prop :=
  ∀ id, match prepared !! id with
        | Some (input, o) => input ∈ inputs ∧ input_id input = id
            ∧ o = (λ pats, observe is_alphanumeric pats (lines input).*2 (raw input) (state input))
                    <$> patterns input
        | None => id ∉ input_id <$> inputs
        end.

Definition no_empty_pattern : Prop := ∀ fp pats, patterns_of fp = Some pats → [] ∉ pats.

Lemma last_input_exact inputs prepared :
  no_empty_pattern → Forall (consistent text_of patterns_of) inputs →
  (∀ id, prepared !! id = last_input scan id inputs) → exact_result inputs prepared.
Proof.
  intros Hne Hi Hp id. rewrite Hp. unfold last_input.
  destruct (find_map _ (rev inputs)) as [[input o]|] eqn:E.
  - apply find_map_Some in E as (input' & Hin & E). rewrite elem_of_rev in Hin.
    destruct (input_id input' == id) eqn:Eid; [|done]. injection E as -> <-.
    apply eqb_elim in Eid. split_and!; [done..|]. apply direct_observe.
    rewrite Forall_forall in Hi. destruct (Hi input Hin) as [Hpat _].
    apply is_none_or_true. intros pats Hpats. apply negb_true_iff.
    destruct (existsb _ pats) eqn:Ee; [|done]. apply existsb_eqb in Ee.
    rewrite Hpat in Hpats. exfalso. exact (Hne _ _ Hpats Ee).
  - intros (input & -> & Hin)%list_elem_of_fmap.
    assert (Hn : ∀ l, input ∈ l → find_map (λ x,
      if input_id x == input_id input then Some (x, direct scan x) else None) l ≠ None).
    { intros l. induction l as [|x l IH]; [by intros ?%elem_of_nil|]. simpl. intros Hl.
      destruct (input_id x == input_id input) eqn:E'; [done|]. apply elem_of_cons in Hl as [<-|Hl]; [|by apply IH].
      by rewrite eqb_refl in E'. }
    apply (Hn (rev inputs)); [|done]. by apply elem_of_rev.
Qed.

Lemma run_exact batches s :
  no_empty_pattern → Forall (Forall (consistent text_of patterns_of)) batches →
  sessions_exact scan text_of patterns_of s →
  sessions_exact scan text_of patterns_of (run s batches).1
  ∧ Forall2 exact_result batches (run s batches).2.
Proof.
  intros Hne Hb. revert s. induction Hb as [|inputs batches Hi _ IH]; intros s Hs; [by split|].
  unfold run. rewrite run_cons. simpl step. unfold analyze. fold scan.
  destruct (analyze_with_exact scan text_of patterns_of s inputs Hi Hs) as (H1 & H2 & _).
  destruct (IH _ H1) as [H3 H4]. split; [exact H3|]. constructor; [|exact H4].
  by apply last_input_exact.
Qed.
End analysis.

(** Whatever sequence of projections it serves, the cache of line evidence never
    changes an observation: each result is what scanning every line and the raw
    output would give for that input, and every input has a result.  Within a run of
    a session a revision names one text, and a fingerprint determines the patterns. *)
Theorem cached_observation_exact is_alphanumeric text_of patterns_of batches :
  no_empty_pattern patterns_of → Forall (Forall (consistent text_of patterns_of)) batches →
  Forall2 (exact_result is_alphanumeric) batches
    (run (M := analysis_machine is_alphanumeric) ∅ batches).2.
Proof. intros Hne Hb. eapply run_exact; [done..|]. apply map_Forall_empty. Qed.

(** The cache does not grow: after an analysis it holds the sessions of its
    inputs only, and of each of them evidence of lines that are still retained. *)
Theorem evidence_cache_bounded is_alphanumeric text_of patterns_of batches inputs :
  no_empty_pattern patterns_of →
  Forall (Forall (consistent text_of patterns_of)) (batches ++ [inputs]) →
  map_Forall (retains_only inputs)
    (run (M := analysis_machine is_alphanumeric) ∅ (batches ++ [inputs])).1.
Proof.
  intros Hne [Hb Hi]%Forall_app. rewrite Forall_singleton in Hi. rewrite run_app.
  destruct (run_exact is_alphanumeric text_of patterns_of batches ∅ Hne Hb) as [Hs _];
    [apply map_Forall_empty|].
  destruct (run ∅ batches) as [s os]. simpl in *. unfold analyze.
  destruct (analyze_with_exact _ text_of patterns_of s inputs Hi Hs) as (_ & _ & H).
  by destruct (analyze_with _ s inputs).
Qed.

(** The search is restricted to the characters in which a banner can start and
    the pattern itself; for every row and pattern the match and the hint are those
    of a search of the whole row. *)
Theorem banner_window_exact is_alphanumeric plain pattern_lower :
  banner_match is_alphanumeric plain pattern_lower
    = banner_match_full is_alphanumeric plain pattern_lower
  ∧ bounded_limit_match is_alphanumeric plain pattern_lower
    = is_some (banner_match_full is_alphanumeric plain pattern_lower).
Proof.
  unfold bounded_limit_match, banner_match_end. rewrite banner_window. split; [done|].
  by destruct (banner_match_full _ _ _).
Qed.

(** A line latches a session only if one of its rows, once stripped, is a
    banner: decoration of at most 24 characters, the pattern in any case, and then
    only decoration or a clean hint close to it, with no quotation mark anywhere;
    and the hint of a line is the hint of such a row. *)
Theorem latch_needs_banner is_alphanumeric patterns text :
  let evidence := capacity_line_evidence is_alphanumeric patterns text in
  (evidence.1 = true → ∃ p row stop hint, p ∈ patterns
     ∧ row ∈ rows_of (strip_ansi_for_usage_limit text)
     ∧ banner_row is_alphanumeric (to_ascii_lowercase p) row stop hint)
  ∧ (∀ hint, evidence.2 = Some hint → ∃ p row stop, p ∈ patterns
     ∧ row ∈ rows_of (strip_ansi_for_usage_limit text)
     ∧ banner_row is_alphanumeric (to_ascii_lowercase p) row stop (Some hint)).
Proof.
  unfold capacity_line_evidence. destruct patterns as [|p0 ps]; [done|].
  destruct text as [|c text]; [done|]. cbv zeta. set (pats := p0 :: ps). cbn [fst snd]. split.
  - intros (row & Hrow & (p & Hp & Hm)%existsb_exists)%existsb_exists.
    apply list_elem_of_In in Hrow, Hp. unfold bounded_limit_match, banner_match_end in Hm.
    destruct (banner_match _ _ _) as [[stop hint]|] eqn:E; [|done].
    exists p, row, stop, hint. split_and!; [done..|]. by apply banner_match_sound.
  - intros hint (row & Hrow & (p & Hp & Hm)%find_map_Some)%find_map_Some.
    unfold colocated_banner_hint in Hm.
    destruct (banner_match _ _ _) as [[stop h]|] eqn:E; [|done]. simpl in Hm. subst h.
    exists p, row, stop. split_and!; [done..|]. by apply banner_match_sound.
Qed.

(** A plain banner is not missed: a row that is decoration, the pattern in any
    case and decoration again, without quotation marks, latches, provided that the
    pattern does not itself begin with decoration. *)
Theorem banner_latches is_alphanumeric patterns p text prefix c matched suffix :
  p ∈ patterns → text ≠ [] →
  prefix ++ (c :: matched) ++ suffix ∈ rows_of (strip_ansi_for_usage_limit text) →
  to_ascii_lowercase (c :: matched) = to_ascii_lowercase p → is_banner_prefix_char c = false →
  (length prefix <= LIMIT_PREFIX_MAX_CHARS)%nat → forallb is_banner_prefix_char prefix = true →
  forallb is_banner_chrome_char suffix = true →
  existsb is_quote (prefix ++ (c :: matched) ++ suffix) = false →
  (capacity_line_evidence is_alphanumeric patterns text).1 = true
  ∧ detect_usage_limit is_alphanumeric patterns [text] = true.
Proof.
  intros Hp Ht Hrow Hm Hc Hlen Hpre Hsuf Hq.
  assert (Hany : any_segment is_alphanumeric patterns (strip_ansi_for_usage_limit text) = true).
  { apply existsb_exists. eexists. split; [by apply list_elem_of_In|]. apply existsb_exists.
    exists p. split; [by apply list_elem_of_In|].
    unfold bounded_limit_match, banner_match_end. rewrite <-Hm, banner_window.
    by rewrite (banner_match_plain is_alphanumeric prefix c matched suffix). }
  unfold capacity_line_evidence, detect_usage_limit. destruct patterns as [|q qs]; [by apply elem_of_nil in Hp|].
  destruct text; [done|]. simpl existsb. by rewrite Hany.
Qed.

(** ** Concrete runs *)

Definition demo_patterns : list (list Z) := [ascii "usage limit reached"].
Definition demo_banner : list Z := [0x25a0; 0x20] ++ ascii "Usage limit reached" ++ [0x20; 0x2026].

Lemma banner_latches_witness :
  (capacity_line_evidence is_ascii_alphanumeric demo_patterns demo_banner).1 = true
  ∧ detect_usage_limit is_ascii_alphanumeric demo_patterns [demo_banner] = true.
Proof.
  apply (banner_latches is_ascii_alphanumeric demo_patterns (ascii "usage limit reached") demo_banner
    [0x25a0; 0x20] 0x55 (ascii "sage limit reached") [0x20; 0x2026]);
    [by left|done|by left|try (by vm_compute)..]. vm_compute. lia.
Defined.

(** The hint of a banner, and rows that only mention one. *)
Lemma banner_rows :
  capacity_line_evidence is_ascii_alphanumeric demo_patterns
    (ascii "Usage limit reached, resets in 2h") = (true, Some (ascii "resets in 2h"))
  ∧ capacity_line_evidence is_ascii_alphanumeric demo_patterns
    ([0x22] ++ ascii "usage limit reached" ++ [0x22]) = (false, None)
  ∧ capacity_line_evidence is_ascii_alphanumeric demo_patterns
    (ascii "12: usage limit reached") = (false, None).
Proof. by vm_compute. Qed.

(** Text that was never shown latches once the buffer was trimmed inside a device
    control string that has a BEL in it. *)
Lemma bell_in_string_latches :
  let shown := ESC :: 0x50 :: BEL :: ascii "usage limit reached" in
  detect_usage_limit_raw is_ascii_alphanumeric demo_patterns shown = false
  ∧ detect_usage_limit_raw is_ascii_alphanumeric demo_patterns
      (chars_of (truncate_usage_scan_buffer (encode shown) 19)) = true.
Proof. by vm_compute. Qed.

Definition demo_texts (id : list Z) (gen revision : Z) : list Z :=
  if revision =? 2 then demo_banner else ascii "ordinary output".
Definition demo_fingerprints (fp : option (list Z)) : option (list (list Z)) :=
  match fp with Some _ => Some demo_patterns | None => None end.
Definition demo_input (lines : list (Z * list Z)) : CapacityInput :=
  mkCapacityInput (ascii "s") 1 (Some [1]) (Some demo_patterns) default_capacity lines [].
Definition demo_batches : list (list CapacityInput) :=
  [[demo_input [(1, ascii "ordinary output"); (2, demo_banner)]];
   [demo_input [(2, demo_banner); (3, ascii "ordinary output")]]].

Lemma demo_consistent :
  no_empty_pattern demo_fingerprints
  ∧ Forall (Forall (consistent demo_texts demo_fingerprints)) demo_batches.
Proof.
  split; [|by repeat constructor].
  intros [fp|] pats; [|done]. intros [= <-] H. by apply existsb_eqb in H.
Qed.

Lemma cached_observation_exact_witness :
  Forall2 (exact_result is_ascii_alphanumeric) demo_batches
    (run (M := analysis_machine is_ascii_alphanumeric) ∅ demo_batches).2
  ∧ ((λ r : Prepared, at_usage_limit <$> (r !! ascii "s" ≫= snd)) <$>
      (run (M := analysis_machine is_ascii_alphanumeric) ∅ demo_batches).2) = [Some true; Some true].
Proof.
  split; [|by vm_compute].
  apply (cached_observation_exact is_ascii_alphanumeric demo_texts demo_fingerprints demo_batches);
    apply demo_consistent.
Defined.

Lemma evidence_cache_bounded_witness :
  map_Forall (retains_only [demo_input [(2, demo_banner); (3, ascii "ordinary output")]])
    (run (M := analysis_machine is_ascii_alphanumeric) ∅ demo_batches).1.
Proof.
  apply (evidence_cache_bounded is_ascii_alphanumeric demo_texts demo_fingerprints
    [[demo_input [(1, ascii "ordinary output"); (2, demo_banner)]]]); apply demo_consistent.
Defined.
