(* ===== verification/Peon.v ===== *)
(** * The peon: retained output and what may be shown of it

    The rest of [peon.rs], with the two functions of [runtime/terminal_runtime.rs]
    that decide whether typed input may be kept.  Lines are lists of characters;
    the scanners of pull-request numbers and of JSON work on bytes, as in the code.
    The main theorems: the ring buffer keeps the newest lines under revisions that
    never repeat; input is kept only when no password prompt is among the newest
    lines; a label keeps every pull request the input names; a JSON object is found
    exactly when there is a balanced one. *)
From S2P Require Export UsageLimit.

(** ** The ring buffer *)

Record RingBuffer : Type := mkRing {
  ring_lines : list (Z * list Z);
  capacity : nat;
  next_revision : Z;
  sensitivity : option (Z * bool);
}.

Definition new (capacity : nat) : RingBuffer := mkRing [] capacity 1 None.

(** The loop that drops from the front ends when the length is the capacity. *)
Definition push (line : list Z) (r : RingBuffer) : RingBuffer * Z :=
  let revision := next_revision r in
  let grown := ring_lines r ++ [(revision, line)] in
  (mkRing (drop (length grown - capacity r) grown) (capacity r)
     (wrapping_add u64_max (next_revision r) 1) None, revision).


Definition revision (r : RingBuffer) : Z := next_revision r - 1.
Definition shared_snapshot (r : RingBuffer) : list (Z * list Z) := ring_lines r.
Definition snapshot (r : RingBuffer) : list (list Z) := (ring_lines r).*2.
Definition last_n (n : nat) (r : RingBuffer) : list (list Z) := (take n (rev (ring_lines r))).*2.
Definition has_after (rev : Z) (r : RingBuffer) : bool :=
  is_some_and (last (ring_lines r)) (λ '(line_revision, _), rev <? line_revision).

Record RingSnapshot : Type := mkRingSnapshot {
  first_revision : Z;
  last_revision : Z;
  snapshot_lines : list (list Z);
}.
Definition snapshot_after_with_revisions (rev : Z) (r : RingBuffer) : option RingSnapshot :=
  let lines := filter (λ '(line_revision, _), rev < line_revision) (ring_lines r) in
  first_revision ← fst <$> head lines;
  last_revision ← fst <$> last lines;
  Some (mkRingSnapshot first_revision last_revision lines.*2).

Record SensitivitySnapshot : Type := mkSensitivitySnapshot {
  snapshot_revision : Z;
  newest : list (list Z);
  cached : option bool;
}.
Definition sensitivity_snapshot (r : RingBuffer) : SensitivitySnapshot :=
  mkSensitivitySnapshot (revision r) (last_n 5 r)
    (snd <$> opt_filter (λ '(rev, _), rev =? revision r) (sensitivity r)).
Definition cache_sensitivity (rev : Z) (value : bool) (r : RingBuffer) : RingBuffer :=
  if rev =? revision r
  then mkRing (ring_lines r) (capacity r) (next_revision r) (Some (rev, value))
  else r.

(** ** Words *)

Fixpoint split_by (p : Z → bool) (s : list Z) : list (list Z) :=
  match s with
  | [] => [[]]
  | c :: s =>
      if p c then [] :: split_by p s
      else match split_by p s with
           | [] => [[c]]
           | piece :: pieces => (c :: piece) :: pieces
           end
  end.
Definition split_whitespace (s : list Z) : list (list Z) :=
  filter (λ w, w ≠ []) (split_by is_whitespace s).

Fixpoint take_while (p : Z → bool) (s : list Z) : list Z :=
  match s with c :: s => if p c then c :: take_while p s else [] | [] => [] end.
Fixpoint drop_while (p : Z → bool) (s : list Z) : list Z :=
  match s with c :: s' => if p c then drop_while p s' else s | [] => [] end.

(** ** Pull-request numbers, on bytes *)

Definition pr_prefix (s : list Z) : option nat :=
  if starts_with (ascii "pr #") s then Some 4%nat
  else if starts_with (ascii "pull request #") s then Some 14%nat
  else None.

(** The loop at a position: the byte before it and the bytes from it on. *)
Fixpoint explicit_pr_loop (fuel : nat) (before : option Z) (s : list Z) : list (list Z) :=
  match fuel, s with
  | S fuel, b :: s' =>
      if is_some_and before is_ascii_alphanumeric then explicit_pr_loop fuel (Some b) s'
      else
        match pr_prefix s with
        | Some prefix_len =>
            let rest := drop prefix_len s in
            let digits := take_while is_ascii_digit rest in
            let numbers := match digits with [] => [] | _ => [digits] end in
            numbers ++ explicit_pr_loop fuel (last (take prefix_len s ++ digits))
                         (drop (length digits) rest)
        | None => explicit_pr_loop fuel (Some b) s'
        end
  | _, _ => []
  end.
Definition explicit_pr_numbers (text : list Z) : list (list Z) :=
  let lower := to_ascii_lowercase text in explicit_pr_loop (length lower) None lower.

Fixpoint referenced_pr_loop (fuel : nat) (s : list Z) : list (list Z) :=
  match fuel, s with
  | S fuel, b :: s' =>
      if b != 0x23 then referenced_pr_loop fuel s'
      else
        let digits := take_while is_ascii_digit s' in
        let numbers := match digits with [] => [] | _ => [digits] end in
        numbers ++ referenced_pr_loop fuel (drop (length digits) s')
  | _, _ => []
  end.
Definition referenced_pr_numbers (text : list Z) : list (list Z) :=
  referenced_pr_loop (length text) text.

(** ** The first balanced JSON object, on bytes *)

Fixpoint extract_loop (bytes : list Z) (depth : Z) (in_string escaped : bool) (offset : nat)
    : option nat :=
  match bytes with
  | [] => None
  | byte :: bytes =>
      if in_string then
        if escaped then extract_loop bytes depth true false (S offset)
        else if byte =? 0x5c then extract_loop bytes depth true true (S offset)
        else if byte =? 0x22 then extract_loop bytes depth false false (S offset)
        else extract_loop bytes depth true false (S offset)
      else if byte =? 0x22 then extract_loop bytes depth true escaped (S offset)
      else if byte =? 0x7b then extract_loop bytes (depth + 1) false escaped (S offset)
      else if byte =? 0x7d then
        depth ← (if depth =? 0 then None else Some (depth - 1));
        if depth =? 0 then Some offset else extract_loop bytes depth false escaped (S offset)
      else extract_loop bytes depth false escaped (S offset)
  end.
Definition extract_json (raw : list Z) : option (list Z) :=
  start ← find [0x7b] raw;
  offset ← extract_loop (drop start raw) 0 false false 0;
  Some (take (offset + 1) (drop start raw)).

(** ** Small predicates *)

Definition is_valid_observed_status (status : list Z) : bool :=
  one_of status (ascii <$> ["waiting_for_input"; "blocked"; "failed"; "done"; "stale"; "working"; "idle"]).
Definition is_terminal_observed_status (observed : option (list Z)) : bool :=
  match observed with
  | Some status => one_of status (ascii <$> ["idle"; "stale"; "done"; "waiting_for_input"; "blocked"; "failed"])
  | None => false
  end.

Fixpoint join_lines (lines : list (list Z)) : list Z :=
  match lines with [] => [] | [l] => l | l :: lines => l ++ LF :: join_lines lines end.
Definition evidence_is_grounded (evidence : list Z) (output : list (list Z)) : bool :=
  let evidence := trim evidence in
  match evidence with [] => false | _ => contains evidence (join_lines output) end.

(** ** Outcomes of test and build commands *)

Inductive Command : Type := Test | Build.
Inductive Outcome : Type := TestsFailed | TestsPassed | BuildFailed | BuildPassed.
#[export] Instance Outcome_eq_dec : EqDecision Outcome.
Proof. solve_decision. Defined.

Definition any_prefix (prefixes : list string) (line : list Z) : bool :=
  existsb (λ p, starts_with (ascii p) line) prefixes.
Definition any_contained (parts : list string) (line : list Z) : bool :=
  existsb (λ p, contains (ascii p) line) parts.

Definition command_of (line : list Z) (command : option Command) : option Command :=
  let command_line := trim_start (drop_while (λ c, existsb (eqb c) (ascii "$> ")) line) in
  if any_prefix ["cargo test"; "pnpm test"; "pnpm run test"; "npm test"] command_line then Some Test
  else if any_prefix ["cargo build"; "pnpm build"; "npm run build"] command_line then Some Build
  else command.

Definition outcome_of (line : list Z) (command : option Command) : option Outcome :=
  match command with
  | Some Test =>
      if any_contained ["test result: failed"; "tests failed"; "could not compile"] line then Some TestsFailed
      else if any_contained ["test result: ok"; "tests passed"] line then Some TestsPassed
      else None
  | Some Build =>
      if any_contained ["could not compile"; "build failed"] line then Some BuildFailed
      else if any_contained ["finished "; "build completed"] line then Some BuildPassed
      else None
  | None => None
  end.

Fixpoint command_outcome_loop (output : list (list Z)) (command : option Command)
    (outcome : option Outcome) : option Outcome :=
  match output with
  | [] => outcome
  | line :: output =>
      let line := to_ascii_lowercase (strip_ansi line) in
      let command := command_of line command in
      match outcome_of line command with
      | Some outcome => command_outcome_loop output None (Some outcome)
      | None => command_outcome_loop output command outcome
      end
  end.
Definition command_outcome_summary (output : list (list Z)) : option Outcome :=
  command_outcome_loop output None None.
Definition outcome_text (o : Outcome) : list Z :=
  ascii match o with
        | TestsFailed => "Tests failed" | TestsPassed => "Tests passed"
        | BuildFailed => "Build failed" | BuildPassed => "Build passed"
        end.

(** ** What input may name a session

    The Unicode tables of the standard library are arguments: [is_alphanumeric] and
    [is_alphabetic] of a character, [to_lowercase] of a text, [to_uppercase] of a
    character. *)
Section unicode.
Context (is_alphanumeric is_alphabetic : Z → bool).
Context (to_lowercase : list Z → list Z) (to_uppercase : Z → list Z).

Definition password_patterns : list (list Z) := ascii <$> ["password"; "passphrase"; "pin:"].
Definition password_prompt_line (line : list Z) : bool :=
  let lower := to_lowercase (strip_ansi line) in
  let compact := concat (split_whitespace lower) in
  existsb (λ pattern, contains pattern lower || contains pattern compact) password_patterns.
Definition looks_like_password_prompt (recent_lines : list (list Z)) : bool :=
  existsb password_prompt_line (take 3 (rev recent_lines)).

(** [SensitivitySnapshot::classify]; the length of a line is in bytes. *)
Definition classify_lines (lines : list (list Z)) : bool :=
  if 64 * 1024 <? fold_left (λ sum line, saturating_add u64_max sum (Z.of_nat (length (encode line))))
                    lines 0
  then true
  else existsb password_prompt_line lines.
Definition classify (s : SensitivitySnapshot) : bool :=
  match cached s with Some value => value | None => classify_lines (newest s) end.

Definition is_descriptive_input (line : list Z) : bool :=
  let trimmed := trim line in
  is_some (trimmed !! 3%nat)
  && negb (is_some_and (head trimmed) (λ c, existsb (eqb c) (ascii "/!:#")))
  && existsb is_alphabetic trimmed.

Definition spaced (words : list (list Z)) : list Z := join SP words.
Definition normalize_generic_instruction (label : list Z) : list Z :=
  to_ascii_lowercase
    (spaced (split_whitespace ((λ c, if is_alphanumeric c then c else SP) <$> label))).

(** [Iterator::min] of positions and [rposition]. *)
Fixpoint min_of (l : list nat) : option nat :=
  match l with
  | [] => None
  | x :: l => Some (match min_of l with Some y => Nat.min x y | None => x end)
  end.
Definition rposition {A} (p : A → bool) (l : list A) : option nat :=
  (λ i, (length l - 1 - i)%nat) <$> position p (rev l).
Fixpoint pairs {A} (l : list A) : list (A * A) :=
  match l with x :: (y :: _) as rest => (x, y) :: pairs rest | _ => [] end.

Definition literals (l : list string) : list (list Z) := ascii <$> l.
Definition PROMPT_EXAMPLE_TOPIC : list (list (list Z)) :=
  literals <$> [["peon"]; ["model"]; ["detection"; "detector"; "detecting"; "detect"]].
Definition INCIDENTAL_REFERENCES : list (list Z) :=
  literals ["about"; "context"; "describe"; "described"; "documentation"; "example"; "literally";
    "mention"; "mentions"; "mentioned"; "note"; "notes"; "phrase"; "prompt"; "quote"; "quoted";
    "regarding"; "related"; "text"; "wording"].
Definition ALTERNATIVE_REFERENCES : list (list Z) := literals ["instead"; "other"; "rather"].
Definition TASK_ACTIONS : list (list Z) :=
  literals ["add"; "address"; "analyze"; "audit"; "build"; "check"; "clean"; "configure"; "debug";
    "define"; "detect"; "diagnose"; "document"; "enable"; "ensure"; "fix"; "handle"; "harden";
    "implement"; "improve"; "inspect"; "investigate"; "migrate"; "monitor"; "optimize"; "refactor";
    "remove"; "repair"; "resolve"; "review"; "run"; "support"; "test"; "trace"; "update"; "verify"].
Definition NEGATED_AUXILIARIES : list (list Z) :=
  literals ["aren"; "can"; "couldn"; "didn"; "doesn"; "don"; "hadn"; "hasn"; "haven"; "isn";
    "mightn"; "mustn"; "needn"; "shouldn"; "wasn"; "weren"; "won"; "wouldn"].

(** The closure over the clauses of the input. *)
Definition clause_mentions_topic (clause : list Z) : bool :=
  let words := split_whitespace clause in
  let mentions_topic := forallb (λ variants, existsb (λ word, one_of word words) variants) PROMPT_EXAMPLE_TOPIC in
  let topic_start := default (length words)
    (min_of (omap (λ variants, min_of (omap (λ word, position (eqb word) words) variants))
               PROMPT_EXAMPLE_TOPIC)) in
  let before_topic := take topic_start words in
  let task_segment_start :=
    match rposition (λ word, one_of word (literals ["and"; "but"; "while"; "whereas"])) before_topic with
    | Some index => (index + 1)%nat
    | None => 0%nat
    end in
  let task_segment := drop task_segment_start words in
  let is_action word := one_of word TASK_ACTIONS in
  let task_action :=
    existsb is_action (take (topic_start - task_segment_start) task_segment)
    || is_some_and (rposition (eqb (ascii "and")) before_topic)
         (λ and_index, existsb is_action (take and_index words)) in
  let negated :=
    existsb (λ word, one_of word (literals ["not"; "never"; "without"])) task_segment
    || existsb (λ '(a, b), one_of a NEGATED_AUXILIARIES && (b == ascii "t")) (pairs task_segment) in
  let incidental_reference := existsb (λ word, one_of word INCIDENTAL_REFERENCES) task_segment in
  let alternative_reference := existsb (λ word, one_of word ALTERNATIVE_REFERENCES) task_segment in
  mentions_topic && task_action && negb negated && negb incidental_reference
  && negb alternative_reference.
Definition input_mentions_prompt_example_topic (input_hint : list Z) : bool :=
  existsb (λ clause, clause_mentions_topic (normalize_generic_instruction clause))
    (split_any (ascii ";,.!?" ++ [LF]) input_hint).

Definition is_prompt_example_label (normalized_label : list Z) : bool :=
  take 4 (split_whitespace normalized_label) == literals ["fixing"; "peon"; "model"; "detection"].

(** [normalize_summary]: the prefix is cut from the bytes of the trimmed text. *)
Definition SUMMARY_PREFIXES : list (list Z) :=
  literals ["user is "; "user wants "; "user wants to "; "user asked "; "user requested ";
    "user typed "; "user "].
Definition normalize_summary (s : list Z) : list Z :=
  let trimmed := trim s in
  let lower := to_lowercase trimmed in
  match find_map (λ prefix, if starts_with prefix lower then Some prefix else None) SUMMARY_PREFIXES with
  | Some prefix =>
      match chars_of (drop (length prefix) (encode trimmed)) with
      | [] => trimmed
      | c :: chars => to_uppercase c ++ chars
      end
  | None => trimmed
  end.

Definition GENERIC_PREFIXES : list (list Z) :=
  literals ["instructing system"; "instructing the system"; "instructing agent"; "instructing the agent"].
Definition is_usable_input_label (label input_hint : list Z) : bool :=
  let normalized := normalize_generic_instruction (normalize_summary label) in
  let candidate_pr_numbers := referenced_pr_numbers (encode label) in
  negb (normalized == [])
  && (negb (is_prompt_example_label normalized) || input_mentions_prompt_example_topic input_hint)
  && negb (existsb (λ prefix, starts_with prefix normalized) GENERIC_PREFIXES)
  && negb (contains (ascii "current task execution") normalized)
  && forallb (λ number, one_of number candidate_pr_numbers) (explicit_pr_numbers (encode input_hint)).

Definition work_history_summary (output : list (list Z)) (inference_summary : option (list Z))
    : option (list Z) :=
  let labelled :=
    input ← opt_filter is_descriptive_input
              (find_map (λ line, trim <$> strip_prefix (ascii "[User input]:") line) (rev output));
    summary ← opt_filter (λ summary, is_usable_input_label summary input) inference_summary;
    Some (normalize_summary summary) in
  match labelled with
  | Some summary => Some summary
  | None => outcome_text <$> command_outcome_summary output
  end.

(** [trim_matches] of a word, and the count of distinct words of three characters. *)
Definition trim_matches (p : Z → bool) (w : list Z) : list Z :=
  rev (drop_while p (rev (drop_while p w))).
Fixpoint title_words (found : list (list Z)) (words : list (list Z)) : list (list Z) :=
  match words with
  | [] => found
  | word :: words =>
      if (6 <=? length found)%nat then found
      else
        let word := to_lowercase (trim_matches (λ c, negb (is_alphabetic c)) word) in
        title_words (if (3 <=? length word)%nat && negb (one_of word found) then word :: found else found)
          words
  end.
Definition has_title_context (output : list (list Z)) : bool :=
  let words := concat ((λ row, split_whitespace (strip_ansi (take 500 row))) <$> take 40 (rev output)) in
  (6 <=? length (title_words [] words))%nat.
End unicode.

(** ** Whether typed input may be kept, [runtime/terminal_runtime.rs]

    The session entry with the run of its runtime and its buffer; what
    [prepare_input_sensitivity] holds between its two critical sections; and what
    it returned.  The pure classification runs between the two. *)
Record Handle : Type := mkHandle { run_gen : Z; output_buffer : RingBuffer }.
Record InputSensitivity : Type := mkInputSensitivity {
  input_generation : Z;
  input_revision : Z;
  sensitive : bool;
}.

Definition prepare_capture (session : option Handle) : option (Z * SensitivitySnapshot) :=
  (λ handle, (run_gen handle, sensitivity_snapshot (output_buffer handle))) <$> session.

Section input.
Context (to_lowercase : list Z → list Z).

Definition prepare_commit (captured : option (Z * SensitivitySnapshot)) (session : option Handle)
    : option Handle * InputSensitivity :=
  match captured with
  | None => (session, mkInputSensitivity 0 0 true)
  | Some (generation, snapshot) =>
      let sensitive := classify to_lowercase snapshot in
      let session :=
        (λ handle,
          if run_gen handle =? generation
          then mkHandle (run_gen handle)
                 (cache_sensitivity (snapshot_revision snapshot) sensitive (output_buffer handle))
          else handle) <$> session in
      (session, mkInputSensitivity generation (snapshot_revision snapshot) sensitive)
  end.

(** The first component of [validate_input_sensitivity]. *)
Definition validate_input_sensitivity (session : option Handle) (captured : InputSensitivity) : bool :=
  match session with
  | Some handle =>
      sensitive captured || (input_generation captured != run_gen handle)
      || (input_revision captured != revision (output_buffer handle))
  | None => true
  end.

(** The interleavings: output arrives, runs start and end, and any number of inputs
    is between its capture and its commit. *)
Record World : Type := mkWorld {
  session : option Handle;
  next_generation : Z;
  captures : list (option (Z * SensitivitySnapshot));
  prepared : list InputSensitivity;
}.
Inductive Event : Type :=
  | Start (cap : nat)
  | Close
  | Output (line : list Z)
  | Capture
  | Commit (i : nat).

Definition world_step (w : World) (e : Event) : World :=
  match e with
  | Start cap =>
      mkWorld (Some (mkHandle (next_generation w) (new cap))) (next_generation w + 1)
        (captures w) (prepared w)
  | Close => mkWorld None (next_generation w) (captures w) (prepared w)
  | Output line =>
      mkWorld ((λ h, mkHandle (run_gen h) (push line (output_buffer h)).1) <$> session w)
        (next_generation w) (captures w) (prepared w)
  | Capture =>
      mkWorld (session w) (next_generation w) (captures w ++ [prepare_capture (session w)]) (prepared w)
  | Commit i =>
      match captures w !! i with
      | Some captured =>
          let '(s, p) := prepare_commit captured (session w) in
          mkWorld s (next_generation w) (captures w) (prepared w ++ [p])
      | None => w
      end
  end.
Definition initial_world : World := mkWorld None 1 [] [].
Definition world_run (events : list Event) : World := fold_left world_step events initial_world.
End input.

(** ** The ring buffer keeps the newest lines *)

Definition push_all (hist : list (list Z)) (r : RingBuffer) : RingBuffer :=
  fold_left (λ r line, (push line r).1) hist r.
(** The lines of a history with their revisions. *)
Definition numbered (o : nat) (hist : list (list Z)) : list (Z * list Z) :=
  imap (λ i line, (Z.of_nat (o + i) + 1, line)) hist.

Lemma numbered_app o hist hist' :
  numbered o (hist ++ hist') = numbered o hist ++ numbered (o + length hist) hist'.
Proof.
  unfold numbered. rewrite imap_app. f_equal. apply imap_ext. intros i x _. simpl. do 2 f_equal. lia.
Qed.
Lemma numbered_len o hist : length (numbered o hist) = length hist.
Proof. apply length_imap. Qed.

Lemma numbered_cons o line hist :
  numbered o (line :: hist) = (Z.of_nat o + 1, line) :: numbered (S o) hist.
Proof.
  change (line :: hist) with ([line] ++ hist). rewrite numbered_app. simpl length.
  rewrite Nat.add_1_r. unfold numbered at 1. simpl. by rewrite Nat.add_0_r.
Qed.

(** The lines after a revision are a suffix. *)
Lemma numbered_after o rev hist :
  filter (λ '(i, _), Z.of_nat rev < i) (numbered o hist) = drop (rev - o) (numbered o hist).
Proof.
  revert o. induction hist as [|line hist IH]; intros o; [by destruct (rev - o)%nat|].
  rewrite numbered_cons, filter_cons, IH. case_decide.
  - by replace (rev - o)%nat with 0%nat by lia; replace (rev - S o)%nat with 0%nat by lia.
  - by replace (rev - o)%nat with (S (rev - S o)) by lia.
Qed.
Lemma numbered_drop o k hist : drop k (numbered o hist) = numbered (o + k) (drop k hist).
Proof.
  revert o hist. induction k as [|k IH]; intros o hist; [by rewrite !drop_0, Nat.add_0_r|].
  destruct hist as [|line hist]; [done|]. rewrite numbered_cons. simpl. rewrite IH. f_equal. lia.
Qed.

Lemma numbered_texts o hist : (numbered o hist).*2 = hist.
Proof.
  revert o. induction hist as [|line hist IH]; intros o; [done|]. rewrite numbered_cons. csimpl.
  by rewrite IH.
Qed.

Definition ring_ok (hist : list (list Z)) (cap : nat) (r : RingBuffer) : Prop :=
  ring_lines r = drop (length hist - cap) (numbered 0 hist) ∧ capacity r = cap
  ∧ next_revision r = Z.of_nat (length hist) + 1.

Lemma push_ok hist cap r line :
  ring_ok hist cap r → Z.of_nat (length hist) + 1 < u64_max →
  ring_ok (hist ++ [line]) cap (push line r).1 ∧ (push line r).2 = Z.of_nat (length hist) + 1.
Proof.
  intros (Hl & Hc & Hn) Hmax. unfold push, ring_ok. cbn [fst snd ring_lines Peon.capacity next_revision].
  rewrite Hl, Hc, Hn. split_and!; [|done| |done].
  - rewrite numbered_app, <-drop_app_le by (rewrite numbered_len; lia).
    change (numbered (0 + length hist) [line])
      with [(Z.of_nat (0 + length hist + 0) + 1, line)].
    replace (0 + length hist + 0)%nat with (length hist) by lia.
    rewrite drop_drop. f_equal.
    rewrite length_drop, !length_app, numbered_len. simpl. lia.
  - unfold wrapping_add. rewrite length_app, Z.mod_small by lia. simpl. lia.
Qed.

Lemma push_all_ok hist cap :
  Z.of_nat (length hist) < u64_max → ring_ok hist cap (push_all hist (new cap)).
Proof.
  induction hist as [|line hist IH] using rev_ind; intros Hmax; [by split_and!|].
  rewrite length_app in Hmax. simpl in Hmax. unfold push_all. rewrite fold_left_app. simpl.
  apply push_ok; [apply IH; lia|lia].
Qed.

Lemma numbered_last o l :
  fst <$> last (numbered o l) = (if (length l =? 0)%nat then None else Some (Z.of_nat (o + length l))).
Proof.
  destruct l as [|x l _] using rev_ind; [done|]. rewrite numbered_app, last_app. simpl.
  rewrite length_app. simpl. rewrite (proj2 (Nat.eqb_neq _ _)) by lia. f_equal. lia.
Qed.

Lemma snapshot_after_exact hist cap r rev :
  ring_ok hist cap r →
  let from := Nat.max rev (length hist - cap) in
  snapshot_after_with_revisions (Z.of_nat rev) r =
    (if (from <? length hist)%nat
     then Some (mkRingSnapshot (Z.of_nat from + 1) (Z.of_nat (length hist)) (drop from hist)) else None).
Proof.
  intros (Hl & _ & _) from. unfold snapshot_after_with_revisions.
  assert (Hafter : filter (λ '(i, _), Z.of_nat rev < i) (ring_lines r) = numbered from (drop from hist)).
  { rewrite Hl, numbered_drop, numbered_after, numbered_drop, drop_drop. unfold from.
    f_equal; [lia|]. f_equal. lia. }
  rewrite Hafter, numbered_texts, numbered_last, length_drop.
  destruct (Nat.ltb_spec from (length hist)) as [Hlt|Hge]; [|by rewrite drop_ge by lia].
  rewrite (proj2 (Nat.eqb_neq _ _)) by lia.
  destruct (drop from hist) as [|x l] eqn:E.
  { apply (f_equal length) in E. rewrite length_drop in E. simpl in E. lia. }
  rewrite numbered_cons. simpl. do 2 f_equal. lia.
Qed.

Lemma has_after_exact hist cap r rev :
  ring_ok hist cap r →
  has_after (Z.of_nat rev) r = (Nat.max rev (length hist - cap) <? length hist)%nat.
Proof.
  intros (Hl & _ & _). unfold has_after. rewrite Hl, numbered_drop. simpl Nat.add.
  set (kept := (length hist - cap)%nat).
  pose proof (numbered_last kept (drop kept hist)) as Hlast. rewrite length_drop in Hlast.
  destruct (Nat.eqb_spec (length hist - kept) 0) as [Hz|Hz], (last (numbered kept _)) as [[i x]|];
    try discriminate Hlast; simpl.
  - symmetry. apply Nat.ltb_ge. lia.
  - injection Hlast as ->. apply eq_iff_eq_true. rewrite Z.ltb_lt, Nat.ltb_lt. lia.
Qed.

(** After any lines the buffer holds the newest of them, up to its capacity, each
    under its number, and a snapshot after a revision is exactly the retained lines
    that were pushed later, if there is one. *)
Theorem ring_keeps_newest hist cap rev :
  Z.of_nat (length hist) < u64_max →
  let r := push_all hist (new cap) in
  let from := Nat.max rev (length hist - cap) in
  snapshot r = drop (length hist - cap) hist
  ∧ revision r = Z.of_nat (length hist)
  ∧ Forall (λ '(i, line), hist !! Z.to_nat (i - 1) = Some line) (shared_snapshot r)
  ∧ snapshot_after_with_revisions (Z.of_nat rev) r =
      (if (from <? length hist)%nat
       then Some (mkRingSnapshot (Z.of_nat from + 1) (Z.of_nat (length hist)) (drop from hist))
       else None)
  ∧ has_after (Z.of_nat rev) r = is_some (snapshot_after_with_revisions (Z.of_nat rev) r).
Proof.
  intros Hmax r from. pose proof (push_all_ok hist cap Hmax) as Hr. fold r in Hr.
  rewrite (snapshot_after_exact hist cap r rev Hr), (has_after_exact hist cap r rev Hr).
  destruct Hr as (Hl & _ & Hn). rewrite numbered_drop in Hl.
  split_and!; [|unfold revision; lia| |done|by destruct (_ <? _)%nat].
  - unfold snapshot. by rewrite Hl, numbered_texts.
  - unfold shared_snapshot. rewrite Hl. apply Forall_forall. intros [i line] Hin.
    apply elem_of_lookup_imap in Hin as (j & y & [= -> ->] & Hj).
    rewrite lookup_drop in Hj. rewrite <-Hj. f_equal. lia.
Qed.

(** ** Input is kept only when no prompt is in view *)

Section input_proofs.
Context (to_lowercase : list Z → list Z).
Abbreviation classify_lines := (classify_lines to_lowercase).
Abbreviation world_step := (world_step to_lowercase).

Definition view (r : RingBuffer) : bool := classify_lines (last_n 5 r).

(** The cached classification is that of the lines in view, if it is current. *)
Definition buffer_ok (r : RingBuffer) : Prop :=
  ∀ rev v, sensitivity r = Some (rev, v) → rev = revision r → v = view r.
Definition capture_ok (w : World) (c : Z * SensitivitySnapshot) : Prop :=
  c.1 < next_generation w ∧ classify to_lowercase c.2 = classify_lines (newest c.2)
  ∧ ∀ h, session w = Some h → c.1 = run_gen h →
      snapshot_revision c.2 <= revision (output_buffer h)
      ∧ (snapshot_revision c.2 = revision (output_buffer h) → newest c.2 = last_n 5 (output_buffer h)).
Definition prepared_ok (w : World) (p : InputSensitivity) : Prop :=
  sensitive p = false → input_generation p < next_generation w
  ∧ ∀ h, session w = Some h → input_generation p = run_gen h →
      input_revision p <= revision (output_buffer h)
      ∧ (input_revision p = revision (output_buffer h) → view (output_buffer h) = false).
Definition handle_ok (n : nat) (w : World) (h : Handle) : Prop :=
  run_gen h < next_generation w ∧ buffer_ok (output_buffer h)
  ∧ 1 <= next_revision (output_buffer h) <= Z.of_nat n + 1.
(** The invariant after [n] events. *)
Definition world_ok (n : nat) (w : World) : Prop :=
  (∀ h, session w = Some h → handle_ok n w h)
  ∧ Forall (λ c, ∀ x, c = Some x → capture_ok w x) (captures w)
  ∧ Forall (prepared_ok w) (prepared w).

Lemma push_revision line r n :
  1 <= next_revision r <= Z.of_nat n + 1 → Z.of_nat n + 1 < u64_max →
  revision (push line r).1 = revision r + 1 ∧ sensitivity (push line r).1 = None
  ∧ 1 <= next_revision (push line r).1 <= Z.of_nat (S n) + 1.
Proof.
  intros Hr Hn. unfold push, revision. cbn [fst next_revision sensitivity]. unfold wrapping_add. rewrite Z.mod_small by lia.
  split_and!; [lia|done|lia..].
Qed.

Lemma cache_same rev v r :
  revision (cache_sensitivity rev v r) = revision r
  ∧ last_n 5 (cache_sensitivity rev v r) = last_n 5 r
  ∧ next_revision (cache_sensitivity rev v r) = next_revision r.
Proof. unfold cache_sensitivity. by destruct (rev =? revision r). Qed.

(** Later worlds, in which the current run only moved on. *)
Definition moved_on (w w' : World) : Prop :=
  next_generation w <= next_generation w' ∧
  ∀ h', session w' = Some h' → run_gen h' < next_generation w →
    ∃ h, session w = Some h ∧ run_gen h = run_gen h'
      ∧ revision (output_buffer h) <= revision (output_buffer h')
      ∧ (revision (output_buffer h) = revision (output_buffer h') →
         last_n 5 (output_buffer h) = last_n 5 (output_buffer h')).

Lemma moved_capture w w' c : moved_on w w' → capture_ok w c → capture_ok w' c.
Proof.
  intros [Hg Hm] (H1 & H2 & H3). split_and!; [lia|done|]. intros h' Hs Heq.
  destruct (Hm h' Hs) as (h & Hh & Hgen & Hle & Hsame); [lia|].
  destruct (H3 h Hh ltac:(lia)) as [H4 H5]. split; [lia|]. intros Hr.
  assert (snapshot_revision c.2 = revision (output_buffer h)) by lia.
  rewrite <-Hsame by lia. by apply H5.
Qed.
Lemma moved_prepared w w' p : moved_on w w' → prepared_ok w p → prepared_ok w' p.
Proof.
  intros [Hg Hm] H Hs. destruct (H Hs) as [H1 H2]. split; [lia|]. intros h' Hs' Heq.
  destruct (Hm h' Hs') as (h & Hh & Hgen & Hle & Hsame); [lia|].
  destruct (H2 h Hh ltac:(lia)) as [H4 H5]. split; [lia|]. intros Hr. unfold view in *.
  rewrite <-Hsame by lia. apply H5. lia.
Qed.

Ltac wsimpl :=
  cbn [Peon.world_step session next_generation captures prepared run_gen output_buffer
       fmap option_fmap option_map fst snd] in *.

Lemma step_moves n w e :
  world_ok n w → Z.of_nat n + 1 < u64_max → moved_on w (world_step w e).
Proof.
  intros (Hh & _) Hn.
  assert (Hid : ∀ caps preps, moved_on w (mkWorld (session w) (next_generation w) caps preps)).
  { intros caps preps. split; wsimpl; [lia|]. intros h Hs _. exists h. split_and!; auto. lia. }
  destruct e as [cap| |line| |i]; wsimpl; [| | |apply Hid|].
  - split; wsimpl; [lia|]. intros h [= <-]. simpl. lia.
  - by split; wsimpl; [lia|].
  - split; wsimpl; [lia|]. intros h' Hs _. destruct (session w) as [h|] eqn:E; [|done].
    apply Some_inj in Hs as <-. destruct (Hh h eq_refl) as (_ & _ & Hr).
    destruct (push_revision line (output_buffer h) n Hr Hn) as (Hp & _). exists h.
    wsimpl. rewrite Hp. split_and!; [done|done|lia|lia].
  - destruct (captures w !! i) as [captured|]; [|destruct w; apply Hid].
    unfold prepare_commit. destruct captured as [[g s]|]; [|apply Hid].
    split; wsimpl; [lia|]. intros h' Hs _. destruct (session w) as [h|]; [|done].
    injection Hs as <-. exists h. wsimpl. destruct (run_gen h =? g); wsimpl; [|by split_and!].
    destruct (cache_same (snapshot_revision s) (classify to_lowercase s) (output_buffer h)) as (-> & -> & _).
    by split_and!.
Qed.

Lemma captured_ok n w h :
  session w = Some h → handle_ok n w h →
  capture_ok w (run_gen h, sensitivity_snapshot (output_buffer h)).
Proof.
  intros Hs (Hg & Hb & _). split_and!; [done| |].
  - unfold classify, sensitivity_snapshot. cbn [snd cached newest].
    destruct (sensitivity (output_buffer h)) as [[rev v]|] eqn:E; [|done].
    cbn [opt_filter]. destruct (Z.eqb_spec rev (revision (output_buffer h))) as [->|]; [|done].
    by apply (Hb _ _ E).
  - intros h' Hs' _. rewrite Hs in Hs'. injection Hs' as <-. by split; [apply Z.le_refl|].
Qed.

(** A commit caches only what is current, and returns what the capture shows. *)
Lemma commit_ok n w captured :
  (∀ h, session w = Some h → handle_ok n w h) → (∀ x, captured = Some x → capture_ok w x) →
  let '(s, p) := prepare_commit to_lowercase captured (session w) in
  let w' := mkWorld s (next_generation w) (captures w) (prepared w ++ [p]) in
  (∀ h, s = Some h → handle_ok n w' h) ∧ prepared_ok w' p.
Proof.
  intros Hh Hc. unfold prepare_commit. destruct captured as [[g s]|]; [|split; [exact Hh|by intros ?]].
  destruct (Hc _ eq_refl) as (Hg & Hcl & Hcap). wsimpl. destruct (session w) as [h|] eqn:Es.
  2: { split; [done|]. intros _. split; [exact Hg|done]. }
  destruct (Hh h eq_refl) as (Hhg & Hhb & Hhr). specialize (Hcap h eq_refl). wsimpl.
  destruct (cache_same (snapshot_revision s) (classify to_lowercase s) (output_buffer h)) as (Hc1 & Hc2 & Hc3).
  destruct (Z.eqb_spec (run_gen h) g) as [<-|Hne].
  - destruct (Hcap eq_refl) as [Hle Hnew]. split.
    + intros h' Hs'. apply Some_inj in Hs' as <-. split_and!; wsimpl; [done| |rewrite Hc3; lia..].
      intros rev v Hv Hrev. unfold view. rewrite Hc2. rewrite Hc1 in Hrev. unfold cache_sensitivity in Hv.
      destruct (Z.eqb_spec (snapshot_revision s) (revision (output_buffer h))) as [He|_].
      * injection Hv as <- <-. by rewrite Hcl, Hnew.
      * by apply (Hhb rev).
    + intros Hsens. split; [done|]. intros h' Hs' _. wsimpl. apply Some_inj in Hs' as <-. wsimpl.
      rewrite Hc1. split; [done|]. intros Hr. unfold view. rewrite Hc2, <-Hnew, <-Hcl by done. done.
  - split; [intros h' Hs'; by apply Some_inj in Hs' as <-|].
    intros _. split; [done|]. intros h' Hs' Heq. wsimpl. by apply Some_inj in Hs' as <-.
Qed.

Lemma world_step_ok n w e :
  world_ok n w → Z.of_nat n + 1 < u64_max → world_ok (S n) (world_step w e).
Proof.
  intros Hw Hn. pose proof (step_moves n w e Hw Hn) as Hm. destruct Hw as (Hh & Hc & Hp).
  assert (Hc' : Forall (λ c, ∀ x, c = Some x → capture_ok (world_step w e) x) (captures w)).
  { eapply Forall_impl; [exact Hc|]. intros c H x Hx. by eapply moved_capture, H. }
  assert (Hp' : Forall (prepared_ok (world_step w e)) (prepared w)).
  { eapply Forall_impl; [exact Hp|]. intros p. by apply moved_prepared. }
  assert (Hmono : ∀ w' h, next_generation w = next_generation w' → handle_ok n w h → handle_ok (S n) w' h).
  { intros w' h He (H1 & H2 & H3). split_and!; [lia|done|lia..]. }
  destruct e as [cap| |line| |i]; cbn [Peon.world_step] in *.
  - split_and!; [|done..]. intros h Hs. apply Some_inj in Hs as <-. split_and!; wsimpl; try done; [lia|].
    unfold new. cbn [next_revision]. lia.
  - by split_and!.
  - split_and!; [|done..]. intros h' Hs. wsimpl. destruct (session w) as [h|]; [|done].
    apply Some_inj in Hs as <-. destruct (Hh h eq_refl) as (H1 & _ & H3).
    destruct (push_revision line (output_buffer h) n H3 Hn) as (_ & H4 & H5).
    split_and!; wsimpl; [done| |apply H5..]. intros rev v Hv. by rewrite H4 in Hv.
  - split_and!; [|apply Forall_app; split; [done|]|done].
    + intros h Hs. by apply Hmono, Hh.
    + apply Forall_singleton. intros x Hx. unfold prepare_capture in Hx. wsimpl.
      destruct (session w) as [h|] eqn:E; [|done]. apply Some_inj in Hx as <-.
      apply (captured_ok n _ h); [done|]. by apply Hh.
  - destruct (captures w !! i) as [captured|] eqn:Ei.
    2: { split_and!; [|done..]. intros h Hs. by apply Hmono, Hh. }
    rewrite Forall_lookup in Hc. pose proof (commit_ok n w captured Hh (Hc i captured Ei)) as H.
    destruct (prepare_commit to_lowercase captured (session w)) as [s p]. destruct H as [H1 H2].
    split_and!; [|done|].
    + intros h Hs. by apply (Hmono (mkWorld s (next_generation w) (captures w) (prepared w ++ [p]))), H1.
    + apply Forall_app. split; [done|]. by apply Forall_singleton.
Qed.

Lemma world_run_ok events :
  Z.of_nat (length events) < u64_max → world_ok (length events) (world_run to_lowercase events).
Proof.
  induction events as [|e events IH] using rev_ind; intros Hn; [by split_and!; constructor|].
  rewrite length_app in *. simpl length in *. rewrite Nat.add_1_r in *. unfold world_run.
  rewrite fold_left_app. apply world_step_ok; [apply IH; lia|lia].
Qed.
End input_proofs.

(** However output, restarts and other inputs interleave with the classification
    of an input, which runs without a lock: the input passes the validation only if
    none of the newest five lines, as they are then, looks like a password prompt,
    and they are within the byte budget. *)
Theorem input_kept_only_when_safe to_lowercase events p h :
  Z.of_nat (length events) < u64_max →
  let w := world_run to_lowercase events in
  p ∈ prepared w → session w = Some h → validate_input_sensitivity (Some h) p = false →
  Forall (λ line, password_prompt_line to_lowercase line = false) (last_n 5 (output_buffer h))
  ∧ classify_lines to_lowercase (last_n 5 (output_buffer h)) = false.
Proof.
  intros Hn w Hp Hs Hv. destruct (world_run_ok to_lowercase events Hn) as (_ & _ & Hok).
  rewrite Forall_forall in Hok. specialize (Hok p Hp).
  unfold validate_input_sensitivity in Hv. rewrite !orb_false_iff in Hv.
  destruct Hv as [[H1 H2%neqb_elim] H3%neqb_elim]. destruct (Hok H1) as [_ Hview].
  destruct (Hview h Hs H2) as [_ Hfalse]. specialize (Hfalse H3). unfold view in Hfalse.
  split; [|done]. unfold classify_lines in Hfalse.
  destruct (64 * 1024 <? _); [done|]. by apply existsb_false.
Qed.

(** ** Pull-request references *)

(** A maximal digit string at the start of what follows it. *)
Definition is_number (n rest : list Z) : Prop :=
  n ≠ [] ∧ Forall (λ b, is_ascii_digit b = true) n
  ∧ match rest with b :: _ => is_ascii_digit b = false | [] => True end.

Lemma take_while_unique p n rest :
  Forall (λ b, p b = true) n → match rest with b :: _ => p b = false | [] => True end →
  take_while p (n ++ rest) = n.
Proof.
  intros Hn Hr. induction Hn as [|b n Hb _ IH]; simpl.
  - destruct rest as [|b rest]; simpl; [done|]. by rewrite Hr.
  - by rewrite Hb, IH.
Qed.
Lemma take_while_split p s :
  ∃ rest, s = take_while p s ++ rest ∧ drop (length (take_while p s)) s = rest
    ∧ Forall (λ b, p b = true) (take_while p s)
    ∧ match rest with b :: _ => p b = false | [] => True end.
Proof.
  induction s as [|b s (rest & Hs & Hd & Hf & Hr)]; simpl; [by exists []|].
  destruct (p b) eqn:E.
  - exists rest. split_and!; [simpl; by rewrite <-Hs|done|by constructor|done].
  - by exists (b :: s).
Qed.

Definition pr_prefixes : list (list Z) := [ascii "pr #"; ascii "pull request #"].

(** The text names pull request [n]: "pr #" or "pull request #" at the start of a
    word, before the whole number; [before] is the byte before [s]. *)
Definition names_pr (before : option Z) (s n : list Z) : Prop :=
  ∃ a prefix rest, s = a ++ prefix ++ n ++ rest ∧ prefix ∈ pr_prefixes ∧ is_number n rest
    ∧ is_some_and (match last a with Some b => Some b | None => before end) is_ascii_alphanumeric = false.
(** The text has the reference [#n]. *)
Definition refers_to (s n : list Z) : Prop :=
  ∃ a rest, s = a ++ 0x23 :: n ++ rest ∧ is_number n rest.

Lemma in_pr_prefixes p : p ∈ pr_prefixes ↔ p = ascii "pr #" ∨ p = ascii "pull request #".
Proof. unfold pr_prefixes. rewrite elem_of_cons, list_elem_of_singleton. done. Qed.
Lemma pr_prefix_Some s k :
  pr_prefix s = Some k ↔ ∃ prefix rest, prefix ∈ pr_prefixes ∧ s = prefix ++ rest ∧ k = length prefix.
Proof.
  unfold pr_prefix. split.
  - destruct (starts_with (ascii "pr #") s) eqn:E1; [|destruct (starts_with (ascii "pull request #") s) eqn:E2; [|done]];
      intros [= <-].
    + apply starts_with_true in E1 as [t ->]. exists (ascii "pr #"), t. split_and!; [apply in_pr_prefixes; by left|done..].
    + apply starts_with_true in E2 as [t ->]. exists (ascii "pull request #"), t.
      split_and!; [apply in_pr_prefixes; by right|done..].
  - intros (prefix & rest & [->| ->]%in_pr_prefixes & -> & ->); done.
Qed.

Lemma pr_prefix_unique prefix prefix' rest rest' :
  prefix ∈ pr_prefixes → prefix' ∈ pr_prefixes → prefix ++ rest = prefix' ++ rest' →
  prefix = prefix' ∧ rest = rest'.
Proof.
  intros [->| ->]%in_pr_prefixes [->| ->]%in_pr_prefixes He; try (by apply app_inv_head in He); by vm_compute in He.
Qed.

(** A reference does not begin inside another one: only its first byte is a "p". *)
Lemma pr_no_overlap prefix digits rest a prefix' s' :
  prefix ∈ pr_prefixes → prefix' ∈ pr_prefixes → Forall (λ b, is_ascii_digit b = true) digits →
  prefix ++ digits ++ rest = a ++ prefix' ++ s' → a ≠ [] →
  ∃ a', a = prefix ++ digits ++ a' ∧ rest = a' ++ prefix' ++ s'.
Proof.
  intros Hp Hp' Hd E Ha. rewrite app_assoc in E.
  apply app_eq_inv in E as [(k & Hk & Hk2)|(k & -> & Hk)]; [|exists k; by rewrite <-app_assoc].
  destruct k as [|b k].
  { exists []. rewrite app_nil_r in Hk. by rewrite app_nil_r. }
  exfalso. destruct a as [|a0 a]; [done|].
  assert (Hb : b = 0x70).
  { apply (f_equal head) in Hk2. apply in_pr_prefixes in Hp' as [->| ->]; vm_compute in Hk2; congruence. }
  assert (Hin : b ∈ tail prefix ++ digits).
  { assert (Ht : tail prefix ++ digits = a ++ b :: k).
    { destruct prefix as [|p0 prefix]; [|by injection Hk].
      by apply in_pr_prefixes in Hp as [?|?]. }
    rewrite Ht. apply elem_of_app. right. by left. }
  apply elem_of_app in Hin as [Hin|Hin].
  - assert (Hno : forallb (λ p, negb (existsb (eqb 0x70) (tail p))) pr_prefixes = true) by by vm_compute.
    rewrite forallb_true, Forall_forall in Hno. specialize (Hno prefix Hp). cbn beta in Hno.
    apply negb_true_iff in Hno. subst b. apply existsb_eqb in Hin. congruence.
  - rewrite Forall_forall in Hd. specialize (Hd b Hin). by subst b.
Qed.

Lemma is_number_take_while n rest : is_number n rest → take_while is_ascii_digit (n ++ rest) = n.
Proof. intros (_ & H1 & H2). by apply take_while_unique. Qed.

Lemma explicit_pr_loop_spec fuel before s n :
  (length s <= fuel)%nat → n ∈ explicit_pr_loop fuel before s ↔ names_pr before s n.
Proof.
  assert (Hskip : ∀ before b s n,
    (is_some_and before is_ascii_alphanumeric = true ∨ pr_prefix (b :: s) = None) →
    names_pr (Some b) s n ↔ names_pr before (b :: s) n).
  { clear. intros before b s n Hno. split.
    - intros (a & prefix & rest & -> & ? & ? & Hb). exists (b :: a), prefix, rest.
      split_and!; try done. rewrite last_cons. by destruct (last a).
    - intros ([|a0 a] & prefix & rest & E & Hp & ? & Hb).
      + exfalso. simpl in E, Hb. destruct Hno as [Hno|Hno]; [congruence|].
        rewrite (proj2 (pr_prefix_Some (b :: s) (length prefix))) in Hno; [done|]. by exists prefix, (n ++ rest).
      + injection E as <- ->. exists a, prefix, rest. split_and!; try done.
        rewrite last_cons in Hb. by destruct (last a). }
  revert before s. induction fuel as [|fuel IH]; intros before [|b s] Hf; simpl in Hf; try lia.
  1,2: cbn [explicit_pr_loop]; split; [by intros ?%elem_of_nil|].
  1,2: intros (a & prefix & rest & E & Hp & (Hn & _) & _); symmetry in E;
    apply app_eq_nil in E as [_ [_ [E _]%app_eq_nil]%app_eq_nil]; done.
  cbn [explicit_pr_loop]. destruct (is_some_and before is_ascii_alphanumeric) eqn:Eb.
  { rewrite IH by lia. apply Hskip. by left. }
  destruct (pr_prefix (b :: s)) as [k|] eqn:Ek; [|rewrite IH by lia; apply Hskip; by right].
  apply pr_prefix_Some in Ek as (prefix & rest0 & Hp & Hs & ->). rewrite Hs.
  apply (f_equal length) in Hs. rewrite length_app in Hs. simpl in Hs.
  rewrite drop_app_length, take_app_length.
  destruct (take_while_split is_ascii_digit rest0) as (rest & Hrest & Hdrop & Hdig & Hhd).
  set (digits := take_while is_ascii_digit rest0) in *. clearbody digits. rewrite Hdrop, elem_of_app.
  assert (Hlen : (0 < length prefix)%nat).
  { apply in_pr_prefixes in Hp as [->| ->]; vm_compute; lia. }
  assert (Hlast : ∃ x, last prefix = Some x).
  { apply in_pr_prefixes in Hp as [->| ->]; by eexists; vm_compute. }
  destruct Hlast as [x Hlast]. assert (Hl := f_equal length Hrest). rewrite length_app in Hl.
  rewrite IH by lia. rewrite Hrest. clear IH Hf Hs Hl Hdrop. split.
  - intros [Hn|(a & p' & rest' & -> & Hp' & Hnum & Hb)].
    + exists [], prefix, rest. destruct digits as [|d ds]; [by apply elem_of_nil in Hn|].
      apply list_elem_of_singleton in Hn as ->. split_and!; try done.
    + exists (prefix ++ digits ++ a), p', rest'. split_and!; [by rewrite <-!app_assoc|done..|].
      rewrite last_app in Hb. rewrite !last_app, Hlast. rewrite Hlast in Hb. by destruct (last a), (last digits).
  - intros (a & p' & rest' & E & Hp' & Hnum & Hb). destruct a as [|a0 a].
    + left. rewrite app_nil_l in E. apply pr_prefix_unique in E as [<- E]; [|done..].
      assert (n = digits) as ->.
      { rewrite <-(is_number_take_while n rest') by done. rewrite <-E. by rewrite take_while_unique. }
      destruct Hnum as [Hne _]. destruct digits; [done|]. by left.
    + right. apply pr_no_overlap in E as (a' & Ha & ->); [|done..].
      exists a', p', rest'. split_and!; try done. rewrite Ha, !last_app, Hlast in Hb.
      rewrite last_app, Hlast. by destruct (last a'), (last digits).
Qed.

Lemma explicit_pr_spec text n :
  n ∈ explicit_pr_numbers text ↔ names_pr None (to_ascii_lowercase text) n.
Proof. by apply explicit_pr_loop_spec. Qed.

Lemma refers_cons b s n : b ≠ 0x23 → refers_to s n ↔ refers_to (b :: s) n.
Proof.
  intros Hb. split.
  - intros (a & rest & -> & Hn). by exists (b :: a), rest.
  - intros ([|a0 a] & rest & E & Hn); [by injection E|]. injection E as <- ->. by exists a, rest.
Qed.
Lemma digits_no_hash digits : Forall (λ b, is_ascii_digit b = true) digits → 0x23 ∉ digits.
Proof. intros Hd Hin. rewrite Forall_forall in Hd. by specialize (Hd _ Hin). Qed.
Lemma refers_skip digits s n : 0x23 ∉ digits → refers_to s n ↔ refers_to (digits ++ s) n.
Proof.
  induction digits as [|d digits IH]; [done|]. intros [Hd Hds]%not_elem_of_cons. simpl.
  rewrite <-refers_cons by done. by apply IH.
Qed.

Lemma referenced_pr_loop_spec fuel s n :
  (length s <= fuel)%nat → n ∈ referenced_pr_loop fuel s ↔ refers_to s n.
Proof.
  revert s. induction fuel as [|fuel IH]; intros [|b s] Hf; simpl in Hf; try lia.
  1,2: cbn [referenced_pr_loop]; split; [by intros ?%elem_of_nil|intros ([] & rest & E & _); done].
  cbn [referenced_pr_loop]. destruct (b != 0x23) eqn:Eb.
  { apply neqb_true in Eb. rewrite IH by lia. by apply refers_cons. }
  apply neqb_elim in Eb as ->.
  destruct (take_while_split is_ascii_digit s) as (rest & Hrest & Hdrop & Hdig & Hhd).
  set (digits := take_while is_ascii_digit s) in *. clearbody digits. rewrite Hdrop, elem_of_app.
  assert (Hl := f_equal length Hrest). rewrite length_app in Hl. rewrite IH by lia. rewrite Hrest.
  rewrite (refers_skip digits) by by apply digits_no_hash. split.
  - intros [Hn|(a & rest' & E & Hn)].
    + destruct digits as [|d ds]; [by apply elem_of_nil in Hn|].
      apply list_elem_of_singleton in Hn as ->. by exists [], rest.
    + exists (0x23 :: a), rest'. split; [simpl; by rewrite E|done].
  - intros ([|a0 a] & rest' & E & Hn); injection E.
    + intros E'. left. assert (n = digits) as ->.
      { rewrite <-(is_number_take_while n rest') by done. rewrite <-E'. by rewrite take_while_unique. }
      destruct Hn as [Hne _]. destruct digits; [done|]. by left.
    + intros E' _. right. by exists a, rest'.
Qed.
Lemma referenced_pr_spec text n : n ∈ referenced_pr_numbers text ↔ refers_to text n.
Proof. by apply referenced_pr_loop_spec. Qed.

(** A label that is accepted for an input has a reference [#n] for every pull
    request that the input names as "PR #n" or "pull request #n", in any case, at
    the start of a word; it is not empty and does not begin with one of the generic
    phrases. *)
Theorem label_keeps_pull_requests is_alphanumeric to_lowercase to_uppercase label input n :
  is_usable_input_label is_alphanumeric to_lowercase to_uppercase label input = true →
  (names_pr None (to_ascii_lowercase (encode input)) n → refers_to (encode label) n)
  ∧ let normalized := normalize_generic_instruction is_alphanumeric
                        (normalize_summary to_lowercase to_uppercase label) in
    normalized ≠ [] ∧ Forall (λ prefix, starts_with prefix normalized = false) GENERIC_PREFIXES.
Proof.
  unfold is_usable_input_label. rewrite !andb_true_iff, forallb_true, !negb_true_iff.
  intros [[[[H1 _] H3] _] H5]. split_and!.
  - rewrite <-explicit_pr_spec, <-referenced_pr_spec. intros Hn. rewrite Forall_forall in H5.
    apply one_of_true. by apply H5.
  - by apply eqb_false.
  - by apply existsb_false.
Qed.

(** ** The JSON object *)

(** The rest of a string literal after its opening quotation mark. *)
Inductive string_rest : list Z → Prop :=
  | string_quote : string_rest [0x22]
  | string_escape c s : string_rest s → string_rest (0x5c :: c :: s)
  | string_char c s : c ≠ 0x5c → c ≠ 0x22 → string_rest s → string_rest (c :: s).
(** Text in which braces outside of string literals are paired. *)
Inductive balanced : list Z → Prop :=
  | balanced_nil : balanced []
  | balanced_char c s : c ∉ [0x22; 0x7b; 0x7d] → balanced s → balanced (c :: s)
  | balanced_string q s : string_rest q → balanced s → balanced (0x22 :: q ++ s)
  | balanced_object o s : balanced o → balanced s → balanced (0x7b :: o ++ 0x7d :: s).
(** Text that ends where [d] open objects are closed. *)
Inductive closes : nat → list Z → Prop :=
  | closes_last s : balanced s → closes 1 (s ++ [0x7d])
  | closes_more d s k : balanced s → closes (S d) k → closes (S (S d)) (s ++ 0x7d :: k).

Lemma closes_prefix d k p : (∀ s, balanced s → balanced (p ++ s)) → closes d k → closes d (p ++ k).
Proof. intros Hp [s H|d' s k' H Hk]; rewrite app_assoc; constructor; auto. Qed.
Lemma closes_open d k : closes (S (S d)) k → closes (S d) (0x7b :: k).
Proof.
  inversion 1 as [|d' s k' Hs Hk]; subst. clear H.
  replace (0x7b :: s ++ 0x7d :: k') with ((0x7b :: s ++ [0x7d]) ++ k')
    by (simpl; by rewrite <-app_assoc).
  apply closes_prefix; [|done]. intros s' Hs'. simpl. rewrite <-app_assoc. by constructor.
Qed.

(** In a string: the rest of the literal, and then as before. *)
Definition closes_in (d : nat) (in_string escaped : bool) (k : list Z) : Prop :=
  if in_string then
    ∃ q k', k = q ++ k' ∧ (if escaped then ∃ c q', q = c :: q' ∧ string_rest q' else string_rest q)
      ∧ closes d k'
  else closes d k.

Lemma extract_loop_sound bytes d in_string escaped offset o :
  (in_string = false → escaped = false) →
  extract_loop bytes (Z.of_nat (S d)) in_string escaped offset = Some o →
  ∃ k rest, bytes = k ++ rest ∧ (o + 1 = offset + length k)%nat ∧ closes_in (S d) in_string escaped k.
Proof.
  revert d in_string escaped offset. induction bytes as [|b bytes IH]; intros d in_string escaped offset He; [done|].
  assert (Hnext : ∀ d' i' e', (i' = false → e' = false) →
    (∀ k, closes_in (S d') i' e' k → closes_in (S d) in_string escaped (b :: k)) →
    extract_loop bytes (Z.of_nat (S d')) i' e' (S offset) = Some o →
    ∃ k rest, b :: bytes = k ++ rest ∧ (o + 1 = offset + length k)%nat ∧ closes_in (S d) in_string escaped k).
  { intros d' i' e' He' Hk H. destruct (IH d' i' e' (S offset) He' H) as (k & rest & -> & Ho & Hc).
    exists (b :: k), rest. split_and!; [done|simpl; lia|by apply Hk]. }
  cbn [extract_loop]. destruct in_string; [destruct escaped|rewrite He in * by done].
  - apply Hnext; [done|]. intros k (q & k' & -> & Hq & Hc). exists (b :: q), k'. split_and!; eauto.
  - destruct (Z.eqb_spec b 0x5c) as [->|Hs]; [|destruct (Z.eqb_spec b 0x22) as [->|Hq0]].
    + apply Hnext; [done|]. intros k (q & k' & -> & (c & q' & -> & Hq) & Hc).
      exists (0x5c :: c :: q'), k'. split_and!; [done|by constructor|done].
    + apply Hnext; [done|]. intros k Hc. exists [0x22], k. split_and!; [done|constructor|done].
    + apply Hnext; [done|]. intros k (q & k' & -> & Hq & Hc). exists (b :: q), k'.
      split_and!; [done|by constructor|done].
  - destruct (Z.eqb_spec b 0x22) as [->|Hn1]; [|destruct (Z.eqb_spec b 0x7b) as [->|Hn2];
      [|destruct (Z.eqb_spec b 0x7d) as [->|Hn3]]].
    + apply Hnext; [done|]. intros k (q & k' & -> & Hq & Hc).
      apply (closes_prefix _ k' (0x22 :: q)); [|done]. intros s Hs. by constructor.
    + rewrite <-Nat2Z.inj_succ || replace (Z.of_nat (S d) + 1) with (Z.of_nat (S (S d))) by lia.
      apply Hnext; [done|]. intros k Hc. by apply closes_open.
    + rewrite (proj2 (Z.eqb_neq _ 0)) by lia. cbn [mbind option_bind].
      destruct d as [|d].
      * simpl. intros [= <-]. exists [0x7d], bytes. split_and!; [done|simpl; lia|].
        apply (closes_last []). constructor.
      * rewrite (proj2 (Z.eqb_neq _ 0)) by lia.
        replace (Z.of_nat (S (S d)) - 1) with (Z.of_nat (S d)) by lia.
        apply Hnext; [done|]. intros k Hc. apply (closes_more _ []); [constructor|done].
    + apply Hnext; [done|]. intros k Hc. apply (closes_prefix _ k [b]); [|done].
      intros s Hs. apply balanced_char; [set_solver|done].
Qed.

Lemma extract_string q k d offset :
  string_rest q →
  extract_loop (q ++ k) d true false offset = extract_loop k d false false (offset + length q).
Proof.
  intros Hq. revert offset. induction Hq as [|c q Hq IH|c q H1 H2 Hq IH]; intros offset; simpl.
  - f_equal. lia.
  - rewrite IH. f_equal. lia.
  - rewrite (proj2 (Z.eqb_neq c 0x5c)), (proj2 (Z.eqb_neq c 0x22)), IH by done. f_equal. lia.
Qed.
Lemma extract_balanced s k d offset :
  balanced s → 0 < d →
  extract_loop (s ++ k) d false false offset = extract_loop k d false false (offset + length s).
Proof.
  intros Hs. revert k d offset.
  induction Hs as [|c s Hc Hs IH|q s Hq Hs IH|o s Ho IHo Hs IH]; intros k d offset Hd.
  - f_equal. simpl. lia.
  - rewrite !not_elem_of_cons in Hc. destruct Hc as (H1 & H2 & H3 & _). simpl.
    rewrite !(proj2 (Z.eqb_neq c _)), IH by done. f_equal. lia.
  - simpl. rewrite <-app_assoc, extract_string, IH by done. rewrite length_app. f_equal. lia.
  - cbn [app extract_loop Z.eqb Pos.eqb]. rewrite <-app_assoc, IHo by lia.
    cbn [app extract_loop Z.eqb Pos.eqb].
    rewrite (proj2 (Z.eqb_neq (d + 1) 0)) by lia. cbn [mbind option_bind].
    rewrite (proj2 (Z.eqb_neq (d + 1 - 1) 0)), Z.add_simpl_r, IH by lia.
    f_equal. simpl. rewrite length_app. simpl. lia.
Qed.

Lemma find_char_first c a s : c ∉ a → find [c] (a ++ c :: s) = Some (length a).
Proof.
  induction a as [|x a IH]; simpl; [by unfold starts_with; simpl; rewrite Z.eqb_refl|].
  intros [Hx Ha]%not_elem_of_cons. unfold starts_with. simpl.
  rewrite (proj2 (Z.eqb_neq c x)) by done. simpl. by rewrite IH.
Qed.
Lemma find_char_Some c s i : find [c] s = Some i → ∃ a t, s = a ++ c :: t ∧ i = length a ∧ c ∉ a.
Proof.
  revert i. induction s as [|x s IH]; intros i; [done|]. cbn [find]. unfold starts_with. simpl.
  destruct (Z.eqb_spec c x) as [->|Hne]; simpl.
  - intros [= <-]. exists [], s. split_and!; [done..|apply not_elem_of_nil].
  - destruct (find [c] s) as [j|] eqn:E; [|done]. intros [= <-].
    destruct (IH j eq_refl) as (a & t & -> & -> & Ha). exists (x :: a), t.
    split_and!; [done..|]. by apply not_elem_of_cons.
Qed.

(** The reply of a model yields a JSON text exactly when its first brace opens a
    balanced object, braces in string literals aside; the text is that object, from
    the first brace to the one that closes it, whatever surrounds it. *)
Theorem extract_json_exact raw r :
  extract_json raw = Some r ↔
  ∃ before body after, raw = before ++ r ++ after ∧ (0x7b ∉ before)
    ∧ r = 0x7b :: body ++ [0x7d] ∧ balanced body.
Proof.
  unfold extract_json. split.
  - destruct (find [0x7b] raw) as [start|] eqn:Ef; [|done].
    apply find_char_Some in Ef as (a & t & -> & -> & Ha).
    cbn [mbind option_bind]. rewrite drop_app_length. cbn [extract_loop Z.eqb Pos.eqb].
    change (0 + 1) with 1. destruct (extract_loop t 1 false false 1) as [o|] eqn:E; [|done].
    destruct (extract_loop_sound t 0 false false 1 o) as (k & rest & -> & Ho & Hc); [done|exact E|].
    intros [= <-]. inversion Hc as [body Hb Hd Hk|]; subst k.
    exists a, body, rest. replace (o + 1)%nat with (length (0x7b :: body ++ [0x7d])) by (simpl in *; lia).
    change (0x7b :: (body ++ [0x7d]) ++ rest) with ((0x7b :: body ++ [0x7d]) ++ rest).
    rewrite take_app_length. by split_and!.
  - intros (a & body & rest & -> & Ha & -> & Hb).
    change ((0x7b :: body ++ [0x7d]) ++ rest) with (0x7b :: (body ++ [0x7d]) ++ rest).
    rewrite find_char_first by done. cbn [mbind option_bind]. rewrite drop_app_length.
    cbn [extract_loop Z.eqb Pos.eqb]. rewrite <-app_assoc, extract_balanced by (done || lia).
    simpl. do 2 f_equal. rewrite (cons_middle 0x7d), app_assoc.
    replace (length body + 1)%nat with (length (body ++ [0x7d])) by (rewrite length_app; simpl; lia).
    apply take_app_length.
Qed.

(** ** The work history *)

Definition normal_line (line : list Z) : list Z := to_ascii_lowercase (strip_ansi line).

Lemma command_of_None line command c :
  command_of line command = Some c → command_of line None = Some c ∨ command = Some c.
Proof. unfold command_of. cases; auto. Qed.

(** A reported outcome: a line that starts a command and a later or the same line
    that reports the outcome of that command. *)
Definition reported (output : list (list Z)) (o : Outcome) : Prop :=
  ∃ i j started report c, (i <= j)%nat ∧ output !! i = Some started ∧ output !! j = Some report
    ∧ command_of (normal_line started) None = Some c ∧ outcome_of (normal_line report) (Some c) = Some o.

Lemma command_outcome_loop_reported output past command outcome o :
  (∀ c, command = Some c → ∃ i started, past !! i = Some started
     ∧ command_of (normal_line started) None = Some c) →
  (∀ x, outcome = Some x → reported (past ++ output) x) →
  command_outcome_loop output command outcome = Some o → reported (past ++ output) o.
Proof.
  revert past command outcome. induction output as [|line output IH]; intros past command outcome Hc Ho;
    cbn [command_outcome_loop]; [by apply Ho|]. fold (normal_line line).
  assert (Hc' : ∀ c, command_of (normal_line line) command = Some c →
    ∃ i started, (past ++ [line]) !! i = Some started ∧ command_of (normal_line started) None = Some c).
  { intros c [H|H]%command_of_None.
    - exists (length past), line. by rewrite lookup_app_r, Nat.sub_diag.
    - destruct (Hc c H) as (i & started & Hi & Hs). exists i, started.
      split; [by apply lookup_app_l_Some|done]. }
  rewrite (cons_middle line), app_assoc. rewrite (cons_middle line), app_assoc in Ho.
  destruct (outcome_of (normal_line line) (command_of (normal_line line) command)) as [x|] eqn:E.
  - apply IH; [done|]. intros y [= <-].
    destruct (command_of (normal_line line) command) as [c|] eqn:Ec; [|done].
    destruct (Hc' c eq_refl) as (i & started & Hi & Hs).
    exists i, (length past), started, line, c. split_and!; try done.
    + apply lookup_lt_Some in Hi. rewrite length_app in Hi. simpl in Hi. lia.
    + by apply lookup_app_l_Some.
    + rewrite <-app_assoc, lookup_app_r, Nat.sub_diag by done. done.
  - by apply IH.
Qed.

(** What enters the work history is a label of the newest user input, which is
    descriptive and for which the label is usable, or the outcome of a test or build
    command that was started and reported in the output; nothing else. *)
Theorem work_history_justified is_alphanumeric is_alphabetic to_lowercase to_uppercase
    output inference_summary s :
  work_history_summary is_alphanumeric is_alphabetic to_lowercase to_uppercase output inference_summary
    = Some s →
  (∃ input summary,
     find_map (λ line, trim <$> strip_prefix (ascii "[User input]:") line) (rev output) = Some input
     ∧ is_descriptive_input is_alphabetic input = true ∧ inference_summary = Some summary
     ∧ is_usable_input_label is_alphanumeric to_lowercase to_uppercase summary input = true
     ∧ s = normalize_summary to_lowercase to_uppercase summary)
  ∨ ∃ o, reported output o ∧ s = outcome_text o.
Proof.
  unfold work_history_summary. set (labelled := _ ≫= _). destruct labelled as [s'|] eqn:E.
  - intros [= <-]. left. unfold labelled in E.
    apply bind_Some in E as (input & [Hf Hd]%opt_filter_Some & E).
    apply bind_Some in E as (summary & [Hs Hu]%opt_filter_Some & [= <-]).
    exists input, summary. by split_and!.
  - destruct (command_outcome_summary output) as [o|] eqn:Eo; [|done]. intros [= <-]. right.
    exists o. split; [|done]. by apply (command_outcome_loop_reported output [] None None).
Qed.

(** The third prefix of [normalize_summary] is never used: a text that starts with
    it starts with the second one, which is tried before. *)
Lemma wants_to_shadowed lower :
  starts_with (ascii "user wants to ") lower = true →
  find_map (λ prefix, if starts_with prefix lower then Some prefix else None) SUMMARY_PREFIXES
    = Some (ascii "user wants ").
Proof.
  intros [t ->]%starts_with_true. by vm_compute.
Qed.

(** ** Concrete runs *)

Definition ascii_upper (c : Z) : list Z := to_ascii_uppercase [c].

Lemma wants_to_summary :
  normalize_summary to_ascii_lowercase ascii_upper (ascii "User wants to fix it") = ascii "To fix it"
  ∧ normalize_summary to_ascii_lowercase ascii_upper (ascii "User asked fix it") = ascii "Fix it".
Proof. by vm_compute. Qed.

Lemma ring_keeps_newest_witness :
  let hist := [ascii "a"; ascii "b"; ascii "c"] in
  let r := push_all hist (new 2) in
  let from := Nat.max 2 (length hist - 2) in
  (snapshot r = drop (length hist - 2) hist
   ∧ revision r = Z.of_nat (length hist)
   ∧ Forall (λ '(i, line), hist !! Z.to_nat (i - 1) = Some line) (shared_snapshot r)
   ∧ snapshot_after_with_revisions (Z.of_nat 2) r =
       (if (from <? length hist)%nat
        then Some (mkRingSnapshot (Z.of_nat from + 1) (Z.of_nat (length hist)) (drop from hist))
        else None)
   ∧ has_after (Z.of_nat 2) r = is_some (snapshot_after_with_revisions (Z.of_nat 2) r))
  ∧ snapshot_after_with_revisions 2 r = Some (mkRingSnapshot 3 3 [ascii "c"]).
Proof.
  split; [|by vm_compute].
  apply (ring_keeps_newest [ascii "a"; ascii "b"; ascii "c"] 2 2). by vm_compute.
Defined.

Definition demo_events : list Event :=
  [Start 200; Output (ascii "ready"); Capture; Commit 0; Output (ascii "Password:"); Capture; Commit 1].
Definition demo_handle : option Handle := session (world_run to_ascii_lowercase (take 4 demo_events)).

(** The input that was captured before the prompt is not kept once it is there. *)
Lemma input_kept_only_when_safe_witness :
  (∀ p h, p ∈ prepared (world_run to_ascii_lowercase (take 4 demo_events)) →
     session (world_run to_ascii_lowercase (take 4 demo_events)) = Some h →
     validate_input_sensitivity (Some h) p = false →
     Forall (λ line, password_prompt_line to_ascii_lowercase line = false) (last_n 5 (output_buffer h))
     ∧ classify_lines to_ascii_lowercase (last_n 5 (output_buffer h)) = false)
  ∧ (validate_input_sensitivity demo_handle <$> prepared (world_run to_ascii_lowercase (take 4 demo_events)))
    = [false]
  ∧ (validate_input_sensitivity (session (world_run to_ascii_lowercase demo_events)) <$>
       prepared (world_run to_ascii_lowercase demo_events)) = [true; true].
Proof.
  split; [|by vm_compute]. intros p h.
  apply (input_kept_only_when_safe to_ascii_lowercase (take 4 demo_events) p h). by vm_compute.
Defined.

Lemma label_keeps_pull_requests_witness :
  ((names_pr None (to_ascii_lowercase (encode (ascii "review PR #42"))) (ascii "42") →
    refers_to (encode (ascii "Reviewing #42")) (ascii "42"))
   ∧ let normalized := normalize_generic_instruction is_ascii_alphanumeric
                         (normalize_summary to_ascii_lowercase ascii_upper (ascii "Reviewing #42")) in
     normalized ≠ [] ∧ Forall (λ prefix, starts_with prefix normalized = false) GENERIC_PREFIXES)
  ∧ explicit_pr_numbers (encode (ascii "review PR #42")) = [ascii "42"]
  ∧ is_usable_input_label is_ascii_alphanumeric to_ascii_lowercase ascii_upper
      (ascii "Reviewing changes") (ascii "review PR #42") = false.
Proof.
  split; [|by vm_compute].
  apply (label_keeps_pull_requests is_ascii_alphanumeric to_ascii_lowercase ascii_upper
    (ascii "Reviewing #42") (ascii "review PR #42") (ascii "42")). by vm_compute.
Defined.

Definition is_ascii_alphabetic (c : Z) : bool := between 65 90 c || between 97 122 c.
Definition demo_session : list (list Z) := [ascii "$ cargo test"; ascii "test result: ok. 3 passed"].

Lemma work_history_justified_witness :
  ((∃ input summary,
     find_map (λ line, trim <$> strip_prefix (ascii "[User input]:") line) (rev demo_session) = Some input
     ∧ is_descriptive_input is_ascii_alphabetic input = true ∧ None = Some summary
     ∧ is_usable_input_label is_ascii_alphanumeric to_ascii_lowercase ascii_upper summary input = true
     ∧ ascii "Tests passed" = normalize_summary to_ascii_lowercase ascii_upper summary)
   ∨ ∃ o, reported demo_session o ∧ ascii "Tests passed" = outcome_text o)
  ∧ work_history_summary is_ascii_alphanumeric is_ascii_alphabetic to_ascii_lowercase ascii_upper
      demo_session None = Some (ascii "Tests passed").
Proof.
  split; [|by vm_compute].
  apply (work_history_justified is_ascii_alphanumeric is_ascii_alphabetic to_ascii_lowercase ascii_upper
    demo_session None). by vm_compute.
Defined.

Lemma extract_json_demo :
  extract_json (ascii "Sure: {'a': {'b': 1}} }") = Some (ascii "{'a': {'b': 1}}").
Proof. by vm_compute. Qed.
