(* ===== verification/SessionMeta.v ===== *)
(** * The session record

    [SessionMetadata] of [metadata.rs], what a read makes of a stored record
    ([normalize_session_metadata], [metadata/provenance.rs]), the recovery of a
    session whose process is gone, the options to resume one, and the validators of
    a coding tool's own session id.

    The fields of the flat struct are grouped into records, one per concern; those
    no modelled function reads or writes are [SessionFacts].  Texts that the code
    looks into are lists of characters; names, sources and timestamps are strings.
    An [f64] is a [spec_float], with the comparisons of IEEE 754.  The clock is an
    argument, and so is the parser of timestamps, which belongs to chrono. *)
From S2P Require Import ObservedStatus.
From S2P Require Export Floats Peon.

Abbreviation text := (list Z).

(** Decides the comparisons of string literals in the goal, and then its tests. *)
Ltac lits :=
  repeat match goal with
         | |- context [@eqb string ?d ?x ?y] =>
             let b := eval vm_compute in (@eqb string d x y) in
             lazymatch b with
             | true => change (@eqb string d x y) with true
             | false => change (@eqb string d x y) with false
             end
         | |- context [@eqb (option string) ?d ?x ?y] =>
             let b := eval vm_compute in (@eqb (option string) d x y) in
             lazymatch b with
             | true => change (@eqb (option string) d x y) with true
             | false => change (@eqb (option string) d x y) with false
             end
         end; cbn [andb orb negb].

(** ** Data *)

Record ObservedStatusSnapshotMetadata : Type := mkSnapshot {
  snapshot_origin : option string;
  snapshot_value : option string;
  snapshot_source : string;
  snapshot_confidence : option f64;
  snapshot_observed_at : option string;
}.

Inductive ResumeState : Type := Available | Unavailable.
Inductive ResumeStrategy : Type := Exact | LatestCwd | LatestRepo | NoStrategy.
#[export] Instance resume_state_eq_dec : EqDecision ResumeState.
Proof. solve_decision. Defined.
#[export] Instance resume_strategy_eq_dec : EqDecision ResumeStrategy.
Proof. solve_decision. Defined.

Record ResumeMemory : Type := mkResume {
  resume_state : ResumeState;
  preferred_strategy : ResumeStrategy;
  harness_session_id : option text;
  latest_fallback : bool;
  last_seen_at : option string;
}.

Inductive LabelSource : Type :=
  Placeholder | InitialPrompt | TerminalInput | Peon | Codex | User | Legacy.
#[export] Instance label_source_eq_dec : EqDecision LabelSource.
Proof. solve_decision. Defined.

Definition is_automatic (s : LabelSource) : bool :=
  match s with
  | Placeholder | InitialPrompt | TerminalInput | Peon | Codex => true
  | User | Legacy => false
  end.
Definition accepts_peon (s : LabelSource) : bool :=
  match s with
  | Placeholder | InitialPrompt | TerminalInput | Peon | Legacy => true
  | Codex | User => false
  end.

Inductive PlanSource : Type :=
  LegacyPlan | UserSelected | AgentReported | HookReported | TerminalFallback | GitHistory
  | GitWorktree.
#[export] Instance plan_source_eq_dec : EqDecision PlanSource.
Proof. solve_decision. Defined.

Record PlanReference : Type := mkPlan {
  worktree_root : option text;
  relative_path : text;
  plan_source : PlanSource;
}.
Record WorktreeBinding : Type := mkBinding { binding_root : text; common_dir : text }.

(** What identifies a session and its folder. *)
Record SessionFacts : Type := mkFacts {
  workspace : text;
  cwd : text;
  created_at : string;
  branch : option text;
}.

Record MetadataProvenance : Type := mkProvenance {
  attention_source : option string;
  prov_attention_confidence : option f64;
  attention_origin : option string;
  attention_updated_at : option string;
  work_metadata_updated_at : option string;
  summary_source : option string;
  summary_confidence : option f64;
  summary_observed_at : option string;
}.
Definition set_attention_source (v : option string) (p : MetadataProvenance) : MetadataProvenance :=
  mkProvenance v (prov_attention_confidence p) (attention_origin p) (attention_updated_at p)
    (work_metadata_updated_at p) (summary_source p) (summary_confidence p) (summary_observed_at p).
Definition set_prov_attention_confidence (v : option f64) (p : MetadataProvenance) : MetadataProvenance :=
  mkProvenance (attention_source p) v (attention_origin p) (attention_updated_at p)
    (work_metadata_updated_at p) (summary_source p) (summary_confidence p) (summary_observed_at p).
Definition set_attention_origin (v : option string) (p : MetadataProvenance) : MetadataProvenance :=
  mkProvenance (attention_source p) (prov_attention_confidence p) v (attention_updated_at p)
    (work_metadata_updated_at p) (summary_source p) (summary_confidence p) (summary_observed_at p).
Definition set_attention_updated_at (v : option string) (p : MetadataProvenance) : MetadataProvenance :=
  mkProvenance (attention_source p) (prov_attention_confidence p) (attention_origin p) v
    (work_metadata_updated_at p) (summary_source p) (summary_confidence p) (summary_observed_at p).
Definition set_work_metadata_updated_at (v : option string) (p : MetadataProvenance) : MetadataProvenance :=
  mkProvenance (attention_source p) (prov_attention_confidence p) (attention_origin p)
    (attention_updated_at p) v (summary_source p) (summary_confidence p) (summary_observed_at p).
Definition set_summary_source (v : option string) (p : MetadataProvenance) : MetadataProvenance :=
  mkProvenance (attention_source p) (prov_attention_confidence p) (attention_origin p)
    (attention_updated_at p) (work_metadata_updated_at p) v (summary_confidence p)
    (summary_observed_at p).
Definition set_summary_confidence (v : option f64) (p : MetadataProvenance) : MetadataProvenance :=
  mkProvenance (attention_source p) (prov_attention_confidence p) (attention_origin p)
    (attention_updated_at p) (work_metadata_updated_at p) (summary_source p) v
    (summary_observed_at p).
Definition set_summary_observed_at (v : option string) (p : MetadataProvenance) : MetadataProvenance :=
  mkProvenance (attention_source p) (prov_attention_confidence p) (attention_origin p)
    (attention_updated_at p) (work_metadata_updated_at p) (summary_source p) (summary_confidence p)
    v.

Record Attention : Type := mkAttention {
  observed_status : option string;
  attention : option string;
  needs_user_input : option bool;
  detected_question : option text;
  suggested_options : option (list text);
}.
Definition set_observed_status (v : option string) (a : Attention) : Attention :=
  mkAttention v (attention a) (needs_user_input a) (detected_question a) (suggested_options a).
Definition set_attention (v : option string) (a : Attention) : Attention :=
  mkAttention (observed_status a) v (needs_user_input a) (detected_question a) (suggested_options a).
Definition set_needs_user_input (v : option bool) (a : Attention) : Attention :=
  mkAttention (observed_status a) (attention a) v (detected_question a) (suggested_options a).
Definition set_detected_question (v : option text) (a : Attention) : Attention :=
  mkAttention (observed_status a) (attention a) (needs_user_input a) v (suggested_options a).
Definition set_suggested_options (v : option (list text)) (a : Attention) : Attention :=
  mkAttention (observed_status a) (attention a) (needs_user_input a) (detected_question a) v.

Record Lifecycle : Type := mkLifecycle {
  status : string;
  lifecycle_phase : string;
  lifecycle : string;
  connectivity : string;
  terminal_outcome : option string;
  pending_terminal_status : option string;
  ending_observed_status_snapshot : option ObservedStatusSnapshotMetadata;
  final_observed_status_snapshot : option ObservedStatusSnapshotMetadata;
}.
Definition set_status (v : string) (l : Lifecycle) : Lifecycle :=
  mkLifecycle v (lifecycle_phase l) (lifecycle l) (connectivity l) (terminal_outcome l)
    (pending_terminal_status l) (ending_observed_status_snapshot l)
    (final_observed_status_snapshot l).
Definition set_lifecycle_phase (v : string) (l : Lifecycle) : Lifecycle :=
  mkLifecycle (status l) v (lifecycle l) (connectivity l) (terminal_outcome l)
    (pending_terminal_status l) (ending_observed_status_snapshot l)
    (final_observed_status_snapshot l).
Definition set_lifecycle (v : string) (l : Lifecycle) : Lifecycle :=
  mkLifecycle (status l) (lifecycle_phase l) v (connectivity l) (terminal_outcome l)
    (pending_terminal_status l) (ending_observed_status_snapshot l)
    (final_observed_status_snapshot l).
Definition set_connectivity (v : string) (l : Lifecycle) : Lifecycle :=
  mkLifecycle (status l) (lifecycle_phase l) (lifecycle l) v (terminal_outcome l)
    (pending_terminal_status l) (ending_observed_status_snapshot l)
    (final_observed_status_snapshot l).
Definition set_terminal_outcome (v : option string) (l : Lifecycle) : Lifecycle :=
  mkLifecycle (status l) (lifecycle_phase l) (lifecycle l) (connectivity l) v
    (pending_terminal_status l) (ending_observed_status_snapshot l)
    (final_observed_status_snapshot l).
Definition set_pending_terminal_status (v : option string) (l : Lifecycle) : Lifecycle :=
  mkLifecycle (status l) (lifecycle_phase l) (lifecycle l) (connectivity l) (terminal_outcome l) v
    (ending_observed_status_snapshot l) (final_observed_status_snapshot l).
Definition set_ending_observed_status_snapshot (v : option ObservedStatusSnapshotMetadata) (l : Lifecycle) : Lifecycle :=
  mkLifecycle (status l) (lifecycle_phase l) (lifecycle l) (connectivity l) (terminal_outcome l)
    (pending_terminal_status l) v (final_observed_status_snapshot l).
Definition set_final_observed_status_snapshot (v : option ObservedStatusSnapshotMetadata) (l : Lifecycle) : Lifecycle :=
  mkLifecycle (status l) (lifecycle_phase l) (lifecycle l) (connectivity l) (terminal_outcome l)
    (pending_terminal_status l) (ending_observed_status_snapshot l) v.

Record Work : Type := mkWork {
  work_phase : string;
  task : text;
  next_action : option text;
  blocker_description : option text;
  failed_command : option text;
  failed_test : option text;
  capacity_hints : option (list text);
  metadata_source : string;
  metadata_confidence : f64;
  provider_id : option text;
  provider_label : option text;
  provider_model : option string;
  provider_state : option text;
}.
Definition set_work_phase (v : string) (w : Work) : Work :=
  mkWork v (task w) (next_action w) (blocker_description w) (failed_command w) (failed_test w)
    (capacity_hints w) (metadata_source w) (metadata_confidence w) (provider_id w)
    (provider_label w) (provider_model w) (provider_state w).
Definition set_task (v : text) (w : Work) : Work :=
  mkWork (work_phase w) v (next_action w) (blocker_description w) (failed_command w) (failed_test w)
    (capacity_hints w) (metadata_source w) (metadata_confidence w) (provider_id w)
    (provider_label w) (provider_model w) (provider_state w).
Definition set_next_action (v : option text) (w : Work) : Work :=
  mkWork (work_phase w) (task w) v (blocker_description w) (failed_command w) (failed_test w)
    (capacity_hints w) (metadata_source w) (metadata_confidence w) (provider_id w)
    (provider_label w) (provider_model w) (provider_state w).
Definition set_blocker_description (v : option text) (w : Work) : Work :=
  mkWork (work_phase w) (task w) (next_action w) v (failed_command w) (failed_test w)
    (capacity_hints w) (metadata_source w) (metadata_confidence w) (provider_id w)
    (provider_label w) (provider_model w) (provider_state w).
Definition set_failed_command (v : option text) (w : Work) : Work :=
  mkWork (work_phase w) (task w) (next_action w) (blocker_description w) v (failed_test w)
    (capacity_hints w) (metadata_source w) (metadata_confidence w) (provider_id w)
    (provider_label w) (provider_model w) (provider_state w).
Definition set_failed_test (v : option text) (w : Work) : Work :=
  mkWork (work_phase w) (task w) (next_action w) (blocker_description w) (failed_command w) v
    (capacity_hints w) (metadata_source w) (metadata_confidence w) (provider_id w)
    (provider_label w) (provider_model w) (provider_state w).
Definition set_capacity_hints (v : option (list text)) (w : Work) : Work :=
  mkWork (work_phase w) (task w) (next_action w) (blocker_description w) (failed_command w)
    (failed_test w) v (metadata_source w) (metadata_confidence w) (provider_id w) (provider_label w)
    (provider_model w) (provider_state w).
Definition set_metadata_source (v : string) (w : Work) : Work :=
  mkWork (work_phase w) (task w) (next_action w) (blocker_description w) (failed_command w)
    (failed_test w) (capacity_hints w) v (metadata_confidence w) (provider_id w) (provider_label w)
    (provider_model w) (provider_state w).
Definition set_metadata_confidence (v : f64) (w : Work) : Work :=
  mkWork (work_phase w) (task w) (next_action w) (blocker_description w) (failed_command w)
    (failed_test w) (capacity_hints w) (metadata_source w) v (provider_id w) (provider_label w)
    (provider_model w) (provider_state w).
Definition set_provider_id (v : option text) (w : Work) : Work :=
  mkWork (work_phase w) (task w) (next_action w) (blocker_description w) (failed_command w)
    (failed_test w) (capacity_hints w) (metadata_source w) (metadata_confidence w) v
    (provider_label w) (provider_model w) (provider_state w).
Definition set_provider_label (v : option text) (w : Work) : Work :=
  mkWork (work_phase w) (task w) (next_action w) (blocker_description w) (failed_command w)
    (failed_test w) (capacity_hints w) (metadata_source w) (metadata_confidence w) (provider_id w) v
    (provider_model w) (provider_state w).
Definition set_provider_model (v : option string) (w : Work) : Work :=
  mkWork (work_phase w) (task w) (next_action w) (blocker_description w) (failed_command w)
    (failed_test w) (capacity_hints w) (metadata_source w) (metadata_confidence w) (provider_id w)
    (provider_label w) v (provider_state w).
Definition set_provider_state (v : option text) (w : Work) : Work :=
  mkWork (work_phase w) (task w) (next_action w) (blocker_description w) (failed_command w)
    (failed_test w) (capacity_hints w) (metadata_source w) (metadata_confidence w) (provider_id w)
    (provider_label w) (provider_model w) v.

Record Identity : Type := mkIdentity {
  harness : string;
  model : string;
  resume : option ResumeMemory;
  harness_session_id_source : option string;
  harness_session_id_confidence : option f64;
  harness_session_id_captured_at : option string;
  resumed_from : option text;
}.
Definition set_harness (v : string) (i : Identity) : Identity :=
  mkIdentity v (model i) (resume i) (harness_session_id_source i) (harness_session_id_confidence i)
    (harness_session_id_captured_at i) (resumed_from i).
Definition set_model (v : string) (i : Identity) : Identity :=
  mkIdentity (harness i) v (resume i) (harness_session_id_source i)
    (harness_session_id_confidence i) (harness_session_id_captured_at i) (resumed_from i).
Definition set_resume (v : option ResumeMemory) (i : Identity) : Identity :=
  mkIdentity (harness i) (model i) v (harness_session_id_source i) (harness_session_id_confidence i)
    (harness_session_id_captured_at i) (resumed_from i).
Definition set_harness_session_id_source (v : option string) (i : Identity) : Identity :=
  mkIdentity (harness i) (model i) (resume i) v (harness_session_id_confidence i)
    (harness_session_id_captured_at i) (resumed_from i).
Definition set_harness_session_id_confidence (v : option f64) (i : Identity) : Identity :=
  mkIdentity (harness i) (model i) (resume i) (harness_session_id_source i) v
    (harness_session_id_captured_at i) (resumed_from i).
Definition set_harness_session_id_captured_at (v : option string) (i : Identity) : Identity :=
  mkIdentity (harness i) (model i) (resume i) (harness_session_id_source i)
    (harness_session_id_confidence i) v (resumed_from i).
Definition set_resumed_from (v : option text) (i : Identity) : Identity :=
  mkIdentity (harness i) (model i) (resume i) (harness_session_id_source i)
    (harness_session_id_confidence i) (harness_session_id_captured_at i) v.

Record Label : Type := mkLabel {
  label : text;
  label_source : LabelSource;
  label_from_initial_prompt : bool;
  label_context_refined : bool;
}.
Definition set_label (v : text) (b : Label) : Label :=
  mkLabel v (label_source b) (label_from_initial_prompt b) (label_context_refined b).
Definition set_label_source (v : LabelSource) (b : Label) : Label :=
  mkLabel (label b) v (label_from_initial_prompt b) (label_context_refined b).
Definition set_label_from_initial_prompt (v : bool) (b : Label) : Label :=
  mkLabel (label b) (label_source b) v (label_context_refined b).
Definition set_label_context_refined (v : bool) (b : Label) : Label :=
  mkLabel (label b) (label_source b) (label_from_initial_prompt b) v.

Record SessionMetadata : Type := mkSession {
  id : text;
  provenance : MetadataProvenance;
  att : Attention;
  lc : Lifecycle;
  work : Work;
  ident : Identity;
  lab : Label;
  summary : option text;
  plan_path : option PlanReference;
  worktree_binding : option WorktreeBinding;
  peon_last_inference : option string;
  last_activity : string;
  last_user_input : option text;
  facts : SessionFacts;
}.
Definition set_provenance (v : MetadataProvenance) (m : SessionMetadata) : SessionMetadata :=
  mkSession (id m) v (att m) (lc m) (work m) (ident m) (lab m) (summary m) (plan_path m)
    (worktree_binding m) (peon_last_inference m) (last_activity m) (last_user_input m) (facts m).
Definition set_att (v : Attention) (m : SessionMetadata) : SessionMetadata :=
  mkSession (id m) (provenance m) v (lc m) (work m) (ident m) (lab m) (summary m) (plan_path m)
    (worktree_binding m) (peon_last_inference m) (last_activity m) (last_user_input m) (facts m).
Definition set_lc (v : Lifecycle) (m : SessionMetadata) : SessionMetadata :=
  mkSession (id m) (provenance m) (att m) v (work m) (ident m) (lab m) (summary m) (plan_path m)
    (worktree_binding m) (peon_last_inference m) (last_activity m) (last_user_input m) (facts m).
Definition set_work (v : Work) (m : SessionMetadata) : SessionMetadata :=
  mkSession (id m) (provenance m) (att m) (lc m) v (ident m) (lab m) (summary m) (plan_path m)
    (worktree_binding m) (peon_last_inference m) (last_activity m) (last_user_input m) (facts m).
Definition set_ident (v : Identity) (m : SessionMetadata) : SessionMetadata :=
  mkSession (id m) (provenance m) (att m) (lc m) (work m) v (lab m) (summary m) (plan_path m)
    (worktree_binding m) (peon_last_inference m) (last_activity m) (last_user_input m) (facts m).
Definition set_lab (v : Label) (m : SessionMetadata) : SessionMetadata :=
  mkSession (id m) (provenance m) (att m) (lc m) (work m) (ident m) v (summary m) (plan_path m)
    (worktree_binding m) (peon_last_inference m) (last_activity m) (last_user_input m) (facts m).
Definition set_summary (v : option text) (m : SessionMetadata) : SessionMetadata :=
  mkSession (id m) (provenance m) (att m) (lc m) (work m) (ident m) (lab m) v (plan_path m)
    (worktree_binding m) (peon_last_inference m) (last_activity m) (last_user_input m) (facts m).
Definition set_plan_path (v : option PlanReference) (m : SessionMetadata) : SessionMetadata :=
  mkSession (id m) (provenance m) (att m) (lc m) (work m) (ident m) (lab m) (summary m) v
    (worktree_binding m) (peon_last_inference m) (last_activity m) (last_user_input m) (facts m).
Definition set_worktree_binding (v : option WorktreeBinding) (m : SessionMetadata) : SessionMetadata :=
  mkSession (id m) (provenance m) (att m) (lc m) (work m) (ident m) (lab m) (summary m)
    (plan_path m) v (peon_last_inference m) (last_activity m) (last_user_input m) (facts m).
Definition set_peon_last_inference (v : option string) (m : SessionMetadata) : SessionMetadata :=
  mkSession (id m) (provenance m) (att m) (lc m) (work m) (ident m) (lab m) (summary m)
    (plan_path m) (worktree_binding m) v (last_activity m) (last_user_input m) (facts m).
Definition set_last_activity (v : string) (m : SessionMetadata) : SessionMetadata :=
  mkSession (id m) (provenance m) (att m) (lc m) (work m) (ident m) (lab m) (summary m)
    (plan_path m) (worktree_binding m) (peon_last_inference m) v (last_user_input m) (facts m).

(** ** Attribution *)

Definition attention_source_or (legacy_source : string) (p : MetadataProvenance) : string :=
  default legacy_source (attention_source p).
Definition source_of (m : SessionMetadata) : string :=
  attention_source_or (metadata_source (work m)) (provenance m).
Definition confidence_of (m : SessionMetadata) : f64 :=
  default (metadata_confidence (work m)) (prov_attention_confidence (provenance m)).
Definition origin_of (m : SessionMetadata) : string :=
  default "legacy_unknown" (attention_origin (provenance m)).

(** [MetadataProvenance::hydrate_legacy]; [modified] is already rendered. *)
Definition hydrate_legacy (legacy_source : string) (legacy_confidence : f64)
    (modified : option string) (p : MetadataProvenance) : MetadataProvenance :=
  let p :=
    if is_none (attention_source p) && is_none (attention_origin p) then
      set_attention_origin (Some "legacy_unknown")
        (set_prov_attention_confidence (Some legacy_confidence)
          (set_attention_source
            (Some (if legacy_source == "codex_hook" then "agent" else legacy_source)) p))
    else p in
  let p :=
    if is_none (attention_updated_at p) && (attention_origin p == Some "legacy_unknown")
    then set_attention_updated_at modified p else p in
  if is_none (work_metadata_updated_at p) then set_work_metadata_updated_at modified p else p.

(** The age of a timestamp in whole seconds: [None] when it does not parse, and
    when it lies a second or more ahead of the clock. *)
Section clock.
Context (parse_time : string → option Z) (now : Z).

Definition age_secs (value : option string) : option Z :=
  then_ ← value ≫= parse_time;
  let secs := Z.quot (now - then_) 1000000000 in
  if 0 <=? secs then Some secs else None.
Definition attention_age_secs (p : MetadataProvenance) : option Z := age_secs (attention_updated_at p).
Definition work_age_secs (p : MetadataProvenance) : option Z := age_secs (work_metadata_updated_at p).
End clock.

(** ** The ladder of sources *)

Definition PEON_AGENT_OVERWRITE_SECS : Z := 15.
Definition rank (source : string) : Z :=
  if source == "user" then 7
  else if (source == "agent") || (source == "codex_hook") then 6
  else if source == "peon" then 5
  else if source == "backend_inference" then 4
  else if source == "process" then 3
  else if source == "debug" then 1
  else 2.
Definition can_overwrite (incoming existing : string) (existing_age_secs_ago : option Z) : bool :=
  if incoming == "debug" then
    negb ((existing == "user") || (existing == "agent") || (existing == "codex_hook"))
  else if (incoming == "peon") && ((existing == "agent") || (existing == "codex_hook")) then
    is_some_and existing_age_secs_ago (λ age, PEON_AGENT_OVERWRITE_SECS <? age)
  else negb (rank incoming <? rank existing).

(** ** Reading a stored record *)

Definition on_att (f : Attention → Attention) (m : SessionMetadata) : SessionMetadata :=
  set_att (f (att m)) m.
Definition on_lc (f : Lifecycle → Lifecycle) (m : SessionMetadata) : SessionMetadata :=
  set_lc (f (lc m)) m.
Definition on_work (f : Work → Work) (m : SessionMetadata) : SessionMetadata :=
  set_work (f (work m)) m.
Definition on_prov (f : MetadataProvenance → MetadataProvenance) (m : SessionMetadata)
    : SessionMetadata := set_provenance (f (provenance m)) m.

Definition normalize_work_phase (raw : string) : string :=
  if (raw == "ideation") || (raw == "implementation") || (raw == "review") || (raw == "debugging")
     || (raw == "unknown")
  then raw else "unknown".

Definition default_lifecycle_phase_for_status (status : string) : string :=
  if status == "creating" then "creating"
  else if status == "running" then "active"
  else if (status == "ended") || (status == "killed") || (status == "error") then "ended"
  else "active".

Definition snapshot_from_legacy_observed_status (m : SessionMetadata)
    : option ObservedStatusSnapshotMetadata :=
  (λ status,
    mkSnapshot (Some (origin_of m)) (Some status)
      (if source_of m == "" then "recovery" else source_of m)
      (Some (confidence_of m)) (Some (last_activity m)))
  <$> observed_status (att m).
Definition canonical_null_snapshot (source : string) (observed_at : option string)
    : ObservedStatusSnapshotMetadata := mkSnapshot None None source None observed_at.

Definition is_terminal (status : string) : bool :=
  (status == "ended") || (status == "killed") || (status == "error").

(** The paragraphs of [normalize_session_metadata], in order: the lifecycle the
    phase implies and the attention a live session shows; *)
Definition settle_lifecycle (l : Lifecycle) : Lifecycle :=
  let l := if lifecycle_phase l == ""
           then set_lifecycle_phase (default_lifecycle_phase_for_status (status l)) l else l in
  if lifecycle l == "alive" then
    set_lifecycle
      (if lifecycle_phase l == "creating" then "creating"
       else if lifecycle_phase l == "ending" then "stopping"
       else if lifecycle_phase l == "ended" then "dead"
       else "alive") l
  else l.
Definition settle_attention (m : SessionMetadata) : SessionMetadata :=
  if is_none (attention (att m)) && (lifecycle (lc m) == "alive")
  then on_att (set_attention (canonical_attention (observed_status (att m)))) m
  else m.
(** what the status implies; *)
Definition force_running (l : Lifecycle) : Lifecycle :=
  if (lifecycle_phase l == "ending") && (status l != "running") then set_status "running" l else l.
Definition infer_outcome (l : Lifecycle) : Lifecycle :=
  let l' := if is_terminal (status l) && is_none (terminal_outcome l)
            then set_terminal_outcome (Some (status l)) l else l in
  if is_terminal (status l) && (connectivity l' == "online")
  then set_connectivity "offline" l' else l'.
Definition forget_pending (l : Lifecycle) : Lifecycle :=
  set_ending_observed_status_snapshot None (set_pending_terminal_status None l).
Definition forget_unless_ending (l : Lifecycle) : Lifecycle :=
  if lifecycle_phase l != "ending" then forget_pending l else l.
Definition fail_orphaned_ending (l : Lifecycle) : Lifecycle :=
  if (lifecycle_phase l == "ending") && is_none (pending_terminal_status l)
  then set_connectivity "offline"
         (set_terminal_outcome (Some "error") (set_status "error" (set_lifecycle_phase "ended" l)))
  else l.
Definition settle_status (l : Lifecycle) : Lifecycle :=
  fail_orphaned_ending (forget_unless_ending (infer_outcome (force_running l))).
(** the snapshot an ended session keeps; *)
Definition recover_snapshot (m : SessionMetadata) : SessionMetadata :=
  if (lifecycle_phase (lc m) == "ended") && is_none (final_observed_status_snapshot (lc m)) then
    on_lc (set_final_observed_status_snapshot
             (Some (default (canonical_null_snapshot "recovery" None)
                      (opt_or (ending_observed_status_snapshot (lc m))
                              (snapshot_from_legacy_observed_status m))))) m
  else m.
(** what only a live session shows; *)
Definition drop_observations (m : SessionMetadata) : SessionMetadata :=
  let phase := lifecycle_phase (lc m) in
  let m := if (phase == "creating") || (phase == "ending") || (phase == "ended")
           then on_att (set_observed_status None) m else m in
  if lifecycle (lc m) != "alive" then on_att (set_attention None) m else m.
(** and a status that is already final. *)
Definition keep_final_snapshot (m : SessionMetadata) : SessionMetadata :=
  if is_none (final_observed_status_snapshot (lc m)) then
    on_lc (set_final_observed_status_snapshot
             (Some (default (canonical_null_snapshot "recovery" None)
                      (snapshot_from_legacy_observed_status m)))) m
  else m.
Definition settle_terminal (m : SessionMetadata) : SessionMetadata :=
  if is_terminal (status (lc m)) then
    on_att (set_observed_status None)
      (on_lc forget_pending (keep_final_snapshot (on_lc (set_lifecycle_phase "ended") m)))
  else m.

Definition normalize_session_metadata (m : SessionMetadata) : SessionMetadata :=
  let m := on_work (λ w, set_work_phase (normalize_work_phase (work_phase w)) w) m in
  let m := settle_attention (on_lc settle_lifecycle m) in
  settle_terminal (drop_observations (recover_snapshot (on_lc settle_status m))).

(** A session found on disk without its process. *)
Definition reconcile_orphaned_session (now : string) (m : SessionMetadata) : SessionMetadata :=
  let final_status :=
    if lifecycle_phase (lc m) == "ending"
    then default "error" (pending_terminal_status (lc m)) else "ended" in
  let m := if lifecycle_phase (lc m) == "ending"
           then on_lc (set_pending_terminal_status None) m else m in
  let m :=
    if is_none (final_observed_status_snapshot (lc m)) then
      on_lc (set_final_observed_status_snapshot
               (Some (default (canonical_null_snapshot "recovery" (Some now))
                        (opt_or (ending_observed_status_snapshot (lc m))
                                (snapshot_from_legacy_observed_status m))))) m
    else m in
  set_last_activity now
    (on_att (λ a, set_observed_status None (set_attention None a))
      (on_lc (λ l, mkLifecycle final_status "ended" "dead" "offline" (Some final_status) None None
                     (final_observed_status_snapshot l)) m)).

(** ** Options to resume *)

Record ResumeOption : Type := mkOption {
  strategy : ResumeStrategy;
  option_label : string;
  available : bool;
  preferred : bool;
  reason : option string;
}.
Definition resume_available (r : option ResumeMemory) : bool :=
  is_some_and r (λ r, resume_state r == Available).
Definition exact_reason (supports_exact : bool) (r : option ResumeMemory) : option string :=
  if negb supports_exact then Some "Harness does not support exact resume"
  else if negb (resume_available r) then Some "No compatible remembered session exists"
  else if is_none (r ≫= harness_session_id) then Some "No harness session id was captured"
  else None.
Definition latest_reason (unsupported : string) (supported : bool) (r : option ResumeMemory)
    : option string :=
  if negb supported then Some unsupported
  else if negb (resume_available r) || negb (is_some_and r latest_fallback)
  then Some "No compatible remembered session exists"
  else None.
Definition derive_resume_options (preferred : ResumeStrategy) (r : option ResumeMemory)
    (supports_exact supports_latest_cwd supports_latest_repo : bool) : list ResumeOption :=
  (λ '(s, label, why), mkOption s label (is_none why) (s == preferred) why) <$>
  [(Exact, "Resume exact session", exact_reason supports_exact r);
   (LatestCwd, "Resume latest in folder",
    latest_reason "Harness does not support folder-scoped resume" supports_latest_cwd r);
   (LatestRepo, "Resume latest in repo",
    latest_reason "Harness does not support repo-scoped resume" supports_latest_repo r)].

(** ** The coding tool's own session id *)

Definition HARNESS_SESSION_ID_MIN_LEN : nat := 3.
Definition HARNESS_SESSION_ID_MAX_LEN : nat := 512.
Record HarnessSessionReport : Type := mkReport {
  report_id : text;
  report_source : string;
  report_confidence : f64;
}.
(** [str::len] counts bytes. *)
Definition byte_len (t : text) : nat := length (encode t).
Definition valid_harness_session_id (t : text) : bool :=
  negb (byte_len t =? 0)%nat
  && (HARNESS_SESSION_ID_MIN_LEN <=? byte_len t)%nat
  && (byte_len t <=? HARNESS_SESSION_ID_MAX_LEN)%nat
  && negb (existsb is_whitespace t).
Definition valid_harness_session_report (r : HarnessSessionReport) : bool :=
  valid_harness_session_id (report_id r)
  && negb (is_blank (bytes_of (report_source r)))
  && SFleb f_zero (report_confidence r) && SFleb (report_confidence r) f_one.
Definition valid_harness_session_report_context (r : HarnessSessionReport)
    (start_source start_event : option string) : bool :=
  if negb (valid_harness_session_report r)
     || negb (Bool.eqb (is_some start_source) (is_some start_event))
  then false
  else if is_none start_source then true
  else if report_source r == "codex_hook" then
    (start_event == Some "SessionStart")
    && is_some_and start_source (λ s, (s == "startup") || (s == "resume") || (s == "clear")
                                      || (s == "compact"))
  else if report_source r == "claude_hook" then
    (start_event == Some "SessionStart") && (start_source == Some "clear")
  else if report_source r == "copilot_hook" then
    (start_event == Some "sessionStart") && (start_source == Some "new")
  else false.
Definition valid_hook_fingerprint (f : list Z) : bool :=
  (length f =? 64)%nat && forallb is_ascii_hexdigit f.

(** ** What a read guarantees *)

(** A live record's lifecycle is one of four combinations. *)
Inductive lifecycle_wf : Lifecycle → Prop :=
  | wf_creating pending ending final :
      is_none_or pending is_terminal = true →
      lifecycle_wf (mkLifecycle "creating" "creating" "creating" "online" None pending ending final)
  | wf_active pending ending final :
      is_none_or pending is_terminal = true →
      lifecycle_wf (mkLifecycle "running" "active" "alive" "online" None pending ending final)
  | wf_ending pending ending final :
      is_terminal pending = true →
      lifecycle_wf
        (mkLifecycle "running" "ending" "stopping" "online" None (Some pending) (Some ending) final)
  | wf_ended status final :
      is_terminal status = true →
      lifecycle_wf (mkLifecycle status "ended" "dead" "offline" (Some status) None None (Some final)).
Create HintDb metadata.
#[export] Hint Constructors lifecycle_wf : metadata.

(** Past its life a session shows no attention. *)
Definition session_wf (m : SessionMetadata) : Prop :=
  lifecycle_wf (lc m)
  ∧ (lifecycle (lc m) = "stopping" ∨ lifecycle (lc m) = "dead" → attention (att m) = None)
  ∧ normalize_work_phase (work_phase (work m)) = work_phase (work m).

(** The postcondition of a read, whatever is stored. *)
Definition read_consistent (m : SessionMetadata) : Prop :=
  let l := lc m in
  (is_terminal (status l) = true →
     lifecycle_phase l = "ended" ∧ terminal_outcome l ≠ None ∧ connectivity l ≠ "online")
  ∧ (lifecycle_phase l = "ended" →
     final_observed_status_snapshot l ≠ None ∧ pending_terminal_status l = None)
  ∧ (lifecycle_phase l = "ending" ↔ pending_terminal_status l ≠ None)
  ∧ (lifecycle_phase l = "ending" → status l = "running")
  ∧ (lifecycle_phase l ∈ ["creating"; "ending"; "ended"] → observed_status (att m) = None)
  ∧ (lifecycle l ≠ "alive" → attention (att m) = None)
  ∧ normalize_work_phase (work_phase (work m)) = work_phase (work m).

Lemma is_terminal_true s : is_terminal s = true ↔ s = "ended" ∨ s = "killed" ∨ s = "error".
Proof. unfold is_terminal. to_prop. naive_solver. Qed.

Lemma normalize_work_phase_idem w :
  normalize_work_phase (normalize_work_phase w) = normalize_work_phase w.
Proof.
  unfold normalize_work_phase at 2 3.
  destruct ((w == "ideation") || _ || _ || _ || _) eqn:E; [|done].
  unfold normalize_work_phase. by rewrite E.
Qed.

Ltac by_tests :=
  repeat (case_bool_decide; cbn -[is_terminal] in *; simplify_eq);
  repeat split; intros; try congruence; try (split; congruence); try (split; [|split]; congruence).

Lemma force_running_post l :
  let l' := force_running l in
  lifecycle_phase l' = lifecycle_phase l
  ∧ (lifecycle_phase l' = "ending" → status l' = "running").
Proof. destruct l. unfold force_running, eqb. cbn. by_tests. Qed.
Lemma infer_outcome_post l :
  let l' := infer_outcome l in
  lifecycle_phase l' = lifecycle_phase l ∧ status l' = status l
  ∧ (is_terminal (status l') = true → terminal_outcome l' ≠ None ∧ connectivity l' ≠ "online").
Proof.
  destruct l as [st ph lf cn out pend es fs]. unfold infer_outcome, eqb. cbn -[is_terminal].
  destruct (is_terminal st) eqn:E, out; by_tests.
Qed.
Lemma forget_unless_ending_post l :
  let l' := forget_unless_ending l in
  lifecycle_phase l' = lifecycle_phase l ∧ status l' = status l
  ∧ terminal_outcome l' = terminal_outcome l ∧ connectivity l' = connectivity l
  ∧ (lifecycle_phase l' ≠ "ending" → pending_terminal_status l' = None).
Proof. destruct l. unfold forget_unless_ending, eqb. cbn. by_tests. Qed.
Lemma fail_orphaned_ending_post l :
  let l' := fail_orphaned_ending l in
  l' = l ∧ (lifecycle_phase l = "ending" → pending_terminal_status l ≠ None)
  ∨ lifecycle_phase l' = "ended" ∧ terminal_outcome l' = Some "error"
    ∧ connectivity l' = "offline" ∧ pending_terminal_status l' = None.
Proof.
  destruct l as [st ph lf cn out pend es fs]. unfold fail_orphaned_ending, eqb. cbn.
  case_bool_decide; [|left; by_tests]. destruct pend; [left; by_tests|right; by_tests].
Qed.

Lemma settle_status_post l :
  let l' := settle_status l in
  (lifecycle_phase l' = "ending" → status l' = "running" ∧ pending_terminal_status l' ≠ None)
  ∧ (lifecycle_phase l' ≠ "ending" → pending_terminal_status l' = None)
  ∧ (is_terminal (status l') = true → terminal_outcome l' ≠ None ∧ connectivity l' ≠ "online").
Proof.
  cbv zeta. unfold settle_status.
  pose proof (force_running_post l) as H1. set (l1 := force_running l) in *. clearbody l1.
  pose proof (infer_outcome_post l1) as H2. set (l2 := infer_outcome l1) in *. clearbody l2.
  pose proof (forget_unless_ending_post l2) as H3. set (l3 := forget_unless_ending l2) in *.
  clearbody l3. cbv zeta in *.
  destruct H1 as (E1 & H1), H2 as (E2 & S2 & H2), H3 as (E3 & S3 & O3 & C3 & H3).
  destruct (fail_orphaned_ending_post l3) as [(-> & Hp)|(-> & -> & -> & ->)].
  - rewrite O3, C3, S3. split; [|by split]. intros He. split; [|by apply Hp].
    rewrite S2. apply H1. congruence.
  - repeat split; by intros.
Qed.

Lemma recover_snapshot_post m :
  let m' := recover_snapshot m in
  att m' = att m ∧ work m' = work m ∧ status (lc m') = status (lc m)
  ∧ lifecycle_phase (lc m') = lifecycle_phase (lc m) ∧ lifecycle (lc m') = lifecycle (lc m)
  ∧ terminal_outcome (lc m') = terminal_outcome (lc m)
  ∧ connectivity (lc m') = connectivity (lc m)
  ∧ pending_terminal_status (lc m') = pending_terminal_status (lc m)
  ∧ (lifecycle_phase (lc m) = "ended" → final_observed_status_snapshot (lc m') ≠ None).
Proof.
  cbv zeta. unfold recover_snapshot, eqb.
  destruct (final_observed_status_snapshot (lc m)) eqn:E; case_bool_decide; cbn;
    repeat split; intros; congruence.
Qed.

Lemma drop_observations_post m :
  let m' := drop_observations m in
  lc m' = lc m ∧ work m' = work m
  ∧ (lifecycle_phase (lc m) ∈ ["creating"; "ending"; "ended"] → observed_status (att m') = None)
  ∧ (lifecycle (lc m) ≠ "alive" → attention (att m') = None).
Proof.
  cbv zeta. unfold drop_observations, eqb.
  repeat (case_bool_decide; cbn); repeat split; try congruence; intros; set_solver.
Qed.

Lemma keep_final_snapshot_post m :
  let m' := keep_final_snapshot m in
  att m' = att m ∧ work m' = work m
  ∧ (∃ final, final ≠ None ∧ lc m' = set_final_observed_status_snapshot final (lc m)).
Proof.
  cbv zeta. unfold keep_final_snapshot. destruct m as [i p a l w ? ? ? ? ? ? ? ? ?].
  destruct l as [st ph lf cn out pend es [fs|]]; cbn; repeat split; eexists; split;
    [|reflexivity|  |reflexivity]; congruence.
Qed.
Lemma settle_terminal_post m :
  let m' := settle_terminal m in
  m' = m ∧ is_terminal (status (lc m)) = false
  ∨ is_terminal (status (lc m)) = true
    ∧ work m' = work m ∧ attention (att m') = attention (att m) ∧ observed_status (att m') = None
    ∧ ∃ final, final ≠ None ∧
        lc m' = forget_pending (set_final_observed_status_snapshot final
                                 (set_lifecycle_phase "ended" (lc m))).
Proof.
  cbv zeta. unfold settle_terminal. destruct (is_terminal (status (lc m))) eqn:E; [right|by left].
  destruct (keep_final_snapshot_post (on_lc (set_lifecycle_phase "ended") m))
    as (Ha & Hw & final & Hf & Hl).
  split; [done|]. cbn. rewrite Hl, Ha, Hw. cbn. eauto 6.
Qed.

Lemma lc_on_lc f m : lc (on_lc f m) = f (lc m).
Proof. done. Qed.
Lemma work_on_lc f m : work (on_lc f m) = work m.
Proof. done. Qed.

(** What holds before a terminal status is settled, less the two facts on
    observations. *)
Definition nearly_consistent (m : SessionMetadata) : Prop :=
  (lifecycle_phase (lc m) = "ending" →
     status (lc m) = "running" ∧ pending_terminal_status (lc m) ≠ None)
  ∧ (lifecycle_phase (lc m) ≠ "ending" → pending_terminal_status (lc m) = None)
  ∧ (is_terminal (status (lc m)) = true →
     terminal_outcome (lc m) ≠ None ∧ connectivity (lc m) ≠ "online")
  ∧ (lifecycle_phase (lc m) = "ended" → final_observed_status_snapshot (lc m) ≠ None)
  ∧ normalize_work_phase (work_phase (work m)) = work_phase (work m).

Lemma recovered_nearly_consistent m :
  normalize_work_phase (work_phase (work m)) = work_phase (work m) →
  nearly_consistent (recover_snapshot (on_lc settle_status m)).
Proof.
  intros W. destruct (settle_status_post (lc m)) as (S1 & S2 & S3).
  destruct (recover_snapshot_post (on_lc settle_status m))
    as (_ & R2 & R3 & R4 & _ & R6 & R7 & R8 & R9).
  rewrite lc_on_lc in R3, R4, R6, R7, R8, R9. rewrite work_on_lc in R2.
  unfold nearly_consistent. rewrite R2, R3, R4, R6, R7, R8. auto.
Qed.

Lemma terminal_settled m :
  nearly_consistent m →
  (lifecycle_phase (lc m) ∈ ["creating"; "ending"; "ended"] → observed_status (att m) = None) →
  (lifecycle (lc m) ≠ "alive" → attention (att m) = None) →
  read_consistent (settle_terminal m).
Proof.
  intros (S1 & S2 & S3 & S4 & W) D3 D4. unfold read_consistent.
  destruct (settle_terminal_post m) as [(-> & T)|(T & T1 & T2 & T3 & final & T4 & T5)]; cbv zeta.
  - rewrite T. split; [done|]. split; [|split; [|split; [|done]]].
    + intros He. split; [by apply S4|]. apply S2. by rewrite He.
    + split; [by intros He; apply S1|]. intros Hp.
      destruct (decide (lifecycle_phase (lc m) = "ending")); [done|]. by destruct Hp; apply S2.
    + intros He. by apply S1.
  - rewrite T1, T2, T3, T5. cbn. repeat split; try done; by apply S3.
Qed.

Lemma settled_is_consistent m :
  normalize_work_phase (work_phase (work m)) = work_phase (work m) →
  read_consistent (settle_terminal (drop_observations (recover_snapshot (on_lc settle_status m)))).
Proof.
  intros W%recovered_nearly_consistent. revert W. generalize (recover_snapshot (on_lc settle_status m)).
  intros m1 N. destruct (drop_observations_post m1) as (D1 & D2 & D3 & D4).
  apply terminal_settled; [|by rewrite D1..]. unfold nearly_consistent. by rewrite D1, D2.
Qed.

Lemma settled_is_consistent_read m : read_consistent (normalize_session_metadata m).
Proof.
  apply settled_is_consistent. unfold settle_attention.
  case_match; apply normalize_work_phase_idem.
Qed.

(** whatever record the store holds, reading it gives a consistent one: a
    terminal status has the ended phase, an outcome and is not online; an ended
    session has its final snapshot and no pending status; a session is ending
    exactly when it has a pending terminal status, and then it is running;
    sessions that are being created, ending or ended show no observed status, and
    those that are not alive no attention. *)
Theorem read_is_consistent (m : SessionMetadata) :
  read_consistent (normalize_session_metadata m).
Proof. apply settled_is_consistent_read. Qed.

(** A read of an ended session only drops its observations. *)
Lemma normalize_ended m st final :
  lc m = mkLifecycle st "ended" "dead" "offline" (Some st) None None (Some final) →
  normalize_work_phase (work_phase (work m)) = work_phase (work m) →
  normalize_session_metadata m = on_att (λ a, set_attention None (set_observed_status None a)) m.
Proof.
  destruct m as [i p [ob at_ nu dq so] l w ? ? ? ? ? ? ? ? ?]. cbn. intros -> W.
  destruct w as [wp ? ? ? ? ? ? ? ? ? ? ? ?]. cbn in W.
  unfold normalize_session_metadata, on_work. cbn [work set_work set_work_phase work_phase].
  rewrite W. unfold settle_attention, on_lc, settle_lifecycle. cbn. lits. cbn. rewrite andb_false_r.
  unfold settle_status, force_running. cbn. lits.
  unfold infer_outcome. cbn -[is_terminal]. rewrite andb_false_r. cbn -[is_terminal]. lits.
  rewrite andb_false_r. unfold forget_unless_ending. cbn. lits.
  unfold fail_orphaned_ending. cbn. lits. unfold recover_snapshot. cbn. lits.
  unfold drop_observations. cbn. lits. cbn. lits.
  unfold settle_terminal. cbn -[is_terminal]. by destruct (is_terminal st).
Qed.

Lemma reconcile_lc now m :
  ∃ final, lc (reconcile_orphaned_session now m)
    = let st := if lifecycle_phase (lc m) == "ending"
                then default "error" (pending_terminal_status (lc m)) else "ended" in
      mkLifecycle st "ended" "dead" "offline" (Some st) None None (Some final).
Proof.
  unfold reconcile_orphaned_session. destruct (lifecycle_phase (lc m) == "ending"); cbn.
  - destruct (final_observed_status_snapshot (lc m)) eqn:E; cbn; rewrite ?E; by eexists.
  - destruct (final_observed_status_snapshot (lc m)) eqn:E; cbn; rewrite ?E; by eexists.
Qed.

(** a session orphaned by an earlier run of the daemon is ended once and for
    all: the record its recovery writes ends with the status that was pending, or
    as ended, and reading it back changes nothing. *)
Theorem recovery_is_stable (now : string) (m : SessionMetadata) :
  let r := reconcile_orphaned_session now (normalize_session_metadata m) in
  normalize_session_metadata r = r
  ∧ status (lc r) = default "ended" (pending_terminal_status (lc (normalize_session_metadata m)))
  ∧ terminal_outcome (lc r) = Some (status (lc r)) ∧ lifecycle (lc r) = "dead".
Proof.
  cbv zeta. generalize (settled_is_consistent_read m).
  generalize (normalize_session_metadata m). clear m. intros m C.
  destruct (reconcile_lc now m) as (final & E). cbv zeta in E.
  destruct C as (_ & _ & P & _ & _ & _ & W). cbv zeta in P.
  split; [|rewrite E; split; [cbn|done]].
  - assert (Ha : att (reconcile_orphaned_session now m)
                 = set_observed_status None (set_attention None (att m))).
    { unfold reconcile_orphaned_session. by repeat (case_match; cbn). }
    erewrite normalize_ended; [|exact E|].
    { revert Ha. generalize (reconcile_orphaned_session now m). clear. intros [] Ha.
      cbn in Ha. unfold on_att. by rewrite Ha. }
    unfold reconcile_orphaned_session. by repeat (case_match; cbn).
  - destruct (decide (lifecycle_phase (lc m) = "ending")) as [H|H].
    + rewrite H, eqb_refl. apply P in H. by destruct (pending_terminal_status (lc m)).
    + destruct (pending_terminal_status (lc m)); [by destruct H; apply P|].
      unfold eqb. by case_bool_decide.
Qed.

(** Computes a read of a record whose lifecycle strings are literals. *)
Lemma settle_attention_alive m :
  lifecycle (lc m) = "alive" →
  settle_attention m =
    on_att (λ a, set_attention (opt_or (attention a) (canonical_attention (observed_status a))) a) m.
Proof.
  intros E. unfold settle_attention. rewrite E.
  destruct m as [i p [ob [a|] nu dq so] l w ? ? ? ? ? ? ? ? ?]; done.
Qed.
Ltac read_steps :=
  unfold normalize_session_metadata, on_work, on_lc, settle_lifecycle; cbn; lits; cbn;
  rewrite ?settle_attention_alive by done; unfold settle_attention; cbn; lits; cbn;
  rewrite ?andb_false_r, ?andb_true_r;
  unfold settle_status, force_running; cbn; lits; cbn;
  unfold infer_outcome, is_terminal; cbn; lits; cbn; lits;
  unfold forget_unless_ending; cbn; lits; cbn; unfold fail_orphaned_ending; cbn; lits; cbn;
  unfold recover_snapshot; cbn; lits; cbn; unfold drop_observations; cbn; lits; cbn; lits; cbn;
  unfold settle_terminal, is_terminal; cbn; lits; cbn.

(** What a read does to a live record: it forgets a stale pending status and shows
    the attention of the observed status when none is stored. *)
Lemma read_live m pending ending final :
  lc m = mkLifecycle "running" "active" "alive" "online" None pending ending final →
  let m' := normalize_session_metadata m in
  lc m' = mkLifecycle "running" "active" "alive" "online" None None None final
  ∧ att m' = set_attention (opt_or (attention (att m)) (canonical_attention (observed_status (att m))))
               (att m).
Proof.
  destruct m as [i p [ob at_ nu dq so] l w ? ? ? ? ? ? ? ? ?]. cbn. intros ->.
  read_steps; done.
Qed.
Lemma read_creating m pending ending final :
  lc m = mkLifecycle "creating" "creating" "creating" "online" None pending ending final →
  let m' := normalize_session_metadata m in
  lc m' = mkLifecycle "creating" "creating" "creating" "online" None None None final
  ∧ attention (att m') = None ∧ observed_status (att m') = None.
Proof.
  destruct m as [i p [ob at_ nu dq so] l w ? ? ? ? ? ? ? ? ?]. cbn. intros ->.
  read_steps; done.
Qed.
Lemma read_ending m pending ending final :
  lc m = mkLifecycle "running" "ending" "stopping" "online" None (Some pending) ending final →
  let m' := normalize_session_metadata m in
  lc m' = lc m ∧ attention (att m') = None ∧ observed_status (att m') = None.
Proof.
  destruct m as [i p [ob at_ nu dq so] l w ? ? ? ? ? ? ? ? ?]. cbn. intros ->.
  read_steps; done.
Qed.

(** A read keeps a record well formed, and with it its status, its phase and its
    outcome. *)
Lemma read_wf m : session_wf m → session_wf (normalize_session_metadata m).
Proof.
  intros (L & A & W). pose proof (settled_is_consistent_read m) as (_ & _ & _ & _ & _ & C & W').
  split; [|split; [|done]].
  - destruct (lc m) as [st ph lf cn out pend es fs] eqn:E. inversion L; subst.
    + destruct (read_creating _ _ _ _ E) as (-> & _). auto with metadata.
    + destruct (read_live _ _ _ _ E) as (-> & _). auto with metadata.
    + destruct (read_ending _ _ _ _ E) as (-> & _). rewrite E. auto with metadata.
    + erewrite normalize_ended; [|exact E|done]. cbn. rewrite E. auto with metadata.
  - intros H. apply C. destruct H as [-> | ->]; done.
Qed.

(** A read leaves the provenance to [hydrate_legacy], and everything outside the
    lifecycle, the attention and the work phase as it is. *)
Lemma normalize_provenance m : provenance (normalize_session_metadata m) = provenance m.
Proof.
  assert (A : ∀ m, provenance (settle_attention m) = provenance m).
  { intros m'. unfold settle_attention. by case_match. }
  assert (R : ∀ m, provenance (recover_snapshot m) = provenance m).
  { intros m'. unfold recover_snapshot. by case_match. }
  assert (D : ∀ m, provenance (drop_observations m) = provenance m).
  { intros m'. unfold drop_observations. by repeat case_match. }
  assert (K : ∀ m, provenance (keep_final_snapshot m) = provenance m).
  { intros m'. unfold keep_final_snapshot. by case_match. }
  assert (T : ∀ m, provenance (settle_terminal m) = provenance m).
  { intros m'. unfold settle_terminal. case_match; [|done]. cbn. by rewrite K. }
  unfold normalize_session_metadata. rewrite T, D, R. cbn. by rewrite A.
Qed.

(** ** The ladder of sources *)

(** A user's state is overwritten by the user alone; an agent's by the user, an
    agent, and the peon once the age is known to exceed the window. *)
Lemma overwrite_user incoming age :
  can_overwrite incoming "user" age = true ↔ incoming = "user".
Proof.
  unfold can_overwrite, rank, eqb. repeat (case_bool_decide; cbn; simplify_eq); done.
Qed.
Lemma overwrite_agent incoming age :
  can_overwrite incoming "agent" age = true ↔
  incoming = "user" ∨ incoming = "agent" ∨ incoming = "codex_hook"
  ∨ incoming = "peon" ∧ ∃ a, age = Some a ∧ 15 < a.
Proof.
  destruct (decide (incoming = "peon")) as [->|Hp].
  - change (is_some_and age (λ a, 15 <? a) = true ↔ "peon" = "user" ∨ "peon" = "agent"
            ∨ "peon" = "codex_hook" ∨ "peon" = "peon" ∧ ∃ a, age = Some a ∧ 15 < a).
    rewrite is_some_and_true. setoid_rewrite Z.ltb_lt. split; [eauto|].
    by intros [?|[?|[?|(_ & ?)]]].
  - unfold can_overwrite, rank, eqb. repeat (case_bool_decide; cbn; simplify_eq); split; auto;
      try done; intros [?|[?|[?|(? & _)]]]; congruence.
Qed.
