(* ===== verification/MetadataMutations.v ===== *)
(** * Mutations of the session record

    [metadata/internal_mutations.rs], [metadata/lifecycle_mutations.rs] and the
    mutations of [metadata.rs] that its merge functions pass to the store: each takes
    the record as it was just read and either declines, fails, or returns the record
    to commit with the scopes whose clocks the commit advances.

    The age of a scope, which the code reads off the clock, is an argument of the
    peon's mutation and of the attention signal. *)
From S2P Require Import ApprovalReducer ObservedStatus.
From S2P Require Export SessionMeta.

(** ** [io::Error], decisions *)

Inductive PatchSemanticError : Type := PatchConflict | BadRequest | Unauthorized.
Inductive ErrorKind : Type := NotFound | InvalidInput | InvalidData | OtherError.
(** An [io::Error] of a kind, one that carries a [PatchSemanticError], and a panic. *)
Inductive IoError : Type :=
  | Io (kind : ErrorKind) (message : string)
  | Semantic (e : PatchSemanticError)
  | Panic.

Record WriteScope : Type := mkScope { scope_attention : bool; scope_work : bool }.
Definition ALL : WriteScope := mkScope true true.
Definition ATTENTION : WriteScope := mkScope true false.
Definition NONE : WriteScope := mkScope false false.

Inductive HarnessSessionMergeResult : Type :=
  | Accepted | IgnoredLowerConfidence | IgnoredIdentityChange | IgnoredUnchanged
  | MergeNotFound | MergeInvalid | PersistFailed.
Inductive Disposition : Type :=
  | Applied
  | NativeLabel (accepted : bool)
  | PeonSkipped (permanent_hold : bool)
  | HarnessMerged (r : HarnessSessionMergeResult).
Record Decision : Type := mkDecision {
  scope : option WriteScope;
  disposition : Disposition;
}.
Definition then_some {A} (b : bool) (a : A) : option A := if b then Some a else None.

(** ** Lifecycle *)

Definition connectivity_for_status (status : string) : string :=
  if (status == "creating") || (status == "running") then "online" else "offline".
Definition terminal_outcome_for_status (status : string) : option string :=
  if is_terminal status then Some status else None.

Inductive LifecycleMutation : Type :=
  | Transition (status : string) (had_live_handle already_ending : bool)
      (live_phase : option string) (resume : option ResumeMemory) (resumed_from : option text)
      (timestamp : string)
  | Finalize (snapshot : ObservedStatusSnapshotMetadata) (fallback_status timestamp : string).

Definition lifecycle_valid (i : LifecycleMutation) : bool :=
  match i with
  | Transition status _ _ _ _ _ _ =>
      (status == "creating") || (status == "running") || is_terminal status
  | Finalize snapshot fallback_status _ =>
      is_terminal fallback_status && is_none_or (snapshot_confidence snapshot) is_finite
  end.

(** A transition that comes too late, or out of turn. *)
Definition phase_over (phase : option string) : bool :=
  (phase == Some "ending") || (phase == Some "ended").
Definition transition_refused (new_status : string) (had_live_handle already_ending : bool)
    (live_phase : option string) (l : Lifecycle) : bool :=
  let terminal := is_terminal new_status in
  (terminal && already_ending && phase_over (Some (lifecycle_phase l)))
  || (terminal && (lifecycle_phase l == "ended")
      && (negb had_live_handle || (live_phase == Some "ended")
          || ((live_phase == Some "ending") && is_terminal (status l))))
  || (negb terminal && phase_over live_phase)
  || (negb had_live_handle && phase_over (Some (lifecycle_phase l))).

Definition ending_snapshot (timestamp : string) (m : SessionMetadata)
    : ObservedStatusSnapshotMetadata :=
  mkSnapshot (Some (origin_of m)) (observed_status (att m)) (source_of m)
    (Some (confidence_of m)) (Some timestamp).
Definition begin_ending (new_status timestamp : string) (m : SessionMetadata) : SessionMetadata :=
  on_att (λ a, set_observed_status None (set_attention None a))
    (on_lc (λ l, mkLifecycle "running" "ending" "stopping" (connectivity_for_status "running") None
                   (Some new_status) (Some (ending_snapshot timestamp m))
                   (final_observed_status_snapshot l)) m).
Definition begin_life (new_status : string) (m : SessionMetadata) : SessionMetadata :=
  let creating := new_status == "creating" in
  on_lc (λ l, mkLifecycle new_status (if creating then "creating" else "active")
                (if creating then "creating" else "alive") (connectivity_for_status new_status)
                (terminal_outcome_for_status new_status) (pending_terminal_status l)
                (ending_observed_status_snapshot l) (final_observed_status_snapshot l)) m.
Definition on_ident (f : Identity → Identity) (m : SessionMetadata) : SessionMetadata :=
  set_ident (f (ident m)) m.

Definition apply_lifecycle (i : LifecycleMutation) (m : SessionMetadata)
    : SessionMetadata * option WriteScope :=
  match i with
  | Transition new_status had_live_handle already_ending live_phase new_resume new_resumed_from
      timestamp =>
      if transition_refused new_status had_live_handle already_ending live_phase (lc m)
      then (m, None)
      else
        let m := if is_terminal new_status then begin_ending new_status timestamp m
                 else begin_life new_status m in
        let m := set_last_activity timestamp m in
        let m := if is_some new_resume then on_ident (set_resume new_resume) m else m in
        let m := if is_some new_resumed_from then on_ident (set_resumed_from new_resumed_from) m
                 else m in
        (m, Some (if is_terminal new_status then ATTENTION else NONE))
  | Finalize snapshot fallback_status timestamp =>
      if lifecycle_phase (lc m) == "ended" then (m, None)
      else
        let pending := default fallback_status (pending_terminal_status (lc m)) in
        (set_last_activity timestamp
          (on_att (λ a, set_observed_status None (set_attention None a))
            (on_lc (λ _, mkLifecycle pending "ended" "dead" (connectivity_for_status pending)
                           (terminal_outcome_for_status pending) None None (Some snapshot)) m)),
         Some ATTENTION)
  end.

(** ** Hooks of a native coding tool *)

Inductive HookTransitionKind : Type := Activate | Stop | UserPromptSubmit | FallbackPermission.

Definition session_root (m : SessionMetadata) : option text := resume (ident m) ≫= harness_session_id.
Definition no_question (a : Attention) : bool :=
  is_none (needs_user_input a) && is_none (detected_question a) && is_none (suggested_options a).
Definition clear_question (a : Attention) : Attention :=
  set_suggested_options None (set_detected_question None (set_needs_user_input None a)).
(** The three provenance fields an attention write sets. *)
Definition attribute (source : string) (confidence : option f64) (origin : string)
    (p : MetadataProvenance) : MetadataProvenance :=
  set_attention_origin (Some origin)
    (set_prov_attention_confidence confidence (set_attention_source (Some source) p)).

Definition hook_tuple_matches (m : SessionMetadata) (root : text) (expected : string) : bool :=
  (lifecycle (lc m) == "alive") && (lifecycle_phase (lc m) == "active")
  && (status (lc m) == "running") && (harness (ident m) == "codex")
  && (session_root m == Some root) && (observed_status (att m) == Some expected)
  && (attention (att m) == canonical_attention (Some expected))
  && (source_of m == "agent") && (origin_of m == "harness_hook")
  && SFeqb (confidence_of m) f_one && no_question (att m).

Definition apply_hook_completion (m : SessionMetadata) (root : text) (waiting : bool)
    (timestamp : string) : SessionMetadata * bool :=
  let '(previous, next) :=
    if waiting then ("working", "waiting_for_input") else ("waiting_for_input", "working") in
  if negb (hook_tuple_matches m root previous) then (m, false)
  else (set_last_activity timestamp
          (on_att (λ a, clear_question
             (set_attention (canonical_attention (Some next)) (set_observed_status (Some next) a))) m),
        true).

Definition apply_native_show_wait (m : SessionMetadata) (timestamp : string)
    : SessionMetadata * bool :=
  if (lifecycle (lc m) != "alive") || (source_of m == "user")
     || (attention (att m) == Some "needs_you") || (needs_user_input (att m) == Some true)
     || is_some (detected_question (att m)) || is_some (suggested_options (att m))
  then (m, false)
  else
    (set_last_activity timestamp
       (on_prov (attribute "agent" (Some f_one) "native_codex")
         (on_att (λ a, set_attention (Some "needs_you")
                         (set_observed_status (Some "waiting_for_input") a)) m)), true).

Definition apply_native_clear_wait (m : SessionMetadata) (timestamp : string)
    : SessionMetadata * bool :=
  if (lifecycle (lc m) != "alive") || (observed_status (att m) != Some "waiting_for_input")
     || (attention (att m) != Some "needs_you") || (source_of m != "agent")
     || (origin_of m != "native_codex") || negb (SFeqb (confidence_of m) f_one)
     || negb (no_question (att m))
  then (m, false)
  else
    (set_last_activity timestamp
       (on_att (λ a, set_attention (Some "working") (set_observed_status (Some "working") a)) m),
     true).

(** [unreachable!()] in the second match of the code is the first case here. *)
Definition transition_status (t : HookTransitionKind) : option string :=
  match t with
  | Activate => None
  | Stop => Some "idle"
  | UserPromptSubmit => Some "working"
  | FallbackPermission => Some "waiting_for_input"
  end.
Definition apply_hook_transition (m : SessionMetadata) (root : text) (t : HookTransitionKind)
    (timestamp : string) : SessionMetadata * bool :=
  if (lifecycle (lc m) != "alive") || (lifecycle_phase (lc m) != "active")
     || (harness (ident m) != "codex")
     || (harness_session_id_source (ident m) != Some "codex_hook")
     || (session_root m != Some root) || (source_of m == "user")
  then (m, false)
  else
    match t with
    | FallbackPermission =>
        if (needs_user_input (att m) == Some true) || is_some (detected_question (att m))
        then (m, false)
        else
          (on_prov (attribute "agent" (Some f_one) "harness_hook")
            (on_att (λ a, set_attention (Some "needs_you")
                            (set_observed_status (Some "waiting_for_input") a)) m), true)
    | _ =>
        let s := transition_status t in
        (on_prov (attribute "agent" (Some f_one) "harness_hook")
          (set_last_activity timestamp
            (on_att (λ a, clear_question (set_attention s (set_observed_status s a))) m)), true)
    end.

(** ** Titles *)

Definition on_lab (f : Label → Label) (m : SessionMetadata) : SessionMetadata := set_lab (f (lab m)) m.

(** The first eight bytes of the id; slicing a string inside a character panics. *)
Definition placeholder_label (session : text) : result IoError text :=
  let bytes := encode session in
  let n := Nat.min (length bytes) 8 in
  if is_char_boundary bytes n then Ok (ascii "Session " ++ chars_of (take n bytes)) else Err Panic.

Definition normalize_user_title (title : text) : result IoError text :=
  if existsb is_control title || match trim title with [] => true | _ => false end
     || (100 <? length (trim title))%nat
  then Err (Io InvalidInput "invalid session title")
  else Ok (trim title).

Definition apply_codex_label (m : SessionMetadata) (root title : text)
    : result IoError (SessionMetadata * Decision) :=
  if match trim title with [] => true | _ => false end || existsb is_control title
     || (100 <? length title)%nat
  then Err (Io InvalidInput "invalid native title")
  else
    let accepted :=
      (harness (ident m) == "codex") && (lifecycle (lc m) == "alive")
      && (lifecycle_phase (lc m) == "active") && is_automatic (label_source (lab m))
      && (session_root m == Some root) in
    let changed := accepted && ((label (lab m) != title) || (label_source (lab m) != Codex)) in
    let m := if changed
             then on_lab (λ b, set_label_from_initial_prompt false
                                 (set_label_source Codex (set_label title b))) m
             else m in
    Ok (m, mkDecision (then_some changed NONE) (NativeLabel accepted)).

Section alphabet.
Context (is_alphabetic : Z → bool).

Definition apply_user_title (m : SessionMetadata) (title : option text)
    : result IoError (SessionMetadata * Decision) :=
  '(new_label, source) ←
    match title with
    | Some title => t ← normalize_user_title title; Ok (t, User)
    | None =>
        match opt_filter (is_descriptive_input is_alphabetic) (last_user_input m) with
        | Some input => Ok (take 100 input, TerminalInput)
        | None => t ← placeholder_label (id m); Ok (t, Placeholder)
        end
    end;
  Ok (set_lab (mkLabel new_label source false false) m, mkDecision (Some NONE) Applied).
End alphabet.

(** ** The coding tool's session id *)

Definition new_resume_memory : ResumeMemory := mkResume Available NoStrategy None true None.

Definition apply_harness_report (m : SessionMetadata) (report : HarnessSessionReport)
    (timestamp : string) (allow_codex_identity_replacement : bool)
    : result IoError (SessionMetadata * Decision) :=
  if negb (valid_harness_session_report report)
  then Err (Io InvalidInput "invalid harness identity report")
  else
    let i := ident m in
    let existing_confidence := default f_minus_one (harness_session_id_confidence i) in
    let existing_id := session_root m in
    let ignored d := Ok (m, mkDecision None (HarnessMerged d)) in
    if is_some existing_id && SFltb (report_confidence report) existing_confidence
    then ignored IgnoredLowerConfidence
    else if (harness i == "codex") && is_some_and existing_id (λ e, e != report_id report)
            && negb allow_codex_identity_replacement
    then ignored IgnoredIdentityChange
    else if (existing_id == Some (report_id report))
            && (harness_session_id_source i == Some (report_source report))
            && opt_feqb (harness_session_id_confidence i) (Some (report_confidence report))
    then
      match resume i with
      | Some r =>
          Ok (on_ident (set_resume (Some (mkResume (resume_state r) (preferred_strategy r)
                                            (harness_session_id r) (latest_fallback r)
                                            (Some timestamp)))) m,
              mkDecision (Some NONE) (HarnessMerged IgnoredUnchanged))
      | None => ignored IgnoredUnchanged
      end
    else
      let r := default new_resume_memory (resume i) in
      let preferred := if preferred_strategy r == NoStrategy then Exact else preferred_strategy r in
      let r := mkResume Available preferred (Some (report_id report)) (latest_fallback r)
                 (Some timestamp) in
      Ok (on_ident (λ i, mkIdentity (harness i) (model i) (Some r) (Some (report_source report))
                           (Some (report_confidence report)) (Some timestamp) (resumed_from i)) m,
          mkDecision (Some NONE) (HarnessMerged Accepted)).

(** ** Providers *)

Record ProviderObservation : Type := mkProvider {
  observed_provider_id : text;
  observed_provider_label : text;
  observed_provider_model : option string;
  observed_provider_state : text;
}.
Definition apply_provider (p : ProviderObservation) (m : SessionMetadata) : SessionMetadata :=
  on_work (λ w, set_provider_state (Some (observed_provider_state p))
                  (set_provider_model (observed_provider_model p)
                    (set_provider_label (Some (observed_provider_label p))
                      (set_provider_id (Some (observed_provider_id p)) w)))) m.

(** ** The peon *)

Record PeonInference : Type := mkInference {
  inf_observed_status : option string;
  inf_phase : option string;
  inf_next_action : option text;
  inf_needs_user_input : option bool;
  inf_detected_question : option text;
  inf_suggested_options : option (list text);
  inf_blocker_description : option text;
  inf_failed_command : option text;
  inf_failed_test : option text;
  inf_capacity_hints : option (list text);
  inf_confidence : f64;
  inf_detected_harness : option string;
  inf_detected_model : option string;
  inf_harness_session_id : option text;
}.
Inductive PeonPolicy : Type :=
  | Infer | NonPrompt | PreserveAttention
  | PreserveHook (hook_status : string) (hook_confidence : f64) (hook_source : string).

Definition terminal_observed (o : option string) : bool :=
  is_terminal_observed_status (ascii <$> o).

(** The origins whose attention a [PreserveHook] policy protects. *)
Definition protected_hook_matches (policy : PeonPolicy) (m : SessionMetadata) : bool :=
  match policy with
  | PreserveHook hook_status hook_confidence hook_source =>
      let source := if hook_source == "codex_hook" then "agent" else hook_source in
      let origin := origin_of m in
      let validated_origin :=
        (origin == "harness_hook") || (origin == "native_codex")
        || ((origin == "legacy_unknown") && ((source == "claude_hook") || (source == "copilot_hook")))
        || ((origin == "process") && (source == "process")) in
      (observed_status (att m) == Some hook_status) && (source_of m == source)
      && SFeqb (confidence_of m) hook_confidence && validated_origin
  | _ => false
  end.
Definition infers_attention (policy : PeonPolicy) : bool :=
  match policy with NonPrompt | PreserveAttention => false | _ => true end.
Definition is_non_prompt (policy : PeonPolicy) : bool :=
  match policy with NonPrompt => true | _ => false end.
Definition preserves_attention (policy : PeonPolicy) : bool :=
  match policy with PreserveAttention => true | _ => false end.

(** An inference that would resume a finished status, and nothing else in it. *)
Definition would_resume (policy : PeonPolicy) (inf : PeonInference) (m : SessionMetadata) : bool :=
  infers_attention policy && (inf_observed_status inf == Some "working")
  && terminal_observed (observed_status (att m)).
Definition only_status (inf : PeonInference) : bool :=
  is_none (inf_next_action inf) && is_none (inf_blocker_description inf)
  && is_none (inf_failed_command inf) && is_none (inf_failed_test inf)
  && is_none (inf_capacity_hints inf).

Definition refresh_attention (m : SessionMetadata) : SessionMetadata :=
  if lifecycle (lc m) == "alive"
  then on_att (λ a, set_attention (canonical_attention (observed_status a)) a) m else m.

#[export] Instance attention_eq_dec : EqDecision Attention.
Proof. solve_decision. Defined.

(** The prompt a non-prompt screen refutes. *)
Definition reconcile_prompt (policy : PeonPolicy) (attention_allowed : bool) (timestamp : string)
    (m : SessionMetadata) : SessionMetadata :=
  if attention_allowed && is_non_prompt policy
     && negb ((source_of m == "user") || (source_of m == "agent") || (source_of m == "codex_hook"))
  then
    let before := att m in
    let m := if observed_status (att m) == Some "waiting_for_input"
             then on_att (set_observed_status None) m else m in
    let m := on_att clear_question (refresh_attention m) in
    if before != att m then set_last_activity timestamp m else m
  else m.

Definition infer_status (policy : PeonPolicy) (inf : PeonInference) (m : SessionMetadata)
    : SessionMetadata :=
  if preserves_attention policy then m
  else
    let m :=
      if negb (is_non_prompt policy)
         || ((inf_observed_status inf != Some "waiting_for_input")
             && negb ((inf_observed_status inf == Some "working")
                      && terminal_observed (observed_status (att m))))
      then on_att (λ a, set_observed_status (opt_or (inf_observed_status inf) (observed_status a)) a) m
      else m in
    refresh_attention m.

(** Options belong to their question. *)
Definition infer_question (inf : PeonInference) (a : Attention) : Attention :=
  let a := set_needs_user_input (opt_or (inf_needs_user_input inf) (needs_user_input a)) a in
  let incoming := opt_filter (λ q, match q with [] => false | _ => true end)
                    (inf_detected_question inf) in
  let a := if is_some incoming && (incoming != detected_question a)
           then set_suggested_options None a else a in
  set_suggested_options (opt_or (inf_suggested_options inf) (suggested_options a))
    (set_detected_question (opt_or incoming (detected_question a)) a).

Definition infer_work (inf : PeonInference) (w : Work) : Work :=
  let w := match inf_phase inf with
           | Some phase => set_work_phase (normalize_work_phase phase) w
           | None => w
           end in
  set_next_action (opt_or (inf_next_action inf) (next_action w)) w.
Definition infer_diagnostics (inf : PeonInference) (w : Work) : Work :=
  set_capacity_hints (opt_or (inf_capacity_hints inf) (capacity_hints w))
    (set_failed_test (opt_or (inf_failed_test inf) (failed_test w))
      (set_failed_command (opt_or (inf_failed_command inf) (failed_command w))
        (set_blocker_description (opt_or (inf_blocker_description inf) (blocker_description w)) w))).
Definition infer_tool (inf : PeonInference) (provider : option ProviderObservation) (i : Identity)
    : Identity :=
  let i := match inf_detected_harness inf with
           | Some h => if harness i == "" then set_harness h i else i
           | None => i
           end in
  match inf_detected_model inf with
  | Some detected =>
      let own := is_some_and (provider ≫= observed_provider_model) (λ pm, pm == detected) in
      if (model i == "") && negb own then set_model detected i else i
  | None => i
  end.

(** The fields that the situation line of a session shows. *)
Definition situation (m : SessionMetadata) :=
  (observed_status (att m), work_phase (work m), summary m, next_action (work m),
   detected_question (att m), blocker_description (work m), suggested_options (att m),
   failed_command (work m), failed_test (work m)).

Definition on_if (b : bool) (f : SessionMetadata → SessionMetadata) (m : SessionMetadata)
    : SessionMetadata := if b then f m else m.

Section peon.
Context (attention_age work_age : option Z).

(** Which of the three authorities an inference has: work, attention, summary. *)
Definition work_allowed (m : SessionMetadata) : bool :=
  can_overwrite "peon" (metadata_source (work m)) work_age.
Definition may_infer (policy : PeonPolicy) (m : SessionMetadata) : bool :=
  negb (preserves_attention policy) && negb (protected_hook_matches policy m)
  && can_overwrite "peon" (source_of m) attention_age.
Definition summary_allowed (history_summary : option text) (m : SessionMetadata) : bool :=
  is_some history_summary && (metadata_source (work m) != "user")
  && negb ((summary_source (provenance m) == Some "agent")
           || (summary_source (provenance m) == Some "user")).

Definition infer_situation (inf : PeonInference) (provider : option ProviderObservation)
    (history_summary : option text) (policy : PeonPolicy)
    (attention_ok work_ok summary_ok : bool) (m : SessionMetadata) : SessionMetadata :=
  let m := on_if attention_ok (infer_status policy inf) m in
  let m := on_if work_ok (on_work (infer_work inf)) m in
  let m := on_if (attention_ok && infers_attention policy) (on_att (infer_question inf)) m in
  let m := on_if work_ok (λ m, on_ident (infer_tool inf provider)
                                 (on_work (infer_diagnostics inf) m)) m in
  on_if summary_ok (set_summary history_summary) m.

Definition attribute_inference (inf : PeonInference) (timestamp : string)
    (provider : option ProviderObservation) (attention_ok work_ok summary_ok : bool)
    (m : SessionMetadata) : SessionMetadata :=
  let confidence := inf_confidence inf in
  let m := set_peon_last_inference (Some timestamp) m in
  let m := on_if work_ok
             (on_work (λ w, set_metadata_confidence confidence (set_metadata_source "peon" w))) m in
  let m := on_if attention_ok (on_prov (attribute "peon" (Some confidence) "peon")) m in
  let m := on_if summary_ok
             (on_prov (λ p, set_summary_observed_at (Some timestamp)
                              (set_summary_confidence (Some confidence)
                                (set_summary_source (Some "peon") p)))) m in
  on_if work_ok (λ m, match provider with Some p => apply_provider p m | None => m end) m.

Definition apply_peon (m : SessionMetadata) (inf : PeonInference) (timestamp : string)
    (provider : option ProviderObservation) (history_summary : option text) (policy : PeonPolicy)
    : SessionMetadata * Decision :=
  let work_ok := work_allowed m in
  let resuming := would_resume policy inf m in
  let attention_ok := may_infer policy m && negb resuming in
  let summary_ok := summary_allowed history_summary m in
  let permanent_hold := (metadata_source (work m) == "user") && (source_of m == "user") in
  let skipped hold := (m, mkDecision None (PeonSkipped hold)) in
  if resuming && only_status inf then skipped false
  else if negb work_ok && negb attention_ok && negb summary_ok then skipped permanent_hold
  else
    let m := reconcile_prompt policy attention_ok timestamp m in
    let before := situation m in
    let m := infer_situation inf provider history_summary policy attention_ok work_ok summary_ok m in
    let m := on_if (situation m != before) (set_last_activity timestamp) m in
    (attribute_inference inf timestamp provider attention_ok work_ok summary_ok m,
     mkDecision (Some (mkScope attention_ok work_ok)) Applied).
End peon.

(** ** [InternalMutation] *)

Inductive InternalMutation : Type :=
  | MLifecycle (i : LifecycleMutation)
  | NativeShowWait (timestamp : string)
  | NativeClearWait (timestamp : string) (observation_started_at : Z)
  | HookTransition (root : text) (transition : HookTransitionKind) (timestamp : string)
  | HookCompletion (root : text) (waiting : bool) (timestamp : string)
  | MPeon (inference : PeonInference) (timestamp : string) (provider : option ProviderObservation)
      (history_summary : option text) (policy : PeonPolicy)
  | MHarnessReport (report : HarnessSessionReport) (timestamp : string)
      (allow_codex_identity_replacement : bool)
  | CodexLabel (root label : text)
  | ProviderContext (p : ProviderObservation)
  | EndingProviderContext (p : ProviderObservation)
  | UserTitle (title : option text).

(** A decision that commits the attention scope when it is taken. *)
Definition attention_decision (x : SessionMetadata * bool) : SessionMetadata * Decision :=
  (x.1, mkDecision (then_some x.2 ATTENTION) Applied).

Definition policy_finite (policy : PeonPolicy) : bool :=
  match policy with PreserveHook _ confidence _ => is_finite confidence | _ => true end.

(** A clear is only as good as the observation it rests on. *)
Definition ready_at (i : InternalMutation) (now : Z) : bool :=
  match i with
  | NativeClearWait _ observation_started_at => observation_is_fresh observation_started_at now
  | _ => true
  end.

Section apply.
Context (is_alphabetic : Z → bool) (attention_age work_age : option Z).

Definition apply (i : InternalMutation) (m : SessionMetadata)
    : result IoError (SessionMetadata * Decision) :=
  match i with
  | MLifecycle i =>
      if negb (lifecycle_valid i) then Err (Io InvalidInput "invalid lifecycle intent")
      else let '(m, s) := apply_lifecycle i m in Ok (m, mkDecision s Applied)
  | NativeShowWait timestamp => Ok (attention_decision (apply_native_show_wait m timestamp))
  | NativeClearWait timestamp _ => Ok (attention_decision (apply_native_clear_wait m timestamp))
  | HookTransition root t timestamp => Ok (attention_decision (apply_hook_transition m root t timestamp))
  | HookCompletion root waiting timestamp =>
      Ok (attention_decision (apply_hook_completion m root waiting timestamp))
  | MPeon inference timestamp provider history_summary policy =>
      if negb (is_finite (inf_confidence inference)) || negb (policy_finite policy)
      then Err (Io InvalidInput "non-finite metadata confidence")
      else Ok (apply_peon attention_age work_age m inference timestamp provider history_summary policy)
  | MHarnessReport report timestamp allow => apply_harness_report m report timestamp allow
  | CodexLabel root title => apply_codex_label m root title
  | EndingProviderContext p =>
      if lifecycle_phase (lc m) == "ending"
      then Ok (apply_provider p m, mkDecision (Some NONE) Applied)
      else Ok (m, mkDecision None Applied)
  | ProviderContext p => Ok (apply_provider p m, mkDecision (Some NONE) Applied)
  | UserTitle title => apply_user_title is_alphabetic m title
  end.
End apply.

(** ** The mutations of [metadata.rs] *)

Inductive PlanPathUpdate : Type := Unchanged | ClearPath | SetPath (path : text).

Definition signal_origin (source : string) : string :=
  if source == "codex_hook" then "harness_hook"
  else if source == "agent" then "direct_agent"
  else if source == "user" then "user"
  else if source == "peon" then "peon"
  else if source == "debug" then "debug"
  else if source == "process" then "process"
  else "backend_inference".

(** The first closure of [merge_agent_attention_signal_with_plan]; [None] declines. *)
Definition attention_signal (attention_age : option Z) (new_status : string) (message : option text)
    (path : PlanPathUpdate) (timestamp source : string) (confidence : f64)
    (activate_work_hook : bool) (m : SessionMetadata) : option SessionMetadata :=
  if negb (can_overwrite source (source_of m) attention_age) then None
  else
    let m := refresh_attention (on_att (set_observed_status (Some new_status)) m) in
    let m := match message with
             | Some msg =>
                 on_prov (λ p, set_summary_observed_at (Some timestamp)
                                 (set_summary_confidence (Some confidence)
                                   (set_summary_source (Some source) p)))
                   (set_summary (Some msg) m)
             | None => m
             end in
    let preserve := (source != "user")
                    && is_some_and (plan_path m) (λ p, plan_source p == UserSelected) in
    let m := match path with
             | Unchanged => m
             | ClearPath => if preserve then m else set_plan_path None m
             | SetPath p => if preserve then m else set_plan_path (Some (mkPlan None p HookReported)) m
             end in
    let m := set_last_activity timestamp m in
    let m := on_prov (attribute (if source == "codex_hook" then "agent" else source)
                        (Some confidence) (signal_origin source)) m in
    Some (if activate_work_hook then on_att clear_question m else m).

(** The closure of [merge_prompt_authority_status_record]. *)
Definition prompt_authority_status (new_status : string) (m : SessionMetadata)
    : option SessionMetadata :=
  if source_of m == "user" then None
  else Some (on_prov (attribute "process" (Some f_one) "process")
               (on_att clear_question
                 (refresh_attention (on_att (set_observed_status (Some new_status)) m)))).
(** The closure of [clear_prompt_authority_tuple]. *)
Definition clear_prompt_authority (m : SessionMetadata) : option SessionMetadata :=
  if source_of m == "user" then None
  else Some (on_prov (attribute "unknown" None "process")
               (on_att (λ _, mkAttention None None None None None) m)).
(** The closure of [retire_prompt_authority_native_id]. *)
Definition retire_native_id (m : SessionMetadata) : option SessionMetadata :=
  r ← resume (ident m);
  _ ← harness_session_id r;
  Some (on_ident (set_resume (Some (mkResume (resume_state r) (preferred_strategy r) None
                                      (latest_fallback r) (last_seen_at r)))) m).

(** The report of its own session id that an inference carries. *)
Definition peon_harness_session_report (inf : PeonInference) : option HarnessSessionReport :=
  (λ sid, mkReport sid "peon" (f_min (inf_confidence inf) f_half)) <$> inf_harness_session_id inf.

(** ** What each mutation leaves alone *)

(** The three fields that attribute the attention, and the two commit clocks. *)
Definition attribution (m : SessionMetadata) :=
  (attention_source (provenance m), prov_attention_confidence (provenance m),
   attention_origin (provenance m)).
Definition clocks (m : SessionMetadata) :=
  (attention_updated_at (provenance m), work_metadata_updated_at (provenance m)).
(** The work fields but the provider, whose observation has no authority to defend. *)
Definition work_view (m : SessionMetadata) :=
  (work_phase (work m), task (work m), next_action (work m), blocker_description (work m),
   failed_command (work m), failed_test (work m), capacity_hints (work m),
   metadata_source (work m), metadata_confidence (work m)).

Definition is_lifecycle (i : InternalMutation) : bool :=
  match i with MLifecycle _ => true | _ => false end.

Lemma on_if_same {A} (get : SessionMetadata → A) b f m :
  (b = true → get (f m) = get m) → get (on_if b f m) = get m.
Proof. destruct b; [|done]. intros H. by apply H. Qed.

Section stages.
Context (inf : PeonInference) (provider : option ProviderObservation)
  (history_summary : option text) (policy : PeonPolicy) (timestamp : string).
Context (attention_ok work_ok summary_ok : bool).

Lemma refresh_attention_same {A} (get : SessionMetadata → A) m :
  (∀ a, get (on_att a m) = get m) → get (refresh_attention m) = get m.
Proof. intros H. unfold refresh_attention. by case_match. Qed.

Lemma reconcile_prompt_same {A} (get : SessionMetadata → A) m :
  (∀ f m, get (on_att f m) = get m) → (∀ m, get (set_last_activity timestamp m) = get m) →
  get (reconcile_prompt policy attention_ok timestamp m) = get m.
Proof.
  intros H1 H2. unfold reconcile_prompt. case_match; [|done].
  assert (E : ∀ m, get (on_att clear_question (refresh_attention m)) = get m).
  { intros m'. rewrite H1. by apply refresh_attention_same. }
  case_match; rewrite ?H2, E; case_match; by rewrite ?H1.
Qed.
Lemma infer_status_same {A} (get : SessionMetadata → A) m :
  (∀ f m, get (on_att f m) = get m) → get (infer_status policy inf m) = get m.
Proof.
  intros H. unfold infer_status. case_match; [done|].
  rewrite refresh_attention_same by done. case_match; by rewrite ?H.
Qed.
Lemma infer_situation_same {A} (get : SessionMetadata → A) m :
  (attention_ok = true → ∀ f m, get (on_att f m) = get m) →
  (work_ok = true → ∀ f m, get (on_work f m) = get m) →
  (work_ok = true → ∀ m, get (on_ident (infer_tool inf provider) m) = get m) →
  (summary_ok = true → ∀ m, get (set_summary history_summary m) = get m) →
  get (infer_situation inf provider history_summary policy attention_ok work_ok summary_ok m) = get m.
Proof.
  intros H1 H2 H2' H3. unfold infer_situation.
  rewrite on_if_same by auto.
  rewrite on_if_same. 2:{ intros E. by rewrite H2', H2. }
  rewrite on_if_same. 2:{ intros (E & _)%andb_true_iff. by apply H1. }
  rewrite on_if_same. 2:{ intros E. by apply H2. }
  apply on_if_same. intros E. apply infer_status_same. auto.
Qed.
Lemma attribute_inference_same {A} (get : SessionMetadata → A) m :
  (∀ m, get (set_peon_last_inference (Some timestamp) m) = get m) →
  (attention_ok = true → ∀ f m, get (on_prov (attribute "peon" f "peon") m) = get m) →
  (work_ok = true → ∀ f m, get (on_work f m) = get m) →
  (summary_ok = true → ∀ m s c o,
     get (on_prov (λ p, set_summary_observed_at o (set_summary_confidence c (set_summary_source s p))) m)
     = get m) →
  get (attribute_inference inf timestamp provider attention_ok work_ok summary_ok m) = get m.
Proof.
  intros H1 H2 H3 H4. unfold attribute_inference.
  rewrite on_if_same. 2:{ intros E. case_match; [by apply H3|done]. }
  rewrite on_if_same by auto. rewrite on_if_same by auto. rewrite on_if_same by auto. apply H1.
Qed.
End stages.

Section peon_frame.
Context (attention_age work_age : option Z) (m : SessionMetadata) (inf : PeonInference)
  (timestamp : string) (provider : option ProviderObservation) (history_summary : option text)
  (policy : PeonPolicy).
Let attention_ok := may_infer attention_age policy m && negb (would_resume policy inf m).
Let work_ok := work_allowed work_age m.
Let summary_ok := summary_allowed history_summary m.
Let out := apply_peon attention_age work_age m inf timestamp provider history_summary policy.

(** A view of the record that the granted authorities do not touch is kept. *)
Lemma apply_peon_same {A} (get : SessionMetadata → A) :
  (∀ m, get (set_last_activity timestamp m) = get m) →
  (∀ m, get (set_peon_last_inference (Some timestamp) m) = get m) →
  (attention_ok = true → ∀ f m, get (on_att f m) = get m) →
  (attention_ok = true → ∀ f m, get (on_prov (attribute "peon" f "peon") m) = get m) →
  (work_ok = true → ∀ f m, get (on_work f m) = get m) →
  (work_ok = true → ∀ m, get (on_ident (infer_tool inf provider) m) = get m) →
  (summary_ok = true → ∀ m, get (set_summary history_summary m) = get m) →
  (summary_ok = true → ∀ m s c o,
     get (on_prov (λ p, set_summary_observed_at o (set_summary_confidence c (set_summary_source s p))) m)
     = get m) →
  get out.1 = get m.
Proof.
  intros H1 H2 H3 H4 H5 H6 H7 H8. unfold out, apply_peon. case_match; [done|]. case_match; [done|].
  cbn [fst]. fold attention_ok work_ok summary_ok.
  rewrite attribute_inference_same by auto. rewrite on_if_same by auto.
  rewrite infer_situation_same by auto.
  destruct (attention_ok) eqn:E; [|done]. apply reconcile_prompt_same; auto.
Qed.

Lemma apply_peon_scope s :
  scope out.2 = Some s → s = mkScope attention_ok work_ok.
Proof.
  unfold out, apply_peon. fold attention_ok work_ok summary_ok.
  case_match; [done|]. case_match; [done|]. by intros [= <-].
Qed.
Lemma apply_peon_declined : scope out.2 = None → out.1 = m.
Proof. unfold out, apply_peon. case_match; [done|]. by case_match. Qed.
End peon_frame.

(** A mutation keeps to the scopes it asks to commit, and leaves the clocks to the
    commit; a declined one changes nothing. *)
Definition respects (m m' : SessionMetadata) (s : option WriteScope) : Prop :=
  id m' = id m ∧ clocks m' = clocks m
  ∧ match s with
    | None => m' = m
    | Some s =>
        (scope_attention s = false → att m' = att m ∧ attribution m' = attribution m)
        ∧ (scope_work s = false → work_view m' = work_view m)
    end.

(** The mutations of one boolean decision touch only the attention. *)
Definition attention_only (m : SessionMetadata) (x : SessionMetadata * bool) : Prop :=
  respects m x.1 (then_some x.2 ATTENTION) ∧ lc x.1 = lc m ∧ work x.1 = work m
  ∧ (source_of m = "user" → x.1 = m).

Ltac mut_cases := repeat (case_match; simplify_eq/=; try done).

Lemma respects_refl m s : respects m m s.
Proof. by destruct s. Qed.
Lemma attention_only_refl m : attention_only m (m, false).
Proof. done. Qed.
#[export] Hint Resolve respects_refl attention_only_refl : metadata.

Lemma apply_native_show_wait_only m timestamp :
  attention_only m (apply_native_show_wait m timestamp).
Proof.
  unfold apply_native_show_wait. case_match eqn:E; [auto with metadata|].
  repeat split; try done. intros U. rewrite U in E. to_prop. destruct_and?. done.
Qed.
Lemma apply_native_clear_wait_only m timestamp :
  attention_only m (apply_native_clear_wait m timestamp).
Proof.
  unfold apply_native_clear_wait. case_match eqn:E; [auto with metadata|].
  repeat split; try done. intros U. rewrite U in E. to_prop. destruct_and?. done.
Qed.
Lemma apply_hook_completion_only m root waiting timestamp :
  attention_only m (apply_hook_completion m root waiting timestamp).
Proof.
  assert (U : ∀ expected, source_of m = "user" → hook_tuple_matches m root expected = false).
  { intros expected E. unfold hook_tuple_matches. rewrite E. by rewrite !andb_false_r. }
  unfold apply_hook_completion.
  destruct waiting; (case_match eqn:E; [auto with metadata|]); repeat split; try done;
    intros H; by rewrite (U _ H) in E.
Qed.
Lemma apply_hook_transition_only m root t timestamp :
  attention_only m (apply_hook_transition m root t timestamp).
Proof.
  unfold apply_hook_transition. case_match eqn:E; [auto with metadata|].
  assert (U : source_of m ≠ "user") by (intros U; rewrite U in E; to_prop; destruct_and?; done).
  destruct t; [| | |case_match; [auto with metadata|]]; repeat split; try done;
    by intros ?%U.
Qed.

Lemma begin_life_frame s m :
  respects m (begin_life s m) (Some NONE) ∧ work (begin_life s m) = work m.
Proof. done. Qed.
Lemma apply_lifecycle_respects i m :
  let x := apply_lifecycle i m in respects m x.1 x.2 ∧ work x.1 = work m.
Proof.
  destruct i as [s ? ? ? r f t|]; cbn -[transition_refused].
  - case_match; [done|]. destruct (is_terminal s), r, f; done.
  - case_match; done.
Qed.

Lemma apply_codex_label_respects m root title m' d :
  apply_codex_label m root title = Ok (m', d) →
  respects m m' (scope d) ∧ lc m' = lc m ∧ work m' = work m ∧ att m' = att m
  ∧ attribution m' = attribution m.
Proof.
  unfold apply_codex_label. case_match; [done|]. intros [= <- <-].
  by destruct (_ && ((label (lab m) != title) || _)).
Qed.
Lemma apply_user_title_respects is_alphabetic m title m' d :
  apply_user_title is_alphabetic m title = Ok (m', d) →
  respects m m' (scope d) ∧ lc m' = lc m ∧ work m' = work m ∧ att m' = att m
  ∧ attribution m' = attribution m.
Proof.
  unfold apply_user_title. intros ([new_label src] & _ & [= <- <-])%result_bind_Ok. done.
Qed.
Lemma apply_harness_report_respects m r timestamp allow m' d :
  apply_harness_report m r timestamp allow = Ok (m', d) →
  respects m m' (scope d) ∧ lc m' = lc m ∧ work m' = work m ∧ att m' = att m
  ∧ attribution m' = attribution m.
Proof. unfold apply_harness_report. intros H. by repeat case_match; simplify_eq. Qed.

Lemma apply_peon_respects attention_age work_age m inf timestamp provider history policy :
  let x := apply_peon attention_age work_age m inf timestamp provider history policy in
  respects m x.1 (scope x.2) ∧ lc x.1 = lc m.
Proof.
  cbv zeta. split; [|by apply apply_peon_same]. split; [by apply apply_peon_same|].
  split; [by apply apply_peon_same|]. case_match eqn:E; [|by apply apply_peon_declined].
  apply apply_peon_scope in E as ->. cbn [scope_attention scope_work]. split.
  - intros E. split; apply apply_peon_same; rewrite ?E; done.
  - intros E. apply apply_peon_same; rewrite ?E; done.
Qed.

Lemma Ok_inj {E A} (a b : A) : Ok (E := E) a = Ok b → a = b.
Proof. by intros [= ->]. Qed.

Section dispatch.
Context (is_alphabetic : Z → bool) (attention_age work_age : option Z).
Abbreviation applies i m m' d := (apply is_alphabetic attention_age work_age i m = Ok (m', d)).

Lemma attention_decision_Ok x m' d :
  Ok (E := IoError) (attention_decision x) = Ok (m', d) →
  m' = x.1 ∧ scope d = then_some x.2 ATTENTION.
Proof. by intros [= <- <-]. Qed.

Lemma apply_frame i m m' d :
  applies i m m' d →
  respects m m' (scope d) ∧ (is_lifecycle i = false → lc m' = lc m).
Proof.
  intros H. destruct i; cbn -[attention_decision] in H;
    try (apply attention_decision_Ok in H as (-> & ->)).
  - destruct (negb _); [done|]. destruct (apply_lifecycle i m) as [m1 s] eqn:E.
    injection H as <- <-. pose proof (apply_lifecycle_respects i m) as (R & _).
    rewrite E in R. done.
  - split; [|intros _]; apply apply_native_show_wait_only.
  - split; [|intros _]; apply apply_native_clear_wait_only.
  - split; [|intros _]; apply apply_hook_transition_only.
  - split; [|intros _]; apply apply_hook_completion_only.
  - destruct (_ || _); [done|]. injection H as H.
    pose proof (apply_peon_respects attention_age work_age m inference timestamp provider
                  history_summary policy) as (R & L). rewrite H in R, L. done.
  - apply apply_harness_report_respects in H as (R & L & _). done.
  - apply apply_codex_label_respects in H as (R & L & _). done.
  - injection H as <- <-. done.
  - destruct (_ == _); by injection H as <- <-.
  - apply apply_user_title_respects in H as (R & L & _). done.
Qed.

(** every mutation keeps to the scopes it asks to commit: one that is declined
    leaves the whole record as it was, one that does not commit the attention scope
    leaves the attention and its attribution alone, one that does not commit the
    work scope the work fields and their source; none touches the session's id or
    the clocks, which belong to the commit. *)
Theorem mutations_keep_to_their_scopes (i : InternalMutation) (m m' : SessionMetadata)
    (d : Decision) (H : applies i m m' d) :
  id m' = id m ∧ clocks m' = clocks m
  ∧ match scope d with
    | None => m' = m
    | Some s =>
        (scope_attention s = false → att m' = att m ∧ attribution m' = attribution m)
        ∧ (scope_work s = false → work_view m' = work_view m)
    end.
Proof. by apply apply_frame in H as (R & _). Qed.

Lemma peon_attention_refused m policy :
  can_overwrite "peon" (source_of m) attention_age = false →
  may_infer attention_age policy m = false.
Proof. intros E. unfold may_infer. by rewrite E, !andb_false_r. Qed.

Lemma apply_peon_refused m inf timestamp provider history policy :
  can_overwrite "peon" (source_of m) attention_age = false →
  let m' := (apply_peon attention_age work_age m inf timestamp provider history policy).1 in
  att m' = att m ∧ attribution m' = attribution m.
Proof.
  intros E. apply (peon_attention_refused m policy) in E. cbv zeta.
  split; apply apply_peon_same; by rewrite ?E.
Qed.

Lemma source_of_same m m' :
  attribution m' = attribution m → metadata_source (work m') = metadata_source (work m) →
  source_of m' = source_of m.
Proof. intros [= E _ _] W. unfold source_of, attention_source_or. by rewrite E, W. Qed.
Lemma source_of_attributed m m' s :
  attention_source (provenance m) = Some s → attribution m' = attribution m → source_of m' = source_of m.
Proof. intros E [= E' _ _]. unfold source_of, attention_source_or. by rewrite E', E. Qed.

(** attention that belongs to the user stays the user's: no mutation but the end
    of the session changes the observed status, the attention, the open question or
    their attribution. *)
Theorem user_attention_is_kept (i : InternalMutation) (m m' : SessionMetadata) (d : Decision)
    (H : applies i m m' d) (L : is_lifecycle i = false) (U : source_of m = "user") :
  att m' = att m ∧ attribution m' = attribution m ∧ source_of m' = "user".
Proof.
  assert (K : ∀ x, attention_only m x → att x.1 = att m ∧ attribution x.1 = attribution m
                   ∧ source_of x.1 = "user") by (by intros x (_ & _ & _ & ->)).
  assert (K' : work m' = work m → att m' = att m → attribution m' = attribution m →
             att m' = att m ∧ attribution m' = attribution m ∧ source_of m' = "user").
  { intros W A E. split; [done|]. split; [done|]. by rewrite (source_of_same m), U by congruence. }
  destruct i; try discriminate L; cbn -[attention_decision] in H;
    try (apply attention_decision_Ok in H as (-> & _)).
  - apply K, apply_native_show_wait_only.
  - apply K, apply_native_clear_wait_only.
  - apply K, apply_hook_transition_only.
  - apply K, apply_hook_completion_only.
  - destruct (_ || _); [done|]. apply Ok_inj in H. 
    destruct (apply_peon_refused m inference timestamp provider history_summary policy) as (A & B).
    { rewrite U. done. }
    rewrite H in A, B. cbn [fst] in A, B. split; [done|]. split; [done|].
    destruct (attention_source (provenance m)) eqn:E; [by rewrite (source_of_attributed _ _ _ E B)|].
    rewrite <-U. apply source_of_same; [done|].
    assert (W : work_allowed work_age m = false).
    { unfold work_allowed. unfold source_of, attention_source_or in U. rewrite E in U. cbn in U. by rewrite U. }
    change m' with (m', d).1. rewrite <-H.
    by apply apply_peon_same with (get := λ m, metadata_source (work m)); rewrite ?W.
  - apply apply_harness_report_respects in H as (_ & _ & ? & ? & ?). auto.
  - apply apply_codex_label_respects in H as (_ & _ & ? & ? & ?). auto.
  - injection H as <- _. repeat split. done.
  - destruct (_ == _); by injection H as <- _.
  - apply apply_user_title_respects in H as (_ & _ & ? & ? & ?). auto.
Qed.

(** ** The observed status an inference leaves *)

Definition inferred_attention (m : SessionMetadata) (inf : PeonInference) (timestamp : string)
    (policy : PeonPolicy) (attention_ok : bool) : Attention :=
  if attention_ok then
    let a := att (infer_status policy inf (reconcile_prompt policy true timestamp m)) in
    if infers_attention policy then infer_question inf a else a
  else att m.

Lemma att_on_att f m : att (on_att f m) = f (att m).
Proof. done. Qed.
Lemma apply_peon_att m inf timestamp provider history policy :
  let x := apply_peon attention_age work_age m inf timestamp provider history policy in
  scope x.2 ≠ None →
  att x.1 = inferred_attention m inf timestamp policy
              (may_infer attention_age policy m && negb (would_resume policy inf m)).
Proof.
  cbv zeta. unfold apply_peon. case_match; [done|]. case_match; [done|]. intros _. cbn [fst].
  rewrite attribute_inference_same by done. rewrite on_if_same by done.
  unfold infer_situation. rewrite (on_if_same att (summary_allowed _ _)) by done.
  rewrite (on_if_same att (work_allowed _ _)) by done.
  unfold inferred_attention. generalize (may_infer attention_age policy m && negb (would_resume policy inf m)).
  intros [|]; cbn [andb on_if].
  - destruct (infers_attention policy); cbn [on_if]; rewrite ?att_on_att; by rewrite (on_if_same att).
  - by rewrite (on_if_same att).
Qed.

Lemma infer_question_keeps inf a :
  observed_status (infer_question inf a) = observed_status a
  ∧ attention (infer_question inf a) = attention a.
Proof. unfold infer_question. by case_match. Qed.

Lemma refresh_attention_keeps m :
  observed_status (att (refresh_attention m)) = observed_status (att m)
  ∧ lc (refresh_attention m) = lc m
  ∧ (lifecycle (lc m) ≠ "alive" → att (refresh_attention m) = att m).
Proof. unfold refresh_attention, eqb. by case_bool_decide. Qed.
Lemma reconcile_prompt_lc policy ok timestamp m :
  lc (reconcile_prompt policy ok timestamp m) = lc m.
Proof. by apply reconcile_prompt_same. Qed.

(** Past its life a session's attention stays as it is. *)
Lemma inferred_attention_dead m inf timestamp policy ok :
  lifecycle (lc m) ≠ "alive" →
  attention (inferred_attention m inf timestamp policy ok) = attention (att m).
Proof.
  intros L. unfold inferred_attention. destruct ok; [|done].
  assert (R : ∀ m', lc m' = lc m → att (refresh_attention m') = att m').
  { intros m' E. apply refresh_attention_keeps. by rewrite E. }
  assert (I : attention (att (infer_status policy inf (reconcile_prompt policy true timestamp m)))
              = attention (att m)).
  { unfold infer_status.
    assert (P : attention (att (reconcile_prompt policy true timestamp m)) = attention (att m)).
    { unfold reconcile_prompt. case_match; [|done]. case_match; cbn; rewrite R; by case_match. }
    case_match; [done|]. rewrite R by (case_match; cbn; by rewrite reconcile_prompt_lc).
    by case_match. }
  case_match; [|done]. by rewrite (proj2 (infer_question_keeps _ _)).
Qed.

(** ** The type of the lifecycle *)

Lemma alive_only m x :
  attention_only m x → (lifecycle (lc m) ≠ "alive" → x.1 = m) → session_wf m → session_wf x.1.
Proof.
  intros (_ & L & W & _) D (Hl & Ha & Hp). unfold session_wf. rewrite L, W. split; [done|]. split; [|done].
  intros H. rewrite D; [by apply Ha|]. by destruct H as [-> | ->].
Qed.
Lemma not_alive_declines m :
  lifecycle (lc m) ≠ "alive" → ∀ timestamp root t waiting,
  (apply_native_show_wait m timestamp).1 = m ∧ (apply_native_clear_wait m timestamp).1 = m
  ∧ (apply_hook_transition m root t timestamp).1 = m
  ∧ (apply_hook_completion m root waiting timestamp).1 = m.
Proof.
  intros L timestamp root t waiting. assert (E : (lifecycle (lc m) == "alive") = false).
  { unfold eqb. by case_bool_decide. }
  unfold apply_native_show_wait, apply_native_clear_wait, apply_hook_transition,
    apply_hook_completion, hook_tuple_matches. rewrite !E. by destruct waiting.
Qed.

Lemma pending_wf l :
  lifecycle_wf l → is_none_or (pending_terminal_status l) is_terminal = true.
Proof. by destruct 1. Qed.
Lemma apply_lifecycle_wf i m :
  lifecycle_valid i = true → session_wf m → session_wf (apply_lifecycle i m).1.
Proof.
  intros V (Hl & Ha & Hp). destruct i as [s ? ? ? r f t|snapshot fallback t]; cbn -[transition_refused].
  - case_match; [done|]. destruct (is_terminal s) eqn:T.
    + assert (W : session_wf (begin_ending s t m)) by (split; [by constructor|done]).
      destruct r, f; exact W.
    + assert (W : session_wf (begin_life s m)); [|destruct r, f; exact W].
      cbn in V. rewrite T, orb_false_r in V. to_prop. apply pending_wf in Hl.
      destruct V as [-> | ->];
        (split; [exact (wf_creating _ _ _ Hl) || exact (wf_active _ _ _ Hl)|]);
        (split; [by intros [[=]|[=]]|done]).
  - case_match eqn:E; [done|]. cbn in V. to_prop. destruct V as (V & _).
    assert (T : is_terminal (default fallback (pending_terminal_status (lc m))) = true).
    { apply pending_wf in Hl. by destruct (pending_terminal_status (lc m)). }
    split; [|done]. cbn. unfold terminal_outcome_for_status, connectivity_for_status.
    rewrite T. assert (C : (default fallback (pending_terminal_status (lc m)) == "creating")
                           || (default fallback (pending_terminal_status (lc m)) == "running") = false).
    { apply is_terminal_true in T as [-> |[-> | ->]]; done. }
    rewrite C. by constructor.
Qed.

Lemma infer_work_phase inf w :
  normalize_work_phase (work_phase w) = work_phase w →
  normalize_work_phase (work_phase (infer_work inf w)) = work_phase (infer_work inf w).
Proof. intros H. unfold infer_work. case_match; [apply normalize_work_phase_idem|done]. Qed.

Lemma apply_peon_phase m inf timestamp provider history policy :
  let m' := (apply_peon attention_age work_age m inf timestamp provider history policy).1 in
  normalize_work_phase (work_phase (work m)) = work_phase (work m) →
  normalize_work_phase (work_phase (work m')) = work_phase (work m').
Proof.
  cbv zeta. intros Hp. unfold apply_peon. case_match; [done|]. case_match; [done|]. cbn [fst].
  assert (A : ∀ a w s x, work_phase (work (attribute_inference inf timestamp provider a w s x))
                         = work_phase (work x)).
  { intros [] [] [] x; by destruct provider. }
  assert (B : ∀ a w s x, work_phase (work (infer_situation inf provider history policy a w s x))
                         = work_phase (if w then infer_work inf (work x) else work x)).
  { intros a w s x. unfold infer_situation. rewrite (on_if_same work s) by done.
    assert (I : work (on_if a (infer_status policy inf) x) = work x).
    { apply on_if_same. intros _. by apply infer_status_same. }
    destruct w; cbn [on_if]; cbn; by rewrite (on_if_same work (_ && _)); cbn; rewrite ?I. }
  rewrite A, (on_if_same work), B by done.
  assert (P : ∀ b, work (reconcile_prompt policy b timestamp m) = work m).
  { intros b. by apply reconcile_prompt_same. }
  rewrite P. case_match; [by apply infer_work_phase|done].
Qed.

Lemma apply_peon_wf m inf timestamp provider history policy :
  session_wf m →
  session_wf (apply_peon attention_age work_age m inf timestamp provider history policy).1.
Proof.
  intros (Hl & Ha & Hp).
  destruct (apply_peon_respects attention_age work_age m inf timestamp provider history policy) as (R & L).
  split; [by rewrite L|]. rewrite L. split; [|by apply apply_peon_phase].
  intros H. destruct (scope (apply_peon attention_age work_age m inf timestamp provider history policy).2)
      eqn:E; [|destruct R as (_ & _ & ->); auto].
  rewrite apply_peon_att by (by rewrite E). rewrite inferred_attention_dead; [auto|].
  by destruct H as [-> | ->].
Qed.

(** C29: the lifecycle of a session keeps its type: status, phase, lifecycle,
    connectivity and outcome stay one of the four combinations of a session that is
    being created, active, ending or ended, an ending one has the terminal status it
    ends with and a snapshot of what it showed, an ended one shows no attention, and
    the work phase stays one of its five values. *)
Theorem lifecycle_type_preserved (i : InternalMutation) (m m' : SessionMetadata) (d : Decision)
    (W : session_wf m) (H : applies i m m' d) : session_wf m'.
Proof.
  assert (K : ∀ m', lc m' = lc m → work_phase (work m') = work_phase (work m) → att m' = att m →
              session_wf m').
  { intros m1 L P A. unfold session_wf. by rewrite L, P, A. }
  pose proof (not_alive_declines m) as D.
  destruct i; cbn -[attention_decision] in H; try (apply attention_decision_Ok in H as (-> & _)).
  - destruct (lifecycle_valid i) eqn:V; [|done]. cbn in H.
    destruct (apply_lifecycle i m) as [m1 s] eqn:E. injection H as <- _.
    change m1 with (m1, s).1. rewrite <-E. by apply apply_lifecycle_wf.
  - apply (alive_only m); [apply apply_native_show_wait_only| |done].
    intros L. by destruct (D L timestamp [] Stop false) as (? & ? & ? & ?).
  - apply (alive_only m); [apply apply_native_clear_wait_only| |done].
    intros L. by destruct (D L timestamp [] Stop false) as (? & ? & ? & ?).
  - apply (alive_only m); [apply apply_hook_transition_only| |done].
    intros L. by destruct (D L timestamp root transition false) as (? & ? & ? & ?).
  - apply (alive_only m); [apply apply_hook_completion_only| |done].
    intros L. by destruct (D L timestamp root Stop waiting) as (? & ? & ? & ?).
  - destruct (_ || _); [done|]. apply Ok_inj in H. change m' with (m', d).1. rewrite <-H.
    by apply apply_peon_wf.
  - apply apply_harness_report_respects in H as (_ & L & Ew & A & _). apply K; congruence.
  - apply apply_codex_label_respects in H as (_ & L & Ew & A & _). apply K; congruence.
  - injection H as <- _. by apply K.
  - destruct (_ == _); injection H as <- _; by apply K.
  - apply apply_user_title_respects in H as (_ & L & Ew & A & _). apply K; congruence.
Qed.

(** ** An inference does not resume a finished status *)

Lemma inferred_observed m inf timestamp policy :
  observed_status (inferred_attention m inf timestamp policy true)
  = observed_status (att (infer_status policy inf (reconcile_prompt policy true timestamp m))).
Proof. unfold inferred_attention. case_match; [apply infer_question_keeps|done]. Qed.

Lemma reconcile_prompt_observed m timestamp :
  observed_status (att (reconcile_prompt NonPrompt true timestamp m)) =
  if (observed_status (att m) == Some "waiting_for_input")
     && negb ((source_of m == "user") || (source_of m == "agent") || (source_of m == "codex_hook"))
  then None else observed_status (att m).
Proof.
  unfold reconcile_prompt. cbn [andb is_non_prompt]. destruct (negb _); [|by rewrite andb_false_r].
  rewrite andb_true_r.
  assert (E : ∀ x, observed_status (att (on_att clear_question (refresh_attention x)))
                   = observed_status (att x)).
  { intros x. cbn. apply refresh_attention_keeps. }
  destruct (observed_status (att m) == Some "waiting_for_input");
    case_match; cbn [att set_last_activity]; by rewrite E.
Qed.

Lemma infer_status_observed policy inf m :
  observed_status (att (infer_status policy inf m)) = Some "working" →
  inf_observed_status inf = Some "working"
    ∧ (policy = NonPrompt → terminal_observed (observed_status (att m)) = false)
  ∨ observed_status (att m) = Some "working".
Proof.
  unfold infer_status. case_match eqn:P; [by right|].
  rewrite (proj1 (refresh_attention_keeps _)). case_match eqn:E; [|by right]. cbn.
  destruct (inf_observed_status inf) as [o|] eqn:O; cbn; [|by right].
  intros [= ->]. left. split; [done|]. intros ->. cbn in E. by destruct (terminal_observed _).
Qed.

(** an inference alone cannot turn a finished status into [working]: it does so
    only under the policy of a screen known to show no prompt, for a session that was
    waiting for input, and never when a user or an agent owns the attention. *)
Theorem peon_resumes_only_refuted_prompts (m : SessionMetadata) (inf : PeonInference)
    (timestamp : string) (provider : option ProviderObservation) (history : option text)
    (policy : PeonPolicy)
    (T : terminal_observed (observed_status (att m)) = true)
    (R : observed_status (att (apply_peon attention_age work_age m inf timestamp provider history
                                 policy).1) = Some "working") :
  policy = NonPrompt ∧ observed_status (att m) = Some "waiting_for_input"
  ∧ (source_of m ∉ ["user"; "agent"; "codex_hook"]) ∧ inf_observed_status inf = Some "working".
Proof.
  assert (W : observed_status (att m) ≠ Some "working") by (intros E; by rewrite E in T).
  destruct (scope (apply_peon attention_age work_age m inf timestamp provider history policy).2) eqn:S.
  2:{ by rewrite (apply_peon_declined _ _ _ _ _ _ _ _ S) in R. }
  rewrite apply_peon_att in R by (by rewrite S). clear S.
  destruct (may_infer attention_age policy m) eqn:M; [|done].
  destruct (would_resume policy inf m) eqn:Q; [done|]. cbn [andb negb] in R.
  rewrite inferred_observed in R.
  assert (I : policy = NonPrompt ∨ infers_attention policy = true).
  { destruct policy; auto. }
  destruct I as [-> |I].
  - apply infer_status_observed in R. rewrite reconcile_prompt_observed in R.
    destruct ((observed_status (att m) == Some "waiting_for_input") && _) eqn:E.
    + destruct R as [(R & _)|[=]]. apply andb_true_iff in E as (E1 & E2). clear T M Q. to_prop.
      split; [done|]. split; [done|]. split; [|done]. set_solver.
    + destruct R as [(R & N)|R]; [|done]. by rewrite N in T.
  - assert (E : reconcile_prompt policy true timestamp m = m).
    { unfold reconcile_prompt. by destruct policy. }
    rewrite E in R. apply infer_status_observed in R as [(R & _)|R]; [|done].
    unfold would_resume in Q. by rewrite I, R, T in Q.
Qed.
End dispatch.

(** ** The coding tool's session id *)

(** a reported session id replaces the one a session has only with authority:
    the report is valid, its confidence is not below the one recorded, and a Codex
    session changes its identity only when the caller allows it.  The record then
    has exactly the reported id, its source and its confidence. *)
Theorem identity_replaced_with_authority (m m' : SessionMetadata) (report : HarnessSessionReport)
    (timestamp : string) (allow : bool) (d : Decision)
    (H : apply_harness_report m report timestamp allow = Ok (m', d))
    (N : session_root m' ≠ session_root m) :
  valid_harness_session_report report = true
  ∧ disposition d = HarnessMerged Accepted
  ∧ session_root m' = Some (report_id report)
  ∧ harness_session_id_source (ident m') = Some (report_source report)
  ∧ harness_session_id_confidence (ident m') = Some (report_confidence report)
  ∧ (session_root m ≠ None →
       SFltb (report_confidence report)
         (default f_minus_one (harness_session_id_confidence (ident m))) = false
       ∧ (harness (ident m) = "codex" → allow = true)).
Proof.
  unfold apply_harness_report in H. destruct (valid_harness_session_report report); [|done].
  cbn [negb] in H. split; [done|].
  destruct (is_some (session_root m) && _) eqn:E1; [by simplify_eq|].
  destruct ((harness (ident m) == "codex") && _ && _) eqn:E2; [by simplify_eq|].
  destruct ((session_root m == _) && _ && _) eqn:E3.
  { destruct (resume (ident m)) as [r|] eqn:Er; simplify_eq.
    exfalso. apply N. unfold session_root. cbn. by rewrite Er. }
  simplify_eq. repeat split.
  - by destruct (session_root m).
  - intros Hc. destruct (session_root m) as [e|] eqn:Es; [|done]. cbn in E2, N.
    rewrite Hc, eqb_refl in E2. destruct allow; [done|]. rewrite andb_true_r in E2. cbn in E2.
    to_prop. by rewrite E2 in N.
Qed.

(** ** Failures *)

Definition blank_or_control (title : text) : Prop :=
  (∃ c, c ∈ title ∧ is_control c = true) ∨ (∀ c, c ∈ title → is_whitespace c = true).

Lemma title_test (title : text) :
  existsb is_control title || match trim title with [] => true | _ => false end = true
  ↔ blank_or_control title.
Proof.
  unfold blank_or_control. rewrite orb_true_iff, existsb_exists. setoid_rewrite <-list_elem_of_In.
  destruct (trim title) eqn:E.
  - assert (H : trim title = []) by done. rewrite trim_nil, Forall_forall in H. naive_solver.
  - assert (H : ¬ Forall (λ c, is_whitespace c = true) title) by (rewrite <-trim_nil; congruence).
    rewrite Forall_forall in H. naive_solver.
Qed.

Lemma normalize_user_title_Err title e :
  normalize_user_title title = Err e ↔
  e = Io InvalidInput "invalid session title"
  ∧ (blank_or_control title ∨ (100 < length (trim title))%nat).
Proof.
  unfold normalize_user_title. destruct (_ || (100 <? _)%nat) eqn:E.
  - rewrite orb_true_iff, title_test, Nat.ltb_lt in E. naive_solver.
  - split; [done|]. intros (_ & H). rewrite <-title_test, <-Nat.ltb_lt, <-orb_true_iff in H. congruence.
Qed.
Lemma apply_codex_label_Err m root title e :
  apply_codex_label m root title = Err e ↔
  e = Io InvalidInput "invalid native title"
  ∧ (blank_or_control title ∨ (100 < length title)%nat).
Proof.
  unfold apply_codex_label. rewrite (orb_comm _ (existsb is_control title)).
  destruct (_ || (100 <? _)%nat) eqn:E.
  - rewrite orb_true_iff, title_test, Nat.ltb_lt in E. naive_solver.
  - split; [done|]. intros (_ & H). rewrite <-title_test, <-Nat.ltb_lt, <-orb_true_iff in H. congruence.
Qed.
Lemma placeholder_label_Err session e :
  placeholder_label session = Err e ↔
  e = Panic ∧ ∃ b, encode session !! 8%nat = Some b ∧ is_cont b = true.
Proof.
  unfold placeholder_label, is_char_boundary.
  destruct (decide (length (encode session) <= 8)%nat) as [L|L].
  - rewrite Nat.min_l by done. rewrite lookup_ge_None_2, Nat.eqb_refl by done.
    split; [done|]. intros (_ & b & H & _). apply lookup_lt_Some in H. lia.
  - rewrite Nat.min_r by lia. destruct (lookup_lt_is_Some_2 (encode session) 8) as (b & ->); [lia|].
    destruct (is_cont b) eqn:E; cbn; split; try done.
    + intros [= <-]. eauto.
    + by intros (-> & _).
    + intros (_ & ? & [= <-] & ?). congruence.
Qed.

(** The lists of statuses that a lifecycle mutation may name. *)
Definition names_a_status (i : LifecycleMutation) : Prop :=
  match i with
  | Transition s _ _ _ _ _ _ => s ∈ ["creating"; "running"; "ended"; "killed"; "error"]
  | Finalize snapshot s _ =>
      s ∈ ["ended"; "killed"; "error"]
      ∧ ∀ c, snapshot_confidence snapshot = Some c → is_finite c = true
  end.
Lemma lifecycle_valid_true i : lifecycle_valid i = true ↔ names_a_status i.
Proof.
  destruct i; cbn -[is_terminal]; to_prop; rewrite is_terminal_true, !elem_of_cons, ?elem_of_nil;
    naive_solver.
Qed.

(** the dispatch fails exactly on what each mutation cannot accept, with the
    error the code gives: a lifecycle mutation that names no status it may set, a
    confidence that is not finite, a report that is not valid, a title that is blank,
    too long or has a control character, and the placeholder title of a session whose
    id has a character across its eighth byte.  The wait and hook mutations and the
    providers never fail. *)
Theorem mutation_fails_exactly (is_alphabetic : Z → bool) (attention_age work_age : option Z)
    (i : InternalMutation) (m : SessionMetadata) (e : IoError) :
  apply is_alphabetic attention_age work_age i m = Err e ↔
  match i with
  | MLifecycle i => e = Io InvalidInput "invalid lifecycle intent" ∧ ¬ names_a_status i
  | MPeon inference _ _ _ policy =>
      e = Io InvalidInput "non-finite metadata confidence"
      ∧ (is_finite (inf_confidence inference) = false ∨ policy_finite policy = false)
  | MHarnessReport report _ _ =>
      e = Io InvalidInput "invalid harness identity report"
      ∧ valid_harness_session_report report = false
  | CodexLabel _ title =>
      e = Io InvalidInput "invalid native title"
      ∧ (blank_or_control title ∨ (100 < length title)%nat)
  | UserTitle (Some title) =>
      e = Io InvalidInput "invalid session title"
      ∧ (blank_or_control title ∨ (100 < length (trim title))%nat)
  | UserTitle None =>
      e = Panic ∧ opt_filter (is_descriptive_input is_alphabetic) (last_user_input m) = None
      ∧ ∃ b, encode (id m) !! 8%nat = Some b ∧ is_cont b = true
  | _ => False
  end.
Proof.
  destruct i as [i| | | | |inf ? ? ? policy|r ? allow|root title| |p|[title|]]; cbn -[lifecycle_valid];
    try done.
  - rewrite <-lifecycle_valid_true. destruct (lifecycle_valid i); [|naive_solver].
    destruct (apply_lifecycle i m). split; [done|tauto].
  - destruct (is_finite _), (policy_finite _); cbn; naive_solver.
  - unfold apply_harness_report. destruct (valid_harness_session_report r); cbn [negb]; [|naive_solver].
    split; [|by intros (_ & [=])]. intros H. by repeat case_match.
  - apply apply_codex_label_Err.
  - by case_match.
  - unfold apply_user_title. rewrite <-normalize_user_title_Err.
    destruct (normalize_user_title title); cbn; split; congruence.
  - unfold apply_user_title. destruct (opt_filter _ _); [split; [done|naive_solver]|].
    destruct (placeholder_label (id m)) eqn:E; cbn.
    + split; [done|]. intros (-> & _ & H). pose proof (conj (eq_refl Panic) H) as H'.
      apply placeholder_label_Err in H'. congruence.
    + apply placeholder_label_Err in E as (-> & H). split; [by intros [= <-]|by intros (-> & _)].
Qed.

(** ** The wait of a native approval *)

(** a native wait that was shown is cleared by the session's next clear, as
    work, exactly when no answer to "needs input" is recorded at all: showing it
    accepts a recorded "no", clearing it does not. *)
Theorem native_wait_cycle (m m1 : SessionMetadata) (t t' : string)
    (H : apply_native_show_wait m t = (m1, true)) :
  observed_status (att m1) = Some "waiting_for_input" ∧ attention (att m1) = Some "needs_you"
  ∧ attribution m1 = (Some "agent", Some f_one, Some "native_codex")
  ∧ let '(m2, cleared) := apply_native_clear_wait m1 t' in
    (cleared = true ↔ needs_user_input (att m) = None)
    ∧ (cleared = true →
         observed_status (att m2) = Some "working" ∧ attention (att m2) = Some "working"
         ∧ attribution m2 = attribution m1)
    ∧ (cleared = false → m2 = m1).
Proof.
  unfold apply_native_show_wait in H. destruct (_ || _) eqn:E in H; [done|].
  injection H as <-. repeat split.
  unfold apply_native_clear_wait. cbn -[SFeqb no_question eqb]. to_prop.
  destruct E as (((((Ha & _) & _) & _) & Hq) & Ho). rewrite Ha. lits.
  change (SFeqb f_one f_one) with true. unfold no_question. cbn. rewrite Hq, Ho.
  destruct (needs_user_input (att m)); cbn; done.
Qed.

Definition waiting_demo (needs : option bool) : SessionMetadata :=
  mkSession (ascii "s1") (mkProvenance None None None None None None None None)
    (mkAttention (Some "working") (Some "working") needs None None)
    (mkLifecycle "running" "active" "alive" "online" None None None None)
    (mkWork "unknown" [] None None None None None "process" f_one None None None None)
    (mkIdentity "codex" "" None None None None None)
    (mkLabel (ascii "Session s1") Placeholder false false) None None None None "t0" None
    (mkFacts [] [] "t0" None).

(** A recorded "no" keeps the wait on the screen. *)
Lemma native_wait_cycle_witness :
  (apply_native_show_wait (waiting_demo (Some false)) "t1").2 = true
  ∧ (apply_native_clear_wait (apply_native_show_wait (waiting_demo (Some false)) "t1").1 "t2").2 = false
  ∧ (apply_native_clear_wait (apply_native_show_wait (waiting_demo None) "t1").1 "t2").2 = true.
Proof.
  split; [done|].
  pose proof (native_wait_cycle (waiting_demo (Some false)) _ "t1" "t2" eq_refl) as (_ & _ & _ & H).
  pose proof (native_wait_cycle (waiting_demo None) _ "t1" "t2" eq_refl) as (_ & _ & _ & H').
  vm_compute in H, H'. split; [vm_compute; reflexivity|].
  destruct H' as ((_ & H') & _). vm_compute. exact (H' eq_refl).
Defined.

(** ** The status a session ends with *)

(** A run of the store's mutations on one record: each reads the last committed
    record, and what fails or declines commits nothing. *)
Section runs.
Context (is_alphabetic : Z → bool).

Definition commit_one (m : SessionMetadata) (x : InternalMutation * option Z * option Z)
    : SessionMetadata :=
  let '(i, attention_age, work_age) := x in
  match apply is_alphabetic attention_age work_age i (normalize_session_metadata m) with
  | Ok (m', d) => if is_some (scope d) then m' else m
  | Err _ => m
  end.
Definition commit_all := fold_left commit_one.

(** What reaches a session that is ending: anything but the lifecycle, and
    transitions to an end that come after the first. *)
Definition late (x : InternalMutation * option Z * option Z) : Prop :=
  match x.1.1 with
  | MLifecycle (Transition s _ already_ending _ _ _ _) => is_terminal s = true ∧ already_ending = true
  | MLifecycle (Finalize _ _ _) => False
  | _ => True
  end.

Lemma late_keeps_ending st snap final m x :
  lc m = mkLifecycle "running" "ending" "stopping" "online" None (Some st) (Some snap) final →
  late x → lc (commit_one m x) = lc m.
Proof.
  intros L Hx. destruct x as [[i aa] wa]. unfold commit_one.
  destruct (read_ending m _ _ _ L) as (L' & _). cbv zeta in L'.
  revert L'. generalize (normalize_session_metadata m). intros m0 L'.
  destruct (apply _ _ _ _ _) as [[m' d]|] eqn:E; [|done]. destruct (is_some (scope d)) eqn:S; [|done].
  destruct (is_lifecycle i) eqn:Li.
  - destruct i as [[s h al lp r f ts|]| | | | | | | | | |]; try done.
    destruct Hx as (T & ->). cbn -[lifecycle_valid apply_lifecycle] in E.
    destruct (lifecycle_valid _); [|done]. cbn -[transition_refused] in E.
    assert (R : transition_refused s h true lp (lc m0) = true).
    { rewrite L', L. unfold transition_refused. by rewrite T. }
    rewrite R in E. by injection E as _ <-.
  - destruct (apply_frame _ _ _ _ _ _ _ E) as (_ & F). by rewrite F.
Qed.

Lemma finalize_ending m st snap final snapshot fallback t :
  lc m = mkLifecycle "running" "ending" "stopping" "online" None (Some st) (Some snap) final →
  is_terminal st = true →
  let x := apply_lifecycle (Finalize snapshot fallback t) m in
  x.2 = Some ATTENTION
  ∧ lc x.1 = mkLifecycle st "ended" "dead" "offline" (Some st) None None (Some snapshot)
  ∧ attention (att x.1) = None ∧ observed_status (att x.1) = None.
Proof.
  intros L T. cbn -[is_terminal]. rewrite L. cbn -[is_terminal]. lits.
  split; [done|]. split; [|done]. cbn -[is_terminal].
  unfold connectivity_for_status, terminal_outcome_for_status. rewrite T.
  by apply is_terminal_true in T as [-> |[-> | ->]].
Qed.

(** the first end decided for a session is the end it gets: after an accepted
    transition to a terminal status, whatever mutations and late transitions follow,
    its finalisation ends it with that status and outcome, dead, and with the
    snapshot it was given. *)
Theorem first_end_is_final (m m1 : SessionMetadata) (s : WriteScope)
    (status : string) (had_live already_ending : bool) (live_phase : option string)
    (new_resume : option ResumeMemory) (from : option text) (t : string)
    (between : list (InternalMutation * option Z * option Z))
    (snapshot : ObservedStatusSnapshotMetadata) (fallback t' : string)
    (E : apply_lifecycle (Transition status had_live already_ending live_phase new_resume from t) m
         = (m1, Some s))
    (T : is_terminal status = true) (B : Forall late between) :
  let m2 := normalize_session_metadata (commit_all between m1) in
  let x := apply_lifecycle (Finalize snapshot fallback t') m2 in
  x.2 = Some ATTENTION
  ∧ lc x.1 = mkLifecycle status "ended" "dead" "offline" (Some status) None None (Some snapshot)
  ∧ attention (att x.1) = None ∧ observed_status (att x.1) = None.
Proof.
  assert (L : ∃ snap final, lc m1 = mkLifecycle "running" "ending" "stopping" "online" None
                                     (Some status) (Some snap) final).
  { cbn -[transition_refused] in E. case_match; [done|]. rewrite T in E. injection E as <- _.
    exists (ending_snapshot t m), (final_observed_status_snapshot (lc m)).
    by destruct new_resume, from. }
  destruct L as (snap & final & L). clear E.
  assert (L2 : lc (commit_all between m1) = lc m1).
  { revert m1 L. induction B as [|x between Hx _ IH]; intros m1 L; [done|].
    pose proof (late_keeps_ending _ _ _ _ _ L Hx) as K.
    transitivity (lc (commit_one m1 x)); [|done]. apply IH. by rewrite K. }
  rewrite L in L2. destruct (read_ending _ _ _ _ L2) as (L3 & _). cbv zeta in L3.
  rewrite L2 in L3. cbv zeta. eapply finalize_ending; [exact L3|done].
Qed.
End runs.

(** ** Concrete sessions *)

Definition set_source (s : string) (m : SessionMetadata) : SessionMetadata :=
  on_prov (attribute s (Some f_one) s) m.
Definition demo_peon_inference (status : string) : PeonInference :=
  mkInference (Some status) None (Some (ascii "go on")) None None None None None None None f_half
    None None None.
Definition demo_peon (status : string) (policy : PeonPolicy) : InternalMutation :=
  MPeon (demo_peon_inference status) "t1" None None policy.
Definition outcome (x : result IoError (SessionMetadata * Decision)) (m : SessionMetadata)
    : SessionMetadata * Decision :=
  match x with Ok y => y | Err _ => (m, mkDecision None Applied) end.
Abbreviation demo_apply i m := (apply (λ _, true) (Some 20) (Some 20) i m).

Lemma mutations_keep_to_their_scopes_witness :
  let m := set_source "user" (waiting_demo None) in
  att (outcome (demo_apply (demo_peon "idle" Infer) m) m).1 = att m.
Proof.
  cbv zeta.
  destruct (mutations_keep_to_their_scopes (λ _, true) (Some 20) (Some 20) (demo_peon "idle" Infer)
              (set_source "user" (waiting_demo None)) _ _
              (eq_refl (Ok (outcome (demo_apply (demo_peon "idle" Infer)
                 (set_source "user" (waiting_demo None))) (set_source "user" (waiting_demo None))))))
    as (_ & _ & H).
  vm_compute in H. vm_compute. apply H. reflexivity.
Defined.

Lemma user_attention_is_kept_witness :
  let m := set_source "user" (waiting_demo None) in
  observed_status (att (outcome (demo_apply (demo_peon "idle" Infer) m) m).1) = Some "working".
Proof.
  cbv zeta. set (m := set_source "user" (waiting_demo None)).
  set (x := outcome (demo_apply (demo_peon "idle" Infer) m) m).
  destruct (user_attention_is_kept (λ _, true) (Some 20) (Some 20) (demo_peon "idle" Infer) m x.1 x.2)
    as (H & _); [vm_compute; reflexivity|reflexivity|vm_compute; reflexivity|].
  rewrite H. reflexivity.
Defined.

Lemma waiting_demo_wf : session_wf (waiting_demo None).
Proof.
  split; [exact (wf_active None None None eq_refl)|]. split; [|reflexivity].
  intros [H|H]; discriminate H.
Qed.
Definition demo_end : LifecycleMutation := Transition "killed" true false (Some "active") None None "t1".
Lemma lifecycle_type_preserved_witness :
  session_wf (apply_lifecycle demo_end (waiting_demo None)).1.
Proof.
  apply (lifecycle_type_preserved (λ _, true) None None (MLifecycle demo_end) (waiting_demo None) _
           (mkDecision (Some ATTENTION) Applied)).
  - exact waiting_demo_wf.
  - vm_compute. reflexivity.
Defined.

Lemma peon_resumes_only_refuted_prompts_witness :
  let m := on_att (set_observed_status (Some "waiting_for_input")) (waiting_demo None) in
  let m' := (apply_peon (Some 20) (Some 20) m (demo_peon_inference "working") "t1" None None NonPrompt).1 in
  observed_status (att m') = Some "working" ∧ (source_of m ∉ ["user"; "agent"; "codex_hook"]).
Proof.
  cbv zeta. split; [vm_compute; reflexivity|].
  eapply (peon_resumes_only_refuted_prompts (Some 20) (Some 20) _ (demo_peon_inference "working") "t1" None
           None NonPrompt); vm_compute; reflexivity.
Defined.

Definition demo_report : HarnessSessionReport := mkReport (ascii "abc") "codex_hook" f_one.
Lemma identity_replaced_with_authority_witness :
  session_root (outcome (apply_harness_report (waiting_demo None) demo_report "t1" false)
                        (waiting_demo None)).1 = Some (ascii "abc").
Proof.
  set (x := outcome (apply_harness_report (waiting_demo None) demo_report "t1" false) (waiting_demo None)).
  destruct (identity_replaced_with_authority (waiting_demo None) x.1 demo_report "t1" false x.2)
    as (_ & _ & H & _); [vm_compute; reflexivity|vm_compute; discriminate|exact H].
Defined.

Definition demo_snapshot : ObservedStatusSnapshotMetadata := mkSnapshot None None "process" None None.
Lemma first_end_is_final_witness :
  let m1 := (apply_lifecycle demo_end (waiting_demo None)).1 in
  let late_end := MLifecycle (Transition "error" true true (Some "ending") None None "t2") in
  let m2 := commit_all (λ _, true) [(demo_peon "idle" Infer, Some 20, Some 20); (late_end, None, None)] m1 in
  status (lc (apply_lifecycle (Finalize demo_snapshot "ended" "t3")
                (normalize_session_metadata m2)).1) = "killed".
Proof.
  cbv zeta.
  destruct (first_end_is_final (λ _, true) (waiting_demo None) (apply_lifecycle demo_end (waiting_demo None)).1
              ATTENTION "killed" true false (Some "active") None None "t1"
              [(demo_peon "idle" Infer, Some 20, Some 20);
               (MLifecycle (Transition "error" true true (Some "ending") None None "t2"), None, None)]
              demo_snapshot "ended" "t3") as (_ & H & _).
  - vm_compute. reflexivity.
  - reflexivity.
  - repeat constructor.
  - rewrite H. reflexivity.
Defined.
