(* ===== verification/MetadataStore.v ===== *)
(** * The metadata store

    [metadata/session_transactions.rs] and the owned writes of [metadata.rs]: one
    JSON file per session with a revision that every commit advances, the optimistic
    update of the versioned API, the mutations of internal producers, and the
    ownership tokens of native attention.

    A call holds the session's write lock from its read to its replacement, so calls
    are atomic steps of [Store].  The encoding of a record belongs to serde_json: the
    type of a file's contents and the two functions between contents and records are
    arguments.  What the disk answers, and the stamp a new file gets, are inputs of
    the call; [iso_now] is an argument. *)
From S2P Require Import ObservedStatus.
From S2P Require Export MetadataMutations.

(** ** Revisions *)

(** [MetadataRevision::next]. *)
Definition next_revision (r : Z) : result IoError Z :=
  ok_or (Io InvalidData "metadata revision exhausted") (checked_add u64_max r 1).

Record RevisionedSession : Type := mkRecord {
  metadata : SessionMetadata;
  record_revision : Z;
}.

Inductive SessionTransactionError : Type := Conflict | TxIo (e : IoError).
Record SessionWriteToken : Type := mkWriteToken {
  token_session : text;
  token_write : AttentionWriteToken;
}.

(** What the file system answers to one call: whether the record can be read, whether
    the staged file can be written, and whether it can take the record's place; with
    the modification time the new file gets. *)
Record Disk : Type := mkDisk {
  readable : bool;
  writable : bool;
  renamable : bool;
  stamp : option string;
}.

Section store.
Context {File : Type} (to_json : RevisionedSession → File)
  (from_json : File → option RevisionedSession).

Record Store : Type := mkStore {
  files : gmap text (File * option string);
  staged : gmap text File;
  owners : gmap text AttentionOwner;
  next_identity : Z;
}.
Definition set_files v (s : Store) := mkStore v (staged s) (owners s) (next_identity s).
Definition set_staged v (s : Store) := mkStore (files s) v (owners s) (next_identity s).

(** A stored record, normalised and with its legacy attribution. *)
Definition decoded (modified : option string) (m : SessionMetadata) : SessionMetadata :=
  let m := normalize_session_metadata m in
  on_prov (hydrate_legacy (metadata_source (work m)) (metadata_confidence (work m)) modified) m.
(** [try_read_revisioned_session]: a record that is missing, malformed, unreadable or
    of another session. *)
Definition try_read (d : Disk) (session : text) (s : Store)
    : result IoError (option RevisionedSession) :=
  if negb (readable d) then Err (Io OtherError "read failed")
  else
    match files s !! session with
    | None => Ok None
    | Some (bytes, modified) =>
        r ← ok_or (Io InvalidData "malformed record") (from_json bytes);
        if id (metadata r) != session
        then Err (Io InvalidData "session identity mismatch")
        else Ok (Some (mkRecord (decoded modified (metadata r)) (record_revision r)))
    end.
(** A read that must find the record. *)
Definition read_latest (d : Disk) (session : text) (s : Store) : result IoError RevisionedSession :=
  r ← try_read d session s;
  ok_or (Io NotFound "session record missing") r.

(** [fs::write] of the staged file, then its [fs::rename]. *)
Definition stage (d : Disk) (session : text) (bytes : File) (s : Store) : Store * bool :=
  if writable d then (set_staged (<[session := bytes]> (staged s)) s, true) else (s, false).
Definition replace (d : Disk) (session : text) (bytes : File) (s : Store) : Store * bool :=
  if renamable d
  then (set_files (<[session := (bytes, stamp d)]> (files s))
          (set_staged (delete session (staged s)) s), true)
  else (s, false).
Definition write_atomic (d : Disk) (session : text) (bytes : File) (s : Store) : Store * bool :=
  let '(s, ok) := stage d session bytes s in
  if ok then replace d session bytes s else (s, false).

(** [accept_session_write]: the entry of a session is created on its first write. *)
Definition accept_session_write (session : text) (s : Store) : Store * option SessionWriteToken :=
  let '(owner, next) :=
    match owners s !! session with
    | Some owner => (owner, next_identity s)
    | None => (default_owner (next_identity s), next_identity s + 1)
    end in
  let '(owner, write) := accepted_write owner in
  (mkStore (files s) (staged s) (<[session := owner]> (owners s)) next,
   mkWriteToken session <$> write).

(** [commit_session_record_with_revision_before_replace]. *)
Definition stamped (now : string) (w : WriteScope) (p : MetadataProvenance) : MetadataProvenance :=
  let p := if scope_attention w then set_attention_updated_at (Some now) p else p in
  if scope_work w then set_work_metadata_updated_at (Some now) p else p.
Definition commit (d : Disk) (now : string) (session : text) (m : SessionMetadata) (w : WriteScope)
    (revision : Z) (before_replace : SessionMetadata → result IoError unit) (s : Store)
    : Store * result IoError RevisionedSession :=
  if id m != session then (s, Err (Io InvalidInput "session identity changed"))
  else
    let r := mkRecord (on_prov (stamped now w) m) revision in
    let '(s, ok) := stage d session (to_json r) s in
    if negb ok then (s, Err (Io OtherError "write failed"))
    else
      match before_replace (metadata r) with
      | Err e => (set_staged (delete session (staged s)) s, Err e)
      | Ok _ =>
          let '(s, ok) := replace d session (to_json r) s in
          if negb ok then (s, Err (Io OtherError "rename failed"))
          else (if scope_attention w then (accept_session_write session s).1 else s, Ok r)
      end.

(** ** Calls *)

Inductive Call : Type :=
  (** [try_update_session_scoped] with an expected revision, [mutate_session] without *)
  | Update (session : text) (expected : option Z) (w : WriteScope)
      (mutate : SessionMetadata → result IoError SessionMetadata)
  (** [mutate_session_optional], [.._before_replace] and [mutate_session_decided] *)
  | Decide (session : text)
      (mutate : SessionMetadata → result IoError (option (SessionMetadata * WriteScope)))
      (before_replace : SessionMetadata → result IoError unit)
  (** [mutate_owned_attention] with a token, [try_mutate_session_owned] without *)
  | Owned (session : text) (expected : option SessionWriteToken)
      (mutate : SessionMetadata → result IoError (option SessionMetadata))
  (** [try_write_session_if_owned_when] *)
  | WriteIfOwned (m : SessionMetadata) (token : SessionWriteToken) (ready : bool)
  (** [try_write_session_owned] *)
  | Write (m : SessionMetadata)
  (** [delete_session] *)
  | Delete (session : text).

Inductive Reply : Type :=
  | Committed (r : RevisionedSession) (token : option SessionWriteToken)
  | Declined
  | Deleted
  | Failed (e : SessionTransactionError).

Definition update_session_locked (d : Disk) (now : string) (session : text) (expected : option Z)
    (w : WriteScope) (mutate : SessionMetadata → result IoError SessionMetadata) (s : Store)
    : Store * Reply :=
  match read_latest d session s with
  | Err e => (s, Failed (TxIo e))
  | Ok r =>
      if is_some_and expected (λ e, record_revision r != e) then (s, Failed Conflict)
      else
        match next_revision (record_revision r) with
        | Err e => (s, Failed (TxIo e))
        | Ok next =>
            match mutate (metadata r) with
            | Err e => (s, Failed (TxIo e))
            | Ok m =>
                if id m != session
                then (s, Failed (TxIo (Io InvalidInput "session identity changed")))
                else
                  match commit d now session m w next (λ _, Ok tt) s with
                  | (s, Ok r) => (s, Committed r None)
                  | (s, Err e) => (s, Failed (TxIo e))
                  end
            end
        end
  end.

Definition mutate_session_decided (d : Disk) (now : string) (session : text)
    (mutate : SessionMetadata → result IoError (option (SessionMetadata * WriteScope)))
    (before_replace : SessionMetadata → result IoError unit) (s : Store) : Store * Reply :=
  match read_latest d session s with
  | Err e => (s, Failed (TxIo e))
  | Ok r =>
      match mutate (metadata r) with
      | Err e => (s, Failed (TxIo e))
      | Ok None => (s, Declined)
      | Ok (Some (m, w)) =>
          match next_revision (record_revision r) with
          | Err e => (s, Failed (TxIo e))
          | Ok next =>
              match commit d now session m w next before_replace s with
              | (s, Ok r) => (s, Committed r None)
              | (s, Err e) => (s, Failed (TxIo e))
              end
          end
      end
  end.

Definition owns_session (session : text) (t : SessionWriteToken) (s : Store) : bool :=
  (token_session t == session) && is_some_and (owners s !! session) (λ o, owns o (token_write t)).

Definition mutate_owned_attention_inner (d : Disk) (now : string) (session : text)
    (expected : option SessionWriteToken)
    (mutate : SessionMetadata → result IoError (option SessionMetadata)) (s : Store)
    : Store * Reply :=
  if is_some_and expected (λ t, negb (owns_session session t s)) then (s, Declined)
  else
    match read_latest d session s with
    | Err e => (s, Failed (TxIo e))
    | Ok r =>
        match mutate (metadata r) with
        | Err e => (s, Failed (TxIo e))
        | Ok None => (s, Declined)
        | Ok (Some m) =>
            if id m != session
            then (s, Failed (TxIo (Io InvalidInput "session identity changed")))
            else
              match next_revision (record_revision r) with
              | Err e => (s, Failed (TxIo e))
              | Ok next =>
                  let r := mkRecord (on_prov (stamped now ATTENTION) m) next in
                  let '(s, ok) := write_atomic d session (to_json r) s in
                  if negb ok then (s, Failed (TxIo (Io OtherError "write failed")))
                  else let '(s, t) := accept_session_write session s in (s, Committed r t)
              end
        end
    end.

(** The attribution of the caller's snapshot, where it has one, must be the latest;
    confidences are compared as floats. *)
Definition attribution_differs (m latest : SessionMetadata) : bool :=
  let p := provenance m in
  let q := provenance latest in
  is_some_and (attention_source p) (λ v, attention_source q != Some v)
  || is_some_and (attention_origin p) (λ v, attention_origin q != Some v)
  || is_some_and (prov_attention_confidence p)
       (λ v, negb (opt_feqb (prov_attention_confidence q) (Some v))).

Definition try_write_session_if_owned_when (d : Disk) (now : string) (m : SessionMetadata)
    (t : SessionWriteToken) (ready : bool) (s : Store) : Store * Reply :=
  let session := id m in
  if negb (owns_session session t s) then (s, Declined)
  else
    match try_read d session s with
    | Err e => (s, Failed (TxIo e))
    | Ok None => (s, Declined)
    | Ok (Some latest) =>
        if attribution_differs m (metadata latest)
           || ((origin_of m == "native_codex") && (lifecycle (lc (metadata latest)) != "alive"))
        then (s, Declined)
        else
          match next_revision (record_revision latest) with
          | Err e => (s, Failed (TxIo e))
          | Ok next =>
              let r := mkRecord (on_prov (set_attention_updated_at (Some now))
                                  (set_last_activity (last_activity m)
                                    (set_att (att m) (metadata latest)))) next in
              let '(s, ok) := stage d session (to_json r) s in
              if negb ok then (s, Failed (TxIo (Io OtherError "write failed")))
              else if negb ready then (set_staged (delete session (staged s)) s, Declined)
              else
                let '(s, ok) := replace d session (to_json r) s in
                if negb ok then (s, Failed (TxIo (Io OtherError "rename failed")))
                else let '(s, t) := accept_session_write session s in (s, Committed r t)
          end
    end.

(** [prepare_session_replacement] keeps the worktree binding of the record it replaces. *)
Definition try_write_session_owned (d : Disk) (m : SessionMetadata) (s : Store) : Store * Reply :=
  match try_read d (id m) s with
  | Err e => (s, Failed (TxIo e))
  | Ok current =>
      let replacement := match current with
                         | Some r => set_worktree_binding (worktree_binding (metadata r)) m
                         | None => m
                         end in
      match next_revision (default 0 (record_revision <$> current)) with
      | Err e => (s, Failed (TxIo e))
      | Ok next =>
          let r := mkRecord replacement next in
          let '(s, ok) := write_atomic d (id m) (to_json r) s in
          if negb ok then (s, Failed (TxIo (Io OtherError "write failed")))
          else let '(s, t) := accept_session_write (id m) s in (s, Committed r t)
      end
  end.

(** The tokens of a session that is deleted own nothing, whether or not the removal of
    its record, and then of its quarantined copy, succeeds. *)
Definition delete_session (d : Disk) (session : text) (s : Store) : Store * Reply :=
  let revoked := alter (λ o, (accepted_write o).1) session (owners s) in
  let failed := Failed (TxIo (Io OtherError "remove failed")) in
  if negb (writable d) then (mkStore (files s) (staged s) revoked (next_identity s), failed)
  else if negb (renamable d)
  then (mkStore (delete session (files s)) (staged s) revoked (next_identity s), failed)
  else (mkStore (delete session (files s)) (staged s) (delete session revoked) (next_identity s), Deleted).

Definition store_call (d : Disk) (now : string) (c : Call) (s : Store) : Store * Reply :=
  match c with
  | Update session expected w mutate => update_session_locked d now session expected w mutate s
  | Decide session mutate before => mutate_session_decided d now session mutate before s
  | Owned session expected mutate => mutate_owned_attention_inner d now session expected mutate s
  | WriteIfOwned m t ready => try_write_session_if_owned_when d now m t ready s
  | Write m => try_write_session_owned d m s
  | Delete session => delete_session d session s
  end.

(** [read_owned_attention]. *)
Definition read_owned_attention (d : Disk) (session : text) (s : Store)
    : result IoError (option (SessionMetadata * SessionWriteToken)) :=
  latest ← try_read d session s;
  Ok (r ← latest;
      o ← owners s !! session;
      t ← ObservedStatus.snapshot o;
      Some (metadata r, mkWriteToken session t)).

Definition call_session (c : Call) : text :=
  match c with
  | Update session _ _ _ | Decide session _ _ | Owned session _ _ | Delete session => session
  | WriteIfOwned m _ _ | Write m => id m
  end.
Definition is_delete (c : Call) : bool := match c with Delete _ => true | _ => false end.
Definition store_run (s : Store) (calls : list (Disk * string * Call)) : Store :=
  fold_left (λ s x, (store_call x.1.1 x.1.2 x.2 s).1) calls s.

#[local] Opaque normalize_session_metadata.

(** ** The effect of a call *)

(** A commit replaces the session's file by a record of the next revision; only a
    write of the attention moves the owner. *)
Definition committed (d : Disk) (session : text) (attention_written : bool) (s s' : Store)
    (r : RevisionedSession) : Prop :=
  files s' = <[session := (to_json r, stamp d)]> (files s)
  ∧ (∃ base, try_read d session s = Ok base
       ∧ record_revision r = default 0 (record_revision <$> base) + 1
       ∧ record_revision r <= u64_max)
  ∧ if attention_written
    then owners s' = owners (accept_session_write session s).1
         ∧ next_identity s' = next_identity (accept_session_write session s).1
    else owners s' = owners s ∧ next_identity s' = next_identity s.
Definition untouched (s s' : Store) : Prop :=
  files s' = files s ∧ owners s' = owners s ∧ next_identity s' = next_identity s.

Lemma untouched_refl s : untouched s s.
Proof. done. Qed.
Lemma set_staged_untouched v s : untouched s (set_staged v s).
Proof. done. Qed.
#[local] Hint Resolve untouched_refl set_staged_untouched : metadata.

Lemma next_revision_Ok r n : next_revision r = Ok n ↔ n = r + 1 ∧ r + 1 <= u64_max.
Proof. unfold next_revision. rewrite ok_or_Ok. apply checked_add_Some. Qed.

Lemma stage_effect d session bytes s s' ok : stage d session bytes s = (s', ok) → untouched s s'.
Proof. unfold stage. case_match; intros [= <- _]; auto with metadata. Qed.
Lemma replace_effect d session bytes s s' ok :
  replace d session bytes s = (s', ok) →
  if ok then files s' = <[session := (bytes, stamp d)]> (files s)
             ∧ owners s' = owners s ∧ next_identity s' = next_identity s
  else untouched s s'.
Proof. unfold replace. case_match; by intros [= <- <-]. Qed.
Lemma write_atomic_effect d session bytes s s' ok :
  write_atomic d session bytes s = (s', ok) →
  if ok then files s' = <[session := (bytes, stamp d)]> (files s)
             ∧ owners s' = owners s ∧ next_identity s' = next_identity s
  else untouched s s'.
Proof.
  unfold write_atomic. destruct (stage d session bytes s) as [s1 [|]] eqn:E;
    apply stage_effect in E as (F & O & N).
  - intros H%replace_effect. destruct ok; unfold untouched in *; rewrite F, O, N in H; done.
  - by intros [= <- <-].
Qed.
Lemma accept_files session s : files (accept_session_write session s).1 = files s.
Proof. unfold accept_session_write. by repeat case_match; simplify_eq/=. Qed.
Lemma accept_owners_ext session s s' :
  owners s' = owners s → next_identity s' = next_identity s →
  owners (accept_session_write session s').1 = owners (accept_session_write session s).1
  ∧ next_identity (accept_session_write session s').1 = next_identity (accept_session_write session s).1
  ∧ (accept_session_write session s').2 = (accept_session_write session s).2.
Proof. unfold accept_session_write. intros -> ->. case_match. by case_match. Qed.

Lemma read_latest_Ok d session s r :
  read_latest d session s = Ok r ↔ try_read d session s = Ok (Some r).
Proof.
  unfold read_latest. rewrite result_bind_Ok. split.
  - intros (o & -> & H). apply ok_or_Ok in H as ->. done.
  - intros ->. by exists (Some r).
Qed.

Lemma commit_effect d now session m w n before s s' out base :
  try_read d session s = Ok (Some base) → next_revision (record_revision base) = Ok n →
  commit d now session m w n before s = (s', out) →
  match out with
  | Ok r => committed d session (scope_attention w) s s' r ∧ metadata r = on_prov (stamped now w) m
  | Err _ => untouched s s'
  end.
Proof.
  intros B N. unfold commit. destruct (id m != session); [by intros [= <- <-]|].
  destruct (stage d session _ s) as [s1 [|]] eqn:E1; apply stage_effect in E1 as (F1 & O1 & N1); cbn [negb].
  2:{ by intros [= <- <-]. }
  destruct (before _); [|by intros [= <- <-]].
  destruct (replace d session _ s1) as [s2 [|]] eqn:E2; apply replace_effect in E2; cbn [negb].
  2:{ intros [= <- <-]. unfold untouched in *. destruct E2 as (-> & -> & ->). done. }
  destruct E2 as (F2 & O2 & N2). intros [= <- <-]. rewrite F1 in F2. rewrite O1 in O2. rewrite N1 in N2.
  apply next_revision_Ok in N as (-> & Hn).
  split; [|done]. split; [|split].
  - case_match; [by rewrite accept_files|done].
  - exists (Some base). by cbn.
  - case_match; [|done]. by destruct (accept_owners_ext session s s2 O2 N2) as (-> & -> & _).
Qed.

Lemma update_effect d now session expected w mutate s s' out :
  update_session_locked d now session expected w mutate s = (s', out) →
  match out with
  | Committed r _ =>
      committed d session (scope_attention w) s s' r
      ∧ is_none_or expected (λ e, e + 1 == record_revision r) = true
  | _ => untouched s s'
  end.
Proof.
  unfold update_session_locked. destruct (read_latest d session s) as [r|e] eqn:R; [|by intros [= <- <-]].
  apply read_latest_Ok in R. destruct (is_some_and expected _) eqn:X; [by intros [= <- <-]|].
  destruct (next_revision _) as [n|e] eqn:N; [|by intros [= <- <-]].
  destruct (mutate _) as [m|e]; [|by intros [= <- <-]].
  destruct (id m != session); [by intros [= <- <-]|].
  destruct (commit d now session m w n _ s) as [s1 o] eqn:C. apply (commit_effect _ _ _ _ _ _ _ _ _ _ _ R N) in C.
  destruct o as [r'|e]; intros [= <- <-]; [|done]. destruct C as (C & _). split; [done|].
  destruct expected as [x|]; [|done]. cbn in *. to_prop.
  destruct C as (_ & (b & B & Hb & _) & _). rewrite R in B. injection B as <-. cbn in Hb. lia.
Qed.

Lemma decide_effect d now session mutate before s s' out :
  mutate_session_decided d now session mutate before s = (s', out) →
  match out with
  | Committed r _ =>
      ∃ base m w, committed d session (scope_attention w) s s' r ∧ try_read d session s = Ok (Some base)
          ∧ mutate (metadata base) = Ok (Some (m, w)) ∧ metadata r = on_prov (stamped now w) m
  | _ => untouched s s'
  end.
Proof.
  unfold mutate_session_decided. destruct (read_latest d session s) as [r|e] eqn:R; [|by intros [= <- <-]].
  apply read_latest_Ok in R. destruct (mutate _) as [[[m w]|]|e] eqn:M; [|by intros [= <- <-]..].
  destruct (next_revision _) as [n|e] eqn:N; [|by intros [= <- <-]].
  destruct (commit d now session m w n _ s) as [s1 o] eqn:C. apply (commit_effect _ _ _ _ _ _ _ _ _ _ _ R N) in C.
  destruct o as [r'|e]; intros [= <- <-]; [|done]. destruct C as (C & E). eauto 8.
Qed.

(** A file that was replaced and an attention write that was accepted. *)
Lemma accepted_effect d session base r s s1 s2 t :
  try_read d session s = Ok base →
  next_revision (default 0 (record_revision <$> base)) = Ok (record_revision r) →
  files s1 = <[session := (to_json r, stamp d)]> (files s) →
  owners s1 = owners s → next_identity s1 = next_identity s →
  accept_session_write session s1 = (s2, t) →
  committed d session true s s2 r ∧ t = (accept_session_write session s).2
  ∧ owners s2 = owners (accept_session_write session s).1
  ∧ next_identity s2 = next_identity (accept_session_write session s).1.
Proof.
  intros B N F O I A. destruct (accept_owners_ext session s s1 O I) as (O' & I' & T').
  pose proof (accept_files session s1) as F'. rewrite A in *. cbn in *.
  apply next_revision_Ok in N as (N & Hn).
  split; [|done]. split; [congruence|]. split; [exists base; split; [done|]; lia|]. done.
Qed.

Definition accepted (d : Disk) (session : text) (s s' : Store) (r : RevisionedSession)
    (t : option SessionWriteToken) : Prop :=
  committed d session true s s' r ∧ t = (accept_session_write session s).2
  ∧ owners s' = owners (accept_session_write session s).1
  ∧ next_identity s' = next_identity (accept_session_write session s).1.

Lemma owned_effect d now session expected mutate s s' out :
  mutate_owned_attention_inner d now session expected mutate s = (s', out) →
  match out with
  | Committed r t =>
      accepted d session s s' r t
      ∧ is_none_or expected (λ t, owns_session session t s) = true
  | _ => untouched s s'
  end.
Proof.
  unfold mutate_owned_attention_inner. destruct (is_some_and expected _) eqn:X; [by intros [= <- <-]|].
  destruct (read_latest d session s) as [r|e] eqn:R; [|by intros [= <- <-]]. apply read_latest_Ok in R.
  destruct (mutate _) as [[m|]|e]; [|by intros [= <- <-]..].
  destruct (id m != session); [by intros [= <- <-]|].
  destruct (next_revision _) as [n|e] eqn:N; [|by intros [= <- <-]].
  destruct (write_atomic d session _ s) as [s1 [|]] eqn:W; apply write_atomic_effect in W; cbn [negb].
  2:{ by intros [= <- <-]. }
  destruct W as (F & O & I). destruct (accept_session_write session s1) as [s2 t] eqn:A.
  intros [= <- <-]. split; [by eapply accepted_effect|].
  destruct expected; [|done]. cbn in *. by apply negb_false_iff.
Qed.

Lemma write_if_owned_effect d now m token ready s s' out :
  try_write_session_if_owned_when d now m token ready s = (s', out) →
  match out with
  | Committed r t => accepted d (id m) s s' r t ∧ owns_session (id m) token s = true
  | _ => untouched s s'
  end.
Proof.
  unfold try_write_session_if_owned_when. destruct (owns_session (id m) token s) eqn:X; cbn [negb].
  2:{ by intros [= <- <-]. }
  destruct (try_read d (id m) s) as [[latest|]|e] eqn:R; [|by intros [= <- <-]..].
  destruct (_ || _); [by intros [= <- <-]|].
  destruct (next_revision _) as [n|e] eqn:N; [|by intros [= <- <-]].
  destruct (stage d (id m) _ s) as [s1 [|]] eqn:E1; apply stage_effect in E1 as (F1 & O1 & N1); cbn [negb].
  2:{ by intros [= <- <-]. }
  destruct ready; cbn [negb]; [|by intros [= <- <-]].
  destruct (replace d (id m) _ s1) as [s2 [|]] eqn:E2; apply replace_effect in E2; cbn [negb].
  2:{ intros [= <- <-]. unfold untouched in *. destruct E2 as (-> & -> & ->). done. }
  destruct E2 as (F2 & O2 & N2). destruct (accept_session_write (id m) s2) as [s3 t] eqn:A.
  intros [= <- <-]. split; [|done]. eapply accepted_effect; [exact R|exact N| | | |exact A]; congruence.
Qed.

Lemma write_effect d m s s' out :
  try_write_session_owned d m s = (s', out) →
  match out with
  | Committed r t => accepted d (id m) s s' r t
  | _ => untouched s s'
  end.
Proof.
  unfold try_write_session_owned. destruct (try_read d (id m) s) as [current|e] eqn:R; [|by intros [= <- <-]].
  destruct (next_revision _) as [n|e] eqn:N; [|by intros [= <- <-]].
  destruct (write_atomic d (id m) _ s) as [s1 [|]] eqn:W; apply write_atomic_effect in W; cbn [negb].
  2:{ by intros [= <- <-]. }
  destruct W as (F & O & I). destruct (accept_session_write (id m) s1) as [s2 t] eqn:A.
  intros [= <- <-]. by eapply accepted_effect.
Qed.

(** The call is a write of the attention of its session, when it commits. *)
Definition attention_scope (d : Disk) (c : Call) (s : Store) : bool :=
  match c with
  | Update _ _ w _ => scope_attention w
  | Decide session mutate _ =>
      match read_latest d session s with
      | Ok r => match mutate (metadata r) with Ok (Some (_, w)) => scope_attention w | _ => false end
      | Err _ => false
      end
  | _ => true
  end.
(** A call that is not a deletion commits, or leaves files and owners alone. *)
Lemma store_call_effect d now c s s' out :
  store_call d now c s = (s', out) → is_delete c = false →
  match out with
  | Committed r _ => committed d (call_session c) (attention_scope d c s) s s' r
  | _ => untouched s s'
  end.
Proof.
  intros H Hc. destruct c; try done; cbn in H.
  - apply update_effect in H. by destruct out; [destruct H|..].
  - apply decide_effect in H. destruct out; [|done..]. destruct H as (base & m & w & C & R & M & _).
    cbn. apply read_latest_Ok in R. by rewrite R, M.
  - apply owned_effect in H. by destruct out; [destruct H as ((? & _) & _)|..].
  - apply write_if_owned_effect in H. by destruct out; [destruct H as ((? & _) & _)|..].
  - apply write_effect in H. by destruct out; [destruct H as (? & _)|..].
Qed.

(** a call that does not commit changes nothing: whatever fails, a read, the
    mutation, the revision, the staged write, the side effect before the replacement
    or the replacement itself, and whenever the mutation declines, every record on
    disk and every owner is as before. *)
Theorem uncommitted_call_changes_nothing (d : Disk) (now : string) (c : Call) (s s' : Store)
    (out : Reply) (H : store_call d now c s = (s', out)) (Hc : is_delete c = false)
    (N : ∀ r t, out ≠ Committed r t) :
  files s' = files s ∧ owners s' = owners s.
Proof.
  apply store_call_effect in H; [|done].
  destruct out as [r t| | |e]; [by destruct (N r t)|destruct H as (? & ? & _); auto..].
Qed.

(** ** Optimistic updates *)

Section revisions.
(** serde_json keeps a revision: it is written and read as a decimal string. *)
Hypothesis json_keeps_revision : ∀ r r',
  from_json (to_json r) = Some r' → record_revision r' = record_revision r.

(** The session has a record, and every reading of it is past revision [e]. *)
Definition past (session : text) (e : Z) (s : Store) : Prop :=
  ∃ bytes modified, files s !! session = Some (bytes, modified)
    ∧ ∀ r, from_json bytes = Some r → e < record_revision r.

Lemma try_read_file d session s base :
  try_read d session s = Ok base →
  match base with
  | None => files s !! session = None
  | Some r => ∃ bytes modified r0, files s !! session = Some (bytes, modified)
                ∧ from_json bytes = Some r0 ∧ record_revision r = record_revision r0
  end.
Proof.
  unfold try_read. destruct (negb (readable d)); [done|].
  destruct (files s !! session) as [[bytes modified]|]; [|by intros [= <-]].
  destruct (from_json bytes) as [r0|] eqn:E; [|done]. cbn -[decoded].
  case_match; [done|]. intros <-%Ok_inj. by exists bytes, modified, r0.
Qed.

Lemma committed_past d session attn e s s' r :
  committed d session attn s s' r → past session e s → past session e s'.
Proof.
  intros (F & (base & B & R & _) & _) (bytes & modified & L & P). apply try_read_file in B.
  exists (to_json r), (stamp d). rewrite F, lookup_insert_eq. split; [done|].
  intros r' ->%json_keeps_revision. rewrite R. destruct base as [b|]; [|congruence].
  destruct B as (bytes' & ? & r0 & L' & B & E). rewrite L in L'. injection L' as <- _.
  apply P in B. cbn. lia.
Qed.

Lemma call_past d now c session e s :
  (is_delete c = true → call_session c ≠ session) → past session e s →
  past session e (store_call d now c s).1.
Proof.
  intros Hc P. destruct (store_call d now c s) as [s' out] eqn:E. cbn.
  assert (Same : files s' !! session = files s !! session → past session e s').
  { intros F. destruct P as (bytes & modified & L & P). exists bytes, modified. by rewrite F. }
  destruct (is_delete c) eqn:D.
  - destruct c; try done. apply Same. specialize (Hc eq_refl). cbn in Hc, E. unfold delete_session in E.
    repeat case_match; injection E as <- _; cbn; by rewrite ?lookup_delete_ne.
  - apply store_call_effect in E; [|done]. destruct out as [r t| | |]; [|apply Same; by destruct E as (-> & _)..].
    destruct (decide (call_session c = session)) as [<-|Ne]; [by eapply committed_past|].
    apply Same. destruct E as (-> & _). by rewrite lookup_insert_ne.
Qed.

(** C15: no update is lost: of two updates that expect the same revision of a session
    at most one commits.  Once one has, the other fails whatever calls came in
    between, short of the deletion of the session, and leaves the record as it is;
    when the record can be read, the failure is the conflict. *)
Theorem no_lost_update (session : text) (e : Z) (d1 d2 : Disk) (now1 now2 : string)
    (w1 w2 : WriteScope) (mutate1 mutate2 : SessionMetadata → result IoError SessionMetadata)
    (s0 s1 s2 : Store) (r : RevisionedSession) (t : option SessionWriteToken)
    (between : list (Disk * string * Call))
    (H1 : store_call d1 now1 (Update session (Some e) w1 mutate1) s0 = (s1, Committed r t))
    (B : Forall (λ x, is_delete x.2 = true → call_session x.2 ≠ session) between)
    (H2 : s2 = store_run s1 between) :
  record_revision r = e + 1
  ∧ let x := store_call d2 now2 (Update session (Some e) w2 mutate2) s2 in
    files x.1 = files s2
    ∧ (∀ r0, read_latest d2 session s2 = Ok r0 → x.2 = Failed Conflict).
Proof.
  cbn in H1. apply update_effect in H1 as (C & R). cbn in R. to_prop. split; [done|].
  assert (P : past session e s2).
  { subst s2. assert (P1 : past session e s1).
    { destruct C as (F & _). exists (to_json r), (stamp d1). rewrite F, lookup_insert_eq.
      split; [done|]. intros r' ->%json_keeps_revision. lia. }
    clear C. revert s1 P1. induction B as [|x between Hx _ IH]; intros s1 P1; [done|].
    apply IH. by apply call_past. }
  cbn. unfold update_session_locked.
  destruct (read_latest d2 session s2) as [r0|] eqn:L; [|by split].
  assert (Ne : (record_revision r0 != e) = true).
  { apply read_latest_Ok, try_read_file in L as (bytes & modified & r1 & F & J & ->).
    destruct P as (bytes' & ? & F' & P). rewrite F in F'. injection F' as <- _. apply P in J.
    to_prop. lia. }
  cbn [is_some_and]. rewrite Ne. by split; [|intros ? [= ]].
Qed.
End revisions.

(** ** Ownership of the attention *)

(** The calls of a run that wrote, or tried to delete, the attention of [session]. *)
Fixpoint attention_writes (session : text) (calls : list (Disk * string * Call)) (s : Store) : bool :=
  match calls with
  | [] => false
  | (d, now, c) :: calls =>
      let '(s', out) := store_call d now c s in
      ((call_session c == session)
       && (is_delete c || match out with Committed _ _ => attention_scope d c s | _ => false end))
      || attention_writes session calls s'
  end.

(** Identities of owners are never reused. *)
Definition identities_ok (s : Store) : Prop :=
  ∀ session o, owners s !! session = Some o → identity o < next_identity s.
(** The token can own nothing any more. *)
Definition spent (session : text) (t : AttentionWriteToken) (s : Store) : Prop :=
  token_identity t < next_identity s
  ∧ ∀ o, owners s !! session = Some o →
      identity o = token_identity t → is_none_or (ObservedStatus.revision o) (λ n, token_revision t <? n) = true.

Lemma spent_not_owned session t s :
  spent session (token_write t) s → owns_session session t s = false.
Proof.
  intros (_ & H). unfold owns_session. destruct (owners s !! session) as [o|] eqn:E; cbn.
  2:{ by rewrite andb_false_r. }
  specialize (H o eq_refl). unfold owns. destruct (Z.eqb_spec (identity o) (token_identity (token_write t))) as [I|].
  2:{ by rewrite andb_false_r. }
  specialize (H I). destruct (ObservedStatus.revision o) as [n|]; cbn in H |- *; [|by rewrite andb_false_r].
  apply Z.ltb_lt in H. unfold eqb at 2. rewrite bool_decide_eq_false_2; [by rewrite andb_false_r|].
  intros [= ->]. lia.
Qed.

Lemma accept_identities session s :
  identities_ok s → identities_ok (accept_session_write session s).1
  ∧ next_identity s <= next_identity (accept_session_write session s).1
  ∧ ∃ o, owners (accept_session_write session s).1 = <[session := o]> (owners s)
      ∧ match owners s !! session with
        | Some o0 => o = (accepted_write o0).1
        | None => o = (accepted_write (default_owner (next_identity s))).1
        end.
Proof.
  intros H. unfold accept_session_write. destruct (owners s !! session) as [o0|] eqn:E; cbn.
  - split; [|split; [lia|eauto]]. intros x o L. cbn in L |- *.
    apply lookup_insert_Some in L as [(<- & <-)|(_ & L)]; [exact (H session o0 E)|by apply (H x)].
  - split; [|split; [lia|eauto]]. intros x o L. cbn in L |- *.
    apply lookup_insert_Some in L as [(<- & <-)|(_ & L)]; [cbn; lia|]. apply H in L. lia.
Qed.

Lemma accept_spent session t s x :
  identities_ok s → spent session t s → spent session t (accept_session_write x s).1.
Proof.
  intros I (N & H). destruct (accept_identities x s I) as (_ & Nx & o & O & Ho). split; [lia|].
  rewrite O. intros o' [(<- & <-)|(_ & L)]%lookup_insert_Some Hi; [|by apply H].
  destruct (owners s !! x) as [o0|] eqn:E; subst o.
  - specialize (H o0 eq_refl Hi). unfold accepted_write. cbn.
    destruct (ObservedStatus.revision o0) as [n|]; cbn in H |- *; [|done].
    destruct (checked_add _ _ _) as [k|] eqn:K; cbn; [|done]. apply checked_add_Some in K. to_prop. lia.
  - cbn in Hi. lia.
Qed.

(** The write that revokes a token that owned. *)
Lemma accept_revokes session t s :
  identities_ok s → token_identity t < next_identity s →
  is_some_and (owners s !! session) (λ o, owns o t) = true →
  spent session t (accept_session_write session s).1.
Proof.
  intros I N O. destruct (accept_identities session s I) as (_ & Nx & o & E & Ho). split; [lia|].
  rewrite E, lookup_insert_eq. intros o' [= <-] _. destruct (owners s !! session) as [o0|]; [|done].
  cbn in O. subst o. unfold owns in O.
  apply andb_true_iff in O as (_ & R). rewrite eqb_true in R. unfold accepted_write. cbn. rewrite R. cbn.
  destruct (checked_add _ _ _) as [k|] eqn:K; cbn; [|done]. apply checked_add_Some in K.
  apply Z.ltb_lt. lia.
Qed.

Lemma spent_ext session t s s' :
  owners s' = owners s → next_identity s' = next_identity s → spent session t s → spent session t s'.
Proof. unfold spent. by intros -> ->. Qed.

Lemma delete_owners d now c s :
  is_delete c = true →
  let s' := (store_call d now c s).1 in
  next_identity s' = next_identity s
  ∧ (owners s' = alter (λ o, (accepted_write o).1) (call_session c) (owners s)
     ∨ owners s' = delete (call_session c) (alter (λ o, (accepted_write o).1) (call_session c) (owners s))).
Proof.
  destruct c; try done. intros _. cbn. unfold delete_session. repeat case_match; cbn; auto.
Qed.

(** What any call does to the owners: nothing, one accepted write of its session, or
    the revocation of its session's entry. *)
Lemma store_call_owners d now c s :
  let s' := (store_call d now c s).1 in
  next_identity s <= next_identity s'
  ∧ (owners s' = owners s
     ∨ owners s' = owners (accept_session_write (call_session c) s).1
       ∧ next_identity s' = next_identity (accept_session_write (call_session c) s).1
     ∨ is_delete c = true
       ∧ (owners s' = alter (λ o, (accepted_write o).1) (call_session c) (owners s)
          ∨ owners s' = delete (call_session c) (alter (λ o, (accepted_write o).1) (call_session c) (owners s)))).
Proof.
  cbv zeta. destruct (store_call d now c s) as [s' out] eqn:E. cbn [fst].
  assert (Nx : next_identity s <= next_identity (accept_session_write (call_session c) s).1).
  { unfold accept_session_write. destruct (owners s !! call_session c); cbn; lia. }
  destruct (is_delete c) eqn:D.
  - destruct (delete_owners d now c s D) as (N & O). rewrite E in N, O. cbn in N, O. split; [lia|auto].
  - apply store_call_effect in E; [|done]. destruct out; [|destruct E as (_ & -> & ->); split; [lia|auto]..].
    destruct E as (_ & _ & E). destruct (attention_scope d c s); destruct E as (-> & E);
      rewrite ?E; (split; [lia|auto 6]).
Qed.

Lemma call_identities d now c s : identities_ok s → identities_ok (store_call d now c s).1.
Proof.
  intros I. destruct (store_call_owners d now c s) as (N & [O|[(O & E)|(_ & [O|O])]]); cbv zeta in *;
    unfold identities_ok in *; rewrite O; [| |intros x o|intros x o].
  - intros x o H. apply I in H. lia.
  - rewrite E. by apply accept_identities.
  - rewrite lookup_alter_Some. intros [(_ & o0 & L & ->)|(_ & L)]; apply I in L; cbn; lia.
  - intros (_ & L)%lookup_delete_Some. revert L. rewrite lookup_alter_Some.
    intros [(_ & o0 & L & ->)|(_ & L)]; apply I in L; cbn; lia.
Qed.

Lemma call_spent d now c session t s :
  identities_ok s → spent session t s → spent session t (store_call d now c s).1.
Proof.
  intros I H. destruct (store_call_owners d now c s) as (N & [O|[(O & E)|(_ & O)]]); cbv zeta in *.
  - destruct H as (Hn & H). split; [lia|]. by rewrite O.
  - destruct (accept_spent session t s (call_session c) I H) as (Hn & H').
    split; [by rewrite E|by rewrite O].
  - destruct H as (Hn & H). split; [lia|].
    assert (A : ∀ o, alter (λ o, (accepted_write o).1) (call_session c) (owners s) !! session = Some o →
              identity o = token_identity t →
              is_none_or (ObservedStatus.revision o) (λ n, token_revision t <? n) = true).
    { intros o. rewrite lookup_alter_Some. intros [(<- & o0 & L & ->)|(_ & L)]; [|by apply H].
      intros Hi. specialize (H o0 L Hi). cbn.
      destruct (ObservedStatus.revision o0) as [n|]; cbn in H |- *; [|done].
      destruct (checked_add _ _ _) as [k|] eqn:K; cbn; [|done]. apply checked_add_Some in K. to_prop. lia. }
    destruct O as [O|O]; rewrite O; [done|]. intros o (_ & L)%lookup_delete_Some. by apply A.
Qed.

Lemma run_spent calls session t s :
  identities_ok s → spent session t s → spent session t (store_run s calls).
Proof.
  revert s. induction calls as [|x calls IH]; intros s I H; [done|].
  apply IH; [by apply call_identities|by apply call_spent].
Qed.

Lemma revoked_spent session t s s' :
  identities_ok s → token_identity t < next_identity s →
  is_some_and (owners s !! session) (λ o, owns o t) = true →
  next_identity s' = next_identity s →
  owners s' = alter (λ o, (accepted_write o).1) session (owners s)
  ∨ owners s' = delete session (alter (λ o, (accepted_write o).1) session (owners s)) →
  spent session t s'.
Proof.
  intros I N O Hn F. split; [lia|]. intros o L.
  assert (A : alter (λ o, (accepted_write o).1) session (owners s) !! session = Some o →
              identity o = token_identity t →
              is_none_or (ObservedStatus.revision o) (λ n, token_revision t <? n) = true).
  { destruct (accept_revokes session t s I N O) as (_ & R).
    destruct (accept_identities session s I) as (_ & _ & o' & E & H').
    rewrite lookup_alter_Some. intros [(_ & o0 & L0 & ->)|(Ne & _)]; [|done]. rewrite L0 in H'. subst o'.
    apply R. by rewrite E, lookup_insert_eq. }
  destruct F as [F|F]; rewrite F in L; [by apply A|]. by apply lookup_delete_Some in L as (Ne & _).
Qed.

(** a token proves that the attention was not written since it was issued: as long
    as it still owns its session, no call in between, of whatever kind, committed a
    write of the session's attention or deleted it, although records are deleted and
    created again and revisions of owners run out. *)
Theorem ownership_excludes_writes (d : Disk) (session : text) (m : SessionMetadata)
    (t : SessionWriteToken) (s : Store) (calls : list (Disk * string * Call))
    (I : identities_ok s)
    (R : read_owned_attention d session s = Ok (Some (m, t)))
    (O : owns_session session t (store_run s calls) = true) :
  attention_writes session calls s = false.
Proof.
  assert (T : token_session t = session ∧ is_some_and (owners s !! session) (λ o, owns o (token_write t)) = true
              ∧ token_identity (token_write t) < next_identity s).
  { unfold read_owned_attention in R. apply result_bind_Ok in R as (r & _ & R). apply Ok_inj in R.
    destruct r as [r|]; [|done]. cbn -[ObservedStatus.snapshot] in R.
    destruct (owners s !! session) as [o|] eqn:L; [|done]. cbn in R. apply I in L.
    unfold ObservedStatus.snapshot in R. destruct (ObservedStatus.revision o) as [n|] eqn:Rv; [|done].
    injection R as _ <-. cbn. unfold owns. cbn. by rewrite Z.eqb_refl, Rv, eqb_refl. }
  clear R. destruct T as (Ts & T & N).
  revert s I T N O. induction calls as [|[[dk now] c] calls IH]; intros s I T N O; [done|].
  cbn [attention_writes]. pose proof (call_identities dk now c s I) as I'.
  pose proof (store_call_owners dk now c s) as (Nx & Ow). cbv zeta in *.
  change (owns_session session t (store_run (store_call dk now c s).1 calls) = true) in O.
  assert (NS : ¬ spent session (token_write t) (store_call dk now c s).1).
  { intros H. apply (run_spent calls) in H; [|done]. apply spent_not_owned in H. congruence. }
  destruct (decide (call_session c = session)) as [Ec|Ne].
  - destruct (is_delete c) eqn:D.
    { destruct NS. destruct (delete_owners dk now c s D) as (Hn & F). rewrite Ec in F.
      by eapply (revoked_spent session (token_write t) s). }
    destruct (store_call dk now c s) as [s' out] eqn:E. cbn [fst] in *.
    apply store_call_effect in E; [|done]. rewrite Ec in *. rewrite eqb_refl. cbn [andb orb].
    destruct out as [r tk| | |]; [|destruct E as (_ & E1 & E2); apply IH; rewrite ?E1, ?E2; done..].
    destruct E as (_ & _ & E). destruct (attention_scope dk c s).
    + destruct NS, E as (E1 & E2). eapply spent_ext; [exact E1|exact E2|]. by apply accept_revokes.
    + destruct E as (E1 & E2). apply IH; rewrite ?E1, ?E2; done.
  - destruct (store_call dk now c s) as [s' out] eqn:E. cbn [fst] in *.
    unfold eqb at 1. rewrite bool_decide_eq_false_2 by done. cbn [andb orb].
    apply IH; try done; [|lia].
    destruct Ow as [-> |[(-> & _)|(_ & [-> | ->])]]; [done| | |].
    + destruct (accept_identities (call_session c) s I) as (_ & _ & o & -> & _). by rewrite lookup_insert_ne.
    + by rewrite lookup_alter_ne.
    + by rewrite lookup_delete_ne, lookup_alter_ne.
Qed.

(** ** The window in which an agent's attention is its own *)

Section window.
Context (parse_time : string → option Z).

(** The calls of [merge_agent_attention_signal_with_plan] and of
    [merge_peon_inference_inner]; [clock] is the time the ages are read at. *)
Definition signal_call (clock : Z) (session : text) (new_status : string) (message : option text)
    (path : PlanPathUpdate) (timestamp source : string) (confidence : f64) (hook : bool)
    (before : SessionMetadata → result IoError unit) : Call :=
  Decide session
    (λ m, Ok ((λ m, (m, ATTENTION)) <$>
              attention_signal (attention_age_secs parse_time clock (provenance m)) new_status message
                path timestamp source confidence hook m)) before.
Definition peon_call (clock : Z) (session : text) (inf : PeonInference) (timestamp : string)
    (provider : option ProviderObservation) (history : option text) (policy : PeonPolicy) : Call :=
  Decide session
    (λ m, let '(m', d) := apply_peon (attention_age_secs parse_time clock (provenance m))
                            (work_age_secs parse_time clock (provenance m)) m inf timestamp provider
                            history policy in
          Ok ((λ w, (m', w)) <$> scope d)) (λ _, Ok tt).

Lemma attention_signal_source age new_status message path timestamp source confidence hook m m' :
  attention_signal age new_status message path timestamp source confidence hook m = Some m' →
  attention_source (provenance m') = Some (if source == "codex_hook" then "agent" else source).
Proof.
  unfold attention_signal. case_match; [done|]. intros <-%Some_inj. by destruct hook.
Qed.

(** What a read makes of a record with its own attribution and clock. *)
Lemma on_prov_keeps f m : att (on_prov f m) = att m ∧ provenance (on_prov f m) = f (provenance m).
Proof. done. Qed.
Lemma decoded_att modified m : att (decoded modified m) = att (normalize_session_metadata m).
Proof. unfold decoded. by rewrite (proj1 (on_prov_keeps _ _)). Qed.
Lemma decoded_fresh modified m :
  is_some (attention_source (provenance m)) = true →
  is_some (attention_updated_at (provenance m)) = true →
  attention_source (provenance (decoded modified m)) = attention_source (provenance m)
  ∧ attention_updated_at (provenance (decoded modified m)) = attention_updated_at (provenance m).
Proof.
  intros A U. rewrite <-(normalize_provenance m) in A, U |- *. unfold decoded. cbv zeta.
  rewrite (proj2 (on_prov_keeps _ _)). revert A U.
  generalize (normalize_session_metadata m). intros m'.
  destruct (provenance m') as [[a|] c o [u|] w ? ? ?]; try done. intros _ _. unfold hydrate_legacy. cbn.
  by destruct w.
Qed.
Lemma try_read_decoded d session s base bytes modified r :
  files s !! session = Some (bytes, modified) → from_json bytes = Some r →
  try_read d session s = Ok (Some base) → metadata base = decoded modified (metadata r).
Proof.
  intros F J. unfold try_read. destruct (negb _); [done|]. rewrite F. rewrite J. cbn -[decoded].
  case_match; [discriminate|]. intros R. apply Ok_inj, Some_inj in R as <-. reflexivity.
Qed.

(** for fifteen seconds an agent's attention is its own: after an accepted signal of
    an agent, a peon's inference that is merged less than sixteen seconds later, or at a
    time the clock cannot relate to the signal, commits no change of the observed status,
    the attention or the open question, whatever it infers and under whatever policy. *)
Theorem agents_attention_window (d1 d2 : Disk) (now1 now2 : string) (clock1 clock2 : Z)
    (session : text) (new_status : string) (message : option text) (path : PlanPathUpdate)
    (timestamp timestamp' source : string) (confidence : f64) (hook : bool)
    (before : SessionMetadata → result IoError unit) (inf : PeonInference)
    (provider : option ProviderObservation) (history : option text) (policy : PeonPolicy)
    (s0 s1 s2 s3 : Store) (r1 r2 : RevisionedSession) (t1 t2 : option SessionWriteToken)
    (Hs : source ∈ ["agent"; "codex_hook"])
    (H1 : store_call d1 now1 (signal_call clock1 session new_status message path timestamp source
                                confidence hook before) s0 = (s1, Committed r1 t1))
    (J : from_json (to_json r1) = Some r1)
    (F : files s2 !! session = files s1 !! session)
    (W : is_none_or (parse_time now1) (λ t, clock2 - t <? 16000000000) = true)
    (H2 : store_call d2 now2 (peon_call clock2 session inf timestamp' provider history policy) s2
          = (s3, Committed r2 t2)) :
  att (metadata r2) = att (normalize_session_metadata (metadata r1))
  ∧ attention_source (provenance (metadata r2)) = Some "agent".
Proof.
  cbn -[attention_signal] in H1. apply decide_effect in H1 as (base1 & m1 & w1 & C1 & _ & M1 & E1).
  destruct C1 as (F1 & _). rewrite F1, lookup_insert_eq in F.
  assert (S1 : attention_source (provenance (metadata r1)) = Some "agent"
               ∧ attention_updated_at (provenance (metadata r1)) = Some now1).
  { destruct (attention_signal _ _ _ _ _ _ _ _ _) as [m|] eqn:Em; [|done]. cbn in M1.
    injection M1 as <- <-. rewrite E1. cbn. rewrite (attention_signal_source _ _ _ _ _ _ _ _ _ _ Em).
    split; [|done]. rewrite !elem_of_cons, elem_of_nil in Hs. by destruct Hs as [-> |[-> |[]]]. }
  destruct S1 as (S1 & U1).
  cbn -[apply_peon] in H2. apply decide_effect in H2 as (base & m & w & _ & R & M & E2).
  pose proof (try_read_decoded _ _ _ _ _ _ _ F J R) as D.
  destruct (decoded_fresh (stamp d1) (metadata r1)) as (S & U); [by rewrite S1|by rewrite U1|].
  rewrite <-D, S1 in S. rewrite <-D, U1 in U. pose proof (decoded_att (stamp d1) (metadata r1)) as A.
  rewrite <-D in A. rewrite <-A. clear A D F F1 R J.
  assert (N : can_overwrite "peon" (source_of (metadata base))
                (attention_age_secs parse_time clock2 (provenance (metadata base))) = false).
  { apply not_true_is_false. unfold source_of, attention_source_or. rewrite S. cbn [default].
    rewrite overwrite_agent. unfold attention_age_secs, age_secs. rewrite U. cbn.
    intros [?|[?|[?|(_ & a & Ha & L)]]]; try done.
    destruct (parse_time now1) as [t|]; [|done]. cbn in Ha, W. case_match; [|done].
    injection Ha as <-. apply Z.ltb_lt in W. apply Z.lt_le_pred in W.
    apply (Z.quot_le_mono _ _ 1000000000) in W; [|lia]. vm_compute (Z.quot (Z.pred _) _) in W. lia. }
  destruct (apply_peon_refused _ (work_age_secs parse_time clock2 (provenance (metadata base))) _ inf
              timestamp' provider history policy N) as (A & B).
  destruct (apply_peon _ _ _ _ _ _ _ _) as [m' dec] in M, A, B. cbn in M, A, B.
  destruct (scope dec); [|done]. injection M as -> ->. rewrite E2. cbn. split; [done|].
  injection B as B _ _. rewrite S in B. unfold stamped. by destruct w as [[] []].
Qed.
End window.
End store.
#[local] Transparent normalize_session_metadata.

(** ** Concrete stores

    Contents are the records themselves. *)
Abbreviation demo_call := (store_call (λ r, r) Some).
Definition good_disk : Disk := mkDisk true true true (Some "stamp").
Definition demo_store : Store :=
  mkStore {[ ascii "s1" := (mkRecord (waiting_demo None) 4, Some "t0") ]} ∅
    {[ ascii "s1" := mkOwner 0 (Some 7) ]} 1.
Definition demo_update : Call :=
  Update (ascii "s1") (Some 4) ALL (λ m, Ok (set_last_activity "t1" m)).
Definition demo_updated : Store * Reply :=
  Eval vm_compute in demo_call good_disk "t1" demo_update demo_store.

Lemma no_lost_update_witness :
  (demo_call good_disk "t2" demo_update demo_updated.1).2 = Failed Conflict.
Proof.
  assert (K : ∀ r r' : RevisionedSession, Some r = Some r' → record_revision r' = record_revision r)
    by (by intros r r' [= ->]).
  destruct (no_lost_update (λ r, r) Some K (ascii "s1") 4 good_disk good_disk "t1" "t2" ALL ALL
              (λ m, Ok (set_last_activity "t1" m)) (λ m, Ok (set_last_activity "t1" m))
              demo_store demo_updated.1 demo_updated.1
              (match demo_updated.2 with Committed r _ => r | _ => mkRecord (waiting_demo None) 0 end)
              None []) as (_ & _ & H).
  - vm_compute. reflexivity.
  - constructor.
  - reflexivity.
  - apply (H (match read_latest Some good_disk (ascii "s1") demo_updated.1 with
              | Ok r => r | Err _ => mkRecord (waiting_demo None) 0 end)).
    vm_compute. reflexivity.
Defined.

(** The rename fails: the staged file remains, and nothing else changes. *)
Definition stuck_disk : Disk := mkDisk true true false None.
Lemma uncommitted_call_changes_nothing_witness :
  files (demo_call stuck_disk "t1" demo_update demo_store).1 = files demo_store
  ∧ owners (demo_call stuck_disk "t1" demo_update demo_store).1 = owners demo_store.
Proof.
  apply (uncommitted_call_changes_nothing (λ r, r) Some stuck_disk "t1" demo_update demo_store _
           (Failed (TxIo (Io OtherError "rename failed")))).
  - vm_compute. reflexivity.
  - reflexivity.
  - discriminate.
Defined.

Definition demo_work : Disk * string * Call :=
  (good_disk, "t1", Update (ascii "s1") None NONE (λ m, Ok (set_last_activity "t1" m))).
Lemma ownership_excludes_writes_witness :
  attention_writes (λ r, r) Some (ascii "s1") [demo_work] demo_store = false.
Proof.
  apply (ownership_excludes_writes (λ r, r) Some good_disk (ascii "s1")
           (decoded (Some "t0") (waiting_demo None)) (mkWriteToken (ascii "s1") (mkToken 0 7))).
  - intros session o H. change (owners demo_store) with
      ({[ ascii "s1" := mkOwner 0 (Some 7) ]} : gmap text AttentionOwner) in H.
    apply lookup_singleton_Some in H as (_ & <-). reflexivity.
  - vm_compute. reflexivity.
  - vm_compute. reflexivity.
Defined.

(** An agent asks at second 0; fifteen seconds later a peon infers work. *)
Definition demo_parse (s : string) : option Z :=
  if s == "agent's commit" then Some 0 else None.
Definition demo_inference : PeonInference :=
  mkInference (Some "working") None (Some (ascii "go on")) None None None None None None None f_half
    None None None.
Definition demo_signal : Call :=
  signal_call demo_parse 0 (ascii "s1") "waiting_for_input" None Unchanged "t1" "agent" f_one true
    (λ _, Ok tt).
Definition demo_peon : Call :=
  peon_call demo_parse 15000000000 (ascii "s1") demo_inference "t2" None None Infer.
Definition demo_signalled : Store * Reply :=
  Eval vm_compute in demo_call good_disk "agent's commit" demo_signal demo_store.
Definition demo_merged : Store * Reply :=
  Eval vm_compute in demo_call good_disk "t2" demo_peon demo_signalled.1.
Definition reply_record (x : Store (File := RevisionedSession) * Reply) : RevisionedSession :=
  match x.2 with Committed r _ => r | _ => mkRecord (waiting_demo None) 0 end.

Lemma agents_attention_window_witness :
  observed_status (att (metadata (reply_record demo_merged))) = Some "waiting_for_input"
  ∧ next_action (work (metadata (reply_record demo_merged))) = Some (ascii "go on").
Proof.
  destruct (agents_attention_window (λ r, r) Some demo_parse good_disk good_disk "agent's commit" "t2" 0
              15000000000 (ascii "s1") "waiting_for_input" None Unchanged "t1" "t2" "agent" f_one true
              (λ _, Ok tt) demo_inference None None Infer demo_store demo_signalled.1 demo_signalled.1
              demo_merged.1 (reply_record demo_signalled) (reply_record demo_merged) None None)
    as (H & _).
  - apply elem_of_cons. by left.
  - vm_compute. reflexivity.
  - reflexivity.
  - reflexivity.
  - vm_compute. reflexivity.
  - vm_compute. reflexivity.
  - rewrite H. split; vm_compute; reflexivity.
Defined.
