(* ===== verification/AgentPatch.v ===== *)
(** * The agent's patch of a session record

    [metadata/agent_patch.rs]: the strict, field-scoped patch an agent sends with the
    revision it read, its validation on its own, its check against the latest record,
    and its application inside one optimistic update.

    What the disk and git answer when a path is resolved, the classification of
    document paths and the pins of the branch documents are arguments; so are the
    two readings of the clock.  Parsing the JSON of a patch is serde's. *)
From S2P Require Import ObservedStatus.
From S2P Require Export MetadataStore.

(** [FieldUpdate<T>]: an omitted field, a [null] and a value. *)
Inductive FieldUpdate (A : Type) : Type := Omitted | ClearField | SetField (a : A).
#[global] Arguments Omitted {A}.
#[global] Arguments ClearField {A}.
#[global] Arguments SetField {A} a.
Definition is_omitted {A} (u : FieldUpdate A) : bool :=
  match u with Omitted => true | _ => false end.

Record AttentionState : Type := mkState {
  state_observed_status : option string;
  state_needs_user_input : option bool;
  state_detected_question : option text;
  state_suggested_options : option (list text);
}.
Record WorkFields : Type := mkWorkFields {
  work_task : text;
  work_next_action : option text;
  work_work_phase : string;
  work_blocker_description : option text;
  work_failed_command : option text;
  work_failed_test : option text;
}.
Record AgentMetadata : Type := mkAgentMetadata {
  work_fields : option WorkFields;
  summary_update : FieldUpdate text;
  plan_path_update : FieldUpdate text;
  worktree_path : FieldUpdate text;
}.
Record AgentPatch : Type := mkPatch {
  attention_state : option AttentionState;
  agent_metadata : option AgentMetadata;
}.

(** ** Validation *)

Definition empty_text (t : text) : bool := match t with [] => true | _ => false end.
Definition valid_text (value : text) : bool :=
  negb (empty_text (trim value)) && negb (existsb is_control value).

Definition known_status (s : string) : bool :=
  (s == "waiting_for_input") || (s == "blocked") || (s == "failed") || (s == "capped")
  || (s == "working") || (s == "idle") || (s == "stale") || (s == "done").
Definition asking_status (s : string) : bool :=
  (s == "waiting_for_input") || (s == "blocked") || (s == "failed") || (s == "capped").
Definition no_options (o : option (list text)) : bool :=
  is_none_or o (λ l, match l with [] => true | _ => false end).

Definition validate_attention (a : AttentionState) : result string unit :=
  let s := state_observed_status a in
  let input := state_needs_user_input a == Some true in
  ensure (is_none_or s known_status) "invalid observed status" ≫= λ _,
  ensure (negb ((s == Some "waiting_for_input") && negb input)) "waiting status requires user input"
  ≫= λ _,
  ensure (negb (input && negb (is_some_and s asking_status))) "status cannot require user input" ≫= λ _,
  ensure (is_none_or (state_detected_question a) (λ q, valid_text q && input))
    "question requires user input" ≫= λ _,
  (match state_suggested_options a with
   | Some options =>
       ensure (forallb valid_text options) "invalid suggested option" ≫= λ _,
       ensure (no_options (Some options) || is_some (state_detected_question a))
         "options require a question"
   | None => Ok tt
   end) ≫= λ _,
  ensure (input || (is_none (state_detected_question a) && no_options (state_suggested_options a)))
    "prompt fields require user input".

(** [Path::is_absolute] of a Unix path, and a leading tilde. *)
Definition is_absolute (path : text) : bool :=
  match path with c :: _ => (c =? 0x2f) | [] => false end.
Definition starts_with_tilde (path : text) : bool :=
  match path with c :: _ => (c =? 0x7e) | [] => false end.
Definition valid_phase (p : string) : bool :=
  (p == "ideation") || (p == "implementation") || (p == "review") || (p == "debugging")
  || (p == "unknown").

Definition validate_work (w : WorkFields) : result string unit :=
  ensure (valid_text (work_task w) && valid_phase (work_work_phase w)) "invalid work fields" ≫= λ _,
  ensure (forallb (λ o, is_none_or o valid_text)
            [work_next_action w; work_blocker_description w; work_failed_command w; work_failed_test w])
    "invalid work field text".
Definition validate_metadata (a : AgentMetadata) : result string unit :=
  ensure (negb (is_none (work_fields a) && is_omitted (summary_update a)
                && is_omitted (plan_path_update a) && is_omitted (worktree_path a)))
    "empty agent metadata" ≫= λ _,
  (match summary_update a with
   | SetField s => ensure (valid_text s) "invalid summary"
   | _ => Ok tt
   end) ≫= λ _,
  (match plan_path_update a with
   | SetField p =>
       ensure (valid_text p && negb (is_absolute p) && negb (starts_with_tilde p)) "invalid plan path"
   | _ => Ok tt
   end) ≫= λ _,
  match work_fields a with Some w => validate_work w | None => Ok tt end.
Definition validate (p : AgentPatch) : result string unit :=
  ensure (is_some (attention_state p) || is_some (agent_metadata p)) "empty patch" ≫= λ _,
  (match attention_state p with Some a => validate_attention a | None => Ok tt end) ≫= λ _,
  match agent_metadata p with Some a => validate_metadata a | None => Ok tt end.

Definition patch_scope (p : AgentPatch) : WriteScope :=
  mkScope (is_some (attention_state p))
    (is_some_and (agent_metadata p) (λ a, is_some (work_fields a))).
Definition updates_summary (p : AgentPatch) : bool :=
  is_some_and (agent_metadata p) (λ a, negb (is_omitted (summary_update a))).

Definition require_live (m : SessionMetadata) : result IoError unit :=
  ensure ((lifecycle (lc m) == "alive") && (lifecycle_phase (lc m) == "active")
          && (status (lc m) == "running")) (Semantic Unauthorized).

(** ** The check against the latest record *)

Inductive DocumentKind : Type := Design | Implementation.
#[export] Instance document_kind_eq_dec : EqDecision DocumentKind.
Proof. solve_decision. Defined.

(** What the files and repositories of the machine answer. *)
Record Places : Type := mkPlaces {
  (** [WorktreeBinding::resolve] from a folder, and [validate] *)
  resolve_binding : text → text → option WorktreeBinding;
  validate_binding : WorktreeBinding → option text;
  (** [resolve_printed_plan_path]: the worktree root and the path in it *)
  resolve_plan : text → text → option (text * text);
  (** [kind_for_path], [identity] and the kinds pinned in the store, when there is one;
      loading the pins may fail *)
  kind_for_path : text → option DocumentKind;
  branch_identity : text → option text;
  pinned_kinds : option (text → option (list DocumentKind));
}.

Section patch.
Context (places : Places) (now_summary now_activity : string).

(** Whether a plan the user pinned stays the only plan of its kind. *)
Definition pin_conflicts (pin : PlanReference) (root relative : text) : result IoError bool :=
  let kinds := kind_for_path places in
  let independent :=
    match kinds (relative_path pin), kinds relative with
    | Some pinned, Some reported => pinned != reported
    | _, _ => false
    end in
  let shared :=
    if is_some (worktree_root pin) && is_some (kinds (relative_path pin)) then
      match pinned_kinds places, branch_identity places root, kinds relative with
      | Some load, Some identity, Some kind =>
          docs ← ok_or (Io OtherError "pins unavailable") (load identity);
          Ok (Some (existsb (eqb kind) docs))
      | _, _, _ => Ok None
      end
    else Ok None in
  shared_pin ← shared;
  Ok (default (negb independent) shared_pin).

Definition bad {A} (o : option A) : result IoError A := ok_or (Semantic BadRequest) o.
Definition conflict_unless (b : bool) : result IoError unit := ensure b (Semantic PatchConflict).

Definition check_sources (p : AgentPatch) (m : SessionMetadata) : result IoError unit :=
  conflict_unless (is_none (attention_state p) || can_overwrite "agent" (source_of m) None) ≫= λ _,
  match agent_metadata p with
  | None => Ok tt
  | Some agent =>
      conflict_unless (is_none (work_fields agent)
                       || can_overwrite "agent" (metadata_source (work m)) None) ≫= λ _,
      conflict_unless (is_omitted (summary_update agent)
                       || can_overwrite "agent" (default "unknown" (summary_source (provenance m))) None)
  end.

Definition user_selected (m : SessionMetadata) : bool :=
  is_some_and (plan_path m) (λ p, plan_source p == UserSelected).

(** The plan path of a patch, resolved where its worktree says. *)
Definition resolve_patch_plan (agent : AgentMetadata) (path : text) (m : SessionMetadata)
    : result IoError PlanReference :=
  binding ← match worktree_path agent with
            | SetField root => b ← bad (resolve_binding places (cwd (facts m)) root); Ok (Some b)
            | ClearField => Ok None
            | Omitted => Ok (worktree_binding m)
            end;
  launch ← match binding with
           | Some b => bad (validate_binding places b)
           | None => Ok (cwd (facts m))
           end;
  '(root, relative) ← bad (resolve_plan places launch path);
  ensure (is_none binding || (root == launch)) (Semantic BadRequest) ≫= λ _,
  conflict ← match opt_filter (λ p, plan_source p == UserSelected) (plan_path m) with
             | Some pin => pin_conflicts pin root relative
             | None => Ok false
             end;
  conflict_unless (negb conflict) ≫= λ _,
  Ok (mkPlan (Some root) relative AgentReported).

Definition validate_current (p : AgentPatch) (check_source : bool) (m : SessionMetadata)
    : result IoError (option PlanReference) :=
  (if check_source then check_sources p m else Ok tt) ≫= λ _,
  match agent_metadata p with
  | None => Ok None
  | Some agent =>
      (match worktree_path agent with
       | SetField path => _ ← bad (resolve_binding places (cwd (facts m)) path); Ok tt
       | _ => Ok tt
       end) ≫= λ _,
      match plan_path_update agent with
      | Omitted => Ok None
      | ClearField => conflict_unless (negb (user_selected m)) ≫= λ _, Ok None
      | SetField path => plan ← resolve_patch_plan agent path m; Ok (Some plan)
      end
  end.

(** ** Application *)

Definition apply_state (a : AttentionState) (m : SessionMetadata) : SessionMetadata :=
  let cleared := is_none (state_observed_status a) in
  on_prov (attribute (if cleared then "unknown" else "agent")
             (Some (if cleared then f_zero else f_one)) "direct_agent")
    (set_att (mkAttention (state_observed_status a)
                (canonical_attention (state_observed_status a)) (state_needs_user_input a)
                (state_detected_question a) (state_suggested_options a)) m).
Definition apply_work (w : WorkFields) (m : SessionMetadata) : SessionMetadata :=
  on_work (λ old, mkWork (work_work_phase w) (work_task w) (work_next_action w)
                    (work_blocker_description w) (work_failed_command w) (work_failed_test w)
                    (capacity_hints old) "agent" f_one (provider_id old) (provider_label old)
                    (provider_model old) (provider_state old)) m.
Definition apply_summary (u : FieldUpdate text) (m : SessionMetadata) : SessionMetadata :=
  let attribute_summary source confidence observed :=
    on_prov (λ p, set_summary_observed_at observed
                    (set_summary_confidence confidence (set_summary_source source p))) in
  match u with
  | Omitted => m
  | ClearField => attribute_summary None None None (set_summary None m)
  | SetField value =>
      attribute_summary (Some "agent") (Some f_one) (Some now_summary) (set_summary (Some value) m)
  end.
Definition apply_plan (u : FieldUpdate text) (plan : option PlanReference) (m : SessionMetadata)
    : SessionMetadata :=
  match u with
  | Omitted => m
  | ClearField => set_plan_path None m
  | SetField _ => if user_selected m then m else set_plan_path plan m
  end.

Definition apply_patch (p : AgentPatch) (m : SessionMetadata)
    : result IoError (SessionMetadata * option PlanReference) :=
  require_live m ≫= λ _,
  plan ← validate_current p true m;
  binding ← match agent_metadata p with
            | Some agent =>
                match worktree_path agent with
                | SetField path => b ← bad (resolve_binding places (cwd (facts m)) path); Ok (Some b)
                | _ => Ok None
                end
            | None => Ok None
            end;
  let m := match attention_state p with Some a => apply_state a m | None => m end in
  let m :=
    match agent_metadata p with
    | None => m
    | Some agent =>
        let m := if is_omitted (worktree_path agent) then m else set_worktree_binding binding m in
        let m := match work_fields agent with Some w => apply_work w m | None => m end in
        apply_plan (plan_path_update agent) plan (apply_summary (summary_update agent) m)
    end in
  Ok (set_last_activity now_activity m, plan).
End patch.

(** ** Errors and the two entry points *)

Inductive AgentPatchError : Type :=
  | PatchErrorConflict | PatchErrorBadRequest | PatchErrorUnauthorized | PatchErrorIo (e : IoError).
Definition map_error (e : SessionTransactionError) : AgentPatchError :=
  match e with
  | Conflict => PatchErrorConflict
  | TxIo (Semantic PatchConflict) => PatchErrorConflict
  | TxIo (Semantic BadRequest) => PatchErrorBadRequest
  | TxIo (Semantic Unauthorized) => PatchErrorUnauthorized
  | TxIo e => PatchErrorIo e
  end.

Section entry_points.
Context {File : Type} (to_json : RevisionedSession → File)
  (from_json : File → option RevisionedSession).

(** The publication of the branch document after the commit is a best effort whose
    failure is only logged; it is left to the caller with the plan. *)
Definition patch_mutation (places : Places) (now_summary now_activity : string) (p : AgentPatch)
    (m : SessionMetadata) : result IoError SessionMetadata :=
  x ← apply_patch places now_summary now_activity p m; Ok x.1.
Definition apply_agent_patch (places : Places) (now_summary now_activity : string) (d : Disk)
    (now : string) (session : text) (expected : Z) (p : AgentPatch) (s : Store (File := File))
    : Store (File := File) * result AgentPatchError RevisionedSession :=
  match update_session_locked to_json from_json d now session (Some expected) (patch_scope p)
          (patch_mutation places now_summary now_activity p) s with
  | (s, Committed r _) => (s, Ok r)
  | (s, Failed e) => (s, Err (map_error e))
  | (s, _) => (s, Err (PatchErrorIo Panic))
  end.

Definition validate_agent_patch (places : Places) (d : Disk) (session : text) (expected : Z)
    (p : AgentPatch) (s : Store (File := File)) : result AgentPatchError Z :=
  match read_latest from_json d session s with
  | Err e => Err (PatchErrorIo e)
  | Ok r =>
      if record_revision r != expected then Err PatchErrorConflict
      else
        match require_live (metadata r) with
        | Err e => Err (map_error (TxIo e))
        | Ok _ =>
            match validate_current places p false (metadata r) with
            | Err e => Err (map_error (TxIo e))
            | Ok _ => Ok (record_revision r)
            end
        end
  end.
End entry_points.

(** ** What a patch does *)

(** The tuple of a valid attention state: an asking status, a question only of one who
    asks, and options only of a question. *)
Record prompt_tuple (a : Attention) : Prop := {
  asks_when_waiting : observed_status a = Some "waiting_for_input" → needs_user_input a = Some true;
  asking_statuses : needs_user_input a = Some true →
    ∃ s, observed_status a = Some s ∧ asking_status s = true;
  questions_asked : detected_question a ≠ None → needs_user_input a = Some true;
  options_of_questions : no_options (suggested_options a) = false → detected_question a ≠ None;
  attention_canonical : attention a = canonical_attention (observed_status a);
}.

Definition state_tuple (a : AttentionState) : Attention :=
  mkAttention (state_observed_status a) (canonical_attention (state_observed_status a))
    (state_needs_user_input a) (state_detected_question a) (state_suggested_options a).

Lemma validate_attention_tuple a : validate_attention a = Ok tt → prompt_tuple (state_tuple a).
Proof.
  unfold validate_attention. intros H. inv_ok H.
  constructor; cbn.
  - intros E. rewrite E, eqb_refl in Hv0. cbn in Hv0.
    destruct (state_needs_user_input a == Some true) eqn:I; [by apply eqb_true|done].
  - intros E. rewrite E, eqb_refl in Hv1. cbn in Hv1. apply negb_true_iff, negb_false_iff in Hv1.
    by apply is_some_and_true.
  - destruct (state_detected_question a); [|done]. intros _. cbn in Hv2.
    apply andb_true_iff in Hv2 as (_ & Hv2). by apply eqb_true.
  - intros N Q. rewrite Q in Hv3. destruct (state_suggested_options a) as [l|] eqn:L; [|done].
    inv_ok Hv3. by rewrite N in Hv3.
  - done.
Qed.

Section patch_facts.
Context (places : Places) (now_summary now_activity : string).
Abbreviation patched p m x := (apply_patch places now_summary now_activity p m = Ok x).

Lemma apply_patch_Ok p m x :
  patched p m x →
  require_live m = Ok tt ∧ check_sources p m = Ok tt
  ∧ att x.1 = (match attention_state p with Some a => state_tuple a | None => att m end)
  ∧ attribution x.1 = (match attention_state p with
                       | Some a =>
                           let cleared := is_none (state_observed_status a) in
                           (Some (if cleared then "unknown" else "agent"),
                            Some (if cleared then f_zero else f_one), Some "direct_agent")
                       | None => attribution m
                       end)
  ∧ lc x.1 = lc m ∧ id x.1 = id m ∧ clocks x.1 = clocks m
  ∧ (scope_work (patch_scope p) = false → work x.1 = work m)
  ∧ (updates_summary p = false → summary x.1 = summary m).
Proof.
  unfold apply_patch. intros H. apply result_bind_Ok in H as ([] & L & H).
  apply result_bind_Ok in H as (plan & V & H). apply result_bind_Ok in H as (binding & _ & H).
  apply Ok_inj in H as <-. split; [done|].
  unfold validate_current in V. apply result_bind_Ok in V as ([] & C & _). split; [done|]. clear C L.
  assert (A : ∀ u m, att (apply_summary now_summary u m) = att m ∧ lc (apply_summary now_summary u m) = lc m
    ∧ id (apply_summary now_summary u m) = id m ∧ clocks (apply_summary now_summary u m) = clocks m
    ∧ attribution (apply_summary now_summary u m) = attribution m
    ∧ work (apply_summary now_summary u m) = work m
    ∧ (is_omitted u = true → summary (apply_summary now_summary u m) = summary m)) by (by intros []).
  assert (P : ∀ u m, att (apply_plan u plan m) = att m ∧ lc (apply_plan u plan m) = lc m
    ∧ id (apply_plan u plan m) = id m ∧ clocks (apply_plan u plan m) = clocks m
    ∧ attribution (apply_plan u plan m) = attribution m ∧ work (apply_plan u plan m) = work m
    ∧ summary (apply_plan u plan m) = summary m).
  { intros [] m'; unfold apply_plan; try done. by destruct (user_selected m'). }
  assert (L : ∀ m', att (set_last_activity now_activity m') = att m'
    ∧ attribution (set_last_activity now_activity m') = attribution m'
    ∧ lc (set_last_activity now_activity m') = lc m' ∧ id (set_last_activity now_activity m') = id m'
    ∧ clocks (set_last_activity now_activity m') = clocks m'
    ∧ work (set_last_activity now_activity m') = work m'
    ∧ summary (set_last_activity now_activity m') = summary m') by done.
  destruct p as [st [[wf su pl wt]|]]; [|by destruct st].
  cbn [fst attention_state agent_metadata work_fields summary_update plan_path_update worktree_path].
  match goal with |- context [apply_plan pl plan (apply_summary now_summary su ?x)] => set (m1 := x) end.
  destruct (L (apply_plan pl plan (apply_summary now_summary su m1))) as (-> & -> & -> & -> & -> & -> & ->).
  destruct (P pl (apply_summary now_summary su m1)) as (-> & -> & -> & -> & -> & -> & ->).
  destruct (A su m1) as (-> & -> & -> & -> & -> & -> & S).
  assert (M : att m1 = (match st with Some a => state_tuple a | None => att m end)
    ∧ attribution m1 = (match st with
        | Some a => let cleared := is_none (state_observed_status a) in
            (Some (if cleared then "unknown" else "agent"), Some (if cleared then f_zero else f_one),
             Some "direct_agent")
        | None => attribution m end)
    ∧ lc m1 = lc m ∧ id m1 = id m ∧ clocks m1 = clocks m ∧ summary m1 = summary m
    ∧ (is_some wf = false → work m1 = work m)) by (subst m1; by destruct st, wf, wt).
  destruct M as (-> & -> & -> & -> & -> & M & W). repeat (split; [done|]).
  intros U. rewrite S; [done|]. by destruct su.
Qed.

(** a patch that passes its validation leaves a well-formed prompt on a live
    session: who waits for input needs it, only an asking status needs input, a question
    is asked only of one who needs input, options belong to a question, and the attention
    is the status's own, attributed to the agent. *)
Theorem valid_patch_gives_prompt_tuple (p : AgentPatch) (a : AttentionState) (m : SessionMetadata)
    (x : SessionMetadata * option PlanReference)
    (S : attention_state p = Some a) (V : validate p = Ok tt) (H : patched p m x) :
  prompt_tuple (att x.1) ∧ observed_status (att x.1) = state_observed_status a
  ∧ source_of x.1 = (if is_none (state_observed_status a) then "unknown" else "agent").
Proof.
  apply apply_patch_Ok in H as (_ & _ & A & B & _). rewrite S in A, B. rewrite A.
  unfold validate in V. inv_ok V. rewrite S in Hv0. destruct v0.
  split; [by apply validate_attention_tuple|]. split; [done|]. injection B as B _ _.
  unfold source_of, attention_source_or. by rewrite B.
Qed.

(** a patch is applied only by right: the session is live, and every field it writes,
    the attention, the work, the summary, does not belong to the user.  It writes nothing
    else: without an attention state the attention and its attribution are kept, without
    work fields the work, and the lifecycle, the id and the clocks always. *)
Theorem patch_applies_by_right (p : AgentPatch) (m : SessionMetadata)
    (x : SessionMetadata * option PlanReference) (H : patched p m x) :
  lifecycle (lc m) = "alive" ∧ lifecycle_phase (lc m) = "active" ∧ status (lc m) = "running"
  ∧ (scope_attention (patch_scope p) = true → source_of m ≠ "user")
  ∧ (scope_work (patch_scope p) = true → metadata_source (work m) ≠ "user")
  ∧ (updates_summary p = true → summary_source (provenance m) ≠ Some "user")
  ∧ (scope_attention (patch_scope p) = false → att x.1 = att m ∧ attribution x.1 = attribution m)
  ∧ (scope_work (patch_scope p) = false → work x.1 = work m)
  ∧ (updates_summary p = false → summary x.1 = summary m)
  ∧ lc x.1 = lc m ∧ id x.1 = id m ∧ clocks x.1 = clocks m.
Proof.
  apply apply_patch_Ok in H as (L & C & A & B & El & Ei & Ec & W & S).
  apply ensure_Ok in L. to_prop. destruct L as ((L1 & L2) & L3).
  assert (U : ∀ s, can_overwrite "agent" s None = true → s ≠ "user").
  { intros s O ->. by apply overwrite_user in O. }
  unfold check_sources, conflict_unless in C. inv_ok C. repeat (split; [done|]).
  split; [intros X; apply U; cbn in X; destruct (attention_state p); [by destruct (can_overwrite _ _ _)|done]|].
  rewrite El, Ei, Ec. clear El Ei Ec. revert C W S. unfold updates_summary. cbn -[can_overwrite].
  destruct (agent_metadata p) as [agent|]; cbn -[can_overwrite].
  2:{ intros _ W S. repeat (split; [by try done; destruct (attention_state p)|]). auto. }
  intros C W S. inv_ok C. split; [|split; [|split; [|split; [done|by split]]]].
  - intros X. apply U. by destruct (work_fields agent).
  - intros X E. destruct (is_omitted (summary_update agent)); [done|]. apply U in C. by rewrite E in C.
  - by destruct (attention_state p).
Qed.
End patch_facts.

Section atomic.
Context {File : Type} (to_json : RevisionedSession → File)
  (from_json : File → option RevisionedSession).

(** A patch is applied as a whole or not at all: on any error, the conflict of a revision
    the agent did not read among them, the store is as before; on success the record that
    was patched is the one of the revision the agent read. *)
Theorem patch_all_or_nothing places now_summary now_activity d now session expected p s s' out :
  apply_agent_patch to_json from_json places now_summary now_activity d now session expected p s
  = (s', out) →
  match out with
  | Err _ => files s' = files s ∧ owners s' = owners s
  | Ok r => record_revision r = expected + 1
            ∧ files s' = <[session := (to_json r, stamp d)]> (files s)
  end.
Proof.
  unfold apply_agent_patch.
  destruct (update_session_locked _ _ _ _ _ _ _ _ _) as [s1 reply] eqn:E.
  apply update_effect in E. destruct reply; intros [= <- <-]; try (by destruct E as (? & ? & _)).
  destruct E as ((F & _) & R). cbn in R. to_prop. by split.
Qed.

(** A patch of a revision that is not the latest is a conflict. *)
Theorem stale_patch_conflicts places now_summary now_activity d now session expected p s r :
  read_latest from_json d session s = Ok r → record_revision r ≠ expected →
  apply_agent_patch to_json from_json places now_summary now_activity d now session expected p s
  = (s, Err PatchErrorConflict).
Proof.
  intros R N. unfold apply_agent_patch, update_session_locked. rewrite R. cbn.
  unfold eqb. by rewrite bool_decide_eq_false_2.
Qed.
End atomic.

(** ** A concrete patch *)

Definition no_places : Places :=
  mkPlaces (λ _ _, None) (λ _, None) (λ _ _, None) (λ _, None) (λ _, None) None.
Definition demo_state : AttentionState :=
  mkState (Some "waiting_for_input") (Some true) (Some (ascii "Which branch?")) (Some [ascii "main"]).
Definition demo_patch : AgentPatch := mkPatch (Some demo_state) None.
Definition demo_patched : SessionMetadata * option PlanReference :=
  Eval vm_compute in
    match apply_patch no_places "t1" "t1" demo_patch (waiting_demo None) with
    | Ok x => x
    | Err _ => (waiting_demo None, None)
    end.

Lemma valid_patch_gives_prompt_tuple_witness : prompt_tuple (att demo_patched.1).
Proof.
  apply (valid_patch_gives_prompt_tuple no_places "t1" "t1" demo_patch demo_state (waiting_demo None)
           demo_patched); vm_compute; reflexivity.
Defined.
Lemma patch_applies_by_right_witness :
  source_of (waiting_demo None) ≠ "user" ∧ work demo_patched.1 = work (waiting_demo None).
Proof.
  destruct (patch_applies_by_right no_places "t1" "t1" demo_patch (waiting_demo None) demo_patched)
    as (_ & _ & _ & H & _ & _ & _ & W & _); [vm_compute; reflexivity|].
  split; [apply H; reflexivity|apply W; reflexivity].
Defined.
