(* ===== verification/ObservationLog.v ===== *)
(** * The records of the workflow-observation log

    The part of [workflow_observations.rs] that keeps no state: the records, what a
    candidate must satisfy, fingerprints and hashes, the time windows, the anti-spam
    rule, and the text form of a segment with the parser that tolerates a damaged
    file.  ObservationStore.v has the store itself.

    A text is the list of its characters, a file the list of its bytes.  What the derived
    [Serialize] and [Deserialize] of a record make of its fields is defined here; the
    text of a JSON object is an argument.  Arguments, in [LogLibrary]: Unicode
    normalisation and lower case, SHA-256 in hexadecimal, chrono's printer and parser of
    instants (nanoseconds), serde_json's printer and parser, and its messages. *)
From S2P Require Export Floats ObservationKinds.

Abbreviation text := (list Z).

Definition MAX_DESCRIPTION_CHARS : nat := 500.
Definition MAX_EVIDENCE_CHARS : nat := Z.to_nat 2000.
Definition MAX_PROBLEM_AREA_CHARS : nat := 120.
Definition MAX_SEGMENT_OBSERVATIONS : nat := Z.to_nat 1000.
Definition MAX_SEGMENT_BYTES : Z := 2 * 1024 * 1024.
Definition MAX_WORKSPACE_OBSERVATIONS : nat := Z.to_nat 10000.
Definition IDEMPOTENCY_WINDOW_SECS : Z := 15 * 60.
Definition MAX_TOMBSTONES : nat := Z.to_nat 1024.
Definition MAX_ACCEPTED_PER_SESSION_MINUTE : nat := 60.
Definition RATE_LIMIT_WINDOW_SECS : Z := 60.
Definition SPAM_WINDOW_SECS : Z := 30 * 60.
(** 0.9 *)
Definition AGENT_CONFIDENCE : f64 := S754_finite false 8106479329266893 (-53).
#[global] Arguments MAX_DESCRIPTION_CHARS : simpl never.
#[global] Arguments MAX_EVIDENCE_CHARS : simpl never.
#[global] Arguments MAX_SEGMENT_OBSERVATIONS : simpl never.
#[global] Arguments MAX_WORKSPACE_OBSERVATIONS : simpl never.
#[global] Arguments MAX_TOMBSTONES : simpl never.
#[global] Opaque MAX_EVIDENCE_CHARS MAX_SEGMENT_OBSERVATIONS MAX_WORKSPACE_OBSERVATIONS MAX_TOMBSTONES.

(** [chrono::Duration::seconds], in nanoseconds. *)
Definition seconds (n : Z) : Z := n * 1000000000.

(** [is_empty]. *)
Definition is_nil {A} (l : list A) : bool := match l with [] => true | _ => false end.

(** ** Data *)

Inductive ObservationOrigin : Type := AgentOrigin | PeonOrigin.

Record ObservationCandidate : Type := mkCandidate {
  cand_kind : ObservationKind;
  cand_description : text;
  cand_evidence : text;
  cand_problem_area : option text;
  cand_impact : Impact;
  cand_confidence : option f64;
}.

Record WorkflowObservation : Type := mkObservation {
  id : text;
  sequence : Z;
  session_id : text;
  observed_at : text;
  kind : ObservationKind;
  description : text;
  evidence : text;
  problem_area : option text;
  reported_impact : Impact;
  source : ObservationSource;
  confidence : f64;
  fingerprint : text;
}.

Record StoredObservation : Type := mkStored {
  observation : WorkflowObservation;
  idempotency_key_hash : text;
  payload_hash : text;
}.

Record Tombstone : Type := mkTombstone {
  tomb_key_hash : text;
  tomb_payload_hash : text;
  tomb_observation_id : text;
  tomb_sequence : Z;
  accepted_at : text;
}.

Record ObservationDiagnostic : Type := mkDiagnostic {
  code : string;
  message : text;
  diagnostic_session : option text;
}.

Inductive RecordError : Type :=
  | EmptySessionId | EmptyIdempotencyKey | EmptyDescription | DescriptionTooLong
  | EmptyEvidence | EvidenceTooLong | EmptyProblemArea | ProblemAreaContainsControl
  | MissingConfidence | ConfidenceOutOfRange | IdempotencyConflict | Degraded
  | PersistFailed | RateLimited.

Inductive ParsedLine : Type :=
  | ObservationLine (o : StoredObservation)
  | TombstoneLine (t : Tombstone).

(** ** Values of serde_json *)

(** The member of an object.  [JUnit t] is an object with the one member [t], which is
    null; [JOther] a boolean, an array or another object. *)
Inductive Field : Type :=
  | JNull
  | JInteger (n : Z)
  | JFloat (x : f64)
  | JText (t : text)
  | JUnit (t : text)
  | JOther.
Abbreviation Fields := (gmap text Field).
Inductive Json : Type := Members (fields : Fields) | NotAnObject.

(** What the parser of a field takes. *)
Definition get_text (k : string) (fields : Fields) : option text :=
  match fields !! bytes_of k with Some (JText t) => Some t | _ => None end.
Definition get_u64 (k : string) (fields : Fields) : option Z :=
  match fields !! bytes_of k with
  | Some (JInteger n) => if (0 <=? n) && (n <=? u64_max) then Some n else None
  | _ => None
  end.
Definition get_f64 (k : string) (fields : Fields) : option f64 :=
  match fields !! bytes_of k with
  | Some (JFloat x) => Some x
  | Some (JInteger n) => Some (binary_normalize 53 1024 n 0 false)
  | _ => None
  end.
Definition get_option_text (k : string) (fields : Fields) : option (option text) :=
  match fields !! bytes_of k with
  | None | Some JNull => Some None
  | Some (JText t) => Some (Some t)
  | _ => None
  end.
(** An enum without data: its name, or an object with the name as its one key. *)
Definition get_variant {A} (name : A → text) (variants : list A) (k : string) (fields : Fields) : option A :=
  match fields !! bytes_of k with
  | Some (JText t | JUnit t) => List.find (λ v, name v == t) variants
  | _ => None
  end.
Definition source_str (s : ObservationSource) : text :=
  bytes_of match s with Agent => "agent" | Peon => "peon" end.
Definition kinds : list ObservationKind :=
  [Repetition; Obstacle; MissingContext; Assumption; Correction; Workaround; VerificationGap].

(** [to_value]: a number that is not finite is null. *)
Definition float_field (x : f64) : Field := if is_finite x then JFloat x else JNull.
Definition observation_value (o : StoredObservation) : Fields :=
  let w := observation o in
  list_to_map
    [(bytes_of "id", JText (id w)); (bytes_of "sequence", JInteger (sequence w));
     (bytes_of "sessionId", JText (session_id w)); (bytes_of "observedAt", JText (observed_at w));
     (bytes_of "kind", JText (kind_str (kind w))); (bytes_of "description", JText (description w));
     (bytes_of "evidence", JText (evidence w));
     (bytes_of "problemArea", match problem_area w with Some a => JText a | None => JNull end);
     (bytes_of "reportedImpact", JText (impact_str (reported_impact w)));
     (bytes_of "source", JText (source_str (source w))); (bytes_of "confidence", float_field (confidence w));
     (bytes_of "fingerprint", JText (fingerprint w));
     (bytes_of "idempotencyKeyHash", JText (idempotency_key_hash o));
     (bytes_of "payloadHash", JText (payload_hash o))].
Definition tombstone_value (t : Tombstone) : Fields :=
  list_to_map
    [(bytes_of "idempotencyKeyHash", JText (tomb_key_hash t)); (bytes_of "payloadHash", JText (tomb_payload_hash t));
     (bytes_of "observationId", JText (tomb_observation_id t)); (bytes_of "sequence", JInteger (tomb_sequence t));
     (bytes_of "acceptedAt", JText (accepted_at t))].
Definition insert_record (tag : text) (fields : Fields) : Fields := <[bytes_of "record" := JText tag]> fields.

(** [from_value]; other members are passed over. *)
Definition observation_of_fields (m : Fields) : option StoredObservation :=
  i ← get_text "id" m; n ← get_u64 "sequence" m; s ← get_text "sessionId" m; t ← get_text "observedAt" m;
  k ← get_variant kind_str kinds "kind" m; d ← get_text "description" m; e ← get_text "evidence" m;
  a ← get_option_text "problemArea" m; r ← get_variant impact_str [Low; Medium; High] "reportedImpact" m;
  src ← get_variant source_str [Agent; Peon] "source" m; c ← get_f64 "confidence" m;
  f ← get_text "fingerprint" m; key ← get_text "idempotencyKeyHash" m; payload ← get_text "payloadHash" m;
  Some (mkStored (mkObservation i n s t k d e a r src c f) key payload).
Definition tombstone_of_fields (m : Fields) : option Tombstone :=
  key ← get_text "idempotencyKeyHash" m; payload ← get_text "payloadHash" m;
  i ← get_text "observationId" m; n ← get_u64 "sequence" m; t ← get_text "acceptedAt" m;
  Some (mkTombstone key payload i n t).
(** [value.get("record").and_then(as_str)]. *)
Definition record_field (value : Json) : option text :=
  match value with Members m => get_text "record" m | NotAnObject => None end.

(** ** Code of other crates *)

Class LogLibrary : Type := {
  (** unicode-normalization, [char::to_lowercase] *)
  nfkc : text → text;
  to_lowercase : Z → text;
  (** [hex::encode] of SHA-256 *)
  sha256_hex : list Z → text;
  (** chrono *)
  to_rfc3339 : Z → text;
  parse_from_rfc3339 : text → option Z;
  (** serde_json: [from_slice], [to_string], the message of an error of [from_value], and
      the number that its parser reads where its printer wrote this one *)
  from_slice : list Z → result text Json;
  json_to_string : Fields → list Z;
  from_value_error : Json → text;
  reread : f64 → f64;
}.

Section log.
Context `{LogLibrary}.

(** ** Candidates *)

(** The loop of [normalize_description]. *)
Fixpoint collapse (last_was_space : bool) (cs : text) : text :=
  match cs with
  | [] => []
  | c :: cs =>
      if is_whitespace c
      then if last_was_space then collapse true cs else 0x20 :: collapse true cs
      else to_lowercase c ++ collapse false cs
  end.
Definition normalize_description (description : text) : text := collapse false (trim description).

Definition canonicalize_problem_area (area : text) : result RecordError text :=
  if existsb is_control area then Err ProblemAreaContainsControl
  else
    let canonical := normalize_description (concat (to_lowercase <$> nfkc area)) in
    if is_nil canonical then Err EmptyProblemArea
    else Ok (take MAX_PROBLEM_AREA_CHARS canonical).
(** [as_deref().map(canonicalize_problem_area).transpose()]. *)
Definition canonical_area (area : option text) : result RecordError (option text) :=
  match area with
  | None => Ok None
  | Some a => canonical ← canonicalize_problem_area a; Ok (Some canonical)
  end.

Definition validate_candidate (origin : ObservationOrigin) (c : ObservationCandidate)
    : result RecordError (ObservationSource * f64) :=
  if is_nil (trim (cand_description c)) then Err EmptyDescription
  else if (MAX_DESCRIPTION_CHARS <? length (cand_description c))%nat then Err DescriptionTooLong
  else if is_nil (trim (cand_evidence c)) then Err EmptyEvidence
  else if (MAX_EVIDENCE_CHARS <? length (cand_evidence c))%nat then Err EvidenceTooLong
  else
    sc ← match origin with
         | AgentOrigin => Ok (Agent, AGENT_CONFIDENCE)
         | PeonOrigin =>
             c ← ok_or MissingConfidence (cand_confidence c);
             if SFleb f_zero c && SFleb c f_one then Ok (Peon, c) else Err ConfidenceOutOfRange
         end;
    _ ← canonical_area (cand_problem_area c);
    Ok sc.
Definition validate_peon (c : ObservationCandidate) : result RecordError unit :=
  _ ← validate_candidate PeonOrigin c; Ok tt.

(** ** Fingerprints and hashes *)

Definition fingerprint_v2 (k : ObservationKind) (area : text) : text :=
  bytes_of "v2:" ++ kind_str k ++ [0x3a] ++ sha256_hex (kind_str k ++ [0] ++ encode area).
Definition fingerprint_of (c : ObservationCandidate) (area : option text) : text :=
  match area with
  | Some area => fingerprint_v2 (cand_kind c) area
  | None => bytes_of "v1:" ++ kind_str (cand_kind c) ++ [0x3a]
            ++ normalize_description (cand_description c)
  end.
Definition hash_key (session key : text) : text := sha256_hex (encode session ++ [0] ++ encode key).
Definition hash_payload (k : ObservationKind) (description evidence : text) (i : Impact)
    (area : option text) : text :=
  sha256_hex (kind_str k ++ [0] ++ encode description ++ [0] ++ encode evidence ++ [0]
              ++ impact_str i
              ++ match area with Some a => 0 :: encode a | None => [] end).

(** ** Windows of time *)

Definition within (secs now : Z) (iso : text) : bool :=
  match parse_from_rfc3339 iso with
  | Some t => now - t <=? seconds secs
  | None => false
  end.
Definition within_window : Z → text → bool := within IDEMPOTENCY_WINDOW_SECS.
Definition within_rate_window : Z → text → bool := within RATE_LIMIT_WINDOW_SECS.

Definition tombstone_of (o : StoredObservation) : Tombstone :=
  mkTombstone (idempotency_key_hash o) (payload_hash o) (id (observation o))
    (sequence (observation o)) (observed_at (observation o)).
Definition maybe_tombstone (now : Z) (tombs : list Tombstone) (evicted : StoredObservation)
    : list Tombstone :=
  if within_window now (observed_at (observation evicted))
  then tombs ++ [tombstone_of evicted] else tombs.

(** ** The anti-spam rule *)

Definition time_of (o : StoredObservation) : option Z :=
  parse_from_rfc3339 (observed_at (observation o)).

(** The walk along the occurrences of one fingerprint: [last] is when the last kept
    one was observed. *)
Fixpoint group_drops (protected : gset text) (cutoff : Z) (last : option Z)
    (group : list (nat * StoredObservation)) : list nat :=
  match group with
  | [] => []
  | (index, o) :: rest =>
      if bool_decide (id (observation o) ∈ protected)
      then group_drops protected cutoff (opt_or (time_of o) last) rest
      else if is_nil rest
      then group_drops protected cutoff (opt_or (time_of o) last) rest
      else
        match time_of o with
        | None => group_drops protected cutoff last rest
        | Some observed =>
            match last with
            | None => group_drops protected cutoff (Some observed) rest
            | Some prev =>
                let gap := observed - prev in
                if (0 <=? gap) && (gap <=? cutoff)
                then index :: group_drops protected cutoff last rest
                else group_drops protected cutoff (Some observed) rest
            end
        end
  end.

(** [by_fingerprint]: the occurrences the peon reported, in order. *)
Definition enumerate (os : list StoredObservation) : list (nat * StoredObservation) :=
  imap pair os.
Definition add_occurrence (m : gmap text (list (nat * StoredObservation)))
    (io : nat * StoredObservation) : gmap text (list (nat * StoredObservation)) :=
  if source (observation io.2) == Peon
  then let f := fingerprint (observation io.2) in <[f := default [] (m !! f) ++ [io]]> m
  else m.
Definition by_fingerprint (os : list StoredObservation)
    : gmap text (list (nat * StoredObservation)) :=
  fold_left add_occurrence (enumerate os) ∅.

Definition add_drops (protected : gset text) (cutoff : Z) (_ : text)
    (group : list (nat * StoredObservation)) (drops : gset nat) : gset nat :=
  if (length group <? 2)%nat then drops
  else list_to_set (group_drops protected cutoff None group) ∪ drops.
Definition session_drop_indices (os : list StoredObservation) (protected : gset text)
    (cutoff : Z) : gset nat :=
  if (length os <? 2)%nat then ∅
  else map_fold (add_drops protected cutoff) ∅ (by_fingerprint os).

(** ** Segments *)

Definition serialize_observation_line (o : StoredObservation) : list Z :=
  json_to_string (insert_record (bytes_of "observation") (observation_value o)).
Definition serialize_tombstone_line (t : Tombstone) : list Z :=
  json_to_string (insert_record (bytes_of "tombstone") (tombstone_value t)).
Definition newline : Z := 10.
Definition observation_line (o : StoredObservation) : list Z :=
  serialize_observation_line o ++ [newline].
Definition tombstone_line (t : Tombstone) : list Z := serialize_tombstone_line t ++ [newline].
Definition segment_bytes (tombs : list Tombstone) (obs : list StoredObservation) : list Z :=
  concat (tombstone_line <$> tombs) ++ concat (observation_line <$> obs).
(** [segment_size]: the sum of the lengths of the lines. *)
Definition segment_size (tombs : list Tombstone) (obs : list StoredObservation) : Z :=
  Z.of_nat (length (segment_bytes tombs obs)).

Definition from_value {A} (f : Fields → option A) (value : Json) : result text A :=
  match value with
  | Members m => ok_or (from_value_error value) (f m)
  | NotAnObject => Err (from_value_error value)
  end.
Definition parse_line (bytes : list Z) : result text ParsedLine :=
  value ← from_slice bytes;
  record_type ← ok_or (bytes_of "missing 'record' field") (record_field value);
  if record_type == bytes_of "observation"
  then o ← from_value observation_of_fields value; Ok (ObservationLine o)
  else if record_type == bytes_of "tombstone"
  then t ← from_value tombstone_of_fields value; Ok (TombstoneLine t)
  else Err (bytes_of "unknown record type '" ++ record_type ++ bytes_of "'").

Record ParsedSegment : Type := mkParsed {
  parsed_observations : list StoredObservation;
  parsed_tombstones : list Tombstone;
  parsed_diagnostics : list ObservationDiagnostic;
  crash_tail_valid_len : option nat;
}.

(** [u8::is_ascii_whitespace]. *)
Definition is_ascii_whitespace (b : Z) : bool :=
  (b =? 0x20) || (b =? 9) || (b =? 10) || (b =? 12) || (b =? 13).

Definition crash_tail (session reason : text) : ObservationDiagnostic :=
  mkDiagnostic "crash_tail_truncated"
    (bytes_of "Recovered a partial trailing workflow-observation record (" ++ reason
     ++ bytes_of "); truncated to the last complete entry.") (Some session).
Definition interior_corruption (session reason : text) : ObservationDiagnostic :=
  mkDiagnostic "interior_corruption"
    (bytes_of "Skipped an unreadable workflow-observation record (" ++ reason
     ++ bytes_of "); analysis for this session is degraded.") (Some session).

(** The loop of [tolerant_parse] over the bytes that are left; [consumed] counts the
    bytes before them.  Every round takes at least one byte. *)
Fixpoint parse_loop (fuel : nat) (session : text) (bytes : list Z) (consumed : nat)
    (acc : ParsedSegment) : ParsedSegment :=
  match fuel, bytes with
  | O, _ | _, [] => acc
  | S fuel, _ =>
      let '(line, chunk_len) :=
        match position (Z.eqb newline) bytes with
        | Some rel => (take rel bytes, S rel)
        | None => (bytes, length bytes)
        end in
      let rest := drop chunk_len bytes in
      let next := parse_loop fuel session rest (consumed + chunk_len) in
      if forallb is_ascii_whitespace line then next acc
      else
        match parse_line line with
        | Ok (ObservationLine o) =>
            next (mkParsed (parsed_observations acc ++ [o]) (parsed_tombstones acc)
                    (parsed_diagnostics acc) (crash_tail_valid_len acc))
        | Ok (TombstoneLine t) =>
            next (mkParsed (parsed_observations acc) (parsed_tombstones acc ++ [t])
                    (parsed_diagnostics acc) (crash_tail_valid_len acc))
        | Err reason =>
            if is_nil rest
            then mkParsed (parsed_observations acc) (parsed_tombstones acc)
                   (parsed_diagnostics acc ++ [crash_tail session reason]) (Some consumed)
            else next (mkParsed (parsed_observations acc) (parsed_tombstones acc)
                         (parsed_diagnostics acc ++ [interior_corruption session reason])
                         (crash_tail_valid_len acc))
        end
  end.
Definition empty_segment : ParsedSegment := mkParsed [] [] [] None.
Definition tolerant_parse (session : text) (bytes : list Z) : ParsedSegment :=
  parse_loop (length bytes) session bytes 0 empty_segment.
End log.

(** ** Lemmas on the anti-spam rule *)

Section rule.
Context `{LogLibrary} (protected : gset text) (cutoff : Z).
Implicit Types (o p : StoredObservation) (os : list StoredObservation)
  (g : list (nat * StoredObservation)).

(** The occurrences that share a fingerprint. *)
Definition fits (f : text) o : Prop :=
  source (observation o) = Peon ∧ fingerprint (observation o) = f.
#[export] Instance fits_dec f o : Decision (fits f o).
Proof. unfold fits. apply _. Defined.
Definition occurrences (f : text) g : list (nat * StoredObservation) := filter (λ io, fits f io.2) g.

Lemma fold_occurrences g m f :
  default [] (fold_left add_occurrence g m !! f) = default [] (m !! f) ++ occurrences f g.
Proof.
  revert m. induction g as [|io g IH]; intros m; cbn [fold_left].
  { by rewrite app_nil_r. }
  rewrite IH. unfold add_occurrence, occurrences. rewrite filter_cons.
  destruct (eqb _ Peon) eqn:E; to_prop.
  - destruct (decide (fingerprint (observation io.2) = f)) as [<-|Hne].
    + rewrite lookup_insert_eq, decide_True by done. cbn. by rewrite <-app_assoc.
    + rewrite lookup_insert_ne by done. rewrite decide_False by (intros [_ ?]; done). done.
  - rewrite decide_False by (intros [? _]; done). done.
Qed.
Lemma by_fingerprint_lookup os f :
  default [] (by_fingerprint os !! f) = occurrences f (enumerate os).
Proof. unfold by_fingerprint. by rewrite fold_occurrences, lookup_empty. Qed.

Lemma group_drops_short last g :
  (length g < 2)%nat → group_drops protected cutoff last g = [].
Proof. destruct g as [|[i o] [|? g]]; cbn; [done| |lia]. by case_match. Qed.

Lemma map_fold_drops m i :
  i ∈ map_fold (add_drops protected cutoff) ∅ m ↔
  ∃ f, i ∈ group_drops protected cutoff None (default [] (m !! f)).
Proof.
  apply (map_fold_weak_ind (λ (r : gset nat) m,
    i ∈ r ↔ ∃ f, i ∈ group_drops protected cutoff None (default [] (m !! f)))); clear m.
  { split; [set_solver|]. intros [f Hf]. rewrite lookup_empty in Hf. by apply elem_of_nil in Hf. }
  intros f g m r Hf IH. trans (i ∈ group_drops protected cutoff None g ∨ i ∈ r).
  { unfold add_drops. destruct (Nat.ltb_spec (length g) 2).
    - rewrite group_drops_short by done. set_solver.
    - rewrite elem_of_union, elem_of_list_to_set. done. }
  rewrite IH. split.
  - intros [Hi|[f' Hi]].
    + exists f. by rewrite lookup_insert_eq.
    + exists f'. destruct (decide (f = f')) as [<-|]; [|by rewrite lookup_insert_ne].
      rewrite Hf in Hi. by apply elem_of_nil in Hi.
  - intros [f' Hi]. destruct (decide (f = f')) as [<-|]; [left; by rewrite lookup_insert_eq in Hi|].
    right. exists f'. by rewrite lookup_insert_ne in Hi.
Qed.

(** What the rule drops: the drops of each fingerprint's occurrences. *)
Lemma elem_of_drops os i :
  i ∈ session_drop_indices os protected cutoff ↔
  ∃ f, i ∈ group_drops protected cutoff None (occurrences f (enumerate os)).
Proof.
  unfold session_drop_indices. destruct (Nat.ltb_spec (length os) 2).
  - split; [set_solver|]. intros [f Hi]. rewrite group_drops_short in Hi; [by apply elem_of_nil in Hi|].
    unfold occurrences, enumerate.
    pose proof (length_filter (λ io, fits f io.2) (imap pair os)). rewrite length_imap in *. lia.
  - rewrite map_fold_drops. by setoid_rewrite by_fingerprint_lookup.
Qed.

Lemma elem_of_enumerate os i o : (i, o) ∈ enumerate os ↔ os !! i = Some o.
Proof.
  unfold enumerate. rewrite elem_of_lookup_imap. split.
  - intros (j & p & [= -> ->] & Hj). done.
  - intros Hi. by exists i, o.
Qed.

Definition sorted_indices g : Prop := StronglySorted lt g.*1.
Lemma enumerate_sorted os : sorted_indices (enumerate os).
Proof.
  unfold sorted_indices, enumerate. rewrite fmap_imap.
  assert (imap (λ i x, fst (i, x)) os = seq 0 (length os)) as E.
  { change (imap (λ (i : nat) (_ : StoredObservation), (0 + i)%nat) os = seq 0 (length os)).
    generalize 0%nat. induction os as [|o os IH]; intros n; [done|]. cbn. rewrite Nat.add_0_r. f_equal.
    rewrite <-IH. apply imap_ext. intros; cbn; lia. }
  unfold compose. rewrite E. clear E. generalize 0%nat. induction (length os) as [|k IH]; intros n; cbn; [constructor|].
  constructor; [apply IH|]. rewrite Forall_forall. intros x Hx%elem_of_seq. lia.
Qed.
Lemma filter_sorted f g : sorted_indices g → sorted_indices (occurrences f g).
Proof.
  unfold sorted_indices, occurrences. induction g as [|io g IH]; intros Hg; [constructor|].
  cbn in Hg. apply StronglySorted_inv in Hg as [Hg Hio]. rewrite filter_cons. case_decide; [|auto].
  cbn. constructor; [auto|]. rewrite Forall_forall in *. intros x (jo & -> & [_ Hj]%list_elem_of_filter)%list_elem_of_fmap.
  apply Hio, list_elem_of_fmap. eauto.
Qed.

(** The facts about the walk: a dropped occurrence is unprotected, neither the first nor
    the last, and follows a kept one within the cutoff. *)
Definition kept_before g (drops : list nat) (i : nat) (t : Z) : Prop :=
  ∃ k p, ((k, p) ∈ g) ∧ (k < i)%nat ∧ (k ∉ drops) ∧ time_of p = Some t.
Lemma group_drops_in last g i : i ∈ group_drops protected cutoff last g → i ∈ g.*1.
Proof.
  revert last. induction g as [|[j o] g IH]; intros last; cbn [group_drops fmap list_fmap fst]; [done|].
  rewrite elem_of_cons. repeat case_match; rewrite ?elem_of_cons; naive_solver.
Qed.

(** One occurrence is dropped, or the walk goes on with another time. *)
Lemma group_drops_cons last i o g :
  (∃ last', (last' = last ∨ last' = time_of o)
     ∧ group_drops protected cutoff last ((i, o) :: g) = group_drops protected cutoff last' g)
  ∨ (∃ t u, last = Some t ∧ time_of o = Some u ∧ 0 <= u - t <= cutoff
     ∧ (id (observation o) ∉ protected) ∧ g ≠ []
     ∧ group_drops protected cutoff last ((i, o) :: g) = i :: group_drops protected cutoff last g).
Proof.
  assert (Hor : opt_or (time_of o) last = last ∨ opt_or (time_of o) last = time_of o)
    by (destruct (time_of o); auto).
  cbn [group_drops]. case_bool_decide as Hp; [left; eauto|].
  destruct g as [|jp g]; [left; eauto|]. cbn [is_nil].
  destruct (time_of o) as [u|] eqn:Eu; [|left; eauto]. destruct last as [t|]; [|left; eauto].
  destruct (_ && _) eqn:E; [|left; eauto]. right. exists t, u. to_prop. repeat split; try done; lia.
Qed.

Lemma kept_before_cons i0 o0 g drops drops' i t :
  kept_before g drops i t → (∀ k, k ∈ g.*1 → k ∈ drops' → k ∈ drops) →
  kept_before ((i0, o0) :: g) drops' i t.
Proof.
  intros (k & p & Hk & Hlt & Hn & Ht) Hd. exists k, p. rewrite elem_of_cons.
  repeat split; [by right|done| |done]. intros Hin. apply Hn, Hd; [|done].
  apply list_elem_of_fmap. by exists (k, p).
Qed.

Definition later g (i : nat) : Prop := ∃ j p, ((j, p) ∈ g) ∧ (i < j)%nat.

Lemma group_drops_spec last g i :
  sorted_indices g → i ∈ group_drops protected cutoff last g →
  ∃ o t u, ((i, o) ∈ g) ∧ (id (observation o) ∉ protected) ∧ time_of o = Some u
    ∧ 0 <= u - t <= cutoff
    ∧ (last = Some t ∨ kept_before g (group_drops protected cutoff last g) i t)
    ∧ later g i.
Proof.
  revert last. induction g as [|[j o] g IH]; intros last Hs Hi; [by apply elem_of_nil in Hi|].
  unfold sorted_indices in *. cbn in Hs. apply StronglySorted_inv in Hs as [Hs Hj].
  rewrite Forall_forall in Hj.
  assert (Hfresh : ∀ last', j ∉ group_drops protected cutoff last' g).
  { intros last' Hin%group_drops_in. apply Hj in Hin. cbn in Hin. lia. }
  destruct (group_drops_cons last j o g)
    as [(last' & Hl & E)|(t & u & -> & Hu & Hg & Hp & Hne & E)]; rewrite E in Hi |- *.
  - destruct (IH last' Hs Hi) as (o' & t & u & Ho & Hp & Hu & Hg & Hk & k & q & Hk1 & Hk2).
    exists o', t, u. unfold later. rewrite elem_of_cons. repeat split; try tauto; try lia.
    + destruct Hk as [->|Hk]; [|right; eapply kept_before_cons; eauto].
      destruct Hl as [<-|Hl]; [by left|]. right. exists j, o. rewrite elem_of_cons.
      repeat split; [by left| |apply Hfresh|done]. apply Hj. by eapply group_drops_in.
    + exists k, q. rewrite elem_of_cons. auto.
  - apply elem_of_cons in Hi as [->|Hi].
    + exists o, t, u. rewrite elem_of_cons. repeat split; try tauto; try lia.
      destruct g as [|[k q] g]; [done|]. exists k, q. rewrite !elem_of_cons.
      split; [auto|]. apply Hj. cbn. apply elem_of_cons. by left.
    + destruct (IH (Some t) Hs Hi) as (o' & t' & u' & Ho & Hp' & Hu' & Hg' & Hk & k & q & Hk1 & Hk2).
      exists o', t', u'. rewrite elem_of_cons. repeat split; try tauto; try lia.
      * destruct Hk as [|Hk]; [by left|]. right. eapply kept_before_cons; [exact Hk|].
        intros k' Hin. rewrite elem_of_cons. intros [->|]; [|done]. apply Hj in Hin. lia.
      * exists k, q. rewrite elem_of_cons. auto.
Qed.

(** After the drops there is nothing left to drop. *)
Definition keep (drops : list nat) g : list (nat * StoredObservation) :=
  filter (λ io, io.1 ∉ drops) g.
Lemma keep_nonempty last g :
  sorted_indices g → g ≠ [] → keep (group_drops protected cutoff last g) g ≠ [].
Proof.
  intros Hs Hg Hk. destruct (exists_last Hg) as (g0 & [m o] & ->).
  assert (Hm : m ∉ group_drops protected cutoff last (g0 ++ [(m, o)])).
  { intros Hin. destruct (group_drops_spec _ _ _ Hs Hin) as (_ & _ & _ & _ & _ & _ & _ & _ & j & p & Hj & Hlt).
    unfold sorted_indices in Hs. rewrite fmap_app in Hs. apply elem_of_app in Hj as [Hj|Hj].
    - eapply (StronglySorted_app_1_elem_of lt) in Hs; [| |by apply list_elem_of_singleton].
      + cbn in Hs. instantiate (1 := j) in Hs. lia.
      + apply list_elem_of_fmap. by exists (j, p).
    - apply list_elem_of_singleton in Hj as [= -> ->]. lia. }
  unfold keep in Hk. rewrite filter_app in Hk. apply app_nil in Hk as [_ Hk].
  by rewrite filter_cons, decide_True in Hk.
Qed.
Lemma filter_ext_in {A} (P Q : A → Prop) `{∀ x, Decision (P x), ∀ x, Decision (Q x)} (l : list A) :
  (∀ x, x ∈ l → P x ↔ Q x) → filter P l = filter Q l.
Proof.
  induction l as [|x l IH]; intros Hpq; [done|]. rewrite !filter_cons.
  rewrite (decide_ext (P x) (Q x)) by (apply Hpq; by left).
  rewrite IH by (intros y Hy; apply Hpq; by right). done.
Qed.
Lemma keep_cons_fresh drops drops' j o g :
  (∀ k, k ∈ g.*1 → k ∈ drops ↔ k ∈ drops') →
  keep drops ((j, o) :: g) = (if decide (j ∈ drops) then [] else [(j, o)]) ++ keep drops' g.
Proof.
  intros Hd. unfold keep. rewrite filter_cons. cbn [fst].
  assert (filter (λ io, io.1 ∉ drops) g = filter (λ io, io.1 ∉ drops') g) as ->.
  { apply filter_ext_in. intros [k p] Hk. cbn. rewrite (Hd k); [done|].
    apply list_elem_of_fmap. by exists (k, p). }
  by destruct (decide (j ∈ drops)), (decide (j ∉ drops)).
Qed.

Lemma kept_step drops last' j o g g' :
  sorted_indices ((j, o) :: g) → drops = group_drops protected cutoff last' g →
  g'.*2 = (keep drops ((j, o) :: g)).*2 →
  ∃ j' g'', g' = (j', o) :: g'' ∧ g''.*2 = (keep (group_drops protected cutoff last' g) g).*2
    ∧ is_nil g'' = is_nil g.
Proof.
  intros Hs -> E. pose proof Hs as [Hs' Hj]%StronglySorted_inv. rewrite Forall_forall in Hj.
  rewrite (keep_cons_fresh _ (group_drops protected cutoff last' g)) in E by done.
  rewrite decide_False in E.
  2:{ intros Hin%group_drops_in. apply Hj in Hin. cbn in Hin. lia. }
  destruct g' as [|[j' o'] g'']; [done|]. cbn in E. injection E as -> E.
  exists j', g''. repeat split; [done|]. destruct g as [|jo g]; [by apply fmap_nil_inv in E as ->|].
  destruct g''; [|done]. symmetry in E. apply fmap_nil_inv in E. by apply keep_nonempty in E.
Qed.

Lemma group_drops_kept last g g' :
  sorted_indices g → g'.*2 = (keep (group_drops protected cutoff last g) g).*2 →
  group_drops protected cutoff last g' = [].
Proof.
  revert last g'. induction g as [|[j o] g IH]; intros last g' Hs.
  { intros Hg'%fmap_nil_inv. by subst. }
  pose proof Hs as [Hs' Hj]%StronglySorted_inv. rewrite Forall_forall in Hj.
  (* the walks of the two lists take the same branch *)
  assert (Hkept : ∀ last', group_drops protected cutoff last ((j, o) :: g)
                           = group_drops protected cutoff last' g →
    (∀ j' g'', is_nil g'' = is_nil g → group_drops protected cutoff last ((j', o) :: g'')
                           = group_drops protected cutoff last' g'') →
    g'.*2 = (keep (group_drops protected cutoff last ((j, o) :: g)) ((j, o) :: g)).*2 →
    group_drops protected cutoff last g' = []).
  { intros last' E E' Hg'. destruct (kept_step _ last' _ _ _ _ Hs E Hg') as (j' & g'' & -> & Hg'' & Hn).
    rewrite E' by done. by apply IH. }
  destruct (bool_decide (id (observation o) ∈ protected)) eqn:Hp.
  { apply (Hkept (opt_or (time_of o) last)); [|intros j' g'' _]; cbn [group_drops]; by rewrite Hp. }
  destruct (is_nil g) eqn:Hn.
  { apply (Hkept (opt_or (time_of o) last)); [|intros j' g'' Hn']; cbn [group_drops]; rewrite Hp;
      [by rewrite Hn|by rewrite Hn']. }
  destruct (time_of o) as [u|] eqn:Hu.
  2:{ apply (Hkept last); [|intros j' g'' Hn']; cbn [group_drops]; rewrite Hp, Hu;
      [by rewrite Hn|by rewrite Hn']. }
  destruct last as [t|].
  2:{ apply (Hkept (Some u)); [|intros j' g'' Hn']; cbn [group_drops]; rewrite Hp, Hu;
      [by rewrite Hn|by rewrite Hn']. }
  destruct ((0 <=? u - t) && (u - t <=? cutoff)) eqn:Hg.
  2:{ apply (Hkept (Some u)); [|intros j' g'' Hn']; cbn [group_drops]; rewrite Hp, Hu;
      [by rewrite Hn, Hg|by rewrite Hn', Hg]. }
  (* dropped *)
  intros E. apply IH; [done|]. rewrite E. cbn [group_drops]. rewrite Hp, Hu, Hn, Hg.
  rewrite (keep_cons_fresh _ (group_drops protected cutoff (Some t) g)).
  - rewrite decide_True; [done|by left].
  - intros k Hk%Hj. cbn in Hk. rewrite elem_of_cons. split; [intros [->|]; [lia|done]|by right].
Qed.

Lemma filter_snd {A} (P : StoredObservation → Prop) `{∀ x, Decision (P x)}
    (g : list (A * StoredObservation)) : (filter (λ io, P io.2) g).*2 = filter P g.*2.
Proof.
  induction g as [|io g IH]; [done|]. cbn [fmap list_fmap]. rewrite !filter_cons.
  destruct (decide (P io.2)); cbn [fmap list_fmap]; by rewrite IH.
Qed.
Lemma enumerate_snd os : (enumerate os).*2 = os.
Proof.
  unfold enumerate. rewrite fmap_imap. trans ((λ o, o) <$> os); [|apply list_fmap_id].
  apply (imap_const (λ o : StoredObservation, o) os).
Qed.
(** Which fingerprint an index belongs to. *)
Lemma drop_of_occurrence os f i o :
  os !! i = Some o → fits f o →
  i ∈ session_drop_indices os protected cutoff ↔
  i ∈ group_drops protected cutoff None (occurrences f (enumerate os)).
Proof.
  intros Ho [_ Hf]. rewrite elem_of_drops. split; [|eauto]. intros [f' Hi].
  pose proof (group_drops_in _ _ _ Hi) as ([k p] & Hk & [[_ Hf'] Hin]%list_elem_of_filter)%list_elem_of_fmap.
  cbn in Hk, Hf'. subst k. apply elem_of_enumerate in Hin. rewrite Ho in Hin. injection Hin as <-.
  cbn in Hf. by rewrite Hf, Hf' in *.
Qed.

(** The records that are left when some indices go. *)
Definition remaining (drops : gset nat) os : list StoredObservation :=
  (filter (λ io, io.1 ∉ drops) (enumerate os)).*2.

(** What was spam once is not spam again: a second pass of the rule drops nothing. *)
Theorem trim_stable os :
  session_drop_indices (remaining (session_drop_indices os protected cutoff) os) protected cutoff = ∅.
Proof.
  set (D := session_drop_indices os protected cutoff).
  apply set_eq. intros i. rewrite elem_of_drops. split; [|set_solver]. intros [f Hi].
  rewrite (group_drops_kept None (occurrences f (enumerate os))) in Hi.
  - by apply elem_of_nil in Hi.
  - apply filter_sorted, enumerate_sorted.
  - unfold occurrences at 1. rewrite (filter_snd (fits f)), enumerate_snd.
    unfold remaining. rewrite <-(filter_snd (fits f)).
    unfold keep, occurrences. f_equal. rewrite !list_filter_filter.
    apply filter_ext_in. intros [k o] Hk%elem_of_enumerate. cbn.
    pose proof (drop_of_occurrence os f k o Hk) as Hd. fold D in Hd. unfold occurrences in Hd. tauto.
Qed.

(** A dropped record is an unprotected report of the peon, not the latest of its
    fingerprint, and at most the cutoff after an earlier one that stays. *)
Lemma drops_are_spam os i :
  i ∈ session_drop_indices os protected cutoff →
  ∃ o, os !! i = Some o ∧ source (observation o) = Peon ∧ (id (observation o) ∉ protected)
    ∧ (∃ j p, (i < j)%nat ∧ os !! j = Some p ∧ source (observation p) = Peon
              ∧ fingerprint (observation p) = fingerprint (observation o))
    ∧ ∃ k p t u, (k < i)%nat ∧ os !! k = Some p ∧ source (observation p) = Peon
              ∧ fingerprint (observation p) = fingerprint (observation o)
              ∧ (k ∉ session_drop_indices os protected cutoff)
              ∧ time_of p = Some t ∧ time_of o = Some u ∧ 0 <= u - t <= cutoff.
Proof.
  intros [f Hi]%elem_of_drops.
  destruct (group_drops_spec _ _ _ (filter_sorted _ _ (enumerate_sorted _)) Hi)
    as (o & t & u & Ho & Hp & Hu & Hg & Hk & j & q & Hj & Hlt).
  apply list_elem_of_filter in Ho as [[Hs Hf] Ho%elem_of_enumerate]. cbn in Hs, Hf.
  apply list_elem_of_filter in Hj as [[Hsj Hfj] Hj%elem_of_enumerate]. cbn in Hsj, Hfj.
  exists o. split_and!; try done; [exists j, q; split_and!; congruence|].
  destruct Hk as [|(k & p & Hk & Hki & Hd & Ht)]; [done|].
  apply list_elem_of_filter in Hk as [[Hsk Hfk] Hk%elem_of_enumerate]. cbn in Hsk, Hfk.
  exists k, p, t, u. split_and!; try done; try congruence; try lia.
  by rewrite (drop_of_occurrence _ f _ p).
Qed.
End rule.

(** ** What the log relies on

    serde_json prints an object as one line of compact JSON that starts with a brace, and
    accepts neither that text cut short nor one that goes on after the object.  It reads
    it back, but for the last bit of a number with a fraction: without the feature
    float_roundtrip its parser is best effort.  [reread] is what it reads then. *)
Definition reread_field `{LogLibrary} (f : Field) : Field :=
  match f with JFloat x => JFloat (reread x) | _ => f end.
(** What the printer can write: numbers are 64 bits wide and finite. *)
Definition printable (f : Field) : Prop :=
  match f with
  | JInteger n => is_u64 n
  | JFloat x => is_finite x = true
  | JOther => False
  | _ => True
  end.

Class LogLaws `{LogLibrary} : Prop := {
  time_round_trip t : parse_from_rfc3339 (to_rfc3339 t) = Some t;
  read_back (m : Fields) : map_Forall (λ _, printable) m →
    from_slice (json_to_string m) = Ok (Members (reread_field <$> m));
  reread_finite x : is_finite x = true → is_finite (reread x) = true;
  compact_line m : newline ∉ json_to_string m;
  starts_nonblank m : ∃ b r, json_to_string m = b :: r ∧ is_ascii_whitespace b = false;
  cut_short m n : (n < length (json_to_string m))%nat →
    is_ok (from_slice (take n (json_to_string m))) = false;
  trailing_characters m b r : is_ascii_whitespace b = false →
    is_ok (from_slice (json_to_string m ++ b :: r)) = false;
}.

(** A record that a file can keep: its sequence is a [u64] and its confidence a number. *)
Definition numbered (t : Tombstone) : Prop := is_u64 (tomb_sequence t).
Definition confident (o : StoredObservation) : Prop := is_finite (confidence (observation o)) = true.
Definition storable (o : StoredObservation) : Prop := confident o ∧ numbered (tombstone_of o).

(** A record as it is read back. *)
Definition reread_record `{LogLibrary} (o : StoredObservation) : StoredObservation :=
  let w := observation o in
  mkStored (mkObservation (id w) (sequence w) (session_id w) (observed_at w) (kind w)
      (description w) (evidence w) (problem_area w) (reported_impact w) (source w) (reread (confidence w))
      (fingerprint w)) (idempotency_key_hash o) (payload_hash o).

(** ** The fields of a record *)

Section fields.
Context `{LogLaws}.

Lemma get_variant_read {A} (name : A → text) (variants : list A) (k : string) (m : Fields) v :
  m !! bytes_of k = Some (JText (name v)) → List.find (λ x, name x == name v) variants = Some v →
  get_variant name variants k m = Some v.
Proof. unfold get_variant. by intros ->. Qed.
Lemma get_u64_read (k : string) (m : Fields) n :
  m !! bytes_of k = Some (JInteger n) → is_u64 n → get_u64 k m = Some n.
Proof. unfold get_u64. intros -> [H1 H2]. by rewrite (proj2 (Z.leb_le _ _) H1), (proj2 (Z.leb_le _ _) H2). Qed.

(** What is read of the fields of a record is the record. *)
Lemma observation_fields_read o :
  storable o →
  observation_of_fields (reread_field <$> insert_record (bytes_of "observation") (observation_value o))
  = Some (reread_record o).
Proof.
  destruct o as [[i n s t k d e a r src c f] key payload]. intros [Hf Hn]. unfold confident in Hf. cbn in Hf, Hn.
  unfold observation_of_fields.
  assert (Hk : List.find (λ x, kind_str x == kind_str k) kinds = Some k) by by destruct k.
  assert (Hr : List.find (λ x, impact_str x == impact_str r) [Low; Medium; High] = Some r) by by destruct r.
  assert (Hs : List.find (λ x, source_str x == source_str src) [Agent; Peon] = Some src) by by destruct src.
  set (m := reread_field <$> _).
  assert (get_f64 "confidence" m = Some (reread c)) as Hc.
  { unfold get_f64. change (m !! bytes_of "confidence") with (Some (reread_field (float_field c))).
    unfold float_field. by rewrite Hf. }
  assert (get_option_text "problemArea" m = Some a) as Ha by by destruct a.
  rewrite (get_u64_read "sequence" m n), (get_variant_read kind_str kinds "kind" m k),
    (get_variant_read impact_str [Low; Medium; High] "reportedImpact" m r),
    (get_variant_read source_str [Agent; Peon] "source" m src), Ha, Hc by done.
  reflexivity.
Qed.
Lemma tombstone_fields_read t :
  numbered t →
  tombstone_of_fields (reread_field <$> insert_record (bytes_of "tombstone") (tombstone_value t)) = Some t.
Proof.
  destruct t as [key payload i n t]. intros Hn. unfold tombstone_of_fields. set (m := reread_field <$> _).
  rewrite (get_u64_read "sequence" m n) by done. reflexivity.
Qed.
Lemma fields_printable tag (l : list (text * Field)) :
  Forall (λ kx, printable kx.2) l → map_Forall (λ _, printable) (insert_record tag (list_to_map l)).
Proof.
  intros Hl. unfold insert_record. apply map_Forall_insert_2; [done|]. intros k x Hx%elem_of_list_to_map_2.
  rewrite Forall_forall in Hl. apply (Hl (k, x) Hx).
Qed.
Lemma observation_printable o :
  storable o → map_Forall (λ _, printable) (insert_record (bytes_of "observation") (observation_value o)).
Proof.
  intros [Hf Hn]. apply fields_printable. unfold float_field. rewrite Hf.
  repeat constructor; cbn; try apply Hn; [by case_match|done].
Qed.
Lemma tombstone_printable t :
  numbered t → map_Forall (λ _, printable) (insert_record (bytes_of "tombstone") (tombstone_value t)).
Proof. intros Hn. apply fields_printable. repeat constructor; apply Hn. Qed.
Lemma reread_tombstone o : tombstone_of (reread_record o) = tombstone_of o.
Proof. done. Qed.
Lemma reread_tombstones (os : list StoredObservation) : tombstone_of <$> (reread_record <$> os) = tombstone_of <$> os.
Proof. by rewrite <- list_fmap_compose. Qed.
Lemma reread_confident os : Forall confident os → Forall confident (reread_record <$> os).
Proof. intros Hos. apply Forall_fmap. eapply Forall_impl; [exact Hos|]. intros o. apply reread_finite. Qed.

(** What a candidate is accepted with can be kept. *)
Lemma validated_finite origin c src x : validate_candidate origin c = Ok (src, x) → is_finite x = true.
Proof.
  unfold validate_candidate. intros E. repeat (case_match; [done|]).
  apply result_bind_Ok in E as ([src' x'] & Hx & E). apply result_bind_Ok in E as (a & _ & [= -> ->]).
  destruct origin; [by injection Hx as <- <-|].
  apply result_bind_Ok in Hx as (y & _ & Hx). case_match eqn:Hy; [|done]. injection Hx as <- <-.
  by destruct y as [?|[]| |].
Qed.
End fields.

(** ** Lemmas on segments *)

Section segments.
Context `{LogLaws}.
Implicit Types (acc : ParsedSegment) (bytes line : list Z).

Definition add_line (l : ParsedLine) acc : ParsedSegment :=
  match l with
  | ObservationLine o => mkParsed (parsed_observations acc ++ [o]) (parsed_tombstones acc)
                           (parsed_diagnostics acc) (crash_tail_valid_len acc)
  | TombstoneLine t => mkParsed (parsed_observations acc) (parsed_tombstones acc ++ [t])
                         (parsed_diagnostics acc) (crash_tail_valid_len acc)
  end.

Lemma position_newline line rest :
  newline ∉ line → position (Z.eqb newline) (line ++ newline :: rest) = Some (length line).
Proof.
  induction line as [|b line IH]; intros Hn; cbn [app position length]; [by rewrite Z.eqb_refl|].
  apply not_elem_of_cons in Hn as [Hb Hn]. rewrite (proj2 (Z.eqb_neq newline b)) by done. by rewrite IH.
Qed.
Lemma position_no_newline line : newline ∉ line → position (Z.eqb newline) line = None.
Proof.
  intros Hn. apply position_None. intros i b Hi. apply Z.eqb_neq. intros <-.
  apply Hn. by eapply list_elem_of_lookup_2.
Qed.

(** More fuel than bytes changes nothing: every round takes a byte. *)
Lemma parse_loop_fuel fuel fuel' session bytes consumed acc :
  (length bytes <= fuel)%nat → (length bytes <= fuel')%nat →
  parse_loop fuel session bytes consumed acc = parse_loop fuel' session bytes consumed acc.
Proof.
  revert fuel' bytes consumed acc.
  induction fuel as [|fuel IH]; intros [|fuel'] [|b bytes] consumed acc H1 H2; cbn in H1, H2;
    try done; try lia.
  cbn [parse_loop]. set (bs := b :: bytes).
  destruct (match position (Z.eqb newline) bs with
            | Some rel => (take rel bs, S rel) | None => (bs, length bs) end) as [line chunk] eqn:E.
  assert (Hr : (length (drop chunk bs) <= length bytes)%nat).
  { rewrite length_drop. destruct (position _ bs); injection E as _ <-; cbn; lia. }
  repeat case_match; try done; apply IH; lia.
Qed.

(** The rounds of the loop: a complete line, and what comes after the last newline. *)
Lemma parse_good_line session line rest consumed acc l :
  newline ∉ line → forallb is_ascii_whitespace line = false → parse_line line = Ok l →
  parse_loop (length (line ++ newline :: rest)) session (line ++ newline :: rest) consumed acc
  = parse_loop (length rest) session rest (consumed + S (length line)) (add_line l acc).
Proof.
  intros Hn Hb Hl. destruct (line ++ newline :: rest) as [|b bs] eqn:E; [by destruct line|].
  cbn [length parse_loop]. rewrite <-E, (position_newline line rest) by done.
  rewrite take_app_length, Hb, Hl.
  assert (drop (S (length line)) (line ++ newline :: rest) = rest) as ->.
  { change (newline :: rest) with ([newline] ++ rest). rewrite app_assoc.
    rewrite drop_app_length'; [done|]. rewrite length_app. cbn. lia. }
  apply (f_equal length) in E. rewrite length_app in E. cbn in E.
  destruct l; apply parse_loop_fuel; lia.
Qed.
Lemma parse_tail session line consumed acc :
  newline ∉ line → forallb is_ascii_whitespace line = false →
  parse_loop (length line) session line consumed acc =
  match parse_line line with
  | Ok l => add_line l acc
  | Err reason =>
      mkParsed (parsed_observations acc) (parsed_tombstones acc)
        (parsed_diagnostics acc ++ [crash_tail session reason]) (Some consumed)
  end.
Proof.
  intros Hn Hb. destruct line as [|b line]; [done|]. set (bs := b :: line) in *.
  change (length bs) with (S (length line)). cbn [parse_loop].
  unfold bs at 1. rewrite (position_no_newline bs Hn), Hb, drop_ge by done.
  destruct (parse_line bs) as [[o|t]|reason]; cbn [is_nil];
    destruct (length line); reflexivity.
Qed.

Lemma parse_bad_end session line consumed acc reason :
  newline ∉ line → forallb is_ascii_whitespace line = false → parse_line line = Err reason →
  parse_loop (length (line ++ [newline])) session (line ++ [newline]) consumed acc
  = mkParsed (parsed_observations acc) (parsed_tombstones acc)
      (parsed_diagnostics acc ++ [crash_tail session reason]) (Some consumed).
Proof.
  intros Hn Hb Hl. destruct (line ++ [newline]) as [|b bs] eqn:E; [by destruct line|].
  cbn [length parse_loop]. rewrite <-E, (position_newline line []) by done.
  rewrite take_app_length, Hb, Hl, drop_ge; [done|]. rewrite length_app. cbn. lia.
Qed.

Lemma parse_observation o :
  storable o → parse_line (serialize_observation_line o) = Ok (ObservationLine (reread_record o)).
Proof.
  intros Ho. unfold parse_line, serialize_observation_line.
  rewrite read_back by by apply observation_printable. cbn [mbind result_bind]. unfold from_value.
  rewrite observation_fields_read by done. reflexivity.
Qed.
Lemma parse_tombstone t :
  numbered t → parse_line (serialize_tombstone_line t) = Ok (TombstoneLine t).
Proof.
  intros Ht. unfold parse_line, serialize_tombstone_line.
  rewrite read_back by by apply tombstone_printable. cbn [mbind result_bind]. unfold from_value.
  rewrite tombstone_fields_read by done. reflexivity.
Qed.
Lemma json_nonblank j : forallb is_ascii_whitespace (json_to_string j) = false.
Proof. destruct (starts_nonblank j) as (b & r & -> & Hb). cbn. by rewrite Hb. Qed.

(** A whole segment, followed by anything. *)
Lemma parse_tombstones session tombs rest consumed acc :
  Forall numbered tombs →
  parse_loop (length (concat (tombstone_line <$> tombs) ++ rest)) session
    (concat (tombstone_line <$> tombs) ++ rest) consumed acc
  = parse_loop (length rest) session rest
      (consumed + length (concat (tombstone_line <$> tombs)))
      (mkParsed (parsed_observations acc) (parsed_tombstones acc ++ tombs)
         (parsed_diagnostics acc) (crash_tail_valid_len acc)).
Proof.
  intros Ht. revert consumed acc. induction Ht as [|t tombs Ht _ IH]; intros consumed [obs ts ds v].
  { cbn. by rewrite Nat.add_0_r, app_nil_r. }
  cbn [fmap list_fmap concat]. unfold tombstone_line at 1 3 5.
  rewrite <-!app_assoc. cbn [app].
  rewrite (parse_good_line _ _ _ _ _ (TombstoneLine t)).
  - rewrite IH. cbn. f_equal; [rewrite !length_app; cbn; lia|]. by rewrite <-app_assoc.
  - apply compact_line.
  - apply json_nonblank.
  - by apply parse_tombstone.
Qed.
Lemma parse_observations session obs rest consumed acc :
  Forall storable obs →
  parse_loop (length (concat (observation_line <$> obs) ++ rest)) session
    (concat (observation_line <$> obs) ++ rest) consumed acc
  = parse_loop (length rest) session rest
      (consumed + length (concat (observation_line <$> obs)))
      (mkParsed (parsed_observations acc ++ (reread_record <$> obs)) (parsed_tombstones acc)
         (parsed_diagnostics acc) (crash_tail_valid_len acc)).
Proof.
  intros Ho. revert consumed acc. induction Ho as [|o obs Ho _ IH]; intros consumed [os ts ds v].
  { cbn. by rewrite Nat.add_0_r, app_nil_r. }
  cbn [fmap list_fmap concat]. unfold observation_line at 1 3 5.
  rewrite <-!app_assoc. cbn [app].
  rewrite (parse_good_line _ _ _ _ _ (ObservationLine (reread_record o))).
  - rewrite IH. cbn. f_equal; [rewrite !length_app; cbn; lia|]. by rewrite <-app_assoc.
  - apply compact_line.
  - apply json_nonblank.
  - by apply parse_observation.
Qed.
Lemma parse_segment session tombs obs rest :
  Forall numbered tombs → Forall storable obs →
  tolerant_parse session (segment_bytes tombs obs ++ rest)
  = parse_loop (length rest) session rest (length (segment_bytes tombs obs))
      (mkParsed (reread_record <$> obs) tombs [] None).
Proof.
  intros Ht Ho. unfold tolerant_parse, segment_bytes. rewrite <-app_assoc.
  rewrite parse_tombstones, parse_observations by done. cbn. by rewrite length_app.
Qed.
Lemma parse_written session tombs obs :
  Forall numbered tombs → Forall storable obs →
  tolerant_parse session (segment_bytes tombs obs) = mkParsed (reread_record <$> obs) tombs [] None.
Proof.
  intros Ht Ho. pose proof (parse_segment session tombs obs [] Ht Ho) as E. by rewrite app_nil_r in E.
Qed.
End segments.

(** ** What a segment file says *)

Section files.
Context `{LogLaws}.

(** C39: A written segment reads back: the records, in order and without a complaint, each
    with every field as it was, but for the confidence, which is the number that
    serde_json reads where it has printed the confidence.  A report that is accepted has
    a confidence that can be written. *)
Theorem segment_round_trip session tombs obs :
  Forall numbered tombs → Forall storable obs →
  tolerant_parse session (segment_bytes tombs obs) = mkParsed (reread_record <$> obs) tombs [] None
  ∧ ∀ origin c src x, validate_candidate origin c = Ok (src, x) → is_finite x = true.
Proof. intros Ht Ho. split; [by apply parse_written|]. intros origin c src x. apply validated_finite. Qed.

Lemma take_not_blank (o : StoredObservation) n :
  (0 < n)%nat → forallb is_ascii_whitespace (take n (serialize_observation_line o)) = false.
Proof.
  unfold serialize_observation_line. intros Hn.
  destruct (starts_nonblank (insert_record (bytes_of "observation") (observation_value o)))
    as (b & r & -> & Hb). destruct n; [lia|]. cbn. by rewrite Hb.
Qed.

(** C37: An append that stopped after [n] bytes costs no earlier record, and the tail that is
    to be cut off starts exactly where the segment ended. *)
Theorem torn_append_recovered session tombs obs o n :
  Forall numbered tombs → Forall storable obs →
  (n < length (serialize_observation_line o))%nat →
  ∃ ds,
    tolerant_parse session (segment_bytes tombs obs ++ take n (serialize_observation_line o))
    = mkParsed (reread_record <$> obs) tombs ds
        (if (n =? 0)%nat then None else Some (length (segment_bytes tombs obs)))
    ∧ length ds = (if (n =? 0)%nat then 0 else 1)%nat.
Proof.
  intros Ht Ho Hn. rewrite parse_segment by done. destruct (Nat.eqb_spec n 0) as [->|Hn0]; [by exists []|].
  rewrite parse_tail; [|intros Hin; eapply compact_line, subseteq_take; exact Hin
                       |apply take_not_blank; lia].
  unfold parse_line. pose proof (cut_short _ n Hn) as Hc. fold (serialize_observation_line o) in Hc.
  destruct (from_slice _) as [v|e]; [done|]. cbn. eauto.
Qed.

(** A record whose newline is missing is read, but the next one appended to it takes
    both away: the line they make is a damaged tail. *)
Theorem joined_records_lost session tombs obs o p :
  Forall numbered tombs → Forall storable obs →
  ∃ e,
    tolerant_parse session (segment_bytes tombs obs ++ serialize_observation_line o
                            ++ observation_line p)
    = mkParsed (reread_record <$> obs) tombs [crash_tail session e] (Some (length (segment_bytes tombs obs))).
Proof.
  intros Ht0 Ho.
  unfold observation_line. rewrite (app_assoc (serialize_observation_line o)).
  set (line := serialize_observation_line o ++ serialize_observation_line p).
  rewrite (parse_segment session tombs obs (line ++ [newline])) by done.
  destruct (starts_nonblank (insert_record (bytes_of "observation") (observation_value p)))
    as (b & r & Hp & Hb).
  pose proof (trailing_characters (insert_record (bytes_of "observation") (observation_value o)) b r Hb) as Ht. rewrite <-Hp in Ht.
  change (is_ok (from_slice line) = false) in Ht.
  destruct (parse_line line) as [l|e] eqn:El.
  { unfold parse_line in El. by destruct (from_slice line). }
  exists e. rewrite (parse_bad_end _ _ _ _ e); [done| | |done].
  - unfold line. rewrite not_elem_of_app. split; apply compact_line.
  - unfold line. rewrite forallb_app. unfold serialize_observation_line at 1. by rewrite json_nonblank.
Qed.
End files.
