(* ===== verification/Evaluation.v ===== *)
(** * Evaluation of workflow evidence

    [evaluate_workflow_improvements] of taskmaster/mod.rs with its helpers: qualifying
    observations are grouped by fingerprint, and each group of two or more becomes a
    proposal, which continues, succeeds or leaves alone what is on record of its family.

    The groups are in a [HashMap]: the order in which it is iterated is an argument.  So
    is [stable_id], a hash of the standard library that is not specified.  An ["item"] of
    the source is an entry of evidence; a time stamp is compared as a string.  The sum of
    two [u32] or [u64] saturates where the code says so. *)
From S2P Require Import ObservationLog.
From S2P Require Export RecommendationGraph.

Abbreviation Observation := ObservationLog.WorkflowObservation.
Abbreviation obs_id := ObservationLog.id.

Definition u32_max : Z := 4294967295.

(** 0.6 and 0.8 as binary64. *)
Definition f_06 : f64 := S754_finite false 5404319552844595 (-53).
Definition f_08 : f64 := S754_finite false 7205759403792794 (-53).

(** ** Texts *)

Definition target_surface (kind : ObservationKind) : TargetSurface :=
  match kind with
  | MissingContext | Assumption | Correction => Instructions
  | VerificationGap => Test
  | Repetition | Obstacle | Workaround => Tooling
  end.
Definition target_surface_name (surface : TargetSurface) : list Z :=
  bytes_of match surface with
           | Instructions => "instructions" | Skill => "skill" | Test => "test"
           | Tooling => "tooling" | Documentation => "documentation"
           end.
Definition improvement_prefix (kind : ObservationKind) : list Z :=
  bytes_of match kind with
           | Repetition => "Automate or remove repeated work"
           | Obstacle => "Remove or document the obstacle"
           | MissingContext => "Add missing repository context"
           | Assumption => "Make the required assumption explicit"
           | Correction => "Prevent this recurring correction"
           | Workaround => "Replace the workaround with a supported path"
           | VerificationGap => "Add reliable verification for"
           end.
Definition expected_benefit_of (target : TargetSurface) : list Z :=
  bytes_of match target with
           | Instructions => "Agents receive the required context before acting."
           | Skill => "Agents follow one repeatable workflow for this task."
           | Test => "The workflow gains repeatable verification."
           | Tooling => "Agents spend less time on avoidable manual recovery."
           | Documentation => "The supported workflow becomes discoverable."
           end.
Definition source_mix (evidence : list WorkflowObservationEvidence) : list Z :=
  let has_agent := existsb (λ item, source item == Agent) evidence in
  let has_peon := existsb (λ item, source item == Peon) evidence in
  bytes_of match has_agent, has_peon with
           | true, true => "agent and peon" | true, false => "agent"
           | false, true => "peon" | false, false => "unknown"
           end.
Definition unique_session_ids (evidence : list WorkflowObservationEvidence) : list (list Z) :=
  dedup (sort_by key_leb (session_id <$> evidence)).
Definition impact_debug (i : Impact) : list Z :=
  bytes_of match i with Low => "Low" | Medium => "Medium" | High => "High" end.
Definition plural (n : nat) : list Z := if (n =? 1)%nat then [] else bytes_of "s".
Definition reason_text (evidence : list WorkflowObservationEvidence) (sessions : nat) (impact : Impact) : list Z :=
  decimal_u64 (Z.of_nat (length evidence)) ++ bytes_of " qualifying observation" ++ plural (length evidence)
  ++ bytes_of " across " ++ decimal_u64 (Z.of_nat sessions) ++ bytes_of " session" ++ plural sessions
  ++ bytes_of "; highest impact " ++ impact_debug impact ++ bytes_of "; sources: " ++ source_mix evidence
  ++ bytes_of ".".

(** ** Groups *)

Definition qualifying (o : Observation) : bool :=
  if SFltb (ObservationLog.confidence o) f_06 then false
  else negb ((ObservationLog.reported_impact o == High) && SFltb (ObservationLog.confidence o) f_08).
Definition push_group (groups : gmap (list Z) (list Observation)) (o : Observation)
    : gmap (list Z) (list Observation) :=
  if qualifying o then
    <[ObservationLog.fingerprint o := default [] (groups !! ObservationLog.fingerprint o) ++ [o]]> groups
  else groups.
Definition groups_of (observations : list Observation) : gmap (list Z) (list Observation) :=
  fold_left push_group observations ∅.

(** ** What is on record of a family *)

Definition ended_status (s : RecommendationStatus) : bool :=
  match s with
  | Accepted | Completed | Dismissed | Superseded | Expired | Rollup.Failed => true
  | _ => false
  end.
Section family.
Context (existing : list Recommendation).

Definition prior_of (dedupe : list Z) : option Recommendation :=
  match List.filter (λ r, dedupe_key r == dedupe) existing with
  | [] => None
  | r :: rs => Some (max_by (λ l r, str_cmp (updated_at l) (updated_at r)) r rs)
  end.
Definition active_rollup_member (prior : option Recommendation) : option Recommendation :=
  opt_filter (λ r,
    (status r == RolledUp)
    && is_some_and (rolled_up_by r) (λ parent_id, existsb (λ parent,
         (id parent == parent_id) && (status parent == Proposed)
         && one_of (id r) (rollup_member_ids parent)) existing)) prior.
Definition terminal_predecessor (prior : option Recommendation) : option Recommendation :=
  opt_filter (λ r, is_none_or (active_rollup_member prior) (λ active, id active != id r))
    (r ← prior;
     match (if status r == RolledUp then
              parent_id ← rolled_up_by r;
              List.find (λ parent, (id parent == parent_id) && ended_status (status parent)) existing
            else None) with
     | Some parent => Some parent
     | None => if ended_status (status r) || (status r == RolledUp) then Some r else None
     end).
(** The record that a proposal goes on with. *)
Definition continued (prior : option Recommendation) : option Recommendation :=
  opt_filter (λ r, (status r == Proposed)
                   || is_some_and (active_rollup_member prior) (λ active, id active == id r)) prior.
Definition terminal_evidence (prior : option Recommendation) : option (list WorkflowObservationEvidence) :=
  (λ terminal,
     if is_some_and prior (λ r, status r == RolledUp) then default [] (evidence <$> prior)
     else evidence terminal) <$> terminal_predecessor prior.
(** Under way: neither proposed nor at an end. *)
Definition busy (prior : option Recommendation) : bool :=
  is_some_and prior (λ r,
    negb ((status r == Proposed) || (status r == Dismissed))
    && is_none (terminal_predecessor prior) && is_none (active_rollup_member prior)).
End family.

(** ** Evidence *)

Definition cites (items : list WorkflowObservationEvidence) (observation : list Z) : bool :=
  existsb (λ item, observation_id item == observation) items.
Definition evidence_of (o : Observation) : WorkflowObservationEvidence :=
  mkObserved (obs_id o) (ObservationLog.sequence o) (ObservationLog.session_id o) (ObservationLog.kind o)
    (ObservationLog.description o) (ObservationLog.evidence o) (ObservationLog.problem_area o)
    (ObservationLog.reported_impact o) (ObservationLog.source o) (ObservationLog.confidence o)
    (ObservationLog.observed_at o).
Definition cite (items : list WorkflowObservationEvidence) (o : Observation) : list WorkflowObservationEvidence :=
  if cites items (obs_id o) then items else items ++ [evidence_of o].
Definition by_sequence (l r : WorkflowObservationEvidence) : bool := sequence l <=? sequence r.
Definition gather (kept : list WorkflowObservationEvidence) (group : list Observation)
    : list WorkflowObservationEvidence :=
  sort_by by_sequence (fold_left cite group kept).

Definition impact_gtb (a b : Impact) : bool := impact_rank b <? impact_rank a.
Definition max_impact (items : list WorkflowObservationEvidence) : Impact :=
  match reported_impact <$> items with
  | [] => Low
  | i :: rest => max_by impact_cmp i rest
  end.
(** What brings a dismissed family back. *)
Definition resurfaces (mark : option DismissalWatermark) (evidence : list WorkflowObservationEvidence) : bool :=
  let later := List.filter (λ item, is_some_and mark (λ m, dismissed_through_sequence m <? sequence item)) evidence in
  let impact_increased :=
    is_some_and mark (λ m, existsb (λ item, impact_gtb (reported_impact item) (highest_impact m)) evidence) in
  let new_session :=
    is_some_and mark (λ m, existsb (λ item, negb (one_of (session_id item) (watermark_session_ids m))) later) in
  impact_increased || ((2 <=? length later)%nat && new_session).

(** ** Proposals *)

Definition by_obs_sequence (l r : Observation) : bool := ObservationLog.sequence l <=? ObservationLog.sequence r.
Definition dedupe_key_of (fingerprint : list Z) (surface : TargetSurface) : list Z :=
  bytes_of "improve_workflow:v1:" ++ target_surface_name surface ++ bytes_of ":" ++ fingerprint.

Section evaluate.
Context (stable_id : list Z → list (list Z) → list Z).
Context (existing : list Recommendation) (workspace_id now : list Z).

(** The record that is pushed, from the gathered evidence on. *)
Definition build_proposal (dedupe : list Z) (surface : TargetSurface) (prior : option Recommendation)
    (evidence : list WorkflowObservationEvidence) : Recommendation :=
  let active := active_rollup_member existing prior in
  let terminal := terminal_predecessor existing prior in
  let goes_on := continued existing prior in
  let impact := max_impact evidence in
  let sessions := unique_session_ids evidence in
  let observation_ids := observation_id <$> evidence in
  let first_kind := default Repetition (kind <$> head evidence) in
  let improvement := improvement_prefix first_kind ++ bytes_of ": " ++ default [] (description <$> head evidence) in
  mkRecommendation false
    (default (bytes_of "recommendation-" ++ stable_id dedupe observation_ids) (id <$> goes_on))
    workspace_id (default dedupe (chain_id <$> prior))
    (default 0 ((λ r, if is_some terminal then saturating_add u32_max (chain_depth r) 1 else chain_depth r) <$> prior))
    ImproveWorkflow (if is_some active then RolledUp else Proposed) impact
    (bytes_of "Improve " ++ target_surface_name surface) improvement
    [reason_text evidence (length sessions) impact] evidence
    (default [] (repository_evidence <$> goes_on)) (default [] (knowledge_evidence <$> goes_on))
    sessions None
    (if forallb (λ item, SFleb f_08 (confidence item)) evidence then HighConfidence else MediumConfidence)
    false dedupe (default now (created_at <$> goes_on)) now improvement surface observation_ids
    (Z.of_nat (length evidence)) sessions impact (expected_benefit_of surface)
    match active with Some active => supersedes_recommendation_id active | None => id <$> terminal end
    None None None [] []
    match terminal with
    | Some terminal => Some (saturating_add u64_max (default 0 (rollup_generation terminal)) 1)
    | None => active ≫= rollup_generation
    end
    (active ≫= rolled_up_by).

Definition proposal_of (group : list Z * list Observation) : option Recommendation :=
  let observations := sort_by by_obs_sequence group.2 in
  match observations with
  | first :: _ :: _ =>
      let surface := target_surface (ObservationLog.kind first) in
      let dedupe := dedupe_key_of group.1 surface in
      let prior := prior_of existing dedupe in
      if busy existing prior then None
      else if is_some_and (terminal_evidence existing prior) (λ items,
                negb (existsb (λ o, negb (cites items (obs_id o))) observations)) then None
      else
        let gathered := gather (default [] (evidence <$> continued existing prior)) observations in
        if is_some_and (opt_filter (λ r, status r == Dismissed) prior) (λ dismissed,
             negb (resurfaces (dismissal_watermark dismissed) gathered)) then None
        else Some (build_proposal dedupe surface prior gathered)
  | _ => None
  end.

(** How a [HashMap] is iterated. *)
Definition Iteration : Type := gmap (list Z) (list Observation) → list (list Z * list Observation).
Definition evaluate_workflow_improvements (iterate : Iteration) (observations : list Observation)
    : list Recommendation :=
  sort_by (λ l r, key_leb (dedupe_key l) (dedupe_key r)) (omap proposal_of (iterate (groups_of observations))).
End evaluate.

(** ** Groups are exact *)

Definition family (observations : list Observation) (fingerprint : list Z) : list Observation :=
  List.filter (λ o, qualifying o && (ObservationLog.fingerprint o == fingerprint)) observations.

Lemma family_app os os' f : family (os ++ os') f = family os f ++ family os' f.
Proof. apply List.filter_app. Qed.
Lemma groups_of_lookup os f :
  groups_of os !! f = match family os f with [] => None | g => Some g end.
Proof.
  unfold groups_of. induction os as [|o os IH] using rev_ind; [cbn; by rewrite lookup_empty|].
  rewrite fold_left_app, family_app. cbn [fold_left]. unfold push_group at 1.
  change (family [o] f) with (if qualifying o && (ObservationLog.fingerprint o == f) then [o] else []).
  destruct (qualifying o); cbn [andb]; [|by rewrite app_nil_r].
  destruct (ObservationLog.fingerprint o == f) eqn:E.
  - apply eqb_elim in E as <-. rewrite lookup_insert_eq, IH. by destruct (family os _).
  - rewrite lookup_insert_ne by by apply eqb_false. rewrite IH, app_nil_r. done.
Qed.
Lemma groups_of_Some os f g : groups_of os !! f = Some g → g = family os f ∧ g ≠ [].
Proof. rewrite groups_of_lookup. destruct (family os f); [done|]. by intros [= <-]. Qed.

(** A family is told from another by its key. *)
Lemma surface_name_no_colon s s' f f' :
  target_surface_name s ++ bytes_of ":" ++ f = target_surface_name s' ++ bytes_of ":" ++ f' → s = s' ∧ f = f'.
Proof.
  intros H. destruct s, s'; vm_compute in H; try discriminate H; split; try done; by injection H.
Qed.
Lemma dedupe_key_inj f f' s s' : dedupe_key_of f s = dedupe_key_of f' s' → s = s' ∧ f = f'.
Proof. intros H%app_inv_head. by apply surface_name_no_colon. Qed.

(** ** What a proposal is made from *)

Section proposals.
Context (stable_id : list Z → list (list Z) → list Z).
Context (existing : list Recommendation) (workspace_id now : list Z).
Abbreviation proposal_of := (proposal_of stable_id existing workspace_id now).
Abbreviation build := (build_proposal stable_id existing workspace_id now).

(** What [proposal_of] goes through when it answers. *)
Record made_from (f : list Z) (group : list Observation) (p : Recommendation) (surface : TargetSurface)
    (prior : option Recommendation) (items : list WorkflowObservationEvidence) : Prop := {
  made_two : (2 <= length group)%nat;
  made_prior : prior = prior_of existing (dedupe_key_of f surface);
  made_items : items = gather (default [] (evidence <$> continued existing prior)) (sort_by by_obs_sequence group);
  made_idle : busy existing prior = false;
  made_new : ∀ old, terminal_evidence existing prior = Some old → ∃ o, o ∈ group ∧ cites old (obs_id o) = false;
  made_back : ∀ d, prior = Some d → status d = Dismissed → resurfaces (dismissal_watermark d) items = true;
  made_p : p = build (dedupe_key_of f surface) surface prior items;
}.
Lemma proposal_of_Some f group p :
  proposal_of (f, group) = Some p ↔
  ∃ first rest, sort_by by_obs_sequence group = first :: rest
    ∧ let surface := target_surface (ObservationLog.kind first) in
      let prior := prior_of existing (dedupe_key_of f surface) in
      made_from f group p surface prior
        (gather (default [] (evidence <$> continued existing prior)) (sort_by by_obs_sequence group)).
Proof.
  pose proof (sort_by_perm by_obs_sequence group) as Hperm. pose proof (Permutation_length Hperm) as Hlen.
  unfold Evaluation.proposal_of. cbn [fst snd].
  destruct (sort_by by_obs_sequence group) as [|first [|second rest]] eqn:Es.
  - split; [done|]. by intros (? & ? & ? & _).
  - split; [done|]. intros (? & ? & _ & [H _ _ _ _ _ _]). cbn in Hlen. lia.
  - set (surface := target_surface (ObservationLog.kind first)). set (prior := prior_of existing _).
    set (sorted := first :: second :: rest) in *. set (items := gather _ _).
    assert (Hnew : is_some_and (terminal_evidence existing prior)
                     (λ old, negb (existsb (λ o, negb (cites old (obs_id o))) sorted)) = false
                   ↔ ∀ old, terminal_evidence existing prior = Some old → ∃ o, o ∈ group ∧ cites old (obs_id o) = false).
    { rewrite is_some_and_false. split.
      - intros [H|(old & H & Hx)] old' H'; [congruence|]. assert (old' = old) as -> by congruence.
        apply negb_false_iff, existsb_exists in Hx as (o & Ho & Hc). exists o.
        rewrite <- Hperm, list_elem_of_In. by apply negb_true_iff in Hc.
      - intros H. destruct (terminal_evidence existing prior) as [old|]; [right|by left]. exists old. split; [done|].
        destruct (H old eq_refl) as (o & Ho & Hc). apply negb_false_iff, existsb_exists. exists o.
        rewrite <- list_elem_of_In, Hperm, Hc. done. }
    assert (Hback : is_some_and (opt_filter (λ r, status r == Dismissed) prior)
                      (λ d, negb (resurfaces (dismissal_watermark d) items)) = false
                    ↔ ∀ d, prior = Some d → status d = Dismissed → resurfaces (dismissal_watermark d) items = true).
    { destruct prior as [d|]; cbn; [|by split]. destruct (status d == Dismissed) eqn:Ed; cbn.
      - apply eqb_elim in Ed. rewrite negb_false_iff. split; [by intros H d' [= <-]|]. intros H. by apply H.
      - apply eqb_false in Ed. split; [by intros _ d' [= <-] ?|done]. }
    split.
    + destruct (busy existing prior) eqn:Eb; [done|].
      destruct (is_some_and (terminal_evidence _ _) _) eqn:En; [done|].
      destruct (is_some_and (opt_filter _ _) _) eqn:Ed; [done|]. intros [= <-].
      exists first, (second :: rest). split; [done|]. split; [cbn in Hlen; lia|done|by rewrite Es|done|by apply Hnew|by apply Hback|done].
    + intros (first' & rest' & [= <- <-] & [H1 H2 H3 H4 H5 H6 ->]). fold surface in H4, H5, H6 |- *.
      fold prior in H4, H5, H6 |- *. rewrite H4, (proj2 Hnew H5), (proj2 Hback H6). done.
Qed.
End proposals.

(** ** Evidence is gathered once *)

Lemma cites_true items i : cites items i = true ↔ i ∈ observation_id <$> items.
Proof.
  unfold cites. rewrite existsb_exists, list_elem_of_fmap. split.
  - intros (e & He & <-%eqb_elim). exists e. by rewrite list_elem_of_In.
  - intros (e & -> & He). exists e. by rewrite <- list_elem_of_In, eqb_refl.
Qed.
Lemma cites_false items i : cites items i = false ↔ i ∉ observation_id <$> items.
Proof. rewrite <- cites_true. by destruct (cites items i). Qed.

Section cite.
Implicit Types (kept items : list WorkflowObservationEvidence) (group : list Observation).

Lemma cite_all_elem group kept e :
  e ∈ fold_left cite group kept → e ∈ kept ∨ ∃ o, o ∈ group ∧ e = evidence_of o ∧ obs_id o ∉ observation_id <$> kept.
Proof.
  revert kept. induction group as [|o group IH]; intros kept; [by left|]. cbn. intros He.
  apply IH in He as [He|(o' & Ho & -> & Hn)].
  - unfold cite in He. destruct (cites kept (obs_id o)) eqn:E; [by left|]. apply cites_false in E.
    apply elem_of_app in He as [He|He]; [by left|]. apply list_elem_of_singleton in He as ->.
    right. exists o. split; [by left|]. done.
  - right. exists o'. split; [by right|]. split; [done|]. intros Hin. apply Hn. unfold cite.
    case_match; [done|]. rewrite fmap_app. apply elem_of_app. by left.
Qed.
Lemma cite_all_kept group kept e : e ∈ kept → e ∈ fold_left cite group kept.
Proof.
  revert kept. induction group as [|o group IH]; intros kept He; [done|]. cbn. apply IH. unfold cite.
  case_match; [done|]. apply elem_of_app. by left.
Qed.
Lemma cite_all_cites group kept o : o ∈ group → obs_id o ∈ observation_id <$> fold_left cite group kept.
Proof.
  revert kept. induction group as [|o' group IH]; intros kept Ho; [by apply elem_of_nil in Ho|]. cbn.
  apply elem_of_cons in Ho as [->|Ho]; [|by apply IH].
  assert (Hc : obs_id o' ∈ observation_id <$> cite kept o').
  { unfold cite. destruct (cites kept (obs_id o')) eqn:E; [by apply cites_true|].
    rewrite fmap_app. apply elem_of_app. right. by left. }
  apply list_elem_of_fmap in Hc as (e & -> & He). by apply list_elem_of_fmap_2, cite_all_kept.
Qed.
Lemma cite_all_NoDup group kept : NoDup (observation_id <$> kept) → NoDup (observation_id <$> fold_left cite group kept).
Proof.
  revert kept. induction group as [|o group IH]; intros kept Hn; [done|]. cbn. apply IH. unfold cite.
  destruct (cites kept (obs_id o)) eqn:E; [done|]. apply cites_false in E. rewrite fmap_app. apply NoDup_app.
  split; [done|]. split; [|by apply NoDup_singleton].
  intros i Hi ->%list_elem_of_singleton. done.
Qed.

Lemma gather_perm kept group : gather kept group ≡ₚ fold_left cite group kept.
Proof. apply sort_by_perm. Qed.
Lemma gather_sorted kept group : StronglySorted (λ l r, sequence l <= sequence r) (gather kept group).
Proof.
  assert (Hs : StronglySorted (le_by by_sequence) (gather kept group)).
  { apply sort_by_sorted; unfold le_by, by_sequence.
    - intros x y. rewrite !Z.leb_le. lia.
    - intros x y z. rewrite !Z.leb_le. lia. }
  induction Hs as [|x l _ IH Hx]; constructor; [done|]. eapply Forall_impl; [exact Hx|].
  intros y. apply Z.leb_le.
Qed.
End cite.

Lemma max_by_impact i l :
  (max_by impact_cmp i l = i ∨ max_by impact_cmp i l ∈ l)
  ∧ ∀ j, j = i ∨ j ∈ l → impact_rank j <= impact_rank (max_by impact_cmp i l).
Proof.
  unfold max_by. revert i. induction l as [|x l IH]; intros i; cbn [fold_left].
  { split; [by left|]. intros j [->|H]; [lia|by apply elem_of_nil in H]. }
  set (best := match impact_cmp i x with Gt => i | _ => x end). destruct (IH best) as [Hin Hle].
  assert (Hbest : (best = i ∨ best = x) ∧ impact_rank i <= impact_rank best ∧ impact_rank x <= impact_rank best).
  { unfold best, impact_cmp. destruct (Z.compare_spec (impact_rank i) (impact_rank x)); split; auto; lia. }
  destruct Hbest as (Hb & H1 & H2). specialize (Hle best (or_introl eq_refl)) as Hself. split.
  - destruct Hin as [->|Hin]; [|by right; right]. destruct Hb as [->| ->]; [by left|right; by left].
  - intros j [->|[->|Hj]%elem_of_cons]; [lia|lia|]. apply Hle. by right.
Qed.
Lemma max_impact_spec items :
  items ≠ [] →
  (∃ e, e ∈ items ∧ reported_impact e = max_impact items)
  ∧ ∀ e, e ∈ items → impact_rank (reported_impact e) <= impact_rank (max_impact items).
Proof.
  destruct items as [|e items]; [done|]. intros _. unfold max_impact. cbn [fmap list_fmap].
  destruct (max_by_impact (reported_impact e) (reported_impact <$> items)) as [Hin Hle]. split.
  - destruct Hin as [Hin|Hin]; [exists e; split; [by left|done]|].
    apply list_elem_of_fmap in Hin as (e' & Heq & He'). exists e'. split; [by right|done].
  - intros e' [->|He']%elem_of_cons; apply Hle; [by left|right; by apply list_elem_of_fmap_2].
Qed.

Lemma elem_of_dedup x l : x ∈ dedup l ↔ x ∈ l.
Proof.
  induction l as [|y l IH]; [done|]. cbn. destruct (head l == Some y) eqn:E.
  - apply eqb_elim in E. rewrite IH, elem_of_cons. split; [by right|]. intros [->|H]; [|done].
    destruct l as [|z l]; [done|]. injection E as ->. by left.
  - by rewrite !elem_of_cons, IH.
Qed.
Lemma dedup_sorted_NoDup l : StronglySorted key_le l → NoDup (dedup l).
Proof.
  induction 1 as [|x l Hs IH Hx]; [constructor|]. cbn. destruct (head l == Some x) eqn:E; [done|].
  constructor; [|done]. rewrite elem_of_dedup. intros Hin. apply eqb_false in E.
  destruct l as [|y l]; [by apply elem_of_nil in Hin|]. cbn in E.
  apply E. f_equal. apply (anti_symm key_le).
  - apply elem_of_cons in Hin as [->|Hin]; [done|]. inversion Hs as [|? ? _ Hy]; subst.
    rewrite Forall_forall in Hy. by apply Hy.
  - by inversion Hx.
Qed.
Lemma unique_session_ids_spec items :
  NoDup (unique_session_ids items) ∧ ∀ s, s ∈ unique_session_ids items ↔ s ∈ session_id <$> items.
Proof.
  unfold unique_session_ids. split; [apply dedup_sorted_NoDup, key_sorted|].
  intros s. by rewrite elem_of_dedup, (sort_by_perm key_leb).
Qed.

Lemma max_by_elem {A} (cmp : A → A → comparison) x l : max_by cmp x l ∈ x :: l.
Proof.
  unfold max_by. revert x. induction l as [|y l IH]; intros x; cbn [fold_left]; [by left|].
  specialize (IH (match cmp x y with Gt => x | _ => y end)).
  destruct (cmp x y); set_solver.
Qed.
Lemma prior_of_elem existing k r : prior_of existing k = Some r → r ∈ existing ∧ dedupe_key r = k.
Proof.
  unfold prior_of. destruct (List.filter _ existing) as [|x l] eqn:E; [done|]. intros [= <-].
  pose proof (max_by_elem (λ l r, str_cmp (updated_at l) (updated_at r)) x l) as H. rewrite <- E in H.
  rewrite list_elem_of_In in H. apply filter_In in H as [H1 H2]. split; [by apply list_elem_of_In|].
  by apply eqb_elim in H2.
Qed.
Lemma continued_Some existing prior r :
  continued existing prior = Some r → prior = Some r ∧ (status r = Proposed ∨ status r = RolledUp).
Proof.
  unfold continued. intros [-> H]%opt_filter_Some. split; [done|].
  apply orb_true_iff in H as [H|H]; [left; by apply eqb_elim in H|right].
  apply is_some_and_true in H as (a & Ha & _). unfold active_rollup_member in Ha.
  apply opt_filter_Some in Ha as [[= <-] Ha]. apply andb_true_iff in Ha as [Ha _]. by apply eqb_elim in Ha.
Qed.

(** ** The answer of an evaluation *)

Section answer.
Context (stable_id : list Z → list (list Z) → list Z) (iterate : Iteration).
Context (existing : list Recommendation) (workspace_id now : list Z) (observations : list Observation).
Context (Hiterate : ∀ groups, iterate groups ≡ₚ map_to_list groups).
Abbreviation evaluated :=
  (evaluate_workflow_improvements stable_id existing workspace_id now iterate observations).

Lemma elem_of_evaluated p :
  p ∈ evaluated ↔ ∃ f, proposal_of stable_id existing workspace_id now (f, family observations f) = Some p.
Proof.
  unfold evaluate_workflow_improvements. rewrite sort_by_perm, list_elem_of_omap. split.
  - intros ([f g] & Hg & Hp). rewrite Hiterate in Hg. apply elem_of_map_to_list in Hg.
    apply groups_of_Some in Hg as [-> _]. by exists f.
  - intros [f Hp]. exists (f, family observations f). split; [|done].
    rewrite Hiterate. apply elem_of_map_to_list. rewrite groups_of_lookup.
    destruct (family observations f); [done|done].
Qed.
Lemma evaluated_from p :
  p ∈ evaluated → ∃ f surface,
    let group := family observations f in
    let prior := prior_of existing (dedupe_key_of f surface) in
    made_from stable_id existing workspace_id now f group p surface prior
      (gather (default [] (evidence <$> continued existing prior)) (sort_by by_obs_sequence group)).
Proof.
  intros [f Hp]%elem_of_evaluated. apply proposal_of_Some in Hp as (first & rest & _ & Hm). by eexists _, _.
Qed.
Lemma evaluated_keys : NoDup (dedupe_key <$> evaluated).
Proof.
  unfold evaluate_workflow_improvements. rewrite sort_by_perm.
  assert (Hk : NoDup (iterate (groups_of observations)).*1).
  { rewrite Hiterate. apply NoDup_fst_map_to_list. }
  induction (iterate (groups_of observations)) as [|[f g] l IH]; [constructor|].
  cbn [fmap list_fmap fst] in Hk. apply NoDup_cons in Hk as [Hf Hk]. cbn [omap list_omap].
  destruct (proposal_of _ _ _ _ (f, g)) as [p|] eqn:E; [|by apply IH].
  cbn [fmap list_fmap]. constructor; [|by apply IH].
  apply proposal_of_Some in E as (first & rest & _ & [_ _ _ _ _ _ ->]).
  intros (q & Hq & Hin)%list_elem_of_fmap. apply list_elem_of_omap in Hin as ([f' g'] & Hin & Hq').
  apply proposal_of_Some in Hq' as (first' & rest' & _ & [_ _ _ _ _ _ ->]).
  cbn in Hq. apply dedupe_key_inj in Hq as [_ ->]. apply Hf. by apply (list_elem_of_fmap_2 fst _ (f', g')).
Qed.
End answer.

(** ** Properties *)

(** What a proposal claims is in its evidence, and its evidence is on record. *)
Record grounded (existing : list Recommendation) (observations : list Observation) (p : Recommendation) : Prop := {
  grounded_family : ∃ f surface, dedupe_key p = dedupe_key_of f surface
    ∧ (2 <= length (family observations f))%nat
    ∧ (∀ o, o ∈ family observations f → obs_id o ∈ observation_id <$> evidence p)
    ∧ ∀ e, e ∈ evidence p →
        (∃ o, o ∈ family observations f ∧ e = evidence_of o)
        ∨ (∃ r, r ∈ existing ∧ dedupe_key r = dedupe_key p ∧ (status r = Proposed ∨ status r = RolledUp)
             ∧ e ∈ evidence r);
  grounded_order : StronglySorted (λ l r, sequence l <= sequence r) (evidence p);
  grounded_once : (∀ r, r ∈ existing → NoDup (observation_id <$> evidence r)) →
    NoDup (observation_id <$> evidence p);
  grounded_count : recurrence_count p = Z.of_nat (length (evidence p))
    ∧ improvement_observation_ids p = observation_id <$> evidence p;
  grounded_sessions : NoDup (affected_session_ids p)
    ∧ ∀ s, s ∈ affected_session_ids p ↔ s ∈ session_id <$> evidence p;
  grounded_impact : (∃ e, e ∈ evidence p ∧ reported_impact e = priority p)
    ∧ ∀ e, e ∈ evidence p → impact_rank (reported_impact e) <= impact_rank (priority p);
  grounded_confidence : confidence_level p = HighConfidence ↔
    ∀ e, e ∈ evidence p → SFleb f_08 (confidence e) = true;
}.

Lemma made_grounded stable_id existing workspace_id now observations f surface p :
  let group := family observations f in
  let prior := prior_of existing (dedupe_key_of f surface) in
  made_from stable_id existing workspace_id now f group p surface prior
    (gather (default [] (evidence <$> continued existing prior)) (sort_by by_obs_sequence group)) →
  grounded existing observations p.
Proof.
  intros group prior [H2 _ _ _ _ _ ->].
  pose proof (sort_by_perm by_obs_sequence group) as Hperm.
  set (kept := default [] (evidence <$> continued existing prior)).
  set (sorted := sort_by by_obs_sequence group) in *.
  assert (Hcite : ∀ o, o ∈ group → obs_id o ∈ observation_id <$> gather kept sorted).
  { intros o Ho. rewrite gather_perm. apply cite_all_cites. by rewrite Hperm. }
  assert (Hne : gather kept sorted ≠ []).
  { destruct group as [|o group']; [cbn in H2; lia|]. intros Heq. specialize (Hcite o). rewrite Heq in Hcite.
    eapply not_elem_of_nil. apply Hcite. by left. }
  split; cbn [build_proposal evidence dedupe_key recurrence_count improvement_observation_ids affected_session_ids priority
              confidence_level].
  - exists f, surface. split; [done|]. split; [done|]. split; [done|]. intros e He. rewrite gather_perm in He.
    apply cite_all_elem in He as [He|(o & Ho & -> & _)]; [right|left; exists o; split; [|done]; change (o ∈ group); by rewrite <- Hperm].
    destruct (continued existing prior) as [r|] eqn:Ec; [|by apply elem_of_nil in He].
    apply continued_Some in Ec as [Hr Hs]. apply prior_of_elem in Hr as [Hr Hk]. by exists r.
  - apply gather_sorted.
  - intros Hn. rewrite gather_perm. apply cite_all_NoDup. unfold kept.
    destruct (continued existing prior) as [r|] eqn:Ec; [|constructor].
    apply continued_Some in Ec as [Hr _]. apply prior_of_elem in Hr as [Hr _]. by apply Hn.
  - done.
  - apply unique_session_ids_spec.
  - by apply max_impact_spec.
  - destruct (forallb _ (gather kept sorted)) eqn:Ea.
    + apply forallb_true in Ea. split; [|done]. intros _ e He. rewrite Forall_forall in Ea. by apply Ea.
    + split; [done|]. intros Hall. rewrite (proj2 (forallb_true _ _)) in Ea; [done|by apply Forall_forall].
Qed.

(** C5: what a proposal claims is in its evidence, and its evidence is on record.
    However the map of groups is iterated, the proposals are of distinct families; each
    cites every qualifying observation of its family, of which there are two at least,
    and nothing else but the evidence of the record it continues, in sequence and none
    twice; its counts, sessions, impact and confidence are those of its evidence. *)
Theorem proposals_grounded stable_id iterate existing workspace_id now observations :
  (∀ groups, iterate groups ≡ₚ map_to_list groups) →
  let proposals := evaluate_workflow_improvements stable_id existing workspace_id now iterate observations in
  NoDup (dedupe_key <$> proposals) ∧ ∀ p, p ∈ proposals → grounded existing observations p.
Proof.
  intros Hi proposals. split; [by apply evaluated_keys|]. intros p Hp.
  apply evaluated_from in Hp as (f & surface & Hm); [|done]. by eapply made_grounded.
Qed.

(** the order in which a [HashMap] is iterated does not show. *)
Theorem iteration_does_not_show stable_id iterate iterate' existing workspace_id now observations :
  (∀ groups, iterate groups ≡ₚ map_to_list groups) → (∀ groups, iterate' groups ≡ₚ map_to_list groups) →
  evaluate_workflow_improvements stable_id existing workspace_id now iterate observations
  = evaluate_workflow_improvements stable_id existing workspace_id now iterate' observations.
Proof.
  intros Hi Hi'.
  pose proof (evaluated_keys stable_id iterate existing workspace_id now observations Hi) as Hk.
  set (leb := λ l r : Recommendation, key_leb (dedupe_key l) (dedupe_key r)).
  assert (Hs : ∀ l, StronglySorted (le_by leb) (sort_by leb l)).
  { intros l. apply sort_by_sorted; unfold le_by, leb.
    - intros x y. apply key_le_total.
    - intros x y z. apply key_le_trans. }
  apply (StronglySorted_unique_strong (le_by leb)); [|apply Hs..|].
  - intros x y Hx Hy Hxy Hyx. assert (Heq : dedupe_key x = dedupe_key y) by by apply (anti_symm key_le).
    rewrite (elem_of_evaluated _ _ _ _ _ _ Hi') in Hy. rewrite (elem_of_evaluated _ _ _ _ _ _ Hi) in Hx.
    destruct Hx as [f Hx], Hy as [f' Hy].
    pose proof Hx as (? & ? & _ & [_ _ _ _ _ _ Hpx])%proposal_of_Some.
    pose proof Hy as (? & ? & _ & [_ _ _ _ _ _ Hpy])%proposal_of_Some.
    rewrite Hpx, Hpy in Heq. apply dedupe_key_inj in Heq as [_ <-]. congruence.
  - unfold evaluate_workflow_improvements. rewrite !sort_by_perm. by rewrite Hi, Hi'.
Qed.

Section by_status.
Context (existing : list Recommendation) (r : Recommendation).

Lemma active_not_rolled : status r ≠ RolledUp → active_rollup_member existing (Some r) = None.
Proof. intros H. cbn. by rewrite (proj2 (eqb_false _ _) H). Qed.
Lemma terminal_ended :
  ended_status (status r) = true → terminal_predecessor existing (Some r) = Some r.
Proof.
  intros H. assert (Hn : status r ≠ RolledUp) by (intros Heq; by rewrite Heq in H).
  unfold terminal_predecessor. rewrite active_not_rolled by done. cbn.
  by rewrite (proj2 (eqb_false _ _) Hn), H.
Qed.
Lemma terminal_proposed : status r = Proposed → terminal_predecessor existing (Some r) = None.
Proof. intros H. unfold terminal_predecessor. rewrite active_not_rolled by congruence. cbn. by rewrite H. Qed.
Lemma continued_proposed : status r = Proposed → continued existing (Some r) = Some r.
Proof. intros H. unfold continued. cbn. by rewrite H. Qed.
Lemma continued_ended : ended_status (status r) = true → continued existing (Some r) = None.
Proof.
  intros H. assert (Hn : status r ≠ RolledUp) by (intros Heq; by rewrite Heq in H).
  unfold continued. rewrite active_not_rolled by done. cbn.
  assert (Hp : (status r == Proposed) = false) by (apply eqb_false; intros Heq; by rewrite Heq in H).
  by rewrite Hp.
Qed.
Lemma busy_ended : ended_status (status r) = true → busy existing (Some r) = false.
Proof. intros H. unfold busy. rewrite terminal_ended by done. cbn. by rewrite andb_false_r. Qed.
Lemma terminal_evidence_ended :
  ended_status (status r) = true → terminal_evidence existing (Some r) = Some (evidence r).
Proof.
  intros H. unfold terminal_evidence. rewrite terminal_ended by done. cbn.
  by rewrite (proj2 (eqb_false _ _) (λ Heq : status r = RolledUp, ltac:(rewrite Heq in H; done))).
Qed.
End by_status.

Lemma resurfaces_true mark items :
  resurfaces mark items = true → ∃ m, mark = Some m
    ∧ ((∃ e, e ∈ items ∧ impact_rank (highest_impact m) < impact_rank (reported_impact e))
       ∨ ((2 <= length (List.filter (λ e, (dismissed_through_sequence m <? sequence e)%Z) items))%nat
          ∧ ∃ e, e ∈ items ∧ dismissed_through_sequence m < sequence e
               ∧ session_id e ∉ watermark_session_ids m)).
Proof.
  unfold resurfaces. destruct mark as [m|]; cbn -[Nat.leb]; [|by rewrite andb_false_r].
  intros [H|H]%orb_true_iff; exists m; (split; [done|]).
  - left. apply existsb_exists in H as (e & He & Hi). exists e. split; [by apply list_elem_of_In|]. by apply Z.ltb_lt.
  - right. apply andb_true_iff in H as [Hl H]. apply Nat.leb_le in Hl. split; [done|].
    apply existsb_exists in H as (e & He & Hs). apply filter_In in He as [He Hq]. exists e.
    split; [by apply list_elem_of_In|]. split; [by apply Z.ltb_lt|]. apply negb_true_iff in Hs.
    intros Hin. by apply one_of_true in Hin; rewrite Hin in Hs.
Qed.

Section properties.
Context (stable_id : list Z → list (list Z) → list Z) (iterate : Iteration).
Context (existing : list Recommendation) (workspace_id now : list Z) (observations : list Observation).
Abbreviation evaluated :=
  (evaluate_workflow_improvements stable_id existing workspace_id now iterate observations).

Lemma evaluated_made p :
  (∀ groups, iterate groups ≡ₚ map_to_list groups) → p ∈ evaluated →
  ∃ f surface, let prior := prior_of existing (dedupe_key p) in
    let items := gather (default [] (evidence <$> continued existing prior))
                   (sort_by by_obs_sequence (family observations f)) in
    made_from stable_id existing workspace_id now f (family observations f) p surface prior items
    ∧ p = build_proposal stable_id existing workspace_id now (dedupe_key p) surface prior items.
Proof.
  intros Hi Hp. apply evaluated_from in Hp as (f & surface & Hm); [|done]. exists f, surface.
  assert (Hk : dedupe_key p = dedupe_key_of f surface) by by rewrite (made_p _ _ _ _ _ _ _ _ _ _ Hm).
  rewrite Hk. split; [done|]. apply Hm.
Qed.
End properties.

(** C6: a dismissal is respected.  A family whose latest record is dismissed is proposed
    again only as a new record that supersedes it, one deeper in its chain, if an
    observation is cited that the dismissed one did not cite, and if the watermark of the
    dismissal is passed: by a higher impact, or by two later observations of which one
    is from a session that the watermark does not name. *)
Theorem dismissal_respected stable_id iterate existing workspace_id now observations p d :
  (∀ groups, iterate groups ≡ₚ map_to_list groups) →
  p ∈ evaluate_workflow_improvements stable_id existing workspace_id now iterate observations →
  prior_of existing (dedupe_key p) = Some d → status d = Dismissed →
  status p = Proposed ∧ supersedes_recommendation_id p = Some (id d)
  ∧ chain_id p = chain_id d ∧ chain_depth p = saturating_add u32_max (chain_depth d) 1
  ∧ (∃ e, e ∈ evidence p ∧ observation_id e ∉ observation_id <$> evidence d)
  ∧ ∃ m, dismissal_watermark d = Some m
      ∧ ((∃ e, e ∈ evidence p ∧ impact_rank (highest_impact m) < impact_rank (reported_impact e))
         ∨ ((2 <= length (List.filter (λ e, (dismissed_through_sequence m <? sequence e)%Z) (evidence p)))%nat
            ∧ ∃ e, e ∈ evidence p ∧ dismissed_through_sequence m < sequence e
                 ∧ session_id e ∉ watermark_session_ids m)).
Proof.
  intros Hi Hp Hd Hs. apply evaluated_made in Hp as (f & surface & Hm & Hp); [|done]. rewrite Hd in Hm, Hp.
  assert (He : ended_status (status d) = true) by by rewrite Hs.
  destruct Hm as [_ _ _ _ Hnew Hback _]. specialize (Hback d eq_refl Hs).
  specialize (Hnew _ (terminal_evidence_ended existing d He)) as (o & Ho & Hc).
  rewrite Hp. cbn [build_proposal status supersedes_recommendation_id chain_id chain_depth evidence].
  rewrite active_not_rolled by congruence. rewrite terminal_ended by done. cbn [is_some fmap option_fmap option_map default].
  split; [done|]. split; [done|]. split; [done|]. split; [done|]. split; [|by apply resurfaces_true].
  apply cites_false in Hc. set (kept := default [] _).
  assert (Hin : obs_id o ∈ observation_id <$> gather kept (sort_by by_obs_sequence (family observations f))).
  { rewrite gather_perm. apply cite_all_cites. by rewrite sort_by_perm. }
  apply list_elem_of_fmap in Hin as (e & Heq & He'). exists e. split; [done|]. by rewrite <- Heq.
Qed.

(** a proposal that is updated loses its lineage.  While the latest record of a family
    is proposed, an evaluation updates it in place, with its identity, its place in the
    chain and all its evidence; but whatever it superseded, whichever generation it was of
    and whichever completion packet its session has reported, the updated record
    supersedes nothing, is of no generation and has no packet. *)
Theorem update_drops_lineage stable_id iterate existing workspace_id now observations p r :
  (∀ groups, iterate groups ≡ₚ map_to_list groups) →
  p ∈ evaluate_workflow_improvements stable_id existing workspace_id now iterate observations →
  prior_of existing (dedupe_key p) = Some r → status r = Proposed →
  status p = Proposed ∧ id p = id r ∧ created_at p = created_at r
  ∧ chain_id p = chain_id r ∧ chain_depth p = chain_depth r
  ∧ (∀ e, e ∈ evidence r → e ∈ evidence p)
  ∧ supersedes_recommendation_id p = None ∧ rollup_generation p = None ∧ completion_packet p = None.
Proof.
  intros Hi Hp Hr Hs. apply evaluated_made in Hp as (f & surface & _ & Hp); [|done]. rewrite Hr in Hp.
  rewrite Hp. cbn [build_proposal status id created_at chain_id chain_depth evidence
                   supersedes_recommendation_id rollup_generation completion_packet].
  rewrite active_not_rolled by congruence. rewrite continued_proposed, terminal_proposed by done.
  cbn [is_some fmap option_fmap option_map default mbind option_bind].
  repeat (split; [done|]). split; [|done]. intros e He. rewrite gather_perm. by apply cite_all_kept.
Qed.

(** C38: an ended family returns.  When the latest record of a family is at an end and not
    dismissed (accepted, completed, superseded, expired or failed), the family is
    proposed again exactly if it has two qualifying observations of which one is not
    cited by that record, as a new record that supersedes it. *)
Theorem ended_family_returns stable_id iterate existing workspace_id now observations f surface r :
  (∀ groups, iterate groups ≡ₚ map_to_list groups) →
  prior_of existing (dedupe_key_of f surface) = Some r →
  ended_status (status r) = true → status r ≠ Dismissed →
  let group := family observations f in
  let proposals := evaluate_workflow_improvements stable_id existing workspace_id now iterate observations in
  ((∃ p, p ∈ proposals ∧ dedupe_key p = dedupe_key_of f surface) ↔
   (2 <= length group)%nat
   ∧ (target_surface ∘ ObservationLog.kind <$> head (sort_by by_obs_sequence group)) = Some surface
   ∧ ∃ o, o ∈ group ∧ obs_id o ∉ observation_id <$> evidence r)
  ∧ ∀ p, p ∈ proposals → dedupe_key p = dedupe_key_of f surface →
      status p = Proposed ∧ supersedes_recommendation_id p = Some (id r).
Proof.
  intros Hi Hr He Hd group proposals.
  assert (Hn : status r ≠ RolledUp) by (intros Heq; by rewrite Heq in He). split; [split|].
  - intros (p & Hp & Hk). apply elem_of_evaluated in Hp as [f' Hp]; [|done].
    apply proposal_of_Some in Hp as (first & rest & Hs & Hm).
    pose proof (made_p _ _ _ _ _ _ _ _ _ _ Hm) as Hpk. rewrite Hpk in Hk. cbn in Hk.
    apply dedupe_key_inj in Hk as [Hsurf ->]. destruct Hm as [H2 _ _ _ Hnew _ _].
    rewrite Hsurf, Hr in Hnew. specialize (Hnew _ (terminal_evidence_ended existing r He)) as (o & Ho & Hc).
    split; [done|]. split; [unfold group; rewrite Hs; cbn; by f_equal|]. exists o. by rewrite <- cites_false.
  - intros (H2 & Hs & o & Ho & Hc). destruct (sort_by by_obs_sequence group) as [|first rest] eqn:Es; [done|].
    cbn in Hs. injection Hs as Hs. eexists. split.
    + apply elem_of_evaluated; [done|]. exists f. apply proposal_of_Some. exists first, rest. split; [done|].
      cbn zeta. rewrite Hs, Hr. split; [done|by rewrite Hr|done|by apply busy_ended| | |reflexivity].
      * rewrite terminal_evidence_ended by done. intros old [= <-]. exists o. by rewrite cites_false.
      * intros d [= <-] Hdis. done.
    + done.
  - intros p Hp Hk. apply evaluated_made in Hp as (f' & s' & _ & Hp); [|done]. rewrite Hk, Hr in Hp. rewrite Hp.
    cbn [build_proposal status supersedes_recommendation_id]. rewrite active_not_rolled by done.
    by rewrite terminal_ended.
Qed.

(** ** A family and its successors *)

Definition sample_observation (i : string) (seq : Z) (session : string) : Observation :=
  ObservationLog.mkObservation (bytes_of i) seq (bytes_of session) (bytes_of "t") Obstacle (bytes_of "d")
    (bytes_of "e") None Low Agent f_one (bytes_of "f").
Definition sample_observations : list Observation :=
  [sample_observation "o4" 4 "s2"; sample_observation "o1" 1 "s1"; sample_observation "o2" 2 "s1";
   sample_observation "o3" 3 "s1"].
Definition sample_stable (dedupe : list Z) (ids : list (list Z)) : list Z := concat ids.
Definition sample_mark : DismissalWatermark :=
  mkWatermark (bytes_of "2") 2 [bytes_of "o1"; bytes_of "o2"] 2 Low [bytes_of "s1"] None.
(** A record of the family that cites the first two observations. *)
Definition sample_of_family (status : RecommendationStatus) (mark : option DismissalWatermark) : Recommendation :=
  mkRecommendation false (bytes_of "r1") (bytes_of "w") (bytes_of "c") 0 ImproveWorkflow status Low (bytes_of "T") []
    [] (evidence_of <$> [sample_observation "o1" 1 "s1"; sample_observation "o2" 2 "s1"]) [] []
    [bytes_of "s1"] None HighConfidence false (dedupe_key_of (bytes_of "f") Tooling) (bytes_of "1") (bytes_of "2") []
    Tooling [bytes_of "o1"; bytes_of "o2"] 2 [bytes_of "s1"] Low [] None mark None None [] [] None None.
Definition sample_evaluation (existing : list Recommendation) (now : string) : list Recommendation :=
  evaluate_workflow_improvements sample_stable existing (bytes_of "w") (bytes_of now) map_to_list sample_observations.
Definition sample_dismissed : Recommendation := sample_of_family Dismissed (Some sample_mark).
Definition sample_successor : Recommendation := List.hd sample_dismissed (sample_evaluation [sample_dismissed] "3").
Definition sample_updated : Recommendation :=
  List.hd sample_dismissed (sample_evaluation [sample_dismissed; sample_successor] "4").

Lemma sample_iterate (groups : gmap (list Z) (list Observation)) : map_to_list groups ≡ₚ map_to_list groups.
Proof. done. Qed.
Lemma hd_elem {A} (x : A) l : l ≠ [] → List.hd x l ∈ l.
Proof. destruct l; [done|]. by left. Qed.

Lemma proposals_grounded_witness :
  let proposals := sample_evaluation [sample_dismissed] "3" in
  observation_id <$> evidence sample_successor = bytes_of <$> ["o1"; "o2"; "o3"; "o4"]
  ∧ NoDup (dedupe_key <$> proposals) ∧ ∀ p, p ∈ proposals → grounded [sample_dismissed] sample_observations p.
Proof.
  split; [vm_compute; reflexivity|].
  apply (proposals_grounded sample_stable map_to_list [sample_dismissed] (bytes_of "w") (bytes_of "3") sample_observations
           sample_iterate).
Defined.
Lemma iteration_does_not_show_witness :
  sample_evaluation [sample_dismissed] "3"
  = evaluate_workflow_improvements sample_stable [sample_dismissed] (bytes_of "w") (bytes_of "3")
      (λ groups, reverse (map_to_list groups)) sample_observations.
Proof.
  apply (iteration_does_not_show sample_stable map_to_list (λ groups, reverse (map_to_list groups))).
  - apply sample_iterate.
  - intros groups. apply reverse_Permutation.
Defined.
Lemma dismissal_respected_witness :
  status sample_successor = Proposed ∧ supersedes_recommendation_id sample_successor = Some (bytes_of "r1")
  ∧ chain_depth sample_successor = 1.
Proof.
  destruct (dismissal_respected sample_stable map_to_list [sample_dismissed] (bytes_of "w") (bytes_of "3")
    sample_observations sample_successor sample_dismissed) as (H1 & H2 & _).
  - apply sample_iterate.
  - apply hd_elem. vm_compute. discriminate.
  - vm_compute. reflexivity.
  - reflexivity.
  - split; [exact H1|]. split; [exact H2|]. vm_compute. reflexivity.
Defined.
Lemma update_drops_lineage_witness :
  supersedes_recommendation_id sample_successor = Some (bytes_of "r1")
  ∧ rollup_generation sample_successor = Some 1
  ∧ id sample_updated = id sample_successor
  ∧ supersedes_recommendation_id sample_updated = None ∧ rollup_generation sample_updated = None
  ∧ completion_packet sample_updated = None.
Proof.
  split; [vm_compute; reflexivity|]. split; [vm_compute; reflexivity|].
  destruct (update_drops_lineage sample_stable map_to_list [sample_dismissed; sample_successor] (bytes_of "w")
    (bytes_of "4") sample_observations sample_updated sample_successor) as (_ & H1 & _ & _ & _ & _ & H2 & H3).
  - apply sample_iterate.
  - apply hd_elem. vm_compute. discriminate.
  - vm_compute. reflexivity.
  - vm_compute. reflexivity.
  - exact (conj H1 (conj H2 H3)).
Defined.
Lemma ended_family_returns_witness :
  let accepted := sample_of_family Accepted None in
  ∃ p, p ∈ sample_evaluation [accepted] "3" ∧ status p = Proposed
    ∧ supersedes_recommendation_id p = Some (bytes_of "r1").
Proof.
  intros accepted.
  destruct (ended_family_returns sample_stable map_to_list [accepted] (bytes_of "w") (bytes_of "3") sample_observations
    (bytes_of "f") Tooling accepted) as [Hiff Hall].
  - apply sample_iterate.
  - vm_compute. reflexivity.
  - reflexivity.
  - discriminate.
  - destruct (proj2 Hiff) as (p & Hp & Hk).
    + split; [vm_compute; lia|]. split; [vm_compute; reflexivity|]. exists (sample_observation "o3" 3 "s1").
      split; [apply list_elem_of_In, filter_In; split; [do 3 right; by left|vm_compute; reflexivity]|].
      apply (bool_decide_eq_true_1 _). vm_compute. reflexivity.
    + exists p. split; [exact Hp|]. exact (Hall p Hp Hk).
Defined.
