(* ===== verification/RecommendationAudit.v ===== *)
(** * The audit of recommendations

    taskmaster/audit.rs: the proposed records of exact families are classified, each by
    the evidence it cites and by what else is on record of its family, and those with a
    criterion are put on one card that proposes to dismiss them.

    Arguments: [parse_date], which reads a time stamp of RFC 3339 as nanoseconds of the
    epoch; [clock], the time if the given one cannot be read; and [stable_id]. *)
From S2P Require Export Evaluation.

Definition STALE_AFTER_DAYS : Z := 14.
Definition day_ns : Z := 86400 * 1000000000.

Record FamilyContext : Type := mkFamily {
  has_newer_proposed_sibling : bool;
  has_unextended_terminal_sibling : bool;
}.
Definition qualifies (e : WorkflowObservationEvidence) : bool :=
  SFleb f_06 (confidence e) && ((reported_impact e != High) || SFleb f_08 (confidence e)).
Definition qualifying_ids (r : Recommendation) : gset (list Z) :=
  list_to_set (observation_id <$> List.filter qualifies (evidence r)).

(** ** The chain of predecessors *)

Definition superseded_by (records : list Recommendation) (i : list Z) : option (list Z) :=
  r ← List.find (λ r, id r == i) records; supersedes_recommendation_id r.
(** The [while let]; [None] when the fuel does not do. *)
Fixpoint chain_walk (fuel : nat) (records : list Recommendation) (visited : gset (list Z))
    (cursor : option (list Z)) (target : list Z) : option bool :=
  match cursor with
  | None => Some false
  | Some i =>
      match fuel with
      | O => None
      | S fuel =>
          if i == target then Some true
          else if bool_decide (i ∈ visited) then Some false
          else chain_walk fuel records ({[i]} ∪ visited) (superseded_by records i) target
      end
  end.
Definition chain_fuel (records : list Recommendation) : nat := S (S (length records)).
Definition supersedes_chain_contains (records : list Recommendation) (start : Recommendation) (target : list Z)
    : bool :=
  default false (chain_walk (chain_fuel records) records ∅ (supersedes_recommendation_id start) target).

(** ** Classification *)

Section audit.
Context (parse_date : list Z → option Z) (clock : Z).
Context (stable_id : list Z → list (list Z) → list Z).

Definition newest (times : list Z) : option Z :=
  match times with [] => None | t :: times => Some (fold_left Z.max times t) end.
Definition criterion (b : bool) (c : AuditCriterion) : list AuditCriterion := if b then [c] else [].
Definition classify (r : Recommendation) (family : FamilyContext) (now : Z) : list AuditCriterion :=
  if negb (length (rollup_member_ids r) =? 0)%nat then []
  else
    criterion (size (qualifying_ids r) <? 2)%nat UnderEligible
    ++ criterion (negb (length (evidence r) =? 0)%nat
                  && forallb (λ e, (source e == Peon) && is_none (problem_area e)) (evidence r)) Noise
    ++ criterion (has_newer_proposed_sibling family || has_unextended_terminal_sibling family) Duplicate
    ++ criterion (is_some_and (mapM (λ e, parse_date (Rollup.observed_at e)) (evidence r) ≫= newest)
                    (λ t, STALE_AFTER_DAYS * day_ns <? now - t)) Stale.

Definition is_candidate (r : Recommendation) : bool :=
  (status r == Proposed) && (recommendation_type r != Cleanup) && (length (rollup_member_ids r) =? 0)%nat
  && is_some (strip_prefix (bytes_of "improve_workflow:v1:") (dedupe_key r)).
(** [(a.created_at, a.id) > (b.created_at, b.id)]. *)
Definition newer (a b : Recommendation) : bool :=
  match then_ (str_cmp (created_at a) (created_at b)) (str_cmp (id a) (id b)) with Gt => true | _ => false end.
Definition family_context (records : list Recommendation) (candidate : Recommendation) : FamilyContext :=
  mkFamily
    (existsb (λ sibling, (id sibling != id candidate) && (dedupe_key sibling == dedupe_key candidate)
                         && newer sibling candidate) (List.filter is_candidate records))
    (existsb (λ sibling, (dedupe_key sibling == dedupe_key candidate) && ended_status (status sibling)
                         && negb (supersedes_chain_contains records candidate (id sibling))) records).
Definition audit_entry (records : list Recommendation) (now : Z) (candidate : Recommendation)
    : option AuditCleanupEntry :=
  match classify candidate (family_context records candidate) now with
  | [] => None
  | criteria => Some (mkEntry (id candidate) (title candidate) criteria)
  end.

(** ** The card *)

Definition count_criterion (c : AuditCriterion) (found : list AuditCleanupEntry) : nat :=
  length (List.filter (λ c', c' == c) (concat (criteria <$> found))).
Definition nat_text (n : nat) : list Z := decimal_u64 (Z.of_nat n).
Definition card_order (a b : Recommendation) : comparison :=
  then_ (str_cmp (updated_at a) (updated_at b)) (str_cmp (id a) (id b)).
Definition terminal_cleanup (records : list Recommendation) : option Recommendation :=
  match List.filter (λ r, (recommendation_type r == Cleanup) && ended_status (status r)) records with
  | [] => None
  | r :: rs => Some (max_by card_order r rs)
  end.
Definition cleanup_key : list Z := bytes_of "cleanup:v1".
Definition cleanup_id (predecessors : list (list Z)) : list Z :=
  bytes_of "recommendation-" ++ stable_id cleanup_key predecessors.
Definition build_cleanup_card (records : list Recommendation) (workspace_id now : list Z)
    (prior : option Recommendation) : option Recommendation :=
  let proposed := List.filter is_candidate records in
  let found := omap (audit_entry records (default clock (parse_date now))) proposed in
  if (length found =? 0)%nat then None
  else
    let healthy := (length proposed - length found)%nat in
    let '(i, depth, created, supersedes) :=
      match prior, terminal_cleanup records with
      | Some p, _ => (id p, chain_depth p, created_at p, supersedes_recommendation_id p)
      | None, Some t => (cleanup_id [id t], saturating_add u32_max (chain_depth t) 1, now, Some (id t))
      | None, None => (cleanup_id [], 0, now, None)
      end in
    let improvement :=
      bytes_of "Dismiss " ++ nat_text (length found)
      ++ bytes_of " proposed recommendations audited as under-eligible/noise/duplicate/stale." in
    Some (mkRecommendation false i workspace_id cleanup_key depth Cleanup Proposed Medium
      (bytes_of "Recommendation cleanup") improvement
      [nat_text (length proposed) ++ bytes_of " proposed scanned; " ++ nat_text healthy
       ++ bytes_of " healthy; criteria counts: under_eligible " ++ nat_text (count_criterion UnderEligible found)
       ++ bytes_of ", noise " ++ nat_text (count_criterion Noise found)
       ++ bytes_of ", duplicate " ++ nat_text (count_criterion Duplicate found)
       ++ bytes_of ", stale " ++ nat_text (count_criterion Stale found) ++ bytes_of "."]
      [] [] [] [] None MediumConfidence true cleanup_key created now improvement Documentation [] 0 [] Medium
      (bytes_of "Fewer stale cards, less noise in the recommendations panel.") supersedes None None
      (Some (mkAudit found (length proposed) healthy STALE_AFTER_DAYS)) [] [] None None).
End audit.

(** ** The walk ends where it should *)

Definition predecessor (records : list Recommendation) (i j : list Z) : Prop := superseded_by records i = Some j.
(** [start] supersedes [target], directly or not. *)
Definition extends (records : list Recommendation) (start : Recommendation) (target : list Z) : Prop :=
  ∃ i, supersedes_recommendation_id start = Some i ∧ rtc (predecessor records) i target.

Section walk.
Context (records : list Recommendation) (target : list Z).
Implicit Types (visited : gset (list Z)) (cursor : option (list Z)).

Lemma superseded_present i j : superseded_by records i = Some j → i ∈ id <$> records.
Proof.
  unfold superseded_by. intros H. destruct (List.find _ records) as [r|] eqn:Hf; [|done].
  apply List.find_some in Hf as [Hin Hi]. apply eqb_elim in Hi as <-. by apply list_elem_of_fmap_2, list_elem_of_In.
Qed.
Lemma closed_unreached visited i :
  target ∉ visited → (∀ v w, v ∈ visited → predecessor records v w → w ∈ visited) → i ∈ visited →
  ¬ rtc (predecessor records) i target.
Proof.
  intros Ht Hc Hi H. apply Ht. revert Hi. induction H as [|i j k Hij _ IH]; [done|].
  intros Hi. apply IH; [done|]. by apply (Hc i).
Qed.
Record walking visited cursor : Prop := {
  walking_target : target ∉ visited;
  walking_closed : ∀ v w, v ∈ visited → predecessor records v w → w ∈ visited ∨ cursor = Some w;
  walking_present : cursor ≠ None → visited ⊆ list_to_set (id <$> records);
}.
Lemma chain_walk_spec fuel visited cursor :
  walking visited cursor → (length records < fuel + size visited)%nat →
  ∃ b, chain_walk fuel records visited cursor target = Some b
    ∧ (b = true ↔ ∃ i, cursor = Some i ∧ rtc (predecessor records) i target).
Proof.
  revert visited cursor. induction fuel as [|fuel IH]; intros visited [i|] [Ht Hc Hp] Hf.
  - exfalso. assert (Hsub : visited ⊆ list_to_set (id <$> records)) by by apply Hp.
    apply subseteq_size in Hsub. pose proof (list_to_set_size (id <$> records)).
    rewrite length_fmap in *. lia.
  - exists false. split; [done|]. split; [done|]. by intros (? & ? & _).
  - cbn [chain_walk]. destruct (i == target) eqn:Hi; [apply eqb_elim in Hi as ->|].
    { exists true. split; [done|]. split; [|done]. intros _. by exists target. }
    apply eqb_false in Hi. destruct (decide (i ∈ visited)) as [Hin|Hout].
    + rewrite bool_decide_eq_true_2 by done. exists false. split; [done|]. split; [done|].
      intros (j & [= <-] & H). exfalso. apply (closed_unreached visited i); [done| |done|done].
      intros v w Hv Hw. by destruct (Hc v w Hv Hw) as [?|[= ->]].
    + rewrite bool_decide_eq_false_2 by done. destruct (IH ({[i]} ∪ visited) (superseded_by records i)) as (b & Hb & Hs).
      * split; [set_solver| |].
        -- intros v w [->%elem_of_singleton|Hv]%elem_of_union Hw; [by right|].
           left. apply elem_of_union. destruct (Hc v w Hv Hw) as [?|[= ->]]; [by right|left; by apply elem_of_singleton].
        -- intros Hne. destruct (superseded_by records i) as [j|] eqn:Hj; [|done].
           apply superseded_present in Hj. assert (Hsub : visited ⊆ list_to_set (id <$> records)) by by apply Hp. set_solver.
      * rewrite size_union, size_singleton by set_solver. lia.
      * exists b. split; [done|]. rewrite Hs. split.
        -- intros (j & Hj & H). exists i. split; [done|]. by apply (rtc_l _ _ j).
        -- intros (j & [= <-] & H). inversion H as [|? k ? Hk Hr]; [by subst|]. by exists k.
  - exists false. split; [done|]. split; [done|]. by intros (? & ? & _).
Qed.
Lemma chain_walk_start start :
  ∃ b, chain_walk (chain_fuel records) records ∅ (supersedes_recommendation_id start) target = Some b
    ∧ (b = true ↔ extends records start target).
Proof.
  apply chain_walk_spec; [|unfold chain_fuel; lia]. split; [set_solver|set_solver|set_solver].
Qed.
Lemma chain_contains start : supersedes_chain_contains records start target = true ↔ extends records start target.
Proof. unfold supersedes_chain_contains. by destruct (chain_walk_start start) as (b & -> & H). Qed.
End walk.

(** ** What the criteria say *)

Section criteria.
Context (parse_date : list Z → option Z).

(** A candidate against the records, in the terms of the specification. *)
Definition deserves (records : list Recommendation) (now : Z) (r : Recommendation) (c : AuditCriterion) : Prop :=
  match c with
  | UnderEligible => ∀ e e', e ∈ evidence r → e' ∈ evidence r → qualifies e = true → qualifies e' = true →
      observation_id e = observation_id e'
  | Noise => evidence r ≠ [] ∧ ∀ e, e ∈ evidence r → source e = Peon ∧ problem_area e = None
  | Duplicate =>
      (∃ s, s ∈ records ∧ is_candidate s = true ∧ dedupe_key s = dedupe_key r ∧ id s ≠ id r ∧ newer s r = true)
      ∨ (∃ s, s ∈ records ∧ dedupe_key s = dedupe_key r ∧ ended_status (status s) = true
           ∧ ¬ extends records r (id s))
  | Stale => evidence r ≠ [] ∧ ∀ e, e ∈ evidence r →
      ∃ t, parse_date (Rollup.observed_at e) = Some t ∧ STALE_AFTER_DAYS * day_ns < now - t
  end.

Lemma criterion_elem b c c' : c' ∈ criterion b c ↔ b = true ∧ c' = c.
Proof. destruct b; cbn; [rewrite list_elem_of_singleton|rewrite elem_of_nil]; naive_solver. Qed.
Lemma max_over l t x : (∀ y, y ∈ t :: l → y < x) ↔ fold_left Z.max l t < x.
Proof.
  revert t. induction l as [|y l IH]; intros t; cbn.
  - split; [intros H; apply H; by left|]. intros H y ->%list_elem_of_singleton. done.
  - rewrite <- IH. split; intros H z Hz.
    + apply elem_of_cons in Hz as [->|Hz]; [|apply H; by do 2 right].
      apply Z.max_lub_lt; apply H; [by left|right; by left].
    + assert (Hm : Z.max t y < x) by (apply H; by left).
      apply elem_of_cons in Hz as [->|Hz]; [lia|]. apply elem_of_cons in Hz as [->|Hz]; [lia|].
      apply H. by right.
Qed.
Lemma under_eligible r :
  (size (qualifying_ids r) <? 2)%nat = true ↔ deserves [] 0 r UnderEligible.
Proof.
  rewrite Nat.ltb_lt. unfold qualifying_ids. cbn [deserves].
  assert (Hel : ∀ i, i ∈ (list_to_set (observation_id <$> List.filter qualifies (evidence r)) : gset (list Z))
     ↔ ∃ e, e ∈ evidence r ∧ qualifies e = true ∧ observation_id e = i).
  { intros i. rewrite elem_of_list_to_set, list_elem_of_fmap. setoid_rewrite list_elem_of_In.
    setoid_rewrite filter_In. setoid_rewrite <- list_elem_of_In. naive_solver. }
  revert Hel. generalize (list_to_set (observation_id <$> List.filter qualifies (evidence r)) : gset (list Z)) as X.
  intros X Hel. split.
  - intros Hs e e' He He' Hq Hq'. destruct (decide (observation_id e = observation_id e')) as [|Hne]; [done|].
    assert (Hsub : {[observation_id e; observation_id e']} ⊆ X).
    { intros i [->%elem_of_singleton| ->%elem_of_singleton]%elem_of_union; apply Hel; naive_solver. }
    apply subseteq_size in Hsub. rewrite size_union, !size_singleton in Hsub by set_solver. lia.
  - intros H. destruct (decide (X = ∅)) as [->|Hne]; [rewrite size_empty; lia|].
    apply set_choose_L in Hne as [i Hi]. assert (Hx : X ⊆ {[i]}).
    { intros j Hj. apply Hel in Hj as (e & He & Hq & <-). apply Hel in Hi as (e' & He' & Hq' & <-).
      apply elem_of_singleton. by apply H. }
    apply subseteq_size in Hx. rewrite size_singleton in Hx. lia.
Qed.
Lemma stale records now r :
  is_some_and (mapM (λ e, parse_date (Rollup.observed_at e)) (evidence r) ≫= newest)
    (λ t, STALE_AFTER_DAYS * day_ns <? now - t) = true ↔ deserves records now r Stale.
Proof.
  cbn [deserves]. generalize (STALE_AFTER_DAYS * day_ns) as k. intros k. rewrite is_some_and_true. split.
  - intros (t & Ht & Hk). apply bind_Some in Ht as (times & Hm & Hn). apply mapM_Some in Hm.
    split; [intros Hnil; rewrite Hnil in Hm; inversion Hm; by subst|]. intros e He.
    destruct times as [|t0 times]; [done|]. injection Hn as Hn. apply Z.ltb_lt in Hk.
    apply list_elem_of_lookup in He as [n Hl]. destruct (Forall2_lookup_l _ _ _ _ _ Hm Hl) as (t' & Hl' & Hp).
    exists t'. split; [done|]. apply list_elem_of_lookup_2 in Hl'.
    assert (t' < now - k); [|lia]. revert t' Hl' Hp. rewrite <- Hn in Hk.
    intros t' Hl' _. apply (proj2 (max_over times t0 (now - k))); [lia|done].
  - intros [Hne H]. assert (Hm : ∃ times, mapM (λ e, parse_date (Rollup.observed_at e)) (evidence r) = Some times).
    { clear Hne. induction (evidence r) as [|e l IH]; [by exists []|].
      destruct (H e) as (t & Ht & _); [by left|]. destruct IH as [ts Hts]; [intros e' He'; apply H; by right|].
      exists (t :: ts). apply mapM_Some. apply mapM_Some in Hts. by constructor. }
    destruct Hm as [times Hm]. pose proof Hm as Hf. apply mapM_Some in Hf. rewrite Hm. cbn.
    destruct times as [|t times]; [inversion Hf; congruence|]. eexists. split; [done|]. apply Z.ltb_lt.
    assert (fold_left Z.max times t < now - k); [|lia]. apply max_over. intros y Hy.
    apply list_elem_of_lookup in Hy as [n Hl]. destruct (Forall2_lookup_r _ _ _ _ _ Hf Hl) as (e & Hl' & Hp).
    destruct (H e) as (t' & Ht' & Hlt); [by eapply list_elem_of_lookup_2|]. assert (t' = y) as -> by congruence. lia.
Qed.
Lemma noise r :
  negb (length (evidence r) =? 0)%nat && forallb (λ e, (source e == Peon) && is_none (problem_area e)) (evidence r) = true
  ↔ evidence r ≠ [] ∧ ∀ e, e ∈ evidence r → source e = Peon ∧ problem_area e = None.
Proof.
  rewrite andb_true_iff, negb_true_iff, Nat.eqb_neq, length_zero_iff_nil, forallb_true, Forall_forall.
  split; intros [H1 H2]; (split; [done|]); intros e He; specialize (H2 e He).
  - apply andb_true_iff in H2 as [Hs Hp]. apply eqb_elim in Hs. split; [done|]. by destruct (problem_area e).
  - destruct H2 as [-> ->]. by rewrite eqb_refl.
Qed.
Lemma duplicate records now r :
  has_newer_proposed_sibling (family_context records r)
    || has_unextended_terminal_sibling (family_context records r) = true ↔ deserves records now r Duplicate.
Proof.
  cbn [deserves family_context has_newer_proposed_sibling has_unextended_terminal_sibling].
  rewrite orb_true_iff, !existsb_exists. setoid_rewrite filter_In. setoid_rewrite <- list_elem_of_In.
  apply ZifyClasses.or_morph; split.
  - intros (s & [Hs Hc] & H). apply andb_true_iff in H as [[Hi Hk]%andb_true_iff Hn].
    apply negb_true_iff, eqb_false in Hi. apply eqb_elim in Hk. by exists s.
  - intros (s & Hs & Hc & Hk & Hi & Hn). exists s. split; [done|].
    by rewrite Hn, (proj2 (eqb_true _ _) Hk), (proj2 (eqb_false _ _) Hi).
  - intros (s & Hs & H). apply andb_true_iff in H as [[Hk He]%andb_true_iff Hn]. apply eqb_elim in Hk.
    apply negb_true_iff in Hn. exists s. repeat (split; [done|]). rewrite <- chain_contains. by rewrite Hn.
  - intros (s & Hs & Hk & He & Hn). exists s. split; [done|]. rewrite He, (proj2 (eqb_true _ _) Hk). cbn.
    apply negb_true_iff. destruct (supersedes_chain_contains records r (id s)) eqn:E; [|done].
    by apply chain_contains in E.
Qed.
Lemma classify_exact records now r c :
  rollup_member_ids r = [] →
  c ∈ classify parse_date r (family_context records r) now ↔ deserves records now r c.
Proof.
  intros Hm. unfold classify. rewrite Hm. cbn [length Nat.eqb negb].
  rewrite !elem_of_app, !criterion_elem.
  split.
  - intros [[H ->]|[[H ->]|[[H ->]|[H ->]]]]; [by apply under_eligible|by apply noise|by apply (duplicate records now)|by apply (stale records now)].
  - destruct c; intros H.
    + left. split; [by apply under_eligible|done].
    + right; left. split; [by apply noise|done].
    + right; right; left. split; [by apply (duplicate records now)|done].
    + right; right; right. split; [by apply (stale records now)|done].
Qed.
End criteria.

(** ** Properties *)

Lemma omap_shorter {A B : Type} (f : A → option B) (l : list A) : (length (omap f l) <= length l)%nat.
Proof. induction l as [|x l IH]; [done|]. cbn. destruct (f x); cbn; lia. Qed.
Lemma candidate_members r : is_candidate r = true → rollup_member_ids r = [].
Proof.
  unfold is_candidate. rewrite !andb_true_iff. intros [[_ H] _]. by apply Nat.eqb_eq, nil_length_inv in H.
Qed.
Lemma audit_entry_Some parse_date records now r e :
  is_candidate r = true →
  audit_entry parse_date records now r = Some e ↔
  e = mkEntry (id r) (title r) (classify parse_date r (family_context records r) now) ∧ criteria e ≠ [].
Proof.
  intros Hc. unfold audit_entry. destruct (classify _ _ _ _) as [|c cs]; [naive_solver|].
  split; [by intros [= <-]|]. by intros [-> _].
Qed.
Lemma criteria_order parse_date r family now :
  classify parse_date r family now `sublist_of` [UnderEligible; Noise; Duplicate; Stale].
Proof.
  unfold classify. case_match; [apply sublist_nil_l|]. unfold criterion.
  repeat case_match; cbn [app]; repeat (apply sublist_skip || apply sublist_cons || apply sublist_nil_l || apply sublist_nil).
Qed.

(** What a card claims of the records it was made of. *)
Record card_exact (parse_date : list Z → option Z) (records : list Recommendation) (now : Z)
    (card : Recommendation) (a : AuditCleanup) : Prop := {
  card_open : status card = Proposed ∧ recommendation_type card = Cleanup ∧ requires_approval card = true
    ∧ evidence card = [] ∧ audit card = Some a;
  card_entries : ∀ e, e ∈ entries a ↔ ∃ r, r ∈ records ∧ is_candidate r = true
    ∧ entry_id e = id r ∧ entry_title e = title r
    ∧ criteria e = classify parse_date r (family_context records r) now ∧ criteria e ≠ [];
  card_criteria : ∀ r c, r ∈ records → is_candidate r = true →
    c ∈ classify parse_date r (family_context records r) now ↔ deserves parse_date records now r c;
  card_order' : ∀ e, e ∈ entries a → criteria e `sublist_of` [UnderEligible; Noise; Duplicate; Stale];
  card_nonempty : entries a ≠ [];
  card_counts : scanned a = (healthy a + length (entries a))%nat
    ∧ scanned a = length (List.filter is_candidate records);
}.
Section card.
Context (parse_date : list Z → option Z) (clock : Z) (stable_id : list Z → list (list Z) → list Z).
Context (records : list Recommendation).

Lemma found_elem now e :
  e ∈ omap (audit_entry parse_date records now) (List.filter is_candidate records) ↔
  ∃ r, r ∈ records ∧ is_candidate r = true
    ∧ entry_id e = id r ∧ entry_title e = title r
    ∧ criteria e = classify parse_date r (family_context records r) now ∧ criteria e ≠ [].
Proof.
  rewrite list_elem_of_omap. setoid_rewrite list_elem_of_In. setoid_rewrite filter_In.
  setoid_rewrite <- list_elem_of_In. split.
  - intros (r & [Hr Hc] & He). apply audit_entry_Some in He as [-> Hne]; [|done]. exists r. by cbn.
  - intros (r & Hr & Hc & Hi & Ht & Hcr & Hne). exists r. split; [done|]. apply audit_entry_Some; [done|].
    split; [|done]. destruct e as [i t cs]. cbn in *. by subst.
Qed.
Lemma card_Some workspace_id now prior card :
  build_cleanup_card parse_date clock stable_id records workspace_id now prior = Some card →
  ∃ a, card_exact parse_date records (default clock (parse_date now)) card a.
Proof.
  unfold build_cleanup_card. set (time := default clock (parse_date now)).
  pose proof (found_elem time) as Hfound.
  assert (Hlen : (length (omap (audit_entry parse_date records time) (List.filter is_candidate records))
                  <= length (List.filter is_candidate records))%nat) by apply omap_shorter.
  revert Hfound Hlen. generalize (omap (audit_entry parse_date records time) (List.filter is_candidate records)) as found.
  intros found Hfound Hlen. destruct (length found =? 0)%nat eqn:H0; [done|]. apply Nat.eqb_neq in H0.
  intros Hcard. exists (mkAudit found (length (List.filter is_candidate records))
    (length (List.filter is_candidate records) - length found) STALE_AFTER_DAYS).
  assert (Hopen : status card = Proposed ∧ recommendation_type card = Cleanup ∧ requires_approval card = true
    ∧ evidence card = [] ∧ audit card = Some (mkAudit found (length (List.filter is_candidate records))
        (length (List.filter is_candidate records) - length found) STALE_AFTER_DAYS)).
  { destruct prior; [|destruct (terminal_cleanup records)]; injection Hcard as <-; done. }
  split; cbn; [exact Hopen|exact Hfound| | | |].
  - intros r c _ Hc. by apply classify_exact, candidate_members.
  - intros e (r & _ & _ & _ & _ & -> & _)%Hfound. apply criteria_order.
  - by intros ->.
  - split; [lia|done].
Qed.
Lemma card_None workspace_id now prior r c :
  build_cleanup_card parse_date clock stable_id records workspace_id now prior = None →
  r ∈ records → is_candidate r = true →
  ¬ deserves parse_date records (default clock (parse_date now)) r c.
Proof.
  unfold build_cleanup_card. set (time := default clock (parse_date now)). intros H Hr Hc Hd.
  assert (Hin : c ∈ classify parse_date r (family_context records r) time) by by apply classify_exact, Hd; apply candidate_members.
  assert (He : mkEntry (id r) (title r) (classify parse_date r (family_context records r) time)
     ∈ omap (audit_entry parse_date records time) (List.filter is_candidate records)).
  { apply found_elem. exists r. cbn. repeat (split; [done|]). intros Hnil. rewrite Hnil in Hin.
    by apply elem_of_nil in Hin. }
  destruct (omap _ _) as [|e found]; [by apply elem_of_nil in He|]. cbn in H.
  destruct prior; [done|]. by destruct (terminal_cleanup records).
Qed.
End card.

(** C11: the audit proposes exactly what deserves it.  A card is made iff some proposed
    record of an exact family meets a criterion: fewer than two qualifying observations,
    only inferred and unlocated evidence, a newer sibling or an ended one that it does
    not supersede, or evidence older than fourteen days.  It lists each such record with
    all its criteria, in their order, and its counts add up. *)
Theorem audit_exact parse_date clock stable_id records workspace_id now prior :
  let time := default clock (parse_date now) in
  match build_cleanup_card parse_date clock stable_id records workspace_id now prior with
  | Some card => ∃ a, card_exact parse_date records time card a
  | None => ∀ r c, r ∈ records → is_candidate r = true → ¬ deserves parse_date records time r c
  end.
Proof.
  intros time. destruct (build_cleanup_card _ _ _ _ _ _ _) as [card|] eqn:H; [by eapply card_Some|].
  intros r c. by apply (card_None parse_date clock stable_id records workspace_id now prior).
Qed.

(** C26: the walk along the predecessors of a record always ends, on cycles too, and finds
    exactly what the record supersedes, directly or not. *)
Theorem chain_walk_exact records start target :
  chain_walk (chain_fuel records) records ∅ (supersedes_recommendation_id start) target
    = Some (supersedes_chain_contains records start target)
  ∧ (supersedes_chain_contains records start target = true ↔ extends records start target).
Proof.
  split; [|apply chain_contains]. unfold supersedes_chain_contains.
  by destruct (chain_walk_start records target start) as (b & -> & _).
Qed.

Lemma proposal_candidate stable_id existing workspace_id now f surface prior items :
  is_some (active_rollup_member existing prior) = false →
  is_candidate (build_proposal stable_id existing workspace_id now (dedupe_key_of f surface) surface prior items) = true.
Proof. intros H. unfold is_candidate. cbn [build_proposal status]. rewrite H. done. Qed.

(** C10: an updated successor is proposed for dismissal.  While the latest record of a
    family is proposed, an evaluation writes it anew without what it superseded; an audit
    of any records with this one and an ended sibling, be it the very record that was
    superseded, then makes a card that lists the successor as a duplicate. *)
Theorem updated_successor_flagged parse_date clock stable_id stable_id' iterate existing workspace_id now observations
    p r records d workspace_id' now' prior :
  (∀ groups, iterate groups ≡ₚ map_to_list groups) →
  p ∈ evaluate_workflow_improvements stable_id existing workspace_id now iterate observations →
  prior_of existing (dedupe_key p) = Some r → status r = Proposed →
  p ∈ records → d ∈ records → dedupe_key d = dedupe_key p → ended_status (status d) = true →
  ∃ card a e,
    build_cleanup_card parse_date clock stable_id' records workspace_id' now' prior = Some card
    ∧ audit card = Some a ∧ e ∈ entries a ∧ entry_id e = id p ∧ Duplicate ∈ criteria e.
Proof.
  intros Hi Hp Hr Hs Hin Hd Hk He.
  apply evaluated_made in Hp as (f & surface & [_ _ _ _ _ _ Hp] & _); [|done].
  rewrite Hr in Hp.
  assert (Hsup : supersedes_recommendation_id p = None).
  { rewrite Hp. cbn [build_proposal supersedes_recommendation_id].
    rewrite active_not_rolled by congruence. by rewrite terminal_proposed. }
  assert (Hcand : is_candidate p = true).
  { rewrite Hp. apply proposal_candidate. by rewrite active_not_rolled by congruence. }
  set (time := default clock (parse_date now')).
  assert (Hdup : deserves parse_date records time p Duplicate).
  { right. exists d. repeat (split; [done|]). intros (i & Hi' & _). congruence. }
  destruct (build_cleanup_card parse_date clock stable_id' records workspace_id' now' prior) as [card|] eqn:Hcard.
  - apply card_Some in Hcard as (a & [(_ & _ & _ & _ & Ha) Hent Hcrit _ _ _]). fold time in Hent, Hcrit.
    apply Hcrit in Hdup; [|done..]. exists card, a, (mkEntry (id p) (title p)
      (classify parse_date p (family_context records p) time)).
    split; [done|]. split; [done|]. split; [|done]. apply Hent. exists p. cbn. repeat (split; [done|]).
    intros Hnil. rewrite Hnil in Hdup. by apply elem_of_nil in Hdup.
  - by eapply card_None in Hcard.
Qed.

(** ** A concrete audit *)

(** The day of a time stamp of one digit. *)
Definition sample_date (s : list Z) : option Z :=
  match s with [c] => Some ((c - 48) * day_ns) | _ => None end.
Lemma updated_successor_flagged_witness :
  supersedes_recommendation_id sample_successor = Some (id sample_dismissed)
  ∧ ∃ card a e,
      build_cleanup_card sample_date 0 sample_stable [sample_updated; sample_dismissed] (bytes_of "w")
        (bytes_of "5") None = Some card
      ∧ audit card = Some a ∧ e ∈ entries a ∧ entry_id e = id sample_successor ∧ Duplicate ∈ criteria e.
Proof.
  split; [vm_compute; reflexivity|].
  assert (Hid : id sample_successor = id sample_updated) by (vm_compute; reflexivity). rewrite Hid.
  apply (updated_successor_flagged sample_date 0 sample_stable sample_stable map_to_list
    [sample_dismissed; sample_successor] (bytes_of "w") (bytes_of "4") sample_observations sample_updated
    sample_successor [sample_updated; sample_dismissed] sample_dismissed).
  - apply sample_iterate.
  - apply hd_elem. vm_compute. discriminate.
  - vm_compute. reflexivity.
  - vm_compute. reflexivity.
  - by left.
  - right. by left.
  - vm_compute. reflexivity.
  - reflexivity.
Defined.
