(* ===== verification/RecommendationRefresh.v ===== *)
(** * Refreshing and cleaning up recommendations

    What session_application.rs does to the store of recommendations for Taskmaster: it
    evaluates the workflow evidence and stores the proposals, with the projections of the
    roll-up parents whose members changed; it audits the records and stores, replaces or
    retires the card that proposes to dismiss some; and it carries an accepted card out.
    Each is one list and at most one transaction of the store.

    Arguments are those of the evaluation, the audit, the store and the projection.  That the
    workspace is still the one whose evaluation was asked for is the argument [current]. *)
From S2P Require Export RecommendationAudit RecommendationStore.
From S2P Require Import RecordCodec.

(** ** Roll-up parents *)

Definition max_reported (items : list WorkflowObservationEvidence) (otherwise : Impact) : Impact :=
  match reported_impact <$> items with
  | [] => otherwise
  | i :: rest => max_by impact_cmp i rest
  end.
Definition refresh_rollup_parent_projection (serialized_len : list WorkflowObservationEvidence → Z)
    (r : Recommendation) (members : list Recommendation) (now : list Z)
    : Recommendation :=
  let all_evidence := concat (evidence <$> members) in
  let projected := project_parent_evidence serialized_len all_evidence in
  let sessions := dedup (sort_by key_leb
                    (concat ((λ m, source_session_ids m ++ (session_id <$> evidence m)) <$> members))) in
  let impact := max_reported all_evidence (priority r) in
  mkRecommendation (access_redacted r) (id r) (workspace_id r) (chain_id r) (chain_depth r)
    (recommendation_type r) (status r) impact (title r) (summary r) (reasons r) projected
    (repository_evidence r) (knowledge_evidence r) sessions (target_session_id r)
    (if forallb (λ e, SFleb f_08 (confidence e)) all_evidence then HighConfidence else MediumConfidence)
    (requires_approval r) (dedupe_key r) (created_at r) now (proposed_improvement r) (improvement_surface r)
    (observation_id <$> projected) (Z.of_nat (length all_evidence)) sessions impact (expected_benefit r)
    (supersedes_recommendation_id r) (dismissal_watermark r) (completion_packet r) (audit r)
    (rollup_member_ids r) (rollup_member_dedupe_keys r) (rollup_generation r) (rolled_up_by r).

Section refresh.
Context (evidence_json : Evidence → list Z) (action_json : CompletionAction → list Z).
Context (sha256_hex : list Z → list Z).
Context (parse : list Z → option Recommendation) (render : Recommendation → list Z).
Context (serialized_len : list WorkflowObservationEvidence → Z).
Context (stable_id : list Z → list (list Z) → list Z) (iterate : Iteration).
Context (parse_date : list Z → option Z) (clock : Z).
Context (workspace_id : list Z).

Abbreviation listing := (list Recommendation * gmap (list Z) (list Z))%type.
Abbreviation list_with_hashes := (list_with_hashes evidence_json action_json sha256_hex parse).
Abbreviation apply_transaction :=
  (apply_recommendation_graph_transaction evidence_json action_json sha256_hex parse render).
Abbreviation expectations := (gmap (list Z) (option (list Z))).
Abbreviation by_id := (gmap (list Z) Recommendation).

(** ** Evaluation *)

Definition is_changed (existing : by_id) (p : Recommendation) : bool :=
  negb (is_some_and (existing !! id p) (λ r, same_record r p)).
Definition expected_hash (existing : by_id) (hashes : gmap (list Z) (list Z)) (i : list Z) : option (list Z) :=
  r ← existing !! i; hashes !! id r.
Definition refresh_parent (existing : by_id) (hashes : gmap (list Z) (list Z)) (now : list Z)
    (state : expectations * by_id) (parent_id : list Z) : expectations * by_id :=
  let '(expected, next) := state in
  match next !! parent_id with
  | None => state
  | Some parent =>
      if status parent != Proposed then state
      else match mapM (λ m, next !! m) (rollup_member_ids parent) with
           | None => state
           | Some members =>
               let refreshed := refresh_rollup_parent_projection serialized_len parent members now in
               (<[id refreshed := expected_hash existing hashes (id refreshed)]> expected,
                <[id refreshed := refreshed]> next)
           end
  end.
(** What the transaction expects and what it stores. *)
Definition refreshed (listed : listing) (proposals : list Recommendation) (now : list Z) : expectations * by_id :=
  let existing := by_id_of listed.1 in
  let changed := List.filter (is_changed existing) proposals in
  let expected := fold_left (λ m p, <[id p := expected_hash existing listed.2 (id p)]> m) changed ∅ in
  let next := fold_left (λ m p, <[id p := p]> m) proposals existing in
  let parents : gset (list Z) := list_to_set (omap rolled_up_by changed) in
  fold_left (refresh_parent existing listed.2 now) (sort_by key_leb (elements parents)) (expected, next).
Definition refresh_workflow_recommendations (current : bool) (observations : option (list Observation))
    (now : list Z) : IO unit :=
  match current, observations with
  | true, Some observations =>
      listed ← catch list_with_hashes;
      match listed with
      | Err _ => ret tt
      | Ok listed =>
          let proposals :=
            evaluate_workflow_improvements stable_id listed.1 workspace_id now iterate observations in
          let '(expected, next) := refreshed listed proposals now in
          if (size expected =? 0)%nat then ret tt
          else _ ← catch (apply_transaction expected (values next)); ret tt
      end
  | _, _ => ret tt
  end.

(** ** The cleanup card *)

Definition open_card (r : Recommendation) : bool := (recommendation_type r == Cleanup) && (status r == Proposed).
(** The first record with the id of [r] is replaced. *)
Fixpoint replace_record (r : Recommendation) (records : list Recommendation) : option (list Recommendation) :=
  match records with
  | [] => None
  | x :: records => if id x == id r then Some (r :: records) else cons x <$> replace_record r records
  end.
Definition run_recommendation_audit (now : list Z) : IO (option Recommendation) :=
  listed ← list_with_hashes;
  let '(existing, hashes) := listed in
  let prior := List.find open_card existing in
  match build_cleanup_card parse_date clock stable_id existing workspace_id now prior with
  | None =>
      match prior with
      | None => ret None
      | Some card =>
          let retired := move Superseded (target_session_id card) now (dismissal_watermark card)
                           (completion_packet card) card in
          match replace_record retired existing with
          | None => fail (GraphInvariant "active cleanup card disappeared during healthy audit")
          | Some next => _ ← apply_transaction {[id retired := hashes !! id retired]} next; ret None
          end
      end
  | Some card =>
      let next := List.filter (λ r, id r != id card) existing ++ [card] in
      _ ← apply_transaction {[id card := prior ≫= λ p, hashes !! id p]} next;
      ret (Some card)
  end.

Definition criterion_key (c : AuditCriterion) : list Z :=
  bytes_of match c with
           | UnderEligible => "under_eligible" | Noise => "noise" | Duplicate => "duplicate" | Stale => "stale"
           end.
Definition Skipped : Type := list Z * RecommendationStatus.
Record Cleaning : Type := mkCleaning {
  next_records : list Recommendation;
  expected_hashes : expectations;
  skipped : list Skipped;
}.
Definition audit_reason (c : AuditCriterion) (card_id : list Z) : list Z :=
  bytes_of "audit:" ++ criterion_key c ++ bytes_of "@" ++ card_id.
(** The body of the loop over the entries. *)
Definition clean_entry (hashes : gmap (list Z) (list Z)) (card_id now : list Z) (e : AuditCleanupEntry)
    (s : Cleaning) : result StoreError Cleaning :=
  match List.find (λ r, id r == entry_id e) (next_records s) with
  | None => Err InvalidTransition
  | Some r =>
      if status r != Proposed then
        Ok (mkCleaning (next_records s) (expected_hashes s) (skipped s ++ [(id r, status r)]))
      else match criteria e with
           | [] => Err InvalidTransition
           | c :: _ =>
               let dismissed := dismissed_record r now (Some (audit_reason c card_id)) in
               Ok (mkCleaning (default (next_records s) (replace_record dismissed (next_records s)))
                     (<[id dismissed := hashes !! id dismissed]> (expected_hashes s)) (skipped s))
           end
  end.
Fixpoint clean_entries (hashes : gmap (list Z) (list Z)) (card_id now : list Z) (es : list AuditCleanupEntry)
    (s : Cleaning) : result StoreError Cleaning :=
  match es with
  | [] => Ok s
  | e :: es => s ← clean_entry hashes card_id now e s; clean_entries hashes card_id now es s
  end.
Definition complete_card (card : Recommendation) (now : list Z) : Recommendation :=
  move Completed (target_session_id card) now (dismissal_watermark card) (completion_packet card) card.
Definition accept_cleanup_recommendation (i now : list Z) : IO (option (Recommendation * list Skipped)) :=
  listed ← list_with_hashes;
  let '(existing, hashes) := listed in
  match List.find (λ r, id r == i) existing with
  | None => ret None
  | Some card =>
      match audit card with
      | Some found =>
          if negb (open_card card) then fail InvalidTransition
          else
            cleaning ← of_result (clean_entries hashes (id card) now (entries found) (mkCleaning existing ∅ []));
            let completed := complete_card card now in
            match replace_record completed (next_records cleaning) with
            | None => fail InvalidTransition
            | Some next =>
                _ ← apply_transaction
                      (<[id completed := hashes !! id completed]> (expected_hashes cleaning)) next;
                ret (Some (completed, skipped cleaning))
            end
      | None => fail InvalidTransition
      end
  end.
End refresh.

(** ** One list, one transaction *)

Section at_files.
Context (evidence_json : Evidence → list Z) (action_json : CompletionAction → list Z).
Context (sha256_hex : list Z → list Z) {Hinj : Inj (=) (=) sha256_hex}.
Context (parse : list Z → option Recommendation) (render : Recommendation → list Z).
Context (Hparse : ∀ r, parse (render r) = Some r).
Implicit Types (F : gmap (list Z) (list Z)) (r : Recommendation) (d : Dir).

Abbreviation sound := (sound evidence_json action_json sha256_hex parse).
Abbreviation good := (good evidence_json action_json sha256_hex parse).
Abbreviation holds := (holds parse).
Abbreviation transacted := (transacted sha256_hex parse).
Abbreviation answer := (answer evidence_json action_json sha256_hex parse).
Abbreviation list_with_hashes := (list_with_hashes evidence_json action_json sha256_hex parse).
Abbreviation apply_transaction :=
  (apply_recommendation_graph_transaction evidence_json action_json sha256_hex parse render).

(** The answer of a list, as a fact about the files. *)
Definition listing_of F (l : list Recommendation * gmap (list Z) (list Z)) : Prop :=
  answer F = Some l ∧ NoDup (id <$> l.1) ∧ ∀ r, r ∈ l.1 ↔ holds F r.
Lemma keeps_list_at {g : bool} (R : gmap (list Z) (list Z) → Prop) F :
  sound F → R F → keeps_in g (good R) (ended F) list_with_hashes (λ l d, ended F d ∧ listing_of F l).
Proof.
  intros Hs HR. eapply keeps_weaken; [by apply (keeps_list_ended _ _ _ _ (eq F) F)| |done|].
  - intros d. apply good_mono. by intros F' <-.
  - intros l d (Hd & F' & _ & Hs' & <- & Ha & Hn & Hl & _). done.
Qed.
Lemma runs_list_at F d l d' : sound F → ended F d → runs list_with_hashes d (Ok l) d' → listing_of F l.
Proof.
  intros Hs Hd Hr. pose proof (keeps_exit _ _ _ _ d [] (keeps_list_at (λ _, True) F Hs I) (admits_nil true) Hd) as Hk.
  unfold runs in Hr. rewrite Hr in Hk. apply Hk.
Qed.

(** After something that left [F] or something in [R], a list without faults answers for
    what is there. *)
Lemma list_after (R : gmap (list Z) (list Z) → Prop) d :
  good R d → ∃ l F d', runs list_with_hashes d (Ok l) d' ∧ sound F ∧ R F ∧ listing_of F l.
Proof.
  intros Hg. destruct (succeeds_list evidence_json action_json sha256_hex parse R d Hg)
    as (l & d' & Hr & F & Hd & Hs & HR & Ha & Hn & Hl & _).
  exists l, F, d'. done.
Qed.
Lemma exit_good {A : Type} (R : gmap (list Z) (list Z) → Prop) P (m : IO A) d os :
  keeps_in false (good R) P m (λ _, good R) → P d → good R (m d os).1.2.
Proof.
  intros Hk Hd. pose proof (keeps_exit _ _ _ _ d os Hk (admits_any os) Hd) as H.
  by destruct (m d os) as [[[[a|e]|] d'] os'].
Qed.

(** ** Accepting a card *)

(** What accepting [card] makes of a record. *)
Definition dismissed_by (card_id now : list Z) (es : list AuditCleanupEntry) (r : Recommendation) : Recommendation :=
  match List.find (λ e, entry_id e == id r) es with
  | Some e =>
      match criteria e with
      | c :: _ => if status r == Proposed then dismissed_record r now (Some (audit_reason c card_id)) else r
      | [] => r
      end
  | None => r
  end.
Definition cleaned (card : Recommendation) (now : list Z) (es : list AuditCleanupEntry) (r : Recommendation)
    : Recommendation :=
  if id r == id card then complete_card card now else dismissed_by (id card) now es r.
(** What it reports: the listed records that are not proposed any more. *)
Definition changed_since (records : list Recommendation) (es : list AuditCleanupEntry) : list Skipped :=
  omap (λ e, match List.find (λ r, id r == entry_id e) records with
             | Some r => if status r == Proposed then None else Some (id r, status r)
             | None => None
             end) es.

Lemma replace_record_spec r l :
  id r ∈ id <$> l → NoDup (id <$> l) →
  replace_record r l = Some ((λ x, if id x == id r then r else x) <$> l).
Proof.
  induction l as [|x l IH]; intros Hin Hn; [by apply elem_of_nil in Hin|]. cbn in Hn |- *.
  apply NoDup_cons in Hn as [Hx Hn]. destruct (id x == id r) eqn:E.
  - apply eqb_elim in E. do 2 f_equal. symmetry. rewrite <- (list_fmap_id l) at 2. apply list_fmap_ext.
    intros k y Hy. destruct (id y == id r) eqn:E'; [|done]. apply eqb_elim in E'. destruct Hx.
    rewrite E, <- E'. apply list_elem_of_fmap_2. by apply list_elem_of_lookup_2 in Hy.
  - rewrite IH; [done| |done]. apply elem_of_cons in Hin as [Heq|]; [|done].
    by rewrite Heq, eqb_refl in E.
Qed.
Lemma dismissed_id r now why : id (dismissed_record r now why) = id r.
Proof. done. Qed.
Lemma dismissed_by_id card_id now es r : id (dismissed_by card_id now es r) = id r.
Proof. unfold dismissed_by. by repeat case_match. Qed.
Lemma dismissed_by_skip card_id now e es r :
  id r ≠ entry_id e → dismissed_by card_id now (e :: es) r = dismissed_by card_id now es r.
Proof.
  intros H. unfold dismissed_by. cbn [List.find]. destruct (entry_id e == id r) eqn:E; [|done].
  apply eqb_elim in E. congruence.
Qed.
Lemma dismissed_by_unlisted card_id now es r :
  id r ∉ entry_id <$> es → dismissed_by card_id now es r = r.
Proof.
  induction es as [|e es IH]; [done|]. intros [Hne H]%not_elem_of_cons. rewrite dismissed_by_skip by done. by apply IH.
Qed.
Lemma find_id_Some l i r : List.find (λ r, id r == i) l = Some r → r ∈ l ∧ id r = i.
Proof. intros [Hin Hi]%find_some. apply list_elem_of_In in Hin. split; [done|]. by apply eqb_elim. Qed.
Lemma find_id_map (g : Recommendation → Recommendation) l i :
  (∀ r, id (g r) = id r) → List.find (λ r, id r == i) (g <$> l) = g <$> List.find (λ r, id r == i) l.
Proof. intros Hg. induction l as [|r l IH]; [done|]. cbn. rewrite Hg. by destruct (id r == i). Qed.
Lemma one_id l r r' : NoDup (id <$> l) → r ∈ l → r' ∈ l → id r = id r' → r = r'.
Proof.
  intros Hn [n Hr]%list_elem_of_lookup [n' Hr']%list_elem_of_lookup Hi.
  assert (n = n') as ->; [|congruence].
  apply (NoDup_lookup (id <$> l) n n' (id r)); [done|by rewrite list_lookup_fmap, Hr|].
  by rewrite list_lookup_fmap, Hr', Hi.
Qed.

Section entries.
Context (hashes : gmap (list Z) (list Z)) (card_id now : list Z).

Lemma clean_entry_Ok e es s s' :
  clean_entry hashes card_id now e s = Ok s' → NoDup (id <$> next_records s) → entry_id e ∉ entry_id <$> es →
  dismissed_by card_id now es <$> next_records s' = dismissed_by card_id now (e :: es) <$> next_records s
  ∧ id <$> next_records s' = id <$> next_records s
  ∧ skipped s' ++ changed_since (next_records s') es = skipped s ++ changed_since (next_records s) (e :: es).
Proof.
  intros H Hn He. unfold clean_entry in H.
  destruct (List.find _ (next_records s)) as [r|] eqn:Hf; [|done]. pose proof (find_id_Some _ _ _ Hf) as [Hin Hi].
  assert (Hother : ∀ x, x ∈ next_records s → x ≠ r →
            dismissed_by card_id now (e :: es) x = dismissed_by card_id now es x).
  { intros x Hx Hne. apply dismissed_by_skip. rewrite <- Hi. intros Heq. by destruct Hne; eapply one_id. }
  assert (Hes : ∀ r', id r' = id r → dismissed_by card_id now es r' = r').
  { intros r' Hr'. apply dismissed_by_unlisted. by rewrite Hr', Hi. }
  assert (Hhere : List.find (λ e', entry_id e' == id r) (e :: es) = Some e) by by cbn; rewrite Hi, eqb_refl.
  unfold changed_since. cbn [omap list_omap]. fold (changed_since (next_records s) es). rewrite Hf.
  destruct (status r != Proposed) eqn:Hs.
  - injection H as <-. cbn [next_records skipped]. apply neqb_true in Hs.
    rewrite (proj2 (eqb_false _ _) Hs). split; [|split; [done|by rewrite <- app_assoc]].
    apply list_fmap_ext. intros k x Hx%list_elem_of_lookup_2.
    destruct (decide (x = r)) as [->|Hne]; [|by rewrite Hother].
    rewrite Hes by done. unfold dismissed_by. rewrite Hhere, (proj2 (eqb_false _ _) Hs). by destruct (criteria e).
  - apply neqb_elim in Hs. destruct (criteria e) as [|c cs] eqn:Hc; [done|]. injection H as <-.
    rewrite Hs, eqb_refl. cbn [next_records skipped].
    set (d := dismissed_record r now (Some (audit_reason c card_id))). assert (Hd : id d = id r) by done.
    rewrite (replace_record_spec d); [|rewrite Hd; by apply (list_elem_of_fmap_2 id)|done]. unfold default, from_option, Datatypes.id.
    rewrite Hd. set (g := λ x, if id x == id r then d else x).
    assert (Hg : ∀ x, id (g x) = id x).
    { intros x. unfold g. destruct (id x == id r) eqn:E; [|done]. by apply eqb_elim in E. }
    rewrite <- !list_fmap_compose. split; [|split].
    + apply list_fmap_ext. intros k x Hx%list_elem_of_lookup_2. unfold compose, g.
      destruct (decide (x = r)) as [->|Hne].
      * rewrite eqb_refl, Hes by done. unfold dismissed_by. by rewrite Hhere, Hc, Hs, eqb_refl.
      * rewrite Hother by done. destruct (id x == id r) eqn:E; [|done]. apply eqb_elim in E.
        by destruct Hne; eapply one_id.
    + apply list_fmap_ext. intros k x _. apply Hg.
    + f_equal. apply list_omap_ext, Forall_Forall2_diag, Forall_forall. intros e' He'.
      rewrite (find_id_map g) by done.
      destruct (List.find (λ r0, id r0 == entry_id e') (next_records s)) as [x|] eqn:Hx; [|done]. cbn.
      apply find_id_Some in Hx as [_ Hx]. unfold g. destruct (id x == id r) eqn:E; [|done].
      apply eqb_elim in E. destruct He. rewrite <- Hi, <- E, Hx. by apply list_elem_of_fmap_2.
Qed.
Lemma clean_entries_Ok es s s' :
  clean_entries hashes card_id now es s = Ok s' → NoDup (id <$> next_records s) → NoDup (entry_id <$> es) →
  next_records s' = dismissed_by card_id now es <$> next_records s
  ∧ skipped s' = skipped s ++ changed_since (next_records s) es.
Proof.
  revert s. induction es as [|e es IH]; intros s H Hn He.
  { injection H as <-. by rewrite app_nil_r, list_fmap_id. }
  cbn [clean_entries] in H. destruct (clean_entry hashes card_id now e s) as [s1|] eqn:H1; [|done].
  apply NoDup_cons in He as [He Hes]. destruct (clean_entry_Ok e es s s1 H1 Hn He) as (Hr & Hids & Hsk).
  destruct (IH s1 H) as [-> ->]; [by rewrite Hids|done|done].
Qed.
End entries.

Abbreviation accept := (accept_cleanup_recommendation evidence_json action_json sha256_hex parse render).

(** The card and all that it lists are done with at once. *)
Record cleanup_done F i now card found F' : Prop := {
  done_card : holds F card ∧ id card = i ∧ audit card = Some found ∧ open_card card = true;
  done_records : ∀ r, holds F' r ↔ ∃ r0, holds F r0 ∧ r = cleaned card now (entries found) r0;
}.
Definition skips F (es : list AuditCleanupEntry) (sk : list Skipped) : Prop :=
  ∀ x, x ∈ sk ↔ ∃ e r, e ∈ es ∧ holds F r ∧ id r = entry_id e ∧ status r ≠ Proposed ∧ x = (id r, status r).
Definition distinct_entries F i : Prop :=
  ∀ card a, holds F card → id card = i → audit card = Some a → NoDup (entry_id <$> entries a).

Lemma cleaned_all card now es hashes s next l :
  clean_entries hashes (id card) now es (mkCleaning l ∅ []) = Ok s → NoDup (id <$> l) → NoDup (entry_id <$> es) →
  replace_record (complete_card card now) (next_records s) = Some next → card ∈ l →
  next = cleaned card now es <$> l ∧ skipped s = changed_since l es.
Proof.
  intros Hc Hn He Hr Hin. destruct (clean_entries_Ok _ _ _ _ _ _ Hc Hn He) as [Hnext Hsk]. cbn in Hnext, Hsk.
  split; [|done]. assert (Hids : id <$> next_records s = id <$> l).
  { rewrite Hnext, <- list_fmap_compose. apply list_fmap_ext. intros k x _. apply dismissed_by_id. }
  rewrite replace_record_spec in Hr.
  - injection Hr as <-. rewrite Hnext, <- list_fmap_compose. apply list_fmap_ext. intros k x _.
    unfold compose, cleaned. by rewrite dismissed_by_id.
  - rewrite Hids. change (id card ∈ id <$> l). by apply list_elem_of_fmap_2.
  - by rewrite Hids.
Qed.
Lemma changed_skips F (l : list Recommendation) es :
  NoDup (id <$> l) → (∀ r, r ∈ l ↔ holds F r) → skips F es (changed_since l es).
Proof.
  intros Hn Hl x. unfold changed_since. rewrite list_elem_of_omap. split.
  - intros (e & He & Hx). destruct (List.find _ _) as [r|] eqn:Hf; [|done].
    apply find_id_Some in Hf as [Hr Hi]. destruct (status r == Proposed) eqn:Hs; [done|].
    injection Hx as <-. exists e, r. apply eqb_false in Hs. by rewrite <- Hl.
  - intros (e & r & He & Hr & Hi & Hs & ->). exists e. split; [done|]. apply Hl in Hr.
    destruct (List.find _ _) as [r'|] eqn:Hf.
    + apply find_id_Some in Hf as [Hr' Hi']. assert (r' = r) as -> by (eapply one_id; [done..|congruence]).
      by rewrite (proj2 (eqb_false _ _) Hs).
    + apply list_elem_of_In in Hr. apply (find_none _ _ Hf) in Hr. by rewrite Hi, eqb_refl in Hr.
Qed.
Lemma cleaned_id card now es r : id (cleaned card now es r) = id r.
Proof. unfold cleaned. destruct (id r == id card) eqn:E; [by apply eqb_elim in E|apply dismissed_by_id]. Qed.

Lemma keeps_accept F i now :
  let R := λ F', F' = F ∨ ∃ card found, cleanup_done F i now card found F' in
  sound F → distinct_entries F i →
  keeps_in false (good R) (ended F) (accept i now)
    (λ o d, good R d ∧ ∀ completed sk, o = Some (completed, sk) → ∃ F' card found,
       ended F' d ∧ sound F' ∧ cleanup_done F i now card found F' ∧ completed = complete_card card now
       ∧ skips F (entries found) sk).
Proof.
  intros R Hs Hdist. assert (HR : R F) by by left.
  eapply keeps_bind; [by apply keeps_list_at|]. intros [existing hashes]. apply keeps_pure. intros (Ha & Hn & Hl).
  cbn [fst] in Hn, Hl.
  destruct (List.find (λ r, id r == i) existing) as [card|] eqn:Hf.
  2: { apply keeps_ret. intros d Hd. split; [by apply (ended_good _ _ _ _ R F)|done]. }
  apply find_id_Some in Hf as [Hin Hi].
  destruct (audit card) as [found|] eqn:Haud; [|apply keeps_fail; intros d Hd; by apply (ended_good _ _ _ _ R F)].
  branch Ho; [apply keeps_fail; intros d Hd; by apply (ended_good _ _ _ _ R F)|]. apply negb_false_iff in Ho.
  assert (Hcard : holds F card) by by apply Hl. pose proof (Hdist card found Hcard Hi Haud) as Hent.
  eapply keeps_bind; [by apply (keeps_result _ _ _ _ R F)|]. intros cleaning. apply keeps_pure. intros Hc. cbv zeta.
  destruct (replace_record _ _) as [next|] eqn:Hr; [|apply keeps_fail; intros d Hd; by apply (ended_good _ _ _ _ R F)].
  destruct (cleaned_all _ _ _ _ _ _ _ Hc Hn Hent Hr Hin) as [-> Hsk].
  assert (Hdone : ∀ expected F', transacted F expected (cleaned card now (entries found) <$> existing) F' →
            cleanup_done F i now card found F').
  { intros expected F' Htx. split; [done|]. intros r. rewrite (transacted_records _ _ _ _ _ _ Htx), list_elem_of_fmap.
    setoid_rewrite Hl. naive_solver. }
  eapply keeps_bind.
  { apply (keeps_apply_exact _ _ _ _ _ Hparse R F); [done|done| |].
    - intros r (r0 & -> & Hr0)%list_elem_of_fmap. rewrite cleaned_id. by apply Hl.
    - intros F' Htx. right. exists card, found. by eapply Hdone. }
  intros u. apply keeps_ret. intros d (F' & Hd & Hs' & Htx).
  split; [apply (ended_good _ _ _ _ R F'); [done| |done]; right; exists card, found; by eapply Hdone|].
  intros completed sk [= <- <-]. exists F', card, found.
  split; [done|]. split; [done|]. split; [by eapply Hdone|]. split; [done|]. rewrite Hsk. by apply changed_skips.
Qed.

(** ** Running the audit *)

Section auditing.
Context (parse_date : list Z → option Z) (clock : Z) (workspace_id : list Z).
Context (stable_id : list Z → list (list Z) → list Z).
(** The digest of the standard library is a number; its text is safe in a name. *)
Context (Hstable : ∀ key ids, forallb id_byte (stable_id key ids) = true).

Abbreviation run_audit :=
  (run_recommendation_audit evidence_json action_json sha256_hex parse render stable_id parse_date clock
     workspace_id).

Definition one_open F : Prop :=
  ∀ r r', holds F r → holds F r' → open_card r = true → open_card r' = true → r = r'.
Definition retired (now : list Z) (r : Recommendation) : Recommendation :=
  if open_card r then move Superseded (target_session_id r) now (dismissal_watermark r) (completion_packet r) r else r.
Lemma retired_id now r : id (retired now r) = id r.
Proof. unfold retired. by destruct (open_card r). Qed.
(** What an audit of [F] that answers [o] leaves. *)
Definition audit_done F now (o : option Recommendation) F' : Prop :=
  ∃ records, (∀ r, r ∈ records ↔ holds F r) ∧
  let time := default clock (parse_date now) in
  match o with
  | Some card =>
      (∃ a, card_exact parse_date records time card a)
      ∧ (∀ r, holds F' r ↔ r = card ∨ (holds F r ∧ id r ≠ id card))
      ∧ ∀ r, holds F r → open_card r = true → id r = id card
  | None =>
      (∀ r c, holds F r → is_candidate r = true → ¬ deserves parse_date records time r c)
      ∧ ∀ r, holds F' r ↔ ∃ r0, holds F r0 ∧ r = retired now r0
  end.
Lemma audit_one_open F now o F' : one_open F → audit_done F now o F' → one_open F'.
Proof.
  intros Hone (records & Hr & Hdo). destruct o as [card|].
  - destruct Hdo as (_ & Hh & Hopen). intros r r' H1 H2 Ho1 Ho2. apply Hh in H1 as [->|[H1 Hn1]].
    + apply Hh in H2 as [->|[H2 Hn2]]; [done|]. by destruct Hn2; apply Hopen.
    + by destruct Hn1; apply Hopen.
  - destruct Hdo as [_ Hh]. intros r r' (r0 & H1 & ->)%Hh (r1 & H2 & ->)%Hh Ho1 Ho2.
    unfold retired in Ho1. destruct (open_card r0) eqn:E; [|congruence].
    unfold open_card in Ho1. cbn in Ho1. by rewrite andb_false_r in Ho1.
Qed.
Lemma stable_valid key ids : valid_id (bytes_of "recommendation-" ++ stable_id key ids) = true.
Proof. unfold valid_id. rewrite forallb_app, Hstable. reflexivity. Qed.
Lemma card_valid records now prior card :
  build_cleanup_card parse_date clock stable_id records workspace_id now prior = Some card →
  match prior with Some p => id card = id p | None => valid_id (id card) = true end.
Proof.
  unfold build_cleanup_card. destruct (_ =? 0)%nat; [done|]. intros H.
  destruct prior; [by injection H as <-|]. destruct (terminal_cleanup records); injection H as <-; apply stable_valid.
Qed.
Lemma open_found (l : list Recommendation) r F :
  (∀ r, r ∈ l ↔ holds F r) → one_open F → holds F r → open_card r = true → List.find open_card l = Some r.
Proof.
  intros Hl Hone Hr Ho. destruct (List.find open_card l) as [r'|] eqn:Hf.
  - apply find_some in Hf as [Hin Ho']. apply list_elem_of_In, Hl in Hin. f_equal. by apply Hone.
  - apply Hl, list_elem_of_In in Hr. apply (find_none _ _ Hf) in Hr. congruence.
Qed.

Lemma audited_card F records now card prior F' expected :
  let next := List.filter (λ r, id r != id card) records ++ [card] in
  (∀ r, r ∈ records ↔ holds F r) → one_open F → prior = List.find open_card records →
  build_cleanup_card parse_date clock stable_id records workspace_id now prior = Some card →
  transacted F expected next F' → audit_done F now (Some card) F'.
Proof.
  intros next Hl Hone -> Hcard Htx. exists records. split; [done|]. cbv zeta. split; [by eapply card_Some|]. split.
  - intros r. rewrite (transacted_records _ _ _ _ _ _ Htx). unfold next.
    rewrite elem_of_app, list_elem_of_singleton, list_elem_of_In, filter_In, <- list_elem_of_In, Hl, neqb_true. tauto.
  - intros r Hr Ho. apply card_valid in Hcard. by rewrite (open_found records r F) in Hcard.
Qed.
Lemma audited_none F records now F' :
  (∀ r, r ∈ records ↔ holds F r) →
  build_cleanup_card parse_date clock stable_id records workspace_id now (List.find open_card records) = None →
  (∀ r, holds F' r ↔ ∃ r0, holds F r0 ∧ r = retired now r0) → audit_done F now None F'.
Proof.
  intros Hl Hcard H. exists records. split; [done|]. split; [|done]. intros r c Hr. apply Hl in Hr.
  by eapply card_None.
Qed.
Lemma retired_all F records now c :
  (∀ r, r ∈ records ↔ holds F r) → NoDup (id <$> records) → one_open F → List.find open_card records = Some c →
  replace_record (retired now c) records = Some (retired now <$> records).
Proof.
  intros Hl Hn Hone Hf. apply find_some in Hf as [Hin Ho]. apply list_elem_of_In in Hin.
  rewrite replace_record_spec; [|rewrite retired_id; by apply list_elem_of_fmap_2|done]. f_equal. rewrite retired_id.
  apply list_fmap_ext. intros k x Hx%list_elem_of_lookup_2. destruct (id x == id c) eqn:E.
  - apply eqb_elim in E. by rewrite (one_id records x c).
  - unfold retired. destruct (open_card x) eqn:Hx'; [|done].
    assert (x = c) as -> by (apply Hone; [by apply Hl..|done|done]). by rewrite eqb_refl in E.
Qed.

Lemma keeps_run_audit F now :
  let R := λ F', F' = F ∨ ∃ o, audit_done F now o F' in
  sound F → one_open F →
  keeps_in false (good R) (ended F) (run_audit now) (λ o d, ∃ F', ended F' d ∧ sound F' ∧ audit_done F now o F').
Proof.
  intros R Hs Hone. assert (HR : R F) by by left.
  eapply keeps_bind; [by apply keeps_list_at|]. intros [existing hashes]. apply keeps_pure. intros (Ha & Hn & Hl).
  cbn [fst] in Hn, Hl. cbv zeta. assert (Hvalid : ∀ r, r ∈ existing → valid_id (id r) = true) by (intros r Hr; by apply Hl).
  destruct (build_cleanup_card _ _ _ _ _ _ _) as [card|] eqn:Hcard.
  - eapply keeps_bind.
    { apply (keeps_apply_exact _ _ _ _ _ Hparse R F); [done|done| |].
      - intros r. rewrite elem_of_app, list_elem_of_singleton, list_elem_of_In, filter_In, <- list_elem_of_In.
        intros [[Hr _]| ->]; [by apply Hvalid|]. pose proof (card_valid _ _ _ _ Hcard) as Hv.
        destruct (List.find open_card existing) as [p|] eqn:Hf; [|done]. rewrite Hv. apply Hvalid, list_elem_of_In.
        by apply find_some in Hf as [? _].
      - intros F' Htx. right. exists (Some card). by eapply audited_card. }
    intros u. apply keeps_ret. intros d (F' & Hd & Hs' & Htx). exists F'. split; [done|]. split; [done|].
    by eapply audited_card.
  - destruct (List.find open_card existing) as [c|] eqn:Hf.
    + pose proof (retired_all F existing now c Hl Hn Hone Hf) as Hret.
      assert (Hc : open_card c = true) by by apply find_some in Hf as [_ ?].
      unfold retired in Hret at 1. rewrite Hc in Hret. rewrite Hret.
      assert (Hdone : ∀ expected F', transacted F expected (retired now <$> existing) F' → audit_done F now None F').
      { intros expected F' Htx. eapply audited_none; [done|by rewrite Hf|]. intros r.
        rewrite (transacted_records _ _ _ _ _ _ Htx), list_elem_of_fmap. setoid_rewrite Hl. naive_solver. }
      eapply keeps_bind.
      { apply (keeps_apply_exact _ _ _ _ _ Hparse R F); [done|done| |].
        - intros r (r0 & -> & Hr0)%list_elem_of_fmap. rewrite retired_id. by apply Hvalid.
        - intros F' Htx. right. exists None. by eapply Hdone. }
      intros u. apply keeps_ret. intros d (F' & Hd & Hs' & Htx). exists F'. split; [done|]. split; [done|].
      by eapply Hdone.
    + apply keeps_ret. intros d Hd. exists F. split; [done|]. split; [done|].
      eapply audited_none; [done|by rewrite Hf|]. intros r.
      assert (Hr : ∀ r, holds F r → retired now r = r).
      { intros r' Hr'. unfold retired. destruct (open_card r') eqn:Ho; [|done].
        rewrite (open_found existing r' F) in Hf by done. done. }
      split; [intros H; exists r; by rewrite Hr|]. intros (r0 & H & ->). by rewrite Hr.
Qed.
End auditing.

(** ** Refreshing *)

Section refreshing.
Context (serialized_len : list WorkflowObservationEvidence → Z).

(** A map of records has them under their ids. *)
Definition keyed (m : gmap (list Z) Recommendation) : Prop := ∀ i r, m !! i = Some r → id r = i.
Lemma keyed_insert m r : keyed m → keyed (<[id r := r]> m).
Proof. intros H i x [[<- <-]|[_ Hx]]%lookup_insert_Some; [done|by apply H]. Qed.
Lemma insert_all (l : list Recommendation) (m : gmap (list Z) Recommendation) :
  keyed m →
  let m' := fold_left (λ m p, <[id p := p]> m) l m in
  keyed m'
  ∧ (∀ i, is_Some (m' !! i) ↔ i ∈ id <$> l ∨ is_Some (m !! i))
  ∧ (∀ i, i ∉ id <$> l → m' !! i = m !! i)
  ∧ (NoDup (id <$> l) → ∀ p, p ∈ l → m' !! id p = Some p).
Proof.
  revert m. induction l as [|p l IH]; intros m Hm; cbn [fold_left].
  { cbv zeta. split; [done|]. split; [intros i; cbn; set_solver|]. split; [done|]. by intros _ p ?%elem_of_nil. }
  destruct (IH (<[id p := p]> m)) as (Hk & Hdom & Hout & Hin); [by apply keyed_insert|].
  split; [done|]. split; [|split].
  - intros i. rewrite Hdom, lookup_insert_is_Some', fmap_cons, elem_of_cons. naive_solver.
  - intros i [Hne Hi]%not_elem_of_cons. by rewrite Hout, lookup_insert_ne.
  - intros [Hp Hn]%NoDup_cons q [->|Hq]%elem_of_cons; [|by apply Hin]. by rewrite Hout, lookup_insert_eq.
Qed.

(** ** The specification of a refresh *)

(** [a] comes before [b] in the order of ids. *)
Definition key_before (a b : list Z) : bool := negb (key_leb b a).
(** The parent [i] is projected when its turn comes: the members that come before it are
    as they end, and all others as they were. *)
Definition project_in_turn (now : list Z) (before final : gmap (list Z) Recommendation) (i : list Z)
    : option Recommendation :=
  match before !! i with
  | Some parent =>
      if status parent == Proposed then
        match mapM (λ m, if key_before m i then final !! m else before !! m) (rollup_member_ids parent) with
        | Some members => Some (refresh_rollup_parent_projection serialized_len parent members now)
        | None => Some parent
        end
      else Some parent
  | None => None
  end.
(** What a refresh makes of [records]: exactly the [final] records.  A record, or the
    proposal that replaces it, is final as it is unless a changed proposal names it as its
    parent; such a parent is projected from all of its members, in their order, if it is
    proposed and every member is there, and stays if not. *)
Definition refreshed_to (now : list Z) (records proposals l : list Recommendation) : Prop :=
  ∃ final : gmap (list Z) Recommendation,
    (∀ r, r ∈ l ↔ final !! id r = Some r) ∧ (∀ i r, final !! i = Some r → id r = i)
    ∧ ∀ i, let before := by_id_of (records ++ proposals) in
        ((∃ p, p ∈ proposals ∧ is_changed (by_id_of records) p = true ∧ rolled_up_by p = Some i)
         ∧ final !! i = project_in_turn now before final i)
        ∨ ((∀ p, p ∈ proposals → is_changed (by_id_of records) p = true → rolled_up_by p ≠ Some i)
           ∧ final !! i = before !! i).

Lemma key_before_le a b : key_before a b = true → key_leb a b = true.
Proof. unfold key_before. rewrite negb_true_iff. intros H. destruct (key_le_total a b) as [|H']; [done|]. unfold key_le, le_by in *. congruence. Qed.
Lemma key_before_ne a b : key_before a b = true → b ≠ a.
Proof. intros H ->. pose proof (key_before_le a a H) as Hle. unfold key_before in H. by rewrite Hle in H. Qed.
Lemma key_before_trans a b c : key_before a b = true → key_before b c = true → key_before a c = true.
Proof.
  intros Hab Hbc. unfold key_before. rewrite negb_true_iff. destruct (key_leb c a) eqn:E; [|done].
  pose proof (key_le_trans c a b E (key_before_le a b Hab)) as H. unfold key_before in Hbc. rewrite negb_true_iff in Hbc.
  unfold key_le, le_by in H. congruence.
Qed.
Lemma project_in_turn_ext now before before' final final' i :
  before !! i = before' !! i →
  (∀ m, (if key_before m i then final !! m else before !! m) = (if key_before m i then final' !! m else before' !! m)) →
  project_in_turn now before final i = project_in_turn now before' final' i.
Proof. intros Hb H. unfold project_in_turn. rewrite <- Hb. destruct (before !! i); [|done]. by rewrite (mapM_ext _ _ _ H). Qed.

Section parents.
Context (existing : gmap (list Z) Recommendation) (hashes : gmap (list Z) (list Z)) (now : list Z).
Abbreviation step := (refresh_parent serialized_len existing hashes now).
Abbreviation project := (λ parent members, refresh_rollup_parent_projection serialized_len parent members now).

Lemma step_cases expected next q :
  (step (expected, next) q).2 = next
  ∨ ∃ parent members, next !! q = Some parent ∧ status parent = Proposed
      ∧ mapM (λ m, next !! m) (rollup_member_ids parent) = Some members
      ∧ (step (expected, next) q).2 = <[id parent := project parent members]> next.
Proof.
  unfold refresh_parent. destruct (next !! q) as [parent|]; [|by left].
  destruct (status parent != Proposed) eqn:Hs; [by left|]. apply neqb_elim in Hs.
  destruct (mapM _ _) as [members|] eqn:Hm; [|by left]. right. by exists parent, members.
Qed.
Lemma step_keyed state q :
  keyed state.2 → keyed (step state q).2 ∧ ∀ i, is_Some ((step state q).2 !! i) ↔ is_Some (state.2 !! i).
Proof.
  destruct state as [expected next]. intros Hk. cbn [snd] in *.
  destruct (step_cases expected next q) as [->|(parent & members & Hp & _ & _ & ->)]; [done|]. split.
  - by apply (keyed_insert next (project parent members)).
  - intros i. rewrite lookup_insert_is_Some'. rewrite (Hk q parent Hp). naive_solver.
Qed.
Lemma step_other expected next q i :
  keyed next → q ≠ i ∨ (∃ r, next !! i = Some r ∧ status r ≠ Proposed) →
  (step (expected, next) q).2 !! i = next !! i.
Proof.
  intros Hk H. destruct (step_cases expected next q) as [->|(parent & members & Hp & Hs & _ & ->)]; [done|].
  apply lookup_insert_ne. rewrite (Hk q parent Hp). intros ->. destruct H as [H|(r & Hr & Hns)]; congruence.
Qed.
Lemma steps_keyed state qs :
  keyed state.2 →
  keyed (fold_left step qs state).2 ∧ ∀ i, is_Some ((fold_left step qs state).2 !! i) ↔ is_Some (state.2 !! i).
Proof.
  revert state. induction qs as [|q qs IH]; intros state Hk; [done|]. cbn [fold_left].
  destruct (step_keyed state q Hk) as [Hk' Hd]. destruct (IH _ Hk') as [Hk2 Hd2]. split; [done|].
  intros i. by rewrite Hd2, Hd.
Qed.
Lemma steps_other state qs i :
  keyed state.2 → i ∉ qs → (fold_left step qs state).2 !! i = state.2 !! i.
Proof.
  revert state. induction qs as [|q qs IH]; intros [expected next] Hk Hi; [done|]. cbn [fold_left].
  apply not_elem_of_cons in Hi as [Hne Hi]. rewrite IH; [|by apply (step_keyed (expected, next))|done].
  apply step_other; [done|by left].
Qed.
(** A proposed parent that is among [qs] ends as a projection of its members of then, of
    which one that is not proposed is as it was. *)
Lemma steps_parent state qs parent p :
  keyed state.2 → NoDup qs → id parent ∈ qs →
  state.2 !! id parent = Some parent → status parent = Proposed →
  (∀ m, m ∈ rollup_member_ids parent → is_Some (state.2 !! m)) →
  id p ∈ rollup_member_ids parent → state.2 !! id p = Some p → status p ≠ Proposed →
  ∃ members, p ∈ members ∧ (fold_left step qs state).2 !! id parent = Some (project parent members).
Proof.
  revert state. induction qs as [|q qs IH]; intros [expected next] Hk Hn Hin Hp Hs Hall Hm Hpp Hps.
  { by apply elem_of_nil in Hin. }
  cbn [fold_left]. cbn [snd] in *. apply NoDup_cons in Hn as [Hq Hn].
  destruct (step_keyed (expected, next) q Hk) as [Hk' Hd]. destruct (decide (q = id parent)) as [->|Hne].
  - rewrite steps_other by done. unfold refresh_parent. rewrite Hp, Hs, neqb_refl.
    destruct (mapM _ _) as [members|] eqn:Hms.
    + exists members. split; [|apply (lookup_insert_eq next (id parent))]. apply mapM_Some in Hms.
      apply list_elem_of_lookup in Hm as [n Hn']. destruct (Forall2_lookup_l _ _ _ _ _ Hms Hn') as (x & Hx & Hl).
      rewrite Hpp in Hl. injection Hl as <-. by eapply list_elem_of_lookup_2.
    + exfalso. apply eq_None_not_Some in Hms. apply Hms, mapM_is_Some, Forall_forall. apply Hall.
  - apply elem_of_cons in Hin as [Heq|Hin]; [congruence|]. apply IH; try done.
    + rewrite step_other; [done|done|by left].
    + intros m Hm'. by apply Hd, Hall.
    + rewrite step_other; [done|done|]. right. by exists p.
Qed.

(** ** The order in which parents are projected *)

Lemma step_at expected next q :
  keyed next → (step (expected, next) q).2 !! q = project_in_turn now next next q.
Proof.
  intros Hk. unfold project_in_turn, refresh_parent. destruct (next !! q) as [parent|] eqn:Hq; [|done].
  destruct (status parent == Proposed) eqn:Hs.
  - cbn [negb].
    rewrite (mapM_ext (λ m, if key_before m q then next !! m else next !! m) (λ m, next !! m)); [|by intros m; destruct (key_before m q)].
    destruct (mapM _ _) as [members|]; [|done]. cbn [snd]. rewrite <- (Hk q parent Hq). apply (lookup_insert_eq next (id parent)).
  - done.
Qed.
Lemma steps_in_turn state qs i :
  keyed state.2 → StronglySorted (λ a b, key_before a b = true) qs → i ∈ qs →
  (fold_left step qs state).2 !! i
  = project_in_turn now state.2 (fold_left step qs state).2 i.
Proof.
  induction qs as [|q qs IH] using rev_ind; intros Hk Hs Hi; [by apply elem_of_nil in Hi|].
  apply StronglySorted_app in Hs as (Hlt & Hqs & _). rewrite fold_left_app. cbn [fold_left].
  pose proof (steps_keyed state qs Hk) as [Hk' _]. pose proof (λ j, steps_other state qs j Hk) as Hout.
  destruct (fold_left step qs state) as [expected next] eqn:E. cbn [snd] in *.
  assert (Hq : ∀ m, m ∈ qs → key_before m q = true) by (intros m Hm; by apply Hlt; [|left]).
  assert (Hsame : ∀ m, q ≠ m → (step (expected, next) q).2 !! m = next !! m) by (intros m Hm; apply step_other; [done|by left]).
  apply elem_of_app in Hi as [Hi|Hi%list_elem_of_singleton].
  - rewrite Hsame by by apply key_before_ne, Hq. rewrite IH by done. apply project_in_turn_ext; [done|].
    intros m. destruct (key_before m i) eqn:Hm; [|done]. symmetry. apply Hsame, key_before_ne.
    by eapply key_before_trans; [|apply Hq].
  - subst i. rewrite step_at by done. apply project_in_turn_ext; [|].
    + apply Hout. intros Hin%Hq. by apply key_before_ne in Hin.
    + intros m. destruct (key_before m q) eqn:Hm.
      * symmetry. by apply Hsame, key_before_ne.
      * apply Hout. intros Hin%Hq. congruence.
Qed.
End parents.

Context (stable_id : list Z → list (list Z) → list Z) (iterate : Iteration) (workspace_id : list Z).
Context (Hstable : ∀ key ids, forallb id_byte (stable_id key ids) = true).
Context (Hiterate : ∀ groups, iterate groups ≡ₚ map_to_list groups).

Lemma by_id_newest records proposals :
  by_id_of (records ++ proposals) = fold_left (λ m p, <[id p := p]> m) proposals (by_id_of records).
Proof.
  induction proposals as [|p proposals IH] using rev_ind; [by rewrite app_nil_r|].
  rewrite fold_left_app. cbn [fold_left]. rewrite <- IH, app_assoc. unfold by_id_of.
  by rewrite !(fmap_app _ (records ++ proposals)), reverse_app.
Qed.
Lemma parents_sorted (X : gset (list Z)) :
  StronglySorted (λ a b, key_before a b = true) (sort_by key_leb (elements X)).
Proof.
  pose proof (key_sorted (elements X)) as Hs.
  assert (Hn : NoDup (sort_by key_leb (elements X))) by (rewrite sort_by_perm; apply NoDup_elements).
  induction Hs as [|x l Hs IH Hx]; [constructor|]. apply NoDup_cons in Hn as [Hni Hn]. constructor; [by apply IH|].
  rewrite Forall_forall in Hx |- *. intros y Hy. unfold key_before. rewrite negb_true_iff.
  destruct (key_leb y x) eqn:E; [|done]. destruct Hni. rewrite (anti_symm key_le x y (Hx y Hy) E). done.
Qed.

Section stored.
Context (F : gmap (list Z) (list Z)) (observations : list Observation) (now : list Z).
Context (records : list Recommendation) (hashes : gmap (list Z) (list Z)) (Hlisting : listing_of F (records, hashes)).

Abbreviation proposals := (evaluate_workflow_improvements stable_id records workspace_id now iterate observations).
Abbreviation stored_next := (refreshed serialized_len (records, hashes) proposals now).2.

Lemma by_id_keyed : keyed (by_id_of records).
Proof. intros i r H. by apply by_id_of_id in H as [_ ?]. Qed.
Lemma listed_lookup r : holds F r → by_id_of records !! id r = Some r.
Proof. destruct Hlisting as (_ & Hn & Hl). intros Hr. apply record_lookup; [done|]. split; [by apply Hl|done]. Qed.
Lemma next_keyed :
  keyed stored_next ∧ ∀ i, is_Some (stored_next !! i) ↔ i ∈ id <$> proposals ∨ is_Some (by_id_of records !! i).
Proof.
  unfold refreshed. cbv zeta. cbn [fst snd]. destruct (insert_all proposals (by_id_of records) by_id_keyed) as (Hk & Hd & _).
  set (next := fold_left (λ m p, <[id p:=p]> m) proposals (by_id_of records)) in *.
  match goal with |- keyed (fold_left _ ?qs (?e, _)).2 ∧ _ =>
    destruct (steps_keyed (by_id_of records) hashes now (e, next) qs Hk) as [Hk' Hd'] end.
  split; [done|]. intros i. by rewrite Hd', <- Hd.
Qed.
Lemma proposal_valid p : p ∈ proposals → valid_id (id p) = true.
Proof.
  intros Hp. apply evaluated_made in Hp as (f & surface & _ & ->); [|done]. cbn [build_proposal id].
  destruct (continued records _) as [r|] eqn:Hc; [|by apply stable_valid].
  apply continued_Some in Hc as [Hr _]. apply prior_of_elem in Hr as [Hr _]. destruct Hlisting as (_ & _ & Hl).
  by apply Hl.
Qed.
Lemma next_valid r : r ∈ values stored_next → valid_id (id r) = true.
Proof.
  intros Hr. unfold values in Hr. apply list_elem_of_fmap in Hr as ([i r'] & -> & Hin). apply in_order_elem in Hin.
  cbn [fst snd] in *. destruct next_keyed as [Hk Hd]. rewrite (Hk i r' Hin).
  assert (Hs : is_Some (stored_next !! i)) by by eexists. apply Hd in Hs as [Hs|[x Hx]].
  - apply list_elem_of_fmap in Hs as (p & -> & Hp). by apply proposal_valid.
  - apply by_id_of_id in Hx as [Hx <-]. destruct Hlisting as (_ & _ & Hl). by apply Hl.
Qed.

Lemma next_stored i r : stored_next !! i = Some r → r ∈ values stored_next.
Proof. intros H. unfold values. apply list_elem_of_fmap. exists (i, r). by rewrite in_order_elem. Qed.
(** The parents that are projected are those of changed proposals. *)
Lemma next_outside i :
  i ∉ id <$> proposals → (∀ p, p ∈ proposals → rolled_up_by p ≠ Some i) → stored_next !! i = by_id_of records !! i.
Proof.
  intros Hi Hp. unfold refreshed. cbv zeta. cbn [fst snd].
  destruct (insert_all proposals (by_id_of records) by_id_keyed) as (Hk & _ & Hout & _).
  rewrite steps_other; [by apply Hout|done|]. rewrite sort_by_perm, elem_of_elements, elem_of_list_to_set.
  intros (p & Hin & Hr)%list_elem_of_omap. apply list_elem_of_In, filter_In in Hin as [Hin _].
  apply list_elem_of_In in Hin. by apply (Hp p).
Qed.
Lemma next_proposal p :
  NoDup (id <$> proposals) → p ∈ proposals → (∀ q, q ∈ proposals → rolled_up_by q ≠ Some (id p)) →
  stored_next !! id p = Some p.
Proof.
  intros Hn Hin Hp. unfold refreshed. cbv zeta. cbn [fst snd].
  destruct (insert_all proposals (by_id_of records) by_id_keyed) as (Hk & _ & _ & Hl).
  rewrite steps_other; [by apply Hl|done|]. rewrite sort_by_perm, elem_of_elements, elem_of_list_to_set.
  intros (q & Hq & Hr)%list_elem_of_omap. apply list_elem_of_In, filter_In in Hq as [Hq _].
  apply list_elem_of_In in Hq. by apply (Hp q).
Qed.
Lemma rolled_up_proposal p parent : p ∈ proposals → rolled_up_by p = Some parent → status p ≠ Proposed.
Proof.
  intros Hp Hr. apply evaluated_made in Hp as (f & surface & _ & Hb); [|done]. rewrite Hb in Hr |- *.
  cbn [build_proposal rolled_up_by status] in Hr |- *. by destruct (active_rollup_member records _).
Qed.
Lemma next_parent parent p :
  sound F → NoDup (id <$> proposals) → holds F parent → status parent = Proposed → id parent ∉ id <$> proposals →
  p ∈ proposals → is_changed (by_id_of records) p = true → rolled_up_by p = Some (id parent) →
  id p ∈ rollup_member_ids parent →
  ∃ members, p ∈ members
    ∧ stored_next !! id parent = Some (refresh_rollup_parent_projection serialized_len parent members now).
Proof.
  intros Hs Hn Hh Hst Hout Hp Hc Hr Hm. unfold refreshed. cbv zeta. cbn [fst snd].
  destruct (insert_all proposals (by_id_of records) by_id_keyed) as (Hk & Hd & Ho & Hl).
  apply steps_parent with (p := p); try done; cbn [snd].
  - rewrite sort_by_perm. apply NoDup_elements.
  - rewrite sort_by_perm, elem_of_elements, elem_of_list_to_set. apply list_elem_of_omap. exists p. split; [|done].
    apply list_elem_of_In, filter_In. split; [by apply list_elem_of_In|done].
  - rewrite Ho by done. by apply listed_lookup.
  - intros m Hm'. apply Hd. right. destruct Hlisting as (_ & Hnd & Hin). cbn [fst] in Hnd, Hin.
    destruct (sound_stored _ _ _ _ F Hs) as (stored & Hst' & Hv).
    assert (Hmem : m ∈ id <$> records_of stored).
    { apply (valid_records _ _ Hv parent); [|done].
      by apply (stored_record evidence_json action_json sha256_hex parse F); [apply Hs|..]. }
    apply list_elem_of_fmap in Hmem as (x & -> & Hx).
    apply (stored_record evidence_json action_json sha256_hex parse F) in Hx; [|apply Hs|done].
    exists x. by apply listed_lookup.
  - by apply Hl.
  - by eapply rolled_up_proposal.
Qed.
Lemma next_refreshed (l : list Recommendation) :
  (∀ r, r ∈ l ↔ r ∈ values stored_next) → refreshed_to now records proposals l.
Proof.
  intros Hv. destruct next_keyed as [Hkeyed _]. exists stored_next. split; [|split; [done|]].
  - intros r. rewrite Hv. split; [|apply next_stored]. unfold values.
    intros ([i r'] & -> & Hin)%list_elem_of_fmap. apply in_order_elem in Hin. cbn [fst snd] in *. by rewrite (Hkeyed i r').
  - intros i. cbv zeta. rewrite by_id_newest. unfold refreshed. cbv zeta. cbn [fst snd].
    destruct (insert_all proposals (by_id_of records) by_id_keyed) as (Hk & _).
    set (parents := list_to_set (omap rolled_up_by (List.filter (is_changed (by_id_of records)) proposals)) : gset (list Z)).
    assert (Hp : ∀ i, i ∈ sort_by key_leb (elements parents)
      ↔ ∃ p, p ∈ proposals ∧ is_changed (by_id_of records) p = true ∧ rolled_up_by p = Some i).
    { intros q. rewrite sort_by_perm. unfold parents. rewrite elem_of_elements, elem_of_list_to_set, list_elem_of_omap.
      setoid_rewrite list_elem_of_In. setoid_rewrite filter_In. naive_solver. }
    match goal with |- context [fold_left (refresh_parent _ _ _ _) _ ?st] => set (state := st) end.
    change (keyed state.2) in Hk. change (fold_left _ proposals (by_id_of records)) with state.2.
    destruct (decide (i ∈ sort_by key_leb (elements parents))) as [Hi|Hi]; [left|right].
    + split; [by apply Hp|]. apply steps_in_turn; [done|apply parents_sorted|done].
    + split; [|by apply steps_other]. intros p H1 H2 H3. apply Hi, Hp. by exists p.
Qed.
End stored.

Abbreviation refresh :=
  (refresh_workflow_recommendations evidence_json action_json sha256_hex parse render serialized_len stable_id
     iterate workspace_id).
Lemma keeps_refresh (R : gmap (list Z) (list Z) → Prop) F current observations now :
  sound F → R F →
  (∀ os l expected F', observations = Some os → listing_of F l →
     transacted F expected (values (refreshed serialized_len l
       (evaluate_workflow_improvements stable_id l.1 workspace_id now iterate os) now).2) F' → R F') →
  keeps_in false (good R) (ended F) (refresh current observations now) (λ _, good R).
Proof.
  intros Hs HRF HR. unfold refresh_workflow_recommendations.
  assert (Hend : ∀ d, ended F d → good R d) by (intros d; by apply ended_good).
  destruct current; [|by apply keeps_ret]. destruct observations as [os|]; [|by apply keeps_ret].
  eapply keeps_bind; [apply (keeps_catch (good R) (good R)); [by apply keeps_list_at|done]|].
  intros [[records hashes]|e]; [|by apply keeps_ret]. apply keeps_pure. intros Hl. cbv zeta. cbn [fst].
  destruct (refreshed _ _ _ _) as [expected next] eqn:E. destruct (size expected =? 0)%nat; [by apply keeps_ret|].
  assert (Hnext : next = (refreshed serialized_len (records, hashes)
    (evaluate_workflow_improvements stable_id records workspace_id now iterate os) now).2) by by rewrite E.
  assert (Hdone : ∀ F', transacted F expected (values next) F' → R F').
  { intros F' Htx. apply (HR os (records, hashes) expected); [done|done|]. cbn [fst]. by rewrite <- Hnext. }
  eapply keeps_bind.
  { apply (keeps_catch (good R) (good R)); [|done]. apply (keeps_apply_exact _ _ _ _ _ Hparse R F); [done|done| |done].
    intros r. rewrite Hnext. by apply (next_valid F). }
  intros [u|e]; apply keeps_ret; [|done]. intros d (F' & Hd & Hs' & Htx).
  apply (ended_good _ _ _ _ R F'); [done|by apply Hdone|done].
Qed.
End refreshing.
End at_files.

(** ** Properties *)

Lemma packet_source evidence_json action_json sha256_hex r packet :
  completion_packet r = Some packet → validate_recommendation evidence_json action_json sha256_hex r = Ok tt →
  source_session_ids r = [source_session_id packet].
Proof.
  intros Hpk H. unfold validate_recommendation in H. rewrite Hpk in H. destruct (graph_invariant _) as [u|]; [|done].
  cbn in H. destruct (source_session_ids r == [source_session_id packet]) eqn:E; [|done]. by apply eqb_elim in E.
Qed.
(** A projection with a packet of another session than one of its members is not valid. *)
Lemma projection_refused evidence_json action_json sha256_hex serialized_len parent members now packet p e :
  completion_packet parent = Some packet → p ∈ members → e ∈ evidence p → session_id e ≠ source_session_id packet →
  validate_recommendation evidence_json action_json sha256_hex
    (refresh_rollup_parent_projection serialized_len parent members now) ≠ Ok tt.
Proof.
  intros Hpk Hp He Hne H. set (r := refresh_rollup_parent_projection serialized_len parent members now) in *.
  assert (Hin : session_id e ∈ source_session_ids r).
  { cbn. rewrite elem_of_dedup, sort_by_perm, list_elem_of_In, in_concat. setoid_rewrite <- list_elem_of_In.
    exists (source_session_ids p ++ (session_id <$> evidence p)). split.
    - by apply (list_elem_of_fmap_2 (λ m, source_session_ids m ++ (session_id <$> evidence m))).
    - apply elem_of_app. right. by apply list_elem_of_fmap_2. }
  apply (packet_source _ _ _ r packet) in H; [|done]. rewrite H in Hin. by apply list_elem_of_singleton in Hin.
Qed.


(** C7: an accepted card is carried out at once or not at all.  Whatever effect of an
    acceptance fails or is the last before a stop, a list without faults then answers
    either the records of before, or exactly these: the card completed, every record it
    lists that was still proposed dismissed for its first criterion under this card, and
    all others as they were.  If the acceptance answers, it is the latter, and it names
    the listed records that were not proposed any more, each with its status. *)
Theorem cleanup_exact evidence_json action_json sha256_hex {Hinj : Inj (=) (=) sha256_hex} parse render F d i now faults :
  (∀ r, parse (render r) = Some r) →
  sound evidence_json action_json sha256_hex parse F → ended F d → distinct_entries parse F i →
  let accepted :=
    accept_cleanup_recommendation evidence_json action_json sha256_hex parse render i now d faults in
  (∃ records hashes F' d',
     runs (list_with_hashes evidence_json action_json sha256_hex parse) accepted.1.2 (Ok (records, hashes)) d'
     ∧ (∀ r, r ∈ records ↔ holds parse F' r)
     ∧ (F' = F ∨ ∃ card found, cleanup_done parse F i now card found F'))
  ∧ ∀ completed sk, accepted.1.1 = Returned (Ok (Some (completed, sk))) →
      ∃ card found, cleanup_done parse F i now card found (files accepted.1.2)
        ∧ completed = complete_card card now ∧ skips parse F (entries found) sk.
Proof.
  intros Hparse Hs Hd Hdist accepted.
  pose proof (keeps_accept evidence_json action_json sha256_hex parse render Hparse F i now Hs Hdist) as Hk.
  cbv zeta in Hk. set (R := λ F', F' = F ∨ ∃ card found, cleanup_done parse F i now card found F') in Hk.
  assert (Hg : good evidence_json action_json sha256_hex parse R accepted.1.2).
  { apply (exit_good _ _ _ _ R (ended F)); [|done]. eapply keeps_weaken; [exact Hk|done|done|by intros o d' [? _]]. }
  split.
  - destruct (list_after _ _ _ _ _ _ Hg) as ([records hashes] & F' & d' & Hr & _ & HR & _ & _ & Hl). by exists records, hashes, F', d'.
  - intros completed sk Ha. pose proof (keeps_exit _ _ _ _ d faults Hk (admits_any faults) Hd) as Hx. unfold accepted in *.
    destruct (accept_cleanup_recommendation _ _ _ _ _ i now d faults) as [[[[o|e]|] d'] os]; try done. cbn in Ha.
    injection Ha as ->. destruct Hx as [_ Hx]. destruct (Hx completed sk eq_refl) as (F' & card & found & [_ Hf] & _ & H).
    exists card, found. cbn. by rewrite Hf.
Qed.

(** C25: an audit is stored at once or not at all.  If at most one cleanup card is open, then
    after an audit, whatever of it failed, a list without faults answers the records of
    before or those that the audit leaves: with the new card in place of the open one if
    some record deserves it, and otherwise with the open card superseded and all else as
    it was; and at most one card is open.  An audit that answers has left the latter. *)
Theorem audit_stored_exact evidence_json action_json sha256_hex {Hinj : Inj (=) (=) sha256_hex} parse render
    parse_date clock stable_id workspace_id F d now faults :
  (∀ r, parse (render r) = Some r) → (∀ key ids, forallb id_byte (stable_id key ids) = true) →
  sound evidence_json action_json sha256_hex parse F → ended F d → one_open parse F →
  let audited :=
    run_recommendation_audit evidence_json action_json sha256_hex parse render stable_id parse_date clock
      workspace_id now d faults in
  (∃ records hashes F' d',
     runs (list_with_hashes evidence_json action_json sha256_hex parse) audited.1.2 (Ok (records, hashes)) d'
     ∧ (∀ r, r ∈ records ↔ holds parse F' r) ∧ one_open parse F'
     ∧ (F' = F ∨ ∃ o, audit_done parse parse_date clock F now o F'))
  ∧ ∀ o, audited.1.1 = Returned (Ok o) → audit_done parse parse_date clock F now o (files audited.1.2).
Proof.
  intros Hparse Hst Hs Hd Hone audited.
  pose proof (keeps_run_audit evidence_json action_json sha256_hex parse render Hparse parse_date clock workspace_id
    stable_id Hst F now Hs Hone) as Hk.
  cbv zeta in Hk. set (R := λ F', F' = F ∨ ∃ o, audit_done parse parse_date clock F now o F') in Hk.
  assert (Hg : good evidence_json action_json sha256_hex parse R audited.1.2).
  { apply (exit_good _ _ _ _ R (ended F)); [|done]. eapply keeps_weaken; [exact Hk|done|done|].
    intros o d' (F' & Hd' & Hs' & Ha). apply (ended_good _ _ _ _ R F'); [done| |done]. right. by exists o. }
  split.
  - destruct (list_after _ _ _ _ _ _ Hg) as ([records hashes] & F' & d' & Hr & _ & HR & _ & _ & Hl). exists records, hashes, F', d'.
    split; [done|]. split; [done|]. split; [|done]. destruct HR as [->|[o Ho]]; [done|]. by eapply audit_one_open.
  - intros o Ha. pose proof (keeps_exit _ _ _ _ d faults Hk (admits_any faults) Hd) as Hx. unfold audited in *.
    destruct (run_recommendation_audit _ _ _ _ _ _ _ _ _ now d faults) as [[[[o'|e]|] d'] os]; try done. cbn in Ha.
    injection Ha as ->. destruct Hx as (F' & [_ Hf] & _ & H). cbn. by rewrite Hf.
Qed.

(** C8: a refresh is stored at once or not at all.  Whatever of a refresh fails, a list
    without faults then answers the records of before, or exactly those that the
    evaluation makes of them ([refreshed_to]): the proposals, each in place of the record
    with its id; the parents that a changed proposal names, one after the other in the
    order of their ids, each projected from all of its members if it is proposed and they
    are all there, and unchanged if not; and every other record unchanged. *)
Theorem refresh_all_or_nothing evidence_json action_json sha256_hex {Hinj : Inj (=) (=) sha256_hex} parse render
    serialized_len stable_id iterate workspace_id F d d0 records hashes current observations now faults :
  (∀ r, parse (render r) = Some r) → (∀ key ids, forallb id_byte (stable_id key ids) = true) →
  (∀ groups, iterate groups ≡ₚ map_to_list groups) →
  sound evidence_json action_json sha256_hex parse F → ended F d →
  runs (list_with_hashes evidence_json action_json sha256_hex parse) d (Ok (records, hashes)) d0 →
  let after := (refresh_workflow_recommendations evidence_json action_json sha256_hex parse render serialized_len
                  stable_id iterate workspace_id current observations now d faults).1.2 in
  ∃ records' hashes' d',
    runs (list_with_hashes evidence_json action_json sha256_hex parse) after (Ok (records', hashes')) d'
    ∧ ((records', hashes') = (records, hashes)
       ∨ ∃ os, observations = Some os
           ∧ refreshed_to serialized_len now records
               (evaluate_workflow_improvements stable_id records workspace_id now iterate os) records').
Proof.
  intros Hparse Hst Hi Hs Hd Hr after. apply (runs_list_at _ _ _ _ F) in Hr as Hl; [|done..].
  set (R := λ F', F' = F ∨ ∃ os, observations = Some os
    ∧ ∀ r, holds parse F' r ↔ r ∈ values (refreshed serialized_len (records, hashes)
        (evaluate_workflow_improvements stable_id records workspace_id now iterate os) now).2).
  assert (Hg : good evidence_json action_json sha256_hex parse R after).
  { apply (exit_good _ _ _ _ R (ended F)); [|done]. apply (keeps_refresh _ _ _ _ _ Hparse); try done; [by left|].
    intros os l expected F' Hos Hl' Htx. right. exists os. split; [done|].
    assert (l = (records, hashes)) as -> by (destruct Hl as [Ha _], Hl' as [Ha' _]; congruence).
    apply (transacted_records _ _ _ _ _ _ Htx). }
  destruct (list_after _ _ _ _ _ _ Hg) as ([records' hashes'] & F' & d' & Hr' & _ & HR & Ha' & _ & Hl'). exists records', hashes', d'.
  split; [done|]. destruct HR as [->|(os & Hos & Hh)]; [left|right].
  - destruct Hl as [Ha _]. congruence.
  - exists os. split; [done|].
    apply (next_refreshed sha256_hex parse render Hparse serialized_len stable_id iterate workspace_id os now records hashes).
    intros r. rewrite <- Hh. apply Hl'.
Qed.

(** C9: a packet blocks the refresh.  A session reports a completion packet for the
    proposed parent of a roll-up; later an observation of another session changes a
    member.  The projection of the parent then names both sessions beside the packet, which
    no stored record may: so nothing of this evaluation is stored, neither the member nor
    any other proposal, whatever the faults; a list answers as before, and the next refresh
    starts from the same records. *)
Theorem packet_blocks_refresh evidence_json action_json sha256_hex {Hinj : Inj (=) (=) sha256_hex} parse render
    serialized_len stable_id iterate workspace_id F d d0 records hashes current observations now faults parent packet p e :
  (∀ r, parse (render r) = Some r) → (∀ key ids, forallb id_byte (stable_id key ids) = true) →
  (∀ groups, iterate groups ≡ₚ map_to_list groups) →
  sound evidence_json action_json sha256_hex parse F → ended F d →
  runs (list_with_hashes evidence_json action_json sha256_hex parse) d (Ok (records, hashes)) d0 →
  let proposals := evaluate_workflow_improvements stable_id records workspace_id now iterate observations in
  parent ∈ records → status parent = Proposed → completion_packet parent = Some packet →
  NoDup (id <$> proposals) → id parent ∉ id <$> proposals →
  p ∈ proposals → is_changed (by_id_of records) p = true → rolled_up_by p = Some (id parent) →
  id p ∈ rollup_member_ids parent → e ∈ evidence p → session_id e ≠ source_session_id packet →
  ∃ d',
    runs (list_with_hashes evidence_json action_json sha256_hex parse)
      (refresh_workflow_recommendations evidence_json action_json sha256_hex parse render serialized_len
         stable_id iterate workspace_id current (Some observations) now d faults).1.2
      (Ok (records, hashes)) d'.
Proof.
  intros Hparse Hst Hi Hs Hd Hr proposals Hpar Hps Hpk Hn Hout Hp Hc Hrol Hm He Hne.
  apply (runs_list_at _ _ _ _ F) in Hr as Hl; [|done..].
  set (R := λ F', sound evidence_json action_json sha256_hex parse F' → F' = F).
  set (after := (refresh_workflow_recommendations _ _ _ _ _ _ _ _ _ _ _ _ _ _).1.2).
  assert (Hg : good evidence_json action_json sha256_hex parse R after).
  { apply (exit_good _ _ _ _ R (ended F)); [|done]. apply (keeps_refresh _ _ _ _ _ Hparse); try done.
    intros os l expected F' [= <-] Hl' Htx Hs'. exfalso.
    assert (l = (records, hashes)) as -> by (destruct Hl as [Ha _], Hl' as [Ha' _]; congruence).
    destruct (next_parent evidence_json action_json sha256_hex parse render Hparse serialized_len stable_id iterate
      workspace_id Hi F observations now records hashes Hl parent p) as (members & Hpm & Hnext); try done; [by apply Hl|].
    apply (next_stored serialized_len) in Hnext. apply (transacted_records _ _ _ _ _ _ Htx) in Hnext.
    apply (sound_record _ _ _ _ _ _ Hs') in Hnext. apply (projection_refused _ _ _ _ _ _ _ _ _ _ Hpk Hpm He Hne Hnext). }
  destruct (list_after _ _ _ _ _ _ Hg) as (l & F' & d' & Hr' & Hs' & HR & Hl'). exists d'.
  rewrite (HR Hs') in Hl'. destruct Hl as [Ha _], Hl' as [Ha' _]. by assert (l = (records, hashes)) as <- by congruence.
Qed.

(** ** A concrete workspace *)

(** The digest of the two members is one that a roll-up's id may end with. *)
Definition sample_members : list (list Z) := [bytes_of "a"; bytes_of "b"].
Definition sample_text : list Z := [97; 0; 98; 0].
Definition sample_swap (bytes : list Z) : list Z :=
  if bytes == sample_text then repeat 49 64 else if bytes == repeat 49 64 then sample_text else bytes.
Lemma sample_swap_inj : Inj (=) (=) sample_swap.
Proof.
  intros x y. unfold sample_swap.
  destruct (x == sample_text) eqn:E1, (y == sample_text) eqn:E2; try (apply eqb_elim in E1); try (apply eqb_elim in E2);
    destruct (x == repeat 49 64) eqn:E3, (y == repeat 49 64) eqn:E4; try (apply eqb_elim in E3);
    try (apply eqb_elim in E4); try congruence; intros H; subst; try done; by rewrite ?eqb_refl in *.
Qed.
Definition sample_digest (key : list Z) (ids : list (list Z)) : list Z := List.filter id_byte (concat ids).
Lemma sample_digest_safe key ids : forallb id_byte (sample_digest key ids) = true.
Proof.
  apply forallb_forall. intros b Hb. unfold sample_digest in Hb. by apply filter_In in Hb as [_ ?].
Qed.
Definition sample_len (l : list WorkflowObservationEvidence) : Z := Z.of_nat (length l).

Definition sample_files (rs : list Recommendation) : gmap (list Z) (list Z) := fold_left sample_place rs ∅.
Definition sample_at (rs : list Recommendation) : Dir := mkDir (sample_files rs) false None.
Definition sample_valid (rs : list Recommendation) : bool := forallb (λ r, valid_id (id r)) rs.
Lemma sample_named rs F :
  named parse_record F → sample_valid rs = true → named parse_record (fold_left sample_place rs F).
Proof.
  revert F. induction rs as [|r rs IH]; intros F HF H; [done|]. cbn in H |- *. apply andb_true_iff in H as [Hr H].
  apply IH; [|done]. by apply named_placed; [exact parse_render_record|..].
Qed.
Lemma sample_files_sound rs :
  sample_valid rs = true →
  validate_files sample_evidence_json sample_action_json sample_swap parse_record (sample_files rs) = Ok tt →
  sound sample_evidence_json sample_action_json sample_swap parse_record (sample_files rs).
Proof.
  intros Hv H. split; [|done]. apply sample_named; [|done]. intros n b Hb. by rewrite lookup_empty in Hb.
Qed.

(** An open card lists a proposed record and one that is dismissed by now. *)
Definition sample_card : Recommendation :=
  mkRecommendation false (bytes_of "k") (bytes_of "w") cleanup_key 0 Cleanup Proposed Medium (bytes_of "Clean up")
    [] [] [] [] [] [] None MediumConfidence true cleanup_key (bytes_of "1") (bytes_of "1") [] Documentation [] 0 []
    Medium [] None None None
    (Some (mkAudit [mkEntry (bytes_of "a") [] [Stale]; mkEntry (bytes_of "c") [] [Noise; Stale]] 2 0 14)) [] [] None None.
Definition sample_to_clean : list Recommendation := [sample_open; sample_accepted; sample_final; sample_card].
Definition sample_accept :=
  accept_cleanup_recommendation sample_evidence_json sample_action_json sample_swap parse_record render_record
    (bytes_of "k") (bytes_of "8") (sample_at sample_to_clean) [].
Lemma cleanup_exact_witness :
  ∃ card found, cleanup_done parse_record (sample_files sample_to_clean) (bytes_of "k") (bytes_of "8") card found
      (files sample_accept.1.2)
    ∧ skips parse_record (sample_files sample_to_clean) (entries found) [(bytes_of "c", Dismissed)].
Proof.
  assert (Hs : sound sample_evidence_json sample_action_json sample_swap parse_record (sample_files sample_to_clean)).
  { apply sample_files_sound; vm_compute; reflexivity. }
  assert (Hc : holds parse_record (sample_files sample_to_clean) sample_card).
  { split; [reflexivity|]. exists (render_record sample_card). split; [vm_compute; reflexivity|apply parse_render_record]. }
  destruct (cleanup_exact sample_evidence_json sample_action_json sample_swap (Hinj := sample_swap_inj) parse_record
    render_record (sample_files sample_to_clean) (sample_at sample_to_clean) (bytes_of "k") (bytes_of "8") [])
    as [_ H].
  - exact parse_render_record.
  - exact Hs.
  - split; reflexivity.
  - intros card a H Hi Ha. assert (card = sample_card) as -> by by apply (holds_same parse_record (sample_files sample_to_clean)).
    injection Ha as <-.
    change (NoDup [bytes_of "a"; bytes_of "c"]). by apply (bool_decide_unpack (NoDup [bytes_of "a"; bytes_of "c"])).
  - destruct (H (complete_card sample_card (bytes_of "8")) [(bytes_of "c", Dismissed)]) as (card & found & Hd & _ & Hk).
    { vm_compute. reflexivity. }
    by exists card, found.
Defined.

(** What a list answers for the samples. *)
Definition sample_listing (rs : list Recommendation) : list Recommendation * gmap (list Z) (list Z) :=
  default ([], ∅) (answer sample_evidence_json sample_action_json sample_swap parse_record (sample_files rs)).
Abbreviation sample_list := (list_with_hashes sample_evidence_json sample_action_json sample_swap parse_record).
Lemma sample_one_open rs d :
  sound sample_evidence_json sample_action_json sample_swap parse_record (sample_files rs) →
  runs sample_list (sample_at rs) (Ok (sample_listing rs)) d →
  (length (List.filter open_card (sample_listing rs).1) <= 1)%nat → one_open parse_record (sample_files rs).
Proof.
  intros Hs Hr Hlen r r' H H' Ho Ho'.
  apply (runs_list_at _ _ _ _ (sample_files rs)) in Hr as (_ & _ & Hl); [|done|by split].
  apply Hl in H, H'. assert (Hin : ∀ x, x ∈ (sample_listing rs).1 → open_card x = true →
    x ∈ List.filter open_card (sample_listing rs).1).
  { intros x Hx Hox. apply list_elem_of_In, filter_In. split; [by apply list_elem_of_In|done]. }
  apply Hin in H; [|done]. apply Hin in H'; [|done].
  destruct (List.filter open_card _) as [|x [|y l]]; [by apply elem_of_nil in H| |cbn in Hlen; lia].
  apply list_elem_of_singleton in H, H'. congruence.
Qed.

(** A healthy record beside an open card. *)
Definition sample_to_audit : list Recommendation := [sample_of_family Proposed None; sample_card].
Definition sample_run_audit :=
  run_recommendation_audit sample_evidence_json sample_action_json sample_swap parse_record render_record
    sample_digest sample_date 0 (bytes_of "w") (bytes_of "5") (sample_at sample_to_audit) [].
Lemma audit_stored_exact_witness :
  audit_done parse_record sample_date 0 (sample_files sample_to_audit) (bytes_of "5") None (files sample_run_audit.1.2).
Proof.
  assert (Hs : sound sample_evidence_json sample_action_json sample_swap parse_record (sample_files sample_to_audit)).
  { apply sample_files_sound; vm_compute; reflexivity. }
  apply (audit_stored_exact sample_evidence_json sample_action_json sample_swap (Hinj := sample_swap_inj) parse_record
    render_record sample_date 0 sample_digest (bytes_of "w") (sample_files sample_to_audit) (sample_at sample_to_audit)
    (bytes_of "5") []).
  - exact parse_render_record.
  - exact sample_digest_safe.
  - exact Hs.
  - split; reflexivity.
  - apply (sample_one_open _ (sample_at sample_to_audit)); [exact Hs|vm_compute; reflexivity|].
    apply Nat.leb_le. vm_compute. reflexivity.
  - vm_compute. reflexivity.
Defined.

(** A roll-up of two families of one session. *)
Definition sample_parent_id : list Z := stable_rollup_id sample_swap sample_members.
Definition sample_member (i key : list Z) (items : list WorkflowObservationEvidence) : Recommendation :=
  mkRecommendation false i (bytes_of "w") i 0 ImproveWorkflow RolledUp Low [] [] [] items [] [] [bytes_of "s1"]
    None HighConfidence false key (bytes_of "1") (bytes_of "2") [] Tooling (observation_id <$> items) 2 [bytes_of "s1"]
    Low [] None None None None [] [] None (Some sample_parent_id).
Definition sample_key : list Z := dedupe_key_of (bytes_of "f") Tooling.
Definition sample_parent (packet : option CompletionPacket) : Recommendation :=
  mkRecommendation false sample_parent_id (bytes_of "w") sample_parent_id 0 ImproveWorkflow Proposed Low [] [] [] [] []
    [] [bytes_of "s1"] None HighConfidence true sample_parent_id (bytes_of "1") (bytes_of "2") [] Tooling [] 2
    [bytes_of "s1"] Low [] None None packet None sample_members [sample_key; bytes_of "g"] (Some 1) None.
Definition sample_rollup (packet : option CompletionPacket) : list Recommendation :=
  [sample_member (bytes_of "a") sample_key (evidence (sample_of_family Proposed None));
   sample_member (bytes_of "b") (bytes_of "g") []; sample_parent packet].
Definition sample_refresh (packet : option CompletionPacket) :=
  refresh_workflow_recommendations sample_evidence_json sample_action_json sample_swap parse_record render_record
    sample_len sample_digest map_to_list (bytes_of "w") true (Some sample_observations) (bytes_of "3")
    (sample_at (sample_rollup packet)) [].
Definition sample_sessions (packet : option CompletionPacket) : option (list (list Z)) :=
  source_session_ids <$>
    (files (sample_refresh packet).1.2 !! recommendation_filename sample_parent_id ≫= parse_record).

Lemma refresh_all_or_nothing_witness :
  sample_sessions None = Some [bytes_of "s1"; bytes_of "s2"]
  ∧ ∃ records' hashes' d',
      runs sample_list (sample_refresh None).1.2 (Ok (records', hashes')) d'
      ∧ ((records', hashes') = sample_listing (sample_rollup None)
         ∨ ∃ os, Some sample_observations = Some os
             ∧ refreshed_to sample_len (bytes_of "3") (sample_listing (sample_rollup None)).1
                 (evaluate_workflow_improvements sample_digest (sample_listing (sample_rollup None)).1 (bytes_of "w")
                    (bytes_of "3") map_to_list os) records').
Proof.
  split; [vm_compute; reflexivity|].
  apply (refresh_all_or_nothing sample_evidence_json sample_action_json sample_swap (Hinj := sample_swap_inj) parse_record
    render_record sample_len sample_digest map_to_list (bytes_of "w") (sample_files (sample_rollup None))
    (sample_at (sample_rollup None)) (sample_at (sample_rollup None)) (sample_listing (sample_rollup None)).1
    (sample_listing (sample_rollup None)).2 true (Some sample_observations) (bytes_of "3") []).
  - exact parse_render_record.
  - exact sample_digest_safe.
  - exact sample_iterate.
  - apply sample_files_sound; vm_compute; reflexivity.
  - split; reflexivity.
  - vm_compute. reflexivity.
Defined.

(** The session has reported a packet for the roll-up. *)
Definition sample_reported : option CompletionPacket := Some (clear_approval sample_packet).
Definition sample_blocked : list Recommendation * gmap (list Z) (list Z) := sample_listing (sample_rollup sample_reported).
Definition sample_proposals : list Recommendation :=
  evaluate_workflow_improvements sample_digest sample_blocked.1 (bytes_of "w") (bytes_of "3") map_to_list
    sample_observations.
Definition sample_p : Recommendation := List.hd sample_dismissed sample_proposals.
Definition sample_e : WorkflowObservationEvidence := Evaluation.evidence_of (sample_observation "o4" 4 "s2").
Lemma packet_blocks_refresh_witness :
  length (evidence sample_p) = 4%nat
  ∧ ∃ d', runs sample_list (sample_refresh sample_reported).1.2 (Ok sample_blocked) d'.
Proof.
  split; [vm_compute; reflexivity|].
  assert (Hne : sample_proposals ≠ []) by (vm_compute; discriminate).
  apply (packet_blocks_refresh sample_evidence_json sample_action_json sample_swap (Hinj := sample_swap_inj) parse_record
    render_record sample_len sample_digest map_to_list (bytes_of "w") (sample_files (sample_rollup sample_reported))
    (sample_at (sample_rollup sample_reported)) (sample_at (sample_rollup sample_reported)) sample_blocked.1
    sample_blocked.2 true sample_observations (bytes_of "3") [] (sample_parent sample_reported)
    (clear_approval sample_packet) sample_p sample_e).
  - exact parse_render_record.
  - exact sample_digest_safe.
  - exact sample_iterate.
  - apply sample_files_sound; vm_compute; reflexivity.
  - split; reflexivity.
  - vm_compute. reflexivity.
  - apply list_elem_of_In. vm_compute. auto.
  - reflexivity.
  - reflexivity.
  - change (NoDup (id <$> sample_proposals)). apply (bool_decide_unpack (NoDup (id <$> sample_proposals))). vm_compute. exact I.
  - change (id (sample_parent sample_reported) ∉ id <$> sample_proposals).
    apply (bool_decide_unpack (id (sample_parent sample_reported) ∉ id <$> sample_proposals)). vm_compute. exact I.
  - by apply hd_elem.
  - vm_compute. reflexivity.
  - vm_compute. reflexivity.
  - apply (bool_decide_unpack (id sample_p ∈ sample_members)). vm_compute. exact I.
  - apply list_elem_of_In. vm_compute. auto 10.
  - vm_compute. discriminate.
Defined.
