(* ===== verification/ObservationStore.v ===== *)
(** * The workflow-observation store

    [WorkflowObservationStore] of [workflow_observations.rs], with the captured
    writers of [workflow_observations/captured.rs] and the durable deletion of
    [workflow_observations/deletion.rs]: recording with idempotency and a rate cap,
    bounded segments with tombstones, the anti-spam trim, deletion, and reopening
    after a restart or a crash.

    The directory of the store holds a segment per session and the sequence counter.
    What the file system answers is an argument of each call: an atomic replacement
    happens or does not, an append may stop after some bytes.  Session ids are names
    that the callers use as file names.  The permit of a writer is a cell behind an
    [Arc]; the table of the store holds it weakly. *)
From S2P Require Export ObservationLog.
#[local] Arguments decimal_u64 : simpl never.
#[local] Arguments wrapping_add : simpl never.

(** ** State *)

Record IdempotencyEntry : Type := mkEntry {
  entry_id : text;
  entry_sequence : Z;
  entry_accepted_at : text;
  entry_payload : text;
}.

Record SessionCache : Type := mkCache {
  observations : list StoredObservation;
  tombstones : list Tombstone;
}.

Record StoreInner : Type := mkInner {
  permits : gmap (text * text) nat;
  last_issued_sequence : Z;
  degraded : bool;
  idempotency : gmap (text * text) IdempotencyEntry;
  diagnostics : gmap text (list ObservationDiagnostic);
  session_cache : gmap text SessionCache;
}.
Definition set_permits v (i : StoreInner) := mkInner v (last_issued_sequence i) (degraded i)
  (idempotency i) (diagnostics i) (session_cache i).
Definition set_last_issued v (i : StoreInner) := mkInner (permits i) v (degraded i)
  (idempotency i) (diagnostics i) (session_cache i).
Definition set_idempotency v (i : StoreInner) := mkInner (permits i) (last_issued_sequence i)
  (degraded i) v (diagnostics i) (session_cache i).
Definition set_diagnostics v (i : StoreInner) := mkInner (permits i) (last_issued_sequence i)
  (degraded i) (idempotency i) v (session_cache i).
Definition set_session_cache v (i : StoreInner) := mkInner (permits i) (last_issued_sequence i)
  (degraded i) (idempotency i) (diagnostics i) v.

(** The files of the store. *)
Record Dir : Type := mkDir {
  segments : gmap text (list Z);
  counter : option (list Z);
}.

(** A permit: whether it is still valid, and how many writers hold it. *)
Record Permit : Type := mkPermit { valid : bool; strong : nat }.

Record Store : Type := mkStore {
  inner : StoreInner;
  dir : Dir;
  cells : gmap nat Permit;
  next_cell : nat;
}.
Definition set_inner v (s : Store) := mkStore v (dir s) (cells s) (next_cell s).
Definition set_cells v (s : Store) := mkStore (inner s) (dir s) v (next_cell s).

(** What the file system answers to one record: the replacement of the counter, the
    length it reports of the segment, an append ([Some n]: it failed after [n] bytes)
    and a replacement of the segment. *)
Record Faults : Type := mkFaults {
  counter_written : bool;
  size_known : bool;
  append_stops : option nat;
  segment_replaced : bool;
}.
Definition no_faults : Faults := mkFaults true true None true.

Inductive RecordOutcome : Type :=
  | Accepted (o : WorkflowObservation)
  | Duplicate (observation_id : text) (sequence : Z) (accepted_at : text).

Definition entry_of (t : Tombstone) : IdempotencyEntry :=
  mkEntry (tomb_observation_id t) (tomb_sequence t) (accepted_at t) (tomb_payload_hash t).
Definition empty_cache : SessionCache := mkCache [] [].

Section store.
Context `{LogLibrary}.

(** ** Recording *)

Definition by_sequence (a b : Tombstone) : bool := tomb_sequence a <=? tomb_sequence b.
Definition obs_by_sequence (a b : StoredObservation) : bool :=
  sequence (observation a) <=? sequence (observation b).
(** At most [MAX_TOMBSTONES], the oldest go. *)
Definition bound_tombstones (tombs : list Tombstone) : list Tombstone :=
  sort_by by_sequence
    (if (MAX_TOMBSTONES <? length tombs)%nat
     then drop (length tombs - MAX_TOMBSTONES) (sort_by by_sequence tombs) else tombs).

(** Evict the oldest observation while [over] holds. *)
Fixpoint evict_while (over : list Tombstone → list StoredObservation → bool) (now : Z)
    (tombs : list Tombstone) (obs : list StoredObservation)
    : list Tombstone * list StoredObservation :=
  match obs with
  | [] => (tombs, [])
  | o :: rest =>
      if over tombs obs then evict_while over now (maybe_tombstone now tombs o) rest
      else (tombs, obs)
  end.
Definition too_many (_ : list Tombstone) (obs : list StoredObservation) : bool :=
  (MAX_SEGMENT_OBSERVATIONS <? length obs)%nat.
Definition too_large (tombs : list Tombstone) (obs : list StoredObservation) : bool :=
  MAX_SEGMENT_BYTES <? segment_size tombs obs.

Definition segment (d : Dir) (session : text) : list Z := default [] (segments d !! session).
Definition write_segment (session : text) (bytes : list Z) (d : Dir) : Dir :=
  mkDir (<[session := bytes]> (segments d)) (counter d).
(** [append_line]: the file is created if need be. *)
Definition append_line (f : Faults) (session : text) (line : list Z) (d : Dir) : Dir * bool :=
  match append_stops f with
  | None => (write_segment session (segment d session ++ line) d, true)
  | Some n => (write_segment session (segment d session ++ take n line) d, false)
  end.

Definition append_or_rewrite (f : Faults) (now : Z) (session : text) (stored : StoredObservation)
    (i : StoreInner) (d : Dir) : StoreInner * Dir * bool :=
  let cache := default empty_cache (session_cache i !! session) in
  let with_cache c := set_session_cache (<[session := c]> (session_cache i)) i in
  let unexpired := filter (λ t, within_window now (accepted_at t) = true) (tombstones cache) in
  let tombs_changed := negb (length unexpired =? length (tombstones cache))%nat in
  let line := observation_line stored in
  let current_len := if size_known f then Z.of_nat (length (segment d session)) else 0 in
  let projected_len := current_len + Z.of_nat (length line) in
  if negb tombs_changed
     && (S (length (observations cache)) <=? MAX_SEGMENT_OBSERVATIONS)%nat
     && (projected_len <=? MAX_SEGMENT_BYTES)
  then
    let '(d, ok) := append_line f session line d in
    if ok then (with_cache (mkCache (observations cache ++ [stored]) (tombstones cache)), d, true)
    else (with_cache cache, d, false)
  else
    let '(tombs, obs) := evict_while too_many now unexpired (observations cache ++ [stored]) in
    let '(tombs, obs) := evict_while too_large now tombs obs in
    let tombs := bound_tombstones tombs in
    let obs := sort_by obs_by_sequence obs in
    if segment_replaced f
    then (with_cache (mkCache obs tombs), write_segment session (segment_bytes tombs obs) d, true)
    else (with_cache cache, d, false).

Definition write_counter (f : Faults) (value : Z) (d : Dir) : Dir * bool :=
  if counter_written f then (mkDir (segments d) (Some (decimal_u64 value)), true) else (d, false).

(** The accepted records of the last minute, trimmed ones included. *)
Definition accepted_in_window (now : Z) (c : SessionCache) : nat :=
  (length (filter (λ o, within_rate_window now (observed_at (observation o)) = true) (observations c))
   + length (filter (λ t, within_rate_window now (accepted_at t) = true) (tombstones c)))%nat.

(** What a new record is made of, once it is valid. *)
Record Prepared : Type := mkPrepared {
  prep_source : ObservationSource;
  prep_confidence : f64;
  prep_area : option text;
  prep_fingerprint : text;
  prep_key : text;
  prep_payload : text;
}.
Definition prepare (session : text) (origin : ObservationOrigin) (key : text)
    (c : ObservationCandidate) : result RecordError Prepared :=
  if is_nil (trim session) then Err EmptySessionId
  else if is_nil key then Err EmptyIdempotencyKey
  else
    sc ← validate_candidate origin c;
    area ← canonical_area (cand_problem_area c);
    Ok (mkPrepared sc.1 sc.2 area (fingerprint_of c area) (hash_key session key)
          (hash_payload (cand_kind c) (cand_description c) (cand_evidence c) (cand_impact c) area)).

Definition new_observation (session uuid : text) (now sequence : Z) (c : ObservationCandidate)
    (p : Prepared) : StoredObservation :=
  mkStored
    (mkObservation uuid sequence session (to_rfc3339 now) (cand_kind c) (cand_description c)
       (cand_evidence c) (prep_area p) (cand_impact c) (prep_source p) (prep_confidence p)
       (prep_fingerprint p)) (prep_key p) (prep_payload p).

(** The part of [record_locked] after the replay check. *)
Definition accept_new (f : Faults) (now : Z) (uuid session : text) (c : ObservationCandidate)
    (p : Prepared) (i : StoreInner) (d : Dir)
    : StoreInner * Dir * result RecordError RecordOutcome :=
  if is_some_and (session_cache i !! session)
       (λ cache, (MAX_ACCEPTED_PER_SESSION_MINUTE <=? accepted_in_window now cache)%nat)
  then (i, d, Err RateLimited)
  else
    let new_sequence := wrapping_add u64_max (last_issued_sequence i) 1 in
    let '(d, ok) := write_counter f new_sequence d in
    if negb ok then (i, d, Err PersistFailed)
    else
      let i := set_last_issued new_sequence i in
      let stored := new_observation session uuid now new_sequence c p in
      let '(i, d, ok) := append_or_rewrite f now session stored i d in
      if negb ok then (i, d, Err PersistFailed)
      else
        (set_idempotency (<[(session, prep_key p) := entry_of (tombstone_of stored)]>
                            (idempotency i)) i,
         d, Ok (Accepted (observation stored))).

Definition record_locked (f : Faults) (now : Z) (uuid session : text) (origin : ObservationOrigin)
    (key : text) (c : ObservationCandidate) (i : StoreInner) (d : Dir)
    : StoreInner * Dir * result RecordError RecordOutcome :=
  match prepare session origin key c with
  | Err e => (i, d, Err e)
  | Ok p =>
      if degraded i then (i, d, Err Degraded)
      else
        let cache_key := (session, prep_key p) in
        match idempotency i !! cache_key with
        | None => accept_new f now uuid session c p i d
        | Some entry =>
            if within_window now (entry_accepted_at entry)
            then
              if entry_payload entry == prep_payload p
              then (i, d, Ok (Duplicate (entry_id entry) (entry_sequence entry)
                                (entry_accepted_at entry)))
              else (i, d, Err IdempotencyConflict)
            else
              accept_new f now uuid session c p
                (set_idempotency (delete cache_key (idempotency i)) i) d
        end
  end.

(** ** Reading *)

Definition workspace_observations (i : StoreInner) : list WorkflowObservation :=
  let all := sort_by (λ a b, sequence a <=? sequence b)
               (concat ((λ sc, observation <$> observations sc.2) <$> map_to_list (session_cache i))) in
  drop (length all - MAX_WORKSPACE_OBSERVATIONS) all.
Definition session_observations (session : text) (i : StoreInner) : list WorkflowObservation :=
  match session_cache i !! session with
  | Some c => observation <$> observations c
  | None => []
  end.
Definition session_observation_count (session : text) (i : StoreInner) : nat :=
  match session_cache i !! session with Some c => length (observations c) | None => 0%nat end.

(** ** The anti-spam trim *)

Definition indices_ids (drops : gset nat) (os : list StoredObservation) : list text :=
  (λ io, id (observation io.2)) <$> filter (λ io, io.1 ∈ drops) (enumerate os).
Definition plan_redundant_trims (protected : gset text) (i : StoreInner) : list (text * list text) :=
  if degraded i then []
  else
    omap (λ sc,
      let drops := session_drop_indices (observations sc.2) protected (seconds SPAM_WINDOW_SECS) in
      if bool_decide (drops = ∅) then None else Some (sc.1, indices_ids drops (observations sc.2)))
      (map_to_list (session_cache i)).

(** The decision, made again on the current records and narrowed to the plan. *)
Definition trim_drops (drop_ids : list text) (protected : gset text) (os : list StoredObservation)
    : gset nat :=
  let recomputed := session_drop_indices os protected (seconds SPAM_WINDOW_SECS) in
  filter (λ index, is_some_and (os !! index) (λ o, one_of (id (observation o)) drop_ids) = true)
    recomputed.
Definition trimmed_tombstones (now : Z) (drops : gset nat) (c : SessionCache) : list Tombstone :=
  bound_tombstones
    (fold_left (λ tombs index, match observations c !! index with
                               | Some o => maybe_tombstone now tombs o
                               | None => tombs
                               end)
       (elements drops) (filter (λ t, within_window now (accepted_at t) = true) (tombstones c))).
Definition apply_trim_session (replaced : bool) (now : Z) (session : text) (drop_ids : list text)
    (protected : gset text) (i : StoreInner) (d : Dir) : StoreInner * Dir * option (list text) :=
  if degraded i then (i, d, Some [])
  else
    match session_cache i !! session with
    | None => (i, d, Some [])
    | Some cache =>
        let drops := trim_drops drop_ids protected (observations cache) in
        if bool_decide (drops = ∅) then (i, d, Some [])
        else
          let tombs := trimmed_tombstones now drops cache in
          let kept := remaining drops (observations cache) in
          if replaced
          then (set_session_cache (<[session := mkCache kept tombs]> (session_cache i)) i,
                write_segment session (segment_bytes tombs kept) d,
                Some (indices_ids drops (observations cache)))
          else (i, d, None)
    end.

(** ** Opening *)

Definition load_tombstone (now : Z) (session : text) (m : gmap (text * text) IdempotencyEntry)
    (t : Tombstone) : gmap (text * text) IdempotencyEntry :=
  if within_window now (accepted_at t) then <[(session, tomb_key_hash t) := entry_of t]> m else m.
Definition load_segment (now : Z) (session : text) (p : ParsedSegment)
    (m : gmap (text * text) IdempotencyEntry) : gmap (text * text) IdempotencyEntry :=
  fold_left (load_tombstone now session)
    ((tombstone_of <$> parsed_observations p) ++ parsed_tombstones p) m.
Definition seen_in (p : ParsedSegment) (n : Z) : Z :=
  foldr Z.max n ((sequence ∘ observation <$> parsed_observations p)
                 ++ (tomb_sequence <$> parsed_tombstones p)).

Definition cache_of (p : ParsedSegment) : SessionCache :=
  mkCache (sort_by obs_by_sequence (parsed_observations p))
    (sort_by by_sequence (parsed_tombstones p)).
Definition counter_corrupt : ObservationDiagnostic :=
  mkDiagnostic "sequence_counter_corrupt"
    (bytes_of "The workflow-observation sequence counter is malformed; new observations are rejected until it is repaired.")
    None.
Definition WORKSPACE_DIAGNOSTIC_KEY : text := bytes_of "__workspace__".

(** What the file system answers to an opening: which segments and whether the counter
    can be read, and which segments can be shortened. *)
Record Reading : Type := mkReading {
  segment_readable : text → bool;
  counter_readable : bool;
  shortens : text → bool;
}.
(** [fs::read_to_string]: a file that is missing, unreadable or not UTF-8 is an error. *)
Definition read_counter (r : Reading) (d : Dir) : option text :=
  if negb (counter_readable r) then None
  else bytes ← counter d; match from_utf8 bytes with Utf8Ok cs => Some cs | _ => None end.

Definition parsed_segments (r : Reading) (d : Dir) : gmap text ParsedSegment :=
  map_imap (λ session bytes,
    if segment_readable r session then Some (tolerant_parse session bytes) else None) (segments d).
Definition shortened (r : Reading) (d : Dir) : gmap text (list Z) :=
  map_imap (λ session bytes,
    Some (if segment_readable r session && shortens r session
          then match crash_tail_valid_len (tolerant_parse session bytes) with
               | Some n => take n bytes
               | None => bytes
               end
          else bytes)) (segments d).

Definition open (r : Reading) (now : Z) (d : Dir) : StoreInner * Dir :=
  let parsed := parsed_segments r d in
  let max_seen := map_fold (λ _ p n, seen_in p n) 0 parsed in
  let ds := parsed_diagnostics <$> filter (λ sp, parsed_diagnostics sp.2 ≠ []) parsed in
  let '(last, corrupt) :=
    match read_counter r d with
    | Some chars =>
        match parse_u64 (trim chars) with
        | Some value => (Z.max value max_seen, false)
        | None => (0, true)
        end
    | None => (max_seen, false)
    end in
  (mkInner ∅ last corrupt
     (map_fold (λ session p m, load_segment now session p m) ∅ parsed)
     (if corrupt then <[WORKSPACE_DIAGNOSTIC_KEY := [counter_corrupt]]> ds else ds)
     (cache_of <$> parsed),
   mkDir (shortened r d) (counter d)).
End store.

(** ** Deletion *)

(** [revoke_session]: the permits of the session are cleared and forgotten, and dead ones
    with them. *)
Definition alive (cs : gmap nat Permit) (cell : nat) : bool :=
  is_some_and (cs !! cell) (λ p, (0 <? strong p)%nat).
Definition invalidated (session : text) (ps : gmap (text * text) nat) (cs : gmap nat Permit)
    : gmap nat Permit :=
  map_imap (λ cell p,
    Some (if existsb (λ kc, (kc.1.1 == session) && (kc.2 =? cell)%nat && (0 <? strong p)%nat)
               (map_to_list ps)
          then mkPermit false (strong p) else p)) cs.
Definition revoke_session (session : text) (s : Store) : Store :=
  let ps := permits (inner s) in
  set_cells (invalidated session ps (cells s))
    (set_inner (set_permits
       (filter (λ kc, kc.1.1 ≠ session ∧ alive (cells s) kc.2 = true) ps) (inner s)) s).
Definition forget_session (session : text) (i : StoreInner) : StoreInner :=
  set_session_cache (delete session (session_cache i))
    (set_idempotency (filter (λ ke, ke.1.1 ≠ session) (idempotency i))
       (set_diagnostics (delete session (diagnostics i)) i)).
Definition remove_segment (session : text) (d : Dir) : Dir :=
  mkDir (delete session (segments d)) (counter d).

(** [delete_session_observations]; a missing file is as good as a removed one. *)
Definition delete_session_observations (removes : bool) (session : text) (s : Store) : Store * bool :=
  let s := revoke_session session s in
  if removes
  then (mkStore (forget_session session (inner s)) (remove_segment session (dir s)) (cells s)
          (next_cell s), true)
  else (s, false).

(** The durable deletion: the directory handles kept since opening, the limit on names
    the system reports, the removal and the two syncs. *)
Record DurableDisk : Type := mkDurable {
  anchored : bool;
  name_limit : option nat;
  unlinks : bool;
  directory_synced : bool;
  root_synced : bool;
}.
Inductive DeleteResult : Type := Deleted | InvalidIdentity | DeleteFailed.
Definition valid_identity (id : text) : bool :=
  negb (is_nil id) && (length (encode id) <=? 256)%nat
  && forallb (λ c, is_ascii_alphanumeric c || (c =? 0x2d) || (c =? 0x5f)) (encode id).
Definition delete_session_observations_durable (k : DurableDisk) (session : text) (s : Store)
    : Store * DeleteResult :=
  if negb (valid_identity session) then (s, InvalidIdentity)
  else
    let s := revoke_session session s in
    if negb (anchored k) then (s, DeleteFailed)
    else
      match opt_filter (λ n, (0 <? n)%nat) (name_limit k) with
      | None => (s, DeleteFailed)
      | Some limit =>
          let fits := (length (encode session ++ bytes_of ".ndjson") <=? limit)%nat in
          if fits && negb (unlinks k) then (s, DeleteFailed)
          else
            let d := if fits then remove_segment session (dir s) else dir s in
            let s := mkStore (inner s) d (cells s) (next_cell s) in
            if directory_synced k && root_synced k
            then (set_inner (forget_session session (inner s)) s, Deleted)
            else (s, DeleteFailed)
      end.

(** ** Captured writers *)

Record CapturedWriter : Type := mkWriter { writer_session : text; writer_cell : nat }.

Definition capture_writer (session created : text) (s : Store) : Store * CapturedWriter :=
  let ps := filter (λ kc, alive (cells s) kc.2 = true) (permits (inner s)) in
  match ps !! (session, created) with
  | Some cell =>
      (set_cells (alter (λ p, mkPermit (valid p) (S (strong p))) cell (cells s))
         (set_inner (set_permits ps (inner s)) s), mkWriter session cell)
  | None =>
      let cell := next_cell s in
      (mkStore (set_permits (<[(session, created) := cell]> ps) (inner s)) (dir s)
         (<[cell := mkPermit true 1]> (cells s)) (S cell), mkWriter session cell)
  end.
(** [clone] and [drop] of a writer. *)
Definition clone_writer (w : CapturedWriter) (s : Store) : Store :=
  set_cells (alter (λ p, mkPermit (valid p) (S (strong p))) (writer_cell w) (cells s)) s.
Definition drop_writer (w : CapturedWriter) (s : Store) : Store :=
  set_cells (alter (λ p, mkPermit (valid p) (pred (strong p))) (writer_cell w) (cells s)) s.

(** [FileClaim]: pending until it is admitted, cancelled or expired, once. *)
Inductive ClaimState : Type := Pending | AdmittedClaim | Cancelled | ClaimExpired.
#[export] Instance claim_state_eq_dec : EqDecision ClaimState.
Proof. solve_decision. Defined.
Record FileClaim : Type := mkClaim { claim_state : ClaimState; claim_deadline : Z }.
Inductive AdmissionError : Type := Conflict | CancelledClaim | ExpiredClaim | TooLarge.
Definition stop (state : ClaimState) (c : FileClaim) : FileClaim * bool :=
  if claim_state c == Pending then (mkClaim state (claim_deadline c), true) else (c, false).
Definition admit_claim (now : Z) (c : FileClaim) : FileClaim * result AdmissionError unit :=
  let c := if claim_deadline c <=? now then (stop ClaimExpired c).1 else c in
  match claim_state c with
  | Pending => (mkClaim AdmittedClaim (claim_deadline c), Ok tt)
  | ClaimExpired => (c, Err ExpiredClaim)
  | _ => (c, Err CancelledClaim)
  end.

(** One candidate of a batch, with its moment, its id and what the files answer. *)
Record BatchItem : Type := mkItem {
  item_now : Z;
  item_uuid : text;
  item_faults : Faults;
  item_index : nat;
  item_candidate : ObservationCandidate;
}.
Section batch.
Context `{LogLibrary}.

Definition batch_key (generation : Z) (index : nat) : text :=
  bytes_of "final-scan:" ++ decimal_u64 generation ++ [0x3a] ++ decimal_u64 (Z.of_nat index).
Fixpoint record_all (session : text) (generation : Z) (items : list BatchItem) (i : StoreInner)
    (d : Dir) : StoreInner * Dir * list (nat * result RecordError RecordOutcome) :=
  match items with
  | [] => (i, d, [])
  | item :: items =>
      let '(i, d, out) :=
        record_locked (item_faults item) (item_now item) (item_uuid item) session PeonOrigin
          (batch_key generation (item_index item)) (item_candidate item) i d in
      let '(i, d, outs) := record_all session generation items i d in
      (i, d, (item_index item, out) :: outs)
  end.
Definition record_batch (w : CapturedWriter) (now : Z) (claim : FileClaim) (generation : Z)
    (items : list BatchItem) (s : Store)
    : Store * FileClaim
      * result AdmissionError (list (nat * result RecordError RecordOutcome)) :=
  if (5 <? length items)%nat then (s, claim, Err TooLarge)
  else if negb (is_some_and (cells s !! writer_cell w) valid) then (s, claim, Err Conflict)
  else
    match admit_claim now claim with
    | (claim, Err e) => (s, claim, Err e)
    | (claim, Ok _) =>
        let '(i, d, outs) := record_all (writer_session w) generation items (inner s) (dir s) in
        (mkStore i d (cells s) (next_cell s), claim, Ok outs)
    end.

(** ** Calls *)

Inductive Call : Type :=
  | RecordObservation (f : Faults) (now : Z) (uuid session : text) (origin : ObservationOrigin) (key : text)
      (c : ObservationCandidate)
  | RecordBatch (w : CapturedWriter) (now : Z) (claim : FileClaim) (generation : Z)
      (items : list BatchItem)
  | ApplyTrim (replaced : bool) (now : Z) (session : text) (drop_ids : list text)
      (protected : gset text)
  | DeleteSession (removes : bool) (session : text)
  | DeleteDurable (k : DurableDisk) (session : text)
  | Capture (session created : text)
  | CloneWriter (w : CapturedWriter)
  | DropWriter (w : CapturedWriter)
  (** the process ends, at any point between calls, and the store is opened again *)
  | Reopen (r : Reading) (now : Z).

Inductive Reply : Type :=
  | Recorded (out : result RecordError RecordOutcome)
  | Batch (out : result AdmissionError (list (nat * result RecordError RecordOutcome)))
  | Trimmed (removed : option (list text))
  | DeleteReply (out : DeleteResult)
  | Captured (w : CapturedWriter)
  | Nothing.

Definition store_call (s : Store) (call : Call) : Store * Reply :=
  match call with
  | RecordObservation f now uuid session origin key c =>
      let '(i, d, out) := record_locked f now uuid session origin key c (inner s) (dir s) in
      (mkStore i d (cells s) (next_cell s), Recorded out)
  | RecordBatch w now claim generation items =>
      let '(s, _, out) := record_batch w now claim generation items s in (s, Batch out)
  | ApplyTrim replaced now session drop_ids protected =>
      let '(i, d, out) := apply_trim_session replaced now session drop_ids protected (inner s) (dir s) in
      (mkStore i d (cells s) (next_cell s), Trimmed out)
  | DeleteSession removes session =>
      let '(s, ok) := delete_session_observations removes session s in
      (s, DeleteReply (if ok then Deleted else DeleteFailed))
  | DeleteDurable k session =>
      let '(s, out) := delete_session_observations_durable k session s in (s, DeleteReply out)
  | Capture session created => let '(s, w) := capture_writer session created s in (s, Captured w)
  | CloneWriter w => (clone_writer w s, Nothing)
  | DropWriter w => (drop_writer w s, Nothing)
  | Reopen r now =>
      let '(i, d) := open r now (dir s) in (mkStore i d ∅ (next_cell s), Nothing)
  end.

(** A store opened on any directory. *)
#[export] Instance store_machine : Machine Store Call Reply := {|
  initial s := ∃ r now d0, s = mkStore (open r now d0).1 (open r now d0).2 ∅ 0;
  step := store_call;
|}.
End batch.

(** ** Sequences *)

Section sequences.
Context `{LogLibrary}.
Implicit Types (s : Store) (i : StoreInner) (d : Dir).

Definition accepted_of (out : result RecordError RecordOutcome) : list WorkflowObservation :=
  match out with Ok (Accepted o) => [o] | _ => [] end.
Definition accepted_in (r : Reply) : list WorkflowObservation :=
  match r with
  | Recorded out => accepted_of out
  | Batch (Ok outs) => concat (accepted_of ∘ snd <$> outs)
  | _ => []
  end.
(** The observations the replies of a run accepted, in order. *)
Definition accepted (outs : list Reply) : list WorkflowObservation := concat (accepted_in <$> outs).

(** Recording in a segment touches the cache and the file of its session only. *)
Lemma append_or_rewrite_shape f now session stored i d :
  ∃ c d' ok, append_or_rewrite f now session stored i d
      = (set_session_cache (<[session := c]> (session_cache i)) i, d', ok)
    ∧ (d' = d ∨ ∃ bytes, d' = write_segment session bytes d).
Proof.
  unfold append_or_rewrite, append_line. cbv zeta.
  destruct (_ && _).
  - destruct (append_stops f); (eexists _, _, _; split; [reflexivity|eauto]).
  - destruct (evict_while too_many _ _ _) as [t1 o1].
    destruct (evict_while too_large _ _ _) as [t2 o2].
    destruct (segment_replaced f); (eexists _, _, _; split; [reflexivity|eauto]).
Qed.
Lemma append_or_rewrite_keeps f now session stored i d i' d' ok :
  append_or_rewrite f now session stored i d = (i', d', ok) →
  last_issued_sequence i' = last_issued_sequence i ∧ counter d' = counter d
  ∧ degraded i' = degraded i ∧ idempotency i' = idempotency i ∧ permits i' = permits i.
Proof.
  destruct (append_or_rewrite_shape f now session stored i d) as (c & d0 & ok0 & -> & Hd);
    intros [= <- <- <-]. by destruct Hd as [->|[? ->]].
Qed.

(** What recording does to the counter: nothing, or the next sequence is used up. *)
Definition issues i d i' d' (os : list WorkflowObservation) : Prop :=
  (last_issued_sequence i' = last_issued_sequence i ∧ counter d' = counter d ∧ os = [])
  ∨ (last_issued_sequence i' = wrapping_add u64_max (last_issued_sequence i) 1
     ∧ counter d' = Some (decimal_u64 (last_issued_sequence i'))
     ∧ (sequence <$> os = [] ∨ sequence <$> os = [last_issued_sequence i'])).

Lemma accept_new_issues f now uuid session c p i d i' d' out :
  accept_new f now uuid session c p i d = (i', d', out) → issues i d i' d' (accepted_of out).
Proof.
  unfold accept_new, issues, write_counter. intros E.
  destruct (is_some_and _ _); [simplify_eq/=; by left|].
  destruct (counter_written f); cbn in E; [|simplify_eq/=; by left].
  destruct (append_or_rewrite _ _ _ _ _ _) as [[i1 d1] ok] eqn:Ea.
  apply append_or_rewrite_keeps in Ea as (Hl & Hc & _). cbn in Hl, Hc.
  destruct ok; simplify_eq/=; right; rewrite Hl, Hc; auto.
Qed.
Lemma record_issues f now uuid session origin key c i d i' d' out :
  record_locked f now uuid session origin key c i d = (i', d', out) →
  issues i d i' d' (accepted_of out).
Proof.
  unfold record_locked. intros E.
  destruct (prepare _ _ _ _) as [p|e]; [|simplify_eq/=; by left].
  destruct (degraded i); [simplify_eq/=; by left|].
  destruct (idempotency i !! _) as [entry|]; [|by apply accept_new_issues in E].
  destruct (within_window _ _); [|by apply accept_new_issues in E].
  destruct (eqb _ _); simplify_eq/=; by left.
Qed.

(** [hi] bounds what was accepted: it is not above the last issued sequence, and the
    counter on disk knows it. *)
Definition covers (hi : Z) i d : Prop :=
  0 <= hi <= last_issued_sequence i
  ∧ (hi = 0 ∨ ∃ c, counter d = Some (decimal_u64 c) ∧ hi <= c <= u64_max).
Definition hi_after (hi : Z) (os : list WorkflowObservation) : Z := foldl Z.max hi (sequence <$> os).

Lemma covers_issues hi i d i' d' os :
  covers hi i d → issues i d i' d' os → last_issued_sequence i < u64_max →
  covers (hi_after hi os) i' d' ∧ last_issued_sequence i' <= last_issued_sequence i + 1
  ∧ StronglySorted Z.lt (hi :: (sequence <$> os)).
Proof.
  intros (Hh & Hc) [(Hl & Hd & ->)|(Hl & Hd & Hs)] Hlt.
  { unfold covers, hi_after. cbn. rewrite Hl, Hd. split_and!; try done; try lia. repeat constructor. }
  unfold wrapping_add in Hl. rewrite Z.mod_small in Hl by lia.
  unfold covers, hi_after. destruct Hs as [-> | ->]; cbn.
  - split_and!; try lia; [|repeat constructor]. destruct Hc as [|]; [by left|].
    right. exists (last_issued_sequence i'). split; [done|lia].
  - split_and!; try lia; [|repeat constructor; lia]. right. exists (last_issued_sequence i').
    split; [done|]. lia.
Qed.

Lemma hi_after_app hi os os' : hi_after hi (os ++ os') = hi_after (hi_after hi os) os'.
Proof. unfold hi_after. by rewrite fmap_app, foldl_app. Qed.
(** A list that continues above what came before. *)
Lemma sorted_continue hi os os' :
  StronglySorted Z.lt (hi :: (sequence <$> os)) →
  StronglySorted Z.lt (hi_after hi os :: (sequence <$> os')) →
  StronglySorted Z.lt (hi :: (sequence <$> os ++ os')).
Proof.
  revert hi. induction os as [|o os IH]; intros hi Hs Hs'; [done|].
  cbn in Hs |- *. apply StronglySorted_inv in Hs as [Hs Hhi].
  unfold hi_after in Hs'. cbn in Hs'. apply Forall_cons in Hhi as [Ho Hhi].
  rewrite Z.max_r in Hs' by lia.
  specialize (IH (sequence o) Hs Hs'). cbn in IH. constructor; [done|].
  apply StronglySorted_inv in IH as [_ IH]. constructor; [done|].
  eapply Forall_impl; [exact IH|]. cbn. lia.
Qed.

Lemma record_all_covers session generation items hi i d i' d' outs :
  record_all session generation items i d = (i', d', outs) → covers hi i d →
  last_issued_sequence i + Z.of_nat (length items) <= u64_max →
  covers (hi_after hi (concat (accepted_of ∘ snd <$> outs))) i' d'
  ∧ StronglySorted Z.lt (hi :: (sequence <$> concat (accepted_of ∘ snd <$> outs))).
Proof.
  revert hi i d outs. induction items as [|item items IH]; intros hi i d outs E Hc Hu; cbn in E.
  { simplify_eq/=. split; [done|]. repeat constructor. }
  destruct (record_locked _ _ _ _ _ _ _ _ _) as [[i1 d1] out] eqn:E1.
  destruct (record_all _ _ _ _ _) as [[i2 d2] outs'] eqn:E2. simplify_eq/=.
  apply record_issues in E1. eapply covers_issues in E1 as (Hc1 & Hl1 & Hs1); [|done|lia].
  destruct (IH _ _ _ _ E2 Hc1) as [Hc2 Hs2]; [lia|].
  rewrite hi_after_app. split; [done|]. by apply sorted_continue.
Qed.

Definition counter_kept (call : Call) : Prop :=
  match call with Reopen r _ => counter_readable r = true | _ => True end.

Lemma counter_kept_dec call : {counter_kept call} + {¬ counter_kept call}.
Proof. destruct call; try by left. cbn. by destruct (counter_readable r); [left|right]. Qed.

Lemma covers_same hi i d i' d' :
  covers hi i d → last_issued_sequence i' = last_issued_sequence i → counter d' = counter d →
  covers hi i' d'.
Proof. unfold covers. intros ? -> ->. done. Qed.

Lemma decimal_digits n : is_u64 n → Forall (λ b, 0x30 <= b <= 0x39) (decimal_u64 n).
Proof.
  intros Hn. destruct (decimal_fuel_spec 20 n []) as (ds & E & _ & Hd & _); [lia| |].
  - unfold is_u64, in_width, u64_max in Hn.
    change (10 ^ Z.of_nat 20) with 100000000000000000000. lia.
  - unfold decimal_u64. rewrite E, app_nil_r. by apply Forall_digits.
Qed.
Lemma trim_digits ds : Forall (λ b, 0x30 <= b <= 0x39) ds → trim ds = ds.
Proof.
  assert (Hstart : ∀ ds, Forall (λ b, 0x30 <= b <= 0x39) ds → trim_start ds = ds).
  { intros l [|b l' Hb _]; [done|]. cbn [trim_start]. unfold is_whitespace.
    repeat rewrite (proj2 (between_false _ _ _)) by lia.
    repeat rewrite (proj2 (Z.eqb_neq _ _)) by lia. done. }
  intros Hd. unfold trim, trim_end. rewrite (Hstart ds Hd), Hstart; [apply rev_involutive|].
  by apply Forall_rev.
Qed.
(** The store reads back the counter it wrote. *)
Lemma counter_round_trip r d n :
  counter_readable r = true → is_u64 n → counter d = Some (decimal_u64 n) →
  ∃ chars, read_counter r d = Some chars ∧ parse_u64 (trim chars) = Some n.
Proof.
  intros Hr Hn Hc. pose proof (decimal_digits n Hn) as Hd. exists (decimal_u64 n).
  unfold read_counter. rewrite Hr, Hc. cbn. rewrite from_utf8_ascii.
  - by rewrite trim_digits, parse_decimal_u64.
  - eapply Forall_impl; [exact Hd|]. cbn. lia.
Qed.

Lemma max_seen_nonneg r d : 0 <= map_fold (λ _ p n, seen_in p n) 0 (parsed_segments r d).
Proof.
  apply (map_fold_weak_ind (λ (n : Z) _, 0 <= n)); [done|]. intros session p _ n _ Hn.
  unfold seen_in. induction (_ ++ _) as [|x xs IH]; cbn; lia.
Qed.
Lemma open_covers r now hi i d :
  counter_readable r = true → covers hi i d → covers hi (open r now d).1 (open r now d).2.
Proof.
  intros Hr (Hh & Hc). pose proof (max_seen_nonneg r d) as Hm. unfold open, covers.
  destruct Hc as [->|(c & Hc & Hle)].
  - repeat case_match; simplify_eq/=; lia.
  - destruct (counter_round_trip r d c Hr) as (chars & -> & ->); [split; lia|done|].
    cbn. split; [lia|]. right. eauto.
Qed.

Lemma open_zero r now d : covers 0 (open r now d).1 (open r now d).2.
Proof.
  split; [|by left]. pose proof (max_seen_nonneg r d). unfold open. repeat case_match; simplify_eq/=; lia.
Qed.

Lemma accepted_in_other s call :
  match call with RecordObservation _ _ _ _ _ _ _ | RecordBatch _ _ _ _ _ => True
  | _ => accepted_in (store_call s call).2 = [] end.
Proof. destruct call; cbn; try done; repeat case_match; simplify_eq/=; done. Qed.

Lemma revoke_keeps session s :
  last_issued_sequence (inner (revoke_session session s)) = last_issued_sequence (inner s)
  ∧ dir (revoke_session session s) = dir s.
Proof. done. Qed.
Lemma trim_keeps replaced now session ids protected i d i' d' out :
  apply_trim_session replaced now session ids protected i d = (i', d', out) →
  last_issued_sequence i' = last_issued_sequence i ∧ counter d' = counter d.
Proof.
  unfold apply_trim_session. intros E. repeat (case_match; simplify_eq/=); done.
Qed.

Lemma call_covers hi s call :
  covers hi (inner s) (dir s) → last_issued_sequence (inner s) + 5 <= u64_max → counter_kept call →
  covers (hi_after hi (accepted_in (store_call s call).2)) (inner (store_call s call).1)
    (dir (store_call s call).1)
  ∧ StronglySorted Z.lt (hi :: (sequence <$> accepted_in (store_call s call).2)).
Proof.
  intros Hc Hu Hk. pose proof (accepted_in_other s call) as Ho.
  assert (Hnone : accepted_in (store_call s call).2 = [] →
    covers hi (inner (store_call s call).1) (dir (store_call s call).1) →
    covers (hi_after hi (accepted_in (store_call s call).2)) (inner (store_call s call).1)
      (dir (store_call s call).1)
    ∧ StronglySorted Z.lt (hi :: (sequence <$> accepted_in (store_call s call).2))).
  { intros -> ?. split; [done|]. repeat constructor. }
  destruct call; cbn [store_call] in *.
  - clear Hnone Ho. destruct (record_locked _ _ _ _ _ _ _ _ _) as [[i d] out] eqn:E. cbn.
    apply record_issues in E. eapply covers_issues in E as (? & _ & ?); [by split|done|lia].
  - clear Hnone Ho. unfold record_batch. destruct (5 <? length items)%nat eqn:El; cbn.
    { split; [done|]. repeat constructor. }
    destruct (negb _); cbn; [split; [done|repeat constructor]|].
    destruct (admit_claim now claim) as [claim' [u|e]]; cbn; [|split; [done|repeat constructor]].
    destruct (record_all _ _ _ _ _) as [[i d] outs] eqn:E. cbn.
    apply Nat.ltb_ge in El. eapply record_all_covers in E as [? ?]; [by split|done|lia].
  - destruct (apply_trim_session _ _ _ _ _ _ _) as [[i d] out] eqn:E. apply Hnone; [done|].
    apply trim_keeps in E as [? ?]. by eapply covers_same.
  - apply Hnone; [done|]. unfold delete_session_observations. by destruct removes.
  - apply Hnone; [done|]. unfold delete_session_observations_durable.
    repeat case_match; simplify_eq/=; done.
  - apply Hnone; [by case_match|]. unfold capture_writer. by destruct (_ !! (session, created)).
  - by apply Hnone.
  - by apply Hnone.
  - apply Hnone; [by case_match|]. pose proof (open_covers r now hi _ _ Hk Hc) as Hop.
    by destruct (open r now (dir s)).
Qed.

(** There is room for five more sequences: the counter is far from its end. *)
Definition roomy s : Prop := last_issued_sequence (inner s) + 5 <= u64_max.

Lemma covers_weaken hi i d : covers hi i d → covers 0 i d.
Proof. intros [Hh _]. split; [lia|by left]. Qed.
Lemma call_keeps_zero s call : covers 0 (inner s) (dir s) → roomy s → covers 0 (inner (store_call s call).1) (dir (store_call s call).1).
Proof.
  intros Hc Hr. destruct (counter_kept_dec call) as [Hk|Hk].
  - eapply covers_weaken. by apply call_covers.
  - destruct call; try by destruct Hk. cbn [store_call]. pose proof (open_zero r now (dir s)) as Ho.
    by destruct (open r now (dir s)).
Qed.
Lemma run_keeps_zero s calls :
  covers 0 (inner s) (dir s) → (∀ n, roomy (run s (take n calls)).1) →
  covers 0 (inner (run s calls).1) (dir (run s calls).1).
Proof.
  revert s. induction calls as [|call calls IH]; intros s Hc Hr; [done|]. rewrite run_cons. cbn [fst].
  apply IH; [by apply call_keeps_zero; [|apply (Hr 0%nat)]|].
  intros n. specialize (Hr (S n)). cbn [take] in Hr. by rewrite run_cons in Hr.
Qed.
Lemma run_sorted s calls hi :
  covers hi (inner s) (dir s) → Forall counter_kept calls → (∀ n, roomy (run s (take n calls)).1) →
  StronglySorted Z.lt (hi :: (sequence <$> accepted (run s calls).2)).
Proof.
  intros Hc Hk. revert s hi Hc. induction Hk as [|call calls Hcall _ IH]; intros s hi Hc Hr; [repeat constructor|].
  destruct (call_covers hi s call Hc (Hr 0%nat) Hcall) as [Hc' Hs'].
  specialize (IH (store_call s call).1). rewrite run_cons. unfold accepted. cbn [fmap list_fmap concat snd].
  apply sorted_continue; [exact Hs'|]. apply IH; [exact Hc'|].
  intros n. specialize (Hr (S n)). cbn [take] in Hr. by rewrite run_cons in Hr.
Qed.

(** C31: From any point of any run on, the sequences of the accepted observations strictly
    increase, if every start from there on can read the counter file and the counter does
    not reach its end.  What else fails, is trimmed or deleted does not matter, nor do the
    starts of before. *)
Theorem sequences_increase s before after :
  initial s → Forall counter_kept after → (∀ n, roomy (run s (take n (before ++ after))).1) →
  StronglySorted Z.lt (sequence <$> accepted (run (run s before).1 after).2).
Proof.
  intros (r & now & d0 & ->) Hk Hr. set (s := mkStore _ _ _ _) in *.
  enough (StronglySorted Z.lt (0 :: (sequence <$> accepted (run (run s before).1 after).2))) as Hall
    by by apply StronglySorted_inv in Hall as [? _].
  apply run_sorted; [|done|].
  - apply run_keeps_zero; [apply open_zero|]. intros n. destruct (decide (n <= length before)%nat) as [Hn|Hn].
    + specialize (Hr n). by rewrite take_app_le in Hr.
    + specialize (Hr (length before)). rewrite take_app_length in Hr. by rewrite take_ge by lia.
  - intros n. specialize (Hr (length before + n)%nat). by rewrite take_app_add, run_app_fst in Hr.
Qed.
End sequences.
