(* ===== verification/ObservationRetry.v ===== *)
(** * Retries and rates of the workflow-observation store

    What the bounds of ObservationStore.v are for: a retry of an accepted report within
    fifteen minutes is answered with the first one's identity, although segments are
    trimmed and the store is opened again, and a session gets at most sixty reports
    accepted in any minute.  The first needs the second: the [MAX_TOMBSTONES]
    reserved are enough because sixty a minute are at most 900 in the window.

    The theorems are about one session, the others do as they like; the clock does not
    go backwards, and no append to a segment stops half-way. *)
From S2P Require Export ObservationStore.
#[local] Arguments decimal_u64 : simpl never.
#[local] Arguments wrapping_add : simpl never.

(** ** The records of a session *)

Section recs.
Context `{LogLaws}.
Implicit Types (t now : Z) (r : Tombstone) (rs : list Tombstone) (os : list StoredObservation).

Definition records rs os : list Tombstone := rs ++ (tombstone_of <$> os).
Definition cache_records (c : SessionCache) : list Tombstone :=
  records (tombstones c) (observations c).
Definition when r : option Z := parse_from_rfc3339 (accepted_at r).
Definition fresh now r : Prop := within_window now (accepted_at r) = true.
#[export] Instance fresh_dec now r : Decision (fresh now r).
Proof. unfold fresh. apply _. Defined.
Definition between_times (a b : Z) r : Prop := ∃ τ, when r = Some τ ∧ a <= τ <= b.
#[export] Instance between_times_dec a b r : Decision (between_times a b r).
Proof.
  unfold between_times. destruct (when r) as [τ|].
  - destruct (decide (a <= τ <= b)); [left; eauto|right; naive_solver].
  - right; naive_solver.
Defined.
Definition count (a b : Z) rs : nat := length (filter (between_times a b) rs).

Lemma fresh_mono now now' r : now <= now' → fresh now' r → fresh now r.
Proof.
  unfold fresh, within_window, within. destruct (parse_from_rfc3339 _); [|done].
  intros ? ?%Z.leb_le. apply Z.leb_le. lia.
Qed.
Lemma fresh_when now r τ : when r = Some τ → fresh now r ↔ now - τ <= seconds 900.
Proof. unfold fresh, within_window, within, when. intros ->. by rewrite Z.leb_le. Qed.

Lemma count_app a b rs rs' : count a b (rs ++ rs') = (count a b rs + count a b rs')%nat.
Proof. unfold count. by rewrite filter_app, length_app. Qed.
Lemma filter_submseteq (P : Tombstone → Prop) `{∀ x, Decision (P x)} rs rs' :
  rs ⊆+ rs' → filter P rs ⊆+ filter P rs'.
Proof.
  induction 1 as [|r rs rs' _ IH|r1 r2 rs|r rs rs' _ IH|rs1 rs2 rs3 _ IH1 _ IH2]; try done.
  - rewrite !filter_cons. destruct (decide (P r)); [by constructor|done].
  - rewrite !filter_cons. destruct (decide (P r1)), (decide (P r2)); try done. by constructor.
  - rewrite filter_cons. destruct (decide (P r)); [by constructor|done].
  - by etrans.
Qed.
Lemma count_submseteq a b rs rs' : rs ⊆+ rs' → (count a b rs <= count a b rs')%nat.
Proof. intros Hs. by apply submseteq_length, filter_submseteq. Qed.
Lemma count_weaken a b a' b' rs :
  (∀ r τ, r ∈ rs → when r = Some τ → a <= τ <= b → a' <= τ <= b') →
  (count a b rs <= count a' b' rs)%nat.
Proof.
  unfold count. induction rs as [|r rs IH]; intros Hw; [done|].
  specialize (IH ltac:(intros r' τ Hr'; apply Hw; by right)). rewrite !filter_cons.
  destruct (decide (between_times a b r)) as [(τ & Hτ & Hab)|]; cbn [length].
  - rewrite decide_True; [cbn [length]; lia|]. exists τ. split; [done|]. eapply Hw; eauto. by left.
  - case_decide; cbn [length]; lia.
Qed.
(** Two adjoining intervals hold what their union does. *)
Lemma count_split a b c rs : (count a c rs <= count a b rs + count b c rs)%nat.
Proof.
  unfold count. induction rs as [|r rs IH]; [done|]. rewrite !filter_cons.
  destruct (decide (between_times a c r)) as [(τ & Hτ & Hac)|]; cbn [length].
  - destruct (decide (τ <= b)).
    + rewrite (decide_True (P := between_times a b r)) by (exists τ; split; [done|lia]).
      case_decide; cbn [length]; lia.
    + rewrite (decide_True (P := between_times b c r)) by (exists τ; split; [done|lia]).
      case_decide; cbn [length]; lia.
  - repeat case_decide; cbn [length]; lia.
Qed.

(** Sixty in every minute are sixty times [n] in [n] minutes. *)
Definition minute : Z := seconds 60.
Definition rated rs : Prop := ∀ a, (count a (a + minute) rs <= 60)%nat.
Lemma rated_minutes rs n now :
  rated rs → (count (now - Z.of_nat (S n) * minute) now rs <= 60 * S n)%nat.
Proof.
  intros Hr. induction n as [|n IH].
  { specialize (Hr (now - minute)). replace (now - minute + minute) with now in Hr by lia.
    replace (now - Z.of_nat 1 * minute) with (now - minute) by lia. lia. }
  etrans; [apply (count_split _ (now - Z.of_nat (S n) * minute))|].
  specialize (Hr (now - Z.of_nat (S (S n)) * minute)).
  replace (now - Z.of_nat (S (S n)) * minute + minute) with (now - Z.of_nat (S n) * minute) in Hr by lia.
  lia.
Qed.

(** What is not older than the window, when nothing is newer than now. *)
Definition dated t rs : Prop := Forall (λ r, ∃ τ, when r = Some τ ∧ τ <= t) rs.
Definition unexpired now rs : list Tombstone := filter (fresh now) rs.
Lemma unexpired_bound now rs :
  dated now rs → rated rs → (length (unexpired now rs) <= 900)%nat.
Proof.
  intros Hd Hr. pose proof (rated_minutes rs 14 now Hr) as Hc. etrans; [|exact Hc].
  unfold unexpired, count. clear Hr Hc. induction Hd as [|r rs (τ & Hτ & Ht) _ IH]; [done|].
  rewrite !filter_cons. destruct (decide (fresh now r)) as [Hf|].
  - apply (fresh_when now r τ Hτ) in Hf. unfold minute, seconds in *.
    rewrite decide_True; [cbn [length]; lia|]. exists τ. split; [done|]. lia.
  - case_decide; cbn [length]; lia.
Qed.

Lemma unexpired_app now rs rs' : unexpired now (rs ++ rs') = unexpired now rs ++ unexpired now rs'.
Proof. apply filter_app. Qed.
Lemma unexpired_fresh now rs : Forall (fresh now) rs → unexpired now rs = rs.
Proof. apply filter_all. Qed.
Lemma unexpired_mono now now' rs : now <= now' → unexpired now' (unexpired now rs) = unexpired now' rs.
Proof.
  intros Hn. unfold unexpired. rewrite list_filter_filter. apply list_filter_iff.
  intros r. split; [by intros [? _]|]. intros Hr. split; [done|]. by eapply fresh_mono.
Qed.

(** ** The operations on records *)

Lemma maybe_tombstone_recs now tombs o :
  maybe_tombstone now tombs o = tombs ++ unexpired now [tombstone_of o].
Proof.
  unfold maybe_tombstone, unexpired. rewrite filter_cons, filter_nil.
  change (within_window now (observed_at (observation o)))
    with (within_window now (accepted_at (tombstone_of o))).
  destruct (decide (fresh now (tombstone_of o))) as [Hf|Hf]; unfold fresh in Hf; [by rewrite Hf|].
  rewrite (not_true_is_false _ Hf). by rewrite app_nil_r.
Qed.

(** Rewriting may forget records, but none in the window, and invents none. *)
Definition trims now rs rs' : Prop := rs' ⊆+ rs ∧ unexpired now rs ≡ₚ unexpired now rs'.
#[export] Instance unexpired_proper now : Proper ((≡ₚ) ==> (≡ₚ)) (unexpired now).
Proof. intros rs rs' E. unfold unexpired. by rewrite E. Qed.
#[export] Instance trims_proper now : Proper ((≡ₚ) ==> (≡ₚ) ==> iff) (trims now).
Proof. intros rs1 rs1' E1 rs2 rs2' E2. unfold trims. by rewrite E1, E2. Qed.
Lemma trims_refl now rs rs' : rs ≡ₚ rs' → trims now rs rs'.
Proof. intros E. split; [by rewrite E|]. unfold unexpired. by rewrite E. Qed.
Lemma trims_trans now rs1 rs2 rs3 : trims now rs1 rs2 → trims now rs2 rs3 → trims now rs1 rs3.
Proof. intros [H1 E1] [H2 E2]. split; [by etrans|by rewrite E1]. Qed.
Lemma trims_unexpired now rs rs' : trims now (rs ++ rs') (unexpired now rs ++ rs').
Proof.
  split.
  - apply submseteq_app; [|done]. apply sublist_submseteq. apply sublist_filter.
  - rewrite !unexpired_app. by rewrite unexpired_mono by lia.
Qed.

Lemma trims_app_l now rs1 rs rs' : trims now rs rs' → trims now (rs1 ++ rs) (rs1 ++ rs').
Proof.
  intros [Hs Hu]. split; [by apply submseteq_app|]. rewrite !unexpired_app. by rewrite Hu.
Qed.

Lemma evict_trims over now tombs os tombs' os' :
  evict_while over now tombs os = (tombs', os') → Forall (fresh now) tombs →
  trims now (records tombs os) (records tombs' os') ∧ Forall (fresh now) tombs'
  ∧ ∃ gone, os = gone ++ os'.
Proof.
  revert tombs. induction os as [|o os IH]; intros tombs E Hf; cbn in E.
  { injection E as <- <-. split_and!; [by apply trims_refl|done|by exists []]. }
  destruct (over tombs (o :: os)).
  - rewrite maybe_tombstone_recs in E. apply IH in E as (Ht & Hf' & gone & ->).
    + split_and!; [|done|by exists (o :: gone)]. eapply trims_trans; [|exact Ht].
      unfold records. rewrite <-app_assoc. cbn [fmap list_fmap].
      apply trims_app_l. by apply (trims_unexpired now [tombstone_of o]).
    + apply Forall_app. split; [done|]. apply Forall_forall. intros r [? _]%list_elem_of_filter. done.
  - injection E as <- <-. split_and!; [by apply trims_refl|done|by exists []].
Qed.

Lemma bound_tombstones_perm tombs :
  (length tombs <= 1024)%nat → bound_tombstones tombs ≡ₚ tombs.
Proof.
  intros Hl. unfold bound_tombstones. rewrite sort_by_perm.
  destruct (Nat.ltb_spec MAX_TOMBSTONES (length tombs)) as [Hlt|]; [|done].
  exfalso. with_strategy 0 [MAX_TOMBSTONES] (unfold MAX_TOMBSTONES in Hlt). lia.
Qed.

Lemma sorted_nodup (ns : list nat) : StronglySorted lt ns → NoDup ns.
Proof.
  induction 1 as [|n ns _ IH Hn]; constructor; [|done]. intros Hin.
  rewrite Forall_forall in Hn. specialize (Hn n Hin). lia.
Qed.
Lemma omap_fst_lookup os (ns : list nat) :
  (∀ n, n ∈ ns → (n < length os)%nat) → (omap (λ n, pair n <$> os !! n) ns).*1 = ns.
Proof.
  induction ns as [|n ns IH]; intros Hn; [done|]. cbn.
  destruct (lookup_lt_is_Some_2 os n) as [o ->]; [apply Hn; by left|]. cbn. f_equal.
  apply IH. intros m Hm. apply Hn. by right.
Qed.
(** The dropped and the remaining records are all the records. *)
Lemma remaining_split (drops : gset nat) os :
  (∀ n, n ∈ drops → (n < length os)%nat) →
  os ≡ₚ omap (λ n, os !! n) (elements drops) ++ remaining drops os.
Proof.
  intros Hd. unfold remaining. rewrite <-(enumerate_snd os) at 1.
  rewrite <-(filter_app_complement (λ io : nat * StoredObservation, io.1 ∈ drops) (enumerate os)) at 1.
  rewrite fmap_app. apply Permutation_app; [|done].
  trans ((omap (λ n, pair n <$> os !! n) (elements drops)).*2).
  - apply Permutation_map, NoDup_Permutation.
    + apply NoDup_filter, (NoDup_fmap_1 fst), sorted_nodup, enumerate_sorted.
    + apply (NoDup_fmap_1 fst). rewrite omap_fst_lookup; [apply NoDup_elements|].
      intros n Hn%elem_of_elements. by apply Hd.
    + intros [n o]. rewrite list_elem_of_filter, elem_of_enumerate, list_elem_of_omap. cbn. split.
      * intros [Hn Ho]. exists n. rewrite elem_of_elements, Ho. done.
      * intros (m & Hm%elem_of_elements & E). destruct (os !! m) eqn:Eo; [|done].
        by injection E as -> ->.
  - induction (elements drops) as [|n ns IH]; [done|]. cbn. destruct (os !! n); cbn; by rewrite IH.
Qed.

Lemma trim_fold now os (idx : list nat) tombs :
  fold_left (λ tombs index, match os !! index with
                            | Some o => maybe_tombstone now tombs o
                            | None => tombs
                            end) idx tombs
  = tombs ++ unexpired now (tombstone_of <$> omap (λ n, os !! n) idx).
Proof.
  revert tombs. induction idx as [|n idx IH]; intros tombs; cbn; [by rewrite app_nil_r|].
  rewrite IH. destruct (os !! n) as [o|]; [|done]. rewrite maybe_tombstone_recs, <-app_assoc.
  f_equal. cbn [fmap list_fmap]. by rewrite <-unexpired_app.
Qed.

Lemma trimmed_trims now (drops : gset nat) c :
  (∀ n, n ∈ drops → (n < length (observations c))%nat) →
  (length (unexpired now (cache_records c)) <= 1024)%nat →
  trims now (cache_records c)
    (records (trimmed_tombstones now drops c) (remaining drops (observations c))).
Proof.
  intros Hd Hl. unfold trimmed_tombstones. rewrite trim_fold.
  set (gone := omap (λ n, observations c !! n) (elements drops)).
  assert (Hp : tombstone_of <$> observations c
               ≡ₚ (tombstone_of <$> gone) ++ (tombstone_of <$> remaining drops (observations c))).
  { rewrite <-fmap_app. by apply Permutation_map, remaining_split. }
  change (filter (λ t : Tombstone, within_window now (accepted_at t) = true) (tombstones c))
    with (unexpired now (tombstones c)).
  unfold cache_records, records in *.
  rewrite bound_tombstones_perm.
  - eapply trims_trans; [apply trims_refl; by rewrite Hp|]. rewrite <-app_assoc.
    eapply trims_trans; [apply trims_unexpired|]. apply trims_app_l, trims_unexpired.
  - rewrite <-unexpired_app. etrans; [|exact Hl]. rewrite Hp, app_assoc.
    rewrite (unexpired_app now (_ ++ _) (tombstone_of <$> remaining _ _)), length_app. lia.
Qed.
End recs.

(** ** The state of one session *)

Section session.
Context `{LogLaws} (sid : text).
Implicit Types (t now : Z) (r : Tombstone) (rs P : list Tombstone) (i : StoreInner) (d : Dir).

Definition cache_at i : SessionCache := default empty_cache (session_cache i !! sid).
Definition recs i : list Tombstone := cache_records (cache_at i).

(** The file holds the cached records, whatever their order and last digits. *)
Definition backed i d : Prop :=
  ∃ tombs os, segment d sid = segment_bytes tombs os
    ∧ tombs ≡ₚ tombstones (cache_at i)
    ∧ tombstone_of <$> os ≡ₚ tombstone_of <$> observations (cache_at i)
    ∧ Forall confident os ∧ Forall confident (observations (cache_at i)).
Definition entries_in rs (m : gmap (text * text) IdempotencyEntry) : Prop :=
  ∀ r, r ∈ rs → m !! (sid, tomb_key_hash r) = Some (entry_of r).
Definition counts d : Prop :=
  counter d = None ∨ ∃ n, is_u64 n ∧ counter d = Some (decimal_u64 n).

(** At time [t] after the reports [P] of the session were accepted. *)
Record good t i d P : Prop := {
  good_backed : backed i d;
  good_dated : dated t (recs i);
  good_numbered : Forall numbered (recs i);
  good_rated : rated (recs i);
  good_entries : entries_in (unexpired t (recs i)) (idempotency i);
  good_kept : unexpired t P ⊆+ recs i;
  good_clear : degraded i = false;
  good_counts : counts d;
  good_past : dated t P;
  good_rate : rated P;
}.

Lemma dated_mono t t' rs : t <= t' → dated t rs → dated t' rs.
Proof.
  intros Ht Hd. eapply Forall_impl; [exact Hd|]. intros r (τ & ? & ?). exists τ. split; [done|lia].
Qed.
Lemma dated_submseteq t rs rs' : rs' ⊆+ rs → dated t rs → dated t rs'.
Proof. intros Hs. unfold dated. rewrite !Forall_forall. intros Hd r Hr. apply Hd. by eapply elem_of_submseteq. Qed.
Lemma numbered_submseteq rs rs' : rs' ⊆+ rs → Forall numbered rs → Forall numbered rs'.
Proof. intros Hs. rewrite !Forall_forall. intros Hd r Hr. apply Hd. by eapply elem_of_submseteq. Qed.
Lemma rated_submseteq rs rs' : rs' ⊆+ rs → rated rs → rated rs'.
Proof. intros Hs Hr a. etrans; [by apply count_submseteq|apply Hr]. Qed.
Lemma unexpired_incl now rs : unexpired now rs ⊆+ rs.
Proof. apply sublist_submseteq, sublist_filter. Qed.
Lemma entries_mono rs rs' m : (∀ r, r ∈ rs' → r ∈ rs) → entries_in rs m → entries_in rs' m.
Proof. intros Hs He r Hr. by apply He, Hs. Qed.

Lemma good_later t t' i d P : t <= t' → good t i d P → good t' i d P.
Proof.
  intros Ht []. split; try done; [by eapply dated_mono| | |].
  - eapply entries_mono; [|done]. intros r [Hf Hr]%list_elem_of_filter.
    apply list_elem_of_filter. split; [by eapply fresh_mono|done].
  - rewrite <-(unexpired_mono t t') by done. etrans; [apply unexpired_incl|done].
  - by eapply dated_mono.
Qed.

(** A change of the cache and its file that loses nothing in the window, after a report
    was added or without one. *)
Lemma good_trims now i d i' d' P new :
  good now i d P → backed i' d' → counts d' → degraded i' = false →
  trims now (recs i ++ new) (recs i') → dated now new → Forall numbered new → rated (recs i ++ new) → rated (P ++ new) →
  Forall (fresh now) new →
  entries_in (unexpired now (recs i ++ new)) (idempotency i') →
  good now i' d' (P ++ new).
Proof.
  intros [] Hb Hc Hg [Hs Hu] Hd Hnum Hr HrP Hn He. split; try done.
  - eapply dated_submseteq; [exact Hs|]. by apply Forall_app.
  - eapply numbered_submseteq; [exact Hs|]. by apply Forall_app.
  - by eapply rated_submseteq.
  - eapply entries_mono; [|exact He]. intros r. by rewrite Hu.
  - rewrite unexpired_app. trans (unexpired now (recs i ++ new)); [|rewrite Hu; apply unexpired_incl].
    rewrite unexpired_app. apply submseteq_app; [|done].
    rewrite <-(unexpired_mono now now P) by lia. by apply filter_submseteq.
  - by apply Forall_app.
Qed.

Lemma good_rewritten now i d i' d' P :
  good now i d P → backed i' d' → counts d' → degraded i' = false →
  trims now (recs i) (recs i') → idempotency i' = idempotency i → good now i' d' P.
Proof.
  intros Hg Hb Hc Hd Ht He. rewrite <-(app_nil_r P).
  apply good_trims with (i := i) (d := d); rewrite ?app_nil_r, ?He; try done; try by destruct Hg.
  all: constructor.
Qed.

(** ** Recording *)

Definition clean (f : Faults) : Prop := append_stops f = None ∨ append_stops f = Some 0%nat.

Lemma segment_written session bytes d : segment (write_segment session bytes d) session = bytes.
Proof. unfold segment. cbn. by rewrite lookup_insert_eq. Qed.
Lemma cache_at_set c i : cache_at (set_session_cache (<[sid := c]> (session_cache i)) i) = c.
Proof. unfold cache_at. cbn. by rewrite lookup_insert_eq. Qed.

Lemma append_spec f now stored i d i' d' ok :
  clean f → backed i d → fresh now (tombstone_of stored) → confident stored →
  (length (unexpired now (recs i ++ [tombstone_of stored])) <= 1024)%nat →
  append_or_rewrite f now sid stored i d = (i', d', ok) →
  backed i' d' ∧ trims now (recs i ++ (if ok then [tombstone_of stored] else [])) (recs i').
Proof.
  intros Hcl (tombs0 & os0 & Hseg & Ht0 & Ho0 & Hf0 & Hfc) Hn Hcf Hl E. unfold append_or_rewrite in E.
  fold (cache_at i) in E. unfold recs in *. destruct (cache_at i) as [os tombs] eqn:Ec.
  cbv zeta in E. cbn [observations tombstones] in *.
  assert (Hsame : ∀ b, segment (write_segment sid b d) sid = segment d sid →
    let i1 := set_session_cache (<[sid := mkCache os tombs]> (session_cache i)) i in
    backed i1 (write_segment sid b d) ∧ trims now (cache_records (mkCache os tombs) ++ [])
      (cache_records (cache_at i1))).
  { intros b Hb i1. unfold i1, backed. rewrite cache_at_set, Hb, app_nil_r.
    split; [by exists tombs0, os0|by apply trims_refl]. }
  destruct (_ && _).
  - unfold append_line in E. destruct Hcl as [Ha|Ha]; rewrite Ha in E; cbn in E; injection E as <- <- <-.
    + unfold backed. rewrite cache_at_set, segment_written, Hseg. split.
      * exists tombs0, (os0 ++ [stored]). cbn.
        split_and!; [|done|by rewrite !fmap_app, Ho0|by apply Forall_app; split; [|constructor]..].
        unfold segment_bytes. rewrite fmap_app, concat_app, <-app_assoc. cbn. by rewrite app_nil_r.
      * apply trims_refl. unfold cache_records, records. cbn. by rewrite fmap_app, <-app_assoc.
    + apply Hsame. by rewrite segment_written, app_nil_r.
  - destruct (evict_while too_many now _ _) as [t1 o1] eqn:E1.
    destruct (evict_while too_large now t1 o1) as [t2 o2] eqn:E2.
    apply evict_trims in E1 as (T1 & F1 & gone1 & G1).
    2:{ apply Forall_forall. by intros r [? _]%list_elem_of_filter. }
    apply evict_trims in E2 as (T2 & F2 & gone2 & G2); [|done].
    assert (Hc2 : Forall confident (sort_by obs_by_sequence o2)).
    { rewrite (sort_by_perm obs_by_sequence o2).
      assert (Hall : Forall confident (os ++ [stored])) by (apply Forall_app; split; [done|by constructor]).
      rewrite G1, G2, !Forall_app in Hall. tauto. }
    assert (T : trims now (cache_records (mkCache os tombs) ++ [tombstone_of stored]) (records t2 o2)).
    { eapply trims_trans; [|eapply trims_trans; [exact T1|exact T2]].
      unfold cache_records, records. cbn. rewrite fmap_app, <-app_assoc. apply trims_unexpired. }
    assert (Hb : bound_tombstones t2 ≡ₚ t2).
    { apply bound_tombstones_perm. etrans; [|exact Hl]. destruct T as [_ ->].
      unfold records. rewrite unexpired_app, (unexpired_fresh now t2), length_app by done. lia. }
    destruct (segment_replaced f); injection E as <- <- <-.
    + unfold backed. rewrite cache_at_set, segment_written. split.
      * by eexists _, _.
      * unfold cache_records, records in *. cbn. rewrite Hb, (sort_by_perm obs_by_sequence o2). done.
    + destruct d as [segs ctr]. destruct (Hsame (segment (mkDir segs ctr) sid)) as [(ts & ob & Hs & Hp) Htr].
      { by rewrite segment_written. }
      rewrite segment_written in Hs. split; [by exists ts, ob|done].
Qed.

Lemma rated_add now rs r :
  dated now rs → rated rs → when r = Some now → (count (now - minute) now rs < 60)%nat →
  rated (rs ++ [r]).
Proof.
  intros Hd Hr Hw Hlt a. rewrite count_app. unfold count at 2. rewrite filter_cons, filter_nil.
  destruct (decide (between_times a (a + minute) r)) as [(τ & Hτ & Ha)|]; cbn [length].
  2:{ specialize (Hr a). lia. }
  rewrite Hw in Hτ. injection Hτ as <-.
  assert (count a (a + minute) rs <= count (now - minute) now rs)%nat; [|lia].
  apply count_weaken. intros r' τ Hin Hr' Hab. unfold dated in Hd. rewrite Forall_forall in Hd.
  destruct (Hd r' Hin) as (τ' & Hτ' & Hle). rewrite Hr' in Hτ'. injection Hτ' as <-. lia.
Qed.
Lemma count_accepted now c :
  (count (now - minute) now (cache_records c) <= accepted_in_window now c)%nat.
Proof.
  assert (Hr : ∀ rs, (count (now - minute) now rs
    <= length (filter (λ r, within_rate_window now (accepted_at r) = true) rs))%nat).
  { induction rs as [|r rs IH]; [done|]. unfold count in *. rewrite !filter_cons.
    destruct (decide (between_times _ _ r)) as [(τ & Hτ & Ht)|]; cbn [length].
    - rewrite decide_True; [cbn [length]; lia|]. unfold within_rate_window, within, when in *.
      rewrite Hτ. apply Z.leb_le. unfold minute, seconds, RATE_LIMIT_WINDOW_SECS in *. lia.
    - case_decide; cbn [length]; lia. }
  unfold cache_records, records, accepted_in_window. rewrite count_app.
  pose proof (Hr (tombstones c)). pose proof (Hr (tombstone_of <$> observations c)) as Ho.
  assert (∀ os, length (filter (λ r, within_rate_window now (accepted_at r) = true)
                          (tombstone_of <$> os))
    = length (filter (λ o, within_rate_window now (observed_at (observation o)) = true) os)) as E.
  { induction os as [|o os IH]; [done|]. cbn [fmap list_fmap]. rewrite !filter_cons. cbn [accepted_at tombstone_of].
    case_decide; cbn [length]; by rewrite IH. }
  rewrite E in Ho. lia.
Qed.

(** What was accepted in the last minute is still cached. *)
Lemma count_recent now P rs :
  unexpired now P ⊆+ rs → (count (now - minute) now P <= count (now - minute) now rs)%nat.
Proof.
  intros Hs. etrans; [|by apply count_submseteq]. unfold count, unexpired.
  rewrite list_filter_filter. apply Nat.eq_le_incl. f_equal. apply list_filter_iff. intros r.
  split; [|tauto]. intros Hb. split; [done|]. destruct Hb as (τ & Hτ & Hb).
  apply (fresh_when _ _ _ Hτ). unfold minute, seconds in *. lia.
Qed.

(** What recording in this session does to a good state. *)
Lemma accept_new_good f now uuid c p i d P i' d' out :
  clean f → good now i d P → is_finite (prep_confidence p) = true →
  (∀ r, r ∈ unexpired now (recs i) → tomb_key_hash r ≠ prep_key p) →
  accept_new f now uuid sid c p i d = (i', d', out) →
  ∃ new, good now i' d' (P ++ new) ∧
    match out with
    | Ok (Accepted o) => ∃ n, observation (new_observation sid uuid now n c p) = o
        ∧ new = [tombstone_of (new_observation sid uuid now n c p)]
    | Ok (Duplicate _ _ _) => False
    | Err _ => new = []
    end.
Proof.
  intros Hcl Hg Hfin Hkey E. unfold accept_new in E.
  destruct (is_some_and _ _) eqn:Hrate.
  { injection E as <- <- <-. exists []. by rewrite app_nil_r. }
  assert (Hlt : (count (now - minute) now (recs i) < 60)%nat).
  { unfold recs, cache_at. destruct (session_cache i !! sid) as [cache|] eqn:Ec; [|cbn; lia].
    unfold is_some_and in Hrate. apply Nat.leb_gt in Hrate. unfold MAX_ACCEPTED_PER_SESSION_MINUTE in Hrate.
    eapply Nat.le_lt_trans; [apply count_accepted|exact Hrate]. }
  unfold write_counter in E. destruct (counter_written f); cbn [negb] in E.
  2:{ injection E as <- <- <-. exists []. by rewrite app_nil_r. }
  set (n := wrapping_add u64_max (last_issued_sequence i) 1) in *.
  set (stored := new_observation sid uuid now n c p) in *.
  set (ts := tombstone_of stored) in *.
  assert (Hw : when ts = Some now) by apply time_round_trip.
  assert (Hf : fresh now ts) by (apply (fresh_when _ _ _ Hw); unfold seconds; lia).
  assert (Hfs : Forall (fresh now) [ts]) by (constructor; [done|constructor]).
  assert (Hr : rated (recs i ++ [ts])) by (destruct Hg; by apply (rated_add now)).
  assert (HrP : rated (P ++ [ts])).
  { destruct Hg. apply (rated_add now); try done.
    eapply Nat.le_lt_trans; [by apply count_recent|exact Hlt]. }
  assert (Hd : dated now [ts]) by (constructor; [by exists now; split; [|lia]|constructor]).
  assert (Hl : (length (unexpired now (recs i ++ [ts])) <= 1024)%nat).
  { etrans; [apply unexpired_bound; [|done]|lia]. destruct Hg. by apply Forall_app. }
  destruct (append_or_rewrite _ _ _ _ _ _) as [[i1 d1] ok] eqn:Ea.
  pose proof (append_or_rewrite_keeps _ _ _ _ _ _ _ _ _ Ea) as (_ & Hc1 & Hdeg & Hid & _).
  cbn in Hc1, Hdeg, Hid.
  assert (Hn : is_u64 n).
  { unfold n, wrapping_add, is_u64, in_width. pose proof (Z.mod_pos_bound (last_issued_sequence i + 1) (u64_max + 1)).
    unfold u64_max in *. lia. }
  assert (Hnum : Forall numbered [ts]) by (constructor; [exact Hn|constructor]).
  assert (Hcnt : counts d1) by (right; exists n; split; [done|]; by rewrite Hc1).
  apply (append_spec f now stored) in Ea as [Hb Ht]; [|done|by destruct Hg|done|done|done].
  change (recs (set_last_issued n i)) with (recs i) in Ht. fold ts in Ht.
  destruct ok; injection E as <- <- <-.
  - exists [ts]. split; [|by exists n]. destruct Hg. apply good_trims with (i := i) (d := d); try done.
    + cbn. congruence.
    + rewrite unexpired_app, (unexpired_fresh now [ts]) by done.
      intros r [Hin|Hin%list_elem_of_singleton]%elem_of_app; cbn; [|subst r; by rewrite lookup_insert_eq].
      rewrite lookup_insert_ne; [rewrite Hid; by apply good_entries0|].
      intros [= Hk]. by apply (Hkey r).
  - exists []. split; [|done]. rewrite app_nil_r in Ht |- *.
    apply (good_rewritten now i d); try done. by rewrite Hdeg; destruct Hg.
Qed.

Lemma prepared_finite session origin key c p :
  prepare session origin key c = Ok p → is_finite (prep_confidence p) = true.
Proof.
  unfold prepare. intros E. repeat (case_match; [done|]). apply result_bind_Ok in E as ([src x] & Hx & E).
  apply result_bind_Ok in E as (a & _ & [= <-]). by eapply validated_finite.
Qed.
Lemma record_good f now uuid origin key c i d P i' d' out :
  clean f → good now i d P →
  record_locked f now uuid sid origin key c i d = (i', d', out) →
  ∃ new, good now i' d' (P ++ new) ∧
    match out with
    | Ok (Accepted o) => ∃ n p, prepare sid origin key c = Ok p
        ∧ observation (new_observation sid uuid now n c p) = o
        ∧ new = [tombstone_of (new_observation sid uuid now n c p)]
    | _ => new = []
    end.
Proof.
  intros Hcl Hg E. unfold record_locked in E.
  assert (Hsame : good now i d (P ++ [])) by by rewrite app_nil_r.
  destruct (prepare _ _ _ _) as [p|e] eqn:Ep; [|injection E as <- <- <-; by exists []].
  assert (Hfin : is_finite (prep_confidence p) = true) by by eapply prepared_finite.
  rewrite (good_clear _ _ _ _ Hg) in E.
  destruct (idempotency i !! (sid, prep_key p)) as [entry|] eqn:Ei.
  - destruct (within_window now (entry_accepted_at entry)) eqn:Hw.
    { destruct (eqb _ _); injection E as <- <- <-; by exists []. }
    assert (Hkey : ∀ r, r ∈ unexpired now (recs i) → tomb_key_hash r ≠ prep_key p).
    { intros r Hr Hk. pose proof (good_entries _ _ _ _ Hg r Hr) as He.
      rewrite Hk, Ei in He. injection He as ->. apply list_elem_of_filter in Hr as [Hf _].
      unfold fresh in Hf. cbn in Hw. congruence. }
    apply (accept_new_good f now uuid c p _ _ P) in E as (new & Hn & Ho); [|done| |done|done].
    + exists new. split; [done|]. destruct out as [[o|]|]; [|done|done]. destruct Ho as (n & ? & ?). eauto 10.
    + destruct Hg. split; try done. intros r Hr. cbn.
      rewrite lookup_delete_ne; [by apply good_entries0|]. intros [= Hk]. by apply (Hkey r).
  - apply (accept_new_good f now uuid c p _ _ P) in E as (new & Hn & Ho); [|done|done|done|].
    + exists new. split; [done|]. destruct out as [[o|]|]; [|done|done]. destruct Ho as (n & ? & ?). eauto 10.
    + intros r Hr Hk. pose proof (good_entries _ _ _ _ Hg r Hr) as He. by rewrite Hk, Ei in He.
Qed.

(** ** The other calls *)

(** What does not touch the session's cache, file and entries. *)
Definition frame i d i' d' : Prop :=
  cache_at i' = cache_at i ∧ segment d' sid = segment d sid
  ∧ (∀ k, idempotency i' !! (sid, k) = idempotency i !! (sid, k))
  ∧ degraded i' = degraded i ∧ (counts d → counts d').
Lemma good_frame t i d P i' d' : good t i d P → frame i d i' d' → good t i' d' P.
Proof.
  intros [] (Hc & Hs & He & Hd & Hct). unfold recs in *. split; try (unfold recs; rewrite ?Hc; done).
  - unfold backed in *. by rewrite Hc, Hs.
  - unfold recs. rewrite Hc. intros r Hr. rewrite He. by apply good_entries0.
  - congruence.
  - auto.
Qed.
Lemma frame_refl i d : frame i d i d.
Proof. by repeat split. Qed.

Lemma counts_written f n d : counts (write_counter f (wrapping_add u64_max n 1) d).1 ∨ (write_counter f (wrapping_add u64_max n 1) d).1 = d.
Proof.
  unfold write_counter. destruct (counter_written f); [left|by right]. right. eexists. split; [|done].
  unfold wrapping_add, is_u64, in_width. pose proof (Z.mod_pos_bound (n + 1) (u64_max + 1)).
  unfold u64_max in *. lia.
Qed.
Lemma append_frame f now session stored i d i' d' ok :
  session ≠ sid → append_or_rewrite f now session stored i d = (i', d', ok) → frame i d i' d'.
Proof.
  intros Hne. destruct (append_or_rewrite_shape f now session stored i d) as (c & d0 & ok0 & -> & Hd).
  intros [= <- <- <-]. unfold frame, cache_at. cbn. rewrite lookup_insert_ne by done.
  destruct Hd as [->|[bytes ->]]; [by repeat split|]. unfold segment. cbn.
  rewrite lookup_insert_ne by done. by repeat split.
Qed.
Lemma accept_new_frame f now uuid session c p i d i' d' out :
  session ≠ sid → accept_new f now uuid session c p i d = (i', d', out) → frame i d i' d'.
Proof.
  intros Hne E. unfold accept_new in E.
  destruct (is_some_and _ _); [injection E as <- <- <-; apply frame_refl|].
  pose proof (counts_written f (last_issued_sequence i) d) as Hc.
  unfold write_counter in *. destruct (counter_written f); cbn [negb fst] in *.
  2:{ injection E as <- <- <-. apply frame_refl. }
  destruct (append_or_rewrite _ _ _ _ _ _) as [[i1 d1] ok] eqn:Ea.
  pose proof (append_or_rewrite_keeps _ _ _ _ _ _ _ _ _ Ea) as (_ & Hc1 & _ & _ & _).
  apply append_frame in Ea as (H1 & H2 & H3 & H4 & H5); [|done]. cbn in H3, H4.
  assert (Hct : counts d → counts d1).
  { intros Hd. destruct Hc as [Hc|Hc]; unfold counts in *; rewrite Hc1; [done|].
    rewrite <-Hc in Hd. exact Hd. }
  destruct ok; injection E as <- <- <-; [|by split_and!].
  split_and!; try done. intros k. cbn. rewrite lookup_insert_ne; [done|]. by intros [= ? _].
Qed.
Lemma record_frame f now uuid session origin key c i d i' d' out :
  session ≠ sid → record_locked f now uuid session origin key c i d = (i', d', out) → frame i d i' d'.
Proof.
  intros Hne E. unfold record_locked in E.
  destruct (prepare _ _ _ _) as [p|e]; [|injection E as <- <- <-; apply frame_refl].
  destruct (degraded i); [injection E as <- <- <-; apply frame_refl|].
  destruct (idempotency i !! _) as [entry|]; [|by eapply accept_new_frame].
  destruct (within_window _ _); [destruct (eqb _ _); injection E as <- <- <-; apply frame_refl|].
  apply accept_new_frame in E as (H1 & H2 & H3 & H4 & H5); [|done].
  split_and!; [exact H1|exact H2| |exact H4|exact H5]. intros k. rewrite H3. cbn. rewrite lookup_delete_ne; [done|]. by intros [= ? _].
Qed.

Lemma trim_drops_bound ids protected os n :
  n ∈ trim_drops ids protected os → (n < length os)%nat.
Proof.
  unfold trim_drops. intros [H' _]%elem_of_filter. apply is_some_and_true in H' as (o & Ho & _).
  by eapply lookup_lt_Some.
Qed.
Lemma remaining_confident drops os : Forall confident os → Forall confident (remaining drops os).
Proof.
  unfold remaining. rewrite !Forall_forall. intros Hos o ([n o'] & -> & [_ Hin]%list_elem_of_filter)%list_elem_of_fmap.
  apply Hos. apply elem_of_enumerate in Hin. by eapply list_elem_of_lookup_2.
Qed.
Lemma trim_good replaced now session ids protected i d P i' d' out :
  good now i d P → apply_trim_session replaced now session ids protected i d = (i', d', out) →
  good now i' d' P.
Proof.
  intros Hg E. unfold apply_trim_session in E.
  destruct (degraded i) eqn:Hdeg; [by injection E as <- <- <-|].
  destruct (session_cache i !! session) as [c|] eqn:Ec; [|by injection E as <- <- <-].
  destruct (bool_decide _); [by injection E as <- <- <-|].
  destruct replaced; [|by injection E as <- <- <-]. injection E as <- <- <-.
  destruct (decide (session = sid)) as [->|Hne].
  - assert (Hcache : cache_at i = c) by (unfold cache_at; by rewrite Ec).
    assert (Hl : (length (unexpired now (cache_records c)) <= 1024)%nat).
    { rewrite <-Hcache. destruct Hg. etrans; [by apply unexpired_bound|lia]. }
    apply (good_rewritten now i d); try done.
    + unfold backed. rewrite cache_at_set, segment_written. eexists _, _.
      assert (Hrem : Forall confident (remaining (trim_drops ids protected (observations c)) (observations c))).
      { apply remaining_confident. destruct (good_backed _ _ _ _ Hg) as (_ & _ & _ & _ & _ & _ & Hfc). by rewrite Hcache in Hfc. }
      by split_and!.
    + by destruct Hg.
    + unfold recs. rewrite cache_at_set, Hcache. apply trimmed_trims; [|done].
      intros n. apply trim_drops_bound.
  - apply (good_frame _ _ _ _ _ _ Hg). unfold frame, cache_at, segment. cbn.
    rewrite !lookup_insert_ne by done. by repeat split.
Qed.

Lemma frame_trans i d i1 d1 i2 d2 : frame i d i1 d1 → frame i1 d1 i2 d2 → frame i d i2 d2.
Proof.
  intros (A1 & B1 & C1 & D1 & E1) (A2 & B2 & C2 & D2 & E2).
  split_and!; [congruence|congruence| |congruence|auto]. intros k. by rewrite C2.
Qed.
Lemma permits_frame i d ps : frame i d (set_permits ps i) d.
Proof. by repeat split. Qed.
Lemma remove_frame session i d : session ≠ sid → frame i d i (remove_segment session d).
Proof.
  intros Hne. unfold frame, cache_at, segment. cbn. by rewrite !lookup_delete_ne by done.
Qed.
Lemma forget_frame session i d : session ≠ sid → frame i d (forget_session session i) d.
Proof.
  intros Hne. unfold frame, cache_at. cbn. rewrite !lookup_delete_ne by done.
  split_and!; try done. intros k. apply option_eq. intros e. rewrite map_lookup_filter_Some. cbn.
  split; [by intros [? _]|]. intros ?. split; [done|]. congruence.
Qed.

(** ** Opening again *)

Lemma load_other now session p m k :
  session ≠ sid → load_segment now session p m !! (sid, k) = m !! (sid, k).
Proof.
  intros Hne. unfold load_segment. generalize ((tombstone_of <$> parsed_observations p) ++ parsed_tombstones p).
  intros l. revert m. induction l as [|r l IH]; intros m; cbn; [done|]. rewrite IH.
  unfold load_tombstone. case_match; [|done]. rewrite lookup_insert_ne; [done|]. by intros [= ? _].
Qed.
Definition consistent now rs : Prop :=
  ∀ r r', r ∈ unexpired now rs → r' ∈ unexpired now rs → tomb_key_hash r = tomb_key_hash r' →
          entry_of r = entry_of r'.
Lemma load_lookup now rs m r :
  consistent now rs → r ∈ unexpired now rs →
  fold_left (load_tombstone now sid) rs m !! (sid, tomb_key_hash r) = Some (entry_of r).
Proof.
  induction rs as [|r' rs IH] using rev_ind; intros Hc Hr; [by apply elem_of_nil in Hr|].
  rewrite fold_left_app. cbn. unfold load_tombstone at 1.
  assert (Hin : ∀ x, x ∈ unexpired now rs → x ∈ unexpired now (rs ++ [r'])).
  { intros x Hx. rewrite unexpired_app. apply elem_of_app. by left. }
  destruct (decide (fresh now r')) as [Hf|Hf]; unfold fresh in Hf.
  - rewrite Hf. assert (Hr' : r' ∈ unexpired now (rs ++ [r'])).
    { apply list_elem_of_filter. split; [done|]. apply elem_of_app. right. by apply list_elem_of_singleton. }
    destruct (decide (tomb_key_hash r' = tomb_key_hash r)) as [E|E].
    + rewrite E, lookup_insert_eq. f_equal. by apply Hc.
    + rewrite lookup_insert_ne by congruence. apply IH.
      * intros x y Hx Hy. by apply Hc; apply Hin.
      * rewrite unexpired_app in Hr. apply elem_of_app in Hr as [|Hr]; [done|].
        apply list_elem_of_filter in Hr as [_ Hr%list_elem_of_singleton]. by subst.
  - rewrite (not_true_is_false _ Hf). apply IH.
    + intros x y Hx Hy. by apply Hc; apply Hin.
    + rewrite unexpired_app in Hr. apply elem_of_app in Hr as [|Hr]; [done|].
      apply list_elem_of_filter in Hr as [Hf' Hr%list_elem_of_singleton]. subst. by destruct Hf.
Qed.
Lemma loads_lookup now (parsed : gmap text ParsedSegment) p r :
  parsed !! sid = Some p →
  consistent now ((tombstone_of <$> parsed_observations p) ++ parsed_tombstones p) →
  r ∈ unexpired now ((tombstone_of <$> parsed_observations p) ++ parsed_tombstones p) →
  map_fold (λ session p m, load_segment now session p m) ∅ parsed !! (sid, tomb_key_hash r)
  = Some (entry_of r).
Proof.
  intros Hp Hc Hr. revert Hp.
  apply (map_fold_weak_ind (λ (m : gmap (text * text) IdempotencyEntry) (parsed : gmap text ParsedSegment),
    parsed !! sid = Some p → m !! (sid, tomb_key_hash r) = Some (entry_of r))); clear parsed.
  { by rewrite lookup_empty. }
  intros session q parsed m Hn IH Hp. destruct (decide (session = sid)) as [->|Hne].
  - rewrite lookup_insert_eq in Hp. injection Hp as ->. by apply load_lookup.
  - rewrite load_other by done. apply IH. by rewrite lookup_insert_ne in Hp.
Qed.

Lemma segment_bytes_nil tombs os : segment_bytes tombs os = [] → tombs = [] ∧ os = [].
Proof.
  unfold segment_bytes. intros [Ht Ho]%app_nil.
  destruct tombs as [|t tombs]; [|unfold tombstone_line in Ht; cbn in Ht; by destruct (serialize_tombstone_line t)].
  destruct os as [|o os]; [done|]. unfold observation_line in Ho. cbn in Ho.
  by destruct (serialize_observation_line o).
Qed.

Lemma open_counts (r : Reading) now d : counter_readable r = true → counts d →
  degraded (open r now d).1 = false ∧ counts (open r now d).2.
Proof.
  intros Hr Hc. split; [|unfold open; by repeat case_match]. unfold open.
  destruct Hc as [Hc|(n & Hn & Hc)].
  - unfold read_counter. by rewrite Hr, Hc.
  - by destruct (counter_round_trip r d n Hr Hn Hc) as (chars & -> & ->).
Qed.
Lemma open_fields (r : Reading) now d :
  session_cache (open r now d).1 = cache_of <$> parsed_segments r d
  ∧ segments (open r now d).2 = shortened r d
  ∧ idempotency (open r now d).1
    = map_fold (λ session p m, load_segment now session p m) ∅ (parsed_segments r d).
Proof. unfold open. by repeat case_match. Qed.

(** The records of the file can be read back. *)
Lemma file_storable i tombs os :
  Forall numbered (recs i) → tombs ≡ₚ tombstones (cache_at i) →
  tombstone_of <$> os ≡ₚ tombstone_of <$> observations (cache_at i) → Forall confident os →
  Forall numbered tombs ∧ Forall storable os.
Proof.
  unfold recs, cache_records, records. intros Hn Ht Ho Hf. rewrite <- Ht, <- Ho, Forall_app, Forall_fmap in Hn.
  destruct Hn as [Hnt Hno]. split; [done|]. rewrite Forall_forall in Hno, Hf |- *.
  intros o Hin. split; [by apply Hf|by apply (Hno o)].
Qed.
Lemma open_good (r : Reading) now i d P :
  segment_readable r sid = true → counter_readable r = true → good now i d P →
  good now (open r now d).1 (open r now d).2 P.
Proof.
  intros Hr Hcr Hg. pose proof Hg as [].
  destruct (open_counts r now d Hcr good_counts0) as [Hdeg Hct].
  destruct (open_fields r now d) as (Hcache & Hsegs & Hids).
  destruct (open r now d) as [i' d']. cbn [fst snd] in *.
  destruct good_backed0 as (tombs & os & Hseg & Ht & Ho & Hfo & Hfc).
  destruct (segments d !! sid) as [bytes|] eqn:Eb.
  - assert (bytes = segment_bytes tombs os) as -> by (unfold segment in Hseg; by rewrite Eb in Hseg).
    destruct (file_storable i tombs os) as [Hnt Hst]; [done..|].
    pose proof (parse_written sid tombs os Hnt Hst) as Hp. set (os' := reread_record <$> os) in *.
    assert (Hparsed : parsed_segments r d !! sid = Some (mkParsed os' tombs [] None)).
    { unfold parsed_segments. by rewrite map_lookup_imap, Eb; cbn; rewrite Hr, Hp. }
    assert (Hc' : cache_at i' = cache_of (mkParsed os' tombs [] None)).
    { unfold cache_at. by rewrite Hcache, lookup_fmap, Hparsed. }
    assert (Hos' : tombstone_of <$> os' = tombstone_of <$> os) by apply reread_tombstones.
    assert (Hperm : recs i' ≡ₚ (tombstone_of <$> os') ++ tombs).
    { unfold recs, cache_records, records. rewrite Hc'. cbn.
      rewrite (sort_by_perm by_sequence tombs), (sort_by_perm obs_by_sequence os'). apply Permutation_app_comm. }
    assert (Hrecs : recs i' ≡ₚ recs i).
    { rewrite Hperm, Hos', Ho, Ht. apply Permutation_app_comm. }
    assert (Hent : ∀ x, x ∈ unexpired now ((tombstone_of <$> os') ++ tombs) →
      idempotency i !! (sid, tomb_key_hash x) = Some (entry_of x)).
    { intros x. rewrite <-Hperm, Hrecs. apply good_entries0. }
    split; try done.
    + exists tombs, os. rewrite Hc'. cbn.
      rewrite (sort_by_perm by_sequence tombs), (sort_by_perm obs_by_sequence os'), Hos'.
      split_and!; [|done..|by apply reread_confident]. unfold segment. rewrite Hsegs. unfold shortened.
      rewrite map_lookup_imap, Eb. cbn. rewrite Hp. by destruct (_ && _).
    + unfold dated. by rewrite Hrecs.
    + by rewrite Hrecs.
    + intros a. etrans; [apply count_submseteq|apply good_rated0]. by rewrite Hrecs.
    + intros x Hx. rewrite Hids. rewrite Hperm in Hx.
      eapply loads_lookup; [exact Hparsed| |exact Hx].
      intros y z Hy%Hent Hz%Hent E. rewrite E, Hz in Hy. congruence.
    + by rewrite Hrecs.
  - assert (Hseg' : segment_bytes tombs os = []) by (rewrite <-Hseg; unfold segment; by rewrite Eb).
    apply segment_bytes_nil in Hseg' as [-> ->].
    assert (Hempty : cache_at i' = empty_cache).
    { unfold cache_at. rewrite Hcache, lookup_fmap. unfold parsed_segments.
      by rewrite map_lookup_imap, Eb. }
    assert (Hrecs : recs i = []).
    { unfold recs, cache_records, records. apply Permutation_nil. by rewrite <-Ht, <-Ho. }
    assert (Hrecs' : recs i' = []) by (unfold recs; by rewrite Hempty).
    split; rewrite ?Hrecs', ?Hrecs in *; try done.
    + exists [], []. rewrite Hempty. split_and!; [|done|done|constructor..]. unfold segment. rewrite Hsegs.
      unfold shortened. by rewrite map_lookup_imap, Eb.
    + intros x Hx. by apply elem_of_nil in Hx.
Qed.

(** ** Runs *)

(** No append stops half-way, the session is not deleted, and a start can read its
    segment and the counter. *)
Definition healthy (call : Call) : Prop :=
  match call with
  | RecordObservation f _ _ _ _ _ _ => clean f
  | RecordBatch _ _ _ _ items => Forall (λ item, clean (item_faults item)) items
  | DeleteSession _ session | DeleteDurable _ session => session ≠ sid
  | Reopen r _ => segment_readable r sid = true ∧ counter_readable r = true
  | _ => True
  end.
(** When a call looks at the clock. *)
Definition call_times (call : Call) : list Z :=
  match call with
  | RecordObservation _ now _ _ _ _ _ | ApplyTrim _ now _ _ _ | Reopen _ now => [now]
  | RecordBatch _ _ _ _ items => item_now <$> items
  | _ => []
  end.
Definition last_time (t : Z) (times : list Z) : Z := foldl (λ _ now, now) t times.
Definition clock (t : Z) (times : list Z) : Prop := StronglySorted Z.le (t :: times).

Lemma clock_cons t now times : clock t (now :: times) → t <= now ∧ clock now times.
Proof. by intros [Hs [Hn _]%Forall_cons]%StronglySorted_inv. Qed.
Lemma clock_app t times times' :
  clock t (times ++ times') → clock t times ∧ clock (last_time t times) times'.
Proof.
  revert t. induction times as [|now times IH]; intros t Hc; cbn.
  { split; [by repeat constructor|done]. }
  apply clock_cons in Hc as [Ht [Hc1 Hc2]%IH]. split; [|done].
  pose proof Hc1 as [Hs Hf]%StronglySorted_inv. constructor; [done|]. constructor; [done|].
  eapply Forall_impl; [exact Hf|]. cbn. lia.
Qed.

(** The accepted reports of the session. *)
Definition mine (os : list WorkflowObservation) : list WorkflowObservation :=
  filter (λ o, session_id o = sid) os.
Definition same_times (new : list Tombstone) (os : list WorkflowObservation) : Prop :=
  accepted_at <$> new = observed_at <$> mine os.

Lemma accept_new_session f now uuid session c p i d i' d' o :
  accept_new f now uuid session c p i d = (i', d', Ok (Accepted o)) → session_id o = session.
Proof.
  unfold accept_new. destruct (is_some_and _ _); [done|].
  destruct (write_counter _ _ _) as [d1 ok1]. destruct (negb ok1); [done|].
  destruct (append_or_rewrite _ _ _ _ _ _) as [[i2 d2] ok2]. by destruct ok2; intros [= _ _ <-].
Qed.
Lemma record_session f now uuid session origin key c i d i' d' o :
  record_locked f now uuid session origin key c i d = (i', d', Ok (Accepted o)) →
  session_id o = session.
Proof.
  unfold record_locked. destruct (prepare _ _ _ _) as [p|e]; [|done]. destruct (degraded i); [done|].
  destruct (idempotency i !! _) as [entry|]; [|by apply accept_new_session].
  destruct (within_window _ _); [by destruct (eqb _ _)|by apply accept_new_session].
Qed.
Lemma mine_single o : mine [o] = if decide (session_id o = sid) then [o] else [].
Proof. unfold mine. by rewrite filter_cons, filter_nil. Qed.

Lemma record_step f now uuid session origin key c i d t P i' d' out :
  clean f → t <= now → good t i d P →
  record_locked f now uuid session origin key c i d = (i', d', out) →
  ∃ new, good now i' d' (P ++ new) ∧ same_times new (accepted_of out)
    ∧ (∀ o, session = sid → out = Ok (Accepted o) → ∃ n p, prepare sid origin key c = Ok p
        ∧ observation (new_observation sid uuid now n c p) = o
        ∧ new = [tombstone_of (new_observation sid uuid now n c p)]).
Proof.
  intros Hcl Ht Hg E. apply (good_later _ now) in Hg; [|done].
  destruct (decide (session = sid)) as [->|Hne].
  - destruct (record_good _ _ _ _ _ _ _ _ _ _ _ _ Hcl Hg E) as (new & Hn & Ho).
    exists new. split; [done|]. destruct out as [[o|]|]; [|by subst new; split|by subst new; split].
    destruct Ho as (n & p & Hp & <- & ->). split.
    + unfold same_times. cbn [accepted_of]. rewrite mine_single. by rewrite decide_True.
    + intros o _ [= <-]. eauto.
  - exists []. rewrite app_nil_r. split; [|split; [|done]].
    + eapply good_frame; [done|]. by eapply record_frame.
    + unfold same_times. destruct out as [[o|]|]; try done. cbn [accepted_of].
      rewrite mine_single. apply record_session in E. by rewrite decide_False by congruence.
Qed.

Lemma same_times_app new new' os os' :
  same_times new os → same_times new' os' → same_times (new ++ new') (os ++ os').
Proof.
  unfold same_times, mine. intros E E'. by rewrite filter_app, !fmap_app, E, E'.
Qed.

Lemma record_all_step session generation items i d t P i' d' outs :
  Forall (λ item, clean (item_faults item)) items → clock t (item_now <$> items) → good t i d P →
  record_all session generation items i d = (i', d', outs) →
  ∃ new, good (last_time t (item_now <$> items)) i' d' (P ++ new)
    ∧ same_times new (concat (accepted_of ∘ snd <$> outs)).
Proof.
  intros Hcl. revert i d t P outs. induction Hcl as [|item items Hi _ IH]; intros i d t P outs Hc Hg E; cbn in E.
  { injection E as <- <- <-. exists []. by rewrite app_nil_r. }
  destruct (record_locked _ _ _ _ _ _ _ _ _) as [[i1 d1] out] eqn:E1.
  destruct (record_all _ _ _ _ _) as [[i2 d2] outs'] eqn:E2. injection E as <- <- <-.
  cbn [fmap list_fmap] in Hc. apply clock_cons in Hc as [Ht Hc].
  apply (record_step _ _ _ _ _ _ _ _ _ t P) in E1 as (new & Hn & Hs & _); [|done..].
  destruct (IH _ _ _ _ _ Hc Hn E2) as (new' & Hn' & Hs').
  exists (new ++ new'). rewrite app_assoc. split; [done|]. cbn [fmap list_fmap concat]. by apply same_times_app.
Qed.

Lemma call_step t s P call :
  good t (inner s) (dir s) P → healthy call → clock t (call_times call) →
  ∃ new, good (last_time t (call_times call)) (inner (store_call s call).1)
           (dir (store_call s call).1) (P ++ new)
    ∧ same_times new (accepted_in (store_call s call).2).
Proof.
  intros Hg Hh Hc.
  assert (Hnone : good (last_time t (call_times call)) (inner (store_call s call).1)
      (dir (store_call s call).1) P → accepted_in (store_call s call).2 = [] →
    ∃ new, good (last_time t (call_times call)) (inner (store_call s call).1)
           (dir (store_call s call).1) (P ++ new)
      ∧ same_times new (accepted_in (store_call s call).2)).
  { intros ? E. exists []. rewrite E, app_nil_r. done. }
  assert (Hlast : good (last_time t (call_times call)) (inner s) (dir s) P).
  { eapply good_later; [|exact Hg]. clear -Hc. revert t Hc.
    induction (call_times call) as [|now times IH]; intros t Hc; cbn; [lia|].
    apply clock_cons in Hc as [? ?%IH]. unfold last_time in *. lia. }
  destruct call; cbn [store_call call_times healthy] in *.
  - destruct (record_locked _ _ _ _ _ _ _ _ _) as [[i d] out] eqn:E. cbn [fst snd inner dir accepted_in].
    apply clock_cons in Hc as [Ht _]. eapply record_step in E as (new & Hn & Hs & _); eauto.
  - unfold record_batch in *. destruct (5 <? length items)%nat; [by apply Hnone|].
    destruct (negb _); [by apply Hnone|].
    destruct (admit_claim now claim) as [claim' [u|e]]; [|by apply Hnone].
    destruct (record_all _ _ _ _ _) as [[i d] outs] eqn:E. cbn [fst snd inner dir accepted_in].
    by eapply record_all_step.
  - destruct (apply_trim_session _ _ _ _ _ _ _) as [[i d] out] eqn:E. apply Hnone; [|done].
    cbn. by eapply trim_good.
  - apply Hnone; [|by case_match]. eapply good_frame; [exact Hlast|].
    unfold delete_session_observations. destruct removes; cbn; [|apply permits_frame].
    eapply frame_trans; [apply permits_frame|].
    eapply frame_trans; [by apply forget_frame|by apply remove_frame].
  - apply Hnone; [|by case_match]. eapply good_frame; [exact Hlast|].
    unfold delete_session_observations_durable.
    destruct (negb (valid_identity _)); [apply frame_refl|].
    destruct (negb (anchored k)); [apply permits_frame|].
    destruct (opt_filter _ _) as [limit|]; [|apply permits_frame].
    destruct ((length _ <=? limit)%nat); cbn [andb].
    + destruct (negb (unlinks k)); [apply permits_frame|].
      destruct (_ && _); cbn; (eapply frame_trans; [apply permits_frame|]); [|by apply remove_frame].
      eapply frame_trans; [by apply forget_frame|by apply remove_frame].
    + destruct (_ && _); cbn; [|apply permits_frame].
      eapply frame_trans; [apply permits_frame|by apply forget_frame].
  - apply Hnone; [|by case_match]. eapply good_frame; [exact Hlast|]. unfold capture_writer.
    destruct (_ !! (session, created)); apply permits_frame.
  - by apply Hnone.
  - by apply Hnone.
  - apply Hnone; [|by case_match]. destruct Hh as [Hr1 Hr2].
    pose proof (open_good r now _ _ P Hr1 Hr2 Hlast) as Ho. by destruct (open r now (dir s)).
Qed.

Definition run_times (calls : list Call) : list Z := concat (call_times <$> calls).
Lemma run_steps calls t s P :
  good t (inner s) (dir s) P → Forall healthy calls → clock t (run_times calls) →
  ∃ new, good (last_time t (run_times calls)) (inner (run s calls).1) (dir (run s calls).1) (P ++ new)
    ∧ same_times new (accepted (run s calls).2).
Proof.
  intros Hg Hh. revert t s P Hg. induction Hh as [|call calls Hcall _ IH]; intros t s P Hg Hc.
  { exists []. by rewrite app_nil_r. }
  unfold run_times in *. cbn [fmap list_fmap concat] in Hc. apply clock_app in Hc as [Hc1 Hc2].
  destruct (call_step t s P call Hg Hcall Hc1) as (new & Hn & Hs).
  destruct (IH _ _ _ Hn Hc2) as (new' & Hn' & Hs').
  exists (new ++ new'). rewrite run_cons. cbn [fst snd fmap list_fmap concat].
  unfold last_time. rewrite foldl_app, app_assoc. split; [exact Hn'|].
  unfold accepted. cbn [fmap list_fmap concat]. by apply same_times_app.
Qed.

(** A store that starts with an empty directory. *)
Definition new_store : Store := mkStore (mkInner ∅ 0 false ∅ ∅ ∅) (mkDir ∅ None) ∅ 0.
Lemma new_store_opened (r : Reading) now : initial new_store.
Proof. exists r, now, (mkDir ∅ None). unfold open, read_counter. by destruct (counter_readable r). Qed.
Lemma new_store_good t : good t (inner new_store) (dir new_store) [].
Proof.
  assert (Hr : recs (inner new_store) = []) by reflexivity.
  split; rewrite ?Hr; try done; try by constructor.
  - exists [], []. by split_and!.
  - intros a. cbn. lia.
  - intros r Hin. by apply elem_of_nil in Hin.
  - intros a. cbn. lia.
Qed.

(** C16: A retry of an accepted report within fifteen minutes, same key and same content,
    is answered with the identity of the first, whatever was recorded, evicted, trimmed,
    deleted of other sessions or opened again in between. *)
Theorem retry_answered_alike calls1 calls2 f f' t now now' uuid uuid' origin key c o :
  Forall healthy calls1 → clean f → Forall healthy calls2 →
  clock t (run_times (calls1 ++ RecordObservation f now uuid sid origin key c :: calls2) ++ [now']) →
  (store_call (run new_store calls1).1 (RecordObservation f now uuid sid origin key c)).2
  = Recorded (Ok (Accepted o)) →
  now' - now <= seconds IDEMPOTENCY_WINDOW_SECS →
  (store_call (run new_store (calls1 ++ RecordObservation f now uuid sid origin key c :: calls2)).1
     (RecordObservation f' now' uuid' sid origin key c)).2
  = Recorded (Ok (Duplicate (id o) (sequence o) (observed_at o))).
Proof.
  intros H1 Hcl H2 Hc Ho Hw. set (first := RecordObservation f now uuid sid origin key c) in *.
  unfold run_times in Hc. rewrite fmap_app, concat_app in Hc. cbn [fmap list_fmap concat call_times] in Hc.
  rewrite <-app_assoc in Hc. apply clock_app in Hc as [Hc1 Hc].
  destruct (run_steps calls1 t new_store [] (new_store_good t) H1 Hc1) as (new1 & Hg1 & _).
  rewrite run_app_fst, run_cons. set (s1 := (run new_store calls1).1) in *. cbn [fst].
  cbn [app] in Hc. apply clock_cons in Hc as [Ht Hc]. apply clock_app in Hc as [Hc2 Hc3].
  change (step s1 first) with (store_call s1 first). unfold first in Ho |- *. cbn [store_call] in Ho |- *.
  destruct (record_locked f now uuid sid origin key c (inner s1) (dir s1)) as [[i d] out] eqn:E.
  cbn [snd fst] in Ho |- *. injection Ho as ->.
  destruct (record_step _ _ _ _ _ _ _ _ _ _ _ _ _ _ Hcl Ht Hg1 E) as (new & Hg2 & _ & Hnew).
  destruct (Hnew o eq_refl eq_refl) as (n & p & Hp & <- & ->).
  set (ts := tombstone_of (new_observation sid uuid now n c p)) in *.
  destruct (run_steps calls2 now (mkStore i d (cells s1) (next_cell s1)) _ Hg2 H2 Hc2) as (new2 & Hg3 & _).
  apply clock_cons in Hc3 as [Hle _]. apply (good_later _ now') in Hg3; [|done].
  set (s2 := (run _ calls2).1) in *. destruct Hg3 as [].
  assert (Hf : fresh now' ts) by (apply (fresh_when _ _ now); [apply time_round_trip|exact Hw]).
  assert (Hin : ts ∈ unexpired now' (recs (inner s2))).
  { apply list_elem_of_filter. split; [done|]. eapply elem_of_submseteq; [|exact good_kept0].
    apply list_elem_of_filter. split; [done|]. rewrite !elem_of_app, list_elem_of_singleton. auto. }
  pose proof (good_entries0 ts Hin) as He.
  unfold record_locked. rewrite Hp, good_clear0. unfold ts in He. cbn in He. rewrite He. cbn.
  unfold fresh, ts in Hf. cbn in Hf. rewrite Hf. by rewrite eqb_refl.
Qed.

(** A report that was accepted in an interval. *)
Definition accepted_between (a b : Z) (o : WorkflowObservation) : Prop :=
  ∃ τ, parse_from_rfc3339 (observed_at o) = Some τ ∧ a <= τ <= b.
#[export] Instance accepted_between_dec a b o : Decision (accepted_between a b o).
Proof.
  unfold accepted_between. destruct (parse_from_rfc3339 (observed_at o)) as [τ|].
  - destruct (decide (a <= τ <= b)); [left; eauto|right; naive_solver].
  - right; naive_solver.
Defined.

Lemma count_same_times a b new os :
  same_times new os → length (filter (accepted_between a b) (mine os)) = count a b new.
Proof.
  unfold same_times, count. generalize (mine os). clear os. intros os. revert new.
  induction os as [|o os IH]; intros [|r new] E; try done. cbn in E. injection E as Hr E.
  assert (Hiff : between_times a b r ↔ accepted_between a b o)
    by (unfold between_times, when, accepted_between; by rewrite Hr).
  rewrite !filter_cons. destruct (decide (between_times a b r)), (decide (accepted_between a b o));
    cbn [length]; rewrite ?(IH new E); tauto.
Qed.

(** C32: In every minute at most sixty reports of a session are accepted, across trims,
    evictions and restarts. *)
Theorem accepted_rate_bounded calls t a :
  Forall healthy calls → clock t (run_times calls) →
  (length (filter (accepted_between a (a + seconds RATE_LIMIT_WINDOW_SECS))
             (mine (accepted (run new_store calls).2))) <= MAX_ACCEPTED_PER_SESSION_MINUTE)%nat.
Proof.
  intros Hh Hc. destruct (run_steps calls t new_store [] (new_store_good t) Hh Hc) as (new & Hg & Hs).
  rewrite (count_same_times _ _ new) by done. destruct Hg as []. apply (good_rate0 a).
Qed.
End session.
