(* ===== verification/ObservationDeletion.v ===== *)
(** * Deletion and trimming of workflow observations

    What the operations of ObservationStore.v that take records away promise: a deletion
    revokes the writers that were captured for the session, although the removal of the
    file itself may fail; the anti-spam trim removes what its rule drops now and what
    its plan named, and nothing else. *)
From S2P Require Export ObservationStore.
#[local] Arguments decimal_u64 : simpl never.
#[local] Arguments wrapping_add : simpl never.

(** ** Permits *)

Section permits.
Context `{LogLibrary}.
Implicit Types (s : Store) (w : CapturedWriter) (cell : nat).

(** Cells are handed out once. *)
Definition cells_below s : Prop :=
  map_Forall (λ _ cell, (cell < next_cell s)%nat) (permits (inner s))
  ∧ map_Forall (λ cell _, (cell < next_cell s)%nat) (cells s).
(** Somebody holds the writer. *)
Definition held w s : Prop := alive (cells s) (writer_cell w) = true.
Definition granted (key : text * text) w s : Prop := permits (inner s) !! key = Some (writer_cell w).
Definition revoked w s : Prop :=
  (writer_cell w < next_cell s)%nat ∧ is_some_and (cells s !! writer_cell w) valid = false.

Lemma record_permits f now uuid session origin key c i d i' d' out :
  record_locked f now uuid session origin key c i d = (i', d', out) → permits i' = permits i.
Proof.
  assert (Hnew : ∀ p i0 d0, accept_new f now uuid session c p i0 d0 = (i', d', out) →
                            permits i' = permits i0).
  { unfold accept_new, write_counter. intros p i0 d0 E. destruct (is_some_and _ _); [by simplify_eq/=|].
    destruct (counter_written f); cbn in E; [|by simplify_eq/=].
    destruct (append_or_rewrite _ _ _ _ _ _) as [[i1 d1] ok] eqn:Ea.
    apply append_or_rewrite_keeps in Ea as (_ & _ & _ & _ & Hp). destruct ok; simplify_eq/=; done. }
  unfold record_locked. intros E.
  destruct (prepare _ _ _ _) as [p|e]; [|by simplify_eq/=].
  destruct (degraded i); [by simplify_eq/=|].
  destruct (idempotency i !! _) as [entry|]; [|by apply Hnew in E].
  destruct (within_window _ _); [|by apply Hnew in E]. by destruct (eqb _ _); simplify_eq/=.
Qed.
Lemma record_all_permits session generation items i d i' d' outs :
  record_all session generation items i d = (i', d', outs) → permits i' = permits i.
Proof.
  revert i d outs. induction items as [|item items IH]; intros i d outs E; cbn in E; [by simplify_eq/=|].
  destruct (record_locked _ _ _ _ _ _ _ _ _) as [[i1 d1] out] eqn:E1.
  destruct (record_all _ _ _ _ _) as [[i2 d2] outs'] eqn:E2. simplify_eq/=.
  rewrite (IH _ _ _ E2). by eapply record_permits.
Qed.
Lemma trim_permits replaced now session ids protected i d i' d' out :
  apply_trim_session replaced now session ids protected i d = (i', d', out) → permits i' = permits i.
Proof. unfold apply_trim_session. intros E. repeat (case_match; simplify_eq/=); done. Qed.

(** What a call does to the permits: nothing, a revocation, or an operation on writers. *)
Definition permit_effect s s' : Prop :=
  (permits (inner s') = permits (inner s) ∧ cells s' = cells s ∧ next_cell s' = next_cell s)
  ∨ (∃ session, permits (inner s') = permits (inner (revoke_session session s))
        ∧ cells s' = cells (revoke_session session s) ∧ next_cell s' = next_cell s)
  ∨ (∃ session created, s' = (capture_writer session created s).1)
  ∨ (∃ w, s' = clone_writer w s ∨ s' = drop_writer w s)
  ∨ (permits (inner s') = ∅ ∧ cells s' = ∅ ∧ next_cell s' = next_cell s).

Definition deletes (session : text) (call : Call) : Prop :=
  match call with
  | DeleteSession _ session' => session' = session
  | DeleteDurable _ session' => session' = session ∧ valid_identity session = true
  | _ => False
  end.
Lemma delete_effect session call s :
  deletes session call →
  permits (inner (store_call s call).1) = permits (inner (revoke_session session s))
  ∧ cells (store_call s call).1 = cells (revoke_session session s)
  ∧ next_cell (store_call s call).1 = next_cell s.
Proof.
  destruct call as [| | |removes session'|k session'| | | |]; cbn [deletes store_call]; try done.
  - intros ->. unfold delete_session_observations. by destruct removes.
  - intros [-> Hv]. unfold delete_session_observations_durable. rewrite Hv. cbn [negb].
    repeat case_match; simplify_eq/=; done.
Qed.

Lemma call_permits s call : permit_effect s (store_call s call).1.
Proof.
  destruct call as [f now uuid session origin key c|w now claim generation items|
    replaced now session ids protected|removes session|k session|session created|w|w|r now].
  - left. cbn [store_call]. destruct (record_locked _ _ _ _ _ _ _ _ _) as [[i d] out] eqn:E.
    apply record_permits in E. done.
  - left. cbn [store_call]. unfold record_batch. destruct (5 <? _)%nat; [done|].
    destruct (negb _); [done|]. destruct (admit_claim now claim) as [claim' [u|e]]; [|done].
    destruct (record_all _ _ _ _ _) as [[i d] outs] eqn:E. apply record_all_permits in E. done.
  - left. cbn [store_call]. destruct (apply_trim_session _ _ _ _ _ _ _) as [[i d] out] eqn:E.
    apply trim_permits in E. done.
  - right; left. exists session. by apply delete_effect.
  - destruct (valid_identity session) eqn:Hv.
    + right; left. exists session. by apply delete_effect.
    + left. cbn [store_call]. unfold delete_session_observations_durable. by rewrite Hv.
  - right; right; left. exists session, created. cbn [store_call].
    by destruct (capture_writer session created s).
  - do 3 right; left. exists w. auto.
  - do 3 right; left. exists w. auto.
  - do 4 right. cbn [store_call]. destruct (open r now (dir s)) as [i d] eqn:E. cbn.
    unfold open in E. by repeat case_match; simplify_eq/=.
Qed.

Lemma invalidated_lookup session ps cs cell :
  invalidated session ps cs !! cell
  = (λ p, if existsb (λ kc, (kc.1.1 == session) && (kc.2 =? cell)%nat && (0 <? strong p)%nat)
               (map_to_list ps) then mkPermit false (strong p) else p) <$> cs !! cell.
Proof. unfold invalidated. rewrite map_lookup_imap. by destruct (cs !! cell). Qed.
Lemma invalidated_strong session ps cs cell :
  strong <$> invalidated session ps cs !! cell = strong <$> cs !! cell.
Proof. rewrite invalidated_lookup. destruct (cs !! cell); cbn; [|done]. by case_match. Qed.
Lemma invalidated_stays session ps cs cell :
  is_some_and (cs !! cell) valid = false →
  is_some_and (invalidated session ps cs !! cell) valid = false.
Proof. rewrite invalidated_lookup. destruct (cs !! cell); cbn; [|done]. by case_match. Qed.
Lemma invalidated_granted session created ps cs cell :
  ps !! (session, created) = Some cell → alive cs cell = true →
  is_some_and (invalidated session ps cs !! cell) valid = false.
Proof.
  intros Hp Ha. rewrite invalidated_lookup. unfold alive in Ha.
  destruct (cs !! cell) as [p|]; [|done]. cbn in *.
  replace (existsb _ _) with true; [done|]. symmetry. apply existsb_exists.
  exists ((session, created), cell). cbn. rewrite eqb_refl, Nat.eqb_refl, Ha. split; [|done].
  apply list_elem_of_In. by apply elem_of_map_to_list.
Qed.

Lemma alter_stays (cs : gmap nat Permit) cell cell' (f : Permit → Permit) :
  (∀ p, valid (f p) = valid p) →
  is_some_and (alter f cell' cs !! cell) valid = is_some_and (cs !! cell) valid.
Proof.
  intros Hf. destruct (decide (cell' = cell)) as [->|]; [|by rewrite lookup_alter_ne].
  rewrite lookup_alter_eq. destruct (cs !! cell); cbn; [apply Hf|done].
Qed.
Lemma cells_below_alter s cell (f : Permit → Permit) :
  cells_below s → cells_below (set_cells (alter f cell (cells s)) s).
Proof.
  intros [Hp Hc]. split; [done|]. intros cell' p Hl. cbn in Hl |- *.
  destruct (decide (cell = cell')) as [<-|]; [|rewrite lookup_alter_ne in Hl by done; eauto].
  rewrite lookup_alter_eq in Hl. destruct (cells s !! cell) eqn:E; [|done]. eauto.
Qed.
Lemma cells_below_filter s (P : (text * text) * nat → Prop) `{∀ x, Decision (P x)} :
  cells_below s → cells_below (set_inner (set_permits (filter P (permits (inner s))) (inner s)) s).
Proof.
  intros [Hp Hc]. split; [|done]. intros key cell Hl. cbn in Hl.
  apply map_lookup_filter_Some in Hl as [Hl _]. by apply (Hp key).
Qed.

Lemma capture_below session created s :
  cells_below s → cells_below (capture_writer session created s).1.
Proof.
  intros Hb. unfold capture_writer.
  pose proof (cells_below_filter s (λ kc, alive (cells s) kc.2 = true) Hb) as Hf.
  destruct (_ !! (session, created)) as [cell|] eqn:E; cbn [fst].
  - by apply (cells_below_alter _ cell _ Hf).
  - destruct Hf as [Hp Hc]. split; cbn in *.
    + apply map_Forall_insert_2; [lia|]. eapply map_Forall_impl; [exact Hp|]. cbn. lia.
    + apply map_Forall_insert_2; [lia|]. eapply map_Forall_impl; [exact Hc|]. cbn. lia.
Qed.
Lemma call_below s call : cells_below s → cells_below (store_call s call).1.
Proof.
  intros Hb. pose proof Hb as [Hp Hc].
  destruct (call_permits s call) as [(E1 & E2 & E3)|[(session & E1 & E2 & E3)|[(session & created & ->)
    |[(w & [-> | ->])|(E1 & E2 & E3)]]]].
  - unfold cells_below. by rewrite E1, E2, E3.
  - unfold cells_below. rewrite E1, E2, E3. split.
    + by apply (cells_below_filter s _ Hb).
    + intros cell p Hl. cbn in Hl. apply (f_equal (fmap strong)) in Hl.
      rewrite invalidated_strong in Hl. destruct (cells s !! cell) eqn:E; [|done]. eauto.
  - by apply capture_below.
  - by apply cells_below_alter.
  - by apply cells_below_alter.
  - unfold cells_below. rewrite E1, E2. split; apply map_Forall_empty.
Qed.
Lemma reachable_below s : reachable s → cells_below s.
Proof.
  induction 1 as [s (r & now & d & ->)|s call _ IH]; [|by apply call_below].
  split; [|apply map_Forall_empty]. cbn. unfold open. repeat case_match; simplify_eq/=; apply map_Forall_empty.
Qed.

(** A revoked writer stays revoked. *)
Lemma call_revoked w s call : revoked w s → revoked w (store_call s call).1.
Proof.
  intros [Hn Hv]. unfold revoked.
  destruct (call_permits s call) as [(_ & -> & ->)|[(session & _ & -> & ->)|[(session & created & ->)
    |[(w' & [-> | ->])|(_ & -> & ->)]]]].
  - done.
  - split; [done|]. by apply invalidated_stays.
  - unfold capture_writer. destruct (_ !! (session, created)) as [cell|]; cbn.
    + by rewrite alter_stays.
    + rewrite lookup_insert_ne by lia. split; [lia|done].
  - cbn. by rewrite alter_stays.
  - cbn. by rewrite alter_stays.
  - done.
Qed.
Lemma run_revoked w calls s : revoked w s → revoked w (run s calls).1.
Proof.
  revert s. induction calls as [|call calls IH]; intros s Hr; [done|].
  rewrite run_cons. apply IH. by apply call_revoked.
Qed.

(** The writer of a session is known to the table as long as it is held. *)
Lemma call_granted session created w s call :
  cells_below s → granted (session, created) w s → held w s →
  let s' := (store_call s call).1 in
  granted (session, created) w s' ∨ revoked w s'.
Proof.
  intros [Hp _] Hg Hh. unfold granted, revoked in *. pose proof (Hp _ _ Hg) as Hlt. cbn in Hlt.
  destruct (call_permits s call) as [(-> & _ & _)|[(session' & -> & -> & ->)|[(session' & created' & ->)
    |[(w' & [-> | ->])|(-> & -> & ->)]]]]; [by left| |  |by left|by left|by right].
  - destruct (decide (session' = session)) as [->|Hne].
    + right. split; [done|]. by eapply invalidated_granted.
    + left. cbn. apply map_lookup_filter_Some. cbn. naive_solver.
  - left. assert (Hf : filter (λ kc, alive (cells s) kc.2 = true) (permits (inner s))
                       !! (session, created) = Some (writer_cell w)).
    { apply map_lookup_filter_Some. naive_solver. }
    unfold capture_writer. destruct (_ !! (session', created')) as [cell|] eqn:E; cbn [fst]; [done|].
    cbn. rewrite lookup_insert_ne; [done|]. congruence.
Qed.
Lemma run_granted session created w calls s :
  cells_below s → granted (session, created) w s →
  (∀ n, held w (run s (take n calls)).1) →
  granted (session, created) w (run s calls).1 ∨ revoked w (run s calls).1.
Proof.
  revert s. induction calls as [|call calls IH]; intros s Hb Hg Hh; [by left|].
  destruct (call_granted session created w s call Hb Hg (Hh 0%nat)) as [Hg'|Hr']; rewrite run_cons.
  - apply IH; [by apply call_below|done|]. intros n. specialize (Hh (S n)). cbn [take] in Hh.
    by rewrite run_cons in Hh.
  - right. by apply run_revoked.
Qed.

Lemma capture_grants session created s :
  granted (session, created) (capture_writer session created s).2 (capture_writer session created s).1.
Proof.
  unfold granted, capture_writer.
  destruct (filter _ _ !! (session, created)) as [cell|] eqn:E; [exact E|]. apply lookup_insert_eq.
Qed.

(** Once the deletion of a session was asked for, whether or not its file could be
    removed, a writer that was captured for the session before and is still held
    records nothing more: every batch of it is refused and changes nothing. *)
Theorem deletion_revokes_writers s session created calls1 deletion calls2 now claim generation items :
  reachable s →
  let w := (capture_writer session created s).2 in
  let s1 := (capture_writer session created s).1 in
  (∀ n, held w (run s1 (take n calls1)).1) →
  deletes session deletion →
  (length items <= 5)%nat →
  let s2 := (run s1 (calls1 ++ deletion :: calls2)).1 in
  store_call s2 (RecordBatch w now claim generation items) = (s2, Batch (Err Conflict)).
Proof.
  intros Hs w s1 Hh Hd Hi s2.
  assert (Hr : revoked w s2).
  { unfold s2. rewrite run_app_fst, run_cons. cbn [fst]. apply run_revoked.
    pose proof (capture_below session created s (reachable_below s Hs)) as Hb.
    destruct (run_granted session created w calls1 s1 Hb (capture_grants _ _ _) Hh) as [Hg|Hr];
      [|by apply call_revoked].
    specialize (Hh (length calls1)). rewrite firstn_all in Hh.
    assert (Hb' : cells_below (run s1 calls1).1).
    { apply reachable_below, run_reachable. pose proof (reachable_step s (Capture session created) Hs) as Hc.
      cbn in Hc. unfold s1. by destruct (capture_writer session created s). }
    change (step ?x deletion) with (store_call x deletion).
    destruct (delete_effect session deletion (run s1 calls1).1 Hd) as (_ & Hc & Hn).
    unfold revoked. rewrite Hc, Hn. split; [by apply Hb' in Hg|]. by eapply invalidated_granted. }
  cbn [store_call]. unfold record_batch. rewrite (proj2 (Nat.ltb_ge _ _)) by done.
  destruct Hr as [_ ->]. cbn. by destruct s2.
Qed.
End permits.

(** ** The trim of one session *)

Section trim.
Context `{LogLibrary}.
Implicit Types (o p : StoredObservation) (os : list StoredObservation) (drops : gset nat).

Definition gone_at drops os : list StoredObservation :=
  (filter (λ io, io.1 ∈ drops) (enumerate os)).*2.
Lemma kept_and_gone drops os : os ≡ₚ remaining drops os ++ gone_at drops os.
Proof.
  unfold remaining, gone_at. rewrite <-fmap_app. rewrite <-(enumerate_snd os) at 1. apply fmap_Permutation.
  induction (enumerate os) as [|io ios IH]; [done|]. rewrite !filter_cons.
  destruct (decide (io.1 ∈ drops)), (decide (io.1 ∉ drops)); try done.
  - by rewrite IH at 1; rewrite Permutation_middle.
  - by rewrite IH at 1.
Qed.
Lemma remaining_sublist drops os : remaining drops os `sublist_of` os.
Proof.
  unfold remaining. rewrite <-(enumerate_snd os) at 2. 
  induction (enumerate os) as [|io ios IH]; [constructor|]. rewrite filter_cons.
  case_decide; cbn; by constructor.
Qed.
Lemma elem_of_remaining drops os k p : os !! k = Some p → (k ∉ drops) → p ∈ remaining drops os.
Proof.
  intros Hk Hn. unfold remaining. apply list_elem_of_fmap. exists (k, p). split; [done|].
  apply list_elem_of_filter. split; [done|]. by apply elem_of_enumerate.
Qed.

(** [p] says what [o] says, and was observed at most the spam window before it. *)
Definition repeats o p : Prop :=
  source (observation p) = Peon ∧ source (observation o) = Peon
  ∧ fingerprint (observation p) = fingerprint (observation o)
  ∧ ∃ t u, time_of p = Some t ∧ time_of o = Some u ∧ 0 <= u - t <= seconds SPAM_WINDOW_SECS.
Definition spam_in (kept : list StoredObservation) (ids : list text) (protected : gset text) o : Prop :=
  one_of (id (observation o)) ids = true ∧ (id (observation o) ∉ protected)
  ∧ ∃ p, (p ∈ kept) ∧ repeats o p.

Lemma trimmed_are_spam ids protected os :
  Forall (spam_in (remaining (trim_drops ids protected os) os) ids protected)
    (gone_at (trim_drops ids protected os) os).
Proof.
  apply Forall_forall. intros o ([k o'] & -> & [Hk Ho]%list_elem_of_filter)%list_elem_of_fmap.
  cbn [fst snd] in *. apply elem_of_enumerate in Ho.
  unfold trim_drops in Hk. apply elem_of_filter in Hk as [Hin Hk]. rewrite Ho in Hin. cbn in Hin.
  destruct (drops_are_spam _ _ _ _ Hk) as (o & Ho' & Hs & Hp & _ & j & p & t & u & _ & Hj & Hsp & Hf & Hjd & Ht & Hu & Hg).
  rewrite Ho in Ho'. injection Ho' as <-. split; [done|]. split; [done|].
  exists p. split; [|by split_and!; eauto 6]. apply (elem_of_remaining _ _ j); [done|].
  unfold trim_drops. rewrite elem_of_filter. tauto.
Qed.

Lemma gone_nonempty drops os : drops ≠ ∅ → (∀ k, k ∈ drops → is_Some (os !! k)) → gone_at drops os ≠ [].
Proof.
  intros Hd Hin E. apply set_choose_L in Hd as [k Hk]. destruct (Hin k Hk) as [o Ho].
  assert (o ∈ gone_at drops os) as Hg; [|rewrite E in Hg; by apply elem_of_nil in Hg].
  apply list_elem_of_fmap. exists (k, o). split; [done|]. apply list_elem_of_filter.
  split; [done|]. by apply elem_of_enumerate.
Qed.
Lemma trim_drops_in ids protected os k : k ∈ trim_drops ids protected os → is_Some (os !! k).
Proof. intros [Hk _]%elem_of_filter. destruct (os !! k); [eauto|done]. Qed.

(** The trim of a session removes only what its plan named and its rule still
    drops: unprotected reports of the peon, each with an equal one at most half an hour
    older that stays.  The rest stays in order, in memory and in the file, other
    sessions and the answers to retries are not touched, and a failed rewrite removes
    nothing. *)
Theorem trim_removes_only_spam replaced now session ids protected i d i' d' out :
  apply_trim_session replaced now session ids protected i d = (i', d', out) →
  (i' = i ∧ d' = d ∧ (out = Some [] ∨ out = None ∧ replaced = false))
  ∨ ∃ cache kept gone tombs,
      session_cache i !! session = Some cache ∧ gone ≠ []
      ∧ observations cache ≡ₚ kept ++ gone ∧ kept `sublist_of` observations cache
      ∧ Forall (spam_in kept ids protected) gone
      ∧ i' = set_session_cache (<[session := mkCache kept tombs]> (session_cache i)) i
      ∧ d' = write_segment session (segment_bytes tombs kept) d
      ∧ out = Some ((λ o, id (observation o)) <$> gone).
Proof.
  unfold apply_trim_session. intros E.
  destruct (degraded i); [simplify_eq/=; left; by auto|].
  destruct (session_cache i !! session) as [cache|]; [|simplify_eq/=; left; by auto].
  set (drops := trim_drops ids protected (observations cache)) in *.
  case_bool_decide as Hd; [simplify_eq/=; left; by auto|].
  destruct replaced; injection E as <- <- <-; [right|left; by auto].
  exists cache, (remaining drops (observations cache)), (gone_at drops (observations cache)).
  eexists. split_and!; [done| |apply kept_and_gone|apply remaining_sublist|apply trimmed_are_spam
                       |reflexivity|reflexivity|].
  - apply gone_nonempty; [done|]. apply trim_drops_in.
  - unfold indices_ids, gone_at. by rewrite <-list_fmap_compose.
Qed.
End trim.
