(* ===== verification/ObservationSample.v ===== *)
(** * A library for the workflow-observation log

    A small instance of the arguments of ObservationLog.v that satisfies its laws, and
    the theorems of the store at concrete inputs.  The JSON of the instance writes a
    record as the bits of its fields between braces. *)
From stdpp Require Import countable.
From S2P Require Export ObservationRetry ObservationDeletion.

(** ** The fields of a record *)

Definition bool_field (b : bool) : Z := if b then 1 else 0.
Definition f64_code (x : f64) : list Z :=
  match x with
  | S754_zero s => [0; bool_field s]
  | S754_infinity s => [1; bool_field s]
  | S754_nan => [2]
  | S754_finite s m e => [3; bool_field s; Z.pos m; e]
  end.
Definition code_f64 (f : list Z) : f64 :=
  match f with
  | [0; s] => S754_zero (s =? 1)
  | [1; s] => S754_infinity (s =? 1)
  | [3; s; Z.pos m; e] => S754_finite (s =? 1) m e
  | _ => S754_nan
  end.
Definition field_code (f : Field) : list Z :=
  match f with
  | JNull => [0]
  | JInteger n => [1; n]
  | JFloat x => 2 :: f64_code x
  | JText t => 3 :: t
  | JUnit t => 4 :: t
  | JOther => [5]
  end.
Definition code_field (l : list Z) : Field :=
  match l with
  | [1; n] => JInteger n
  | 2 :: f => JFloat (code_f64 f)
  | 3 :: t => JText t
  | 4 :: t => JUnit t
  | [5] => JOther
  | _ => JNull
  end.
Lemma field_read_back f : code_field (field_code f) = f.
Proof. by destruct f as [| |[[]|[]| |[] ? ?]| | |]. Qed.
(** The members of an object, as lists of numbers. *)
Definition codes (m : Fields) : list (list Z * list Z) := map_to_list (field_code <$> m).
Definition of_codes (l : list (list Z * list Z)) : Fields := code_field <$> list_to_map l.
Lemma codes_read_back m : of_codes (codes m) = m.
Proof.
  unfold of_codes, codes. rewrite list_to_map_to_list, <- map_fmap_compose. rewrite <- (map_fmap_id m) at 2.
  apply map_fmap_ext. intros k x _. apply field_read_back.
Qed.

(** ** The text of a record *)

Fixpoint bits (p : positive) : list Z :=
  match p with xH => [] | xO p => 0x30 :: bits p | xI p => 0x31 :: bits p end.
Fixpoint of_bits (l : list Z) : option positive :=
  match l with
  | [] => Some xH
  | b :: l =>
      if b =? 0x30 then xO <$> of_bits l else if b =? 0x31 then xI <$> of_bits l else None
  end.
Lemma of_bits_bits p : of_bits (bits p) = Some p.
Proof. induction p as [p IH|p IH|]; cbn; by rewrite ?IH. Qed.
Lemma bits_small p : Forall (λ b, b = 0x30 ∨ b = 0x31) (bits p).
Proof. induction p; cbn; constructor; auto. Qed.

Definition record_text (fs : list (list Z * list Z)) : list Z := 0x7b :: bits (countable.encode fs) ++ [0x7d].
Definition text_record (l : list Z) : option (list (list Z * list Z)) :=
  match l with
  | 0x7b :: l =>
      k ← position (Z.eqb 0x7d) l;
      if (S k =? length l)%nat then p ← of_bits (take k l); countable.decode p else None
  | _ => None
  end.

Lemma brace_not_bit p : 0x7d ∉ bits p.
Proof. pose proof (bits_small p) as Hb. rewrite Forall_forall in Hb. by intros [|]%Hb. Qed.
Lemma position_brace l r : 0x7d ∉ l → position (Z.eqb 0x7d) (l ++ 0x7d :: r) = Some (length l).
Proof.
  induction l as [|b l IH]; intros Hn; cbn [app position length]; [done|].
  apply not_elem_of_cons in Hn as [Hb Hn]. rewrite (proj2 (Z.eqb_neq 0x7d b)) by done. by rewrite IH.
Qed.
Lemma text_read fs r : is_Some (text_record (record_text fs ++ r)) → r = [].
Proof.
  unfold record_text, text_record. rewrite <-app_comm_cons, <-app_assoc. cbn [app].
  rewrite position_brace by apply brace_not_bit. cbn [mbind option_bind].
  rewrite length_app. cbn [length]. rewrite <-plus_n_Sm.
  destruct r as [|b r]; [done|]. rewrite (proj2 (Nat.eqb_neq _ _)) by (cbn; lia). by intros [? [=]].
Qed.
Lemma text_read_back fs : text_record (record_text fs) = Some fs.
Proof.
  unfold record_text, text_record. rewrite position_brace by apply brace_not_bit. cbn [mbind option_bind].
  rewrite length_app. cbn [length]. rewrite <-plus_n_Sm, <-plus_n_O, Nat.eqb_refl, take_app_length, of_bits_bits. cbn.
  apply decode_encode.
Qed.
Lemma text_cut_short fs n :
  (n < length (record_text fs))%nat → text_record (take n (record_text fs)) = None.
Proof.
  unfold record_text. set (b := bits _). cbn [length]. rewrite length_app. cbn [length]. intros Hn.
  destruct n as [|n]; [done|]. cbn [take]. rewrite take_app_le by lia. cbn.
  destruct (position (Z.eqb 0x7d) (take n b)) as [k|] eqn:E; [|done].
  apply position_Some in E as (x & Hx & Hk & _). apply Z.eqb_eq in Hk. subst x.
  exfalso. eapply brace_not_bit, subseteq_take, list_elem_of_lookup_2, Hx.
Qed.

(** ** The instance *)

#[export] Instance sample : LogLibrary := {|
  nfkc t := t;
  to_lowercase c := [c];
  sha256_hex bytes := bytes;
  to_rfc3339 t := [t];
  parse_from_rfc3339 iso := match iso with [t] => Some t | _ => None end;
  from_slice bytes := match text_record bytes with
                      | Some l => Ok (Members (of_codes l))
                      | None => Err (bytes_of "syntax error")
                      end;
  json_to_string m := record_text (codes m);
  from_value_error _ := bytes_of "missing field";
  reread x := x;
|}.
#[export] Instance sample_laws : LogLaws.
Proof.
  split.
  - done.
  - intros m _. cbn [from_slice json_to_string sample]. rewrite text_read_back, codes_read_back. do 2 f_equal.
    rewrite <- (map_fmap_id m) at 1. apply map_fmap_ext. by intros k [] _.
  - done.
  - intros m. cbn. unfold record_text. rewrite not_elem_of_cons, not_elem_of_app, list_elem_of_singleton.
    split_and!; [done| |done]. pose proof (bits_small (countable.encode (codes m))) as Hb.
    rewrite Forall_forall in Hb. by intros [|]%Hb.
  - intros m. by eexists _, _.
  - intros m n Hn. cbn [from_slice json_to_string sample] in *. by rewrite text_cut_short.
  - intros m b r _. cbn [from_slice json_to_string sample].
    pose proof (text_read (codes m) (b :: r)) as Hr.
    destruct (text_record _); [|done]. by discriminate Hr; eauto.
Qed.

(** ** The theorems at concrete inputs *)

Definition demo_candidate : ObservationCandidate :=
  mkCandidate Obstacle (bytes_of "the build fails") (bytes_of "exit code 1") (Some (bytes_of "Build")) Medium
    (Some f_one).
Definition demo_reading : Reading := mkReading (λ _, true) true (λ _, true).
Definition demo_session : text := bytes_of "s1".
Definition demo_report (now : Z) (key : text) : Call :=
  RecordObservation no_faults (seconds now) (bytes_of "uuid") demo_session PeonOrigin key demo_candidate.
Definition demo_between : list Call :=
  [demo_report 10 (bytes_of "k2"); demo_report 20 (bytes_of "k3");
   ApplyTrim true (seconds 30) demo_session [bytes_of "uuid"] ∅; Reopen demo_reading (seconds 40)].
Definition reply_accepted (r : Reply) : WorkflowObservation :=
  match r with
  | Recorded (Ok (Accepted o)) => o
  | _ => observation (new_observation [] [] 0 0 demo_candidate (mkPrepared Peon f_one None [] [] []))
  end.
Definition demo_first : WorkflowObservation :=
  reply_accepted (store_call new_store (demo_report 0 (bytes_of "k1"))).2.

Lemma retry_answered_alike_witness :
  (store_call (run new_store (demo_report 0 (bytes_of "k1") :: demo_between)).1
     (demo_report 60 (bytes_of "k1"))).2
  = Recorded (Ok (Duplicate (bytes_of "uuid") 1 [0])).
Proof.
  apply (retry_answered_alike demo_session [] demo_between no_faults no_faults 0 0 (seconds 60)
           (bytes_of "uuid") (bytes_of "uuid") PeonOrigin (bytes_of "k1") demo_candidate demo_first).
  - constructor.
  - by left.
  - repeat constructor.
  - vm_compute. repeat constructor; discriminate.
  - vm_compute. reflexivity.
  - vm_compute. discriminate.
Defined.

Lemma accepted_rate_bounded_witness :
  (length (filter (accepted_between 0 (0 + seconds RATE_LIMIT_WINDOW_SECS))
             (mine demo_session (accepted (run new_store demo_between).2)))
   <= MAX_ACCEPTED_PER_SESSION_MINUTE)%nat.
Proof.
  apply (accepted_rate_bounded demo_session demo_between 0).
  - repeat constructor.
  - vm_compute. repeat constructor; discriminate.
Defined.

(** The counter cannot be read at a start of before. *)
Definition demo_lost : list Call :=
  [demo_report 0 (bytes_of "k0"); Reopen (mkReading (λ _, true) false (λ _, true)) (seconds 5)].
Lemma sequences_increase_witness :
  StronglySorted Z.lt (sequence <$> accepted (run (run new_store demo_lost).1 demo_between).2).
Proof.
  apply sequences_increase.
  - apply (new_store_opened demo_reading 0).
  - repeat constructor.
  - intros n. do 7 (destruct n as [|n]; [vm_compute; discriminate|]). vm_compute. discriminate.
Defined.

(** The writer of a session that is then deleted, although its file could not be. *)
Definition demo_written : Store := (run new_store [demo_report 0 (bytes_of "k1")]).1.
Lemma deletion_revokes_writers_witness :
  let w := (capture_writer demo_session (bytes_of "c") demo_written).2 in
  let s := (run (capture_writer demo_session (bytes_of "c") demo_written).1
              ([CloneWriter w] ++ [DeleteSession false demo_session; demo_report 10 (bytes_of "k2")])).1 in
  store_call s (RecordBatch w 0 (mkClaim Pending 10) 1
                  [mkItem 0 (bytes_of "u") no_faults 0 demo_candidate])
  = (s, Batch (Err Conflict)).
Proof.
  apply (deletion_revokes_writers demo_written demo_session (bytes_of "c")).
  - apply run_reachable, reachable_initial, (new_store_opened demo_reading 0).
  - intros n. do 2 (destruct n as [|n]; [vm_compute; reflexivity|]). vm_compute. reflexivity.
  - reflexivity.
  - cbn. lia.
Defined.

(** The first and the last of three equal reports stay. *)
Definition demo_reported : Store :=
  (run new_store [demo_report 0 (bytes_of "k1"); demo_report 10 (bytes_of "k2"); demo_report 20 (bytes_of "k3")]).1.
Definition demo_trimmed : StoreInner * Dir * option (list text) :=
  apply_trim_session true (seconds 30) demo_session [bytes_of "uuid"] ∅ (inner demo_reported) (dir demo_reported).
Lemma trim_removes_only_spam_witness :
  ∃ cache kept gone tombs,
    session_cache (inner demo_reported) !! demo_session = Some cache ∧ gone ≠ []
    ∧ observations cache ≡ₚ kept ++ gone ∧ kept `sublist_of` observations cache
    ∧ Forall (spam_in kept [bytes_of "uuid"] ∅) gone
    ∧ demo_trimmed.1.1 = set_session_cache (<[demo_session := mkCache kept tombs]>
        (session_cache (inner demo_reported))) (inner demo_reported)
    ∧ demo_trimmed.1.2 = write_segment demo_session (segment_bytes tombs kept) (dir demo_reported)
    ∧ demo_trimmed.2 = Some ((λ o, id (observation o)) <$> gone).
Proof.
  destruct (trim_removes_only_spam true (seconds 30) demo_session [bytes_of "uuid"] ∅
              (inner demo_reported) (dir demo_reported) demo_trimmed.1.1 demo_trimmed.1.2 demo_trimmed.2)
    as [(_ & _ & E)|H].
  - unfold demo_trimmed. by destruct (apply_trim_session _ _ _ _ _ _ _) as [[? ?] ?].
  - exfalso. vm_compute in E. by destruct E as [E|[E _]].
  - exact H.
Defined.

(** A segment with a tombstone and a report, and what is appended to it. *)
Definition demo_stored : StoredObservation := mkStored demo_first (bytes_of "k1") (bytes_of "payload").
Lemma demo_storable : Forall storable [demo_stored].
Proof. repeat constructor; vm_compute; done. Qed.
Lemma demo_numbered : Forall numbered [tombstone_of demo_stored].
Proof. repeat constructor; vm_compute; done. Qed.
Lemma segment_round_trip_witness :
  tolerant_parse demo_session (segment_bytes [tombstone_of demo_stored] [demo_stored])
  = mkParsed (reread_record <$> [demo_stored]) [tombstone_of demo_stored] [] None
  ∧ ∀ origin c src x, validate_candidate origin c = Ok (src, x) → is_finite x = true.
Proof. apply segment_round_trip; [apply demo_numbered|apply demo_storable]. Defined.
Lemma torn_append_recovered_witness :
  ∃ ds,
    tolerant_parse demo_session
      (segment_bytes [] [demo_stored] ++ take 5 (serialize_observation_line demo_stored))
    = mkParsed (reread_record <$> [demo_stored]) [] ds (Some (length (segment_bytes [] [demo_stored]))) ∧ length ds = 1%nat.
Proof.
  apply (torn_append_recovered demo_session [] [demo_stored] demo_stored 5); [constructor|apply demo_storable|].
  vm_compute. lia.
Defined.
Lemma joined_records_lost_witness :
  ∃ e,
    tolerant_parse demo_session (segment_bytes [] [] ++ serialize_observation_line demo_stored
                                 ++ observation_line demo_stored)
    = mkParsed [] [] [crash_tail demo_session e] (Some (length (segment_bytes [] []))).
Proof. apply (joined_records_lost demo_session [] [] demo_stored demo_stored); constructor. Defined.
