(* ===== verification/SessionArchive.v ===== *)
(** * The organization of sessions: closed and archived

    [session_archive.rs]: one small record per session under [session-state/], which
    says whether an ended session is closed or archived.  Its revision makes stale
    actions recognisable, its creation time keeps a record from attaching to a reused
    id, and a record that cannot be read protects the session like an archived one.

    The files are a map from file names to their bytes.  What the file system answers is
    an argument of each call.  serde_json's form of a record and the digest of an action
    token are arguments ([ArchiveLibrary]). *)
From S2P Require Export SessionMeta MetadataMutations.

Definition MAX_RECORD_BYTES : nat := Z.to_nat 4096.
#[global] Arguments MAX_RECORD_BYTES : simpl never.
#[global] Opaque MAX_RECORD_BYTES.

Inductive SessionState : Type := Active | Closed | Archived.
#[export] Instance session_state_eq_dec : EqDecision SessionState.
Proof. solve_decision. Defined.

Record OrganizationProjection : Type := mkProjection {
  session_state : option SessionState;
  session_action_token : option text;
  session_state_error : option string;
}.

Record OrgRecord : Type := mkOrg {
  version : Z;
  org_session : text;
  org_created_at : string;
  org_state : SessionState;
  revision : Z;
  changed_at : string;
}.

Class ArchiveLibrary : Type := {
  record_from_slice : list Z → option OrgRecord;
  record_to_vec : OrgRecord → list Z;
  (** [hex::encode] of the SHA-256 of the JSON of the tuple *)
  token_digest : text * text * string * Z * SessionState * text → text;
}.

(** What the file system answers: to a read, and to each part of a publication. *)
Record Publishing : Type := mkPublishing {
  root_created : bool;
  parent_synced : bool;
  staged_written : bool;
  renamed : bool;
  root_synced : bool;
}.

Section archive.
Context `{ArchiveLibrary}.
Implicit Types (files : gmap text (list Z)) (id : text).

Definition valid_id (id : text) : bool :=
  negb (bool_decide (id = [])) && (length (encode id) <=? 256)%nat
  && forallb (λ c, is_ascii_alphanumeric c || (c =? 0x2d) || (c =? 0x5f)) (encode id).
Definition suffix : list Z := bytes_of ".json".
(** [path]: the file name below the root. *)
Definition path (id : text) : result IoError text :=
  if valid_id id then Ok (id ++ suffix) else Err (Io InvalidInput "Invalid session identity").

(** The bounded read of both readers. *)
Definition read_record_file (bytes : list Z) : result IoError OrgRecord :=
  let bytes := take (S MAX_RECORD_BYTES) bytes in
  if (MAX_RECORD_BYTES <? length bytes)%nat
  then Err (Io InvalidData "Session state exceeds limit")
  else ok_or (Io InvalidData "malformed record") (record_from_slice bytes).

Definition read (readable : text → bool) (files : gmap text (list Z)) (id : text)
    (created_at : string) : result IoError (option OrgRecord) :=
  name ← path id;
  match files !! name with
  | None => Ok None
  | Some bytes =>
      if negb (readable name) then Err (Io OtherError "read failed")
      else
        r ← read_record_file bytes;
        if negb (version r =? 1) || (org_session r != id) || (revision r =? 0)
           || (org_state r == Active)
        then Err (Io InvalidData "Invalid session state record")
        else Ok (if org_created_at r == created_at then Some r else None)
  end.

Definition revision_of (r : option OrgRecord) : Z := match r with Some r => revision r | None => 0 end.
Definition state (readable : text → bool) files id (created_at : string)
    (closed runtime_active : bool) : result IoError (SessionState * Z) :=
  record ← read readable files id created_at;
  let stored := org_state <$> record in
  let s :=
    if bool_decide (stored = Some Archived) && negb runtime_active then Archived
    else if runtime_active || negb closed then Active
    else default Closed stored in
  Ok (s, revision_of record).

(** [publish_record]: the file may be in place although its directory could not be
    synced, and then the call fails. *)
Definition publish_record (p : Publishing) (name : text) (bytes : list Z) files
    : gmap text (list Z) * bool :=
  if root_created p && parent_synced p && staged_written p && renamed p
  then (<[name := bytes]> files, root_synced p)
  else (files, false).
Definition write (readable : text → bool) (p : Publishing) (now : string) id (created_at : string)
    (s : SessionState) files : gmap text (list Z) * result IoError unit :=
  if s == Active then (files, Err (Io InvalidInput "Active is runtime-derived"))
  else
    match read readable files id created_at with
    | Err e => (files, Err e)
    | Ok r =>
        match checked_add u64_max (revision_of r) 1 with
        | None => (files, Err (Io OtherError "Session state revision exhausted"))
        | Some rev =>
            let bytes := record_to_vec (mkOrg 1 id created_at s rev now) in
            if (MAX_RECORD_BYTES <? length bytes)%nat
            then (files, Err (Io OtherError "Session identity exceeds limit"))
            else
              match path id with
              | Err e => (files, Err e)
              | Ok name =>
                  let '(files, ok) := publish_record p name bytes files in
                  (files, if ok then Ok tt else Err (Io OtherError "publication failed"))
              end
        end
    end.

Definition remove (removable : bool) id files : gmap text (list Z) * result IoError unit :=
  match path id with
  | Err e => (files, Err e)
  | Ok name =>
      match files !! name with
      | None => (files, Ok tt)
      | Some _ => if removable then (delete name files, Ok tt)
                  else (files, Err (Io OtherError "remove failed"))
      end
  end.

Definition project (readable : text → bool) files (instance id : text) (created_at : string)
    (closed runtime_active : bool) (runtime_key : text) : OrganizationProjection :=
  match state readable files id created_at closed runtime_active with
  | Ok (s, rev) =>
      mkProjection (Some s) (Some (token_digest (instance, id, created_at, rev, s, runtime_key))) None
  | Err _ => mkProjection None None
               (Some "Session state unavailable; refresh after resolving the storage error")
  end.

(** An entry of the directory: [None] when it cannot be read, else whether it is a file,
    and its name. *)
Definition strip_suffix (p s : list Z) : option (list Z) := (@rev Z) <$> strip_prefix (rev p) (rev s).
Fixpoint protected_entries (readable : text → bool) (files : gmap text (list Z))
    (entries : list (option (bool * text))) : bool :=
  match entries with
  | [] => false
  | None :: _ => true
  | Some (is_file, name) :: rest =>
      if negb is_file then protected_entries readable files rest
      else
        match strip_suffix suffix name with
        | None => true
        | Some id =>
            if negb (valid_id id) then true
            else
              match (if readable name then read_record_file (default [] (files !! name))
                     else Err (Io OtherError "read failed")) with
              | Err _ => true
              | Ok r =>
                  if negb (version r =? 1) || (org_session r != id) || (revision r =? 0)
                     || (org_state r != Closed)
                  then true
                  else protected_entries readable files rest
              end
        end
  end.
(** [entries] is [None] when the directory cannot be listed. *)
Definition dir_has_retention_protected_records (readable : text → bool) files
    (entries : option (list (option (bool * text)))) (root_is_dir : bool) : bool :=
  match entries with
  | None => root_is_dir
  | Some entries => protected_entries readable files entries
  end.
End archive.

(** ** Lemmas *)

(** What the store writes can be read back; a revision is a [u64]. *)
Class ArchiveLaws `{ArchiveLibrary} : Prop := {
  record_round_trip r : is_u64 (revision r) → version r = 1 → record_from_slice (record_to_vec r) = Some r;
  record_in_width bytes r : record_from_slice bytes = Some r → is_u64 (revision r);
}.

Section lemmas.
Context `{ArchiveLibrary}.
Implicit Types (files : gmap text (list Z)) (id : text) (readable : text → bool).

Lemma path_Ok id name : path id = Ok name ↔ valid_id id = true ∧ name = id ++ suffix.
Proof. unfold path. destruct (valid_id id); naive_solver. Qed.
Lemma path_inj id id' name : path id = Ok name → path id' = Ok name → id = id'.
Proof. rewrite !path_Ok. intros [_ ->] [_ E]. by apply (inj (.++ suffix)) in E. Qed.

(** A record that a read accepts. *)
Definition wf_record id (r : OrgRecord) : Prop :=
  version r = 1 ∧ org_session r = id ∧ revision r ≠ 0 ∧ org_state r ≠ Active.
Lemma record_check id r :
  negb (version r =? 1) || (org_session r != id) || (revision r =? 0) || (org_state r == Active) = false
  ↔ wf_record id r.
Proof.
  unfold wf_record. rewrite !orb_false_iff, negb_false_iff, Z.eqb_eq, Z.eqb_neq.
  destruct (org_state r == Active) eqn:E1, (org_session r != id) eqn:E2; to_prop; intuition congruence.
Qed.
Lemma read_Some readable files id created r :
  read readable files id created = Ok (Some r) ↔
  ∃ name bytes, path id = Ok name ∧ files !! name = Some bytes ∧ readable name = true
    ∧ read_record_file bytes = Ok r ∧ wf_record id r ∧ org_created_at r = created.
Proof.
  unfold read. split.
  - destruct (path id) as [name|e]; [|done]. cbn. destruct (files !! name) as [bytes|] eqn:Ef; [|done].
    destruct (readable name) eqn:Er; [|done]. cbn. destruct (read_record_file bytes) as [r'|e] eqn:Eb; [|done].
    cbn. destruct (_ || _) eqn:Ec; [done|]. apply record_check in Ec.
    destruct (_ == _) eqn:Et; [|done]. to_prop. intros [= <-]. eauto 10.
  - intros (name & bytes & -> & Hf & Hr & Hb & Hw & Hc). cbn. rewrite Hf, Hr. cbn. rewrite Hb. cbn.
    apply record_check in Hw. rewrite Hw, Hc. by rewrite eqb_refl.
Qed.

(** Only the file of the session matters. *)
Definition same_file id files files' : Prop := ∀ name, path id = Ok name → files' !! name = files !! name.
Lemma read_same readable files files' id created :
  same_file id files files' → read readable files' id created = read readable files id created.
Proof. unfold read. intros Hs. destruct (path id) as [name|] eqn:E; [|done]. cbn. by rewrite (Hs name E). Qed.
Lemma state_same readable files files' id created closed active :
  same_file id files files' →
  state readable files' id created closed active = state readable files id created closed active.
Proof. intros Hs. unfold state. by rewrite (read_same _ _ _ _ _ Hs). Qed.
Lemma same_file_refl id files : same_file id files files.
Proof. by intros name. Qed.
Lemma same_file_trans id files1 files2 files3 :
  same_file id files1 files2 → same_file id files2 files3 → same_file id files1 files3.
Proof. intros H1 H2 name Hn. by rewrite (H2 _ Hn), (H1 _ Hn). Qed.

Lemma remove_effect removable id files files' out :
  remove removable id files = (files', out) →
  (∀ id', id' ≠ id → same_file id' files files')
  ∧ match out with
    | Ok _ => ∃ name, path id = Ok name ∧ files' !! name = None
    | Err _ => files' = files
    end.
Proof.
  unfold remove. destruct (path id) as [name|e] eqn:En; [|intros [= <- <-]; split; [by intros|done]].
  destruct (files !! name) as [bytes|] eqn:Ef; [|intros [= <- <-]; split; [by intros|eauto]].
  destruct removable; intros [= <- <-]; (split; [|try done]); intros.
  - intros name' Hn'. rewrite lookup_delete_ne; [done|]. intros <-. by eapply path_inj in Hn'.
  - exists name. by rewrite lookup_delete_eq.
  - done.
Qed.

(** A write puts exactly one new record in place, or none; other sessions keep theirs. *)
Lemma org_write_effect readable p now id created s files files' out :
  write readable p now id created s files = (files', out) →
  (∀ id', id' ≠ id → same_file id' files files')
  ∧ ((files' = files ∧ out ≠ Ok tt)
     ∨ ∃ name r, path id = Ok name ∧ read readable files id created = Ok r
         ∧ s ≠ Active ∧ revision_of r + 1 <= u64_max
         ∧ (length (record_to_vec (mkOrg 1 id created s (revision_of r + 1) now)) <= MAX_RECORD_BYTES)%nat
         ∧ files' = <[name := record_to_vec (mkOrg 1 id created s (revision_of r + 1) now)]> files
         ∧ (out = Ok tt ↔ root_synced p = true)).
Proof.
  unfold write. intros E.
  assert (Hsame : ∀ e, (files', out) = (files, Err e) → (∀ id', id' ≠ id → same_file id' files files')
            ∧ files' = files ∧ out ≠ Ok tt) by (intros e [= -> ->]; done).
  destruct (s == Active) eqn:Ea; [symmetry in E; apply Hsame in E; tauto|]. to_prop.
  destruct (read readable files id created) as [r|e] eqn:Er; [|symmetry in E; apply Hsame in E; tauto].
  unfold checked_add in E.
  destruct (revision_of r + 1 <=? u64_max) eqn:Eu; [|symmetry in E; apply Hsame in E; tauto].
  destruct (MAX_RECORD_BYTES <? _)%nat eqn:El; [symmetry in E; apply Hsame in E; tauto|].
  destruct (path id) as [name|e] eqn:En; [|symmetry in E; apply Hsame in E; tauto].
  unfold publish_record in E. destruct (_ && _) eqn:Ep; [|symmetry in E; apply Hsame in E; tauto].
  injection E as <- <-. apply Z.leb_le in Eu. apply Nat.ltb_ge in El. split.
  - intros id' Hne name' Hn'. rewrite lookup_insert_ne; [done|]. intros <-. by eapply path_inj in Hn'.
  - right. exists name, r. split_and!; try done. by destruct (root_synced p).
Qed.
End lemmas.

Section laws.
Context `{ArchiveLaws}.
Implicit Types (files : gmap text (list Z)) (id : text) (readable : text → bool).

Lemma read_revision readable files id created r :
  read readable files id created = Ok r → 0 <= revision_of r.
Proof.
  destruct r as [r|]; [|cbn; lia]. intros (_ & bytes & _ & _ & _ & Hr & _)%read_Some.
  unfold read_record_file in Hr. destruct (_ <? _)%nat; [done|].
  destruct (record_from_slice _) as [r'|] eqn:E; [|done]. injection Hr as <-.
  apply record_in_width in E. cbn. unfold is_u64, in_width in E. lia.
Qed.
(** The bytes of a write are its record. *)
Lemma written_record id created s rev now :
  is_u64 rev → (length (record_to_vec (mkOrg 1 id created s rev now)) <= MAX_RECORD_BYTES)%nat →
  read_record_file (record_to_vec (mkOrg 1 id created s rev now)) = Ok (mkOrg 1 id created s rev now).
Proof.
  intros Hr Hl. unfold read_record_file. rewrite take_ge by lia.
  rewrite (proj2 (Nat.ltb_ge _ _)) by lia. by rewrite record_round_trip.
Qed.
End laws.

(** ** The check at startup *)

Section startup.
Context `{ArchiveLibrary}.
Implicit Types (files : gmap text (list Z)) (id : text) (readable : text → bool).

(** What an entry must be not to protect anything. *)
Definition closed_entry readable files (e : option (bool * text)) : Prop :=
  match e with
  | None => False
  | Some (false, _) => True
  | Some (true, name) =>
      ∃ id r, path id = Ok name ∧ read readable files id (org_created_at r) = Ok (Some r)
        ∧ org_state r = Closed
  end.
Lemma strip_suffix_Some p s t : strip_suffix p s = Some t ↔ s = t ++ p.
Proof.
  unfold strip_suffix. rewrite fmap_Some. setoid_rewrite strip_prefix_Some. split.
  - intros (x & Hx & ->). apply (f_equal (@rev Z)) in Hx. rewrite rev_app_distr, !rev_involutive in Hx. done.
  - intros ->. exists (rev t). rewrite rev_app_distr, rev_involutive. done.
Qed.

Lemma entry_check readable files name id :
  is_Some (files !! name) → strip_suffix suffix name = Some id → valid_id id = true →
  match (if readable name then read_record_file (default [] (files !! name))
         else Err (Io OtherError "read failed")) with
  | Err _ => true
  | Ok r => negb (version r =? 1) || (org_session r != id) || (revision r =? 0) || (org_state r != Closed)
  end = false
  ↔ closed_entry readable files (Some (true, name)).
Proof.
  intros [bytes Hb] Hn Hv. apply strip_suffix_Some in Hn.
  assert (Hp : path id = Ok name) by (by apply path_Ok). rewrite Hb. cbn [default from_option Datatypes.id closed_entry].
  split.
  - destruct (readable name) eqn:Hr; [|done]. destruct (read_record_file bytes) as [r|e] eqn:Er; [|done].
    intros Hc. assert (Hs : org_state r = Closed).
    { apply orb_false_iff in Hc as [_ Hc]. destruct (org_state r != Closed) eqn:E; [done|]. by to_prop. }
    rewrite Hs in Hc. exists id, r. split; [done|]. split; [|done]. apply read_Some.
    exists name, bytes. split_and!; try done. apply record_check. by rewrite Hs.
  - intros (id' & r & Hp' & Hr & Hs). apply read_Some in Hr as (name' & bytes' & Hn' & Hb' & Hr & Her & Hw & _).
    assert (id' = id) as -> by (by apply (path_inj _ _ name)). rewrite Hp in Hn'. injection Hn' as <-.
    rewrite Hb in Hb'. injection Hb' as <-. rewrite Hr. cbn. rewrite Her. apply record_check in Hw.
    rewrite Hs in Hw |- *. exact Hw.
Qed.

(** The check at startup finds nothing to protect exactly when every file of the
    directory is a record that the store reads as closed. *)
Theorem startup_check_exact readable files entries :
  (∀ name, Some (true, name) ∈ entries → is_Some (files !! name)) →
  dir_has_retention_protected_records readable files (Some entries) true = false
  ↔ Forall (closed_entry readable files) entries.
Proof.
  cbn. induction entries as [|e entries IH]; intros Hin; [split; [constructor|done]|].
  rewrite Forall_cons. specialize (IH ltac:(intros name Hn; apply Hin; by right)).
  destruct e as [[[] name]|]; cbn [protected_entries negb]; [|rewrite IH; split; [by split|by intros [_ ?]]|split; [done|by intros [[] _]]].
  rewrite <-IH. specialize (Hin name ltac:(by left)).
  destruct (strip_suffix suffix name) as [id|] eqn:Es.
  2:{ split; [done|]. intros [(id & r & Hp & _) _]. apply path_Ok in Hp as [_ Hp].
      apply strip_suffix_Some in Hp. congruence. }
  destruct (valid_id id) eqn:Ev; cbn [negb].
  2:{ split; [done|]. intros [(id' & r & Hp & _) _]. apply path_Ok in Hp as [Hv Hp].
      apply strip_suffix_Some in Hp. congruence. }
  rewrite <-(entry_check readable files name id Hin Es Ev).
  destruct (if readable name then _ else _) as [r|e]; [|naive_solver].
  destruct (_ || _); naive_solver.
Qed.
End startup.
