(* ===== verification/Retention.v ===== *)
(** * Deletion and retention of sessions

    [delete_session_evidence] and the cleanup pass of [runtime/retention.rs]: what is
    known of a session is spread over files that cannot be removed at once, so they go
    in an order that leaves the session retryable, and the periodic cleanup by age and
    number removes only sessions that are over and closed.

    [Files] is what a workspace keeps on disk of its sessions: the records of the
    metadata store as its reader sees them, those it has put aside as corrupt, the
    organization records (SessionArchive.v), the observation store
    (ObservationStore.v), event and terminal files, image bundles and the
    recommendations, whose store is an argument.  What the file system answers to one
    deletion is a record [EvidenceDisk]. *)
From S2P Require ObservationStore.
From S2P Require Export SessionArchive.

(** ** Data *)

Record Files {Recs : Type} : Type := mkFiles {
  org_files : gmap text (list Z);
  meta_files : gmap text (option SessionMetadata);
  quarantined : gset text;
  observations : ObservationStore.Store;
  event_files : gset text;
  terminal_files : gset text;
  size_files : gset text;
  last_active : option text;
  images : gset text;
  recommendations : Recs;
}.
#[global] Arguments Files : clear implicits.

Record Handle : Type := mkHandle {
  runtime_instance_id : text;
  run_generation : Z;
  info_phase : string;
  info_lifecycle : string;
  resume_in_progress : bool;
  terminal_attached : bool;
  resize_closed : bool;
  control_closed : bool;
  evaluation_closed : bool;
  kill_sent : bool;
}.
Definition commands_closed (h : Handle) : bool := resize_closed h || control_closed h.
Definition runtime_closed (handle : option Handle) (has_pid : bool) : bool :=
  negb has_pid
  && match handle with
     | None => true
     | Some h => (info_phase h == "ended") && (info_lifecycle h == "dead")
                 && negb (resume_in_progress h) && negb (terminal_attached h) && commands_closed h
     end.

(** The state of the application: the files of the workspace, the organization store
    that is open on them, whose reservations outlive it, and the live sessions. *)
Record App {Recs : Type} : Type := mkApp {
  files : Files Recs;
  organization : option nat;
  instance_id : text;
  pending : gset (nat * text);
  next_organization : nat;
  sessions : gmap text Handle;
  session_pids : gset text;
}.
#[global] Arguments App : clear implicits.

Record EvidenceDisk {Recs : Type} : Type := mkEvidence {
  lease_granted : bool;
  observations_removed : bool;
  events_removed : bool;
  terminal_removed : bool;
  size_removed : bool;
  memory_opened : bool;
  memory_written : bool;
  images_removed : bool;
  json_removed : bool;
  corrupt_removed : bool;
  org_removed : bool;
  (** [delete_referencing_session], at the first attempt and at the second *)
  delete_recommendations : bool → text → Recs → Recs * result text unit;
}.
#[global] Arguments EvidenceDisk : clear implicits.

(** What reads answer: whether a session record or an organization record can be read,
    and whether a corrupt session record can be put aside. *)
Record ReadDisk : Type := mkRead {
  meta_readable : text → bool;
  org_readable : text → bool;
  renames_corrupt : text → bool;
}.

Record RetentionConfig : Type := mkConfig { max_sessions : nat; max_age_days : Z }.

Section files.
Context {Recs : Type}.
Definition set_org_files v (w : Files Recs) := mkFiles Recs v (meta_files w) (quarantined w)
  (observations w) (event_files w) (terminal_files w) (size_files w) (last_active w) (images w)
  (recommendations w).
Definition set_meta_files v (w : Files Recs) := mkFiles Recs (org_files w) v (quarantined w)
  (observations w) (event_files w) (terminal_files w) (size_files w) (last_active w) (images w)
  (recommendations w).
Definition set_quarantined v (w : Files Recs) := mkFiles Recs (org_files w) (meta_files w) v
  (observations w) (event_files w) (terminal_files w) (size_files w) (last_active w) (images w)
  (recommendations w).
Definition set_observations v (w : Files Recs) := mkFiles Recs (org_files w) (meta_files w)
  (quarantined w) v (event_files w) (terminal_files w) (size_files w) (last_active w) (images w)
  (recommendations w).
Definition set_event_files v (w : Files Recs) := mkFiles Recs (org_files w) (meta_files w)
  (quarantined w) (observations w) v (terminal_files w) (size_files w) (last_active w) (images w)
  (recommendations w).
Definition set_terminal_files v (w : Files Recs) := mkFiles Recs (org_files w) (meta_files w)
  (quarantined w) (observations w) (event_files w) v (size_files w) (last_active w) (images w)
  (recommendations w).
Definition set_size_files v (w : Files Recs) := mkFiles Recs (org_files w) (meta_files w)
  (quarantined w) (observations w) (event_files w) (terminal_files w) v (last_active w) (images w)
  (recommendations w).
Definition set_last_active v (w : Files Recs) := mkFiles Recs (org_files w) (meta_files w)
  (quarantined w) (observations w) (event_files w) (terminal_files w) (size_files w) v (images w)
  (recommendations w).
Definition set_images v (w : Files Recs) := mkFiles Recs (org_files w) (meta_files w)
  (quarantined w) (observations w) (event_files w) (terminal_files w) (size_files w) (last_active w) v
  (recommendations w).
Definition set_recommendations v (w : Files Recs) := mkFiles Recs (org_files w) (meta_files w)
  (quarantined w) (observations w) (event_files w) (terminal_files w) (size_files w) (last_active w)
  (images w) v.
Definition set_files v (a : App Recs) := mkApp Recs v (organization a) (instance_id a) (pending a)
  (next_organization a) (sessions a) (session_pids a).
Definition set_pending v (a : App Recs) := mkApp Recs (files a) (organization a) (instance_id a) v
  (next_organization a) (sessions a) (session_pids a).
Definition set_sessions v (a : App Recs) := mkApp Recs (files a) (organization a) (instance_id a)
  (pending a) (next_organization a) v (session_pids a).
Definition set_session_pids v (a : App Recs) := mkApp Recs (files a) (organization a) (instance_id a)
  (pending a) (next_organization a) (sessions a) v.
End files.

(** ** Deletion of the evidence of a session *)

Section evidence.
Context {Recs : Type} `{ArchiveLibrary} (is_uuid : text → bool).
Implicit Types (w : Files Recs) (k : EvidenceDisk Recs) (id : text).

(** [fs::remove_file], where a missing file is as good as a removed one. *)
Definition remove_file (ok : bool) (id : text) (present : gset text) : gset text * bool :=
  if bool_decide (id ∈ present) then if ok then (present ∖ {[id]}, true) else (present, false)
  else (present, true).
(** The steps of a deletion: the next one runs if this one did not fail. *)
Definition Step : Type := Files Recs → Files Recs * result text unit.
Definition andthen (p q : Step) : Step := λ w,
  match p w with (w, Ok _) => q w | (w, Err e) => (w, Err e) end.
Definition answer (ok : bool) : result text unit := if ok then Ok tt else Err (bytes_of "removal failed").

Definition delete_observations k id : Step := λ w,
  let '(s, ok) := ObservationStore.delete_session_observations (observations_removed k) id
                    (observations w) in
  (set_observations s w, answer ok).
(** [delete_events]. *)
Definition delete_events k id : Step :=
  andthen (λ w, let '(v, ok) := remove_file (events_removed k) id (event_files w) in
                (set_event_files v w, answer ok))
    (andthen (λ w, let '(v, ok) := remove_file (terminal_removed k) id (terminal_files w) in
                   (set_terminal_files v w, answer ok))
       (λ w, let '(v, ok) := remove_file (size_removed k) id (size_files w) in
             (set_size_files v w, answer ok))).
Definition clear_last_active_session_if_matches k id : Step := λ w,
  if negb (memory_opened k) then (w, answer false)
  else if last_active w == Some id
  then if memory_written k then (set_last_active None w, Ok tt) else (w, answer false)
  else (w, Ok tt).
Definition prepare_cleanup k id w : result text bool :=
  if negb (is_uuid id) then Ok false
  else if lease_granted k then Ok (bool_decide (id ∈ images w))
  else Err (bytes_of "image cleanup is busy").
Definition remove_images k id (leased : bool) : Step := λ w,
  if leased
  then if images_removed k then (set_images (images w ∖ {[id]}) w, Ok tt) else (w, answer false)
  else (w, Ok tt).
(** [delete_session] of the metadata store: the record, then a corrupt one. *)
Definition delete_session k id : Step :=
  andthen (λ w, match meta_files w !! id with
                | None => (w, Ok tt)
                | Some _ => if json_removed k
                            then (set_meta_files (delete id (meta_files w)) w, Ok tt)
                            else (w, answer false)
                end)
    (λ w, let '(v, ok) := remove_file (corrupt_removed k) id (quarantined w) in
          (set_quarantined v w, answer ok)).
Definition remove_organization k id : Step := λ w,
  let '(fs, out) := remove (org_removed k) id (org_files w) in
  (set_org_files fs w, match out with Ok _ => Ok tt | Err _ => answer false end).
Definition cleanup_recommendations k id : Step := λ w,
  let '(rs, out) := delete_recommendations k false id (recommendations w) in
  match out with
  | Ok _ => (set_recommendations rs w, Ok tt)
  | Err _ =>
      let '(rs, out) := delete_recommendations k true id rs in
      (set_recommendations rs w, out)
  end.

Definition delete_session_evidence k id : Step := λ w,
  match prepare_cleanup k id w with
  | Err e => (w, Err e)
  | Ok leased =>
      andthen (delete_observations k id)
        (andthen (delete_events k id)
           (andthen (clear_last_active_session_if_matches k id)
              (andthen (remove_images k id leased)
                 (andthen (delete_session k id)
                    (andthen (remove_organization k id) (cleanup_recommendations k id)))))) w
  end.

Definition session_file_exists id w : bool :=
  is_some (meta_files w !! id) || bool_decide (id ∈ quarantined w).
End evidence.

(** ** The cleanup pass *)

Section selection.
Context (parse_from_rfc3339 : string → option Z).
Implicit Types (candidates : list SessionMetadata) (protected : gset text).

(** [a.last_activity.cmp(&b.last_activity)], the byte order of strings. *)
Definition by_activity (a b : SessionMetadata) : bool :=
  key_leb (bytes_of (last_activity a)) (bytes_of (last_activity b)).
Definition select_expired_candidates candidates (cutoff : Z) protected : list text :=
  omap (λ m, match parse_from_rfc3339 (last_activity m) with
             | Some t => if t <? cutoff then Some (id m) else None
             | None => None
             end)
    (filter (λ m, id m ∉ protected) (sort_by by_activity candidates)).
Definition select_count_candidates candidates (max : nat) protected : list text :=
  if (max =? 0)%nat || (length candidates <=? max)%nat then []
  else
    id <$> take (length candidates - max)
             (filter (λ m, id m ∉ protected) (sort_by by_activity candidates)).
End selection.

Section cleanup.
Context {Recs : Type} `{ArchiveLibrary} (is_uuid : text → bool)
  (parse_from_rfc3339 : string → option Z).
Implicit Types (a : App Recs) (w : Files Recs) (rd : ReadDisk) (session : text).

(** [try_read_revisioned_session]. *)
Definition try_read_session rd session w : result IoError (option SessionMetadata) :=
  match meta_files w !! session with
  | None => Ok None
  | Some r =>
      if negb (meta_readable rd session) then Err (Io OtherError "read failed")
      else
        m ← ok_or (Io InvalidData "malformed record") r;
        if id m != session then Err (Io InvalidData "session identity mismatch") else Ok (Some m)
  end.
(** [read_all_sessions]: what cannot be parsed is put aside. *)
Definition malformed rd (x : text * option SessionMetadata) : Prop :=
  meta_readable rd x.1 = true ∧ x.2 = None ∧ renames_corrupt rd x.1 = true.
#[export] Instance malformed_dec rd x : base.Decision (malformed rd x).
Proof. unfold malformed. apply _. Defined.
Definition by_created (a b : SessionMetadata) : bool :=
  key_leb (bytes_of (created_at (facts a))) (bytes_of (created_at (facts b))).
Definition read_all_sessions rd w : Files Recs * list SessionMetadata :=
  (set_quarantined (quarantined w ∪ dom (filter (malformed rd) (meta_files w)))
     (set_meta_files (filter (λ x, ¬ malformed rd x) (meta_files w)) w),
   sort_by by_created (omap (λ x, if meta_readable rd x.1 then x.2 else None)
                         (map_to_list (meta_files w)))).

Definition is_closed rd (m : SessionMetadata) w : bool :=
  match state (org_readable rd) (org_files w) (id m) (created_at (facts m)) true false with
  | Ok (Closed, _) => true
  | _ => false
  end.
(** The record says that the session is over. *)
Definition ended (m : SessionMetadata) : bool :=
  (lifecycle_phase (lc m) == "ended") && (lifecycle (lc m) == "dead").
Definition closed_now session a : bool :=
  runtime_closed (sessions a !! session) (bool_decide (session ∈ session_pids a)).

Definition retention_protected rd (org : nat) session (expected_created_at : string) a : bool :=
  if bool_decide ((org, session) ∈ pending a) || negb (closed_now session a) then true
  else
    match try_read_session rd session (files a) with
    | Ok (Some m) =>
        (created_at (facts m) != expected_created_at)
        || (lifecycle_phase (lc m) != "ended") || (lifecycle (lc m) != "dead")
        || negb (match state (org_readable rd) (org_files (files a)) session (created_at (facts m))
                         true false with
                 | Ok (Closed, _) => true
                 | _ => false
                 end)
    | _ => true
    end.

(** The loop of both phases. *)
Fixpoint delete_selected rd (k : text → EvidenceDisk Recs) (org : nat)
    (identities : gmap text string) (selected : list text) a : App Recs * list text :=
  match selected with
  | [] => (a, [])
  | session :: selected =>
      if retention_protected rd org session (default ""%string (identities !! session)) a
      then delete_selected rd k org identities selected a
      else
        let '(w, out) := delete_session_evidence is_uuid (k session) session (files a) in
        let a := set_files w a in
        if is_ok out || negb (session_file_exists session w)
        then
          let '(a, deleted) :=
            delete_selected rd k org identities selected
              (set_sessions (delete session (sessions a)) a) in
          (a, session :: deleted)
        else delete_selected rd k org identities selected a
  end.

(** The nanoseconds of a day; chrono's subtraction panics below its first instant. *)
Definition day : Z := 86400 * 1000000000.
Definition cutoff (datetime_min now days : Z) : option Z :=
  if datetime_min <=? now - days * day then Some (now - days * day) else None.

Inductive Cleanup : Type := Cleaned (deleted : list text) | Panicked.

Definition identities_of (candidates : list SessionMetadata) : gmap text string :=
  fold_left (λ m c, <[id c := created_at (facts c)]> m) candidates ∅.
Definition age_phase rd (k : text → EvidenceDisk Recs) (org : nat) (datetime_min now : Z) (config : RetentionConfig)
    (candidates : list SessionMetadata) a : App Recs * option (list text) :=
  if 0 <? max_age_days config
  then
    match cutoff datetime_min now (max_age_days config) with
    | None => (a, None)
    | Some c =>
        let '(a, deleted) :=
          delete_selected rd k org (identities_of candidates)
            (select_expired_candidates parse_from_rfc3339 candidates c ∅) a in
        (a, Some deleted)
    end
  else (a, Some []).
Definition count_phase rd (k : text → EvidenceDisk Recs) (org : nat) (config : RetentionConfig) (identities : gmap text string)
    (candidates : list SessionMetadata) a : App Recs * list text :=
  if (0 <? max_sessions config)%nat && (max_sessions config <? length candidates)%nat
  then
    let protected := filter (λ m, retention_protected rd org (id m) (created_at (facts m)) a = true)
                       candidates in
    delete_selected rd k org identities
      (select_count_candidates candidates (max_sessions config) (list_to_set (id <$> protected))) a
  else (a, []).

(** [k] answers the deletions of the first phase, [k'] those of the second. *)
Definition retention_cleanup_once rd (k k' : text → EvidenceDisk Recs) (datetime_min now : Z) (config : RetentionConfig) a
    : App Recs * Cleanup :=
  if (max_sessions config =? 0)%nat && (max_age_days config =? 0) then (a, Cleaned [])
  else
    match organization a with
    | None => (a, Cleaned [])
    | Some org =>
        let '(w, all) := read_all_sessions rd (files a) in
        let a := set_files w a in
        let candidates := sort_by by_activity (filter (λ m, is_closed rd m w = true) all) in
        if bool_decide (candidates = []) then (a, Cleaned [])
        else
          match age_phase rd k org datetime_min now config candidates a with
          | (a, None) => (a, Panicked)
          | (a, Some deleted) =>
              let left := filter (λ m, id m ∉ deleted) candidates in
              let '(a, deleted') :=
                count_phase rd k' org config (identities_of candidates) left a in
              (a, Cleaned (deleted ++ deleted'))
          end
    end.
End cleanup.

(** ** The order of a deletion *)

Section order.
Context {Recs : Type} `{ArchiveLibrary} (is_uuid : text → bool).
Implicit Types (w : Files Recs) (k : EvidenceDisk Recs) (id : text) (p q : @Step Recs).

(** Everything kept of another session is as it was. *)
Record same_evidence id w w' : Prop := {
  same_meta : meta_files w' !! id = meta_files w !! id;
  same_quarantined : id ∈ quarantined w' ↔ id ∈ quarantined w;
  same_org : same_file id (org_files w) (org_files w');
  same_segment : ObservationStore.segments (ObservationStore.dir (observations w')) !! id
                 = ObservationStore.segments (ObservationStore.dir (observations w)) !! id;
  same_events : id ∈ event_files w' ↔ id ∈ event_files w;
  same_terminal : id ∈ terminal_files w' ↔ id ∈ terminal_files w;
  same_size : id ∈ size_files w' ↔ id ∈ size_files w;
  same_last : last_active w = Some id → last_active w' = Some id;
  same_images : id ∈ images w' ↔ id ∈ images w;
}.
#[export] Instance same_evidence_refl id : Reflexive (same_evidence id).
Proof. intros w. split; try done. Qed.
#[export] Instance same_evidence_trans id : Transitive (same_evidence id).
Proof.
  intros w1 w2 w3 [A1 A2 A3 A4 A5 A6 A7 A8 A9] [B1 B2 B3 B4 B5 B6 B7 B8 B9].
  split; try (by etrans); [by eapply same_file_trans|by auto].
Qed.

(** A step that touches nothing of a session. *)
Definition spares id p : Prop := ∀ w w' out, p w = (w', out) → same_evidence id w w'.
Lemma andthen_spares id p q : spares id p → spares id q → spares id (andthen p q).
Proof.
  intros Hp Hq w w' out. unfold andthen. destruct (p w) as [w1 [u|e]] eqn:E.
  - intros Eq. etrans; [by eapply Hp|by eapply Hq].
  - intros [= <- <-]. by eapply Hp.
Qed.
Lemma remove_file_spares id id' ok present :
  id' ≠ id → id ∈ (remove_file ok id' present).1 ↔ id ∈ present.
Proof. unfold remove_file. intros. repeat case_match; cbn; set_solver. Qed.

Lemma observations_spares id id' k : id' ≠ id → spares id (delete_observations k id').
Proof.
  intros Hne w w' out. unfold delete_observations, ObservationStore.delete_session_observations.
  destruct (observations_removed k); intros [= <- <-]; split; cbn; try done.
  by rewrite lookup_delete_ne.
Qed.
Lemma events_spares id id' k : id' ≠ id → spares id (delete_events k id').
Proof.
  intros Hne. repeat apply andthen_spares; intros w w' out E;
    (destruct (remove_file _ _ _) as [v ok] eqn:Er; injection E as <- <-; split; try done; cbn;
     pose proof (remove_file_spares id id') as Hr).
  - specialize (Hr (events_removed k) (event_files w) Hne). by rewrite Er in Hr.
  - specialize (Hr (terminal_removed k) (terminal_files w) Hne). by rewrite Er in Hr.
  - specialize (Hr (size_removed k) (size_files w) Hne). by rewrite Er in Hr.
Qed.
Lemma last_active_spares id id' k :
  id' ≠ id → spares id (clear_last_active_session_if_matches k id').
Proof.
  intros Hne w w' out. unfold clear_last_active_session_if_matches.
  destruct (memory_opened k); [|by intros [= <- <-]]. cbn.
  destruct (last_active w == Some id') eqn:E; [|by intros [= <- <-]].
  destruct (memory_written k); intros [= <- <-]; [|done]. to_prop. split; try done. cbn. congruence.
Qed.
Lemma images_spares id id' k leased : id' ≠ id → spares id (remove_images k id' leased).
Proof.
  intros Hne w w' out. unfold remove_images. destruct leased; [|by intros [= <- <-]].
  destruct (images_removed k); intros [= <- <-]; [|done]. split; try done. cbn. set_solver.
Qed.
Lemma metadata_spares id id' k : id' ≠ id → spares id (delete_session k id').
Proof.
  intros Hne. apply andthen_spares; intros w w' out E.
  - destruct (meta_files w !! id'); [|by injection E as <- <-].
    destruct (json_removed k); injection E as <- <-; [|done]. split; try done. cbn. by rewrite lookup_delete_ne.
  - destruct (remove_file _ _ _) as [v ok] eqn:Er. injection E as <- <-. split; try done. cbn.
    pose proof (remove_file_spares id id' (corrupt_removed k) (quarantined w) Hne) as Hr. by rewrite Er in Hr.
Qed.
Lemma organization_spares id id' k : id' ≠ id → spares id (remove_organization k id').
Proof.
  intros Hne w w' out. unfold remove_organization.
  destruct (remove _ _ _) as [fs r] eqn:Er. intros [= <- <-]. apply remove_effect in Er as [Hs _].
  split; try done. cbn. by apply Hs.
Qed.
Lemma recommendations_spare id id' k : spares id (cleanup_recommendations k id').
Proof.
  intros w w' out. unfold cleanup_recommendations.
  destruct (delete_recommendations k false _ _) as [rs [u|e]]; [by intros [= <- <-]; split|].
  destruct (delete_recommendations k true _ _) as [rs' r]. by intros [= <- <-]; split.
Qed.
Lemma evidence_spares id id' k : id' ≠ id → spares id (delete_session_evidence is_uuid k id').
Proof.
  intros Hne w w' out. unfold delete_session_evidence.
  destruct (prepare_cleanup _ _ _ _) as [leased|e]; [|by intros [= <- <-]].
  revert w w' out. apply andthen_spares; [by apply observations_spares|].
  apply andthen_spares; [by apply events_spares|]. apply andthen_spares; [by apply last_active_spares|].
  apply andthen_spares; [by apply images_spares|]. apply andthen_spares; [by apply metadata_spares|].
  apply andthen_spares; [by apply organization_spares|]. apply recommendations_spare.
Qed.

(** The files of a session that only its own record gives access to. *)
Record private_gone id w : Prop := {
  gone_segment : ObservationStore.segments (ObservationStore.dir (observations w)) !! id = None;
  gone_events : id ∉ event_files w;
  gone_terminal : id ∉ terminal_files w;
  gone_size : id ∉ size_files w;
  gone_last : last_active w ≠ Some id;
  gone_images : is_uuid id = true → id ∉ images w;
}.
(** What the deletion leaves for the end. *)
Definition kept_last w w' : Prop :=
  meta_files w' = meta_files w ∧ quarantined w' = quarantined w ∧ org_files w' = org_files w
  ∧ recommendations w' = recommendations w.

Lemma andthen_Ok p q w w' u :
  andthen p q w = (w', Ok u) → ∃ w1 u1, p w = (w1, Ok u1) ∧ q w1 = (w', Ok u).
Proof. unfold andthen. destruct (p w) as [w1 [u1|e]]; [eauto|done]. Qed.
Lemma andthen_assoc p q (r : @Step Recs) w : andthen p (andthen q r) w = andthen (andthen p q) r w.
Proof. unfold andthen. destruct (p w) as [w1 [u1|e]]; [by destruct (q w1) as [w2 [?|?]]|done]. Qed.
Lemma remove_file_Ok ok id present v : remove_file ok id present = (v, true) → id ∉ v.
Proof. unfold remove_file. intros E. repeat case_match; simplify_eq/=; case_bool_decide; set_solver. Qed.

(** A step that leaves the given fields alone. *)
Definition frames {A} (f : Files Recs → A) p : Prop := ∀ w w' out, p w = (w', out) → f w' = f w.
Lemma andthen_frames {A} (f : Files Recs → A) p q : frames f p → frames f q → frames f (andthen p q).
Proof.
  intros Hp Hq w w' out. unfold andthen. destruct (p w) as [w1 [u|e]] eqn:E.
  - intros Eq. by rewrite (Hq _ _ _ Eq), (Hp _ _ _ E).
  - intros [= <- <-]. by apply Hp in E.
Qed.
Definition last_fields w := (meta_files w, quarantined w, org_files w, recommendations w).
Definition private_fields w :=
  (observations w, event_files w, terminal_files w, size_files w, last_active w, images w).

Definition private_steps k id (leased : bool) : @Step Recs :=
  andthen (andthen (andthen (delete_observations k id) (delete_events k id))
             (clear_last_active_session_if_matches k id)) (remove_images k id leased).
Lemma evidence_steps k id w :
  delete_session_evidence is_uuid k id w =
  match prepare_cleanup is_uuid k id w with
  | Err e => (w, Err e)
  | Ok leased => andthen (private_steps k id leased)
                   (andthen (delete_session k id)
                      (andthen (remove_organization k id) (cleanup_recommendations k id))) w
  end.
Proof.
  unfold delete_session_evidence, private_steps. destruct (prepare_cleanup _ _ _ _); [|done].
  by rewrite !andthen_assoc.
Qed.
Lemma private_steps_frame k id leased : frames last_fields (private_steps k id leased).
Proof.
  repeat apply andthen_frames; intros w w' out E.
  - unfold delete_observations in E. by destruct (ObservationStore.delete_session_observations _ _ _); simplify_eq/=.
  - by destruct (remove_file _ _ _); simplify_eq/=.
  - by destruct (remove_file _ _ _); simplify_eq/=.
  - by destruct (remove_file _ _ _); simplify_eq/=.
  - unfold clear_last_active_session_if_matches in E. by repeat case_match; simplify_eq/=.
  - unfold remove_images in E. by repeat case_match; simplify_eq/=.
Qed.
Lemma events_gone k id w w' u :
  delete_events k id w = (w', Ok u) →
  (id ∉ event_files w') ∧ (id ∉ terminal_files w') ∧ (id ∉ size_files w')
  ∧ observations w' = observations w ∧ last_active w' = last_active w ∧ images w' = images w.
Proof.
  unfold delete_events. intros (w1 & u1 & E1 & E)%andthen_Ok. apply andthen_Ok in E as (w2 & u2 & E2 & E3).
  destruct (remove_file (events_removed k) _ _) as [v1 [|]] eqn:R1; [|done].
  injection E1 as <-. destruct (remove_file (terminal_removed k) _ _) as [v2 [|]] eqn:R2; [|done].
  injection E2 as <-. destruct (remove_file (size_removed k) _ _) as [v3 [|]] eqn:R3; [|done].
  injection E3 as <-. apply remove_file_Ok in R1, R2, R3. done.
Qed.
Lemma last_active_gone k id w w' u :
  clear_last_active_session_if_matches k id w = (w', Ok u) →
  last_active w' ≠ Some id ∧ observations w' = observations w ∧ event_files w' = event_files w
  ∧ terminal_files w' = terminal_files w ∧ size_files w' = size_files w ∧ images w' = images w.
Proof.
  unfold clear_last_active_session_if_matches. destruct (memory_opened k); [|done]. cbn.
  destruct (last_active w == Some id) eqn:E; to_prop; [|by intros [= <-]].
  destruct (memory_written k); [|done]. by intros [= <-].
Qed.
Lemma images_gone k id leased w w0 w' u :
  prepare_cleanup is_uuid k id w0 = Ok leased → images w = images w0 →
  remove_images k id leased w = (w', Ok u) →
  (is_uuid id = true → id ∉ images w') ∧ observations w' = observations w
  ∧ event_files w' = event_files w ∧ terminal_files w' = terminal_files w
  ∧ size_files w' = size_files w ∧ last_active w' = last_active w.
Proof.
  unfold prepare_cleanup, remove_images. intros Hl Hi E. destruct leased.
  - destruct (images_removed k); [|done]. injection E as <-. cbn. split; [set_solver|done].
  - injection E as <-. split; [|done]. intros Hu. rewrite Hu in Hl. cbn in Hl.
    destruct (lease_granted k); [|done]. injection Hl as Hl. case_bool_decide; [done|]. by rewrite Hi.
Qed.
Lemma private_steps_gone k id leased w w' u :
  prepare_cleanup is_uuid k id w = Ok leased → private_steps k id leased w = (w', Ok u) →
  private_gone id w'.
Proof.
  intros Hl (w3 & u3 & (w2 & u2 & (w1 & u1 & E1 & E2)%andthen_Ok & E3)%andthen_Ok & E4)%andthen_Ok.
  unfold delete_observations, ObservationStore.delete_session_observations in E1.
  destruct (observations_removed k); [|done]. injection E1 as <-.
  apply events_gone in E2 as (Hev & Hte & Hsi & Hob & Hla & Him). cbn in Hob, Hla, Him.
  apply last_active_gone in E3 as (Hl3 & Hob3 & Hev3 & Hte3 & Hsi3 & Him3).
  eapply images_gone in E4 as (Hi4 & Hob4 & Hev4 & Hte4 & Hsi4 & Hla4); [|exact Hl|congruence].
  split; try congruence; try done. rewrite Hob4, Hob3, Hob. cbn. by rewrite lookup_delete_eq.
Qed.

Lemma private_gone_frame id w w' :
  private_fields w' = private_fields w → private_gone id w → private_gone id w'.
Proof. intros [= H1 H2 H3 H4 H5 H6] []. split; by rewrite ?H1, ?H2, ?H3, ?H4, ?H5, ?H6. Qed.
Lemma delete_session_spec k id w w' out :
  delete_session k id w = (w', out) →
  private_fields w' = private_fields w ∧ org_files w' = org_files w
  ∧ recommendations w' = recommendations w ∧ session_file_exists id w' = negb (is_ok out).
Proof.
  unfold delete_session, andthen, session_file_exists, remove_file. intros E.
  destruct (meta_files w !! id) eqn:Em.
  - destruct (json_removed k); [|simplify_eq/=; by rewrite Em].
    cbn in E. case_bool_decide; [destruct (corrupt_removed k)|]; simplify_eq/=;
      rewrite ?lookup_delete_eq; (split_and!; [done..|]); cbn; by case_bool_decide; set_solver.
  - case_bool_decide; [destruct (corrupt_removed k)|]; simplify_eq/=; rewrite ?Em;
      (split_and!; [done..|]); cbn; by case_bool_decide; set_solver.
Qed.
Lemma remove_organization_spec k id w w' out :
  remove_organization k id w = (w', out) →
  private_fields w' = private_fields w ∧ meta_files w' = meta_files w
  ∧ quarantined w' = quarantined w ∧ recommendations w' = recommendations w
  ∧ (is_ok out = true → ∃ name, path id = Ok name ∧ org_files w' !! name = None).
Proof.
  unfold remove_organization. destruct (remove _ _ _) as [fs r] eqn:E. apply remove_effect in E as [_ E].
  intros [= <- <-]. split_and!; try done. by destruct r.
Qed.
Lemma cleanup_recommendations_frame k id w w' out :
  cleanup_recommendations k id w = (w', out) →
  private_fields w' = private_fields w ∧ meta_files w' = meta_files w
  ∧ quarantined w' = quarantined w ∧ org_files w' = org_files w.
Proof.
  unfold cleanup_recommendations.
  destruct (delete_recommendations k false _ _) as [rs [u|e]]; [by intros [= <- <-]|].
  destruct (delete_recommendations k true _ _) as [rs' r]. by intros [= <- <-].
Qed.

(** The evidence of a session goes in an order that leaves it retryable.  While its
    record is there, a failed deletion has touched neither its organization record nor
    a recommendation; once its record is gone, so are its observations, events, terminal
    output, images and its mark as last active; and a deletion that succeeds has left
    nothing. *)
Theorem deletion_is_ordered k id w w' out :
  delete_session_evidence is_uuid k id w = (w', out) →
  (session_file_exists id w' = true →
     is_ok out = false ∧ org_files w' = org_files w ∧ recommendations w' = recommendations w)
  ∧ (session_file_exists id w = true → session_file_exists id w' = false → private_gone id w')
  ∧ (is_ok out = true →
       session_file_exists id w' = false ∧ private_gone id w'
       ∧ ∃ name, path id = Ok name ∧ org_files w' !! name = None).
Proof.
  rewrite evidence_steps. destruct (prepare_cleanup is_uuid k id w) as [leased|e] eqn:El.
  2:{ intros [= <- <-]. split_and!; [done|congruence|done]. }
  unfold andthen at 1. destruct (private_steps k id leased w) as [w1 o1] eqn:E1.
  pose proof (private_steps_frame k id leased w w1 o1 E1) as [= Hm Hq Ho Hr].
  assert (Hex : session_file_exists id w1 = session_file_exists id w)
    by (unfold session_file_exists; by rewrite Hm, Hq).
  destruct o1 as [u1|e1]; [|intros [= <- <-]; split_and!; [done|congruence|done]].
  apply (private_steps_gone _ _ _ _ _ _ El) in E1 as Hg.
  unfold andthen at 1. destruct (delete_session k id w1) as [w2 o2] eqn:E2.
  apply delete_session_spec in E2 as (Hp2 & Ho2 & Hr2 & He2).
  apply (private_gone_frame _ _ _ Hp2) in Hg.
  destruct o2 as [u2|e2]; cbn in He2; [|intros [= <- <-]; split_and!; [by rewrite Ho2, Hr2|congruence|done]].
  unfold andthen. destruct (remove_organization k id w2) as [w3 o3] eqn:E3.
  apply remove_organization_spec in E3 as (Hp3 & Hm3 & Hq3 & Hr3 & Hn3).
  apply (private_gone_frame _ _ _ Hp3) in Hg.
  assert (He3 : session_file_exists id w3 = false).
  { unfold session_file_exists in *. by rewrite Hm3, Hq3. }
  destruct o3 as [u3|e3]; [|intros [= <- <-]; split_and!; [congruence|done|done]].
  intros E4. apply cleanup_recommendations_frame in E4 as (Hp4 & Hm4 & Hq4 & Ho4).
  apply (private_gone_frame _ _ _ Hp4) in Hg.
  assert (He4 : session_file_exists id w' = false).
  { unfold session_file_exists in *. by rewrite Hm4, Hq4. }
  split_and!; [congruence|done|]. intros _. rewrite Ho4. by auto.
Qed.
End order.

(** ** What the cleanup removes *)

Section spared.
Context {Recs : Type} `{ArchiveLibrary} (is_uuid : text → bool)
  (parse_from_rfc3339 : string → option Z).
Implicit Types (a : App Recs) (w : Files Recs) (rd : ReadDisk) (session : text)
  (candidates : list SessionMetadata).

Lemma by_activity_total x y : le_by by_activity x y ∨ le_by by_activity y x.
Proof. apply key_le_total. Qed.
Lemma by_activity_trans x y z :
  le_by by_activity x y → le_by by_activity y z → le_by by_activity x z.
Proof. unfold le_by, by_activity. apply (key_le_trans (bytes_of _) (bytes_of _) (bytes_of _)). Qed.
Lemma activity_sorted candidates : StronglySorted (le_by by_activity) (sort_by by_activity candidates).
Proof. apply sort_by_sorted; [apply by_activity_total|apply by_activity_trans]. Qed.

Lemma sorted_filter {A} (R : A → A → Prop) (P : A → Prop) `{∀ x, base.Decision (P x)} (l : list A) :
  StronglySorted R l → StronglySorted R (filter P l).
Proof.
  induction 1 as [|x l _ IH Hx]; [constructor|]. rewrite filter_cons.
  destruct (decide (P x)); [|done]. constructor; [done|]. rewrite Forall_forall in Hx |- *.
  intros y [_ Hy]%list_elem_of_filter. by apply Hx.
Qed.
Lemma filter_split (P : SessionMetadata → Prop) `{∀ m, base.Decision (P m)} candidates :
  candidates ≡ₚ filter P candidates ++ filter (λ m, ¬ P m) candidates.
Proof.
  induction candidates as [|m ms IH]; [done|]. rewrite !filter_cons.
  destruct (decide (P m)), (decide (¬ P m)); try done; cbn.
  - by rewrite <-IH.
  - by rewrite <-Permutation_middle, <-IH.
Qed.

(** The cleanup by number selects the oldest sessions that are not protected, and
    just as many as there are too many, if there are that many unprotected ones. *)
Theorem count_selects_oldest candidates max protected :
  (0 < max)%nat →
  ∃ chosen left,
    candidates ≡ₚ chosen ++ left
    ∧ select_count_candidates candidates max protected = id <$> chosen
    ∧ length chosen = Nat.min (length candidates - max)
                        (length (filter (λ m, id m ∉ protected) candidates))
    ∧ Forall (λ m, id m ∉ protected) chosen
    ∧ ∀ c m, c ∈ chosen → m ∈ left → (id m ∉ protected) → by_activity c m = true.
Proof.
  intros Hmax. set (P := λ m : SessionMetadata, id m ∉ protected).
  set (open := filter P (sort_by by_activity candidates)).
  set (n := (length candidates - max)%nat).
  assert (Hperm : open ≡ₚ filter P candidates).
  { unfold open. by rewrite (sort_by_perm by_activity candidates). }
  exists (take n open), (drop n open ++ filter (λ m, ¬ P m) candidates). split_and!.
  - rewrite app_assoc, take_drop, Hperm. apply filter_split.
  - unfold select_count_candidates. destruct (Nat.eqb_spec max 0); [lia|]. cbn.
    destruct (Nat.leb_spec (length candidates) max) as [Hle|]; [|done].
    assert (n = 0%nat) as -> by (unfold n; lia). done.
  - rewrite length_take. by rewrite Hperm.
  - apply Forall_take, Forall_forall. by intros m [? _]%list_elem_of_filter.
  - intros c m Hc Hm Hp. assert (Hm' : m ∈ drop n open).
    { apply elem_of_app in Hm as [|[Hn _]%list_elem_of_filter]; done. }
    pose proof (sorted_filter _ P _ (activity_sorted candidates)) as Hs. fold open in Hs.
    rewrite <-(take_drop n open) in Hs.
    by eapply (StronglySorted_app_1_elem_of (le_by by_activity)) in Hs.
Qed.

(** What makes the cleanup leave a session alone, whatever creation time it expects. *)
Definition guarded rd (org : nat) session a : Prop :=
  ∀ created, retention_protected rd org session created a = true.
Definition same_session session a a' : Prop :=
  same_evidence session (files a) (files a') ∧ sessions a' !! session = sessions a !! session
  ∧ pending a' = pending a ∧ session_pids a' = session_pids a ∧ organization a' = organization a.
Lemma guarded_same rd org session a a' :
  same_session session a a' → guarded rd org session a → guarded rd org session a'.
Proof.
  intros (He & Hs & Hp & Hpid & _) Hg created. specialize (Hg created).
  unfold retention_protected, closed_now, try_read_session in *. rewrite Hs, Hp, Hpid.
  destruct (_ || _); [done|]. rewrite (same_meta _ _ _ He).
  destruct (meta_files (files a) !! session) as [r|]; [|done].
  destruct (meta_readable rd session); [|done]. destruct r as [m|]; [|done]. cbn in *.
  destruct (id m != session); [done|].
  by rewrite (state_same _ _ _ _ _ _ _ (same_org _ _ _ He)).
Qed.
#[export] Instance same_session_refl session : Reflexive (same_session session).
Proof. intros a. unfold same_session. by split_and!. Qed.
#[export] Instance same_session_trans session : Transitive (same_session session).
Proof.
  intros a1 a2 a3 (A1 & A2 & A3 & A4 & A5) (B1 & B2 & B3 & B4 & B5).
  split_and!; by etrans.
Qed.

Lemma delete_selected_spares rd k org identities selected session a a' deleted :
  delete_selected is_uuid rd k org identities selected a = (a', deleted) →
  guarded rd org session a → same_session session a a'.
Proof.
  revert a deleted. induction selected as [|s selected IH]; intros a deleted E Hg; cbn in E.
  { injection E as <- <-. reflexivity. }
  destruct (retention_protected rd org s _ a) eqn:Ep; [by eapply IH|].
  assert (Hne : s ≠ session) by (intros ->; by rewrite Hg in Ep).
  destruct (delete_session_evidence is_uuid (k s) s (files a)) as [w out] eqn:Ed.
  assert (Hw : same_evidence session (files a) w) by (by eapply evidence_spares).
  destruct (_ || _).
  - destruct (delete_selected _ _ _ _ _ _ _) as [a1 deleted1] eqn:E1. injection E as <- <-.
    assert (Hs : same_session session a (set_sessions (delete s (sessions a)) (set_files w a))).
    { split_and!; try done. cbn. by rewrite lookup_delete_ne. }
    etrans; [exact Hs|]. eapply IH; [exact E1|]. by eapply guarded_same.
  - assert (Hs : same_session session a (set_files w a)) by (split_and!; done).
    etrans; [exact Hs|]. eapply IH; [exact E|]. by eapply guarded_same.
Qed.

(** The reasons to leave a session alone. *)
Definition in_use rd (org : nat) session (m : SessionMetadata) a : Prop :=
  (org, session) ∈ pending a ∨ closed_now session a = false ∨ ended m = false
  ∨ ∀ rev, state (org_readable rd) (org_files (files a)) session (created_at (facts m)) true false
           ≠ Ok (Closed, rev).
Lemma in_use_guarded rd org session m a :
  meta_files (files a) !! session = Some (Some m) → in_use rd org session m a →
  guarded rd org session a.
Proof.
  intros Hm Hu created. unfold retention_protected, try_read_session. rewrite Hm.
  case_bool_decide as Hp; [done|]. cbn [orb].
  destruct (closed_now session a) eqn:Ec; [|done]. cbn [negb].
  destruct (meta_readable rd session); [|done]. cbn. destruct (id m != session); [done|].
  destruct Hu as [|[|[He|Hs]]]; [done|congruence| |].
  - unfold ended in He. apply orb_true_iff. left. rewrite <-orb_assoc. apply orb_true_iff. right.
    rewrite <-negb_andb. by rewrite He.
  - apply orb_true_iff. right. destruct (state _ _ _ _ _ _) as [[[] rev]|e]; [done|by destruct (Hs rev)|done..].
Qed.

(** The files after the sessions were read. *)
Definition after_reading rd a : App Recs := set_files (read_all_sessions rd (files a)).1 a.
Lemma after_reading_same rd session m a :
  meta_files (files a) !! session = Some (Some m) → same_session session a (after_reading rd a).
Proof.
  intros Hm. split_and!; try done. split; try done; cbn.
  - rewrite Hm. apply map_lookup_filter_Some. split; [done|]. by intros (_ & ? & _).
  - rewrite elem_of_union, elem_of_dom. split; [|by left]. intros [|[r Hr]]; [done|].
    apply map_lookup_filter_Some in Hr as [Hr (_ & Hn & _)]. rewrite Hm in Hr. by simplify_eq/=.
Qed.
Lemma retention_leaves rd k k' datetime_min now config a a' out org session :
  retention_cleanup_once is_uuid parse_from_rfc3339 rd k k' datetime_min now config a = (a', out) →
  organization a = Some org → guarded rd org session (after_reading rd a) →
  a' = a ∨ same_session session (after_reading rd a) a'.
Proof.
  intros E Ho Hg. unfold after_reading in *. unfold retention_cleanup_once in E.
  destruct (_ && _); [injection E as <- <-; by left|]. rewrite Ho in E.
  destruct (read_all_sessions rd (files a)) as [w all]. cbn [fst] in *.
  set (a1 := set_files w a) in *. right. case_bool_decide; [injection E as <- <-; reflexivity|].
  set (candidates := sort_by by_activity _) in *.
  destruct (age_phase _ _ _ _ _ _ _ _ _ _) as [a2 o2] eqn:Ea.
  assert (H2 : same_session session a1 a2).
  { unfold age_phase in Ea. destruct (0 <? _); [|injection Ea as <- <-; reflexivity].
    destruct (cutoff _ _ _); [|injection Ea as <- <-; reflexivity].
    destruct (delete_selected _ _ _ _ _ _ _) as [a3 d3] eqn:Ed. injection Ea as <- <-.
    by eapply delete_selected_spares. }
  etrans; [exact H2|]. destruct o2 as [deleted|]; [|injection E as <- <-; reflexivity].
  destruct (count_phase _ _ _ _ _ _ _ _) as [a3 d3] eqn:Ed. injection E as <- <-.
  unfold count_phase in Ed. destruct (_ && _); [|injection Ed as <- <-; reflexivity].
  eapply delete_selected_spares; [exact Ed|]. by eapply guarded_same.
Qed.
Lemma retention_in_use rd k k' datetime_min now config a a' out org session m :
  retention_cleanup_once is_uuid parse_from_rfc3339 rd k k' datetime_min now config a = (a', out) →
  organization a = Some org → meta_files (files a) !! session = Some (Some m) →
  in_use rd org session m a → same_session session a a'.
Proof.
  intros E Ho Hm Hu. pose proof (after_reading_same rd session m a Hm) as H1.
  destruct (retention_leaves _ _ _ _ _ _ _ _ _ _ session E Ho) as [->|H2]; [| |by etrans].
  - eapply guarded_same; [exact H1|]. by eapply in_use_guarded.
  - reflexivity.
Qed.

(** The cleanup pass, whatever it is configured to and whatever fails, leaves
    alone a session that has an action pending or a runtime, that did not end, or whose
    organization record is not that of a closed one: archived, unreadable or invalid. *)
Theorem retention_spares rd k k' datetime_min now config a a' out org session m :
  retention_cleanup_once is_uuid parse_from_rfc3339 rd k k' datetime_min now config a = (a', out) →
  organization a = Some org → meta_files (files a) !! session = Some (Some m) →
  in_use rd org session m a →
  same_evidence session (files a) (files a') ∧ sessions a' !! session = sessions a !! session.
Proof. intros E Ho Hm Hu. by destruct (retention_in_use _ _ _ _ _ _ _ _ _ _ _ _ E Ho Hm Hu) as (? & ? & _). Qed.
End spared.
