(* ===== verification/SessionActions.v ===== *)
(** * Actions on sessions

    [session_actions.rs]: close, archive, restore and delete.  An action names the
    state it was offered in by a token; it is admitted and reserved under the locks,
    waits for the runtime of an active session to finish, and takes effect only if the
    session is still the one it was admitted for and has ended.

    Between admission and effect the locks are free, so the machine [actions_machine]
    interleaves the parts of actions ([Begin], [Signal], [Poll], [Abandon]) with the
    cleanup pass of Retention.v and with what others do: producers write session
    records, runtimes come and go, the workspace is closed and opened again.  The
    projection lock excludes some of these interleavings; the theorems hold for all. *)
From S2P Require Export Retention.

Inductive SessionAction : Type := Close | Archive | Restore | Delete.
#[export] Instance session_action_eq_dec : EqDecision SessionAction.
Proof. solve_decision. Defined.

Inductive SessionError : Type :=
  | ActionConflict
  | ConflictWithMessage (message : string)
  | SessionNotFound
  | Internal (message : string).

Definition bool_str (b : bool) : text := bytes_of (if b then "true" else "false").
Definition runtime_key (handle : option Handle) : text :=
  match handle with
  | None => bytes_of "remembered"
  | Some h =>
      runtime_instance_id h ++ [0x3a] ++ decimal_u64 (run_generation h) ++ [0x3a]
      ++ bytes_of (info_phase h) ++ [0x3a] ++ bool_str (resume_in_progress h) ++ [0x3a]
      ++ bool_str (terminal_attached h)
  end.

Record CapturedAction : Type := mkCaptured {
  cap_store : nat;
  cap_created_at : string;
  cap_revision : Z;
  cap_generation : option Z;
}.
(** An admitted action, with its reservation and the runtime it is to stop. *)
Record Ticket : Type := mkTicket {
  ticket_session : text;
  ticket_action : SessionAction;
  ticket_captured : CapturedAction;
  ticket_stop : option (text * Z);
  ticket_deadline : option Z;
}.

Record Actions {Recs : Type} : Type := mkActions {
  app : App Recs;
  tickets : gmap nat Ticket;
  next_ticket : nat;
}.
#[global] Arguments Actions : clear implicits.

Section actions.
Context {Recs : Type} `{ArchiveLibrary} (is_uuid : text → bool)
  (parse_from_rfc3339 : string → option Z) (datetime_min : Z).
Implicit Types (a : App Recs) (w : Files Recs) (rd : ReadDisk) (session : text) (s : Actions Recs).

Definition identity (h : Handle) : text * Z := (runtime_instance_id h, run_generation h).
Definition close_evaluation (h : Handle) : Handle :=
  mkHandle (runtime_instance_id h) (run_generation h) (info_phase h) (info_lifecycle h)
    (resume_in_progress h) (terminal_attached h) (resize_closed h) (control_closed h) true (kill_sent h).
Definition send_kill (h : Handle) : Handle :=
  mkHandle (runtime_instance_id h) (run_generation h) (info_phase h) (info_lifecycle h)
    (resume_in_progress h) (terminal_attached h) (resize_closed h) (control_closed h)
    (evaluation_closed h) true.

(** What each state offers. *)
Definition available (current : SessionState) (action : SessionAction) (live : bool) : bool :=
  match current, action with
  | Archived, (Restore | Delete) => true
  | Closed, (Archive | Delete) => true
  | Active, (Close | Archive | Delete) => live
  | _, _ => false
  end.

(** What the session is shown as: its organization, with the token of its actions. *)
Definition projected rd session (m : SessionMetadata) a : OrganizationProjection :=
  let rclosed := closed_now session a in
  project (org_readable rd) (org_files (files a)) (instance_id a) session (created_at (facts m))
    (ended m && rclosed) (negb rclosed) (runtime_key (sessions a !! session)).

(** The admission, up to the capture of the runtime: what is captured and the runtime to
    stop. *)
Definition admit_request rd session (action : SessionAction) (token : text) a
    : result SessionError (CapturedAction * option (text * Z)) :=
  org ← ok_or ActionConflict (organization a);
  m ← match try_read_session rd session (files a) with
      | Err _ => Err (ConflictWithMessage "Session metadata unavailable")
      | Ok None => Err SessionNotFound
      | Ok (Some m) => Ok m
      end;
  let handle := sessions a !! session in
  let rclosed := closed_now session a in
  let closed := ended m && rclosed in
  let created := created_at (facts m) in
  if bool_decide (session_action_token (projected rd session m a) ≠ Some token)
  then Err (ConflictWithMessage "Session changed; refresh and try again")
  else
    match state (org_readable rd) (org_files (files a)) session created closed (negb rclosed) with
    | Err _ => Err (ConflictWithMessage "Session state unavailable")
    | Ok (current, rev) =>
        if negb (available current action (is_some handle))
        then Err (ConflictWithMessage "Action is unavailable in this session state")
        else if bool_decide ((org, session) ∈ pending a)
        then Err (ConflictWithMessage "A session action is already running")
        else Ok (mkCaptured org created rev (run_generation <$> handle),
                 if current == Active then identity <$> handle else None)
    end.

(** [finish_session_action].  [now] is the clock once the locks are held. *)
Definition finish_session_action rd (p : Publishing) (k : EvidenceDisk Recs) (iso_now : string)
    (now : Z) session (captured : CapturedAction) (action : SessionAction) (deadline : option Z) a
    : App Recs * result SessionError bool :=
  if bool_decide (organization a ≠ Some (cap_store captured)) then (a, Err ActionConflict)
  else
    match try_read_session rd session (files a) with
    | Err _ => (a, Err (ConflictWithMessage "Session metadata unavailable"))
    | Ok None => (a, Err SessionNotFound)
    | Ok (Some m) =>
        let created := created_at (facts m) in
        if created != cap_created_at captured then (a, Err ActionConflict)
        else if bool_decide (run_generation <$> sessions a !! session ≠ cap_generation captured)
        then (a, Err ActionConflict)
        else
          match state (org_readable rd) (org_files (files a)) session created true false with
          | Err _ => (a, Err ActionConflict)
          | Ok (_, rev) =>
              if negb (rev =? cap_revision captured) then (a, Err ActionConflict)
              else if negb (ended m) || negb (closed_now session a) then (a, Ok false)
              else if is_some_and deadline (λ d, d <=? now)
              then (a, Err (ConflictWithMessage "Close is still finishing; refresh and try again"))
              else
                match action with
                | Close => (a, Ok true)
                | Archive | Restore =>
                    let '(fs, out) := write (org_readable rd) p iso_now session created
                      (if action == Archive then Archived else Closed) (org_files (files a)) in
                    (set_files (set_org_files fs (files a)) a,
                     match out with
                     | Ok _ => Ok true
                     | Err _ => Err (Internal "Could not save session state")
                     end)
                | Delete =>
                    let '(w, out) := delete_session_evidence is_uuid k session (files a) in
                    let a := set_files w a in
                    let a := if is_ok out || negb (session_file_exists session w)
                             then set_sessions (delete session (sessions a)) a else a in
                    (a, match out with
                        | Ok _ => Ok true
                        | Err _ => Err (Internal "Could not delete session evidence")
                        end)
                end
          end
    end.

(** ** Calls *)

Inductive Call : Type :=
  | Begin (rd : ReadDisk) (session : text) (action : SessionAction) (token : text)
  (** [CapturedRuntimeStop::signal]; [wait] starts now *)
  | Signal (ticket : nat) (now wait : Z)
  (** one round of the wait, or the only attempt; the clock before, inside and after *)
  | Poll (ticket : nat) (rd : ReadDisk) (p : Publishing) (k : EvidenceDisk Recs) (iso_now : string)
      (before inside after : Z)
  (** the request is dropped *)
  | Abandon (ticket : nat)
  | RetentionPass (rd : ReadDisk) (k k' : text → EvidenceDisk Recs) (now : Z) (config : RetentionConfig)
  (** others *)
  | SetRecord (session : text) (r : option (option SessionMetadata))
  | SetHandle (session : text) (h : option Handle)
  | SetPid (session : text) (live : bool)
  | CloseWorkspace
  | OpenWorkspace (instance : text).
Inductive Reply : Type :=
  | Began (ticket : nat)
  | Finished
  | Waiting
  | Refused (e : SessionError)
  | Cleaned_up (c : Cleanup)
  | Silent.

(** [Reservation::drop]. *)
Definition release (ticket : nat) s : Actions Recs :=
  match tickets s !! ticket with
  | None => s
  | Some t =>
      mkActions Recs
        (set_pending (pending (app s) ∖ {[(cap_store (ticket_captured t), ticket_session t)]}) (app s))
        (delete ticket (tickets s)) (next_ticket s)
  end.
Definition set_app v s : Actions Recs := mkActions Recs v (tickets s) (next_ticket s).

Definition begin_action rd session (action : SessionAction) (token : text) s : Actions Recs * Reply :=
  match admit_request rd session action token (app s) with
  | Err e => (s, Refused e)
  | Ok (captured, stop) =>
      let a := set_pending (pending (app s) ∪ {[(cap_store captured, session)]}) (app s) in
      let a := if is_some stop
               then set_sessions (alter close_evaluation session (sessions a)) a else a in
      (mkActions Recs a
         (<[next_ticket s := mkTicket session action captured stop None]> (tickets s))
         (S (next_ticket s)), Began (next_ticket s))
  end.
Definition signal (ticket : nat) (now wait : Z) s : Actions Recs * Reply :=
  match tickets s !! ticket with
  | None => (s, Silent)
  | Some t =>
      match ticket_stop t with
      | None => (s, Silent)
      | Some stop =>
          if bool_decide (identity <$> sessions (app s) !! ticket_session t = Some stop)
          then
            (mkActions Recs
               (set_sessions (alter send_kill (ticket_session t) (sessions (app s))) (app s))
               (<[ticket := mkTicket (ticket_session t) (ticket_action t) (ticket_captured t)
                              (Some stop) (Some (now + wait))]> (tickets s)) (next_ticket s), Waiting)
          else (release ticket s, Refused ActionConflict)
      end
  end.
Definition still_finishing : SessionError :=
  ConflictWithMessage "Close is still finishing; refresh and try again".
Definition poll (ticket : nat) rd (p : Publishing) (k : EvidenceDisk Recs) (iso_now : string)
    (before inside after : Z) s : Actions Recs * Reply :=
  match tickets s !! ticket with
  | None => (s, Silent)
  | Some t =>
      match ticket_stop t, ticket_deadline t with
      | Some _, None => (s, Silent)
      | stop, deadline =>
          if is_some_and deadline (λ d, d <=? before) then (release ticket s, Refused still_finishing)
          else
            let '(a, out) := finish_session_action rd p k iso_now inside (ticket_session t)
                               (ticket_captured t) (ticket_action t) deadline (app s) in
            let s := set_app a s in
            match out with
            | Err e => (release ticket s, Refused e)
            | Ok true => (release ticket s, Finished)
            | Ok false =>
                if is_none stop
                then (release ticket s, Refused (ConflictWithMessage "Session is still closing"))
                else if is_some_and deadline (λ d, d <=? after)
                then (release ticket s, Refused still_finishing)
                else (s, Waiting)
            end
      end
  end.

Definition set_record session (r : option (option SessionMetadata)) a : App Recs :=
  set_files (set_meta_files (partial_alter (λ _, r) session (meta_files (files a))) (files a)) a.
Definition actions_call s (call : Call) : Actions Recs * Reply :=
  match call with
  | Begin rd session action token => begin_action rd session action token s
  | Signal ticket now wait => signal ticket now wait s
  | Poll ticket rd p k iso_now before inside after => poll ticket rd p k iso_now before inside after s
  | Abandon ticket => (release ticket s, Silent)
  | RetentionPass rd k k' now config =>
      let '(a, out) := retention_cleanup_once is_uuid parse_from_rfc3339 rd k k' datetime_min now config
                         (app s) in
      (set_app a s, Cleaned_up out)
  | SetRecord session r => (set_app (set_record session r (app s)) s, Silent)
  | SetHandle session h =>
      (set_app (set_sessions (partial_alter (λ _, h) session (sessions (app s))) (app s)) s, Silent)
  | SetPid session live =>
      (set_app (set_session_pids (if live then session_pids (app s) ∪ {[session]}
                                  else session_pids (app s) ∖ {[session]}) (app s)) s, Silent)
  | CloseWorkspace =>
      (set_app (mkApp Recs (files (app s)) None (instance_id (app s)) (pending (app s))
                  (next_organization (app s)) (sessions (app s)) (session_pids (app s))) s, Silent)
  | OpenWorkspace instance =>
      (set_app (mkApp Recs (files (app s)) (Some (next_organization (app s))) instance
                  (pending (app s)) (S (next_organization (app s))) (sessions (app s))
                  (session_pids (app s))) s, Silent)
  end.

(** The daemon has no action running and no workspace open when it starts. *)
#[export] Instance actions_machine : Machine (Actions Recs) Call Reply := {|
  initial s := tickets s = ∅ ∧ pending (app s) = ∅ ∧ organization (app s) = None;
  step := actions_call;
|}.
End actions.

(** ** One action at a time *)

Section reservations.
Context {Recs : Type} `{ArchiveLibrary} (is_uuid : text → bool)
  (parse_from_rfc3339 : string → option Z) (datetime_min : Z).
Implicit Types (a : App Recs) (rd : ReadDisk) (session : text) (s : Actions Recs) (t : Ticket).
#[local] Existing Instance actions_machine.
Abbreviation machine := (actions_machine (Recs := Recs) is_uuid parse_from_rfc3339 datetime_min).

Definition reservation t : nat * text := (cap_store (ticket_captured t), ticket_session t).
(** The reservations are those of the running actions. *)
Record reserved s : Prop := {
  reserved_pending x : x ∈ pending (app s) ↔ ∃ k t, tickets s !! k = Some t ∧ reservation t = x;
  reserved_once k k' t t' : tickets s !! k = Some t → tickets s !! k' = Some t' →
    reservation t = reservation t' → k = k';
  reserved_below k t : tickets s !! k = Some t → (k < next_ticket s)%nat;
}.

Lemma reserved_same s s' :
  pending (app s') = pending (app s) → tickets s' = tickets s → next_ticket s' = next_ticket s →
  reserved s → reserved s'.
Proof. intros Hp Ht Hn [A B C]. split; [intros x|intros k k' t t'|intros k t]; rewrite ?Hp, ?Ht, ?Hn; eauto. Qed.
Lemma reserved_release ticket s : reserved s → reserved (release ticket s).
Proof.
  intros [A B C]. unfold release. destruct (tickets s !! ticket) as [t|] eqn:E; [|by split].
  split; cbn.
  - intros x. rewrite elem_of_difference, elem_of_singleton, A. split.
    + intros [(k & t' & Hk & <-) Hne]. exists k, t'. split; [|done].
      rewrite lookup_delete_ne; [done|]. intros <-. rewrite E in Hk. by simplify_eq.
    + intros (k & t' & [Hne Hk]%lookup_delete_Some & <-). split; [eauto|]. intros Hr.
      by apply Hne, (B _ _ _ _ E Hk).
  - intros k k' t1 t2 [_ H1]%lookup_delete_Some [_ H2]%lookup_delete_Some. by apply B.
  - intros k t1 [_ H1]%lookup_delete_Some. by eapply C.
Qed.
Lemma admit_free rd session action token a captured stop :
  admit_request rd session action token a = Ok (captured, stop) →
  organization a = Some (cap_store captured) ∧ (cap_store captured, session) ∉ pending a.
Proof.
  unfold admit_request. destruct (organization a) as [org|]; [|done]. cbn.
  destruct (try_read_session rd session (files a)) as [[m|]|e]; [|done|done]. cbn.
  case_bool_decide; [done|]. destruct (state _ _ _ _ _ _) as [[current rev]|e]; [|done].
  destruct (negb (available _ _ _)); [done|]. case_bool_decide as Hp; [done|]. by intros [= <- _].
Qed.
Lemma reserved_begin rd session action token s :
  reserved s → reserved (begin_action rd session action token s).1.
Proof.
  intros Hr. pose proof Hr as [A B C]. unfold begin_action.
  destruct (admit_request rd session action token (app s)) as [[captured stop]|e] eqn:E; [|done].
  apply admit_free in E as [_ Hfree].
  assert (Hnew : ∀ k t, tickets s !! k = Some t → reservation t ≠ (cap_store captured, session)).
  { intros k t Hk Hx. apply Hfree, A. eauto. }
  assert (Hn : tickets s !! next_ticket s = None).
  { destruct (tickets s !! next_ticket s) eqn:En; [|done]. apply C in En. lia. }
  assert (Hp : pending (if is_some stop
                        then set_sessions (alter close_evaluation session (sessions (app s)))
                               (set_pending (pending (app s) ∪ {[(cap_store captured, session)]}) (app s))
                        else set_pending (pending (app s) ∪ {[(cap_store captured, session)]}) (app s))
                 = pending (app s) ∪ {[(cap_store captured, session)]}) by (by destruct stop).
  split; cbn [fst app tickets next_ticket].
  - intros x. cbn. rewrite Hp, elem_of_union, elem_of_singleton, A. split.
    + intros [(k & t & Hk & <-)| ->].
      * exists k, t. split; [|done]. rewrite lookup_insert_ne; [done|]. intros <-. congruence.
      * eexists _, _. by rewrite lookup_insert_eq.
    + intros (k & t & [[<- <-]|[_ Hk]]%lookup_insert_Some & <-); [by right|left; eauto].
  - intros k k' t t' [[<- <-]|[_ Hk]]%lookup_insert_Some [[<- <-]|[_ Hk']]%lookup_insert_Some Hx; [done| | |].
    + symmetry in Hx. by apply (Hnew _ _ Hk') in Hx.
    + by apply (Hnew _ _ Hk) in Hx.
    + by eapply B.
  - intros k t [[<- _]|[_ Hk%C]]%lookup_insert_Some; lia.
Qed.
Lemma finish_pending rd p k iso_now now session captured action deadline a a' out :
  finish_session_action is_uuid rd p k iso_now now session captured action deadline a = (a', out) →
  pending a' = pending a.
Proof.
  unfold finish_session_action. intros E. repeat (case_match; simplify_eq/=; try done).
Qed.
Lemma reserved_poll ticket rd p k iso_now before inside after s :
  reserved s → reserved (poll is_uuid ticket rd p k iso_now before inside after s).1.
Proof.
  intros Hr. unfold poll. destruct (tickets s !! ticket) as [t|]; [|done].
  destruct (ticket_stop t) as [stop|] eqn:Es, (ticket_deadline t) as [d|] eqn:Ed; try done;
    (destruct (is_some_and _ _); [by apply reserved_release|];
     destruct (finish_session_action _ _ _ _ _ _ _ _ _ _ _) as [a out] eqn:E;
     apply finish_pending in E;
     assert (Hs : reserved (set_app a s)) by (by apply (reserved_same s));
     destruct out as [[]|e]; cbn; repeat case_match; cbn; try done; by apply reserved_release).
Qed.
Lemma delete_selected_pending rd k org identities selected a a' deleted :
  delete_selected is_uuid rd k org identities selected a = (a', deleted) → pending a' = pending a.
Proof.
  revert a deleted. induction selected as [|x selected IH]; intros a deleted E; cbn in E; [by simplify_eq|].
  destruct (retention_protected _ _ _ _ _); [by eapply IH|].
  destruct (delete_session_evidence _ _ _ _) as [w out]. destruct (_ || _); [|by apply IH in E].
  destruct (delete_selected _ _ _ _ _ _ _) as [a1 d1] eqn:E1. simplify_eq/=. by apply IH in E1.
Qed.
Lemma retention_pending rd k k' now config a a' out :
  retention_cleanup_once is_uuid parse_from_rfc3339 rd k k' datetime_min now config a = (a', out) →
  pending a' = pending a.
Proof.
  unfold retention_cleanup_once, age_phase, count_phase. intros E.
  repeat (case_match; simplify_eq/=; try done);
    repeat match goal with D : delete_selected _ _ _ _ _ _ _ = _ |- _ =>
      apply delete_selected_pending in D; cbn in D end; congruence.
Qed.
Lemma call_reserved s call :
  reserved s → reserved (actions_call is_uuid parse_from_rfc3339 datetime_min s call).1.
Proof.
  intros Hr. destruct call; cbn [actions_call].
  - by apply reserved_begin.
  - unfold signal. destruct (tickets s !! ticket) as [t|] eqn:Et; [|done].
    destruct (ticket_stop t) as [stop|]; [|done].
    case_bool_decide; [|by apply reserved_release]. destruct Hr as [A B C].
    assert (Hsame : ∀ k t', <[ticket := mkTicket (ticket_session t) (ticket_action t) (ticket_captured t)
                       (Some stop) (Some (now + wait))]> (tickets s) !! k = Some t' →
                     ∃ t0, tickets s !! k = Some t0 ∧ reservation t0 = reservation t').
    { intros k t' [[<- <-]|[_ Hk]]%lookup_insert_Some; eauto. }
    split; cbn.
    + intros x. rewrite A. split.
      * intros (k & t0 & Hk & <-). destruct (decide (k = ticket)) as [->|Hne].
        -- exists ticket. eexists. rewrite lookup_insert_eq. split; [done|]. rewrite Et in Hk. by simplify_eq.
        -- exists k, t0. by rewrite lookup_insert_ne.
      * intros (k & t' & (t0 & Hk & <-)%Hsame & <-). eauto.
    + intros k k' t1 t2 (t1' & H1 & E1)%Hsame (t2' & H2 & E2)%Hsame Hx. eapply B; eauto. congruence.
    + intros k t' (t0 & Hk & _)%Hsame. by eapply C.
  - by apply reserved_poll.
  - by apply reserved_release.
  - destruct (retention_cleanup_once _ _ _ _ _ _ _ _ _) as [a out] eqn:E.
    apply retention_pending in E. by apply (reserved_same s).
  - by apply (reserved_same s).
  - by apply (reserved_same s).
  - by apply (reserved_same s).
  - by apply (reserved_same s).
  - by apply (reserved_same s).
Qed.

Lemma reachable_reserved s : reachable (M := machine) s → reserved s.
Proof.
  induction 1 as [s (Ht & Hp & _)|s call _ IH]; [|by apply call_reserved].
  split; rewrite Ht; [|by intros|by intros]. intros x. rewrite Hp. split; [set_solver|].
  intros (k & t & Hk & _). done.
Qed.

(** At any moment at most one action on a session is running under an open
    organization store, and it holds the session's reservation until it ends. *)
Theorem one_action_at_a_time s k k' t t' :
  reachable (M := machine) s → tickets s !! k = Some t → tickets s !! k' = Some t' →
  reservation t = reservation t' → k = k' ∧ reservation t ∈ pending (app s).
Proof. intros [A B C]%reachable_reserved Hk Hk' Hx. split; [by eapply B|]. apply A. eauto. Qed.
End reservations.

(** ** What actions leave alone *)

Section untouched.
Context {Recs : Type} `{ArchiveLibrary} (is_uuid : text → bool)
  (parse_from_rfc3339 : string → option Z) (datetime_min : Z).
Implicit Types (a : App Recs) (rd : ReadDisk) (session : text) (s : Actions Recs) (t : Ticket)
  (call : Call (Recs := Recs)).
Abbreviation actions_step := (actions_call (Recs := Recs) is_uuid parse_from_rfc3339 datetime_min).

(** What a finished or failed attempt does to the files, by session and action. *)
Inductive finish_effect rd (p : Publishing) (iso_now : string) session (action : SessionAction) a
    : Files Recs → Prop :=
  | finish_nothing : finish_effect rd p iso_now session action a (files a)
  | finish_writes m created target fs out :
      meta_files (files a) !! session = Some (Some m) → created = created_at (facts m) →
      ended m = true → closed_now session a = true →
      (action = Archive ∧ target = Archived ∨ action = Restore ∧ target = Closed) →
      write (org_readable rd) p iso_now session created target (org_files (files a)) = (fs, out) →
      finish_effect rd p iso_now session action a (set_org_files fs (files a))
  | finish_deletes m k w out :
      meta_files (files a) !! session = Some (Some m) → ended m = true → closed_now session a = true →
      action = Delete → delete_session_evidence is_uuid k session (files a) = (w, out) →
      finish_effect rd p iso_now session action a w.
Lemma try_read_Some rd session m (w : Files Recs) :
  try_read_session rd session w = Ok (Some m) → meta_files w !! session = Some (Some m).
Proof.
  unfold try_read_session. destruct (meta_files w !! session) as [r|]; [|done].
  destruct (meta_readable rd session); [|done]. destruct r as [m'|]; [|done]. cbn.
  destruct (id m' != session); [done|]. congruence.
Qed.
Lemma finish_effects rd p k iso_now now session captured action deadline a a' out :
  finish_session_action is_uuid rd p k iso_now now session captured action deadline a = (a', out) →
  finish_effect rd p iso_now session action a (files a').
Proof.
  unfold finish_session_action. intros E. case_bool_decide; [injection E as <- <-; constructor|].
  destruct (try_read_session rd session (files a)) as [[m|]|e] eqn:Em;
    [|injection E as <- <-; constructor..]. apply try_read_Some in Em.
  destruct (created_at (facts m) != _); [injection E as <- <-; constructor|].
  case_bool_decide; [injection E as <- <-; constructor|].
  destruct (state _ _ _ _ _ _) as [[st rev]|e]; [|injection E as <- <-; constructor].
  destruct (negb (rev =? _)); [injection E as <- <-; constructor|].
  destruct (ended m) eqn:He, (closed_now session a) eqn:Hc; try (injection E as <- <-; constructor).
  cbn in E. destruct (is_some_and _ _); [injection E as <- <-; constructor|].
  destruct action; [injection E as <- <-; constructor| | |].
  - destruct (write _ _ _ _ _ _ _) as [fs o] eqn:Ew. injection E as <- <-.
    eapply finish_writes; eauto.
  - destruct (write _ _ _ _ _ _ _) as [fs o] eqn:Ew. injection E as <- <-.
    eapply finish_writes; eauto.
  - destruct (delete_session_evidence _ _ _ _) as [w o] eqn:Ed.
    assert (files a' = w) as -> by (destruct (_ || _); by injection E as <- _).
    eapply finish_deletes; eauto.
Qed.

Lemma finish_other rd p k iso_now now session session' captured action deadline a a' out :
  finish_session_action is_uuid rd p k iso_now now session' captured action deadline a = (a', out) →
  session' ≠ session → same_evidence session (files a) (files a').
Proof.
  intros E%finish_effects Hne. destruct E as [|m created target fs o _ _ _ _ _ Ew|m k' w o _ _ _ _ Ed].
  - reflexivity.
  - apply org_write_effect in Ew as [Hs _]. split; try done. by apply Hs.
  - by eapply evidence_spares.
Qed.

Lemma files_release ticket s : files (app (release ticket s)) = files (app s).
Proof. unfold release. by destruct (tickets s !! ticket). Qed.
(** A poll does what the attempt of its ticket does. *)
Lemma poll_files ticket rd p k iso_now before inside after s :
  files (app (poll is_uuid ticket rd p k iso_now before inside after s).1) = files (app s)
  ∨ ∃ t a' out, tickets s !! ticket = Some t
      ∧ finish_session_action is_uuid rd p k iso_now inside (ticket_session t) (ticket_captured t)
          (ticket_action t) (ticket_deadline t) (app s) = (a', out)
      ∧ files (app (poll is_uuid ticket rd p k iso_now before inside after s).1) = files a'.
Proof.
  unfold poll. destruct (tickets s !! ticket) as [t|]; [|by left].
  destruct (ticket_stop t) as [stop|], (ticket_deadline t) as [d|] eqn:Ed; try (by left);
    (destruct (is_some_and _ _); [left; apply files_release|];
     destruct (finish_session_action _ _ _ _ _ _ _ _ _ _ _) as [a' out] eqn:E; right;
     exists t, a', out; rewrite Ed; split_and!; [done|done|];
     destruct out as [[]|e]; cbn; repeat case_match; cbn; try done; by rewrite files_release).
Qed.

(** C28: No call but a new record for it touches anything that is stored of a session that
    has not ended or whose runtime is not closed: no action takes effect on its files, no
    cleanup removes them.  (Asking a runtime to stop leaves what is stored.) *)
Theorem live_session_untouched s call session m :
  meta_files (files (app s)) !! session = Some (Some m) →
  closed_now session (app s) = false ∨ ended m = false →
  (∀ r, call ≠ SetRecord session r) →
  same_evidence session (files (app s))
    (files (app (actions_call is_uuid parse_from_rfc3339 datetime_min s call).1)).
Proof.
  intros Hm Hl Hc. destruct call as [rd x action token|ticket now wait|ticket rd p k iso_now before inside after
    |ticket|rd k k' now config|x r|x h|x live| |instance]; cbn [actions_call]; try reflexivity.
  - unfold begin_action. destruct (admit_request _ _ _ _ _) as [[captured stop]|e]; [|reflexivity].
    by destruct stop.
  - unfold signal. repeat case_match; cbn; rewrite ?files_release; reflexivity.
  - destruct (poll_files ticket rd p k iso_now before inside after s) as [->|(t & a' & out & _ & E & ->)];
      [reflexivity|].
    destruct (decide (ticket_session t = session)) as [<-|Hne]; [|by eapply finish_other].
    apply finish_effects in E as [|m' created target fs o Hm' _ He Hcl _ _|m' k' w o Hm' He Hcl _ _];
      [reflexivity| |]; rewrite Hm in Hm'; injection Hm' as <-; destruct Hl; congruence.
  - cbn. by rewrite files_release.
  - destruct (retention_cleanup_once _ _ _ _ _ _ _ _ _) as [a out] eqn:E. cbn.
    destruct (organization (app s)) as [org|] eqn:Eo.
    + assert (Hu : in_use rd org session m (app s)) by (unfold in_use; tauto).
      by destruct (retention_in_use _ _ _ _ _ _ _ _ _ _ _ _ _ _ E Eo Hm Hu) as (? & _).
    + unfold retention_cleanup_once in E. rewrite Eo in E. by destruct (_ && _); injection E as <- <-.
  - cbn. split; try done. cbn. rewrite lookup_partial_alter_ne; [done|]. intros ->. by destruct (Hc r).
Qed.
End untouched.

(** ** Stale actions *)

Section stale.
Context {Recs : Type} `{ArchiveLaws} (is_uuid : text → bool).
Implicit Types (a : App Recs) (rd : ReadDisk) (session : text).
(** The digests of different revisions differ. *)
Hypothesis digest_separates : ∀ i i' x x' c c' n n' st st' r r',
  token_digest (i, x, c, n, st, r) = token_digest (i', x', c', n', st', r') → n = n'.

Definition shown_at (token : text) (rev : Z) : Prop :=
  ∃ i x c st r, token = token_digest (i, x, c, rev, st, r).
Lemma projected_shown rd session m a token :
  session_action_token (projected rd session m a) = Some token →
  ∃ r, read (org_readable rd) (org_files (files a)) session (created_at (facts m)) = Ok r
     ∧ shown_at token (revision_of r).
Proof.
  unfold projected, project, state.
  destruct (read _ _ _ _) as [r|e]; [|done]. cbn. intros [= <-]. exists r. split; [done|].
  by repeat eexists.
Qed.
Lemma shown_once token rev rev' : shown_at token rev → shown_at token rev' → rev = rev'.
Proof. intros (i & x & c & st & r & ->) (i' & x' & c' & st' & r' & E). by apply digest_separates in E. Qed.

(** An action that was shown before an archive or a restore took effect is refused
    afterwards, whichever it is. *)
Theorem stale_token_refused rd rd' p k iso_now now session captured action deadline a a' token action' m :
  meta_files (files a) !! session = Some (Some m) →
  session_action_token (projected rd session m a) = Some token →
  action = Archive ∨ action = Restore →
  finish_session_action is_uuid rd p k iso_now now session captured action deadline a = (a', Ok true) →
  ∃ e, admit_request rd' session action' token a' = Err e.
Proof.
  intros Hm Ht Ha E. destruct (admit_request rd' session action' token a') as [x|e] eqn:Eq; [exfalso|eauto].
  assert (Hw : ∃ fs target, write (org_readable rd) p iso_now session (created_at (facts m)) target
                 (org_files (files a)) = (fs, Ok tt) ∧ files a' = set_org_files fs (files a)).
  { unfold finish_session_action in E. case_bool_decide; [done|].
    destruct (try_read_session rd session (files a)) as [[m'|]|e] eqn:Er; [|done|done].
    apply try_read_Some in Er. rewrite Hm in Er. injection Er as <-.
    repeat (case_match; try done); destruct Ha; try done; simplify_eq/=;
      destruct (write _ _ _ _ _ _ _) as [fs [[]|e]] eqn:Ew; simplify_eq/=; eauto. }
  destruct Hw as (fs & target & Hw & Hf).
  apply org_write_effect in Hw as [_ [[_ Hn]|(name & r & Hp & Hr & Hs & Hu & Hl & -> & _)]]; [done|].
  apply projected_shown in Ht as (r0 & Hr0 & Hshown). rewrite Hr in Hr0. injection Hr0 as <-.
  unfold admit_request in Eq. destruct (organization a'); [|done]. cbn in Eq.
  destruct (try_read_session rd' session (files a')) as [[m'|]|e] eqn:Er; [|done|done]. cbn in Eq.
  apply try_read_Some in Er. rewrite Hf in Er. cbn in Er. rewrite Hm in Er. injection Er as <-.
  case_bool_decide as Hx; [done|].
  apply projected_shown in Hx as (r' & Hr' & Hshown'). rewrite Hf in Hr'. cbn in Hr'.
  pose proof (shown_once _ _ _ Hshown Hshown') as Hrev. pose proof (read_revision _ _ _ _ _ Hr) as H0'.
  unfold read in Hr'. rewrite Hp in Hr'. cbn in Hr'. rewrite lookup_insert_eq in Hr'.
  destruct (org_readable rd' name) eqn:Ern; [|done]. cbn in Hr'.
  rewrite written_record in Hr' by (done || (split; lia)). cbn in Hr'.
  destruct (_ || _); [done|]. rewrite eqb_refl in Hr'. injection Hr' as <-. cbn in Hrev. lia.
Qed.
End stale.

(** ** Archived sessions *)

Section archived.
Context {Recs : Type} `{ArchiveLaws} (is_uuid : text → bool)
  (parse_from_rfc3339 : string → option Z) (datetime_min : Z) (session : text) (created : string).
Implicit Types (a : App Recs) (rd : ReadDisk) (s : Actions Recs) (t : Ticket)
  (call : Call (Recs := Recs)).
Abbreviation machine := (actions_machine (Recs := Recs) is_uuid parse_from_rfc3339 datetime_min).
Abbreviation actions_step := (actions_call (Recs := Recs) is_uuid parse_from_rfc3339 datetime_min).

(** The organization record says so. *)
Definition archived (w : Files Recs) : Prop :=
  ∃ name bytes r, path session = Ok name ∧ org_files w !! name = Some bytes
    ∧ read_record_file bytes = Ok r ∧ wf_record session r ∧ org_created_at r = created
    ∧ org_state r = Archived.
(** The id was not given to another session. *)
Definition of_creation (r : option (option SessionMetadata)) : Prop :=
  match r with Some (Some m) => created_at (facts m) = created | _ => True end.
Definition way_out (action : SessionAction) : Prop := action = Restore ∨ action = Delete.
Definition no_way_out s : Prop :=
  ∀ k t, tickets s !! k = Some t → ticket_session t = session → ¬ way_out (ticket_action t).
Definition stays s : Prop :=
  archived (files (app s)) ∧ of_creation (meta_files (files (app s)) !! session) ∧ no_way_out s.
(** Nobody asks to restore or delete it, nor reuses its id. *)
Definition keeps call : Prop :=
  match call with
  | Begin _ x action _ => x = session → ¬ way_out action
  | SetRecord x r => x = session → of_creation r
  | _ => True
  end.

Lemma archived_same (w w' : Files Recs) :
  same_file session (org_files w) (org_files w') → archived w → archived w'.
Proof.
  intros Hs (name & bytes & r & Hp & Hf & Hr). exists name, bytes, r. by rewrite (Hs name Hp).
Qed.
Lemma archived_read rd (w : Files Recs) :
  archived w →
  (∃ e, read (org_readable rd) (org_files w) session created = Err e)
  ∨ ∃ r, read (org_readable rd) (org_files w) session created = Ok (Some r) ∧ org_state r = Archived.
Proof.
  intros (name & bytes & r & Hp & Hf & Hr & Hw & Hc & Hs).
  destruct (org_readable rd name) eqn:Er.
  - right. exists r. split; [|done]. apply read_Some. by exists name, bytes.
  - left. unfold read. rewrite Hp. cbn. rewrite Hf, Er. cbn. eauto.
Qed.
Lemma archived_guarded rd org a :
  archived (files a) → of_creation (meta_files (files a) !! session) → guarded rd org session a.
Proof.
  intros Ha Ho expected. unfold retention_protected, try_read_session.
  destruct (_ || _); [done|]. destruct (meta_files (files a) !! session) as [r|]; [|done].
  destruct (meta_readable rd session); [|done]. destruct r as [m|]; [|done]. cbn in Ho |- *.
  destruct (id m != session); [done|]. rewrite Ho.
  apply orb_true_iff. right. unfold state.
  destruct (archived_read rd _ Ha) as [(e & ->)|(r & -> & Hs)]; [done|]. cbn. by rewrite Hs.
Qed.

(** A write that does not restore. *)
Lemma archive_stays rd p iso_now (w : Files Recs) fs out :
  archived w → write (org_readable rd) p iso_now session created Archived (org_files w) = (fs, out) →
  archived (set_org_files fs w).
Proof.
  intros Ha Hw. apply org_write_effect in Hw as [_ [[-> _]|(name & r & Hp & Hr & _ & Hu & Hl & -> & _)]].
  { by destruct w. }
  pose proof (read_revision _ _ _ _ _ Hr) as Hn.
  set (written := mkOrg 1 session created Archived (revision_of r + 1) iso_now).
  exists name, (record_to_vec written), written. split_and!; [done|apply lookup_insert_eq| | |done|done].
  - apply written_record; [split; lia|done].
  - unfold wf_record. cbn. split_and!; try done. lia.
Qed.

Lemma finish_stays rd p k iso_now now captured action deadline x a a' out :
  finish_session_action is_uuid rd p k iso_now now x captured action deadline a = (a', out) →
  (x = session → ¬ way_out action) →
  archived (files a) → of_creation (meta_files (files a) !! session) →
  archived (files a') ∧ of_creation (meta_files (files a') !! session).
Proof.
  intros E Hw Ha Ho. destruct (decide (x = session)) as [->|Hne].
  - apply finish_effects in E as [|m' c target fs o Hm' -> _ _ Ht Ew|m' k' w o _ _ _ -> _]; [done| |].
    + split; [|done]. destruct Ht as [[_ ->]|[-> _]]; [|by destruct Hw; [|left]].
      rewrite Hm' in Ho. cbn in Ho. rewrite Ho in Ew. by eapply archive_stays.
    + by destruct Hw; [|right].
  - eapply finish_other in E; [|done]. split; [|by rewrite (same_meta _ _ _ E)].
    eapply archived_same; [|done]. apply (same_org _ _ _ E).
Qed.
Lemma retention_stays rd k k' now config a a' out :
  retention_cleanup_once is_uuid parse_from_rfc3339 rd k k' datetime_min now config a = (a', out) →
  archived (files a) → of_creation (meta_files (files a) !! session) →
  archived (files a') ∧ of_creation (meta_files (files a') !! session).
Proof.
  intros E Ha Ho. assert (Hr : of_creation (meta_files (files (after_reading rd a)) !! session)).
  { cbn. destruct (filter _ _ !! session) as [r|] eqn:Er; [|done].
    apply map_lookup_filter_Some in Er as [Er _]. by rewrite Er in Ho. }
  destruct (organization a) as [org|] eqn:Eo.
  - destruct (retention_leaves _ _ _ _ _ _ _ _ _ _ _ _ session E Eo) as [->|Hs]; [|done|].
    + by apply archived_guarded.
    + destruct Hs as (He & _). rewrite (same_meta _ _ _ He). split; [|done].
      eapply archived_same; [apply (same_org _ _ _ He)|]. exact Ha.
  - unfold retention_cleanup_once in E. rewrite Eo in E. by destruct (_ && _); injection E as <- <-.
Qed.
Lemma no_way_out_release ticket s : no_way_out s → no_way_out (release ticket s).
Proof.
  intros Hn. unfold release. destruct (tickets s !! ticket); [|done].
  intros k t' Hk. cbn in Hk. apply lookup_delete_Some in Hk as [_ Hk]. by apply Hn in Hk.
Qed.
Lemma no_way_out_poll ticket rd p k iso_now before inside after s :
  no_way_out s → no_way_out (poll is_uuid ticket rd p k iso_now before inside after s).1.
Proof.
  intros Hn. unfold poll. destruct (tickets s !! ticket) as [t|]; [|done].
  destruct (ticket_stop t), (ticket_deadline t); try done;
    (destruct (is_some_and _ _); [by apply no_way_out_release|];
     destruct (finish_session_action _ _ _ _ _ _ _ _ _ _ _) as [a' out];
     destruct out as [[]|e]; cbn; repeat case_match; cbn; try done; by apply no_way_out_release).
Qed.

Lemma call_stays s call : keeps call → stays s → stays (actions_step s call).1.
Proof.
  intros Hk (Ha & Ho & Hn). destruct call as [rd x action token|ticket now wait|ticket rd p k iso_now before inside after
    |ticket|rd k k' now config|x r|x h|x live| |instance]; cbn [actions_call keeps] in *; try done.
  - unfold begin_action. destruct (admit_request _ _ _ _ _) as [[captured stop]|e]; [|done].
    split_and!; [by destruct stop|by destruct stop|].
    intros k t Ht. cbn in Ht. apply lookup_insert_Some in Ht as [[<- <-]|[_ Ht]]; [done|by eapply Hn].
  - unfold signal. destruct (tickets s !! ticket) as [t|] eqn:Et; [|done].
    destruct (ticket_stop t) as [stop|]; [|done]. case_bool_decide; cbn [fst].
    + split_and!; [done..|]. intros k t' Ht. cbn in Ht.
      apply lookup_insert_Some in Ht as [[<- <-]|[_ Ht]]; cbn; by eapply Hn.
    + split_and!; [by rewrite files_release..|by apply no_way_out_release].
  - unfold stays. split_and!; [| |by apply no_way_out_poll];
      (destruct (poll_files is_uuid ticket rd p k iso_now before inside after s)
         as [->|(t & a' & out & Ht & E & ->)]; [done|];
       eapply finish_stays in E as [? ?]; [done| |done|done]; by apply Hn in Ht).
  - split_and!; cbn; [by rewrite files_release..|by apply no_way_out_release].
  - destruct (retention_cleanup_once _ _ _ _ _ _ _ _ _) as [a out] eqn:E.
    apply retention_stays in E as [? ?]; [|done|done]. done.
  - split_and!; [done| |done]. cbn. destruct (decide (x = session)) as [->|Hne].
    + rewrite lookup_partial_alter_eq. by apply Hk.
    + by rewrite lookup_partial_alter_ne.
Qed.

(** C27: An archived session stays archived until somebody asks to restore or delete it,
    whatever producers write of it, runtimes do, cleanups remove, fails, or is opened
    again in between. *)
Theorem archived_until_restored s calls :
  archived (files (app s)) → of_creation (meta_files (files (app s)) !! session) → no_way_out s →
  Forall keeps calls → archived (files (app (run (M := machine) s calls).1)).
Proof.
  intros Ha Ho Hn Hk. assert (Hs : stays s) by done. clear Ha Ho Hn.
  assert (Hrun : stays (run (M := machine) s calls).1); [|by destruct Hrun].
  revert s Hs. induction Hk as [|call calls Hcall _ IH]; intros s Hs; [done|].
  rewrite run_cons. apply IH. by apply call_stays.
Qed.
End archived.
