(* ===== verification/SessionSample.v ===== *)
(** * A library for the organization of sessions

    A small instance of the arguments of SessionArchive.v that satisfies its laws, and
    the theorems on actions and retention at concrete inputs. *)
From stdpp Require Import countable strings.
From S2P Require ObservationSample.
From S2P Require Export SessionActions.

Definition record_fields (r : OrgRecord) : text * string * Z * Z * string :=
  (org_session r, org_created_at r,
   match org_state r with Active => 0 | Closed => 1 | Archived => 2 end, revision r, changed_at r).
Definition fields_record (f : text * string * Z * Z * string) : OrgRecord :=
  let '(x, c, st, n, t) := f in
  mkOrg 1 x c (if st =? 0 then Active else if st =? 1 then Closed else Archived) n t.
#[export] Instance sample : ArchiveLibrary := {|
  record_from_slice bytes :=
    p ← ObservationSample.of_bits bytes;
    f ← countable.decode p;
    let r := fields_record f in
    if (0 <=? revision r) && (revision r <=? u64_max) then Some r else None;
  record_to_vec r := ObservationSample.bits (countable.encode (record_fields r));
  token_digest x := let '(i, x, c, n, st, r) := x in n :: i ++ x ++ bytes_of c ++ r;
|}.
#[export] Instance sample_laws : ArchiveLaws.
Proof.
  split.
  - intros [v x c st n t] [H0 H1] Hv. cbn in *. subst v.
    rewrite ObservationSample.of_bits_bits. cbn [mbind option_bind]. rewrite countable.decode_encode.
    cbn [mbind option_bind fields_record record_fields org_session org_created_at org_state revision changed_at].
    rewrite (proj2 (Z.leb_le 0 n)), (proj2 (Z.leb_le n u64_max)) by done. by destruct st.
  - intros bytes r. cbn. destruct (ObservationSample.of_bits bytes) as [p|]; [|done]. cbn.
    destruct (countable.decode p) as [f|]; [|done]. cbn [mbind option_bind].
    destruct (_ && _) eqn:E; [|done]. intros [= <-]. to_prop. split; lia.
Qed.

(** ** A session that has ended, one that runs *)

Definition demo_record (x activity phase life : string) : SessionMetadata :=
  mkSession (bytes_of x) (mkProvenance None None None None None None None None)
    (mkAttention None None None None None)
    (mkLifecycle "done" phase life "offline" None None None None)
    (mkWork "unknown" [] None None None None None "process" f_one None None None None)
    (mkIdentity "codex" "" None None None None None)
    (mkLabel (bytes_of x) Placeholder false false) None None None None activity None
    (mkFacts [] [] "t0" None).
Definition ended_demo : SessionMetadata := demo_record "s1" "2024" "ended" "dead".
Definition running_demo : SessionMetadata := demo_record "s2" "2025" "active" "alive".
Definition s1 : text := bytes_of "s1".
Definition s2 : text := bytes_of "s2".
Definition demo_files : Files (list text) :=
  mkFiles _ ∅ {[s1 := Some ended_demo; s2 := Some running_demo]} ∅ ObservationRetry.new_store
    {[s1; s2]} {[s1]} ∅ (Some s1) ∅ [s1; s2].
Definition demo_app : App (list text) := mkApp _ demo_files (Some 0%nat) (bytes_of "i") ∅ 1 ∅ ∅.
Definition demo_disk : EvidenceDisk (list text) :=
  mkEvidence _ true true true true true true true true true true true
    (λ _ x rs, (filter (λ y, y ≠ x) rs, Ok tt)).
Definition demo_reads : ReadDisk := mkRead (λ _, true) (λ _, true) (λ _, true).
Definition demo_publishing : Publishing := mkPublishing true true true true true.
Definition demo_parse (s : string) : option Z :=
  if s == "2024" then Some 0 else if s == "2025" then Some 1 else None.

Lemma deletion_is_ordered_witness :
  let w := (delete_session_evidence (λ _, true) demo_disk s1 demo_files).1 in
  session_file_exists s1 w = false ∧ private_gone (λ _, true) s1 w.
Proof.
  destruct (delete_session_evidence (λ _, true) demo_disk s1 demo_files) as [w out] eqn:E.
  destruct (deletion_is_ordered (λ _, true) demo_disk s1 demo_files w out E) as (_ & _ & H).
  assert (Ho : is_ok out = true).
  { change out with (w, out).2. rewrite <-E. vm_compute. reflexivity. }
  destruct (H Ho) as (H1 & H2 & _). exact (conj H1 H2).
Defined.

Lemma count_selects_oldest_witness :
  ∃ chosen left,
    [running_demo; ended_demo] ≡ₚ chosen ++ left
    ∧ select_count_candidates [running_demo; ended_demo] 1 ∅ = id <$> chosen
    ∧ length chosen = 1%nat
    ∧ Forall (λ m, id m ∉ (∅ : gset text)) chosen
    ∧ ∀ c m, c ∈ chosen → m ∈ left → (id m ∉ (∅ : gset text)) → by_activity c m = true.
Proof.
  destruct (count_selects_oldest [running_demo; ended_demo] 1 ∅) as (c & l & H1 & H2 & H3 & H4 & H5); [lia|].
  exists c, l. split; [exact H1|]. split; [exact H2|]. split; [|exact (conj H4 H5)].
  rewrite H3. vm_compute. reflexivity.
Defined.

Definition demo_config : RetentionConfig := mkConfig 1 1.
Definition demo_cleaned : App (list text) * Cleanup :=
  retention_cleanup_once (λ _, true) demo_parse demo_reads (λ _, demo_disk) (λ _, demo_disk)
    (- 10 * day) (5 * day) demo_config demo_app.
Lemma retention_spares_witness :
  session_file_exists s1 (files demo_cleaned.1) = false
  ∧ same_evidence s2 demo_files (files demo_cleaned.1)
  ∧ sessions demo_cleaned.1 !! s2 = sessions demo_app !! s2.
Proof.
  split; [vm_compute; reflexivity|].
  destruct demo_cleaned as [a' out] eqn:E.
  apply (retention_spares (λ _, true) demo_parse demo_reads (λ _, demo_disk) (λ _, demo_disk)
           (- 10 * day) (5 * day) demo_config demo_app a' out 0 s2 running_demo).
  - exact E.
  - reflexivity.
  - vm_compute. reflexivity.
  - right; right; left. vm_compute. reflexivity.
Defined.

Definition demo_actions : Actions (list text) := mkActions _ demo_app ∅ 0.
Definition demo_token : text :=
  default [] (session_action_token (projected demo_reads s1 ended_demo demo_app)).
Definition demo_archive : list (Call (Recs := list text)) :=
  [Begin demo_reads s1 Archive demo_token;
   Poll 0 demo_reads demo_publishing demo_disk "t1" 0 0 0].
#[local] Existing Instance actions_machine.
Abbreviation demo_run := (run (M := actions_machine (λ _ : text, true) demo_parse (- 10 * day))).
Definition demo_archived : Actions (list text) := (demo_run demo_actions demo_archive).1.
(** The workspace is opened again, a cleanup passes, and the record is written over. *)
Definition demo_later : list (Call (Recs := list text)) :=
  [CloseWorkspace; OpenWorkspace (bytes_of "j");
   RetentionPass demo_reads (λ _, demo_disk) (λ _, demo_disk) (5 * day) demo_config;
   SetRecord s1 (Some (Some (demo_record "s1" "2026" "active" "alive")))].

Lemma archived_until_restored_witness :
  archived s1 "t0" (files (app (demo_run demo_archived demo_later).1)).
Proof.
  apply archived_until_restored.
  - exists (s1 ++ suffix), (record_to_vec (mkOrg 1 s1 "t0" Archived 1 "t1")), (mkOrg 1 s1 "t0" Archived 1 "t1").
    split; [vm_compute; reflexivity|]. split; [vm_compute; reflexivity|].
    split; [vm_compute; reflexivity|]. repeat split; vm_compute; discriminate.
  - vm_compute. reflexivity.
  - intros k t Hk. assert (E : tickets demo_archived = ∅) by (vm_compute; reflexivity).
    rewrite E in Hk. discriminate Hk.
  - repeat constructor.
Defined.

Lemma stale_token_refused_witness :
  ∃ e, admit_request demo_reads s1 Delete demo_token (app demo_archived) = Err e.
Proof.
  destruct (finish_session_action (λ _, true) demo_reads demo_publishing demo_disk "t1" 0 s1
              (mkCaptured 0 "t0" 0 None) Archive None demo_app) as [a' out] eqn:E.
  assert (Ea : app demo_archived = a').
  { change a' with (a', out).1. rewrite <-E. vm_compute. reflexivity. }
  assert (Eo : out = Ok true).
  { change out with (a', out).2. rewrite <-E. vm_compute. reflexivity. }
  rewrite Ea. rewrite Eo in E.
  apply (stale_token_refused (λ _, true)) with (1 := λ i i' x x' c c' n n' st st' r r' E,
    f_equal (λ l, hd 0 l) E) (2 := eq_refl (Some (Some ended_demo)) : meta_files (files demo_app) !! s1 = _)
    (5 := E).
  - vm_compute. reflexivity.
  - by left.
Defined.

Lemma live_session_untouched_witness :
  same_evidence s2 demo_files (files (app (actions_call (λ _ : text, true) demo_parse (- 10 * day)
    demo_actions (RetentionPass demo_reads (λ _, demo_disk) (λ _, demo_disk) (5 * day) demo_config)).1)).
Proof.
  apply (live_session_untouched (λ _ : text, true) demo_parse (- 10 * day) demo_actions _ s2 running_demo).
  - vm_compute. reflexivity.
  - right. vm_compute. reflexivity.
  - discriminate.
Defined.

Definition demo_begun : Actions (list text) :=
  (demo_run (mkActions _ (mkApp _ demo_files None [] ∅ 0 ∅ ∅) ∅ 0)
     [OpenWorkspace (bytes_of "i"); Begin demo_reads s1 Archive demo_token]).1.
Lemma one_action_at_a_time_witness :
  ∃ t, tickets demo_begun !! 0%nat = Some t ∧ 0%nat = 0%nat
       ∧ reservation t ∈ pending (app demo_begun).
Proof.
  eexists. split; [vm_compute; reflexivity|].
  refine (one_action_at_a_time (λ _ : text, true) demo_parse (- 10 * day) demo_begun 0 0 _ _ _ _ _ eq_refl).
  - apply run_reachable, reachable_initial. repeat split.
  - vm_compute. reflexivity.
  - vm_compute. reflexivity.
Defined.

Lemma startup_check_exact_witness :
  let fs := <[s1 ++ suffix := record_to_vec (mkOrg 1 s1 "t0" Closed 1 "t1")]> ∅ in
  dir_has_retention_protected_records (λ _, true) fs
    (Some [Some (true, s1 ++ suffix); Some (false, [])]) true = false
  ↔ Forall (closed_entry (λ _, true) fs) [Some (true, s1 ++ suffix); Some (false, [])].
Proof.
  cbv zeta. apply startup_check_exact. intros name Hn.
  apply elem_of_cons in Hn as [[= ->]|Hn]; [rewrite lookup_insert_eq; eauto|].
  apply list_elem_of_singleton in Hn. discriminate Hn.
Defined.
