(* ===== verification/SpamCleanup.v ===== *)
(** * The background trim of workflow observations

    [observation_spam_cleanup_once] and [apply_plans] of [runtime/retention.rs]: a pass
    plans the trims of all sessions at once and applies them one session at a time,
    looking again each time at the workspace and at what recommendations cite, because
    others use the store in between. *)
From S2P Require Rollup.
From S2P Require Export ObservationDeletion.

Section cleanup.
Context `{LogLibrary}.
Implicit Types (s : Store) (now : Z) (recommendations : list Rollup.Recommendation).

(** The states in which the user or the system has acted on a recommendation. *)
Definition live (r : Rollup.Recommendation) : bool :=
  match Rollup.status r with
  | Rollup.Accepted | Rollup.Executing | Rollup.RolledUp => true
  | _ => false
  end.
Definition protected_observation_ids recommendations : gset text :=
  list_to_set (concat ((λ r, Rollup.observation_id <$> Rollup.evidence r)
                         <$> filter (λ r, live r = true) recommendations)).

(** What a round finds: what others did to the store since the last one, the workspace
    that is open (its path and the instance of its store) with what its recommendations
    are, and whether the segment can be rewritten. *)
Record Moment : Type := mkMoment {
  others : list Call;
  workspace : option (text * Z * result text (list Rollup.Recommendation));
  rewritten : bool;
}.
Fixpoint apply_plans (identity : text * Z) now (plans : list (text * list text))
    (moments : list Moment) s : Store * list text :=
  match plans, moments with
  | (session, drop_ids) :: plans, m :: moments =>
      let s := (run s (others m)).1 in
      match workspace m with
      | None => (s, [])
      | Some (found, listed) =>
          if found != identity then (s, [])
          else
            match listed with
            | Err _ => apply_plans identity now plans moments s
            | Ok recommendations =>
                let '(i, d, out) :=
                  apply_trim_session (rewritten m) now session drop_ids
                    (protected_observation_ids recommendations) (inner s) (dir s) in
                let '(s, removed) :=
                  apply_plans identity now plans moments (mkStore i d (cells s) (next_cell s)) in
                (s, default [] out ++ removed)
            end
      end
  | _, _ => (s, [])
  end.
(** [first] is what the planning finds, before the [moments]. *)
Definition observation_spam_cleanup_once now (first : Moment) (moments : list Moment) s
    : Store * list text :=
  match workspace first with
  | Some (identity, Ok recommendations) =>
      apply_plans identity now
        (plan_redundant_trims (protected_observation_ids recommendations) (inner s)) moments s
  | _ => (s, [])
  end.
(** The composition that plans and applies at once. *)
Definition trim_all (protected : gset text) now (replaced : text → bool)
    (plans : list (text * list text)) s : Store * list text :=
  fold_left (λ acc plan,
    let '(i, d, out) := apply_trim_session (replaced plan.1) now plan.1 plan.2 protected
                          (inner acc.1) (dir acc.1) in
    (mkStore i d (cells acc.1) (next_cell acc.1), acc.2 ++ default [] out)) plans (s, []).
Definition trim_redundant_occurrences (replaced : text → bool) now (protected : gset text) s
    : Store * list text :=
  trim_all protected now replaced (plan_redundant_trims protected (inner s)) s.
End cleanup.

Section cited.
Context `{LogLibrary}.
Implicit Types (s : Store) (now : Z).

Lemma trim_spares_protected replaced now session ids protected i d i' d' removed x :
  apply_trim_session replaced now session ids protected i d = (i', d', Some removed) →
  x ∈ removed → (x ∉ protected) ∧ one_of x ids = true.
Proof.
  unfold apply_trim_session. destruct (degraded i); [intros [= _ _ <-]; by intros ?%elem_of_nil|].
  destruct (session_cache i !! session) as [c|]; [|intros [= _ _ <-]; by intros ?%elem_of_nil].
  case_bool_decide; [intros [= _ _ <-]; by intros ?%elem_of_nil|].
  destruct replaced; [|done]. intros [= _ _ <-] (io & -> & [Hk Hio]%list_elem_of_filter)%list_elem_of_fmap.
  pose proof (trimmed_are_spam ids protected (observations c)) as Hs. rewrite Forall_forall in Hs.
  destruct (Hs io.2) as (H1 & H2 & _); [|done].
  apply list_elem_of_fmap. exists io. split; [done|]. by apply list_elem_of_filter.
Qed.
(** What the pass removes was planned, and is cited by no recommendation that is live
    when its segment is rewritten. *)
Lemma cleanup_keeps_cited identity now plans moments s x :
  x ∈ (apply_plans identity now plans moments s).2 →
  ∃ plan m recommendations, plan ∈ plans ∧ m ∈ moments ∧ one_of x plan.2 = true
    ∧ workspace m = Some (identity, Ok recommendations)
    ∧ x ∉ protected_observation_ids recommendations.
Proof.
  revert moments s. induction plans as [|[session ids] plans IH]; intros [|m moments] s Hx; cbn in Hx;
    try (by apply elem_of_nil in Hx).
  assert (Hrest : ∀ s', x ∈ (apply_plans identity now plans moments s').2 →
    ∃ plan m' recommendations, plan ∈ (session, ids) :: plans ∧ m' ∈ m :: moments
      ∧ one_of x plan.2 = true ∧ workspace m' = Some (identity, Ok recommendations)
      ∧ x ∉ protected_observation_ids recommendations).
  { intros s' (plan & m' & rs & H1 & H2 & H3)%IH. exists plan, m', rs. rewrite !elem_of_cons. tauto. }
  destruct (workspace m) as [[found listed]|] eqn:Ew; [|by apply elem_of_nil in Hx].
  destruct (found != identity) eqn:Ei; [by apply elem_of_nil in Hx|]. to_prop. subst found.
  destruct listed as [rs|e]; [|by eapply Hrest].
  destruct (apply_trim_session _ _ _ _ _ _ _) as [[i d] out] eqn:Et.
  destruct (apply_plans _ _ _ _ _) as [s' removed] eqn:Ea. cbn in Hx.
  apply elem_of_app in Hx as [Hx|Hx].
  - destruct out as [ids'|]; [|by apply elem_of_nil in Hx]. cbn in Hx.
    eapply trim_spares_protected in Et as [H1 H2]; [|exact Hx].
    exists (session, ids), m, rs. rewrite !elem_of_cons. tauto.
  - eapply Hrest. by rewrite Ea.
Qed.
End cited.
